(* ===== verification/_CoqProject ===== *)
-Q . S2P
Prelude.v
Cursor.v
WalFrame.v
WalMeta.v
WalNames.v
Wal.v
WalInv.v
WalProps.v
WalOpen.v
WalSpec.v
WalRead.v
WalDisk.v
GoText.v
Paths.v
AgentSafety.v
BackupText.v
Backup.v
BackupSpec.v
BackupRestore.v
BackupClose.v
BackupRetention.v
WalOnce.v
WalProgress.v
Identity.v
DiskBudget.v
AgentStorage.v
Arbiter.v
Operation.v
Engine.v
EngineInv.v
EngineEvo.v
EngineSpec.v
EngineLife.v
AgentEviction.v
AgentId.v
Registration.v
Handshake.v
Session.v
AgentState.v
AgentStateSpec.v
Json.v
AuditStore.v
AuditStoreSpec.v
AuditStoreInv.v
AuditRetention.v
AuditHeld.v
AuditEnforce.v
AuditStoreProps.v
AuditWitness.v
AuditSync.v
AuditWire.v
OperationWire.v
AuditSyncSpec.v
AuditEnd.v
AuditEndDemo.v
AuditGen.v
LogRelay.v
AuditEvents.v
ManagedAudit.v
AuditRunner.v
