(* ===== verification/Prelude.v ===== *)
(** * DockLattice: a verification library

    DockLattice manages Docker hosts: an Agent on every host, one Server with a
    SQLite database and a web interface. This library models the parts of it that
    keep promises over failures, restarts and concurrent activity, and proves those
    promises. All paths below are under [src/internal].

    ** The program

    An Agent runs _operations_ on its host ([operation]): accepted once per
    idempotency key, journaled, exclusive per Compose project, cancellable until
    they commit, recovered after a restart. What it does and what the Docker event
    stream shows ([auditgen], [auditevents], [managedaudit]) goes as _audit
    records_ into a segmented write-ahead log ([auditwal]), whose positions are
    cursors (incarnation of the Agent, sequence number). Incarnations come from the
    Agent's durable state ([agentstate]). The disk budget ([diskbudget],
    [agentstorage]) admits writes and evicts data under pressure, unacknowledged
    audit records last and never silently. The Agent protects itself from the
    operations it executes ([agentsafety]) and keeps backups of project files that
    restores bring back under a journal ([backup]).

    An Agent joins with a one-time token ([registration]), receives a credential
    the Server signs ([identity]) and opens a session with it
    ([producttransport/handshake.go]); the registry makes the newest incarnation
    the only open session. Over the session, traffic classes share the connection
    ([scheduling]), logs are relayed in bounded memory ([logrelay]) and audit
    records are synchronised ([auditsync]): the Agent announces its coverage and
    sends records, the Server stores them ([auditstore]) and acknowledges a cursor
    only when every cursor up to it is stored or accounted for, after which the
    Agent may delete.

    ** Files

    - [Prelude]: machine integers with wrap-around, times, the state-and-error
      monad [M], its rules for invariants ([keeps]), transitions ([moves]) and
      Hoare triples ([triple]), and lemmas on lists and options.
    - [Cursor], [WalFrame], [WalMeta], [WalNames], [Wal]: [auditwal] from the bytes
      of a frame to [Open]. [WalInv], [WalProps], [WalOpen], [WalSpec], [WalRead]:
      its invariant, the safety of every operation, of opening any directory and of
      reading. [WalDisk]: the log refines a queue. [WalOnce]: [once.go].
      [WalProgress]: when an append succeeds.
    - [GoText], [Paths], [Json]: what the code uses of the standard library on
      text - UTF-8, hexadecimal, SHA-256, [path.Clean], [strings], [json.Valid].
    - [AgentSafety]: [agentsafety], with the guards of [dockeradapter/adapter.go]
      and [agentruntime/product.go] in front of Docker and Compose.
    - [BackupText], [Backup]: [backup]. [BackupSpec], [BackupRestore],
      [BackupClose], [BackupRetention]: atomic restores, recovery, retention.
    - [DiskBudget], [AgentStorage]: [diskbudget] and [agentstorage]; the class
      [ReclaimerLaw] is what a subsystem promises to the eviction executor.
      [AgentEviction]: the executor over the log with its directory, the operations
      and the backups, and the log's removal of temporary files.
    - [Arbiter]: [scheduling] and [transport/class.go].
    - [Operation], [Engine]: [operation]. [EngineInv], [EngineEvo], [EngineSpec],
      [EngineLife]: invariant, evolution of records, the engine as a transition
      system, and restart, outbox and shutdown.
    - [AgentId], [AgentState], [AgentStateSpec]: [agentid] and [agentstate].
    - [Identity], [Registration], [Handshake], [Session]: [identity],
      [registration], the handshake, the identity verifier and the session registry
      of [producttransport] over the Agent rows of [serverstore].
    - [AuditStore]: [auditstore] as transactions on tables. [AuditStoreSpec],
      [AuditStoreInv], [AuditRetention], [AuditHeld], [AuditEnforce],
      [AuditStoreProps], [AuditWitness]: what an acknowledgement rests on, the
      invariant, retention, and a run of the store.
    - [AuditSync], [AuditSyncSpec]: [auditsync], both halves. [AuditEnd],
      [AuditEndDemo]: log, halves, stream and store as one system.
    - [AuditWire], [OperationWire]: the conversions of [producttransport/grpc.go].
    - [AuditGen], [LogRelay]: [auditgen] and [logrelay].
    - [AuditEvents], [ManagedAudit], [AuditRunner]: the codec, appender and runner
      of [auditevents], [managedaudit], and [auditsync/decoder.go].

    Definitions keep the names of the code. A struct is a [Record], a string enum
    an [Inductive] with one constructor more for any other string, an [int64] or
    [uint64] an integer whose wrap-around is written where the code can reach it.

    ** State, failures and concurrency

    An operation is a function on the state of its component: the object in memory,
    what it owns on disk or in the database, and the outcomes of the calls still to
    come. Every call that can fail consumes an outcome, so a theorem about all
    states is one about all the ways the calls can fail; an exhausted list means
    success. A crash is a run whose calls all fail from some point on, followed by
    a restart that keeps what was written and forgets the rest. Loss of unsynced
    data in a power failure is not represented.

    A mutex makes a critical section atomic; a component is a transition system
    whose steps are its critical sections, and its invariants hold in every
    interleaving of them. Where a call leaves the component - a database statement,
    a receive from a stream - other processes may act first: the model lets them
    run any operations there.

    ** What is proved

    - Audit records are not lost silently: in the log ([WalSpec.no_silent_loss],
      [WalSpec.open_contract]), under eviction ([AgentEviction.eviction_keeps_audit]),
      in the Server's store ([AuditStoreSpec.server_ack_sound],
      [AuditRetention.acked_forever], [AuditSyncSpec.server_offers_held]) and from
      end to end ([AuditEnd.audit_end_to_end]).
    - The log is a queue ([WalDisk.log_is_queue]), appends are idempotent by key
      ([WalOnce.append_once]) and the log holds one record of a terminal operation,
      whose delivery succeeds when the calls do
      ([ManagedAudit.terminal_delivered_once], [ManagedAudit.terminal_deliverable]).
      These suppose that a write that fails writes nothing: a torn append breaks
      them ([WalSpec.torn_append_blocks_reopen]).
    - Events are accounted for exactly from the Docker stream to the log
      ([AuditGen.generator_accounts], [AuditRunner.runner_contract]), and bytes and
      lines of logs likewise ([LogRelay.relay_accounts]).
    - Encodings are inverse to decodings ([WalFrame.scan_recovers_intact_prefix],
      [AuditEvents.codec_roundtrip], [AuditWire.agent_messages_arrive]), and
      optimised checks agree with what they decide ([WalMeta.rangeExplained_iff]).
    - Operations: valid records ([EngineSpec.engine_invariant]), commit and cancel
      exclude each other, a failed save changes nothing, project locks exclude and
      are given back, and what restart and outbox do ([EngineSpec], [EngineLife]).
    - Durable state moves forward and incarnations are fresh ([AgentStateSpec]).
    - Access: credentials are bound by their signature and stay revoked
      ([Identity]), a token registers one Agent ([Registration]), a session needs a
      verified credential and is the only one ([Handshake], [Session]), the Agent
      does not touch itself ([AgentSafety]).
    - Backups: restores are all or nothing, an undisturbed start closes a pending
      one, and retention deletes old automatic snapshots only ([BackupRestore],
      [BackupClose], [BackupRetention]).
    - Loops end: retention ([AuditEnforce.retention_total]), the registry's
      compare-and-swap ([Session]), and a waiting traffic class is served within a
      bounded number of emissions ([Arbiter.no_starvation]).

    Lemmas about concrete runs show where the code differs from its comments or
    loses an invariant the theorems state as a condition, such as
    [BackupClose.pruned_snapshot_lost], [WalOnce.append_once_again] and
    [WalDisk.stray_blocks_appends].

    ** Fuel

    Loops that are not structural have fuel, and it suffices for the code's loop:
    loops over segments, files or queue entries ([Wal], [Backup.replace_files],
    [LogRelay.make_room], [Engine.cleanup_loop]) get the number of entries, each
    iteration consuming one; readers and scanners get the length of their input;
    [Session.cas_loop] gets one more round than there are concurrent writers to
    lose against; the retention rounds of [AuditStore] get one more than there are
    rows, and [AuditEnforce] proves that they never run out; [Operation.trim_from]
    needs the four bytes of a rune. In [GoText], SHA-256 gets the length of the
    message, and its constants are computed by square and cube roots with enough
    bits.

    ** Not modelled

    JSON, protobuf, archive and RFC 3339 texts are what decoding them yields, with
    their sizes as arguments where the code bounds them; the frames of the log, the
    signed payload of a credential and the handshake are modelled byte for byte.
    Ed25519, random bytes and clocks are arguments. Left out, because they consist
    of calls into libraries or the system or keep nothing: the HTTP interface and
    the web pages ([serverapi], [webui], [registrationhttp]), the live views
    ([servermatrix], [livestats], [livematrix]), the Docker and Compose adapters
    apart from their guards ([dockeradapter], [agentquery], [agentops],
    [composeexec], [composeconfig], [composesource], [projectmodel]), discovery of
    projects ([agentprojects], [discovery]), [safefile], TLS and gRPC themselves,
    the opening and migration of the database, process wiring ([app],
    [agentruntime], [serverruntime], [serverbootstrap], [config]) and the transport
    prototypes with their measurements ([candidate], [experiment], [metrics],
    [workload]). Inside the modelled packages, the removal of abandoned temporary
    files of the operation journal and of project staging, permission checks of
    directories and the polling loop of [Shutdown] are left out.

    Simplifications of the modelled parts: [AuditStore.EnforceRetention] runs its
    batches without another writer between them; in [AuditSync] the binder of the
    Agent's state answers without touching the log, and the end-to-end system leaves
    out rebinding the log ([Wal.RebindArchive], which [WalSpec] covers); a
    registration of [Session] includes closing the session it replaces, which the
    code does after unlocking; [AgentState] files hold the state itself, so that the
    replacement of invalid UTF-8 by [encoding/json] is not represented;
    [LogRelay.Allow] rounds the product and the sum separately, as Go does unless
    the compiler fuses them;
    an eviction runs without other operations of the log between its tiers. *)

From Stdlib Require Export ZArith Lia Sorted.
From stdpp Require Export base option gmap strings list.

#[global] Open Scope Z_scope.

(** ** Machine integers

    Go's [uint64] and [int64] values are integers of [Z]; arithmetic whose
    overflow the code can reach is written with the wrap-around functions
    [u64] and [i64]. *)

Definition max_u64 : Z := 2 ^ 64 - 1.
Definition max_i64 : Z := 2 ^ 63 - 1.
Definition min_i64 : Z := - 2 ^ 63.

Definition u64 (x : Z) : Z := x mod 2 ^ 64.
Definition u32 (x : Z) : Z := x mod 2 ^ 32.
Definition i64 (x : Z) : Z := (x + 2 ^ 63) mod 2 ^ 64 - 2 ^ 63.

Definition u64_ok (x : Z) : Prop := 0 <= x <= max_u64.
Definition i64_ok (x : Z) : Prop := min_i64 <= x <= max_i64.

Lemma u64_id x : u64_ok x -> u64 x = x.
Proof. unfold u64_ok, max_u64, u64. intros. apply Z.mod_small. lia. Qed.

Lemma u64_range x : u64_ok (u64 x).
Proof.
  unfold u64_ok, max_u64, u64.
  pose proof (Z.mod_pos_bound x (2 ^ 64) ltac:(lia)). lia.
Qed.

Lemma i64_id x : i64_ok x -> i64 x = x.
Proof. unfold i64_ok, max_i64, min_i64, i64. intros. rewrite Z.mod_small; lia. Qed.

Lemma i64_range x : i64_ok (i64 x).
Proof.
  unfold i64_ok, max_i64, min_i64, i64.
  pose proof (Z.mod_pos_bound (x + 2 ^ 63) (2 ^ 64) ltac:(lia)). lia.
Qed.

(** Two's-complement reinterpretation: a signed value survives the round trip
    through [uint64]. *)
Lemma i64_u64 x : i64_ok x -> i64 (u64 x) = x.
Proof.
  unfold i64_ok, max_i64, min_i64, i64, u64. intros.
  rewrite Zplus_mod_idemp_l, Z.mod_small; lia.
Qed.

(** ** Time

    A [time.Time] is the number of nanoseconds since the Unix epoch. The zero
    [time.Time] is the first instant of year one. *)

Abbreviation time := Z (only parsing).
Definition time_zero : time := -62135596800000000000.
Definition is_zero (t : time) : bool := t =? time_zero.

(** The years 0 to 9999, which RFC 3339 can express. *)
Definition rfc3339_time (t : time) : bool :=
  (-62167219200000000000 <=? t) && (t <=? 253402300799999999999).

(** ** Results, and a state monad in which a failing step keeps the state

    A Go method mutates its receiver and then may return an error; the
    mutation survives the error. [M S E A] therefore returns the state on both
    sides. *)

Inductive res (E A : Type) : Type :=
| Ok (a : A)
| Err (e : E).
Arguments Ok {E A} a.
Arguments Err {E A} e.

Definition is_ok {E A} (r : res E A) : bool :=
  match r with Ok _ => true | Err _ => false end.

Definition M (S E A : Type) : Type := S -> res E A * S.

Section Monad.
Context {S E : Type}.

Definition ret {A} (a : A) : M S E A := fun s => (Ok a, s).
Definition fail {A} (e : E) : M S E A := fun s => (Err e, s).
Definition bind {A B} (m : M S E A) (f : A -> M S E B) : M S E B :=
  fun s => match m s with
           | (Ok a, s') => f a s'
           | (Err e, s') => (Err e, s')
           end.
Definition get : M S E S := fun s => (Ok s, s).
Definition gets {A} (f : S -> A) : M S E A := fun s => (Ok (f s), s).
Definition modify (f : S -> S) : M S E unit := fun s => (Ok tt, f s).
(** [attempt m] runs [m] and hands its error over as a value: the
    [if err := m(); err != nil { ... }] idiom. *)
Definition attempt {A} (m : M S E A) : M S E (res E A) :=
  fun s => let '(r, s') := m s in (Ok r, s').
Definition of_res {A} (r : res E A) : M S E A :=
  fun s => (r, s).
End Monad.

Declare Scope go_scope.
Delimit Scope go_scope with go.
#[global] Open Scope go_scope.

Notation "'let*' x ':=' m 'in' k" := (bind m (fun x => k))
  (at level 10, x pattern, m at level 100, k at level 200,
   format "'[v' 'let*'  x  ':='  m  'in'  '/' k ']'") : go_scope.
Notation "m ;;; k" := (bind m (fun _ => k))
  (at level 199, right associativity, format "'[v' m  ;;;  '/' k ']'") : go_scope.
Notation "'if*' b 'then' e 'end' ; k" := (if b then fail e else k)
  (at level 10, b at level 100, e at level 100, k at level 200,
   format "'[v' 'if*'  b  'then'  e  'end' ;  '/' k ']'") : go_scope.

(** *** Invariants of monadic programs

    [keeps I m]: every run of [m] from a state in [I] ends in [I], whether it
    returns or fails. *)

Definition keeps {S E A} (I : S -> Prop) (m : M S E A) : Prop :=
  forall s, I s -> I (m s).2.

(** [moves R m]: every run of [m] relates its initial to its final state. *)
Definition moves {S E A} (R : S -> S -> Prop) (m : M S E A) : Prop :=
  forall s, R s (m s).2.

Create HintDb keeps.

Section Keeps.
Context {S E : Type} (I : S -> Prop).

Lemma keeps_ret {A} (a : A) : keeps (E := E) I (ret a).
Proof. by intros s Hs. Qed.
Lemma keeps_fail {A} (e : E) : keeps (A := A) I (fail e).
Proof. by intros s Hs. Qed.
Lemma keeps_gets {A} (f : S -> A) : keeps (E := E) I (gets f).
Proof. by intros s Hs. Qed.
Lemma keeps_get : keeps (E := E) I get.
Proof. by intros s Hs. Qed.
Lemma keeps_of_res {A} (r : res E A) : keeps I (of_res r).
Proof. by intros s Hs. Qed.
Lemma keeps_bind {A B} (m : M S E A) (f : A -> M S E B) :
  keeps I m -> (forall a, keeps I (f a)) -> keeps I (bind m f).
Proof.
  intros Hm Hf s Hs. unfold bind.
  destruct (m s) as [[a|e] s'] eqn:Em;
    specialize (Hm s Hs); rewrite Em in Hm; simpl in *; [by apply Hf | done].
Qed.
Lemma keeps_attempt {A} (m : M S E A) : keeps I m -> keeps (E := E) I (attempt m).
Proof.
  intros Hm s Hs. unfold attempt. specialize (Hm s Hs). by destruct (m s).
Qed.
Lemma keeps_if {A} (b : bool) (m1 m2 : M S E A) :
  keeps I m1 -> keeps I m2 -> keeps I (if b then m1 else m2).
Proof. by destruct b. Qed.
End Keeps.

#[export] Hint Resolve keeps_ret keeps_fail keeps_gets keeps_get keeps_of_res
  keeps_attempt keeps_if : keeps.

Section Moves.
Context {S E : Type} (R : S -> S -> Prop) `{!PreOrder R}.

Lemma moves_bind {A B} (m : M S E A) (f : A -> M S E B) :
  moves R m -> (forall a, moves R (f a)) -> moves R (bind m f).
Proof.
  intros Hm Hf s. unfold bind. specialize (Hm s). destruct (m s) as [[a|e] s']; simpl in *; [|done].
  etransitivity; [exact Hm | apply Hf].
Qed.
Lemma moves_attempt {A} (m : M S E A) : moves R m -> moves (E := E) R (attempt m).
Proof. intros H s. unfold attempt. specialize (H s). by destruct (m s). Qed.
End Moves.

(** *** Triples

    [triple I R P m Q]: from a state in the invariant [I] and in [P], a run of
    [m] ends in [I] and in a state related to the first by [R], whatever it
    returns, and in [Q] when it returns a value. *)

Definition triple {S E A} (I : S -> Prop) (R : S -> S -> Prop) (P : S -> Prop) (m : M S E A) (Q : A -> S -> Prop) : Prop :=
  forall s, I s -> P s -> I (m s).2 /\ R s (m s).2 /\ forall a, (m s).1 = Ok a -> Q a (m s).2.

(** A predicate that [R] keeps. *)
Definition stable {S} (I : S -> Prop) (R : S -> S -> Prop) (P : S -> Prop) : Prop :=
  forall s s', I s -> R s s' -> P s -> P s'.

Section Triple.
Context {S E : Type} (I : S -> Prop) (R : S -> S -> Prop) `{!PreOrder R}.
Abbreviation triple := (triple (E := E) I R).

Lemma triple_ret {A} (a : A) (P : S -> Prop) (Q : A -> S -> Prop) : (forall s, I s -> P s -> Q a s) -> triple P (ret a) Q.
Proof. intros H s Hi Hp. simpl. split_and!; [done | reflexivity|]. intros a' [= <-]. auto. Qed.

Lemma triple_fail {A} e P (Q : A -> S -> Prop) : triple P (fail e) Q.
Proof. intros s Hi Hp. simpl. by split_and!. Qed.

Lemma triple_bind {A B} (m : M S E A) (f : A -> M S E B) P Q Q' :
  triple P m Q -> (forall a, triple (Q a) (f a) Q') -> triple P (bind m f) Q'.
Proof.
  intros Hm Hf s Hi Hp. unfold bind. destruct (Hm s Hi Hp) as (Hi' & Hr & Hq). destruct (m s) as [[a|e] s']; simpl in *; [|by split_and!].
  destruct (Hf a s' Hi' (Hq a eq_refl)) as (? & ? & ?). split_and!; auto. by etransitivity.
Qed.

Lemma triple_attempt {A} (m : M S E A) P (Q : A -> S -> Prop) (Q' : S -> Prop) :
  triple P m Q -> stable I R Q' -> (forall s, P s -> Q' s) ->
  triple P (attempt m) (fun r s => Q' s /\ forall a, r = Ok a -> Q a s).
Proof.
  intros Hm Hs Hpq s Hi Hp. unfold attempt. destruct (Hm s Hi Hp) as (Hi' & Hr & Hq). specialize (Hs s _ Hi Hr (Hpq _ Hp)).
  destruct (m s) as [r s']; simpl in *. split_and!; [done..|]. by intros r' [= <-].
Qed.

Lemma triple_if {A} (b : bool) (m1 m2 : M S E A) P Q :
  (b = true -> triple P m1 Q) -> (b = false -> triple P m2 Q) -> triple P (if b then m1 else m2) Q.
Proof. destruct b; auto. Qed.

Lemma triple_weaken {A} (m : M S E A) (P P' : S -> Prop) (Q Q' : A -> S -> Prop) :
  triple P m Q -> (forall s, P' s -> P s) -> (forall a s, Q a s -> Q' a s) -> triple P' m Q'.
Proof. intros Hm Hp Hq s Hi Hp'. destruct (Hm s Hi (Hp s Hp')) as (? & ? & ?). split_and!; auto. Qed.

Lemma triple_pure {A} (F : Prop) (m : M S E A) P Q : (F -> triple P m Q) -> triple (fun s => F /\ P s) m Q.
Proof. intros H s Hi [Hf Hp]. by apply H. Qed.

(** What is stable holds afterwards too. *)
Lemma triple_frame {A} (m : M S E A) P F (Q : A -> S -> Prop) :
  stable I R F -> triple P m Q -> triple (fun s => P s /\ F s) m (fun a s => Q a s /\ F s).
Proof.
  intros Hs Hm s Hi [Hp Hf]. destruct (Hm s Hi Hp) as (? & ? & ?). split_and!; auto. intros a Ha. split; [auto | by apply (Hs s)].
Qed.

Lemma triple_frame_true {A} (m : M S E A) F (Q : A -> S -> Prop) :
  stable I R F -> triple (fun _ => True) m Q -> triple F m (fun a s => Q a s /\ F s).
Proof. intros Hs Hm. eapply triple_weaken; [eapply triple_frame; [exact Hs | exact Hm] | simpl; auto..]. Qed.
End Triple.

(** Split a sequence; give up on the branches that fail. *)
Ltac triple_seq := eapply triple_bind; [apply _ | |].
Ltac triple_returns := apply triple_ret; [apply _ | try done].
Ltac triple_fails := first [apply triple_fail; apply _ | intros ?; triple_fails].

(** ** Boolean and decision automation *)

(** Turn every boolean comparison of the context into its proposition. *)
Ltac bool_to_prop :=
  repeat match goal with
  | H : (_ && _)%bool = true |- _ => apply andb_true_iff in H as [? ?]
  | H : (_ && _)%bool = false |- _ => apply andb_false_iff in H
  | H : (_ || _)%bool = false |- _ => apply orb_false_iff in H as [? ?]
  | H : (_ || _)%bool = true |- _ => apply orb_true_iff in H
  | H : negb _ = true |- _ => apply negb_true_iff in H
  | H : negb _ = false |- _ => apply negb_false_iff in H
  | H : (_ =? _) = true |- _ => apply Z.eqb_eq in H
  | H : (_ =? _) = false |- _ => apply Z.eqb_neq in H
  | H : (_ <? _) = true |- _ => apply Z.ltb_lt in H
  | H : (_ <? _) = false |- _ => apply Z.ltb_ge in H
  | H : (_ <=? _) = true |- _ => apply Z.leb_le in H
  | H : (_ <=? _) = false |- _ => apply Z.leb_gt in H
  | H : (_ >? _) = true |- _ => rewrite Z.gtb_ltb in H
  | H : (_ >? _) = false |- _ => rewrite Z.gtb_ltb in H
  | H : (_ >=? _) = true |- _ => rewrite Z.geb_leb in H
  | H : (_ >=? _) = false |- _ => rewrite Z.geb_leb in H
  | H : bool_decide _ = true |- _ => apply bool_decide_eq_true in H
  | H : bool_decide _ = false |- _ => apply bool_decide_eq_false in H
  end.

(** The same, with every disjunction split into cases. *)
Ltac bool_cases :=
  repeat (bool_to_prop; match goal with H : _ \/ _ |- _ => destruct H end); bool_to_prop.

(** Case analysis on the outermost [if] or [match] of the goal or a hypothesis. *)
Ltac case_if :=
  match goal with
  | |- context [if ?b then _ else _] => destruct b eqn:?
  | H : context [if ?b then _ else _] |- _ => destruct b eqn:?
  end.

(** ** Strings as Go uses them *)

Definition str_empty (s : string) : bool := bool_decide (s = "").

(** Byte order of strings: Go's [<], [sort.Strings] and SQLite's [BINARY]. *)
Definition str_less (a b : string) : bool := bool_decide (String.compare a b = Lt).

(** ** Lists *)

(** Go's [len]. *)
Definition lenZ {A} (l : list A) : Z := Z.of_nat (length l).

(** The sum of an integer measure over a list. *)
Definition sum_by {A} (f : A -> Z) (l : list A) : Z := foldr (fun x acc => f x + acc) 0 l.

Lemma sum_by_app {A} (f : A -> Z) l1 l2 :
  sum_by f (l1 ++ l2) = sum_by f l1 + sum_by f l2.
Proof. unfold sum_by. induction l1; simpl; lia. Qed.

Lemma sum_by_one {A} (f : A -> Z) x : sum_by f [x] = f x.
Proof. unfold sum_by. simpl. lia. Qed.

Lemma sum_by_nonneg {A} (f : A -> Z) l :
  Forall (fun x => 0 <= f x) l -> 0 <= sum_by f l.
Proof. unfold sum_by. induction 1; simpl; lia. Qed.

Lemma sum_by_perm {A} (f : A -> Z) l1 l2 : l1 ≡ₚ l2 -> sum_by f l1 = sum_by f l2.
Proof. unfold sum_by. induction 1; simpl; lia. Qed.

(** The sum over the values of a map. *)
Definition map_sum `{Countable K} {A} (f : A -> Z) (m : gmap K A) : Z := sum_by (fun kv => f kv.2) (map_to_list m).

Section MapSum.
Context `{Countable K} {A : Type} (f : A -> Z).
Implicit Types m : gmap K A.

Lemma map_sum_empty : map_sum f (∅ : gmap K A) = 0.
Proof. unfold map_sum. by rewrite map_to_list_empty. Qed.

Lemma map_sum_insert m k v : m !! k = None -> map_sum f (<[k := v]> m) = f v + map_sum f m.
Proof. intros Hk. unfold map_sum. rewrite (sum_by_perm _ _ _ (map_to_list_insert m k v Hk)). done. Qed.

Lemma map_sum_delete m k v : m !! k = Some v -> map_sum f m = f v + map_sum f (delete k m).
Proof. intros Hk. rewrite <- (map_sum_insert (delete k m) k v) by apply lookup_delete_eq. by rewrite insert_delete_id. Qed.

Lemma map_sum_replace m k v w : m !! k = Some v -> map_sum f (<[k := w]> m) = map_sum f m - f v + f w.
Proof.
  intros Hk. rewrite (map_sum_delete m k v Hk), <- insert_delete_eq. rewrite map_sum_insert by apply lookup_delete_eq. lia.
Qed.

Lemma map_sum_nonneg m : (forall k v, m !! k = Some v -> 0 <= f v) -> 0 <= map_sum f m.
Proof.
  intros Hm. apply sum_by_nonneg, Forall_forall. intros [k v] Hkv. apply elem_of_map_to_list in Hkv. by eapply Hm.
Qed.
End MapSum.

(** Insertion sort for [sort.Slice] with the comparison the caller passes; ties
    keep their order. *)
Fixpoint insert_by {A} (less : A -> A -> bool) (x : A) (l : list A) : list A :=
  match l with
  | [] => [x]
  | y :: l' => if less y x then y :: insert_by less x l' else x :: y :: l'
  end.

Definition sort_by {A} (less : A -> A -> bool) (l : list A) : list A :=
  foldr (insert_by less) [] l.

Lemma insert_by_perm {A} (less : A -> A -> bool) x l :
  insert_by less x l ≡ₚ x :: l.
Proof.
  induction l as [|y l IH]; simpl; [done|]. destruct (less y x); [|done].
  rewrite IH. apply Permutation_swap.
Qed.

Lemma sort_by_perm {A} (less : A -> A -> bool) (l : list A) : sort_by less l ≡ₚ l.
Proof. induction l as [|x l IH]; simpl; [done|]. by rewrite insert_by_perm, IH. Qed.

(** Adjacent elements of a sorted list are never in the wrong order. *)
Definition sorted_by {A} (less : A -> A -> bool) : list A -> Prop :=
  Sorted (fun x y => less y x = false).

Section SortBy.
Context {A : Type} (less : A -> A -> bool).
Hypothesis less_asym : forall x y, less x y = true -> less y x = false.

Lemma insert_by_sorted x l : sorted_by less l -> sorted_by less (insert_by less x l).
Proof.
  unfold sorted_by. induction 1 as [|y l Hl IH Hy]; simpl; [repeat constructor|].
  destruct (less y x) eqn:E.
  - constructor; [done|]. destruct l as [|z l]; simpl; [constructor; auto|].
    inversion Hy; subst. destruct (less z x); constructor; auto.
  - repeat (constructor; auto).
Qed.

Lemma sort_by_sorted l : sorted_by less (sort_by less l).
Proof. induction l as [|x l IH]; simpl; [constructor|]. by apply insert_by_sorted. Qed.
End SortBy.
