(* ===== verification/Cursor.v ===== *)
(** * Audit cursors

    The audit cursor of [internal/auditwal/types.go] and its comparison
    ([compareCursor] of [internal/auditwal/operations.go]): an incarnation of
    the Agent and a sequence number inside it, ordered lexicographically. The
    cursor type is shared by every component that speaks about audit
    positions. *)

From S2P Require Import Prelude.

Record Cursor := mkCursor { Incarnation : Z; Seq : Z }.

#[export] Instance Cursor_eq_dec : EqDecision Cursor.
Proof. solve_decision. Defined.

Definition compareCursor (left right : Cursor) : Z :=
  if Incarnation left <? Incarnation right then -1
  else if Incarnation left >? Incarnation right then 1
  else if Seq left <? Seq right then -1
  else if Seq left >? Seq right then 1
  else 0.

(** Both components of a valid cursor are positive [uint64] values. *)
Definition cursor_ok (c : Cursor) : Prop :=
  1 <= Incarnation c <= max_u64 /\ 1 <= Seq c <= max_u64.

(** ** The order that [compareCursor] decides *)

Definition cursor_lt (a b : Cursor) : Prop :=
  Incarnation a < Incarnation b \/ (Incarnation a = Incarnation b /\ Seq a < Seq b).
Definition cursor_le (a b : Cursor) : Prop :=
  Incarnation a < Incarnation b \/ (Incarnation a = Incarnation b /\ Seq a <= Seq b).

#[export] Instance cursor_lt_dec a b : Decision (cursor_lt a b).
Proof. unfold cursor_lt. apply _. Defined.
#[export] Instance cursor_le_dec a b : Decision (cursor_le a b).
Proof. unfold cursor_le. apply _. Defined.

Ltac cursor_solve :=
  repeat match goal with c : Cursor |- _ => destruct c end;
  unfold cursor_lt, cursor_le, cursor_ok in *; cbn [Incarnation Seq] in *;
  try lia.

#[export] Instance cursor_lt_strict : StrictOrder cursor_lt.
Proof. split; [intros x H | intros x y z H1 H2]; cursor_solve. Qed.

#[export] Instance cursor_le_partial : PartialOrder cursor_le.
Proof.
  repeat split; [intros x | intros x y z H1 H2 | intros x y H1 H2]; cursor_solve.
  f_equal; lia.
Qed.

#[export] Instance cursor_le_total : Total cursor_le.
Proof. intros x y. cursor_solve. Qed.

Lemma cursor_le_lt_trans a b c : cursor_le a b -> cursor_lt b c -> cursor_lt a c.
Proof. cursor_solve. Qed.
Lemma cursor_lt_le_trans a b c : cursor_lt a b -> cursor_le b c -> cursor_lt a c.
Proof. cursor_solve. Qed.
Lemma cursor_lt_le a b : cursor_lt a b -> cursor_le a b.
Proof. cursor_solve. Qed.
Lemma cursor_nle_lt a b : ~ cursor_le a b -> cursor_lt b a.
Proof. cursor_solve. Qed.
Lemma cursor_nlt_le a b : ~ cursor_lt a b -> cursor_le b a.
Proof. cursor_solve. Qed.
Lemma cursor_lt_not_le a b : cursor_lt a b -> ~ cursor_le b a.
Proof. cursor_solve. Qed.

Lemma cursor_le_ne_lt a b : cursor_le a b -> a <> b -> cursor_lt a b.
Proof. intros Hle Hne. apply cursor_nle_lt. intros Hle'. apply Hne. by apply (anti_symm cursor_le). Qed.

Lemma compareCursor_lt a b : compareCursor a b < 0 <-> cursor_lt a b.
Proof. unfold compareCursor. repeat case_if; bool_to_prop; cursor_solve. Qed.
Lemma compareCursor_gt a b : compareCursor a b > 0 <-> cursor_lt b a.
Proof. unfold compareCursor. repeat case_if; bool_to_prop; cursor_solve. Qed.
Lemma compareCursor_le a b : compareCursor a b <= 0 <-> cursor_le a b.
Proof. unfold compareCursor. repeat case_if; bool_to_prop; cursor_solve. Qed.
Lemma compareCursor_ge a b : compareCursor a b >= 0 <-> cursor_le b a.
Proof. unfold compareCursor. repeat case_if; bool_to_prop; cursor_solve. Qed.
Lemma compareCursor_eq a b : compareCursor a b = 0 <-> a = b.
Proof.
  unfold compareCursor. split; [|intros ->].
  - repeat case_if; bool_to_prop; intros; try lia.
    destruct a, b; simpl in *; f_equal; lia.
  - rewrite !Z.ltb_irrefl, !Z.gtb_ltb, !Z.ltb_irrefl. done.
Qed.

(** Case analysis on a boolean test over [compareCursor]. *)
Ltac cursor_cases :=
  repeat match goal with
  | H : compareCursor _ _ < 0 |- _ => apply compareCursor_lt in H
  | H : compareCursor _ _ <= 0 |- _ => apply compareCursor_le in H
  | H : compareCursor _ _ > 0 |- _ => apply compareCursor_gt in H
  | H : compareCursor _ _ >= 0 |- _ => apply compareCursor_ge in H
  | H : 0 < compareCursor _ _ |- _ => apply Z.lt_gt, compareCursor_gt in H
  | H : 0 <= compareCursor _ _ |- _ => apply Z.le_ge, compareCursor_ge in H
  | H : compareCursor _ _ = 0 |- _ => apply compareCursor_eq in H
  end.

(** The next cursor of the same incarnation, at [uint64] width. *)
Definition cursor_succ (c : Cursor) : Cursor :=
  mkCursor (Incarnation c) (u64 (Seq c + 1)).
