(* ===== verification/WalFrame.v ===== *)
(** * Audit WAL: record frames, segment names and the segment scan

    Models [internal/auditwal/frame.go] (the on-disk record envelope) and the
    byte-level part of [scanSegment] of [internal/auditwal/wal.go] with its
    helpers [remainderIsZero], [declaredFrameRunsPastEOF] and
    [maxPayloadBytes]. A byte is an integer of [0..255]; a reader is the list
    of the bytes not yet read. Media read errors other than end of file are
    not represented. *)

From S2P Require Import Prelude Cursor.

(** ** [encoding/binary.BigEndian] and [hash/crc32] (Castagnoli) *)

Fixpoint put_be (n : nat) (x : Z) : list Z :=
  match n with
  | O => []
  | S n' => (x / 256 ^ Z.of_nat n') mod 256 :: put_be n' x
  end.

Definition get_be (l : list Z) : Z := foldl (fun acc b => acc * 256 + b) 0 l.

Fixpoint crc_bits (n : nat) (c : Z) : Z :=
  match n with
  | O => c
  | S n' => crc_bits n' (if Z.odd c then Z.lxor (Z.shiftr c 1) 0x82F63B78 else Z.shiftr c 1)
  end.

Definition crc32c (data : list Z) : Z :=
  Z.lxor (foldl (fun c b => crc_bits 8 (Z.lxor c b)) 0xFFFFFFFF data) 0xFFFFFFFF mod 2 ^ 32.


(** ** Frames *)

Inductive frame_err := FEof | FUnexpectedEof | FCorrupt | FRecordTooLarge.

#[export] Instance frame_err_eq_dec : EqDecision frame_err.
Proof. solve_decision. Defined.

Definition envelopeHeaderBytes : Z := 24.

Definition encodeFrame (cursor : Cursor) (appendedAt : time) (payload : list Z)
  : res frame_err (list Z) :=
  let bodyLen := envelopeHeaderBytes + lenZ payload in
  if bodyLen >? 2 ^ 32 - 1 then Err FRecordTooLarge
  else
    let body := put_be 8 (Incarnation cursor) ++ put_be 8 (Seq cursor)
                  ++ put_be 8 (u64 appendedAt) ++ payload in
    Ok (put_be 4 (u32 bodyLen) ++ body ++ put_be 4 (crc32c body)).

Record decodedFrame := mkDecoded {
  df_cursor : Cursor;
  df_at : time;
  df_payload : list Z;
  df_bytes : Z;
}.

(** [io.ReadFull]: no byte read at the end of the input is [io.EOF], some but
    not all is [io.ErrUnexpectedEOF]. *)
Definition readFull (n : Z) : M (list Z) frame_err (list Z) := fun rd =>
  if n =? 0 then (Ok [], rd)
  else match rd with
       | [] => (Err FEof, [])
       | _ => if lenZ rd <? n then (Err FUnexpectedEof, [])
              else (Ok (take (Z.to_nat n) rd), drop (Z.to_nat n) rd)
       end.

Definition readFrame (maxFrameBytes : Z) : M (list Z) frame_err decodedFrame :=
  let* lengthBytes := readFull 4 in
  let bodyLen := get_be lengthBytes in
  if* ((bodyLen <? envelopeHeaderBytes) || (bodyLen + 8 >? maxFrameBytes))%bool
  then FCorrupt end;
  let* body := readFull bodyLen in
  let* checksumBytes := readFull 4 in
  let want := get_be checksumBytes in
  if* negb (crc32c body =? want) then FCorrupt end;
  let incarnation := get_be (take 8 body) in
  let seq := get_be (take 8 (drop 8 body)) in
  if* ((incarnation =? 0) || (seq =? 0))%bool then FCorrupt end;
  let nanos := i64 (get_be (take 8 (drop 16 body))) in
  ret (mkDecoded (mkCursor incarnation seq) nanos (drop 24 body) (4 + bodyLen + 4)).

Definition maxPayloadBytes (maxFrameBytes : Z) : Z :=
  let maximum := maxFrameBytes - envelopeHeaderBytes - 8 in
  let uint32Maximum := (2 ^ 32 - 1) - envelopeHeaderBytes in
  let maximum := if maximum >? uint32Maximum then uint32Maximum else maximum in
  if maximum <? 0 then 0 else maximum.

(** ** Segments *)

Record segment := mkSegment {
  seg_path : string;
  seg_first : Cursor;
  seg_last : Cursor;
  seg_oldestAt : time;
  seg_newestAt : time;
  seg_bytes : Z;
}.

#[export] Instance segment_eq_dec : EqDecision segment.
Proof. solve_decision. Defined.

Definition remainderIsZero (data : list Z) (offset size : Z) : bool :=
  if offset >=? size then true
  else forallb (fun value => value =? 0) (drop (Z.to_nat offset) data).

Definition declaredFrameRunsPastEOF (data : list Z) (offset size : Z) : bool :=
  let length4 := take 4 (drop (Z.to_nat offset) data) in
  if lenZ length4 <? 4 then true
  else let declaredBytes := 4 + get_be length4 + 4 in
       size - offset <? declaredBytes.

(** How the frame loop of [scanSegment] ends: at end of file, at a tail that
    is to be truncated, or at corruption that must be reported. *)
Inductive scan_stop := StopEOF | StopRepair | StopCorrupt | StopNonContiguous | StopFuel.

(** The loop of [scanSegment]: [rd] is what follows the file position, and the
    accumulators are the code's [seg] and [offset]. *)
Fixpoint scanLoop (fuel : nat) (data : list Z) (path : string) (repairTail : bool)
    (maxFrameBytes : Z) (rd : list Z) (seg : option segment) (offset : Z)
  : option segment * Z * scan_stop :=
  match fuel with
  | O => (seg, offset, StopFuel)
  | S fuel' =>
    match readFrame maxFrameBytes rd with
    | (Ok frame, rd') =>
      let seg0 := match seg with
                  | Some s => s
                  | None => mkSegment path (df_cursor frame) (mkCursor 0 0)
                                      (df_at frame) time_zero 0
                  end in
      if (negb (bool_decide (seg_last seg0 = mkCursor 0 0)) &&
          (negb (Incarnation (df_cursor frame) =? Incarnation (seg_last seg0)) ||
           negb (Seq (df_cursor frame) =? u64 (Seq (seg_last seg0) + 1))))%bool
      then (Some seg0, offset, StopNonContiguous)
      else
        let seg1 := mkSegment (seg_path seg0) (seg_first seg0) (df_cursor frame)
                              (seg_oldestAt seg0) (df_at frame) (seg_bytes seg0) in
        scanLoop fuel' data path repairTail maxFrameBytes rd' (Some seg1) (offset + df_bytes frame)
    | (Err FEof, _) => (seg, offset, StopEOF)
    | (Err e, rd') =>
      let size := lenZ data in
      let position := size - lenZ rd' in
      let repairableCorruptTail :=
        (bool_decide (e = FCorrupt) &&
         ((position =? size) || declaredFrameRunsPastEOF data offset size
          || remainderIsZero data offset size))%bool in
      if (repairTail && (bool_decide (e = FUnexpectedEof) || repairableCorruptTail))%bool
      then (seg, offset, StopRepair)
      else (seg, offset, StopCorrupt)
    end
  end.

(** Every frame takes at least 32 bytes, so [S (length data)] rounds suffice
    (lemma [scanLoop_fuel]). *)
Definition scanFrames (data : list Z) (path : string) (repairTail : bool) (maxFrameBytes : Z)
  : option segment * Z * scan_stop :=
  scanLoop (S (length data)) data path repairTail maxFrameBytes data None 0.

(** ** Integer codec lemmas *)

Lemma length_put_be n x : length (put_be n x) = n.
Proof. induction n; simpl; auto. Qed.

Lemma get_be_put_acc n x acc :
  foldl (fun a b => a * 256 + b) acc (put_be n x)
  = acc * 256 ^ Z.of_nat n + x mod 256 ^ Z.of_nat n.
Proof.
  revert acc. induction n as [|n IH]; intros acc; simpl put_be; simpl foldl.
  - rewrite Z.mod_1_r. simpl. lia.
  - rewrite IH, Nat2Z.inj_succ, Z.pow_succ_r by lia.
    rewrite (Z.mul_comm 256 (256 ^ Z.of_nat n)), Z.rem_mul_r; lia.
Qed.

Lemma get_be_put n x : get_be (put_be n x) = x mod 256 ^ Z.of_nat n.
Proof. unfold get_be. rewrite get_be_put_acc. lia. Qed.

Lemma get_be_u64 x : u64_ok x -> get_be (put_be 8 x) = x.
Proof. unfold u64_ok, max_u64. intros. rewrite get_be_put. apply Z.mod_small. simpl. lia. Qed.

Lemma get_be_u32 x : 0 <= x < 2 ^ 32 -> get_be (put_be 4 x) = x.
Proof. intros. rewrite get_be_put. apply Z.mod_small. simpl. lia. Qed.

Lemma crc32c_range data : 0 <= crc32c data < 2 ^ 32.
Proof. unfold crc32c. apply Z.mod_pos_bound. lia. Qed.

Lemma lenZ_app {A} (l1 l2 : list A) : lenZ (l1 ++ l2) = lenZ l1 + lenZ l2.
Proof. unfold lenZ. rewrite length_app. lia. Qed.
Lemma lenZ_nonneg {A} (l : list A) : 0 <= lenZ l.
Proof. unfold lenZ. lia. Qed.
Lemma lenZ_put_be n x : lenZ (put_be n x) = Z.of_nat n.
Proof. unfold lenZ. by rewrite length_put_be. Qed.
Create Rewrite HintDb lenz.
#[export] Hint Rewrite @lenZ_app lenZ_put_be : lenz.

Lemma readFull_app n l rest :
  lenZ l = n -> 0 < n -> readFull n (l ++ rest) = (Ok l, rest).
Proof.
  intros Hl Hn. unfold readFull. replace (n =? 0) with false by lia.
  destruct l as [|b l]; [simpl in Hl; unfold lenZ in Hl; simpl in Hl; lia|].
  change ((b :: l) ++ rest) with (b :: (l ++ rest)) at 1.
  assert ((lenZ ((b :: l) ++ rest) <? n) = false) as ->.
  { rewrite lenZ_app. pose proof (lenZ_nonneg rest). lia. }
  assert (Z.to_nat n = length (b :: l)) as -> by (unfold lenZ in Hl; lia).
  by rewrite take_app_length, drop_app_length.
Qed.

Lemma readFull_nil n : 0 < n -> readFull n [] = (Err FEof, []).
Proof. intros. unfold readFull. by replace (n =? 0) with false by lia. Qed.

Lemma readFull_short n rd :
  0 < lenZ rd < n -> readFull n rd = (Err FUnexpectedEof, []).
Proof.
  intros H. unfold readFull. replace (n =? 0) with false by lia.
  destruct rd; [unfold lenZ in H; simpl in H; lia|].
  by replace (lenZ _ <? n) with true by lia.
Qed.

(** ** Frames: encoding, decoding, tearing *)

Definition frameBody (c : Cursor) (at_ : time) (payload : list Z) : list Z :=
  put_be 8 (Incarnation c) ++ put_be 8 (Seq c) ++ put_be 8 (u64 at_) ++ payload.

Lemma lenZ_frameBody c t p : lenZ (frameBody c t p) = 24 + lenZ p.
Proof. unfold frameBody. autorewrite with lenz. lia. Qed.

Lemma encodeFrame_inv c t p fr :
  encodeFrame c t p = Ok fr ->
  24 + lenZ p < 2 ^ 32 /\ lenZ fr = 32 + lenZ p /\
  fr = put_be 4 (24 + lenZ p) ++ frameBody c t p ++ put_be 4 (crc32c (frameBody c t p)).
Proof.
  unfold encodeFrame, envelopeHeaderBytes. cbv zeta. fold (frameBody c t p).
  case_if; [done|]. bool_to_prop. pose proof (lenZ_nonneg p).
  assert (u32 (24 + lenZ p) = 24 + lenZ p) as -> by (apply Z.mod_small; lia).
  intros H'. assert (fr = put_be 4 (24 + lenZ p) ++ frameBody c t p
    ++ put_be 4 (crc32c (frameBody c t p))) as -> by congruence. clear H'.
  autorewrite with lenz. rewrite lenZ_frameBody. split_and!; [lia | lia | done].
Qed.

(** The decoder reads back the header fields of a body. *)
Lemma frameBody_fields c t p :
  cursor_ok c -> i64_ok t ->
  get_be (take 8 (frameBody c t p)) = Incarnation c /\
  get_be (take 8 (drop 8 (frameBody c t p))) = Seq c /\
  i64 (get_be (take 8 (drop 16 (frameBody c t p)))) = t /\
  drop 24 (frameBody c t p) = p.
Proof.
  intros [Hi Hs] Ht. unfold frameBody.
  assert (forall x y : list Z, length x = 8%nat -> take 8 (x ++ y) = x) as Htk.
  { intros x y <-. apply take_app_length. }
  assert (forall n (x y : list Z), length x = 8%nat -> drop (8 + n) (x ++ y) = drop n y) as Hdr.
  { intros n x y Hx. rewrite <- drop_drop, <- Hx, drop_app_length. done. }
  change 8%nat with (8 + 0)%nat at 4. change 16%nat with (8 + (8 + 0))%nat.
  change 24%nat with (8 + (8 + (8 + 0)))%nat.
  rewrite !Hdr by apply length_put_be. rewrite !drop_0, !Htk by apply length_put_be.
  split_and!; try done.
  - apply get_be_u64. unfold u64_ok. lia.
  - apply get_be_u64. unfold u64_ok. lia.
  - rewrite get_be_u64 by apply u64_range. by apply i64_u64.
Qed.

(** A frame followed by anything decodes to its record and leaves the rest. *)
Lemma readFrame_encoded maxb c t p fr rest :
  encodeFrame c t p = Ok fr -> cursor_ok c -> i64_ok t -> lenZ fr <= maxb ->
  readFrame maxb (fr ++ rest) = (Ok (mkDecoded c t p (lenZ fr)), rest).
Proof.
  intros (Hp & Hfr & Heq)%encodeFrame_inv Hc Ht Hmax. pose proof (lenZ_nonneg p).
  destruct (frameBody_fields c t p Hc Ht) as (Hinc & Hseq & Hat & Hpl).
  rewrite Heq at 1. rewrite <- !app_assoc. unfold readFrame, bind.
  rewrite readFull_app by (rewrite ?lenZ_put_be; lia).
  rewrite get_be_u32 by lia. unfold envelopeHeaderBytes.
  replace ((24 + lenZ p <? 24) || (24 + lenZ p + 8 >? maxb))%bool with false by lia.
  rewrite readFull_app by (rewrite ?lenZ_frameBody; lia).
  rewrite readFull_app by (rewrite ?lenZ_put_be; lia).
  rewrite get_be_u32, Z.eqb_refl by apply crc32c_range. cbn [negb].
  rewrite Hinc, Hseq, Hat, Hpl. destruct Hc as [Hi Hs].
  replace ((Incarnation c =? 0) || (Seq c =? 0))%bool with false by lia.
  unfold ret. destruct c as [i q]. simpl. rewrite Hfr. do 3 f_equal. lia.
Qed.

Lemma readFull_torn n l k :
  lenZ l = n -> (k < length l)%nat -> 
  exists e, readFull n (take k l) = (Err e, []) /\ (e = FEof \/ e = FUnexpectedEof).
Proof.
  intros Hl Hk. assert (0 < n) by (unfold lenZ in Hl; lia).
  destruct k as [|k].
  - exists FEof. rewrite take_0, readFull_nil by lia. auto.
  - exists FUnexpectedEof. rewrite readFull_short; [auto|].
    unfold lenZ in *. rewrite length_take. lia.
Qed.

(** A proper prefix of a frame reads as end of file or as an unexpected end of
    file, and consumes everything. *)
Lemma readFrame_torn maxb c t p fr k :
  encodeFrame c t p = Ok fr -> lenZ fr <= maxb -> (k < length fr)%nat ->
  exists e, readFrame maxb (take k fr) = (Err e, []) /\ (e = FEof \/ e = FUnexpectedEof).
Proof.
  intros (Hp & Hfr & ->)%encodeFrame_inv Hmax Hk. pose proof (lenZ_nonneg p).
  set (hd := put_be 4 (24 + lenZ p)) in *.
  set (bd := frameBody c t p) in *. set (cs := put_be 4 (crc32c bd)) in *.
  assert (length hd = 4%nat) as Hhd by apply length_put_be.
  assert (lenZ hd = 4) as HhdZ by (unfold lenZ; lia).
  assert (lenZ bd = 24 + lenZ p) as Hbd by apply lenZ_frameBody.
  unfold readFrame, bind.
  destruct (decide (k < 4)%nat) as [Hk4|Hk4].
  { destruct (readFull_torn 4 hd k HhdZ ltac:(lia)) as (e & He & Hcase).
    rewrite take_app_le by lia. rewrite He. by exists e. }
  rewrite take_app_ge by lia. rewrite readFull_app by lia.
  assert (get_be hd = 24 + lenZ p) as -> by (apply get_be_u32; lia).
  unfold envelopeHeaderBytes.
  replace ((24 + lenZ p <? 24) || (24 + lenZ p + 8 >? maxb))%bool with false by lia.
  rewrite Hhd. destruct (decide (k - 4 < length bd)%nat) as [Hkb|Hkb].
  { destruct (readFull_torn (24 + lenZ p) bd (k - 4) Hbd Hkb) as (e & He & Hcase).
    rewrite take_app_le by lia. rewrite He. by exists e. }
  rewrite take_app_ge by lia. rewrite readFull_app by lia.
  destruct (readFull_torn 4 cs (k - 4 - length bd)) as (e & He & Hcase).
  { apply lenZ_put_be. }
  { assert (length cs = 4%nat) by apply length_put_be.
    rewrite !length_app in Hk. lia. }
  rewrite He. by exists e.
Qed.

(** A frame whose checksum does not match is reported as corrupt, with the
    reader positioned right after it. *)
Lemma readFrame_bad_checksum maxb bd sum rest :
  24 <= lenZ bd -> lenZ bd < 2 ^ 32 -> lenZ bd + 8 <= maxb ->
  lenZ sum = 4 -> get_be sum <> crc32c bd ->
  readFrame maxb (put_be 4 (lenZ bd) ++ bd ++ sum ++ rest) = (Err FCorrupt, rest).
Proof.
  intros Hlo Hhi Hmax Hsum Hbad. unfold readFrame, bind.
  rewrite readFull_app by (rewrite ?lenZ_put_be; lia).
  rewrite get_be_u32 by lia. unfold envelopeHeaderBytes.
  replace ((lenZ bd <? 24) || (lenZ bd + 8 >? maxb))%bool with false by lia.
  rewrite readFull_app by lia. rewrite readFull_app by lia.
  replace (crc32c bd =? get_be sum) with false by lia. done.
Qed.

(** Whatever [readFrame] accepts, it consumed at least 32 bytes of. *)
Lemma readFull_consumes n rd l rd' :
  readFull n rd = (Ok l, rd') -> 0 <= n -> rd = l ++ rd' /\ lenZ l = n.
Proof.
  unfold readFull. intros H Hn. destruct (n =? 0) eqn:E0.
  { inversion H; subst. split; [done|]. unfold lenZ; simpl. lia. }
  destruct rd as [|b rd]; [done|]. case_if; [done|]. inversion H; subst. bool_to_prop.
  split; [by rewrite take_drop|]. unfold lenZ in *. rewrite length_take. lia.
Qed.

Lemma readFrame_consumes maxb rd f rd' :
  readFrame maxb rd = (Ok f, rd') ->
  32 <= df_bytes f /\ df_bytes f <= maxb /\ lenZ rd = df_bytes f + lenZ rd' /\
  exists used, rd = used ++ rd'.
Proof.
  unfold readFrame, bind. intros H.
  destruct (readFull 4 rd) as [[lb|] rd1] eqn:E1; [|done].
  apply readFull_consumes in E1 as [-> Hlb]; [|lia].
  case_if; [done|]. bool_to_prop. unfold envelopeHeaderBytes in *.
  destruct (readFull (get_be lb) rd1) as [[body|] rd2] eqn:E2; [|done].
  apply readFull_consumes in E2 as [-> Hbody]; [|lia].
  destruct (readFull 4 rd2) as [[cb|] rd3] eqn:E3; [|done].
  apply readFull_consumes in E3 as [-> Hcb]; [|lia].
  repeat (case_if; [done|]). inversion H; subst. cbn [df_bytes].
  rewrite !lenZ_app. split_and!; [lia | lia | lia |].
  exists (lb ++ body ++ cb). by rewrite <- !app_assoc.
Qed.

(** ** The segment scan *)

(** The loop always ends within its fuel. *)
Lemma scanLoop_fuel fuel data path rt maxb rd seg off :
  (length rd < fuel)%nat ->
  (scanLoop fuel data path rt maxb rd seg off).2 <> StopFuel.
Proof.
  revert rd seg off. induction fuel as [|fuel IH]; intros rd seg off Hf; [lia|].
  cbn [scanLoop]. destruct (readFrame maxb rd) as [[f|e] rd'] eqn:E.
  - apply readFrame_consumes in E as (Hb & _ & Hlen & _). unfold lenZ in Hlen.
    case_if; [done|]. apply IH. lia.
  - destruct e; [done | ..]; repeat case_if; done.
Qed.

(** The scan of a segment file always ends: whatever bytes the file holds,
    it stops at the end of the file, at a repairable tail or with an error, and
    never for lack of rounds. *)
Theorem scanFrames_terminates data path rt maxb :
  (scanFrames data path rt maxb).2 <> StopFuel.
Proof. apply scanLoop_fuel. lia. Qed.

(** The records of a segment file, as the writer appended them. *)
Record entry := mkEntry { en_cursor : Cursor; en_at : time; en_payload : list Z }.

Definition frame_bytes (e : entry) : list Z :=
  match encodeFrame (en_cursor e) (en_at e) (en_payload e) with
  | Ok b => b
  | Err _ => []
  end.

Definition file_bytes (es : list entry) : list Z := mjoin (frame_bytes <$> es).

Definition entry_ok (maxb : Z) (e : entry) : Prop :=
  cursor_ok (en_cursor e) /\ i64_ok (en_at e) /\
  32 + lenZ (en_payload e) <= maxb /\ 24 + lenZ (en_payload e) < 2 ^ 32.

(** [cs] continues [c]: the same incarnation, one more each time. *)
Fixpoint continues (c : Cursor) (es : list entry) : Prop :=
  match es with
  | [] => True
  | e :: es' => en_cursor e = mkCursor (Incarnation c) (Seq c + 1) /\ continues (en_cursor e) es'
  end.

Definition contiguous (es : list entry) : Prop :=
  match es with [] => True | e :: es' => continues (en_cursor e) es' end.

(** The segment descriptor of a file with records [e :: es]. *)
Definition segment_of (path : string) (e : entry) (es : list entry) : segment :=
  let l := default e (last es) in
  mkSegment path (en_cursor e) (en_cursor l) (en_at e) (en_at l) 0.

Lemma frame_bytes_ok maxb e :
  entry_ok maxb e ->
  encodeFrame (en_cursor e) (en_at e) (en_payload e) = Ok (frame_bytes e) /\
  lenZ (frame_bytes e) <= maxb /\ lenZ (frame_bytes e) = 32 + lenZ (en_payload e).
Proof.
  intros (Hc & Ht & Hm & Hl). unfold frame_bytes.
  destruct (encodeFrame _ _ _) as [b|] eqn:E.
  - apply encodeFrame_inv in E as (H1 & H2 & _). split_and!; [done | lia | lia].
  - unfold encodeFrame, envelopeHeaderBytes in E. case_if; [|done]. bool_to_prop. lia.
Qed.

Lemma lenZ_cons {A} (x : A) l : lenZ (x :: l) = 1 + lenZ l.
Proof. unfold lenZ. simpl length. lia. Qed.

Lemma file_bytes_cons e es : file_bytes (e :: es) = frame_bytes e ++ file_bytes es.
Proof. done. Qed.
Lemma file_bytes_app es1 es2 : file_bytes (es1 ++ es2) = file_bytes es1 ++ file_bytes es2.
Proof. unfold file_bytes. rewrite fmap_app. apply join_app. Qed.

Lemma continues_snoc c es e :
  continues c (es ++ [e]) <->
  continues c es /\
  en_cursor e = mkCursor (Incarnation c) (Seq (default c (en_cursor <$> last es)) + 1).
Proof.
  revert c. induction es as [|x es IH]; intros c; simpl.
  - tauto.
  - rewrite IH, last_cons. destruct (last es) as [l|]; simpl;
      (split; [intros (Hx & Hc & He) | intros ((Hx & Hc) & He)]);
      split_and!; auto; by rewrite He, ?Hx.
Qed.

(** One loop round over an intact frame. *)
Lemma scanLoop_step fuel data path rt maxb e rest s off :
  entry_ok maxb e -> cursor_ok (seg_last s) ->
  en_cursor e = mkCursor (Incarnation (seg_last s)) (Seq (seg_last s) + 1) ->
  scanLoop (S fuel) data path rt maxb (frame_bytes e ++ rest) (Some s) off
  = scanLoop fuel data path rt maxb rest
      (Some (mkSegment (seg_path s) (seg_first s) (en_cursor e) (seg_oldestAt s) (en_at e)
                       (seg_bytes s)))
      (off + lenZ (frame_bytes e)).
Proof.
  intros He Hs Hnext. destruct (frame_bytes_ok _ _ He) as (Henc & Hmax & _).
  destruct He as (Hc & Ht & _). cbn [scanLoop].
  rewrite (readFrame_encoded _ _ _ _ _ _ Henc Hc Ht Hmax). cbn [df_cursor df_at df_bytes].
  assert (u64 (Seq (seg_last s) + 1) = Seq (en_cursor e)) as ->.
  { rewrite Hnext in *. apply u64_id. destruct Hc as [_ Hq]. cbn [Seq] in Hq.
    unfold u64_ok; cbn [Seq]; lia. }
  rewrite Z.eqb_refl. rewrite Hnext at 1. cbn [Incarnation]. rewrite Z.eqb_refl.
  cbn [negb orb]. by rewrite andb_false_r.
Qed.

Lemma scanLoop_start fuel data path rt maxb e rest off :
  entry_ok maxb e ->
  scanLoop (S fuel) data path rt maxb (frame_bytes e ++ rest) None off
  = scanLoop fuel data path rt maxb rest (Some (segment_of path e [])) (off + lenZ (frame_bytes e)).
Proof.
  intros He. destruct (frame_bytes_ok _ _ He) as (Henc & Hmax & _).
  destruct He as (Hc & Ht & _). cbn [scanLoop].
  rewrite (readFrame_encoded _ _ _ _ _ _ Henc Hc Ht Hmax). cbn [df_cursor df_at df_bytes seg_last].
  rewrite bool_decide_eq_true_2 by done. done.
Qed.

Lemma scanLoop_run fuel data path rt maxb e pre es rest off :
  Forall (entry_ok maxb) es -> continues (default (en_cursor e) (en_cursor <$> last pre)) es ->
  cursor_ok (default (en_cursor e) (en_cursor <$> last pre)) ->
  scanLoop (length es + fuel) data path rt maxb (file_bytes es ++ rest)
    (Some (segment_of path e pre)) off
  = scanLoop fuel data path rt maxb rest (Some (segment_of path e (pre ++ es)))
      (off + lenZ (file_bytes es)).
Proof.
  revert pre off. induction es as [|x es IH]; intros pre off Hall Hcont Hok.
  - simpl. rewrite app_nil_r. change (file_bytes []) with (@nil Z). f_equal. unfold lenZ. simpl. lia.
  - inversion Hall as [|? ? Hx Hes]; subst. destruct Hcont as [Hnext Hcont].
    assert (seg_last (segment_of path e pre) = default (en_cursor e) (en_cursor <$> last pre)) as Hl.
    { unfold segment_of. cbn [seg_last]. by destruct (last pre). }
    rewrite file_bytes_cons, <- app_assoc. cbn [length Nat.add].
    rewrite scanLoop_step by (rewrite ?Hl; auto).
    assert (mkSegment (seg_path (segment_of path e pre)) (seg_first (segment_of path e pre))
      (en_cursor x) (seg_oldestAt (segment_of path e pre)) (en_at x)
      (seg_bytes (segment_of path e pre)) = segment_of path e (pre ++ [x])) as ->.
    { unfold segment_of. cbn [seg_path seg_first seg_oldestAt seg_bytes].
      by rewrite last_snoc. }
    rewrite IH; [| done | by rewrite last_snoc | rewrite last_snoc; apply Hx].
    rewrite <- app_assoc. f_equal. rewrite lenZ_app. lia.
Qed.

(** A scan passes over all the intact frames of a segment. *)
Lemma scanFrames_run path rt maxb e es rest data :
  Forall (entry_ok maxb) (e :: es) -> contiguous (e :: es) ->
  data = file_bytes (e :: es) ++ rest ->
  exists fuel, (length rest < fuel)%nat /\
  scanFrames data path rt maxb
  = scanLoop fuel data path rt maxb rest (Some (segment_of path e es)) (lenZ (file_bytes (e :: es))).
Proof.
  intros Hall Hcont Hdata. inversion Hall as [|? ? He Hes]; subst.
  assert (length es <= length (file_bytes es))%nat as Hlen.
  { clear -Hes. induction Hes as [|x l Hx _ IH]; simpl; [lia|].
    rewrite file_bytes_cons, length_app. apply frame_bytes_ok in Hx as (_ & _ & Hx).
    unfold lenZ in Hx. lia. }
  exists (length (file_bytes (e :: es) ++ rest) - length es)%nat.
  destruct (frame_bytes_ok _ _ He) as (_ & _ & Hb). unfold lenZ in Hb.
  set (data := file_bytes (e :: es) ++ rest).
  assert (length data = length (frame_bytes e) + length (file_bytes es) + length rest)%nat as Hd
    by (unfold data; rewrite file_bytes_cons, !length_app; lia).
  split; [lia|]. unfold scanFrames.
  replace (S (length data)) with (S (length es + (length data - length es)))%nat by lia.
  assert (data = frame_bytes e ++ file_bytes es ++ rest) as Hdd
    by (unfold data; by rewrite file_bytes_cons, <- app_assoc).
  clearbody data.
  transitivity (scanLoop (S (length es + (length data - length es))) data path rt maxb
    (frame_bytes e ++ file_bytes es ++ rest) None 0); [by rewrite <- Hdd|].
  rewrite scanLoop_start by done.
  rewrite (scanLoop_run _ _ _ _ _ e [] es); [| done | done | apply He].
  simpl app. f_equal. rewrite file_bytes_cons, lenZ_app. lia.
Qed.

Lemma scanLoop_end fuel data path maxb seg off rd e :
  (0 < fuel)%nat -> readFrame maxb rd = (Err e, []) -> e = FEof \/ e = FUnexpectedEof ->
  scanLoop fuel data path true maxb rd seg off
  = (seg, off, if bool_decide (e = FEof) then StopEOF else StopRepair).
Proof.
  intros Hf Hr He. destruct fuel as [|fuel]; [lia|]. cbn [scanLoop]. rewrite Hr.
  by destruct He as [-> | ->].
Qed.

Lemma readFrame_zero maxb n :
  (0 < n)%nat ->
  readFrame maxb (replicate n 0) = (Err FUnexpectedEof, []) \/
  exists rd, readFrame maxb (replicate n 0) = (Err FCorrupt, rd).
Proof.
  intros Hn. destruct (decide (n < 4)%nat) as [H4|H4].
  - left. unfold readFrame, bind. rewrite readFull_short; [done|].
    unfold lenZ. rewrite length_replicate. lia.
  - right. exists (replicate (n - 4) 0). unfold readFrame, bind.
    replace n with (4 + (n - 4))%nat at 1 by lia. rewrite replicate_add, readFull_app by done.
    done.
Qed.

(** [C37] Recovery of a torn tail: a last segment file that holds any number of
    intact frames followed by a proper prefix of one more frame, or by any
    number of zero bytes, scans to exactly the segment of the intact frames;
    the scan stops at their end with a clean or a repairable end, never with a
    corruption error. *)
Theorem scan_recovers_intact_prefix path maxb e es tail :
  Forall (entry_ok maxb) (e :: es) -> contiguous (e :: es) ->
  (exists nxt k, entry_ok maxb nxt /\ (k < length (frame_bytes nxt))%nat /\
                 tail = take k (frame_bytes nxt)) \/
  (exists n, tail = replicate n 0) ->
  exists stop,
    scanFrames (file_bytes (e :: es) ++ tail) path true maxb
    = (Some (segment_of path e es), lenZ (file_bytes (e :: es)), stop) /\
    (stop = StopEOF \/ stop = StopRepair).
Proof.
  intros Hall Hcont Htail.
  destruct (scanFrames_run path true maxb e es tail _ Hall Hcont eq_refl) as (fuel & Hf & ->).
  destruct Htail as [(nxt & k & Hn & Hk & ->) | (n & ->)].
  - destruct (frame_bytes_ok _ _ Hn) as (Henc & Hmax & _).
    destruct (readFrame_torn maxb _ _ _ _ k Henc Hmax Hk) as (err & Hr & Herr).
    rewrite (scanLoop_end fuel _ _ _ _ _ _ _ ltac:(lia) Hr Herr).
    eexists. split; [done|]. case_bool_decide; auto.
  - destruct fuel as [|fuel]; [lia|]. destruct n as [|n].
    { eexists. split; [done|]. auto. }
    exists StopRepair. split; [|auto]. cbn [scanLoop].
    destruct (readFrame_zero maxb (S n) ltac:(lia)) as [-> | (rd & ->)]; [done|].
    assert (remainderIsZero (file_bytes (e :: es) ++ replicate (S n) 0)
      (lenZ (file_bytes (e :: es))) (lenZ (file_bytes (e :: es) ++ replicate (S n) 0)) = true) as ->.
    { unfold remainderIsZero. case_if; [done|]. unfold lenZ. rewrite Nat2Z.id, drop_app_length.
      apply forallb_forall. intros x Hx%list_elem_of_In%elem_of_replicate_inv. by subst. }
    by rewrite !orb_true_r.
Qed.

(** Corruption is never truncated away: when a complete frame in the
    middle of the file (its declared length ends before the end of the file)
    has a checksum that does not match its body, the scan stops with a
    corruption error, also when it is allowed to repair the tail. *)
Theorem scan_refuses_midfile_corruption path maxb rt e es body sum rest :
  Forall (entry_ok maxb) (e :: es) -> contiguous (e :: es) ->
  24 <= lenZ body -> lenZ body < 2 ^ 32 -> lenZ body + 8 <= maxb ->
  lenZ sum = 4 -> get_be sum <> crc32c body -> rest <> [] ->
  scanFrames (file_bytes (e :: es) ++ put_be 4 (lenZ body) ++ body ++ sum ++ rest) path rt maxb
  = (Some (segment_of path e es), lenZ (file_bytes (e :: es)), StopCorrupt).
Proof.
  intros Hall Hcont Hlo Hhi Hmax Hsum Hbad Hrest.
  set (tail := put_be 4 (lenZ body) ++ body ++ sum ++ rest).
  destruct (scanFrames_run path rt maxb e es tail _ Hall Hcont eq_refl) as (fuel & Hf & ->).
  destruct fuel as [|fuel]; [lia|]. cbn [scanLoop].
  assert (readFrame maxb tail = (Err FCorrupt, rest)) as -> by by apply readFrame_bad_checksum.
  set (data := file_bytes (e :: es) ++ tail). set (off := lenZ (file_bytes (e :: es))).
  assert (drop (Z.to_nat off) data = tail) as Hdrop.
  { unfold off, data, lenZ. by rewrite Nat2Z.id, drop_app_length. }
  assert (lenZ data = off + lenZ tail) as Hlen by apply lenZ_app.
  assert (lenZ tail = 4 + lenZ body + 4 + lenZ rest) as Htl
    by (unfold tail; rewrite !lenZ_app, lenZ_put_be, Hsum; lia).
  assert (0 < lenZ rest) by (destruct rest; [done | unfold lenZ; simpl; lia]).
  assert (take 4 tail = put_be 4 (lenZ body)) as Htk.
  { unfold tail. rewrite <- (length_put_be 4 (lenZ body)) at 1. apply take_app_length. }
  assert (declaredFrameRunsPastEOF data off (lenZ data) = false) as ->.
  { unfold declaredFrameRunsPastEOF. rewrite Hdrop, Htk, lenZ_put_be, get_be_u32 by lia.
    change (Z.of_nat 4 <? 4) with false. cbv iota. lia. }
  assert (remainderIsZero data off (lenZ data) = false) as ->.
  { unfold remainderIsZero. case_if; bool_to_prop; [lia|]. rewrite Hdrop.
    apply not_true_iff_false. rewrite forallb_forall. intros Hz.
    assert (get_be (take 4 tail) = 0) as H0.
    { assert (Forall (fun x => x = 0) (take 4 tail)) as Hf0.
      { apply Forall_take, List.Forall_forall. intros x Hx. apply Z.eqb_eq. by apply Hz. }
      revert Hf0. generalize (take 4 tail). unfold get_be. intros l.
      enough (forall a, a = 0 -> Forall (fun x => x = 0) l -> foldl (fun a b => a * 256 + b) a l = 0)
        by auto.
      induction l as [|x l IH]; intros a -> Hl; [done|]. inversion Hl; subst. simpl. by apply IH. }
    rewrite Htk, get_be_u32 in H0 by lia. lia. }
  replace (lenZ data - lenZ rest =? lenZ data) with false by lia.
  by rewrite andb_false_r.
Qed.

(** Two frames followed by part of a third, and by a damaged one. *)
Definition demo_entry (seq : Z) : entry := mkEntry (mkCursor 1 seq) (1000 + seq) [seq; 7].

Lemma demo_entries_ok : Forall (entry_ok 1000) [demo_entry 1; demo_entry 2] /\ contiguous [demo_entry 1; demo_entry 2].
Proof.
  split; [|by split]. repeat constructor; simpl; unfold max_u64, min_i64, max_i64, lenZ; simpl; lia.
Qed.

Lemma scan_recovers_intact_prefix_witness :
  exists stop,
    scanFrames (file_bytes [demo_entry 1; demo_entry 2] ++ take 9 (frame_bytes (demo_entry 3))) "seg" true 1000
    = (Some (segment_of "seg" (demo_entry 1) [demo_entry 2]), lenZ (file_bytes [demo_entry 1; demo_entry 2]), stop) /\
    (stop = StopEOF \/ stop = StopRepair).
Proof.
  destruct demo_entries_ok as [H1 H2].
  apply (scan_recovers_intact_prefix "seg" 1000 (demo_entry 1) [demo_entry 2] _ H1 H2).
  left. exists (demo_entry 3), 9%nat. split; [|split; [vm_compute; lia | reflexivity]].
  repeat constructor; simpl; unfold max_u64, min_i64, max_i64, lenZ; simpl; lia.
Defined.

Definition demo_body : list Z := replicate 24 1.

Lemma scan_refuses_midfile_corruption_witness :
  scanFrames (file_bytes [demo_entry 1; demo_entry 2] ++ put_be 4 (lenZ demo_body) ++ demo_body ++ [0; 0; 0; 0] ++ [5])
    "seg" true 1000
  = (Some (segment_of "seg" (demo_entry 1) [demo_entry 2]), lenZ (file_bytes [demo_entry 1; demo_entry 2]), StopCorrupt).
Proof.
  destruct demo_entries_ok as [H1 H2].
  refine (scan_refuses_midfile_corruption "seg" 1000 true (demo_entry 1) [demo_entry 2] demo_body [0; 0; 0; 0] [5]
    H1 H2 _ _ _ _ _ _).
  - vm_compute. discriminate.
  - vm_compute. reflexivity.
  - vm_compute. discriminate.
  - reflexivity.
  - vm_compute. discriminate.
  - discriminate.
Defined.
