(* ===== verification/WalMeta.v ===== *)
(** * Audit WAL: coverage metadata

    Models [internal/auditwal/types.go] (gaps and coverage),
    [internal/auditwal/meta.go] ([metadata], [validateMetadata] and the
    decisions of [loadMetadata]), and the pure helpers of
    [internal/auditwal/operations.go] and [wal.go]: [mergeGap],
    [gapIntersectsACK], [incarnationIntersectsACK], [rangeExplained],
    [segmentName] and [parseSegmentName]. A gap is a half-open range
    [FromSeq, UntilSeq) of one incarnation that was deliberately deleted before
    the Server had it. *)

From S2P Require Import Prelude Cursor WalFrame.

(** ** Data *)

Inductive GapReason := GapRetention | GapDiskPressure | GapReasonOther (s : string).
Inductive Precision := PrecisionExact | PrecisionCoalesced | PrecisionOther (s : string).

#[export] Instance GapReason_eq_dec : EqDecision GapReason.
Proof. solve_decision. Defined.
#[export] Instance Precision_eq_dec : EqDecision Precision.
Proof. solve_decision. Defined.

Record Gap := mkGap {
  g_Incarnation : Z;
  g_FromSeq : Z;
  g_UntilSeq : Z;
  g_Reason : GapReason;
  g_Precision : Precision;
  g_LastLossRevision : Z;
}.

#[export] Instance Gap_eq_dec : EqDecision Gap.
Proof. solve_decision. Defined.

Record metadata := mkMeta {
  m_Version : Z;
  m_AgentID : string;
  m_CurrentIncarnation : Z;
  m_NextSeq : Z;
  m_LastAssigned : option Cursor;
  m_DurableThrough : option Cursor;
  m_AcknowledgedArchive : string;
  m_ServerACK : option Cursor;
  m_CoverageRevision : Z;
  m_Gaps : list Gap;
  m_CoverageUnknownIncarnations : list Z;
}.

Definition metadataVersion : Z := 1.

(** ** [validateMetadata]

    [true] is the [nil] error; every failure is an [ErrInvariant]. *)

Definition cursor_field_ok (current : Z) (c : option Cursor) : bool :=
  match c with
  | None => true
  | Some c => negb ((Incarnation c =? 0) || (Seq c =? 0) || (Incarnation c >? current))
  end%bool.

Definition opt_exceeds (c : option Cursor) (bound : Cursor) : bool :=
  match c with
  | None => false
  | Some c => compareCursor c bound >? 0
  end.

(** [sort.SliceIsSorted] with [<]. *)
Fixpoint slice_is_sorted (l : list Z) : bool :=
  match l with
  | x :: ((y :: _) as l') => negb (y <? x) && slice_is_sorted l'
  | _ => true
  end%bool.

Fixpoint unknown_entries_ok (current : Z) (previous : option Z) (l : list Z) : bool :=
  match l with
  | [] => true
  | x :: l' =>
    negb ((x =? 0) || (x >? current) || bool_decide (previous = Some x))
    && unknown_entries_ok current (Some x) l'
  end%bool.

(** [sort.Search]: the first index that satisfies the predicate. *)
Fixpoint sort_search (f : Z -> bool) (l : list Z) : nat :=
  match l with
  | [] => 0%nat
  | x :: l' => if f x then 0%nat else S (sort_search f l')
  end.

Definition searched_unknown (unknown : list Z) (incarnation : Z) : bool :=
  let position := sort_search (fun u => u >=? incarnation) unknown in
  if decide (position < length unknown)%nat
  then bool_decide (unknown !! position = Some incarnation)
  else false.

Definition reason_known (r : GapReason) : bool :=
  match r with GapReasonOther _ => false | _ => true end.
Definition precision_known (p : Precision) : bool :=
  match p with PrecisionOther _ => false | _ => true end.

Fixpoint gaps_ok (current revision : Z) (unknown : list Z) (previous : option Gap)
    (gaps : list Gap) : bool :=
  match gaps with
  | [] => true
  | gap :: gaps' =>
    if ((g_Incarnation gap =? 0) || (g_Incarnation gap >? current) || (g_FromSeq gap =? 0)
        || (g_UntilSeq gap <=? g_FromSeq gap)
        || negb (reason_known (g_Reason gap)) || negb (precision_known (g_Precision gap))
        || (g_LastLossRevision gap =? 0) || (g_LastLossRevision gap >? revision))
    then false
    else if match previous with
            | Some prev => (g_Incarnation gap <? g_Incarnation prev)
                || ((g_Incarnation gap =? g_Incarnation prev) && (g_FromSeq gap <? g_UntilSeq prev))
            | None => false
            end
    then false
    else if match previous with
            | Some prev => (g_Incarnation gap =? g_Incarnation prev)
                && (g_FromSeq gap =? g_UntilSeq prev)
                && bool_decide (g_Reason gap = g_Reason prev)
                && bool_decide (g_Precision gap = g_Precision prev)
            | None => false
            end
    then false
    else if searched_unknown unknown (g_Incarnation gap) then false
    else gaps_ok current revision unknown (Some gap) gaps'
  end%bool.

Definition validateMetadata (meta : metadata) : bool :=
  (if (negb (m_Version meta =? metadataVersion) || str_empty (m_AgentID meta)
      || (m_CurrentIncarnation meta =? 0) || (m_NextSeq meta =? 0)) then false
  else if negb (cursor_field_ok (m_CurrentIncarnation meta) (m_LastAssigned meta)
                && cursor_field_ok (m_CurrentIncarnation meta) (m_DurableThrough meta)
                && cursor_field_ok (m_CurrentIncarnation meta) (m_ServerACK meta)) then false
  else if match m_LastAssigned meta with
          | None => bool_decide (is_Some (m_DurableThrough meta))
              || bool_decide (is_Some (m_ServerACK meta)) || negb (m_NextSeq meta =? 1)
          | Some la =>
              (if Incarnation la =? m_CurrentIncarnation meta
               then (Seq la =? max_u64) || negb (m_NextSeq meta =? u64 (Seq la + 1))
               else negb (m_NextSeq meta =? 1))
              || opt_exceeds (m_DurableThrough meta) la || opt_exceeds (m_ServerACK meta) la
          end then false
  else if bool_decide (is_Some (m_ServerACK meta)) && str_empty (m_AcknowledgedArchive meta) then false
  else if (m_CoverageRevision meta =? 0) &&
          negb (bool_decide (m_Gaps meta = []) && bool_decide (m_CoverageUnknownIncarnations meta = []))
  then false
  else if negb (slice_is_sorted (m_CoverageUnknownIncarnations meta)) then false
  else if negb (unknown_entries_ok (m_CurrentIncarnation meta) None (m_CoverageUnknownIncarnations meta))
  then false
  else gaps_ok (m_CurrentIncarnation meta) (m_CoverageRevision meta)
         (m_CoverageUnknownIncarnations meta) None (m_Gaps meta))%bool.

(** ** Gap helpers of [operations.go] and [wal.go] *)

Definition gap_less (a b : Gap) : bool :=
  if negb (g_Incarnation a =? g_Incarnation b) then g_Incarnation a <? g_Incarnation b
  else g_FromSeq a <? g_FromSeq b.

Definition gap_absorbs (top gap : Gap) : bool :=
  (g_Incarnation top =? g_Incarnation gap)
  && bool_decide (g_Reason top = g_Reason gap)
  && bool_decide (g_Precision top = g_Precision gap)
  && (g_FromSeq gap <=? g_UntilSeq top).

Definition gap_extend (top gap : Gap) : Gap :=
  mkGap (g_Incarnation top) (g_FromSeq top)
    (if g_UntilSeq gap >? g_UntilSeq top then g_UntilSeq gap else g_UntilSeq top)
    (g_Reason top) (g_Precision top)
    (if g_LastLossRevision gap >? g_LastLossRevision top
     then g_LastLossRevision gap else g_LastLossRevision top).

(** The merge loop of [mergeGap]; [top] is the last element of [merged]. *)
Fixpoint merge_run (top : Gap) (rest : list Gap) : list Gap :=
  match rest with
  | [] => [top]
  | gap :: rest' =>
    if gap_absorbs top gap then merge_run (gap_extend top gap) rest'
    else top :: merge_run gap rest'
  end.

Definition mergeGap (gaps : list Gap) (incoming : Gap) : list Gap :=
  match sort_by gap_less (gaps ++ [incoming]) with
  | [] => []
  | top :: rest => merge_run top rest
  end.

Definition gapIntersectsACK (gap : Gap) (current : option Cursor) (proposed : Cursor) : bool :=
  let gapFirst := mkCursor (g_Incarnation gap) (g_FromSeq gap) in
  let gapLast := mkCursor (g_Incarnation gap) (u64 (g_UntilSeq gap - 1)) in
  if compareCursor gapFirst proposed >? 0 then false
  else match current with
       | None => true
       | Some current => compareCursor gapLast current >? 0
       end.

Definition incarnationIntersectsACK (incarnation : Z) (current : option Cursor)
    (proposed : Cursor) : bool :=
  if Incarnation proposed <? incarnation then false
  else match current with
       | None => true
       | Some current => Incarnation current <=? incarnation
       end.

(** The gap loop of [rangeExplained]. *)
Fixpoint explain_gaps (incarnation from until : Z) (gaps : list Gap) : bool :=
  match gaps with
  | [] => false
  | gap :: gaps' =>
    if ((negb (g_Incarnation gap =? incarnation)) || (g_UntilSeq gap <=? from)
        || (g_FromSeq gap >? from))%bool
    then explain_gaps incarnation from until gaps'
    else let from := g_UntilSeq gap in
         if from >=? until then true else explain_gaps incarnation from until gaps'
  end.

Definition rangeExplained (meta : metadata) (incarnation from until : Z) : bool :=
  if from >=? until then true
  else if existsb (fun unknown => unknown =? incarnation) (m_CoverageUnknownIncarnations meta) then true
  else match m_ServerACK meta with
       | Some ack =>
         if Incarnation ack >? incarnation then true
         else if ((Incarnation ack =? incarnation) && (Seq ack >=? from))%bool then
           if ((Seq ack =? max_u64) || (u64 (Seq ack + 1) >=? until))%bool then true
           else explain_gaps incarnation (u64 (Seq ack + 1)) until (m_Gaps meta)
         else explain_gaps incarnation from until (m_Gaps meta)
       | None => explain_gaps incarnation from until (m_Gaps meta)
       end.

(** ** Which cursors the metadata accounts for *)

Definition gap_covers (g : Gap) (c : Cursor) : Prop :=
  Incarnation c = g_Incarnation g /\ g_FromSeq g <= Seq c < g_UntilSeq g.

Definition gaps_cover (gs : list Gap) (c : Cursor) : Prop :=
  exists g, g ∈ gs /\ gap_covers g c.

(** The cursor is covered by a gap whose loss is dated [r] or later. *)
Definition gaps_cover_since (gs : list Gap) (c : Cursor) (r : Z) : Prop :=
  exists g, g ∈ gs /\ gap_covers g c /\ r <= g_LastLossRevision g.

(** ** [mergeGap] *)

Lemma gap_less_asym a b : gap_less a b = true -> gap_less b a = false.
Proof. unfold gap_less. repeat case_if; bool_to_prop; intros; bool_to_prop; lia. Qed.

(** What the sort establishes between neighbours. *)
Definition gap_le (a b : Gap) : Prop :=
  g_Incarnation a < g_Incarnation b \/
  (g_Incarnation a = g_Incarnation b /\ g_FromSeq a <= g_FromSeq b).

#[export] Instance gap_le_trans : Transitive gap_le.
Proof. unfold gap_le. intros x y z. lia. Qed.

Lemma gap_less_false a b : gap_less b a = false -> gap_le a b.
Proof. unfold gap_less, gap_le. repeat case_if; bool_to_prop; intros; bool_to_prop; lia. Qed.

Lemma sorted_gaps l : StronglySorted gap_le (sort_by gap_less l).
Proof.
  apply Sorted_StronglySorted; [apply gap_le_trans|].
  pose proof (sort_by_sorted gap_less gap_less_asym l) as H. unfold sorted_by in H.
  induction H as [|x l' Hs IH Hh]; constructor; auto.
  destruct Hh; constructor. by apply gap_less_false.
Qed.

Lemma gap_absorbs_inv top gap :
  gap_absorbs top gap = true ->
  g_Incarnation gap = g_Incarnation top /\ g_Reason gap = g_Reason top /\
  g_Precision gap = g_Precision top /\ g_FromSeq gap <= g_UntilSeq top.
Proof. unfold gap_absorbs. intros. bool_to_prop. auto. Qed.

Lemma gap_extend_covers top gap c :
  gap_absorbs top gap = true -> gap_le top gap ->
  gap_covers (gap_extend top gap) c <-> gap_covers top c \/ gap_covers gap c.
Proof.
  intros (Hi & _ & _ & Hf)%gap_absorbs_inv Hle. unfold gap_covers, gap_extend, gap_le in *. simpl.
  case_if; bool_to_prop; lia.
Qed.

Ltac sorted_inv H :=
  let H1 := fresh "Hsort" in let H2 := fresh "Hall" in
  apply StronglySorted_inv in H as [H1 H2].

Lemma sorted_extend top gap rest :
  StronglySorted gap_le (top :: gap :: rest) -> StronglySorted gap_le (gap_extend top gap :: rest).
Proof.
  intros H. sorted_inv H. sorted_inv Hsort. inversion Hall; subst. by constructor.
Qed.

(** The merge loop loses no cover and dates no loss earlier. *)
Lemma merge_run_since top rest c r :
  StronglySorted gap_le (top :: rest) ->
  gaps_cover_since (top :: rest) c r -> gaps_cover_since (merge_run top rest) c r.
Proof.
  revert top. induction rest as [|gap rest IH]; intros top Hs (g & Hg & Hc & Hr).
  { simpl. by exists g. }
  cbn [merge_run]. destruct (gap_absorbs top gap) eqn:E.
  - pose proof Hs as Hs'. sorted_inv Hs'. inversion Hall as [|? ? Hle _]; subst.
    apply IH; [by eapply sorted_extend|].
    apply elem_of_cons in Hg as [->|Hg]; [|apply elem_of_cons in Hg as [->|Hg]].
    + exists (gap_extend top gap). split_and!; [left | apply gap_extend_covers; auto |].
      simpl. case_if; bool_to_prop; lia.
    + exists (gap_extend top gap). split_and!; [left | apply gap_extend_covers; auto |].
      simpl. case_if; bool_to_prop; lia.
    + exists g. split_and!; [by right | done..].
  - sorted_inv Hs. apply elem_of_cons in Hg as [->|Hg].
    + exists top. split_and!; [left | done..].
    + destruct (IH gap Hsort) as (g' & Hg' & ?); [by exists g|].
      exists g'. split; [by right | done].
Qed.

(** The merge loop covers nothing new. *)
Lemma merge_run_covers_only top rest c :
  StronglySorted gap_le (top :: rest) ->
  gaps_cover (merge_run top rest) c -> gaps_cover (top :: rest) c.
Proof.
  revert top. induction rest as [|gap rest IH]; intros top Hs; cbn [merge_run]; [done|].
  pose proof Hs as Hs'. sorted_inv Hs'. inversion Hall as [|? ? Hle _]; subst.
  destruct (gap_absorbs top gap) eqn:E.
  - intros (g & Hg & Hc)%IH; [|by eapply sorted_extend].
    apply elem_of_cons in Hg as [->|Hg].
    + apply gap_extend_covers in Hc as [?|?]; auto.
      * exists top. split; [left | done].
      * exists gap. split; [right; left | done].
    + exists g. split; [by do 2 right | done].
  - intros (g & Hg & Hc). apply elem_of_cons in Hg as [->|Hg].
    + exists top. split; [left | done].
    + destruct (IH gap Hsort) as (g' & Hg' & ?); [by exists g|].
      exists g'. split; [by right | done].
Qed.

Lemma mergeGap_shape gaps g :
  exists top rest, sort_by gap_less (gaps ++ [g]) = top :: rest /\
    mergeGap gaps g = merge_run top rest /\ StronglySorted gap_le (top :: rest) /\
    top :: rest ≡ₚ gaps ++ [g].
Proof.
  unfold mergeGap. pose proof (sort_by_perm gap_less (gaps ++ [g])) as Hp.
  pose proof (sorted_gaps (gaps ++ [g])) as Hs.
  destruct (sort_by gap_less (gaps ++ [g])) as [|top rest].
  - apply Permutation_nil_l in Hp. by destruct gaps.
  - by exists top, rest.
Qed.

Lemma mergeGap_cover gaps g c :
  gaps_cover (mergeGap gaps g) c <-> gaps_cover gaps c \/ gap_covers g c.
Proof.
  destruct (mergeGap_shape gaps g) as (top & rest & _ & -> & Hs & Hp). split.
  - intros (x & Hx & Hc)%merge_run_covers_only; [|done]. rewrite Hp in Hx.
    apply elem_of_app in Hx as [Hx | ->%list_elem_of_singleton]; [|auto].
    left. by exists x.
  - intros H. assert (exists x, x ∈ gaps ++ [g] /\ gap_covers x c) as (x & Hx & Hc).
    { destruct H as [(x & Hx & Hc) | Hc]; [exists x | exists g]; set_solver. }
    rewrite <- Hp in Hx.
    destruct (merge_run_since top rest c (g_LastLossRevision x) Hs) as (y & Hy & Hyc & _).
    { by exists x. }
    by exists y.
Qed.

Lemma mergeGap_since gaps g c r :
  gaps_cover_since gaps c r \/ (gap_covers g c /\ r <= g_LastLossRevision g) ->
  gaps_cover_since (mergeGap gaps g) c r.
Proof.
  destruct (mergeGap_shape gaps g) as (top & rest & _ & -> & Hs & Hp).
  intros H. apply merge_run_since; [done|].
  destruct H as [(x & Hx & Hc & Hr) | [Hc Hr]]; [exists x | exists g];
    rewrite Hp; set_solver.
Qed.

(** *** Canonical gap lists *)

(** [a] ends before [b] begins. *)
Definition gap_before (a b : Gap) : Prop :=
  g_Incarnation a < g_Incarnation b \/
  (g_Incarnation a = g_Incarnation b /\ g_UntilSeq a <= g_FromSeq b).

(** Neighbours of a canonical list: apart, and not two halves of one range. *)
Definition gap_apart (a b : Gap) : Prop :=
  gap_before a b /\
  ~ (g_Incarnation b = g_Incarnation a /\ g_FromSeq b = g_UntilSeq a /\
     g_Reason b = g_Reason a /\ g_Precision b = g_Precision a).

Definition gap_valid (current revision : Z) (unknown : list Z) (g : Gap) : Prop :=
  1 <= g_Incarnation g <= current /\ 1 <= g_FromSeq g /\ g_FromSeq g < g_UntilSeq g /\
  reason_known (g_Reason g) = true /\ precision_known (g_Precision g) = true /\
  1 <= g_LastLossRevision g <= revision /\ searched_unknown unknown (g_Incarnation g) = false.

(** The unsigned fields of a gap. *)
Definition gap_u64 (g : Gap) : Prop :=
  0 <= g_Incarnation g /\ 0 <= g_FromSeq g /\ 0 <= g_LastLossRevision g /\ g_UntilSeq g <= max_u64.

Lemma gaps_ok_iff current revision unknown previous gaps :
  Forall gap_u64 gaps ->
  gaps_ok current revision unknown previous gaps = true <->
  Forall (gap_valid current revision unknown) gaps /\
  Sorted gap_apart gaps /\
  (forall p g, previous = Some p -> head gaps = Some g -> gap_apart p g).
Proof.
  revert previous. induction gaps as [|g gaps IH]; intros previous Hu.
  { simpl. split; [|done]. intros _. split_and!; [constructor | constructor | done]. }
  apply Forall_cons in Hu as [Hg Hu]. cbn [gaps_ok]. unfold gap_u64 in Hg.
  split.
  - intros H. do 4 (case_if; [done|]). apply IH in H as (Hall & Hs & Hn); [|done].
    bool_to_prop. split_and!.
    + constructor; [|done]. unfold gap_valid. split_and!; auto; lia.
    + constructor; [done|]. destruct gaps as [|g' gaps]; constructor. by apply Hn.
    + intros p g' -> [= <-]. unfold gap_apart, gap_before.
      bool_to_prop. split; [lia|]. intros (E1 & E2 & E3 & E4).
      bool_cases; try congruence; lia.
  - intros ((Hv & Hall)%Forall_cons & Hs & Hn). apply Sorted_inv in Hs as [Hs Hhd].
    destruct Hv as (H1 & H2 & H3 & H4 & H5 & H6 & H7). rewrite H4, H5, H7.
    assert (forall p, previous = Some p -> gap_apart p g) as Hp by (intros; by apply Hn).
    replace (g_Incarnation g =? 0) with false by lia.
    replace (g_Incarnation g >? current) with false by lia.
    replace (g_FromSeq g =? 0) with false by lia.
    replace (g_UntilSeq g <=? g_FromSeq g) with false by lia.
    replace (g_LastLossRevision g =? 0) with false by lia.
    replace (g_LastLossRevision g >? revision) with false by lia. cbn [orb negb].
    assert (gaps_ok current revision unknown (Some g) gaps = true) as Hrest.
    { apply IH; [done|]. split_and!; [done | done |]. intros p g' [= <-] Hh.
      destruct gaps; [done|]. injection Hh as ->. by inversion Hhd. }
    destruct previous as [p|]; [|done]. destruct (Hp p eq_refl) as [Hb Hne].
    unfold gap_before in Hb. case_if; [bool_to_prop; destruct Heqb as [?|?]; bool_to_prop; lia|].
    case_if; [bool_to_prop; tauto | done].
Qed.

Lemma gap_valid_weaken cur cur' rev rev' unk g :
  cur <= cur' -> rev <= rev' -> gap_valid cur rev unk g -> gap_valid cur' rev' unk g.
Proof. unfold gap_valid. intros ?? (?&?&?&?&?&?&?). split_and!; auto; lia. Qed.

Lemma insert_gap_before x l :
  g_FromSeq x < g_UntilSeq x -> Forall (fun y => g_FromSeq y < g_UntilSeq y) l ->
  Forall (fun y => gap_before x y \/ gap_before y x) l ->
  StronglySorted gap_before l -> StronglySorted gap_before (insert_by gap_less x l).
Proof.
  intros Hx Hne Hcmp Hs. induction Hs as [|y l Hs IH Hall]; simpl.
  { repeat constructor. }
  apply Forall_cons in Hne as [Hy Hne]. apply Forall_cons in Hcmp as [Hc Hcmp].
  destruct (gap_less y x) eqn:E.
  - constructor; [by apply IH|]. rewrite insert_by_perm. constructor; [|done].
    destruct Hc as [Hc|Hc]; [|done]. exfalso. revert E Hc.
    unfold gap_less, gap_before. repeat case_if; bool_to_prop; intros; bool_to_prop; lia.
  - assert (gap_before x y) as Hxy.
    { destruct Hc as [Hc|Hc]; [done|]. exfalso. revert E Hc.
      unfold gap_less, gap_before. repeat case_if; bool_to_prop; intros; bool_to_prop; lia. }
    constructor; [by constructor|]. constructor; [done|].
    rewrite Forall_forall in Hall, Hne |- *. intros z Hz.
    specialize (Hall z Hz). specialize (Hne z Hz). simpl in *. unfold gap_before in *. lia.
Qed.

Lemma sort_gap_before gaps g :
  g_FromSeq g < g_UntilSeq g -> Forall (fun y => g_FromSeq y < g_UntilSeq y) gaps ->
  Forall (fun y => gap_before y g \/ gap_before g y) gaps ->
  StronglySorted gap_before gaps ->
  StronglySorted gap_before (sort_by gap_less (gaps ++ [g])).
Proof.
  intros Hg Hne Hcmp Hs. induction Hs as [|x gaps Hs IH Hall]; simpl; [repeat constructor|].
  apply Forall_cons in Hne as [Hx Hne]. apply Forall_cons in Hcmp as [Hc Hcmp].
  apply insert_gap_before; auto.
  - change (foldr _ _ _) with (sort_by gap_less (gaps ++ [g])). rewrite sort_by_perm.
    apply Forall_app; auto.
  - change (foldr _ _ _) with (sort_by gap_less (gaps ++ [g])). rewrite sort_by_perm.
    apply Forall_app. split; [|by apply Forall_singleton].
    eapply Forall_impl; [exact Hall|]. auto.
Qed.

Lemma merge_run_apart top rest :
  Forall (fun y => g_FromSeq y < g_UntilSeq y) (top :: rest) ->
  StronglySorted gap_before (top :: rest) ->
  Sorted gap_apart (merge_run top rest) /\
  (forall p, gap_before p top ->
     ~ (g_Incarnation top = g_Incarnation p /\ g_FromSeq top = g_UntilSeq p /\
        g_Reason top = g_Reason p /\ g_Precision top = g_Precision p) ->
     HdRel gap_apart p (merge_run top rest)).
Proof.
  revert top. induction rest as [|gap rest IH]; intros top Hne Hs; cbn [merge_run].
  { split; [repeat constructor|]. intros p Hp Hn. constructor. by split. }
  apply Forall_cons in Hne as [Ht Hne]. apply Forall_cons in Hne as [Hgp Hne].
  sorted_inv Hs. inversion Hall as [|? ? Htg Htr]; subst. sorted_inv Hsort.
  destruct (gap_absorbs top gap) eqn:E.
  - apply gap_absorbs_inv in E as (Hi & Hr & Hp & Hf).
    assert (g_UntilSeq (gap_extend top gap) = g_UntilSeq gap) as Hu.
    { simpl. case_if; bool_to_prop; unfold gap_before in Htg; lia. }
    destruct (IH (gap_extend top gap)) as [IH1 IH2].
    { constructor; [|done]. rewrite Hu. simpl. unfold gap_before in Htg. lia. }
    { constructor; [done|]. eapply Forall_impl; [exact Hall0|].
      intros y. unfold gap_before. rewrite Hu. simpl. lia. }
    split; [done|]. intros p Hp1 Hp2. by apply IH2.
  - destruct (IH gap) as [IH1 IH2]; [by constructor | by constructor |].
    split.
    + constructor; [done|]. apply IH2; [done|]. intros (H1 & H2 & H3 & H4).
      apply not_true_iff_false in E. apply E. unfold gap_absorbs.
      rewrite H1, H3, H4, !bool_decide_eq_true_2, Z.eqb_refl by done. simpl. lia.
    + intros p Hp1 Hp2. constructor. by split.
Qed.

Lemma merge_run_valid cur rev unk top rest :
  StronglySorted gap_le (top :: rest) ->
  Forall (gap_valid cur rev unk) (top :: rest) ->
  Forall (gap_valid cur rev unk) (merge_run top rest).
Proof.
  revert top. induction rest as [|gap rest IH]; intros top Hs Hall; cbn [merge_run]; [done|].
  destruct (gap_absorbs top gap) eqn:E.
  - apply IH; [by eapply sorted_extend|].
    apply Forall_cons in Hall as [Ht Hall]. apply Forall_cons in Hall as [Hg Hall].
    constructor; [|done]. unfold gap_valid in *. simpl. destruct Ht as (?&?&?&?&?&?&?).
    destruct Hg as (?&?&?&?&?&?&?). split_and!; auto; repeat case_if; bool_to_prop; lia.
  - sorted_inv Hs. apply Forall_cons in Hall as [Ht Hall]. constructor; auto.
Qed.

Lemma gaps_ok_before gaps :
  Forall (fun y => g_FromSeq y < g_UntilSeq y) gaps ->
  Sorted gap_apart gaps -> StronglySorted gap_before gaps.
Proof.
  intros Hne Hs. induction Hs as [|g gaps Hs IH Hh]; [constructor|].
  apply Forall_cons in Hne as [Hg Hne]. specialize (IH Hne). constructor; [done|].
  destruct Hh as [|g' gaps [Hb _]]; [constructor|]. constructor; [done|].
  sorted_inv IH. apply Forall_cons in Hne as [Hg' Hne].
  eapply Forall_impl; [exact Hall|]. intros y. unfold gap_before in *. lia.
Qed.

Lemma merge_run_u64 top rest :
  Forall gap_u64 (top :: rest) -> Forall gap_u64 (merge_run top rest).
Proof.
  revert top. induction rest as [|gap rest IH]; intros top H; cbn [merge_run]; [done|].
  apply Forall_cons in H as [Ht H]. pose proof H as H'. apply Forall_cons in H' as [Hg H'].
  case_if; [|constructor; auto]. apply IH. constructor; [|done].
  unfold gap_u64 in *. simpl. repeat case_if; lia.
Qed.

Lemma mergeGap_u64 gaps g :
  Forall gap_u64 gaps -> gap_u64 g -> Forall gap_u64 (mergeGap gaps g).
Proof.
  intros Hg H. destruct (mergeGap_shape gaps g) as (top & rest & _ & -> & _ & Hp).
  apply merge_run_u64. rewrite Hp. apply Forall_app. split; [done | by apply Forall_singleton].
Qed.

(** Merging a new range that overlaps no recorded range keeps a valid list
    valid, at the new revision. *)
Lemma mergeGap_ok cur rev rev' unk gaps g :
  Forall gap_u64 gaps -> gaps_ok cur rev unk None gaps = true -> rev <= rev' ->
  gap_u64 g -> gap_valid cur rev' unk g -> (forall x c, x ∈ gaps -> gap_covers x c -> ~ gap_covers g c) ->
  gaps_ok cur rev' unk None (mergeGap gaps g) = true /\ Forall gap_u64 (mergeGap gaps g).
Proof.
  intros Hu Hok Hrev Hgu Hg Hdis. pose proof (mergeGap_u64 gaps g Hu Hgu) as Hu'.
  apply gaps_ok_iff in Hok as (Hall & Hs & _); [|done].
  assert (Forall (fun y => g_FromSeq y < g_UntilSeq y) gaps) as Hne
    by (eapply Forall_impl; [exact Hall|]; unfold gap_valid; intros; lia).
  assert (g_FromSeq g < g_UntilSeq g) as Hgne by (unfold gap_valid in Hg; lia).
  assert (StronglySorted gap_before (sort_by gap_less (gaps ++ [g]))) as Hb.
  { apply sort_gap_before; auto using gaps_ok_before.
    rewrite Forall_forall in Hne |- *. intros x Hx. specialize (Hne x Hx). simpl in *.
    destruct (decide (g_Incarnation x = g_Incarnation g)) as [Hi|Hi].
    - pose proof (Hdis x (mkCursor (g_Incarnation g) (Z.max (g_FromSeq x) (g_FromSeq g))) Hx) as D.
      unfold gap_covers in D. simpl in D. unfold gap_before. lia.
    - unfold gap_before. lia. }
  split; [|done].
  destruct (mergeGap_shape gaps g) as (top & rest & Hsort & Em & Hss & Hp). rewrite Em in *.
  rewrite Hsort in Hb.
  assert (Forall (gap_valid cur rev' unk) (top :: rest)) as Hv.
  { rewrite Hp. apply Forall_app. split; [|by apply Forall_singleton].
    eapply Forall_impl; [exact Hall|]. intros x. apply gap_valid_weaken; lia. }
  apply gaps_ok_iff; [done|]. split_and!; [by apply merge_run_valid | | done].
  apply merge_run_apart; [|done]. eapply Forall_impl; [exact Hv|]. unfold gap_valid. intros; lia.
Qed.

(** The coverage ledger is exact: recording a deleted range leaves covered
    exactly what was covered plus that range, keeps for every cursor a gap
    dated at least as late as the newest loss that hit it, and keeps the gap
    list valid for [validateMetadata] (sorted, disjoint, canonical). *)
Theorem mergeGap_correct cur rev unk gaps g :
  Forall gap_u64 gaps -> gaps_ok cur rev unk None gaps = true ->
  gap_u64 g -> gap_valid cur (rev + 1) unk g ->
  (forall x c, x ∈ gaps -> gap_covers x c -> ~ gap_covers g c) ->
  (forall c, gaps_cover (mergeGap gaps g) c <-> gaps_cover gaps c \/ gap_covers g c) /\
  (forall c r, gaps_cover_since gaps c r -> gaps_cover_since (mergeGap gaps g) c r) /\
  (forall c, gap_covers g c -> gaps_cover_since (mergeGap gaps g) c (g_LastLossRevision g)) /\
  gaps_ok cur (rev + 1) unk None (mergeGap gaps g) = true.
Proof.
  intros Hu Hok Hgu Hg Hdis. split_and!.
  - intros c. apply mergeGap_cover.
  - intros c r H. apply mergeGap_since. auto.
  - intros c H. apply mergeGap_since. right. split; [done | lia].
  - eapply mergeGap_ok; eauto. lia.
Qed.

(** ** [rangeExplained] decides coverage *)

(** The metadata accounts for a cursor: its incarnation is known to be
    incomplete, the Server acknowledged it, or a gap records its loss. *)
Definition accounted (meta : metadata) (c : Cursor) : Prop :=
  Incarnation c ∈ m_CoverageUnknownIncarnations meta \/
  (exists ack, m_ServerACK meta = Some ack /\ cursor_le c ack) \/
  gaps_cover (m_Gaps meta) c.

Lemma explain_gaps_sound inc from until gaps seq :
  explain_gaps inc from until gaps = true -> from <= seq < until ->
  gaps_cover gaps (mkCursor inc seq).
Proof.
  revert from. induction gaps as [|g gaps IH]; intros from H Hseq; [done|].
  cbn [explain_gaps] in H. case_if.
  - destruct (IH from H Hseq) as (x & Hx & Hc). exists x. split; [by right | done].
  - bool_to_prop. destruct (decide (seq < g_UntilSeq g)).
    + exists g. split; [left|]. unfold gap_covers. simpl. lia.
    + case_if; bool_to_prop; [lia|].
      destruct (IH (g_UntilSeq g) H ltac:(lia)) as (x & Hx & Hc).
      exists x. split; [by right | done].
Qed.

Lemma explain_gaps_complete inc from until gaps :
  StronglySorted gap_before gaps -> Forall (fun y => g_FromSeq y < g_UntilSeq y) gaps ->
  from < until ->
  (forall seq, from <= seq < until -> gaps_cover gaps (mkCursor inc seq)) ->
  explain_gaps inc from until gaps = true.
Proof.
  intros Hs Hne. revert from. induction Hs as [|g gaps Hs IH Hall]; intros from Hlt Hcov.
  { destruct (Hcov from ltac:(lia)) as (x & Hx & _). by apply elem_of_nil in Hx. }
  apply Forall_cons in Hne as [Hg Hne]. cbn [explain_gaps].
  (** A cursor the head gap does not cover is covered by the tail. *)
  assert (forall seq, from <= seq < until -> ~ gap_covers g (mkCursor inc seq) ->
    gaps_cover gaps (mkCursor inc seq)) as Htail.
  { intros seq Hseq Hn. destruct (Hcov seq Hseq) as (x & Hx & Hc).
    apply elem_of_cons in Hx as [->|Hx]; [done|]. by exists x. }
  case_if; bool_to_prop.
  - apply IH; [done | done |]. intros seq Hseq. apply Htail; [done|]. intros [Hi Hr]. simpl in *.
    assert (g_FromSeq g > from) as Hf by (bool_cases; lia).
    destruct (Htail from) as (x & Hx & Hxi & Hxr); [lia | unfold gap_covers; simpl; lia |].
    rewrite Forall_forall in Hall. specialize (Hall x Hx). simpl in *.
    unfold gap_before in Hall. lia.
  - case_if; bool_to_prop; [done|]. apply IH; [done | lia |].
    intros seq Hseq. apply Htail; [lia|]. unfold gap_covers. simpl. lia.
Qed.

(** Valid gaps are nonempty and in order. *)
Lemma valid_gaps meta :
  validateMetadata meta = true -> Forall gap_u64 (m_Gaps meta) ->
  Forall (fun y => g_FromSeq y < g_UntilSeq y) (m_Gaps meta) /\ Sorted gap_apart (m_Gaps meta).
Proof.
  intros Hval Hu.
  assert (gaps_ok (m_CurrentIncarnation meta) (m_CoverageRevision meta)
    (m_CoverageUnknownIncarnations meta) None (m_Gaps meta) = true) as Hok.
  { unfold validateMetadata in Hval. by do 7 (case_if; [done|]). }
  apply gaps_ok_iff in Hok as (Hv & Hap & _); [|done]. split; [|done].
  eapply Forall_impl; [exact Hv|]; unfold gap_valid; intros; lia.
Qed.

(** From [from'] on, where nothing is acknowledged, the gaps must cover the
    range. *)
Lemma explain_gaps_accounted meta inc from from' until :
  Forall (fun y => g_FromSeq y < g_UntilSeq y) (m_Gaps meta) -> Sorted gap_apart (m_Gaps meta) ->
  inc ∉ m_CoverageUnknownIncarnations meta -> from <= from' -> from' < until ->
  (forall seq, from <= seq < from' -> accounted meta (mkCursor inc seq)) ->
  (forall seq ack, m_ServerACK meta = Some ack -> from' <= seq < until -> ~ cursor_le (mkCursor inc seq) ack) ->
  explain_gaps inc from' until (m_Gaps meta) = true <->
  (forall seq, from <= seq < until -> accounted meta (mkCursor inc seq)).
Proof.
  intros Hne Hap Hnu Hle Hlt Hpre Hno. pose proof (gaps_ok_before _ Hne Hap) as Hb. split.
  - intros He seq Hseq. destruct (decide (seq < from')); [apply Hpre; lia|].
    right. right. apply (explain_gaps_sound inc from' until); [done | lia].
  - intros Hacc. apply explain_gaps_complete; auto. intros seq Hseq.
    destruct (Hacc seq ltac:(lia)) as [? | [(ack & Ha & Hl) | ?]]; [done | | done].
    exfalso. by apply (Hno seq ack).
Qed.

(** When the recovery check answers [true]. *)
Lemma rangeExplained_exact meta inc from until :
  validateMetadata meta = true -> Forall gap_u64 (m_Gaps meta) ->
  (forall ack, m_ServerACK meta = Some ack -> cursor_ok ack) ->
  1 <= from -> until <= max_u64 ->
  rangeExplained meta inc from until = true <->
  (forall seq, from <= seq < until -> accounted meta (mkCursor inc seq)).
Proof.
  intros Hval Hu Hack Hfrom Huntil. destruct (valid_gaps meta Hval Hu) as [Hne Hap]. unfold rangeExplained.
  case_if; bool_to_prop; [split; [intros; lia | done]|].
  destruct (existsb _ _) eqn:Eu.
  { split; [|done]. intros _ seq _. left. apply existsb_exists in Eu as (x & Hx & ->%Z.eqb_eq).
    by apply list_elem_of_In. }
  assert (inc ∉ m_CoverageUnknownIncarnations meta) as Hnu.
  { intros Hin%list_elem_of_In. apply not_true_iff_false in Eu. apply Eu, existsb_exists.
    exists inc. split; [done | apply Z.eqb_refl]. }
  pose proof (explain_gaps_accounted meta inc from) as Hgaps. unfold accounted in *.
  destruct (m_ServerACK meta) as [ack|] eqn:Ea.
  - specialize (Hack ack eq_refl). destruct Hack as [Hai Has].
    case_if; bool_to_prop.
    { split; [|done]. intros _ seq _. right. left. exists ack. split; [done|]. left. simpl. lia. }
    case_if; bool_to_prop.
    + assert (forall seq, seq <= Seq ack -> cursor_le (mkCursor inc seq) ack) as Hpre
        by (intros seq Hs; right; simpl; lia).
      case_if; bool_to_prop.
      * split; [|done]. intros _ seq Hseq. right. left. exists ack. split; [done|]. apply Hpre.
        destruct (decide (Seq ack = max_u64)); [lia|].
        rewrite u64_id in * by (unfold u64_ok; lia). bool_cases; lia.
      * rewrite u64_id in * by (unfold u64_ok; lia).
        apply Hgaps; [done.. | lia | lia | |].
        -- intros seq Hseq. right. left. exists ack. split; [done|]. apply Hpre. lia.
        -- intros seq ack' [= <-] Hseq Hle. cursor_solve.
    + apply Hgaps; [done.. | lia | lia | intros; lia |].
      intros seq ack' [= <-] Hseq Hle. bool_cases; cursor_solve.
  - apply Hgaps; [done.. | lia | lia | intros; lia | congruence].
Qed.

(** [C38] The recovery check is exact: on valid metadata [rangeExplained]
    answers [true] exactly when every sequence number of the range is
    accounted for by a gap, by the acknowledged prefix or by an incarnation
    marked unknown. *)
Theorem rangeExplained_iff meta inc from until :
  validateMetadata meta = true -> Forall gap_u64 (m_Gaps meta) ->
  (forall ack, m_ServerACK meta = Some ack -> cursor_ok ack) ->
  1 <= from -> until <= max_u64 ->
  rangeExplained meta inc from until = true <->
  (forall seq, from <= seq < until -> accounted meta (mkCursor inc seq)).
Proof. apply rangeExplained_exact. Qed.

(** ** [validateMetadata] as a proposition *)

Definition opt_cursor_u64 (c : option Cursor) : Prop :=
  forall x, c = Some x -> 0 <= Incarnation x <= max_u64 /\ 0 <= Seq x <= max_u64.

(** The numeric fields of the Go struct are [uint64] values. *)
Definition meta_u64 (m : metadata) : Prop :=
  u64_ok (m_CurrentIncarnation m) /\ u64_ok (m_NextSeq m) /\ u64_ok (m_CoverageRevision m) /\
  opt_cursor_u64 (m_LastAssigned m) /\ opt_cursor_u64 (m_DurableThrough m) /\
  opt_cursor_u64 (m_ServerACK m) /\ Forall gap_u64 (m_Gaps m).

Definition opt_le (c : option Cursor) (bound : Cursor) : Prop :=
  forall x, c = Some x -> cursor_le x bound.

Definition opt_valid (current : Z) (c : option Cursor) : Prop :=
  forall x, c = Some x -> cursor_ok x /\ Incarnation x <= current.

(** The relation between the counters: the next sequence number follows the
    last assigned one, and nothing is durable or acknowledged beyond it. *)
Definition counters_valid (m : metadata) : Prop :=
  match m_LastAssigned m with
  | None => m_DurableThrough m = None /\ m_ServerACK m = None /\ m_NextSeq m = 1
  | Some la =>
    (Incarnation la = m_CurrentIncarnation m -> Seq la < max_u64 /\ m_NextSeq m = Seq la + 1) /\
    (Incarnation la <> m_CurrentIncarnation m -> m_NextSeq m = 1) /\
    opt_le (m_DurableThrough m) la /\ opt_le (m_ServerACK m) la
  end.

Definition coverage_ok (m : metadata) : bool :=
  (negb ((m_CoverageRevision m =? 0) &&
         negb (bool_decide (m_Gaps m = []) && bool_decide (m_CoverageUnknownIncarnations m = [])))
   && slice_is_sorted (m_CoverageUnknownIncarnations m)
   && unknown_entries_ok (m_CurrentIncarnation m) None (m_CoverageUnknownIncarnations m)
   && gaps_ok (m_CurrentIncarnation m) (m_CoverageRevision m)
        (m_CoverageUnknownIncarnations m) None (m_Gaps m))%bool.

Definition meta_valid (m : metadata) : Prop :=
  m_Version m = metadataVersion /\ m_AgentID m <> "" /\
  1 <= m_CurrentIncarnation m /\ 1 <= m_NextSeq m /\
  opt_valid (m_CurrentIncarnation m) (m_LastAssigned m) /\
  opt_valid (m_CurrentIncarnation m) (m_DurableThrough m) /\
  opt_valid (m_CurrentIncarnation m) (m_ServerACK m) /\
  counters_valid m /\
  (is_Some (m_ServerACK m) -> m_AcknowledgedArchive m <> "") /\
  coverage_ok m = true.

Lemma cursor_field_ok_iff cur c :
  opt_cursor_u64 c -> cursor_field_ok cur c = true <-> opt_valid cur c.
Proof.
  intros Hu. unfold cursor_field_ok, opt_valid. destruct c as [x|]; [|by split].
  destruct (Hu x eq_refl) as [Hi Hs]. unfold cursor_ok. split.
  - intros H y [= <-]. bool_to_prop. lia.
  - intros H. destruct (H x eq_refl) as [[? ?] ?]. lia.
Qed.

Lemma opt_exceeds_iff c la : opt_exceeds c la = false <-> opt_le c la.
Proof.
  unfold opt_exceeds, opt_le. destruct c as [x|]; [|by split].
  rewrite Z.gtb_ltb, Z.ltb_ge. rewrite compareCursor_le. split.
  - by intros H y [= <-].
  - auto.
Qed.

Lemma str_empty_iff s : str_empty s = false <-> s <> "".
Proof. unfold str_empty. by rewrite bool_decide_eq_false. Qed.

Lemma counters_valid_iff m :
  meta_u64 m ->
  match m_LastAssigned m with
  | None => bool_decide (is_Some (m_DurableThrough m))
      || bool_decide (is_Some (m_ServerACK m)) || negb (m_NextSeq m =? 1)
  | Some la =>
      (if Incarnation la =? m_CurrentIncarnation m
       then (Seq la =? max_u64) || negb (m_NextSeq m =? u64 (Seq la + 1))
       else negb (m_NextSeq m =? 1))
      || opt_exceeds (m_DurableThrough m) la || opt_exceeds (m_ServerACK m) la
  end%bool = false <-> counters_valid m.
Proof.
  intros (_ & _ & _ & Hla & _). unfold counters_valid. destruct (m_LastAssigned m) as [la|].
  - destruct (Hla la eq_refl) as [_ Hs]. rewrite !orb_false_iff, !opt_exceeds_iff.
    case_if; bool_to_prop; split.
    + intros [[HP HD] HA]. apply orb_false_iff in HP as [H1 H2]. bool_to_prop.
      rewrite u64_id in H2 by (unfold u64_ok; lia). split_and!; auto; lia.
    + intros (H1 & _ & H3 & H4). destruct (H1 Heqb) as [? ->].
      split_and!; auto. rewrite u64_id by (unfold u64_ok; lia). lia.
    + intros [[HP HD] HA]. bool_to_prop. split_and!; auto; lia.
    + intros (_ & H2 & H3 & H4). split_and!; auto. rewrite H2; [done | lia].
  - rewrite !orb_false_iff, !bool_decide_eq_false, <- !eq_None_not_Some.
    rewrite negb_false_iff, Z.eqb_eq. tauto.
Qed.

Lemma validateMetadata_iff m : meta_u64 m -> validateMetadata m = true <-> meta_valid m.
Proof.
  intros Hu. pose proof Hu as (Hc & Hn & Hr & H1 & H2 & H3 & H4).
  unfold validateMetadata, meta_valid, coverage_ok.
  rewrite <- !cursor_field_ok_iff by done. rewrite <- counters_valid_iff by done.
  rewrite <- str_empty_iff. unfold u64_ok in *. split.
  - intros H. do 7 (case_if; [done|]). bool_to_prop. rewrite !andb_true_iff, negb_true_iff.
    split_and!; auto; try lia.
    intros Hs. apply str_empty_iff. bool_cases; done.
  - intros (Hv & Ha & Hi & Hx & C1 & C2 & C3 & Hcnt & Hack & Hcov).
    rewrite !andb_true_iff, negb_true_iff in Hcov. destruct Hcov as [[[Hz Hsort] Hunk] Hg].
    rewrite Hv, Ha, C1, C2, C3, Hcnt, Hz, Hsort, Hunk, Hg. rewrite Z.eqb_refl.
    replace (m_CurrentIncarnation m =? 0) with false by lia.
    replace (m_NextSeq m =? 0) with false by lia. cbn [negb orb andb].
    case_if; [|done]. bool_to_prop. exfalso.
    match goal with H : str_empty _ = true |- _ => apply bool_decide_eq_true in H end.
    by apply Hack.
Qed.

Lemma validate_coverage m : validateMetadata m = true -> coverage_ok m = true.
Proof.
  unfold validateMetadata, coverage_ok. intros H. do 7 (case_if; [done|]).
  repeat match goal with H : negb _ = false |- _ => apply negb_false_iff in H end.
  rewrite H. repeat match goal with H : _ = true |- _ => rewrite H end.
  rewrite !andb_true_r. by apply negb_true_iff.
Qed.

(** A log whose second segment was lost and whose first was acknowledged. *)
Definition demo_gap (from until rev : Z) : Gap := mkGap 1 from until GapRetention PrecisionExact rev.
Definition demo_meta : metadata :=
  mkMeta 1 "agent" 1 9 (Some (mkCursor 1 8)) (Some (mkCursor 1 8)) "archive" (Some (mkCursor 1 2)) 1 [demo_gap 3 5 1] [].

Lemma mergeGap_correct_witness :
  (forall c, gaps_cover (mergeGap [demo_gap 3 5 1] (demo_gap 5 7 2)) c <->
     gaps_cover [demo_gap 3 5 1] c \/ gap_covers (demo_gap 5 7 2) c) /\
  mergeGap [demo_gap 3 5 1] (demo_gap 5 7 2) = [demo_gap 3 7 2].
Proof.
  split; [|reflexivity].
  apply (mergeGap_correct 1 1 [] [demo_gap 3 5 1] (demo_gap 5 7 2)).
  - repeat constructor; simpl; unfold max_u64; lia.
  - reflexivity.
  - repeat constructor; simpl; unfold max_u64; lia.
  - split_and!; simpl; try lia; reflexivity.
  - intros x c Hx%list_elem_of_singleton. subst x. unfold gap_covers. simpl. lia.
Defined.

Lemma rangeExplained_iff_witness :
  rangeExplained demo_meta 1 1 5 = true /\ (forall seq, 1 <= seq < 5 -> accounted demo_meta (mkCursor 1 seq)).
Proof.
  split; [reflexivity|]. apply (rangeExplained_iff demo_meta 1 1 5).
  - reflexivity.
  - repeat constructor; simpl; unfold max_u64; lia.
  - intros ack [= <-]. unfold cursor_ok, max_u64. simpl. lia.
  - lia.
  - unfold max_u64. lia.
  - reflexivity.
Defined.
