(* ===== verification/WalNames.v ===== *)
(** * Audit WAL: segment file names

    Models [segmentName] and [parseSegmentName] of
    [internal/auditwal/wal.go]: a segment file is named after the cursor of its
    first record, in decimal with twenty digits, so that the order of the names
    is the order of the cursors. *)

From S2P Require Import Prelude Cursor WalFrame.
From Stdlib Require Import Ascii String.
Local Open Scope string_scope.
Local Open Scope Z_scope.

(** ** [fmt.Sprintf("%020d", x)] for [x < 10^20] *)

Definition digit_char (d : Z) : ascii := ascii_of_nat (48 + Z.to_nat d).

Fixpoint decimal_pad (n : nat) (x : Z) : string :=
  match n with
  | O => ""
  | S n' => String (digit_char ((x / 10 ^ Z.of_nat n') mod 10)) (decimal_pad n' x)
  end.

Definition segmentName (cursor : Cursor) : string :=
  "segment-" ++ decimal_pad 20 (Incarnation cursor) ++ "-"
    ++ decimal_pad 20 (Seq cursor) ++ ".wal".

(** ** [strings] and [strconv] as the parser uses them *)

Fixpoint trimPrefix (p s : string) : string :=
  match p, s with
  | EmptyString, _ => s
  | String a p', String b s' => if Ascii.eqb a b then
                                  if String.prefix p' s' then trimPrefix p' s' else s
                                else s
  | String _ _, EmptyString => s
  end.

Fixpoint trimSuffix (suf s : string) : string :=
  if String.eqb s suf then ""
  else match s with
       | EmptyString => ""
       | String a s' => String a (trimSuffix suf s')
       end.

Fixpoint split_on (sep : ascii) (s : string) : list string :=
  match s with
  | EmptyString => [""]
  | String a s' =>
    if Ascii.eqb a sep then "" :: split_on sep s'
    else match split_on sep s' with
         | [] => [String a ""]
         | part :: parts => String a part :: parts
         end
  end.

Definition digit_value (a : ascii) : option Z :=
  let n := Z.of_nat (nat_of_ascii a) in
  if ((48 <=? n) && (n <=? 57))%bool then Some (n - 48) else None.

Fixpoint parse_digits (acc : Z) (s : string) : option Z :=
  match s with
  | EmptyString => Some acc
  | String a s' => match digit_value a with
                   | Some d => parse_digits (acc * 10 + d) s'
                   | None => None
                   end
  end.

(** [strconv.ParseUint(s, 10, 64)] *)
Definition parseUint (s : string) : option Z :=
  if String.eqb s "" then None
  else match parse_digits 0 s with
       | Some v => if v <=? max_u64 then Some v else None
       | None => None
       end.

Definition parseSegmentName (name : string) : option Cursor :=
  let trimmed := trimSuffix ".wal" (trimPrefix "segment-" name) in
  match split_on "-" trimmed with
  | [p0; p1] =>
    match parseUint p0, parseUint p1 with
    | Some inc, Some seq =>
      let cursor := mkCursor inc seq in
      if (negb (inc =? 0) && negb (seq =? 0) && String.eqb (segmentName cursor) name)%bool
      then Some cursor else None
    | _, _ => None
    end
  | _ => None
  end.

(** ** Lemmas *)

Lemma str_app_cons a s t : String a s ++ t = String a (s ++ t).
Proof. reflexivity. Qed.
Lemma str_app_nil t : "" ++ t = t.
Proof. reflexivity. Qed.

Lemma nat_of_digit d : 0 <= d < 10 -> nat_of_ascii (digit_char d) = (48 + Z.to_nat d)%nat.
Proof. intros. unfold digit_char. rewrite nat_ascii_embedding; lia. Qed.

Lemma digit_value_char d : 0 <= d < 10 -> digit_value (digit_char d) = Some d.
Proof.
  intros H. unfold digit_value. rewrite nat_of_digit by done.
  replace (Z.of_nat (48 + Z.to_nat d)) with (48 + d) by lia.
  replace ((48 <=? 48 + d) && (48 + d <=? 57))%bool with true by lia. f_equal. lia.
Qed.

Lemma digit_not_dash d : 0 <= d < 10 -> Ascii.eqb (digit_char d) "-"%char = false.
Proof.
  intros H. apply Ascii.eqb_neq. intros E. apply (f_equal nat_of_ascii) in E.
  rewrite nat_of_digit in E by done. change (nat_of_ascii "-"%char) with 45%nat in E. lia.
Qed.

Lemma digit_range x n : 0 <= (x / 10 ^ Z.of_nat n) mod 10 < 10.
Proof. apply Z.mod_pos_bound. lia. Qed.

Lemma parse_digits_pad n x acc :
  parse_digits acc (decimal_pad n x) = Some (acc * 10 ^ Z.of_nat n + x mod 10 ^ Z.of_nat n).
Proof.
  revert acc. induction n as [|n IH]; intros acc; cbn [decimal_pad parse_digits].
  - rewrite Z.mod_1_r. f_equal. lia.
  - rewrite digit_value_char by apply digit_range. rewrite IH, Nat2Z.inj_succ, Z.pow_succ_r by lia.
    rewrite (Z.mul_comm 10 (10 ^ Z.of_nat n)), Z.rem_mul_r by lia. f_equal. lia.
Qed.

Lemma parseUint_pad x : u64_ok x -> parseUint (decimal_pad 20 x) = Some x.
Proof.
  intros Hx. unfold parseUint. rewrite parse_digits_pad. unfold u64_ok, max_u64 in *.
  change (10 ^ Z.of_nat 20) with 100000000000000000000.
  rewrite Z.mod_small by lia. rewrite Z.mul_0_l, Z.add_0_l.
  assert ((x <=? 2 ^ 64 - 1) = true) as -> by (apply Z.leb_le; lia).
  done.
Qed.

Lemma split_no_sep n x rest :
  split_on "-" (decimal_pad n x ++ String "-" rest) = decimal_pad n x :: split_on "-" rest.
Proof.
  induction n as [|n IH]; cbn [decimal_pad]; [done|]. rewrite ?str_app_cons. cbn [split_on].
  rewrite digit_not_dash by apply digit_range. by rewrite IH.
Qed.

Lemma split_digits n x : split_on "-" (decimal_pad n x) = [decimal_pad n x].
Proof.
  induction n as [|n IH]; cbn [decimal_pad]; [done|]. rewrite ?str_app_cons. cbn [split_on].
  rewrite digit_not_dash by apply digit_range. by rewrite IH.
Qed.

Lemma str_length_app s t : String.length (s ++ t) = (String.length s + String.length t)%nat.
Proof. induction s as [|a s IH]; [done|]. rewrite str_app_cons. cbn [String.length]. lia. Qed.

Lemma trimSuffix_app suf s : trimSuffix suf (s ++ suf) = s.
Proof.
  induction s as [|a s IH].
  - rewrite str_app_nil. destruct suf; cbn [trimSuffix]; by rewrite String.eqb_refl.
  - rewrite str_app_cons. cbn [trimSuffix].
    destruct (String.eqb _ suf) eqn:E; [|by rewrite IH].
    apply String.eqb_eq in E. apply (f_equal String.length) in E. cbn [String.length] in E.
    rewrite str_length_app in E. lia.
Qed.

Lemma str_app_assoc (a b c : string) : (a ++ b) ++ c = a ++ (b ++ c).
Proof. induction a as [|x a IH]; [done|]. rewrite !str_app_cons. by f_equal. Qed.

(** A segment name parses back to the cursor it was made from. *)
Lemma parse_segmentName c :
  cursor_ok c -> parseSegmentName (segmentName c) = Some c.
Proof.
  intros [Hi Hs]. unfold parseSegmentName.
  assert (trimPrefix "segment-" (segmentName c)
    = (decimal_pad 20 (Incarnation c) ++ "-" ++ decimal_pad 20 (Seq c)) ++ ".wal") as ->.
  { unfold segmentName. rewrite !str_app_assoc. reflexivity. }
  rewrite trimSuffix_app. rewrite (str_app_cons "-"), str_app_nil. rewrite split_no_sep, split_digits.
  rewrite !parseUint_pad by (unfold u64_ok; lia).
  replace (negb (Incarnation c =? 0) && negb (Seq c =? 0))%bool with true by lia.
  destruct c. by rewrite String.eqb_refl.
Qed.

Lemma parse_digits_nonneg s acc v : 0 <= acc -> parse_digits acc s = Some v -> 0 <= v.
Proof.
  revert acc. induction s as [|a s IH]; intros acc Ha; simpl; [intros [= <-]; done|].
  unfold digit_value. case_if; [|done]. bool_to_prop. apply IH. lia.
Qed.

Lemma parseUint_range s v : parseUint s = Some v -> u64_ok v.
Proof.
  unfold parseUint. case_if; [done|]. destruct (parse_digits 0 s) as [x|] eqn:E; [|done].
  case_if; [|done]. intros [= <-]. apply parse_digits_nonneg in E; [|lia]. bool_to_prop. split; lia.
Qed.

Lemma parseSegmentName_inv name c :
  parseSegmentName name = Some c -> cursor_ok c /\ name = segmentName c.
Proof.
  unfold parseSegmentName. destruct (split_on _ _) as [|p0 [|p1 [|]]]; try done.
  destruct (parseUint p0) as [i|] eqn:E0; [|done]. destruct (parseUint p1) as [q|] eqn:E1; [|done].
  case_if; [|done]. intros [= <-]. apply parseUint_range in E0, E1. unfold u64_ok in *.
  bool_to_prop. match goal with H : String.eqb _ _ = true |- _ => apply String.eqb_eq in H end.
  unfold cursor_ok. simpl. split; [lia | congruence].
Qed.

(** The parser of segment names accepts exactly the names the writer
    produces, and returns the cursor they were made from: any other file name
    with the prefix and suffix of a segment (unpadded numbers, a zero
    component, an overflowing number) is refused. *)
Theorem parseSegmentName_exact name c :
  parseSegmentName name = Some c <-> cursor_ok c /\ name = segmentName c.
Proof. split; [apply parseSegmentName_inv|]. intros [Hc ->]. by apply parse_segmentName. Qed.

(** *** The order of the names *)

Lemma compare_digit a b : 0 <= a < 10 -> 0 <= b < 10 ->
  Ascii.compare (digit_char a) (digit_char b) = (a ?= b).
Proof.
  intros Ha Hb. unfold Ascii.compare, N_of_ascii.
  assert (forall d, 0 <= d < 10 -> N_of_ascii (digit_char d) = N.of_nat (48 + Z.to_nat d)) as Hd.
  { intros d Hd. rewrite <- nat_of_digit by done. unfold nat_of_ascii. by rewrite N2Nat.id. }
  change (N.compare (N_of_ascii (digit_char a)) (N_of_ascii (digit_char b)) = (a ?= b)).
  rewrite !Hd by done. destruct (Z.compare_spec a b); [apply N.compare_eq_iff |
    apply N.compare_lt_iff | apply N.compare_gt_iff]; lia.
Qed.

Lemma compare_pad n x y sx sy :
  String.compare (decimal_pad n x ++ sx) (decimal_pad n y ++ sy)
  = match x mod 10 ^ Z.of_nat n ?= y mod 10 ^ Z.of_nat n with
    | Eq => String.compare sx sy
    | o => o
    end.
Proof.
  induction n as [|n IH]; [by rewrite !Z.mod_1_r|].
  cbn [decimal_pad]. rewrite !str_app_cons. cbn [String.compare]. rewrite compare_digit by apply digit_range. rewrite IH.
  rewrite Nat2Z.inj_succ, Z.pow_succ_r by lia.
  rewrite (Z.mul_comm 10 (10 ^ Z.of_nat n)), !Z.rem_mul_r by lia.
  pose proof (Z.mod_pos_bound x (10 ^ Z.of_nat n) ltac:(lia)).
  pose proof (Z.mod_pos_bound y (10 ^ Z.of_nat n) ltac:(lia)).
  set (p := 10 ^ Z.of_nat n) in *. set (dx := (x / p) mod 10). set (dy := (y / p) mod 10).
  assert (0 < p) by lia.
  destruct (Z.compare_spec dx dy) as [->|Hlt|Hgt].
  - destruct (Z.compare_spec (x mod p) (y mod p));
      destruct (Z.compare_spec (x mod p + p * dy) (y mod p + p * dy)); try done; lia.
  - destruct (Z.compare_spec (x mod p + p * dx) (y mod p + p * dy)); try done; nia.
  - destruct (Z.compare_spec (x mod p + p * dx) (y mod p + p * dy)); try done; nia.
Qed.

Lemma ascii_compare_refl c : Ascii.compare c c = Eq.
Proof. unfold Ascii.compare. apply N.compare_refl. Qed.

Lemma string_compare_refl s : String.compare s s = Eq.
Proof. induction s as [|c s IH]; cbn [String.compare]; [done|]. by rewrite ascii_compare_refl. Qed.

Lemma compare_prefix p a b : String.compare (p ++ a) (p ++ b) = String.compare a b.
Proof.
  induction p as [|c p IH]; [done|]. rewrite !str_app_cons. cbn [String.compare].
  by rewrite ascii_compare_refl.
Qed.

(** Sorting segment files by name sorts them by cursor: for valid cursors
    the byte order of the names is the cursor order, and distinct cursors have
    distinct names. *)
Theorem segmentName_order a b :
  cursor_ok a -> cursor_ok b ->
  (String.compare (segmentName a) (segmentName b) = Lt <-> cursor_lt a b) /\
  (segmentName a = segmentName b <-> a = b).
Proof.
  intros [Hai Has] [Hbi Hbs]. unfold max_u64 in *.
  assert (String.compare (segmentName a) (segmentName b)
    = match Incarnation a ?= Incarnation b with
      | Eq => Seq a ?= Seq b
      | o => o
      end) as Hcmp.
  { unfold segmentName. rewrite compare_prefix, compare_pad, compare_prefix, compare_pad.
    change (10 ^ Z.of_nat 20) with 100000000000000000000.
    rewrite !Z.mod_small by lia. rewrite string_compare_refl.
    by destruct (Incarnation a ?= Incarnation b), (Seq a ?= Seq b). }
  rewrite Hcmp. split.
  - unfold cursor_lt. destruct (Z.compare_spec (Incarnation a) (Incarnation b));
      destruct (Z.compare_spec (Seq a) (Seq b)); split; try done; lia.
  - split; [|by intros ->]. intros E. rewrite E, string_compare_refl in Hcmp.
    destruct (Z.compare_spec (Incarnation a) (Incarnation b)); [|done..].
    destruct (Z.compare_spec (Seq a) (Seq b)); [|done..].
    destruct a, b; simpl in *; by f_equal.
Qed.

Lemma segmentName_order_witness :
  String.compare (segmentName (mkCursor 1 9)) (segmentName (mkCursor 1 10)) = Lt /\
  cursor_lt (mkCursor 1 9) (mkCursor 1 10).
Proof.
  split; [by vm_compute|].
  apply (segmentName_order (mkCursor 1 9) (mkCursor 1 10)); [..|by vm_compute];
    unfold cursor_ok, max_u64; simpl; lia.
Defined.
