(* ===== verification/Wal.v ===== *)
(** * Audit WAL: the log itself

    Models the [WAL] object of [internal/auditwal/wal.go] and
    [operations.go]: append, sync, close, recovery and open, acknowledgement,
    retention, disk-pressure reclaim, archive rebind and reading.

    The state [sys] is the in-memory [WAL] together with the directory it owns
    and the outcomes of the file-system calls still to come: every call that
    can fail consumes one outcome, so that a statement about all states is a
    statement about all the ways the calls can fail. A failing write reports
    how many bytes reached the file before it failed. The content of the
    metadata file is the [metadata] value (its JSON text is not represented).
    The mutex of the [WAL] makes each operation atomic with respect to the
    others. The pointer [w.active.segment] is the path of the segment, which is
    unique among the live segments. *)

From S2P Require Import Prelude Cursor WalFrame WalMeta WalNames.

(** ** State *)

Inductive walErr :=
| ErrClosed | ErrCorrupt | ErrInvariant | ErrRecordTooLarge | ErrArchiveMismatch
| ErrCursorRollback | ErrCursorAhead
| ErrStaleCoverage (seen current : Z) (ack : option Cursor) (blocking : list Gap)
    (blockingUnknown : list Z)
| ErrIO | ErrContext | ErrNotExist.

Record Options := mkOptions {
  o_MaxBytes : Z;
  o_MaxAge : Z;
  o_SyncInterval : Z;
  o_SyncBytes : Z;
}.

Record activeSegment := mkActive { a_path : string; a_pending : Z }.

Record WAL := mkWAL {
  w_agentID : string;
  w_options : Options;
  w_meta : metadata;
  w_segments : list segment;
  w_active : option activeSegment;
  w_totalBytes : Z;
  w_closed : bool;
  w_backgroundErr : option walErr;
}.

(** The WAL directory: the metadata file and the segment files. *)
Record disk := mkDisk {
  d_meta : option metadata;
  d_files : gmap string (list Z);
}.

(** The outcome of a system call: success, or failure (of a write: after this
    many bytes). *)
Definition outcome := option nat.

Record sys := mkSys {
  s_wal : WAL;
  s_disk : disk;
  s_outcomes : list outcome;
}.

Definition walM := M sys walErr.

(** ** Field updates *)

Definition upd_wal (f : WAL -> WAL) (s : sys) : sys := mkSys (f (s_wal s)) (s_disk s) (s_outcomes s).
Definition upd_disk (f : disk -> disk) (s : sys) : sys := mkSys (s_wal s) (f (s_disk s)) (s_outcomes s).

Definition set_meta (m : metadata) (w : WAL) : WAL :=
  mkWAL (w_agentID w) (w_options w) m (w_segments w) (w_active w) (w_totalBytes w) (w_closed w)
    (w_backgroundErr w).
Definition set_segments (l : list segment) (total : Z) (w : WAL) : WAL :=
  mkWAL (w_agentID w) (w_options w) (w_meta w) l (w_active w) total (w_closed w) (w_backgroundErr w).
Definition set_active (a : option activeSegment) (w : WAL) : WAL :=
  mkWAL (w_agentID w) (w_options w) (w_meta w) (w_segments w) a (w_totalBytes w) (w_closed w)
    (w_backgroundErr w).
Definition set_closed (w : WAL) : WAL :=
  mkWAL (w_agentID w) (w_options w) (w_meta w) (w_segments w) (w_active w) (w_totalBytes w) true
    (w_backgroundErr w).
Definition set_backgroundErr (e : option walErr) (w : WAL) : WAL :=
  mkWAL (w_agentID w) (w_options w) (w_meta w) (w_segments w) (w_active w) (w_totalBytes w)
    (w_closed w) e.

Definition m_set_durable (c : option Cursor) (m : metadata) : metadata :=
  mkMeta (m_Version m) (m_AgentID m) (m_CurrentIncarnation m) (m_NextSeq m) (m_LastAssigned m) c
    (m_AcknowledgedArchive m) (m_ServerACK m) (m_CoverageRevision m) (m_Gaps m)
    (m_CoverageUnknownIncarnations m).
Definition m_set_assigned (next : Z) (c : option Cursor) (m : metadata) : metadata :=
  mkMeta (m_Version m) (m_AgentID m) (m_CurrentIncarnation m) next c (m_DurableThrough m)
    (m_AcknowledgedArchive m) (m_ServerACK m) (m_CoverageRevision m) (m_Gaps m)
    (m_CoverageUnknownIncarnations m).
Definition m_set_ack (archive : string) (c : option Cursor) (m : metadata) : metadata :=
  mkMeta (m_Version m) (m_AgentID m) (m_CurrentIncarnation m) (m_NextSeq m) (m_LastAssigned m)
    (m_DurableThrough m) archive c (m_CoverageRevision m) (m_Gaps m)
    (m_CoverageUnknownIncarnations m).
Definition m_set_coverage (rev : Z) (gaps : list Gap) (m : metadata) : metadata :=
  mkMeta (m_Version m) (m_AgentID m) (m_CurrentIncarnation m) (m_NextSeq m) (m_LastAssigned m)
    (m_DurableThrough m) (m_AcknowledgedArchive m) (m_ServerACK m) rev gaps
    (m_CoverageUnknownIncarnations m).

(** ** System calls *)

(** The next outcome. *)
Definition next_outcome : walM outcome := fun s =>
  match s_outcomes s with
  | [] => (Ok None, s)
  | o :: os => (Ok o, mkSys (s_wal s) (s_disk s) os)
  end.

(** A call without effect on what is modelled (create temporary, chmod, fsync,
    close, open directory, ...). *)
Definition syscall : walM unit :=
  let* o := next_outcome in
  match o with None => ret tt | Some _ => fail ErrIO end.

(** [ctx.Err()] *)
Definition ctxErr : walM unit :=
  let* o := next_outcome in
  match o with None => ret tt | Some _ => fail ErrContext end.

(** [syncDirectory]: open, fsync. *)
Definition syncDirectory : walM unit := syscall ;;; syscall.

(** [os.Remove] of a segment file *)
Definition removeFile (path : string) : walM unit :=
  syscall ;;;
  let* files := gets (fun s => d_files (s_disk s)) in
  match files !! path with
  | None => fail ErrNotExist
  | Some _ => modify (upd_disk (fun d => mkDisk (d_meta d) (delete path (d_files d))))
  end.

(** [writeFull] to a segment file opened for writing: a failure leaves a prefix
    of the data behind. *)
Definition writeFull (path : string) (data : list Z) : walM unit :=
  let* o := next_outcome in
  let written := match o with None => data | Some n => take n data end in
  modify (upd_disk (fun d =>
    mkDisk (d_meta d) (<[path := default [] (d_files d !! path) ++ written]> (d_files d)))) ;;;
  match o with None => ret tt | Some _ => fail ErrIO end.

(** [saveMetadata]: validate, write a temporary file (create, chmod, write,
    fsync, close), rename it over the old one, fsync the directory (open,
    fsync). *)
Definition saveMetadata (meta : metadata) : walM unit :=
  if* negb (validateMetadata meta) then ErrInvariant end;
  syscall ;;; syscall ;;; syscall ;;; syscall ;;; syscall ;;;
  syscall ;;;
  modify (upd_disk (fun d => mkDisk (Some meta) (d_files d))) ;;;
  syncDirectory.

(** ** Sync *)

Definition is_active (w : WAL) (seg : segment) : bool :=
  match w_active w with
  | Some a => bool_decide (a_path a = seg_path seg)
  | None => false
  end.

(** The segment the active file handle belongs to. *)
Definition active_segment (w : WAL) : option segment :=
  match w_active w with
  | Some a => List.find (fun seg => bool_decide (a_path a = seg_path seg)) (w_segments w)
  | None => None
  end.

Definition syncLocked : walM unit :=
  let* w := gets s_wal in
  match active_segment w with
  | None => ret tt
  | Some seg =>
    syscall ;;;
    let previous := m_DurableThrough (w_meta w) in
    modify (upd_wal (fun w => set_meta (m_set_durable (Some (seg_last seg)) (w_meta w)) w)) ;;;
    let* meta := gets (fun s => w_meta (s_wal s)) in
    let* saved := attempt (saveMetadata meta) in
    match saved with
    | Err e =>
      modify (upd_wal (fun w => set_meta (m_set_durable previous (w_meta w)) w)) ;;;
      fail e
    | Ok _ =>
      modify (upd_wal (set_active None)) ;;;
      syscall
    end
  end.

(** ** Deletion, oldest first *)

Definition deleteSegmentLocked (seg : segment) : walM unit :=
  let* w := gets s_wal in
  match w_segments w with
  | [] => fail ErrInvariant
  | first :: _ =>
    if* negb (bool_decide (seg_path first = seg_path seg)) then ErrInvariant end;
    removeFile (seg_path seg) ;;;
    modify (upd_wal (fun w =>
      set_segments (tail (w_segments w)) (w_totalBytes w - seg_bytes seg) w)) ;;;
    syncDirectory
  end.

(** The segment before the active one, if any. *)
Fixpoint before_active (w : WAL) (previous : option segment) (l : list segment) : option segment :=
  match l with
  | [] => None
  | seg :: l' => if is_active w seg then previous else before_active w (Some seg) l'
  end.

(** The metadata [saveMetadataDurableLocked] persists: with an unsynced batch
    pending, the counters of the last durable state. *)
Definition durable_view (w : WAL) : metadata :=
  match w_active w, active_segment w with
  | Some a, Some seg =>
    if a_pending a >? 0 then
      let assigned := m_DurableThrough (w_meta w) in
      let assigned :=
        match before_active w None (w_segments w) with
        | Some prev =>
          match assigned with
          | None => Some (seg_last prev)
          | Some c => if compareCursor (seg_last prev) c >? 0 then Some (seg_last prev) else assigned
          end
        | None => assigned
        end in
      m_set_assigned (Seq (seg_first seg)) assigned (w_meta w)
    else w_meta w
  | _, _ => w_meta w
  end.

Definition saveMetadataDurableLocked : walM unit :=
  let* w := gets s_wal in
  saveMetadata (durable_view w).

Definition deleteWithGapLocked (seg : segment) (reason : GapReason) : walM unit :=
  if* Seq (seg_last seg) =? max_u64 then ErrInvariant end;
  let* old := gets (fun s => w_meta (s_wal s)) in
  let revision := u64 (m_CoverageRevision old + 1) in
  let gap := mkGap (Incarnation (seg_first seg)) (Seq (seg_first seg)) (u64 (Seq (seg_last seg) + 1))
                   reason PrecisionExact revision in
  modify (upd_wal (fun w => set_meta (m_set_coverage revision (mergeGap (m_Gaps (w_meta w)) gap) (w_meta w)) w)) ;;;
  let* saved := attempt saveMetadataDurableLocked in
  match saved with
  | Err e =>
    modify (upd_wal (fun w =>
      set_meta (m_set_coverage (m_CoverageRevision old) (m_Gaps old) (w_meta w)) w)) ;;;
    fail e
  | Ok _ => deleteSegmentLocked seg
  end.

Definition segmentACKed (seg : segment) (ack : option Cursor) : bool :=
  match ack with
  | None => false
  | Some ack => compareCursor (seg_last seg) ack <=? 0
  end.

(** The loop of [deleteACKedLocked]; every round removes one segment, so the
    number of segments bounds the rounds. *)
Fixpoint deleteACKed_loop (fuel : nat) (freed : Z) : walM Z :=
  match fuel with
  | O => ret freed
  | S fuel' =>
    let* w := gets s_wal in
    match w_segments w with
    | [] => ret freed
    | seg :: _ =>
      if is_active w seg then ret freed
      else if negb (segmentACKed seg (m_ServerACK (w_meta w))) then ret freed
      else deleteSegmentLocked seg ;;; deleteACKed_loop fuel' (freed + seg_bytes seg)
    end
  end.

Definition deleteACKedLocked : walM Z :=
  let* w := gets s_wal in
  deleteACKed_loop (length (w_segments w)) 0.

Fixpoint retention_loop (fuel : nat) (cutoff : time) (incoming freed : Z) : walM Z :=
  match fuel with
  | O => ret freed
  | S fuel' =>
    let* w := gets s_wal in
    match w_segments w with
    | [] => ret freed
    | seg :: _ =>
      if is_active w seg then ret freed
      else
        let overAge := seg_newestAt seg <=? cutoff in
        let overSize := w_totalBytes w + incoming >? o_MaxBytes (w_options w) in
        if (negb overAge && negb overSize)%bool then ret freed
        else deleteWithGapLocked seg GapRetention ;;;
             retention_loop fuel' cutoff incoming (freed + seg_bytes seg)
    end
  end.

Definition enforceRetentionLocked (now : time) (incoming : Z) : walM Z :=
  let* acked := deleteACKedLocked in
  let* w := gets s_wal in
  let cutoff := now - o_MaxAge (w_options w) in
  retention_loop (length (w_segments w)) cutoff incoming acked.

(** ** Append *)

Record walRecord := mkRecord {
  r_AgentID : string;
  r_Cursor : Cursor;
  r_AppendedAt : time;
  r_Payload : list Z;
}.

(** [os.OpenFile] with [O_EXCL], then [Chmod], whose failure removes the file; an
    error of the removal is ignored and leaves an empty file behind. *)
Definition createActiveLocked (cursor : Cursor) (now : time) : walM unit :=
  let path := segmentName cursor in
  syscall ;;;
  let* files := gets (fun s => d_files (s_disk s)) in
  if* bool_decide (is_Some (files !! path)) then ErrIO end;
  modify (upd_disk (fun d => mkDisk (d_meta d) (<[path := []]> (d_files d)))) ;;;
  let* secured := attempt syscall in
  match secured with
  | Err e =>
    let* _ := attempt (removeFile path) in
    fail e
  | Ok _ =>
    let seg := mkSegment path cursor cursor now now 0 in
    modify (upd_wal (fun w =>
      set_active (Some (mkActive path 0))
        (set_segments (w_segments w ++ [seg]) (w_totalBytes w) w)))
  end.

(** The updates of [appendLocked] to the active segment after its frame is
    written. *)
Definition grow_segment (cursor : Cursor) (now : time) (n : Z) (seg : segment) : segment :=
  mkSegment (seg_path seg) (seg_first seg) cursor (seg_oldestAt seg) now (seg_bytes seg + n).

Definition record_append (cursor : Cursor) (now : time) (n : Z) (w : WAL) : WAL :=
  match w_active w with
  | None => w
  | Some a =>
    let segs := (fun seg => if bool_decide (a_path a = seg_path seg)
                            then grow_segment cursor now n seg else seg) <$> w_segments w in
    mkWAL (w_agentID w) (w_options w)
      (m_set_assigned (u64 (m_NextSeq (w_meta w) + 1)) (Some cursor) (w_meta w))
      segs (Some (mkActive (a_path a) (a_pending a + n))) (w_totalBytes w + n)
      (w_closed w) (w_backgroundErr w)
  end.

(** Making room for a frame: sync the active batch when the log is full, then
    enforce retention. *)
Definition make_room (now : time) (n : Z) (w : WAL) : walM unit :=
  (if (bool_decide (is_Some (w_active w)) && (w_totalBytes w + n >? o_MaxBytes (w_options w)))%bool
   then syncLocked else ret tt) ;;;
  let* _ := enforceRetentionLocked now n in ret tt.

(** Writing the frame to the active segment, accounting for it, and syncing the
    batch when it is large enough. The second component of a successful result
    is the error of that sync, which does not undo the append. *)
Definition write_frame (cursor : Cursor) (now : time) (payload frame : list Z) (a : activeSegment)
  : walM (walRecord * option walErr) :=
  let* agentID := gets (fun s => w_agentID (s_wal s)) in
  writeFull (a_path a) frame ;;;
  modify (upd_wal (record_append cursor now (lenZ frame))) ;;;
  let record := mkRecord agentID cursor now payload in
  let* w := gets s_wal in
  match w_active w with
  | Some a' =>
    if a_pending a' >=? o_SyncBytes (w_options w) then
      let* synced := attempt syncLocked in
      match synced with
      | Ok _ => ret (record, None)
      | Err e => ret (record, Some e)
      end
    else ret (record, None)
  | None => ret (record, None)
  end.

Definition appendLocked (now : time) (payload : list Z) : walM (walRecord * option walErr) :=
  let* w := gets s_wal in
  if* w_closed w then ErrClosed end;
  match w_backgroundErr w with
  | Some e => fail e
  | None =>
    ctxErr ;;;
    let cursor := mkCursor (m_CurrentIncarnation (w_meta w)) (m_NextSeq (w_meta w)) in
    if* Seq cursor =? max_u64 then ErrInvariant end;
    if* lenZ payload >? maxPayloadBytes (o_MaxBytes (w_options w)) then ErrRecordTooLarge end;
    match encodeFrame cursor now payload with
    | Err _ => fail ErrRecordTooLarge
    | Ok frame =>
      if* lenZ frame >? o_MaxBytes (w_options w) then ErrRecordTooLarge end;
      make_room now (lenZ frame) w ;;;
      let* w1 := gets s_wal in
      (match w_active w1 with
       | None => createActiveLocked cursor now
       | Some _ => ret tt
       end) ;;;
      let* w2 := gets s_wal in
      match w_active w2 with
      | None => fail ErrInvariant (* unreachable: a segment is active here *)
      | Some a => write_frame cursor now payload frame a
      end
    end
  end.

Definition Append := appendLocked.

(** ** Sync, Close and the background tick *)

Definition Sync : walM unit :=
  let* w := gets s_wal in
  if* w_closed w then ErrClosed end;
  let* r := attempt syncLocked in
  match r with
  | Ok _ => modify (upd_wal (set_backgroundErr None))
  | Err e => fail e
  end.

Definition Close : walM unit :=
  let* w := gets s_wal in
  if w_closed w then ret tt
  else
    let* r := attempt syncLocked in
    let* w1 := gets s_wal in
    let err := match r with Ok _ => w_backgroundErr w1 | Err e => Some e end in
    let* err :=
      match w_active w1 with
      | None => ret err
      | Some _ =>
        let* c := attempt syscall in
        modify (upd_wal (set_active None)) ;;;
        ret (match err, c with None, Err e => Some e | _, _ => err end)
      end in
    modify (upd_wal set_closed) ;;;
    match err with None => ret tt | Some e => fail e end.

(** One tick of [syncLoop]. *)
Definition tick (now : time) : walM unit :=
  let* w := gets s_wal in
  if w_closed w then ret tt
  else
    (match w_active w with
     | Some a =>
       if a_pending a >? 0 then
         let* r := attempt syncLocked in
         match r with
         | Ok _ => ret tt
         | Err e => modify (upd_wal (set_backgroundErr (Some e)))
         end
       else ret tt
     | None => ret tt
     end) ;;;
    let* w1 := gets s_wal in
    match w_backgroundErr w1 with
    | Some _ => ret tt
    | None =>
      let* r := attempt (enforceRetentionLocked now 0) in
      match r with
      | Ok _ => ret tt
      | Err e => modify (upd_wal (set_backgroundErr (Some e)))
      end
    end.

(** ** Bounds and coverage *)

Record Bounds := mkBounds {
  b_WALFloor : option Cursor;
  b_WALCeiling : option Cursor;
  b_NextCursor : Cursor;
  b_DurableThrough : option Cursor;
  b_ServerACKedThrough : option Cursor;
  b_AcknowledgedArchiveID : string;
  b_CoverageRevision : Z;
}.

Record CoverageSnapshot := mkCoverage {
  cs_AgentID : string;
  cs_Revision : Z;
  cs_GeneratedAt : time;
  cs_Gaps : list Gap;
  cs_UnknownIncarnations : list Z;
}.

Definition boundsLocked (w : WAL) : Bounds :=
  mkBounds (seg_first <$> head (w_segments w)) (seg_last <$> last (w_segments w))
    (mkCursor (m_CurrentIncarnation (w_meta w)) (m_NextSeq (w_meta w)))
    (m_DurableThrough (w_meta w)) (m_ServerACK (w_meta w)) (m_AcknowledgedArchive (w_meta w))
    (m_CoverageRevision (w_meta w)).

Definition coverageLocked (now : time) (w : WAL) : CoverageSnapshot :=
  mkCoverage (w_agentID w) (m_CoverageRevision (w_meta w)) now (m_Gaps (w_meta w))
    (m_CoverageUnknownIncarnations (w_meta w)).

Definition Bounds_ : walM Bounds :=
  let* w := gets s_wal in
  if* w_closed w then ErrClosed end;
  ret (boundsLocked w).

Definition GetAuditCoverage (now : time) : walM CoverageSnapshot :=
  let* w := gets s_wal in
  if* w_closed w then ErrClosed end;
  ret (coverageLocked now w).

(** ** Archive rebind and acknowledgement *)

Definition RebindArchive (auditArchiveID : string) : walM unit :=
  let* w := gets s_wal in
  if* w_closed w then ErrClosed end;
  if* str_empty auditArchiveID then ErrInvariant end;
  if bool_decide (m_AcknowledgedArchive (w_meta w) = auditArchiveID) then ret tt
  else
    syncLocked ;;;
    let* old := gets (fun s => w_meta (s_wal s)) in
    modify (upd_wal (fun w => set_meta (m_set_ack auditArchiveID None (w_meta w)) w)) ;;;
    let* meta := gets (fun s => w_meta (s_wal s)) in
    let* saved := attempt (saveMetadata meta) in
    match saved with
    | Ok _ => ret tt
    | Err e =>
      modify (upd_wal (fun w =>
        set_meta (m_set_ack (m_AcknowledgedArchive old) (m_ServerACK old) (w_meta w)) w)) ;;;
      fail e
    end.

(** The gaps and unknown incarnations that keep an acknowledgement from moving
    to [proposed]. *)
Definition blocking_gaps (meta : metadata) (proposed : Cursor) (seen : Z) : list Gap :=
  List.filter (fun gap => (g_LastLossRevision gap >? seen)
                     && gapIntersectsACK gap (m_ServerACK meta) proposed)%bool (m_Gaps meta).

Definition blocking_unknown (meta : metadata) (proposed : Cursor) (seen : Z) : list Z :=
  if seen <? m_CoverageRevision meta then
    List.filter (fun i => incarnationIntersectsACK i (m_ServerACK meta) proposed)
      (m_CoverageUnknownIncarnations meta)
  else [].

Definition AckAudit (auditArchiveID : string) (proposed : Cursor) (coverageRevisionSeen : Z)
  : walM unit :=
  let* w := gets s_wal in
  if* w_closed w then ErrClosed end;
  if* (str_empty auditArchiveID || (Incarnation proposed =? 0) || (Seq proposed =? 0))%bool
  then ErrInvariant end;
  if* negb (bool_decide (m_AcknowledgedArchive (w_meta w) = auditArchiveID)) then ErrArchiveMismatch end;
  syncLocked ;;;
  let* meta := gets (fun s => w_meta (s_wal s)) in
  let comparison :=
    match m_ServerACK meta with
    | Some ack => compareCursor proposed ack
    | None => 1
    end in
  if* comparison <? 0 then ErrCursorRollback end;
  if comparison =? 0 then (let* _ := deleteACKedLocked in ret tt)
  else
    if* coverageRevisionSeen >? m_CoverageRevision meta then ErrInvariant end;
    if* match m_LastAssigned meta with
        | None => true
        | Some la => compareCursor proposed la >? 0
        end then ErrCursorAhead end;
    let blocking := blocking_gaps meta proposed coverageRevisionSeen in
    let blockingUnknown := blocking_unknown meta proposed coverageRevisionSeen in
    if* (negb (bool_decide (blocking = [])) || negb (bool_decide (blockingUnknown = [])))%bool
    then ErrStaleCoverage coverageRevisionSeen (m_CoverageRevision meta) (m_ServerACK meta)
           blocking blockingUnknown end;
    let old := m_ServerACK meta in
    modify (upd_wal (fun w =>
      set_meta (m_set_ack (m_AcknowledgedArchive (w_meta w)) (Some proposed) (w_meta w)) w)) ;;;
    let* meta' := gets (fun s => w_meta (s_wal s)) in
    let* saved := attempt (saveMetadata meta') in
    match saved with
    | Err e =>
      modify (upd_wal (fun w =>
        set_meta (m_set_ack (m_AcknowledgedArchive (w_meta w)) old (w_meta w)) w)) ;;;
      fail e
    | Ok _ => let* _ := deleteACKedLocked in ret tt
    end.

(** ** Retention and disk pressure *)

Definition EnforceLimits (now : time) : walM Z :=
  let* w := gets s_wal in
  if* w_closed w then ErrClosed end;
  syncLocked ;;;
  enforceRetentionLocked now 0.

Record ReclaimResult := mkReclaim {
  rr_FreedBytes : Z;
  rr_DeletedACKedBytes : Z;
  rr_DeletedUnackedBytes : Z;
  rr_Degraded : bool;
  rr_Coverage : option CoverageSnapshot;
}.

(** The loops return the bytes freed so far also when a deletion fails. *)
Fixpoint reclaimACKed_loop (fuel : nat) (bytesNeeded freed : Z) : walM (Z * option walErr) :=
  match fuel with
  | O => ret (freed, None)
  | S fuel' =>
    let* w := gets s_wal in
    match w_segments w with
    | [] => ret (freed, None)
    | seg :: _ =>
      if negb (freed <? bytesNeeded) then ret (freed, None)
      else if is_active w seg then ret (freed, None)
      else if negb (segmentACKed seg (m_ServerACK (w_meta w))) then ret (freed, None)
      else
        let* r := attempt (deleteSegmentLocked seg) in
        match r with
        | Err e => ret (freed, Some e)
        | Ok _ => reclaimACKed_loop fuel' bytesNeeded (freed + seg_bytes seg)
        end
    end
  end.

Fixpoint reclaimUnacked_loop (fuel : nat) (bytesNeeded freed : Z) : walM (Z * option walErr) :=
  match fuel with
  | O => ret (freed, None)
  | S fuel' =>
    let* w := gets s_wal in
    match w_segments w with
    | [] => ret (freed, None)
    | seg :: _ =>
      if negb (freed <? bytesNeeded) then ret (freed, None)
      else if is_active w seg then ret (freed, None)
      else if segmentACKed seg (m_ServerACK (w_meta w)) then ret (freed, None)
      else
        let* r := attempt (deleteWithGapLocked seg GapDiskPressure) in
        match r with
        | Err e => ret (freed, Some e)
        | Ok _ => reclaimUnacked_loop fuel' bytesNeeded (freed + seg_bytes seg)
        end
    end
  end.

Definition ReclaimACKedForDiskPressure (now : time) (bytesNeeded : Z)
  : walM (ReclaimResult * option walErr) :=
  let* w := gets s_wal in
  if* w_closed w then ErrClosed end;
  if bytesNeeded <=? 0 then ret (mkReclaim 0 0 0 false (Some (coverageLocked now w)), None)
  else
    let* r := reclaimACKed_loop (length (w_segments w)) bytesNeeded 0 in
    let* w' := gets s_wal in
    match r with
    | (freed, Some e) => ret (mkReclaim freed freed 0 false None, Some e)
    | (freed, None) =>
      ret (mkReclaim freed freed 0 (freed <? bytesNeeded) (Some (coverageLocked now w')), None)
    end.

Definition ReclaimUnackedForDiskPressure (now : time) (bytesNeeded : Z)
  : walM (ReclaimResult * option walErr) :=
  let* w := gets s_wal in
  if* w_closed w then ErrClosed end;
  if bytesNeeded <=? 0 then ret (mkReclaim 0 0 0 false (Some (coverageLocked now w)), None)
  else
    let* r := reclaimUnacked_loop (length (w_segments w)) bytesNeeded 0 in
    let* w' := gets s_wal in
    match r with
    | (freed, Some e) => ret (mkReclaim freed 0 freed false None, Some e)
    | (freed, None) =>
      ret (mkReclaim freed 0 freed (freed <? bytesNeeded) (Some (coverageLocked now w')), None)
    end.

Definition ReclaimForDiskPressure (now : time) (bytesNeeded : Z)
  : walM (ReclaimResult * option walErr) :=
  let* r := ReclaimACKedForDiskPressure now bytesNeeded in
  let '(acked, err) := r in
  if (bool_decide (is_Some err) || (rr_FreedBytes acked >=? bytesNeeded))%bool then ret (acked, err)
  else
    let* u := ReclaimUnackedForDiskPressure now (bytesNeeded - rr_FreedBytes acked) in
    let '(unacked, err) := u in
    let freed := rr_FreedBytes acked + rr_FreedBytes unacked in
    ret (mkReclaim freed (rr_DeletedACKedBytes acked)
           (rr_DeletedUnackedBytes acked + rr_DeletedUnackedBytes unacked)
           (freed <? bytesNeeded) (rr_Coverage unacked), err).

(** ** Reading *)

Inductive readResult :=
| ReadRecords (records : list walRecord)
| ReadBehindFloor (requested : Cursor) (bounds : Bounds) (coverage : CoverageSnapshot).

(** [openSecureWALFile] and the reads that follow: the bytes of a segment file. *)
Definition openSegment (path : string) : walM (list Z) :=
  let* files := gets (fun s => d_files (s_disk s)) in
  match files !! path with
  | None => fail ErrNotExist
  | Some data => syscall ;;; ret data
  end.

(** The frame loop of [ReadAuditFrom] over one segment: the records collected,
    the cursor expected next and the last cursor read. A frame takes at least
    32 bytes, so the length of the input bounds the rounds. *)
Fixpoint read_segment (fuel : nat) (agentID : string) (maxBytes : Z) (limit : nat) (start : Cursor)
    (rd : list Z) (expected lastRead : Cursor) (acc : list walRecord)
  : walM (list walRecord * Cursor) :=
  match fuel with
  | O => ret (acc, lastRead)
  | S fuel' =>
    if decide (length acc < limit)%nat then
      ctxErr ;;;
      match readFrame maxBytes rd with
      | (Err FEof, _) => ret (acc, lastRead)
      | (Err _, _) => fail ErrCorrupt
      | (Ok frame, rd') =>
        if* negb (bool_decide (df_cursor frame = expected)) then ErrCorrupt end;
        let expected' := if negb (Seq expected =? max_u64)
                         then mkCursor (Incarnation expected) (Seq expected + 1) else expected in
        let acc' := if compareCursor (df_cursor frame) start >=? 0
                    then acc ++ [mkRecord agentID (df_cursor frame) (df_at frame) (df_payload frame)]
                    else acc in
        read_segment fuel' agentID maxBytes limit start rd' expected' (df_cursor frame) acc'
      end
    else ret (acc, lastRead)
  end.

Fixpoint read_segments (w : WAL) (limit : nat) (start : Cursor) (segs : list segment)
    (acc : list walRecord) : walM (list walRecord) :=
  match segs with
  | [] => ret acc
  | seg :: segs' =>
    if compareCursor (seg_last seg) start <? 0 then read_segments w limit start segs' acc
    else
      let* data := openSegment (seg_path seg) in
      let* r := read_segment (S (length data)) (w_agentID w) (o_MaxBytes (w_options w)) limit start
                  data (seg_first seg) (mkCursor 0 0) acc in
      let '(acc', lastRead) := r in
      syscall ;;;
      if* (bool_decide (length acc' < limit)%nat && negb (bool_decide (lastRead = seg_last seg)))%bool
      then ErrCorrupt end;
      if decide (length acc' = limit) then ret acc'
      else read_segments w limit start segs' acc'
  end.

Definition ReadAuditFrom (now : time) (start : Cursor) (limit : Z) : walM readResult :=
  let* w := gets s_wal in
  if* w_closed w then ErrClosed end;
  if* ((Incarnation start =? 0) || (Seq start =? 0) || (limit <=? 0))%bool then ErrInvariant end;
  let bounds := boundsLocked w in
  let coverage := coverageLocked now w in
  match b_WALFloor bounds with
  | Some floor =>
    if compareCursor start floor <? 0 then ret (ReadBehindFloor start bounds coverage)
    else let* records := read_segments w (Z.to_nat limit) start (w_segments w) [] in
         ret (ReadRecords records)
  | None =>
    let* records := read_segments w (Z.to_nat limit) start (w_segments w) [] in
    ret (ReadRecords records)
  end.

(** ** Recovery and open *)

(** The end of the frame loop of [scanSegment]: truncate and fsync a repairable
    tail, report corruption. *)
Definition repair (path : string) (data : list Z) (offset : Z) (stop : scan_stop) : walM unit :=
  match stop with
  | StopEOF => ret tt
  | StopRepair =>
    syscall ;;;
    modify (upd_disk (fun d =>
      mkDisk (d_meta d) (<[path := take (Z.to_nat offset) data]> (d_files d)))) ;;;
    syscall
  | _ => fail ErrCorrupt
  end.

(** [scanSegment]: open and stat the file, scan its frames, truncate and fsync
    a repairable tail, remove a tail segment without an intact frame. *)
Definition scanSegment (path : string) (repairTail : bool) (maxFrameBytes : Z)
  : walM (option segment) :=
  let* data := openSegment path in
  syscall ;;;
  let '(seg, offset, stop) := scanFrames data path repairTail maxFrameBytes in
  repair path data offset stop ;;;
  match seg with
  | None =>
    if* negb repairTail then ErrCorrupt end;
    removeFile path ;;;
    syncDirectory ;;;
    ret None
  | Some seg =>
    let seg := mkSegment (seg_path seg) (seg_first seg) (seg_last seg) (seg_oldestAt seg)
                         (seg_newestAt seg) offset in
    match parseSegmentName path with
    | Some want => if* negb (bool_decide (want = seg_first seg)) then ErrCorrupt end;
                   ret (Some seg)
    | None => fail ErrCorrupt
    end
  end.

Fixpoint scan_all (maxFrameBytes : Z) (paths : list string) : walM (list segment) :=
  match paths with
  | [] => ret []
  | path :: paths' =>
    let* seg := scanSegment path (bool_decide (paths' = [])) maxFrameBytes in
    let* segs := scan_all maxFrameBytes paths' in
    ret (match seg with Some seg => seg :: segs | None => segs end)
  end.

Definition name_less (a b : string) : bool := bool_decide (String.compare a b = Lt).

Definition is_segment_file (name : string) : bool :=
  String.prefix "segment-" name && bool_decide (trimSuffix ".wal" name <> name).

Definition segment_paths (files : gmap string (list Z)) : list string :=
  sort_by name_less (List.filter is_segment_file (fst <$> map_to_list files)).

(** [validateSegmentContinuity] *)
Fixpoint continuity_ok (meta : metadata) (previous : option segment) (segs : list segment) : bool :=
  match segs with
  | [] => true
  | seg :: segs' =>
    let ok :=
      match previous with
      | Some prev =>
        if Incarnation (seg_last prev) =? Incarnation (seg_first seg) then
          negb ((Seq (seg_last prev) =? max_u64) || (Seq (seg_first seg) <=? Seq (seg_last prev))
                || (negb (Seq (seg_first seg) =? u64 (Seq (seg_last prev) + 1))
                    && negb (rangeExplained meta (Incarnation (seg_first seg))
                               (u64 (Seq (seg_last prev) + 1)) (Seq (seg_first seg)))))
        else negb ((Seq (seg_first seg) >? 1)
                   && negb (rangeExplained meta (Incarnation (seg_first seg)) 1 (Seq (seg_first seg))))
      | None => negb ((Seq (seg_first seg) >? 1)
                   && negb (rangeExplained meta (Incarnation (seg_first seg)) 1 (Seq (seg_first seg))))
      end in
    ok && continuity_ok meta (Some seg) segs'
  end%bool.

(** [recoverSegments], for the [WAL] under construction in the state. *)
Definition recoverSegments : walM unit :=
  let* w := gets s_wal in
  syscall ;;;
  let* files := gets (fun s => d_files (s_disk s)) in
  let paths := segment_paths files in
  if* negb (forallb (fun p => bool_decide (is_Some (parseSegmentName p))) paths) then ErrCorrupt end;
  let* segs := scan_all (o_MaxBytes (w_options w)) paths in
  modify (upd_wal (fun w =>
    set_segments (w_segments w ++ segs) (w_totalBytes w + sum_by seg_bytes segs) w)) ;;;
  let* w' := gets s_wal in
  if* negb (continuity_ok (w_meta w') None (w_segments w')) then ErrInvariant end;
  ret tt.

(** [loadMetadata]; a metadata file that fails validation is refused already by
    [readMetadata]. *)
Definition loadMetadata (agentID : string) (incarnation : Z) (stored : option metadata)
  : res walErr metadata :=
  match stored with
  | None => Ok (mkMeta metadataVersion agentID incarnation 1 None None "" None 0 [] [])
  | Some meta =>
    if negb (validateMetadata meta) then Err ErrInvariant
    else if (negb (m_Version meta =? metadataVersion)
             || negb (bool_decide (m_AgentID meta = agentID)))%bool then Err ErrInvariant
    else if m_CurrentIncarnation meta >? incarnation then Err ErrInvariant
    else
      let meta :=
        if m_CurrentIncarnation meta <? incarnation then
          mkMeta (m_Version meta) (m_AgentID meta) incarnation 1 (m_LastAssigned meta)
            (m_DurableThrough meta) (m_AcknowledgedArchive meta) (m_ServerACK meta)
            (m_CoverageRevision meta) (m_Gaps meta) (m_CoverageUnknownIncarnations meta)
        else meta in
      if validateMetadata meta then Ok meta else Err ErrInvariant
  end.

Fixpoint segments_ordered (previous : option Cursor) (segs : list segment) : bool :=
  match segs with
  | [] => true
  | seg :: segs' =>
    match previous with
    | Some c => if compareCursor (seg_first seg) c <=? 0 then false
                else segments_ordered (Some (seg_last seg)) segs'
    | None => segments_ordered (Some (seg_last seg)) segs'
    end
  end.

Definition reconcile_meta (meta : metadata) (segs : list segment) : metadata :=
  let lastCursor := seg_last <$> last segs in
  let assigned :=
    match lastCursor with
    | None => m_LastAssigned meta
    | Some c =>
      match m_LastAssigned meta with
      | None => Some c
      | Some la => if compareCursor c la >? 0 then Some c else Some la
      end
    end in
  let currentLast :=
    foldl (fun acc seg =>
      if ((Incarnation (seg_last seg) =? m_CurrentIncarnation meta) && (Seq (seg_last seg) >? acc))%bool
      then Seq (seg_last seg) else acc) 0 segs in
  let next := if currentLast >=? m_NextSeq meta then u64 (currentLast + 1) else m_NextSeq meta in
  m_set_assigned next assigned meta.

Definition reconcileRecoveredState : walM unit :=
  let* w := gets s_wal in
  if* negb (segments_ordered None (w_segments w)) then ErrCorrupt end;
  modify (upd_wal (fun w => set_meta (reconcile_meta (w_meta w) (w_segments w)) w)).

Definition normalizeOptions (options defaults : Options) : Options :=
  mkOptions (if o_MaxBytes options <=? 0 then o_MaxBytes defaults else o_MaxBytes options)
    (if o_MaxAge options <=? 0 then o_MaxAge defaults else o_MaxAge options)
    (if o_SyncInterval options <=? 0 then o_SyncInterval defaults else o_SyncInterval options)
    (if o_SyncBytes options <=? 0 then o_SyncBytes defaults else o_SyncBytes options).

(** A fresh [WAL] object over a directory. *)
Definition fresh_wal (agentID : string) (options : Options) (meta : metadata) : WAL :=
  mkWAL agentID options meta [] None 0 false None.

(** [Open]; the directory checks are two calls, reading the metadata file one. *)
Definition Open (agentID : string) (incarnation : Z) (options defaults : Options) (now : time)
  : walM unit :=
  if* (str_empty agentID || (incarnation =? 0))%bool then ErrInvariant end;
  let options := normalizeOptions options defaults in
  syscall ;;; syscall ;;; syscall ;;;
  let* stored := gets (fun s => d_meta (s_disk s)) in
  let* meta := of_res (loadMetadata agentID incarnation stored) in
  modify (upd_wal (fun _ => fresh_wal agentID options meta)) ;;;
  recoverSegments ;;;
  reconcileRecoveredState ;;;
  let* _ := enforceRetentionLocked now 0 in
  let* meta' := gets (fun s => w_meta (s_wal s)) in
  saveMetadata meta'.

(** [Recover]: the WAL tail and durable cursor before the incarnation advances. *)
Definition Recover (agentID : string) (options defaults : Options)
  : walM (option Cursor * option Cursor) :=
  let options := normalizeOptions options defaults in
  syscall ;;; syscall ;;; syscall ;;;
  let* stored := gets (fun s => d_meta (s_disk s)) in
  match stored with
  | None =>
    let zero := mkMeta 0 "" 0 0 None None "" None 0 [] [] in
    modify (upd_wal (fun _ => fresh_wal agentID options zero)) ;;;
    recoverSegments ;;;
    let* w := gets s_wal in
    if* negb (bool_decide (w_segments w = [])) then ErrInvariant end;
    ret (None, None)
  | Some meta =>
    if* negb (validateMetadata meta) then ErrInvariant end;
    if* (negb (m_Version meta =? metadataVersion)
         || negb (bool_decide (m_AgentID meta = agentID)))%bool then ErrInvariant end;
    modify (upd_wal (fun _ => fresh_wal agentID options meta)) ;;;
    recoverSegments ;;;
    let* w := gets s_wal in
    ret (seg_last <$> last (w_segments w), m_DurableThrough meta)
  end.
