(* ===== verification/WalInv.v ===== *)
(** * Audit WAL: invariant and no silent loss

    The invariant of the in-memory log, its preservation by every operation
    under every pattern of file-system failures, and the transition property
    that a record, once appended, stays accounted for: it is in a live segment,
    acknowledged by the Server, or recorded as lost in a gap. *)

From S2P Require Import Prelude Cursor WalFrame WalMeta WalNames Wal.

(** ** The invariant *)

Definition next_cursor (m : metadata) : Cursor := mkCursor (m_CurrentIncarnation m) (m_NextSeq m).

Record seg_ok (seg : segment) : Prop := {
  so_first : cursor_ok (seg_first seg);
  so_last : cursor_ok (seg_last seg);
  so_inc : Incarnation (seg_last seg) = Incarnation (seg_first seg);
  so_seq : Seq (seg_first seg) <= Seq (seg_last seg);
  so_path : parseSegmentName (seg_path seg) = Some (seg_first seg);
  so_bytes : 0 <= seg_bytes seg;
}.

Definition seg_has (seg : segment) (c : Cursor) : Prop :=
  Incarnation c = Incarnation (seg_first seg) /\ Seq (seg_first seg) <= Seq c <= Seq (seg_last seg).

Definition seg_before (a b : segment) : Prop := cursor_lt (seg_last a) (seg_first b).

Definition opt_ge (c : Cursor) (o : option Cursor) : Prop := exists x, o = Some x /\ cursor_le c x.

(** The state of the active segment: freshly created and still empty, or
    holding an unsynced batch that ends at the last assigned cursor. *)
Definition active_fresh (w : WAL) (a : activeSegment) (seg : segment) : Prop :=
  a_pending a = 0 /\ seg_bytes seg = 0 /\
  seg_first seg = next_cursor (w_meta w) /\ seg_last seg = next_cursor (w_meta w).

Definition active_batch (w : WAL) (a : activeSegment) (seg : segment) : Prop :=
  0 < a_pending a /\ 0 < seg_bytes seg /\
  Incarnation (seg_last seg) = m_CurrentIncarnation (w_meta w) /\
  m_LastAssigned (w_meta w) = Some (seg_last seg).

Definition active_ok (w : WAL) : Prop :=
  match w_active w with
  | None => w_closed w = true \/ Forall (fun seg => 0 < seg_bytes seg) (w_segments w)
  | Some a => exists pre seg,
      w_segments w = pre ++ [seg] /\ a_path a = seg_path seg /\
      Forall (fun seg => 0 < seg_bytes seg) pre /\
      (active_fresh w a seg \/ active_batch w a seg)
  end.

Record wal_inv (w : WAL) : Prop := {
  wi_u64 : meta_u64 (w_meta w);
  wi_meta : meta_valid (w_meta w);
  wi_segs : Forall seg_ok (w_segments w);
  wi_order : StronglySorted seg_before (w_segments w);
  wi_total : w_totalBytes w = sum_by seg_bytes (w_segments w);
  wi_assigned : Forall (fun seg => 0 < seg_bytes seg ->
                          opt_ge (seg_last seg) (m_LastAssigned (w_meta w))) (w_segments w);
  wi_active : active_ok w;
}.

(** A cursor is kept: in a written part of a live segment, or accounted for. *)
Definition kept (w : WAL) (c : Cursor) : Prop :=
  accounted (w_meta w) c \/ exists seg, seg ∈ w_segments w /\ 0 < seg_bytes seg /\ seg_has seg c.

(** A cursor is recorded as lost: in a gap, or in an incarnation known to be
    incomplete. *)
Definition lost (m : metadata) (c : Cursor) : Prop :=
  Incarnation c ∈ m_CoverageUnknownIncarnations m \/ gaps_cover (m_Gaps m) c.

(** ** Frames of the primitive steps *)

Definition same_wal {A} (m : walM A) : Prop := forall s, s_wal (m s).2 = s_wal s.

Lemma same_wal_bind {A B} (m : walM A) (f : A -> walM B) :
  same_wal m -> (forall a, same_wal (f a)) -> same_wal (bind m f).
Proof.
  intros Hm Hf s. unfold bind. specialize (Hm s). destruct (m s) as [[a|e] s']; simpl in *; [|done].
  by rewrite (Hf a s').
Qed.
Lemma same_wal_ret {A} (a : A) : same_wal (ret a).
Proof. done. Qed.
Lemma same_wal_fail {A} e : same_wal (fail e : walM A).
Proof. done. Qed.
Lemma same_wal_gets {A} (f : sys -> A) : same_wal (gets f).
Proof. done. Qed.
Lemma same_wal_disk f : same_wal (modify (upd_disk f)).
Proof. done. Qed.
Lemma same_wal_next : same_wal next_outcome.
Proof. intros s. unfold next_outcome. by destruct (s_outcomes s). Qed.
Lemma same_wal_attempt {A} (m : walM A) : same_wal m -> same_wal (attempt m).
Proof. intros H s. unfold attempt. specialize (H s). by destruct (m s). Qed.

Create HintDb samewal.
#[export] Hint Resolve same_wal_ret same_wal_fail same_wal_gets same_wal_disk same_wal_next
  same_wal_attempt : samewal.

(** Discharge [same_wal] goals by following the program. *)
Ltac same_wal :=
  repeat first
    [ progress auto with samewal
    | apply same_wal_bind; intros
    | match goal with |- same_wal (match ?x with _ => _ end) => destruct x end ].

Lemma same_wal_syscall : same_wal syscall.
Proof. unfold syscall. same_wal. Qed.
Lemma same_wal_ctxErr : same_wal ctxErr.
Proof. unfold ctxErr. same_wal. Qed.
#[export] Hint Resolve same_wal_syscall same_wal_ctxErr : samewal.
Lemma same_wal_syncDirectory : same_wal syncDirectory.
Proof. unfold syncDirectory. same_wal. Qed.
Lemma same_wal_removeFile p : same_wal (removeFile p).
Proof. unfold removeFile. same_wal. Qed.
Lemma same_wal_writeFull p d : same_wal (writeFull p d).
Proof. unfold writeFull. same_wal. Qed.
#[export] Hint Resolve same_wal_syncDirectory same_wal_removeFile same_wal_writeFull : samewal.
Lemma same_wal_saveMetadata m : same_wal (saveMetadata m).
Proof. unfold saveMetadata. same_wal. Qed.
#[export] Hint Resolve same_wal_saveMetadata : samewal.

(** What a successful save proves. *)
Lemma saveMetadata_valid m s s' : saveMetadata m s = (Ok tt, s') -> validateMetadata m = true.
Proof. unfold saveMetadata. destruct (validateMetadata m); [done|]. by intros [=]. Qed.

(** Running a step whose effect on the log is known. *)
Lemma run_same {A} (m : walM A) s r s' : same_wal m -> m s = (r, s') -> s_wal s' = s_wal s.
Proof. intros H E. specialize (H s). by rewrite E in H. Qed.

(** ** Paths identify segments *)

Lemma seg_path_inj a b : seg_ok a -> seg_ok b -> seg_path a = seg_path b -> seg_first a = seg_first b.
Proof.
  intros Ha Hb E. pose proof (so_path _ Ha) as H. rewrite E, (so_path _ Hb) in H. congruence.
Qed.

Lemma segs_before_last pre seg x :
  StronglySorted seg_before (pre ++ [seg]) -> x ∈ pre -> seg_before x seg.
Proof.
  induction pre as [|y pre IH]; simpl; intros Hs Hx; [by apply elem_of_nil in Hx|].
  sorted_inv Hs. apply elem_of_cons in Hx as [->|Hx]; [|auto].
  rewrite Forall_forall in Hall. apply Hall. apply elem_of_app. right. by left.
Qed.

Lemma seg_first_le_last seg : seg_ok seg -> cursor_le (seg_first seg) (seg_last seg).
Proof. intros []. right. auto. Qed.

Lemma pre_path_ne pre seg x :
  Forall seg_ok (pre ++ [seg]) -> StronglySorted seg_before (pre ++ [seg]) -> x ∈ pre ->
  seg_path seg <> seg_path x.
Proof.
  intros Hok Hs Hx E. pose proof (segs_before_last _ _ _ Hs Hx) as Hb.
  rewrite Forall_forall in Hok.
  assert (seg_ok x) as Hx' by (apply Hok, elem_of_app; by left).
  assert (seg_ok seg) as Hseg by (apply Hok, elem_of_app; right; by left).
  apply seg_path_inj in E; [|done..]. unfold seg_before in Hb.
  pose proof (seg_first_le_last _ Hx') as Hle. rewrite <- E in Hle.
  pose proof (cursor_le_lt_trans _ _ _ Hle Hb) as Hc. by apply (irreflexivity cursor_lt) in Hc.
Qed.

(** The active handle points at the last segment. *)
Lemma active_last w a pre seg :
  wal_inv w -> w_active w = Some a -> w_segments w = pre ++ [seg] -> a_path a = seg_path seg ->
  active_segment w = Some seg /\ forall x, x ∈ pre -> is_active w x = false.
Proof.
  intros Hi Ha Hs Hp. pose proof (wi_segs _ Hi) as Hok. pose proof (wi_order _ Hi) as Hord.
  rewrite Hs in Hok, Hord.
  assert (forall x, x ∈ pre -> bool_decide (a_path a = seg_path x) = false) as Hne.
  { intros x Hx. apply bool_decide_eq_false. rewrite Hp. by eapply pre_path_ne. }
  unfold active_segment, is_active. rewrite Ha, Hs. split; [|done].
  clear Hs Hok Hord. induction pre as [|x pre IH]; simpl.
  - by rewrite bool_decide_eq_true_2.
  - rewrite (Hne x) by left. apply IH. intros y Hy. apply Hne. by right.
Qed.

Lemma active_segment_inv w seg :
  wal_inv w -> active_segment w = Some seg ->
  exists a pre, w_active w = Some a /\ w_segments w = pre ++ [seg] /\ a_path a = seg_path seg /\
    Forall (fun s => 0 < seg_bytes s) pre /\ (active_fresh w a seg \/ active_batch w a seg).
Proof.
  intros Hi E. pose proof (wi_active _ Hi) as Hact. unfold active_ok in Hact.
  destruct (w_active w) as [a|] eqn:Ea.
  - destruct Hact as (pre & seg' & Hs & Hp & Hpos & Hst).
    destruct (active_last w a pre seg' Hi Ea Hs Hp) as [E' _].
    rewrite E' in E. injection E as ->. by exists a, pre.
  - unfold active_segment in E. by rewrite Ea in E.
Qed.

(** Nothing is assigned beyond the next cursor. *)
Lemma assigned_lt_next m la :
  meta_valid m -> m_LastAssigned m = Some la -> cursor_lt la (next_cursor m).
Proof.
  intros (_ & _ & _ & Hn & Hla & _ & _ & Hc & _) E. unfold counters_valid in Hc. rewrite E in Hc.
  destruct Hc as (H1 & H2 & _). destruct (Hla la E) as [_ Hle]. unfold cursor_lt, next_cursor. simpl.
  destruct (decide (Incarnation la = m_CurrentIncarnation m)) as [Hi|Hi]; [right|left; lia].
  destruct (H1 Hi). lia.
Qed.

Lemma written_lt_next w seg :
  wal_inv w -> seg ∈ w_segments w -> 0 < seg_bytes seg ->
  cursor_lt (seg_last seg) (next_cursor (w_meta w)).
Proof.
  intros Hi Hin Hb. pose proof (wi_assigned _ Hi) as H. rewrite Forall_forall in H.
  destruct (H seg Hin Hb) as (la & Hla & Hle).
  eapply cursor_le_lt_trans; [exact Hle|]. apply assigned_lt_next; [apply Hi | done].
Qed.

(** ** Quiet steps

    A quiet step keeps the invariant and everything kept, assigns no cursor,
    moves no acknowledgement, and never grows the log. *)

Record wal_frame (w w' : WAL) : Prop := {
  wf_options : w_options w' = w_options w;
  wf_agentID : w_agentID w' = w_agentID w;
  wf_closed : w_closed w' = w_closed w;
  wf_background : w_backgroundErr w' = w_backgroundErr w;
  wf_next : next_cursor (w_meta w') = next_cursor (w_meta w);
  wf_assigned : m_LastAssigned (w_meta w') = m_LastAssigned (w_meta w);
  wf_ack : m_ServerACK (w_meta w') = m_ServerACK (w_meta w);
  wf_archive : m_AcknowledgedArchive (w_meta w') = m_AcknowledgedArchive (w_meta w);
  wf_lost : forall c, lost (w_meta w) c -> lost (w_meta w') c;
  wf_total : w_totalBytes w' <= w_totalBytes w;
  wf_active : w_active w' = w_active w \/ w_active w' = None;
}.

#[export] Instance wal_frame_refl : Reflexive wal_frame.
Proof. intros w. split; auto; lia. Qed.
#[export] Instance wal_frame_trans : Transitive wal_frame.
Proof.
  intros a b c [] []. split; try congruence; [auto | lia|].
  destruct wf_active0 as [?|?], wf_active1 as [?|?]; [left | right | right | right]; congruence.
Qed.

Definition quiet (w w' : WAL) : Prop :=
  wal_inv w -> wal_inv w' /\ (forall c, kept w c -> kept w' c) /\ wal_frame w w'.

#[export] Instance quiet_refl : Reflexive quiet.
Proof. intros w Hi. split_and!; [done | done | reflexivity]. Qed.
#[export] Instance quiet_trans : Transitive quiet.
Proof.
  intros a b c Hab Hbc Hi. destruct (Hab Hi) as (Hb & Hk1 & Hf1).
  destruct (Hbc Hb) as (Hc & Hk2 & Hf2). split_and!; auto. by etransitivity.
Qed.

Definition quiet_step {A} (m : walM A) : Prop := forall s, quiet (s_wal s) (s_wal (m s).2).

Lemma quiet_same {A} (m : walM A) : same_wal m -> quiet_step m.
Proof. intros H s. rewrite H. reflexivity. Qed.
Lemma quiet_bind {A B} (m : walM A) (f : A -> walM B) :
  quiet_step m -> (forall a, quiet_step (f a)) -> quiet_step (bind m f).
Proof.
  intros Hm Hf s. unfold bind. specialize (Hm s).
  destruct (m s) as [[a|e] s']; simpl in *; [|done]. etransitivity; [exact Hm | apply Hf].
Qed.
Lemma quiet_attempt {A} (m : walM A) : quiet_step m -> quiet_step (attempt m).
Proof. intros H s. unfold attempt. specialize (H s). by destruct (m s). Qed.
Lemma quiet_gets {A B} (f : sys -> A) (k : A -> walM B) :
  (forall s, quiet (s_wal s) (s_wal (k (f s) s).2)) -> quiet_step (bind (gets f) k).
Proof. intros H s. apply H. Qed.

Lemma m_set_durable_restore m c : m_set_durable (m_DurableThrough m) (m_set_durable c m) = m.
Proof. by destruct m. Qed.
Lemma set_meta_restore w m : set_meta (w_meta w) (set_meta m w) = w.
Proof. by destruct w. Qed.
Lemma set_meta_id w : set_meta (w_meta w) w = w.
Proof. by destruct w. Qed.

(** *** Sync *)

(** The log after a successful sync of the active segment. *)
Definition synced (w : WAL) (seg : segment) : WAL :=
  set_active None (set_meta (m_set_durable (Some (seg_last seg)) (w_meta w)) w).

Lemma syncLocked_effect s r s' :
  syncLocked s = (r, s') ->
  (s_wal s' = s_wal s /\ (is_ok r = true -> active_segment (s_wal s) = None)) \/
  exists seg, active_segment (s_wal s) = Some seg /\ s_wal s' = synced (s_wal s) seg /\
    validateMetadata (m_set_durable (Some (seg_last seg)) (w_meta (s_wal s))) = true.
Proof.
  unfold syncLocked, bind at 1, gets at 1.
  destruct (active_segment (s_wal s)) as [seg|] eqn:Ea; [|intros [= <- <-]; auto].
  unfold bind at 1. destruct (syscall s) as [[u|e] s1] eqn:E1;
    pose proof (run_same _ _ _ _ same_wal_syscall E1) as W1; [|intros [= <- <-]; by left].
  unfold bind at 1, modify at 1. unfold bind at 1, gets at 1. cbn [s_wal upd_wal]. rewrite W1.
  set (s2 := upd_wal _ s1). set (m := w_meta _).
  assert (m = m_set_durable (Some (seg_last seg)) (w_meta (s_wal s))) as Hm by done.
  unfold bind at 1, attempt at 1. destruct (saveMetadata m s2) as [[u2|e] s3] eqn:E3;
    pose proof (run_same _ _ _ _ (same_wal_saveMetadata m) E3) as W3.
  - unfold bind at 1, modify at 1. intros E4.
    pose proof (run_same _ _ _ _ same_wal_syscall E4) as W4. right. exists seg. split_and!; [done | |].
    + rewrite W4. simpl. rewrite W3. unfold s2. simpl. by rewrite W1.
    + destruct u2. apply saveMetadata_valid in E3. by rewrite <- Hm.
  - unfold bind at 1, modify at 1. intros [= <- <-]. left. split; [|done]. simpl. rewrite W3.
    unfold s2. simpl. rewrite W1, m_set_durable_restore. apply set_meta_restore.
Qed.

Lemma durable_meta_u64 c m : cursor_ok c -> meta_u64 m -> meta_u64 (m_set_durable (Some c) m).
Proof.
  intros [Hi Hs] (H1 & H2 & H3 & H4 & H5 & H6 & H7). unfold meta_u64. simpl.
  split_and!; auto. intros x [= <-]. lia.
Qed.

Lemma synced_quiet w seg :
  active_segment w = Some seg ->
  validateMetadata (m_set_durable (Some (seg_last seg)) (w_meta w)) = true -> quiet w (synced w seg).
Proof.
  intros Ea Hval Hi. destruct (active_segment_inv w seg Hi Ea) as (a & pre & Ha & Hs & Hp & Hpre & Hst).
  assert (seg_ok seg) as Hseg.
  { pose proof (wi_segs _ Hi) as H. rewrite Hs in H.
    apply Forall_app in H as [_ H]. rewrite Forall_singleton in H. exact H. }
  apply validateMetadata_iff in Hval; [|exact (durable_meta_u64 _ _ (so_last _ Hseg) (wi_u64 _ Hi))].
  destruct Hst as [Hst|Hst].
  { (* a freshly created segment cannot be synced: its cursor is not assigned *)
    exfalso. destruct Hst as (_ & _ & _ & Hl). destruct Hval as (_ & _ & _ & _ & _ & _ & _ & Hc & _).
    unfold counters_valid in Hc. simpl in Hc. destruct (m_LastAssigned (w_meta w)) as [la|] eqn:Ela.
    - destruct Hc as (_ & _ & Hd & _). specialize (Hd _ eq_refl).
      pose proof (assigned_lt_next _ _ (wi_meta _ Hi) Ela) as Hlt. rewrite Hl in Hd.
      pose proof (cursor_lt_le_trans _ _ _ Hlt Hd) as H. by apply (irreflexivity cursor_lt) in H.
    - by destruct Hc as [? _]. }
  destruct Hst as (_ & Hb & _ & _). split_and!.
  - destruct Hi. split; simpl; auto.
    + by apply durable_meta_u64; [apply (so_last _ Hseg)|].
    + unfold active_ok; simpl. right. rewrite Hs. apply Forall_app. split; [done|].
      by apply Forall_singleton.
  - intros c Hk. exact Hk.
  - split; simpl; auto; lia.
Qed.

Lemma syncLocked_quiet : quiet_step syncLocked.
Proof.
  intros s. destruct (syncLocked s) as [r s'] eqn:E. simpl.
  destruct (syncLocked_effect _ _ _ E) as [[-> _] | (seg & Ea & -> & Hv)]; [reflexivity|].
  by apply synced_quiet.
Qed.

(** A successful sync leaves no active segment. *)
Lemma syncLocked_ok s r s' :
  wal_inv (s_wal s) -> syncLocked s = (r, s') -> is_ok r = true -> w_active (s_wal s') = None.
Proof.
  intros Hi E Hr. destruct (syncLocked_effect _ _ _ E) as [[-> H] | (seg & _ & -> & _)]; [|done].
  specialize (H Hr). pose proof (wi_active _ Hi) as Ha. unfold active_ok in Ha.
  destruct (w_active (s_wal s)) as [a|] eqn:Ea; [|done].
  destruct Ha as (pre & seg & Hs & Hp & _).
  destruct (active_last _ _ _ _ Hi Ea Hs Hp) as [H' _]. congruence.
Qed.

(** *** Deletion *)

Lemma deleteSegmentLocked_effect seg rest s r s' :
  w_segments (s_wal s) = seg :: rest -> deleteSegmentLocked seg s = (r, s') ->
  (s_wal s' = s_wal s /\ is_ok r = false) \/
  s_wal s' = set_segments rest (w_totalBytes (s_wal s) - seg_bytes seg) (s_wal s).
Proof.
  intros Hs. unfold deleteSegmentLocked, bind at 1, gets at 1. rewrite Hs.
  rewrite bool_decide_eq_true_2 by done. cbn [negb].
  unfold bind at 1. destruct (removeFile (seg_path seg) s) as [[u|e] s1] eqn:E1;
    pose proof (run_same _ _ _ _ (same_wal_removeFile _) E1) as W1; [|intros [= <- <-]; by left].
  unfold bind at 1, modify at 1. intros E2.
  pose proof (run_same _ _ _ _ same_wal_syncDirectory E2) as W2. right.
  rewrite W2. simpl. by rewrite W1, Hs.
Qed.

(** Removing the oldest, inactive segment whose records are accounted for. *)
Lemma drop_head_quiet w seg rest :
  w_segments w = seg :: rest -> is_active w seg = false ->
  (forall c, seg_has seg c -> accounted (w_meta w) c) ->
  quiet w (set_segments rest (w_totalBytes w - seg_bytes seg) w).
Proof.
  intros Hs Hna Hacc Hi. pose proof (wi_segs _ Hi) as Hok. rewrite Hs in Hok.
  apply Forall_cons in Hok as [Hseg Hok]. split_and!.
  - destruct Hi. rewrite Hs in *. split; simpl; auto.
    + by apply StronglySorted_inv in wi_order0 as [? _].
    + rewrite wi_total0. unfold sum_by. simpl. lia.
    + by apply Forall_cons in wi_assigned0 as [_ ?].
    + unfold active_ok in *. simpl. rewrite Hs in wi_active0. destruct (w_active w) as [a|] eqn:Ea.
      * destruct wi_active0 as (pre & x & E & Hp & Hpre & Hst). destruct pre as [|y pre].
        { injection E as -> ->. unfold is_active in Hna. rewrite Ea, Hp in Hna.
          by rewrite bool_decide_eq_true_2 in Hna. }
        injection E as -> ->. apply Forall_cons in Hpre as [_ Hpre]. by exists pre, x.
      * destruct wi_active0 as [?|[_ ?]%Forall_cons]; auto.
  - intros c [Hc | (x & Hx & Hb & Hh)]; [by left|]. rewrite Hs in Hx.
    apply elem_of_cons in Hx as [->|Hx]; [left; by apply Hacc|]. right. by exists x.
  - split; simpl; auto. pose proof (so_bytes _ Hseg). lia.
Qed.

(** The log after a gap for the segment is recorded. *)
Definition gap_of (m : metadata) (seg : segment) (reason : GapReason) : Gap :=
  mkGap (Incarnation (seg_first seg)) (Seq (seg_first seg)) (u64 (Seq (seg_last seg) + 1))
    reason PrecisionExact (u64 (m_CoverageRevision m + 1)).

Definition with_gap (w : WAL) (seg : segment) (reason : GapReason) : WAL :=
  set_meta (m_set_coverage (u64 (m_CoverageRevision (w_meta w) + 1))
              (mergeGap (m_Gaps (w_meta w)) (gap_of (w_meta w) seg reason)) (w_meta w)) w.

Lemma durable_view_coverage w : coverage_ok (durable_view w) = coverage_ok (w_meta w).
Proof.
  unfold durable_view. destruct (w_active w), (active_segment w); try done. by case_if.
Qed.

Lemma deleteWithGapLocked_effect seg rest reason s r s' :
  w_segments (s_wal s) = seg :: rest -> deleteWithGapLocked seg reason s = (r, s') ->
  (s_wal s' = s_wal s /\ is_ok r = false) \/
  Seq (seg_last seg) <> max_u64 /\ coverage_ok (w_meta (with_gap (s_wal s) seg reason)) = true /\
  ((s_wal s' = with_gap (s_wal s) seg reason /\ is_ok r = false) \/
   s_wal s' = set_segments rest (w_totalBytes (s_wal s) - seg_bytes seg)
                (with_gap (s_wal s) seg reason)).
Proof.
  intros Hs. unfold deleteWithGapLocked. case_if; [intros [= <- <-]; by left|]. bool_to_prop.
  unfold bind at 1, gets at 1, bind at 1, modify at 1.
  set (s1 := upd_wal _ s).
  assert (s_wal s1 = with_gap (s_wal s) seg reason) as W1 by done.
  unfold bind at 1, attempt at 1, saveMetadataDurableLocked at 1, bind at 1, gets at 1.
  destruct (saveMetadata (durable_view (s_wal s1)) s1) as [[u|e] s2] eqn:E2;
    pose proof (run_same _ _ _ _ (same_wal_saveMetadata _) E2) as W2.
  - intros E3. right. split; [done|]. destruct u. apply saveMetadata_valid, validate_coverage in E2.
    rewrite durable_view_coverage, W1 in E2. split; [done|].
    assert (w_segments (s_wal s2) = seg :: rest) as Hs2 by (by rewrite W2, W1).
    destruct (deleteSegmentLocked_effect _ _ _ _ _ Hs2 E3) as [[W3 Hr] | W3].
    + left. split; [|done]. by rewrite W3, W2.
    + right. by rewrite W3, W2, W1.
  - unfold bind at 1, modify at 1. intros [= <- <-]. left. split; [|done]. simpl. rewrite W2, W1.
    by destruct s as [[? ? [] ? ? ? ? ?] ? ?].
Qed.

Lemma gap_of_covers m seg reason c :
  seg_ok seg -> Seq (seg_last seg) <> max_u64 -> seg_has seg c -> gap_covers (gap_of m seg reason) c.
Proof.
  intros [_ [_ Hl] _ _ _ _] Hne [Hi Hs]. unfold gap_covers, gap_of. simpl.
  rewrite u64_id by (unfold u64_ok; lia). lia.
Qed.

Lemma with_gap_quiet w seg reason :
  seg_ok seg -> coverage_ok (w_meta (with_gap w seg reason)) = true -> quiet w (with_gap w seg reason).
Proof.
  intros Hseg Hcov Hi. split_and!.
  - destruct Hi. split; simpl; auto.
    + destruct wi_u65 as (H1 & H2 & H3 & H4 & H5 & H6 & H7). unfold meta_u64. simpl.
      split_and!; auto using u64_range. apply mergeGap_u64; [done|].
      destruct Hseg as [[? ?] _ _ _ _ _]. unfold gap_u64, gap_of. simpl.
      pose proof (u64_range (m_CoverageRevision (w_meta w) + 1)) as [? ?].
      pose proof (u64_range (Seq (seg_last seg) + 1)) as [? ?]. lia.
    + destruct wi_meta0 as (H1 & H2 & H3 & H4 & H5 & H6 & H7 & H8 & H9 & _).
      unfold meta_valid. simpl. split_and!; auto.
  - intros c [[Hu | [Ha | Hg]] | Hseg']; [left; by left | left; right; by left | | by right].
    left. right. right. simpl. apply mergeGap_cover. by left.
  - split; simpl; auto; try lia. intros c [?|?]; [by left|]. right. simpl. apply mergeGap_cover. by left.
Qed.

Lemma deleteWithGap_quiet seg rest reason s :
  w_segments (s_wal s) = seg :: rest -> is_active (s_wal s) seg = false ->
  quiet (s_wal s) (s_wal (deleteWithGapLocked seg reason s).2).
Proof.
  intros Hs Hna. destruct (deleteWithGapLocked seg reason s) as [r s'] eqn:E. simpl.
  intros Hi. assert (seg_ok seg) as Hseg.
  { pose proof (wi_segs _ Hi) as H. rewrite Hs in H. by apply Forall_cons in H as [? _]. }
  revert Hi. change (quiet (s_wal s) (s_wal s')).
  destruct (deleteWithGapLocked_effect _ _ _ _ _ _ Hs E) as [[-> _] | (Hne & Hc & [[-> _] | ->])];
    [reflexivity | by apply with_gap_quiet |].
  etransitivity; [by apply with_gap_quiet|].
  change (w_totalBytes (s_wal s)) with (w_totalBytes (with_gap (s_wal s) seg reason)).
  apply drop_head_quiet; [done | done |]. intros c Hc'. right. right. simpl.
  apply mergeGap_cover. right. by apply gap_of_covers.
Qed.

Lemma deleteACKed_quiet seg rest s :
  w_segments (s_wal s) = seg :: rest -> is_active (s_wal s) seg = false ->
  segmentACKed seg (m_ServerACK (w_meta (s_wal s))) = true ->
  quiet (s_wal s) (s_wal (deleteSegmentLocked seg s).2).
Proof.
  intros Hs Hna Hack. destruct (deleteSegmentLocked seg s) as [r s'] eqn:E. simpl.
  destruct (deleteSegmentLocked_effect _ _ _ _ _ Hs E) as [[-> _] | ->]; [reflexivity|].
  intros Hi. pose proof (wi_segs _ Hi) as H. rewrite Hs in H. apply Forall_cons in H as [Hseg _].
  revert Hi. apply drop_head_quiet; [done | done |].
  intros c [Hc1 Hc2]. unfold segmentACKed in Hack.
  destruct (m_ServerACK _) as [ack|] eqn:Ea; [|done]. bool_to_prop. cursor_cases.
  right. left. exists ack. split; [done|]. etransitivity; [|exact Hack].
  right. destruct Hseg. rewrite so_inc0. lia.
Qed.

(** *** The deletion loops *)

Lemma deleteACKed_loop_quiet fuel freed : quiet_step (deleteACKed_loop fuel freed).
Proof.
  revert freed. induction fuel as [|fuel IH]; intros freed; cbn [deleteACKed_loop];
    [apply quiet_same, same_wal_ret|].
  apply quiet_gets. intros s. destruct (w_segments (s_wal s)) as [|seg rest] eqn:Hs; [reflexivity|].
  case_if; [reflexivity|]. case_if; [reflexivity|]. bool_to_prop.
  unfold bind. pose proof (deleteACKed_quiet seg rest s Hs ltac:(done) ltac:(done)) as Hq.
  destruct (deleteSegmentLocked seg s) as [[u|e] s']; simpl in *; [|done].
  etransitivity; [exact Hq | apply IH].
Qed.

Lemma deleteACKedLocked_quiet : quiet_step deleteACKedLocked.
Proof. apply quiet_gets. intros s. apply deleteACKed_loop_quiet. Qed.

Lemma retention_loop_quiet fuel cutoff incoming freed :
  quiet_step (retention_loop fuel cutoff incoming freed).
Proof.
  revert freed. induction fuel as [|fuel IH]; intros freed; cbn [retention_loop];
    [apply quiet_same, same_wal_ret|].
  apply quiet_gets. intros s. destruct (w_segments (s_wal s)) as [|seg rest] eqn:Hs; [reflexivity|].
  case_if; [reflexivity|]. case_if; [reflexivity|].
  unfold bind. pose proof (deleteWithGap_quiet seg rest GapRetention s Hs ltac:(done)) as Hq.
  destruct (deleteWithGapLocked seg GapRetention s) as [[u|e] s']; simpl in *; [|done].
  etransitivity; [exact Hq | apply IH].
Qed.

Lemma enforceRetention_quiet now incoming : quiet_step (enforceRetentionLocked now incoming).
Proof.
  apply quiet_bind; [apply deleteACKedLocked_quiet|]. intros acked.
  apply quiet_gets. intros s. apply retention_loop_quiet.
Qed.

Lemma reclaimACKed_loop_quiet fuel need freed : quiet_step (reclaimACKed_loop fuel need freed).
Proof.
  revert freed. induction fuel as [|fuel IH]; intros freed; cbn [reclaimACKed_loop];
    [apply quiet_same, same_wal_ret|].
  apply quiet_gets. intros s. destruct (w_segments (s_wal s)) as [|seg rest] eqn:Hs; [reflexivity|].
  do 3 (case_if; [reflexivity|]). bool_to_prop. unfold bind, attempt.
  pose proof (deleteACKed_quiet seg rest s Hs ltac:(done) ltac:(done)) as Hq.
  destruct (deleteSegmentLocked seg s) as [[u|e] s']; simpl in *; [|done].
  etransitivity; [exact Hq | apply IH].
Qed.

Lemma reclaimUnacked_loop_quiet fuel need freed : quiet_step (reclaimUnacked_loop fuel need freed).
Proof.
  revert freed. induction fuel as [|fuel IH]; intros freed; cbn [reclaimUnacked_loop];
    [apply quiet_same, same_wal_ret|].
  apply quiet_gets. intros s. destruct (w_segments (s_wal s)) as [|seg rest] eqn:Hs; [reflexivity|].
  do 3 (case_if; [reflexivity|]). unfold bind, attempt.
  pose proof (deleteWithGap_quiet seg rest GapDiskPressure s Hs ltac:(done)) as Hq.
  destruct (deleteWithGapLocked seg GapDiskPressure s) as [[u|e] s']; simpl in *; [|done].
  etransitivity; [exact Hq | apply IH].
Qed.

(** What holds when the retention loop returns: nothing is left, the oldest
    segment is the active one, or the new frame fits. *)
Definition fits (w : WAL) (incoming : Z) : Prop :=
  w_segments w = [] \/ (exists seg rest, w_segments w = seg :: rest /\ is_active w seg = true) \/
  w_totalBytes w + incoming <= o_MaxBytes (w_options w).

Lemma retention_loop_fits fuel cutoff incoming freed s v s' :
  (length (w_segments (s_wal s)) <= fuel)%nat ->
  retention_loop fuel cutoff incoming freed s = (Ok v, s') -> fits (s_wal s') incoming.
Proof.
  revert freed s. induction fuel as [|fuel IH]; intros freed s Hlen; cbn [retention_loop].
  { intros [= _ <-]. left. by destruct (w_segments (s_wal s)); [|simpl in Hlen; lia]. }
  unfold bind at 1, gets at 1. destruct (w_segments (s_wal s)) as [|seg rest] eqn:Hs.
  { intros [= _ <-]. by left. }
  case_if; [intros [= _ <-]; right; left; by exists seg, rest|].
  case_if; [intros [= _ <-]; right; right; bool_to_prop; lia|].
  unfold bind at 1. destruct (deleteWithGapLocked seg GapRetention s) as [[u|e] s1] eqn:E1; [|done].
  intros E2. eapply IH; [|exact E2].
  destruct (deleteWithGapLocked_effect _ _ _ _ _ _ Hs E1) as [[_ ?] | (_ & _ & [[_ ?] | W])]; [done | done |].
  rewrite W. simpl in *. lia.
Qed.

Lemma enforceRetention_fits now incoming s v s' :
  enforceRetentionLocked now incoming s = (Ok v, s') -> fits (s_wal s') incoming.
Proof.
  unfold enforceRetentionLocked, bind at 1. destruct (deleteACKedLocked s) as [[a|e] s1]; [|done].
  unfold bind at 1, gets at 1. apply retention_loop_fits. lia.
Qed.

(** *** Creating and growing the active segment *)

(** The log with a freshly created, empty segment. *)
Definition with_fresh (w : WAL) (now : time) : WAL :=
  let c := next_cursor (w_meta w) in
  set_active (Some (mkActive (segmentName c) 0))
    (set_segments (w_segments w ++ [mkSegment (segmentName c) c c now now 0]) (w_totalBytes w) w).

Lemma createActive_effect now s r s' :
  createActiveLocked (next_cursor (w_meta (s_wal s))) now s = (r, s') ->
  (s_wal s' = s_wal s /\ is_ok r = false) \/
  (s_wal s' = with_fresh (s_wal s) now /\ is_ok r = true).
Proof.
  unfold createActiveLocked, bind at 1.
  destruct (syscall s) as [[u|e] s1] eqn:E1;
    pose proof (run_same _ _ _ _ same_wal_syscall E1) as W1; [|intros [= <- <-]; by left].
  unfold bind at 1, gets at 1. case_if; [intros [= <- <-]; by left|].
  unfold bind at 1, modify at 1. set (s1' := upd_disk _ s1). unfold bind at 1, attempt.
  destruct (syscall s1') as [[u2|e] s2] eqn:E2;
    pose proof (run_same _ _ _ _ same_wal_syscall E2) as W2; simpl in W2.
  - intros [= <- <-]. right. split; [|done]. simpl. by rewrite W2, W1.
  - unfold bind at 1. destruct (removeFile _ s2) as [r3 s3] eqn:E3.
    pose proof (run_same _ _ _ _ (same_wal_removeFile _) E3) as W3. intros [= <- <-]. left. by rewrite W3, W2, W1.
Qed.

Lemma next_cursor_ok w : wal_inv w -> cursor_ok (next_cursor (w_meta w)).
Proof.
  intros Hi. destruct (wi_u64 _ Hi) as ([_ H1] & [_ H2] & _).
  destruct (wi_meta _ Hi) as (_ & _ & H3 & H4 & _). split; simpl; lia.
Qed.

Lemma sorted_snoc (l : list segment) x :
  StronglySorted seg_before l -> Forall (fun y => seg_before y x) l -> StronglySorted seg_before (l ++ [x]).
Proof.
  induction 1 as [|y l Hs IH Hall]; intros Hx; simpl; [repeat constructor|].
  apply Forall_cons in Hx as [Hy Hx]. constructor; [by apply IH|].
  apply Forall_app. split; [done | by apply Forall_singleton].
Qed.

Lemma with_fresh_quiet w now :
  w_active w = None -> w_closed w = false -> wal_inv w ->
  wal_inv (with_fresh w now) /\ (forall c, kept w c -> kept (with_fresh w now) c) /\
  w_totalBytes (with_fresh w now) = w_totalBytes w.
Proof.
  intros Ha Hc Hi. pose proof (next_cursor_ok w Hi) as Hn.
  assert (Forall (fun seg => 0 < seg_bytes seg) (w_segments w)) as Hpos.
  { pose proof (wi_active _ Hi) as H. unfold active_ok in H. rewrite Ha in H.
    destruct H; [congruence | done]. }
  split_and!; [| |done].
  2: { intros c [Hc'|(x & Hx & Hb)]; [by left|]. right. exists x. split; [|done].
       apply elem_of_app. by left. }
  pose proof Hi as Hi'. destruct Hi'. split; simpl; auto.
  - apply Forall_app. split; [done|]. apply Forall_singleton.
    split; simpl; auto using parse_segmentName; lia.
  - apply sorted_snoc; [done|]. apply Forall_forall. intros x Hx. unfold seg_before. simpl.
    apply written_lt_next; [done | done |]. by rewrite Forall_forall in Hpos; apply Hpos.
  - rewrite sum_by_app, sum_by_one. simpl. lia.
  - apply Forall_app. split; [done|]. apply Forall_singleton. simpl. lia.
  - unfold active_ok. simpl. eexists _, _. split_and!; [done | done | done |]. left. done.
Qed.

(** The log one record later. *)
Lemma assigned_meta_valid m :
  meta_u64 m -> meta_valid m -> m_NextSeq m <> max_u64 ->
  let m' := m_set_assigned (u64 (m_NextSeq m + 1)) (Some (next_cursor m)) m in
  meta_u64 m' /\ meta_valid m' /\ m_NextSeq m' = m_NextSeq m + 1.
Proof.
  intros (H1 & H2 & H3 & H4 & H5 & H6 & H7) Hv Hne. pose proof Hv as (V1 & V2 & V3 & V4 & V5 & V6 & V7 & V8 & V9 & V10).
  unfold u64_ok in *. assert (u64 (m_NextSeq m + 1) = m_NextSeq m + 1) as E
    by (apply u64_id; unfold u64_ok; lia).
  simpl. rewrite E. split_and!; [| |done].
  - unfold meta_u64, u64_ok. simpl. split_and!; auto; try lia. intros x [= <-]. simpl. lia.
  - unfold meta_valid. simpl. split_and!; auto; [lia | |].
    + intros x [= <-]. unfold cursor_ok, next_cursor. simpl. lia.
    + assert (forall o la, m_LastAssigned m = Some la -> opt_le o la -> opt_le o (next_cursor m)) as Hmono.
      { intros o la Hla Ho x Hx. apply cursor_lt_le. eapply cursor_le_lt_trans; [by apply Ho|].
        by apply assigned_lt_next. }
      unfold counters_valid in *. simpl. destruct (m_LastAssigned m) as [la|] eqn:Ela.
      * destruct V8 as (_ & _ & ? & ?). split_and!; eauto; intros; simpl in *; lia.
      * destruct V8 as (-> & -> & ?). split_and!; intros; simpl in *; try lia; done.
Qed.

Lemma grow_map a pre seg c now n :
  Forall seg_ok (pre ++ [seg]) -> StronglySorted seg_before (pre ++ [seg]) -> a = seg_path seg ->
  (fun x => if bool_decide (a = seg_path x) then grow_segment c now n x else x) <$> (pre ++ [seg])
  = pre ++ [grow_segment c now n seg].
Proof.
  intros Hok Hs ->. rewrite fmap_app. simpl. rewrite bool_decide_eq_true_2 by done. f_equal.
  assert (forall x, x ∈ pre -> seg_path seg <> seg_path x) as Hne by eauto using pre_path_ne.
  clear Hok Hs. induction pre as [|x pre IH]; simpl; [done|].
  rewrite bool_decide_eq_false_2 by (apply Hne; left). f_equal. apply IH. intros y Hy. apply Hne. by right.
Qed.

Lemma record_append_inv w now n :
  wal_inv w -> is_Some (w_active w) -> m_NextSeq (w_meta w) <> max_u64 -> 0 < n ->
  let c := next_cursor (w_meta w) in
  let w' := record_append c now n w in
  wal_inv w' /\ (forall x, kept w x -> kept w' x) /\ kept w' c /\
  w_totalBytes w' = w_totalBytes w + n /\ m_LastAssigned (w_meta w') = Some c /\
  next_cursor (w_meta w') = mkCursor (Incarnation c) (Seq c + 1) /\
  m_ServerACK (w_meta w') = m_ServerACK (w_meta w) /\ w_options w' = w_options w.
Proof.
  intros Hi [a Ha] Hne Hn c w'. pose proof (wi_active _ Hi) as Hact. unfold active_ok in Hact.
  rewrite Ha in Hact. destruct Hact as (pre & seg & Hs & Hp & Hpre & Hst).
  destruct (assigned_meta_valid _ (wi_u64 _ Hi) (wi_meta _ Hi) Hne) as (Hu' & Hv' & Hnext).
  pose proof (next_cursor_ok w Hi) as Hc. fold c in Hc.
  pose proof (wi_segs _ Hi) as Hok. pose proof (wi_order _ Hi) as Hord. rewrite Hs in Hok, Hord.
  assert (w_segments w' = pre ++ [grow_segment c now n seg]) as Hs'.
  { unfold w', record_append. rewrite Ha. simpl. rewrite Hs. by apply grow_map. }
  assert (w_meta w' = m_set_assigned (u64 (m_NextSeq (w_meta w) + 1)) (Some c) (w_meta w)) as Hm'
    by (unfold w', record_append; by rewrite Ha).
  assert (w_active w' = Some (mkActive (a_path a) (a_pending a + n))) as Ha'
    by (unfold w', record_append; by rewrite Ha).
  assert (w_totalBytes w' = w_totalBytes w + n) as Ht'
    by (unfold w', record_append; by rewrite Ha).
  apply Forall_app in Hok as [Hokp Hseg]. rewrite Forall_singleton in Hseg.
  assert (Incarnation (seg_first seg) = Incarnation c /\ Seq (seg_first seg) <= Seq c /\
          (0 < seg_bytes seg -> cursor_lt (seg_last seg) c)) as (Hfi & Hfs & Hlt).
  { destruct Hst as [(_ & -> & -> & _) | (_ & Hb & Hi' & Hla)].
    - split_and!; [done | unfold c; lia | lia].
    - pose proof (assigned_lt_next _ _ (wi_meta _ Hi) Hla) as Hl. fold c in Hl.
      destruct Hseg as [_ _ Hinc Hseq _ _]. unfold cursor_lt in Hl. simpl in *.
      split_and!; [congruence | lia | done]. }
  assert (0 <= seg_bytes seg) as Hsb by apply (so_bytes _ Hseg).
  split_and!.
  - split; rewrite ?Hm', ?Hs', ?Ht'; auto.
    + apply Forall_app. split; [done|]. apply Forall_singleton.
      destruct Hseg. split; simpl; auto; lia.
    + apply sorted_snoc.
      * clear -Hord. induction pre; simpl in *; [constructor|]. sorted_inv Hord.
        apply Forall_app in Hall as [? _]. constructor; auto.
      * apply Forall_forall. intros x Hx. by apply (segs_before_last pre seg).
    + rewrite (wi_total _ Hi), Hs, !sum_by_app, !sum_by_one. simpl. lia.
    + apply Forall_forall. intros x Hx Hb. exists c. split; [done|].
      apply elem_of_app in Hx as [Hx | ->%list_elem_of_singleton]; [|reflexivity].
      apply cursor_lt_le. apply (written_lt_next w); [done | | done]. rewrite Hs.
      apply elem_of_app. by left.
    + unfold active_ok. rewrite Ha', Hs'. exists pre, (grow_segment c now n seg).
      split_and!; [done | done | done |]. right. unfold active_batch. rewrite Hm'. simpl.
      split_and!; [|lia|done|done]. destruct Hst as [(-> & _) | (? & _)]; lia.
  - intros x [Hx | (y & Hy & Hb & Hh)]; [left; by rewrite Hm'|]. right.
    rewrite Hs in Hy. apply elem_of_app in Hy as [Hy | ->%list_elem_of_singleton].
    + exists y. rewrite Hs'. split; [apply elem_of_app; by left | done].
    + exists (grow_segment c now n seg). rewrite Hs'. split; [apply elem_of_app; right; by left|].
      simpl. split; [lia|]. destruct Hh as [Hh1 Hh2]. split; [done|]. simpl.
      specialize (Hlt Hb). destruct Hseg. unfold cursor_lt in Hlt.
      change (m_NextSeq (w_meta w)) with (Seq c). lia.
  - right. exists (grow_segment c now n seg). rewrite Hs'. split; [apply elem_of_app; right; by left|].
    cbn [seg_bytes grow_segment]. split; [lia|]. unfold seg_has. cbn [seg_first seg_last grow_segment].
    lia.
  - done.
  - by rewrite Hm'.
  - rewrite Hm'. unfold next_cursor. simpl in *. rewrite Hnext. done.
  - by rewrite Hm'.
  - unfold w', record_append. by rewrite Ha.
Qed.

(** *** Append *)

Lemma make_room_quiet now n w : quiet_step (make_room now n w).
Proof.
  unfold make_room. apply quiet_bind; [case_if; [apply syncLocked_quiet | apply quiet_same, same_wal_ret]|].
  intros _. apply quiet_bind; [apply enforceRetention_quiet | intros; apply quiet_same, same_wal_ret].
Qed.

Lemma make_room_fits now n s s' :
  wal_inv (s_wal s) -> n <= o_MaxBytes (w_options (s_wal s)) ->
  make_room now n (s_wal s) s = (Ok tt, s') ->
  w_totalBytes (s_wal s') + n <= o_MaxBytes (w_options (s_wal s)).
Proof.
  intros Hi Hn E. pose proof (make_room_quiet now n (s_wal s) s) as Hq. rewrite E in Hq. simpl in Hq.
  destruct (Hq Hi) as (Hi' & _ & Hf). rewrite <- (wf_options _ _ Hf).
  revert E. unfold make_room, bind at 1.
  set (full := (bool_decide _ && _)%bool).
  match goal with |- context [let (_, _) := ?m s in _] => destruct (m s) as [[u|e] s1] eqn:E1 end;
    [|by intros [=]].
  unfold bind at 1. destruct (enforceRetentionLocked now n s1) as [[v|e] s2] eqn:E2; [|by intros [=]].
  intros [= ->]. pose proof (enforceRetention_fits _ _ _ _ _ E2) as [Hnil | [(seg & rest & Hs & Ha) | ?]];
    [| |done].
  - rewrite (wi_total _ Hi'), Hnil, (wf_options _ _ Hf). simpl. lia.
  - destruct full eqn:Efull.
    + (* synced: nothing is active *)
      exfalso. pose proof (syncLocked_ok _ _ _ Hi E1 eq_refl) as Hn1.
      assert (wal_inv (s_wal s1)) as Hi1.
      { pose proof (syncLocked_quiet s) as H. rewrite E1 in H. by apply H. }
      pose proof (enforceRetention_quiet now n s1) as H2. rewrite E2 in H2.
      destruct (H2 Hi1) as (_ & _ & Hf2). simpl in Hf2. unfold is_active in Ha.
      destruct (wf_active _ _ Hf2) as [H|H]; rewrite H, ?Hn1 in Ha; done.
    + (* not full before *)
      injection E1 as _ <-. pose proof (enforceRetention_quiet now n s) as H2. rewrite E2 in H2.
      destruct (H2 Hi) as (_ & _ & Hf2). simpl in Hf2. pose proof (wf_total _ _ Hf2).
      rewrite (wf_options _ _ Hf). unfold full in Efull. apply andb_false_iff in Efull as [Hno|?];
        [|bool_to_prop; lia].
      unfold is_active in Ha. destruct (wf_active _ _ Hf2) as [H'|H']; rewrite H' in Ha; [|done].
      bool_to_prop. destruct (w_active (s_wal s)); [|done]. exfalso. eauto.
Qed.

(** What an append leaves alone, whether it succeeds or fails. *)
Definition append_frame (w w' : WAL) : Prop :=
  m_ServerACK (w_meta w') = m_ServerACK (w_meta w) /\ forall c, lost (w_meta w) c -> lost (w_meta w') c.

Lemma append_frame_trans w1 w2 w3 : append_frame w1 w2 -> append_frame w2 w3 -> append_frame w1 w3.
Proof. intros [E1 L1] [E2 L2]. split; [congruence | auto]. Qed.
Lemma append_frame_quiet w w' : wal_frame w w' -> append_frame w w'.
Proof. intros Hf. split; [apply (wf_ack _ _ Hf) | apply (wf_lost _ _ Hf)]. Qed.

Definition append_post (now : time) (payload : list Z) (w w' : WAL)
    (r : res walErr (walRecord * option walErr)) : Prop :=
  match r with
  | Ok (rec, _) =>
    rec = mkRecord (w_agentID w) (next_cursor (w_meta w)) now payload /\
    kept w' (r_Cursor rec) /\ m_LastAssigned (w_meta w') = Some (r_Cursor rec) /\
    next_cursor (w_meta w') = mkCursor (Incarnation (r_Cursor rec)) (Seq (r_Cursor rec) + 1) /\
    w_totalBytes w' <= o_MaxBytes (w_options w)
  | Err _ => next_cursor (w_meta w') = next_cursor (w_meta w)
  end.

(** The write and what follows it, from a state with room and an active
    segment. *)
Lemma append_write now payload frame (s : sys) a r s' :
  wal_inv (s_wal s) -> w_active (s_wal s) = Some a -> m_NextSeq (w_meta (s_wal s)) <> max_u64 ->
  0 < lenZ frame -> w_totalBytes (s_wal s) + lenZ frame <= o_MaxBytes (w_options (s_wal s)) ->
  write_frame (next_cursor (w_meta (s_wal s))) now payload frame a s = (r, s') ->
  wal_inv (s_wal s') /\ (forall c, kept (s_wal s) c -> kept (s_wal s') c) /\
  append_frame (s_wal s) (s_wal s') /\
  append_post now payload (s_wal s) (s_wal s') r.
Proof.
  intros Hi Ha Hne Hn Hroom. unfold write_frame, bind at 1, gets at 1, bind at 1.
  destruct (writeFull (a_path a) frame s) as [[u|e] s1] eqn:E1;
    pose proof (run_same _ _ _ _ (same_wal_writeFull _ _) E1) as W1.
  2: { intros [= <- <-]. rewrite W1. by split_and!. }
  unfold bind at 1, modify at 1. cbv zeta. unfold bind at 1, gets at 1.
  set (s2 := upd_wal _ s1).
  assert (s_wal s2 = record_append (next_cursor (w_meta (s_wal s))) now (lenZ frame) (s_wal s)) as W2
    by (unfold s2; simpl; by rewrite W1).
  destruct (record_append_inv (s_wal s) now (lenZ frame) Hi ltac:(by rewrite Ha) Hne Hn)
    as (Hi2 & Hk2 & Hc2 & Ht2 & Hla2 & Hnx2 & Hack2 & Ho2). rewrite <- W2 in *.
  intros E.
  assert (exists serr, r = Ok (mkRecord (w_agentID (s_wal s)) (next_cursor (w_meta (s_wal s))) now payload, serr)
    /\ quiet (s_wal s2) (s_wal s')) as (serr & -> & Hq).
  { revert E. destruct (w_active (s_wal s2)); [|intros [= <- <-]; by eexists].
    case_if; [|intros [= <- <-]; by eexists].
    unfold bind, attempt. pose proof (syncLocked_quiet s2) as Hq.
    destruct (syncLocked s2) as [[u3|e] s3]; intros [= <- <-]; by eexists. }
  destruct (Hq Hi2) as (Hi3 & Hk3 & Hf3). split_and!; auto.
  - eapply append_frame_trans; [|by apply append_frame_quiet]. split; [done|]. intros c. rewrite W2. unfold record_append.
    by destruct (w_active (s_wal s)).
  - simpl. split_and!; auto.
    + by rewrite (wf_assigned _ _ Hf3).
    + by rewrite (wf_next _ _ Hf3).
    + pose proof (wf_total _ _ Hf3). lia.
Qed.

(** [append_post] only looks at what a quiet prefix leaves unchanged. *)
Lemma append_post_frame now p w0 w1 w2 r :
  w_agentID w1 = w_agentID w0 -> next_cursor (w_meta w1) = next_cursor (w_meta w0) ->
  w_options w1 = w_options w0 -> append_post now p w1 w2 r -> append_post now p w0 w2 r.
Proof. intros Ha Hn Ho. unfold append_post. by rewrite Ha, Hn, Ho. Qed.

(** From a state with room: create a segment if none is active, then write. *)
Lemma append_tail now payload frame (s : sys) r s' :
  wal_inv (s_wal s) -> w_closed (s_wal s) = false -> m_NextSeq (w_meta (s_wal s)) <> max_u64 ->
  0 < lenZ frame -> w_totalBytes (s_wal s) + lenZ frame <= o_MaxBytes (w_options (s_wal s)) ->
  (let* w1 := gets s_wal in
   (match w_active w1 with
    | None => createActiveLocked (next_cursor (w_meta (s_wal s))) now
    | Some _ => ret tt
    end) ;;;
   let* w2 := gets s_wal in
   match w_active w2 with
   | None => fail ErrInvariant
   | Some a => write_frame (next_cursor (w_meta (s_wal s))) now payload frame a
   end) s = (r, s') ->
  wal_inv (s_wal s') /\ (forall c, kept (s_wal s) c -> kept (s_wal s') c) /\
  append_frame (s_wal s) (s_wal s') /\
  append_post now payload (s_wal s) (s_wal s') r.
Proof.
  intros Hi Hcl Hne Hpos Hroom. unfold bind at 1, gets at 1.
  destruct (w_active (s_wal s)) as [a|] eqn:Ha.
  - unfold bind at 1, ret at 1, bind at 1, gets at 1. rewrite Ha. by apply append_write.
  - unfold bind at 1. destruct (createActiveLocked _ now s) as [r1 s1] eqn:E1.
    destruct (createActive_effect _ _ _ _ E1) as [[W1 Hr] | [W1 Hr]]; destruct r1 as [u|e]; try done.
    { intros [= <- <-]. rewrite W1. by split_and!. }
    unfold bind at 1, gets at 1. destruct (with_fresh_quiet (s_wal s) now Ha Hcl Hi) as (Hi1 & Hk1 & Ht1).
    rewrite W1. cbn [w_active with_fresh set_active].
    change (next_cursor (w_meta (s_wal s))) with (next_cursor (w_meta (with_fresh (s_wal s) now))).
    rewrite <- W1 in *. intros E2.
    destruct (append_write now payload frame s1 (mkActive (segmentName (next_cursor (w_meta (s_wal s1)))) 0) r s')
      as (Hi2 & Hk2 & Hack & Hp); try done; try (rewrite W1; done).
    split_and!; auto.
    + eapply append_frame_trans; [|exact Hack]. by rewrite W1.
    + eapply append_post_frame; [| | |exact Hp]; by rewrite W1.
Qed.

(** Append as a whole. *)
Lemma appendLocked_post now payload s r s' :
  wal_inv (s_wal s) -> appendLocked now payload s = (r, s') ->
  wal_inv (s_wal s') /\ (forall c, kept (s_wal s) c -> kept (s_wal s') c) /\
  append_frame (s_wal s) (s_wal s') /\
  append_post now payload (s_wal s) (s_wal s') r.
Proof.
  intros Hi. unfold appendLocked, bind at 1, gets at 1.
  destruct (w_closed (s_wal s)) eqn:Hcl; [intros [= <- <-]; by split_and!|].
  destruct (w_backgroundErr (s_wal s)); [intros [= <- <-]; by split_and!|].
  unfold bind at 1. destruct (ctxErr s) as [[u|e] s1] eqn:E1;
    pose proof (run_same _ _ _ _ same_wal_ctxErr E1) as W1;
    [|intros [= <- <-]; rewrite W1; by split_and!].
  cbv zeta. fold (next_cursor (w_meta (s_wal s))).
  do 2 (case_if; [intros [= <- <-]; rewrite W1; by split_and!|]). bool_to_prop.
  destruct (encodeFrame _ now payload) as [frame|] eqn:Ef;
    [|intros [= <- <-]; rewrite W1; by split_and!].
  apply encodeFrame_inv in Ef as (_ & Hlen & _). pose proof (lenZ_nonneg payload).
  assert (0 < lenZ frame) as Hpos by lia. clear Hlen.
  case_if; [intros [= <- <-]; rewrite W1; by split_and!|]. bool_to_prop.
  rewrite <- W1 in *. unfold bind at 1.
  destruct (make_room now (lenZ frame) (s_wal s1) s1) as [[[]|e] s2] eqn:E2;
    pose proof (make_room_quiet now (lenZ frame) (s_wal s1) s1) as Hq; rewrite E2 in Hq;
    destruct (Hq Hi) as (Hi2 & Hk2 & Hf2); simpl in Hi2, Hk2, Hf2.
  2: { intros [= <- <-]. split_and!; auto; [by apply append_frame_quiet | apply (wf_next _ _ Hf2)]. }
  eapply make_room_fits in E2 as Hroom; [|done..].
  rewrite <- (wf_next _ _ Hf2). intros E3.
  assert (m_NextSeq (w_meta (s_wal s2)) <> max_u64) as Hne2.
  { pose proof (wf_next _ _ Hf2) as En. apply (f_equal Seq) in En. simpl in *. congruence. }
  apply append_tail in E3 as (Hi3 & Hk3 & Hack & Hp); try done.
  - split_and!; auto; [by eapply append_frame_trans; [apply append_frame_quiet|]|].
    eapply append_post_frame; [| | |exact Hp]; apply Hf2.
  - rewrite (wf_closed _ _ Hf2). done.
  - by rewrite (wf_options _ _ Hf2).
Qed.
