(* ===== verification/WalProps.v ===== *)
(** * Audit WAL: properties of the operations

    The operations of the log as one step function, and for each that it is
    safe: it keeps the invariant, loses no record silently, forgets no recorded
    loss and moves the acknowledgement only as the operation says. *)

From S2P Require Import Prelude Cursor WalFrame WalMeta WalNames Wal WalInv.

(** ** Safe steps

    A step is safe when it keeps the invariant, loses no record silently and
    never moves the acknowledgement backwards. *)

Definition ack_le (a b : option Cursor) : Prop := forall x, a = Some x -> opt_ge x b.

#[export] Instance ack_le_refl : Reflexive ack_le.
Proof. intros a x ->. exists x. by split. Qed.
#[export] Instance ack_le_trans : Transitive ack_le.
Proof.
  intros a b c Hab Hbc x Hx. destruct (Hab x Hx) as (y & Hy & ?). destruct (Hbc y Hy) as (z & Hz & ?).
  exists z. split; [done|]. by etransitivity.
Qed.

#[export] Instance ack_le_pre : PreOrder ack_le.
Proof. split; apply _. Qed.

(** [R] relates the acknowledgements before and after. *)
Record safe_post_by (R : relation (option Cursor)) (w w' : WAL) : Prop := {
  sp_inv : wal_inv w';
  sp_kept : forall c, kept w c -> kept w' c;
  sp_ack : R (m_ServerACK (w_meta w)) (m_ServerACK (w_meta w'));
  sp_lost : forall c, lost (w_meta w) c -> lost (w_meta w') c;
  sp_next : cursor_le (next_cursor (w_meta w)) (next_cursor (w_meta w'));
  sp_new : forall c, cursor_le (next_cursor (w_meta w)) c -> cursor_lt c (next_cursor (w_meta w')) -> kept w' c;
}.
Abbreviation safe_post := (safe_post_by ack_le).

(** Nothing was assigned. *)
Lemma no_new w w' : next_cursor (w_meta w') = next_cursor (w_meta w) ->
  forall c, cursor_le (next_cursor (w_meta w)) c -> cursor_lt c (next_cursor (w_meta w')) -> kept w' c.
Proof. intros -> c H1 H2. by destruct (cursor_lt_not_le _ _ H2). Qed.

Definition safe_by (R : relation (option Cursor)) (w w' : WAL) : Prop := wal_inv w -> safe_post_by R w w'.
Abbreviation safe := (safe_by ack_le).

Definition safe_step_by (R : relation (option Cursor)) {A} (m : walM A) : Prop :=
  forall s, safe_by R (s_wal s) (s_wal (m s).2).
Abbreviation safe_step := (safe_step_by ack_le).

(** Reading changes nothing of the log. *)
Lemma read_segment_same fuel id maxb limit start rd expected lastRead acc :
  same_wal (read_segment fuel id maxb limit start rd expected lastRead acc).
Proof.
  revert rd expected lastRead acc.
  induction fuel as [|fuel IH]; intros; cbn [read_segment]; same_wal.
Qed.
Lemma openSegment_same p : same_wal (openSegment p).
Proof. unfold openSegment. same_wal. Qed.
#[export] Hint Resolve read_segment_same openSegment_same : samewal.
Lemma read_segments_same w limit start segs acc : same_wal (read_segments w limit start segs acc).
Proof. revert acc. induction segs as [|seg segs IH]; intros; cbn [read_segments]; same_wal. Qed.
#[export] Hint Resolve read_segments_same : samewal.
Lemma ReadAuditFrom_same now start limit : same_wal (ReadAuditFrom now start limit).
Proof. unfold ReadAuditFrom. same_wal. Qed.

#[export] Instance safe_refl R `{!Reflexive R} : Reflexive (safe_by R).
Proof.
  intros w Hi. split; [done | done | reflexivity | done | reflexivity | by apply no_new].
Qed.
#[export] Instance safe_trans R `{!Transitive R} : Transitive (safe_by R).
Proof.
  intros a b c Hab Hbc Hi. destruct (Hab Hi) as [Hb Hk1 Ha1 Hl1 Hn1 Hw1]. destruct (Hbc Hb) as [Hc Hk2 Ha2 Hl2 Hn2 Hw2].
  split; [done | auto | by etransitivity | auto | by etransitivity|]. intros x H1 H2.
  destruct (decide (cursor_lt x (next_cursor (w_meta b)))) as [?|Hge]; [by apply Hk2, Hw1|]. apply Hw2; [|done].
  by apply cursor_nlt_le.
Qed.

Create HintDb walsafe.

(** Every operation but an acknowledgement and a rebind leaves the
    acknowledgement as it is, so [R] is any preorder there. *)
Section Ops.
Context (R : relation (option Cursor)) `{!PreOrder R}.
#[local] Abbreviation safe := (safe_by R).
#[local] Abbreviation safe_step := (safe_step_by R).

Lemma quiet_safe w w' : quiet w w' -> safe w w'.
Proof.
  intros Hq Hi. destruct (Hq Hi) as (Hi' & Hk & Hf). split; [done | done | | apply (wf_lost _ _ Hf) | |].
  - rewrite (wf_ack _ _ Hf). reflexivity.
  - rewrite (wf_next _ _ Hf). reflexivity.
  - by apply no_new, wf_next.
Qed.

Lemma safe_quiet {A} (m : walM A) : quiet_step m -> safe_step m.
Proof. intros H s. apply quiet_safe, H. Qed.
Lemma safe_same {A} (m : walM A) : same_wal m -> safe_step m.
Proof. intros H. by apply safe_quiet, quiet_same. Qed.
Lemma safe_bind {A B} (m : walM A) (f : A -> walM B) :
  safe_step m -> (forall a, safe_step (f a)) -> safe_step (bind m f).
Proof.
  intros Hm Hf s. unfold bind. specialize (Hm s).
  destruct (m s) as [[a|e] s']; simpl in *; [|done]. etransitivity; [exact Hm | apply Hf].
Qed.
Lemma safe_attempt {A} (m : walM A) : safe_step m -> safe_step (attempt m).
Proof. intros H s. unfold attempt. specialize (H s). by destruct (m s). Qed.
Lemma safe_gets {A B} (f : sys -> A) (k : A -> walM B) :
  (forall s, safe (s_wal s) (s_wal (k (f s) s).2)) -> safe_step (bind (gets f) k).
Proof. intros H s. apply H. Qed.

Lemma safe_background e : safe_step (modify (upd_wal (set_backgroundErr e))).
Proof. intros s Hi. split; [by destruct Hi | done | simpl; reflexivity | done | simpl; reflexivity | by apply no_new]. Qed.

#[local] Hint Resolve safe_background safe_attempt : walsafe.
#[local] Hint Extern 1 (safe_step_by R _) => (apply safe_same; solve [auto with samewal]) : walsafe.
#[local] Hint Extern 1 (safe_step_by R _) =>
  (apply safe_quiet; solve [auto using syncLocked_quiet, deleteACKedLocked_quiet,
     enforceRetention_quiet, reclaimACKed_loop_quiet, reclaimUnacked_loop_quiet]) : walsafe.

(** Discharge [safe_step] goals by following the program. *)
#[local] Ltac safe_steps :=
  repeat first
    [ progress auto with walsafe
    | apply safe_bind; intros
    | match goal with |- safe_step_by _ (match ?x with _ => _ end) => destruct x end ].

(** ** Each operation *)

Lemma Sync_safe : safe_step Sync.
Proof. unfold Sync. safe_steps. Qed.

Lemma tick_safe now : safe_step (tick now).
Proof. unfold tick. safe_steps. Qed.

Lemma EnforceLimits_safe now : safe_step (EnforceLimits now).
Proof. unfold EnforceLimits. safe_steps. Qed.

Lemma ReclaimACKed_safe now n : safe_step (ReclaimACKedForDiskPressure now n).
Proof. unfold ReclaimACKedForDiskPressure. safe_steps. Qed.

Lemma ReclaimUnacked_safe now n : safe_step (ReclaimUnackedForDiskPressure now n).
Proof. unfold ReclaimUnackedForDiskPressure. safe_steps. Qed.

#[local] Hint Resolve ReclaimACKed_safe ReclaimUnacked_safe : walsafe.
Lemma Reclaim_safe now n : safe_step (ReclaimForDiskPressure now n).
Proof. unfold ReclaimForDiskPressure. safe_steps. Qed.

Lemma Append_safe now payload : safe_step (Append now payload).
Proof.
  intros s Hi. destruct (Append now payload s) as [r s'] eqn:E.
  destruct (appendLocked_post _ _ _ _ _ Hi E) as (Hi' & Hk & [Ha Hl] & Hp). simpl.
  destruct r as [[rec serr]|e]; simpl in Hp.
  - destruct Hp as (-> & Hc & _ & Hn & _). simpl in Hc, Hn. split; auto; [rewrite Ha; reflexivity | |].
    + rewrite Hn. right. simpl. lia.
    + intros c H1 H2. rewrite Hn in H2. assert (c = next_cursor (w_meta (s_wal s))) as ->; [|done].
      destruct c. unfold cursor_le, cursor_lt, next_cursor in *. simpl in *. f_equal; lia.
  - split; auto; [rewrite Ha; reflexivity | rewrite Hp; reflexivity | by apply no_new].
Qed.

(** Closing drops the handle of the active segment even when its last sync
    failed; the segments and the metadata stay. *)
Lemma close_safe w : safe w (set_closed (set_active None w)).
Proof.
  intros Hi. split; [|done | simpl; reflexivity | done | simpl; reflexivity | by apply no_new].
  destruct Hi. split; simpl; auto. by left.
Qed.

Lemma Close_safe : safe_step Close.
Proof.
  apply safe_gets. intros s. case_if; [reflexivity|].
  unfold bind at 1, attempt at 1. pose proof (quiet_safe _ _ (syncLocked_quiet s)) as Hq.
  destruct (syncLocked s) as [r s1]. simpl in Hq. etransitivity; [exact Hq|]. clear Hq.
  unfold bind at 1, gets at 1. set (err := match r with Ok _ => _ | Err e => _ end). clearbody err.
  assert (forall s2, s_wal s2 = set_active None (s_wal s1) ->
    safe (s_wal s1) (s_wal (upd_wal set_closed s2))) as Hend.
  { intros s2 E. simpl. rewrite E. apply close_safe. }
  unfold bind at 1. destruct (w_active (s_wal s1)) as [a|] eqn:Ea.
  - unfold bind at 1, attempt at 1. destruct (syscall s1) as [c s2] eqn:E2.
    pose proof (run_same _ _ _ _ same_wal_syscall E2) as W2.
    unfold bind at 1, modify at 1, ret at 1, bind at 1, modify at 1.
    assert (safe (s_wal s1) (s_wal (upd_wal set_closed (upd_wal (set_active None) s2)))) as H.
    { apply Hend. simpl. by rewrite W2. }
    by destruct err, c.
  - unfold ret at 1, bind at 1, modify at 1.
    assert (safe (s_wal s1) (s_wal (upd_wal set_closed s1))) as H.
    { apply Hend. by destruct (s_wal s1); simpl in *; subst. }
    by destruct err.
Qed.

End Ops.

(** *** Replacing the acknowledgement *)

Definition with_ack (archive : string) (c : option Cursor) (w : WAL) : WAL :=
  set_meta (m_set_ack archive c (w_meta w)) w.

Lemma with_ack_restore w archive c :
  with_ack (m_AcknowledgedArchive (w_meta w)) (m_ServerACK (w_meta w)) (with_ack archive c w) = w.
Proof. by destruct w as [? ? [] ? ? ? ? ?]. Qed.

Lemma with_ack_inv archive c w :
  opt_cursor_u64 c -> validateMetadata (w_meta (with_ack archive c w)) = true ->
  wal_inv w -> wal_inv (with_ack archive c w).
Proof.
  intros Hc Hv Hi. assert (meta_u64 (w_meta (with_ack archive c w))) as Hu.
  { destruct (wi_u64 _ Hi) as (H1 & H2 & H3 & H4 & H5 & H6 & H7). unfold meta_u64. simpl. by split_and!. }
  apply validateMetadata_iff in Hv; [|done]. destruct Hi. split; auto.
Qed.

Lemma with_ack_safe c w :
  opt_cursor_u64 (Some c) -> ack_le (m_ServerACK (w_meta w)) (Some c) ->
  validateMetadata (w_meta (with_ack (m_AcknowledgedArchive (w_meta w)) (Some c) w)) = true ->
  safe w (with_ack (m_AcknowledgedArchive (w_meta w)) (Some c) w).
Proof.
  intros Hc Hle Hv Hi. split; [by apply with_ack_inv | | done | done | simpl; reflexivity | by apply no_new].
  intros x [[Hu | [(a & Ha & Hxa) | Hg]] | Hs]; [left; by left | | left; right; by right | by right].
  left. right. left. destruct (Hle a Ha) as (y & [= <-] & Hac). exists c. split; [done|]. by etransitivity.
Qed.

(** Saving an acknowledgement: kept when the save succeeds, undone when it
    fails. *)
Lemma save_ack f archive c s r s' (k : walM unit) (e0 : walErr -> walM unit) :
  f (s_wal s) = with_ack archive c (s_wal s) ->
  (modify (upd_wal f) ;;;
   let* meta := gets (fun s => w_meta (s_wal s)) in
   let* saved := attempt (saveMetadata meta) in
   match saved with Ok _ => k | Err e => e0 e end) s = (r, s') ->
  (exists s1, s_wal s1 = with_ack archive c (s_wal s) /\ k s1 = (r, s') /\
     validateMetadata (w_meta (s_wal s1)) = true) \/
  (exists e s1, s_wal s1 = with_ack archive c (s_wal s) /\ e0 e s1 = (r, s')).
Proof.
  intros Hf. unfold bind at 1, modify at 1, bind at 1, gets at 1, bind at 1, attempt at 1.
  set (s0 := upd_wal _ s). rewrite <- Hf. destruct (saveMetadata _ s0) as [[[]|e] s1] eqn:E1;
    pose proof (run_same _ _ _ _ (same_wal_saveMetadata _) E1) as W1; intros E.
  - left. exists s1. split_and!; [by rewrite W1 | done|]. rewrite W1. by apply saveMetadata_valid in E1.
  - right. exists e, s1. split; [by rewrite W1 | done].
Qed.

Lemma RebindArchive_effect archive s r s' :
  RebindArchive archive s = (r, s') ->
  exists w, quiet (s_wal s) w /\
    (s_wal s' = w \/
     s_wal s' = with_ack archive None w /\ validateMetadata (w_meta (s_wal s')) = true).
Proof.
  unfold RebindArchive, bind at 1, gets at 1.
  do 3 (case_if; [intros [= <- <-]; by exists (s_wal s); split; [|left]|]).
  unfold bind at 1. pose proof (syncLocked_quiet s) as Hq.
  destruct (syncLocked s) as [[u|e] s1]; simpl in Hq;
    [|intros [= <- <-]; by exists (s_wal s1); split; [|left]].
  unfold bind at 1, gets at 1. intros E. exists (s_wal s1). split; [done|].
  apply (save_ack _ archive None) in E as [(s2 & W2 & E2 & Hv) | (e & s2 & W2 & E2)]; [| |done].
  - injection E2 as <- <-. right. by rewrite <- W2.
  - injection E2 as <- <-. left. simpl. rewrite W2. apply with_ack_restore.
Qed.

Lemma RebindArchive_inv archive s :
  wal_inv (s_wal s) -> wal_inv (s_wal (RebindArchive archive s).2).
Proof.
  intros Hi. destruct (RebindArchive archive s) as [r s'] eqn:E.
  apply RebindArchive_effect in E as (w & Hq & H). destruct (Hq Hi) as (Hi' & _). simpl.
  destruct H as [-> | [W Hv]]; [done|]. rewrite W in *. by apply with_ack_inv.
Qed.

(** What the guards of [AckAudit] establish once it reaches the save. *)
Definition ack_allowed (m : metadata) (proposed : Cursor) (seen : Z) : Prop :=
  seen <= m_CoverageRevision m /\ opt_ge proposed (m_LastAssigned m) /\
  blocking_gaps m proposed seen = [] /\ blocking_unknown m proposed seen = [].

(** The outcome of an acknowledgement, after the sync that precedes it. *)
Definition ack_outcome (proposed : Cursor) (seen : Z) (w : WAL) (r : res walErr unit) (w' : WAL) : Prop :=
  (w' = w /\ is_ok r = false) \/
  (m_ServerACK (w_meta w) = Some proposed /\ quiet w w') \/
  (ack_allowed (w_meta w) proposed seen /\
   (forall a, m_ServerACK (w_meta w) = Some a -> cursor_lt a proposed) /\
   let w1 := with_ack (m_AcknowledgedArchive (w_meta w)) (Some proposed) w in
   validateMetadata (w_meta w1) = true /\ quiet w1 w').

Lemma delete_tail_effect s r s' :
  (let* _ := deleteACKedLocked in ret tt) s = (r, s') -> quiet (s_wal s) (s_wal s').
Proof.
  unfold bind. pose proof (deleteACKedLocked_quiet s) as Hq.
  destruct (deleteACKedLocked s) as [[v|e] s1]; by intros [= <- <-].
Qed.

Lemma syncLocked_gaps s : m_Gaps (w_meta (s_wal (syncLocked s).2)) = m_Gaps (w_meta (s_wal s)).
Proof.
  destruct (syncLocked s) as [r s'] eqn:E. simpl.
  by destruct (syncLocked_effect _ _ _ E) as [[-> _] | (seg & _ & -> & _)].
Qed.

Lemma AckAudit_effect archive proposed seen s r s' :
  AckAudit archive proposed seen s = (r, s') ->
  exists w, quiet (s_wal s) w /\ ack_outcome proposed seen w r (s_wal s') /\
    m_Gaps (w_meta w) = m_Gaps (w_meta (s_wal s)) /\
    (is_ok r = true -> w_closed (s_wal s) = false /\ m_AcknowledgedArchive (w_meta (s_wal s)) = archive).
Proof.
  unfold AckAudit, bind at 1, gets at 1.
  do 3 (case_if; [intros [= <- <-]; exists (s_wal s); by split_and!; [|left| |]|]). bool_to_prop.
  unfold bind at 1. pose proof (syncLocked_quiet s) as Hq. pose proof (syncLocked_gaps s) as Hg.
  destruct (syncLocked s) as [[u|e] s1]; simpl in Hq, Hg;
    [|intros [= <- <-]; exists (s_wal s1); by split_and!; [|left| |]].
  unfold bind at 1, gets at 1. intros E. exists (s_wal s1). split_and!; [done | | done | done].
  revert E. set (m := w_meta (s_wal s1)).
  set (cmp := match m_ServerACK m with Some _ => _ | None => _ end).
  case_if; [intros [= <- <-]; by left|]. case_if.
  { intros E. right. left. split; [|by eapply delete_tail_effect]. bool_to_prop. unfold cmp, m in *.
    destruct (m_ServerACK _) as [a|]; [|lia]. cursor_cases. by subst. }
  do 3 (case_if; [intros [= <- <-]; by left|]). intros E. bool_to_prop.
  apply (save_ack _ (m_AcknowledgedArchive m) (Some proposed)) in E
    as [(s2 & W2 & E2 & Hv) | (e & s2 & W2 & E2)]; [| |done].
  - right. right. fold m. split_and!.
    + split_and!; auto. destruct (m_LastAssigned m) as [la|]; [|done]. bool_to_prop. cursor_cases.
      by exists la.
    + intros a Ha. unfold cmp in *. rewrite Ha in *. apply compareCursor_gt. lia.
    + cbv zeta. rewrite <- W2. split; [done | by eapply delete_tail_effect].
  - left. injection E2 as <- <-. split; [|done]. simpl. rewrite W2. apply with_ack_restore.
Qed.

Lemma ack_outcome_safe proposed seen w r w' :
  opt_cursor_u64 (Some proposed) -> ack_outcome proposed seen w r w' -> safe w w'.
Proof.
  intros Hu [[-> _] | [[_ Hq] | (_ & Hlt & Hv & Hq)]]; [reflexivity | by apply (quiet_safe _) |].
  etransitivity; [|by apply (quiet_safe _)]. apply with_ack_safe; [done | | done].
  intros a Ha. exists proposed. split; [done|]. by apply cursor_lt_le, Hlt.
Qed.

Lemma AckAudit_safe archive proposed seen :
  opt_cursor_u64 (Some proposed) -> safe_step (AckAudit archive proposed seen).
Proof.
  intros Hu s. destruct (AckAudit archive proposed seen s) as [r s'] eqn:E. simpl.
  apply AckAudit_effect in E as (w & Hq & Ho & _). etransitivity; [by apply (quiet_safe _)|].
  by eapply ack_outcome_safe.
Qed.

(** ** The log as a state machine *)

Inductive wal_op :=
| OpAppend (now : time) (payload : list Z)
| OpSync
| OpClose
| OpTick (now : time)
| OpAck (archive : string) (proposed : Cursor) (seen : Z)
| OpRebind (archive : string)
| OpEnforce (now : time)
| OpReclaimACKed (now : time) (bytesNeeded : Z)
| OpReclaimUnacked (now : time) (bytesNeeded : Z)
| OpReclaim (now : time) (bytesNeeded : Z)
| OpRead (now : time) (start : Cursor) (limit : Z).

(** The state after an operation, whatever it returned. *)
Definition op_run (op : wal_op) (s : sys) : sys :=
  match op with
  | OpAppend now payload => (Append now payload s).2
  | OpSync => (Sync s).2
  | OpClose => (Close s).2
  | OpTick now => (tick now s).2
  | OpAck archive proposed seen => (AckAudit archive proposed seen s).2
  | OpRebind archive => (RebindArchive archive s).2
  | OpEnforce now => (EnforceLimits now s).2
  | OpReclaimACKed now n => (ReclaimACKedForDiskPressure now n s).2
  | OpReclaimUnacked now n => (ReclaimUnackedForDiskPressure now n s).2
  | OpReclaim now n => (ReclaimForDiskPressure now n s).2
  | OpRead now start limit => (ReadAuditFrom now start limit s).2
  end.

Definition ops_run (ops : list wal_op) (s : sys) : sys := foldl (fun s op => op_run op s) s ops.

(** The arguments are [uint64] values. *)
Definition op_ok (op : wal_op) : Prop :=
  match op with OpAck _ proposed _ => opt_cursor_u64 (Some proposed) | _ => True end.

Definition is_rebind (op : wal_op) : bool := match op with OpRebind _ => true | _ => false end.

(** An operation of the Agent's own goroutines: neither an acknowledgement nor a
    rebind. *)
Definition is_local (op : wal_op) : bool := match op with OpAck _ _ _ | OpRebind _ => false | _ => true end.

Lemma local_op_safe R `{!PreOrder R} op s : is_local op = true -> safe_by R (s_wal s) (s_wal (op_run op s)).
Proof.
  destruct op; simpl; intros Hr; try done.
  - by apply Append_safe.
  - by apply Sync_safe.
  - by apply Close_safe.
  - by apply tick_safe.
  - by apply EnforceLimits_safe.
  - by apply ReclaimACKed_safe.
  - by apply ReclaimUnacked_safe.
  - by apply Reclaim_safe.
  - by apply (safe_same R _ (ReadAuditFrom_same now start limit)).
Qed.

Lemma op_run_safe op s : op_ok op -> is_rebind op = false -> safe (s_wal s) (s_wal (op_run op s)).
Proof.
  intros Hok Hr. destruct (is_local op) eqn:E; [by apply local_op_safe; [split; apply _|]|].
  destruct op; try done. by apply AckAudit_safe.
Qed.

Lemma local_ops_safe R `{!PreOrder R} ops s :
  Forall (fun op => is_local op = true) ops -> safe_by R (s_wal s) (s_wal (ops_run ops s)).
Proof.
  intros Hl. revert s. induction Hl as [|op ops Hop Hops IH]; intros s; [reflexivity|].
  etransitivity; [by apply local_op_safe | by apply IH].
Qed.

Lemma op_run_inv op s : op_ok op -> wal_inv (s_wal s) -> wal_inv (s_wal (op_run op s)).
Proof.
  intros Hok Hi. destruct (is_rebind op) eqn:Er.
  - destruct op; try done. by apply RebindArchive_inv.
  - by apply (op_run_safe op s Hok Er Hi).
Qed.

Lemma ops_run_inv ops s : Forall op_ok ops -> wal_inv (s_wal s) -> wal_inv (s_wal (ops_run ops s)).
Proof.
  intros Hok. revert s. induction Hok as [|op ops Hop Hops IH]; intros s Hi; [done|].
  apply IH. by apply op_run_inv.
Qed.

Lemma ops_run_safe ops s :
  Forall op_ok ops -> Forall (fun op => is_rebind op = false) ops ->
  safe (s_wal s) (s_wal (ops_run ops s)).
Proof.
  intros Hok. revert s. induction Hok as [|op ops Hop Hops IH]; intros s Hr; [reflexivity|].
  apply Forall_cons in Hr as [Hr1 Hr2]. etransitivity; [by apply op_run_safe | by apply IH].
Qed.
