(* ===== verification/WalOpen.v ===== *)
(** * Audit WAL: what opening a directory establishes

    [Open] recovers the segments of a directory, reconciles the metadata with
    them and enforces retention. This file proves that a successful open, over
    any directory content and any pattern of failures, ends in a state that
    satisfies the invariant of [WalInv], and that it never hands out a cursor
    that is already in use. *)

From S2P Require Import Prelude Cursor WalFrame WalMeta WalNames Wal WalInv.

(** ** Bytes on disk *)

Definition byte_ok (b : Z) : Prop := 0 <= b < 256.

Definition disk_ok (d : disk) : Prop :=
  map_Forall (fun _ data => Forall byte_ok data) (d_files d) /\
  (forall m, d_meta d = Some m -> meta_u64 m).

Lemma get_be_range l acc :
  Forall byte_ok l -> 0 <= acc ->
  0 <= foldl (fun acc b => acc * 256 + b) acc l < (acc + 1) * 256 ^ lenZ l.
Proof.
  intros H. revert acc. induction H as [|b l Hb Hl IH]; intros acc Ha; simpl.
  - unfold lenZ. simpl. lia.
  - unfold byte_ok in Hb. specialize (IH (acc * 256 + b) ltac:(lia)).
    replace (lenZ (b :: l)) with (1 + lenZ l) by (unfold lenZ; simpl length; lia).
    rewrite Z.pow_add_r by (unfold lenZ; lia). split; [lia|].
    eapply Z.lt_le_trans; [apply IH|]. change (256 ^ 1) with 256.
    pose proof (Z.pow_nonneg 256 (lenZ l) ltac:(lia)). nia.
Qed.

Lemma get_be_8 l : Forall byte_ok l -> (length l <= 8)%nat -> u64_ok (get_be l).
Proof.
  intros H Hl. pose proof (get_be_range l 0 H ltac:(lia)) as [H1 H2].
  assert (256 ^ lenZ l <= 256 ^ 8) by (apply Z.pow_le_mono_r; unfold lenZ; lia).
  unfold u64_ok, max_u64, get_be. change (2 ^ 64) with (256 ^ 8). lia.
Qed.

Lemma readFrame_cursor_ok maxb rd f rd' :
  Forall byte_ok rd -> readFrame maxb rd = (Ok f, rd') ->
  cursor_ok (df_cursor f) /\ Forall byte_ok rd'.
Proof.
  intros Hb H. pose proof H as H0. apply readFrame_consumes in H0 as (_ & _ & _ & used & Hused).
  split; [|rewrite Hused in Hb; by apply Forall_app in Hb as [_ ?]].
  revert H. clear Hused. unfold readFrame, bind.
  destruct (readFull 4 rd) as [[lb|] rd1] eqn:E1; [|done].
  apply readFull_consumes in E1 as [-> _]; [|lia]. apply Forall_app in Hb as [_ Hb].
  case_if; [done|]. bool_to_prop. unfold envelopeHeaderBytes in *.
  destruct (readFull (get_be lb) rd1) as [[body|] rd2] eqn:E2; [|done].
  apply readFull_consumes in E2 as [-> _]; [|lia]. apply Forall_app in Hb as [Hb _].
  destruct (readFull 4 rd2) as [[cb|] rd3]; [|done]. do 2 (case_if; [done|]). intros [= <- <-].
  bool_to_prop.
  pose proof (get_be_8 (take 8 body) ltac:(by apply Forall_take) ltac:(rewrite length_take; lia)).
  pose proof (get_be_8 (take 8 (drop 8 body)) ltac:(by apply Forall_take, Forall_drop)
    ltac:(rewrite length_take; lia)).
  unfold cursor_ok, u64_ok in *. cbn [Incarnation Seq df_cursor] in *. lia.
Qed.

(** ** What the scan of one file returns *)

Record scanned (path : string) (seg : segment) (bytes : Z) : Prop := {
  sc_path : seg_path seg = path;
  sc_first : cursor_ok (seg_first seg);
  sc_last : cursor_ok (seg_last seg);
  sc_inc : Incarnation (seg_last seg) = Incarnation (seg_first seg);
  sc_seq : Seq (seg_first seg) <= Seq (seg_last seg);
  sc_bytes : 0 < bytes;
}.

Definition scan_state (path : string) (seg : option segment) (offset : Z) : Prop :=
  match seg with Some seg => scanned path seg offset | None => offset = 0 end.

Lemma scan_step path seg off f :
  scan_state path seg off -> cursor_ok (df_cursor f) -> 32 <= df_bytes f ->
  let seg0 := match seg with
              | Some s => s
              | None => mkSegment path (df_cursor f) (mkCursor 0 0) (df_at f) time_zero 0
              end in
  (negb (bool_decide (seg_last seg0 = mkCursor 0 0)) &&
   (negb (Incarnation (df_cursor f) =? Incarnation (seg_last seg0)) ||
    negb (Seq (df_cursor f) =? u64 (Seq (seg_last seg0) + 1))))%bool = false ->
  scan_state path
    (Some (mkSegment (seg_path seg0) (seg_first seg0) (df_cursor f) (seg_oldestAt seg0) (df_at f)
             (seg_bytes seg0))) (off + df_bytes f).
Proof.
  intros Hs Hc Hb. destruct seg as [seg|]; simpl in *.
  - destruct Hs as [H1 H2 H3 H4 H5 H6]. rewrite bool_decide_eq_false_2.
    2: { intros E. rewrite E in H3. destruct H3. simpl in *. lia. }
    simpl. intros Hn. bool_to_prop.
    assert (Seq (df_cursor f) = Seq (seg_last seg) + 1) as Hseq.
    { destruct (decide (Seq (seg_last seg) = max_u64)) as [E|E].
      - match goal with H : Seq _ = u64 _ |- _ => rewrite H, E end.
        exfalso. destruct Hc as [_ Hc]. match goal with H : Seq _ = u64 _ |- _ => rewrite H, E in Hc end.
        vm_compute in Hc. by destruct Hc.
      - match goal with H : Seq _ = u64 _ |- _ => rewrite H end.
        apply u64_id. destruct H3 as [_ ?]. unfold u64_ok. lia. }
    split; simpl; auto; lia.
  - intros _. subst. split; simpl; auto; lia.
Qed.

Lemma scanLoop_sound fuel data path rt maxb rd seg off seg' off' stop :
  Forall byte_ok rd -> scan_state path seg off ->
  scanLoop fuel data path rt maxb rd seg off = (seg', off', stop) ->
  stop = StopEOF \/ stop = StopRepair -> scan_state path seg' off'.
Proof.
  revert rd seg off. induction fuel as [|fuel IH]; intros rd seg off Hb Hs; cbn [scanLoop].
  { intros [= <- <- <-] [?|?]; done. }
  destruct (readFrame maxb rd) as [[f|e] rd'] eqn:Ef.
  - destruct (readFrame_cursor_ok _ _ _ _ Hb Ef) as [Hc Hb'].
    destruct (readFrame_consumes _ _ _ _ Ef) as (Hlen & _).
    pose proof (scan_step path seg off f Hs Hc Hlen) as Hstep. cbv zeta in *.
    case_if; [by intros [= <- <- <-] [?|?]|]. apply IH; [done | by apply Hstep].
  - destruct e; cbv zeta; repeat case_if; by intros [= <- <- <-].
Qed.

(** A segment object for a recovered file. *)
Definition recovered_seg (seg : segment) : Prop := seg_ok seg /\ 0 < seg_bytes seg.

Lemma scanned_ok path seg off :
  scanned path seg off -> parseSegmentName path = Some (seg_first seg) ->
  recovered_seg (mkSegment (seg_path seg) (seg_first seg) (seg_last seg) (seg_oldestAt seg)
                   (seg_newestAt seg) off).
Proof. intros [] Hp. split; [|done]. split; simpl; auto; [by subst | lia]. Qed.

(** ** Steps that only touch the directory *)

Definition keeps_disk {A} (m : walM A) : Prop := forall s, disk_ok (s_disk s) -> disk_ok (s_disk (m s).2).

Lemma keeps_disk_bind {A B} (m : walM A) (f : A -> walM B) :
  keeps_disk m -> (forall a, keeps_disk (f a)) -> keeps_disk (bind m f).
Proof.
  intros Hm Hf s Hs. unfold bind. specialize (Hm s Hs).
  destruct (m s) as [[a|e] s']; simpl in *; [by apply Hf | done].
Qed.
Lemma keeps_disk_same {A} (m : walM A) : (forall s, s_disk (m s).2 = s_disk s) -> keeps_disk m.
Proof. intros H s Hs. by rewrite H. Qed.

Lemma same_disk_syscall s : s_disk (syscall s).2 = s_disk s.
Proof. unfold syscall, bind, next_outcome. by destruct (s_outcomes s) as [|[n|] os]. Qed.
Lemma keeps_disk_syscall : keeps_disk syscall.
Proof. apply keeps_disk_same, same_disk_syscall. Qed.
Lemma keeps_disk_syncDirectory : keeps_disk syncDirectory.
Proof. apply keeps_disk_bind; [|intros]; apply keeps_disk_syscall. Qed.

Lemma keeps_disk_removeFile p : keeps_disk (removeFile p).
Proof.
  apply keeps_disk_bind; [apply keeps_disk_syscall|]. intros _ s [Hf Hm].
  unfold bind, gets. destruct (d_files (s_disk s) !! p); [|done]. split; [|done].
  simpl. by apply map_Forall_delete.
Qed.

(** ** Recovering one segment, and all of them *)

Definition opt_all {A} (P : A -> Prop) (o : option A) : Prop := forall x, o = Some x -> P x.

Lemma repair_disk path data offset stop :
  Forall byte_ok data -> keeps_disk (repair path data offset stop).
Proof.
  intros Hb. destruct stop; try (by apply keeps_disk_same).
  apply keeps_disk_bind; [apply keeps_disk_syscall|]. intros _.
  apply keeps_disk_bind; [|intros; apply keeps_disk_syscall]. intros s [Hf Hm]. split; [|done].
  simpl. apply map_Forall_insert_2; [by apply Forall_take | done].
Qed.

Lemma openSegment_sound path s r s' :
  disk_ok (s_disk s) -> openSegment path s = (r, s') ->
  disk_ok (s_disk s') /\ forall data, r = Ok data -> Forall byte_ok data.
Proof.
  intros Hd. unfold openSegment, bind at 1, gets at 1.
  destruct (d_files (s_disk s) !! path) as [data|] eqn:El; [|by intros [= <- <-]].
  unfold bind. pose proof (keeps_disk_syscall s Hd) as Hd1.
  destruct (syscall s) as [[u|e] s1]; intros [= <- <-]; (split; [done|]); [|done].
  intros d [= <-]. by eapply Hd.
Qed.

Lemma scanSegment_sound path rt maxb s r s' :
  disk_ok (s_disk s) -> scanSegment path rt maxb s = (r, s') ->
  disk_ok (s_disk s') /\ forall seg, r = Ok (Some seg) -> recovered_seg seg.
Proof.
  intros Hd. unfold scanSegment, bind at 1.
  destruct (openSegment path s) as [[data|e] s1] eqn:E1;
    apply openSegment_sound in E1 as [Hd1 Hbytes]; try done; [|by intros [= <- <-]].
  specialize (Hbytes data eq_refl). unfold bind at 1. pose proof (keeps_disk_syscall s1 Hd1) as Hd2.
  destruct (syscall s1) as [[u|e] s2]; [|by intros [= <- <-]]. simpl in Hd2.
  destruct (scanFrames data path rt maxb) as [[seg offset] stop] eqn:Esc.
  unfold bind at 1.
  pose proof (repair_disk path data offset stop Hbytes s2 Hd2) as Hd3.
  destruct (repair path data offset stop s2) as [[u2|e] s3] eqn:E3; [|by intros [= <- <-]].
  assert (scan_state path seg offset) as Hst.
  { eapply scanLoop_sound; [exact Hbytes | | exact Esc |]; [done|].
    destruct stop; auto; discriminate E3. }
  simpl in Hd3. destruct seg as [seg|].
  - destruct (parseSegmentName path) as [want|] eqn:Ep; [|by intros [= <- <-]].
    case_if; intros [= <- <-]; (split; [done|]); [done|]. intros x [= <-]. bool_to_prop. subst.
    by eapply scanned_ok.
  - case_if; [by intros [= <- <-]|]. intros E.
    assert (keeps_disk (removeFile path ;;; syncDirectory ;;; ret (None : option segment))) as Hk.
    { apply keeps_disk_bind; [apply keeps_disk_removeFile|]. intros _.
      apply keeps_disk_bind; [apply keeps_disk_syncDirectory|]. intros _. by apply keeps_disk_same. }
    specialize (Hk s3 Hd3). rewrite E in Hk. split; [done|]. intros x ->. revert E. unfold bind.
    by destruct (removeFile path s3) as [[] s4]; [destruct (syncDirectory s4) as [[] s5]|].
Qed.

Lemma scan_all_sound maxb paths s r s' :
  disk_ok (s_disk s) -> scan_all maxb paths s = (r, s') ->
  disk_ok (s_disk s') /\ forall segs, r = Ok segs -> Forall recovered_seg segs.
Proof.
  revert s r s'. induction paths as [|path paths IH]; intros s r s' Hd; cbn [scan_all].
  { intros [= <- <-]. split; [done|]. intros segs [= <-]. constructor. }
  unfold bind at 1. destruct (scanSegment path _ maxb s) as [[o|e] s1] eqn:E1;
    apply scanSegment_sound in E1 as [Hd1 Ho]; try done; [|by intros [= <- <-]].
  unfold bind at 1. destruct (scan_all maxb paths s1) as [[segs|e] s2] eqn:E2;
    apply IH in E2 as [Hd2 Hsegs]; try done; intros [= <- <-]; (split; [done|]); [|done].
  intros x [= <-]. specialize (Hsegs _ eq_refl). destruct o as [seg|]; [|done].
  constructor; [by apply Ho | done].
Qed.

Lemma scan_all_same maxb paths : same_wal (scan_all maxb paths).
Proof.
  induction paths as [|path paths IH]; cbn [scan_all]; [same_wal|].
  apply same_wal_bind; [|intros; same_wal]. unfold scanSegment.
  apply same_wal_bind; [unfold openSegment; same_wal|]. intros data.
  apply same_wal_bind; [same_wal|]. intros _. destruct (scanFrames _ _ _ _) as [[seg off] stop].
  unfold repair. same_wal.
Qed.

(** ** Reconciling the counters with the segments *)

Lemma segments_ordered_sorted prev segs :
  Forall seg_ok segs -> segments_ordered prev segs = true ->
  StronglySorted seg_before segs /\ (forall c, prev = Some c -> Forall (fun s => cursor_lt c (seg_first s)) segs).
Proof.
  intros Hok. revert prev. induction Hok as [|seg segs Hseg Hsegs IH]; intros prev H; [by split; [constructor|]|].
  cbn [segments_ordered] in H.
  assert (segments_ordered (Some (seg_last seg)) segs = true) as Hrest.
  { destruct prev as [c|]; [by case_if | done]. }
  destruct (IH _ Hrest) as [Hsort Hfirst]. specialize (Hfirst _ eq_refl).
  split; [by constructor|]. intros c ->. case_if; [done|]. bool_to_prop. cursor_cases.
  constructor; [done|]. apply Forall_forall. intros x Hx. rewrite Forall_forall in Hfirst.
  pose proof (seg_first_le_last _ Hseg). specialize (Hfirst x Hx). cursor_solve.
Qed.

Lemma sorted_last_max segs x y :
  Forall seg_ok segs -> StronglySorted seg_before segs -> last segs = Some y -> x ∈ segs ->
  cursor_le (seg_last x) (seg_last y).
Proof.
  intros Hok Hs Hl Hx. apply last_Some in Hl as [pre ->].
  apply elem_of_app in Hx as [Hx | ->%list_elem_of_singleton]; [|reflexivity].
  pose proof (segs_before_last _ _ _ Hs Hx) as Hb.
  apply Forall_app in Hok as [_ Hy]. rewrite Forall_singleton in Hy.
  pose proof (seg_first_le_last _ Hy). unfold seg_before in Hb. apply cursor_lt_le.
  by eapply cursor_lt_le_trans.
Qed.

Lemma reconcile_assigned m segs seg :
  Forall seg_ok segs -> StronglySorted seg_before segs -> seg ∈ segs ->
  opt_ge (seg_last seg) (m_LastAssigned (reconcile_meta m segs)).
Proof.
  intros Hok Hs Hin. destruct (last segs) as [y|] eqn:El.
  2: { apply last_None in El as ->. by apply elem_of_nil in Hin. }
  pose proof (sorted_last_max _ _ _ Hok Hs El Hin) as Hle. unfold reconcile_meta. rewrite El.
  simpl. destruct (m_LastAssigned m) as [la|]; [|by eexists].
  case_if; [by eexists|]. bool_to_prop. cursor_cases. eexists. split; [done|]. by etransitivity.
Qed.

Lemma reconcile_u64 m segs : meta_u64 m -> Forall seg_ok segs -> meta_u64 (reconcile_meta m segs).
Proof.
  intros (H1 & H2 & H3 & H4 & H5 & H6 & H7) Hok. unfold meta_u64, reconcile_meta. simpl.
  split_and!; auto; [case_if; [apply u64_range | done]|].
  destruct (last segs) as [y|] eqn:El; [|done]. simpl.
  assert (opt_cursor_u64 (Some (seg_last y))) as Hy.
  { apply last_Some in El as [pre ->]. apply Forall_app in Hok as [_ Hy].
    rewrite Forall_singleton in Hy. destruct (so_last _ Hy). intros x [= <-]. lia. }
  destruct (m_LastAssigned m); [by case_if | done].
Qed.

(** ** Retention only touches the coverage part of the metadata *)

Definition cov_only (w w' : WAL) : Prop :=
  w_options w' = w_options w /\ (exists r g, w_meta w' = m_set_coverage r g (w_meta w)) /\ w_segments w' `suffix_of` w_segments w.

#[export] Instance cov_only_refl : Reflexive cov_only.
Proof. intros w. split_and!; [done | | done]. exists (m_CoverageRevision (w_meta w)), (m_Gaps (w_meta w)). by destruct (w_meta w). Qed.
#[export] Instance cov_only_trans : Transitive cov_only.
Proof.
  intros a b c (Ho1 & (r1 & g1 & H1) & S1) (Ho2 & (r2 & g2 & H2) & S2). split_and!; [congruence | | by etransitivity]. exists r2, g2.
  rewrite H2, H1. done.
Qed.

Lemma deleteSegment_cov seg rest s :
  w_segments (s_wal s) = seg :: rest -> cov_only (s_wal s) (s_wal (deleteSegmentLocked seg s).2).
Proof.
  intros Hs. destruct (deleteSegmentLocked seg s) as [r s'] eqn:E. simpl.
  destruct (deleteSegmentLocked_effect _ _ _ _ _ Hs E) as [[-> _] | ->]; [reflexivity|].
  destruct (cov_only_refl (s_wal s)) as (H1 & H2 & _). split_and!; [exact H1 | exact H2 | simpl; rewrite Hs; by apply suffix_cons_r].
Qed.

Lemma deleteWithGap_cov seg rest reason s :
  w_segments (s_wal s) = seg :: rest -> cov_only (s_wal s) (s_wal (deleteWithGapLocked seg reason s).2).
Proof.
  intros Hs. destruct (deleteWithGapLocked seg reason s) as [r s'] eqn:E. simpl.
  destruct (deleteWithGapLocked_effect _ _ _ _ _ _ Hs E) as [[-> _] | (_ & _ & [[-> _] | ->])];
    [reflexivity | |]; (split_and!; [done | by eexists _, _ | first [done | simpl; rewrite Hs; by apply suffix_cons_r]]).
Qed.

Lemma deleteACKed_loop_cov fuel freed s : cov_only (s_wal s) (s_wal (deleteACKed_loop fuel freed s).2).
Proof.
  revert freed s. induction fuel as [|fuel IH]; intros freed s; cbn [deleteACKed_loop]; [reflexivity|].
  unfold bind at 1, gets at 1. destruct (w_segments (s_wal s)) as [|seg rest] eqn:Hs; [reflexivity|].
  do 2 (case_if; [reflexivity|]). unfold bind. pose proof (deleteSegment_cov _ _ _ Hs) as Hc.
  destruct (deleteSegmentLocked seg s) as [[u|e] s']; simpl in *; [|done]. etransitivity; [exact Hc | apply IH].
Qed.

Lemma retention_loop_cov fuel cutoff incoming freed s :
  cov_only (s_wal s) (s_wal (retention_loop fuel cutoff incoming freed s).2).
Proof.
  revert freed s. induction fuel as [|fuel IH]; intros freed s; cbn [retention_loop]; [reflexivity|].
  unfold bind at 1, gets at 1. destruct (w_segments (s_wal s)) as [|seg rest] eqn:Hs; [reflexivity|].
  do 2 (case_if; [reflexivity|]). unfold bind. pose proof (deleteWithGap_cov _ _ GapRetention _ Hs) as Hc.
  destruct (deleteWithGapLocked seg GapRetention s) as [[u|e] s']; simpl in *; [|done].
  etransitivity; [exact Hc | apply IH].
Qed.

Lemma enforceRetention_cov now incoming s :
  cov_only (s_wal s) (s_wal (enforceRetentionLocked now incoming s).2).
Proof.
  unfold enforceRetentionLocked, deleteACKedLocked, bind, gets.
  pose proof (deleteACKed_loop_cov (length (w_segments (s_wal s))) 0 s) as H1.
  destruct (deleteACKed_loop _ 0 s) as [[v|e] s1]; simpl in *; [|done].
  etransitivity; [exact H1 | apply retention_loop_cov].
Qed.

(** Counters that validate with one coverage validate with any valid one. *)
Lemma validate_swap r g m :
  validateMetadata (m_set_coverage r g m) = true -> coverage_ok m = true -> validateMetadata m = true.
Proof.
  unfold validateMetadata, coverage_ok. simpl. intros H Hc.
  repeat match type of H with context [if ?b then _ else _] => destruct b; [done|] end.
  rewrite !andb_true_iff in Hc. destruct Hc as [[[H1 H2] H3] H4].
  apply negb_true_iff in H1. by rewrite ?H1, ?H2, ?H3, ?H4.
Qed.

(** ** Continuity *)

(** The check of the recovered segments leaves no hole: a predicate that holds of
    what the metadata accounts for and of what the segments hold, holds of every
    cursor below the end of a segment. *)
Lemma continuity_covers meta (P : Cursor -> Prop) :
  validateMetadata meta = true -> meta_u64 meta -> (forall c, accounted meta c -> P c) ->
  forall segs prev, Forall seg_ok segs -> (forall seg c, seg ∈ segs -> seg_has seg c -> P c) ->
  (forall p, prev = Some p -> seg_ok p /\ forall seq, 1 <= seq <= Seq (seg_last p) -> P (mkCursor (Incarnation (seg_last p)) seq)) ->
  continuity_ok meta prev segs = true ->
  forall seg seq, seg ∈ segs -> 1 <= seq <= Seq (seg_last seg) -> P (mkCursor (Incarnation (seg_first seg)) seq).
Proof.
  intros Hv Hu Hacc. pose proof (proj1 (validateMetadata_iff _ Hu) Hv) as Hm.
  assert (forall inc from until, 1 <= from -> until <= max_u64 -> rangeExplained meta inc from until = true -> forall seq, from <= seq < until -> P (mkCursor inc seq)) as Hrange.
  { intros inc from until Hf Hun Hr seq Hs. apply Hacc. revert seq Hs. apply rangeExplained_exact; try done; [apply Hu|].
    intros ack Ha. destruct Hm as (_ & _ & _ & _ & _ & _ & Hack & _). by apply (Hack ack Ha). }
  induction segs as [|x segs IH]; intros prev Hok Hsegs Hprev Hc seg seq Hin Hseq; [by apply elem_of_nil in Hin|].
  apply Forall_cons in Hok as [Hx Hok]. cbn [continuity_ok] in Hc. apply andb_true_iff in Hc as [Hc Hrest].
  assert (forall q, 1 <= q <= Seq (seg_last x) -> P (mkCursor (Incarnation (seg_first x)) q)) as Hhere.
  { intros q Hq. destruct (decide (Seq (seg_first x) <= q)); [apply (Hsegs x); [by left | split; simpl; [done | lia]]|].
    destruct (so_first _ Hx) as [_ Hfx]. destruct prev as [p|].
    - destruct (Hprev p eq_refl) as [Hp Hbelow]. destruct (so_last _ Hp) as [_ Hlp]. case_if; bool_to_prop.
      + destruct (decide (q <= Seq (seg_last p))); [replace (Incarnation (seg_first x)) with (Incarnation (seg_last p)) by done; apply Hbelow; lia|].
        rewrite u64_id in * by (unfold u64_ok; lia). bool_cases; try lia. eapply Hrange; [| | eassumption |]; lia.
      + bool_cases; try lia. eapply Hrange; [| | eassumption |]; lia.
    - bool_cases; bool_to_prop; try lia. bool_cases; try lia. eapply Hrange; [| | eassumption |]; lia. }
  apply elem_of_cons in Hin as [->|Hin]; [by apply Hhere|].
  apply (IH (Some x)); try done; [by intros y c Hy; apply Hsegs; right|]. intros p [= <-]. split; [done|]. rewrite (so_inc _ Hx). done.
Qed.

(** ** Open *)

(** What recovery leaves in memory before retention runs. *)
Record recovered (w : WAL) : Prop := {
  rc_segs : Forall recovered_seg (w_segments w);
  rc_total : w_totalBytes w = sum_by seg_bytes (w_segments w);
  rc_active : w_active w = None;
  rc_closed : w_closed w = false;
}.

Lemma recoverSegments_sound s r s' :
  disk_ok (s_disk s) -> recovered (s_wal s) -> recoverSegments s = (r, s') ->
  disk_ok (s_disk s') /\ (is_ok r = true -> recovered (s_wal s')) /\
  w_meta (s_wal s') = w_meta (s_wal s) /\ w_options (s_wal s') = w_options (s_wal s) /\
  (is_ok r = true -> continuity_ok (w_meta (s_wal s')) None (w_segments (s_wal s')) = true).
Proof.
  intros Hd Hr. unfold recoverSegments, bind at 1, gets at 1, bind at 1.
  pose proof (keeps_disk_syscall s Hd) as Hd1.
  destruct (syscall s) as [[u|e] s1] eqn:E1; pose proof (run_same _ _ _ _ same_wal_syscall E1) as W1;
    simpl in Hd1; [|intros [= <- <-]; by rewrite W1].
  unfold bind at 1, gets at 1. case_if; [intros [= <- <-]; by rewrite W1|].
  unfold bind at 1. destruct (scan_all _ _ s1) as [[segs|e] s2] eqn:E2;
    pose proof (run_same _ _ _ _ (scan_all_same _ _) E2) as W2;
    apply scan_all_sound in E2 as [Hd2 Hsegs]; try done; [|intros [= <- <-]; by rewrite W2, W1].
  specialize (Hsegs _ eq_refl). unfold bind at 1, modify at 1, bind at 1, gets at 1.
  destruct Hr. destruct (continuity_ok _ _ _) eqn:Hcont; intros [= <- <-]; simpl in *; rewrite W2, W1 in *; split_and!; try done.
  intros _. split; simpl; auto.
  - by apply Forall_app.
  - rewrite sum_by_app. lia.
Qed.

Lemma loadMetadata_ok agentID inc stored m :
  str_empty agentID = false -> u64_ok inc -> inc <> 0 -> (forall m, stored = Some m -> meta_u64 m) ->
  loadMetadata agentID inc stored = Ok m ->
  meta_u64 m /\ validateMetadata m = true /\ m_CurrentIncarnation m = inc /\
  forall m0, stored = Some m0 -> m_LastAssigned m = m_LastAssigned m0 /\ (forall c, accounted m0 c -> accounted m c).
Proof.
  intros Hid Hinc Hnz Hst. unfold loadMetadata. destruct stored as [m0|].
  - specialize (Hst m0 eq_refl). do 3 (case_if; [done|]). bool_to_prop.
    set (m1 := if m_CurrentIncarnation m0 <? inc then _ else m0).
    assert (meta_u64 m1 /\ m_CurrentIncarnation m1 = inc /\ m_LastAssigned m1 = m_LastAssigned m0 /\ (forall c, accounted m0 c -> accounted m1 c))
      as (H1 & H2 & H3 & H4).
    { unfold m1. case_if; bool_to_prop; [|split_and!; [done | lia | done | done]].
      destruct Hst as (? & ? & ? & ? & ? & ? & ?). split_and!; [|done|done|done].
      unfold meta_u64, u64_ok, max_u64 in *. simpl. split_and!; auto; lia. }
    clearbody m1. case_if; [|done]. intros [= <-]. split_and!; auto. by intros ? [= <-].
  - intros [= <-]. split_and!; [| | done | done].
    + unfold meta_u64, u64_ok, max_u64 in *. simpl. split_and!; try done; lia.
    + unfold validateMetadata. simpl. rewrite Hid. unfold u64_ok in Hinc.
      by replace (inc =? 0) with false by lia.
Qed.

Lemma saveMetadata_disk m s s' : saveMetadata m s = (Ok tt, s') -> d_meta (s_disk s') = Some m.
Proof.
  unfold saveMetadata. case_if; [done|]. unfold bind.
  do 6 (match goal with |- context [syscall ?x] => destruct (syscall x) as [[[]|] ?]; [|done] end).
  unfold modify, syncDirectory, bind. set (s7 := upd_disk _ _).
  pose proof (same_disk_syscall s7) as H1. destruct (syscall s7) as [[u|] s8]; [|done].
  intros E. pose proof (same_disk_syscall s8) as H2. rewrite E in H2. simpl in *. by rewrite H2, H1.
Qed.

(** The recovered log, with its counters reconciled, satisfies the invariant as
    soon as some coverage makes its metadata valid. *)
Lemma reconciled_inv w r g :
  recovered w -> segments_ordered None (w_segments w) = true ->
  meta_u64 (w_meta w) -> coverage_ok (w_meta w) = true ->
  let m := reconcile_meta (w_meta w) (w_segments w) in
  validateMetadata (m_set_coverage r g m) = true -> wal_inv (set_meta m w).
Proof.
  intros [Hsegs Htot Hact Hcl] Hord Hu Hcov m Hv.
  assert (Forall seg_ok (w_segments w)) as Hok by (eapply Forall_impl; [exact Hsegs|]; by intros ? [? _]).
  assert (Forall (fun seg => 0 < seg_bytes seg) (w_segments w)) as Hpos
    by (eapply Forall_impl; [exact Hsegs|]; by intros ? [_ ?]).
  destruct (segments_ordered_sorted _ _ Hok Hord) as [Hsort _].
  assert (meta_u64 m) as Hum by (by apply reconcile_u64).
  apply validate_swap in Hv; [|exact Hcov]. apply validateMetadata_iff in Hv; [|done].
  split; simpl; auto.
  - apply Forall_forall. intros seg Hin _. by apply reconcile_assigned.
  - unfold active_ok. simpl. rewrite Hact. by right.
Qed.

Lemma reconcile_assigned_ge m segs la :
  m_LastAssigned m = Some la -> opt_ge la (m_LastAssigned (reconcile_meta m segs)).
Proof.
  intros H. unfold reconcile_meta. simpl. rewrite H. destruct (last segs) as [y|]; simpl; [|by eexists].
  case_if; [|by eexists]. bool_to_prop. cursor_cases. eexists. split; [done|]. by apply cursor_lt_le.
Qed.

Lemma Open_sound agentID inc options defaults now s s' :
  disk_ok (s_disk s) -> u64_ok inc -> Open agentID inc options defaults now s = (Ok tt, s') ->
  wal_inv (s_wal s') /\ m_CurrentIncarnation (w_meta (s_wal s')) = inc /\
  d_meta (s_disk s') = Some (w_meta (s_wal s')) /\
  (forall m0 la, d_meta (s_disk s) = Some m0 -> m_LastAssigned m0 = Some la ->
    opt_ge la (m_LastAssigned (w_meta (s_wal s')))) /\
  Forall (fun seg => 0 < seg_bytes seg) (w_segments (s_wal s')) /\
  (forall m0 c, d_meta (s_disk s) = Some m0 -> accounted m0 c -> kept (s_wal s') c) /\
  (forall seg seq, seg ∈ w_segments (s_wal s') -> 1 <= seq <= Seq (seg_last seg) -> kept (s_wal s') (mkCursor (Incarnation (seg_first seg)) seq)).
Proof.
  intros Hd Hinc. unfold Open. case_if; [done|]. bool_to_prop. unfold bind at 1 2 3.
  do 3 (match goal with |- context [syscall ?x] =>
    let H := fresh "Hdk" in pose proof (same_disk_syscall x) as H;
    let t := fresh "t" in destruct (syscall x) as [[[]|] t]; [|done]; simpl in H end).
  unfold bind at 1, gets at 1. rewrite Hdk1, Hdk0, Hdk. unfold bind at 1, of_res at 1.
  destruct (loadMetadata agentID inc (d_meta (s_disk s))) as [m|] eqn:El; [|done].
  apply loadMetadata_ok in El as (Hu & Hv & Hci & Hla); [|done..|by apply Hd].
  unfold bind at 1, modify at 1. set (s0 := upd_wal _ _). unfold bind at 1.
  destruct (recoverSegments s0) as [[[]|] s3] eqn:E3; [|done].
  apply recoverSegments_sound in E3 as (Hd3 & Hr3 & Hm3 & _ & Hcont); [| |by split].
  2: { simpl. by rewrite Hdk1, Hdk0, Hdk. }
  specialize (Hr3 eq_refl). specialize (Hcont eq_refl). simpl in Hm3. unfold reconcileRecoveredState, bind at 1, bind at 1, gets at 1.
  case_if; [done|]. bool_to_prop. unfold modify at 1. set (s4 := upd_wal _ s3).
  unfold bind at 1. pose proof (enforceRetention_cov now 0 s4) as (_ & (r & g & Hm5) & Hsuf).
  pose proof (enforceRetention_quiet now 0 s4) as Hq.
  destruct (enforceRetentionLocked now 0 s4) as [[v|] s5]; [|done]. simpl in Hm5, Hq, Hsuf.
  unfold bind at 1, gets at 1. intros E6.
  pose proof (run_same _ _ _ _ (same_wal_saveMetadata _) E6) as W6.
  pose proof (saveMetadata_disk _ _ _ E6) as D6. apply saveMetadata_valid in E6. rewrite Hm5 in E6.
  assert (wal_inv (s_wal s4)) as Hi4.
  { eapply (reconciled_inv (s_wal s3)); [done | done | by rewrite Hm3 | | exact E6].
    rewrite Hm3. by apply validate_coverage. }
  destruct (Hq Hi4) as (Hi5 & Hk5 & Hf5). rewrite W6.
  assert (forall c, accounted m c -> kept (s_wal s4) c) as Hacc by (intros c Hc; left; simpl; rewrite Hm3; exact Hc).
  split_and!; [done | | done | | | |].
  - rewrite Hm5. simpl. by rewrite Hm3.
  - intros m0 la Hm0 Hla0. rewrite Hm5. simpl. apply reconcile_assigned_ge. rewrite Hm3.
    by rewrite (proj1 (Hla m0 Hm0)).
  - pose proof (wi_active _ Hi5) as Ha. unfold active_ok in Ha.
    assert (w_active (s_wal s4) = None /\ w_closed (s_wal s4) = false) as [Ha4 Hc4] by (by destruct Hr3).
    assert (w_active (s_wal s5) = None) as E5 by (destruct (wf_active _ _ Hf5) as [H5|H5]; rewrite H5; [exact Ha4 | done]).
    assert (w_closed (s_wal s5) = false) as C5 by (rewrite (wf_closed _ _ Hf5); exact Hc4).
    rewrite E5, C5 in Ha. by destruct Ha.
  - intros m0 c Hm0 Hc. by apply Hk5, Hacc, (Hla m0 Hm0).
  - intros seg seq Hin Hseq. apply Hk5. destruct Hr3 as [Hsegs _ _ _].
    apply (continuity_covers m (kept (s_wal s4)) Hv Hu Hacc (w_segments (s_wal s3)) None);
      [eapply Forall_impl; [exact Hsegs|]; by intros ? [? _] | | by intros ? | by rewrite <- Hm3 | | done].
    + intros x c Hx Hc. right. exists x. split_and!; [done | | done]. rewrite Forall_forall in Hsegs. by apply Hsegs.
    + destruct Hsuf as [pre Hpre]. simpl in Hpre. rewrite Hpre. apply elem_of_app. by right.
Qed.
