(* ===== verification/WalSpec.v ===== *)
(** * Audit WAL: what the log promises

    The claims about the log as a whole: every reachable state satisfies the
    invariant, records are never lost silently, what append, acknowledgement
    and open guarantee, and two executions in which the log does not reopen. *)

From S2P Require Import Prelude Cursor WalFrame WalMeta WalNames Wal WalInv WalProps WalOpen.

(** ** Reachable states *)

Inductive log_reachable : sys -> Prop :=
| reach_open agentID inc options defaults now s s' :
    disk_ok (s_disk s) -> u64_ok inc ->
    Open agentID inc options defaults now s = (Ok tt, s') -> log_reachable s'
| reach_op op s : log_reachable s -> op_ok op -> log_reachable (op_run op s).

Lemma log_reachable_inv s : log_reachable s -> wal_inv (s_wal s).
Proof.
  induction 1 as [agentID inc options defaults now s s' Hd Hi E | op s Hr IH Hok].
  - by apply Open_sound in E as (? & _).
  - by apply op_run_inv.
Qed.

Lemma log_reachable_ops ops s : log_reachable s -> Forall op_ok ops -> log_reachable (ops_run ops s).
Proof.
  intros Hr Hok. revert s Hr. induction Hok as [|op ops Hop Hops IH]; intros s Hr; [done|].
  apply IH. by apply reach_op.
Qed.

(** ** A concrete log for the witnesses *)

Definition demo_options : Options := mkOptions 1000 1000 1 1.
Definition demo_start (outcomes : list outcome) : sys :=
  mkSys (fresh_wal "" demo_options (mkMeta 0 "" 0 0 None None "" None 0 [] [])) (mkDisk None ∅) outcomes.
Definition demo_open : sys := (Open "agent" 1 demo_options demo_options 0 (demo_start [])).2.
Definition demo_log : sys :=
  ops_run [OpAppend 1 [1; 2; 3]; OpAppend 2 [4; 5; 6]; OpAppend 3 [7]; OpRebind "A"] demo_open.

Lemma demo_open_reachable : log_reachable demo_open.
Proof.
  apply (reach_open "agent" 1 demo_options demo_options 0 (demo_start [])).
  - split; [apply map_Forall_empty | done].
  - done.
  - vm_compute. reflexivity.
Qed.

Lemma demo_log_reachable : log_reachable demo_log.
Proof. apply log_reachable_ops; [apply demo_open_reachable | repeat constructor]. Qed.

(** ** Claims *)

(** Every reachable state of the log - any sequence of operations after a
    successful open, with any pattern of file-system failures, torn writes and
    cancelled contexts - has valid metadata, segments in strictly increasing
    cursor order with exact byte totals, and no cursor at or beyond the next
    one to be assigned in a written segment. *)
Theorem wal_invariant s :
  log_reachable s ->
  wal_inv (s_wal s) /\ validateMetadata (w_meta (s_wal s)) = true /\
  forall seg, seg ∈ w_segments (s_wal s) -> 0 < seg_bytes seg ->
    cursor_lt (seg_last seg) (next_cursor (w_meta (s_wal s))).
Proof.
  intros Hr. pose proof (log_reachable_inv s Hr) as Hi. split_and!; [done | |].
  - apply validateMetadata_iff; by destruct Hi.
  - intros seg Hin Hb. by apply written_lt_next.
Qed.

Lemma wal_invariant_witness : validateMetadata (w_meta (s_wal demo_log)) = true.
Proof. apply (wal_invariant demo_log). apply demo_log_reachable. Defined.

(** A cursor the Server has acknowledged. *)
Definition acked (w : WAL) (c : Cursor) : Prop := exists ack, m_ServerACK (w_meta w) = Some ack /\ cursor_le c ack.

(** A rebind forgets nothing but the acknowledgement. *)
Lemma rebind_kept archive s c : wal_inv (s_wal s) ->
  let s' := (RebindArchive archive s).2 in
  (kept (s_wal s) c -> kept (s_wal s') c \/ acked (s_wal s) c) /\ (lost (w_meta (s_wal s)) c -> lost (w_meta (s_wal s')) c) /\
  next_cursor (w_meta (s_wal s')) = next_cursor (w_meta (s_wal s)).
Proof.
  intros Hi s'. unfold s'. destruct (RebindArchive archive s) as [r s1] eqn:E. apply RebindArchive_effect in E as (w & Hq & H). simpl.
  destruct (Hq Hi) as (Hi' & Hk & Hf). destruct H as [-> | [-> _]]; simpl.
  - split_and!; [by left; apply Hk | apply (wf_lost _ _ Hf) | apply (wf_next _ _ Hf)].
  - split_and!; [| intros H; by apply (wf_lost _ _ Hf) | apply (wf_next _ _ Hf)].
    intros H. destruct (Hk c H) as [[Hu|[(ack & Ha & Hle)|Hg]]|Hseg]; [by left; left; left | right | by left; left; right; right | by left; right].
    exists ack. by rewrite <- (wf_ack _ _ Hf).
Qed.

(** One operation, any: what it may do to a cursor. *)
Lemma op_run_kept op s c : op_ok op -> wal_inv (s_wal s) ->
  (kept (s_wal s) c -> kept (s_wal (op_run op s)) c \/ acked (s_wal s) c) /\
  (lost (w_meta (s_wal s)) c -> lost (w_meta (s_wal (op_run op s))) c) /\
  (cursor_le (next_cursor (w_meta (s_wal s))) c -> cursor_lt c (next_cursor (w_meta (s_wal (op_run op s)))) -> kept (s_wal (op_run op s)) c).
Proof.
  intros Hok Hi. destruct (is_rebind op) eqn:Er.
  - destruct op; try done. cbn [op_run]. destruct (rebind_kept archive s c Hi) as (H1 & H2 & H3). split_and!; [done | done|]. by apply no_new.
  - destruct (op_run_safe op s Hok Er Hi) as [_ H1 _ H2 _ H3]. split_and!; [by left; apply H1 | apply H2 | apply H3].
Qed.

(** [C17] No silent loss. Whatever operations run after any successful open -
    append, sync, close, the background tick, acknowledgement, archive rebind,
    retention, disk-pressure reclaim, reads - and whichever calls fail: a cursor
    that was kept before, or that is assigned by one of the operations, is in the
    end in a live segment, recorded as lost in the coverage, acknowledged by the
    Server, or was acknowledged in the course of the run (a rebind resets the
    acknowledgement); a recorded loss is never forgotten. Without a rebind the
    cursor is kept in the end, and the acknowledged position never moves back. *)
Theorem no_silent_loss s ops c :
  log_reachable s -> Forall op_ok ops ->
  (kept (s_wal s) c \/ (cursor_le (next_cursor (w_meta (s_wal s))) c /\ cursor_lt c (next_cursor (w_meta (s_wal (ops_run ops s))))) ->
     kept (s_wal (ops_run ops s)) c \/ exists pre, pre `prefix_of` ops /\ acked (s_wal (ops_run pre s)) c) /\
  (lost (w_meta (s_wal s)) c -> lost (w_meta (s_wal (ops_run ops s))) c) /\
  (Forall (fun op => is_rebind op = false) ops ->
     (kept (s_wal s) c -> kept (s_wal (ops_run ops s)) c) /\
     ack_le (m_ServerACK (w_meta (s_wal s))) (m_ServerACK (w_meta (s_wal (ops_run ops s))))).
Proof.
  intros Hr Hok. apply log_reachable_inv in Hr. split_and!.
  - revert s Hr. induction Hok as [|op ops Hop Hops IH]; intros s Hi.
    { intros [?|[? ?]]; [by left|]. by edestruct cursor_lt_not_le. }
    cbn [ops_run foldl]. fold (ops_run ops (op_run op s)). destruct (op_run_kept op s c Hop Hi) as (H1 & _ & H3). specialize (IH _ (op_run_inv op s Hop Hi)). intros H.
    assert ((kept (s_wal (op_run op s)) c \/ (cursor_le (next_cursor (w_meta (s_wal (op_run op s)))) c /\
      cursor_lt c (next_cursor (w_meta (s_wal (ops_run ops (op_run op s))))))) \/ acked (s_wal s) c) as [Hn|Ha].
    { destruct H as [Hk|[Hge Hlt]]; [destruct (H1 Hk); auto|]. left.
      destruct (decide (cursor_lt c (next_cursor (w_meta (s_wal (op_run op s)))))); [left; by apply H3|]. right. split; [by apply cursor_nlt_le | done]. }
    + destruct (IH Hn) as [?|(pre & Hp & Ha)]; [by left | right]. exists (op :: pre). split; [by apply prefix_cons | done].
    + right. exists []. split; [apply prefix_nil | done].
  - revert s Hr. induction Hok as [|op ops Hop Hops IH]; intros s Hi Hl; [done|].
    apply IH; [by apply op_run_inv|]. by apply (op_run_kept op s c Hop Hi).
  - intros Hnr. destruct (ops_run_safe ops s Hok Hnr Hr) as [_ H1 H2]. auto.
Qed.

Definition demo_ops : list wal_op :=
  [OpAck "A" (mkCursor 1 1) 0; OpReclaim 10 50; OpEnforce 5000; OpAppend 5001 [9]].

Lemma no_silent_loss_witness : kept (s_wal (ops_run demo_ops demo_log)) (mkCursor 1 2).
Proof.
  apply (no_silent_loss demo_log demo_ops (mkCursor 1 2)).
  - apply demo_log_reachable.
  - repeat apply Forall_cons_2; try done; try apply Forall_nil_2. intros x [= <-]. simpl. unfold max_u64. lia.
  - repeat constructor.
  - right. exists (mkSegment (segmentName (mkCursor 1 2)) (mkCursor 1 2) (mkCursor 1 2) 2 2 35).
    split; [|split; [done | split; simpl; lia]]. vm_compute. right. left.
Defined.

(** A successful append hands out the next cursor, leaves the record in
    the log, moves the next cursor forward by exactly one sequence number
    without overflow, and keeps the log within [MaxBytes]; a failed append
    assigns no cursor. *)
Theorem append_contract now payload s r s' :
  log_reachable s -> Append now payload s = (r, s') ->
  append_post now payload (s_wal s) (s_wal s') r.
Proof. intros Hr E. by apply appendLocked_post in E as (_ & _ & _ & ?); [|apply log_reachable_inv]. Qed.

Lemma append_contract_witness :
  append_post 4 [8; 8] (s_wal demo_log) (s_wal (Append 4 [8; 8] demo_log).2)
    (Append 4 [8; 8] demo_log).1.
Proof.
  apply (append_contract 4 [8; 8] demo_log).
  - apply demo_log_reachable.
  - by destruct (Append 4 [8; 8] demo_log).
Defined.

(** A gap that covers a newly acknowledged cursor intersects the interval. *)
Lemma gapIntersects_covers g old proposed c :
  gap_u64 g -> gap_covers g c -> (forall a, old = Some a -> cursor_lt a c) -> cursor_le c proposed ->
  gapIntersectsACK g old proposed = true.
Proof.
  intros Hu [Hi Hs] Hold Hp. unfold gap_u64 in Hu. unfold gapIntersectsACK.
  case_if.
  - bool_to_prop. cursor_cases. exfalso. unfold cursor_lt, cursor_le in *. simpl in *. lia.
  - destruct old as [a|]; [|done]. specialize (Hold a eq_refl). rewrite Z.gtb_ltb. apply Z.ltb_lt.
    apply Z.gt_lt, compareCursor_gt. rewrite u64_id by (unfold u64_ok; lia).
    unfold cursor_lt in *. simpl. lia.
Qed.

(** A successful acknowledgement sets the acknowledged position to the
    proposed cursor; it never moves backwards, never passes the last assigned
    cursor, names the bound archive, and never crosses a loss the Server has
    not seen: every gap that covers a newly acknowledged cursor has a loss
    revision at or below the coverage revision the Server reported. *)
Theorem ack_contract archive proposed seen s s' :
  log_reachable s -> opt_cursor_u64 (Some proposed) ->
  AckAudit archive proposed seen s = (Ok tt, s') ->
  m_ServerACK (w_meta (s_wal s')) = Some proposed /\
  ack_le (m_ServerACK (w_meta (s_wal s))) (Some proposed) /\
  opt_ge proposed (m_LastAssigned (w_meta (s_wal s))) /\
  m_AcknowledgedArchive (w_meta (s_wal s)) = archive /\
  forall g c, g ∈ m_Gaps (w_meta (s_wal s)) -> gap_covers g c ->
    (forall a, m_ServerACK (w_meta (s_wal s)) = Some a -> cursor_lt a c) -> cursor_le c proposed ->
    g_LastLossRevision g <= seen.
Proof.
  intros Hr Hu E. pose proof (log_reachable_inv s Hr) as Hi.
  apply AckAudit_effect in E as (w & Hq & Ho & Hg & Hok). destruct (Hok eq_refl) as [_ Harch].
  destruct (Hq Hi) as (Hiw & _ & Hf). rewrite <- (wf_ack _ _ Hf), <- (wf_assigned _ _ Hf), <- Hg.
  destruct Ho as [[_ ?] | [[Hack Hq2] | (Hal & Hlt & Hv & Hq2)]]; [done | |].
  - destruct (Hq2 Hiw) as (_ & _ & Hf2). rewrite (wf_ack _ _ Hf2), Hack.
    split_and!; [done | done | | done |].
    + destruct (wi_meta _ Hiw) as (_ & _ & _ & _ & _ & _ & _ & Hc & _). unfold counters_valid in Hc.
      destruct (m_LastAssigned (w_meta w)) as [la|]; [|destruct Hc as (_ & Hc & _); congruence].
      destruct Hc as (_ & _ & _ & Hc). exists la. split; [done | by apply Hc].
    + intros g c _ _ Hlt Hle. specialize (Hlt _ eq_refl).
      pose proof (cursor_lt_le_trans _ _ _ Hlt Hle) as Hirr. by apply (irreflexivity cursor_lt) in Hirr.
  - destruct Hal as (_ & Hla & Hbg & _).
    destruct (Hq2 (with_ack_inv _ _ _ Hu Hv Hiw)) as (_ & _ & Hf2).
    split_and!; [by rewrite (wf_ack _ _ Hf2) | | done | done |].
    + intros a Ha. exists proposed. split; [done|]. by apply cursor_lt_le, Hlt.
    + intros g c Hin Hcov Hold Hle. destruct (decide (g_LastLossRevision g <= seen)) as [|Hn]; [done|].
      exfalso. assert (g ∈ blocking_gaps (w_meta w) proposed seen) as Hb; [|rewrite Hbg in Hb; by apply elem_of_nil in Hb].
      unfold blocking_gaps. apply list_elem_of_In, List.filter_In. split; [by apply list_elem_of_In|].
      rewrite andb_true_iff. split; [lia|]. eapply gapIntersects_covers; eauto.
      destruct (wi_u64 _ Hiw) as (_ & _ & _ & _ & _ & _ & Hgs). rewrite Forall_forall in Hgs. by apply Hgs.
Qed.

Lemma ack_contract_witness :
  m_ServerACK (w_meta (s_wal (AckAudit "A" (mkCursor 1 2) 0 demo_log).2)) = Some (mkCursor 1 2).
Proof.
  apply (ack_contract "A" (mkCursor 1 2) 0 demo_log).
  - apply demo_log_reachable.
  - intros x [= <-]. simpl. unfold max_u64. lia.
  - vm_compute. reflexivity.
Defined.

(** [C18] Opening a directory, whatever its content, either fails or ends in a
    state that satisfies the invariant, bound to the new incarnation, with the
    metadata on disk equal to the metadata in memory. Everything the stored
    metadata accounted for is still accounted for; below the end of every segment
    there is no hole: each cursor of its incarnation is in a live segment,
    acknowledged or recorded as lost; and the next cursor is beyond every record in
    the directory and everything the stored metadata had assigned, so no cursor is
    ever handed out twice. *)
Theorem open_contract agentID inc options defaults now s s' :
  disk_ok (s_disk s) -> u64_ok inc ->
  Open agentID inc options defaults now s = (Ok tt, s') ->
  wal_inv (s_wal s') /\ m_CurrentIncarnation (w_meta (s_wal s')) = inc /\
  d_meta (s_disk s') = Some (w_meta (s_wal s')) /\
  (forall m0 c, d_meta (s_disk s) = Some m0 -> accounted m0 c -> kept (s_wal s') c) /\
  (forall seg seq, seg ∈ w_segments (s_wal s') -> 1 <= seq <= Seq (seg_last seg) ->
     kept (s_wal s') (mkCursor (Incarnation (seg_first seg)) seq)) /\
  (forall seg, seg ∈ w_segments (s_wal s') -> cursor_lt (seg_last seg) (next_cursor (w_meta (s_wal s')))) /\
  (forall m0 la, d_meta (s_disk s) = Some m0 -> m_LastAssigned m0 = Some la ->
     cursor_lt la (next_cursor (w_meta (s_wal s')))).
Proof.
  intros Hd Hinc E. apply Open_sound in E as (Hi & Hci & Hdm & Hla & Hpos & Hacc & Hbelow); try done.
  split_and!; auto.
  - intros seg Hin. apply written_lt_next; [done | done |]. rewrite Forall_forall in Hpos. by apply Hpos.
  - intros m0 la Hm0 Hla0. destruct (Hla m0 la Hm0 Hla0) as (x & Hx & Hle).
    eapply cursor_le_lt_trans; [exact Hle|]. apply assigned_lt_next; [by destruct Hi | done].
Qed.

Definition demo_closed : sys := ops_run [OpClose] demo_log.

Lemma open_contract_witness :
  m_CurrentIncarnation (w_meta (s_wal (Open "agent" 2 demo_options demo_options 5 demo_closed).2)) = 2.
Proof.
  apply (open_contract "agent" 2 demo_options demo_options 5 demo_closed).
  - split.
    + apply map_Forall_to_list. vm_compute. repeat constructor; vm_compute; done.
    + intros m Hm. vm_compute in Hm. injection Hm as <-. unfold meta_u64, u64_ok, opt_cursor_u64, max_u64.
      simpl. split_and!; try lia; try done; intros x [= <-]; simpl; lia.
  - done.
  - vm_compute. reflexivity.
Defined.

(** ** Two executions after which the log does not reopen *)

(** Three records, the first two acknowledged by archive A and deleted, then a
    rebind to archive B, close. *)
Definition rebind_run : sys :=
  ops_run [OpAck "A" (mkCursor 1 2) 0; OpRebind "B"; OpClose] demo_log.

(** Without any failure: after acknowledged segments have been deleted, a
    forward archive rebind drops the acknowledgement that explained their
    absence, so the next open refuses the directory (unexplained missing
    prefix) although no record was lost. The same run without the rebind
    reopens. *)
Theorem rebind_blocks_reopen :
  (Open "agent" 2 demo_options demo_options 10 rebind_run).1 = Err ErrInvariant /\
  (Open "agent" 2 demo_options demo_options 10
     (ops_run [OpAck "A" (mkCursor 1 2) 0; OpClose] demo_log)).1 = Ok tt.
Proof. split; vm_compute; reflexivity. Qed.

Definition batch_options : Options := mkOptions 1000 1000 1 1000.

(** One record, then an append whose write fails after 7 bytes, then one more
    record and close. *)
Definition torn_run : sys :=
  let s0 := (Open "agent" 1 batch_options batch_options 0 (demo_start [])).2 in
  let s1 := op_run (OpAppend 1 [1; 2; 3]) s0 in
  let s2 := op_run (OpAppend 2 [4]) (mkSys (s_wal s1) (s_disk s1) [None; Some 7%nat]) in
  ops_run [OpAppend 3 [5; 6]; OpClose] s2.

(** An append whose write fails part-way leaves the torn bytes in the
    active segment; the next append succeeds and writes behind them, close
    succeeds, and the next open refuses the directory as corrupt: the record
    appended successfully after the failure is unreadable. *)
Theorem torn_append_blocks_reopen :
  m_LastAssigned (w_meta (s_wal torn_run)) = Some (mkCursor 1 2) /\
  m_DurableThrough (w_meta (s_wal torn_run)) = Some (mkCursor 1 2) /\
  (Open "agent" 2 batch_options batch_options 10 torn_run).1 = Err ErrCorrupt.
Proof. split_and!; vm_compute; reflexivity. Qed.
