(* ===== verification/WalRead.v ===== *)
(** * Audit WAL: what reading returns

    [ReadAuditFrom] over any directory content: when it returns records, they
    are in order, none is below the start, and no record of a live segment at or
    after the start was skipped - it is among them, or after the last of them. *)

From S2P Require Import Prelude Cursor WalFrame WalMeta WalNames Wal WalInv WalProps.

(** A cursor in the written part of a live segment. *)
Definition live (w : WAL) (c : Cursor) : Prop := exists seg, seg ∈ w_segments w /\ 0 < seg_bytes seg /\ seg_has seg c.

Definition cursors (rs : list walRecord) : list Cursor := r_Cursor <$> rs.

Definition cursor_sorted : list Cursor -> Prop := StronglySorted cursor_le.

Lemma cursor_sorted_app l1 l2 :
  cursor_sorted l1 -> cursor_sorted l2 -> (forall a b, a ∈ l1 -> b ∈ l2 -> cursor_le a b) -> cursor_sorted (l1 ++ l2).
Proof.
  induction 1 as [|x l1 Hs IH Hx]; intros H2 H; [done|]. simpl. constructor.
  - apply IH; [done|]. intros a b Ha Hb. apply H; [by right | done].
  - apply Forall_app. split; [done|]. apply Forall_forall. intros b Hb. apply H; [by left | done].
Qed.

(** The records a segment read adds: in order from [expected] on, none skipped
    up to the last frame read. *)
Definition segment_read (start expected lastRead : Cursor) (new : list Cursor) (last' : Cursor) : Prop :=
  cursor_sorted new /\
  (forall c, c ∈ new -> cursor_le start c /\ Incarnation c = Incarnation expected /\ Seq expected <= Seq c <= max_u64) /\
  ((new = [] /\ last' = lastRead) \/
   (Incarnation last' = Incarnation expected /\ Seq expected <= Seq last' /\ (forall c, c ∈ new -> Seq c <= Seq last') /\
    (forall c, Incarnation c = Incarnation expected -> Seq expected <= Seq c <= Seq last' -> cursor_le start c -> c ∈ new))).

Definition frame_next (c : Cursor) : Cursor := if negb (Seq c =? max_u64) then mkCursor (Incarnation c) (Seq c + 1) else c.

Lemma frame_next_seq c : Incarnation (frame_next c) = Incarnation c /\
  ((Seq (frame_next c) = Seq c + 1 /\ Seq c <> max_u64) \/ (Seq (frame_next c) = Seq c /\ Seq c = max_u64)).
Proof. unfold frame_next. destruct (Seq c =? max_u64) eqn:E; bool_to_prop; simpl; auto. Qed.

Lemma segment_read_step start expected lastRead new last' :
  Seq expected <= max_u64 ->
  segment_read start (frame_next expected) expected new last' ->
  segment_read start expected lastRead (if decide (cursor_le start expected) then expected :: new else new) last'.
Proof.
  destruct (frame_next_seq expected) as [Ei Es]. intros Hexp (Hs & Hin & Hend). rewrite Ei in *.
  set (new' := if decide _ then _ else _).
  assert (forall c, c ∈ new' <-> (c = expected /\ cursor_le start c) \/ c ∈ new) as Hnew.
  { intros c. unfold new'. case_decide; rewrite ?elem_of_cons; intuition (subst; done). }
  split_and!.
  - unfold new'. case_decide; [|done]. constructor; [done|]. apply Forall_forall. intros c Hc.
    destruct (Hin c Hc) as (_ & ? & ? & _). right. split; [done | lia].
  - intros c [[-> ?]|Hc]%Hnew; [split_and!; auto; lia|]. destruct (Hin c Hc) as (? & ? & ? & ?). split_and!; auto. lia.
  - right. destruct Hend as [[-> ->]|(El & Hl & Hmax & Hall)].
    + split_and!; [done | lia | |].
      * intros c [[-> _]|Hc]%Hnew; [lia | by apply not_elem_of_nil in Hc].
      * intros c E1 E2 Hst. apply Hnew. left. split; [|done]. destruct c, expected; simpl in *; f_equal; lia.
    + split_and!; [done | lia | |].
      * intros c [[-> _]|Hc]%Hnew; [lia | by apply Hmax].
      * intros c E1 E2 Hst. apply Hnew. destruct (decide (Seq c = Seq expected)) as [E|E].
        -- left. split; [|done]. destruct c, expected; simpl in *; f_equal; lia.
        -- right. apply Hall; auto. lia.
Qed.

Lemma segment_read_none start expected lastRead : segment_read start expected lastRead [] lastRead.
Proof. split_and!; [constructor | by intros c ?%not_elem_of_nil | by left]. Qed.

Lemma read_segment_spec fuel id maxb limit start rd expected lastRead acc s acc' last' s' :
  Seq expected <= max_u64 ->
  read_segment fuel id maxb limit start rd expected lastRead acc s = (Ok (acc', last'), s') -> (length acc <= limit)%nat ->
  (length acc' <= limit)%nat /\ exists new, acc' = acc ++ new /\ segment_read start expected lastRead (cursors new) last'.
Proof.
  revert rd expected lastRead acc s. induction fuel as [|fuel IH]; intros rd expected lastRead acc s Hexp; cbn [read_segment].
  { intros [= <- <- _] Hlen. split; [done|]. exists []. rewrite app_nil_r. split; [done | apply segment_read_none]. }
  case_decide as Hlt.
  2: { intros [= <- <- _] Hlen. split; [done|]. exists []. rewrite app_nil_r. split; [done | apply segment_read_none]. }
  intros E Hlen. unfold bind at 1 in E. destruct (ctxErr s) as [[u|e] s1]; [|done].
  destruct (readFrame maxb rd) as [[frame|[]] rd']; try done.
  2: { injection E as <- <- _. split; [done|]. exists []. rewrite app_nil_r. split; [done | apply segment_read_none]. }
  destruct (bool_decide (df_cursor frame = expected)) eqn:Ec; [|done]. bool_to_prop. cbn [negb] in E. rewrite Ec in E.
  fold (frame_next expected) in E. apply IH in E as (Hlen' & new & -> & Hread).
  - apply segment_read_step with (lastRead := lastRead) in Hread; [|done]. split; [done|].
    destruct (compareCursor expected start >=? 0) eqn:Es; bool_to_prop; cursor_cases.
    + rewrite decide_True in Hread by done. eexists (_ :: new). split; [by rewrite <- app_assoc | done].
    + rewrite decide_False in Hread by (intros ?; by apply cursor_lt_not_le in Es). eauto.
  - destruct (frame_next_seq expected) as [_ [[-> ?]|[-> _]]]; [|done]. lia.
  - case_if; rewrite ?length_app; simpl; lia.
Qed.

(** ** All segments *)

(** What reading [segs] adds: in order, at or after the start and the first
    segment, and nothing of a segment skipped unless the limit was reached
    before it; the same for a cursor past all of them. *)
Definition segments_read (start : Cursor) (segs : list segment) (new : list Cursor) (full : bool) : Prop :=
  cursor_sorted new /\
  (forall c, c ∈ new -> cursor_le start c /\ cursor_ok c /\ exists seg, head segs = Some seg /\ cursor_le (seg_first seg) c) /\
  (forall seg c, seg ∈ segs -> seg_has seg c -> cursor_le start c ->
     c ∈ new \/ (full = true /\ forall r, r ∈ new -> cursor_lt r c)) /\
  (forall c, cursor_le start c -> (forall seg, seg ∈ segs -> cursor_le (seg_last seg) c) ->
     c ∈ new \/ forall r, r ∈ new -> cursor_lt r c).

Lemma segments_read_skip start seg segs new full :
  seg_ok seg -> cursor_lt (seg_last seg) start -> segments_read start segs new full -> segments_read start (seg :: segs) new full.
Proof.
  intros Hok Hlt (Hs & Hin & Hall & Hbey). split_and!; [done | | |].
  - intros c Hc. destruct (Hin c Hc) as (Hst & ? & _). split_and!; [done..|]. exists seg. split; [done|].
    pose proof (seg_first_le_last _ Hok). etransitivity; [done|]. apply cursor_lt_le. by eapply cursor_lt_le_trans.
  - intros x c [->|Hx]%elem_of_cons Hhas Hst; [|by eapply Hall]. exfalso.
    destruct Hhas as [Hi Hq]. pose proof (so_inc _ Hok) as Ei.
    assert (cursor_le c (seg_last seg)) as Hle by (right; rewrite Ei; split; [done | lia]).
    by apply (cursor_lt_not_le _ _ Hlt); etransitivity.
  - intros c Hst Hc. apply Hbey; [done|]. intros x Hx. apply Hc. by right.
Qed.

(** Of one segment, nothing from its first cursor on is skipped. *)
Lemma past_read start expected (new : list Cursor) last' c :
  (forall c, c ∈ new -> cursor_le start c /\ Incarnation c = Incarnation expected /\ Seq expected <= Seq c <= max_u64) ->
  (forall c, c ∈ new -> Seq c <= Seq last') ->
  (forall c, Incarnation c = Incarnation expected -> Seq expected <= Seq c <= Seq last' -> cursor_le start c -> c ∈ new) ->
  cursor_le start c -> cursor_le expected c -> c ∈ new \/ forall r, r ∈ new -> cursor_lt r c.
Proof.
  intros Hin Hmax Hall Hst Hc. destruct (decide (Incarnation c = Incarnation expected /\ Seq c <= Seq last')) as [[E1 E2]|Hn].
  - left. apply Hall; [done | | done]. unfold cursor_le in Hc. lia.
  - right. intros r Hr. destruct (Hin r Hr) as (_ & Hri & _). specialize (Hmax r Hr). unfold cursor_le, cursor_lt in *. lia.
Qed.

(** The read of one segment to its end, or up to the limit. *)
Lemma segments_read_full start seg segs new last' :
  seg_ok seg -> Forall (seg_before seg) segs -> Forall seg_ok segs ->
  segment_read start (seg_first seg) (mkCursor 0 0) new last' -> last' <> mkCursor 0 0 -> segments_read start (seg :: segs) new true.
Proof.
  intros Hok Hb Hoks (Hs & Hin & Hend) Hne. destruct Hend as [[_ ?]|(Ei & Hl & Hmax & Hall)]; [done|].
  split_and!; [done | | |].
  - intros c Hc. destruct (Hin c Hc) as (? & Hi & Hq). destruct (so_first _ Hok) as [? ?].
    split_and!; [done | split; lia|]. exists seg. split; [done|]. right. split; [done | lia].
  - intros x c Hx Hhas Hst. destruct (decide (Incarnation c = Incarnation (seg_first seg) /\ Seq c <= Seq last')) as [[E1 E2]|Hn].
    + left. apply Hall; auto. split; [|done]. apply elem_of_cons in Hx as [->|Hx]; [by destruct Hhas as [_ ?]; lia|].
      rewrite Forall_forall in Hb, Hoks. specialize (Hb x Hx). destruct (Hoks x Hx), Hhas as [Hi Hq], Hok.
      unfold seg_before, cursor_lt in Hb. lia.
    + right. split; [done|]. intros r Hr. destruct (Hin r Hr) as (_ & Hri & Hrq). specialize (Hmax r Hr).
      apply elem_of_cons in Hx as [->|Hx].
      * destruct Hhas as [Hi Hq]. right. split; [congruence|]. assert (~ Seq c <= Seq last') by (intros ?; by apply Hn). lia.
      * rewrite Forall_forall in Hb, Hoks. specialize (Hb x Hx). destruct (Hoks x Hx), Hhas as [Hi Hq], Hok.
        unfold seg_before, cursor_lt in *. lia.
  - intros c Hst Hc. eapply past_read; eauto. etransitivity; [by apply seg_first_le_last|]. apply Hc. by left.
Qed.

Lemma segments_read_cons start seg segs new1 new2 full :
  seg_ok seg -> Forall (seg_before seg) segs ->
  segment_read start (seg_first seg) (mkCursor 0 0) new1 (seg_last seg) -> segments_read start segs new2 full ->
  segments_read start (seg :: segs) (new1 ++ new2) full.
Proof.
  intros Hok Hb (Hs1 & Hin1 & Hend) (Hs2 & Hin2 & Hall2 & Hbey2).
  destruct Hend as [[_ E]|(_ & _ & Hmax & Hall)]; [destruct (so_last _ Hok); rewrite E in *; simpl in *; lia|].
  assert (forall c, c ∈ new1 -> cursor_le c (seg_last seg)) as Hle1.
  { intros c Hc. destruct (Hin1 c Hc) as (_ & Hi & _). right. rewrite (so_inc _ Hok). split; [done | by apply Hmax]. }
  assert (forall c, c ∈ new2 -> cursor_lt (seg_last seg) c) as Hlt2.
  { intros c Hc. destruct (Hin2 c Hc) as (_ & _ & x & Hx & Hle). destruct segs as [|y segs]; [done|]. injection Hx as ->.
    apply Forall_cons in Hb as [Hb _]. by eapply cursor_lt_le_trans. }
  split_and!.
  - apply cursor_sorted_app; auto. intros a b Ha Hb'. etransitivity; [by apply Hle1|]. by apply cursor_lt_le, Hlt2.
  - intros c [Hc|Hc]%elem_of_app.
    + destruct (Hin1 c Hc) as (? & Hi & ?). destruct (so_first _ Hok) as [? ?].
      split_and!; [done | split; lia|]. exists seg. split; [done|]. right. split; [done | lia].
    + destruct (Hin2 c Hc) as (? & ? & _). split_and!; [done..|]. exists seg. split; [done|].
      etransitivity; [by apply seg_first_le_last|]. by apply cursor_lt_le, Hlt2.
  - intros x c [->|Hx]%elem_of_cons Hhas Hst.
    + left. apply elem_of_app. left. destruct Hhas as [? ?]. by apply Hall.
    + destruct (Hall2 x c Hx Hhas Hst) as [?|[? H]]; [left; apply elem_of_app; by right|]. right. split; [done|].
      intros r [Hr|Hr]%elem_of_app; [|by apply H]. eapply cursor_le_lt_trans; [by apply Hle1|].
      rewrite Forall_forall in Hb. eapply cursor_lt_le_trans; [by apply Hb|]. right. destruct Hhas as [? ?]. split; [done | lia].
  - intros c Hst Hc. destruct (Hbey2 c Hst) as [?|H2]; [intros x Hx; apply Hc; by right | left; apply elem_of_app; by right|].
    destruct (past_read start (seg_first seg) new1 (seg_last seg) c) as [?|H1]; auto.
    + etransitivity; [by apply seg_first_le_last|]. apply Hc. by left.
    + left. apply elem_of_app. by left.
    + right. intros r [Hr|Hr]%elem_of_app; auto.
Qed.

Lemma read_segments_spec w limit start segs acc s acc' s' :
  Forall seg_ok segs -> StronglySorted seg_before segs -> (length acc < limit)%nat ->
  read_segments w limit start segs acc s = (Ok acc', s') ->
  exists new full, acc' = acc ++ new /\ segments_read start segs (cursors new) full.
Proof.
  intros Hok Hs. revert acc s Hok. induction Hs as [|seg segs Hs IH Hb]; intros acc s Hok Hlen; cbn [read_segments].
  { intros [= <- _]. exists [], false. rewrite app_nil_r. split; [done|]. split_and!; [constructor | by intros c ?%not_elem_of_nil| |].
    - by intros seg c ?%not_elem_of_nil.
    - intros c _ _. right. by intros r ?%not_elem_of_nil. }
  apply Forall_cons in Hok as [Hseg Hok]. destruct (compareCursor (seg_last seg) start <? 0) eqn:Ec; bool_to_prop; cursor_cases.
  { intros E. apply IH in E as (new & full & -> & H); [|done..]. exists new, full. split; [done | by apply segments_read_skip]. }
  intros E. unfold bind at 1 in E. destruct (openSegment _ s) as [[data|e] s1]; [|done].
  unfold bind at 1 in E. destruct (read_segment _ _ _ _ _ _ _ _ _ s1) as [[[acc1 last1]|e] s2] eqn:Er; [|done].
  apply read_segment_spec in Er as (Hlen1 & new1 & -> & Hread); [|destruct (so_first _ Hseg); lia..].
  unfold bind at 1 in E. destruct (syscall s2) as [[u|e] s3]; [|done].
  destruct (_ && _) eqn:Eb; [done|]. destruct (decide (length (acc ++ new1) = limit)) as [Hfull|Hmore].
  - injection E as <- _. exists new1, true. split; [done|]. eapply segments_read_full; eauto. intros ->.
    destruct Hread as (_ & _ & [[Hn _]|(Hi & Hq & _)]).
    + apply fmap_nil_inv in Hn as ->. rewrite app_nil_r in Hfull. lia.
    + destruct (so_first _ Hseg). simpl in *. lia.
  - assert (last1 = seg_last seg) as ->.
    { rewrite bool_decide_eq_true_2 in Eb by lia. simpl in Eb. by bool_to_prop. }
    apply IH in E as (new2 & full & -> & H2); [|done | lia]. exists (new1 ++ new2), full. rewrite <- app_assoc. split; [done|].
    unfold cursors. rewrite fmap_app. by eapply segments_read_cons.
Qed.

(** ** [ReadAuditFrom] *)

(** No segment is past the next cursor. *)
Lemma segs_le_next w seg :
  wal_inv w -> w_closed w = false -> seg ∈ w_segments w -> cursor_le (seg_last seg) (next_cursor (w_meta w)).
Proof.
  intros Hi Hc Hin. assert (0 < seg_bytes seg \/ seg_last seg = next_cursor (w_meta w)) as [Hb | ->]; [|by apply cursor_lt_le, written_lt_next | done].
  pose proof (wi_active _ Hi) as Ha. unfold active_ok in Ha. destruct (w_active w) as [a|].
  - destruct Ha as (pre & x & Es & _ & Hpre & Hx). rewrite Es in Hin. rewrite Forall_forall in Hpre.
    apply elem_of_app in Hin as [Hin|Hin%list_elem_of_singleton]; [left; by apply Hpre|]. subst x.
    destruct Hx as [(_ & _ & _ & ?)|(_ & ? & _)]; auto.
  - destruct Ha as [?|Ha]; [congruence|]. rewrite Forall_forall in Ha. left. by apply Ha.
Qed.

(** A read from [start] of what the log was then. *)
Definition read_complete (w : WAL) (start : Cursor) (rs : list walRecord) : Prop :=
  cursor_sorted (cursors rs) /\ (forall c, c ∈ cursors rs -> cursor_le start c /\ cursor_ok c) /\
  forall c, live w c \/ cursor_le (next_cursor (w_meta w)) c -> cursor_le start c ->
    c ∈ cursors rs \/ forall r, r ∈ cursors rs -> cursor_lt r c.

Lemma ReadAuditFrom_spec now start limit s r s' :
  wal_inv (s_wal s) -> ReadAuditFrom now start limit s = (Ok r, s') ->
  match r with
  | ReadRecords rs => read_complete (s_wal s) start rs
  | ReadBehindFloor requested bounds coverage =>
    requested = start /\ bounds = boundsLocked (s_wal s) /\ coverage = coverageLocked now (s_wal s) /\
    exists floor, b_WALFloor bounds = Some floor /\ cursor_lt start floor
  end.
Proof.
  intros Hi. unfold ReadAuditFrom, bind at 1, gets at 1. destruct (w_closed (s_wal s)) eqn:Ecl; [done|].
  destruct (_ || _ || _) eqn:Eb; [done|]. bool_to_prop.
  assert (forall rs (s1 : sys), read_segments (s_wal s) (Z.to_nat limit) start (w_segments (s_wal s)) [] s = (Ok rs, s1) ->
    read_complete (s_wal s) start rs) as Hread.
  { intros rs s1 E. apply read_segments_spec in E as (new & full & -> & Hs & Hin & Hall & Hbey); [|apply Hi | apply Hi | simpl; lia].
    simpl. split_and!; [done | intros c Hc; destruct (Hin c Hc) as (? & ? & _); by split|]. intros c [(seg & Hseg & _ & Hhas)|Hnext] Hst.
    - destruct (Hall seg c Hseg Hhas Hst) as [?|[_ ?]]; auto.
    - apply Hbey; [done|]. intros seg Hseg. etransitivity; [by apply segs_le_next | done]. }
  assert (forall s1, (let* records := read_segments (s_wal s) (Z.to_nat limit) start (w_segments (s_wal s)) [] in
    ret (ReadRecords records)) s = (Ok r, s1) -> match r with ReadRecords rs => read_complete (s_wal s) start rs | _ => False end) as Hr.
  { intros s1 E. unfold bind in E. destruct (read_segments _ _ _ _ _ s) as [[rs|e] s2] eqn:E2; [|done]. injection E as <- _. by eapply Hread. }
  destruct (b_WALFloor (boundsLocked (s_wal s))) as [floor|] eqn:Ef.
  - destruct (compareCursor start floor <? 0) eqn:Ec; bool_to_prop; cursor_cases.
    + intros [= <- _]. rewrite Ef. split_and!; eauto.
    + intros E. apply Hr in E. by destruct r.
  - intros E. apply Hr in E. by destruct r.
Qed.

(** Nothing below the floor is live. *)
Lemma live_floor w c : wal_inv w -> live w c -> exists floor, b_WALFloor (boundsLocked w) = Some floor /\ cursor_le floor c.
Proof.
  intros Hi (seg & Hseg & _ & [Hinc Hq]). simpl. pose proof (wi_order _ Hi) as Ho. pose proof (wi_segs _ Hi) as Hok.
  destruct (w_segments w) as [|x segs]; [by apply not_elem_of_nil in Hseg|]. exists (seg_first x). split; [done|].
  assert (cursor_le (seg_first seg) c) as Hle by (right; split; [done | lia]).
  apply elem_of_cons in Hseg as [->|Hseg]; [done|]. apply StronglySorted_inv in Ho as [_ Ho]. rewrite Forall_forall in Ho.
  apply Forall_cons in Hok as [Hx _]. etransitivity; [by apply seg_first_le_last|]. etransitivity; [|exact Hle]. by apply cursor_lt_le, Ho.
Qed.

(** What is not live is accounted for. *)
Lemma kept_live w c : kept w c -> live w c \/ lost (w_meta w) c \/ opt_ge c (m_ServerACK (w_meta w)).
Proof. intros [[?|[(a & ? & ?)|?]]|?]; [right; left; by left | right; right; by exists a | right; left; by right | by left]. Qed.

Lemma floor_le_next w floor :
  wal_inv w -> w_closed w = false -> b_WALFloor (boundsLocked w) = Some floor -> cursor_le floor (next_cursor (w_meta w)).
Proof.
  intros Hi Hc Hf. simpl in Hf. pose proof (wi_segs _ Hi) as Hok. pose proof (segs_le_next w) as Hn.
  destruct (w_segments w) as [|x segs]; [done|]. injection Hf as <-. apply Forall_cons in Hok as [Hx _].
  etransitivity; [by apply seg_first_le_last|]. apply Hn; [done..|]. by left.
Qed.

Lemma ack_lt_next w a : wal_inv w -> m_ServerACK (w_meta w) = Some a -> cursor_lt a (next_cursor (w_meta w)).
Proof.
  intros Hi Ha. pose proof (wi_meta _ Hi) as Hm. assert (Hm' := Hm). destruct Hm as (_ & _ & _ & _ & _ & _ & _ & Hc & _).
  unfold counters_valid in Hc. destruct (m_LastAssigned (w_meta w)) as [la|] eqn:E.
  - destruct Hc as (_ & _ & _ & Hle). eapply cursor_le_lt_trans; [by apply Hle | by apply assigned_lt_next].
  - destruct Hc as (_ & Hn & _). congruence.
Qed.
