(* ===== verification/WalDisk.v ===== *)
(** * Audit WAL: the files behind the log

    The segment files hold exactly the records of the log. When a failing write
    leaves no bytes behind - every other call may fail as before - the files of
    the live segments are at all times the concatenation of intact frames, so the
    log is a queue of records: an append adds one at its end, deletions take whole
    segments from its front, a read returns the records from a cursor on, and a
    reopened log is the one that was left. *)

From stdpp Require Import sorting.
From S2P Require Import Prelude Cursor WalFrame WalMeta WalNames Wal WalInv WalProps WalOpen WalSpec.

(** ** The content of the log *)

Fixpoint decode_frames (fuel : nat) (maxFrameBytes : Z) (rd : list Z) : list entry :=
  match fuel with
  | O => []
  | S fuel' =>
    match readFrame maxFrameBytes rd with
    | (Ok f, rd') => mkEntry (df_cursor f) (df_at f) (df_payload f) :: decode_frames fuel' maxFrameBytes rd'
    | _ => []
    end
  end.

Definition segment_entries (s : sys) (seg : segment) : list entry :=
  let data := default [] (d_files (s_disk s) !! seg_path seg) in
  decode_frames (length data) (o_MaxBytes (w_options (s_wal s))) data.

(** The records of the live segments, oldest first. *)
Definition contents (s : sys) : list entry := mjoin (segment_entries s <$> w_segments (s_wal s)).

(** A file that holds the records [es], and the segment that describes it. *)
Record seg_holds (maxb : Z) (files : gmap string (list Z)) (seg : segment) (es : list entry) : Prop := {
  sh_file : files !! seg_path seg = Some (file_bytes es);
  sh_entries : Forall (entry_ok maxb) es;
  sh_bytes : seg_bytes seg = lenZ (file_bytes es);
  sh_chain : contiguous es;
  sh_first : forall e, head es = Some e -> seg_first seg = en_cursor e;
  sh_last : forall e, last es = Some e -> seg_last seg = en_cursor e;
}.

(** A failing call writes nothing. *)
Definition atomic (o : outcome) : Prop := o = None \/ o = Some O.

(** An empty file for the next record that a failed creation left behind: while it
    is there no segment can be created. *)
Record stray (s : sys) (ess : list (list entry)) (p : string) : Prop := {
  st_file : d_files (s_disk s) !! p = Some [];
  st_name : p = segmentName (next_cursor (w_meta (s_wal s)));
  st_idle : w_active (s_wal s) = None;
  st_written : Forall (fun es => es <> []) ess;
}.

(** The directory has the files of the live segments only. *)
Definition tidy (s : sys) : Prop :=
  forall p, is_segment_file p = true -> is_Some (d_files (s_disk s) !! p) -> p ∈ seg_path <$> w_segments (s_wal s).

Record holds (s : sys) (ess : list (list entry)) : Prop := {
  ho_segs : Forall2 (seg_holds (o_MaxBytes (w_options (s_wal s))) (d_files (s_disk s))) (w_segments (s_wal s)) ess;
  ho_paths : NoDup (seg_path <$> w_segments (s_wal s));
  ho_dir : forall p, is_segment_file p = true -> is_Some (d_files (s_disk s) !! p) -> p ∈ seg_path <$> w_segments (s_wal s) \/ stray s ess p;
  ho_written : Forall (fun es => es <> []) (removelast ess);
  ho_atomic : Forall atomic (s_outcomes s);
}.

Definition intact (s : sys) : Prop := wal_inv (s_wal s) /\ exists ess, holds s ess.

Lemma decode_file maxb es fuel : Forall (entry_ok maxb) es -> (length es <= fuel)%nat ->
  decode_frames fuel maxb (file_bytes es) = es.
Proof.
  intros Hes. revert fuel. induction Hes as [|e es He Hes IH]; intros fuel Hl.
  { destruct fuel; [done|]. done. }
  destruct fuel as [|fuel]; simpl in Hl; [lia|]. rewrite file_bytes_cons. cbn [decode_frames].
  destruct (frame_bytes_ok _ _ He) as (Henc & Hmax & _). destruct He as (Hc & Ht & _).
  rewrite (readFrame_encoded _ _ _ _ _ _ Henc Hc Ht Hmax). cbn [df_cursor df_at df_payload].
  rewrite IH by lia. by destruct e.
Qed.

Lemma length_file_bytes maxb es : Forall (entry_ok maxb) es -> (length es <= length (file_bytes es))%nat.
Proof.
  induction 1 as [|e es He Hes IH]; [done|]. rewrite file_bytes_cons, length_app. simpl.
  destruct (frame_bytes_ok _ _ He) as (_ & _ & H). unfold lenZ in H. lia.
Qed.

Lemma file_bytes_empty maxb es : Forall (entry_ok maxb) es -> lenZ (file_bytes es) = 0 -> es = [].
Proof. intros H%length_file_bytes Hl. unfold lenZ in Hl. destruct es; [done | simpl in H; lia]. Qed.

Lemma holds_contents s ess : holds s ess -> contents s = mjoin ess.
Proof.
  intros [Hs _ _ _ _]. unfold contents. f_equal.
  enough (forall seg es, seg_holds (o_MaxBytes (w_options (s_wal s))) (d_files (s_disk s)) seg es -> segment_entries s seg = es) as H.
  { clear -Hs H. induction Hs as [|seg es segs ess Hh _ IH]; simpl; [done|]. f_equal; auto. }
  intros seg es [Hf He _ _ _ _]. unfold segment_entries. rewrite Hf. simpl. apply decode_file; [done|]. by eapply length_file_bytes.
Qed.

Lemma Forall_suffix_of {A} (P : A -> Prop) l l' : Forall P l -> l' `suffix_of` l -> Forall P l'.
Proof. intros H [k ->]. by apply Forall_app in H as [_ ?]. Qed.

(** ** Steps that leave the files alone *)

Definition calm {A} (m : walM A) : Prop := forall s, d_files (s_disk (m s).2) = d_files (s_disk s) /\ s_outcomes (m s).2 `suffix_of` s_outcomes s.

Create HintDb calm discriminated.

Lemma calm_log_ret {A} (a : A) : calm (ret a).
Proof. done. Qed.
Lemma calm_log_fail {A} e : calm (fail e : walM A).
Proof. done. Qed.
Lemma calm_gets {A} (f : sys -> A) : calm (gets f).
Proof. done. Qed.
Lemma calm_of_res {A} (r : res walErr A) : calm (of_res r).
Proof. done. Qed.
Lemma calm_wal f : calm (modify (upd_wal f)).
Proof. done. Qed.
Lemma calm_log_bind {A B} (m : walM A) (f : A -> walM B) : calm m -> (forall a, calm (f a)) -> calm (bind m f).
Proof.
  intros Hm Hf s. unfold bind. destruct (Hm s) as [H1 H2]. destruct (m s) as [[a|e] s']; simpl in *; [|done].
  destruct (Hf a s') as [H3 H4]. split; [congruence | by etransitivity].
Qed.
Lemma calm_attempt {A} (m : walM A) : calm m -> calm (attempt m).
Proof. intros Hm s. unfold attempt. specialize (Hm s). by destruct (m s). Qed.
Lemma calm_next : calm next_outcome.
Proof. intros s. unfold next_outcome. destruct (s_outcomes s) as [|o os] eqn:E; simpl; rewrite ?E; split; try done. by exists [o]. Qed.

#[export] Hint Resolve calm_log_ret calm_log_fail calm_gets calm_of_res calm_wal calm_attempt calm_next : calm.
#[export] Hint Extern 2 (calm (bind _ _)) => (apply calm_log_bind; [|intros]) : calm.
#[export] Hint Extern 2 (calm (if ?b then _ else _)) => (destruct b) : calm.
#[export] Hint Extern 3 (calm (match ?x with _ => _ end)) => (destruct x) : calm.

Lemma calm_syscall : calm syscall.
Proof. unfold syscall. auto with calm. Qed.
Lemma calm_ctxErr : calm ctxErr.
Proof. unfold ctxErr. auto with calm. Qed.
#[export] Hint Resolve calm_syscall calm_ctxErr : calm.
Lemma calm_syncDirectory : calm syncDirectory.
Proof. unfold syncDirectory. auto with calm. Qed.
#[export] Hint Resolve calm_syncDirectory : calm.
Lemma calm_saved m : calm (modify (upd_disk (fun d => mkDisk (Some m) (d_files d)))).
Proof. done. Qed.
#[export] Hint Resolve calm_saved : calm.
Lemma calm_saveMetadata m : calm (saveMetadata m).
Proof. unfold saveMetadata. auto 20 with calm. Qed.
#[export] Hint Resolve calm_saveMetadata : calm.
Lemma calm_syncLocked : calm syncLocked.
Proof. unfold syncLocked. auto 20 with calm. Qed.
Lemma calm_saveDurable : calm saveMetadataDurableLocked.
Proof. unfold saveMetadataDurableLocked. auto 20 with calm. Qed.
#[export] Hint Resolve calm_syncLocked calm_saveDurable : calm.

(** ** Steps that only remove old segments *)

Definition shrinks {A} (m : walM A) : Prop := forall s ess, holds s ess -> exists k, holds (m s).2 (drop k ess).

(** The next cursor stays, and a log without an active segment gets none. *)
Definition idle_as (w w' : WAL) : Prop :=
  next_cursor (w_meta w') = next_cursor (w_meta w) /\ (w_active w = None -> w_active w' = None).

#[export] Instance idle_as_refl : Reflexive idle_as.
Proof. by split. Qed.

Lemma stray_same s s' ess ess' p : stray s ess p -> idle_as (s_wal s) (s_wal s') -> d_files (s_disk s') !! p = d_files (s_disk s) !! p ->
  (forall es, es ∈ ess' -> es ∈ ess) -> stray s' ess' p.
Proof.
  intros [H1 H2 H3 H4] [Hn Ha] Ed Hin. split; [congruence | congruence | auto|]. rewrite Forall_forall in H4 |- *. auto.
Qed.

Lemma holds_same s s' ess : holds s ess -> w_segments (s_wal s') = w_segments (s_wal s) -> w_options (s_wal s') = w_options (s_wal s) ->
  idle_as (s_wal s) (s_wal s') -> d_files (s_disk s') = d_files (s_disk s) -> s_outcomes s' `suffix_of` s_outcomes s -> holds s' ess.
Proof.
  intros [H1 H2 H3 Hw H4] Es Eo Hid Ed [os Hos]. split; rewrite ?Es, ?Eo, ?Ed; try done.
  - intros p Hp Hin. destruct (H3 p Hp Hin) as [?|Hst]; [by left|]. right. eapply stray_same; [exact Hst | done | by rewrite Ed | done].
  - rewrite Hos in H4. by apply Forall_app in H4 as [_ ?].
Qed.

(** Without strays the counters may move. *)
Lemma holds_tidy s s' ess : holds s ess -> tidy s -> w_segments (s_wal s') = w_segments (s_wal s) -> w_options (s_wal s') = w_options (s_wal s) ->
  d_files (s_disk s') = d_files (s_disk s) -> s_outcomes s' `suffix_of` s_outcomes s -> holds s' ess.
Proof.
  intros [H1 H2 _ Hw H4] H3 Es Eo Ed [os Hos]. split; rewrite ?Es, ?Eo, ?Ed; try done.
  - intros p Hp Hin. left. by apply H3.
  - rewrite Hos in H4. by apply Forall_app in H4 as [_ ?].
Qed.

Lemma shrinks_bind {A B} (m : walM A) (f : A -> walM B) : shrinks m -> (forall a, shrinks (f a)) -> shrinks (bind m f).
Proof.
  intros Hm Hf s ess Hh. unfold bind. destruct (Hm s ess Hh) as [k Hk]. destruct (m s) as [[a|e] s']; simpl in *; [|by exists k].
  destruct (Hf a s' _ Hk) as [k' Hk']. rewrite drop_drop in Hk'. by exists (k + k')%nat.
Qed.
Lemma shrinks_attempt {A} (m : walM A) : shrinks m -> shrinks (attempt m).
Proof. intros Hm s ess Hh. unfold attempt. destruct (Hm s ess Hh) as [k Hk]. destruct (m s). by exists k. Qed.
Lemma shrinks_gets {A B} (f : sys -> A) (k : A -> walM B) :
  (forall s ess, holds s ess -> exists n, holds (k (f s) s).2 (drop n ess)) -> shrinks (bind (gets f) k).
Proof. intros H s ess Hh. by apply H. Qed.

(** Files untouched, and the segments. *)
Lemma shrinks_calm {A} (m : walM A) :
  calm m -> (forall s, w_segments (s_wal (m s).2) = w_segments (s_wal s) /\ w_options (s_wal (m s).2) = w_options (s_wal s) /\ idle_as (s_wal s) (s_wal (m s).2)) -> shrinks m.
Proof. intros Hc Hs s ess Hh. exists 0%nat. rewrite drop_0. destruct (Hc s), (Hs s) as (? & ? & ?). by eapply holds_same. Qed.

Lemma shrinks_same {A} (m : walM A) : calm m -> same_wal m -> shrinks m.
Proof. intros Hc Hs. apply shrinks_calm; [done|]. intros s. by rewrite Hs. Qed.

Lemma syncLocked_holds s ess : holds s ess -> holds (syncLocked s).2 ess.
Proof.
  intros Hh. destruct (calm_syncLocked s) as [Hd Ho]. destruct (syncLocked s) as [r s'] eqn:E. simpl in *.
  destruct (syncLocked_effect _ _ _ E) as [[W _] | (seg & _ & W & _)]; eapply holds_same; try done; by rewrite W.
Qed.

Lemma syncLocked_shrinks : shrinks syncLocked.
Proof. intros s ess Hh. exists 0%nat. rewrite drop_0. by apply syncLocked_holds. Qed.

(** Removing the first segment with its file. *)
Lemma holds_tail s s' seg rest ess :
  holds s ess -> w_segments (s_wal s) = seg :: rest -> w_segments (s_wal s') = rest -> w_options (s_wal s') = w_options (s_wal s) ->
  idle_as (s_wal s) (s_wal s') -> d_files (s_disk s') = delete (seg_path seg) (d_files (s_disk s)) -> s_outcomes s' `suffix_of` s_outcomes s -> holds s' (drop 1 ess).
Proof.
  intros [H1 H2 H3 Hw H4] Es Es' Eo Hid Ed [os Hos]. rewrite Es in *. inversion H1 as [|? es ? ess' Hes Hess]; subst. simpl in *.
  apply NoDup_cons in H2 as [Hnin Hnd]. split; rewrite ?Eo, ?Ed; try done.
  - clear -Hess Hnin. induction Hess as [|y ys l1 l2 Hy Hess IH]; constructor.
    + destruct Hy. split; try done. rewrite lookup_delete_ne; [done|]. intros E. apply Hnin. rewrite E. simpl. by left.
    + apply IH. intros Hin. apply Hnin. by right.
  - intros p Hp [x Hx]. rewrite lookup_delete_Some in Hx. destruct Hx as [Hne Hx]. destruct (elem_of_cons (seg_path <$> w_segments (s_wal s')) p (seg_path seg)) as [Hc _].
    destruct (H3 p Hp ltac:(eauto)) as [Hin|Hst]; [left; destruct (Hc Hin); [congruence | done]|]. right.
    eapply stray_same; [exact Hst | done | by rewrite Ed, lookup_delete_ne | intros x' Hx'; by right].
  - destruct ess'; [constructor | by apply Forall_cons in Hw as [_ ?]].
  - rewrite Hos in H4. by apply Forall_app in H4 as [_ ?].
Qed.

Lemma removeFile_files path s r s' : removeFile path s = (r, s') ->
  s_outcomes s' `suffix_of` s_outcomes s /\
  match r with Ok _ => d_files (s_disk s') = delete path (d_files (s_disk s)) | Err _ => d_files (s_disk s') = d_files (s_disk s) end.
Proof.
  unfold removeFile, bind at 1. destruct (calm_syscall s) as [H1 H2]. destruct (syscall s) as [[[]|e] s1]; simpl in *; [|by intros [= <- <-]].
  unfold bind at 1, gets at 1. destruct (_ !! path); [|by intros [= <- <-]]. intros [= <- <-]. simpl. by rewrite H1.
Qed.

Lemma deleteSegment_shrinks seg : shrinks (deleteSegmentLocked seg).
Proof.
  intros s ess Hh. unfold deleteSegmentLocked, bind at 1, gets at 1. destruct (w_segments (s_wal s)) as [|first rest] eqn:Es.
  { exists 0%nat. by rewrite drop_0. }
  case_if; [exists 0%nat; by rewrite drop_0|]. bool_to_prop. unfold bind at 1.
  destruct (removeFile (seg_path seg) s) as [r1 s1] eqn:E1. pose proof (run_same _ _ _ _ (same_wal_removeFile _) E1) as W1.
  apply removeFile_files in E1 as [Ho Hd]. destruct r1 as [[]|e]; simpl.
  2: { exists 0%nat. rewrite drop_0. eapply holds_same; [done | by rewrite W1..| done | done]. }
  exists 1%nat. unfold bind, modify. set (s2 := upd_wal _ s1). destruct (calm_syncDirectory s2) as [H1 H2].
  assert (s_wal (syncDirectory s2).2 = s_wal s2) as W2 by apply same_wal_syncDirectory.
  eapply holds_tail; [exact Hh | exact Es | | | | |]; rewrite ?W2, ?H1; simpl; rewrite ?W1, ?Es; try done; [congruence|]. by etransitivity.
Qed.

Create HintDb shrinks discriminated.
#[export] Hint Resolve shrinks_attempt syncLocked_shrinks deleteSegment_shrinks : shrinks.
#[export] Hint Extern 1 (shrinks _) => (apply shrinks_same; solve [auto 20 with calm | auto 20 with samewal]) : shrinks.
#[export] Hint Extern 4 (shrinks (bind _ _)) => (apply shrinks_bind; [|intros]) : shrinks.
#[export] Hint Extern 4 (shrinks (if ?b then _ else _)) => (destruct b) : shrinks.
#[export] Hint Extern 5 (shrinks (match ?x with _ => _ end)) => (destruct x) : shrinks.

(** Changes of the log's other fields. *)
Lemma shrinks_wal f : (forall w, w_segments (f w) = w_segments w /\ w_options (f w) = w_options w /\ idle_as w (f w)) -> shrinks (modify (upd_wal f)).
Proof. intros H. apply shrinks_calm; [auto with calm|]. intros s. apply H. Qed.
#[export] Hint Extern 1 (shrinks (modify (upd_wal _))) => (apply shrinks_wal; intros; split_and!; [reflexivity | reflexivity | split; [reflexivity | done]]) : shrinks.

Lemma deleteWithGap_shrinks seg reason : shrinks (deleteWithGapLocked seg reason).
Proof. unfold deleteWithGapLocked, saveMetadataDurableLocked. auto 20 with shrinks. Qed.
#[export] Hint Resolve deleteWithGap_shrinks : shrinks.

Lemma deleteACKed_loop_shrinks fuel freed : shrinks (deleteACKed_loop fuel freed).
Proof. revert freed. induction fuel as [|fuel IH]; intros freed; cbn [deleteACKed_loop]; auto 20 with shrinks. Qed.
Lemma retention_loop_shrinks fuel cutoff incoming freed : shrinks (retention_loop fuel cutoff incoming freed).
Proof. revert freed. induction fuel as [|fuel IH]; intros freed; cbn [retention_loop]; auto 20 with shrinks. Qed.
Lemma reclaimACKed_loop_shrinks fuel need freed : shrinks (reclaimACKed_loop fuel need freed).
Proof. revert freed. induction fuel as [|fuel IH]; intros freed; cbn [reclaimACKed_loop]; auto 20 with shrinks. Qed.
Lemma reclaimUnacked_loop_shrinks fuel need freed : shrinks (reclaimUnacked_loop fuel need freed).
Proof. revert freed. induction fuel as [|fuel IH]; intros freed; cbn [reclaimUnacked_loop]; auto 20 with shrinks. Qed.
#[export] Hint Resolve deleteACKed_loop_shrinks retention_loop_shrinks reclaimACKed_loop_shrinks reclaimUnacked_loop_shrinks : shrinks.
Lemma enforceRetention_shrinks now incoming : shrinks (enforceRetentionLocked now incoming).
Proof. unfold enforceRetentionLocked, deleteACKedLocked. auto 20 with shrinks. Qed.
#[export] Hint Resolve enforceRetention_shrinks : shrinks.

(** ** Append *)

Lemma holds_snoc_fresh s s' c now ess :
  holds s ess -> c = next_cursor (w_meta (s_wal s)) -> Forall (fun es => es <> []) ess -> d_files (s_disk s) !! segmentName c = None ->
  w_segments (s_wal s') = w_segments (s_wal s) ++ [mkSegment (segmentName c) c c now now 0] -> w_options (s_wal s') = w_options (s_wal s) ->
  d_files (s_disk s') = <[segmentName c := []]> (d_files (s_disk s)) -> s_outcomes s' `suffix_of` s_outcomes s -> holds s' (ess ++ [[]]).
Proof.
  intros [H1 H2 H3 Hw H4] Hc Hall Hnone Es Eo Ed [os Hos].
  assert (forall seg es, seg_holds (o_MaxBytes (w_options (s_wal s))) (d_files (s_disk s)) seg es -> seg_path seg <> segmentName c) as Hne.
  { intros seg es [Hf _ _ _ _ _] E. rewrite E in Hf. congruence. }
  split; rewrite ?Es, ?Eo, ?Ed; [| | |by rewrite removelast_last|rewrite Hos in H4; by apply Forall_app in H4 as [_ ?]].
  - apply Forall2_app.
    + eapply Forall2_impl; [exact H1|]. intros seg es Hh. pose proof (Hne _ _ Hh). destruct Hh. split; try done. by rewrite lookup_insert_ne.
    + constructor; [|constructor]. split; try done; simpl. by rewrite lookup_insert_eq.
  - rewrite fmap_app. apply NoDup_app. split_and!; [done | | apply NoDup_singleton].
    intros p Hp Hin. apply list_elem_of_singleton in Hin as ->. apply list_elem_of_fmap in Hp as (seg & E & Hseg).
    apply list_elem_of_lookup_1 in Hseg as [i Hi]. destruct (Forall2_lookup_l _ _ _ _ _ H1 Hi) as (es & _ & Hh). by destruct (Hne _ _ Hh).
  - intros p Hp [x Hx]. rewrite fmap_app, elem_of_app. destruct (decide (segmentName c = p)) as [<-|Hd]; [left; right; simpl; by left|].
    rewrite lookup_insert_ne in Hx by done. left. left. destruct (H3 p Hp ltac:(eauto)) as [?|[_ Hst _ _]]; [done|]. congruence.
Qed.

(** Without an active segment every file holds records. *)
Lemma holds_nonempty s ess : wal_inv (s_wal s) -> holds s ess -> w_closed (s_wal s) = false -> w_active (s_wal s) = None ->
  Forall (fun es => es <> []) ess.
Proof.
  intros Hi Hh Hcl Ha. pose proof (wi_active _ Hi) as Hact. unfold active_ok in Hact. rewrite Ha in Hact. destruct Hact as [?|Hall]; [congruence|].
  pose proof (ho_segs _ _ Hh) as Hs. clear -Hs Hall. induction Hs as [|seg x l1 l2 Hx _ IH]; constructor; apply Forall_cons in Hall as [Hp Hp']; [|auto].
  intros ->. rewrite (sh_bytes _ _ _ _ Hx) in Hp. done.
Qed.

Lemma holds_bytes s ess seg : holds s ess -> Forall (fun es => es <> []) ess -> seg ∈ w_segments (s_wal s) -> 0 < seg_bytes seg.
Proof.
  intros [Hs _ _ _ _] Hne [i Hi]%list_elem_of_lookup_1. destruct (Forall2_lookup_l _ _ _ _ _ Hs Hi) as (es & Hes & Hsg).
  rewrite (sh_bytes _ _ _ _ Hsg). pose proof (file_bytes_empty _ _ (sh_entries _ _ _ _ Hsg)) as H. rewrite Forall_forall in Hne.
  pose proof (lenZ_nonneg (file_bytes es)). destruct (decide (lenZ (file_bytes es) = 0)) as [E|]; [|lia].
  exfalso. by apply (Hne es (list_elem_of_lookup_2 _ _ _ Hes)), H.
Qed.

(** A file that could not be removed again. *)
Lemma holds_stray s s' ess : holds s ess -> w_active (s_wal s) = None -> Forall (fun es => es <> []) ess ->
  d_files (s_disk s) !! segmentName (next_cursor (w_meta (s_wal s))) = None -> s_wal s' = s_wal s ->
  d_files (s_disk s') = <[segmentName (next_cursor (w_meta (s_wal s))) := []]> (d_files (s_disk s)) ->
  s_outcomes s' `suffix_of` s_outcomes s -> holds s' ess.
Proof.
  intros [H1 H2 H3 Hw H4] Ha Hall Hnone W D [os Hos]. set (path := segmentName _) in *. split; rewrite ?W; try done.
  - eapply Forall2_impl; [exact H1|]. intros seg es []. split; try done. rewrite D, lookup_insert_ne; [done|]. congruence.
  - intros p Hp [x Hx]. rewrite D in Hx. destruct (decide (path = p)) as [<-|Hne].
    + right. split; rewrite ?W; try done. by rewrite D, lookup_insert_eq.
    + rewrite lookup_insert_ne in Hx by done. destruct (H3 p Hp ltac:(eauto)) as [?|[_ -> _ _]]; [by left | done].
  - rewrite Hos in H4. by apply Forall_app in H4 as [_ ?].
Qed.

Lemma createActive_holds now s r s' ess :
  holds s ess -> w_active (s_wal s) = None -> Forall (fun es => es <> []) ess -> createActiveLocked (next_cursor (w_meta (s_wal s))) now s = (r, s') ->
  match r with Ok _ => holds s' (ess ++ [[]]) | Err _ => holds s' ess end.
Proof.
  intros Hh Hidle Hall. unfold createActiveLocked, bind at 1. destruct (calm_syscall s) as [D1 O1].
  destruct (syscall s) as [[u|e] s1] eqn:E1; pose proof (run_same _ _ _ _ same_wal_syscall E1) as W1; simpl in D1, O1.
  2: { intros [= <- <-]. eapply holds_same; [done | by rewrite W1 .. | done | done]. }
  unfold bind at 1, gets at 1. set (path := segmentName _). destruct (d_files (s_disk s1) !! path) eqn:Ep.
  { rewrite bool_decide_eq_true_2 by eauto. intros [= <- <-]. eapply holds_same; [done | by rewrite W1 .. | done | done]. }
  rewrite bool_decide_eq_false_2 by (by intros [? ?]). unfold bind at 1, modify at 1. set (s1' := upd_disk _ s1). unfold bind at 1, attempt.
  destruct (calm_syscall s1') as [D2 O2].
  destruct (syscall s1') as [[u2|e] s2] eqn:E2; pose proof (run_same _ _ _ _ same_wal_syscall E2) as W2; simpl in W2, D2, O2.
  - intros [= <- <-]. eapply holds_snoc_fresh; [exact Hh | done | exact Hall | | | | |].
    + rewrite <- D1. exact Ep.
    + simpl. by rewrite W2, W1.
    + simpl. by rewrite W2, W1.
    + simpl. by rewrite D2, D1.
    + simpl. by etransitivity.
  - unfold bind at 1. destruct (removeFile path s2) as [r3 s3] eqn:E3. pose proof (run_same _ _ _ _ (same_wal_removeFile _) E3) as W3.
    apply removeFile_files in E3 as [O3 D3]. intros [= <- <-]. assert (s_wal s3 = s_wal s) as W by (by rewrite W3, W2, W1).
    assert (s_outcomes s3 `suffix_of` s_outcomes s) as O by (by repeat (etransitivity; [eassumption|])). rewrite D2, D1 in D3.
    rewrite D1 in Ep. destruct r3 as [u3|x].
    + eapply holds_same; [exact Hh | by rewrite W .. | | done]. rewrite D3. by apply delete_insert_id.
    + by eapply holds_stray.
Qed.

(** The record an append writes. *)
Definition new_entry (s : sys) (now : time) (payload : list Z) : entry := mkEntry (next_cursor (w_meta (s_wal s))) now payload.

Lemma holds_grow s s' pre seg ess es now n e :
  holds s (ess ++ [es]) -> w_active (s_wal s) <> None -> w_segments (s_wal s) = pre ++ [seg] ->
  w_segments (s_wal s') = pre ++ [grow_segment (en_cursor e) now n seg] -> w_options (s_wal s') = w_options (s_wal s) ->
  d_files (s_disk s') = <[seg_path seg := file_bytes es ++ frame_bytes e]> (d_files (s_disk s)) ->
  s_outcomes s' `suffix_of` s_outcomes s -> entry_ok (o_MaxBytes (w_options (s_wal s))) e -> n = lenZ (frame_bytes e) ->
  contiguous (es ++ [e]) -> (es = [] -> seg_first seg = en_cursor e) -> holds s' (ess ++ [es ++ [e]]).
Proof.
  intros [H1 H2 H3 Hw H4] Hact Es Es' Eo Ed [os Hos] He -> Hc Hf. rewrite Es in *.
  assert (length pre = length ess) as Hlen by (apply Forall2_length in H1; rewrite !length_app in H1; simpl in H1; lia).
  apply Forall2_app_inv in H1 as [Hpre Hseg]; [|done]. inversion Hseg as [|? ? ? ? Hsg _]; subst.
  rewrite fmap_app in H2. apply NoDup_app in H2 as (N1 & N2 & N3). split; rewrite ?Es', ?Eo, ?Ed.
  - apply Forall2_app.
    + clear -Hpre N2. induction Hpre as [|y ys l1 l2 Hy Hl IH]; constructor.
      * destruct Hy. split; try done. rewrite lookup_insert_ne; [done|]. intros E. apply (N2 (seg_path y)); [by left|]. rewrite <- E. by left.
      * apply IH. intros x Hx. apply N2. by right.
    + constructor; [|constructor]. destruct Hsg. split; simpl.
      * rewrite lookup_insert_eq, file_bytes_app. f_equal. f_equal. by rewrite file_bytes_cons, app_nil_r.
      * apply Forall_app. split; [done | by constructor].
      * rewrite file_bytes_app, lenZ_app, file_bytes_cons, app_nil_r. lia.
      * done.
      * intros x Hx. destruct es as [|e0 es]; simpl in *; [injection Hx as <-; auto | auto].
      * intros x Hx. rewrite last_snoc in Hx. by injection Hx as <-.
  - rewrite fmap_app. by apply NoDup_app.
  - intros p Hp [x Hx]. rewrite fmap_app in H3 |- *. destruct (decide (seg_path seg = p)) as [<-|Hne].
    + left. apply elem_of_app. right. by left.
    + rewrite lookup_insert_ne in Hx by done. destruct (H3 p Hp ltac:(eauto)) as [?|[_ _ ? _]]; [by left | done].
  - rewrite removelast_last in *. done.
  - rewrite Hos in H4. by apply Forall_app in H4 as [_ ?].
Qed.

Lemma contiguous_snoc es e l : contiguous es -> last es = Some l -> en_cursor e = mkCursor (Incarnation (en_cursor l)) (Seq (en_cursor l) + 1) ->
  contiguous (es ++ [e]).
Proof.
  destruct es as [|e0 es]; [done|]. simpl. intros Hc Hl He. apply continues_snoc. split; [done|]. rewrite last_cons in Hl.
  assert (Incarnation (default (en_cursor e0) (en_cursor <$> last es)) = Incarnation (en_cursor e0)) as Hinc.
  { clear -Hc. revert Hc. generalize (en_cursor e0) as c. induction es as [|x es IH]; intros c; simpl; [done|]. intros [Hx Hc].
    rewrite last_cons. specialize (IH _ Hc). destruct (last es); simpl in *; rewrite ?IH, Hx; done. }
  destruct (last es) as [x|]; simpl in *; injection Hl as <-; rewrite He; by rewrite ?Hinc.
Qed.

(** The active segment with its records: the next cursor continues them. *)
Lemma active_holds s a ess :
  wal_inv (s_wal s) -> holds s ess -> w_active (s_wal s) = Some a ->
  exists pre seg ess0 es, w_segments (s_wal s) = pre ++ [seg] /\ ess = ess0 ++ [es] /\ a_path a = seg_path seg /\
    seg_holds (o_MaxBytes (w_options (s_wal s))) (d_files (s_disk s)) seg es /\
    (es = [] -> seg_first seg = next_cursor (w_meta (s_wal s))) /\
    forall e, en_cursor e = next_cursor (w_meta (s_wal s)) -> contiguous (es ++ [e]).
Proof.
  intros Hi Hh Ha. pose proof (wi_active _ Hi) as Hact. unfold active_ok in Hact. rewrite Ha in Hact.
  destruct Hact as (pre & seg & Es & Hp & _ & Hst). pose proof (ho_segs _ _ Hh) as H1. rewrite Es in H1.
  apply Forall2_app_inv_l in H1 as (ess0 & l & Hpre & Hl & ->). inversion Hl as [|? es ? ? Hseg Hnil]; subst. inversion Hnil; subst.
  exists pre, seg, ess0, es. split_and!; try done.
  - intros ->. destruct Hst as [(_ & _ & ? & _) | (_ & Hb & _)]; [done|]. rewrite (sh_bytes _ _ _ _ Hseg) in Hb. done.
  - intros e He. destruct (last es) as [l|] eqn:El; [|apply last_None in El as ->; done].
    eapply contiguous_snoc; [by apply Hseg | done|]. pose proof (sh_last _ _ _ _ Hseg l El) as Hle. destruct Hst as [(_ & Hb & _) | (_ & _ & Hin & Hla)].
    { exfalso. rewrite (sh_bytes _ _ _ _ Hseg) in Hb. apply file_bytes_empty with (maxb := o_MaxBytes (w_options (s_wal s))) in Hb; [by subst | by apply Hseg]. }
    destruct (wi_meta _ Hi) as (_ & _ & _ & _ & _ & _ & _ & Hc & _). unfold counters_valid in Hc. rewrite Hla in Hc.
    destruct Hc as (H1 & _). destruct (H1 Hin) as [_ Hn]. rewrite He, <- Hle. unfold next_cursor. by rewrite Hn, Hin.
Qed.

Lemma writeFull_files path data s r s' old :
  d_files (s_disk s) !! path = Some old -> Forall atomic (s_outcomes s) -> writeFull path data s = (r, s') ->
  s_outcomes s' `suffix_of` s_outcomes s /\
  d_files (s_disk s') = match r with Ok _ => <[path := old ++ data]> (d_files (s_disk s)) | Err _ => d_files (s_disk s) end.
Proof.
  intros Hold Hat. unfold writeFull, bind at 1, next_outcome. destruct (s_outcomes s) as [|o os] eqn:Eo.
  { intros [= <- <-]. simpl. rewrite Eo, Hold. by split. }
  apply Forall_cons in Hat as [[->| ->] _]; intros [= <- <-]; simpl; rewrite Hold; (split; [by eexists [_]|]); simpl; [done|].
  rewrite app_nil_r. by apply insert_id.
Qed.

Lemma write_holds now payload frame a s r s' ess :
  wal_inv (s_wal s) -> holds s ess -> w_active (s_wal s) = Some a -> i64_ok now ->
  encodeFrame (next_cursor (w_meta (s_wal s))) now payload = Ok frame -> lenZ frame <= o_MaxBytes (w_options (s_wal s)) ->
  write_frame (next_cursor (w_meta (s_wal s))) now payload frame a s = (r, s') ->
  exists ess', holds s' ess' /\ mjoin ess' = mjoin ess ++ match r with Ok _ => [new_entry s now payload] | Err _ => [] end.
Proof.
  intros Hi Hh Ha Hnow Henc Hmax. destruct (active_holds _ _ _ Hi Hh Ha) as (pre & seg & ess0 & es & Es & -> & Hp & Hseg & Hfresh & Hcont).
  set (e := new_entry s now payload). assert (frame_bytes e = frame) as Hfb by (unfold frame_bytes, e; simpl; by rewrite Henc).
  pose proof (encodeFrame_inv _ _ _ _ Henc) as (Hlen1 & Hlen2 & _).
  assert (entry_ok (o_MaxBytes (w_options (s_wal s))) e) as He.
  { pose proof (next_cursor_ok _ Hi). split_and!; try done; simpl; lia. }
  pose proof (sh_file _ _ _ _ Hseg) as Hfile. unfold write_frame, bind at 1, gets at 1, bind at 1. rewrite Hp.
  destruct (writeFull (seg_path seg) frame s) as [r1 s1] eqn:E1. pose proof (run_same _ _ _ _ (same_wal_writeFull _ _) E1) as W1.
  apply (writeFull_files _ _ _ _ _ _ Hfile (ho_atomic _ _ Hh)) in E1 as [O1 D1]. destruct r1 as [u|x].
  2: { intros [= <- <-]. exists (ess0 ++ [es]). rewrite app_nil_r. split; [|done].
    eapply holds_same; [exact Hh | by rewrite W1 .. | done | done]. }
  unfold bind at 1, modify at 1. cbv zeta. unfold bind at 1, gets at 1. set (s2 := upd_wal _ s1).
  assert (holds s2 (ess0 ++ [es ++ [e]])) as Hh2.
    { eapply holds_grow with (now := now) (n := lenZ frame); [exact Hh | by rewrite Ha | exact Es | | | | | done | by rewrite Hfb | by apply Hcont | done].
      - unfold s2. simpl. rewrite W1. unfold record_append. rewrite Ha. simpl. rewrite Es. apply grow_map; [| |by rewrite Hp].
        + rewrite <- Es. apply Hi.
        + rewrite <- Es. apply Hi.
      - unfold s2. simpl. rewrite W1. unfold record_append. by rewrite Ha.
      - unfold s2. simpl. rewrite D1, Hfb. done.
      - done. }
    assert (mjoin (ess0 ++ [es ++ [e]]) = mjoin (ess0 ++ [es]) ++ [e]) as Hj by (rewrite !join_app; simpl; rewrite !app_nil_r, <- app_assoc; done).
    intros E. exists (ess0 ++ [es ++ [e]]). revert E. destruct (w_active (s_wal s2)); [|intros [= <- <-]; by split].
    case_if; [|intros [= <- <-]; by split]. unfold bind, attempt. pose proof (syncLocked_holds _ _ Hh2) as Hh3.
    destruct (syncLocked s2) as [[u2|x] s3]; intros [= <- <-]; by split.
Qed.

Lemma mjoin_drop {A} (ll : list (list A)) k : mjoin (drop k ll) `suffix_of` mjoin ll.
Proof. exists (mjoin (take k ll)). by rewrite <- join_app, take_drop. Qed.

Lemma make_room_shrinks now n w : shrinks (make_room now n w).
Proof. unfold make_room. auto 20 with shrinks. Qed.

(** An append keeps a suffix of the log and puts its record after it; when it
    fails, no record is added. *)
Lemma appendLocked_holds now payload s r s' ess :
  wal_inv (s_wal s) -> i64_ok now -> holds s ess -> appendLocked now payload s = (r, s') ->
  exists ess' old, holds s' ess' /\ old `suffix_of` mjoin ess /\
    mjoin ess' = old ++ match r with Ok _ => [new_entry s now payload] | Err _ => [] end.
Proof.
  intros Hi Hnow Hh.
  assert (forall s1 k, holds s1 (drop k ess) -> exists ess' old, holds s1 ess' /\ old `suffix_of` mjoin ess /\ mjoin ess' = old ++ []) as Herr.
  { intros s1 k Hk. exists (drop k ess), (mjoin (drop k ess)). rewrite app_nil_r. split_and!; [done | apply mjoin_drop | done]. }
  unfold appendLocked, bind at 1, gets at 1.
  destruct (w_closed (s_wal s)) eqn:Hcl; [intros [= <- <-]; exact (Herr s 0%nat Hh)|].
  destruct (w_backgroundErr (s_wal s)); [intros [= <- <-]; exact (Herr s 0%nat Hh)|].
  unfold bind at 1. destruct (calm_ctxErr s) as [D1 O1]. destruct (ctxErr s) as [[u|e] s1] eqn:E1;
    pose proof (run_same _ _ _ _ same_wal_ctxErr E1) as W1; simpl in D1, O1;
    (assert (holds s1 ess) as Hh1 by (eapply holds_same; [done | by rewrite W1 .. | done | done]));
    [|intros [= <- <-]; exact (Herr s1 0%nat Hh1)].
  cbv zeta. fold (next_cursor (w_meta (s_wal s))).
  do 2 (case_if; [intros [= <- <-]; exact (Herr s1 0%nat Hh1)|]). bool_to_prop.
  destruct (encodeFrame _ now payload) as [frame|] eqn:Ef; [|intros [= <- <-]; exact (Herr s1 0%nat Hh1)].
  case_if; [intros [= <- <-]; exact (Herr s1 0%nat Hh1)|]. bool_to_prop. rewrite <- W1 in *. unfold bind at 1.
  pose proof (make_room_quiet now (lenZ frame) (s_wal s1) s1) as Hq. destruct (make_room_shrinks now (lenZ frame) (s_wal s1) s1 ess Hh1) as [k Hk].
  destruct (make_room now (lenZ frame) (s_wal s1) s1) as [[[]|e] s2]; destruct (Hq Hi) as (Hi2 & _ & Hf2); simpl in Hi2, Hf2, Hk.
  2: { intros [= <- <-]. exact (Herr s2 k Hk). }
  assert (new_entry s now payload = new_entry s2 now payload) as -> by (unfold new_entry; by rewrite (wf_next _ _ Hf2), W1).
  rewrite <- (wf_next _ _ Hf2) in Ef |- *. rewrite <- (wf_options _ _ Hf2) in *. unfold bind at 1, gets at 1.
  destruct (w_active (s_wal s2)) as [a|] eqn:Ea.
  - unfold bind at 1, ret at 1, bind at 1, gets at 1. rewrite Ea. intros Ew.
    apply (write_holds _ _ _ _ _ _ _ (drop k ess)) in Ew as (ess' & H1 & H2); [|done..].
    exists ess', (mjoin (drop k ess)). split_and!; [done | apply mjoin_drop | done].
  - unfold bind at 1. destruct (createActiveLocked _ now s2) as [r3 s3] eqn:E3. assert (w_closed (s_wal s2) = false) as Hcl2 by (by rewrite (wf_closed _ _ Hf2)).
    pose proof (createActive_holds _ _ _ _ _ Hk Ea (holds_nonempty _ _ Hi2 Hk Hcl2 Ea) E3) as Hk3.
    destruct (createActive_effect _ _ _ _ E3) as [[W3 Hr] | [W3 Hr]]; destruct r3 as [u3|e]; try done.
    { intros [= <- <-]. exact (Herr s3 k Hk3). }
    unfold bind at 1, gets at 1. destruct (with_fresh_quiet (s_wal s2) now Ea Hcl2 Hi2) as (Hi3 & _).
    rewrite W3. cbn [w_active with_fresh set_active]. rewrite <- W3 in Hi3.
    assert (new_entry s2 now payload = new_entry s3 now payload) as -> by (unfold new_entry; by rewrite W3).
    assert (next_cursor (w_meta (s_wal s2)) = next_cursor (w_meta (s_wal s3))) as En by (by rewrite W3). rewrite En in *. intros Ew.
    apply (write_holds _ _ _ _ _ _ _ (drop k ess ++ [[]])) in Ew as (ess' & H1 & H2); try done; [|by rewrite W3 | rewrite W3; simpl; lia].
    exists ess', (mjoin (drop k ess)). rewrite join_app in H2. simpl in H2. rewrite app_nil_r in H2. split_and!; [done | apply mjoin_drop | done].
Qed.

(** ** The other operations *)

Lemma read_segment_calm fuel id maxb limit start rd expected lastRead acc : calm (read_segment fuel id maxb limit start rd expected lastRead acc).
Proof.
  revert rd expected lastRead acc. induction fuel as [|fuel IH]; intros; cbn [read_segment]; [auto with calm|]. case_decide; [|auto with calm].
  apply calm_log_bind; [auto with calm|]. intros _. destruct (readFrame maxb rd) as [[f|[]] rd']; auto with calm.
Qed.
Lemma openSegment_calm path : calm (openSegment path).
Proof. unfold openSegment. auto 20 with calm. Qed.
#[export] Hint Resolve read_segment_calm openSegment_calm : calm.
Lemma read_segments_calm w limit start segs acc : calm (read_segments w limit start segs acc).
Proof.
  revert acc. induction segs as [|seg segs IH]; intros acc; cbn [read_segments]; [auto with calm|]. case_if; [auto|].
  apply calm_log_bind; [auto with calm|]. intros data. apply calm_log_bind; [auto with calm|]. intros [acc' lastRead]. apply calm_log_bind; [auto with calm|]. intros _.
  case_if; [auto with calm|]. case_decide; auto with calm.
Qed.
#[export] Hint Resolve read_segments_calm : calm.
Lemma ReadAuditFrom_calm now start limit : calm (ReadAuditFrom now start limit).
Proof. unfold ReadAuditFrom. auto 20 with calm. Qed.

Lemma op_run_shrinks op s ess : holds s ess -> match op with OpAppend _ _ => False | _ => True end ->
  exists k, holds (op_run op s) (drop k ess).
Proof.
  intros Hh Hop. destruct op; try done; simpl; revert s ess Hh.
  - change (shrinks Sync). unfold Sync. auto 20 with shrinks.
  - change (shrinks Close). unfold Close. auto 20 with shrinks.
  - change (shrinks (tick now)). unfold tick. auto 20 with shrinks.
  - change (shrinks (AckAudit archive proposed seen)). unfold AckAudit, deleteACKedLocked. auto 30 with shrinks.
  - change (shrinks (RebindArchive archive)). unfold RebindArchive. auto 20 with shrinks.
  - change (shrinks (EnforceLimits now)). unfold EnforceLimits. auto 20 with shrinks.
  - change (shrinks (ReclaimACKedForDiskPressure now bytesNeeded)). unfold ReclaimACKedForDiskPressure. auto 20 with shrinks.
  - change (shrinks (ReclaimUnackedForDiskPressure now bytesNeeded)). unfold ReclaimUnackedForDiskPressure. auto 20 with shrinks.
  - change (shrinks (ReclaimForDiskPressure now bytesNeeded)). unfold ReclaimForDiskPressure, ReclaimACKedForDiskPressure, ReclaimUnackedForDiskPressure.
    auto 30 with shrinks.
  - change (shrinks (ReadAuditFrom now start limit)). apply shrinks_same; [apply ReadAuditFrom_calm | apply ReadAuditFrom_same].
Qed.

(** ** Reading *)

Definition record_of (agentID : string) (e : entry) : walRecord := mkRecord agentID (en_cursor e) (en_at e) (en_payload e).

(** The records at or after a cursor. *)
Definition entries_from (start : Cursor) (es : list entry) : list entry :=
  List.filter (fun e => compareCursor (en_cursor e) start >=? 0) es.

(** The error of a call, or of an ended context. *)
Definition call_error (e : walErr) : Prop := e = ErrIO \/ e = ErrContext.

Lemma syscall_error s e s' : syscall s = (Err e, s') -> call_error e.
Proof. unfold syscall, bind, next_outcome. destruct (s_outcomes s) as [|[n|] ?]; intros [=]; subst; by left. Qed.
Lemma ctxErr_error s e s' : ctxErr s = (Err e, s') -> call_error e.
Proof. unfold ctxErr, bind, next_outcome. destruct (s_outcomes s) as [|[n|] ?]; intros [=]; subst; by right. Qed.

Lemma read_segment_exact maxb id limit start es : forall fuel expected lastRead acc s r s',
  Forall (entry_ok maxb) es -> contiguous es -> (forall e, head es = Some e -> expected = en_cursor e) ->
  (length es < fuel)%nat -> (length acc <= limit)%nat ->
  read_segment fuel id maxb limit start (file_bytes es) expected lastRead acc s = (r, s') ->
  match r with
  | Err e => call_error e
  | Ok (acc', last') => acc' = take limit (acc ++ (record_of id <$> entries_from start es)) /\
      ((length acc' < limit)%nat -> last' = default lastRead (en_cursor <$> last es))
  end.
Proof.
  induction es as [|e es IH]; intros [|fuel] expected lastRead acc s r s' Hok Hc Hexp Hfuel Hacc; simpl in Hfuel; try lia; cbn [read_segment].
  - case_decide.
    + unfold bind. destruct (ctxErr s) as [[u|x] s1] eqn:Ec; [|intros [= <- <-]; by eapply ctxErr_error].
      intros [= <- <-]. simpl. rewrite app_nil_r, take_ge by lia. done.
    + intros [= <- <-]. simpl. rewrite app_nil_r, take_ge by lia. done.
  - apply Forall_cons in Hok as [He Hok]. case_decide as Hlim.
    2: { intros [= <- <-]. rewrite take_app_le, take_ge by lia. split; [done | lia]. }
    unfold bind at 1. destruct (ctxErr s) as [[u|x] s1] eqn:Ec; [|intros [= <- <-]; by eapply ctxErr_error].
    destruct (frame_bytes_ok _ _ He) as (Henc & Hmax & _). destruct He as (Hcur & Ht & _).
    rewrite file_bytes_cons, (readFrame_encoded _ _ _ _ _ _ Henc Hcur Ht Hmax). cbn [df_cursor df_at df_payload].
    rewrite (Hexp e eq_refl), bool_decide_eq_true_2 by done. cbn [negb]. intros E. set (acc1 := if compareCursor _ _ >=? _ then _ else _) in E.
    assert (length acc1 <= limit)%nat as Hl1 by (unfold acc1; case_if; rewrite ?length_app; simpl; lia).
    apply IH in E; [| done | | | lia | done].
    + destruct r as [[acc' last']|]; [|done]. destruct E as [-> Hlast]. split.
      * f_equal. unfold acc1, entries_from. simpl. destruct (compareCursor (en_cursor e) start >=? 0); [|done]. simpl. by rewrite <- app_assoc.
      * intros Hlt. rewrite (Hlast Hlt), last_cons. by destruct (last es).
    + destruct es as [|e1 es]; [done | by destruct Hc].
    + intros e1 He1. destruct es as [|e2 es]; [done|]. injection He1 as <-. destruct Hc as [Hn _]. rewrite Hn.
      apply Forall_cons in Hok as [(He1 & _) _]. destruct He1 as [_ He1]. rewrite Hn in He1. simpl in He1.
      replace (Seq (en_cursor e) =? max_u64) with false by lia. done.
Qed.

Lemma contiguous_le es l e : contiguous es -> last es = Some l -> e ∈ es -> cursor_le (en_cursor e) (en_cursor l).
Proof.
  revert e. induction es as [|x es IH]; intros e Hc Hl He; [by apply elem_of_nil in He|].
  destruct es as [|y es]; [injection Hl as <-; apply list_elem_of_singleton in He as ->; reflexivity|].
  destruct Hc as [Hn Hc]. apply elem_of_cons in He as [->|He]; [|by apply IH].
  transitivity (en_cursor y); [|apply IH; [done | done | by left]]. rewrite Hn. right. simpl. lia.
Qed.

Lemma entries_below start es l : contiguous es -> last es = Some l -> cursor_lt (en_cursor l) start -> entries_from start es = [].
Proof.
  intros Hc Hl Hlt. assert (forall e, e ∈ es -> cursor_lt (en_cursor e) start) as H.
  { intros e He. eapply cursor_le_lt_trans; [by eapply contiguous_le | done]. }
  clear -H. induction es as [|e es IH]; simpl; [done|]. rewrite IH by (intros; apply H; by right).
  destruct (compareCursor (en_cursor e) start >=? 0) eqn:E; [|done]. bool_to_prop. cursor_cases.
  by destruct (cursor_lt_not_le (en_cursor e) start); [apply H; left|].
Qed.

Lemma read_segments_exact w limit start : forall segs ess acc s r s',
  Forall2 (seg_holds (o_MaxBytes (w_options w)) (d_files (s_disk s))) segs ess -> (length acc <= limit)%nat ->
  read_segments w limit start segs acc s = (r, s') ->
  match r with
  | Err e => call_error e \/ (e = ErrCorrupt /\ exists seg, seg ∈ segs /\ seg_bytes seg = 0)
  | Ok acc' => acc' = take limit (acc ++ (record_of (w_agentID w) <$> entries_from start (mjoin ess)))
  end.
Proof.
  induction segs as [|seg segs IH]; intros ess acc s r s' Hs Hacc; cbn [read_segments].
  { inversion Hs; subst. intros [= <- <-]. simpl. rewrite app_nil_r, take_ge; done. }
  inversion Hs as [|? es ? ess' Hseg Hs']; subst. simpl mjoin. unfold entries_from. rewrite List.filter_app, fmap_app.
  fold (entries_from start es) (entries_from start (mjoin ess')).
  assert (forall (r : res walErr (list walRecord)), match r with
    | Err e => call_error e \/ (e = ErrCorrupt /\ exists sg, sg ∈ segs /\ seg_bytes sg = 0)
    | Ok acc' => acc' = take limit ((acc ++ (record_of (w_agentID w) <$> entries_from start es)) ++ (record_of (w_agentID w) <$> entries_from start (mjoin ess')))
    end -> match r with
    | Err e => call_error e \/ (e = ErrCorrupt /\ exists sg, sg ∈ seg :: segs /\ seg_bytes sg = 0)
    | Ok acc' => acc' = take limit (acc ++ (record_of (w_agentID w) <$> entries_from start es) ++ (record_of (w_agentID w) <$> entries_from start (mjoin ess')))
    end) as Hlift.
  { intros [x|x]; [by rewrite <- app_assoc|]. intros [?|(? & sg & ? & ?)]; [by left|]. right. split; [done|]. exists sg. split; [by right | done]. }
  case_if.
  { bool_to_prop. cursor_cases. intros E. apply Hlift. assert (entries_from start es = []) as ->; [|simpl; rewrite app_nil_r; by eapply IH].
    destruct (last es) as [l|] eqn:El; [|by apply last_None in El as ->]. eapply entries_below; [by apply Hseg | done|].
    by rewrite <- (sh_last _ _ _ _ Hseg l El). }
  unfold bind at 1, openSegment. unfold bind at 1, gets at 1. rewrite (sh_file _ _ _ _ Hseg). unfold bind at 1.
  destruct (calm_syscall s) as [D1 _]. destruct (syscall s) as [[u|x] s1] eqn:E1; simpl in D1; [|intros [= <- <-]; left; by eapply syscall_error].
  unfold ret at 1, bind at 1. destruct (read_segment _ _ _ _ _ _ _ _ _ s1) as [r2 s2] eqn:E2.
  match type of E2 with ?m s1 = _ => destruct ((ltac:(auto with calm) : calm m) s1) as [D2 _]; rewrite E2 in D2; simpl in D2 end.
  apply read_segment_exact in E2; [| apply Hseg | apply Hseg | intros e He; by apply (sh_first _ _ _ _ Hseg) | apply Nat.lt_succ_r; eapply length_file_bytes, Hseg | done].
  destruct r2 as [[acc' last']|x]; [|intros [= <- <-]; by left]. destruct E2 as [-> Hlast].
  unfold bind at 1. destruct (calm_syscall s2) as [D3 _]. destruct (syscall s2) as [[u3|x] s3] eqn:E3; simpl in D3; [|intros [= <- <-]; left; by eapply syscall_error].
  set (acc1 := take limit (acc ++ (record_of (w_agentID w) <$> entries_from start es))) in *. assert (length acc1 <= limit)%nat as Hl1 by (unfold acc1; rewrite length_take; lia).
  case_if.
  { intros [= <- <-]. bool_to_prop. right. split; [done|]. exists seg. split; [by left|].
    destruct (last es) as [l|] eqn:El; [|apply last_None in El as ->; by rewrite (sh_bytes _ _ _ _ Hseg)].
    exfalso. match goal with H : _ <> seg_last seg |- _ => apply H end. rewrite Hlast by done. simpl. by rewrite (sh_last _ _ _ _ Hseg l El). }
  intros E. apply Hlift. case_decide as Hfull.
  - injection E as <- <-. unfold acc1 in *. rewrite length_take in Hfull. symmetry. apply take_app_le. lia.
  - apply IH with (ess := ess') in E; [| rewrite D3, D2, D1; exact Hs' | exact Hl1].
    assert (length acc1 < limit)%nat as Hlt by lia. unfold acc1 in *. rewrite length_take in Hlt.
    rewrite (take_ge (acc ++ _)) in E by lia. done.
Qed.

(** ** Reopening *)

(** Two lists of names of valid cursors with the same elements, both sorted, are
    equal. *)
Lemma names_unique (l1 l2 : list Cursor) :
  Forall cursor_ok l1 -> StronglySorted cursor_lt l1 -> Forall cursor_ok l2 ->
  sorted_by name_less (segmentName <$> l2) -> segmentName <$> l2 ≡ₚ segmentName <$> l1 -> l2 = l1.
Proof.
  intros Hok1 Hs1 Hok2 Hs2 Hp.
  assert (forall a b, cursor_ok a -> cursor_ok b -> segmentName a = segmentName b -> a = b) as Hinj.
  { intros a b Ha Hb E. pose proof (parse_segmentName a Ha) as H. rewrite E, (parse_segmentName b Hb) in H. congruence. }
  assert (l2 ≡ₚ l1) as Hp'.
  { apply NoDup_Permutation.
    - assert (NoDup (segmentName <$> l1)) as Hnd.
      { clear -Hok1 Hs1 Hinj. induction Hs1 as [|c l Hs IH Hall]; simpl; [constructor|]. apply Forall_cons in Hok1 as [Hc Hok].
        constructor; [|auto]. intros Hin. apply list_elem_of_fmap in Hin as (d & E & Hd). rewrite Forall_forall in Hall, Hok.
        apply Hinj in E as ->; auto. by apply (irreflexivity cursor_lt d), Hall. }
      rewrite <- Hp in Hnd. by apply NoDup_fmap_1 in Hnd.
    - clear -Hs1. induction Hs1 as [|c l Hs IH Hall]; constructor; [|done]. intros Hin. rewrite Forall_forall in Hall.
      by apply (irreflexivity cursor_lt c), Hall.
    - rewrite Forall_forall in Hok1, Hok2. intros c. split; intros Hc.
      + assert (segmentName c ∈ segmentName <$> l1) as H by (rewrite <- Hp; by apply list_elem_of_fmap_2).
        apply list_elem_of_fmap in H as (d & E & Hd). apply Hinj in E as ->; auto.
      + assert (segmentName c ∈ segmentName <$> l2) as H by (rewrite Hp; by apply list_elem_of_fmap_2).
        apply list_elem_of_fmap in H as (d & E & Hd). apply Hinj in E as ->; auto. }
  assert (AntiSymm (=) cursor_le) as Hanti.
  { intros [i q] [j r]. unfold cursor_le. simpl. intros ? ?. f_equal; lia. }
  apply (Sorted_unique cursor_le); [| |done].
  - clear -Hok2 Hs2. induction l2 as [|c l IH]; [constructor|]. apply Forall_cons in Hok2 as [Hc Hok]. inversion Hs2 as [|? ? Hs Hhd]; subst.
    constructor; [by apply IH|]. destruct l as [|d l]; constructor. inversion Hhd as [|? ? Hlt]; subst. apply Forall_cons in Hok as [Hd _].
    apply cursor_nlt_le. intros Hdc. unfold name_less in Hlt. apply bool_decide_eq_false in Hlt. apply Hlt. by apply segmentName_order.
  - apply StronglySorted_Sorted. clear -Hs1. induction Hs1 as [|c l Hs IH Hall]; constructor; [done|].
    eapply Forall_impl; [exact Hall|]. intros d. apply cursor_lt_le.
Qed.

Lemma segmentName_is_file c : is_segment_file (segmentName c) = true.
Proof.
  unfold is_segment_file, segmentName. rewrite <- !str_app_assoc. apply andb_true_iff. split.
  - rewrite !str_app_assoc. by destruct (decimal_pad _ _).
  - apply bool_decide_eq_true. rewrite trimSuffix_app. intros E. apply (f_equal String.length) in E. rewrite !str_length_app in E. simpl in E. lia.
Qed.

Lemma sorted_firsts segs : Forall seg_ok segs -> StronglySorted seg_before segs -> StronglySorted cursor_lt (seg_first <$> segs).
Proof.
  intros Hok Hs. induction Hs as [|seg l Hs IH Hall]; simpl; [constructor|]. apply Forall_cons in Hok as [Hseg Hok]. constructor; [auto|].
  apply Forall_fmap, Forall_forall. intros x Hx. rewrite Forall_forall in Hall. eapply cursor_le_lt_trans; [by apply seg_first_le_last | by apply Hall].
Qed.

(** The directory lists the live segments, in order. *)
Lemma segment_paths_live s ess : Forall seg_ok (w_segments (s_wal s)) -> StronglySorted seg_before (w_segments (s_wal s)) -> holds s ess -> tidy s ->
  segment_paths (d_files (s_disk s)) = seg_path <$> w_segments (s_wal s).
Proof.
  intros Hok Hord Hh Htidy. set (segs := w_segments (s_wal s)) in *.
  assert (seg_path <$> segs = segmentName <$> (seg_first <$> segs)) as Hnames.
  { rewrite <- list_fmap_compose. apply list_fmap_ext. intros i seg Hseg. rewrite Forall_forall in Hok.
    by apply (parseSegmentName_inv _ _ (so_path _ (Hok seg (list_elem_of_lookup_2 _ _ _ Hseg)))). }
  assert (segment_paths (d_files (s_disk s)) ≡ₚ seg_path <$> segs) as Hperm.
  { unfold segment_paths. rewrite sort_by_perm. apply NoDup_Permutation; [|apply Hh|].
    - apply NoDup_ListNoDup, List.NoDup_filter, NoDup_ListNoDup, NoDup_fst_map_to_list.
    - intros p. rewrite !list_elem_of_In, List.filter_In, <- !list_elem_of_In. split.
      + intros [Hp Hf]. apply list_elem_of_fmap in Hp as ([p' data] & -> & Hp). apply elem_of_map_to_list in Hp. apply Htidy; [done | eauto].
      + intros Hp. split.
        * apply list_elem_of_fmap in Hp as (seg & -> & Hseg). apply list_elem_of_lookup_1 in Hseg as [i Hseg].
          destruct (Forall2_lookup_l _ _ _ _ _ (ho_segs _ _ Hh) Hseg) as (es & _ & Hsh). apply list_elem_of_fmap.
          exists (seg_path seg, file_bytes es). split; [done|]. apply elem_of_map_to_list. apply Hsh.
        * rewrite Hnames in Hp. apply list_elem_of_fmap in Hp as (c & -> & _). apply segmentName_is_file. }
  rewrite Hnames in Hperm |- *. destruct (Permutation_map_inv _ _ Hperm) as (l2 & El2 & Hp2). rewrite El2 in Hperm |- *. f_equal.
  apply names_unique.
  - apply Forall_fmap. eapply Forall_impl; [exact Hok|]. intros seg. apply so_first.
  - by apply sorted_firsts.
  - rewrite <- Hp2. apply Forall_fmap. eapply Forall_impl; [exact Hok|]. intros seg. apply so_first.
  - change (sorted_by name_less (map segmentName l2)). rewrite <- El2. apply sort_by_sorted. intros x y Hxy. unfold name_less in *. apply bool_decide_eq_true in Hxy. apply bool_decide_eq_false.
    intros H. rewrite String.compare_antisym, Hxy in H. done.
  - done.
Qed.

Lemma scan_intact path rt maxb e es : Forall (entry_ok maxb) (e :: es) -> contiguous (e :: es) ->
  scanFrames (file_bytes (e :: es)) path rt maxb = (Some (segment_of path e es), lenZ (file_bytes (e :: es)), StopEOF).
Proof.
  intros Hok Hc. destruct (scanFrames_run path rt maxb e es [] (file_bytes (e :: es)) Hok Hc) as (fuel & Hf & ->); [by rewrite app_nil_r|].
  destruct fuel as [|fuel]; [simpl in Hf; lia|]. done.
Qed.

(** Scanning an intact file of records leaves it and describes it. *)
Lemma scanSegment_records seg rt maxb es s r s' : seg_ok seg -> seg_holds maxb (d_files (s_disk s)) seg es -> es <> [] ->
  scanSegment (seg_path seg) rt maxb s = (Ok r, s') ->
  d_files (s_disk s') = d_files (s_disk s) /\ s_outcomes s' `suffix_of` s_outcomes s /\
  exists seg', r = Some seg' /\ seg_path seg' = seg_path seg /\ seg_holds maxb (d_files (s_disk s)) seg' es.
Proof.
  intros Hso Hh Hne. destruct es as [|e es]; [done|]. unfold scanSegment, bind at 1, openSegment, bind at 1, gets at 1.
  rewrite (sh_file _ _ _ _ Hh). unfold bind at 1. destruct (calm_syscall s) as [D1 O1]. destruct (syscall s) as [[u|] s1]; [|done]. simpl in D1, O1.
  unfold ret at 1, bind at 1. destruct (calm_syscall s1) as [D2 O2]. destruct (syscall s1) as [[u2|] s2]; [|done]. simpl in D2, O2.
  rewrite scan_intact by apply Hh. unfold bind at 1, repair at 1, ret at 1. cbv zeta.
  assert (seg_first seg = en_cursor e) as Hfirst by (by apply (sh_first _ _ _ _ Hh)). cbn [seg_path seg_first seg_last seg_oldestAt seg_newestAt segment_of].
  rewrite (so_path _ Hso), Hfirst, bool_decide_eq_true_2 by done. intros [= <- <-]. rewrite D2, D1. split_and!; [done | by etransitivity|].
  eexists. split_and!; [done | done|]. destruct Hh. split; simpl; try done.
  - by intros x [= <-].
  - intros x. rewrite last_cons. destruct (last es); intros [= <-]; done.
Qed.

(** An empty last file is removed. *)
Lemma scanSegment_empty seg maxb s r s' : seg_holds maxb (d_files (s_disk s)) seg [] ->
  scanSegment (seg_path seg) true maxb s = (Ok r, s') ->
  d_files (s_disk s') = delete (seg_path seg) (d_files (s_disk s)) /\ s_outcomes s' `suffix_of` s_outcomes s /\ r = None.
Proof.
  intros Hh. unfold scanSegment, bind at 1, openSegment, bind at 1, gets at 1.
  rewrite (sh_file _ _ _ _ Hh). unfold bind at 1. destruct (calm_syscall s) as [D1 O1]. destruct (syscall s) as [[u|] s1]; [|done]. simpl in D1, O1.
  unfold ret at 1, bind at 1. destruct (calm_syscall s1) as [D2 O2]. destruct (syscall s1) as [[u2|] s2]; [|done]. simpl in D2, O2.
  change (scanFrames (file_bytes []) (seg_path seg) true maxb) with ((None : option segment), 0, StopEOF).
  unfold bind at 1, repair at 1, ret at 1. cbn [negb]. unfold bind at 1. destruct (removeFile (seg_path seg) s2) as [[u3|] s3] eqn:E3; [|done].
  apply removeFile_files in E3 as [O3 D3]. unfold bind at 1. destruct (calm_syncDirectory s3) as [D4 O4]. destruct (syncDirectory s3) as [[u4|] s4]; [|done].
  simpl in D4, O4. intros [= <- <-]. rewrite D4, D3, D2, D1. split_and!; [done | | done]. by repeat (etransitivity; [eassumption|]).
Qed.

Lemma seg_holds_files maxb files files' seg es : seg_holds maxb files seg es -> files' !! seg_path seg = files !! seg_path seg -> seg_holds maxb files' seg es.
Proof. intros [] E. split; try done. by rewrite E. Qed.

(** What a scan of the directory of an intact log returns. *)
Record rescan (maxb : Z) (files files' : gmap string (list Z)) (segs segs' : list segment) (ess : list (list entry)) : Prop := {
  rs_holds : exists ess', Forall2 (seg_holds maxb files') segs' ess' /\ mjoin ess' = mjoin ess /\ Forall (fun es => es <> []) ess';
  rs_paths : seg_path <$> segs' `sublist_of` seg_path <$> segs;
  rs_dir : forall p, is_Some (files' !! p) -> is_Some (files !! p) /\ (p ∈ seg_path <$> segs -> p ∈ seg_path <$> segs');
  rs_else : forall p, p ∉ seg_path <$> segs -> files' !! p = files !! p;
}.

Lemma scan_all_exact maxb segs : forall ess s segs' s',
  Forall seg_ok segs -> NoDup (seg_path <$> segs) -> Forall2 (seg_holds maxb (d_files (s_disk s))) segs ess ->
  Forall (fun es => es <> []) (removelast ess) -> scan_all maxb (seg_path <$> segs) s = (Ok segs', s') ->
  s_outcomes s' `suffix_of` s_outcomes s /\ rescan maxb (d_files (s_disk s)) (d_files (s_disk s')) segs segs' ess.
Proof.
  induction segs as [|seg segs IH]; intros ess s segs' s' Hok Hnd Hh Hne; cbn [fmap list_fmap scan_all].
  { inversion Hh; subst. intros [= <- <-]. split; [done|]. split; [by exists [] | constructor | done | done]. }
  inversion Hh as [|? es ? ess1 Hseg Hsegs]; subst. apply Forall_cons in Hok as [Hso Hok]. apply NoDup_cons in Hnd as [Hnin Hnd].
  unfold bind at 1. destruct (scanSegment (seg_path seg) _ maxb s) as [[r1|] s1] eqn:E1; [|done]. unfold bind at 1.
  destruct (scan_all maxb _ s1) as [[segs1|] s2] eqn:E2; [|done]. intros [= <- <-].
  destruct (decide (es = [])) as [->|Hes].
  - (* only the last file can be empty *)
    destruct segs as [|seg2 segs].
    2: { inversion Hsegs; subst. simpl in Hne. apply Forall_cons in Hne as [? _]. done. }
    inversion Hsegs; subst. injection E2 as <- <-. rewrite bool_decide_eq_true_2 in E1 by done.
    apply scanSegment_empty in E1 as (D1 & O1 & ->); [|done]. split; [done|]. rewrite D1. split; simpl.
    + exists []. by split_and!.
    + apply sublist_nil_l.
    + intros p [x Hx]. apply lookup_delete_Some in Hx as [Hd Hx]. split; [eauto|]. by intros ->%list_elem_of_singleton.
    + intros p Hp. apply lookup_delete_ne. intros <-. apply Hp. by left.
  - eapply scanSegment_records in E1 as (D1 & O1 & seg' & -> & Hp & Hsh); [|done..].
    apply IH with (ess := ess1) in E2 as [O2 [(ess' & R1 & R1' & R1'') R2 R3 R4]]; try done; [| by rewrite D1 |].
    2: { destruct ess1 as [|es2 ess1]; [constructor|]. by apply Forall_cons in Hne as [_ ?]. }
    rewrite D1 in *. split; [by etransitivity|]. split.
    + exists (es :: ess'). split_and!; [|simpl; by rewrite R1' | by constructor]. constructor; [|done].
      eapply seg_holds_files; [exact Hsh|]. rewrite Hp. by apply R4.
    + simpl. rewrite Hp. by apply sublist_skip.
    + intros p Hp'. destruct (R3 p Hp') as [H1 H2]. split; [done|]. simpl. rewrite Hp.
      intros [->|Hin]%elem_of_cons; [by left | right; auto].
    + intros p Hnin'. apply R4. intros Hin. apply Hnin'. by right.
Qed.

Lemma recoverSegments_holds s0 s s' ess :
  Forall seg_ok (w_segments (s_wal s0)) -> StronglySorted seg_before (w_segments (s_wal s0)) -> holds s0 ess -> tidy s0 ->
  d_files (s_disk s) = d_files (s_disk s0) -> Forall atomic (s_outcomes s) -> w_segments (s_wal s) = [] ->
  o_MaxBytes (w_options (s_wal s)) = o_MaxBytes (w_options (s_wal s0)) -> recoverSegments s = (Ok tt, s') ->
  exists ess', holds s' ess' /\ tidy s' /\ mjoin ess' = mjoin ess.
Proof.
  intros Hok Hord Hh Htidy Hd Hat Hnil Hmax. unfold recoverSegments, bind at 1, gets at 1, bind at 1. destruct (calm_syscall s) as [D1 O1].
  destruct (syscall s) as [[u|e] s1] eqn:E1; pose proof (run_same _ _ _ _ same_wal_syscall E1) as W1; [|done]. simpl in D1, O1.
  unfold bind at 1, gets at 1. rewrite D1, Hd, (segment_paths_live s0 ess Hok Hord Hh Htidy). case_if; [done|].
  unfold bind at 1. destruct (scan_all _ _ s1) as [[segs|e] s2] eqn:E2; pose proof (run_same _ _ _ _ (scan_all_same _ _) E2) as W2; [|done].
  rewrite Hmax in E2. pose proof Hh as [Hs Hnd Hdir Hw _].
  apply scan_all_exact with (ess := ess) in E2 as [O2 [(ess' & R1 & R2 & R2') R3 R4 R5]]; [|done|done|by rewrite D1, Hd|done].
  unfold bind at 1, modify at 1, bind at 1, gets at 1. case_if; [done|]. intros [= <-].
  rewrite D1, Hd in R4.
  assert (forall p, is_segment_file p = true -> is_Some (d_files (s_disk s2) !! p) -> p ∈ seg_path <$> segs) as Ht.
  { intros p Hp Hin. destruct (R4 p Hin) as [H1 H2]. by apply H2, Htidy. }
  exists ess'. split_and!; [|unfold tidy; simpl; by rewrite ?W2, ?W1, ?Hnil|done]. split; simpl; rewrite ?W2, ?W1, ?Hnil, ?Hmax; simpl.
  - done.
  - by eapply sublist_NoDup.
  - intros p Hp Hin. left. by apply Ht.
  - clear -R2'. induction R2' as [|x l Hx Hl IH]; [constructor|]. simpl. destruct l; [constructor|]. by constructor.
  - eapply Forall_suffix_of; [exact Hat|]. by etransitivity.
Qed.

(** Opening the directory of an intact log brings back its records, without those
    that retention removes at once. *)
Lemma Open_tidy agentID inc options defaults now s0 s s' ess :
  Forall seg_ok (w_segments (s_wal s0)) -> StronglySorted seg_before (w_segments (s_wal s0)) -> holds s0 ess -> tidy s0 ->
  d_files (s_disk s) = d_files (s_disk s0) -> Forall atomic (s_outcomes s) ->
  o_MaxBytes (normalizeOptions options defaults) = o_MaxBytes (w_options (s_wal s0)) ->
  Open agentID inc options defaults now s = (Ok tt, s') -> exists ess', holds s' ess' /\ mjoin ess' `suffix_of` mjoin ess.
Proof.
  intros Hok Hord Hh Htidy Hd Hat Hmax. unfold Open. case_if; [done|]. cbv zeta.
  do 3 (unfold bind at 1; match goal with |- context [syscall ?x] =>
    let D := fresh "D" in let O := fresh "O" in destruct (calm_syscall x) as [D O];
    let t := fresh "t" in destruct (syscall x) as [[[]|] t]; [|done]; simpl in D, O end).
  unfold bind at 1, gets at 1, bind at 1, of_res at 1. destruct (loadMetadata _ _ _) as [m|]; [|done].
  unfold bind at 1, modify at 1, bind at 1. set (s1 := upd_wal _ _). destruct (recoverSegments s1) as [[[]|] s2] eqn:E2; [|done].
  apply (recoverSegments_holds s0 _ _ ess) in E2 as (ess' & Hh2 & Ht2 & Hj); try done; [|simpl; congruence |].
  2: { simpl. eapply Forall_suffix_of; [exact Hat|]. by repeat (etransitivity; [eassumption|]). }
  unfold reconcileRecoveredState, bind at 1, bind at 1, gets at 1. case_if; [done|]. unfold modify at 1. set (s3 := upd_wal _ s2).
  assert (holds s3 ess') as Hh3 by (by eapply holds_tidy).
  intros E. assert (shrinks (let* _ := enforceRetentionLocked now 0 in let* meta' := gets (fun s => w_meta (s_wal s)) in saveMetadata meta'))
    as Hsh by auto 20 with shrinks.
  destruct (Hsh s3 ess' Hh3) as [k Hk]. rewrite E in Hk. exists (drop k ess'). split; [done|]. rewrite <- Hj. apply mjoin_drop.
Qed.

(** A stray file as a last, empty segment. *)
Definition stray_segment (w : WAL) : segment :=
  let c := next_cursor (w_meta w) in mkSegment (segmentName c) c c 0 0 0.
Definition with_stray (s : sys) : sys :=
  mkSys (set_segments (w_segments (s_wal s) ++ [stray_segment (s_wal s)]) (w_totalBytes (s_wal s)) (s_wal s)) (s_disk s) (s_outcomes s).

Lemma stray_holds s ess : holds s ess -> stray s ess (segmentName (next_cursor (w_meta (s_wal s)))) ->
  segmentName (next_cursor (w_meta (s_wal s))) ∉ seg_path <$> w_segments (s_wal s) -> holds (with_stray s) (ess ++ [[]]) /\ tidy (with_stray s).
Proof.
  intros [H1 H2 H3 Hw H4] Hst Hnin.
  assert (tidy (with_stray s)) as Ht.
  { intros p Hp Hin. simpl. rewrite fmap_app, elem_of_app. destruct (H3 p Hp Hin) as [?|[_ -> _ _]]; [by left | right; by left]. }
  split; [|done]. split; simpl; [| | |rewrite removelast_last; apply Hst | done].
  - apply Forall2_app; [done|]. constructor; [|constructor]. split; try done. simpl. apply Hst.
  - rewrite fmap_app. apply NoDup_app. split_and!; [done | | apply NoDup_singleton]. intros p Hp Hin. apply list_elem_of_singleton in Hin as ->. done.
  - intros p Hp Hin. left. by apply Ht.
Qed.

(** A larger size limit reads the same records. *)
Definition with_limit (options : Options) (s : sys) : sys :=
  let w := s_wal s in
  mkSys (mkWAL (w_agentID w) options (w_meta w) (w_segments w) (w_active w) (w_totalBytes w) (w_closed w) (w_backgroundErr w)) (s_disk s) (s_outcomes s).

Lemma holds_wider options s ess : o_MaxBytes (w_options (s_wal s)) <= o_MaxBytes options -> holds s ess -> holds (with_limit options s) ess.
Proof.
  intros Hle [H1 H2 H3 Hw H4]. split; try done.
  - eapply Forall2_impl; [exact H1|]. intros seg es []. split; try done. simpl. eapply Forall_impl; [eassumption|].
    intros e (? & ? & ? & ?). split_and!; try done. lia.
  - intros p Hp Hin. destruct (H3 p Hp Hin) as [?|[]]; [by left|]. by right.
Qed.

Lemma Open_holds agentID inc options defaults now s0 s s' ess : wal_inv (s_wal s0) -> holds s0 ess ->
  d_files (s_disk s) = d_files (s_disk s0) -> Forall atomic (s_outcomes s) ->
  o_MaxBytes (w_options (s_wal s0)) <= o_MaxBytes (normalizeOptions options defaults) ->
  Open agentID inc options defaults now s = (Ok tt, s') -> exists ess', holds s' ess' /\ mjoin ess' `suffix_of` mjoin ess.
Proof.
  intros Hi Hh Hd Hat Hmax E. apply (holds_wider _ _ _ Hmax) in Hh. set (s1 := with_limit _ s0) in Hh. set (name := segmentName (next_cursor (w_meta (s_wal s0)))).
  assert (tidy s1 \/ (stray s1 ess name /\ name ∉ seg_path <$> w_segments (s_wal s1))) as [Ht|[Hst Hnin]].
  { destruct (decide (name ∈ seg_path <$> w_segments (s_wal s1))) as [Hin|Hnin].
    - left. intros p Hp Hs. destruct (ho_dir _ _ Hh p Hp Hs) as [?|[_ -> _ _]]; done.
    - destruct (d_files (s_disk s1) !! name) as [x|] eqn:Ex.
      + right. destruct (ho_dir _ _ Hh name (segmentName_is_file _) ltac:(eauto)); done.
      + left. intros p Hp Hs. destruct (ho_dir _ _ Hh p Hp Hs) as [?|[Hf Hn _ _]]; [done|]. change (p = name) in Hn. subst p. congruence. }
  - eapply (Open_tidy _ _ _ _ _ s1); try done; apply Hi.
  - destruct (stray_holds s1 ess Hh Hst Hnin) as [Hh' Ht'].
    assert (mjoin (ess ++ [[]]) = mjoin ess) as <- by (rewrite join_app; simpl; by rewrite app_nil_r).
    eapply (Open_tidy _ _ _ _ _ (with_stray s1)); try done; simpl.
    + apply Forall_app. split; [apply Hi|]. apply Forall_singleton. pose proof (next_cursor_ok _ Hi).
      split; simpl; auto using parse_segmentName; lia.
    + apply sorted_snoc; [apply Hi|]. apply Forall_forall. intros x Hx. unfold seg_before. simpl.
      apply written_lt_next; [done | done|]. by eapply holds_bytes; [exact Hh | apply Hst|].
Qed.

(** ** The log as a queue *)

(** The record an operation adds. *)
Definition op_appends (op : wal_op) (s : sys) : list entry :=
  match op with
  | OpAppend now payload => match (Append now payload s).1 with Ok _ => [new_entry s now payload] | Err _ => [] end
  | _ => []
  end.

(** Clock readings fit in 64-bit nanoseconds. *)
Definition op_time (op : wal_op) : Prop := match op with OpAppend now _ => i64_ok now | _ => True end.

Lemma op_run_holds op s ess : wal_inv (s_wal s) -> holds s ess -> op_time op ->
  exists ess' old, holds (op_run op s) ess' /\ old `suffix_of` mjoin ess /\ mjoin ess' = old ++ op_appends op s.
Proof.
  intros Hi Hh Ht.
  assert (match op with OpAppend _ _ => False | _ => True end \/ exists now payload, op = OpAppend now payload) as [Hop|(now & payload & ->)]
    by (destruct op; eauto).
  - destruct (op_run_shrinks op s ess Hh Hop) as [k Hk]. exists (drop k ess), (mjoin (drop k ess)). split_and!; [done | apply mjoin_drop|].
    destruct op; try done; simpl; by rewrite app_nil_r.
  - simpl in *. destruct (Append now payload s) as [r s'] eqn:E. simpl. by apply (appendLocked_holds now payload s r s').
Qed.

(** The lives of a log: a directory without segments is opened, operations run,
    processes end anywhere and others open the directory they leave, with a size
    limit that is not smaller. The second component collects the records ever appended. A crash
    inside an operation is that operation with every later call failing. *)
Inductive log_life : sys -> list entry -> Prop :=
| life_open agentID inc options defaults now s s' :
    disk_ok (s_disk s) -> u64_ok inc -> Forall atomic (s_outcomes s) ->
    (forall p, is_segment_file p = true -> d_files (s_disk s) !! p = None) ->
    Open agentID inc options defaults now s = (Ok tt, s') -> log_life s' []
| life_op op s es : log_life s es -> op_ok op -> op_time op -> log_life (op_run op s) (es ++ op_appends op s)
| life_reopen agentID inc options defaults now s es s1 s' :
    log_life s es -> disk_ok (s_disk s) -> u64_ok inc -> s_disk s1 = s_disk s -> Forall atomic (s_outcomes s1) ->
    o_MaxBytes (w_options (s_wal s)) <= o_MaxBytes (normalizeOptions options defaults) ->
    Open agentID inc options defaults now s1 = (Ok tt, s') -> log_life s' es.

Lemma suffix_snoc {A} (old l new : list A) : old `suffix_of` l -> old ++ new `suffix_of` l ++ new.
Proof. intros [k ->]. exists k. by rewrite app_assoc. Qed.

Lemma log_life_intact s es : log_life s es -> exists ess, wal_inv (s_wal s) /\ holds s ess /\ mjoin ess `suffix_of` es.
Proof.
  induction 1 as [agentID inc options defaults now s s' Hd Hinc Hat Hnone E | op s es Hl (ess & Hi & Hh & Hs) Hok Ht
    | agentID inc options defaults now s es s1 s' Hl (ess & Hi & Hh & Hs) Hd Hinc Hds Hat Hmax E].
  - set (s0 := mkSys (fresh_wal agentID (normalizeOptions options defaults) (w_meta (s_wal s))) (s_disk s) (s_outcomes s)).
    assert (holds s0 []) as Hh0.
    { split; simpl; [constructor | constructor | | constructor | done]. intros p Hp [x Hx]. by rewrite Hnone in Hx. }
    pose proof E as E'. apply (Open_tidy _ _ _ _ _ s0 _ _ []) in E' as (ess' & Hh' & Hs'); try done; try constructor.
    2: { intros p Hp [x Hx]. simpl in Hx. by rewrite Hnone in Hx. }
    exists ess'. split_and!; [by apply Open_sound in E as (? & _) | done | done].
  - destruct (op_run_holds op s ess Hi Hh Ht) as (ess' & old & Hh' & Ho & Hj). exists ess'. split_and!; [by apply op_run_inv | done|].
    rewrite Hj. apply suffix_snoc. by etransitivity.
  - pose proof E as E'. apply (Open_holds _ _ _ _ _ s _ _ ess) in E' as (ess' & Hh' & Hs'); try done; [|by rewrite Hds].
    exists ess'. rewrite <- Hds in Hd. split_and!; [by apply Open_sound in E as (? & _) | done | by etransitivity].
Qed.

(** The answer to a read of the log [s]. *)
Definition reads_exactly (s : sys) (start : Cursor) (limit : Z) (r : res walErr readResult) : Prop :=
  match r with
  | Ok (ReadRecords records) => records = take (Z.to_nat limit) (record_of (w_agentID (s_wal s)) <$> entries_from start (contents s))
  | Ok (ReadBehindFloor requested bounds _) => requested = start /\ exists floor, b_WALFloor bounds = Some floor /\ cursor_lt start floor
  | Err e => call_error e \/ (e = ErrClosed /\ w_closed (s_wal s) = true) \/
      (e = ErrInvariant /\ ~ (1 <= Incarnation start /\ 1 <= Seq start /\ 1 <= limit)) \/
      (e = ErrCorrupt /\ exists seg, seg ∈ w_segments (s_wal s) /\ seg_bytes seg = 0)
  end.

Lemma ReadAuditFrom_exact now start limit s ess : holds s ess ->
  reads_exactly s start limit (ReadAuditFrom now start limit s).1.
Proof.
  intros Hh. unfold ReadAuditFrom, bind at 1, gets at 1. case_if; [simpl; tauto|]. case_if.
  { simpl. right. right. left. split; [done|]. intros (? & ? & ?). lia. }
  assert (reads_exactly s start limit ((let* records := read_segments (s_wal s) (Z.to_nat limit) start (w_segments (s_wal s)) [] in ret (ReadRecords records)) s).1) as Hread.
  { unfold bind. destruct (read_segments _ _ _ _ _ s) as [r s'] eqn:E. apply (read_segments_exact _ _ _ _ ess) in E; [|apply Hh | simpl; lia].
    destruct r as [rs|e]; simpl in *; [by rewrite (holds_contents s ess Hh)|]. destruct E as [?|?]; auto. }
  cbv zeta. destruct (b_WALFloor (boundsLocked (s_wal s))) as [floor|] eqn:Ef; [|exact Hread]. case_if; [|exact Hread]. simpl. split; [done|].
  exists floor. split; [done|]. bool_to_prop. by cursor_cases.
Qed.

(** [C2] The log is a queue of records. Over any life of a log, from a directory
    without segments - operations at times in 64-bit nanoseconds, failing calls of
    which a failing write writes nothing, crashes between writes, and reopenings
    that succeed with a size limit not smaller - its segment files hold exactly a suffix of the records ever appended, each with
    its cursor, time and payload. A successful append puts its record at the end;
    a failed one adds none. A read returns exactly the records from the given
    cursor on, up to its limit, unless a call fails or the log is closed, or the
    caller asks below the floor or for nothing - or the first write into a new
    segment failed, which the read takes for corruption. (A write that fails midway
    is outside: [torn_append_blocks_reopen].) *)
Theorem log_is_queue s es : log_life s es ->
  contents s `suffix_of` es /\
  (forall now payload rec serr s', i64_ok now -> Append now payload s = (Ok (rec, serr), s') ->
     rec = record_of (w_agentID (s_wal s)) (new_entry s now payload) /\
     exists old, old `suffix_of` contents s /\ contents s' = old ++ [new_entry s now payload]) /\
  (forall now payload e s', i64_ok now -> Append now payload s = (Err e, s') -> contents s' `suffix_of` contents s) /\
  (forall now start limit, reads_exactly s start limit (ReadAuditFrom now start limit s).1).
Proof.
  intros Hl. destruct (log_life_intact s es Hl) as (ess & Hi & Hh & Hs). rewrite (holds_contents s ess Hh). split_and!; [done | | |].
  - intros now payload rec serr s' Ht E. destruct (appendLocked_post _ _ _ _ _ Hi E) as (_ & _ & _ & Hp & _). split; [done|].
    apply (appendLocked_holds _ _ _ _ _ ess) in E as (ess' & old & Hh' & Ho & Hj); try done. exists old. by rewrite (holds_contents _ _ Hh').
  - intros now payload e s' Ht E. apply (appendLocked_holds _ _ _ _ _ ess) in E as (ess' & old & Hh' & Ho & Hj); try done.
    rewrite (holds_contents _ _ Hh'), Hj. by rewrite app_nil_r.
  - intros. by eapply ReadAuditFrom_exact.
Qed.

Lemma demo_life outcomes s : Forall atomic outcomes -> Open "agent" 1 demo_options demo_options 0 (demo_start outcomes) = (Ok tt, s) -> log_life s [].
Proof.
  intros Ha E. eapply life_open; [| | | |exact E]; [split; [apply map_Forall_empty | done] | done | done | done].
Qed.

(** Two records, of which a read from the second returns that one. *)
Definition queue_ops : list wal_op := [OpAppend 1 [1; 2; 3]; OpAppend 2 [4; 5]].

Lemma log_is_queue_witness :
  let s := ops_run queue_ops demo_open in
  contents s = [mkEntry (mkCursor 1 1) 1 [1; 2; 3]; mkEntry (mkCursor 1 2) 2 [4; 5]] /\
  reads_exactly s (mkCursor 1 2) 10 (Ok (ReadRecords [mkRecord "agent" (mkCursor 1 2) 2 [4; 5]])).
Proof.
  cbv zeta. assert (log_life (ops_run queue_ops demo_open) ([] ++ op_appends (OpAppend 1 [1; 2; 3]) demo_open ++ op_appends (OpAppend 2 [4; 5]) (op_run (OpAppend 1 [1; 2; 3]) demo_open))) as Hl.
  { rewrite app_assoc. do 2 (apply life_op; [|done|done]). apply (demo_life []); [constructor | vm_compute; reflexivity]. }
  destruct (log_is_queue _ _ Hl) as (_ & _ & _ & H). specialize (H 0 (mkCursor 1 2) 10). split; [vm_compute; reflexivity|].
  vm_compute in H |- *. exact H.
Defined.

(** After the first write into a new segment failed - nothing was written, and the
    call reported its error - the log has no record, and yet a read reports
    corruption and an acknowledgement an invariant violation, until an append
    succeeds. *)
Definition failed_first_write : sys := op_run (OpAppend 1 [1; 2; 3])
  (Open "agent" 1 demo_options demo_options 0 (demo_start (replicate 15 None ++ [Some 0%nat]))).2.

Lemma empty_segment_misread :
  log_life failed_first_write [] /\ contents failed_first_write = [] /\
  (ReadAuditFrom 2 (mkCursor 1 1) 10 failed_first_write).1 = Err ErrCorrupt /\ (Sync failed_first_write).1 = Err ErrInvariant /\
  (ReadAuditFrom 2 (mkCursor 1 1) 10 (op_run (OpAppend 2 [1; 2; 3]) failed_first_write)).1 =
    Ok (ReadRecords [mkRecord "agent" (mkCursor 1 1) 2 [1; 2; 3]]).
Proof.
  split_and!; [|vm_compute; reflexivity ..].
  change (@nil entry) with ([] ++ op_appends (OpAppend 1 [1; 2; 3]) (Open "agent" 1 demo_options demo_options 0 (demo_start (replicate 15 None ++ [Some 0%nat]))).2).
  apply life_op; [|done|done]. apply (demo_life (replicate 15 None ++ [Some 0%nat])); [|vm_compute; reflexivity].
  repeat (constructor; [by (left + right)|]). constructor.
Qed.

(** A new segment whose permissions could not be set and whose file could not be
    removed again: every later append fails, although all calls work, until the
    directory is opened anew. *)
Definition stray_outcomes : list outcome := replicate 14 None ++ [Some 0%nat; Some 0%nat].
Definition stray_log : sys := op_run (OpAppend 1 [1; 2; 3]) (Open "agent" 1 demo_options demo_options 0 (demo_start stray_outcomes)).2.

Lemma stray_blocks_appends :
  log_life stray_log [] /\ s_outcomes stray_log = [] /\ d_files (s_disk stray_log) !! segmentName (mkCursor 1 1) = Some [] /\ w_segments (s_wal stray_log) = [] /\
  (Append 2 [1; 2; 3] stray_log).1 = Err ErrIO /\ (Append 3 [1; 2; 3] (op_run (OpAppend 2 [1; 2; 3]) stray_log)).1 = Err ErrIO /\
  is_ok (Append 4 [1; 2; 3] (Open "agent" 2 demo_options demo_options 3 stray_log).2).1 = true.
Proof.
  split_and!; [|vm_compute; reflexivity ..].
  change (@nil entry) with ([] ++ op_appends (OpAppend 1 [1; 2; 3]) (Open "agent" 1 demo_options demo_options 0 (demo_start stray_outcomes)).2).
  apply life_op; [|done|done]. apply (demo_life stray_outcomes); [|vm_compute; reflexivity].
  repeat (constructor; [by (left + right)|]). constructor.
Qed.
