(* ===== verification/GoText.v ===== *)
(** * Text and digests as Go computes them

    The parts of the standard library that the audit path uses on texts:
    [utf8.ValidString], [strings.ContainsAny] over bytes, [hex.EncodeToString] and
    [sha256.Sum256]. A text is a [string] of bytes; its bytes are integers of
    [0..255]. *)

From Stdlib Require Import Ascii.
From S2P Require Import Prelude.

Definition byte_of (c : ascii) : Z := Z.of_nat (nat_of_ascii c).

Fixpoint bytes_of (s : string) : list Z :=
  match s with
  | EmptyString => []
  | String c s' => byte_of c :: bytes_of s'
  end.

(** Go's [len] of a string. *)
Definition strlen (s : string) : Z := Z.of_nat (String.length s).

(** [strings.ContainsAny] for a set of ASCII characters. *)
Definition contains_byte (bad : list Z) (s : string) : bool := existsb (fun b => existsb (Z.eqb b) bad) (bytes_of s).

Fixpoint string_of_bytes (bytes : list Z) : string :=
  match bytes with [] => EmptyString | b :: rest => String (ascii_of_nat (Z.to_nat b)) (string_of_bytes rest) end.

Lemma bytes_of_string_of_bytes l : Forall (fun b => 0 <= b < 256) l -> bytes_of (string_of_bytes l) = l.
Proof.
  induction 1 as [|b l Hb Hl IH]; [done|]. simpl. rewrite IH. f_equal. unfold byte_of. rewrite nat_ascii_embedding by lia. lia.
Qed.

(** ** [unicode/utf8] *)

Definition between (lo hi b : Z) : bool := (lo <=? b) && (b <=? hi).

(** What must follow a first byte: the range of the second byte and the number of
    further continuation bytes. *)
Definition utf8_follow (b : Z) : option (Z * Z * nat) :=
  if between 0xC2 0xDF b then Some (0x80, 0xBF, 0%nat)
  else if b =? 0xE0 then Some (0xA0, 0xBF, 1%nat)
  else if b =? 0xED then Some (0x80, 0x9F, 1%nat)
  else if between 0xE1 0xEF b then Some (0x80, 0xBF, 1%nat)
  else if b =? 0xF0 then Some (0x90, 0xBF, 2%nat)
  else if between 0xF1 0xF3 b then Some (0x80, 0xBF, 2%nat)
  else if b =? 0xF4 then Some (0x80, 0x8F, 2%nat)
  else None.

(** Inside a sequence the range of the next byte and the count after it. *)
Fixpoint utf8_scan (pending : option (Z * Z * nat)) (bytes : list Z) : bool :=
  match bytes with
  | [] => match pending with None => true | Some _ => false end
  | b :: rest =>
    match pending with
    | Some (lo, hi, more) =>
      between lo hi b && utf8_scan (match more with O => None | S n => Some (0x80, 0xBF, n) end) rest
    | None =>
      if b <? 0x80 then utf8_scan None rest
      else match utf8_follow b with
           | Some next => utf8_scan (Some next) rest
           | None => false
           end
    end
  end.

Definition valid_utf8 (bytes : list Z) : bool := utf8_scan None bytes.
Definition ValidString (s : string) : bool := valid_utf8 (bytes_of s).

Example valid_euro : valid_utf8 [0xE2; 0x82; 0xAC; 0x41] = true.
Proof. reflexivity. Qed.
Example invalid_surrogate : valid_utf8 [0xED; 0xA0; 0x80] = false.
Proof. reflexivity. Qed.
Example invalid_overlong : valid_utf8 [0xC0; 0x80] = false.
Proof. reflexivity. Qed.

(** ** [encoding/hex] *)

Definition hex_char (n : Z) : ascii := ascii_of_nat (Z.to_nat (if n <? 10 then n + 48 else n + 87)).

Fixpoint hex_encode (bytes : list Z) : string :=
  match bytes with
  | [] => EmptyString
  | b :: rest => String (hex_char (b / 16)) (String (hex_char (b mod 16)) (hex_encode rest))
  end.

Definition is_lower_hex (b : Z) : bool := between 48 57 b || between 97 102 b.
(** [hex.DecodeString] accepts both cases. *)
Definition is_hex (b : Z) : bool := between 48 57 b || between 97 102 b || between 65 70 b.

Lemma hex_encode_length bytes : String.length (hex_encode bytes) = (2 * length bytes)%nat.
Proof. induction bytes as [|b l IH]; simpl; lia. Qed.

(** ** [crypto/sha256] *)

Definition rotr (n x : Z) : Z := Z.lor (Z.shiftr x n) (u32 (Z.shiftl x (32 - n))).

(** The constants of FIPS 180-4: the first 32 bits of the fractional parts of the
    cube roots of the first 64 primes, and of the square roots of the first 8. *)
Fixpoint cube_root (fuel : nat) (n root : Z) : Z :=
  match fuel with
  | O => root
  | S fuel' =>
    let next := root + 2 ^ Z.of_nat fuel' in
    cube_root fuel' n (if next * next * next <=? n then next else root)
  end.
Definition is_prime (n : Z) : bool := (1 <? n) && forallb (fun d => negb (n mod Z.of_nat d =? 0)) (seq 2 (Z.to_nat (Z.sqrt n) - 1)).
Definition primes (n : nat) : list Z := take n (filter (fun p => is_prime p = true) (Z.of_nat <$> seq 2 311)).

Definition sha_k : list Z := Eval vm_compute in (fun p => cube_root 40 (p * 2 ^ 96) 0 mod 2 ^ 32) <$> primes 64.
Definition sha_init : list Z := Eval vm_compute in (fun p => Z.sqrt (p * 2 ^ 64) mod 2 ^ 32) <$> primes 8.

Fixpoint be_bytes (n : nat) (x : Z) : list Z :=
  match n with
  | O => []
  | S n' => Z.shiftr x (8 * Z.of_nat n') mod 256 :: be_bytes n' x
  end.

(** The message with its padding. *)
Definition sha_pad (message : list Z) : list Z :=
  message ++ [0x80] ++ replicate (Z.to_nat ((55 - lenZ message) mod 64)) 0 ++ be_bytes 8 (8 * lenZ message).

Fixpoint words (fuel : nat) (bytes : list Z) : list Z :=
  match fuel, bytes with
  | S fuel', a :: b :: c :: d :: rest => ((a * 256 + b) * 256 + c) * 256 + d :: words fuel' rest
  | _, _ => []
  end.

(** The message schedule: [w] holds the last sixteen words, oldest first. *)
Fixpoint sha_schedule (n : nat) (w : list Z) : list Z :=
  match n with
  | O => w
  | S n' =>
    let at_ i := nth i w 0 in
    let s0 := Z.lxor (Z.lxor (rotr 7 (at_ 1%nat)) (rotr 18 (at_ 1%nat))) (Z.shiftr (at_ 1%nat) 3) in
    let s1 := Z.lxor (Z.lxor (rotr 17 (at_ 14%nat)) (rotr 19 (at_ 14%nat))) (Z.shiftr (at_ 14%nat) 10) in
    match w with
    | [] => []
    | oldest :: rest => oldest :: sha_schedule n' (rest ++ [u32 (oldest + s0 + at_ 9%nat + s1)])
    end
  end.

Definition sha_round (h : list Z) (kw : Z * Z) : list Z :=
  match h with
  | [a; b; c; d; e; f; g; hh] =>
    let s1 := Z.lxor (Z.lxor (rotr 6 e) (rotr 11 e)) (rotr 25 e) in
    let ch := Z.lxor (Z.land e f) (Z.land (Z.lxor e 0xFFFFFFFF) g) in
    let t1 := hh + s1 + ch + kw.1 + kw.2 in
    let s0 := Z.lxor (Z.lxor (rotr 2 a) (rotr 13 a)) (rotr 22 a) in
    let maj := Z.lxor (Z.lxor (Z.land a b) (Z.land a c)) (Z.land b c) in
    [u32 (t1 + s0 + maj); a; b; c; u32 (d + t1); e; f; g]
  | _ => h
  end.

Definition sha_block (h : list Z) (block : list Z) : list Z :=
  let schedule := sha_schedule 48 (words 16 block) in
  zip_with (fun x y => u32 (x + y)) h (foldl sha_round h (zip sha_k schedule)).

Fixpoint sha_blocks (fuel : nat) (h : list Z) (bytes : list Z) : list Z :=
  match fuel, bytes with
  | S fuel', _ :: _ => sha_blocks fuel' (sha_block h (take 64 bytes)) (drop 64 bytes)
  | _, _ => h
  end.

Definition Sum256 (message : list Z) : list Z :=
  let padded := sha_pad message in
  mjoin (be_bytes 4 <$> sha_blocks (length padded) sha_init padded).

Example sum256_empty : hex_encode (Sum256 []) = "e3b0c44298fc1c149afbf4c8996fb92427ae41e4649b934ca495991b7852b855".
Proof. vm_compute. reflexivity. Qed.
Example sum256_abc : hex_encode (Sum256 [97; 98; 99]) = "ba7816bf8f01cfea414140de5dae2223b00361a396177a9cb410ff61f20015ad".
Proof. vm_compute. reflexivity. Qed.

(** *** A digest has 32 bytes *)

Lemma be_bytes_length n x : length (be_bytes n x) = n.
Proof. induction n; simpl; auto. Qed.

Lemma be_bytes_range n x : Forall (fun b => 0 <= b < 256) (be_bytes n x).
Proof. induction n; simpl; constructor; [|done]. apply Z.mod_pos_bound. lia. Qed.

Lemma sha_round_length h kw : length h = 8%nat -> length (sha_round h kw) = 8%nat.
Proof. intros H. do 8 (destruct h as [|? h]; [done|]). destruct h; done. Qed.

Lemma sha_block_length h block : length h = 8%nat -> length (sha_block h block) = 8%nat.
Proof.
  intros H. unfold sha_block. rewrite length_zip_with, H. enough (forall l h, length h = 8%nat -> length (foldl sha_round h l) = 8%nat) as -> by done.
  intros l. induction l as [|x l IH]; intros h0 H0; [done|]. simpl. by apply IH, sha_round_length.
Qed.

Lemma sha_blocks_length fuel h bytes : length h = 8%nat -> length (sha_blocks fuel h bytes) = 8%nat.
Proof.
  revert h bytes. induction fuel as [|fuel IH]; intros h bytes H; [done|]. simpl. destruct bytes; [done|]. by apply IH, sha_block_length.
Qed.

Lemma Sum256_length message : length (Sum256 message) = 32%nat.
Proof.
  unfold Sum256. set (h := sha_blocks _ _ _). assert (length h = 8%nat) as Hh by (by apply sha_blocks_length). clearbody h.
  do 8 (destruct h as [|? h]; [done|]). destruct h; [|done]. simpl. done.
Qed.

Lemma Sum256_range message : Forall (fun b => 0 <= b < 256) (Sum256 message).
Proof.
  unfold Sum256. set (h := sha_blocks _ _ _). clearbody h. induction h as [|x h IH]; [constructor|].
  change (Forall (fun b => 0 <= b < 256) (be_bytes 4 x ++ mjoin (be_bytes 4 <$> h))). apply Forall_app. split; [apply be_bytes_range | done].
Qed.

Lemma hex_char_lower n : 0 <= n < 16 -> is_lower_hex (byte_of (hex_char n)) = true.
Proof.
  intros Hn. rewrite <- (Z2Nat.id n) by lia. assert (Z.to_nat n < 16)%nat as Hlt by lia. clear Hn. generalize dependent (Z.to_nat n). intros k Hk.
  do 16 (destruct k as [|k]; [done|]). lia.
Qed.

Lemma hex_encode_lower bytes : Forall (fun b => 0 <= b < 256) bytes -> forallb is_lower_hex (bytes_of (hex_encode bytes)) = true.
Proof.
  induction 1 as [|b l Hb Hl IH]; simpl; [done|]. rewrite !hex_char_lower, IH; [done | apply Z.mod_pos_bound; lia|].
  split; [apply Z.div_pos; lia | apply Z.div_lt_upper_bound; lia].
Qed.
