(* ===== verification/Paths.v ===== *)
(** * Paths

    The parts of Go's [path] and [strings] that path checks use: splitting at
    slashes, lexical cleaning and joining. [path/filepath] is the same on Linux. *)

From Stdlib Require Import Ascii.
From S2P Require Import Prelude GoText.

Definition slash : ascii := "/"%char.

(** [strings.Split] at a slash: one component more than there are slashes. *)
Fixpoint split (s : string) : list string :=
  match s with
  | EmptyString => [EmptyString]
  | String c s' =>
    if (c =? slash)%char then EmptyString :: split s'
    else match split s' with [] => [String c EmptyString] | x :: rest => String c x :: rest end
  end.
(** [strings.Join] with a slash *)
Fixpoint join (l : list string) : string :=
  match l with
  | [] => EmptyString
  | [x] => x
  | x :: rest => (x ++ String slash (join rest))%string
  end.

Definition is_abs (p : string) : bool := match p with String c _ => (c =? slash)%char | EmptyString => false end.

(** One component of [Clean]: empty ones and dots go, two dots take back the
    component before, or stay at the start of a path that is not rooted. The
    components so far are in reverse. *)
Definition clean_step (rooted : bool) (out : list string) (c : string) : list string :=
  if bool_decide (c = "") || bool_decide (c = ".") then out
  else if bool_decide (c = "..") then
    match out with
    | [] => if rooted then [] else [".."]
    | top :: below => if bool_decide (top = "..") then ".." :: out else below
    end
  else c :: out.
Definition clean_components (rooted : bool) (l : list string) : list string := rev (foldl (clean_step rooted) [] l).

Definition Clean (p : string) : string :=
  let rooted := is_abs p in
  let cs := clean_components rooted (split p) in
  if rooted then String slash (join cs) else if bool_decide (cs = []) then "." else join cs.

(** [path.Join] of two elements: empty ones are ignored. *)
Definition Join (a b : string) : string :=
  if str_empty a then (if str_empty b then "" else Clean b) else if str_empty b then Clean a else Clean (a ++ String slash b).

Definition HasPrefix (s p : string) : bool := String.prefix p s.
(** [strings.TrimPrefix] *)
Fixpoint TrimPrefix (s p : string) : string :=
  match p, s with
  | EmptyString, _ => s
  | String a p', String b s' => if (a =? b)%char then (if HasPrefix s' p' then TrimPrefix s' p' else s) else s
  | _, _ => s
  end.

Fixpoint HasSuffix (s p : string) : bool := bool_decide (s = p) || match s with String _ s' => HasSuffix s' p | EmptyString => false end.

(** [strings.EqualFold] against ASCII letters other than k and s, which no
    character outside ASCII folds to. *)
Definition lower (b : Z) : Z := if between 65 90 b then b + 32 else b.
Definition EqualFold (s t : string) : bool := bool_decide (lower <$> bytes_of s = lower <$> bytes_of t).

(** [strings.Trim] of slashes *)
Fixpoint trim_left (s : string) : string :=
  match s with String c s' => if (c =? slash)%char then trim_left s' else s | EmptyString => s end.
Fixpoint trim_right (s : string) : string :=
  match s with
  | String c s' => match trim_right s' with EmptyString => if (c =? slash)%char then EmptyString else String c EmptyString | t => String c t end
  | EmptyString => s
  end.
Definition Trim (s : string) : string := trim_right (trim_left s).

(** ** Components *)

(** A name: what a directory entry can be called. *)
Definition name (c : string) : Prop := c <> "" /\ c <> "." /\ c <> ".." /\ split c = [c].

Lemma split_cons c s : split (String c s) =
  if (c =? slash)%char then "" :: split s else match split s with [] => [String c ""] | x :: rest => String c x :: rest end.
Proof. done. Qed.

Lemma split_nonempty s : split s <> [].
Proof. destruct s as [|c s]; [done|]. simpl. case_if; [done|]. by destruct (split s). Qed.

Lemma split_app a b : split (a ++ String slash b) = split a ++ split b.
Proof.
  induction a as [|c a IH]; [done|]. change (String c a ++ String slash b)%string with (String c (a ++ String slash b)). rewrite !split_cons, IH. destruct (c =? slash)%char; [done|].
  pose proof (split_nonempty a). destruct (split a); done.
Qed.

Lemma split_slash s : split (String slash s) = "" :: split s.
Proof. done. Qed.

Lemma join_cons x l : l <> [] -> join (x :: l) = (x ++ String slash (join l))%string.
Proof. by destruct l. Qed.

Lemma split_join l : l <> [] -> Forall (fun c => split c = [c]) l -> split (join l) = l.
Proof.
  intros Hl Hf. induction Hf as [|x l Hx Hf IH]; [done|]. destruct l as [|y l]; [exact Hx|]. rewrite join_cons by done. rewrite split_app, Hx, IH by done. done.
Qed.

Lemma split_single c s : split s = [c] -> s = c.
Proof.
  revert c. induction s as [|d s IH]; intros c; [by intros [= <-]|]. simpl. case_if; [intros [= _ E]; by destruct (split_nonempty s)|].
  destruct (split s) as [|x [|y rest]] eqn:E; [by destruct (split_nonempty s) | | done]. intros [= <-]. by rewrite (IH x).
Qed.

(** A component has no slash. *)
Lemma split_components s : Forall (fun c => split c = [c]) (split s).
Proof.
  induction s as [|c s IH]; [by repeat constructor|]. simpl. destruct (c =? slash)%char eqn:Ec; [by constructor|]. destruct (split s) as [|x rest] eqn:E; [by destruct (split_nonempty s)|].
  apply Forall_cons in IH as [Hx Hr]. constructor; [|done]. simpl. by rewrite Ec, Hx.
Qed.

Lemma join_split s : join (split s) = s.
Proof.
  induction s as [|c s IH]; [done|]. simpl. destruct (c =? slash)%char eqn:Ec.
  - apply Ascii.eqb_eq in Ec as ->. rewrite join_cons by apply split_nonempty. simpl. by rewrite IH.
  - destruct (split s) as [|x [|y rest]] eqn:E; [by destruct (split_nonempty s) | simpl in *; congruence|]. by rewrite !join_cons in * by done; simpl; rewrite <- IH.
Qed.

(** *** Cleaning a rooted path *)

Lemma clean_names out l : Forall name out -> Forall (fun c => split c = [c]) l -> Forall name (foldl (clean_step true) out l).
Proof.
  intros Ho Hl. revert out Ho. induction Hl as [|c l Hc Hl IH]; intros out Ho; [done|]. simpl. apply IH. unfold clean_step.
  destruct (bool_decide (c = "")) eqn:E1, (bool_decide (c = ".")) eqn:E2; try done. cbn [orb]. destruct (bool_decide (c = "..")) eqn:E3.
  - destruct out as [|top below]; [constructor|]. apply Forall_cons in Ho as [Ht Hb]. rewrite bool_decide_eq_false_2; [done|]. apply Ht.
  - bool_to_prop. by constructor.
Qed.

(** Names stay. *)
Lemma clean_keep rooted out l : Forall name l -> foldl (clean_step rooted) out l = rev l ++ out.
Proof.
  intros Hl. revert out. induction Hl as [|c l Hc Hl IH]; intros out; [done|]. simpl. rewrite IH. destruct Hc as (H1 & H2 & H3 & _). unfold clean_step at 1.
  rewrite !bool_decide_eq_false_2 by done. simpl. by rewrite <- app_assoc.
Qed.

(** The names of a clean rooted path. *)
Definition components (p : string) : list string := clean_components true (split p).

Lemma components_names p : Forall name (components p).
Proof. unfold components, clean_components. apply Forall_rev, clean_names; [constructor | apply split_components]. Qed.

Definition rooted_of (cs : list string) : string := String slash (join cs).

Lemma Clean_rooted p : is_abs p = true -> Clean p = rooted_of (components p).
Proof. intros H. unfold Clean. by rewrite H. Qed.

Lemma split_rooted cs : Forall name cs -> components (rooted_of cs) = cs.
Proof.
  intros Hn. unfold components, rooted_of, clean_components. rewrite split_slash. destruct cs as [|c cs]; [done|].
  rewrite split_join; [|done|eapply Forall_impl; [exact Hn|]; intros x Hx; apply Hx]. change (foldl (clean_step true) [] ("" :: c :: cs)) with (foldl (clean_step true) [] (c :: cs)). rewrite clean_keep by exact Hn.
  rewrite app_nil_r. apply rev_involutive.
Qed.

Lemma rooted_inj cs ds : Forall name cs -> Forall name ds -> rooted_of cs = rooted_of ds -> cs = ds.
Proof. intros Hc Hd E. rewrite <- (split_rooted cs Hc), <- (split_rooted ds Hd). by rewrite E. Qed.

(** *** Parents *)

Lemma append_cons c (a b : string) : (String c a ++ b)%string = String c (a ++ b).
Proof. done. Qed.

Lemma append_assoc (a b c : string) : ((a ++ b) ++ c = a ++ (b ++ c))%string.
Proof. induction a as [|x a IH]; [done|]. by rewrite !append_cons, IH. Qed.

Lemma append_nil (a : string) : (a ++ "" = a)%string.
Proof. induction a as [|x a IH]; [done|]. by rewrite append_cons, IH. Qed.

Lemma rooted_app cs ds : cs <> [] -> ds <> [] -> rooted_of (cs ++ ds) = (rooted_of cs ++ String slash (join ds))%string.
Proof.
  intros Hc Hd. unfold rooted_of. rewrite append_cons. f_equal. induction cs as [|x cs IH]; [done|]. destruct cs as [|y cs]; [by destruct ds|].
  rewrite <- app_comm_cons, !join_cons by done. rewrite IH by done. by rewrite append_assoc.
Qed.

Lemma names_split cs : Forall name cs -> Forall (fun c => split c = [c]) cs.
Proof. intros H. eapply Forall_impl; [exact H|]. intros x Hx. apply Hx. Qed.

(** The part of a path beneath its parent is joined to another parent. *)
Lemma Clean_beneath cs ds : Forall name cs -> Forall name ds -> ds <> [] -> Clean (rooted_of cs ++ String slash (join ds)) = rooted_of (cs ++ ds).
Proof.
  intros Hc Hd Hne. rewrite Clean_rooted by done. f_equal. pose proof (split_rooted cs Hc) as E. unfold components, clean_components in *. rewrite split_app, foldl_app.
  rewrite split_join by (done || by apply names_split). rewrite clean_keep, rev_app_distr, rev_involutive by done. by rewrite E.
Qed.

Lemma has_prefix_app p s : HasPrefix (p ++ s) p = true.
Proof. unfold HasPrefix. induction p as [|c p IH]; [by destruct s|]. rewrite append_cons. simpl. by destruct (ascii_dec c c). Qed.

Lemma has_prefix_inv s p : HasPrefix s p = true -> exists t, s = (p ++ t)%string.
Proof.
  unfold HasPrefix. revert s. induction p as [|c p IH]; intros s; [by exists s|]. destruct s as [|d s]; [done|]. simpl. destruct (ascii_dec c d) as [->|]; [|done].
  intros [t ->]%IH. by exists t.
Qed.

Lemma trim_prefix_app p s : TrimPrefix (p ++ s) p = s.
Proof. induction p as [|c p IH]; [by destruct s|]. rewrite append_cons. simpl. by rewrite Ascii.eqb_refl, has_prefix_app. Qed.

Lemma trim_prefix_other a p s : (forall t, s <> String a t) -> TrimPrefix s (String a p) = s.
Proof. intros H. destruct s as [|b s]; [done|]. simpl. destruct (a =? b)%char eqn:E; [|done]. apply Ascii.eqb_eq in E as ->. by destruct (H s). Qed.

(** Names do not begin with a slash. *)
Lemma name_not_slash c t s : name c -> (c ++ s)%string <> String slash t.
Proof. intros (H & _ & _ & Hs) E. destruct c as [|x c]; [done|]. rewrite append_cons in E. injection E as -> _. rewrite split_slash in Hs. by destruct (split_nonempty c); injection Hs. Qed.

Lemma join_not_slash cs t : Forall name cs -> join cs <> String slash t.
Proof.
  destruct cs as [|c cs]; intros H E; [done|]. apply Forall_cons in H as [Hc _]. destruct cs as [|d cs]; [|by eapply name_not_slash].
  apply (name_not_slash c t "" Hc). simpl in E. by rewrite append_nil.
Qed.

Lemma join_empty cs : Forall name cs -> join cs = "" -> cs = [].
Proof. destruct cs as [|c cs]; [done|]. intros [(Hc & _) _]%Forall_cons. destruct cs; [done|]. by destruct c. Qed.

(** *** Trimming a rooted path *)

Lemma trim_left_other s : (forall t, s <> String slash t) -> trim_left s = s.
Proof. destruct s as [|c s]; [done|]. intros H. simpl. destruct (c =? slash)%char eqn:E; [|done]. apply Ascii.eqb_eq in E as ->. by destruct (H s). Qed.

Lemma trim_right_app a b : trim_right b <> "" -> trim_right (a ++ b) = (a ++ trim_right b)%string.
Proof.
  intros Hb. induction a as [|c a IH]; [done|]. rewrite append_cons. cbn [trim_right]. rewrite IH. destruct a as [|d a]; [|done]. change ("" ++ trim_right b)%string with (trim_right b). by destruct (trim_right b).
Qed.

(** What splits into itself has no slash to trim. *)
Lemma trim_right_single c : split c = [c] -> trim_right c = c.
Proof.
  induction c as [|x c IH]; [done|]. rewrite split_cons. destruct (x =? slash)%char eqn:E; [intros [= _ H]; by destruct (split_nonempty c)|].
  destruct (split c) as [|y [|z rest]] eqn:Es; [by destruct (split_nonempty c) | | done]. intros [= ->]. cbn [trim_right]. rewrite IH, E by done. by destruct c.
Qed.

Lemma trim_right_join cs : Forall name cs -> trim_right (join cs) = join cs.
Proof.
  induction 1 as [|c cs Hc Hcs IH]; [done|]. destruct cs as [|d cs]; [by apply trim_right_single, Hc|]. rewrite join_cons by done.
  rewrite trim_right_app; cbn [trim_right]; rewrite IH; (destruct (join (d :: cs)) eqn:E; [apply join_empty in E; [done|done] | done]).
Qed.

Lemma Trim_rooted cs : Forall name cs -> Trim (rooted_of cs) = join cs.
Proof.
  intros H. unfold Trim, rooted_of. change (trim_left (String slash (join cs))) with (trim_left (join cs)). rewrite trim_left_other by (intros t; by apply join_not_slash).
  by apply trim_right_join.
Qed.

Lemma has_suffix_app a p : HasSuffix (a ++ p) p = true.
Proof. induction a as [|c a IH]; [change ("" ++ p)%string with p; destruct p as [|x p]; [done|]; cbn [HasSuffix]; by rewrite bool_decide_eq_true_2|]. rewrite append_cons. cbn [HasSuffix]. by rewrite IH, orb_true_r. Qed.
Lemma has_suffix_inv s p : HasSuffix s p = true -> exists t, s = (t ++ p)%string.
Proof.
  induction s as [|c s IH]; simpl; rewrite orb_true_iff, bool_decide_eq_true.
  - intros [<-|H]; [by exists "" | done].
  - intros [<-|[t ->]%IH]; [by exists ""|]. by exists (String c t).
Qed.
