(* ===== verification/AgentSafety.v ===== *)
(** * The Agent's self-protection

    Models [internal/agentsafety]: which containers and Compose projects belong to
    the Agent ([identity.go]), which actions are allowed ([policy.go]) and whether
    a discovery root is the same path on the host ([mounts.go]); and the guards of
    [internal/dockeradapter/adapter.go] and [internal/agentruntime/product.go] that
    stand before the Docker engine and the Compose command. *)

From Stdlib Require Import Ascii.
From S2P Require Import Prelude GoText Paths.

(** ** Texts *)

(** The UTF-8 encodings of white space, as [unicode.IsSpace] has it. *)
Definition spaces : list (list Z) :=
  ((fun b => [b]) <$> [9; 10; 11; 12; 13; 32]) ++ [[194; 133]; [194; 160]; [225; 154; 128]] ++ ((fun b => [226; 128; b]) <$> [128; 129; 130; 131; 132; 133; 134; 135; 136; 137; 138; 168; 169; 175])
  ++ [[226; 129; 159]; [227; 128; 128]].

Fixpoint strip (prefix bytes : list Z) : option (list Z) :=
  match prefix, bytes with
  | [], _ => Some bytes
  | a :: p, b :: bs => if a =? b then strip p bs else None
  | _, [] => None
  end.
(** Remove encodings from the front; there are at most as many as bytes. *)
Fixpoint trim_front (fuel : nat) (codes : list (list Z)) (bytes : list Z) : list Z :=
  match fuel with
  | O => bytes
  | S fuel => match omap (fun code => strip code bytes) codes with [] => bytes | rest :: _ => trim_front fuel codes rest end
  end.
Definition TrimSpace (s : string) : string :=
  let b := bytes_of s in
  let b := trim_front (length b) spaces b in
  string_of_bytes (rev (trim_front (length b) ((@rev Z) <$> spaces) (rev b))).
Definition trim_slashes (s : string) : string := let b := bytes_of s in string_of_bytes (trim_front (length b) [[47]] b).

(** ** Identification *)

Definition AgentRoleLabel : string := "io.docklattice.role".
Definition AgentRoleValue : string := "agent".
Definition ComposeProjectLabel : string := "com.docker.compose.project".

Record Container := mkContainer { ct_ID : string; ct_Name : string; ct_Labels : gmap string string }.
Record SelfConfig := mkSelf { sf_ContainerID : string; sf_ContainerName : string }.
Inductive IdentificationSource := IdentificationByLabel | IdentificationByConfig | IdentificationFailed.

Record Identification := mkIdentification {
  id_Source : IdentificationSource;
  id_FailClosed : bool;
  id_SelectedAgentIDs : list string;
  id_ProtectedContainerIDs : list string;
  id_ProtectedComposeProjects : list string;
}.

Definition label (c : Container) (key : string) : string := default "" (ct_Labels c !! key).
Definition compose_project (c : Container) : string := TrimSpace (label c ComposeProjectLabel).
Definition normalizeContainerName (n : string) : string := trim_slashes (TrimSpace n).

Definition labelled (c : Container) : bool := negb (str_empty (ct_ID c)) && bool_decide (label c AgentRoleLabel = AgentRoleValue).
Definition configured (cfg : SelfConfig) (c : Container) : bool :=
  let configuredName := normalizeContainerName (sf_ContainerName cfg) in
  negb (str_empty (ct_ID c))
  && (negb (str_empty (sf_ContainerID cfg)) && bool_decide (ct_ID c = sf_ContainerID cfg)
      || negb (str_empty configuredName) && bool_decide (normalizeContainerName (ct_Name c) = configuredName)).

Definition ids_of (p : Container -> bool) (containers : list Container) : gset string := list_to_set (ct_ID <$> filter (fun c => p c = true) containers).
Definition sortedKeys (s : gset string) : list string := sort_by str_less (elements s).

Definition IdentifySelf (containers : list Container) (cfg : SelfConfig) : Identification :=
  let byLabel := ids_of labelled containers in
  let '(source, selected) :=
    if bool_decide (byLabel = ∅) then (IdentificationByConfig, ids_of (configured cfg) containers) else (IdentificationByLabel, byLabel) in
  if bool_decide (selected = ∅) then mkIdentification IdentificationFailed true [] [] []
  else
    let chosen := filter (fun c => ct_ID c ∈ selected) containers in
    let projects : gset string := list_to_set (filter (fun p => p <> "") (compose_project <$> chosen)) in
    let members := filter (fun c => compose_project c ∈ projects /\ ct_ID c <> "") containers in
    let protected : gset string := list_to_set (ct_ID <$> chosen) ∪ list_to_set (ct_ID <$> members) in
    mkIdentification source false (sortedKeys selected) (sortedKeys protected) (sortedKeys projects).

(** ** Decisions *)

Inductive ActionKind :=
| ActionQuery | ActionLogs | ActionMetrics | ActionContainerStart | ActionContainerStop | ActionContainerRestart | ActionContainerRemove
| ActionComposeDown | ActionComposeMutation | ActionMutation | ActionOther (kind : string).

Record Action := mkAction { at_Kind : ActionKind; at_ContainerID : string; at_ComposeProject : string }.

Inductive DecisionCode :=
| DecisionAllowReadOnly | DecisionAllowUnprotected | DecisionDenyFailClosed | DecisionDenyProtectedContainer | DecisionDenyProtectedProject
| DecisionDenyTargetRequired | DecisionDenyUnknownAction.

Record Decision := mkDecision { dn_Allowed : bool; dn_Code : DecisionCode }.

Definition deny (code : DecisionCode) : Decision := mkDecision false code.
Definition contains (values : list string) (want : string) : bool := negb (str_empty want) && bool_decide (want ∈ values).

Definition Decide (identity : Identification) (action : Action) : Decision :=
  let unprotected := mkDecision true DecisionAllowUnprotected in
  match at_Kind action with
  | ActionQuery | ActionLogs | ActionMetrics => mkDecision true DecisionAllowReadOnly
  | ActionContainerStart =>
    if id_FailClosed identity then deny DecisionDenyFailClosed
    else if str_empty (at_ContainerID action) then deny DecisionDenyTargetRequired
    else unprotected
  | ActionContainerStop | ActionContainerRestart | ActionContainerRemove =>
    if id_FailClosed identity then deny DecisionDenyFailClosed
    else if str_empty (at_ContainerID action) then deny DecisionDenyTargetRequired
    else if contains (id_ProtectedContainerIDs identity) (at_ContainerID action) then deny DecisionDenyProtectedContainer
    else unprotected
  | ActionComposeDown | ActionComposeMutation =>
    if id_FailClosed identity then deny DecisionDenyFailClosed
    else if str_empty (at_ComposeProject action) then deny DecisionDenyTargetRequired
    else if contains (id_ProtectedComposeProjects identity) (at_ComposeProject action) then deny DecisionDenyProtectedProject
    else unprotected
  | ActionMutation =>
    if id_FailClosed identity then deny DecisionDenyFailClosed
    else if str_empty (at_ContainerID action) && str_empty (at_ComposeProject action) then deny DecisionDenyTargetRequired
    else if contains (id_ProtectedContainerIDs identity) (at_ContainerID action) then deny DecisionDenyProtectedContainer
    else if contains (id_ProtectedComposeProjects identity) (at_ComposeProject action) then deny DecisionDenyProtectedProject
    else unprotected
  | ActionOther _ => deny DecisionDenyUnknownAction
  end.

(** *** The guards *)

Definition validateContainerID (id : string) : bool := (strlen id =? 64) && forallb is_lower_hex (bytes_of id).

(** [Adapter.authorize], before every call that changes a container. *)
Definition authorize (identity : Identification) (id : string) (kind : ActionKind) : bool :=
  validateContainerID id && dn_Allowed (Decide identity (mkAction kind id "")).

(** A request that changes a container, and the calls to the engine it makes. *)
Inductive containerRequest := RequestStart | RequestStop | RequestRestart | RequestRemove.
Definition request_kind (r : containerRequest) : ActionKind :=
  match r with RequestStart => ActionContainerStart | RequestStop => ActionContainerStop | RequestRestart => ActionContainerRestart | RequestRemove => ActionContainerRemove end.
Definition adapter_calls (identity : Identification) (r : containerRequest) (id : string) : list (containerRequest * string) :=
  if authorize identity id (request_kind r) then [(r, id)] else [].

(** [protectedCompose.Run] *)
Inductive composeOperation := OperationPS | OperationConfig | OperationLogs | OperationDown | OperationOther (name : string).
Definition compose_action (op : composeOperation) : ActionKind :=
  match op with OperationPS | OperationConfig => ActionQuery | OperationLogs => ActionLogs | OperationDown => ActionComposeDown | OperationOther _ => ActionComposeMutation end.
Definition compose_runs (identity : Identification) (op : composeOperation) (project : string) : bool :=
  dn_Allowed (Decide identity (mkAction (compose_action op) "" project)).

(** ** Protection, exactly *)

(** The containers that are the Agent: the labelled ones or, when there is none, the
    configured ones. *)
Definition agents (containers : list Container) (cfg : SelfConfig) : list Container :=
  let byLabel := filter (fun c => labelled c = true) containers in
  if bool_decide (byLabel = []) then filter (fun c => configured cfg c = true) containers else byLabel.
Definition is_agent (containers : list Container) (cfg : SelfConfig) (c : Container) : Prop :=
  c ∈ containers /\ exists a, a ∈ agents containers cfg /\ ct_ID a = ct_ID c.

(** A container that must not be stopped: an Agent, or a member of its project. *)
Definition protected_id (containers : list Container) (cfg : SelfConfig) (id : string) : Prop :=
  exists c a, c ∈ containers /\ ct_ID c = id /\ is_agent containers cfg a /\ (ct_ID c = ct_ID a \/ compose_project c = compose_project a /\ compose_project a <> "" /\ id <> "").
Definition protected_project (containers : list Container) (cfg : SelfConfig) (p : string) : Prop :=
  exists a, is_agent containers cfg a /\ compose_project a = p /\ p <> "".

Lemma elem_sorted s x : x ∈ sortedKeys s <-> x ∈ s.
Proof. unfold sortedKeys. by rewrite sort_by_perm, elem_of_elements. Qed.

Lemma ids_elem p containers x : x ∈ ids_of p containers <-> exists c, c ∈ containers /\ p c = true /\ ct_ID c = x.
Proof.
  unfold ids_of. rewrite elem_of_list_to_set, list_elem_of_fmap. split.
  - intros (c & -> & [Hp Hc]%list_elem_of_filter). by exists c.
  - intros (c & Hc & Hp & <-). exists c. split; [done|]. by apply list_elem_of_filter.
Qed.

Lemma ids_empty p containers : ids_of p containers = ∅ <-> filter (fun c => p c = true) containers = [].
Proof.
  unfold ids_of. destruct (filter _ containers) as [|c l]; [done|]. split; [|done]. intros H. assert (ct_ID c ∈ (∅ : gset string)) as []%not_elem_of_empty.
  rewrite <- H. apply elem_of_list_to_set. by left.
Qed.

Lemma selected_agents containers cfg :
  let selected := (if bool_decide (ids_of labelled containers = ∅) then ids_of (configured cfg) containers else ids_of labelled containers) in
  (selected = ∅ <-> agents containers cfg = []) /\ forall c, c ∈ containers -> ct_ID c ∈ selected <-> is_agent containers cfg c.
Proof.
  unfold agents, is_agent, agents. rewrite (bool_decide_ext _ _ (ids_empty labelled containers)). destruct (bool_decide _); cbv zeta; (split; [apply ids_empty|]);
    intros c Hc; rewrite ids_elem; (split; [intros (a & Ha & Hp & E); split; [done|]; exists a; split; [by apply list_elem_of_filter | done]
      | intros (_ & a & [Hp Ha]%list_elem_of_filter & E); by exists a]).
Qed.

(** What [IdentifySelf] establishes. *)
Lemma identify_spec containers cfg : let identity := IdentifySelf containers cfg in
  (id_FailClosed identity = true <-> agents containers cfg = []) /\
  (agents containers cfg <> [] -> (forall id, id ∈ id_ProtectedContainerIDs identity <-> protected_id containers cfg id) /\
     forall p, p ∈ id_ProtectedComposeProjects identity <-> protected_project containers cfg p).
Proof.
  destruct (selected_agents containers cfg) as [Hnone Hsel]. unfold IdentifySelf.
  set (selected := if bool_decide (ids_of labelled containers = ∅) then _ else _) in Hnone, Hsel.
  replace (if bool_decide (ids_of labelled containers = ∅) then _ else _) with (if bool_decide (ids_of labelled containers = ∅) then IdentificationByConfig else IdentificationByLabel, selected)
    by (unfold selected; by destruct (bool_decide _)). cbv zeta.
  destruct (bool_decide (selected = ∅)) eqn:Es; bool_to_prop; [split; [|by intros []; apply Hnone]; by rewrite <- Hnone|].
  cbn [id_FailClosed id_ProtectedContainerIDs id_ProtectedComposeProjects]. split; [split; [done | by intros ?%Hnone]|]. intros _.
  set (chosen := filter (fun c => ct_ID c ∈ selected) containers). set (projects := list_to_set (filter (fun p => p <> "") (compose_project <$> chosen)) : gset string).
  assert (forall c, c ∈ chosen <-> is_agent containers cfg c) as Hch.
  { intros c. unfold chosen. rewrite list_elem_of_filter. split; [intros [H Hc]; by apply Hsel | intros H; split; [by apply Hsel; [apply H|] | apply H]]. }
  assert (forall p, p ∈ projects <-> protected_project containers cfg p) as Hpr.
  { intros p. unfold projects, protected_project. rewrite elem_of_list_to_set, list_elem_of_filter, list_elem_of_fmap. split.
    - intros (Hp & a & -> & Ha%Hch). by exists a.
    - intros (a & Ha%Hch & <- & Hp). split; [done|]. by exists a. }
  split; [|intros p; rewrite elem_sorted; apply Hpr]. intros id. rewrite elem_sorted, elem_of_union, !elem_of_list_to_set, !list_elem_of_fmap. split.
  - intros [(c & -> & Hc%Hch)|(c & -> & [[(a & Ha & Hp & Hne)%Hpr Hid] Hc]%list_elem_of_filter)].
    + exists c, c. split_and!; [apply Hc | done | done | by left].
    + exists c, a. split_and!; [done | done | done|]. right. by rewrite <- Hp in Hne.
  - intros (c & a & Hc & <- & Ha & [E|(Hp & Hne & Hid)]).
    + left. exists a. split; [done | by apply Hch].
    + right. exists c. split; [done|]. apply list_elem_of_filter. split; [split; [|done] | done]. apply Hpr. exists a. split_and!; [done | done | by rewrite Hp].
Qed.

Definition mutating (op : composeOperation) : bool := match op with OperationPS | OperationConfig | OperationLogs => false | _ => true end.

(** [C15] The Agent never harms itself. Whatever containers the inventory shows: when
    none of them is the Agent, no container is started, stopped, restarted or
    removed and no Compose command that changes something runs. When there is one,
    a container is stopped, restarted or removed exactly if its identifier is
    canonical and it is neither an Agent nor in the Compose project of one, and a
    Compose command that changes something runs exactly for the named projects that
    contain no Agent. *)
Theorem self_protection containers cfg : let identity := IdentifySelf containers cfg in
  (agents containers cfg = [] ->
     (forall r id, adapter_calls identity r id = []) /\ forall op p, mutating op = true -> compose_runs identity op p = false) /\
  (agents containers cfg <> [] ->
     (forall r id, r <> RequestStart -> adapter_calls identity r id = [(r, id)] <-> validateContainerID id = true /\ ~ protected_id containers cfg id) /\
     forall op p, mutating op = true -> compose_runs identity op p = true <-> p <> "" /\ ~ protected_project containers cfg p).
Proof.
  destruct (identify_spec containers cfg) as [Hfail Hprot]. cbv zeta. set (identity := IdentifySelf containers cfg) in *. split.
  - intros Ha. apply Hfail in Ha. split.
    + intros r id. unfold adapter_calls, authorize, Decide. cbn [at_Kind]. rewrite Ha. destruct r; cbn [request_kind deny dn_Allowed]; by rewrite andb_false_r.
    + intros op p Hm. unfold compose_runs, Decide. cbn [at_Kind]. rewrite Ha. by destruct op.
  - intros Ha. destruct (Hprot Ha) as [Hid Hpr]. assert (id_FailClosed identity = false) as Hf by (apply not_true_iff_false; by rewrite Hfail). split.
    + intros r id Hr. assert (adapter_calls identity r id = if validateContainerID id && negb (contains (id_ProtectedContainerIDs identity) id) then [(r, id)] else []) as ->.
      { unfold adapter_calls, authorize, Decide. cbn [at_Kind at_ContainerID]. rewrite Hf. destruct (validateContainerID id) eqn:Hv; [|done].
        assert (str_empty id = false) as -> by (by destruct id). destruct r; [done | | |]; simpl; by destruct (contains _ _). }
      unfold contains. rewrite <- Hid. destruct (validateContainerID id) eqn:Hv; [|by split; [|intros [? ?]]].
      assert (str_empty id = false) as -> by (by destruct id). cbn [andb negb]. destruct (bool_decide (id ∈ _)) eqn:E; bool_to_prop; cbn [negb]; by split; [|intros [? ?]].
    + intros op p Hm. assert (compose_runs identity op p = negb (str_empty p) && negb (contains (id_ProtectedComposeProjects identity) p)) as ->.
      { unfold compose_runs, Decide. cbn [at_Kind at_ComposeProject]. rewrite Hf. destruct op; try done; simpl; destruct (str_empty p); try done; by destruct (contains _ _). }
      unfold contains. rewrite <- Hpr. destruct (str_empty p) eqn:E; unfold str_empty in E; bool_to_prop; [by split; [|intros [? ?]]|]. cbn [negb andb].
      destruct (bool_decide (p ∈ _)) eqn:E'; bool_to_prop; cbn [negb]; by split; [|intros [? ?]].
Qed.

(** ** Discovery roots *)

Record Mount := mkMount { mt_Type : string; mt_Source : string; mt_Destination : string; mt_RW : bool }.
Inductive MountReason := MountReady | MountReadOnly | MountInvalidRoot | MountNotFound | MountAmbiguous | MountInvalid | MountNotBind | MountIdentityMismatch.

Record RootAssessment := mkAssessment {
  ra_Root : string;
  ra_Mount : option Mount;
  ra_HostPath : string;
  ra_FSWrite : bool;
  ra_ComposeExec : bool;
  ra_Reason : MountReason;
}.

Definition cleanAbsolute (value : string) : option string :=
  if str_empty value || contains_byte [0] value || negb (is_abs value) then None else Some (Clean value).
Definition containsPath (parent child : string) : bool :=
  bool_decide (parent = "/") || bool_decide (child = parent) || HasPrefix child (parent ++ "/").
(** Splitting at the slashes makes one part more than there are slashes. *)
Definition pathDepth (value : string) : nat := if bool_decide (value = "/") then O else length (split (Trim value)).

Definition is_bind (t : string) : bool := EqualFold t "bind".

(** The mount that owns the root: the deepest one, and whether another is as deep. *)
Definition consider (cleanRoot : string) (best : option (Mount * nat * bool)) (m : Mount) : option (Mount * nat * bool) :=
  match cleanAbsolute (mt_Destination m) with
  | None => best
  | Some destination =>
    if negb (containsPath destination cleanRoot) then best
    else
      let m := mkMount (mt_Type m) (mt_Source m) destination (mt_RW m) in
      let depth := pathDepth destination in
      match best with
      | None => Some (m, depth, false)
      | Some (b, d, ambiguous) => if decide (d < depth)%nat then Some (m, depth, false) else if decide (depth = d) then Some (b, d, true) else best
      end
  end.

(** The path of the root on the host. *)
Definition host_path (source destination cleanRoot : string) : string :=
  let relative := TrimPrefix (TrimPrefix cleanRoot destination) "/" in
  if str_empty relative then source else Join source relative.

Definition AssessDiscoveryRoot (root : string) (mounts : list Mount) : RootAssessment :=
  match cleanAbsolute root with
  | None => mkAssessment root None "" false false MountInvalidRoot
  | Some cleanRoot =>
    match foldl (consider cleanRoot) None mounts with
    | None => mkAssessment cleanRoot None "" false false MountNotFound
    | Some (m, _, ambiguous) =>
      if (ambiguous : bool) then mkAssessment cleanRoot (Some m) "" false false MountAmbiguous
      else if negb (is_bind (mt_Type m)) then mkAssessment cleanRoot (Some m) "" false false MountNotBind
      else
        match cleanAbsolute (mt_Source m) with
        | None => mkAssessment cleanRoot (Some m) "" false false MountInvalid
        | Some source =>
          let m := mkMount (mt_Type m) source (mt_Destination m) (mt_RW m) in
          let hostPath := host_path source (mt_Destination m) cleanRoot in
          if negb (bool_decide (hostPath = cleanRoot)) then mkAssessment cleanRoot (Some m) hostPath false false MountIdentityMismatch
          else if negb (mt_RW m) then mkAssessment cleanRoot (Some m) hostPath false true MountReadOnly
          else mkAssessment cleanRoot (Some m) hostPath true true MountReady
        end
    end
  end.

(** *** The mount that owns a root *)

(** A mount covers the root: its destination is the root or above it. *)
Definition covers (root : string) (m : Mount) : Prop := is_Some (cleanAbsolute (mt_Destination m)) /\ exists below, components root = components (mt_Destination m) ++ below.
Definition depth_of (m : Mount) : nat := length (components (mt_Destination m)).
(** The mount at position [i] owns the root: every other one that covers it is above. *)
Definition owns (root : string) (mounts : list Mount) (i : nat) (m : Mount) : Prop :=
  mounts !! i = Some m /\ covers root m /\ forall j m', mounts !! j = Some m' -> covers root m' -> j <> i -> (depth_of m' < depth_of m)%nat.

Lemma clean_absolute v d : cleanAbsolute v = Some d -> d = rooted_of (components v).
Proof. unfold cleanAbsolute. destruct (is_abs v) eqn:E; [|by rewrite orb_true_r]. case_if; [done|]. intros [= <-]. by apply Clean_rooted. Qed.

Lemma root_slash cs : Forall name cs -> rooted_of cs = "/" -> cs = [].
Proof. intros Hn E. apply join_empty; [done|]. unfold rooted_of in E. by injection E. Qed.

Lemma contains_iff cd cr : Forall name cd -> Forall name cr -> containsPath (rooted_of cd) (rooted_of cr) = true <-> exists below, cr = cd ++ below.
Proof.
  intros Hd Hr. unfold containsPath. rewrite !orb_true_iff, !bool_decide_eq_true. split.
  - intros [[E|E]|[t E]%has_prefix_inv].
    + apply root_slash in E as ->; [|done]. by exists cr.
    + apply rooted_inj in E as ->; [|done|done]. exists []. by rewrite app_nil_r.
    + destruct cd as [|c cd]; [by exists cr|]. exists (split t). unfold rooted_of in E. rewrite append_assoc, append_cons in E. injection E as E.
      change (join cr = (join (c :: cd) ++ String slash t)%string) in E. destruct cr as [|r cr]; [destruct (join (c :: cd)); discriminate E|].
      rewrite <- (split_join (r :: cr)), E, split_app, split_join; [done | done | by apply names_split | done | by apply names_split].
  - intros [below ->]. destruct below as [|b below]; [left; right; by rewrite app_nil_r|]. destruct cd as [|c cd]; [by left; left|]. right. rewrite rooted_app by done.
    change (String slash (join (b :: below))) with ("/" ++ join (b :: below))%string. rewrite <- append_assoc. apply has_prefix_app.
Qed.

Lemma depth_rooted cs : Forall name cs -> pathDepth (rooted_of cs) = length cs.
Proof.
  intros Hn. unfold pathDepth. case_bool_decide as E; [by apply root_slash in E as ->|]. rewrite Trim_rooted by done. rewrite split_join; [done | | by apply names_split]. by intros ->.
Qed.

Lemma relative_path cd below : Forall name (cd ++ below) -> TrimPrefix (TrimPrefix (rooted_of (cd ++ below)) (rooted_of cd)) "/" = join below.
Proof.
  intros [Hd Hb]%Forall_app. destruct below as [|b below].
  { rewrite app_nil_r. rewrite <- (append_nil (rooted_of cd)) at 1. by rewrite trim_prefix_app. }
  destruct cd as [|c cd].
  - change (rooted_of []) with "/". change (rooted_of ([] ++ b :: below)) with ("/" ++ join (b :: below))%string. rewrite trim_prefix_app.
    apply trim_prefix_other. intros t. by apply join_not_slash.
  - rewrite rooted_app, trim_prefix_app by done. apply (trim_prefix_app "/").
Qed.

Lemma host_path_rooted cs cd below : Forall name cs -> Forall name (cd ++ below) -> host_path (rooted_of cs) (rooted_of cd) (rooted_of (cd ++ below)) = rooted_of (cs ++ below).
Proof.
  intros Hs H. unfold host_path. rewrite relative_path by done. apply Forall_app in H as [Hd Hb]. destruct (str_empty (join below)) eqn:E; unfold str_empty in E; bool_to_prop.
  - apply join_empty in E as ->; [|done]. by rewrite app_nil_r.
  - unfold Join. change (str_empty (rooted_of cs)) with false. unfold str_empty. rewrite !(bool_decide_eq_false_2 _ E). apply Clean_beneath; [done | done|]. by intros ->.
Qed.

(** [consider] sees a mount exactly when it covers the root. *)
Lemma consider_covers root best m : let cr := rooted_of (components root) in
  covers root m /\ consider cr best m =
    (let m' := mkMount (mt_Type m) (mt_Source m) (rooted_of (components (mt_Destination m))) (mt_RW m) in
     match best with
     | None => Some (m', depth_of m, false)
     | Some (b, d, amb) => if decide (d < depth_of m)%nat then Some (m', depth_of m, false) else if decide (depth_of m = d) then Some (b, d, true) else best
     end)
  \/ ~ covers root m /\ consider cr best m = best.
Proof.
  cbv zeta. unfold consider, covers. destruct (cleanAbsolute (mt_Destination m)) as [d|] eqn:E; [|right; split; [by intros [[? ?] _] | done]].
  apply clean_absolute in E as ->. pose proof (components_names root). pose proof (components_names (mt_Destination m)).
  pose proof (contains_iff (components (mt_Destination m)) (components root)) as Hc. destruct (containsPath _ _).
  - left. cbn [negb]. rewrite depth_rooted by done. split; [split; [by eexists | by apply Hc] | done].
  - right. split; [|done]. intros [_ Hb]. by apply Hc in Hb.
Qed.

(** What the selection knows after a prefix of the mounts. *)
Definition selection (root : string) (mounts : list Mount) (best : option (Mount * nat * bool)) : Prop :=
  match best with
  | None => forall j m, mounts !! j = Some m -> ~ covers root m
  | Some (b, d, amb) => exists i m, mounts !! i = Some m /\ covers root m /\ d = depth_of m /\
      b = mkMount (mt_Type m) (mt_Source m) (rooted_of (components (mt_Destination m))) (mt_RW m) /\
      (forall j m', mounts !! j = Some m' -> covers root m' -> (depth_of m' <= d)%nat) /\
      (if (amb : bool) then exists j m', mounts !! j = Some m' /\ covers root m' /\ j <> i /\ depth_of m' = d
       else forall j m', mounts !! j = Some m' -> covers root m' -> j <> i -> (depth_of m' < d)%nat)
  end.

Lemma lookup_snoc {A} (l : list A) x j y : (l ++ [x]) !! j = Some y <-> l !! j = Some y \/ j = length l /\ y = x.
Proof.
  rewrite lookup_app_Some, list_lookup_singleton_Some. split; intros [H|[H1 H2]]; eauto.
  - right. split; [lia | by destruct H2].
  - right. split; [lia|]. split; [lia | done].
Qed.

Lemma selection_snoc root mounts best m : selection root mounts best -> selection root (mounts ++ [m]) (consider (rooted_of (components root)) best m).
Proof.
  intros Hs. assert (mounts !! length mounts = None) as Hlen by by apply lookup_ge_None.
  destruct (consider_covers root best m) as [[Hc ->]|[Hc ->]]; cbv zeta.
  - destruct best as [[[b d] amb]|]; cbn [selection] in *.
    + destruct Hs as (i & m0 & Hi & H0 & -> & -> & Hall & Hamb). assert (i <> length mounts) by congruence.
      repeat case_decide; cbn [selection].
      * exists (length mounts), m. split_and!; [by apply lookup_snoc; right | done | done | done | |]; intros j m' [Hj|[-> ->]]%lookup_snoc Hm'; try lia; specialize (Hall _ _ Hj Hm'); lia.
      * exists i, m0. split_and!; [by apply lookup_snoc; left | done | done | done | |].
        -- intros j m' [Hj|[-> ->]]%lookup_snoc Hm'; [by eapply Hall | lia].
        -- exists (length mounts), m. split_and!; [by apply lookup_snoc; right | done | done | done].
      * exists i, m0. split_and!; [by apply lookup_snoc; left | done | done | done | |].
        -- intros j m' [Hj|[-> ->]]%lookup_snoc Hm'; [by eapply Hall | lia].
        -- destruct amb; [destruct Hamb as (j & m' & Hj & ?); exists j, m'; split; [by apply lookup_snoc; left | done]|].
           intros j m' [Hj|[-> ->]]%lookup_snoc Hm' Hne; [by eapply Hamb | lia].
    + exists (length mounts), m. split_and!; [by apply lookup_snoc; right | done | done | done | |]; intros j m' [Hj|[-> ->]]%lookup_snoc Hm'; try lia; by destruct (Hs _ _ Hj).
  - destruct best as [[[b d] amb]|]; cbn [selection] in *.
    + destruct Hs as (i & m0 & Hi & H0 & Hd & Hb & Hall & Hamb). exists i, m0. split_and!; [by apply lookup_snoc; left | done | done | done | |].
      * intros j m' [Hj|[-> ->]]%lookup_snoc Hm'; [by eapply Hall | done].
      * destruct amb; [destruct Hamb as (j & m' & Hj & ?); exists j, m'; split; [by apply lookup_snoc; left | done]|].
        intros j m' [Hj|[-> ->]]%lookup_snoc Hm' Hne; [by eapply Hamb | done].
    + intros j m' [Hj|[-> ->]]%lookup_snoc; [by eapply Hs | done].
Qed.

Lemma selection_all root mounts : selection root mounts (foldl (consider (rooted_of (components root))) None mounts).
Proof. induction mounts as [|m mounts IH] using rev_ind; [by intros j m|]. rewrite foldl_app. by apply selection_snoc. Qed.

(** The mount shows a directory of the host under its own name. *)
Definition same_path (m : Mount) : Prop := is_Some (cleanAbsolute (mt_Source m)) /\ components (mt_Source m) = components (mt_Destination m).

Lemma host_path_same root m : covers root m -> host_path (rooted_of (components (mt_Source m))) (rooted_of (components (mt_Destination m))) (rooted_of (components root)) = rooted_of (components root)
  <-> components (mt_Source m) = components (mt_Destination m).
Proof.
  intros [_ [below E]]. pose proof (components_names root) as Hr. pose proof (components_names (mt_Source m)) as Hs. rewrite E in *. rewrite host_path_rooted by done.
  split; [|by intros ->]. intros H%rooted_inj; [by apply app_inv_tail in H | | done]. apply Forall_app in Hr as [_ ?]. by apply Forall_app.
Qed.

(** At most one mount owns a root. *)
Lemma owns_unique root mounts i m i' m' : owns root mounts i m -> owns root mounts i' m' -> i = i' /\ m = m'.
Proof.
  intros (Hi & Hc & H) (Hi' & Hc' & H'). destruct (decide (i = i')) as [->|Hne]; [split; congruence|]. specialize (H _ _ Hi' Hc'). specialize (H' _ _ Hi Hc Hne).
  assert (i' <> i) as Hne' by done. specialize (H Hne'). lia.
Qed.

(** [C16] Which discovery roots the Agent may use. Compose runs beneath a root exactly
    when the root is an absolute path, one mount of the Agent's container owns it (it
    covers the root and every other mount that does is higher up), that mount is a
    bind mount and it shows the host's directory under the same name, so that a path
    beneath the root means the same inside the container and on the host. Files are
    written exactly when that mount is writable too. *)
Theorem root_identity root mounts : let a := AssessDiscoveryRoot root mounts in
  let usable m := is_Some (cleanAbsolute root) /\ (exists i, owns root mounts i m) /\ is_bind (mt_Type m) = true /\ same_path m in
  (ra_ComposeExec a = true <-> exists m, usable m) /\ (ra_FSWrite a = true <-> exists m, usable m /\ mt_RW m = true).
Proof.
  cbv zeta. unfold AssessDiscoveryRoot. destruct (cleanAbsolute root) as [cr|] eqn:Er; [|by split; (split; [done|]); [intros (m & [? ?] & _) | intros (m & ([? ?] & _) & _)]].
  apply clean_absolute in Er as ->. pose proof (selection_all root mounts) as Hs. destruct (foldl _ _ _) as [[[b d] amb]|]; cbn [selection] in Hs.
  2: { split; (split; [done|]); [intros (m & _ & (i & Hi & Hc & _) & _) | intros (m & (_ & (i & Hi & Hc & _) & _) & _)]; by destruct (Hs _ _ Hi). }
  destruct Hs as (i & m & Hi & Hc & -> & -> & Hall & Hamb). cbn [mt_Type mt_Source mt_Destination mt_RW].
  destruct amb.
  { destruct Hamb as (j & m' & Hj & Hc' & Hne & Hd). assert (forall i0 m0, ~ owns root mounts i0 m0) as Hno.
    { intros i0 m0 (H0 & Hc0 & Ho). pose proof (Hall _ _ H0 Hc0). destruct (decide (i = i0)) as [<-|Hne0]; [|pose proof (Ho _ _ Hi Hc Hne0); lia].
      simplify_eq. pose proof (Ho _ _ Hj Hc' Hne). lia. }
    split; (split; [done|]); [intros (m0 & _ & (i0 & Ho) & _) | intros (m0 & (_ & (i0 & Ho) & _) & _)]; by destruct (Hno i0 m0). }
  assert (owns root mounts i m) as Ho by done. assert (forall m0, (exists i0, owns root mounts i0 m0) -> m0 = m) as Huniq by (intros m0 [i0 H0]; by eapply owns_unique).
  assert (forall P : Mount -> Prop, (exists m0, (is_Some (Some (rooted_of (components root))) /\ (exists i, owns root mounts i m0) /\ is_bind (mt_Type m0) = true /\ same_path m0) /\ P m0)
    <-> is_bind (mt_Type m) = true /\ same_path m /\ P m) as Hex.
  { intros P. split; [intros (m0 & (_ & H0%Huniq & Hb & Hp) & HP); subst m0; done | intros (Hb & Hp & HP); exists m; split; [|done]; split; [done | split; [by exists i | done]]]. }
  assert ((exists m0, is_Some (Some (rooted_of (components root))) /\ (exists i, owns root mounts i m0) /\ is_bind (mt_Type m0) = true /\ same_path m0) <-> is_bind (mt_Type m) = true /\ same_path m) as ->.
  { split; [intros (m0 & H); destruct (proj1 (Hex (fun _ => True))) as (? & ? & _); [by exists m0 | done] | intros [Hb Hp]; exists m; split; [done | split; [by exists i | done]]]. }
  rewrite (Hex (fun m0 => mt_RW m0 = true)). clear Hex Huniq. destruct (is_bind (mt_Type m)); [|by split; (split; [done|]); intros [? _]]. cbn [negb]. unfold same_path.
  destruct (cleanAbsolute (mt_Source m)) as [src|] eqn:Es; [|by split; (split; [done|]); [intros (_ & [? ?] & _) | intros (_ & ([? ?] & _) & _)]].
  apply clean_absolute in Es as ->. pose proof (host_path_same root m Hc) as Hh. case_bool_decide as E; cbn [negb].
  - apply Hh in E. clear Hh. destruct (mt_RW m); cbn [negb]; naive_solver.
  - split; (split; [done|]); [intros (_ & _ & H) | intros (_ & (_ & H) & _)]; by apply Hh in H.
Qed.

(** A root beneath a writable bind mount, next to the mount of the file system's root. *)
Example root_ready : AssessDiscoveryRoot "/srv/apps/../apps/" [mkMount "bind" "/" "/" false; mkMount "BIND" "/srv/" "/srv" true; mkMount "volume" "data" "/data" true]
  = mkAssessment "/srv/apps" (Some (mkMount "BIND" "/srv" "/srv" true)) "/srv/apps" true true MountReady.
Proof. vm_compute. reflexivity. Qed.
