(* ===== verification/BackupText.v ===== *)
(** * Names of backups

    The texts [internal/backup] uses: backup identifiers with their time stamp
    ([newBackupID], [validBackupID]), safe identifiers, the paths a backup may
    hold ([validManagedPath]) and the names of staging files. [time.Format] and
    [time.Parse] are written out for the one layout the package uses. *)

From Stdlib Require Import Ascii.
From stdpp Require Import pretty.
From S2P Require Import Prelude GoText Paths.

(** ** Time stamps *)

Fixpoint fixed (width : nat) (n : Z) : list Z := match width with O => [] | S w => fixed w (n / 10) ++ [48 + n mod 10] end.
(** A number with at least so many digits *)
Definition padded (width : nat) (n : Z) : string := if n <? 10 ^ Z.of_nat width then string_of_bytes (fixed width n) else pretty n.

(** The proleptic Gregorian date of a day counted from 1970-01-01. *)
Definition civil (days : Z) : Z * Z * Z :=
  let z := days + 719468 in
  let era := z / 146097 in
  let doe := z mod 146097 in
  let yoe := (doe - doe / 1460 + doe / 36524 - doe / 146096) / 365 in
  let doy := doe - (365 * yoe + yoe / 4 - yoe / 100) in
  let mp := (5 * doy + 2) / 153 in
  let month := if mp <? 10 then mp + 3 else mp - 9 in
  (yoe + era * 400 + (if month <=? 2 then 1 else 0), month, doy - (153 * mp + 2) / 5 + 1).

(** The layout 20060102T150405.000000000Z *)
Definition stamp (t : time) : string :=
  let seconds := t / 10 ^ 9 in
  let '(year, month, day) := civil (seconds / 86400) in
  let second := seconds mod 86400 in
  let year_text := if year <? 0 then String.append "-" (padded 4 (- year)) else padded 4 year in
  let hour := second / 3600 in
  let minute := second / 60 mod 60 in
  let nanos := t mod 10 ^ 9 in
  (year_text ++ padded 2 month ++ padded 2 day ++ "T" ++ padded 2 hour ++ padded 2 minute ++ padded 2 (second mod 60) ++ "." ++ padded 9 nanos ++ "Z")%string.

Definition is_digit (b : Z) : bool := between 48 57 b.
Definition number (l : list Z) : Z := foldl (fun acc d => acc * 10 + (d - 48)) 0 l.
Definition daysIn (month year : Z) : Z :=
  if month =? 2 then (if (year mod 4 =? 0) && (negb (year mod 100 =? 0) || (year mod 400 =? 0)) then 29 else 28)
  else if existsb (Z.eqb month) [4; 6; 9; 11] then 30 else 31.

(** [time.Parse]'s fraction: a period or comma, then an integer with a sign allowed. *)
Definition fraction_ok (l : list Z) : bool :=
  match l with
  | 43 :: rest => forallb is_digit rest
  | 45 :: rest => forallb is_digit rest && (number rest =? 0)
  | _ => forallb is_digit l
  end.
Definition valid_stamp (b : list Z) : bool :=
  let part start len := take len (drop start b) in
  let year := number (part 0 4)%nat in
  let month := number (part 4 2)%nat in
  let day := number (part 6 2)%nat in
  (lenZ b =? 26) && forallb is_digit (part 0 8)%nat && bool_decide (b !! 8%nat = Some 84) && forallb is_digit (part 9 6)%nat
  && (bool_decide (b !! 15%nat = Some 46) || bool_decide (b !! 15%nat = Some 44)) && fraction_ok (part 16 9)%nat && bool_decide (b !! 25%nat = Some 90)
  && between 1 12 month && between 1 (daysIn month year) day && (number (part 9 2)%nat <? 24) && (number (part 11 2)%nat <? 60) && (number (part 13 2)%nat <? 60).

(** ** Identifiers *)

Definition newBackupID (at_ : time) (randomBytes : list Z) : string := (stamp at_ ++ "-" ++ hex_encode randomBytes)%string.

Definition validBackupID (id : string) : bool :=
  let b := bytes_of id in
  (strlen id =? 43) && valid_stamp (take 26 b) && bool_decide (b !! 26%nat = Some 45) && forallb is_hex (drop 27 b).

Definition safe_byte (b : Z) : bool := between 65 90 b || between 97 122 b || between 48 57 b || existsb (Z.eqb b) [46; 95; 45].
Definition validSafeID (id : string) : bool :=
  between 1 128 (strlen id) && forallb safe_byte (bytes_of id) && negb (bool_decide (id = ".")) && negb (bool_decide (id = "..")).

(** ** Managed files *)

Definition validManagedPath (path : string) : bool :=
  if str_empty path || is_abs path || negb (bool_decide (Clean path = path)) || contains_byte [0] path || contains_byte [47] path then false
  else if bool_decide (path = ".env") || (HasPrefix path ".env." && (strlen ".env." <? strlen path)) then true
  else if existsb (fun p => bool_decide (path = p)) ["compose.yaml"; "compose.yml"; "docker-compose.yaml"; "docker-compose.yml"] then true
  else if HasPrefix path "compose.override." || HasPrefix path "docker-compose.override." then HasSuffix path ".yaml" || HasSuffix path ".yml"
  else HasPrefix path "compose." && HasSuffix path ".yaml" && (strlen "compose..yaml" <? strlen path).

(** ** Staging files *)

Definition restoreStageSuffix (operationID purpose : string) : string :=
  (purpose ++ "-" ++ hex_encode (take 8 (Sum256 (bytes_of (operationID ++ ":" ++ purpose)))))%string.
Definition stage_mark : string := ".docklattice-restore-".
Definition stagePrefix (suffix : string) : string := (stage_mark ++ suffix ++ "-")%string.
Definition stage_name (suffix : string) (index : nat) : string := (stage_mark ++ suffix ++ "-" ++ padded 3 (Z.of_nat index) ++ ".tmp")%string.
Definition is_stage (name : string) : bool := HasPrefix name stage_mark.

Example stamp_example : newBackupID 1700000000123456789 [0; 1; 2; 3; 4; 5; 6; 255] = "20231114T221320.123456789Z-00010203040506ff".
Proof. vm_compute. reflexivity. Qed.
Example valid_examples : validBackupID "20231114T221320.123456789Z-00010203040506ff" = true /\ validBackupID "20230229T221320.123456789Z-00010203040506ff" = false.
Proof. by vm_compute. Qed.
Example managed_examples : filter (fun p => validManagedPath p = true) [".env"; ".env."; ".env.prod"; "compose.yaml"; "compose.override.yml"; "compose.yaml.bak"; "compose..yaml"; "a/compose.yaml"]
  = [".env"; ".env.prod"; "compose.yaml"; "compose.override.yml"].
Proof. vm_compute. reflexivity. Qed.

(** A staging file is never a managed one. *)
Lemma managed_not_stage p : validManagedPath p = true -> is_stage p = false.
Proof.
  unfold is_stage. destruct (HasPrefix p stage_mark) eqn:E; [|done]. apply has_prefix_inv in E as [t ->]. unfold validManagedPath.
  case_if; intros H; discriminate H.
Qed.

Lemma stage_name_stage suffix i : is_stage (stage_name suffix i) = true.
Proof. apply has_prefix_app. Qed.

(** ** Numbers can be read back *)

Definition digit_step (acc d : Z) : Z := acc * 10 + (d - 48).

Lemma bytes_of_app a b : bytes_of (a ++ b) = bytes_of a ++ bytes_of b.
Proof. induction a as [|c a IH]; [done|]. rewrite append_cons. simpl. by rewrite IH. Qed.

Lemma number_fixed w n : 0 <= n < 10 ^ Z.of_nat w -> number (fixed w n) = n.
Proof.
  revert n. induction w as [|w IH]; intros n Hn; [simpl in *; unfold number; simpl; lia|]. rewrite Nat2Z.inj_succ, Z.pow_succ_r in Hn by lia. cbn [fixed]. unfold number.
  rewrite foldl_app. fold (number (fixed w (n / 10))). rewrite IH by (split; [apply Z.div_pos; lia | apply Z.div_lt_upper_bound; lia]). simpl. pose proof (Z.div_mod n 10). lia.
Qed.

Lemma fixed_range w n : Forall (fun b => 0 <= b < 256) (fixed w n).
Proof. revert n. induction w as [|w IH]; intros n; [constructor|]. cbn [fixed]. apply Forall_app. split; [apply IH|]. repeat constructor; pose proof (Z.mod_pos_bound n 10); lia. Qed.

Lemma digit_char x : (x < 10)%N -> byte_of (pretty_N_char x) = 48 + Z.of_N x.
Proof.
  rewrite <- (N2Nat.id x). generalize (N.to_nat x). intros n Hn. assert (n < 10)%nat as Hlt by lia. clear Hn.
  do 10 (destruct n as [|n]; [done|]). lia.
Qed.

(** The digits of a number before a text *)
Lemma number_pretty_go x s : exists k, forall acc, foldl digit_step acc (bytes_of (pretty_N_go x s)) = foldl digit_step (acc * k + Z.of_N x) (bytes_of s).
Proof.
  revert s. induction (N.lt_wf_0 x) as [x _ IH]. intros s. destruct (decide (x = 0)%N) as [->|Hx].
  { exists 1. intros acc. rewrite pretty_N_go_0. f_equal. lia. }
  rewrite pretty_N_go_step by lia. destruct (IH (x `div` 10)%N ltac:(apply N.div_lt; lia) (String (pretty_N_char (x `mod` 10)) s)) as (k & IHk).
  exists (k * 10). intros acc. rewrite IHk. cbn [bytes_of foldl]. pose proof (N.mod_upper_bound x 10 ltac:(lia)) as Hm. pose proof (N.div_mod x 10 ltac:(lia)) as Hd.
  rewrite digit_char by done. f_equal. unfold digit_step. lia.
Qed.

Lemma number_padded w n : 0 <= n -> number (bytes_of (padded w n)) = n.
Proof.
  intros Hn. unfold padded. destruct (n <? 10 ^ Z.of_nat w) eqn:E; bool_to_prop.
  - rewrite bytes_of_string_of_bytes by apply fixed_range. apply number_fixed. lia.
  - destruct n as [|p|p]; [reflexivity| |lia]. change (pretty (Z.pos p)) with (pretty_N_go (N.pos p) EmptyString).
    destruct (number_pretty_go (N.pos p) EmptyString) as (k & Hk). unfold number. change (fun acc d => acc * 10 + (d - 48)) with digit_step. rewrite Hk. simpl. lia.
Qed.

Lemma stage_name_inj suffix i j : stage_name suffix i = stage_name suffix j -> i = j.
Proof.
  intros E%(f_equal bytes_of). unfold stage_name in E. rewrite !bytes_of_app in E. apply app_inv_head, app_inv_head, app_inv_head, app_inv_tail in E.
  apply (f_equal number) in E. rewrite !number_padded in E by lia. lia.
Qed.
