(* ===== verification/Backup.v ===== *)
(** * Backups and journaled restores

    Models [internal/backup]: creating a backup of a project's files, listing,
    loading and pruning backups, and restoring one as a transaction over several
    files with a journal, a snapshot of the originals, rollback and recovery after
    a crash ([store.go], [restore.go], [eviction.go]).

    The disk is the project directories, the backup directories and the journal
    directory. Every system call, context check, admission and callback consumes an
    outcome: it works, or fails having done a part of its effect; an exhausted list
    of outcomes is success. A crash is a run whose calls all fail from some point
    on, followed by a restart that forgets what was in memory. What was written
    survives: the loss of unsynced data in a power failure is not modelled. JSON
    files are what decoding them yields, an archive is the entries its reader
    yields. Nothing else writes the project's files during a call. *)

From Stdlib Require Import Ascii.
From S2P Require Import Prelude GoText Paths BackupText.

(** ** Data *)

Inductive Trigger := TriggerManual | TriggerPreWrite | TriggerPreRestore | TriggerOther (text : string).

Inductive bkErr :=
| ErrInvalidPath | ErrSymlink | ErrConcurrentModification | ErrInvalidArchive | ErrCommitCanceled | ErrRecoveryRequired | ErrProjectRecoveryBlocked
| ErrAdmission | ErrManualBackup | ErrNotExist | ErrSystem.

#[export] Instance Trigger_eq_dec : EqDecision Trigger.
Proof. solve_decision. Defined.
#[export] Instance bkErr_eq_dec : EqDecision bkErr.
Proof. solve_decision. Defined.

Record Project := mkProject { pj_UID : string; pj_Name : string; pj_WorkingDir : string }.
Record FileEntry := mkEntry { fe_RelPath : string; fe_SHA256 : string; fe_Mode : Z; fe_Size : Z }.
Record Manifest := mkManifest {
  mf_BackupID : string;
  mf_ProjectUID : string;
  mf_ProjectName : string;
  mf_WorkingDir : string;
  mf_CreatedAt : time;
  mf_Trigger : Trigger;
  mf_OperationID : string;
  mf_Files : list FileEntry;
}.
Record Metadata := mkMetadata {
  md_BackupID : string;
  md_ProjectUID : string;
  md_CreatedAt : time;
  md_Trigger : Trigger;
  md_FileCount : Z;
  md_SizeBytes : Z;
  md_ManifestSHA256 : string;
}.
Record CreateRequest := mkCreate { cq_Project : Project; cq_RelativePaths : list string; cq_Trigger : Trigger; cq_OperationID : string; cq_CreatedAt : time }.
Record RestoreRequest := mkRestore { rq_Project : Project; rq_BackupID : string; rq_OperationID : string; rq_Now : time; rq_Gate : bool }.
Record RestoreResult := mkResult { rr_PreRestoreSnapshotID : string; rr_RestoredFiles : Z; rr_RolledBack : bool }.
Record RecoveryResult := mkRecovery { rv_OperationID : string; rv_ProjectUID : string; rv_Interrupted : bool; rv_RolledBack : bool; rv_RecoveryRequired : bool; rv_Err : option bkErr }.

(** An entry of an archive: its header, whether it is a regular file, and the bytes
    behind it. An archive may end in a reading error. *)
Record tarEntry := mkTar { te_Name : string; te_Mode : Z; te_Size : Z; te_Regular : bool; te_Content : list Z }.
Record archive := mkArchive { ar_Entries : list tarEntry; ar_Broken : bool }.

Definition journalVersion : Z := 1.
Inductive journalPhase := journalPreparing | journalCommitting | journalOther (text : string).
Inductive fileStatus := filePending | fileReplaced | fileOther (text : string).
Record journalFile := mkJFile { jf_Target : string; jf_StagedPath : string; jf_Status : fileStatus; jf_OriginalExisted : bool }.
Record restoreJournal := mkJournal {
  jn_Version : Z;
  jn_OperationID : string;
  jn_ProjectUID : string;
  jn_BackupID : string;
  jn_WorkingDir : string;
  jn_Phase : journalPhase;
  jn_PreRestoreSnapshotID : string;
  jn_Files : list journalFile;
}.
#[export] Instance journalPhase_eq_dec : EqDecision journalPhase.
Proof. solve_decision. Defined.
#[export] Instance fileStatus_eq_dec : EqDecision fileStatus.
Proof. solve_decision. Defined.

(** ** The disk *)

Inductive node := Regular (content : list Z) (mode : Z) | Symlink | Directory | Special.
Abbreviation directory := (gmap string node).
(** A backup's directory: the manifest, when there is one and it decodes, and the
    archive. *)
Record stored := mkStored { sd_Manifest : option Manifest; sd_Archive : option archive }.

Record disk := mkDisk {
  dk_dirs : gmap string directory;
  dk_backups : gmap (string * string) stored;
  dk_journals : gmap string (option restoreJournal);
}.

(** What a call does: it works, or it fails after so much of its effect. *)
Inductive outcome := Works | Fails (done : nat).

Record bworld := mkBworld {
  bw_disk : disk;
  bw_blocked : gmap string bkErr;
  bw_outcomes : list outcome;
  bw_random : list (list Z);
}.
Definition bkM := M bworld bkErr.

(** A call with an effect on the disk, the whole of it or a part. *)
Definition effect (part : nat -> disk -> disk) (whole : disk -> disk) : bkM unit := fun w =>
  match bw_outcomes w with
  | [] => (Ok tt, mkBworld (whole (bw_disk w)) (bw_blocked w) [] (bw_random w))
  | Works :: rest => (Ok tt, mkBworld (whole (bw_disk w)) (bw_blocked w) rest (bw_random w))
  | Fails n :: rest => (Err ErrSystem, mkBworld (part n (bw_disk w)) (bw_blocked w) rest (bw_random w))
  end.
(** All or nothing, though the error may come after the effect *)
Definition atomically (f : disk -> disk) : bkM unit := effect (fun n d => match n with O => d | S _ => f d end) f.
Definition call : bkM unit := atomically id.
Definition ignore (m : bkM unit) : bkM unit := attempt m ;;; ret tt.

(** An error reported as another one *)
Definition wrap (e : bkErr) (m : bkM unit) : bkM unit := let* r := attempt m in match r with Ok _ => ret tt | Err _ => fail e end.

Definition random8 : bkM (list Z) := fun w =>
  match bw_random w with [] => (Err ErrSystem, w) | b :: rest => (Ok b, mkBworld (bw_disk w) (bw_blocked w) (bw_outcomes w) rest) end.

Definition on_dirs (f : gmap string directory -> gmap string directory) (d : disk) : disk := mkDisk (f (dk_dirs d)) (dk_backups d) (dk_journals d).
Definition on_backups (f : gmap (string * string) stored -> gmap (string * string) stored) (d : disk) : disk := mkDisk (dk_dirs d) (f (dk_backups d)) (dk_journals d).
Definition on_journals (f : gmap string (option restoreJournal) -> gmap string (option restoreJournal)) (d : disk) : disk := mkDisk (dk_dirs d) (dk_backups d) (f (dk_journals d)).
Definition dir_of (root : string) (d : disk) : directory := default ∅ (dk_dirs d !! root).
Definition on_dir (root : string) (f : directory -> directory) (d : disk) : disk := on_dirs (fun m => <[root := f (dir_of root d)]> m) d.

Definition lookup_node (root name : string) : bkM (option node) := call ;;; gets (fun w => dir_of root (bw_disk w) !! name).

(** [root.Rename], [root.Remove] *)
Definition rename_in (root from to : string) : bkM unit :=
  let* d := gets (fun w => dir_of root (bw_disk w)) in
  match d !! from with
  | None => fail ErrNotExist
  | Some n => match d !! to with Some Directory => fail ErrSystem | _ => atomically (on_dir root (fun d => <[to := n]> (delete from d))) end
  end.
Definition remove_in (root name : string) : bkM unit :=
  let* d := gets (fun w => dir_of root (bw_disk w)) in
  match d !! name with None => fail ErrNotExist | Some _ => atomically (on_dir root (delete name)) end.
(** Removal that does not mind a missing file *)
Definition remove_existing (root name : string) : bkM unit :=
  let* r := attempt (remove_in root name) in
  match r with Err ErrNotExist => ret tt | Err e => fail e | Ok _ => ret tt end.

Fixpoint each {A} (f : A -> bkM unit) (l : list A) : bkM unit := match l with [] => ret tt | x :: rest => f x ;;; each f rest end.

(** ** Checks *)

Definition validTrigger (t : Trigger) : bool := match t with TriggerOther _ => false | _ => true end.

(** The last part looks at the file system. *)
Definition validateProject (p : Project) : bkM unit :=
  if negb (validSafeID (pj_UID p)) || str_empty (pj_Name p) || (255 <? strlen (pj_Name p)) || contains_byte [0] (pj_Name p) || str_empty (pj_WorkingDir p)
     || negb (is_abs (pj_WorkingDir p)) || negb (bool_decide (Clean (pj_WorkingDir p) = pj_WorkingDir p)) || contains_byte [0] (pj_WorkingDir p)
  then fail ErrInvalidPath
  else
    call ;;;
    call ;;;
    let* d := gets (fun w => dk_dirs (bw_disk w) !! pj_WorkingDir p) in
    match d with None => fail ErrNotExist | Some _ => ret tt end.

Definition entry_ok (e : FileEntry) : bool :=
  validManagedPath (fe_RelPath e) && (0 <=? fe_Size e) && (strlen (fe_SHA256 e) =? 64) && (Z.ldiff (fe_Mode e) 511 =? 0).
Definition manifest_ok (projectUID backupID : string) (m : Manifest) : bool :=
  bool_decide (mf_BackupID m = backupID) && bool_decide (mf_ProjectUID m = projectUID) && validTrigger (mf_Trigger m) && validSafeID (mf_OperationID m)
  && is_abs (mf_WorkingDir m) && negb (str_empty (mf_ProjectName m)) && negb (is_zero (mf_CreatedAt m)) && forallb entry_ok (mf_Files m)
  && bool_decide (NoDup (fe_RelPath <$> mf_Files m)).

(** [validateStoredBackupDirectory], [openSecureRegular] *)
Definition open_backup (projectUID backupID : string) : bkM stored :=
  call ;;;
  let* s := gets (fun w => dk_backups (bw_disk w) !! (projectUID, backupID)) in
  match s with None => fail ErrNotExist | Some s => ret s end.

Definition loadManifest (projectUID backupID : string) : bkM Manifest :=
  if negb (validSafeID projectUID) || negb (validBackupID backupID) then fail ErrInvalidPath
  else
    let* s := open_backup projectUID backupID in
    call ;;;
    match sd_Manifest s with
    | None => fail ErrInvalidArchive
    | Some m => if manifest_ok projectUID backupID m then ret m else fail ErrInvalidArchive
    end.

(** ** Creating a backup *)

Record openedSource := mkSource { os_rel : string; os_content : list Z; os_mode : Z }.

Fixpoint open_sources (workingDir : string) (seen : list string) (paths : list string) : bkM (list openedSource) :=
  match paths with
  | [] => ret []
  | rel :: rest =>
    if negb (validManagedPath rel) || bool_decide (rel ∈ seen) then fail ErrInvalidPath
    else
      let* n := lookup_node workingDir rel in
      match n with
      | None => fail ErrNotExist
      | Some Symlink => fail ErrSymlink
      | Some Directory | Some Special => fail ErrInvalidPath
      | Some (Regular content mode) => call ;;; let* sources := open_sources workingDir (rel :: seen) rest in ret (mkSource rel content mode :: sources)
      end
  end.
Definition openSources (workingDir : string) (paths : list string) : bkM (list openedSource) :=
  call ;;;
  let* sources := open_sources workingDir [] paths in
  ret (sort_by (fun a b => str_less (os_rel a) (os_rel b)) sources).

Definition estimatedBackupBytes (sources : list openedSource) : Z :=
  let tarBytes := foldl (fun acc s => i64 (acc + 512 + (lenZ (os_content s) + 511) / 512 * 512)) 1024 sources in
  i64 (tarBytes + Z.quot tarBytes 100 + 2 ^ 20).

Definition perm (mode : Z) : Z := Z.land mode 511.
Definition tar_of (s : openedSource) : tarEntry := mkTar (os_rel s) (perm (os_mode s)) (lenZ (os_content s)) true (os_content s).
Definition entry_of (s : openedSource) : FileEntry := mkEntry (os_rel s) (hex_encode (Sum256 (os_content s))) (perm (os_mode s)) (lenZ (os_content s)).

Definition update_backup (key : string * string) (f : stored -> stored) : disk -> disk := on_backups (alter f key).
Definition set_archive (a : archive) (s : stored) : stored := mkStored (sd_Manifest s) (Some a).
Definition set_manifest (m : Manifest) (s : stored) : stored := mkStored (Some m) (sd_Archive s).

(** The archive grows entry by entry; until it is closed reading it fails. The
    files do not change between opening and reading. *)
Definition writeArchive (key : string * string) (sources : list openedSource) : bkM (list FileEntry) :=
  atomically (update_backup key (set_archive (mkArchive [] true))) ;;;
  each (fun _ => call ;;; call ;;; call ;;; call ;;; call) sources ;;;
  effect (fun n => update_backup key (set_archive (mkArchive (tar_of <$> take n sources) true))) (update_backup key (set_archive (mkArchive (tar_of <$> sources) false))) ;;;
  call ;;;
  call ;;;
  call ;;;
  ret (entry_of <$> sources).

(** [writeJSONFile]: a manifest that is not written whole does not decode. *)
Definition writeManifest (key : string * string) (m : Manifest) : bkM unit := call ;;; atomically (update_backup key (set_manifest m)) ;;; call ;;; call.

Definition rename_backup (from to : string * string) : bkM unit :=
  let* b := gets (fun w => dk_backups (bw_disk w)) in
  match b !! from, b !! to with
  | Some s, None => atomically (on_backups (fun m => <[to := s]> (delete from m)))
  | _, _ => fail ErrSystem
  end.

(** [RemoveAll] of a backup's directory: its files go in any order, then the
    directory. *)
Definition remove_backup (key : string * string) : bkM unit :=
  effect (fun n => match n with
    | O => id
    | 1%nat => update_backup key (fun s => mkStored (sd_Manifest s) None)
    | 2%nat => update_backup key (fun s => mkStored None (sd_Archive s))
    | 3%nat => update_backup key (fun _ => mkStored None None)
    | _ => on_backups (delete key)
    end) (on_backups (delete key)).

Definition staging_of (backupID : string) : string := ("." ++ backupID ++ ".tmp")%string.

Section Manager.
(** The admission of the disk budget, the space of a project's file system, the
    clock, and the length and text of what is stored. *)
Context (admitBackup : string -> Trigger -> Z -> bool) (admitRestore : string -> string -> Z -> Z -> Z -> bool) (space : string -> Z * Z) (now : time).
Context (archive_size : archive -> Z) (manifest_text : Manifest -> list Z).

(** What is written into the staging directory, up to its publication. *)
Definition fill (uid backupID : string) (request : CreateRequest) (createdAt : time) (sources : list openedSource) : bkM Manifest :=
  let staging := (uid, staging_of backupID) in
  let* entries := writeArchive staging sources in
  call ;;;
  let m := mkManifest backupID uid (pj_Name (cq_Project request)) (pj_WorkingDir (cq_Project request)) createdAt (cq_Trigger request) (cq_OperationID request) entries in
  writeManifest staging m ;;;
  call ;;;
  call ;;;
  rename_backup staging (uid, backupID) ;;;
  ret m.

Definition create (request : CreateRequest) (allowEmpty : bool) : bkM Manifest :=
  validateProject (cq_Project request) ;;;
  if negb (validTrigger (cq_Trigger request)) || negb (validSafeID (cq_OperationID request)) then fail ErrInvalidPath
  else if bool_decide (cq_RelativePaths request = []) && negb allowEmpty then fail ErrInvalidPath
  else
    let createdAt := if is_zero (cq_CreatedAt request) then now else cq_CreatedAt request in
    let uid := pj_UID (cq_Project request) in
    let* sources := openSources (pj_WorkingDir (cq_Project request)) (cq_RelativePaths request) in
    if negb (admitBackup uid (cq_Trigger request) (estimatedBackupBytes sources)) then fail ErrAdmission
    else
      call ;;;
      let* randomBytes := random8 in
      let backupID := newBackupID createdAt randomBytes in
      let staging := (uid, staging_of backupID) in
      call ;;;
      call ;;;
      let* b := gets (fun w => dk_backups (bw_disk w)) in
      if bool_decide (is_Some (b !! staging)) then fail ErrSystem
      else
        atomically (on_backups (insert staging (mkStored None None))) ;;;
        let* r := attempt (fill uid backupID request createdAt sources) in
        match r with
        | Err e => ignore (remove_backup staging) ;;; fail e
        | Ok m => call ;;; call ;;; ret m
        end.

Definition Create (request : CreateRequest) : bkM Manifest := create request false.

(** *** Listing and pruning *)

(** [os.ReadDir] of a project's directory, in the order of the names; directories
    whose names are no backup identifiers are skipped by every caller. *)
Definition names_of (uid : string) (b : gmap (string * string) stored) : list string :=
  sort_by str_less (snd <$> filter (fun k => fst k = uid /\ validBackupID (snd k) = true) (fst <$> map_to_list b)).

Fixpoint collect {A} (f : string -> bkM (option A)) (names : list string) : bkM (list A) :=
  match names with
  | [] => ret []
  | n :: rest => let* x := f n in let* xs := collect f rest in ret (match x with Some a => a :: xs | None => xs end)
  end.

Definition metadata_of (uid : string) (m : Manifest) (a : archive) : Metadata :=
  mkMetadata (mf_BackupID m) uid (mf_CreatedAt m) (mf_Trigger m) (lenZ (mf_Files m)) (i64 (archive_size a + lenZ (manifest_text m))) (hex_encode (Sum256 (manifest_text m))).
Definition newer (ta : time) (ia : string) (tb : time) (ib : string) : bool := if ta =? tb then str_less ib ia else tb <? ta.

Definition ListBackups (uid : string) : bkM (list Metadata) :=
  if negb (validSafeID uid) then fail ErrInvalidPath
  else
    call ;;;
    let* names := gets (fun w => names_of uid (dk_backups (bw_disk w))) in
    let* l := collect (fun id =>
      call ;;;
      let* m := loadManifest uid id in
      let* s := open_backup uid id in
      call ;;;
      match sd_Archive s with None => fail ErrNotExist | Some a => ret (Some (metadata_of uid m a)) end) names in
    ret (sort_by (fun a b => newer (md_CreatedAt a) (md_BackupID a) (md_CreatedAt b) (md_BackupID b)) l).

Definition PruneAutomatic (uid : string) (keep : Z) : bkM (list string) :=
  if negb (validSafeID uid) || (keep <? 1) then fail ErrInvalidPath
  else
    call ;;;
    let* names := gets (fun w => names_of uid (dk_backups (bw_disk w))) in
    let* automatic := collect (fun id =>
      let* m := loadManifest uid id in
      ret (if bool_decide (mf_Trigger m = TriggerManual) then None else Some (mf_BackupID m, mf_CreatedAt m))) names in
    let excess := drop (Z.to_nat keep) (sort_by (fun a b => snd b <? snd a) automatic) in
    each (fun c => remove_backup (uid, fst c)) excess ;;;
    (if bool_decide (excess = []) then ret tt else call) ;;;
    ret (fst <$> excess).

(** ** The restore journal *)

Definition jfile_ok (f : journalFile) : bool :=
  validManagedPath (jf_Target f) && bool_decide (split (jf_StagedPath f) = [jf_StagedPath f]) && HasPrefix (jf_StagedPath f) stage_mark
  && match jf_Status f with fileOther _ => false | _ => true end.
Definition validateJournal (j : restoreJournal) : bool :=
  (jn_Version j =? journalVersion) && validSafeID (jn_OperationID j) && validSafeID (jn_ProjectUID j) && validBackupID (jn_BackupID j)
  && validBackupID (jn_PreRestoreSnapshotID j) && is_abs (jn_WorkingDir j) && match jn_Phase j with journalOther _ => false | _ => true end
  && forallb jfile_ok (jn_Files j) && bool_decide (NoDup (jf_Target <$> jn_Files j)).

Definition journal_name (operationID : string) : string := (operationID ++ ".json")%string.
Definition journal_temp (operationID : string) : string := ("." ++ operationID ++ ".tmp")%string.

Definition writeJournal (j : restoreJournal) : bkM unit :=
  if negb (validateJournal j) then fail ErrRecoveryRequired
  else
    let temporary := journal_temp (jn_OperationID j) in
    let final := journal_name (jn_OperationID j) in
    let* existing := gets (fun w => dk_journals (bw_disk w) !! temporary) in
    (match existing with None => ret tt | Some _ => atomically (on_journals (delete temporary)) end) ;;;
    atomically (on_journals (insert temporary None)) ;;;
    let* r := attempt (
      atomically (on_journals (insert temporary (Some j))) ;;;
      call ;;;
      call ;;;
      atomically (on_journals (fun m => <[final := Some j]> (delete temporary m)))) in
    match r with
    | Err e => ignore (atomically (on_journals (delete temporary))) ;;; fail e
    | Ok _ => call
    end.

Definition removeJournal (operationID : string) : bkM unit :=
  if negb (validSafeID operationID) then fail ErrInvalidPath
  else atomically (on_journals (delete (journal_name operationID))) ;;; call.

Definition loadJournal (name : string) : bkM restoreJournal :=
  call ;;;
  let* j := gets (fun w => dk_journals (bw_disk w) !! name) in
  match j with
  | None => fail ErrNotExist
  | Some None => fail ErrRecoveryRequired
  | Some (Some j) => if validateJournal j then ret j else fail ErrRecoveryRequired
  end.

(** *** Staging *)

(** [stagePlan]: the staging name of each entry, by its position. *)
Definition stagePlan (m : Manifest) (suffix : string) : list (FileEntry * string) := imap (fun i e => (e, stage_name suffix i)) (mf_Files m).
Fixpoint plan_of (plan : list (FileEntry * string)) (name : string) : option (FileEntry * string) :=
  match plan with [] => None | p :: rest => if bool_decide (fe_RelPath (fst p) = name) then Some p else plan_of rest name end.

Definition removeStaged (root : string) (staged : list string) : bkM unit :=
  each (fun path => ignore (remove_in root path)) staged ;;; ignore call.

(** The names are listed once; the removals follow. *)
Definition purgeStaging (root suffix : string) : bkM unit :=
  call ;;;
  call ;;;
  let* d := gets (fun w => dir_of root (bw_disk w)) in
  let stale := filter (fun n => HasPrefix n (stagePrefix suffix) && HasSuffix n ".tmp" = true) (fst <$> map_to_list d) in
  each (remove_existing root) stale ;;;
  if bool_decide (stale = []) then ret tt else call.

Definition create_staged (root name : string) : bkM unit :=
  let* d := gets (fun w => dir_of root (bw_disk w)) in
  match d !! name with Some _ => fail ErrSystem | None => atomically (on_dir root (insert name (Regular [] 384))) end.
Definition write_staged (root name : string) (content : list Z) : bkM unit :=
  effect (fun n => on_dir root (insert name (Regular (take n content) 384))) (on_dir root (insert name (Regular content 384))).

(** One entry of the archive *)
Definition stage_entry (root : string) (plan : list (FileEntry * string)) (done : list string) (t : tarEntry) : bkM unit :=
  match plan_of plan (te_Name t) with
  | None => fail ErrInvalidArchive
  | Some (e, stage) =>
    if negb (validManagedPath (te_Name t)) || negb (te_Regular t) || bool_decide (te_Name t ∈ done) then fail ErrInvalidArchive
    else if negb (te_Size t =? fe_Size e) || negb (perm (u32 (te_Mode t)) =? fe_Mode e) then fail ErrInvalidArchive
    else
      create_staged root stage ;;;
      let content := take (Z.to_nat (fe_Size e)) (te_Content t) in
      wrap ErrInvalidArchive (
        write_staged root stage content ;;;
        if negb (lenZ content =? fe_Size e) then fail ErrInvalidArchive
        else
          atomically (on_dir root (insert stage (Regular content (fe_Mode e)))) ;;;
          call ;;;
          call) ;;;
      if EqualFold (hex_encode (Sum256 content)) (fe_SHA256 e) then ret tt else fail ErrInvalidArchive
  end.

Fixpoint stage_entries (root : string) (plan : list (FileEntry * string)) (done : list string) (broken : bool) (entries : list tarEntry) : bkM unit :=
  call ;;;
  match entries with
  | [] => if broken then fail ErrInvalidArchive else if negb (lenZ done =? lenZ plan) then fail ErrInvalidArchive else call
  | t :: rest => stage_entry root plan done t ;;; stage_entries root plan (te_Name t :: done) broken rest
  end.

Definition stageArchive (root : string) (m : Manifest) (suffix : string) : bkM unit :=
  if negb (validSafeID suffix) then fail ErrInvalidPath
  else
    let plan := stagePlan m suffix in
    purgeStaging root suffix ;;;
    let* s := open_backup (mf_ProjectUID m) (mf_BackupID m) in
    call ;;;
    match sd_Archive s with
    | None => fail ErrNotExist
    | Some a =>
      let* r := attempt (stage_entries root plan [] (ar_Broken a) (ar_Entries a)) in
      match r with
      | Err e => removeStaged root (snd <$> plan) ;;; fail e
      | Ok _ => ret tt
      end
    end.

Definition discardJournal (root : string) (j : restoreJournal) : bkM unit :=
  removeStaged root (jf_StagedPath <$> jn_Files j) ;;; removeJournal (jn_OperationID j).

(** ** Rollback *)

Definition rollback_file (root : string) (plan : list (FileEntry * string)) (f : journalFile) : bkM unit :=
  if negb (bool_decide (jf_Status f = fileReplaced)) then ret tt
  else
    (if jf_OriginalExisted f then
       match plan_of plan (jf_Target f) with None => fail ErrInvalidArchive | Some (_, stage) => rename_in root stage (jf_Target f) end
     else remove_existing root (jf_Target f)) ;;;
    call.

Definition rollback (root : string) (j : restoreJournal) : bkM unit :=
  let* m := loadManifest (jn_ProjectUID j) (jn_PreRestoreSnapshotID j) in
  if negb (bool_decide (mf_WorkingDir m = jn_WorkingDir j)) then fail ErrInvalidArchive
  else
    let suffix := restoreStageSuffix (jn_OperationID j) "rollback" in
    let plan := stagePlan m suffix in
    stageArchive root m suffix ;;;
    let* r := attempt (each (rollback_file root plan) (jn_Files j)) in
    removeStaged root (snd <$> plan) ;;;
    of_res r.

(** [Manager.block], [CheckChangeAllowed] *)
Definition block (projectUID : string) (cause : bkErr) : bkM unit :=
  modify (fun w => mkBworld (bw_disk w) (<[projectUID := cause]> (bw_blocked w)) (bw_outcomes w) (bw_random w)).
Definition CheckChangeAllowed (projectUID : string) : bkM unit :=
  if negb (validSafeID projectUID) then fail ErrInvalidPath
  else let* blocked := gets (fun w => bw_blocked w !! projectUID) in match blocked with Some _ => fail ErrProjectRecoveryBlocked | None => ret tt end.

(** The error of [restoreFailure]: the cause, or that recovery is required. *)
Definition restoreFailure {A} (root : string) (j : restoreJournal) (cause : bkErr) : bkM A :=
  let* r := attempt (rollback root j) in
  match r with
  | Err e => block (jn_ProjectUID j) e ;;; fail ErrRecoveryRequired
  | Ok _ =>
    let* r := attempt (discardJournal root j) in
    match r with
    | Err e => block (jn_ProjectUID j) e ;;; fail ErrRecoveryRequired
    | Ok _ => fail cause
    end
  end.

(** ** Restore *)

Fixpoint existingTargets (root : string) (entries : list FileEntry) : bkM (list string) :=
  match entries with
  | [] => ret []
  | e :: rest =>
    let* n := lookup_node root (fe_RelPath e) in
    match n with
    | None => existingTargets root rest
    | Some (Regular _ _) => let* l := existingTargets root rest in ret (fe_RelPath e :: l)
    | Some Symlink => fail ErrSymlink
    | Some Directory | Some Special => fail ErrInvalidPath
    end
  end.

Definition set_phase (p : journalPhase) (j : restoreJournal) : restoreJournal :=
  mkJournal (jn_Version j) (jn_OperationID j) (jn_ProjectUID j) (jn_BackupID j) (jn_WorkingDir j) p (jn_PreRestoreSnapshotID j) (jn_Files j).
Definition set_files (l : list journalFile) (j : restoreJournal) : restoreJournal :=
  mkJournal (jn_Version j) (jn_OperationID j) (jn_ProjectUID j) (jn_BackupID j) (jn_WorkingDir j) (jn_Phase j) (jn_PreRestoreSnapshotID j) l.
Definition mark_replaced (f : journalFile) : journalFile := mkJFile (jf_Target f) (jf_StagedPath f) fileReplaced (jf_OriginalExisted f).

(** The loop of replacements: [index] files are done, [fuel] are left. The journal
    says "replaced" before the file is. *)
Fixpoint replace_files (root : string) (j : restoreJournal) (index fuel : nat) : bkM restoreJournal :=
  match fuel with
  | O => ret j
  | S fuel =>
    match jn_Files j !! index with
    | None => ret j
    | Some f =>
      let j := set_files (<[index := mark_replaced f]> (jn_Files j)) j in
      let* r := attempt (
        writeJournal j ;;;
        rename_in root (jf_StagedPath f) (jf_Target f) ;;;
        call ;;;
        call) in
      match r with
      | Err e => restoreFailure root j e
      | Ok _ => replace_files root j (S index) fuel
      end
    end
  end.

Definition journal_of (request : RestoreRequest) (m snapshot : Manifest) : restoreJournal :=
  let suffix := restoreStageSuffix (rq_OperationID request) "restore" in
  mkJournal journalVersion (rq_OperationID request) (pj_UID (rq_Project request)) (rq_BackupID request) (pj_WorkingDir (rq_Project request)) journalPreparing (mf_BackupID snapshot)
    ((fun p : FileEntry * string => mkJFile (fe_RelPath (fst p)) (snd p) filePending (bool_decide (fe_RelPath (fst p) ∈ (fe_RelPath <$> mf_Files snapshot)))) <$> stagePlan m suffix).

(** The part after the journal is written: until the phase is COMMITTING an error
    discards the transaction. *)
Definition stage_and_commit (request : RestoreRequest) (m : Manifest) (j : restoreJournal) : bkM restoreJournal :=
  let root := pj_WorkingDir (rq_Project request) in
  stageArchive root m (restoreStageSuffix (rq_OperationID request) "restore") ;;;
  let* gate := attempt call in
  match gate with
  | Err _ => ignore (discardJournal root j) ;;; fail ErrCommitCanceled
  | Ok _ =>
    let j := set_phase journalCommitting j in
    let* r := attempt (writeJournal j) in
    match r with
    | Err e => ignore (discardJournal root j) ;;; fail e
    | Ok _ => ret j
    end
  end.

Definition Restore (request : RestoreRequest) : bkM RestoreResult :=
  let project := rq_Project request in
  let root := pj_WorkingDir project in
  validateProject project ;;;
  if negb (validBackupID (rq_BackupID request)) || negb (validSafeID (rq_OperationID request)) || negb (rq_Gate request) then fail ErrInvalidPath
  else
    CheckChangeAllowed (pj_UID project) ;;;
    let* m := loadManifest (pj_UID project) (rq_BackupID request) in
    if negb (bool_decide (mf_WorkingDir m = root)) then fail ErrInvalidArchive
    else
      call ;;;
      call ;;;
      let estimated := foldl (fun acc e => i64 (acc + fe_Size e)) 0 (mf_Files m) in
      if negb (admitRestore (pj_UID project) (rq_BackupID request) (fst (space root)) (snd (space root)) estimated) then fail ErrAdmission
      else
        let* existing := existingTargets root (mf_Files m) in
        let* snapshot := create (mkCreate project existing TriggerPreRestore (rq_OperationID request) (rq_Now request)) true in
        let j := journal_of request m snapshot in
        writeJournal j ;;;
        let* r := attempt (stage_and_commit request m j) in
        match r with
        | Err e => ignore (discardJournal root j) ;;; fail e
        | Ok j =>
          let* j := replace_files root j 0 (length (jn_Files j)) in
          let* r := attempt (removeJournal (jn_OperationID j)) in
          match r with
          | Err e => block (jn_ProjectUID j) e ;;; fail ErrRecoveryRequired
          | Ok _ => ret (mkResult (mf_BackupID snapshot) (lenZ (jn_Files j)) false)
          end
        end.

(** ** Recovery *)

Section Recover.
(** Where the projects are, as the catalog answers. *)
Context (resolver : string -> option Project).

Definition required (j : restoreJournal) (e : bkErr) (interrupted rolledBack : bool) : bkM RecoveryResult :=
  block (jn_ProjectUID j) e ;;; ret (mkRecovery (jn_OperationID j) (jn_ProjectUID j) interrupted rolledBack true (Some e)).
Definition closed (j : restoreJournal) (rolledBack : bool) : bkM RecoveryResult :=
  let* r := attempt (discardJournal (jn_WorkingDir j) j) in
  match r with
  | Err e => required j e true rolledBack
  | Ok _ => ret (mkRecovery (jn_OperationID j) (jn_ProjectUID j) true rolledBack false None)
  end.

Definition resolve (uid : string) : bkM Project := call ;;; match resolver uid with None => fail ErrNotExist | Some p => ret p end.

Definition recover_one (name : string) : bkM RecoveryResult :=
  let* j := loadJournal name in
  let* p := attempt (resolve (jn_ProjectUID j)) in
  match p with
  | Err e => required j e false false
  | Ok p =>
    let* v := attempt (validateProject p) in
    if negb (is_ok v) || negb (bool_decide (pj_WorkingDir p = jn_WorkingDir j)) then required j ErrRecoveryRequired false false
    else
      let* o := attempt call in
      match o with
      | Err e => required j e false false
      | Ok _ =>
        let replaced := existsb (fun f => bool_decide (jf_Status f = fileReplaced)) (jn_Files j) in
        if bool_decide (jn_Phase j = journalPreparing) || negb replaced then closed j false
        else
          let* r := attempt (rollback (pj_WorkingDir p) j) in
          match r with
          | Err e => required j e true false
          | Ok _ => closed j true
          end
      end
  end.

Definition journal_files (m : gmap string (option restoreJournal)) : list string := sort_by str_less (filter (fun n => HasSuffix n ".json" = true) (fst <$> map_to_list m)).

Fixpoint recover_all (names : list string) : bkM (list RecoveryResult) :=
  match names with
  | [] => ret []
  | n :: rest => let* r := recover_one n in let* rs := recover_all rest in ret (r :: rs)
  end.

Definition Recover : bkM (list RecoveryResult) :=
  call ;;;
  let* names := gets (fun w => journal_files (dk_journals (bw_disk w))) in
  recover_all names.
End Recover.

(** ** Reclaiming under disk pressure *)

Section Reclaim.
(** The bytes of a backup's directory and of a file of the journal directory *)
Context (stored_bytes : stored -> Z) (journal_bytes : option restoreJournal -> Z).

Definition secureLogicalBytes (key : string * string) : bkM Z :=
  let* s := open_backup (fst key) (snd key) in
  call ;;;
  if max_i64 <? stored_bytes s then fail ErrInvalidArchive else ret (stored_bytes s).

(** Candidates in order until enough is freed; what was freed, and the error. *)
Fixpoint reclaim {A} (step : A -> bkM Z) (needed freed : Z) (candidates : list A) : bkM (Z * option bkErr) :=
  match candidates with
  | [] => ret (freed, None)
  | c :: rest =>
    if needed <=? freed then ret (freed, None)
    else
      let* r := attempt (call ;;; step c) in
      match r with Err e => ret (freed, Some e) | Ok bytes => reclaim step needed (i64 (freed + bytes)) rest end
  end.

Definition projects_of (b : gmap (string * string) stored) : list string :=
  sort_by str_less (elements (list_to_set (fst <$> filter (fun k => validSafeID (fst k) = true) (fst <$> map_to_list b)) : gset string)).

Record automaticCandidate := mkCandidate { ac_projectUID : string; ac_backupID : string; ac_createdAt : time; ac_bytes : Z }.

(** Each project's automatic snapshots, newest first *)
Fixpoint automatic_of (uids : list string) : bkM (list (list automaticCandidate)) :=
  match uids with
  | [] => ret []
  | uid :: rest =>
    call ;;;
    call ;;;
    let* names := gets (fun w => names_of uid (dk_backups (bw_disk w))) in
    let* l := collect (fun id =>
      let* m := loadManifest uid id in
      if bool_decide (mf_Trigger m = TriggerManual) then ret None
      else let* bytes := secureLogicalBytes (uid, id) in ret (Some (mkCandidate uid id (mf_CreatedAt m) bytes))) names in
    let* ls := automatic_of rest in
    ret (sort_by (fun a b => newer (ac_createdAt a) (ac_backupID a) (ac_createdAt b) (ac_backupID b)) l :: ls)
  end.
Definition automaticCandidates : bkM (list (list automaticCandidate)) :=
  call ;;;
  let* uids := gets (fun w => projects_of (dk_backups (bw_disk w))) in
  automatic_of uids.

Definition older (a b : automaticCandidate) : bool :=
  if ac_createdAt a =? ac_createdAt b then
    (if bool_decide (ac_projectUID a = ac_projectUID b) then str_less (ac_backupID a) (ac_backupID b) else str_less (ac_projectUID a) (ac_projectUID b))
  else ac_createdAt a <? ac_createdAt b.

Definition remove_candidate (c : automaticCandidate) : bkM Z :=
  let key := (ac_projectUID c, ac_backupID c) in
  let* m := loadManifest (fst key) (snd key) in
  if bool_decide (mf_Trigger m = TriggerManual) then fail ErrManualBackup
  else
    let* bytes := secureLogicalBytes key in
    if negb (bytes =? ac_bytes c) then fail ErrConcurrentModification
    else remove_backup key ;;; call ;;; ret bytes.

Definition removeAutomaticCandidates (needed : Z) (candidates : list automaticCandidate) : bkM (Z * option bkErr) :=
  reclaim remove_candidate needed 0 (sort_by older candidates).

(** [ReclaimExcessAutomaticForDiskPressure], [ReclaimOldAutomaticForDiskPressure]:
    the same but for the number of snapshots each project keeps. *)
Definition reclaim_automatic (needed : Z) (keep : nat) : bkM (Z * option bkErr) :=
  let* byProject := automaticCandidates in
  removeAutomaticCandidates needed (mjoin (drop keep <$> byProject)).
Definition ReclaimExcessAutomaticForDiskPressure (needed keep : Z) : bkM (Z * option bkErr) :=
  if needed <=? 0 then ret (0, None) else if keep <? 1 then fail ErrInvalidPath else reclaim_automatic needed (Z.to_nat keep).
Definition ReclaimOldAutomaticForDiskPressure (needed : Z) : bkM (Z * option bkErr) :=
  if needed <=? 0 then ret (0, None) else reclaim_automatic needed 1.

(** Abandoned temporary directories and files, in the order of their paths: the
    backups come before the journal. *)
Definition abandoned_name (name : string) : bool := HasPrefix name "." && HasSuffix name ".tmp".
Definition abandoned_backup (name : string) : bool :=
  abandoned_name name && validBackupID (TrimPrefix (String.substring 0 (String.length name - 4) name) ".").

Inductive abandoned := AbandonedBackup (key : string * string) | AbandonedJournal (name : string).
Definition abandoned_of (d : disk) : list abandoned :=
  (AbandonedBackup <$> sort_by (fun a b => str_less (fst a ++ "/" ++ snd a) (fst b ++ "/" ++ snd b))
     (filter (fun k => validSafeID (fst k) && abandoned_backup (snd k) = true) (fst <$> map_to_list (dk_backups d))))
  ++ (AbandonedJournal <$> sort_by str_less (filter (fun n => abandoned_name n = true) (fst <$> map_to_list (dk_journals d)))).

Definition remove_abandoned (a : abandoned) : bkM Z :=
  match a with
  | AbandonedBackup key => let* bytes := secureLogicalBytes key in remove_backup key ;;; call ;;; ret bytes
  | AbandonedJournal name =>
    call ;;;
    let* j := gets (fun w => dk_journals (bw_disk w) !! name) in
    match j with None => fail ErrNotExist | Some j => atomically (on_journals (delete name)) ;;; call ;;; ret (journal_bytes j) end
  end.
Definition ReclaimAbandonedTempForDiskPressure (needed : Z) : bkM (Z * option bkErr) :=
  if needed <=? 0 then ret (0, None)
  else
    call ;;;
    call ;;;
    let* candidates := gets (fun w => abandoned_of (bw_disk w)) in
    reclaim remove_abandoned needed 0 candidates.
End Reclaim.
End Manager.
