(* ===== verification/BackupSpec.v ===== *)
(** * Restores are all or nothing

    Whatever calls fail and wherever the process dies, a restore leaves the files of
    the project as they were or all restored, or a journal from which the next start
    brings the originals back; and pruning and reclaiming keep the manual backups
    and the newest snapshots. *)

From Stdlib Require Import Ascii.
From stdpp Require Import pretty.
From S2P Require Import Prelude GoText Paths BackupText Backup.

(** ** Reasoning about calls that may fail *)

(** From a disk in [P], a run that returns ends in [Q] and one that fails in [E]. *)
Definition hoare {A} (P : disk -> Prop) (m : bkM A) (Q : A -> disk -> Prop) (E : bkErr -> disk -> Prop) : Prop :=
  forall w, P (bw_disk w) -> match m w with (Ok a, w') => Q a (bw_disk w') | (Err e, w') => E e (bw_disk w') end.
(** A relation between the disks before and after, whatever is returned. *)
Definition shifts {A} (R : disk -> disk -> Prop) (m : bkM A) : Prop := forall w, R (bw_disk w) (bw_disk (m w).2).

Create HintDb shifts.

Section Rules.
Context {A : Type}.
Implicit Types (P : disk -> Prop) (E : bkErr -> disk -> Prop).

Lemma h_ret P (a : A) (Q : A -> disk -> Prop) E : (forall d, P d -> Q a d) -> hoare P (ret a) Q E.
Proof. intros H w Hw. by apply H. Qed.
Lemma h_fail P e (Q : A -> disk -> Prop) E : (forall d, P d -> E e d) -> hoare P (fail e) Q E.
Proof. intros H w Hw. by apply H. Qed.
Lemma h_gets P (g : disk -> A) E : hoare P (gets (fun w => g (bw_disk w))) (fun a d => P d /\ a = g d) E.
Proof. intros w Hw. by split. Qed.
Lemma h_read P (f : bworld -> A) E : hoare P (gets f) (fun _ => P) E.
Proof. by intros w Hw. Qed.
Lemma h_of_res P (r : res bkErr A) : hoare P (of_res r) (fun a d => P d /\ r = Ok a) (fun e d => P d /\ r = Err e).
Proof. intros w Hw. unfold of_res. by destruct r. Qed.
Lemma h_bind {B} P (m : bkM B) (f : B -> bkM A) Q Q' E : hoare P m Q E -> (forall b, hoare (Q b) (f b) Q' E) -> hoare P (bind m f) Q' E.
Proof. intros Hm Hf w Hw. unfold bind. specialize (Hm w Hw). destruct (m w) as [[b|e] w']; [by apply Hf | done]. Qed.
Lemma h_attempt P (m : bkM A) Q E E' : hoare P m Q E -> hoare P (attempt m) (fun r d => match r with Ok a => Q a d | Err e => E e d end) E'.
Proof. intros Hm w Hw. unfold attempt. specialize (Hm w Hw). by destruct (m w) as [[a|e] w']. Qed.
Lemma h_weaken P P' (m : bkM A) (Q Q' : A -> disk -> Prop) E E' :
  hoare P m Q E -> (forall d, P' d -> P d) -> (forall a d, Q a d -> Q' a d) -> (forall e d, E e d -> E' e d) -> hoare P' m Q' E'.
Proof. intros Hm Hp Hq He w Hw. specialize (Hm w (Hp _ Hw)). destruct (m w) as [[a|e] w']; auto. Qed.
Lemma h_if (b : bool) P (m1 m2 : bkM A) Q E : (b = true -> hoare P m1 Q E) -> (b = false -> hoare P m2 Q E) -> hoare P (if b then m1 else m2) Q E.
Proof. destruct b; auto. Qed.
Lemma h_pure (F : Prop) P (m : bkM A) Q E : (F -> hoare P m Q E) -> hoare (fun d => P d /\ F) m Q E.
Proof. intros H w [Hw Hf]. by apply H. Qed.
(** A fact that the precondition has at hand. *)
Lemma h_assume (F : Prop) P (m : bkM A) Q E : (forall d, P d -> F) -> (F -> hoare P m Q E) -> hoare P m Q E.
Proof. intros Hp H w Hw. exact (H (Hp _ Hw) w Hw). Qed.
(** A predicate that the changes keep is kept. *)
Lemma h_shifts R P (m : bkM A) : shifts R m -> (forall d d', R d d' -> P d -> P d') -> hoare P m (fun _ => P) (fun _ => P).
Proof. intros Hm Hr w Hw. pose proof (Hr _ _ (Hm w) Hw). by destruct (m w) as [[a|e] w']. Qed.
Lemma h_both R P (m : bkM A) Q E : shifts R m -> (forall d d', R d d' -> P d -> P d') -> hoare P m Q E -> hoare P m (fun a d => Q a d /\ P d) (fun e d => E e d /\ P d).
Proof. intros Hm Hr H w Hw. pose proof (Hr _ _ (Hm w) Hw). specialize (H w Hw). by destruct (m w) as [[a|e] w']. Qed.
End Rules.

Lemma h_effect P part whole Q E : (forall d, P d -> Q tt (whole d)) -> (forall n d, P d -> E ErrSystem (part n d)) -> hoare P (effect part whole) Q E.
Proof. intros Hq He w Hw. unfold effect. destruct (bw_outcomes w) as [|[|n] rest]; simpl; auto. Qed.
Lemma h_atomically P f (Q : unit -> disk -> Prop) E : (forall d, P d -> Q tt (f d)) -> (forall d, P d -> E ErrSystem d) -> (forall d, P d -> E ErrSystem (f d)) -> hoare P (atomically f) Q E.
Proof. intros Hq He Hf. apply h_effect; [done|]. intros [|n] d Hd; auto. Qed.
Lemma h_call P E : (forall d, P d -> E ErrSystem d) -> hoare P call (fun _ => P) E.
Proof. intros He. by apply h_atomically. Qed.
(** A call with no effect, in a place where failing is allowed. *)
Ltac h_calls := repeat (eapply h_bind; [by apply h_call|]; intros []; cbv beta).

Lemma h_ignore P (m : bkM unit) Q E E' : hoare P m Q E -> hoare P (ignore m) (fun _ d => Q tt d \/ exists e, E e d) E'.
Proof.
  intros Hm. unfold ignore. eapply h_bind; [by eapply h_attempt|]. intros [[]|e]; apply h_ret; intros d Hd; [by left | right; by exists e].
Qed.

Lemma h_wrap P e m Q E : hoare P m Q (fun _ => E e) -> hoare P (wrap e m) Q E.
Proof. intros Hm. unfold wrap. eapply h_bind; [by eapply h_attempt|]. intros [[]|e']; [by apply h_ret | by apply h_fail]. Qed.

Section Shifts.
Context (R : disk -> disk -> Prop) `{!PreOrder R}.
Lemma s_ret {A} (a : A) : shifts R (ret a).
Proof. intros w. reflexivity. Qed.
Lemma s_fail {A} e : shifts (A := A) R (fail e).
Proof. intros w. reflexivity. Qed.
Lemma s_gets {A} (f : bworld -> A) : shifts R (gets f).
Proof. intros w. reflexivity. Qed.
Lemma s_of_res {A} (r : res bkErr A) : shifts R (of_res r).
Proof. intros w. reflexivity. Qed.
Lemma s_bind {A B} (m : bkM A) (f : A -> bkM B) : shifts R m -> (forall a, shifts R (f a)) -> shifts R (bind m f).
Proof. intros Hm Hf w. unfold bind. specialize (Hm w). destruct (m w) as [[a|e] w']; simpl in *; [|done]. etransitivity; [exact Hm | apply Hf]. Qed.
Lemma s_attempt {A} (m : bkM A) : shifts R m -> shifts R (attempt m).
Proof. intros Hm w. unfold attempt. specialize (Hm w). by destruct (m w). Qed.
Lemma s_ignore m : shifts R m -> shifts R (ignore m).
Proof. intros Hm. apply s_bind; [by apply s_attempt | intros; apply s_ret]. Qed.
Lemma s_wrap e m : shifts R m -> shifts R (wrap e m).
Proof. intros Hm. apply s_bind; [by apply s_attempt|]. intros [a|e']; [apply s_ret | apply s_fail]. Qed.
Lemma s_if {A} (b : bool) (m1 m2 : bkM A) : shifts R m1 -> shifts R m2 -> shifts R (if b then m1 else m2).
Proof. by destruct b. Qed.
Lemma s_effect part whole : (forall d, R d (whole d)) -> (forall n d, R d (part n d)) -> shifts R (effect part whole).
Proof. intros Hw Hp w. unfold effect. destruct (bw_outcomes w) as [|[|n] rest]; simpl; auto. Qed.
Lemma s_atomically f : (forall d, R d (f d)) -> shifts R (atomically f).
Proof. intros Hf. apply s_effect; [done|]. intros [|n] d; [reflexivity | done]. Qed.
Lemma s_call : shifts R call.
Proof. apply s_atomically. reflexivity. Qed.
Lemma s_each {A} (f : A -> bkM unit) l : (forall x, x ∈ l -> shifts R (f x)) -> shifts R (each f l).
Proof. induction l as [|x l IH]; intros H; [apply s_ret|]. apply s_bind; [apply H; by left|]. intros _. apply IH. intros y Hy. apply H. by right. Qed.
Lemma s_block uid e : shifts R (block uid e).
Proof. intros w. reflexivity. Qed.
Lemma s_random : shifts R random8.
Proof. intros w. unfold random8. by destruct (bw_random w). Qed.
End Shifts.
#[export] Hint Resolve s_ret s_fail s_gets s_of_res s_attempt s_ignore s_if s_call s_block s_random : shifts.

(** Go through a program, by cases on what it matches. *)
Ltac shift_step :=
  match goal with
  | |- shifts _ (bind _ _) => apply s_bind; [apply _ | | intros ?]
  | |- shifts _ (match ?x with _ => _ end) => destruct x
  | |- shifts _ (let _ := _ in _) => cbv zeta
  | |- shifts _ _ => solve [eauto 3 with shifts typeclass_instances]
  end.
Ltac shift := repeat shift_step.

(** ** Staging *)

(** Only staging files of [root] change. *)
Record off_stage (root : string) (d d' : disk) : Prop := mkOffStage {
  st_backups : dk_backups d' = dk_backups d;
  st_journals : dk_journals d' = dk_journals d;
  st_files n : is_stage n = false -> dir_of root d' !! n = dir_of root d !! n;
  st_root : is_Some (dk_dirs d !! root) -> is_Some (dk_dirs d' !! root);
}.
#[export] Instance off_stage_preorder root : PreOrder (off_stage root).
Proof.
  split; [by constructor|]. intros d1 d2 d3 [B1 J1 F1 S1] [B2 J2 F2 S2]. constructor; [congruence | congruence | | auto]. intros n Hn. by rewrite F2, F1.
Qed.

Lemma dir_of_on_dir root f d : dir_of root (on_dir root f d) = f (dir_of root d).
Proof. unfold dir_of at 1, on_dir, on_dirs. simpl. by rewrite lookup_insert_eq. Qed.

Lemma on_dir_off root f d : (forall n, is_stage n = false -> f (dir_of root d) !! n = dir_of root d !! n) -> off_stage root d (on_dir root f d).
Proof.
  intros Hf. constructor; [done | done | | ].
  - intros n Hn. rewrite dir_of_on_dir. by apply Hf.
  - intros _. simpl. rewrite lookup_insert_eq. by eexists.
Qed.

Lemma insert_off root name x d : is_stage name = true -> off_stage root d (on_dir root (insert name x) d).
Proof. intros Hs. apply on_dir_off. intros n Hn. apply lookup_insert_ne. congruence. Qed.
Lemma delete_off root name d : is_stage name = true -> off_stage root d (on_dir root (delete name) d).
Proof. intros Hs. apply on_dir_off. intros n Hn. apply lookup_delete_ne. congruence. Qed.

Lemma remove_in_off root name : is_stage name = true -> shifts (off_stage root) (remove_in root name).
Proof. intros Hs. unfold remove_in. shift. apply s_atomically; [apply _|]. intros d. by apply delete_off. Qed.
Lemma remove_existing_off root name : is_stage name = true -> shifts (off_stage root) (remove_existing root name).
Proof. intros Hs. unfold remove_existing. pose proof (remove_in_off root name Hs). shift. Qed.

Lemma removeStaged_off root names : Forall (fun n => is_stage n = true) names -> shifts (off_stage root) (removeStaged root names).
Proof.
  intros Hs. unfold removeStaged. apply s_bind; [apply _ | | intros _; shift]. apply s_each; [apply _|]. intros n Hn. rewrite Forall_forall in Hs.
  apply s_ignore; [apply _|]. by apply remove_in_off, Hs.
Qed.

Lemma has_prefix_trans s a b : HasPrefix s (a ++ b) = true -> HasPrefix s a = true.
Proof. intros [t ->]%has_prefix_inv. rewrite append_assoc. apply has_prefix_app. Qed.

Lemma purgeStaging_off root suffix : shifts (off_stage root) (purgeStaging root suffix).
Proof.
  unfold purgeStaging. shift. apply s_each; [apply _|]. intros n [Hn _]%list_elem_of_filter. apply remove_existing_off. apply andb_true_iff in Hn as [Hn _].
  by eapply has_prefix_trans.
Qed.

Definition plan_stages (plan : list (FileEntry * string)) : Prop := Forall (fun p => is_stage (snd p) = true) plan.

Lemma plan_of_elem plan name p : plan_of plan name = Some p -> p ∈ plan /\ fe_RelPath (fst p) = name.
Proof.
  induction plan as [|q plan IH]; [done|]. simpl. case_bool_decide as E; [intros [= <-]; split; [by left | done]|]. intros [H ?]%IH. split; [by right | done].
Qed.

Lemma stage_entry_off root plan done t : plan_stages plan -> shifts (off_stage root) (stage_entry root plan done t).
Proof.
  intros Hp. unfold stage_entry. destruct (plan_of plan (te_Name t)) as [[e stage]|] eqn:E; [|shift]. apply plan_of_elem in E as [E _].
  unfold plan_stages in Hp. rewrite Forall_forall in Hp. apply Hp in E. simpl in E. unfold create_staged, write_staged. shift.
  - apply s_atomically; [apply _|]. intros d. by apply insert_off.
  - apply s_wrap; [apply _|]. shift; [apply s_effect; intros; by apply insert_off|]. apply s_atomically; [apply _|]. intros d. by apply insert_off.
Qed.

Lemma stage_entries_off root plan broken entries done : plan_stages plan -> shifts (off_stage root) (stage_entries root plan done broken entries).
Proof.
  intros Hp. revert done. induction entries as [|t entries IH]; intros done; simpl; shift. by apply stage_entry_off.
Qed.

Lemma stagePlan_stages m suffix : plan_stages (stagePlan m suffix).
Proof.
  unfold plan_stages, stagePlan. apply Forall_lookup. intros i p Hi. rewrite list_lookup_imap in Hi. destruct (mf_Files m !! i); [|done]. simplify_eq/=.
  apply stage_name_stage.
Qed.
Lemma plan_names plan : plan_stages plan -> Forall (fun n => is_stage n = true) (snd <$> plan).
Proof. intros H. by apply Forall_fmap. Qed.

Lemma open_backup_keeps R `{!PreOrder R} uid id : shifts R (open_backup uid id).
Proof. unfold open_backup. shift. Qed.
#[export] Hint Resolve open_backup_keeps : shifts.

Lemma stageArchive_off root m suffix : shifts (off_stage root) (stageArchive root m suffix).
Proof.
  unfold stageArchive. pose proof (stagePlan_stages m suffix) as Hp. pose proof (purgeStaging_off root suffix). pose proof (removeStaged_off root _ (plan_names _ Hp)).
  shift. apply s_attempt. by apply stage_entries_off.
Qed.

(** *** What is staged *)

(** The content the archive has for an entry, checked against size and digest. *)
Definition from_archive (a : archive) (e : FileEntry) (c : list Z) : Prop :=
  exists t, t ∈ ar_Entries a /\ te_Name t = fe_RelPath e /\ c = take (Z.to_nat (fe_Size e)) (te_Content t) /\ lenZ c = fe_Size e
    /\ EqualFold (hex_encode (Sum256 c)) (fe_SHA256 e) = true.

Definition staged_as (root : string) (a : archive) (plan : list (FileEntry * string)) (names : list string) (d : disk) : Prop :=
  forall p, p ∈ plan -> fe_RelPath (fst p) ∈ names -> exists c, from_archive a (fst p) c /\ dir_of root d !! snd p = Some (Regular c (fe_Mode (fst p))).

Definition targets (plan : list (FileEntry * string)) : list string := (fun p => fe_RelPath (fst p)) <$> plan.
(** Targets and staging names are distinct. *)
Definition plan_distinct (plan : list (FileEntry * string)) : Prop := NoDup (targets plan) /\ NoDup (snd <$> plan).

Lemma distinct_target plan p q : plan_distinct plan -> p ∈ plan -> q ∈ plan -> fe_RelPath (fst p) = fe_RelPath (fst q) -> p = q.
Proof.
  intros [Hn _] [i Hi]%list_elem_of_lookup [j Hj]%list_elem_of_lookup E. assert (i = j) as ->; [|congruence].
  eapply (NoDup_lookup _ i j (fe_RelPath (fst p)) Hn); unfold targets; rewrite list_lookup_fmap; [by rewrite Hi | by rewrite Hj, E].
Qed.
Lemma distinct_stage plan p q : plan_distinct plan -> p ∈ plan -> q ∈ plan -> snd p = snd q -> p = q.
Proof.
  intros [_ Hn] [i Hi]%list_elem_of_lookup [j Hj]%list_elem_of_lookup E. assert (i = j) as ->; [|congruence].
  eapply (NoDup_lookup _ i j (snd p) Hn); rewrite list_lookup_fmap; [by rewrite Hi | by rewrite Hj, E].
Qed.

Lemma staged_insert root a plan names p x d : plan_distinct plan -> p ∈ plan -> fe_RelPath (fst p) ∉ names -> staged_as root a plan names d ->
  staged_as root a plan names (on_dir root (insert (snd p) x) d).
Proof.
  intros Hd Hp Hn Hs q Hq Hin. destruct (Hs q Hq Hin) as (c & Hc & Hl). exists c. split; [done|]. rewrite dir_of_on_dir. rewrite lookup_insert_ne; [done|].
  intros E. apply (distinct_stage plan p q Hd Hp Hq) in E as ->. done.
Qed.

Lemma stage_entry_staged root a plan done t : plan_distinct plan -> t ∈ ar_Entries a ->
  hoare (staged_as root a plan done) (stage_entry root plan done t)
    (fun _ d => staged_as root a plan (te_Name t :: done) d /\ (te_Name t ∉ done) /\ te_Name t ∈ targets plan) (fun _ _ => True).
Proof.
  intros Hd Ht. unfold stage_entry. destruct (plan_of plan (te_Name t)) as [[e stage]|] eqn:E; [|by apply h_fail]. apply plan_of_elem in E as [Hp E]. simpl in E.
  apply h_if; intros H1; [by apply h_fail|]. rewrite !orb_false_iff in H1. destruct H1 as [_ Hnew]. bool_to_prop.
  apply h_if; intros H2; [by apply h_fail|]. assert (fe_RelPath (fst (e, stage)) ∉ done) as Hnew' by (simpl; by rewrite E).
  eapply h_bind with (Q := fun _ => staged_as root a plan done).
  { unfold create_staged. eapply h_bind; [apply h_read|]. intros b. destruct (b !! stage); [by apply h_fail|].
    apply h_atomically; try done. intros d Hs. by apply (staged_insert root a plan done (e, stage)). }
  intros []. set (c := take _ (te_Content t)).
  eapply h_bind with (Q := fun _ d => (staged_as root a plan done d /\ dir_of root d !! stage = Some (Regular c (fe_Mode e))) /\ lenZ c = fe_Size e).
  { apply h_wrap. eapply h_bind with (Q := fun _ => staged_as root a plan done).
    { apply h_effect; [|done]. intros d Hs. by apply (staged_insert root a plan done (e, stage)). }
    intros []. apply h_if; intros H3; [by apply h_fail|]. apply negb_false_iff, Z.eqb_eq in H3.
    eapply h_bind with (Q := fun _ d => (staged_as root a plan done d /\ dir_of root d !! stage = Some (Regular c (fe_Mode e))) /\ lenZ c = fe_Size e).
    { apply h_atomically; try done. intros d Hs. split; [|done]. split; [by apply (staged_insert root a plan done (e, stage))|]. by rewrite dir_of_on_dir, lookup_insert_eq. }
    intros []. h_calls. by apply h_call. }
  intros []. apply h_pure. intros H3. apply h_if; intros H4; [|by apply h_fail].
  apply h_ret. intros d [Hs Hl]. split; [|split; [done|]].
  - intros q Hq [Hin|Hin]%elem_of_cons; [|by apply Hs]. assert (q = (e, stage)) as -> by (apply (distinct_target plan); [done | done | done | by rewrite Hin; simpl; rewrite E]).
    exists c. split; [|done]. exists t. split_and!; [done | by simpl; rewrite E | done | simpl; lia | done].
  - apply list_elem_of_fmap. by exists (e, stage).
Qed.

Lemma stage_entries_staged root a plan broken entries done : plan_distinct plan -> (forall t, t ∈ entries -> t ∈ ar_Entries a) -> NoDup done -> done ⊆ targets plan ->
  hoare (staged_as root a plan done) (stage_entries root plan done broken entries) (fun _ => staged_as root a plan (targets plan)) (fun _ _ => True).
Proof.
  intros Hd. revert done. induction entries as [|t entries IH]; intros done Ha Hn Hin; simpl; h_calls.
  - apply h_if; intros _; [by apply h_fail|]. apply h_if; intros Hl; [by apply h_fail|]. bool_to_prop. eapply h_weaken; [by apply h_call with (E := fun _ _ => True) | done | | done].
    intros [] d Hs p Hp Hx. apply Hs; [done|]. assert (done ≡ₚ targets plan) as ->; [|done].
    apply submseteq_length_Permutation; [by apply NoDup_submseteq|]. unfold targets. rewrite length_fmap. unfold lenZ in Hl. lia.
  - eapply h_bind; [apply stage_entry_staged; [done | apply Ha; by left]|]. intros _ w (Hs & Hnew & Hx).
    apply (IH (te_Name t :: done)); [intros t' Ht'; apply Ha; by right | by apply NoDup_cons | | done]. intros y [->|Hy]%elem_of_cons; [done | by apply Hin].
Qed.

(** A staging that returns has put every entry beside its target. *)
Lemma stageArchive_staged root m suffix b : plan_distinct (stagePlan m suffix) ->
  hoare (fun d => dk_backups d = b) (stageArchive root m suffix)
    (fun _ d => exists s a, b !! (mf_ProjectUID m, mf_BackupID m) = Some s /\ sd_Archive s = Some a /\
       staged_as root a (stagePlan m suffix) (targets (stagePlan m suffix)) d) (fun _ _ => True).
Proof.
  intros Hd. unfold stageArchive. apply h_if; intros _; [by apply h_fail|]. cbv zeta.
  eapply h_bind with (Q := fun _ d => dk_backups d = b).
  { eapply h_weaken; [apply (h_shifts (off_stage root) (fun d => dk_backups d = b)); [apply purgeStaging_off|] | done | done | done]. intros d d' [B _ _ _] H. by rewrite B. }
  intros _. unfold open_backup. eapply h_bind with (Q := fun s _ => b !! (mf_ProjectUID m, mf_BackupID m) = Some s).
  { h_calls. eapply h_bind; [apply (h_gets _ (fun d => dk_backups d !! (mf_ProjectUID m, mf_BackupID m)))|]. intros [s|]; [|by apply h_fail].
    apply h_ret. intros d [-> H]. done. }
  intros s. h_calls. destruct (sd_Archive s) as [a|] eqn:Ea; [|by apply h_fail].
  eapply h_bind.
  { eapply h_attempt, h_weaken; [eapply (h_both (fun _ _ => True)) with (P := fun _ => b !! (mf_ProjectUID m, mf_BackupID m) = Some s); [done | done|]
      | by intros d H; exact H | intros ? d H; exact H | intros e d H; exact H].
    eapply h_weaken; [apply (stage_entries_staged root a _ (ar_Broken a) (ar_Entries a) [] Hd); [done | constructor | by intros x Hx%elem_of_nil] | | intros ? d H; exact H | intros e d H; exact H].
    intros d _ p Hp Hx. by apply elem_of_nil in Hx. }
  intros [[]|e]; cbv beta iota.
  - apply h_ret. intros d [Hs Hb]. by exists s, a.
  - eapply h_bind with (Q := fun _ _ => True); [intros w _; by destruct (removeStaged _ _ w) as [[]]|]. intros _. by apply h_fail.
Qed.

Lemma stagePlan_distinct m suffix : NoDup (fe_RelPath <$> mf_Files m) -> plan_distinct (stagePlan m suffix).
Proof.
  intros Hn. unfold plan_distinct, targets, stagePlan. rewrite !fmap_imap. split.
  - replace (imap _ (mf_Files m)) with (fe_RelPath <$> mf_Files m); [done|]. apply list_eq. intros i. rewrite list_lookup_fmap, list_lookup_imap. by destruct (mf_Files m !! i).
  - apply NoDup_alt. intros i j x Hi Hj. rewrite list_lookup_imap in Hi, Hj. destruct (mf_Files m !! i); [|done]. destruct (mf_Files m !! j); [|done].
    apply (stage_name_inj suffix). cbn in Hi, Hj. congruence.
Qed.

Lemma targets_plan m suffix : targets (stagePlan m suffix) = fe_RelPath <$> mf_Files m.
Proof. unfold targets, stagePlan. rewrite fmap_imap. apply list_eq. intros i. rewrite list_lookup_imap, list_lookup_fmap. by destruct (mf_Files m !! i). Qed.

Lemma plan_entries m suffix e st : (e, st) ∈ stagePlan m suffix -> e ∈ mf_Files m.
Proof. intros [i Hi]%list_elem_of_lookup. unfold stagePlan in Hi. rewrite list_lookup_imap in Hi. destruct (mf_Files m !! i) eqn:E; [|done]. simplify_eq/=. by eapply list_elem_of_lookup_2. Qed.

(** ** The transaction *)

(** Only the files of [root] change. *)
Record files_only (root : string) (d d' : disk) : Prop := mkFilesOnly {
  fo_backups : dk_backups d' = dk_backups d;
  fo_journals : dk_journals d' = dk_journals d;
  fo_root : is_Some (dk_dirs d !! root) -> is_Some (dk_dirs d' !! root);
}.
#[export] Instance files_only_preorder root : PreOrder (files_only root).
Proof. split; [by constructor|]. intros d1 d2 d3 [] []. constructor; [congruence | congruence | auto]. Qed.

Lemma shifts_weaken {A} (R R' : disk -> disk -> Prop) (m : bkM A) : shifts R m -> (forall d d', R d d' -> R' d d') -> shifts R' m.
Proof. intros Hm H w. apply H, Hm. Qed.
Lemma off_stage_files root d d' : off_stage root d d' -> files_only root d d'.
Proof. intros []. by constructor. Qed.
Lemma on_dir_files root f d : files_only root d (on_dir root f d).
Proof. constructor; [done | done|]. intros _. simpl. rewrite lookup_insert_eq. by eexists. Qed.

Section Transaction.
Context (root op uid : string) (before : directory).

(** Every file but the staging files is as it was. *)
Definition same (d : disk) : Prop := forall n, is_stage n = false -> dir_of root d !! n = before !! n.

(** The stored snapshot holds these sources, which are what was there. *)
Record snapshot_ok (id : string) (sources : list openedSource) (d : disk) : Prop := mkSnapshotOk {
  sn_stored : exists m, dk_backups d !! (uid, id) = Some (mkStored (Some m) (Some (mkArchive (tar_of <$> sources) false))) /\ manifest_ok uid id m = true
    /\ mf_WorkingDir m = root /\ mf_Files m = entry_of <$> sources;
  sn_before s : s ∈ sources -> before !! os_rel s = Some (Regular (os_content s) (perm (os_mode s)));
  sn_nodup : NoDup (os_rel <$> sources);
}.

Definition replaced_in (l : list journalFile) (n : string) : Prop := exists f, f ∈ l /\ jf_Status f = fileReplaced /\ jf_Target f = n.

(** A journal of this restore *)
Record good_journal (j : restoreJournal) (d : disk) : Prop := mkGoodJournal {
  gj_op : jn_OperationID j = op;
  gj_uid : jn_ProjectUID j = uid;
  gj_root : jn_WorkingDir j = root;
  gj_valid : validateJournal j = true;
  gj_phase : jn_Phase j = journalPreparing -> forall f, f ∈ jn_Files j -> jf_Status f <> fileReplaced;
  gj_snapshot : exists sources, snapshot_ok (jn_PreRestoreSnapshotID j) sources d /\
    forall f, f ∈ jn_Files j -> if jf_OriginalExisted f then jf_Target f ∈ os_rel <$> sources else before !! jf_Target f = None;
}.
(** While the journal is there, the files it does not call replaced are untouched. *)
Record pending (j : restoreJournal) (d : disk) : Prop := mkPending {
  pd_journal : good_journal j d;
  pd_root : is_Some (dk_dirs d !! root);
  pd_files n : is_stage n = false -> ~ replaced_in (jn_Files j) n -> dir_of root d !! n = before !! n;
  pd_kind f : f ∈ jn_Files j -> dir_of root d !! jf_Target f <> Some Directory;
}.
(** These files are as they were. *)
Definition fixed_at (fixed : string -> Prop) (d : disk) : Prop := forall n, is_stage n = false -> fixed n -> dir_of root d !! n = before !! n.

Lemma valid_files j f : validateJournal j = true -> f ∈ jn_Files j -> jfile_ok f = true.
Proof. unfold validateJournal. rewrite !andb_true_iff. intros [[_ Hf] _] Hin. rewrite forallb_forall in Hf. apply Hf. by apply list_elem_of_In. Qed.
Lemma valid_targets j : validateJournal j = true -> NoDup (jf_Target <$> jn_Files j).
Proof. unfold validateJournal. rewrite !andb_true_iff. intros [_ H]. by apply bool_decide_eq_true in H. Qed.
Lemma jfile_target f : jfile_ok f = true -> is_stage (jf_Target f) = false /\ is_stage (jf_StagedPath f) = true.
Proof. unfold jfile_ok. rewrite !andb_true_iff. intros [[[H _] Hs] _]. split; [by apply managed_not_stage | done]. Qed.

Lemma good_frame j d d' : dk_backups d' = dk_backups d -> good_journal j d -> good_journal j d'.
Proof.
  intros B [Ho Hu Hr Hv Hph (srcs & [(m & Hm & Hok) Hb Hn] & Hf)]. constructor; try done. exists srcs. split; [|done]. constructor; [|done|done]. exists m. by rewrite B.
Qed.
Lemma pending_off j d d' : off_stage root d d' -> pending j d -> pending j d'.
Proof.
  intros [B J F S] [Hg Hr Hf Hk]. constructor; [by eapply good_frame | by apply S | |].
  - intros n Hn Hx. rewrite F by done. by apply Hf.
  - intros f Hin. rewrite F; [by apply Hk|]. by apply jfile_target, (valid_files j); [apply Hg|].
Qed.
Lemma fixed_off fixed d d' : off_stage root d d' -> fixed_at fixed d -> fixed_at fixed d'.
Proof. intros [B J F S] H n Hn Hx. rewrite F by done. by apply H. Qed.
Lemma same_off d d' : off_stage root d d' -> same d -> same d'.
Proof. intros [B J F S] H n Hn. rewrite F by done. by apply H. Qed.

(** *** Rolling back *)

(** Rolled back but for the files [rest]: those that existed wait in their staging
    files. *)
Record rolling (fixed : string -> Prop) (j : restoreJournal) (plan : list (FileEntry * string)) (rest : list journalFile) (d : disk) : Prop := mkRolling {
  rl_journal : good_journal j d;
  rl_root : is_Some (dk_dirs d !! root);
  rl_files n : is_stage n = false -> ~ replaced_in rest n -> dir_of root d !! n = before !! n;
  rl_fixed : fixed_at fixed d;
  rl_kind f : f ∈ jn_Files j -> dir_of root d !! jf_Target f <> Some Directory;
  rl_staged f p : f ∈ rest -> jf_OriginalExisted f = true -> plan_of plan (jf_Target f) = Some p -> dir_of root d !! snd p = before !! jf_Target f;
}.

Lemma rolling_frame fixed j plan rest d d' : files_only root d d' -> (forall n, dir_of root d' !! n = dir_of root d !! n) -> rolling fixed j plan rest d -> rolling fixed j plan rest d'.
Proof. intros [B J S] F [Hg Hr Hf Hx Hk Hs]. constructor; [by eapply good_frame | auto | | intros n Hn Hfx | |]; intros; rewrite F; auto. Qed.

Lemma replaced_cons f rest n : ~ replaced_in rest n -> jf_Target f <> n -> ~ replaced_in (f :: rest) n.
Proof. intros H Hne (g & [->|Hg]%elem_of_cons & Hs & <-); [done|]. apply H. by exists g. Qed.

(** No target was a directory. *)
Lemma good_kind j d f : good_journal j d -> f ∈ jn_Files j -> before !! jf_Target f <> Some Directory.
Proof.
  intros [_ _ _ _ _ (sources & [_ Hb _] & Hf)] Hin. specialize (Hf f Hin). destruct (jf_OriginalExisted f); [|by rewrite Hf].
  apply list_elem_of_fmap in Hf as (s & -> & Hs). by rewrite (Hb s Hs).
Qed.

(** One file back in place *)
Lemma rolling_step fixed j plan f rest d x : f ∈ jn_Files j -> (forall g, g ∈ rest -> jf_Target g <> jf_Target f) ->
  rolling fixed j plan (f :: rest) d -> (forall n, is_stage n = false -> n <> jf_Target f -> x (dir_of root d) !! n = dir_of root d !! n) ->
  x (dir_of root d) !! jf_Target f = before !! jf_Target f ->
  (forall g p, g ∈ rest -> jf_OriginalExisted g = true -> plan_of plan (jf_Target g) = Some p -> x (dir_of root d) !! snd p = dir_of root d !! snd p) ->
  rolling fixed j plan rest (on_dir root x d).
Proof.
  intros Hin Hne [Hg Hr Hf Hx Hk Hs] Hsame Ht Hst. constructor.
  - by apply (good_frame j d).
  - simpl. rewrite lookup_insert_eq. by eexists.
  - intros n Hn Hrep. rewrite dir_of_on_dir. destruct (decide (n = jf_Target f)) as [->|Hnf]; [done|]. rewrite Hsame by done. apply Hf; [done|]. by apply replaced_cons.
  - intros n Hn Hfix. rewrite dir_of_on_dir. destruct (decide (n = jf_Target f)) as [->|Hnf]; [done|]. rewrite Hsame by done. by apply Hx.
  - intros g Hgin. rewrite dir_of_on_dir. destruct (decide (jf_Target g = jf_Target f)) as [->|Hnf]; [rewrite Ht; by eapply good_kind|].
    rewrite Hsame; [by apply Hk | | done]. by apply jfile_target, (valid_files j); [apply Hg|].
  - intros g p Hgin Hex Hpl. rewrite dir_of_on_dir, (Hst g p Hgin Hex Hpl). apply Hs; [by right | done | done].
Qed.

Lemma rolling_skip fixed j plan f rest d : jf_Status f <> fileReplaced -> rolling fixed j plan (f :: rest) d -> rolling fixed j plan rest d.
Proof.
  intros Hs [Hg Hr Hf Hx Hk Hst]. constructor; try done.
  - intros n Hn Hrep. apply Hf; [done|]. intros (g & [->|Hin]%elem_of_cons & Hgs & Hgt); [done|]. apply Hrep. by exists g.
  - intros g p Hin. apply Hst. by right.
Qed.

(** Described by the journal, with these files as they were. *)
Definition kept (fixed : string -> Prop) (j : restoreJournal) (d : disk) : Prop := pending j d /\ fixed_at fixed d.

(** Whatever is left to roll back, the journal still describes it. *)
Lemma rolling_kept fixed j plan rest d : rest ⊆ jn_Files j -> rolling fixed j plan rest d -> kept fixed j d.
Proof.
  intros Hsub [Hg Hr Hf Hx Hk _]. split; [|done]. constructor; [done | done | | done]. intros n Hn Hrep. apply Hf; [done|]. intros (f & Hin & ?). apply Hrep. exists f. split; [by apply Hsub | done].
Qed.

Lemma rollback_file_rolls fixed j plan f rest : plan_stages plan -> plan_distinct plan -> validateJournal j = true -> f :: rest ⊆ jn_Files j -> NoDup (jf_Target <$> f :: rest) ->
  (forall d, good_journal j d -> jf_OriginalExisted f = false -> before !! jf_Target f = None) ->
  hoare (rolling fixed j plan (f :: rest)) (rollback_file root plan f) (fun _ => rolling fixed j plan rest) (fun _ => kept fixed j).
Proof.
  intros Hp Hd Hv Hsub Hnd Hnone. apply NoDup_cons in Hnd as [Hnew _].
  assert (f ∈ jn_Files j) as Hin by (apply Hsub; by left). assert (rest ⊆ jn_Files j) as Hrest by (intros x Hx; apply Hsub; by right).
  destruct (jfile_target f (valid_files j f Hv Hin)) as [Ht _].
  assert (forall g, g ∈ rest -> jf_Target g <> jf_Target f) as Hne by (intros g Hg E; apply Hnew; rewrite <- E; apply list_elem_of_fmap; by exists g).
  assert (forall d, rolling fixed j plan (f :: rest) d -> kept fixed j d) as Hpf by (intros d; by apply rolling_kept).
  assert (forall d, rolling fixed j plan rest d -> kept fixed j d) as Hpr by (intros d; by apply rolling_kept).
  unfold plan_stages in Hp. rewrite Forall_forall in Hp.
  unfold rollback_file. apply h_if; intros Hs; [apply h_ret; intros d; apply rolling_skip; by bool_to_prop|]. clear Hs.
  eapply h_bind with (Q := fun _ => rolling fixed j plan rest); [|intros []; by apply h_call].
  destruct (jf_OriginalExisted f) eqn:Ex.
  - destruct (plan_of plan (jf_Target f)) as [[e stage]|] eqn:Epl; [|by apply h_fail].
    pose proof (plan_of_elem _ _ _ Epl) as [Hep Het]. simpl in Het. pose proof (Hp _ Hep) as Hst. simpl in Hst.
    unfold rename_in. eapply h_bind; [apply (h_gets _ (dir_of root))|]. intros b. destruct (b !! stage) as [x|] eqn:Ex'; [|apply h_fail; intros d [Hr _]; by apply Hpf].
    assert (forall d, rolling fixed j plan (f :: rest) d /\ b = dir_of root d -> rolling fixed j plan rest (on_dir root (fun d => <[jf_Target f := x]> (delete stage d)) d)) as Hstep.
    { intros d [Hr ->]. apply (rolling_step fixed j plan f rest d); [done | done | done | | |].
      - intros n Hn Hnf. rewrite lookup_insert_ne by done. apply lookup_delete_ne. congruence.
      - rewrite lookup_insert_eq, <- Ex'. apply (rl_staged fixed j plan (f :: rest) d Hr f (e, stage)); [by left | done | done].
      - intros g p Hg _ Hgp. pose proof (plan_of_elem _ _ _ Hgp) as [Hpp Hpt]. rewrite lookup_insert_ne by (intros E; pose proof (Hp _ Hpp); simpl in *; congruence).
        apply lookup_delete_ne. intros E. apply (Hne g Hg). assert ((e, stage) = p) as <- by (by apply (distinct_stage plan)). simpl in Hpt. congruence. }
    assert (forall d, rolling fixed j plan (f :: rest) d /\ b = dir_of root d -> kept fixed j d) as Herr by (intros d [Hr _]; by apply Hpf).
    destruct (b !! jf_Target f) as [[]|]; try (by apply h_fail); (apply h_atomically; [exact Hstep | done | intros d Hr; by apply Hpr, Hstep]).
  - unfold remove_existing. assert (forall d, rolling fixed j plan (f :: rest) d -> rolling fixed j plan rest (on_dir root (delete (jf_Target f)) d)) as Hstep.
    { intros d Hr. apply (rolling_step fixed j plan f rest d); [done | done | done | | |].
      - intros n Hn Hnf. by apply lookup_delete_ne.
      - rewrite lookup_delete_eq. symmetry. by apply (Hnone d (rl_journal fixed j plan _ d Hr)).
      - intros g p Hg _ Hgp. pose proof (plan_of_elem _ _ _ Hgp) as [Hpp _]. apply lookup_delete_ne. pose proof (Hp _ Hpp). simpl in *. congruence. }
    eapply h_bind; [eapply (h_attempt _ _ (fun _ => rolling fixed j plan rest) (fun e d => match e with ErrNotExist => rolling fixed j plan rest d | _ => kept fixed j d end))|].
    + unfold remove_in. eapply h_bind; [apply (h_gets _ (dir_of root))|]. intros b. destruct (b !! jf_Target f) as [x|] eqn:Ex'.
      * apply h_atomically; [intros d [Hr _]; by apply Hstep | intros d [Hr _]; by apply Hpf | intros d [Hr _]; by apply Hpr, Hstep].
      * apply h_fail. intros d [Hr ->]. eapply rolling_frame with (d := on_dir root (delete (jf_Target f)) d); [constructor; [done | done|] | | by apply Hstep].
        -- intros _. apply Hr.
        -- intros n. rewrite dir_of_on_dir. destruct (decide (n = jf_Target f)) as [->|Hn]; [by rewrite lookup_delete_eq | by rewrite lookup_delete_ne].
    + intros [[]|e]; [by apply h_ret|]. destruct e; try (by apply h_fail). by apply h_ret.
Qed.

Lemma source_unique sources s s' : NoDup (os_rel <$> sources) -> s ∈ sources -> s' ∈ sources -> os_rel s = os_rel s' -> s = s'.
Proof.
  intros Hn [i Hi]%list_elem_of_lookup [k Hk]%list_elem_of_lookup E. assert (i = k) as ->; [|congruence].
  eapply (NoDup_lookup _ i k (os_rel s) Hn); rewrite list_lookup_fmap; [by rewrite Hi | by rewrite Hk, E].
Qed.

(** What the snapshot's archive yields for a file is what was there. *)
Lemma snapshot_content sources e c : NoDup (os_rel <$> sources) -> (forall s, s ∈ sources -> before !! os_rel s = Some (Regular (os_content s) (perm (os_mode s)))) ->
  e ∈ entry_of <$> sources -> from_archive (mkArchive (tar_of <$> sources) false) e c -> before !! fe_RelPath e = Some (Regular c (fe_Mode e)).
Proof.
  intros Hn Hb (s & -> & Hs)%list_elem_of_fmap (t & (s' & -> & Hs')%list_elem_of_fmap & Hname & -> & _). simpl in Hname |- *.
  assert (s' = s) as -> by (by apply (source_unique sources)). rewrite (Hb s Hs). unfold lenZ. rewrite Nat2Z.id. by rewrite firstn_all.
Qed.

(** The manifest of this backup, as it is stored *)
Definition stored_as (id : string) (m : Manifest) (d : disk) : Prop := exists s, dk_backups d !! (uid, id) = Some s /\ sd_Manifest s = Some m /\ manifest_ok uid id m = true.

Lemma loadManifest_stored P id E : (forall e d, P d -> E e d) -> hoare P (loadManifest uid id) (fun m d => P d /\ stored_as id m d) E.
Proof.
  intros He. unfold loadManifest, open_backup. apply h_if; intros _; [apply h_fail; auto|].
  eapply h_bind with (Q := fun s d => P d /\ dk_backups d !! (uid, id) = Some s).
  { eapply h_bind; [apply h_call; auto|]. intros []. eapply h_bind; [apply (h_gets _ (fun d => dk_backups d !! (uid, id)))|]. intros [s|]; [|apply h_fail; intros d [H _]; auto].
    apply h_ret. by intros d [H E']. }
  intros s. eapply h_bind; [apply h_call; intros d [H _]; auto|]. intros []. destruct (sd_Manifest s) as [m|] eqn:Em; [|apply h_fail; intros d [H _]; auto].
  apply h_if; intros Hok; [|apply h_fail; intros d [H _]; auto]. apply h_ret. intros d [H Hs]. split; [done|]. by exists s.
Qed.

Lemma manifest_nodup id m : manifest_ok uid id m = true -> NoDup (fe_RelPath <$> mf_Files m).
Proof. unfold manifest_ok. rewrite !andb_true_iff. intros [_ H]. by apply bool_decide_eq_true in H. Qed.
Lemma manifest_ids id m : manifest_ok uid id m = true -> mf_ProjectUID m = uid /\ mf_BackupID m = id.
Proof. unfold manifest_ok. rewrite !andb_true_iff, !bool_decide_eq_true. intros H. split; apply H. Qed.

Lemma stage_rolls fixed j m suffix : hoare (fun d => kept fixed j d /\ stored_as (jn_PreRestoreSnapshotID j) m d) (stageArchive root m suffix)
  (fun _ => rolling fixed j (stagePlan m suffix) (jn_Files j)) (fun _ => kept fixed j).
Proof.
  intros w [[Hp Hfix] (s & Hs & Hm & Hok)]. pose proof (stagePlan_distinct m suffix (manifest_nodup _ m Hok)) as Hd. destruct (manifest_ids _ m Hok) as [Eu Ei].
  pose proof (stageArchive_staged root m suffix (dk_backups (bw_disk w)) Hd w eq_refl) as Hst. pose proof (stageArchive_off root m suffix w) as Hoff.
  destruct (stageArchive root m suffix w) as [[[]|e] w']; [|split; [by eapply pending_off | by eapply fixed_off]]. simpl in Hoff.
  pose proof (pending_off j _ _ Hoff Hp) as [Hg Hr Hf Hk]. destruct Hst as (s' & a & Hs' & Ha & Hstaged).
  rewrite Eu, Ei in Hs'. simplify_eq. constructor; [done | done | done | by eapply fixed_off | done|]. intros f [e st] Hin Hex Hpl. destruct (plan_of_elem _ _ _ Hpl) as [Hel Het]. simpl in Het.
  destruct (gj_snapshot j _ (pd_journal j _ Hp)) as (sources & [(m' & Hm' & Hok' & Hw & Hfiles) Hb Hn] & Hfs). rewrite Hs in Hm'. simplify_eq/=.
  destruct (Hstaged (e, st) Hel) as (c & Hc & Hl); [rewrite targets_plan; simpl; apply list_elem_of_fmap; exists e; split; [done | by eapply plan_entries]|]. simpl in Hl, Hc |- *. rewrite Hl, <- Het.
  symmetry. eapply (snapshot_content sources); [done | done | | done]. rewrite <- Hfiles. by eapply plan_entries.
Qed.

Lemma rollback_files_roll fixed j plan rest : plan_stages plan -> plan_distinct plan -> validateJournal j = true -> rest ⊆ jn_Files j -> NoDup (jf_Target <$> rest) ->
  hoare (rolling fixed j plan rest) (each (rollback_file root plan) rest) (fun _ => rolling fixed j plan []) (fun _ => kept fixed j).
Proof.
  intros Hp Hd Hv. induction rest as [|f rest IH]; intros Hsub Hnd; [by apply h_ret|]. simpl. eapply h_bind.
  - apply rollback_file_rolls; try done. intros d Hg Hex. destruct (gj_snapshot j d Hg) as (sources & _ & Hf). specialize (Hf f (Hsub f (list_elem_of_here _ _))). by rewrite Hex in Hf.
  - intros []. apply IH; [intros x Hx; apply Hsub; by right | by apply NoDup_cons in Hnd as [_ ?]].
Qed.

(** A rollback that returns has put every file back; one that fails has left the
    journal's description true; and no file that was as before is touched. *)
Lemma rollback_spec fixed j : validateJournal j = true -> jn_ProjectUID j = uid -> hoare (kept fixed j) (rollback root j) (fun _ d => kept fixed j d /\ same d) (fun _ => kept fixed j).
Proof.
  intros Hv Hu. unfold rollback. rewrite Hu. eapply h_bind; [by apply loadManifest_stored|]. intros m. apply h_if; intros _; [by apply h_fail; intros d [? _]|].
  cbv zeta. set (suffix := restoreStageSuffix _ _). apply (h_assume (manifest_ok uid (jn_PreRestoreSnapshotID j) m = true)); [by intros d [_ (s & _ & _ & ?)]|]. intros Hok.
  pose proof (stagePlan_stages m suffix) as Hs. pose proof (stagePlan_distinct m suffix (manifest_nodup _ m Hok)) as Hd.
  eapply h_bind; [apply stage_rolls|]. intros []. eapply h_bind; [eapply h_attempt; apply rollback_files_roll; try done; by apply valid_targets|].
  intros r. eapply h_bind with (Q := fun _ d => kept fixed j d /\ (is_ok r = true -> same d)).
  - eapply h_weaken; [apply (h_shifts (off_stage root) (fun d => kept fixed j d /\ (is_ok r = true -> same d))); [by apply removeStaged_off, plan_names|] | | done | by intros e d [? _]].
    + intros d d' Ho [[Hpd Hfx] Hsm]. split; [split; [by eapply pending_off | by eapply fixed_off] | intros H; by eapply same_off, Hsm].
    + intros d Hr. destruct r as [[]|e]; [|by split]. pose proof Hr as [Hg Hrt Hf _ _ _]. split; [by eapply rolling_kept; [intros x Hx%elem_of_nil|]|]. intros _ n Hn. apply Hf; [done|].
      by intros (f & ?%elem_of_nil & _).
  - intros []. eapply h_weaken; [apply (h_of_res (fun d => kept fixed j d /\ (is_ok r = true -> same d))) | done | |]; [intros [] d [[? H] ->]; auto | by intros e d [[? _] _]].
Qed.

(** *** The journal file *)

(** Only the journal of this restore changes, and only to [v]. *)
Record journal_step (v : option (option restoreJournal)) (d d' : disk) : Prop := mkJournalStep {
  js_dirs : dk_dirs d' = dk_dirs d;
  js_backups : dk_backups d' = dk_backups d;
  js_others n : HasSuffix n ".json" = true -> n <> journal_name op -> dk_journals d' !! n = dk_journals d !! n;
  js_own : dk_journals d' !! journal_name op = dk_journals d !! journal_name op \/ dk_journals d' !! journal_name op = v;
}.
#[export] Instance journal_step_preorder v : PreOrder (journal_step v).
Proof.
  split; [constructor; auto|]. intros d1 d2 d3 [D1 B1 O1 W1] [D2 B2 O2 W2]. constructor; [congruence | congruence | |].
  - intros n Hs Hn. rewrite O2, O1; done.
  - destruct W1, W2; [left; congruence | by right | right; congruence | by right].
Qed.

Lemma temp_not_json : HasSuffix (journal_temp op) ".json" = false.
Proof.
  apply not_true_iff_false. intros [t E]%has_suffix_inv. apply (f_equal bytes_of) in E. unfold journal_temp in E. rewrite !bytes_of_app in E.
  apply (f_equal (@rev Z)) in E. rewrite !rev_app_distr in E. discriminate E.
Qed.
Lemma name_json o : HasSuffix (journal_name o) ".json" = true.
Proof. apply has_suffix_app. Qed.
Lemma temp_not_name : journal_temp op <> journal_name op.
Proof. intros E. pose proof temp_not_json as H. by rewrite E, name_json in H. Qed.

Lemma temp_step v f d : (forall m n, n <> journal_temp op -> f m !! n = m !! n) -> journal_step v d (on_journals f d).
Proof.
  intros Hf. constructor; [done | done | | left].
  - intros n Hs Hn. apply Hf. intros ->. by rewrite temp_not_json in Hs.
  - apply Hf. intros E. by apply temp_not_name.
Qed.

Lemma writeJournal_steps j : jn_OperationID j = op -> shifts (journal_step (Some (Some j))) (writeJournal j).
Proof.
  intros Ho. unfold writeJournal. rewrite Ho.
  assert (forall x, shifts (journal_step (Some (Some j))) (atomically (on_journals (insert (journal_temp op) x)))) as Hins.
  { intros x. apply s_atomically; [apply _|]. intros d. apply temp_step. intros m n Hn. by apply lookup_insert_ne. }
  assert (shifts (journal_step (Some (Some j))) (atomically (on_journals (delete (journal_temp op))))) as Hdel.
  { apply s_atomically; [apply _|]. intros d. apply temp_step. intros m n Hn. by apply lookup_delete_ne. }
  assert (shifts (journal_step (Some (Some j))) (atomically (on_journals (fun m => <[journal_name op := Some j]> (delete (journal_temp op) m))))) as Hren.
  { apply s_atomically; [apply _|]. intros d. constructor; [done | done | | right; simpl; by rewrite lookup_insert_eq].
    intros n Hs Hn. simpl. rewrite lookup_insert_ne by done. apply lookup_delete_ne. intros <-. by rewrite temp_not_json in Hs. }
  shift. apply s_attempt. shift.
Qed.

Lemma writeJournal_writes j : jn_OperationID j = op -> hoare (fun _ => True) (writeJournal j) (fun _ d => dk_journals d !! journal_name op = Some (Some j)) (fun _ _ => True).
Proof.
  intros Ho. unfold writeJournal. rewrite Ho. apply h_if; intros _; [by apply h_fail|]. cbv zeta. eapply h_bind; [apply h_read|]. intros x.
  eapply h_bind with (Q := fun _ _ => True); [destruct x; [by apply h_atomically | by apply h_ret]|]. intros []. eapply h_bind; [by apply (h_atomically _ _ (fun _ _ => True))|]. intros [].
  eapply h_bind; [eapply (h_attempt _ _ (fun _ d => dk_journals d !! journal_name op = Some (Some j)) (fun _ _ => True))|].
  - eapply h_bind; [by apply (h_atomically _ _ (fun _ _ => True))|]. intros []. h_calls. apply h_atomically; try done. intros d _. simpl. by rewrite lookup_insert_eq.
  - intros [[]|e]; [by apply h_call|]. eapply h_bind; [by eapply (h_ignore _ _ (fun _ _ => True) (fun _ _ => True)), h_atomically|]. intros []. by apply h_fail.
Qed.

Lemma removeJournal_steps : shifts (journal_step None) (removeJournal op).
Proof.
  unfold removeJournal. shift. apply s_atomically; [apply _|]. intros d. constructor; [done | done | | right; simpl; by rewrite lookup_delete_eq].
  intros n Hs Hn. simpl. by apply lookup_delete_ne.
Qed.
Lemma removeJournal_removes : hoare (fun _ => True) (removeJournal op) (fun _ d => dk_journals d !! journal_name op = None) (fun _ _ => True).
Proof.
  unfold removeJournal. apply h_if; intros _; [by apply h_fail|]. eapply h_bind with (Q := fun _ d => dk_journals d !! journal_name op = None); [|intros []; by apply h_call].
  apply h_atomically; try done. intros d _. simpl. by rewrite lookup_delete_eq.
Qed.

Lemma step_dir v d d' r : journal_step v d d' -> dir_of r d' = dir_of r d.
Proof. intros [D _ _ _]. unfold dir_of. by rewrite D. Qed.
Lemma pending_step v j d d' : journal_step v d d' -> pending j d -> pending j d'.
Proof.
  intros H [Hg Hr Hf Hk]. pose proof (step_dir v d d' root H) as E. destruct H as [D B _ _]. constructor; [by eapply good_frame | by rewrite D | |]; intros; rewrite E; auto.
Qed.
Lemma same_step v d d' : journal_step v d d' -> same d -> same d'.
Proof. intros H Hs n Hn. rewrite (step_dir v d d' root H). by apply Hs. Qed.

(** *** The invariant *)

Context (mb : Manifest) (ab : archive).

(** Every file of the backup is restored, with the content the archive has for it. *)
Definition restored (d : disk) : Prop := forall n, is_stage n = false ->
  (forall e, e ∈ mf_Files mb -> fe_RelPath e = n -> exists c, from_archive ab e c /\ dir_of root d !! n = Some (Regular c (fe_Mode e))) /\
  (n ∉ fe_RelPath <$> mf_Files mb -> dir_of root d !! n = before !! n).

(** No other journal is pending. *)
Definition lone (d : disk) : Prop := forall n, HasSuffix n ".json" = true -> n <> journal_name op -> dk_journals d !! n = None.
(** Without a journal everything is as before or restored; with one, the journal
    says what may differ. *)
Definition transaction (d : disk) : Prop := lone d /\ is_Some (dk_dirs d !! root) /\
  match dk_journals d !! journal_name op with None => same d \/ restored d | Some None => False | Some (Some j) => pending j d end.
(** The journal in hand and the one on disk both describe the files. *)
Definition held (j : restoreJournal) (d : disk) : Prop := lone d /\ pending j d /\
  exists j0, dk_journals d !! journal_name op = Some (Some j0) /\ pending j0 d /\ jf_Target <$> jn_Files j0 = jf_Target <$> jn_Files j.

Lemma held_transaction j d : held j d -> transaction d.
Proof. intros (Hl & Hp & j0 & Hj & Hp0 & _). split_and!; [done | apply Hp|]. by rewrite Hj. Qed.

Lemma restored_off d d' : off_stage root d d' -> restored d -> restored d'.
Proof. intros [B J F S] H n Hn. rewrite F by done. by apply H. Qed.
Lemma restored_step v d d' : journal_step v d d' -> restored d -> restored d'.
Proof. intros H Hs n Hn. rewrite (step_dir v d d' root H). by apply Hs. Qed.
Lemma lone_off d d' : off_stage root d d' -> lone d -> lone d'.
Proof. intros [B J F S] H n. rewrite J. apply H. Qed.
Lemma lone_step v d d' : journal_step v d d' -> lone d -> lone d'.
Proof. intros [D B O W] H n Hs Hn. rewrite O by done. by apply H. Qed.

Lemma transaction_off d d' : off_stage root d d' -> transaction d -> transaction d'.
Proof.
  intros Ho (Hl & Hr & Hj). split_and!; [by eapply lone_off | by apply Ho|]. rewrite (st_journals root d d' Ho). destruct (dk_journals d !! _) as [[j|]|]; [by eapply pending_off | done|].
  destruct Hj as [Hj|Hj]; [left; by eapply same_off | right; by eapply restored_off].
Qed.
Lemma held_off j d d' : off_stage root d d' -> held j d -> held j d'.
Proof.
  intros Ho (Hl & Hp & j0 & Hj & Hp0 & Ht). split_and!; [by eapply lone_off | by eapply pending_off|]. exists j0. split_and!; [by rewrite (st_journals root d d' Ho) | by eapply pending_off | done].
Qed.

(** The journal goes when nothing is left to do. *)
Lemma transaction_drop d d' : journal_step None d d' -> same d \/ restored d -> transaction d -> transaction d'.
Proof.
  intros Hs Hx (Hl & Hr & Hj). split_and!; [by eapply lone_step | by rewrite (js_dirs _ _ _ Hs)|].
  assert (same d' \/ restored d') as Hx' by (destruct Hx; [left; by eapply same_step | right; by eapply restored_step]).
  destruct (js_own _ _ _ Hs) as [E|E]; rewrite E; [|done]. destruct (dk_journals d !! _) as [[j|]|]; [by eapply pending_step | done | done].
Qed.
Lemma transaction_write j d d' : journal_step (Some (Some j)) d d' -> pending j d -> transaction d -> transaction d'.
Proof.
  intros Hs Hp (Hl & Hr & Hj). split_and!; [by eapply lone_step | by rewrite (js_dirs _ _ _ Hs)|].
  destruct (js_own _ _ _ Hs) as [E|E]; rewrite E; [|by eapply pending_step]. destruct (dk_journals d !! _) as [[j0|]|]; [by eapply pending_step | done|].
  destruct Hj as [Hj|Hj]; [left; by eapply same_step | right; by eapply restored_step].
Qed.
Lemma held_write j d d' : journal_step (Some (Some j)) d d' -> held j d -> held j d'.
Proof.
  intros Hs (Hl & Hp & j0 & Hj & Hp0 & Ht). split_and!; [by eapply lone_step | by eapply pending_step|].
  destruct (js_own _ _ _ Hs) as [E|E]; [exists j0; split_and!; [by rewrite E | by eapply pending_step | done] | exists j; split_and!; [done | by eapply pending_step | done]].
Qed.

(** **** Discarding *)

Definition staged_paths (j : restoreJournal) : Prop := Forall (fun n => is_stage n = true) (jf_StagedPath <$> jn_Files j).
Lemma valid_staged j : validateJournal j = true -> staged_paths j.
Proof. intros Hv. apply Forall_fmap, Forall_forall. intros f Hf. by apply jfile_target, (valid_files j). Qed.

(** What a discarded transaction leaves: [X] is that everything is as before, or that
    everything is restored. *)
Lemma remove_spec (X : disk -> Prop) : (forall d, X d -> same d \/ restored d) -> (forall d d', journal_step None d d' -> X d -> X d') ->
  hoare (fun d => transaction d /\ X d) (removeJournal op) (fun _ d => transaction d /\ X d /\ dk_journals d !! journal_name op = None) (fun _ d => transaction d /\ X d).
Proof.
  intros Hx Hst w [Ht Hw]. pose proof (removeJournal_steps w) as Hs. pose proof (removeJournal_removes w I) as Hr.
  assert (transaction (bw_disk (removeJournal op w).2) /\ X (bw_disk (removeJournal op w).2)) as [H1 H2] by (split; [eapply transaction_drop; eauto | by eapply Hst]).
  by destruct (removeJournal op w) as [[[]|e] w'].
Qed.

Lemma discard_spec j : jn_OperationID j = op -> staged_paths j ->
  hoare (fun d => transaction d /\ same d) (discardJournal root j) (fun _ d => transaction d /\ same d /\ dk_journals d !! journal_name op = None) (fun _ d => transaction d /\ same d).
Proof.
  intros Ho Hs. unfold discardJournal. rewrite Ho. eapply h_bind with (Q := fun _ d => transaction d /\ same d); [|intros []; apply (remove_spec same); [auto | intros d d'; apply same_step]].
  apply (h_shifts (off_stage root)); [by apply removeStaged_off|]. intros d d' H [? ?]. split; [by eapply transaction_off | by eapply same_off].
Qed.

(** **** Rolling back *)

Lemma loadManifest_keeps R `{!PreOrder R} u id : shifts R (loadManifest u id).
Proof. unfold loadManifest. shift. Qed.
#[local] Hint Resolve loadManifest_keeps : shifts.

Lemma rollback_files j : shifts (files_only root) (rollback root j).
Proof.
  unfold rollback. shift.
  - eapply shifts_weaken; [apply stageArchive_off | apply off_stage_files].
  - apply s_attempt, s_each; [apply _|]. intros f _. unfold rollback_file, rename_in, remove_existing, remove_in. shift; try (apply s_atomically; [apply _|]; intros; apply on_dir_files).
    apply s_attempt. shift. apply s_atomically; [apply _|]; intros; apply on_dir_files.
  - eapply shifts_weaken; [apply removeStaged_off, plan_names, stagePlan_stages | apply off_stage_files].
Qed.

Lemma rollback_held fixed j : hoare (fun d => held j d /\ fixed_at fixed d) (rollback root j) (fun _ d => held j d /\ same d) (fun _ d => held j d /\ fixed_at fixed d).
Proof.
  intros w [(Hl & Hp & j0 & Hj & Hp0 & Ht) Hfx]. pose proof (rollback_files j w) as [B J R].
  set (fixed' := fun n => fixed n \/ ~ replaced_in (jn_Files j0) n).
  assert (fixed_at fixed' (bw_disk w)) as Hfx' by (intros n Hn [Hx|Hx]; [by apply Hfx | by apply Hp0]).
  assert (forall d, dk_backups d = dk_backups (bw_disk w) -> dk_journals d = dk_journals (bw_disk w) -> kept fixed' j d -> held j d /\ fixed_at fixed d) as Hkept.
  { intros d Bd Jd [Hpd Hfd]. split; [|intros n Hn Hx; apply Hfd; [done | by left]]. split; [intros n; rewrite Jd; apply Hl|]. split; [done|]. exists j0. rewrite Jd. split; [done|]. split; [|done].
    constructor; [eapply good_frame; [exact Bd | apply Hp0] | apply Hpd | intros n Hn Hx; apply Hfd; [done | by right]|].
    intros f Hf. assert (jf_Target f ∈ jf_Target <$> jn_Files j) as (g & -> & Hg)%list_elem_of_fmap by (rewrite <- Ht; apply list_elem_of_fmap; by exists f). by apply Hpd. }
  pose proof (rollback_spec fixed' j (gj_valid j _ (pd_journal j _ Hp)) (gj_uid j _ (pd_journal j _ Hp)) w (conj Hp Hfx')) as Hspec.
  destruct (rollback root j w) as [[[]|e] w']; simpl in *; [|by apply Hkept]. destruct Hspec as [Hk Hsame]. split; [by apply Hkept | done].
Qed.

Lemma restoreFailure_spec {A} j cause : hoare (held j) (restoreFailure (A := A) root j cause) (fun _ _ => False) (fun e d => transaction d /\ (e <> ErrRecoveryRequired -> same d)).
Proof.
  unfold restoreFailure. apply (h_assume (jn_OperationID j = op /\ validateJournal j = true)); [intros d (_ & [[Ho _ _ Hv _ _] _ _ _] & _); done|]. intros [Ho Hv].
  eapply h_bind with (Q := fun r d => held j d /\ (is_ok r = true -> same d)).
  { eapply h_weaken; [eapply h_attempt, (rollback_held (fun _ => False) j) | by intros d Hd; split; [|intros n _ []] | |].
    - intros [[]|e] d [Hh Hs]; [done | by split]. - intros e d H. exact H. }
  intros [[]|e].
  - eapply h_bind with (Q := fun r d => transaction d /\ same d).
    { eapply h_weaken; [eapply h_attempt, (discard_spec j Ho (valid_staged j Hv)) | | |]; [intros d [Hh Hs]; split; [by eapply held_transaction | by apply Hs] | | intros e d H; exact H].
      intros [[]|e] d H; [by destruct H as (? & ? & _) | done]. }
    intros [[]|e]; [by apply h_fail; intros d [? ?] |]. eapply h_bind with (Q := fun _ d => transaction d /\ same d); [by intros w H|]. intros []. by apply h_fail; intros d [? ?].
  - eapply h_bind with (Q := fun _ d => transaction d); [intros w [Hh _]; by eapply held_transaction|]. intros []. by apply h_fail.
Qed.

(** **** Replacing *)

Definition mark (k : nat) (f : journalFile) (j : restoreJournal) : restoreJournal := set_files (<[k := mark_replaced f]> (jn_Files j)) j.

Lemma mark_targets k f j : jn_Files j !! k = Some f -> jf_Target <$> jn_Files (mark k f j) = jf_Target <$> jn_Files j.
Proof. intros H. simpl. rewrite list_fmap_insert. apply list_insert_id. by rewrite list_lookup_fmap, H. Qed.

Lemma valid_mark k f j : validateJournal j = true -> jn_Files j !! k = Some f -> validateJournal (mark k f j) = true.
Proof.
  intros Hv Hf. pose proof (valid_files j f Hv (list_elem_of_lookup_2 _ _ _ Hf)) as Hok. pose proof (mark_targets k f j Hf) as Ht. unfold validateJournal in *. simpl in *. rewrite Ht.
  rewrite !andb_true_iff in *. destruct Hv as [[Hv Hall] Hn]. split; [split; [done|] | done]. rewrite forallb_forall in *. intros g Hg%list_elem_of_In.
  apply list_elem_of_lookup in Hg as [i Hi]. apply list_lookup_insert_Some in Hi as [(-> & <- & _)|[_ Hi]]; [|by apply Hall, list_elem_of_In, (list_elem_of_lookup_2 _ i)].
  unfold jfile_ok in *. simpl. rewrite !andb_true_iff in *. by destruct Hok as [? _].
Qed.

Lemma mark_elem k f j g : jn_Files j !! k = Some f -> g ∈ jn_Files (mark k f j) -> exists h, h ∈ jn_Files j /\ jf_Target g = jf_Target h /\ jf_StagedPath g = jf_StagedPath h /\ jf_OriginalExisted g = jf_OriginalExisted h.
Proof.
  intros Hf [i Hi]%list_elem_of_lookup. simpl in Hi. apply list_lookup_insert_Some in Hi as [(-> & <- & _)|[_ Hi]].
  - exists f. split; [by eapply list_elem_of_lookup_2 | done].
  - exists g. split; [by eapply list_elem_of_lookup_2 | done].
Qed.

Lemma mark_replaced_in k f j n : jn_Files j !! k = Some f -> ~ replaced_in (jn_Files (mark k f j)) n -> ~ replaced_in (jn_Files j) n /\ jf_Target f <> n.
Proof.
  intros Hf Hn. split.
  - intros (g & [i Hi]%list_elem_of_lookup & Hs & Ht). apply Hn. destruct (decide (i = k)) as [->|Hne].
    + exists (mark_replaced f). split; [eapply list_elem_of_lookup_2; simpl; apply list_lookup_insert_eq; by eapply lookup_lt_Some|]. simplify_eq. done.
    + exists g. split; [|done]. eapply (list_elem_of_lookup_2 _ i). simpl. by rewrite list_lookup_insert_ne.
  - intros <-. apply Hn. exists (mark_replaced f). split; [eapply list_elem_of_lookup_2; simpl; apply list_lookup_insert_eq; by eapply lookup_lt_Some | done].
Qed.

Lemma pending_mark k f j d : jn_Phase j <> journalPreparing -> jn_Files j !! k = Some f -> pending j d -> pending (mark k f j) d.
Proof.
  intros Hph Hf [[Ho Hu Hr Hv _ (sources & Hsn & Hfs)] Hrt Hfl Hk]. constructor; [constructor; try done | done | |].
  - by apply valid_mark.
  - exists sources. split; [done|]. intros g Hg. destruct (mark_elem k f j g Hf Hg) as (h & Hh & -> & _ & ->). by apply Hfs.
  - intros n Hn [Hx _]%(mark_replaced_in k f j n Hf). by apply Hfl.
  - intros g Hg. destruct (mark_elem k f j g Hf Hg) as (h & Hh & -> & _). by apply Hk.
Qed.
Lemma held_mark k f j d : jn_Phase j <> journalPreparing -> jn_Files j !! k = Some f -> held j d -> held (mark k f j) d.
Proof.
  intros Hph Hf (Hl & Hp & j0 & Hj & Hp0 & Ht). split_and!; [done | by apply pending_mark|]. exists j0. split_and!; [done | done|]. by rewrite (mark_targets k f j Hf).
Qed.

(** What the backup has for a file *)
Definition new_node (target : string) (x : node) : Prop := exists e c, e ∈ mf_Files mb /\ fe_RelPath e = target /\ from_archive ab e c /\ x = Regular c (fe_Mode e).

(** The first [k] files are in place, the others beside it. *)
Record progress (files : list journalFile) (k : nat) (d : disk) : Prop := mkProgress {
  pg_done i f : files !! i = Some f -> (i < k)%nat -> exists x, new_node (jf_Target f) x /\ dir_of root d !! jf_Target f = Some x;
  pg_rest i f : files !! i = Some f -> (k <= i)%nat -> exists x, new_node (jf_Target f) x /\ dir_of root d !! jf_StagedPath f = Some x;
}.

Lemma progress_step files k v d d' : journal_step v d d' -> progress files k d -> progress files k d'.
Proof. intros Hs [Hd Hr]. constructor; intros i f Hi Hk; rewrite (step_dir v d d' root Hs); [by apply (Hd i) | by apply (Hr i)]. Qed.

Lemma progress_mark files k f i d : files !! k = Some f -> progress files i d -> progress (<[k := mark_replaced f]> files) i d.
Proof.
  intros Hf [Hd Hr]. constructor; intros n g [(-> & <- & _)|[_ Hi]]%list_lookup_insert_Some Hk; simpl; [by apply (Hd n) | by apply (Hd n) | by apply (Hr n) | by apply (Hr n)].
Qed.

Lemma progress_next files k f d x : files !! k = Some f -> NoDup (jf_Target <$> files) -> NoDup (jf_StagedPath <$> files) ->
  Forall (fun g => is_stage (jf_Target g) = false /\ is_stage (jf_StagedPath g) = true) files -> dir_of root d !! jf_StagedPath f = Some x -> progress files k d ->
  progress files (S k) (on_dir root (fun d => <[jf_Target f := x]> (delete (jf_StagedPath f) d)) d).
Proof.
  intros Hf Hnt Hns Hst Hx [Hd Hr]. rewrite Forall_forall in Hst. destruct (Hst f (list_elem_of_lookup_2 _ _ _ Hf)) as [Ht Hs].
  constructor; intros i g Hi Hk; rewrite dir_of_on_dir; destruct (Hst g (list_elem_of_lookup_2 _ _ _ Hi)) as [Hgt Hgs].
  - destruct (decide (i = k)) as [->|Hne].
    + assert (g = f) as -> by congruence. destruct (Hr k f Hf (le_n _)) as (y & Hy & Hl). exists y. split; [done|]. rewrite lookup_insert_eq. congruence.
    + destruct (Hd i g Hi ltac:(lia)) as (y & Hy & Hl). exists y. split; [done|]. rewrite lookup_insert_ne, lookup_delete_ne; [done | congruence|].
      intros E. apply Hne. eapply (NoDup_lookup _ i k (jf_Target g) Hnt); rewrite list_lookup_fmap; [by rewrite Hi | by rewrite Hf; simpl; rewrite E].
  - destruct (Hr i g Hi ltac:(lia)) as (y & Hy & Hl). exists y. split; [done|]. rewrite lookup_insert_ne, lookup_delete_ne; [done | | congruence].
    intros E. assert (i = k); [|lia]. eapply (NoDup_lookup _ i k (jf_StagedPath g) Hns); rewrite list_lookup_fmap; [by rewrite Hi | by rewrite Hf; simpl; rewrite E].
Qed.

(** The file of a marked entry may change. *)
Lemma pending_replace j k f d x : jn_Files j !! k = Some f -> jf_Status f = fileReplaced -> x <> Directory -> pending j d ->
  pending j (on_dir root (fun d => <[jf_Target f := x]> (delete (jf_StagedPath f) d)) d).
Proof.
  intros Hf Hs Hx [Hg Hr Hfl Hk]. pose proof (gj_valid j d Hg) as Hv. pose proof (list_elem_of_lookup_2 _ _ _ Hf) as Hin. destruct (jfile_target f (valid_files j f Hv Hin)) as [Ht Hst].
  constructor; [by apply (good_frame j d) | simpl; rewrite lookup_insert_eq; by eexists | |].
  - intros n Hn Hrep. rewrite dir_of_on_dir. rewrite lookup_insert_ne, lookup_delete_ne; [by apply Hfl | congruence|]. intros E. apply Hrep. by exists f.
  - intros g Hgin. rewrite dir_of_on_dir. destruct (decide (jf_Target g = jf_Target f)) as [->|Hne]; [rewrite lookup_insert_eq; congruence|].
    destruct (jfile_target g (valid_files j g Hv Hgin)) as [Hgt _]. rewrite lookup_insert_ne, lookup_delete_ne; [by apply Hk | congruence | done].
Qed.

Lemma new_node_kind t x : new_node t x -> x <> Directory.
Proof. by intros (e & c & _ & _ & _ & ->). Qed.

(** One replacement: the journal first, then the file. *)
Lemma replace_one j k f : let j' := mark k f j in
  jn_OperationID j = op -> jn_Phase j <> journalPreparing -> jn_Files j !! k = Some f -> NoDup (jf_StagedPath <$> jn_Files j) ->
  hoare (fun d => held j d /\ progress (jn_Files j) k d) (writeJournal j' ;;; rename_in root (jf_StagedPath f) (jf_Target f) ;;; call ;;; call)
    (fun _ d => held j' d /\ progress (jn_Files j') (S k) d) (fun _ d => held j' d).
Proof.
  intros j' Ho Hph Hf Hns. set (on_disk d := held j' d /\ progress (jn_Files j') k d /\ dk_journals d !! journal_name op = Some (Some j')).
  assert (jn_Files j' !! k = Some (mark_replaced f)) as Hf' by (simpl; apply list_lookup_insert_eq; by eapply lookup_lt_Some).
  eapply h_bind with (Q := fun _ => on_disk).
  { intros w [Hh Hp]. pose proof (held_mark k f j _ Hph Hf Hh) as Hh'. pose proof (writeJournal_steps j' Ho w) as Hs. pose proof (writeJournal_writes j' Ho w I) as Hw.
    pose proof (held_write j' _ _ Hs Hh') as H1. pose proof (progress_step _ _ _ _ _ Hs (progress_mark _ k f k _ Hf Hp)) as H2. destruct (writeJournal j' w) as [[[]|e] w']; [|done]. by split_and!. }
  intros []. eapply h_bind with (Q := fun _ d => held j' d /\ progress (jn_Files j') (S k) d).
  2: { intros []. eapply h_bind; [apply h_call; by intros d [? _]|]. intros []. apply h_call. by intros d [? _]. }
  apply (h_assume (validateJournal j' = true)); [intros d ((_ & [[] _ _ _] & _) & _ & _); done|]. intros Hv.
  unfold rename_in. eapply h_bind; [apply (h_gets _ (dir_of root))|]. intros b.
  assert (forall d, on_disk d /\ b = dir_of root d -> held j' d) as Herr by (by intros d [[? _] _]).
  destruct (b !! jf_StagedPath f) as [x|] eqn:Ex; [|by apply h_fail].
  assert (forall d, on_disk d /\ b = dir_of root d -> held j' (on_dir root (fun d => <[jf_Target f := x]> (delete (jf_StagedPath f) d)) d) /\
    progress (jn_Files j') (S k) (on_dir root (fun d => <[jf_Target f := x]> (delete (jf_StagedPath f) d)) d)) as Hstep.
  { intros d [((Hl & Hp & j0 & Hj0 & Hp0 & Htg) & Hpg & Hj) ->]. destruct (pg_rest _ _ _ Hpg k _ Hf' (le_n _)) as (y & Hy & Hly). simpl in Hly, Hy. rewrite Ex in Hly. injection Hly as <-.
    pose proof (pending_replace j' k _ d x Hf' eq_refl (new_node_kind _ _ Hy) Hp) as Hp'. simpl in Hp'. split.
    - split_and!; [done | done|]. exists j'. by split_and!.
    - apply (progress_next _ _ (mark_replaced f)); try done; [by apply valid_targets | | apply Forall_forall; intros g Hg; by apply jfile_target, (valid_files j')].
      simpl. rewrite list_fmap_insert, list_insert_id; [done|]. by rewrite list_lookup_fmap, Hf. }
  destruct (b !! jf_Target f) as [[]|]; try (by apply h_fail); (apply h_atomically; [exact Hstep | done | intros d Hd; by apply Hstep]).
Qed.

Section Commit.
Hypothesis files_distinct : NoDup (fe_RelPath <$> mf_Files mb).

Lemma progress_restored j d : jf_Target <$> jn_Files j = fe_RelPath <$> mf_Files mb -> pending j d -> progress (jn_Files j) (length (jn_Files j)) d -> restored d.
Proof.
  intros Ht Hp [Hd _] n Hn. split.
  - intros e He <-. assert (fe_RelPath e ∈ jf_Target <$> jn_Files j) as (f & Ef & [i Hi]%list_elem_of_lookup)%list_elem_of_fmap by (rewrite Ht; apply list_elem_of_fmap; by exists e).
    destruct (Hd i f Hi (lookup_lt_Some _ _ _ Hi)) as (x & (e' & c & He' & Er & Hc & ->) & Hl). rewrite <- Ef in Er, Hl. assert (e' = e) as ->; [|by exists c].
    apply list_elem_of_lookup in He as [a Ha]. apply list_elem_of_lookup in He' as [b Hb]. assert (a = b) as ->; [|congruence].
    eapply (NoDup_lookup _ a b (fe_RelPath e) files_distinct); rewrite list_lookup_fmap; [by rewrite Ha | by rewrite Hb; simpl; rewrite Er].
  - intros Hnew. apply Hp; [done|]. intros (f & Hf & _ & <-). apply Hnew. rewrite <- Ht. apply list_elem_of_fmap. by exists f.
Qed.

Lemma replace_files_spec fuel k j : (k + fuel = length (jn_Files j))%nat -> jn_OperationID j = op -> jn_Phase j <> journalPreparing -> NoDup (jf_StagedPath <$> jn_Files j) ->
  jf_Target <$> jn_Files j = fe_RelPath <$> mf_Files mb ->
  hoare (fun d => held j d /\ progress (jn_Files j) k d) (replace_files root j k fuel) (fun j' d => jn_OperationID j' = op /\ transaction d /\ restored d)
    (fun e d => transaction d /\ (e <> ErrRecoveryRequired -> same d)).
Proof.
  revert k j. induction fuel as [|fuel IH]; intros k j Hk Ho Hph Hns Ht; cbn [replace_files].
  - apply h_ret. intros d [Hh Hp]. split_and!; [done | by eapply held_transaction|]. rewrite Nat.add_0_r in Hk. subst k. destruct Hh as (_ & Hp' & _). by eapply progress_restored.
  - destruct (jn_Files j !! k) as [f|] eqn:Hf; [|apply lookup_ge_None in Hf; lia]. cbv zeta. fold (mark k f j). eapply h_bind; [eapply h_attempt; by apply replace_one|].
    intros [[]|e]; [|by eapply h_weaken; [apply restoreFailure_spec | ..]]. apply IH; try done.
    + simpl. rewrite length_insert. lia.
    + simpl. rewrite list_fmap_insert, list_insert_id; [done|]. by rewrite list_lookup_fmap, Hf.
    + by rewrite mark_targets.
Qed.

(** Beside every target *)
Lemma staged_progress j suffix d : jf_Target <$> jn_Files j = fe_RelPath <$> mf_Files mb -> jf_StagedPath <$> jn_Files j = snd <$> stagePlan mb suffix ->
  staged_as root ab (stagePlan mb suffix) (targets (stagePlan mb suffix)) d -> progress (jn_Files j) 0 d.
Proof.
  intros Ht Hs Hst. constructor; [lia|]. intros i f Hi _. pose proof (f_equal (fun l => l !! i) Ht) as Ht'. pose proof (f_equal (fun l => l !! i) Hs) as Hs'.
  cbv beta in Ht', Hs'. rewrite <- (targets_plan mb suffix) in Ht'. unfold targets in Ht'. rewrite !list_lookup_fmap, Hi in Ht', Hs'. destruct (stagePlan mb suffix !! i) as [[e st]|] eqn:Ep; [|done].
  simpl in Ht', Hs'. injection Ht' as Ht'. injection Hs' as Hs'. pose proof (list_elem_of_lookup_2 _ _ _ Ep) as Hin. destruct (Hst _ Hin) as (c & Hc & Hl); [apply list_elem_of_fmap; by exists (e, st)|].
  exists (Regular c (fe_Mode e)). split; [|by rewrite Hs']. exists e, c. split_and!; [by eapply plan_entries | done | done | done].
Qed.

Lemma set_phase_valid j : validateJournal j = true -> validateJournal (set_phase journalCommitting j) = true.
Proof. unfold validateJournal. simpl. rewrite !andb_true_iff. tauto. Qed.
Lemma pending_phase j d : (forall f, f ∈ jn_Files j -> jf_Status f <> fileReplaced) -> pending j d -> pending (set_phase journalCommitting j) d.
Proof. intros Hs [[Ho Hu Hr Hv Hph Hsn] Hrt Hf Hk]. constructor; [constructor; try done; by apply set_phase_valid | done | done | done]. Qed.

(** Staging and entering the commit: an error leaves everything as before. *)
Lemma stage_and_commit_spec request j : pj_WorkingDir (rq_Project request) = root -> (forall f, f ∈ jn_Files j -> jf_Status f <> fileReplaced) ->
  jf_Target <$> jn_Files j = fe_RelPath <$> mf_Files mb -> jf_StagedPath <$> jn_Files j = snd <$> stagePlan mb (restoreStageSuffix (rq_OperationID request) "restore") ->
  hoare (fun d => held j d /\ same d /\ exists s, dk_backups d !! (mf_ProjectUID mb, mf_BackupID mb) = Some s /\ sd_Archive s = Some ab) (stage_and_commit request mb j)
    (fun j' d => held j' d /\ progress (jn_Files j') 0 d /\ j' = set_phase journalCommitting j) (fun _ d => transaction d /\ same d).
Proof.
  intros Hroot Hst Ht Hs. unfold stage_and_commit. cbv zeta. rewrite Hroot. set (suffix := restoreStageSuffix _ _) in *.
  apply (h_assume (jn_OperationID j = op /\ validateJournal j = true)); [intros d ((_ & [[Ho _ _ Hv _ _] _ _ _] & _) & _); done|]. intros [Ho Hv].
  assert (forall d, held j d /\ same d /\ progress (jn_Files j) 0 d -> transaction d /\ same d) as Hgood by (intros d (Hh & Hsm & _); split; [by eapply held_transaction | done]).
  assert (forall w, transaction (bw_disk w) /\ same (bw_disk w) -> transaction (bw_disk (ignore (discardJournal root j) w).2) /\ same (bw_disk (ignore (discardJournal root j) w).2)) as Hdisc.
  { intros w Hw. pose proof (discard_spec j Ho (valid_staged j Hv) w Hw) as H. unfold ignore, bind, attempt. destruct (discardJournal root j w) as [[[]|e] w']; simpl; [by destruct H as (? & ? & _) | done]. }
  eapply h_bind with (Q := fun _ d => held j d /\ same d /\ progress (jn_Files j) 0 d).
  { intros w (Hh & Hsm & s & Hb & Ha). pose proof (stageArchive_off root mb suffix w) as Hoff. pose proof (stageArchive_staged root mb suffix _ (stagePlan_distinct mb suffix files_distinct) w eq_refl) as Hsp.
    pose proof (held_off j _ _ Hoff Hh) as H1. pose proof (same_off _ _ Hoff Hsm) as H2. destruct (stageArchive root mb suffix w) as [[[]|e] w']; simpl in *; [|split; [by eapply held_transaction | done]].
    destruct Hsp as (s' & a' & Hb' & Ha' & Hsp). rewrite Hb in Hb'. simplify_eq. split_and!; [done | done|]. by eapply staged_progress. }
  intros []. eapply h_bind; [eapply h_attempt; apply (h_call _ (fun _ d => held j d /\ same d /\ progress (jn_Files j) 0 d)); done|]. intros [[]|e].
  - eapply h_bind with (Q := fun r d => (transaction d /\ same d) /\ (is_ok r = true -> held (set_phase journalCommitting j) d /\ progress (jn_Files j) 0 d)).
    + intros w (Hh & Hsm & Hpg). pose proof (writeJournal_steps (set_phase journalCommitting j) Ho w) as Hws. unfold attempt. destruct (writeJournal (set_phase journalCommitting j) w) as [r w']. simpl in *.
      pose proof Hh as (Hl & Hp & j0 & Hj0 & Hp0 & Htg).
      assert (held (set_phase journalCommitting j) (bw_disk w)) as Hh' by (split_and!; [done | by apply pending_phase|]; by exists j0). pose proof (held_write _ _ _ Hws Hh') as Hh2.
      split; [split; [by eapply held_transaction | by eapply same_step]|]. intros _. split; [done | by eapply progress_step].
    + intros [[]|e]; [apply h_ret; intros d [_ H]; destruct (H eq_refl); by split_and!|]. eapply h_bind with (Q := fun _ d => transaction d /\ same d); [|intros []; by apply h_fail].
      intros w [Hw _]. change (discardJournal root (set_phase journalCommitting j)) with (discardJournal root j). pose proof (Hdisc w Hw) as H.
      by destruct (ignore (discardJournal root j) w) as [[[]|e'] w'].
  - eapply h_bind with (Q := fun _ d => transaction d /\ same d); [|intros []; by apply h_fail].
    intros w Hw. pose proof (Hdisc w (Hgood _ Hw)). by destruct (ignore (discardJournal root j) w) as [[[]|e'] w'].
Qed.
End Commit.

(** *** Recovery *)

Lemma journal_files_lone d : lone d -> journal_files (dk_journals d) = match dk_journals d !! journal_name op with None => [] | Some _ => [journal_name op] end.
Proof.
  intros Hl. unfold journal_files. set (l := filter (fun n => HasSuffix n ".json" = true) (fst <$> map_to_list (dk_journals d))).
  assert (NoDup l) as Hn by apply NoDup_filter, NoDup_fst_map_to_list.
  assert (forall n, n ∈ l <-> n = journal_name op /\ is_Some (dk_journals d !! n)) as Hel.
  { intros n. unfold l. rewrite list_elem_of_filter, list_elem_of_fmap. split.
    - intros (Hs & [k v] & -> & Hkv%elem_of_map_to_list). simpl in *. split; [|by eexists]. destruct (decide (k = journal_name op)) as [|Hne]; [done|]. by rewrite (Hl k Hs Hne) in Hkv.
    - intros [-> [v Hv]]. split; [apply name_json|]. exists (journal_name op, v). split; [done | by apply elem_of_map_to_list]. }
  destruct (dk_journals d !! journal_name op) as [v|] eqn:E.
  - assert (l ≡ₚ [journal_name op]) as Hp.
    { apply NoDup_Permutation; [done | apply NoDup_singleton|]. intros n. rewrite list_elem_of_singleton, Hel. split; [by intros [-> _] | intros ->; split; [done | by rewrite E; eexists]]. }
    apply Permutation_singleton_r. by rewrite sort_by_perm.
  - assert (l = []) as ->; [|done]. apply elem_of_nil_inv. intros n [-> [x Hx]]%Hel. congruence.
Qed.

Section Recovery.
Context (resolver : string -> option Project) (fixed : string -> Prop).

Definition recovering (d : disk) : Prop := transaction d /\ fixed_at fixed d.
Lemma same_fixed d : same d -> fixed_at fixed d.
Proof. intros H n Hn _. by apply H. Qed.

Lemma required_spec P j e i r : hoare P (required j e i r) (fun _ => P) (fun _ => P).
Proof. by intros w Hw. Qed.

Lemma closed_spec j rolledBack : jn_OperationID j = op -> jn_WorkingDir j = root -> validateJournal j = true ->
  hoare (fun d => transaction d /\ same d) (closed j rolledBack) (fun _ => recovering) (fun _ => recovering).
Proof.
  intros Ho Hr Hv. unfold closed. rewrite Hr. assert (forall d, transaction d /\ same d -> recovering d) as Hx by (intros d [? ?]; split; [done | by apply same_fixed]).
  eapply h_bind with (Q := fun _ d => transaction d /\ same d).
  - eapply h_weaken; [eapply h_attempt, (discard_spec j Ho (valid_staged j Hv)) | done | | intros e d H; exact H]. intros [[]|e] d H; [by destruct H as (? & ? & _) | done].
  - intros [[]|e]; [by apply h_ret|]. eapply h_weaken; [apply (required_spec (fun d => transaction d /\ same d)) | done | intros a d H; by apply Hx | intros e' d H; by apply Hx].
Qed.

Lemma unreplaced_same j d : pending j d -> existsb (fun f => bool_decide (jf_Status f = fileReplaced)) (jn_Files j) = false \/ jn_Phase j = journalPreparing -> same d.
Proof.
  intros [[_ _ _ _ Hph _] _ Hf _] H n Hn. apply Hf; [done|]. intros (f & Hin & Hs & _). destruct H as [H|H]; [|by eapply (Hph H f Hin)].
  assert (existsb (fun f => bool_decide (jf_Status f = fileReplaced)) (jn_Files j) = true); [|congruence]. apply existsb_exists. exists f. split; [by apply list_elem_of_In | by apply bool_decide_eq_true].
Qed.

(** What [loadJournal] returns is the journal on disk. *)
Lemma recover_one_spec : hoare recovering (recover_one resolver (journal_name op)) (fun _ => recovering) (fun _ => recovering).
Proof.
  unfold recover_one. eapply h_bind with (Q := fun j d => recovering d /\ held j d).
  { unfold loadJournal. eapply h_bind; [by apply h_call|]. intros []. eapply h_bind; [apply (h_gets _ (fun d => dk_journals d !! journal_name op))|]. intros [[j|]|]; try (by apply h_fail; intros d [? _]).
    apply h_if; intros _; [|by apply h_fail; intros d [? _]]. apply h_ret. intros d [[(Hl & Hr & Hj) Hfx] E]. rewrite <- E in Hj. split; [split; [split_and!; [done | done|]; by rewrite <- E | done]|].
    split_and!; [done | done|]. by exists j. }
  intros j. apply (h_assume (jn_OperationID j = op /\ jn_WorkingDir j = root /\ validateJournal j = true)); [intros d [_ (_ & [[Ho _ Hr Hv _ _] _ _ _] & _)]; done|]. intros (Ho & Hr & Hv).
  assert (forall e i r, hoare (fun d => recovering d /\ held j d) (required j e i r) (fun _ => recovering) (fun _ => recovering)) as Hreq by (by intros e i r w [Hw _]).
  eapply h_bind with (Q := fun _ d => recovering d /\ held j d).
  { eapply (h_weaken _ _ _ (fun _ d => recovering d /\ held j d)); [apply (h_shifts (=)); [|by intros d d' ->] | done | done | by intros e d [? _]]. unfold resolve. shift. apply s_attempt. shift. }
  intros [p|e]; [|apply Hreq]. eapply h_bind with (Q := fun _ d => recovering d /\ held j d).
  { eapply (h_weaken _ _ _ (fun _ d => recovering d /\ held j d)); [apply (h_shifts (=)); [|by intros d d' ->] | done | done | by intros e d [? _]]. unfold validateProject. shift. apply s_attempt. shift. }
  intros v. apply h_if; intros Hvp; [apply Hreq|]. apply orb_false_iff in Hvp as [_ Hwd]. bool_to_prop.
  eapply h_bind with (Q := fun _ d => recovering d /\ held j d).
  { eapply (h_weaken _ _ _ (fun _ d => recovering d /\ held j d)); [apply (h_shifts (=)); [shift | by intros d d' ->] | done | done | by intros e d [? _]]. }
  intros [[]|e]; [|apply Hreq]. cbv zeta. apply h_if; intros Hrep.
  - eapply h_weaken; [by apply (closed_spec j false) | | done | done]. intros d [[Ht _] (_ & Hp & _)]. split; [done|]. apply (unreplaced_same j d Hp).
    apply orb_true_iff in Hrep as [H|H]; [right; by apply bool_decide_eq_true in H | left; by apply negb_true_iff].
  - eapply h_bind; [eapply h_attempt, h_weaken; [rewrite Hwd, Hr; apply (rollback_held fixed j) | by intros d [[_ ?] ?] | intros a d H; exact H | intros e d H; exact H]|].
    intros [[]|e].
    + eapply h_weaken; [by apply (closed_spec j true) | | done | done]. intros d [Hh Hs]. split; [by eapply held_transaction | done].
    + eapply h_weaken; [apply (required_spec recovering) | | done | done]. intros d [Hh Hf]. split; [by eapply held_transaction | done].
Qed.

Lemma Recover_spec : hoare recovering (Recover resolver) (fun _ => recovering) (fun _ => recovering).
Proof.
  unfold Recover. eapply h_bind; [by apply h_call|]. intros []. eapply h_bind; [apply (h_gets _ (fun d => journal_files (dk_journals d)))|]. intros names w [Hw E].
  pose proof Hw as [(Hl & _ & _) _]. rewrite (journal_files_lone _ Hl) in E. destruct (dk_journals (bw_disk w) !! journal_name op); subst names; cbn [recover_all]; [|done].
  revert w Hw Hl. intros w Hw _. revert w Hw. change (hoare recovering (let* r := recover_one resolver (journal_name op) in let* rs := ret [] in ret (r :: rs)) (fun _ => recovering) (fun _ => recovering)).
  eapply h_bind; [apply recover_one_spec|]. intros r. eapply h_bind; [by apply (h_ret _ [] (fun _ => recovering))|]. intros rs. by apply h_ret.
Qed.
End Recovery.
End Transaction.
