(* ===== verification/BackupRestore.v ===== *)
(** * What a restore guarantees

    The snapshot a restore takes, and the theorems: restores are all or nothing, a
    start whose calls work closes a pending one, and retention keeps the manual
    backups and the newest snapshots. *)

From Stdlib Require Import Ascii.
From S2P Require Import Prelude GoText Paths BackupText Backup BackupSpec.

(** ** The snapshot *)

(** Only backups change. *)
Record backups_only (d d' : disk) : Prop := mkBackupsOnly { bo_dirs : dk_dirs d' = dk_dirs d; bo_journals : dk_journals d' = dk_journals d }.
#[export] Instance backups_only_preorder : PreOrder backups_only.
Proof. split; [by constructor|]. intros d1 d2 d3 [] []. constructor; congruence. Qed.
(** The backup under a key stays. *)
Definition keeps_key (key : string * string) (d d' : disk) : Prop := backups_only d d' /\ forall s, dk_backups d !! key = Some s -> dk_backups d' !! key = Some s.
#[export] Instance keeps_key_preorder key : PreOrder (keeps_key key).
Proof. split; [by split|]. intros d1 d2 d3 [H1 K1] [H2 K2]. split; [by etransitivity | auto]. Qed.

(** The name of a staging directory is no backup identifier. *)
Lemma staging_invalid id id' : validBackupID id = true -> staging_of id' <> id.
Proof.
  intros Hv <-. unfold validBackupID in Hv. rewrite !andb_true_iff in Hv. destruct Hv as [[[_ Hv] _] _]. unfold valid_stamp in Hv. rewrite !andb_true_iff in Hv. cbn in Hv.
  destruct Hv as [[[[[[[[[[[_ Hd] _] _] _] _] _] _] _] _] _] _]. discriminate Hd.
Qed.

Lemma open_sources_spec root D seen paths : hoare (fun d => dir_of root d = D) (open_sources root seen paths)
  (fun l d => dir_of root d = D /\ os_rel <$> l = paths /\ NoDup paths /\ (forall p, p ∈ paths -> p ∉ seen) /\
     forall s, s ∈ l -> D !! os_rel s = Some (Regular (os_content s) (os_mode s)) /\ validManagedPath (os_rel s) = true) (fun _ _ => True).
Proof.
  revert seen. induction paths as [|rel paths IH]; intros seen; cbn [open_sources].
  - apply h_ret. intros d Hd. split_and!; [done | done | constructor | |]; by intros ? ?%elem_of_nil.
  - apply h_if; intros Hv; [by apply h_fail|]. apply orb_false_iff in Hv as [Hm Hseen]. apply negb_false_iff in Hm. bool_to_prop.
    eapply h_bind with (Q := fun n d => dir_of root d = D /\ n = D !! rel).
    { unfold lookup_node. h_calls. eapply h_weaken; [apply (h_gets (fun d => dir_of root d = D) (fun d => dir_of root d !! rel)) | done | by intros n d [<- ->] | intros e d H; exact H]. }
    intros [[c md| | |]|]; try (by apply h_fail). eapply h_bind; [by apply h_call|]. intros []. cbv beta. apply h_pure. intros Hn.
    eapply h_bind; [apply IH|]. intros l. apply h_ret. intros d (Hd & Hl & Hnd & Hsn & Hs). split_and!; [done | by rewrite <- Hl | | |].
    + apply NoDup_cons. split; [|done]. intros Hin. by destruct (Hsn rel Hin); left.
    + intros p [->|Hp]%elem_of_cons; [done|]. intros Hin. by apply (Hsn p Hp); right.
    + intros s [->|Hin]%elem_of_cons; [by split | by apply Hs].
Qed.

Lemma openSources_spec root D paths : hoare (fun d => dir_of root d = D) (openSources root paths)
  (fun l d => dir_of root d = D /\ os_rel <$> l ≡ₚ paths /\ NoDup paths /\
     forall s, s ∈ l -> D !! os_rel s = Some (Regular (os_content s) (os_mode s)) /\ validManagedPath (os_rel s) = true) (fun _ _ => True).
Proof.
  unfold openSources. h_calls. eapply h_bind; [apply open_sources_spec|]. intros l. apply h_ret. intros d (Hd & Hl & Hnd & _ & Hs). split_and!; [done | | done |].
  - by rewrite sort_by_perm, Hl.
  - intros s. rewrite sort_by_perm. apply Hs.
Qed.

Lemma open_sources_keeps R `{!PreOrder R} root seen paths : shifts R (open_sources root seen paths).
Proof. revert seen. induction paths as [|rel paths IH]; intros seen; cbn [open_sources]; unfold lookup_node; shift. Qed.
Lemma openSources_keeps R `{!PreOrder R} root paths : shifts R (openSources root paths).
Proof. unfold openSources. pose proof (open_sources_keeps R root [] paths). shift. Qed.
#[local] Hint Resolve openSources_keeps : shifts.

(** **** Writing it *)

Lemma update_keeps key key' f d : key <> key' -> keeps_key key d (update_backup key' f d).
Proof. intros Hne. split; [by constructor|]. intros s Hs. simpl. by rewrite lookup_alter_ne. Qed.
Lemma insert_keeps key key' x d : key <> key' -> keeps_key key d (on_backups (insert key' x) d).
Proof. intros Hne. split; [by constructor|]. intros s Hs. simpl. by rewrite lookup_insert_ne. Qed.
Lemma delete_keeps key key' d : key <> key' -> keeps_key key d (on_backups (delete key') d).
Proof. intros Hne. split; [by constructor|]. intros s Hs. simpl. by rewrite lookup_delete_ne. Qed.

Lemma remove_backup_keeps key key' : key <> key' -> shifts (keeps_key key) (remove_backup key').
Proof.
  intros Hne. apply s_effect; [intros d; by apply delete_keeps|]. intros [|[|[|[|n]]]] d; [reflexivity | by apply update_keeps | by apply update_keeps | by apply update_keeps | by apply delete_keeps].
Qed.

Lemma rename_backup_keeps key from to : key <> from -> shifts (keeps_key key) (rename_backup from to).
Proof.
  intros Hne w. unfold rename_backup, bind, gets. destruct (dk_backups (bw_disk w) !! from) as [s|] eqn:Ef; [|reflexivity]. destruct (dk_backups (bw_disk w) !! to) as [s'|] eqn:Et; [reflexivity|].
  unfold atomically, effect. assert (keeps_key key (bw_disk w) (on_backups (fun m => <[to := s]> (delete from m)) (bw_disk w))) as H.
  { split; [by constructor|]. intros x Hx. simpl. rewrite lookup_insert_ne, lookup_delete_ne; [done | done | congruence]. }
  destruct (bw_outcomes w) as [|[|[|n]] rest]; simpl; [exact H | exact H | reflexivity | exact H].
Qed.

Section Create.
Context (admitBackup : string -> Trigger -> Z -> bool) (now : time).

Lemma fill_keeps key uid id request createdAt sources : key <> (uid, staging_of id) -> shifts (keeps_key key) (fill uid id request createdAt sources).
Proof.
  intros Hne. unfold fill, writeArchive, writeManifest. pose proof (rename_backup_keeps key (uid, staging_of id) (uid, id) Hne). shift; try (apply s_atomically; [apply _|]; intros; by apply update_keeps).
  - apply s_each; [apply _|]. intros s _. shift.
  - apply s_effect; intros; by apply update_keeps.
Qed.

Lemma create_keeps key request allowEmpty : validBackupID (snd key) = true -> shifts (keeps_key key) (create admitBackup now request allowEmpty).
Proof.
  intros Hv. assert (forall uid id, key <> (uid, staging_of id)) as Hne by (intros uid id ->; by eapply (staging_invalid _ id Hv)).
  unfold create, validateProject. shift.
  - apply s_atomically; [apply _|]. intros d. by apply insert_keeps.
  - apply s_attempt, fill_keeps, Hne.
  - apply s_ignore; [apply _|]. by apply remove_backup_keeps.
Qed.

Lemma writeArchive_writes key sources : hoare (fun d => dk_backups d !! key = Some (mkStored None None)) (writeArchive key sources)
  (fun l d => l = entry_of <$> sources /\ dk_backups d !! key = Some (mkStored None (Some (mkArchive (tar_of <$> sources) false)))) (fun _ _ => True).
Proof.
  unfold writeArchive. eapply h_bind with (Q := fun _ d => exists a, dk_backups d !! key = Some (mkStored None a)).
  { apply h_atomically; try done. intros d Hd. simpl. rewrite lookup_alter_eq, Hd. by eexists. }
  intros []. eapply h_bind with (Q := fun _ d => exists a, dk_backups d !! key = Some (mkStored None a)).
  { eapply h_weaken; [apply (h_shifts (=) (fun d => exists a, dk_backups d !! key = Some (mkStored None a))); [apply s_each; [apply _|]; intros s _; shift | by intros d d' <-] | done | done | done]. }
  intros []. eapply h_bind with (Q := fun _ d => dk_backups d !! key = Some (mkStored None (Some (mkArchive (tar_of <$> sources) false)))).
  { apply h_effect; [|done]. intros d [a Hd]. simpl. by rewrite lookup_alter_eq, Hd. }
  intros []. h_calls. by apply h_ret.
Qed.

Lemma fill_stores uid id request createdAt sources :
  hoare (fun d => dk_backups d !! (uid, staging_of id) = Some (mkStored None None)) (fill uid id request createdAt sources)
    (fun m d => m = mkManifest id uid (pj_Name (cq_Project request)) (pj_WorkingDir (cq_Project request)) createdAt (cq_Trigger request) (cq_OperationID request) (entry_of <$> sources) /\
       dk_backups d !! (uid, id) = Some (mkStored (Some m) (Some (mkArchive (tar_of <$> sources) false)))) (fun _ _ => True).
Proof.
  unfold fill. cbv zeta. eapply h_bind; [apply writeArchive_writes|]. intros entries. h_calls. set (m := mkManifest _ _ _ _ _ _ _ _).
  eapply h_bind with (Q := fun _ d => entries = entry_of <$> sources /\ dk_backups d !! (uid, staging_of id) = Some (mkStored (Some m) (Some (mkArchive (tar_of <$> sources) false)))).
  { unfold writeManifest. h_calls. eapply h_bind with (Q := fun _ d => entries = entry_of <$> sources /\ dk_backups d !! (uid, staging_of id) = Some (mkStored (Some m) (Some (mkArchive (tar_of <$> sources) false))));
      [|intros []; h_calls; by apply h_call]. apply h_atomically; try done. intros d [-> Hd]. split; [done|]. simpl. by rewrite lookup_alter_eq, Hd. }
  intros []. h_calls. eapply h_bind with (Q := fun _ d => entries = entry_of <$> sources /\ dk_backups d !! (uid, id) = Some (mkStored (Some m) (Some (mkArchive (tar_of <$> sources) false)))).
  { unfold rename_backup. eapply h_bind; [apply (h_gets _ dk_backups)|]. intros b. destruct (b !! (uid, staging_of id)) as [s|] eqn:Eb; [|by apply h_fail]. destruct (b !! (uid, id)); [by apply h_fail|].
    apply h_atomically; try done. intros d [[-> Hd] ->]. split; [done|]. rewrite Hd in Eb. injection Eb as <-. simpl. by rewrite lookup_insert_eq. }
  intros []. apply h_ret. intros d [-> Hd]. by split.
Qed.

Definition project_ok (p : Project) : Prop := validSafeID (pj_UID p) = true /\ str_empty (pj_Name p) = false /\ is_abs (pj_WorkingDir p) = true.
Lemma validateProject_ok p P E : (forall e d, P d -> E e d) -> hoare P (validateProject p) (fun _ d => P d /\ project_ok p) E.
Proof.
  intros He. unfold validateProject. apply h_if; intros Hc; [apply h_fail; auto|]. rewrite !orb_false_iff, !negb_false_iff in Hc. destruct Hc as [[[[[[[Hu Hn] _] _] _] Hw] _] _].
  eapply h_bind; [apply h_call; auto|]. intros []. eapply h_bind; [apply h_call; auto|]. intros []. eapply h_bind; [apply h_read|]. intros [x|]; [|apply h_fail; auto]. apply h_ret. by intros d Hd.
Qed.

Lemma perm_mode mode : Z.ldiff (perm mode) 511 = 0.
Proof. unfold perm. apply Z.bits_inj'. intros i Hi. rewrite Z.ldiff_spec, Z.land_spec, Z.bits_0. by destruct (Z.testbit mode i), (Z.testbit 511 i). Qed.

Lemma entry_of_ok s : validManagedPath (os_rel s) = true -> entry_ok (entry_of s) = true.
Proof.
  intros Hm. unfold entry_ok, entry_of. simpl. rewrite Hm, perm_mode. unfold strlen. rewrite hex_encode_length, Sum256_length. simpl. unfold lenZ. by assert ((0 <=? Z.of_nat (length (os_content s))) = true) as -> by (apply Z.leb_le; lia).
Qed.

(** What a successful [create] has stored *)
Lemma create_stores D request allowEmpty : is_zero now = false -> let root := pj_WorkingDir (cq_Project request) in let uid := pj_UID (cq_Project request) in
  hoare (fun d => dir_of root d = D) (create admitBackup now request allowEmpty)
    (fun m d => exists sources, dk_backups d !! (uid, mf_BackupID m) = Some (mkStored (Some m) (Some (mkArchive (tar_of <$> sources) false))) /\ manifest_ok uid (mf_BackupID m) m = true /\
       mf_WorkingDir m = root /\ mf_Files m = entry_of <$> sources /\ os_rel <$> sources ≡ₚ cq_RelativePaths request /\ NoDup (cq_RelativePaths request) /\
       forall s, s ∈ sources -> D !! os_rel s = Some (Regular (os_content s) (os_mode s))) (fun _ _ => True).
Proof.
  intros Hnow root uid. unfold create. eapply h_bind; [by apply validateProject_ok|]. intros []. apply h_pure. intros (Hu & Hn & Hw). apply h_if; intros Hc; [by apply h_fail|].
  apply orb_false_iff in Hc as [Ht Hop]. apply negb_false_iff in Ht, Hop. apply h_if; intros _; [by apply h_fail|]. cbv zeta. fold root uid. set (createdAt := if is_zero _ then _ else _).
  assert (is_zero createdAt = false) as Hcr by (unfold createdAt; by destruct (is_zero (cq_CreatedAt request)) eqn:E).
  eapply h_bind; [apply openSources_spec|]. intros sources. apply h_if; intros _; [by apply h_fail|]. h_calls. eapply h_bind with (Q := fun _ d => dir_of root d = D /\ os_rel <$> sources ≡ₚ cq_RelativePaths request /\ NoDup (cq_RelativePaths request) /\
     forall s, s ∈ sources -> D !! os_rel s = Some (Regular (os_content s) (os_mode s)) /\ validManagedPath (os_rel s) = true).
  { intros w Hd. unfold random8. by destruct (bw_random w). }
  intros bytes. h_calls. eapply h_bind; [apply h_read|]. intros b. apply h_if; intros _; [by apply h_fail|]. set (id := newBackupID createdAt bytes). clearbody id createdAt.
  apply (h_assume (os_rel <$> sources ≡ₚ cq_RelativePaths request /\ NoDup (cq_RelativePaths request) /\
     forall s, s ∈ sources -> D !! os_rel s = Some (Regular (os_content s) (os_mode s)) /\ validManagedPath (os_rel s) = true)); [by intros d [_ ?]|]. intros (Hp & Hnd & Hs).
  eapply h_bind with (Q := fun _ d => dk_backups d !! (uid, staging_of id) = Some (mkStored None None)).
  { apply h_atomically; try done. intros d _. simpl. by rewrite lookup_insert_eq. }
  intros []. eapply h_bind; [eapply h_attempt; apply fill_stores|]. intros [m|e].
  2: { eapply h_bind with (Q := fun _ _ => True); [intros w _; by destruct (ignore _ w) as [[]]|]. intros []. by apply h_fail. }
  h_calls. apply h_ret. intros d [-> Hd]. exists sources. cbn [mf_BackupID mf_WorkingDir mf_Files]. split; [exact Hd|]. split; [|split_and!; [done | done | done | done | intros s Hin; by apply Hs]].
  unfold manifest_ok. cbn [mf_BackupID mf_ProjectUID mf_Trigger mf_OperationID mf_WorkingDir mf_ProjectName mf_CreatedAt mf_Files]. rewrite !bool_decide_eq_true_2; [|by rewrite <- list_fmap_compose; change (fe_RelPath ∘ entry_of) with os_rel; rewrite Hp | done | done].
  rewrite Ht, Hop, Hw, Hn, Hcr. cbn [negb andb]. rewrite andb_true_r. apply forallb_forall. intros e (s & -> & Hin)%list_elem_of_In%list_elem_of_fmap. by apply entry_of_ok, Hs.
Qed.
End Create.

(** ** Restore *)

Lemma existingTargets_spec root D entries : hoare (fun d => dir_of root d = D) (existingTargets root entries)
  (fun l d => forall e, e ∈ entries -> D !! fe_RelPath e = None \/ (exists c md, D !! fe_RelPath e = Some (Regular c md)) /\ fe_RelPath e ∈ l) (fun _ _ => True).
Proof.
  induction entries as [|e entries IH]; cbn [existingTargets]; [by apply h_ret; intros d _ e He%elem_of_nil|].
  eapply h_bind with (Q := fun n d => dir_of root d = D /\ n = D !! fe_RelPath e).
  { unfold lookup_node. h_calls. eapply h_weaken; [apply (h_gets (fun d => dir_of root d = D) (fun d => dir_of root d !! fe_RelPath e)) | done | by intros n d [<- ->] | intros x d H; exact H]. }
  intros [[c md| | |]|]; try (by apply h_fail).
  - apply h_pure. intros Hn. eapply h_bind; [apply IH|]. intros l. apply h_ret. intros d H x [->|Hx]%elem_of_cons.
    + right. split; [by eexists _, _ | by left].
    + destruct (H x Hx) as [?|[? ?]]; [by left | right]. split; [done | by right].
  - apply h_pure. intros Hn. eapply h_weaken; [apply IH | done | | done]. intros l d H x [->|Hx]%elem_of_cons; [by left | by apply H].
Qed.
Lemma existingTargets_keeps R `{!PreOrder R} root entries : shifts R (existingTargets root entries).
Proof. induction entries as [|e entries IH]; cbn [existingTargets]; unfold lookup_node; shift. Qed.

Section Restore.
Context (admitBackup : string -> Trigger -> Z -> bool) (admitRestore : string -> string -> Z -> Z -> Z -> bool) (space : string -> Z * Z) (now : time).
Context (request : RestoreRequest) (d0 : disk) (mb : Manifest) (ab : archive).
Let root : string := pj_WorkingDir (rq_Project request).
Let uid : string := pj_UID (rq_Project request).
Let op : string := rq_OperationID request.
Let before : directory := dir_of root d0.

(** A restore may start: the project's directory is there, no journal is pending,
    the files have nothing but permission bits, the backup is stored. *)
Record ready : Prop := mkReady {
  rd_now : is_zero now = false;
  rd_root : is_Some (dk_dirs d0 !! root);
  rd_journals n : HasSuffix n ".json" = true -> dk_journals d0 !! n = None;
  rd_modes n c mode : before !! n = Some (Regular c mode) -> perm mode = mode;
  rd_stored : dk_backups d0 !! (uid, rq_BackupID request) = Some (mkStored (Some mb) (Some ab));
}.
Hypothesis Hready : ready.

Abbreviation transaction := (transaction root op uid before mb ab).
Abbreviation restored := (restored root before mb ab).
Abbreviation same := (same root before).
Abbreviation held := (held root op uid before).
Abbreviation pending := (pending root op uid before).

(** Nothing but the backups of others has changed. *)
Record idle (d : disk) : Prop := mkIdle {
  il_dirs : dk_dirs d = dk_dirs d0;
  il_journals : dk_journals d = dk_journals d0;
  il_stored : dk_backups d !! (uid, rq_BackupID request) = Some (mkStored (Some mb) (Some ab));
}.
Lemma idle_same d : idle d -> same d.
Proof. intros [D _ _] n _. unfold before, dir_of. by rewrite D. Qed.
Lemma idle_transaction d : idle d -> transaction d.
Proof.
  intros H. pose proof (idle_same d H) as Hs. destruct H as [D J _]. split_and!.
  - intros n Hn _. rewrite J. by apply Hready.
  - rewrite D. apply Hready.
  - rewrite J, (rd_journals Hready) by apply name_json. by left.
Qed.
Lemma idle_keeps d d' : keeps_key (uid, rq_BackupID request) d d' -> idle d -> idle d'.
Proof. intros [[D J] K] [D0 J0 S0]. constructor; [congruence | congruence | by apply K]. Qed.
Lemma idle_dir d : idle d -> dir_of root d = before.
Proof. intros [D _ _]. unfold before, dir_of. by rewrite D. Qed.

Definition failed (e : bkErr) (d : disk) : Prop := transaction d /\ (e <> ErrRecoveryRequired -> same d).
Lemma idle_failed e d : idle d -> failed e d.
Proof. intros H. split; [by apply idle_transaction | intros _; by apply idle_same]. Qed.

(** A step before the journal: what it returns, and that nothing has happened. *)
Lemma h_idle {A} (m : bkM A) Q : validBackupID (rq_BackupID request) = true -> shifts (keeps_key (uid, rq_BackupID request)) m -> hoare (fun d => dir_of root d = before) m Q (fun _ _ => True) ->
  hoare idle m (fun a d => Q a d /\ idle d) failed.
Proof.
  intros Hv Hs H w Hw. pose proof (idle_keeps _ _ (Hs w) Hw) as Hi. specialize (H w (idle_dir _ Hw)). destruct (m w) as [[a|e] w']; simpl in *; [by split | by apply idle_failed].
Qed.

(** The journal a restore starts with *)
Record fresh_journal (j : restoreJournal) (snapshot : Manifest) : Prop := mkFresh {
  fj_op : jn_OperationID j = op;
  fj_uid : jn_ProjectUID j = uid;
  fj_root : jn_WorkingDir j = root;
  fj_snapshot : jn_PreRestoreSnapshotID j = mf_BackupID snapshot;
  fj_pending f : f ∈ jn_Files j -> jf_Status f = filePending;
  fj_targets : jf_Target <$> jn_Files j = fe_RelPath <$> mf_Files mb;
  fj_staged : jf_StagedPath <$> jn_Files j = snd <$> stagePlan mb (restoreStageSuffix op "restore");
  fj_existed f : f ∈ jn_Files j -> jf_OriginalExisted f = bool_decide (jf_Target f ∈ fe_RelPath <$> mf_Files snapshot);
}.
Lemma journal_of_fresh snapshot : fresh_journal (journal_of request mb snapshot) snapshot.
Proof.
  unfold journal_of. constructor; try done; cbn [jn_Files].
  - by intros f (p & -> & _)%list_elem_of_fmap.
  - rewrite <- list_fmap_compose, <- (targets_plan mb (restoreStageSuffix op "restore")). done.
  - by rewrite <- list_fmap_compose.
  - by intros f (p & -> & _)%list_elem_of_fmap.
Qed.

(** The snapshot makes the journal a good one. *)
Lemma fresh_pending j snapshot sources existing d : fresh_journal j snapshot -> validateJournal j = true -> idle d ->
  dk_backups d !! (uid, mf_BackupID snapshot) = Some (mkStored (Some snapshot) (Some (mkArchive (tar_of <$> sources) false))) -> manifest_ok uid (mf_BackupID snapshot) snapshot = true ->
  mf_WorkingDir snapshot = root -> mf_Files snapshot = entry_of <$> sources -> os_rel <$> sources ≡ₚ existing -> NoDup existing ->
  (forall s, s ∈ sources -> before !! os_rel s = Some (Regular (os_content s) (os_mode s))) ->
  (forall e, e ∈ mf_Files mb -> before !! fe_RelPath e = None \/ (exists c md, before !! fe_RelPath e = Some (Regular c md)) /\ fe_RelPath e ∈ existing) -> pending j d.
Proof.
  intros [Ho Hu Hr Hsn Hpe Ht Hst Hex] Hv Hi Hb Hok Hw Hfiles Hperm Hnd Hs Htg.
  assert (fe_RelPath <$> mf_Files snapshot = os_rel <$> sources) as Hrel by (rewrite Hfiles; by rewrite <- list_fmap_compose).
  assert (forall f, f ∈ jn_Files j -> exists e, e ∈ mf_Files mb /\ fe_RelPath e = jf_Target f) as Hin.
  { intros f Hf. assert (jf_Target f ∈ fe_RelPath <$> mf_Files mb) as (e & -> & He)%list_elem_of_fmap by (rewrite <- Ht; apply list_elem_of_fmap; by exists f). by exists e. }
  constructor; [constructor; try done | rewrite (il_dirs d Hi); apply Hready | |].
  - intros _ f Hf. by rewrite (Hpe f Hf).
  - exists sources. rewrite Hsn. split; [constructor|].
    + by exists snapshot.
    + intros s Hin'. rewrite (Hs s Hin'). by rewrite (rd_modes Hready _ _ _ (Hs s Hin')).
    + by rewrite Hperm.
    + intros f Hf. rewrite (Hex f Hf), Hrel. case_bool_decide as E; [done|]. destruct (Hin f Hf) as (e & He & Ee). rewrite <- Ee in E |- *. destruct (Htg e He) as [?|[_ Hx]]; [done|].
      exfalso. apply E. by rewrite Hperm.
  - intros n Hn _. by apply idle_same.
  - intros f Hf. rewrite (idle_dir d Hi). destruct (Hin f Hf) as (e & He & <-). destruct (Htg e He) as [->|[(c & md & ->) _]]; done.
Qed.

(** After the journal is written *)
Lemma journal_written j snapshot existing : fresh_journal j snapshot ->
  (forall e, e ∈ mf_Files mb -> before !! fe_RelPath e = None \/ (exists c md, before !! fe_RelPath e = Some (Regular c md)) /\ fe_RelPath e ∈ existing) ->
  hoare (fun d => (exists sources, dk_backups d !! (uid, mf_BackupID snapshot) = Some (mkStored (Some snapshot) (Some (mkArchive (tar_of <$> sources) false))) /\
      manifest_ok uid (mf_BackupID snapshot) snapshot = true /\ mf_WorkingDir snapshot = root /\ mf_Files snapshot = entry_of <$> sources /\ os_rel <$> sources ≡ₚ existing /\ NoDup existing /\
      forall s, s ∈ sources -> before !! os_rel s = Some (Regular (os_content s) (os_mode s))) /\ idle d) (writeJournal j)
    (fun _ d => validateJournal j = true /\ held j d /\ same d /\ exists s, dk_backups d !! (uid, rq_BackupID request) = Some s /\ sd_Archive s = Some ab) failed.
Proof.
  intros Hf Htg w [(sources & Hb & Hok & Hw & Hfiles & Hperm & Hnd & Hs) Hi]. destruct (validateJournal j) eqn:Hv.
  - pose proof (fresh_pending j snapshot sources existing _ Hf Hv Hi Hb Hok Hw Hfiles Hperm Hnd Hs Htg) as Hp.
    pose proof (writeJournal_steps op j (fj_op j snapshot Hf) w) as Hst. pose proof (writeJournal_writes op j (fj_op j snapshot Hf) w I) as Hwr.
    pose proof (transaction_write root op uid before mb ab j _ _ Hst Hp (idle_transaction _ Hi)) as Ht. pose proof (same_step root op before _ _ _ Hst (idle_same _ Hi)) as Hsm.
    pose proof (pending_step root op uid before _ j _ _ Hst Hp) as Hp'. destruct (writeJournal j w) as [[[]|e] w']; simpl in *; [|by split].
    split_and!; [done | | done | exists (mkStored (Some mb) (Some ab)); split; [|done]; rewrite (js_backups _ _ _ _ Hst); apply Hi]. destruct Ht as (Hl & _ & _). split_and!; [done | done|]. by exists j.
  - unfold writeJournal. rewrite Hv. by apply idle_failed.
Qed.

Lemma restore_transaction :
  hoare idle (Restore admitBackup admitRestore space now request) (fun _ d => transaction d /\ restored d /\ dk_journals d !! journal_name op = None) failed.
Proof.
  unfold Restore. cbv zeta. fold root uid op. eapply h_bind; [apply validateProject_ok; intros e d Hd; by apply idle_failed|]. intros []. apply h_pure. intros _.
  apply h_if; intros Hc; [apply h_fail; intros d Hd; by apply idle_failed|]. rewrite !orb_false_iff, !negb_false_iff in Hc. destruct Hc as [[Hv Hop] _].
  eapply h_bind with (Q := fun _ => idle).
  { unfold CheckChangeAllowed. apply h_if; intros _; [apply h_fail; intros d Hd; by apply idle_failed|]. eapply h_bind; [apply h_read|]. intros [x|]; [apply h_fail; intros d Hd; by apply idle_failed | by apply h_ret]. }
  intros []. eapply h_bind; [apply (loadManifest_stored uid idle (rq_BackupID request)); intros e d Hd; by apply idle_failed|]. intros m.
  apply (h_assume (m = mb /\ manifest_ok uid (rq_BackupID request) m = true)); [intros d [[_ _ S] (s & Hs & Hm & ?)]; rewrite S in Hs; injection Hs as <-; split; [by injection Hm | done]|].
  intros [-> Hok]. pose proof (manifest_nodup _ _ _ Hok) as Hnd. destruct (manifest_ids _ _ _ Hok) as [Eu Ei].
  eapply h_weaken with (P := idle); [|by intros d [? _] | intros a d H; exact H | intros e d H; exact H]. apply h_if; intros _; [apply h_fail; intros d Hd; by apply idle_failed|].
  eapply h_bind; [apply h_call; intros d Hd; by apply idle_failed|]. intros []. eapply h_bind; [apply h_call; intros d Hd; by apply idle_failed|]. intros [].
  apply h_if; intros _; [apply h_fail; intros d Hd; by apply idle_failed|].
  eapply h_bind; [apply (h_idle _ _ Hv (existingTargets_keeps _ root (mf_Files mb)) (existingTargets_spec root before (mf_Files mb)))|]. intros existing.
  eapply h_weaken with (P := fun d => idle d /\ (forall e, e ∈ mf_Files mb -> before !! fe_RelPath e = None \/ (exists c md, before !! fe_RelPath e = Some (Regular c md)) /\ fe_RelPath e ∈ existing));
    [|by intros d [? ?] | intros a d H; exact H | intros e d H; exact H]. apply h_pure. intros Htg.
  eapply h_bind; [apply (h_idle _ _ Hv (create_keeps admitBackup now (uid, rq_BackupID request) _ true Hv) (create_stores admitBackup now before (mkCreate (rq_Project request) existing TriggerPreRestore op (rq_Now request)) true (rd_now Hready)))|].
  intros snapshot. cbn [cq_Project cq_RelativePaths]. fold root uid. set (j := journal_of request mb snapshot). pose proof (journal_of_fresh snapshot : fresh_journal j snapshot) as Hf. clearbody j.
  pose proof Hf as [Ho Hu Hr Hsn Hpe Ht Hst Hex].
  eapply h_bind; [apply (journal_written j snapshot existing Hf Htg)|]. intros []. apply (h_assume (validateJournal j = true)); [by intros d [? _]|]. intros Hvj.
  eapply h_bind.
  { eapply h_attempt, h_weaken; [apply (stage_and_commit_spec root op uid before mb ab Hnd request j eq_refl); [intros f Hin; by rewrite (Hpe f Hin) | done | done]
      | intros d (_ & ? & ? & H); rewrite Eu, Ei; by split_and! | intros x d H; exact H | intros e d H; exact H]. }
  intros [j'|e].
  - apply (h_assume (j' = set_phase journalCommitting j)); [by intros d (_ & _ & ?)|]. intros ->.
    eapply h_bind.
    { eapply h_weaken; [apply (replace_files_spec root op uid before mb ab Hnd (length (jn_Files j)) 0 (set_phase journalCommitting j)); try done
        | by intros d (? & ? & _) | intros x d H; exact H | by intros e d H].
      simpl. rewrite Hst. apply stagePlan_distinct, Hnd. }
    intros j''. apply (h_assume (jn_OperationID j'' = op)); [by intros d (? & _)|]. intros ->.
    eapply h_bind with (Q := fun r d => transaction d /\ restored d /\ (is_ok r = true -> dk_journals d !! journal_name op = None)).
    { eapply h_weaken; [eapply h_attempt, (remove_spec root op uid before mb ab restored); [auto | intros d d'; apply restored_step] | by intros d (_ & ? & ?) | | by intros e d H; exact H].
      intros [[]|e] d H; [by destruct H as (? & ? & ?) | destruct H as [? ?]; by split_and!]. }
    intros [[]|e]; [apply h_ret; intros d (? & ? & H); split_and!; auto|]. eapply h_bind with (Q := fun _ d => transaction d); [by intros w (? & _)|]. intros []. by apply h_fail.
  - eapply h_bind with (Q := fun _ d => transaction d /\ same d); [|intros []; apply h_fail; by intros d [? ?]]. intros w Hw.
    pose proof (discard_spec root op uid before mb ab j Ho (valid_staged j Hvj) w Hw) as H. unfold ignore, bind, attempt.
    destruct (discardJournal root j w) as [[[]|e'] w']; simpl; [by destruct H as (? & ? & _) | done].
Qed.
End Restore.

(** ** Restarts *)

(** The Agent starts again: it has forgotten what was in memory, and recovers. *)
Definition boot (resolver : string -> option Project) (w : bworld) (outcomes : list outcome) : bworld :=
  (Recover resolver (mkBworld (bw_disk w) ∅ outcomes (bw_random w))).2.
Definition boots (resolver : string -> option Project) (w : bworld) (runs : list (list outcome)) : bworld := foldl (boot resolver) w runs.

Lemma hoare_keeps {A} P (m : bkM A) w : hoare P m (fun _ => P) (fun _ => P) -> P (bw_disk w) -> P (bw_disk (m w).2).
Proof. intros H Hw. specialize (H w Hw). by destruct (m w) as [[a|e] w']. Qed.

Lemma boots_recovering root op uid before mb ab resolver fixed runs w :
  recovering root op uid before mb ab fixed (bw_disk w) -> recovering root op uid before mb ab fixed (bw_disk (boots resolver w runs)).
Proof.
  revert w. induction runs as [|os runs IH]; intros w Hw; [done|]. apply IH. unfold boot. apply hoare_keeps; [apply Recover_spec | done].
Qed.

(** With no journal there is nothing to recover. *)
Lemma Recover_nothing resolver w : journal_files (dk_journals (bw_disk w)) = [] -> bw_disk (Recover resolver w).2 = bw_disk w.
Proof.
  intros H. unfold Recover, call, atomically, effect, gets, bind. destruct (bw_outcomes w) as [|[|[|n]] rest]; simpl; rewrite ?H; done.
Qed.
Lemma boots_nothing resolver runs w : journal_files (dk_journals (bw_disk w)) = [] -> bw_disk (boots resolver w runs) = bw_disk w.
Proof.
  revert w. induction runs as [|os runs IH]; intros w H; [done|]. simpl. rewrite IH; unfold boot; by rewrite Recover_nothing.
Qed.

