(* ===== verification/BackupClose.v ===== *)
(** * Recovery comes to an end

    When the calls work, a rollback puts every file back and the journal goes: a
    pending restore is closed by the first start that is not disturbed. *)

From Stdlib Require Import Ascii.
From S2P Require Import Prelude GoText Paths BackupText Backup BackupSpec BackupRestore.

(** ** Calls that work *)

(** From a disk in [P] a run none of whose calls fails returns. *)
Definition succeeds {A} (P : disk -> Prop) (m : bkM A) : Prop :=
  forall w, bw_outcomes w = [] -> P (bw_disk w) -> is_ok (m w).1 = true /\ bw_outcomes (m w).2 = [].

Create HintDb succeeds.

Lemma ok_ret {A} P (a : A) : succeeds P (ret a).
Proof. by intros w Ho Hw. Qed.
Lemma ok_gets {A} P (f : bworld -> A) : succeeds P (gets f).
Proof. by intros w Ho Hw. Qed.
Lemma ok_effect P part whole : succeeds P (effect part whole).
Proof. intros w Ho Hw. unfold effect. by rewrite Ho. Qed.
Lemma ok_atomically P f : succeeds P (atomically f).
Proof. apply ok_effect. Qed.
Lemma ok_call P : succeeds P call.
Proof. apply ok_effect. Qed.
Lemma ok_block P uid e : succeeds P (block uid e).
Proof. by intros w Ho Hw. Qed.
Lemma ok_weaken {A} (P P' : disk -> Prop) (m : bkM A) : succeeds P m -> (forall d, P' d -> P d) -> succeeds P' m.
Proof. intros H Hp w Ho Hw. by apply H, Hp. Qed.
Lemma ok_bind {A B} P (m : bkM A) (f : A -> bkM B) Q : succeeds P m -> hoare P m Q (fun _ _ => True) -> (forall a, succeeds (Q a) (f a)) -> succeeds P (bind m f).
Proof.
  intros Hm Hq Hf w Ho Hw. unfold bind. specialize (Hm w Ho Hw). specialize (Hq w Hw). destruct (m w) as [[a|e] w']; [|by destruct Hm]. by apply Hf; [apply Hm|].
Qed.
(** The same, when what comes next needs nothing. *)
Lemma ok_seq {A B} P (m : bkM A) (f : A -> bkM B) : succeeds P m -> (forall a, succeeds (fun _ => True) (f a)) -> succeeds P (bind m f).
Proof. intros Hm Hf. apply (ok_bind P m f (fun _ _ => True)); [done | | done]. intros w _. by destruct (m w) as [[a|e] w']. Qed.
(** An error that is looked at does not stop the run. *)
Lemma ok_attempt {A B} P (m : bkM A) (f : res bkErr A -> bkM B) Q : succeeds P m -> hoare P m Q (fun _ _ => True) -> (forall a, succeeds (Q a) (f (Ok a))) -> succeeds P (bind (attempt m) f).
Proof.
  intros Hm Hq Hf w Ho Hw. unfold bind, attempt. specialize (Hm w Ho Hw). specialize (Hq w Hw). destruct (m w) as [[a|e] w']; [|by destruct Hm]. by apply Hf; [apply Hm|].
Qed.
Lemma ok_wrap P e m : succeeds P m -> succeeds P (wrap e m).
Proof. intros Hm. unfold wrap. eapply ok_attempt with (Q := fun _ _ => True); [done | intros w _; by destruct (m w) as [[]] | intros a; apply ok_ret]. Qed.
Lemma ok_assume {A} (F : Prop) P (m : bkM A) : (forall d, P d -> F) -> (F -> succeeds P m) -> succeeds P m.
Proof. intros Hp H w Ho Hw. exact (H (Hp _ Hw) w Ho Hw). Qed.

(** A run that succeeds ends where the rules say. *)
Lemma ok_post {A} P (m : bkM A) Q E w : succeeds P m -> hoare P m Q E -> bw_outcomes w = [] -> P (bw_disk w) -> exists a, (m w).1 = Ok a /\ Q a (bw_disk (m w).2).
Proof. intros Hm Hq Ho Hw. specialize (Hm w Ho Hw). specialize (Hq w Hw). destruct (m w) as [[a|e] w']; [by exists a | by destruct Hm]. Qed.

Definition total {A} (m : bkM A) : Prop := forall w, bw_outcomes w = [] -> is_ok (m w).1 = true /\ bw_outcomes (m w).2 = [].
Lemma total_ok {A} (m : bkM A) P : total m -> succeeds P m.
Proof. intros H w Ho _. by apply H. Qed.
Lemma ignore_total (m : bkM unit) : (forall w, bw_outcomes w = [] -> bw_outcomes (m w).2 = []) -> total (ignore m).
Proof. intros H w Ho. unfold ignore, bind, attempt. specialize (H w Ho). by destruct (m w) as [[a|e] w']. Qed.
Lemma each_total {A} (f : A -> bkM unit) l : (forall x, x ∈ l -> total (f x)) -> total (each f l).
Proof.
  induction l as [|x l IH]; intros H w Ho; [done|]. simpl. unfold bind. destruct (H x (list_elem_of_here _ _) w Ho) as [H1 H2]. destruct (f x w) as [[a|e] w']; [|done].
  apply IH; [|done]. intros y Hy. apply H. by right.
Qed.
Lemma remove_in_outcomes root name w : bw_outcomes w = [] -> bw_outcomes (remove_in root name w).2 = [].
Proof. intros Ho. unfold remove_in, bind, gets. destruct (dir_of root (bw_disk w) !! name); [|done]. unfold atomically, effect. by rewrite Ho. Qed.
Lemma remove_existing_total root name : total (remove_existing root name).
Proof.
  intros w Ho. unfold remove_existing, attempt, bind, remove_in, gets, bind. destruct (dir_of root (bw_disk w) !! name); [|done]. unfold atomically, effect. by rewrite Ho.
Qed.
Lemma removeStaged_total root names : total (removeStaged root names).
Proof.
  intros w Ho. assert (total (each (fun path => ignore (remove_in root path)) names)) as He by (apply each_total; intros n _; apply ignore_total; intros; by apply remove_in_outcomes).
  unfold removeStaged, bind. destruct (He w Ho) as [H1 H2]. destruct (each _ names w) as [[a|e] w']; [|done]. apply ignore_total; [|done]. intros w2 Ho2. unfold call, atomically, effect. by rewrite Ho2.
Qed.
Lemma each_ok {A} (I : list A -> disk -> Prop) (f : A -> bkM unit) l :
  (forall x rest, succeeds (I (x :: rest)) (f x)) -> (forall x rest, hoare (I (x :: rest)) (f x) (fun _ => I rest) (fun _ _ => True)) -> succeeds (I l) (each f l).
Proof. intros Hs Hh. induction l as [|x l IH]; [apply ok_ret|]. simpl. eapply ok_bind; [apply Hs | apply Hh|]. by intros []. Qed.

(** ** Staging works *)

Lemma remove_existing_removes root name (P : disk -> Prop) : (forall d, P d -> P (on_dir root (delete name) d)) ->
  hoare P (remove_existing root name) (fun _ d => P d /\ dir_of root d !! name = None) (fun _ _ => True).
Proof.
  intros HP. unfold remove_existing. eapply h_bind with (Q := fun r d => match r with Ok _ | Err ErrNotExist => P d /\ dir_of root d !! name = None | _ => True end).
  - eapply h_weaken; [eapply (h_attempt _ _ (fun _ d => P d /\ dir_of root d !! name = None) (fun e d => e = ErrNotExist -> P d /\ dir_of root d !! name = None) (fun _ _ => True)) | done | | done].
    + unfold remove_in. eapply h_bind; [apply (h_gets _ (dir_of root))|]. intros b. destruct (b !! name) as [x|] eqn:E.
      * apply h_atomically; try done. intros d [Hd ->]. split; [by apply HP|]. by rewrite dir_of_on_dir, lookup_delete_eq.
      * apply h_fail. by intros d [Hd ->] _.
    + intros [[]|e] d H; [done|]. destruct e; auto.
  - intros [[]|e]; [by apply h_ret|]. destruct e; try (by apply h_fail). by apply h_ret.
Qed.

Definition stale (suffix n : string) : Prop := HasPrefix n (stagePrefix suffix) && HasSuffix n ".tmp" = true.

Lemma purge_frees root suffix : hoare (fun _ => True) (purgeStaging root suffix) (fun _ d => forall n, stale suffix n -> dir_of root d !! n = None) (fun _ _ => True).
Proof.
  unfold purgeStaging. h_calls. eapply h_bind; [apply (h_gets _ (dir_of root))|]. intros D. cbv zeta.
  set (l := filter _ (fst <$> map_to_list D)). eapply h_bind with (Q := fun _ d => forall n, stale suffix n -> dir_of root d !! n = None).
  - eapply h_weaken with (P := fun d => forall n, stale suffix n -> n ∉ l -> dir_of root d !! n = None); [| | intros a d H; exact H | intros e d H; exact H].
    + clearbody l. induction l as [|x l IH]; [apply h_ret; intros d H n Hn; apply H; [done|]; by intros ?%elem_of_nil|]. simpl.
      eapply h_bind; [apply (remove_existing_removes root x (fun d => forall n, stale suffix n -> n ∉ x :: l -> dir_of root d !! n = None))|].
      * intros d H n Hn Hx. rewrite dir_of_on_dir. rewrite lookup_delete_ne; [by apply H|]. intros ->. apply Hx. by left.
      * intros []. eapply h_weaken; [apply IH | | done | done]. intros d [H Hx] n Hn Hl. destruct (decide (n = x)) as [->|Hne]; [done|]. apply H; [done|]. by intros [?|?]%elem_of_cons.
    + intros d [_ ->] n Hn Hl. destruct (dir_of root d !! n) as [v|] eqn:E; [|done]. exfalso. apply Hl, list_elem_of_filter. split; [done|]. apply list_elem_of_fmap. exists (n, v).
      split; [done | by apply elem_of_map_to_list].
  - intros []. apply h_if; intros _; [by apply h_ret | by apply h_call].
Qed.
Lemma purge_ok root suffix P : succeeds P (purgeStaging root suffix).
Proof.
  unfold purgeStaging. repeat (apply ok_seq; [apply ok_call|]; intros []). apply ok_seq; [apply ok_gets|]. intros D. cbv zeta.
  apply ok_seq; [apply total_ok, each_total; intros; apply remove_existing_total|]. intros []. case_bool_decide; [apply ok_ret | apply ok_call].
Qed.

Lemma stage_name_stale suffix i : stale suffix (stage_name suffix i).
Proof.
  unfold stale, stage_name, stagePrefix. apply andb_true_iff. split.
  - rewrite <- !append_assoc. rewrite (append_assoc _ (padded _ _)). apply has_prefix_app.
  - rewrite <- !append_assoc. apply has_suffix_app.
Qed.

Lemma EqualFold_refl s : EqualFold s s = true.
Proof. by apply bool_decide_eq_true. Qed.
Lemma perm_u32 mode : perm (u32 (perm mode)) = perm mode.
Proof.
  unfold u32. rewrite Z.mod_small; [unfold perm; rewrite <- Z.land_assoc; done|]. unfold perm. change 511 with (Z.ones 9). rewrite Z.land_ones by lia.
  pose proof (Z.mod_pos_bound mode (2 ^ 9) ltac:(lia)). lia.
Qed.

Section Stage.
Context (root suffix : string) (m : Manifest) (sources : list openedSource).
Hypothesis Hfiles : mf_Files m = entry_of <$> sources.
Hypothesis Hnodup : NoDup (os_rel <$> sources).
Hypothesis Hmanaged : forall s, s ∈ sources -> validManagedPath (os_rel s) = true.
Abbreviation plan := (stagePlan m suffix).

Lemma source_paths : fe_RelPath <$> mf_Files m = os_rel <$> sources.
Proof. rewrite Hfiles. by rewrite <- list_fmap_compose. Qed.
Lemma plan_sources : plan_distinct plan.
Proof. apply stagePlan_distinct. by rewrite source_paths. Qed.

Lemma plan_of_source s : s ∈ sources -> exists stage, plan_of plan (os_rel s) = Some (entry_of s, stage) /\ (entry_of s, stage) ∈ plan.
Proof.
  intros Hs. assert (exists stage, (entry_of s, stage) ∈ plan) as [stage Hin].
  { apply list_elem_of_lookup in Hs as [i Hi]. exists (stage_name suffix i). apply (list_elem_of_lookup_2 _ i). unfold stagePlan. by rewrite list_lookup_imap, Hfiles, list_lookup_fmap, Hi. }
  exists stage. split; [|done]. destruct (plan_of plan (os_rel s)) as [q|] eqn:E.
  - destruct (plan_of_elem _ _ _ E) as [Hq Hr]. f_equal. by apply (distinct_target plan); [apply plan_sources | | |].
  - exfalso. revert Hin E. generalize plan. intros l Hin. induction l as [|p l IH]; [by apply elem_of_nil in Hin|]. simpl. case_bool_decide as Ep; [done|].
    apply elem_of_cons in Hin as [<-|Hin]; [done | by apply IH].
Qed.

(** The staging names of the entries to come are free. *)
Definition free (done : list string) (d : disk) : Prop := forall p, p ∈ plan -> fe_RelPath (fst p) ∉ done -> dir_of root d !! snd p = None.

Lemma free_insert done p x d : p ∈ plan -> free done d -> free (fe_RelPath (fst p) :: done) (on_dir root (insert (snd p) x) d).
Proof.
  intros Hp Hf q Hq Hn. rewrite dir_of_on_dir, lookup_insert_ne; [apply Hf; [done|]; intros ?; apply Hn; by right|]. intros E.
  assert (p = q) as -> by (apply (distinct_stage plan); [apply plan_sources | done | done | done]). apply Hn. by left.
Qed.

Lemma stage_entry_works done s : s ∈ sources -> os_rel s ∉ done ->
  succeeds (free done) (stage_entry root plan done (tar_of s)) /\ hoare (free done) (stage_entry root plan done (tar_of s)) (fun _ => free (os_rel s :: done)) (fun _ _ => True).
Proof.
  intros Hs Hd. destruct (plan_of_source s Hs) as (stage & Hp & Hin). unfold stage_entry. cbn [te_Name te_Regular te_Size te_Mode te_Content tar_of]. rewrite Hp, (Hmanaged s Hs).
  rewrite (bool_decide_eq_false_2 _ Hd). cbn [negb orb entry_of fe_Size fe_Mode fe_SHA256]. rewrite Z.eqb_refl, perm_u32, Z.eqb_refl. cbn [negb orb].
  assert (take (Z.to_nat (lenZ (os_content s))) (os_content s) = os_content s) as -> by (unfold lenZ; by rewrite Nat2Z.id, firstn_all). rewrite Z.eqb_refl. cbn [negb]. rewrite EqualFold_refl.
  pose (p := (entry_of s, stage)). assert (forall x d, free done d -> free (os_rel s :: done) (on_dir root (insert stage x) d)) as Hins by (intros x d; by apply (free_insert done p)).
  assert (forall x d, free (os_rel s :: done) d -> free (os_rel s :: done) (on_dir root (insert stage x) d)) as Hins'.
  { intros x d H q Hq Hn. apply (free_insert (os_rel s :: done) p x d Hin H q Hq). intros [E|?]%elem_of_cons; [apply Hn; rewrite E; by left | done]. }
  assert (hoare (free done) (create_staged root stage) (fun _ => free (os_rel s :: done)) (fun _ _ => True)) as Hc.
  { unfold create_staged. eapply h_bind; [apply h_read|]. intros b. destruct (b !! stage); [by apply h_fail|]. apply h_atomically; try done. intros d. apply Hins. }
  assert (hoare (free (os_rel s :: done)) (write_staged root stage (os_content s)) (fun _ => free (os_rel s :: done)) (fun _ _ => True)) as Hw by (apply h_effect; [intros d; apply Hins' | done]).
  split.
  - eapply ok_bind; [|exact Hc|].
    + intros w Ho Hf. unfold create_staged, bind, gets. pose proof (Hf p Hin Hd) as Hn. simpl in Hn. rewrite Hn. unfold atomically, effect. by rewrite Ho.
    + intros []. apply ok_seq; [|intros []; apply ok_ret]. apply ok_wrap. apply ok_seq; [apply ok_effect|]. intros []. apply ok_seq; [apply ok_atomically|]. intros []. apply ok_seq; [apply ok_call|]. intros []. apply ok_call.
  - eapply h_bind; [exact Hc|]. intros []. eapply h_bind with (Q := fun _ => free (os_rel s :: done)); [|intros []; by apply h_ret]. apply h_wrap. eapply h_bind; [exact Hw|]. intros [].
    eapply h_bind with (Q := fun _ => free (os_rel s :: done)); [apply h_atomically; try done; intros d; apply Hins'|]. intros []. h_calls. by apply h_call.
Qed.

Lemma stage_entries_work done rest : sources ≡ₚ done ++ rest -> succeeds (free (os_rel <$> done)) (stage_entries root plan (os_rel <$> done) false (tar_of <$> rest)).
Proof.
  revert done. induction rest as [|s rest IH]; intros done Hp; cbn [fmap list_fmap stage_entries].
  - apply ok_seq; [apply ok_call|]. intros []. rewrite app_nil_r in Hp. replace (lenZ (os_rel <$> done) =? lenZ plan) with true; [apply ok_call|].
    symmetry. apply Z.eqb_eq. unfold lenZ, stagePlan. rewrite length_imap, Hfiles, !length_fmap. by rewrite Hp.
  - eapply ok_bind; [apply ok_call | by apply h_call|]. intros []. cbv beta.
    assert (s ∈ sources) as Hs by (rewrite Hp; apply elem_of_app; right; by left).
    assert (os_rel s ∉ os_rel <$> done) as Hd.
    { pose proof Hnodup as Hn. rewrite Hp, fmap_app in Hn. apply NoDup_app in Hn as (_ & Hn & _). intros Hin. apply (Hn _ Hin). by left. }
    destruct (stage_entry_works (os_rel <$> done) s Hs Hd) as [H1 H2]. eapply ok_bind; [exact H1 | exact H2|]. intros []. change (os_rel s :: (os_rel <$> done)) with (os_rel <$> s :: done).
    cbn [te_Name tar_of]. change (os_rel s :: (os_rel <$> done)) with (os_rel <$> s :: done). apply IH. rewrite Hp. symmetry. apply Permutation_middle.
Qed.
End Stage.

(** ** Rolling back works *)

Lemma hex_safe bytes : Forall (fun b => 0 <= b < 256) bytes -> forallb safe_byte (bytes_of (hex_encode bytes)) = true.
Proof.
  intros Hb. pose proof (hex_encode_lower bytes Hb) as H. rewrite forallb_forall in *. intros x Hx. specialize (H x Hx). unfold is_lower_hex, between in H. unfold safe_byte, between. cbn [existsb]. lia.
Qed.

Lemma suffix_valid o : validSafeID (restoreStageSuffix o "rollback") = true.
Proof.
  unfold restoreStageSuffix. set (h := take 8 _). assert (Forall (fun b => 0 <= b < 256) h) as Hh by apply Forall_take, Sum256_range.
  assert (length h = 8%nat) as Hl by (unfold h; rewrite length_take, Sum256_length; done). clearbody h. pose proof (hex_safe h Hh) as Hs. pose proof (hex_encode_length h) as Hx. rewrite Hl in Hx.
  set (t := hex_encode h) in *. clearbody t. assert (String.length ("rollback" ++ "-" ++ t) = 25%nat) as Hlen by (change (9 + String.length t = 25)%nat; lia).
  unfold validSafeID, strlen. rewrite Hlen, !bytes_of_app, !forallb_app, Hs. cbn [andb]. rewrite !bool_decide_eq_false_2 by (by destruct t). reflexivity.
Qed.

Lemma loadManifest_ok uid id : validSafeID uid = true -> validBackupID id = true ->
  succeeds (fun d => exists m a, dk_backups d !! (uid, id) = Some (mkStored (Some m) a) /\ manifest_ok uid id m = true) (loadManifest uid id).
Proof.
  intros Hu Hi w Ho (m & a & Hm & Hok). unfold loadManifest. rewrite Hu, Hi. unfold open_backup, call, atomically, effect, gets, bind. cbn [negb orb]. rewrite Ho. cbn. rewrite Hm. cbn. rewrite Hok. done.
Qed.

Section Close.
Context (root op uid : string) (before : directory) (mb : Manifest) (ab : archive).
Abbreviation pending := (pending root op uid before).
Abbreviation rolling := (rolling root op uid before).
Abbreviation kept := (kept root op uid before).
Abbreviation held := (held root op uid before).
Abbreviation transaction := (transaction root op uid before mb ab).

Definition nothing_fixed (n : string) : Prop := False.

(** The snapshot, as a rollback finds it *)
Record snapshot_found (j : restoreJournal) (m : Manifest) (sources : list openedSource) : Prop := mkFound {
  sf_ids : mf_ProjectUID m = uid /\ mf_BackupID m = jn_PreRestoreSnapshotID j;
  sf_root : mf_WorkingDir m = root;
  sf_files : mf_Files m = entry_of <$> sources;
  sf_nodup : NoDup (os_rel <$> sources);
  sf_managed s : s ∈ sources -> validManagedPath (os_rel s) = true;
  sf_existed f : f ∈ jn_Files j -> jf_OriginalExisted f = true -> jf_Target f ∈ os_rel <$> sources;
}.
Lemma find_snapshot j d : pending j d -> exists m sources, snapshot_found j m sources /\
  dk_backups d !! (uid, jn_PreRestoreSnapshotID j) = Some (mkStored (Some m) (Some (mkArchive (tar_of <$> sources) false))) /\ manifest_ok uid (jn_PreRestoreSnapshotID j) m = true.
Proof.
  intros [[_ _ _ _ _ (sources & [(m & Hm & Hok & Hw & Hf) Hb Hn] & Hfs)] _ _ _]. exists m, sources. split; [|done]. constructor; [by apply manifest_ids | done | done | done | |].
  - intros s Hs. unfold manifest_ok in Hok. rewrite !andb_true_iff in Hok. destruct Hok as [[_ Hall] _]. rewrite forallb_forall in Hall.
    assert (entry_of s ∈ mf_Files m) as Hin by (rewrite Hf; apply list_elem_of_fmap; by exists s). specialize (Hall _ (proj1 (list_elem_of_In _ _) Hin)). unfold entry_ok in Hall. rewrite !andb_true_iff in Hall. apply Hall.
  - intros f Hin Hex. specialize (Hfs f Hin). by rewrite Hex in Hfs.
Qed.

Lemma stageArchive_ok suffix m sources id : validSafeID suffix = true -> mf_ProjectUID m = uid -> mf_BackupID m = id -> mf_Files m = entry_of <$> sources -> NoDup (os_rel <$> sources) ->
  (forall s, s ∈ sources -> validManagedPath (os_rel s) = true) ->
  succeeds (fun d => dk_backups d !! (uid, id) = Some (mkStored (Some m) (Some (mkArchive (tar_of <$> sources) false)))) (stageArchive root m suffix).
Proof.
  intros Hv Hu Hi Hf Hn Hm. unfold stageArchive. rewrite Hv, Hu, Hi. cbn [negb]. cbv zeta. set (S := mkStored _ _).
  eapply ok_bind with (Q := fun _ d => dk_backups d !! (uid, id) = Some S /\ free root suffix m [] d); [apply purge_ok | |].
  { intros w Hw. pose proof (purgeStaging_off root suffix w) as Ho. pose proof (purge_frees root suffix w I) as Hp. destruct (purgeStaging root suffix w) as [[[]|e] w']; [|done]. simpl in Ho.
    split; [by rewrite (st_backups _ _ _ Ho)|]. intros p Hp' _. apply Hp. apply list_elem_of_lookup in Hp' as [i Hi']. unfold stagePlan in Hi'. rewrite list_lookup_imap in Hi'.
    destruct (mf_Files m !! i); [|done]. injection Hi' as <-. apply stage_name_stale. }
  intros []. eapply ok_bind with (Q := fun s d => s = S /\ free root suffix m [] d).
  { intros w Ho [Hw _]. unfold open_backup, call, atomically, effect, gets, bind. rewrite Ho. cbn. by rewrite Hw. }
  { unfold open_backup. h_calls. eapply h_bind; [apply (h_gets _ (fun d => dk_backups d !! (uid, id)))|]. intros [s|]; [|by apply h_fail]. apply h_ret. intros d [[Hd Hfr] E]. rewrite Hd in E. by injection E as ->. }
  intros s. apply (ok_assume (s = S)); [by intros d [? _]|]. intros ->. eapply ok_bind; [apply ok_call | by apply h_call|]. intros []. cbn [S sd_Archive]. cbv beta.
  eapply ok_attempt with (Q := fun _ _ => True); [|intros w _; by destruct (stage_entries _ _ _ _ _ w) as [[]]|].
  - eapply ok_weaken; [apply (stage_entries_work root suffix m sources Hf Hn Hm [] sources); done | by intros d [_ ?]].
  - intros []. apply ok_ret.
Qed.

Lemma rollback_file_ok fixed j m sources suffix f rest : snapshot_found j m sources -> f ∈ jn_Files j -> succeeds (rolling fixed j (stagePlan m suffix) (f :: rest)) (rollback_file root (stagePlan m suffix) f).
Proof.
  intros [_ _ Hf Hn _ Hex] Hin. unfold rollback_file. case_bool_decide as Hs; cbn [negb]; [|apply ok_ret]. apply ok_seq; [|intros []; apply ok_call]. destruct (jf_OriginalExisted f) eqn:He; [|apply total_ok, remove_existing_total].
  pose proof (Hex f Hin He) as (s & Es & Hsrc)%list_elem_of_fmap. destruct (plan_of_source suffix m sources Hf Hn s Hsrc) as (stage & Hp & _). rewrite <- Es in Hp. rewrite Hp.
  intros w Ho Hr. pose proof (rl_staged root op uid before _ _ _ _ _ Hr f _ (list_elem_of_here _ _) He Hp) as Hst. pose proof (rl_kind root op uid before _ _ _ _ _ Hr f Hin) as Hk. simpl in Hst.
  destruct (gj_snapshot root op uid before j _ (rl_journal root op uid before _ _ _ _ _ Hr)) as (src' & [_ Hb _] & Hfs). specialize (Hfs f Hin). rewrite He in Hfs. apply list_elem_of_fmap in Hfs as (s' & Es' & Hs').
  rewrite Es', (Hb s' Hs') in Hst. unfold rename_in, bind, gets. rewrite Hst. destruct (dir_of root (bw_disk w) !! jf_Target f) as [[]|]; try done; unfold atomically, effect; by rewrite Ho.
Qed.

Lemma rollback_files_ok fixed j m sources suffix rest : snapshot_found j m sources -> validateJournal j = true -> rest ⊆ jn_Files j -> NoDup (jf_Target <$> rest) ->
  succeeds (rolling fixed j (stagePlan m suffix) rest) (each (rollback_file root (stagePlan m suffix)) rest).
Proof.
  intros Hs Hv. induction rest as [|f rest IH]; intros Hsub Hnd; [apply ok_ret|]. simpl. assert (f ∈ jn_Files j) as Hin by (apply Hsub; by left).
  eapply ok_bind; [by eapply rollback_file_ok | |].
  - eapply h_weaken; [apply (rollback_file_rolls root op uid before fixed j (stagePlan m suffix) f rest); try done | done | intros a d H; exact H | done].
    + apply stagePlan_stages.
    + apply stagePlan_distinct. rewrite (sf_files j m sources Hs), <- list_fmap_compose. apply Hs.
    + intros d Hg Hex. destruct (gj_snapshot _ _ _ _ j d Hg) as (src & _ & Hf). specialize (Hf f Hin). by rewrite Hex in Hf.
  - intros []. apply IH; [intros x Hx; apply Hsub; by right | by apply NoDup_cons in Hnd as [_ ?]].
Qed.

Lemma rollback_ok j : validateJournal j = true -> jn_ProjectUID j = uid -> jn_WorkingDir j = root -> succeeds (pending j) (rollback root j).
Proof.
  intros Hv Hu Hr. unfold rollback. rewrite Hu. assert (validSafeID uid = true /\ validBackupID (jn_PreRestoreSnapshotID j) = true) as [Hsu Hsb].
  { unfold validateJournal in Hv. rewrite !andb_true_iff in Hv. rewrite <- Hu. tauto. }
  eapply ok_bind.
  { eapply ok_weaken; [by apply loadManifest_ok|]. intros d Hp. destruct (find_snapshot j d Hp) as (m & sources & _ & Hm & Hok). by eexists m, _. }
  { by apply (loadManifest_stored uid (pending j) (jn_PreRestoreSnapshotID j)). }
  intros m w Ho [Hp (s & Hs' & Hm' & Hok)]. destruct (find_snapshot j _ Hp) as (m' & sources & Hs & Hm & _). rewrite Hm in Hs'. injection Hs' as <-. injection Hm' as ->.
  set (S := mkStored _ _) in Hm. revert w Ho Hp Hm.
  assert (forall (A : Type) (c : bkM A), succeeds (fun d => pending j d /\ dk_backups d !! (uid, jn_PreRestoreSnapshotID j) = Some S) c ->
    forall w, bw_outcomes w = [] -> pending j (bw_disk w) -> dk_backups (bw_disk w) !! (uid, jn_PreRestoreSnapshotID j) = Some S -> is_ok (c w).1 = true /\ bw_outcomes (c w).2 = []) as Hred by auto.
  apply Hred. clear Hred. rewrite (sf_root j m sources Hs), Hr. rewrite bool_decide_eq_true_2 by done. cbn [negb]. cbv zeta. set (suffix := restoreStageSuffix _ _).
  destruct (sf_ids j m sources Hs) as [Eu Ei].
  eapply ok_bind with (Q := fun _ => rolling nothing_fixed j (stagePlan m suffix) (jn_Files j)).
  - eapply ok_weaken; [apply (stageArchive_ok suffix m sources (jn_PreRestoreSnapshotID j)); try done; [apply suffix_valid | apply Hs | apply Hs | apply Hs] | by intros d [_ ?]].
  - eapply h_weaken; [apply (stage_rolls root op uid before nothing_fixed j m suffix) | | done | done]. intros d [Hp Hd]. split; [split; [done | by intros n _ ?] | by exists S].
  - intros []. eapply ok_attempt with (Q := fun _ _ => True); [apply (rollback_files_ok nothing_fixed j m sources); try done; by apply valid_targets | intros w _; by destruct (each _ _ w) as [[]]|].
    intros []. apply ok_seq; [apply total_ok, removeStaged_total|]. intros []. by intros w Ho _.
Qed.

(** ** Recovery closes the transaction *)

(** What [validateProject] asks of the text of a project *)
Definition project_wf (p : Project) : bool :=
  negb (negb (validSafeID (pj_UID p)) || str_empty (pj_Name p) || (255 <? strlen (pj_Name p)) || contains_byte [0] (pj_Name p) || str_empty (pj_WorkingDir p)
     || negb (is_abs (pj_WorkingDir p)) || negb (bool_decide (Clean (pj_WorkingDir p) = pj_WorkingDir p)) || contains_byte [0] (pj_WorkingDir p)).

Lemma discard_ok j P : validSafeID (jn_OperationID j) = true -> succeeds P (discardJournal root j).
Proof.
  intros Hv. unfold discardJournal, removeJournal. rewrite Hv. cbn [negb]. apply ok_seq; [apply total_ok, removeStaged_total|]. intros []. apply ok_seq; [apply ok_atomically|]. intros []. apply ok_call.
Qed.

Section Resolved.
Context (resolver : string -> option Project) (p : Project).
Hypothesis Hresolve : resolver uid = Some p.
Hypothesis Hwf : project_wf p = true.
Hypothesis Hroot : pj_WorkingDir p = root.

(** What a run without failing calls returns, and where it ends *)
Definition gone (d : disk) : Prop := dk_journals d !! journal_name op = None.

Lemma closed_gone j rolledBack w : jn_OperationID j = op -> jn_WorkingDir j = root -> validateJournal j = true -> bw_outcomes w = [] -> transaction (bw_disk w) -> same root before (bw_disk w) ->
  is_ok (closed j rolledBack w).1 = true /\ gone (bw_disk (closed j rolledBack w).2).
Proof.
  intros Ho Hr Hv Hout Ht Hs. unfold closed, bind, attempt. rewrite Hr. assert (validSafeID (jn_OperationID j) = true) as Hvo by (unfold validateJournal in Hv; rewrite !andb_true_iff in Hv; tauto).
  destruct (discard_ok j (fun _ => True) Hvo w Hout I) as [H1 _]. pose proof (discard_spec root op uid before mb ab j Ho (valid_staged j Hv) w (conj Ht Hs)) as H2.
  destruct (discardJournal root j w) as [[[]|e] w']; [|done]. by destruct H2 as (_ & _ & ?).
Qed.

Lemma recover_one_gone w j : bw_outcomes w = [] -> transaction (bw_disk w) -> dk_journals (bw_disk w) !! journal_name op = Some (Some j) ->
  is_ok (recover_one resolver (journal_name op) w).1 = true /\ gone (bw_disk (recover_one resolver (journal_name op) w).2).
Proof.
  intros Ho Ht Hj. pose proof Ht as (Hl & [dr Hdr] & Hp). rewrite Hj in Hp. pose proof Hp as [[Hop Hu Hr Hv Hph _] _ _ _].
  assert (validateProject p w = (Ok tt, w)) as Hval.
  { unfold validateProject. unfold project_wf in Hwf. apply negb_true_iff in Hwf. rewrite Hwf. unfold call, atomically, effect, gets, bind, id. rewrite Ho. cbn. rewrite Hroot, Hdr.
    destruct w as [dk bl os rn]. cbn in *. by subst. }
  assert (call w = (Ok tt, w)) as Hcall by (unfold call, atomically, effect, id; rewrite Ho; destruct w; simpl in *; by subst).
  assert (recover_one resolver (journal_name op) w = (if bool_decide (jn_Phase j = journalPreparing) || negb (existsb (fun f => bool_decide (jf_Status f = fileReplaced)) (jn_Files j)) then closed j false
    else let* r := attempt (rollback (pj_WorkingDir p) j) in match r with Err e => required j e true false | Ok _ => closed j true end) w) as ->.
  { unfold recover_one, loadJournal, resolve. unfold bind at 1 2. rewrite Hcall. unfold bind at 1, gets. rewrite Hj, Hv. cbn [ret]. unfold bind at 1, attempt at 1. unfold bind at 1. rewrite Hcall, Hu, Hresolve.
    cbn [ret]. unfold bind at 1, attempt at 1. rewrite Hval. cbn [is_ok negb orb]. rewrite Hroot, Hr, bool_decide_eq_true_2 by done. cbn [negb]. unfold bind at 1, attempt at 1. rewrite Hcall. reflexivity. }
  destruct (bool_decide (jn_Phase j = journalPreparing) || negb _) eqn:Hrep.
  - apply closed_gone; try done. apply (unreplaced_same root op uid before j _ Hp). apply orb_true_iff in Hrep as [H|H]; [right; by apply bool_decide_eq_true in H | left; by apply negb_true_iff].
  - rewrite Hroot. unfold bind, attempt. destruct (rollback_ok j Hv Hu Hr w Ho Hp) as [Hok Hout].
    assert (held j (bw_disk w)) as Hh by (split_and!; [done | done|]; by exists j). assert (fixed_at root before nothing_fixed (bw_disk w)) as Hf by (by intros n _ ?).
    pose proof (rollback_held root op uid before nothing_fixed j w (conj Hh Hf)) as Hspec. destruct (rollback root j w) as [[[]|e] w']; [|done]. destruct Hspec as [Hh' Hs].
    apply closed_gone; try done. by eapply held_transaction.
Qed.

Lemma Recover_gone w : bw_outcomes w = [] -> transaction (bw_disk w) -> gone (bw_disk (Recover resolver w).2).
Proof.
  intros Ho Ht. assert (call w = (Ok tt, w)) as Hcall by (unfold call, atomically, effect, id; rewrite Ho; destruct w; simpl in *; by subst).
  unfold Recover. unfold bind at 1. rewrite Hcall. unfold bind at 1, gets. pose proof Ht as (Hl & _ & Hj). rewrite (journal_files_lone op _ Hl). destruct (dk_journals (bw_disk w) !! journal_name op) as [[j|]|] eqn:E; [|done|exact E].
  cbn [recover_all]. destruct (recover_one_gone w j Ho Ht E) as [Hok Hg]. unfold bind. by destruct (recover_one resolver (journal_name op) w) as [[r|e] w'].
Qed.
End Resolved.
End Close.

(** [C6] Recovery comes to an end. Take a restore that could start - the project's
    directory and the backup are there, no restore is pending, the files have
    nothing but permission bits - of a well-formed project, and after it nothing but
    starts of the Agent: whatever failed in the restore and in these starts, the
    next start whose calls work, with the project in the catalog, closes the
    transaction: no journal of it is left, and the project's files are all as before
    or all restored. (Pruning the backup or the snapshot in between is excluded:
    [pruned_snapshot_lost].) *)
Theorem recovery_closes admitBackup admitRestore space now request mb ab resolver runs w :
  ready now request (bw_disk w) mb ab -> resolver (pj_UID (rq_Project request)) = Some (rq_Project request) -> project_wf (rq_Project request) = true ->
  let root := pj_WorkingDir (rq_Project request) in
  let before := dir_of root (bw_disk w) in
  let w1 := (Restore admitBackup admitRestore space now request w).2 in
  let d := bw_disk (boot resolver (boots resolver w1 runs) []) in
  dk_journals d !! journal_name (rq_OperationID request) = None /\ (same root before d \/ restored root before mb ab d).
Proof.
  intros Hr Hres Hwf root before w1 d. set (op := rq_OperationID request). set (uid := pj_UID (rq_Project request)).
  assert (idle request (bw_disk w) mb ab (bw_disk w)) as Hi by (constructor; [done | done | apply Hr]).
  assert (transaction root op uid before mb ab (bw_disk w1)) as Ht.
  { pose proof (restore_transaction admitBackup admitRestore space now request (bw_disk w) mb ab Hr w Hi) as H. unfold w1. destruct (Restore _ _ _ _ _ w) as [[x|e] w']; [by destruct H as (? & _) | by destruct H]. }
  assert (fixed_at root before nothing_fixed (bw_disk w1)) as Hf by (by intros n _ ?).
  pose proof (boots_recovering root op uid before mb ab resolver nothing_fixed runs w1 (conj Ht Hf)) as [Ht2 Hf2].
  assert (dk_journals d !! journal_name op = None) as Hg.
  { apply (Recover_gone root op uid before mb ab resolver (rq_Project request) Hres Hwf eq_refl (mkBworld (bw_disk (boots resolver w1 runs)) ∅ [] (bw_random (boots resolver w1 runs))) eq_refl Ht2). }
  split; [exact Hg|]. pose proof (hoare_keeps _ _ (mkBworld (bw_disk (boots resolver w1 runs)) ∅ [] (bw_random (boots resolver w1 runs))) (Recover_spec root op uid before mb ab resolver nothing_fixed) (conj Ht2 Hf2)) as [(_ & _ & Hj) _].
  change (bw_disk (Recover resolver (mkBworld (bw_disk (boots resolver w1 runs)) ∅ [] (bw_random (boots resolver w1 runs)))).2) with d in Hj. rewrite Hg in Hj. exact Hj.
Qed.

(** ** An example

    A project with a Compose file and an environment file is backed up; then the
    first changes and the second is removed. *)

Definition demo_project : Project := mkProject "project-1" "app" "/srv/app".
Definition demo_now : time := 1700000000123456789.
Definition demo_original : directory := {[ "compose.yaml" := Regular [118; 49] 420; ".env" := Regular [75; 61; 118] 384 ]}.
Definition demo_changed : directory := {[ "compose.yaml" := Regular [118; 50; 33] 420; "notes" := Regular [120] 420 ]}.
Definition demo_world : bworld := mkBworld (mkDisk {[ "/srv/app" := demo_original ]} ∅ ∅) ∅ [] [[1; 1; 1; 1; 1; 1; 1; 1]; [2; 2; 2; 2; 2; 2; 2; 2]].
Definition demo_admit (_ : string) (_ : Trigger) (_ : Z) : bool := true.
Definition demo_admit_restore (_ _ : string) (_ _ _ : Z) : bool := true.
Definition demo_space (_ : string) : Z * Z := (2 ^ 40, 2 ^ 39).
Definition demo_created := Eval vm_compute in Create demo_admit demo_now (mkCreate demo_project ["compose.yaml"; ".env"] TriggerManual "op-1" demo_now) demo_world.
Definition demo_id : string := Eval vm_compute in match demo_created.1 with Ok m => mf_BackupID m | Err _ => "" end.
Definition demo_disk : disk := Eval vm_compute in on_dirs (fun m => <["/srv/app" := demo_changed]> m) (bw_disk demo_created.2).
Definition demo_stored : stored := Eval vm_compute in default (mkStored None None) (dk_backups demo_disk !! ("project-1", demo_id)).
Definition demo_manifest : Manifest := Eval vm_compute in match sd_Manifest demo_stored with Some m => m | None => mkManifest "" "" "" "" 0 TriggerManual "" [] end.
Definition demo_archive : archive := Eval vm_compute in default (mkArchive [] true) (sd_Archive demo_stored).
Definition demo_request : RestoreRequest := mkRestore demo_project demo_id "op-2" (demo_now + 1) true.
Definition demo_resolver (uid : string) : option Project := if bool_decide (uid = "project-1") then Some demo_project else None.
(** The calls work until one and all after it fail. *)
Definition demo_start (k : nat) : bworld := mkBworld demo_disk ∅ (replicate k Works ++ replicate 300 (Fails 1)) [[2; 2; 2; 2; 2; 2; 2; 2]].
Definition demo_restore (w : bworld) := Restore demo_admit demo_admit_restore demo_space demo_now demo_request w.

Lemma demo_ready k : ready demo_now demo_request (bw_disk (demo_start k)) demo_manifest demo_archive.
Proof.
  constructor.
  - done.
  - by eexists.
  - intros n _. change (dk_journals (bw_disk (demo_start k))) with (∅ : gmap string (option restoreJournal)). apply lookup_empty.
  - intros n c mode H. change (demo_changed !! n = Some (Regular c mode)) in H. unfold demo_changed in H. apply lookup_insert_Some in H as [[_ H]|[_ H]]; [by simplify_eq|].
    apply lookup_singleton_Some in H as [_ H]. by simplify_eq.
  - by vm_compute.
Qed.

(** The process dies after the first file was replaced: the journal is left, the files
    are mixed; the next start puts the changed file back. *)
Definition demo_crashed : bworld := (demo_restore (demo_start 80)).2.
Example demo_mixed : (dir_of "/srv/app" (bw_disk demo_crashed) !! ".env", dir_of "/srv/app" (bw_disk demo_crashed) !! "compose.yaml", bool_decide (is_Some (dk_journals (bw_disk demo_crashed) !! "op-2.json")))
  = (Some (Regular [75; 61; 118] 384), Some (Regular [118; 50; 33] 420), true).
Proof. vm_compute. reflexivity. Qed.

Definition demo_runs : list (list outcome) := [[Works; Works; Fails 0]; []].
Definition demo_recovered : bworld := boots demo_resolver demo_crashed demo_runs.
Lemma demo_closed : dk_journals (bw_disk demo_recovered) !! "op-2.json" = None.
Proof. vm_compute. reflexivity. Qed.


Lemma recovery_closes_witness : let d := bw_disk (boot demo_resolver (boots demo_resolver demo_crashed [[Works; Fails 0]]) []) in
  dk_journals d !! "op-2.json" = None /\ (same "/srv/app" demo_changed d \/ restored "/srv/app" demo_changed demo_manifest demo_archive d).
Proof. exact (recovery_closes demo_admit demo_admit_restore demo_space demo_now demo_request demo_manifest demo_archive demo_resolver [[Works; Fails 0]] (demo_start 80) (demo_ready 80) eq_refl eq_refl). Defined.

(** Undisturbed, the restore puts both files in place. *)
Example demo_restored : let w := (demo_restore (mkBworld demo_disk ∅ [] [[2; 2; 2; 2; 2; 2; 2; 2]])).2 in
  (dir_of "/srv/app" (bw_disk w) !! ".env", dir_of "/srv/app" (bw_disk w) !! "compose.yaml", dir_of "/srv/app" (bw_disk w) !! "notes", bool_decide (dk_journals (bw_disk w) = ∅))
  = (Some (Regular [75; 61; 118] 384), Some (Regular [118; 49] 420), Some (Regular [120] 420), true).
Proof. vm_compute. reflexivity. Qed.

(** *** A snapshot that is pruned while its journal is pending

    Pruning looks at the times of the snapshots only. When the clock was set back
    before the restore, the snapshot a pending journal needs is not among the newest;
    pruning, which also follows a failed restore, deletes it, and the originals are
    gone: every later start asks for recovery again. *)
Definition demo_later_id : string := Eval vm_compute in newBackupID (demo_now + 10) [3; 3; 3; 3; 3; 3; 3; 3].
Definition demo_later : stored := mkStored (Some (mkManifest demo_later_id "project-1" "app" "/srv/app" (demo_now + 10) TriggerPreWrite "op-0" [])) (Some (mkArchive [] false)).
Definition demo_pruned : bworld :=
  let d := on_backups (insert ("project-1", demo_later_id) demo_later) (bw_disk demo_crashed) in (PruneAutomatic "project-1" 1 (mkBworld d ∅ [] [])).2.
Example pruned_snapshot_lost : let w := boots demo_resolver demo_pruned [[]; []; []] in
  (dir_of "/srv/app" (bw_disk w) !! ".env", dir_of "/srv/app" (bw_disk w) !! "compose.yaml", bool_decide (is_Some (dk_journals (bw_disk w) !! "op-2.json")))
  = (Some (Regular [75; 61; 118] 384), Some (Regular [118; 50; 33] 420), true).
Proof. vm_compute. reflexivity. Qed.
