(* ===== verification/BackupRetention.v ===== *)
(** * Retention of backups

    Pruning and reclaiming under disk pressure delete only automatic snapshots, and
    only ones older than those they keep for the project. *)

From Stdlib Require Import Ascii.
From S2P Require Import Prelude GoText Paths BackupText Backup BackupSpec BackupRestore.

(** A backup that is gone or damaged was automatic, and [k] automatic snapshots of its
    project that are no older are untouched. *)
Definition retained (k : nat) (b : gmap (string * string) stored) (d : disk) : Prop := forall uid id s, b !! (uid, id) = Some s -> dk_backups d !! (uid, id) <> Some s ->
  exists m, sd_Manifest s = Some m /\ mf_Trigger m <> TriggerManual /\ exists kept, NoDup kept /\ length kept = k /\
    forall id', id' ∈ kept -> exists s' m', dk_backups d !! (uid, id') = Some s' /\ b !! (uid, id') = Some s' /\ sd_Manifest s' = Some m' /\ mf_Trigger m' <> TriggerManual
      /\ mf_CreatedAt m <= mf_CreatedAt m'.

(** Automatic snapshots of a project with their times, newest first *)
Record listing (b : gmap (string * string) stored) (uid : string) (l : list (string * time)) : Prop := mkListing {
  ls_nodup : NoDup (fst <$> l);
  ls_automatic id t : (id, t) ∈ l -> exists s m, b !! (uid, id) = Some s /\ sd_Manifest s = Some m /\ mf_Trigger m <> TriggerManual /\ mf_CreatedAt m = t;
  ls_sorted : StronglySorted (fun x y => snd y <= snd x) l;
}.

Lemma sorted_split {A} (R : A -> A -> Prop) l k x y : StronglySorted R l -> x ∈ take k l -> y ∈ drop k l -> R x y.
Proof.
  revert k. induction l as [|z l IH]; intros k Hs Hx Hy; [by rewrite take_nil in Hx; apply elem_of_nil in Hx|]. apply StronglySorted_inv in Hs as [Hs Hall]. destruct k as [|k]; [by apply elem_of_nil in Hx|].
  simpl in *. apply elem_of_cons in Hx as [->|Hx]; [|by eapply IH]. rewrite Forall_forall in Hall. apply Hall. rewrite <- (take_drop k l). apply elem_of_app. by right.
Qed.

Lemma listing_retained k b d :
  (forall uid id, dk_backups d !! (uid, id) <> b !! (uid, id) -> exists l, listing b uid l /\ id ∈ fst <$> drop k l /\ forall id', id' ∈ fst <$> take k l -> dk_backups d !! (uid, id') = b !! (uid, id')) ->
  retained k b d.
Proof.
  intros H uid id s Hs Hne. destruct (H uid id) as (l & [Hn Ha Ho] & Hin & Hkept); [congruence|]. apply list_elem_of_fmap in Hin as ([i t] & E & Hin). simpl in E. subst i.
  assert ((id, t) ∈ l) as Hl by (rewrite <- (take_drop k l); apply elem_of_app; by right). destruct (Ha id t Hl) as (s0 & m & Hs0 & Hm & Ht & Hc). rewrite Hs in Hs0. injection Hs0 as <-.
  exists m. split_and!; [done | done|]. exists (fst <$> take k l). split_and!.
  - rewrite <- (take_drop k l), fmap_app in Hn. by apply NoDup_app in Hn as [? _].
  - rewrite length_fmap, length_take. apply list_elem_of_lookup in Hin as [j Hj]. apply lookup_lt_Some in Hj. rewrite length_drop in Hj. lia.
  - intros id' Hid'. pose proof (Hkept id' Hid') as Hk. apply list_elem_of_fmap in Hid' as ([i t'] & E & Hin'). simpl in E. subst i.
    assert ((id', t') ∈ l) as Hl' by (rewrite <- (take_drop k l); apply elem_of_app; by left). destruct (Ha id' t' Hl') as (s' & m' & Hs' & Hm' & Ht' & Hc'). exists s', m'. rewrite Hk. split_and!; try done.
    rewrite Hc, Hc'. by apply (sorted_split _ l k (id', t') (id, t) Ho).
Qed.

(** ** Reading the manifests *)

(** What is loaded is what is stored. *)
Lemma load_stored b uid id : hoare (fun d => dk_backups d = b) (loadManifest uid id) (fun m d => dk_backups d = b /\ exists s, b !! (uid, id) = Some s /\ sd_Manifest s = Some m /\ mf_BackupID m = id) (fun _ d => dk_backups d = b).
Proof.
  eapply h_weaken; [apply (loadManifest_stored uid (fun d => dk_backups d = b) id (fun _ d => dk_backups d = b)); done | done | | done].
  intros m d [Hd (s & Hs & Hm & Hok)]. split; [done|]. exists s. rewrite <- Hd. split_and!; [done | done|]. by apply (manifest_ids uid id m Hok).
Qed.

Lemma collect_spec {A} b (f : string -> bkM (option A)) (good : string -> A -> Prop) names :
  (forall n, hoare (fun d => dk_backups d = b) (f n) (fun x d => dk_backups d = b /\ forall a, x = Some a -> good n a) (fun _ d => dk_backups d = b)) ->
  hoare (fun d => dk_backups d = b) (collect f names) (fun l d => dk_backups d = b /\ exists ns, ns `sublist_of` names /\ Forall2 good ns l) (fun _ d => dk_backups d = b).
Proof.
  intros Hf. induction names as [|n names IH]; cbn [collect].
  - apply h_ret. intros d Hd. split; [done|]. by exists [].
  - eapply h_bind; [apply Hf|]. intros x w [Hd Hx]. revert w Hd. change (hoare (fun d => dk_backups d = b) (let* xs := collect f names in ret (match x with Some a => a :: xs | None => xs end))
      (fun l d => dk_backups d = b /\ exists ns, ns `sublist_of` n :: names /\ Forall2 good ns l) (fun _ d => dk_backups d = b)).
    eapply h_bind; [apply IH|]. intros xs. apply h_ret. intros d [Hd (ns & Hsub & Hall)]. split; [done|]. destruct x as [a|].
    + exists (n :: ns). split; [by apply sublist_skip | constructor; [by apply Hx | done]].
    + exists ns. split; [by apply sublist_cons | done].
Qed.

Lemma names_of_nodup uid b : NoDup (names_of uid b).
Proof.
  unfold names_of. rewrite sort_by_perm. apply NoDup_fmap_2_strong; [|apply NoDup_filter, NoDup_fst_map_to_list].
  intros [u1 n1] [u2 n2] [[H1 _] _]%list_elem_of_filter [[H2 _] _]%list_elem_of_filter E. simpl in *. congruence.
Qed.

(** Only these backups change. *)
Definition only_at (victims : list (string * string)) (d d' : disk) : Prop := forall key, key ∉ victims -> dk_backups d' !! key = dk_backups d !! key.
#[export] Instance only_at_preorder victims : PreOrder (only_at victims).
Proof. split; [done|]. intros d1 d2 d3 H1 H2 key Hk. by rewrite H2, H1. Qed.
Lemma remove_only_at victims key : key ∈ victims -> shifts (only_at victims) (remove_backup key).
Proof.
  intros Hin. assert (forall k f d, k ∉ victims -> dk_backups (update_backup key f d) !! k = dk_backups d !! k) as Hu by (intros k f d Hk; simpl; apply lookup_alter_ne; congruence).
  assert (forall k d, k ∉ victims -> dk_backups (on_backups (delete key) d) !! k = dk_backups d !! k) as Hd by (intros k d Hk; simpl; apply lookup_delete_ne; congruence).
  apply s_effect; [intros d k Hk; by apply Hd|]. intros [|[|[|[|n]]]] d k Hk; [done | by apply Hu | by apply Hu | by apply Hu | by apply Hd].
Qed.

(** ** Pruning *)

Lemma sorted_strong {A} (R : A -> A -> Prop) l : (forall x y z, R x y -> R y z -> R x z) -> Sorted R l -> StronglySorted R l.
Proof. intros Ht. apply Sorted_StronglySorted. exact Ht. Qed.

Lemma Sorted_weaken {A} (R R' : A -> A -> Prop) l : (forall x y, R x y -> R' x y) -> Sorted R l -> Sorted R' l.
Proof. intros H. induction 1 as [|x l Hl IH Hx]; constructor; [done|]. destruct Hx; constructor; auto. Qed.

Lemma prune_retains b uid keep : hoare (fun d => dk_backups d = b) (PruneAutomatic uid keep) (fun _ => retained (Z.to_nat keep) b) (fun _ => retained (Z.to_nat keep) b).
Proof.
  assert (forall d, dk_backups d = b -> retained (Z.to_nat keep) b d) as Hid by (intros d Hd u i s Hs Hne; rewrite Hd in Hne; congruence).
  unfold PruneAutomatic. apply h_if; intros _; [by apply h_fail|]. eapply h_bind; [by apply h_call|]. intros []. cbv beta.
  eapply h_bind; [apply (h_gets _ (fun d => names_of uid (dk_backups d)))|]. intros names.
  eapply h_weaken with (P := fun d => dk_backups d = b /\ names = names_of uid b); [|by intros d [<- ->] | intros a d H; exact H | intros e d H; exact H]. apply h_pure. intros ->.
  eapply h_bind.
  { eapply h_weaken; [apply (collect_spec b _ (fun id c => fst c = id /\ exists s m, b !! (uid, id) = Some s /\ sd_Manifest s = Some m /\ mf_Trigger m <> TriggerManual /\ mf_CreatedAt m = snd c) (names_of uid b))
      | intros d H; exact H | intros l d H; exact H | intros e d H; by apply Hid].
    intros id. eapply h_bind; [apply load_stored|]. intros m. apply h_ret. intros d [Hd (s & Hs & Hm & Hi)]. split; [done|]. case_bool_decide as E; [done|]. intros a [= <-]. split; [done|]. by exists s, m. }
  intros automatic. cbv zeta. set (sorted := sort_by _ automatic). set (excess := drop _ sorted). set (victims := (fun c : string * time => (uid, fst c)) <$> excess).
  apply (h_assume (listing b uid sorted)).
  { intros d [_ (ns & Hsub & Hall)]. assert (fst <$> automatic = ns) as Hns by (clear -Hall; induction Hall as [|n c ns l [E _] _ IH]; [done|]; simpl; f_equal; [exact E | exact IH]). constructor.
    - unfold sorted. rewrite sort_by_perm, Hns. eapply sublist_NoDup; [apply names_of_nodup | exact Hsub].
    - intros id t Hin. unfold sorted in Hin. rewrite sort_by_perm in Hin. apply list_elem_of_lookup in Hin as [i Hi]. destruct (Forall2_lookup_r _ _ _ _ _ Hall Hi) as (n & _ & <- & H). exact H.
    - apply sorted_strong; [intros; lia|]. eapply (Sorted_weaken (fun x y => (snd x <? snd y) = false)); [|apply sort_by_sorted; intros x y H; lia]. intros x y H. lia. }
  intros Hl. eapply h_weaken with (P := fun d => forall key, key ∉ victims -> dk_backups d !! key = b !! key); [|by intros d [<- _] key _ | intros a d H; exact H | intros e d H; exact H].
  assert (forall d, (forall key, key ∉ victims -> dk_backups d !! key = b !! key) -> retained (Z.to_nat keep) b d) as Hret.
  { intros d Hd. apply listing_retained. intros u i Hne. assert ((u, i) ∈ victims) as Hin by (destruct (decide ((u, i) ∈ victims)); [done | by destruct Hne; apply Hd]).
    apply list_elem_of_fmap in Hin as ([i' t] & [= -> ->] & Hin). exists sorted. split_and!; [done | apply list_elem_of_fmap; by exists (i', t)|].
    intros i2 Hi2. apply Hd. intros ([i3 t3] & [= ->] & Hi3)%list_elem_of_fmap. pose proof (ls_nodup _ _ _ Hl) as Hn. rewrite <- (take_drop (Z.to_nat keep) sorted), fmap_app in Hn.
    apply NoDup_app in Hn as (_ & Hn & _). apply (Hn _ Hi2). apply list_elem_of_fmap. by exists (i3, t3). }
  eapply h_bind with (Q := fun _ d => forall key, key ∉ victims -> dk_backups d !! key = b !! key).
  { eapply h_weaken; [apply (h_shifts (only_at victims) (fun d => forall key, key ∉ victims -> dk_backups d !! key = b !! key)) | done | done | intros e d H; by apply Hret].
    - apply s_each; [apply _|]. intros c Hc. apply remove_only_at. apply list_elem_of_fmap. by exists c.
    - intros d d' H Hd key Hk. rewrite H by done. by apply Hd. }
  intros []. eapply h_bind with (Q := fun _ d => forall key, key ∉ victims -> dk_backups d !! key = b !! key); [case_bool_decide; [by apply h_ret | by apply h_call]|].
  intros []. by apply h_ret.
Qed.

(** ** Reclaiming *)

Section Reclaiming.
Context (stored_bytes : stored -> Z).

Lemma bytes_keeps R `{!PreOrder R} key : shifts R (secureLogicalBytes stored_bytes key).
Proof. unfold secureLogicalBytes. shift. Qed.

Definition dated (c : automaticCandidate) : string * time := (ac_backupID c, ac_createdAt c).
(** The candidates of a project, newest first *)
Definition candidates_of (b : gmap (string * string) stored) (uid : string) (l : list automaticCandidate) : Prop :=
  (forall c, c ∈ l -> ac_projectUID c = uid) /\ listing b uid (dated <$> l).

Lemma str_less_asym a b : str_less a b = true -> str_less b a = false.
Proof. unfold str_less. rewrite bool_decide_eq_true, bool_decide_eq_false. intros H. rewrite String.compare_antisym, H. done. Qed.
Lemma newer_asym ta ia tb ib : newer ta ia tb ib = true -> newer tb ib ta ia = false.
Proof. unfold newer. rewrite (Z.eqb_sym tb ta). destruct (ta =? tb) eqn:E; [|lia]. apply str_less_asym. Qed.

Lemma automatic_of_spec b uids : hoare (fun d => dk_backups d = b) (automatic_of stored_bytes uids) (fun ls d => dk_backups d = b /\ Forall2 (candidates_of b) uids ls) (fun _ d => dk_backups d = b).
Proof.
  induction uids as [|uid uids IH]; cbn [automatic_of]; [by apply h_ret|].
  eapply h_bind; [by apply h_call|]. intros []. eapply h_bind; [by apply h_call|]. intros []. eapply h_bind; [apply (h_gets _ (fun d => names_of uid (dk_backups d)))|]. intros names.
  eapply h_weaken with (P := fun d => dk_backups d = b /\ names = names_of uid b); [|by intros d [<- ->] | intros a d H; exact H | intros e d H; exact H]. apply h_pure. intros ->.
  eapply h_bind.
  { eapply h_weaken; [apply (collect_spec b _ (fun id c => ac_projectUID c = uid /\ ac_backupID c = id /\ exists s m, b !! (uid, id) = Some s /\ sd_Manifest s = Some m /\ mf_Trigger m <> TriggerManual /\ mf_CreatedAt m = ac_createdAt c) (names_of uid b))
      | intros d H; exact H | intros l d H; exact H | done].
    intros id. eapply h_bind; [apply load_stored|]. intros m. apply h_if; intros E; [apply h_ret; by intros d [? _]|]. bool_to_prop.
    apply (h_assume (exists s, b !! (uid, id) = Some s /\ sd_Manifest s = Some m)); [intros d [_ (s & ? & ? & _)]; by exists s|]. intros (s & Hs & Hm).
    eapply h_weaken with (P := fun d => dk_backups d = b); [|by intros d [? _] | intros a d H; exact H | intros e d H; exact H].
    eapply h_bind with (Q := fun _ d => dk_backups d = b); [apply (h_shifts (=)); [apply bytes_keeps, _ | by intros d d' <-]|]. intros bytes. apply h_ret. intros d Hd. split; [done|]. intros a [= <-].
    split_and!; [done | done|]. by exists s, m. }
  intros l. apply (h_assume (candidates_of b uid (sort_by (fun a b => newer (ac_createdAt a) (ac_backupID a) (ac_createdAt b) (ac_backupID b)) l))).
  - intros d [_ (ns & Hsub & Hall)]. assert (ac_backupID <$> l = ns) as Hns by (clear -Hall; induction Hall as [|n c ns l (_ & E & _) _ IH]; [done|]; simpl; f_equal; [exact E | exact IH]). split.
    + intros c. rewrite sort_by_perm. intros [i Hi]%list_elem_of_lookup. by destruct (Forall2_lookup_r _ _ _ _ _ Hall Hi) as (n & _ & ? & _).
    + constructor.
      * rewrite sort_by_perm, <- list_fmap_compose. change (fst ∘ dated) with ac_backupID. rewrite Hns. eapply sublist_NoDup; [apply names_of_nodup | exact Hsub].
      * intros id t (c & [= -> ->] & Hc)%list_elem_of_fmap. rewrite sort_by_perm in Hc. apply list_elem_of_lookup in Hc as [i Hi]. by destruct (Forall2_lookup_r _ _ _ _ _ Hall Hi) as (n & _ & _ & <- & ?).
      * apply sorted_strong; [intros; lia|]. set (less := fun a b => newer _ _ _ _). assert (Sorted (fun x y => less y x = false) (sort_by less l)) as Hsd by (apply sort_by_sorted; intros x y; apply newer_asym).
        revert Hsd. generalize (sort_by less l). intros k. induction 1 as [|x k Hk IHk Hx]; [constructor|]. simpl. constructor; [done|]. destruct Hx as [|y k Hx]; constructor. unfold less, newer in Hx. simpl.
        destruct (ac_createdAt y =? ac_createdAt x) eqn:E; lia.
  - intros Hl. eapply h_weaken with (P := fun d => dk_backups d = b); [|by intros d [? _] | intros a d H; exact H | intros e d H; exact H].
    eapply h_bind; [apply IH|]. intros ls. apply h_ret. intros d [Hd Hls]. split; [done | by constructor].
Qed.

Lemma projects_nodup b : NoDup (projects_of b).
Proof. unfold projects_of. rewrite sort_by_perm. apply NoDup_elements. Qed.

Lemma reclaim_only {A} (R : disk -> disk -> Prop) `{!PreOrder R} (step : A -> bkM Z) needed freed l : (forall c, c ∈ l -> shifts R (step c)) -> shifts R (reclaim step needed freed l).
Proof.
  revert freed. induction l as [|c l IH]; intros freed Hs; cbn [reclaim]; [shift|]. pose proof (Hs c (list_elem_of_here _ _)) as Hc.
  apply s_if; [shift|]. apply s_bind; [apply _ | apply s_attempt; shift|]. intros [z|e]; [|shift]. apply IH. intros x Hx. apply Hs. by right.
Qed.

Lemma reclaim_retains b needed k : hoare (fun d => dk_backups d = b) (reclaim_automatic stored_bytes needed k) (fun _ => retained k b) (fun _ => retained k b).
Proof.
  assert (forall d, dk_backups d = b -> retained k b d) as Hid by (intros d Hd u i s Hs Hne; rewrite Hd in Hne; congruence).
  unfold reclaim_automatic. eapply h_bind with (Q := fun ls d => dk_backups d = b /\ Forall2 (candidates_of b) (projects_of b) ls).
  { unfold automaticCandidates. eapply h_bind; [by apply h_call|]. intros []. eapply h_bind; [apply (h_gets _ (fun d => projects_of (dk_backups d)))|]. intros uids.
    eapply h_weaken with (P := fun d => dk_backups d = b /\ uids = projects_of b); [|by intros d [<- ->] | intros a d H; exact H | intros e d H; exact H]. apply h_pure. intros ->.
    eapply h_weaken; [apply (automatic_of_spec b) | done | done | intros e d H; by apply Hid]. }
  intros ls. apply (h_assume (Forall2 (candidates_of b) (projects_of b) ls)); [by intros d [_ ?]|]. intros Hls.
  set (eligible := mjoin (drop k <$> ls)). set (victims := (fun c => (ac_projectUID c, ac_backupID c)) <$> eligible).
  assert (forall d, (forall key, key ∉ victims -> dk_backups d !! key = b !! key) -> retained k b d) as Hret.
  { intros d Hd. apply listing_retained. intros u i Hne. assert ((u, i) ∈ victims) as Hin by (destruct (decide ((u, i) ∈ victims)); [done | by destruct Hne; apply Hd]).
    apply list_elem_of_fmap in Hin as (c & [= -> ->] & Hc). apply list_elem_of_join in Hc as (x & Hc & Hx). apply list_elem_of_fmap in Hx as (l & -> & Hl). apply list_elem_of_lookup in Hl as [n Hn].
    destruct (Forall2_lookup_r _ _ _ _ _ Hls Hn) as (uid & Hu & Hsame & Hlist). assert (ac_projectUID c = uid) as -> by (apply Hsame; rewrite <- (take_drop k l); apply elem_of_app; by right).
    exists (dated <$> l). split_and!; [done | |].
    - rewrite <- fmap_drop, <- list_fmap_compose. apply list_elem_of_fmap. by exists c.
    - intros i2 Hi2. apply Hd. intros (c2 & [= Eu ->] & Hc2)%list_elem_of_fmap. apply list_elem_of_join in Hc2 as (x2 & Hc2 & Hx2). apply list_elem_of_fmap in Hx2 as (l2 & -> & Hl2).
      apply list_elem_of_lookup in Hl2 as [n2 Hn2]. destruct (Forall2_lookup_r _ _ _ _ _ Hls Hn2) as (uid2 & Hu2 & Hsame2 & _).
      assert (ac_projectUID c2 = uid2) as Eu2 by (apply Hsame2; rewrite <- (take_drop k l2); apply elem_of_app; by right).
      assert (n = n2) as -> by (apply (NoDup_lookup (projects_of b) n n2 uid (projects_nodup b)); [done | by rewrite Hu2; congruence]). assert (l2 = l) as -> by congruence.
      pose proof (ls_nodup _ _ _ Hlist) as Hn'. rewrite <- (take_drop k (dated <$> l)), fmap_app in Hn'. apply NoDup_app in Hn' as (_ & Hn' & _). apply (Hn' _ Hi2).
      rewrite <- fmap_drop, <- list_fmap_compose. apply list_elem_of_fmap. by exists c2. }
  eapply h_weaken; [apply (h_shifts (only_at victims) (fun d => forall key, key ∉ victims -> dk_backups d !! key = b !! key)) | by intros d [<- _] key _ | by intros a d; apply Hret | by intros e d; apply Hret].
  - unfold removeAutomaticCandidates. apply reclaim_only; [apply _|]. intros c Hc. rewrite sort_by_perm in Hc. unfold remove_candidate. pose proof (bytes_keeps (only_at victims) (ac_projectUID c, ac_backupID c)).
    pose proof (loadManifest_keeps (only_at victims) (ac_projectUID c) (ac_backupID c)). simpl. shift. apply remove_only_at, list_elem_of_fmap. by exists c.
  - intros d d' H Hd key Hk. rewrite H by done. by apply Hd.
Qed.
End Reclaiming.

(** ** What housekeeping leaves alone *)

Lemma dot_not_backup name : HasPrefix name "." = true -> validBackupID name = false.
Proof.
  intros [t ->]%has_prefix_inv. apply not_true_iff_false. intros Hv. unfold validBackupID in Hv. rewrite !andb_true_iff in Hv. destruct Hv as [[[_ Hv] _] _]. unfold valid_stamp in Hv. rewrite !andb_true_iff in Hv.
  destruct Hv as [[[[[[[[[[[_ Hd] _] _] _] _] _] _] _] _] _] _]. discriminate Hd.
Qed.
Lemma tmp_not_json name : HasSuffix name ".tmp" = true -> HasSuffix name ".json" = false.
Proof.
  intros [t ->]%has_suffix_inv. apply not_true_iff_false. intros [t' E]%has_suffix_inv. apply (f_equal bytes_of) in E. rewrite !bytes_of_app in E. apply (f_equal (@rev Z)) in E. rewrite !rev_app_distr in E. discriminate E.
Qed.

(** Published backups and journals stay. *)
Definition published_kept (d d' : disk) : Prop :=
  dk_dirs d' = dk_dirs d /\ (forall key, validBackupID (snd key) = true -> dk_backups d' !! key = dk_backups d !! key) /\ (forall n, HasSuffix n ".json" = true -> dk_journals d' !! n = dk_journals d !! n).
#[export] Instance published_kept_preorder : PreOrder published_kept.
Proof. split; [done|]. intros d1 d2 d3 (D1 & B1 & J1) (D2 & B2 & J2). split_and!; [congruence | intros; by rewrite B2, B1 | intros; by rewrite J2, J1]. Qed.

Lemma remove_unpublished key : validBackupID (snd key) = false -> shifts published_kept (remove_backup key).
Proof.
  intros Hv. assert (forall f d, published_kept d (update_backup key f d)) as Hu by (intros f d; split_and!; [done | | done]; intros k Hk; simpl; apply lookup_alter_ne; congruence).
  assert (forall d, published_kept d (on_backups (delete key) d)) as Hd by (intros d; split_and!; [done | | done]; intros k Hk; simpl; apply lookup_delete_ne; congruence).
  apply s_effect; [done|]. intros [|[|[|[|n]]]] d; [reflexivity | apply Hu | apply Hu | apply Hu | apply Hd].
Qed.

Lemma abandoned_kept stored_bytes journal_bytes needed : shifts published_kept (ReclaimAbandonedTempForDiskPressure stored_bytes journal_bytes needed).
Proof.
  intros w. unfold ReclaimAbandonedTempForDiskPressure. destruct (needed <=? 0); [reflexivity|].
  assert (forall l, (forall a, a ∈ l -> match a with AbandonedBackup key => validBackupID (snd key) = false | AbandonedJournal n => HasSuffix n ".json" = false end) ->
    shifts published_kept (reclaim (remove_abandoned stored_bytes journal_bytes) needed 0 l)) as Hl.
  { intros l Hl. apply reclaim_only; [apply _|]. intros a Ha. specialize (Hl a Ha). destruct a as [key|n]; unfold remove_abandoned.
    - pose proof (bytes_keeps stored_bytes published_kept key). pose proof (remove_unpublished key Hl). shift.
    - shift. apply s_atomically; [apply _|]. intros d. split_and!; [done | done|]. intros n' Hn'. simpl. apply lookup_delete_ne. congruence. }
  revert w. change (shifts published_kept (call ;;; call ;;; let* candidates := gets (fun w => abandoned_of (bw_disk w)) in reclaim (remove_abandoned stored_bytes journal_bytes) needed 0 candidates)).
  repeat (apply s_bind; [apply _ | apply s_call, _|]; intros []). intros w. unfold bind, gets. apply Hl. intros a Ha. unfold abandoned_of in Ha. apply elem_of_app in Ha as [Ha|Ha]; apply list_elem_of_fmap in Ha as (x & -> & Hx);
    rewrite sort_by_perm in Hx; apply list_elem_of_filter in Hx as [Hx _].
  - apply andb_true_iff in Hx as [_ Hx]. unfold abandoned_backup, abandoned_name in Hx. rewrite !andb_true_iff in Hx. apply dot_not_backup, Hx.
  - unfold abandoned_name in Hx. rewrite !andb_true_iff in Hx. apply tmp_not_json, Hx.
Qed.

Lemma hoare_final {A} P (m : bkM A) (Q : disk -> Prop) w : hoare P m (fun _ => Q) (fun _ => Q) -> P (bw_disk w) -> Q (bw_disk (m w).2).
Proof. intros H Hw. specialize (H w Hw). by destruct (m w) as [[a|e] w']. Qed.

(** [C7] Backups are kept. Whatever calls fail, pruning a project and reclaiming space
    delete or damage only automatic snapshots, never a manual backup, and for each
    one they delete, as many automatic snapshots of that project as are to be kept,
    none of them older, stay as they were; at least the newest stays under the
    heaviest pressure. Removing abandoned temporary files touches no published
    backup and no restore journal. *)
Theorem backups_retained stored_bytes journal_bytes w : let b := dk_backups (bw_disk w) in
  (forall uid keep, retained (Z.to_nat keep) b (bw_disk (PruneAutomatic uid keep w).2)) /\
  (forall needed keep, retained (Z.to_nat keep) b (bw_disk (ReclaimExcessAutomaticForDiskPressure stored_bytes needed keep w).2)) /\
  (forall needed, retained 1 b (bw_disk (ReclaimOldAutomaticForDiskPressure stored_bytes needed w).2)) /\
  forall needed, published_kept (bw_disk w) (bw_disk (ReclaimAbandonedTempForDiskPressure stored_bytes journal_bytes needed w).2).
Proof.
  intros b. assert (forall k, retained k b (bw_disk w)) as Hid by (intros k u i s Hs Hne; by destruct Hne). split_and!.
  - intros uid keep. by apply (hoare_final _ _ _ w (prune_retains b uid keep)).
  - intros needed keep. unfold ReclaimExcessAutomaticForDiskPressure. repeat (case_if; [apply Hid|]). by apply (hoare_final _ _ _ w (reclaim_retains stored_bytes b needed (Z.to_nat keep))).
  - intros needed. unfold ReclaimOldAutomaticForDiskPressure. case_if; [apply Hid|]. by apply (hoare_final _ _ _ w (reclaim_retains stored_bytes b needed 1)).
  - intros needed. apply abandoned_kept.
Qed.

(** *** A backup without its manifest

    A removal that stops half way can leave the directory without the manifest. Every
    later pruning of the project then fails, and with it every file write, whose
    snapshot step prunes. *)
Lemma collect_fails {A} b (f : string -> bkM (option A)) id names : id ∈ names -> (forall n, hoare (fun d => dk_backups d = b) (f n) (fun _ d => dk_backups d = b) (fun _ _ => True)) ->
  hoare (fun d => dk_backups d = b) (f id) (fun _ _ => False) (fun _ _ => True) -> hoare (fun d => dk_backups d = b) (collect f names) (fun _ _ => False) (fun _ _ => True).
Proof.
  intros Hin Hf Hid. induction names as [|n names IH]; [by apply elem_of_nil in Hin|]. cbn [collect]. apply elem_of_cons in Hin as [->|Hin].
  - eapply h_bind; [exact Hid|]. intros x. by intros w [].
  - eapply h_bind; [apply Hf|]. intros x. eapply h_bind; [by apply IH|]. intros xs. by intros w [].
Qed.

Lemma half_removed_stops uid keep id s w : validBackupID id = true -> dk_backups (bw_disk w) !! (uid, id) = Some s -> sd_Manifest s = None -> is_ok (PruneAutomatic uid keep w).1 = false.
Proof.
  intros Hv Hs Hm. set (b := dk_backups (bw_disk w)) in *.
  assert (hoare (fun d => dk_backups d = b) (PruneAutomatic uid keep) (fun _ _ => False) (fun _ _ => True)) as H; [|specialize (H w eq_refl); by destruct (PruneAutomatic uid keep w) as [[]]].
  unfold PruneAutomatic. apply h_if; intros _; [by apply h_fail|]. h_calls. eapply h_bind; [apply (h_gets _ (fun d => names_of uid (dk_backups d)))|]. intros names.
  eapply h_weaken with (P := fun d => dk_backups d = b /\ names = names_of uid b); [|by intros d [<- ->] | intros a d H; exact H | intros e d H; exact H]. apply h_pure. intros ->.
  eapply h_bind with (Q := fun _ _ => False); [|intros x; by intros w' []]. apply (collect_fails b _ id).
  - unfold names_of. rewrite sort_by_perm. apply list_elem_of_fmap. exists (uid, id). split; [done|]. apply list_elem_of_filter. split; [done|]. apply list_elem_of_fmap. exists ((uid, id), s).
    split; [done | by apply elem_of_map_to_list].
  - intros n. eapply h_bind; [eapply h_weaken; [apply (load_stored b) | done | intros m d H; exact H | done]|]. intros m. apply h_ret. by intros d [? _].
  - eapply h_bind; [eapply h_weaken; [apply (load_stored b uid id) | done | intros m d H; exact H | done]|]. intros m w' [_ (s' & Hs' & Hm' & _)]. congruence.
Qed.
