(* ===== verification/WalOnce.v ===== *)
(** * Audit WAL: appending at most once

    Models [internal/auditwal/once.go]: [AppendOnce] keeps a receipt file per
    idempotency key beside the segments, so that a durable outbox can repeat a
    delivery after any failure or crash without a second record. The directory
    holds, next to the segment files, the receipt files under the names
    [onceReceiptName] gives them; a receipt file is what decoding its JSON text
    yields, nothing when it does not decode. *)

From Stdlib Require Import Ascii.
From S2P Require Import Prelude Cursor WalFrame WalMeta WalNames Wal WalInv WalProps WalOpen WalSpec WalDisk GoText.

(** ** Model *)

Definition onceReceiptVersion : Z := 1.
Definition onceKeyMaxBytes : Z := 512.

Record onceReceipt := mkReceipt {
  oc_Version : Z;
  oc_Key : string;
  oc_PayloadSHA256 : string;
  oc_Cursor : option Cursor;
  oc_AppendedAt : time;
}.

Record osys := mkOsys { os_sys : sys; os_receipts : gmap string (option onceReceipt) }.

Definition onceM := M osys walErr.

Definition on_wal {A} (m : walM A) : onceM A := fun o =>
  let '(r, s') := m (os_sys o) in (r, mkOsys s' (os_receipts o)).

Definition validOnceKey (key : string) : bool :=
  negb (str_empty key) && (strlen key <=? onceKeyMaxBytes) && ValidString key && negb (contains_byte [0; 13; 10] key).

Definition onceReceiptName (key : string) : string := ("once-" ++ hex_encode (Sum256 (bytes_of key)) ++ ".json")%string.

Definition payload_digest (payload : list Z) : string := hex_encode (Sum256 payload).

(** A hexadecimal text of 64 digits without capitals; the text it denotes is not
    looked at. *)
Definition digest_text (s : string) : bool := (strlen s =? 64) && forallb is_lower_hex (bytes_of s).

Definition validateOnceReceipt (receipt : onceReceipt) (key : string) : bool :=
  (oc_Version receipt =? onceReceiptVersion) && bool_decide (oc_Key receipt = key) && validOnceKey (oc_Key receipt) &&
  digest_text (oc_PayloadSHA256 receipt) &&
  Bool.eqb (bool_decide (oc_Cursor receipt = None)) (is_zero (oc_AppendedAt receipt)) &&
  match oc_Cursor receipt with
  | Some c => negb ((Incarnation c =? 0) || (Seq c =? 0))
  | None => true
  end.

(** Opening the file may fail; a failing read is reported as an invalid receipt. *)
Definition loadOnceReceiptLocked (key : string) : onceM (option onceReceipt) :=
  on_wal syscall ;;;
  let* file := gets (fun o => os_receipts o !! onceReceiptName key) in
  match file with
  | None => ret None
  | Some content =>
    let* o := on_wal next_outcome in
    match o, content with
    | None, Some receipt =>
      if* negb (validateOnceReceipt receipt key) then ErrInvariant end;
      ret (Some receipt)
    | _, _ => fail ErrInvariant
    end
  end.

(** Validate, write a temporary file (create, chmod, write, fsync, close), rename
    it over the old one, fsync the directory. *)
Definition saveOnceReceiptLocked (receipt : onceReceipt) : onceM unit :=
  if* negb (validateOnceReceipt receipt (oc_Key receipt)) then ErrInvariant end;
  on_wal (syscall ;;; syscall ;;; syscall ;;; syscall ;;; syscall ;;; syscall) ;;;
  modify (fun o => mkOsys (os_sys o) (<[onceReceiptName (oc_Key receipt) := Some receipt]> (os_receipts o))) ;;;
  on_wal syncDirectory.

(** The frames of one segment file up to the payload; a frame takes at least 32
    bytes, so the length of the file bounds the rounds. *)
Fixpoint find_frame (fuel : nat) (maxBytes : Z) (payload rd : list Z) : res walErr (option decodedFrame) :=
  match fuel with
  | O => Ok None
  | S fuel' =>
    match readFrame maxBytes rd with
    | (Err FEof, _) => Ok None
    | (Err FUnexpectedEof, _) => Err ErrIO
    | (Err _, _) => Err ErrCorrupt
    | (Ok frame, rd') => if bool_decide (df_payload frame = payload) then Ok (Some frame) else find_frame fuel' maxBytes payload rd'
    end
  end.

Fixpoint find_segments (w : WAL) (payload : list Z) (segs : list segment) : walM (option walRecord) :=
  match segs with
  | [] => ret None
  | seg :: segs' =>
    let* data := openSegment (seg_path seg) in
    let* found := of_res (find_frame (S (length data)) (o_MaxBytes (w_options w)) payload data) in
    match found with
    | Some frame => ret (Some (mkRecord (w_agentID w) (df_cursor frame) (df_at frame) payload))
    | None => syscall ;;; find_segments w payload segs'
    end
  end.

Definition findPayloadLocked (payload : list Z) : walM (option walRecord) :=
  let* w := gets s_wal in
  find_segments w payload (w_segments w).

(** The end of [AppendOnce], for a reserved key: append, sync, complete the
    receipt. *)
Definition append_reserved (now : time) (receipt : onceReceipt) (payload : list Z) : onceM walRecord :=
  let* appended := on_wal (appendLocked now payload) in
  let '(record, syncErr) := appended in
  match syncErr with
  | Some e => fail e
  | None =>
    on_wal syncLocked ;;;
    saveOnceReceiptLocked (mkReceipt (oc_Version receipt) (oc_Key receipt) (oc_PayloadSHA256 receipt) (Some (r_Cursor record)) (r_AppendedAt record)) ;;;
    ret record
  end.

(** [AppendOnce] for a key that has a receipt. *)
Definition resume_receipt (now : time) (agentID : string) (receipt : onceReceipt) (payload : list Z) : onceM walRecord :=
  if* negb (bool_decide (oc_PayloadSHA256 receipt = payload_digest payload)) then ErrInvariant end;
  match oc_Cursor receipt with
  | Some cursor => ret (mkRecord agentID cursor (oc_AppendedAt receipt) payload)
  | None =>
    let* found := on_wal (findPayloadLocked payload) in
    match found with
    | Some recovered =>
      saveOnceReceiptLocked (mkReceipt (oc_Version receipt) (oc_Key receipt) (oc_PayloadSHA256 receipt)
        (Some (r_Cursor recovered)) (r_AppendedAt recovered)) ;;;
      ret recovered
    | None => append_reserved now receipt payload
    end
  end.

(** The receipt that reserves a key. *)
Definition reserve (key : string) (payload : list Z) : onceReceipt := mkReceipt onceReceiptVersion key (payload_digest payload) None time_zero.

(** The record that accompanies an error is not returned. *)
Definition AppendOnce (now : time) (key : string) (payload : list Z) : onceM walRecord :=
  if* negb (validOnceKey key) then ErrInvariant end;
  let* w := gets (fun o => s_wal (os_sys o)) in
  if* w_closed w then ErrClosed end;
  match w_backgroundErr w with
  | Some e => fail e
  | None =>
    on_wal ctxErr ;;;
    let* existing := loadOnceReceiptLocked key in
    match existing with
    | Some receipt => resume_receipt now (w_agentID w) receipt payload
    | None => saveOnceReceiptLocked (reserve key payload) ;;; append_reserved now (reserve key payload) payload
    end
  end.

Definition ForgetOnce (key : string) : onceM unit :=
  if* negb (validOnceKey key) then ErrInvariant end;
  let* w := gets (fun o => s_wal (os_sys o)) in
  if* w_closed w then ErrClosed end;
  on_wal syscall ;;;
  modify (fun o => mkOsys (os_sys o) (delete (onceReceiptName key) (os_receipts o))) ;;;
  on_wal syncDirectory.

(** ** Steps that only read, or write receipts *)

Definition steady_log (o o' : osys) : Prop :=
  s_wal (os_sys o') = s_wal (os_sys o) /\ d_files (s_disk (os_sys o')) = d_files (s_disk (os_sys o)) /\
  s_outcomes (os_sys o') `suffix_of` s_outcomes (os_sys o).

#[export] Instance steady_log_pre : PreOrder steady_log.
Proof.
  split; [by intros o | intros a b c (W1 & D1 & O1) (W2 & D2 & O2)]. split_and!; [congruence.. | by etransitivity].
Qed.

Lemma steady_holds o o' ess : steady_log o o' -> holds (os_sys o) ess -> holds (os_sys o') ess.
Proof. intros (W & D & O) Hh. eapply holds_same; [done | by rewrite W .. | done | done]. Qed.

Lemma on_wal_steady {A} (m : walM A) o r o' : calm m -> same_wal m -> on_wal m o = (r, o') ->
  steady_log o o' /\ os_receipts o' = os_receipts o /\ m (os_sys o) = (r, os_sys o').
Proof.
  intros Hc Hs. unfold on_wal. destruct (Hc (os_sys o)) as [D O]. specialize (Hs (os_sys o)). destruct (m (os_sys o)) as [r1 s1]. intros [= <- <-]. done.
Qed.

Lemma load_spec key o r o' : loadOnceReceiptLocked key o = (r, o') ->
  steady_log o o' /\ os_receipts o' = os_receipts o /\
  (r = Ok None -> os_receipts o !! onceReceiptName key = None) /\
  (forall rc, r = Ok (Some rc) -> os_receipts o !! onceReceiptName key = Some (Some rc) /\ validateOnceReceipt rc key = true).
Proof.
  unfold loadOnceReceiptLocked, bind at 1. destruct (on_wal syscall o) as [r1 o1] eqn:E1.
  apply on_wal_steady in E1 as (S1 & R1 & _); [|auto with calm|auto with samewal]. destruct r1 as [[]|e]; [|intros [= <- <-]; by split_and!].
  unfold bind at 1, gets at 1. rewrite R1. destruct (os_receipts o !! onceReceiptName key) as [content|] eqn:El; [|intros [= <- <-]; by split_and!].
  unfold bind at 1. destruct (on_wal next_outcome o1) as [r2 o2] eqn:E2. apply on_wal_steady in E2 as (S2 & R2 & _); [|auto with calm|auto with samewal].
  assert (steady_log o o2) as S by (by etransitivity). destruct r2 as [[n|]|e]; try (intros [= <- <-]; split_and!; congruence).
  destruct content as [rc|]; [|intros [= <- <-]; split_and!; congruence]. case_if; intros [= <- <-]; split_and!; try congruence.
  intros rc' [= <-]. bool_to_prop. done.
Qed.

Lemma save_spec rc o r o' : saveOnceReceiptLocked rc o = (r, o') ->
  steady_log o o' /\
  ((is_ok r = false /\ os_receipts o' = os_receipts o) \/
   (validateOnceReceipt rc (oc_Key rc) = true /\ os_receipts o' = <[onceReceiptName (oc_Key rc) := Some rc]> (os_receipts o))).
Proof.
  unfold saveOnceReceiptLocked. case_if; [intros [= <- <-]; by split; [|left]|]. bool_to_prop. unfold bind at 1.
  destruct (on_wal _ o) as [r1 o1] eqn:E1. apply on_wal_steady in E1 as (S1 & R1 & _); [|auto 20 with calm | repeat (apply same_wal_bind; intros; auto with samewal)].
  destruct r1 as [[]|e]; [|intros [= <- <-]; split; [done | by left]]. unfold bind at 1, modify at 1. intros E2.
  apply on_wal_steady in E2 as (S2 & R2 & _); [|auto with calm|auto with samewal]. split.
  - etransitivity; [exact S1|]. exact S2.
  - right. rewrite R2. simpl. by rewrite R1.
Qed.

(** ** Finding a payload *)

Lemma find_frame_exact maxb payload es : forall fuel, Forall (entry_ok maxb) es -> (length es < fuel)%nat ->
  match find_frame fuel maxb payload (file_bytes es) with
  | Ok (Some f) => mkEntry (df_cursor f) (df_at f) payload ∈ es
  | Ok None => forall e, e ∈ es -> en_payload e <> payload
  | Err _ => False
  end.
Proof.
  induction es as [|e es IH]; intros [|fuel] Hok Hf; simpl in Hf; try lia; [by intros e ?%not_elem_of_nil|].
  apply Forall_cons in Hok as [He Hok]. destruct (frame_bytes_ok _ _ He) as (Henc & Hmax & _). destruct He as (Hcur & Ht & _).
  cbn [find_frame]. rewrite file_bytes_cons, (readFrame_encoded _ _ _ _ _ _ Henc Hcur Ht Hmax). cbn [df_payload].
  destruct (bool_decide (en_payload e = payload)) eqn:Ep; bool_to_prop; [destruct e; simpl in *; subst; by left|].
  specialize (IH fuel Hok ltac:(lia)). destruct (find_frame _ _ _ _) as [[f|]|]; [by right | | done].
  intros x [->|Hx]%elem_of_cons; auto.
Qed.

Lemma find_segments_spec w payload segs : forall ess s r s',
  Forall2 (seg_holds (o_MaxBytes (w_options w)) (d_files (s_disk s))) segs ess -> find_segments w payload segs s = (r, s') ->
  match r with
  | Ok (Some rec) => exists e, e ∈ mjoin ess /\ en_payload e = payload /\ rec = record_of (w_agentID w) e
  | Ok None => forall e, e ∈ mjoin ess -> en_payload e <> payload
  | Err _ => True
  end.
Proof.
  induction segs as [|seg segs IH]; intros ess s r s' Hs; cbn [find_segments].
  { inversion Hs; subst. intros [= <- <-] e ?%not_elem_of_nil. done. }
  inversion Hs as [|? es ? ess1 Hseg Hsegs]; subst. unfold bind at 1, openSegment, bind at 1, gets at 1. rewrite (sh_file _ _ _ _ Hseg).
  unfold bind at 1. destruct (calm_syscall s) as [D1 _]. destruct (syscall s) as [[u|e] s1]; [|by intros [= <- <-]]. simpl in D1.
  unfold ret at 1, bind at 1, of_res at 1.
  pose proof (find_frame_exact (o_MaxBytes (w_options w)) payload es (S (length (file_bytes es))) (sh_entries _ _ _ _ Hseg)) as Hf.
  specialize (Hf ltac:(apply Nat.lt_succ_r; eapply length_file_bytes, Hseg)). destruct (find_frame _ _ _ _) as [[f|]|]; [| |done].
  - intros [= <- <-]. eexists. split_and!; [simpl; apply elem_of_app; left; exact Hf | done | done].
  - unfold bind at 1. destruct (calm_syscall s1) as [D2 _]. destruct (syscall s1) as [[u2|e] s2]; [|by intros [= <- <-]]. simpl in D2. intros E.
    apply IH with (ess := ess1) in E; [|by rewrite D2, D1]. destruct r as [[rec|]|]; [| |done].
    + destruct E as (e & He & ?). exists e. split; [|done]. simpl. apply elem_of_app. by right.
    + intros e He. simpl in He. apply elem_of_app in He as [?|?]; auto.
Qed.

Lemma find_segments_calm w payload segs : calm (find_segments w payload segs) /\ same_wal (find_segments w payload segs).
Proof.
  induction segs as [|seg segs [IH1 IH2]]; cbn [find_segments]; [split; auto with calm samewal|]. split.
  - apply calm_log_bind; [auto with calm|]. intros data. apply calm_log_bind; [auto with calm|]. intros [f|]; auto with calm.
  - apply same_wal_bind; [|intros data; apply same_wal_bind; [intros s; done|intros [f|]; [auto with samewal|apply same_wal_bind; auto with samewal]]].
    unfold openSegment. apply same_wal_bind; [auto with samewal|]. intros files. destruct (files !! _); [|auto with samewal].
    apply same_wal_bind; auto with samewal.
Qed.

Lemma find_spec payload o r o' ess : holds (os_sys o) ess -> on_wal (findPayloadLocked payload) o = (r, o') ->
  steady_log o o' /\ os_receipts o' = os_receipts o /\
  match r with
  | Ok (Some rec) => exists e, e ∈ mjoin ess /\ en_payload e = payload /\ rec = record_of (w_agentID (s_wal (os_sys o))) e
  | Ok None => forall e, e ∈ mjoin ess -> en_payload e <> payload
  | Err _ => True
  end.
Proof.
  intros Hh E. apply on_wal_steady in E as (S & R & E).
  - split_and!; [done | done|]. unfold findPayloadLocked, bind, gets in E. eapply find_segments_spec; [apply Hh | exact E].
  - unfold findPayloadLocked. apply calm_log_bind; [auto with calm|]. intros w. apply find_segments_calm.
  - unfold findPayloadLocked. apply same_wal_bind; [auto with samewal|]. intros w. apply find_segments_calm.
Qed.

(** ** What a call does *)

Abbreviation next_of o := (next_cursor (w_meta (s_wal (os_sys o)))).

(** The record a call added, if the next cursor moved. *)
Definition once_new (now : time) (payload : list Z) (o o' : osys) : list entry :=
  if bool_decide (next_of o' = next_of o) then [] else [new_entry (os_sys o) now payload].

Definition completed (rc : onceReceipt) (e : entry) : onceReceipt :=
  mkReceipt (oc_Version rc) (oc_Key rc) (oc_PayloadSHA256 rc) (Some (en_cursor e)) (en_at e).

(** The log after a call: a suffix of what it was, and the record the call added. *)
Definition log_after (now : time) (payload : list Z) (o : osys) (ess : list (list entry)) (o' : osys) : Prop :=
  wal_inv (s_wal (os_sys o')) /\ exists ess' old, holds (os_sys o') ess' /\ old `suffix_of` mjoin ess /\ mjoin ess' = old ++ once_new now payload o o'.

Lemma log_after_steady now payload o ess o' : wal_inv (s_wal (os_sys o)) -> holds (os_sys o) ess -> steady_log o o' -> log_after now payload o ess o'.
Proof.
  intros Hi Hh S. destruct S as (W & ? & ?) eqn:ES. split; [by rewrite W|]. exists ess, (mjoin ess). unfold once_new. rewrite W, bool_decide_eq_true_2, app_nil_r by done.
  split_and!; [by eapply steady_holds | done | done].
Qed.

(** Steps before and after that leave the log alone. *)
Lemma log_after_wrap now payload o o1 o2 o3 ess : steady_log o o1 -> log_after now payload o1 ess o2 -> steady_log o2 o3 -> log_after now payload o ess o3.
Proof.
  intros (W1 & _) (Hi & ess' & old & Hh & Ho & Hj) S3. pose proof S3 as (W3 & _). split; [by rewrite W3|]. exists ess', old.
  split_and!; [by eapply steady_holds | done|]. rewrite Hj. unfold once_new, new_entry. by rewrite W3, W1.
Qed.

Lemma once_new_moved now payload o o' : next_of o' <> next_of o -> once_new now payload o o' = [new_entry (os_sys o) now payload].
Proof. intros H. unfold once_new. by rewrite bool_decide_eq_false_2. Qed.

Lemma append_reserved_spec now rc payload o r o' ess :
  wal_inv (s_wal (os_sys o)) -> holds (os_sys o) ess -> i64_ok now -> append_reserved now rc payload o = (r, o') ->
  log_after now payload o ess o' /\
  ((is_ok r = false /\ os_receipts o' = os_receipts o) \/
   (next_of o' <> next_of o /\ validateOnceReceipt (completed rc (new_entry (os_sys o) now payload)) (oc_Key rc) = true /\
    os_receipts o' = <[onceReceiptName (oc_Key rc) := Some (completed rc (new_entry (os_sys o) now payload))]> (os_receipts o))) /\
  forall rec, r = Ok rec -> rec = record_of (w_agentID (s_wal (os_sys o))) (new_entry (os_sys o) now payload).
Proof.
  intros Hi Hh Ht. unfold append_reserved, bind at 1, on_wal at 1. destruct (appendLocked now payload (os_sys o)) as [r1 s1] eqn:E1.
  pose proof (appendLocked_post _ _ _ _ _ Hi E1) as (Hi1 & _ & _ & Hp1).
  apply (appendLocked_holds _ _ _ _ _ ess) in E1 as (ess1 & old & Hh1 & Ho1 & Hj1); [|done..]. set (o1 := mkOsys s1 (os_receipts o)).
  assert (log_after now payload o ess o1) as Hlog1.
  { split; [done|]. exists ess1, old. split_and!; [done | done|]. rewrite Hj1. f_equal. unfold once_new, o1. simpl. destruct r1 as [[rec serr]|e]; simpl in Hp1.
    - destruct Hp1 as (-> & _ & _ & Hn & _). simpl in Hn. rewrite Hn, bool_decide_eq_false_2; [done|]. intros E. apply (f_equal Seq) in E. simpl in E. lia.
    - rewrite Hp1, bool_decide_eq_true_2; done. }
  destruct r1 as [[rec serr]|e]; [|intros [= <- <-]; split_and!; [done | by left | done]].
  simpl in Hp1. destruct Hp1 as (-> & _ & _ & Hn1 & _). simpl in Hn1.
  destruct serr as [e|]; [intros [= <- <-]; split_and!; [done | by left | done]|]. unfold bind at 1, on_wal at 1. simpl os_sys. simpl os_receipts.
  pose proof (syncLocked_holds _ _ Hh1) as Hh2. destruct (syncLocked_quiet s1 Hi1) as (Hi2 & _ & Hf2).
  destruct (syncLocked s1) as [r2 s2]. simpl in Hi2, Hf2, Hh2. set (o2 := mkOsys s2 (os_receipts o)).
  assert (log_after now payload o ess o2) as Hlog2.
  { split; [done|]. exists ess1, old. split_and!; [done | done|]. rewrite Hj1. unfold once_new, o2. simpl. rewrite (wf_next _ _ Hf2), Hn1.
    rewrite bool_decide_eq_false_2; [done|]. intros E. apply (f_equal Seq) in E. simpl in E. lia. }
  assert (next_of o2 <> next_of o) as Hmoved.
  { unfold o2. simpl. rewrite (wf_next _ _ Hf2), Hn1. intros E. apply (f_equal Seq) in E. simpl in E. lia. }
  destruct r2 as [u|e]; [|intros [= <- <-]; split_and!; [done | by left | done]].
  unfold bind at 1. destruct (saveOnceReceiptLocked _ o2) as [r3 o3] eqn:E3. apply save_spec in E3 as [S3 H3]. simpl in H3.
  assert (log_after now payload o ess o3) as Hlog3 by (eapply log_after_wrap; [reflexivity | exact Hlog2 | exact S3]).
  assert (next_of o3 = next_of o2) as Hn3 by (destruct S3 as (-> & _); done).
  intros E. assert (o' = o3 /\ (is_ok r = true -> is_ok r3 = true) /\ forall x, r = Ok x -> x = mkRecord (w_agentID (s_wal (os_sys o))) (next_of o) now payload) as (-> & Hr & Hrec).
  { destruct r3 as [u3|e3]; injection E as <- <-; split_and!; try done. by intros x [= <-]. }
  split_and!; [done | | done]. destruct H3 as [[H3 H3']|[Hv H3']].
  - left. split; [|done]. destruct r; [|done]. rewrite H3 in Hr. by specialize (Hr eq_refl).
  - right. split_and!; [by rewrite Hn3 | done | done].
Qed.

(** The receipt of the key after a call, and the record returned, by the receipt
    before it. *)
Definition once_spec (now : time) (key : string) (payload : list Z) (o : osys) (ess : list (list entry)) (r : res walErr walRecord) (o' : osys) : Prop :=
  let after := os_receipts o' !! onceReceiptName key in
  let new := new_entry (os_sys o) now payload in
  let returns e := forall rec, r = Ok rec -> rec = record_of (w_agentID (s_wal (os_sys o))) e in
  let absent := forall e, e ∈ mjoin ess -> en_payload e <> payload in
  match os_receipts o !! onceReceiptName key with
  | None =>
    (after = None /\ next_of o' = next_of o /\ is_ok r = false) \/
    (after = Some (Some (reserve key payload)) /\ is_ok r = false) \/
    (after = Some (Some (completed (reserve key payload) new)) /\ next_of o' <> next_of o /\ returns new)
  | Some None => after = Some None /\ next_of o' = next_of o /\ is_ok r = false
  | Some (Some rc) =>
    match oc_Cursor rc with
    | Some c => after = Some (Some rc) /\ next_of o' = next_of o /\
        forall rec, r = Ok rec -> oc_PayloadSHA256 rc = payload_digest payload /\
          rec = mkRecord (w_agentID (s_wal (os_sys o))) c (oc_AppendedAt rc) payload
    | None =>
      (after = Some (Some rc) /\ is_ok r = false /\ (next_of o' = next_of o \/ absent)) \/
      (exists e, e ∈ mjoin ess /\ en_payload e = payload /\ after = Some (Some (completed rc e)) /\ next_of o' = next_of o /\ returns e) \/
      (absent /\ after = Some (Some (completed rc new)) /\ next_of o' <> next_of o /\ returns new)
    end
  end.

Lemma once_spec_nothing now key payload o ess r o' : steady_log o o' -> os_receipts o' = os_receipts o -> is_ok r = false -> once_spec now key payload o ess r o'.
Proof.
  intros (W & _) R Hr. unfold once_spec. cbv zeta. rewrite R, W. destruct (os_receipts o !! _) as [[rc|]|]; auto.
  destruct (oc_Cursor rc); [|left; auto]. split_and!; auto. intros rec ->. done.
Qed.

(** Everything there is to say about a call. *)
Definition once_effect (now : time) (key : string) (payload : list Z) (o : osys) (ess : list (list entry)) (r : res walErr walRecord) (o' : osys) : Prop :=
  log_after now payload o ess o' /\ (forall n, n <> onceReceiptName key -> os_receipts o' !! n = os_receipts o !! n) /\ once_spec now key payload o ess r o'.

Lemma once_effect_nothing now key payload o ess r o' : wal_inv (s_wal (os_sys o)) -> holds (os_sys o) ess -> steady_log o o' ->
  os_receipts o' = os_receipts o -> is_ok r = false -> once_effect now key payload o ess r o'.
Proof. intros Hi Hh S R Hr. split_and!; [by apply log_after_steady | by rewrite R | by apply once_spec_nothing]. Qed.

(** Steps before a call that leave the log and the receipts alone. *)
Lemma once_effect_after now key payload o o1 ess r o' : steady_log o o1 -> os_receipts o1 = os_receipts o ->
  once_effect now key payload o1 ess r o' -> once_effect now key payload o ess r o'.
Proof.
  intros S R (H1 & H2 & H3). pose proof S as (W & _). split_and!; [by eapply log_after_wrap; [exact S | exact H1 | reflexivity] | by rewrite <- R|].
  unfold once_spec, new_entry in *. by rewrite R, W in H3.
Qed.

Lemma resume_effect now key payload rc o r o' ess :
  wal_inv (s_wal (os_sys o)) -> holds (os_sys o) ess -> i64_ok now ->
  os_receipts o !! onceReceiptName key = Some (Some rc) -> oc_Key rc = key ->
  resume_receipt now (w_agentID (s_wal (os_sys o))) rc payload o = (r, o') -> once_effect now key payload o ess r o'.
Proof.
  intros Hi Hh Ht Hl Hk. unfold resume_receipt. case_if; [intros [= <- <-]; by apply once_effect_nothing|]. bool_to_prop.
  destruct (oc_Cursor rc) as [c|] eqn:Ec.
  { intros [= <- <-]. split_and!; [by apply log_after_steady | done|]. unfold once_spec. cbv zeta. rewrite Hl, Ec. split_and!; auto. by intros rec [= <-]. }
  unfold bind at 1. destruct (on_wal (findPayloadLocked payload) o) as [r3 o3] eqn:E3. apply (find_spec _ _ _ _ ess Hh) in E3 as (S3 & R3 & Hfound).
  pose proof S3 as (W3 & _). destruct r3 as [[rec|]|e]; [| |intros [= <- <-]; by apply once_effect_nothing].
  - destruct Hfound as (e & He & Hpe & ->). unfold bind at 1. destruct (saveOnceReceiptLocked _ o3) as [r4 o4] eqn:E4.
    apply save_spec in E4 as [S4 H4]. simpl in H4. assert (steady_log o o4) as S by (by etransitivity). pose proof S as (W4 & _). intros E.
    assert (o' = o4 /\ (is_ok r = true -> is_ok r4 = true) /\ forall x, r = Ok x -> x = record_of (w_agentID (s_wal (os_sys o))) e) as (-> & Hr & Hrec).
    { destruct r4 as [u4|e4]; injection E as <- <-; split_and!; try done. by intros x [= <-]. }
    destruct H4 as [[H4 H4']|[_ H4']].
    { apply once_effect_nothing; [done.. | congruence|]. destruct r; [|done]. rewrite H4 in Hr. by specialize (Hr eq_refl). }
    rewrite R3 in H4'. split_and!; [by apply log_after_steady | intros n Hn; rewrite H4', Hk, lookup_insert_ne; done|].
    unfold once_spec. cbv zeta. rewrite Hl, Ec, H4', Hk, lookup_insert_eq, W4. right. left. exists e. split_and!; auto. by rewrite <- Hk.
  - intros E. apply (append_reserved_spec _ _ _ _ _ _ ess) in E as (Hlog & Hrcpt & Hrec); [| by rewrite W3 | by eapply steady_holds | done].
    apply (once_effect_after _ _ _ _ o3); [done | done|]. split_and!; [done | |].
    + intros n Hn. destruct Hrcpt as [[_ H']|(_ & _ & H')]; rewrite H'; [done|]. by rewrite Hk, lookup_insert_ne.
    + unfold once_spec. cbv zeta. rewrite R3, Hl, Ec. destruct Hrcpt as [[? H']|(? & _ & H')]; rewrite H', ?R3, ?Hk; [left; auto|].
      rewrite lookup_insert_eq. right. right. auto.
Qed.

Lemma reserve_effect now key payload o r o' ess :
  wal_inv (s_wal (os_sys o)) -> holds (os_sys o) ess -> i64_ok now -> os_receipts o !! onceReceiptName key = None ->
  (saveOnceReceiptLocked (reserve key payload) ;;; append_reserved now (reserve key payload) payload) o = (r, o') -> once_effect now key payload o ess r o'.
Proof.
  intros Hi Hh Ht Hnone. unfold bind at 1. destruct (saveOnceReceiptLocked _ o) as [r3 o3] eqn:E3. apply save_spec in E3 as [S3 H3]. simpl in H3.
  pose proof S3 as (W3 & _). destruct r3 as [u3|e3].
  2: { intros [= <- <-]. destruct H3 as [[_ H3]|[_ H3]]; [by apply once_effect_nothing|].
    split_and!; [by apply log_after_steady | intros n Hn; by rewrite H3, lookup_insert_ne|].
    unfold once_spec. cbv zeta. rewrite Hnone, H3, lookup_insert_eq. right. by left. }
  destruct H3 as [[? _]|[_ H3]]; [done|]. intros E.
  apply (append_reserved_spec _ _ _ _ _ _ ess) in E as (Hlog & Hrcpt & Hrec); [| by rewrite W3 | by eapply steady_holds | done].
  assert (new_entry (os_sys o3) now payload = new_entry (os_sys o) now payload) as Hnew3 by (unfold new_entry; by rewrite W3).
  rewrite Hnew3, W3 in Hrcpt. simpl oc_Key in Hrcpt. rewrite Hnew3, W3 in Hrec.
  split_and!; [by eapply log_after_wrap; [exact S3 | exact Hlog | reflexivity] | |].
  - intros n Hn. destruct Hrcpt as [[_ H']|(_ & _ & H')]; rewrite H', ?lookup_insert_ne by done; by rewrite H3, lookup_insert_ne.
  - unfold once_spec. cbv zeta. rewrite Hnone. destruct Hrcpt as [[? H']|(? & _ & H')]; rewrite H', ?H3, !lookup_insert_eq; [right; by left|].
    right. right. auto.
Qed.

Lemma AppendOnce_spec now key payload o r o' ess :
  wal_inv (s_wal (os_sys o)) -> holds (os_sys o) ess -> i64_ok now -> AppendOnce now key payload o = (r, o') -> once_effect now key payload o ess r o'.
Proof.
  intros Hi Hh Ht. unfold AppendOnce. case_if; [intros [= <- <-]; by apply once_effect_nothing|]. unfold bind at 1, gets at 1.
  case_if; [intros [= <- <-]; by apply once_effect_nothing|]. destruct (w_backgroundErr _); [intros [= <- <-]; by apply once_effect_nothing|].
  unfold bind at 1. destruct (on_wal ctxErr o) as [r1 o1] eqn:E1. apply on_wal_steady in E1 as (S1 & R1 & _); [|auto with calm|auto with samewal].
  destruct r1 as [u|e]; [|intros [= <- <-]; by apply once_effect_nothing]. unfold bind at 1. destruct (loadOnceReceiptLocked key o1) as [r2 o2] eqn:E2.
  apply load_spec in E2 as (S2 & R2 & Hnone & Hsome). assert (steady_log o o2) as S by (by etransitivity). pose proof S as (W & _).
  assert (os_receipts o2 = os_receipts o) as R by congruence. rewrite R1 in Hnone, Hsome. rewrite <- R in Hnone, Hsome.
  destruct r2 as [[rc|]|e]; [| |intros [= <- <-]; by apply once_effect_nothing].
  - destruct (Hsome rc eq_refl) as [Hl Hv]. assert (oc_Key rc = key) as Hk by (unfold validateOnceReceipt in Hv; bool_to_prop; done).
    rewrite <- W. intros E. apply (once_effect_after _ _ _ _ o2); [done..|]. eapply resume_effect; try done; [by rewrite W | by eapply steady_holds].
  - intros E. apply (once_effect_after _ _ _ _ o2); [done..|]. apply reserve_effect; auto; [by rewrite W | by eapply steady_holds].
Qed.

(** What the invariant needs of it. *)
Record once_facts (now : time) (key : string) (payload : list Z) (o : osys) (ess : list (list entry)) (r : res walErr walRecord) (o' : osys) : Prop := {
  of_grows : next_of o' <> next_of o -> os_receipts o !! onceReceiptName key = None \/ forall e, e ∈ mjoin ess -> en_payload e <> payload;
  of_done : forall rc c, os_receipts o' !! onceReceiptName key = Some (Some rc) -> oc_Cursor rc = Some c ->
    os_receipts o !! onceReceiptName key = Some (Some rc) \/ mkEntry c (oc_AppendedAt rc) payload ∈ mjoin ess \/
    (next_of o' <> next_of o /\ mkEntry c (oc_AppendedAt rc) payload = new_entry (os_sys o) now payload);
  of_none : os_receipts o' !! onceReceiptName key = None -> os_receipts o !! onceReceiptName key = None /\ next_of o' = next_of o;
  of_result : forall rec, r = Ok rec -> exists rc, os_receipts o' !! onceReceiptName key = Some (Some rc) /\
    oc_Cursor rc = Some (r_Cursor rec) /\ oc_AppendedAt rc = r_AppendedAt rec /\ r_Payload rec = payload;
  of_kept : forall rc c, os_receipts o !! onceReceiptName key = Some (Some rc) -> oc_Cursor rc = Some c ->
    os_receipts o' !! onceReceiptName key = Some (Some rc) /\ next_of o' = next_of o;
}.

(** The receipt was completed for the record [e]. *)
Lemma facts_completed now key payload o ess r o' rc e :
  en_payload e = payload -> os_receipts o' !! onceReceiptName key = Some (Some (completed rc e)) ->
  (forall rc c, os_receipts o !! onceReceiptName key = Some (Some rc) -> oc_Cursor rc <> Some c) ->
  e ∈ mjoin ess /\ next_of o' = next_of o \/
    (next_of o' <> next_of o /\ e = new_entry (os_sys o) now payload /\
     (os_receipts o !! onceReceiptName key = None \/ forall e, e ∈ mjoin ess -> en_payload e <> payload)) ->
  (forall rec, r = Ok rec -> rec = record_of (w_agentID (s_wal (os_sys o))) e) -> once_facts now key payload o ess r o'.
Proof.
  intros Hp Ha Hopen Hcase Hrec. assert (mkEntry (en_cursor e) (en_at e) payload = e) as He by (destruct e; simpl in *; by subst). split.
  - intros Hne. destruct Hcase as [[_ ?]|(_ & _ & ?)]; done.
  - intros rc' c H1 H2. rewrite Ha in H1. injection H1 as <-. simpl in *. injection H2 as <-. rewrite He. right.
    destruct Hcase as [[? _]|(? & ? & _)]; auto.
  - congruence.
  - intros rec H. rewrite (Hrec rec H). by exists (completed rc e).
  - intros rc' c H1 H2. by destruct (Hopen rc' c).
Qed.

Lemma once_spec_facts now key payload o ess r o' : once_spec now key payload o ess r o' -> once_facts now key payload o ess r o'.
Proof.
  assert (is_ok r = false -> forall rec, r <> Ok rec) as Herr by (intros; by destruct r).
  unfold once_spec. cbv zeta. destruct (os_receipts o !! onceReceiptName key) as [[rc|]|] eqn:El.
  - destruct (oc_Cursor rc) as [c|] eqn:Ec.
    + intros (Ha & Hn & Hrec). split; rewrite ?El, ?Ha; try congruence; try done.
      * intros rc' c' [= <-] H. by left.
      * intros rec Hr. destruct (Hrec rec Hr) as [_ ->]. by exists rc.
    + assert (forall rc' c, os_receipts o !! onceReceiptName key = Some (Some rc') -> oc_Cursor rc' <> Some c) as Hopen by congruence.
      intros [(Ha & Hok & Hno)|[(e & He & Hpe & Ha & Hn & Hrec)|(Hno & Ha & Hn & Hrec)]].
      * split; rewrite ?El, ?Ha; try congruence; [by destruct Hno; auto | intros rec Hr; by destruct (Herr Hok rec)].
      * eapply facts_completed; [exact Hpe | exact Ha | exact Hopen | by left | exact Hrec].
      * eapply (facts_completed _ _ _ _ _ _ _ _ (new_entry (os_sys o) now payload)); [done | exact Ha | exact Hopen | right; split_and!; auto | exact Hrec].
  - intros (Ha & Hn & Hok). split; rewrite ?El, ?Ha; try congruence; try done. intros rec Hr. by destruct (Herr Hok rec).
  - assert (forall rc' c, os_receipts o !! onceReceiptName key = Some (Some rc') -> oc_Cursor rc' <> Some c) as Hopen by congruence.
    intros [(Ha & Hn & Hok)|[(Ha & Hok)|(Ha & Hn & Hrec)]].
    + split; rewrite ?El, ?Ha; try congruence; try done. intros rec Hr. by destruct (Herr Hok rec).
    + split; rewrite ?El, ?Ha; try congruence; try done; [by left | by intros rc' c [= <-] | intros rec Hr; by destruct (Herr Hok rec)].
    + eapply (facts_completed _ _ _ _ _ _ _ _ (new_entry (os_sys o) now payload)); [done | exact Ha | exact Hopen | right; split_and!; auto | exact Hrec].
Qed.

(** ** Lives of a key

    The lives of a log in which the key is used for one payload, which no one else
    appends, and its receipt is not forgotten: the state, the records ever
    appended, and the records the calls for the key returned. *)

Section Life.
Context (key : string) (payload : list Z).
Abbreviation name := (onceReceiptName key).

Inductive once_life : osys -> list entry -> list walRecord -> Prop :=
| once_open agentID inc options defaults now s s' receipts :
    disk_ok (s_disk s) -> u64_ok inc -> Forall atomic (s_outcomes s) ->
    (forall p, is_segment_file p = true -> d_files (s_disk s) !! p = None) -> receipts !! name = None ->
    Open agentID inc options defaults now s = (Ok tt, s') -> once_life (mkOsys s' receipts) [] []
| once_op op o es rs :
    once_life o es rs -> op_ok op -> op_time op -> (forall now, op <> OpAppend now payload) ->
    once_life (mkOsys (op_run op (os_sys o)) (os_receipts o)) (es ++ op_appends op (os_sys o)) rs
| once_call now o es rs r o' :
    once_life o es rs -> i64_ok now -> AppendOnce now key payload o = (r, o') ->
    once_life o' (es ++ once_new now payload o o') (rs ++ match r with Ok rec => [rec] | Err _ => [] end)
| once_other now key' payload' o es rs r o' :
    once_life o es rs -> i64_ok now -> onceReceiptName key' <> name -> payload' <> payload ->
    AppendOnce now key' payload' o = (r, o') -> once_life o' (es ++ once_new now payload' o o') rs
| once_forget key' o es rs r o' :
    once_life o es rs -> onceReceiptName key' <> name -> ForgetOnce key' o = (r, o') -> once_life o' es rs
| once_reopen agentID inc options defaults now o es rs s1 s' :
    once_life o es rs -> disk_ok (s_disk (os_sys o)) -> u64_ok inc -> s_disk s1 = s_disk (os_sys o) -> Forall atomic (s_outcomes s1) ->
    o_MaxBytes (w_options (s_wal (os_sys o))) <= o_MaxBytes (normalizeOptions options defaults) ->
    Open agentID inc options defaults now s1 = (Ok tt, s') -> once_life (mkOsys s' (os_receipts o)) es rs.

(** The number of records with the payload. *)
Definition copies (l : list entry) : nat := length (filter (fun e => en_payload e = payload) l).

Lemma copies_app l1 l2 : copies (l1 ++ l2) = (copies l1 + copies l2)%nat.
Proof. unfold copies. by rewrite filter_app, length_app. Qed.
Lemma copies_suffix l1 l2 : l1 `suffix_of` l2 -> (copies l1 <= copies l2)%nat.
Proof. intros [k ->]. rewrite copies_app. lia. Qed.
Lemma copies_absent l : (forall e, e ∈ l -> en_payload e <> payload) -> copies l = 0%nat.
Proof.
  intros H. unfold copies. induction l as [|e l IH]; [done|]. rewrite filter_cons, decide_False by (apply H; by left).
  apply IH. intros x Hx. apply H. by right.
Qed.
Lemma copies_other now p s : p <> payload -> copies [new_entry s now p] = 0%nat.
Proof. intros Hp. apply copies_absent. intros e ->%list_elem_of_singleton. done. Qed.
Lemma copies_once_new now p o o' : (copies (once_new now p o o') <= 1)%nat /\ (p <> payload -> copies (once_new now p o o') = 0%nat).
Proof.
  unfold once_new. case_if; [change (copies []) with 0%nat; split; [lia | done]|]. split; [|by apply copies_other]. unfold copies. etransitivity; [apply length_filter | done].
Qed.

Record once_inv (o : osys) (es : list entry) (rs : list walRecord) : Prop := {
  oi_wal : wal_inv (s_wal (os_sys o));
  oi_log : exists ess, holds (os_sys o) ess /\ mjoin ess `suffix_of` es /\ (copies (mjoin ess) <= 1)%nat /\
    (os_receipts o !! name = None -> copies (mjoin ess) = 0%nat);
  oi_done : forall rc c, os_receipts o !! name = Some (Some rc) -> oc_Cursor rc = Some c -> mkEntry c (oc_AppendedAt rc) payload ∈ es;
  oi_results : forall r, r ∈ rs -> exists rc, os_receipts o !! name = Some (Some rc) /\ oc_Cursor rc = Some (r_Cursor r) /\
    oc_AppendedAt rc = r_AppendedAt r /\ r_Payload r = payload;
}.

(** A change of the log that adds at most records with other payloads. *)
Lemma once_inv_other o es rs o' new :
  once_inv o es rs -> os_receipts o' !! name = os_receipts o !! name -> wal_inv (s_wal (os_sys o')) -> copies new = 0%nat ->
  (forall ess, holds (os_sys o) ess -> exists ess' old, holds (os_sys o') ess' /\ old `suffix_of` mjoin ess /\ mjoin ess' = old ++ new) ->
  once_inv o' (es ++ new) rs.
Proof.
  intros [Hi (ess & Hh & Hs & Hc1 & Hc2) Hd Hr] En Hi' Hnew Hlog. destruct (Hlog ess Hh) as (ess' & old & Hh' & Ho & Hj).
  pose proof (copies_suffix _ _ Ho) as Hle. assert (copies (mjoin ess') = copies old) as Hcp by (rewrite Hj, copies_app; lia). split; rewrite ?En; auto.
  - exists ess'. split_and!; [done | rewrite Hj; apply suffix_snoc; by etransitivity | lia|]. intros Hnone. specialize (Hc2 Hnone). lia.
  - intros rc c H1 H2. apply elem_of_app. left. by apply (Hd rc c).
Qed.

Lemma once_inv_call now o es rs r o' :
  once_inv o es rs -> i64_ok now -> AppendOnce now key payload o = (r, o') ->
  once_inv o' (es ++ once_new now payload o o') (rs ++ match r with Ok rec => [rec] | Err _ => [] end).
Proof.
  intros [Hi (ess & Hh & Hs & Hc1 & Hc2) Hd Hr] Ht E.
  destruct (AppendOnce_spec _ _ _ _ _ _ ess Hi Hh Ht E) as ((Hi' & ess' & old & Hh' & Ho & Hj) & _ & [F1 F2 F3 F4 F5]%once_spec_facts).
  pose proof (copies_suffix _ _ Ho) as Hle. assert (copies (mjoin ess') = copies old + copies (once_new now payload o o'))%nat as Hcp by (by rewrite Hj, copies_app).
  assert (next_of o' = next_of o -> copies (once_new now payload o o') = 0%nat) as Hnew0.
  { intros En. unfold once_new. by rewrite bool_decide_eq_true_2. }
  split; auto.
  - exists ess'. split_and!; [done | rewrite Hj; apply suffix_snoc; by etransitivity | |].
    + destruct (decide (next_of o' = next_of o)) as [En|Hne]; [specialize (Hnew0 En); lia|]. pose proof (proj1 (copies_once_new now payload o o')).
      destruct (F1 Hne) as [Hnone|Habs]; [specialize (Hc2 Hnone); lia|]. apply copies_absent in Habs. lia.
    + intros Hnone. destruct (F3 Hnone) as [Hnone' En]. specialize (Hnew0 En). specialize (Hc2 Hnone'). lia.
  - intros rc c Hrc Hc. apply elem_of_app. destruct (F2 rc c Hrc Hc) as [Hsame|[Hin|[Hne Hnew]]].
    + left. by apply (Hd rc).
    + left. destruct Hs as [k ->]. apply elem_of_app. by right.
    + right. rewrite once_new_moved by done. rewrite Hnew. by left.
  - intros x [Hx|Hx]%elem_of_app.
    + destruct (Hr x Hx) as (rc & H1 & H2 & H3). exists rc. destruct (F5 rc _ H1 H2) as [-> _]. done.
    + destruct r as [rec|]; [|by apply elem_of_nil in Hx]. apply list_elem_of_singleton in Hx as ->. by apply F4.
Qed.

Lemma forget_spec key' o r o' : ForgetOnce key' o = (r, o') -> onceReceiptName key' <> name ->
  steady_log o o' /\ os_receipts o' !! name = os_receipts o !! name.
Proof.
  intros E Hne. revert E. unfold ForgetOnce. case_if; [by intros [= <- <-]|]. unfold bind at 1, gets at 1. case_if; [by intros [= <- <-]|].
  unfold bind at 1. destruct (on_wal syscall o) as [r1 o1] eqn:E1. apply on_wal_steady in E1 as (S1 & R1 & _); [|auto with calm|auto with samewal].
  destruct r1 as [u|e]; [|intros [= <- <-]; by rewrite R1]. unfold bind at 1, modify at 1. intros E2.
  apply on_wal_steady in E2 as (S2 & R2 & _); [|auto with calm|auto with samewal]. split; [etransitivity; [exact S1 | exact S2]|].
  rewrite R2. simpl. by rewrite lookup_delete_ne, R1.
Qed.

Lemma once_life_inv o es rs : once_life o es rs -> once_inv o es rs.
Proof.
  induction 1 as [agentID inc options defaults now s s' receipts Hd Hinc Hat Hnone Hr E | op o es rs Hl IH Hok Ht Hop | now o es rs r o' Hl IH Ht E
    | now key' payload' o es rs r o' Hl IH Ht Hk Hp E | key' o es rs r o' Hl IH Hk E | agentID inc options defaults now o es rs s1 s' Hl IH Hd Hinc Hds Hat Hmax E].
  - destruct (log_life_intact s' [] ltac:(by eapply life_open)) as (ess & Hi & Hh & Hs). pose proof Hs as Hnil. apply suffix_nil_inv in Hnil.
    split; simpl; [done | | congruence | by intros r ?%elem_of_nil]. exists ess. rewrite Hnil. by split_and!; try (unfold copies; simpl; lia).
  - apply (once_inv_other o); [done | done | by apply op_run_inv; [|apply IH] | |].
    + destruct op; try done. simpl. case_match; [|done]. apply copies_other. intros ->. by apply (Hop now).
    + intros ess Hh. destruct (op_run_holds op _ ess (oi_wal _ _ _ IH) Hh Ht) as (ess' & old & ? & ? & ?). by exists ess', old.
  - by apply (once_inv_call now).
  - pose proof (oi_wal _ _ _ IH) as Hi. destruct (oi_log _ _ _ IH) as (ess0 & Hh0 & _).
    destruct (AppendOnce_spec _ _ _ _ _ _ ess0 Hi Hh0 Ht E) as ((Hi' & _) & Hn & _).
    apply (once_inv_other o); [done | by apply Hn | done | by apply copies_once_new|].
    intros ess Hh. by destruct (AppendOnce_spec _ _ _ _ _ _ ess Hi Hh Ht E) as ((_ & ?) & _).
  - destruct (forget_spec _ _ _ _ E Hk) as [S R]. pose proof S as (W & _). rewrite <- (app_nil_r es).
    apply (once_inv_other o); [done | done | rewrite W; apply IH | done|].
    intros ess Hh. exists ess, (mjoin ess). rewrite app_nil_r. split_and!; [by eapply steady_holds | done | done].
  - rewrite <- (app_nil_r es). pose proof E as E'. apply Open_sound in E' as (Hi' & _); [|by rewrite Hds|done].
    apply (once_inv_other o); [done | done | done | done|]. intros ess Hh.
    apply (Open_holds _ _ _ _ _ (os_sys o) _ _ ess) in E as (ess' & Hh' & Hs'); try done; [|apply IH | by rewrite Hds].
    exists ess', (mjoin ess'). by rewrite app_nil_r.
Qed.

(** A call appends only when the log holds no copy. *)
Lemma once_absent o es rs now r o' : once_inv o es rs -> i64_ok now -> AppendOnce now key payload o = (r, o') ->
  once_new now payload o o' = [] \/ copies (contents (os_sys o)) = 0%nat.
Proof.
  intros [Hi (ess & Hh & Hs & Hc & Hc') Hd Hr] Ht E. rewrite (holds_contents _ _ Hh).
  destruct (AppendOnce_spec _ _ _ _ _ _ ess Hi Hh Ht E) as (_ & _ & Hf%once_spec_facts).
  unfold once_new. case_bool_decide as Hn; [by left|]. right. destruct (of_grows _ _ _ _ _ _ _ Hf Hn) as [Hnone|Habs]; [auto | by apply copies_absent].
Qed.

(** After a success no call appends. *)
Lemma once_settled o es x rs now r o' : once_life o es (x :: rs) -> i64_ok now -> AppendOnce now key payload o = (r, o') -> once_new now payload o o' = [].
Proof.
  intros [Hi (ess & Hh & Hs & Hc & Hc') Hd Hr]%once_life_inv Ht E. destruct (Hr x ltac:(by left)) as (rc & H1 & H2 & _).
  destruct (AppendOnce_spec _ _ _ _ _ _ ess Hi Hh Ht E) as (_ & _ & Hf%once_spec_facts).
  destruct (of_kept _ _ _ _ _ _ _ Hf rc _ H1 H2) as [_ Hn]. unfold once_new. by rewrite bool_decide_eq_true_2.
Qed.
End Life.

(** [C3] A payload is appended at most once per key. Over any life of a log - any
    operations, other keys, failing calls (a failing write writing nothing),
    crashes anywhere and reopenings with a size limit not smaller - in which the
    key is used for this payload only, its receipt is not forgotten and no one else
    appends the payload: the log never holds two records with the payload, and a
    call appends only when it holds none; all successful calls return the same
    cursor and time, that record was appended to the log, and after the first
    success no call for the key appends anything, also when retention has removed
    the record meanwhile. Before a first success a record that has left the log is
    appended again ([append_once_again]). *)
Theorem append_once key payload o es rs : once_life key payload o es rs ->
  (copies payload (contents (os_sys o)) <= 1)%nat /\
  (forall now r o', i64_ok now -> AppendOnce now key payload o = (r, o') ->
     once_new now payload o o' = [] \/ copies payload (contents (os_sys o)) = 0%nat) /\
  (forall r1 r2, r1 ∈ rs -> r2 ∈ rs -> r_Cursor r1 = r_Cursor r2 /\ r_AppendedAt r1 = r_AppendedAt r2) /\
  (forall r, r ∈ rs -> r_Payload r = payload /\ mkEntry (r_Cursor r) (r_AppendedAt r) payload ∈ es) /\
  (rs <> [] -> forall now r o', i64_ok now -> AppendOnce now key payload o = (r, o') -> once_new now payload o o' = []).
Proof.
  intros Hl. pose proof (once_life_inv _ _ _ _ _ Hl) as Hinv. pose proof Hinv as [Hi (ess & Hh & Hs & Hc & Hc') Hd Hr]. split_and!.
  - by rewrite (holds_contents _ _ Hh).
  - intros now r o' Ht E. by eapply once_absent.
  - intros r1 r2 (rc1 & H1 & H2 & H3 & _)%Hr (rc2 & H4 & H5 & H6 & _)%Hr. rewrite H1 in H4. injection H4 as <-. split; congruence.
  - intros r (rc & H1 & H2 & H3 & H4)%Hr. split; [done|]. rewrite <- H3. by apply (Hd rc).
  - intros Hne now r o' Ht E. destruct rs as [|x rs]; [done|]. by eapply once_settled.
Qed.

(** ** A delivery that is repeated *)

Definition once_key : string := "managed-operation:op".
Definition once_payload : list Z := [123; 125].

(** The fsync of the first call fails, after its record is written. *)
Definition once_start : osys := mkOsys (Open "agent" 1 demo_options demo_options 0 (demo_start (replicate 26 None ++ [Some 0%nat]))).2 ∅.
Definition once_first := AppendOnce 1 once_key once_payload once_start.
Definition once_second := AppendOnce 2 once_key once_payload once_first.2.
Definition once_third := AppendOnce 3 once_key once_payload once_second.2.

Lemma append_once_witness :
  let results := [mkRecord "agent" (mkCursor 1 1) 1 once_payload; mkRecord "agent" (mkCursor 1 1) 1 once_payload] in
  once_first.1 = Err ErrIO /\ once_second.1 = Ok (mkRecord "agent" (mkCursor 1 1) 1 once_payload) /\
  contents (os_sys once_third.2) = [mkEntry (mkCursor 1 1) 1 once_payload] /\
  (copies once_payload (contents (os_sys once_third.2)) <= 1)%nat /\
  exists es, once_life once_key once_payload once_third.2 es results /\ mkEntry (mkCursor 1 1) 1 once_payload ∈ es.
Proof.
  cbv zeta. split; [vm_compute; reflexivity|]. split; [vm_compute; reflexivity|]. split; [vm_compute; reflexivity|].
  assert (once_life once_key once_payload once_start [] []) as H0.
  { apply (once_open once_key once_payload "agent" 1 demo_options demo_options 0 (demo_start (replicate 26 None ++ [Some 0%nat])));
      [split; [apply map_Forall_empty | done] | done | | done | done | vm_compute; reflexivity].
    repeat (constructor; [by (left + right)|]). constructor. }
  pose proof (once_call _ _ 1 _ _ _ once_first.1 once_first.2 H0 ltac:(done) (surjective_pairing once_first)) as H1.
  pose proof (once_call _ _ 2 _ _ _ once_second.1 once_second.2 H1 ltac:(done) (surjective_pairing once_second)) as H2.
  pose proof (once_call _ _ 3 _ _ _ once_third.1 once_third.2 H2 ltac:(done) (surjective_pairing once_third)) as H3.
  assert (once_first.1 = Err ErrIO) as R1 by (vm_compute; reflexivity).
  assert (once_second.1 = Ok (mkRecord "agent" (mkCursor 1 1) 1 once_payload)) as R2 by (vm_compute; reflexivity).
  assert (once_third.1 = Ok (mkRecord "agent" (mkCursor 1 1) 1 once_payload)) as R3 by (vm_compute; reflexivity).
  rewrite R1, R2, R3 in H3. clear R1 R2 R3.
  destruct (append_once _ _ _ _ _ H3) as (Hc & _ & _ & Hin & _). split; [exact Hc|]. eexists. split; [exact H3|]. apply (Hin (mkRecord "agent" (mkCursor 1 1) 1 once_payload)). by left.
Defined.

(** The second call completes the receipt although the record it found has never
    been synced: the batch is still pending and nothing is durable. *)
Lemma receipt_before_sync :
  once_first.1 = Err ErrIO /\ once_second.1 = Ok (mkRecord "agent" (mkCursor 1 1) 1 once_payload) /\
  (exists rc, os_receipts once_second.2 !! onceReceiptName once_key = Some (Some rc) /\ oc_Cursor rc = Some (mkCursor 1 1)) /\
  m_DurableThrough (w_meta (s_wal (os_sys once_second.2))) = None /\
  (a_pending <$> w_active (s_wal (os_sys once_second.2))) = Some 34.
Proof.
  split; [vm_compute; reflexivity|]. split; [vm_compute; reflexivity|]. split; [|split; vm_compute; reflexivity].
  eexists. split; vm_compute; reflexivity.
Qed.

(** A payload that is appended twice: the receipt could not be completed after the
    record was written and synced, the Server acknowledged the record and its
    segment was deleted, and the call for the same key appends the payload again. *)
Definition again_start : osys :=
  mkOsys (op_run (OpRebind "A") (Open "agent" 1 demo_options demo_options 0 (demo_start (replicate 46 None ++ [Some 0%nat]))).2) ∅.
Definition again_first := AppendOnce 1 once_key once_payload again_start.
Definition again_acked : osys := mkOsys (op_run (OpAck "A" (mkCursor 1 1) 0) (os_sys again_first.2)) (os_receipts again_first.2).
Definition again_second := AppendOnce 2 once_key once_payload again_acked.

Lemma append_once_again :
  again_first.1 = Err ErrIO /\ contents (os_sys again_first.2) = [mkEntry (mkCursor 1 1) 1 once_payload] /\
  contents (os_sys again_acked) = [] /\ again_second.1 = Ok (mkRecord "agent" (mkCursor 1 2) 2 once_payload) /\
  contents (os_sys again_second.2) = [mkEntry (mkCursor 1 2) 2 once_payload].
Proof. split_and!; vm_compute; reflexivity. Qed.
