(* ===== verification/WalProgress.v ===== *)
(** * Audit WAL: appends that succeed

    When the calls of the operating system work, the log is open and has room, and
    retention has nothing to delete, an append and an append under a key succeed:
    no check of the log refuses what the log itself has written. *)

From S2P Require Import Prelude Cursor WalFrame WalMeta WalNames Wal WalInv WalProps WalOpen WalSpec WalDisk GoText WalOnce.

(** ** Calls that work *)

Lemma syscall_runs s : s_outcomes s = [] -> syscall s = (Ok tt, s).
Proof. intros H. unfold syscall, bind, next_outcome. by rewrite H. Qed.
Lemma ctxErr_runs s : s_outcomes s = [] -> ctxErr s = (Ok tt, s).
Proof. intros H. unfold ctxErr, bind, next_outcome. by rewrite H. Qed.
Lemma syncDirectory_runs s : s_outcomes s = [] -> syncDirectory s = (Ok tt, s).
Proof. intros H. unfold syncDirectory, bind. by rewrite !syscall_runs. Qed.
Lemma saveMetadata_runs m s : validateMetadata m = true -> s_outcomes s = [] ->
  saveMetadata m s = (Ok tt, upd_disk (fun d => mkDisk (Some m) (d_files d)) s).
Proof.
  intros Hv H. unfold saveMetadata. rewrite Hv. cbn [negb]. do 6 (unfold bind at 1; rewrite syscall_runs by done). unfold bind, modify. by apply syncDirectory_runs.
Qed.

(** ** Syncing a batch *)

(** A segment with records can be synced: its last cursor is the last assigned. *)
Lemma sync_valid w seg : wal_inv w -> active_segment w = Some seg -> 0 < seg_bytes seg ->
  validateMetadata (m_set_durable (Some (seg_last seg)) (w_meta w)) = true.
Proof.
  intros Hi Ea Hb. destruct (active_segment_inv _ _ Hi Ea) as (a & pre & _ & Hs & _ & _ & [(_ & ? & _)|(_ & _ & Hin & Hla)]); [lia|].
  assert (seg_ok seg) as Hok by (pose proof (wi_segs _ Hi) as H; rewrite Hs in H; apply Forall_app in H as [_ H]; by inversion H).
  apply validateMetadata_iff; [by apply durable_meta_u64; [apply Hok | apply Hi]|].
  destruct (wi_meta _ Hi) as (V1 & V2 & V3 & V4 & V5 & V6 & V7 & V8 & V9 & V10). split_and!; try done; simpl.
  - intros x [= <-]. by apply V5.
  - unfold counters_valid in *. simpl. rewrite Hla in *. destruct V8 as (? & ? & _ & ?). split_and!; try done. intros x [= <-]. reflexivity.
Qed.

Lemma syncLocked_runs s : wal_inv (s_wal s) -> s_outcomes s = [] -> (forall seg, active_segment (s_wal s) = Some seg -> 0 < seg_bytes seg) ->
  exists s', syncLocked s = (Ok tt, s') /\ s_outcomes s' = [].
Proof.
  intros Hi Ho Hb. unfold syncLocked, bind at 1, gets at 1. destruct (active_segment (s_wal s)) as [seg|] eqn:Ea; [|eauto].
  unfold bind at 1. rewrite syscall_runs by done. unfold bind at 1, modify at 1, bind at 1, gets at 1, bind at 1, attempt.
  rewrite saveMetadata_runs by (done || by apply sync_valid; auto). unfold bind at 1, modify at 1. eexists. split; [by apply syscall_runs | done].
Qed.

(** ** Appending *)

(** The log takes a frame of [n] bytes at [now]: it is open, the calls work, a
    cursor is left, there is room, retention has nothing to delete and no file is
    in the way of a new segment. *)
Record log_accepts (now : time) (n : Z) (s : sys) : Prop := {
  ac_open : w_closed (s_wal s) = false;
  ac_error : w_backgroundErr (s_wal s) = None;
  ac_calls : s_outcomes s = [];
  ac_cursor : m_NextSeq (w_meta (s_wal s)) <> max_u64;
  ac_room : w_totalBytes (s_wal s) + n <= o_MaxBytes (w_options (s_wal s));
  ac_retention : exists freed, enforceRetentionLocked now n s = (Ok freed, s);
  ac_clear : w_active (s_wal s) = None -> d_files (s_disk s) !! segmentName (next_cursor (w_meta (s_wal s))) = None;
}.

Lemma createActive_runs now s : s_outcomes s = [] -> d_files (s_disk s) !! segmentName (next_cursor (w_meta (s_wal s))) = None ->
  exists s', createActiveLocked (next_cursor (w_meta (s_wal s))) now s = (Ok tt, s') /\ s_wal s' = with_fresh (s_wal s) now /\ s_outcomes s' = [].
Proof.
  intros Ho Hn. unfold createActiveLocked, bind at 1. rewrite syscall_runs by done. unfold bind at 1, gets at 1.
  rewrite bool_decide_eq_false_2 by (rewrite Hn; by intros [? ?]). unfold bind at 1, modify at 1, bind at 1, attempt. rewrite syscall_runs by done.
  eexists. split_and!; [reflexivity | done | done].
Qed.

(** A segment that has just been written to has records. *)
Lemma active_grown w now n a : wal_inv w -> w_active w = Some a -> m_NextSeq (w_meta w) <> max_u64 -> 0 < n ->
  forall seg, active_segment (record_append (next_cursor (w_meta w)) now n w) = Some seg -> 0 < seg_bytes seg.
Proof.
  intros Hi Ha Hne Hn seg. destruct (record_append_inv w now n Hi ltac:(by rewrite Ha) Hne Hn) as (Hi2 & _). set (w2 := record_append _ _ _ _) in *.
  pose proof (wi_active _ Hi) as Hact. unfold active_ok in Hact. rewrite Ha in Hact. destruct Hact as (pre & seg0 & Es & Hp & _).
  pose proof (wi_segs _ Hi) as Hok. pose proof (wi_order _ Hi) as Hord. rewrite Es in Hok, Hord.
  assert (w_segments w2 = pre ++ [grow_segment (next_cursor (w_meta w)) now n seg0]) as Es2.
  { unfold w2, record_append. rewrite Ha. simpl. rewrite Es. by apply grow_map. }
  assert (w_active w2 = Some (mkActive (a_path a) (a_pending a + n))) as Ha2 by (unfold w2, record_append; by rewrite Ha).
  destruct (active_last _ _ _ _ Hi2 Ha2 Es2 ltac:(done)) as [-> _]. intros [= <-]. simpl.
  apply Forall_app in Hok as [_ Hok]. inversion Hok as [|? ? Hseg _]; subst. pose proof (so_bytes _ Hseg). lia.
Qed.

(** The write, and the sync of a batch that is large enough. *)
Lemma write_frame_runs now payload frame a s : wal_inv (s_wal s) -> s_outcomes s = [] -> w_active (s_wal s) = Some a ->
  m_NextSeq (w_meta (s_wal s)) <> max_u64 -> 0 < lenZ frame ->
  exists s', write_frame (next_cursor (w_meta (s_wal s))) now payload frame a s =
    (Ok (mkRecord (w_agentID (s_wal s)) (next_cursor (w_meta (s_wal s))) now payload, None), s') /\ s_outcomes s' = [] /\
    (forall seg, active_segment (s_wal s') = Some seg -> 0 < seg_bytes seg).
Proof.
  intros Hi Ho Ha Hne Hn. unfold write_frame, bind at 1, gets at 1, bind at 1, writeFull, bind at 1, next_outcome. rewrite Ho. unfold bind at 1, modify at 1, ret at 1.
  unfold bind at 1, modify at 1. cbv zeta. unfold bind at 1, gets at 1. set (s2 := upd_wal _ _). assert (s_outcomes s2 = []) as Ho2 by done.
  assert (s_wal s2 = record_append (next_cursor (w_meta (s_wal s))) now (lenZ frame) (s_wal s)) as W2 by done.
  destruct (record_append_inv (s_wal s) now (lenZ frame) Hi ltac:(by rewrite Ha) Hne Hn) as (Hi2 & _). rewrite <- W2 in Hi2. clearbody s2.
  assert (forall seg, active_segment (s_wal s2) = Some seg -> 0 < seg_bytes seg) as Hb by (rewrite W2; by apply (active_grown _ _ _ a)).
  destruct (w_active (s_wal s2)) as [a2|] eqn:Ea2; [|eauto]. case_if; [|eauto].
  unfold bind, attempt. destruct (syncLocked_runs s2 Hi2 Ho2 Hb) as (s3 & E3 & Ho3). rewrite E3. eexists. split_and!; [reflexivity | done|].
  intros seg Hseg. pose proof (syncLocked_ok _ _ _ Hi2 E3 eq_refl) as Hnone. unfold active_segment in Hseg. by rewrite Hnone in Hseg.
Qed.

Lemma encode_runs c now payload : 24 + lenZ payload < 2 ^ 32 -> exists frame, encodeFrame c now payload = Ok frame /\ lenZ frame = 32 + lenZ payload.
Proof.
  intros H. destruct (encodeFrame c now payload) as [frame|] eqn:E; [exists frame; split; [done|]; apply encodeFrame_inv in E; lia|].
  exfalso. revert E. unfold encodeFrame. unfold envelopeHeaderBytes. case_if; [|done]. bool_to_prop. lia.
Qed.

Lemma append_runs now payload s : wal_inv (s_wal s) -> 24 + lenZ payload < 2 ^ 32 -> log_accepts now (32 + lenZ payload) s ->
  exists s', appendLocked now payload s = (Ok (record_of (w_agentID (s_wal s)) (new_entry s now payload), None), s') /\ s_outcomes s' = [] /\
    forall seg, active_segment (s_wal s') = Some seg -> 0 < seg_bytes seg.
Proof.
  intros Hi Hlen [Hcl Hbg Ho Hne Hroom [freed Hret] Hclear]. unfold appendLocked, bind at 1, gets at 1. rewrite Hcl, Hbg. unfold bind at 1. rewrite ctxErr_runs by done.
  cbv zeta. fold (next_cursor (w_meta (s_wal s))). change (Seq (next_cursor (w_meta (s_wal s)))) with (m_NextSeq (w_meta (s_wal s))).
  replace (m_NextSeq (w_meta (s_wal s)) =? max_u64) with false by lia.
  assert (0 <= w_totalBytes (s_wal s)) as Ht.
  { rewrite (wi_total _ Hi). pose proof (wi_segs _ Hi) as H. clear -H. induction H as [|x l Hx _ IH]; [done|]. unfold sum_by in *; simpl. pose proof (so_bytes _ Hx). lia. }
  replace (lenZ payload >? maxPayloadBytes _) with false.
  2: { symmetry. unfold maxPayloadBytes, envelopeHeaderBytes. cbv zeta. repeat case_if; bool_to_prop; lia. }
  destruct (encode_runs (next_cursor (w_meta (s_wal s))) now payload Hlen) as (frame & -> & Hn). replace (lenZ frame >? _) with false by lia.
  pose proof (lenZ_nonneg payload). unfold bind at 1, make_room. replace (bool_decide _ && _)%bool with false by (symmetry; apply andb_false_iff; right; lia).
  unfold bind at 1, ret at 1, bind at 1. rewrite Hn, Hret. unfold ret at 1, bind at 1, gets at 1. destruct (w_active (s_wal s)) as [a|] eqn:Ea.
  - unfold bind at 1, ret at 1, bind at 1, gets at 1. rewrite Ea. apply write_frame_runs; try done. lia.
  - destruct (createActive_runs now s Ho (Hclear eq_refl)) as (s1 & E1 & W1 & Ho1). unfold bind at 1. rewrite E1. unfold bind at 1, gets at 1.
    destruct (with_fresh_quiet (s_wal s) now Ea Hcl Hi) as (Hi1 & _). rewrite W1. cbn [w_active with_fresh set_active]. rewrite <- W1 in Hi1.
    unfold record_of, new_entry. simpl. change (w_agentID (s_wal s)) with (w_agentID (with_fresh (s_wal s) now)).
    change (next_cursor (w_meta (s_wal s))) with (next_cursor (w_meta (with_fresh (s_wal s) now))). rewrite <- W1.
    apply write_frame_runs; try done; [by rewrite W1 | by rewrite W1 | lia].
Qed.

(** ** Appending under a key *)

Lemma payload_digest_text payload : digest_text (payload_digest payload) = true.
Proof.
  unfold digest_text, payload_digest. rewrite hex_encode_lower by apply Sum256_range. rewrite andb_true_r. apply Z.eqb_eq.
  unfold strlen. rewrite hex_encode_length, Sum256_length. done.
Qed.

Lemma save_runs rc o : s_outcomes (os_sys o) = [] -> validateOnceReceipt rc (oc_Key rc) = true ->
  saveOnceReceiptLocked rc o = (Ok tt, mkOsys (os_sys o) (<[onceReceiptName (oc_Key rc) := Some rc]> (os_receipts o))).
Proof.
  intros Ho Hv. unfold saveOnceReceiptLocked. rewrite Hv. cbn [negb]. unfold bind at 1, on_wal at 1.
  do 5 (unfold bind at 1; rewrite syscall_runs by done). rewrite syscall_runs by done. unfold bind at 1, modify at 1, on_wal. simpl. by rewrite syncDirectory_runs.
Qed.

Lemma receipt_valid key payload c at_ : validOnceKey key = true -> is_zero at_ = false -> Incarnation c <> 0 -> Seq c <> 0 ->
  validateOnceReceipt (mkReceipt onceReceiptVersion key (payload_digest payload) (Some c) at_) key = true.
Proof.
  intros Hk Hz Hi Hs. unfold validateOnceReceipt. simpl. rewrite Hk, payload_digest_text, Hz, bool_decide_eq_true_2 by done. simpl.
  by replace (Incarnation c =? 0) with false by lia; replace (Seq c =? 0) with false by lia.
Qed.

Lemma append_reserved_runs now key payload o : wal_inv (s_wal (os_sys o)) -> validOnceKey key = true -> is_zero now = false ->
  24 + lenZ payload < 2 ^ 32 -> log_accepts now (32 + lenZ payload) (os_sys o) ->
  exists o', append_reserved now (reserve key payload) payload o = (Ok (record_of (w_agentID (s_wal (os_sys o))) (new_entry (os_sys o) now payload)), o').
Proof.
  intros Hi Hk Hz Hlen Hacc. unfold append_reserved, bind at 1, on_wal at 1.
  destruct (append_runs now payload (os_sys o) Hi Hlen Hacc) as (s1 & E1 & Ho1 & Hb). rewrite E1. unfold bind at 1, on_wal at 1.
  apply appendLocked_post in E1 as (Hi1 & _); [|done]. destruct (syncLocked_runs s1 Hi1 Ho1 Hb) as (s2 & E2 & Ho2). simpl. rewrite E2.
  unfold bind at 1. rewrite save_runs; [by eexists | done|]. destruct (next_cursor_ok _ Hi) as [? ?]. apply receipt_valid; try done; simpl in *; lia.
Qed.

Lemma holds_entries s ess e : holds s ess -> e ∈ mjoin ess -> entry_ok (o_MaxBytes (w_options (s_wal s))) e.
Proof.
  intros Hh [es [He [i Hes]%list_elem_of_lookup_1]]%list_elem_of_join. destruct (Forall2_lookup_r _ _ _ _ _ (ho_segs _ _ Hh) Hes) as (seg & _ & Hseg).
  pose proof (sh_entries _ _ _ _ Hseg) as H. rewrite Forall_forall in H. by apply H.
Qed.

(** Looking for a payload in an intact log. *)
Lemma find_runs w payload segs : forall ess s, Forall2 (seg_holds (o_MaxBytes (w_options w)) (d_files (s_disk s))) segs ess -> s_outcomes s = [] ->
  exists found, find_segments w payload segs s = (Ok found, s).
Proof.
  induction segs as [|seg segs IH]; intros ess s Hs Ho; cbn [find_segments]; [by eexists|]. inversion Hs as [|? es ? ess1 Hseg Hsegs]; subst.
  unfold bind at 1, openSegment, bind at 1, gets at 1. rewrite (sh_file _ _ _ _ Hseg). unfold bind at 1. rewrite syscall_runs by done. unfold ret at 1, bind at 1, of_res at 1.
  pose proof (find_frame_exact (o_MaxBytes (w_options w)) payload es (S (length (file_bytes es))) (sh_entries _ _ _ _ Hseg)) as Hf.
  specialize (Hf ltac:(apply Nat.lt_succ_r; eapply length_file_bytes, Hseg)). destruct (find_frame _ _ _ _) as [[f|]|]; [by eexists | | done].
  unfold bind at 1. rewrite syscall_runs by done. by eapply IH.
Qed.

Section Receipts.
Context (key : string) (payload : list Z).

(** The receipt of the key, if there is one, is valid and for this payload. *)
Definition receipt_good (o : osys) : Prop :=
  match os_receipts o !! onceReceiptName key with
  | None => True
  | Some None => False
  | Some (Some rc) => validateOnceReceipt rc key = true /\ oc_PayloadSHA256 rc = payload_digest payload
  end.

Definition keeps_good {A} (m : onceM A) : Prop := forall o, receipt_good o -> receipt_good (m o).2.

Lemma kept_good_bind {A B} (m : onceM A) (f : A -> onceM B) : keeps_good m -> (forall a, keeps_good (f a)) -> keeps_good (bind m f).
Proof. intros Hm Hf o Ho. unfold bind. specialize (Hm o Ho). destruct (m o) as [[a|e] o1]; [by apply Hf | done]. Qed.
Lemma good_on_wal {A} (m : walM A) : keeps_good (on_wal m).
Proof. intros o Ho. unfold on_wal. by destruct (m (os_sys o)). Qed.
Lemma kept_good_ret {A} (a : A) : keeps_good (ret a).
Proof. by intros o. Qed.
Lemma kept_good_fail {A} e : keeps_good (fail e : onceM A).
Proof. by intros o. Qed.
Lemma good_save rc : oc_Key rc = key -> oc_PayloadSHA256 rc = payload_digest payload -> keeps_good (saveOnceReceiptLocked rc).
Proof.
  intros Hk Hd o Ho. destruct (saveOnceReceiptLocked rc o) as [r o'] eqn:E. apply save_spec in E as [_ [[_ R]|[Hv R]]]; unfold receipt_good in *; simpl; rewrite R; [done|].
  rewrite Hk, lookup_insert_eq. rewrite Hk in Hv. done.
Qed.

Lemma good_append_reserved now rc : oc_Key rc = key -> oc_PayloadSHA256 rc = payload_digest payload -> keeps_good (append_reserved now rc payload).
Proof.
  intros Hk Hd. unfold append_reserved. apply kept_good_bind; [apply good_on_wal|]. intros [record [e|]]; [apply kept_good_fail|].
  apply kept_good_bind; [apply good_on_wal|]. intros _. apply kept_good_bind; [by apply good_save | intros; apply kept_good_ret].
Qed.

Lemma good_resume now id rc : oc_Key rc = key -> keeps_good (resume_receipt now id rc payload).
Proof.
  intros Hk. unfold resume_receipt. destruct (negb _) eqn:Hd; [apply kept_good_fail|]. bool_to_prop. destruct (oc_Cursor rc); [apply kept_good_ret|].
  apply kept_good_bind; [apply good_on_wal|]. intros [found|]; [|by apply good_append_reserved]. apply kept_good_bind; [by apply good_save | intros; apply kept_good_ret].
Qed.

Lemma good_AppendOnce now : keeps_good (AppendOnce now key payload).
Proof.
  intros o Ho. unfold AppendOnce. case_if; [done|]. unfold bind at 1, gets at 1. case_if; [done|]. destruct (w_backgroundErr _); [done|].
  unfold bind at 1. destruct (on_wal ctxErr o) as [r1 o1] eqn:E1. pose proof (good_on_wal ctxErr o Ho) as H1. rewrite E1 in H1. destruct r1; [|done]. simpl in H1.
  unfold bind at 1. destruct (loadOnceReceiptLocked key o1) as [r2 o2] eqn:E2. apply load_spec in E2 as (_ & R2 & _ & Hsome).
  assert (receipt_good o2) as H2 by (unfold receipt_good in *; by rewrite R2). destruct r2 as [[rc|]|]; [| |done].
  - apply good_resume; [|done]. destruct (Hsome rc eq_refl) as [_ Hv]. unfold validateOnceReceipt in Hv. by bool_to_prop.
  - eapply (kept_good_bind (saveOnceReceiptLocked (reserve key payload)) (fun _ => append_reserved now (reserve key payload) payload)); [by apply good_save | | done].
    intros _. by apply good_append_reserved.
Qed.

Lemma once_life_good o es rs : once_life key payload o es rs -> receipt_good o.
Proof.
  induction 1 as [| | now o es rs r o' Hl IH Ht E | now key' payload' o es rs r o' Hl IH Ht Hk Hp E | key' o es rs r o' Hl IH Hk E |]; try done.
  - unfold receipt_good. simpl. by match goal with H : _ !! _ = None |- _ => rewrite H end.
  - pose proof (good_AppendOnce now o IH) as H. by rewrite E in H.
  - destruct (once_life_inv _ _ _ _ _ Hl) as [Hi (ess & Hh & _) _ _]. destruct (AppendOnce_spec _ _ _ _ _ _ ess Hi Hh Ht E) as (_ & Hn & _).
    unfold receipt_good in *. rewrite Hn by congruence. done.
  - destruct (forget_spec _ _ _ _ _ E Hk) as [_ R]. unfold receipt_good in *. by rewrite R.
Qed.

Lemma load_runs o : s_outcomes (os_sys o) = [] -> receipt_good o ->
  loadOnceReceiptLocked key o = (Ok (match os_receipts o !! onceReceiptName key with Some content => content | None => None end), o).
Proof.
  intros Ho Hg. unfold loadOnceReceiptLocked, bind at 1, on_wal at 1. rewrite syscall_runs by done. unfold bind at 1, gets at 1. destruct o as [s receipts]. simpl in *.
  unfold receipt_good in Hg. simpl in Hg. destruct (receipts !! onceReceiptName key) as [[rc|]|] eqn:El; [|done|done].
  unfold bind at 1, on_wal, next_outcome. simpl. rewrite Ho. simpl. by rewrite (proj1 Hg).
Qed.

(** A time of 64-bit nanoseconds is not the zero time. *)
Lemma i64_not_zero t : i64_ok t -> is_zero t = false.
Proof. unfold i64_ok, is_zero, time_zero, min_i64, max_i64. intros ?. apply Z.eqb_neq. lia. Qed.

(** In any life of the key - after any failures, too - a call succeeds once the log
    accepts the payload. *)
Lemma AppendOnce_runs now o es rs : once_life key payload o es rs -> validOnceKey key = true -> i64_ok now -> 24 + lenZ payload < 2 ^ 32 ->
  log_accepts now (32 + lenZ payload) (os_sys o) -> exists rec o', AppendOnce now key payload o = (Ok rec, o').
Proof.
  intros Hl Hk Ht Hlen Hacc. pose proof (once_life_good _ _ _ Hl) as Hg. destruct (once_life_inv _ _ _ _ _ Hl) as [Hi (ess & Hh & _) _ _].
  pose proof (ac_calls _ _ _ Hacc) as Ho. unfold AppendOnce. rewrite Hk. cbn [negb]. unfold bind at 1, gets at 1. rewrite (ac_open _ _ _ Hacc), (ac_error _ _ _ Hacc).
  unfold bind at 1, on_wal at 1. rewrite ctxErr_runs by done. destruct o as [s receipts]. cbn [os_sys os_receipts] in *. unfold bind at 1. rewrite load_runs by done. cbn [os_receipts].
  pose proof (i64_not_zero _ Ht) as Hz. assert (forall rcs, exists o', append_reserved now (reserve key payload) payload (mkOsys s rcs) =
    (Ok (record_of (w_agentID (s_wal s)) (new_entry s now payload)), o')) as Hnew by (intros; by apply append_reserved_runs).
  unfold receipt_good in Hg. simpl in Hg. destruct (receipts !! onceReceiptName key) as [[rc|]|] eqn:El; [|done|].
  - destruct Hg as [Hv Hd]. unfold validateOnceReceipt in Hv. bool_to_prop. unfold resume_receipt. rewrite Hd, bool_decide_eq_true_2 by done. cbn [negb].
    destruct (oc_Cursor rc) as [c|] eqn:Ec; [by do 2 eexists|]. unfold bind at 1, on_wal at 1, findPayloadLocked, bind at 1, gets at 1. cbn [os_sys os_receipts].
    destruct (find_runs (s_wal s) payload (w_segments (s_wal s)) ess s (ho_segs _ _ Hh) Ho) as [found Ef]. rewrite Ef. destruct found as [rec|].
    + pose proof (find_segments_spec _ _ _ _ _ _ _ (ho_segs _ _ Hh) Ef) as (e & He & Hpe & ->). unfold bind at 1. rewrite save_runs; [by do 2 eexists | done|].
      destruct (holds_entries _ _ e Hh He) as ([? ?] & Hat & _). cbn [oc_Key]. rewrite H, H4. apply receipt_valid; simpl; [done | by apply i64_not_zero | lia | lia].
    + assert (rc = reserve key payload) as ->.
      { assert (oc_AppendedAt rc = time_zero) as Hat by (destruct (is_zero (oc_AppendedAt rc)) eqn:E; [by apply Z.eqb_eq | done]).
        destruct rc; simpl in *. by subst. }
      destruct (Hnew receipts) as [o' ->]. by do 2 eexists.
  - unfold bind at 1. rewrite save_runs; [|done|]; cbn [os_sys os_receipts oc_Key reserve].
    + destruct (Hnew (<[onceReceiptName key := Some (reserve key payload)]> receipts)) as [o' ->]. by do 2 eexists.
    + unfold validateOnceReceipt, reserve. simpl. rewrite Hk, payload_digest_text, bool_decide_eq_true_2 by done. done.
Qed.
End Receipts.
