(* ===== verification/Identity.v ===== *)
(** * The Server's identity and Agent credentials

    Models [internal/identity/state.go] and [credential.go]: the identity state
    with its signing keys, archive generation and revocation ledger, its atomic
    replacement on disk, and the issuing, verification, renewal and revocation of
    signed credentials. Ed25519 is an argument ([sign], [verify], [public_of]); so
    are the random bytes. The state file is what decoding it yields; a system call
    fails when the next outcome says so, an exhausted list of outcomes is
    success. *)

From Stdlib Require Import Ascii.
From S2P Require Import Prelude GoText.

(** ** Data *)

Definition StateFormatVersion : Z := 1.
Definition CredentialVersion : Z := 1.
Definition CredentialLifetime : Z := 90 * 24 * 3600 * 1000000000.
Definition SignatureSize : Z := 64.
Definition PublicKeySize : Z := 32.
Definition PrivateKeySize : Z := 64.

Record signingKey := mkKey {
  sk_KeyID : string;
  sk_PublicKey : list Z;
  sk_PrivateKey : list Z;
  sk_CreatedAt : time;
}.

Record Revocation := mkRevocation {
  rv_CredentialID : string;
  rv_AgentID : string;
  rv_RevokedAt : time;
  rv_ExpiresAt : time;
  rv_Reason : string;
}.

Record persistedState := mkState {
  ps_FormatVersion : Z;
  ps_ServerIdentityID : string;
  ps_CurrentKeyID : string;
  ps_SigningKeys : gmap string signingKey;
  ps_ArchiveGeneration : Z;
  ps_Revocations : list Revocation;
}.

Record Credential := mkCredential {
  cr_Version : Z;
  cr_ServerIdentityID : string;
  cr_AgentID : string;
  cr_CredentialID : string;
  cr_KeyID : string;
  cr_IssuedAt : time;
  cr_ExpiresAt : time;
  cr_Signature : list Z;
}.

Inductive identErr :=
| ErrInvalidState | ErrInvalidCredential | ErrInvalidSignature | ErrWrongServerIdentity | ErrUnknownSigningKey | ErrExpiredCredential | ErrRevokedCredential
| ErrGenerationOverflow | ErrEncode | ErrRandom | ErrSystem.

#[export] Instance identErr_eq_dec : EqDecision identErr.
Proof. solve_decision. Defined.

Definition validRandomID (id : string) : bool := (strlen id =? 32) && forallb is_hex (bytes_of id).

(** *** The signed bytes *)

Definition credential_prefix : list Z := bytes_of "docklattice-agent-credential" ++ [0].
Definition length_prefixed (s : string) : list Z := be_bytes 4 (strlen s) ++ bytes_of s.

(** [UnixNano] is a 64-bit integer: the bytes of a time are those of its
    nanoseconds modulo 2^64. A string of 2^32 bytes is out of reach. *)
Definition signingPayload (c : Credential) : res identErr (list Z) :=
  if (cr_Version c =? 0) || negb (validRandomID (cr_ServerIdentityID c)) || str_empty (cr_AgentID c) || (strlen (cr_AgentID c) >? 1024)
     || negb (validRandomID (cr_CredentialID c)) || negb (validRandomID (cr_KeyID c)) || is_zero (cr_IssuedAt c) || is_zero (cr_ExpiresAt c)
     || (cr_ExpiresAt c <=? cr_IssuedAt c)
  then Err ErrInvalidCredential
  else Ok (credential_prefix ++ be_bytes 4 (cr_Version c) ++ length_prefixed (cr_ServerIdentityID c) ++ length_prefixed (cr_AgentID c)
        ++ length_prefixed (cr_CredentialID c) ++ length_prefixed (cr_KeyID c) ++ be_bytes 8 (cr_IssuedAt c) ++ be_bytes 8 (cr_ExpiresAt c)).

(** ** The manager and its file *)

(** [im_file]: nothing, or what decoding the file yields. *)
Record iworld := mkIworld {
  im_state : persistedState;
  im_file : option (option persistedState);
  im_outcomes : list bool;
  im_random : list (list Z);
}.

Definition identM := M iworld identErr.

Definition syscall : identM unit := fun w =>
  match im_outcomes w with
  | [] => (Ok tt, w)
  | b :: bs => ((if b then Ok tt else Err ErrSystem), mkIworld (im_state w) (im_file w) bs (im_random w))
  end.

Definition random_bytes : identM (list Z) := fun w =>
  match im_random w with
  | [] => (Err ErrRandom, w)
  | b :: bs => (Ok b, mkIworld (im_state w) (im_file w) (im_outcomes w) bs)
  end.

Definition set_state (s : persistedState) : identM unit := modify (fun w => mkIworld s (im_file w) (im_outcomes w) (im_random w)).
Definition set_file (s : persistedState) : identM unit := modify (fun w => mkIworld (im_state w) (Some (Some s)) (im_outcomes w) (im_random w)).

Definition randomID : identM string := let* b := random_bytes in ret (hex_encode b).

Definition revocation_ok (r : Revocation) : bool :=
  validRandomID (rv_CredentialID r) && negb (str_empty (rv_AgentID r)) && negb (str_empty (rv_Reason r)) && negb (is_zero (rv_RevokedAt r))
  && negb (is_zero (rv_ExpiresAt r)) && (rv_RevokedAt r <? rv_ExpiresAt r).

(** JSON text has no times outside the years 0 to 9999. *)
Definition times_encodable (s : persistedState) : bool :=
  forallb (fun kv => rfc3339_time (sk_CreatedAt kv.2)) (map_to_list (ps_SigningKeys s))
  && forallb (fun r => rfc3339_time (rv_RevokedAt r) && rfc3339_time (rv_ExpiresAt r)) (ps_Revocations s).

Section Crypto.
Context (sign : list Z -> list Z -> list Z) (verify : list Z -> list Z -> list Z -> bool) (public_of : list Z -> list Z).

Definition key_ok (id : string) (key : signingKey) : bool :=
  bool_decide (id = sk_KeyID key) && validRandomID id && (lenZ (sk_PublicKey key) =? PublicKeySize) && (lenZ (sk_PrivateKey key) =? PrivateKeySize)
  && bool_decide (public_of (sk_PrivateKey key) = sk_PublicKey key) && negb (is_zero (sk_CreatedAt key)).

Definition validateState (s : persistedState) : bool :=
  (ps_FormatVersion s =? StateFormatVersion) && validRandomID (ps_ServerIdentityID s) && validRandomID (ps_CurrentKeyID s)
  && bool_decide (is_Some (ps_SigningKeys s !! ps_CurrentKeyID s)) && forallb (fun kv => key_ok kv.1 kv.2) (map_to_list (ps_SigningKeys s))
  && forallb revocation_ok (ps_Revocations s) && bool_decide (NoDup (rv_CredentialID <$> ps_Revocations s)).

(** [atomicWrite]: create the directory and inspect it, create a temporary file,
    chmod, write, fsync and close it, rename it over the old one; then open and
    fsync the directory. [saveLocked] reports whether the rename happened. *)
Definition before_rename : identM unit := syscall ;;; syscall ;;; syscall ;;; syscall ;;; syscall ;;; syscall ;;; syscall ;;; syscall.

Definition saveLocked (s : persistedState) : identM (bool * option identErr) :=
  if negb (validateState s) then ret (false, Some ErrInvalidState)
  else if negb (times_encodable s) then ret (false, Some ErrEncode)
  else
    let* written := attempt before_rename in
    match written with
    | Err e => ret (false, Some e)
    | Ok _ =>
      set_file s ;;;
      let* synced := attempt (syscall ;;; syscall) in
      match synced with Err e => ret (true, Some e) | Ok _ => ret (true, None) end
    end.

(** The end of every mutation: adopt the new state once it was renamed. *)
Definition adopt (next : persistedState) : identM unit :=
  let* saved := saveLocked next in
  let '(renamed, err) := saved in
  (if renamed then set_state next else ret tt) ;;;
  match err with Some e => fail e | None => set_state next end.

(** *** Opening *)

(** Inspect and open the file, decode and validate it. A file that is missing is
    [None]. *)
Definition loadState : identM (option persistedState) :=
  syscall ;;;
  let* file := gets im_file in
  match file with
  | None => ret None
  | Some content =>
    syscall ;;;
    match content with
    | None => fail ErrInvalidState
    | Some s => if* negb (validateState s) then ErrInvalidState end; ret (Some s)
    end
  end.

(** [ed25519.GenerateKey] reads the private key's random bytes. *)
Definition newState (generate : list Z -> list Z) (now : time) : identM persistedState :=
  let* seed := random_bytes in
  let privateKey := generate seed in
  let* identityID := randomID in
  let* keyID := randomID in
  ret (mkState StateFormatVersion identityID keyID {[keyID := mkKey keyID (public_of privateKey) privateKey now]} 0 []).

Definition openAt (generate : list Z -> list Z) (now : time) : identM unit :=
  let* loaded := loadState in
  match loaded with
  | Some s => set_state s
  | None =>
    let* s := newState generate now in
    set_state s ;;;
    let* saved := saveLocked s in
    match snd saved with Some e => fail e | None => ret tt end
  end.

(** *** Credentials *)

Definition issueCredential (s : persistedState) (agentID : string) (now : time) : identM Credential :=
  let* credentialID := randomID in
  let key := default (mkKey "" [] [] time_zero) (ps_SigningKeys s !! ps_CurrentKeyID s) in
  let c := mkCredential CredentialVersion (ps_ServerIdentityID s) agentID credentialID (sk_KeyID key) now (now + CredentialLifetime) [] in
  let* payload := of_res (signingPayload c) in
  ret (mkCredential (cr_Version c) (cr_ServerIdentityID c) (cr_AgentID c) (cr_CredentialID c) (cr_KeyID c) (cr_IssuedAt c) (cr_ExpiresAt c)
    (sign (sk_PrivateKey key) payload)).

Definition IssueCredential (agentID : string) (now : time) : identM Credential :=
  if* str_empty agentID || (strlen agentID >? 1024) then ErrInvalidCredential end;
  let* s := gets im_state in
  issueCredential s agentID now.

Definition verifyCredential (s : persistedState) (c : Credential) (now : time) (checkRevocation : bool) : res identErr unit :=
  if negb (cr_Version c =? CredentialVersion) || str_empty (cr_AgentID c) || str_empty (cr_CredentialID c) || str_empty (cr_KeyID c) || is_zero (cr_IssuedAt c)
     || is_zero (cr_ExpiresAt c) || (cr_ExpiresAt c <=? cr_IssuedAt c)
  then Err ErrInvalidCredential
  else
    match ps_SigningKeys s !! cr_KeyID c with
    | None => Err ErrUnknownSigningKey
    | Some key =>
      match signingPayload c with
      | Err e => Err e
      | Ok payload =>
        if negb (lenZ (cr_Signature c) =? SignatureSize) || negb (verify (sk_PublicKey key) payload (cr_Signature c)) then Err ErrInvalidSignature
        else if negb (bool_decide (cr_ServerIdentityID c = ps_ServerIdentityID s)) then Err ErrWrongServerIdentity
        else if cr_ExpiresAt c <=? now then Err ErrExpiredCredential
        else if checkRevocation then
          match List.find (fun r => bool_decide (rv_CredentialID r = cr_CredentialID c)) (ps_Revocations s) with
          | Some r => if bool_decide (rv_AgentID r = cr_AgentID c) then Err ErrRevokedCredential else Err ErrInvalidCredential
          | None => Ok tt
          end
        else Ok tt
      end
    end.

Definition VerifyCredential (c : Credential) (now : time) : identM unit :=
  let* s := gets im_state in
  of_res (verifyCredential s c now true).

Definition RenewCredential (current : Credential) (now : time) : identM Credential :=
  let* s := gets im_state in
  of_res (verifyCredential s current now true) ;;;
  issueCredential s (cr_AgentID current) now.

Definition RevokeCredential (c : Credential) (now : time) (reason : string) : identM unit :=
  if* str_empty reason then ErrInvalidCredential end;
  let* s := gets im_state in
  of_res (verifyCredential s c now false) ;;;
  match List.find (fun r => bool_decide (rv_CredentialID r = cr_CredentialID c)) (ps_Revocations s) with
  | Some r => if bool_decide (rv_AgentID r = cr_AgentID c) then ret tt else fail ErrInvalidCredential
  | None =>
    adopt (mkState (ps_FormatVersion s) (ps_ServerIdentityID s) (ps_CurrentKeyID s) (ps_SigningKeys s) (ps_ArchiveGeneration s)
      (ps_Revocations s ++ [mkRevocation (cr_CredentialID c) (cr_AgentID c) now (cr_ExpiresAt c) reason]))
  end.

Definition Revocations : identM (list Revocation) := gets (fun w => ps_Revocations (im_state w)).

Definition AdvanceArchiveGeneration : identM Z :=
  let* s := gets im_state in
  if* ps_ArchiveGeneration s =? max_u64 then ErrGenerationOverflow end;
  adopt (mkState (ps_FormatVersion s) (ps_ServerIdentityID s) (ps_CurrentKeyID s) (ps_SigningKeys s) (ps_ArchiveGeneration s + 1) (ps_Revocations s)) ;;;
  ret (ps_ArchiveGeneration s + 1).

Definition CompactRevocations (now : time) : identM Z :=
  let* s := gets im_state in
  let kept := filter (fun r => (now <? rv_ExpiresAt r) = true) (ps_Revocations s) in
  let removed := lenZ (ps_Revocations s) - lenZ kept in
  if removed =? 0 then ret 0
  else
    adopt (mkState (ps_FormatVersion s) (ps_ServerIdentityID s) (ps_CurrentKeyID s) (ps_SigningKeys s) (ps_ArchiveGeneration s) kept) ;;;
    ret removed.
End Crypto.

(** [RenewalDue]: half of the lifetime; a [time.Duration] saturates at 64 bits. *)
Definition sat_i64 (x : Z) : Z := if x <? min_i64 then min_i64 else if x >? max_i64 then max_i64 else x.
Definition RenewalDue (c : Credential) (now : time) : bool :=
  if is_zero (cr_IssuedAt c) || is_zero (cr_ExpiresAt c) || (cr_ExpiresAt c <=? cr_IssuedAt c) then false
  else cr_IssuedAt c + Z.quot (sat_i64 (cr_ExpiresAt c - cr_IssuedAt c)) 2 <=? now.

(** ** What a signature covers *)

Definition be_value (acc : Z) (bytes : list Z) : Z := foldl (fun n b => n * 256 + b) acc bytes.

Lemma be_value_bytes n x : forall acc, be_value acc (be_bytes n x) = acc * 2 ^ (8 * Z.of_nat n) + x mod 2 ^ (8 * Z.of_nat n).
Proof.
  induction n as [|n IH]; intros acc; [cbn; rewrite Z.mod_1_r; lia|]. cbn [be_bytes]. unfold be_value in *. cbn [foldl]. rewrite IH.
  replace (8 * Z.of_nat (S n)) with (8 * Z.of_nat n + 8) by lia. rewrite Z.pow_add_r by lia. rewrite Z.shiftr_div_pow2 by lia.
  assert (0 < 2 ^ (8 * Z.of_nat n)) as Hpos by (apply Z.pow_pos_nonneg; lia).
  rewrite (Z.rem_mul_r x (2 ^ (8 * Z.of_nat n)) (2 ^ 8)) by lia. change (2 ^ 8) with 256. lia.
Qed.

(** The bytes of a number are those of another one exactly when they are equal
    modulo the width. *)
Lemma be_bytes_eq n x y : be_bytes n x = be_bytes n y <-> x mod 2 ^ (8 * Z.of_nat n) = y mod 2 ^ (8 * Z.of_nat n).
Proof.
  split.
  - intros E. pose proof (be_value_bytes n x 0) as Hx. pose proof (be_value_bytes n y 0) as Hy. rewrite E in Hx. lia.
  - induction n as [|n IH]; intros E; [done|]. cbn [be_bytes].
    replace (8 * Z.of_nat (S n)) with (8 * Z.of_nat n + 8) in E by lia. rewrite Z.pow_add_r in E by lia.
    assert (0 < 2 ^ (8 * Z.of_nat n)) as Hpos by (apply Z.pow_pos_nonneg; lia).
    rewrite !(Z.rem_mul_r _ (2 ^ (8 * Z.of_nat n)) (2 ^ 8)) in E by lia. change (2 ^ 8) with 256 in E.
    pose proof (Z.mod_pos_bound x (2 ^ (8 * Z.of_nat n)) Hpos). pose proof (Z.mod_pos_bound y (2 ^ (8 * Z.of_nat n)) Hpos).
    rewrite !Z.shiftr_div_pow2 by lia.
    set (P := 2 ^ (8 * Z.of_nat n)) in *. destruct (Z.div_mod_unique P ((x / P) mod 256) ((y / P) mod 256) (x mod P) (y mod P)) as [-> Hr]; [by left | by left | lia|].
    f_equal. auto.
Qed.

Lemma be_bytes_time x y : i64_ok x -> i64_ok y -> be_bytes 8 x = be_bytes 8 y -> x = y.
Proof.
  intros Hx Hy E%be_bytes_eq. change (8 * Z.of_nat 8) with 64 in E. rewrite <- (i64_u64 x Hx), <- (i64_u64 y Hy). unfold u64. by f_equal.
Qed.

Lemma bytes_of_range s : Forall (fun b => 0 <= b < 256) (bytes_of s).
Proof. induction s as [|c s IH]; constructor; [|done]. unfold byte_of. pose proof (nat_ascii_bounded c). lia. Qed.

Lemma string_of_bytes_of s : string_of_bytes (bytes_of s) = s.
Proof. induction s as [|c s IH]; [done|]. simpl. rewrite IH. f_equal. unfold byte_of. by rewrite Nat2Z.id, ascii_nat_embedding. Qed.

Lemma bytes_of_inj s t : bytes_of s = bytes_of t -> s = t.
Proof.
  revert t. induction s as [|c s IH]; intros [|d t]; try done. simpl. intros [= Hc Ht]. f_equal; [|auto].
  unfold byte_of in Hc. apply Nat2Z.inj in Hc. by rewrite <- (ascii_nat_embedding c), <- (ascii_nat_embedding d), Hc.
Qed.

Lemma length_prefixed_inj s t rest rest' : strlen s < 2 ^ 32 -> strlen t < 2 ^ 32 -> length_prefixed s ++ rest = length_prefixed t ++ rest' -> s = t /\ rest = rest'.
Proof.
  intros Hs Ht. unfold length_prefixed. rewrite <- !app_assoc. intros E. apply app_inj_1 in E as [El E]; [|by rewrite !be_bytes_length].
  apply be_bytes_eq in El. change (8 * Z.of_nat 4) with 32 in El. unfold strlen in *. rewrite !Z.mod_small in El by lia.
  apply app_inj_1 in E as [Eb Er]; [split; [by apply bytes_of_inj | done]|].
  assert (forall u, length (bytes_of u) = String.length u) as Hlen by (induction u; simpl; congruence). rewrite !Hlen. lia.
Qed.

(** The identifiers that pass the check are short. *)
Lemma signingPayload_ok c p : signingPayload c = Ok p ->
  strlen (cr_ServerIdentityID c) < 2 ^ 32 /\ strlen (cr_AgentID c) < 2 ^ 32 /\ strlen (cr_CredentialID c) < 2 ^ 32 /\ strlen (cr_KeyID c) < 2 ^ 32 /\
  cr_IssuedAt c < cr_ExpiresAt c /\
  p = credential_prefix ++ be_bytes 4 (cr_Version c) ++ length_prefixed (cr_ServerIdentityID c) ++ length_prefixed (cr_AgentID c)
        ++ length_prefixed (cr_CredentialID c) ++ length_prefixed (cr_KeyID c) ++ be_bytes 8 (cr_IssuedAt c) ++ be_bytes 8 (cr_ExpiresAt c).
Proof.
  unfold signingPayload. destruct (_ || _) eqn:E; [done|]. intros [= <-]. rewrite !orb_false_iff, !negb_false_iff in E.
  destruct E as [[[[[[[[_ H1] _] H2] H3] H4] _] _] H5]. unfold validRandomID in *. bool_to_prop. split_and!; try lia. done.
Qed.

Definition unsigned (c : Credential) : Credential :=
  mkCredential (cr_Version c) (cr_ServerIdentityID c) (cr_AgentID c) (cr_CredentialID c) (cr_KeyID c) (cr_IssuedAt c) (cr_ExpiresAt c) [].

(** [C11] A signature binds every field of a credential: two credentials with the
    same signed bytes are the same but for their signatures, provided that the
    version is 32 bits wide and the times are within the range of [UnixNano],
    1678 to 2262. *)
Theorem credential_binding c1 c2 p :
  signingPayload c1 = Ok p -> signingPayload c2 = Ok p -> 0 <= cr_Version c1 < 2 ^ 32 -> 0 <= cr_Version c2 < 2 ^ 32 ->
  i64_ok (cr_IssuedAt c1) -> i64_ok (cr_ExpiresAt c1) -> i64_ok (cr_IssuedAt c2) -> i64_ok (cr_ExpiresAt c2) -> unsigned c1 = unsigned c2.
Proof.
  intros (S1 & A1 & C1 & K1 & _ & ->)%signingPayload_ok (S2 & A2 & C2 & K2 & _ & E)%signingPayload_ok Hv1 Hv2 Hi1 He1 Hi2 He2.
  apply app_inv_head in E. apply app_inj_1 in E as [Ev E]; [|by rewrite !be_bytes_length].
  apply be_bytes_eq in Ev. change (8 * Z.of_nat 4) with 32 in Ev. rewrite !Z.mod_small in Ev by lia.
  apply length_prefixed_inj in E as [Es E]; [|done..]. apply length_prefixed_inj in E as [Ea E]; [|done..].
  apply length_prefixed_inj in E as [Ec E]; [|done..]. apply length_prefixed_inj in E as [Ek E]; [|done..].
  apply app_inj_1 in E as [Ei Ee]; [|by rewrite !be_bytes_length]. apply be_bytes_time in Ei, Ee; [|done..]. unfold unsigned. congruence.
Qed.

Definition demo_id : string := "00112233445566778899aabbccddeeff".
Definition demo_credential : Credential := mkCredential 1 demo_id "agent" demo_id demo_id 1 (1 + CredentialLifetime) [].

(** Two texts of one credential: only the signatures differ. *)
Definition resigned_credential : Credential := mkCredential 1 demo_id "agent" demo_id demo_id 1 (1 + CredentialLifetime) [1; 2].

Lemma credential_binding_witness :
  (exists p, signingPayload demo_credential = Ok p /\ signingPayload resigned_credential = Ok p) /\
  unsigned demo_credential = unsigned resigned_credential.
Proof.
  destruct (signingPayload demo_credential) as [p|] eqn:E; [|vm_compute in E; discriminate E].
  assert (signingPayload resigned_credential = Ok p) as E' by exact E. split; [by exists p|].
  apply (credential_binding demo_credential resigned_credential p E E'); split; (discriminate || reflexivity).
Defined.

(** *** Times outside the range of [UnixNano] *)

Definition postponed (c : Credential) : Credential :=
  mkCredential (cr_Version c) (cr_ServerIdentityID c) (cr_AgentID c) (cr_CredentialID c) (cr_KeyID c) (cr_IssuedAt c) (cr_ExpiresAt c + 2 ^ 64) (cr_Signature c).

(** The signed bytes do not change when the expiry is moved by 2^64 nanoseconds,
    more than 584 years. *)
Lemma postponed_payload c p : signingPayload c = Ok p -> is_zero (cr_ExpiresAt c + 2 ^ 64) = false -> signingPayload (postponed c) = Ok p.
Proof.
  assert (be_bytes 8 (cr_ExpiresAt c + 2 ^ 64) = be_bytes 8 (cr_ExpiresAt c)) as Hb.
  { apply be_bytes_eq. change (8 * Z.of_nat 8) with 64. rewrite <- (Z.mul_1_l (2 ^ 64)) at 1. by rewrite Z_mod_plus_full. }
  intros H Hz. pose proof (signingPayload_ok c p H) as (_ & _ & _ & _ & Hlt & _). revert H. unfold signingPayload, postponed.
  cbn [cr_Version cr_ServerIdentityID cr_AgentID cr_CredentialID cr_KeyID cr_IssuedAt cr_ExpiresAt]. rewrite Hz, Hb.
  destruct (is_zero (cr_ExpiresAt c)); [by rewrite orb_true_r|]. replace (cr_ExpiresAt c <=? cr_IssuedAt c) with false by lia.
  by replace (cr_ExpiresAt c + 2 ^ 64 <=? cr_IssuedAt c) with false by lia.
Qed.

(** A credential that verifies verifies with the later expiry too, and then still
    after it has expired. *)
Lemma expiry_can_be_postponed verify s c now now' : verifyCredential verify s c now true = Ok tt -> cr_ExpiresAt c <= now' < cr_ExpiresAt c + 2 ^ 64 ->
  is_zero (cr_ExpiresAt c + 2 ^ 64) = false ->
  verifyCredential verify s c now' true = Err ErrExpiredCredential /\ verifyCredential verify s (postponed c) now' true = Ok tt.
Proof.
  intros H Hn Hz. revert H. unfold verifyCredential. change (cr_Version (postponed c)) with (cr_Version c). change (cr_AgentID (postponed c)) with (cr_AgentID c).
  change (cr_CredentialID (postponed c)) with (cr_CredentialID c). change (cr_KeyID (postponed c)) with (cr_KeyID c). change (cr_IssuedAt (postponed c)) with (cr_IssuedAt c).
  change (cr_ExpiresAt (postponed c)) with (cr_ExpiresAt c + 2 ^ 64). change (cr_Signature (postponed c)) with (cr_Signature c).
  change (cr_ServerIdentityID (postponed c)) with (cr_ServerIdentityID c). rewrite Hz. destruct (is_zero (cr_ExpiresAt c)); [by rewrite orb_true_r|].
  destruct (cr_ExpiresAt c <=? cr_IssuedAt c) eqn:E; [by rewrite orb_true_r|]. replace (cr_ExpiresAt c + 2 ^ 64 <=? cr_IssuedAt c) with false by lia.
  destruct (_ || _); [done|]. destruct (ps_SigningKeys s !! cr_KeyID c) as [key|]; [|done]. destruct (signingPayload c) as [p|] eqn:Ep; [|done].
  rewrite (postponed_payload c p Ep Hz). destruct (_ || _); [done|]. destruct (negb _); [done|]. destruct (cr_ExpiresAt c <=? now); [done|].
  intros H. replace (cr_ExpiresAt c <=? now') with true by lia. replace (cr_ExpiresAt c + 2 ^ 64 <=? now') with false by lia. done.
Qed.

(** ** The Agent's copy *)

Section Text.
(** The JSON text of a credential ([encoding/json]); an encoder fails on times it
    cannot write. *)
Context (encode : Credential -> option (list Z)) (decode : list Z -> option Credential).

Definition MarshalCredential (c : Credential) : res identErr (list Z) :=
  match signingPayload c with
  | Err e => Err e
  | Ok _ =>
    if negb (lenZ (cr_Signature c) =? SignatureSize) then Err ErrInvalidSignature
    else match encode c with Some payload => Ok payload | None => Err ErrEncode end
  end.

Definition ParseCredential (payload : list Z) : res identErr Credential :=
  match decode payload with
  | None => Err ErrInvalidCredential
  | Some c =>
    match signingPayload c with
    | Err e => Err e
    | Ok _ => if negb (lenZ (cr_Signature c) =? SignatureSize) then Err ErrInvalidSignature else Ok c
    end
  end.

(** What was marshalled parses, when the text can be read back. *)
Lemma parse_marshal c payload : (encode c = Some payload -> decode payload = Some c) -> MarshalCredential c = Ok payload -> ParseCredential payload = Ok c.
Proof.
  intros Hjson. unfold MarshalCredential, ParseCredential. destruct (signingPayload c) eqn:Ep; [|done]. destruct (negb _) eqn:El; [done|].
  destruct (encode c) as [x|]; [|done]. intros [= ->]. by rewrite Hjson, Ep, El.
Qed.
End Text.

(** ** The manager and its file agree *)

Record ident_inv (public_of : list Z -> list Z) (w : iworld) : Prop := {
  ii_file : im_file w = Some (Some (im_state w));
  ii_valid : validateState public_of (im_state w) = true;
}.

(** Steps that leave the state and the file alone. *)
Definition inert (w w' : iworld) : Prop := im_state w' = im_state w /\ im_file w' = im_file w.
#[export] Instance inert_pre : PreOrder inert.
Proof. split; [by intros w|]. intros a b c [] []. split; congruence. Qed.

Create HintDb inert.
Definition inert_m {A} (m : identM A) : Prop := forall w, inert w (m w).2.
Lemma inert_ret {A} (a : A) : inert_m (ret a).
Proof. done. Qed.
Lemma inert_fail {A} e : inert_m (fail (A := A) e).
Proof. done. Qed.
Lemma inert_gets {A} (f : iworld -> A) : inert_m (gets f).
Proof. done. Qed.
Lemma inert_of_res {A} (r : res identErr A) : inert_m (of_res r).
Proof. done. Qed.
Lemma inert_bind {A B} (m : identM A) (f : A -> identM B) : inert_m m -> (forall a, inert_m (f a)) -> inert_m (bind m f).
Proof. intros Hm Hf w. unfold bind. specialize (Hm w). destruct (m w) as [[a|e] w']; [|done]. etransitivity; [exact Hm | apply Hf]. Qed.
Lemma inert_syscall : inert_m syscall.
Proof. intros w. unfold syscall. by destruct (im_outcomes w). Qed.
Lemma inert_random : inert_m random_bytes.
Proof. intros w. unfold random_bytes. by destruct (im_random w). Qed.
#[export] Hint Resolve inert_ret inert_fail inert_gets inert_of_res inert_bind inert_syscall inert_random : inert.

Lemma inert_before : inert_m before_rename.
Proof. unfold before_rename. auto 20 with inert. Qed.

Section Manager.
Context (sign : list Z -> list Z -> list Z) (verify : list Z -> list Z -> list Z -> bool) (public_of : list Z -> list Z) (generate : list Z -> list Z).

(** Saving: the file is replaced by a valid state, or nothing changes. *)
Lemma saveLocked_spec s w : exists renamed err w', saveLocked public_of s w = (Ok (renamed, err), w') /\ im_state w' = im_state w /\
  (if renamed then validateState public_of s = true /\ im_file w' = Some (Some s) else err <> None /\ im_file w' = im_file w).
Proof.
  unfold saveLocked. destruct (validateState public_of s) eqn:Ev; [|by eexists _, _, _]. destruct (times_encodable s); [|by eexists _, _, _]. cbn [negb].
  unfold bind at 1, attempt at 1. pose proof (inert_before w) as [Hs1 Hf1]. destruct (before_rename w) as [[u|e] w1]; [|by eexists _, _, _].
  simpl in Hs1, Hf1. unfold bind at 1, set_file, modify at 1. unfold bind at 1, attempt at 1. set (w2 := mkIworld _ _ _ _).
  pose proof (inert_bind syscall (fun _ => syscall) inert_syscall (fun _ => inert_syscall) w2) as [Hs2 Hf2].
  destruct ((syscall ;;; syscall) w2) as [[u2|e] w3]; simpl in Hs2, Hf2; eexists _, _, _; split_and!; try reflexivity; simpl; congruence || (split; congruence).
Qed.

Lemma adopt_spec next w : ident_inv public_of w ->
  let '(r, w') := adopt public_of next w in
  ident_inv public_of w' /\ ((im_state w' = next) \/ (is_ok r = false /\ im_state w' = im_state w)) /\ (r = Ok tt -> im_state w' = next).
Proof.
  intros [Hf Hv]. unfold adopt, bind at 1. destruct (saveLocked_spec next w) as (renamed & err & w1 & -> & Hs & Hcase). destruct renamed.
  - destruct Hcase as [Hvn Hfn]. unfold bind, set_state, modify. destruct err; simpl; (split; [by split | by auto]).
  - destruct Hcase as [He Hfn]. destruct err as [e|]; [|done]. unfold bind, ret, fail. simpl.
    split; [split; congruence|]. split; [by right | done].
Qed.

(** ** Histories *)

Inductive ident_op :=
| OpIssue (agentID : string) (now : time)
| OpRenew (current : Credential) (now : time)
| OpRevoke (c : Credential) (now : time) (reason : string)
| OpAdvance
| OpCompact (now : time).

Definition ident_run (op : ident_op) (w : iworld) : bool * iworld :=
  match op with
  | OpIssue agentID now => let '(r, w') := IssueCredential sign agentID now w in (is_ok r, w')
  | OpRenew current now => let '(r, w') := RenewCredential sign verify current now w in (is_ok r, w')
  | OpRevoke c now reason => let '(r, w') := RevokeCredential verify public_of c now reason w in (is_ok r, w')
  | OpAdvance => let '(r, w') := AdvanceArchiveGeneration public_of w in (is_ok r, w')
  | OpCompact now => let '(r, w') := CompactRevocations public_of now w in (is_ok r, w')
  end.

(** The ledger's entry for a credential. *)
Definition ledger_entry (w : iworld) (c : Credential) : option Revocation :=
  List.find (fun r => bool_decide (rv_CredentialID r = cr_CredentialID c)) (ps_Revocations (im_state w)).

(** What a successful revocation promises: the identifier is refused until the
    expiry the ledger holds for it. *)
Definition op_revokes (op : ident_op) (ok : bool) (w' : iworld) : list Revocation :=
  match op with OpRevoke c _ _ => if ok then option_list (ledger_entry w' c) else [] | _ => [] end.
Definition op_compacts (op : ident_op) : list time := match op with OpCompact now => [now] | _ => [] end.

(** Lives of an identity: opened, used, and reopened after stops and crashes; the
    times of compactions and the revocations that were acknowledged. *)
Inductive ident_life : iworld -> list time -> list Revocation -> Prop :=
| life_open now w w' : im_file w = None -> openAt public_of generate now w = (Ok tt, w') -> ident_life w' [] []
| life_op op w ts rs ok w' : ident_life w ts rs -> ident_run op w = (ok, w') -> ident_life w' (ts ++ op_compacts op) (rs ++ op_revokes op ok w')
| life_reopen now w ts rs w1 w' : ident_life w ts rs -> im_file w1 = im_file w -> openAt public_of generate now w1 = (Ok tt, w') -> ident_life w' ts rs.

(** How a state may change: identity and keys stay, the generation does not
    decrease, revocations leave only when they expired. *)
Record ident_evo (ts : list time) (s s' : persistedState) : Prop := {
  ie_server : ps_ServerIdentityID s' = ps_ServerIdentityID s;
  ie_keys : ps_SigningKeys s' = ps_SigningKeys s /\ ps_CurrentKeyID s' = ps_CurrentKeyID s;
  ie_generation : ps_ArchiveGeneration s <= ps_ArchiveGeneration s';
  ie_revoked : forall r, r ∈ ps_Revocations s -> r ∈ ps_Revocations s' \/ exists t, t ∈ ts /\ rv_ExpiresAt r <= t;
}.

Lemma ident_evo_refl ts s : ident_evo ts s s.
Proof. split; auto. lia. Qed.

(** What an operation leaves. *)
Definition tame (ts : list time) (w w' : iworld) : Prop := ident_inv public_of w' /\ ident_evo ts (im_state w) (im_state w').

Lemma tame_refl ts w : ident_inv public_of w -> tame ts w w.
Proof. intros Hi. split; [done | apply ident_evo_refl]. Qed.

(** An operation that adopts a state, or leaves everything alone. *)
Lemma adopt_evo ts next w : ident_inv public_of w -> ident_evo ts (im_state w) next ->
  tame ts w (adopt public_of next w).2.
Proof.
  intros Hi He. unfold tame. pose proof (adopt_spec next w Hi) as H. destruct (adopt public_of next w) as [r w']. destruct H as (Hi' & [E|[_ E]] & _); cbn [snd]; rewrite E;
    (split; [done|]); [done | apply ident_evo_refl].
Qed.

Lemma inert_inv ts w w' : inert w w' -> ident_inv public_of w -> tame ts w w'.
Proof. intros [Hs Hf] [Hi Hv]. split; [split; congruence | rewrite Hs; apply ident_evo_refl]. Qed.

Lemma issue_inert s agentID now : inert_m (issueCredential sign s agentID now).
Proof. unfold issueCredential, randomID. auto 10 with inert. Qed.

Lemma ident_run_evo op w : ident_inv public_of w -> tame (op_compacts op) w (ident_run op w).2.
Proof.
  intros Hi. destruct op as [agentID now|current now|c now reason| |now]; cbn [ident_run op_compacts].
  - assert (inert_m (IssueCredential sign agentID now)) as Hm by (unfold IssueCredential; case_if; auto using issue_inert with inert).
    specialize (Hm w). destruct (IssueCredential _ _ _ w) as [r w']. by apply inert_inv.
  - assert (inert_m (RenewCredential sign verify current now)) as Hm by (unfold RenewCredential; auto 10 using issue_inert with inert).
    specialize (Hm w). destruct (RenewCredential _ _ _ _ w) as [r w']. by apply inert_inv.
  - unfold RevokeCredential. case_if; [by apply tame_refl|]. unfold bind at 1, gets at 1. unfold bind at 1, of_res at 1.
    destruct (verifyCredential _ _ _ _ _) as [u|e]; [|by apply tame_refl].
    destruct (List.find _ _) as [r|]; [case_if; by apply tame_refl|].
    set (next := mkState _ _ _ _ _ _). pose proof (adopt_evo [] next w Hi) as H. destruct (adopt public_of next w) as [r w']. apply H.
    split; simpl; auto; [lia|]. intros r' Hr. left. apply elem_of_app. by left.
  - unfold AdvanceArchiveGeneration, bind at 1, gets at 1. case_if; [by apply tame_refl|]. unfold bind at 1.
    set (next := mkState _ _ _ _ _ _). pose proof (adopt_evo [] next w Hi) as H. destruct (adopt public_of next w) as [[u|e] w']; apply H; split; simpl; auto; lia.
  - unfold CompactRevocations, bind at 1, gets at 1. case_if; [by apply tame_refl|]. unfold bind at 1.
    set (next := mkState _ _ _ _ _ _). pose proof (adopt_evo [now] next w Hi) as H.
    assert (ident_evo [now] (im_state w) next) as He.
    { split; simpl; auto; [lia|]. intros r Hr. destruct (now <? rv_ExpiresAt r) eqn:E.
      - left. by apply list_elem_of_filter.
      - right. exists now. bool_to_prop. split; [by left | lia]. }
    by destruct (adopt public_of next w) as [[u|e] w']; apply H.
Qed.

Lemma openAt_loaded now w w' s : im_file w = Some (Some s) -> openAt public_of generate now w = (Ok tt, w') -> ident_inv public_of w' /\ im_state w' = s.
Proof.
  intros Hf. unfold openAt, bind at 1, loadState, bind at 1. destruct (inert_syscall w) as [S1 F1]. destruct (syscall w) as [[u|e] w1]; [|done]. simpl in S1, F1.
  unfold bind at 1, gets at 1. rewrite F1, Hf. unfold bind at 1. destruct (inert_syscall w1) as [S2 F2]. destruct (syscall w1) as [[u2|e] w2]; [|done]. simpl in S2, F2.
  destruct (validateState public_of s) eqn:Ev; [|done]. cbn [negb]. unfold ret, set_state, modify. intros [= <-]. split; [|done]. split; simpl; [congruence | done].
Qed.

Lemma openAt_new now w w' : im_file w = None -> openAt public_of generate now w = (Ok tt, w') -> ident_inv public_of w'.
Proof.
  intros Hf. unfold openAt, bind at 1, loadState, bind at 1. destruct (inert_syscall w) as [S1 F1]. destruct (syscall w) as [[u|e] w1]; [|done]. simpl in S1, F1.
  unfold bind at 1, gets at 1. rewrite F1, Hf. unfold ret at 1, bind at 1. destruct (newState public_of generate now w1) as [[s|e] w2]; [|done].
  unfold bind at 1, set_state, modify, bind at 1. set (w3 := mkIworld _ _ _ _). destruct (saveLocked_spec s w3) as (renamed & err & w4 & -> & Hs & Hcase).
  cbn [snd]. destruct renamed, err as [e|]; try done; [|by destruct Hcase]. intros [= <-]. destruct Hcase as [Hv Hfn]. split; [by rewrite Hs | by rewrite Hs].
Qed.

(** Every acknowledged revocation is in the ledger, or was compacted after it had
    expired. *)
Lemma ident_life_inv w ts rs : ident_life w ts rs -> ident_inv public_of w /\
  forall r, r ∈ rs -> r ∈ ps_Revocations (im_state w) \/ exists t, t ∈ ts /\ rv_ExpiresAt r <= t.
Proof.
  induction 1 as [now w w' Hf E | op w ts rs ok w' Hl [Hi IH] E | now w ts rs w1 w' Hl [Hi IH] Hf E].
  - split; [by eapply openAt_new | by intros r ?%elem_of_nil].
  - destruct (ident_run_evo op w Hi) as [Hi' He]. rewrite E in Hi', He. cbn [snd] in Hi', He. split; [done|]. intros r [Hr|Hr]%elem_of_app.
    + destruct (IH r Hr) as [Hin|(t & Ht & Hle)]; [|right; exists t; split; [apply elem_of_app; by left | done]].
      destruct (ie_revoked _ _ _ He r Hin) as [?|(t & Ht & Hle)]; [by left | right; exists t; split; [apply elem_of_app; by right | done]].
    + left. destruct op as [| |c now reason| |]; try by apply elem_of_nil in Hr. simpl in Hr. destruct ok; [|by apply elem_of_nil in Hr].
      unfold ledger_entry in Hr. destruct (List.find _ _) as [x|] eqn:Ef; [|by apply elem_of_nil in Hr]. apply list_elem_of_singleton in Hr as ->.
      apply find_some in Ef as [Ef _]. by apply list_elem_of_In.
  - destruct (openAt_loaded now w1 w' (im_state w)) as [Hi' ->]; [by rewrite Hf, (ii_file _ _ Hi) | done | done].
Qed.

Lemma find_snoc {A} (f : A -> bool) l x : List.find f l = None -> List.find f (l ++ [x]) = if f x then Some x else None.
Proof. induction l as [|y l IH]; [done|]. simpl. destruct (f y); [done | auto]. Qed.

(** A revocation that returned success left an entry in the ledger. *)
Lemma revoke_entry c now reason w w' : ident_inv public_of w -> RevokeCredential verify public_of c now reason w = (Ok tt, w') ->
  exists r, ledger_entry w' c = Some r /\ rv_CredentialID r = cr_CredentialID c.
Proof.
  intros Hi. assert (forall w x, ledger_entry w c = Some x -> rv_CredentialID x = cr_CredentialID c) as Hid.
  { intros v x [_ H]%find_some. by bool_to_prop. }
  unfold RevokeCredential. case_if; [done|]. unfold bind at 1, gets at 1. unfold bind at 1, of_res at 1. destruct (verifyCredential _ _ _ _ _) as [u|e]; [|done].
  destruct (List.find _ _) as [r|] eqn:Ef; [case_if; [|done]; intros [= <-]; exists r; split; [done | by apply (Hid w)]|].
  set (next := mkState _ _ _ _ _ _). pose proof (adopt_spec next w Hi) as H. destruct (adopt public_of next w) as [res w1]. intros [= -> ->].
  destruct H as (_ & _ & Hs). specialize (Hs eq_refl). unfold ledger_entry. rewrite Hs. unfold next. cbn [ps_Revocations]. rewrite find_snoc by done.
  cbn [rv_CredentialID]. rewrite bool_decide_eq_true_2 by done. by eexists.
Qed.
End Manager.

(** [C10] A revocation holds. Over any life of the Server's identity - issuing,
    renewing, revoking, compacting, failing file-system calls, stops, crashes and
    reopenings - the manager's state is valid and is what the file holds; a
    revocation that returned success has an entry in the ledger; and a credential
    with an identifier that was revoked so, and an expiry no later than the one
    recorded with it - the revoked credential's -, is never verified again,
    whatever else it claims, except at a time before that of a compaction that ran
    when the recorded expiry had passed: that is, with the clock set back behind
    that compaction. *)
Theorem revocation_holds sign verify public_of generate w ts rs : ident_life sign verify public_of generate w ts rs ->
  (im_file w = Some (Some (im_state w)) /\ validateState public_of (im_state w) = true) /\
  (forall c now reason w', RevokeCredential verify public_of c now reason w = (Ok tt, w') ->
     exists r, ledger_entry w' c = Some r /\ rv_CredentialID r = cr_CredentialID c) /\
  (forall r c now, r ∈ rs -> cr_CredentialID c = rv_CredentialID r -> cr_ExpiresAt c <= rv_ExpiresAt r ->
     Forall (fun t => t < rv_ExpiresAt r \/ t <= now) ts ->
     verifyCredential verify (im_state w) c now true <> Ok tt).
Proof.
  intros [Hi Hr]%ident_life_inv. split_and!; [apply Hi | apply Hi | intros c now reason w'; by apply revoke_entry|].
  intros r c now Hin Hid Hexp Hts. unfold verifyCredential. destruct (_ || _); [done|]. destruct (ps_SigningKeys _ !! _); [|done]. destruct (signingPayload c); [|done].
  destruct (_ || _); [done|]. destruct (negb _); [done|]. destruct (cr_ExpiresAt c <=? now) eqn:En; [done|]. bool_to_prop.
  destruct (Hr r Hin) as [Hl|(t & Ht & Hle)]; [|rewrite Forall_forall in Hts; specialize (Hts t Ht); lia].
  destruct (List.find _ _) as [x|] eqn:Ef; [by case_if|]. apply list_elem_of_In in Hl. pose proof (find_none _ _ Ef r Hl) as Hn. simpl in Hn.
  rewrite bool_decide_eq_true_2 in Hn by done. done.
Qed.

(** ** Issued credentials *)

(** An issued credential verifies until it expires. When the signature scheme
    accepts its own signatures, a credential
    issued at [now] by a manager with a valid state names that Server and Agent,
    expires 90 days later, and is verified at every time before that, unless its
    fresh identifier is in the ledger. *)
Theorem issued_verifies sign verify public_of agentID now w c w' :
  (forall key p, lenZ key = PrivateKeySize -> lenZ (sign key p) = SignatureSize /\ verify (public_of key) p (sign key p) = true) ->
  validateState public_of (im_state w) = true -> IssueCredential sign agentID now w = (Ok c, w') ->
  cr_AgentID c = agentID /\ cr_ServerIdentityID c = ps_ServerIdentityID (im_state w) /\ cr_ExpiresAt c = now + CredentialLifetime /\
  forall now', now' < now + CredentialLifetime -> ledger_entry w c = None -> verifyCredential verify (im_state w) c now' true = Ok tt.
Proof.
  intros Hcrypto Hv. unfold IssueCredential. destruct (_ || _); [done|]. unfold bind at 1, gets at 1, issueCredential, bind at 1.
  destruct (randomID w) as [[id|] w1]; [|done]. unfold validateState in Hv. rewrite !andb_true_iff in Hv. destruct Hv as [[[[[[_ Hsid] _] Hkey] Hkeys] _] _].
  apply bool_decide_eq_true in Hkey as [key Hkey]. rewrite Hkey. change (default (mkKey "" [] [] time_zero) (Some key)) with key.
  rewrite forallb_forall in Hkeys. pose proof Hkey as Hin. apply elem_of_map_to_list, list_elem_of_In in Hin. specialize (Hkeys _ Hin). unfold key_ok in Hkeys. simpl in Hkeys.
  rewrite !andb_true_iff in Hkeys. destruct Hkeys as [[[[[Hkid _] _] Hpriv] Hpub] _]. apply bool_decide_eq_true in Hkid, Hpub. apply Z.eqb_eq in Hpriv.
  unfold bind at 1, of_res at 1. set (c0 := mkCredential _ _ _ _ _ _ _ []). destruct (signingPayload c0) as [p|] eqn:Ep; [|done]. intros [= <- <-].
  split_and!; [done | done | done|]. intros now' Hn Hl. destruct (Hcrypto (sk_PrivateKey key) p Hpriv) as [Hlen Hver].
  match goal with |- verifyCredential _ _ ?x _ _ = _ => assert (signingPayload x = Ok p) as Ep' by exact Ep end. unfold verifyCredential.
  cbn [cr_Version cr_AgentID cr_CredentialID cr_KeyID cr_IssuedAt cr_ExpiresAt cr_Signature cr_ServerIdentityID c0] in *. rewrite Hkid in Hkey. rewrite Hkey, Ep'.
  unfold signingPayload in Ep. destruct (_ || _) eqn:Eg in Ep; [done|]. rewrite !orb_false_iff in Eg.
  destruct Eg as [[[[[[[[_ _] Ha] _] Hc] Hk] Hi] He] Hlt]. cbn [cr_AgentID cr_CredentialID cr_KeyID cr_IssuedAt cr_ExpiresAt c0] in Ha, Hc, Hk, Hi, He, Hlt.
  assert (forall s, negb (validRandomID s) = false -> str_empty s = false) as Hne by (intros []; [done | done]).
  rewrite Ha, (Hne _ Hc), (Hne _ Hk), Hi, He, Hlt. cbn [Z.eqb CredentialVersion negb orb]. rewrite Hlen, <- Hpub, Hver. cbn [Z.eqb SignatureSize Pos.eqb negb orb].
  rewrite bool_decide_eq_true_2 by done. cbn [negb]. replace (now + CredentialLifetime <=? now') with false by lia.
  unfold ledger_entry in Hl. cbn [cr_CredentialID] in Hl. by rewrite Hl.
Qed.

(** ** A demonstration *)

(** A scheme that signs with the key and a digest of the message. *)
Definition toy_sign (key message : list Z) : list Z := take 32 key ++ Sum256 message.
Definition toy_public (key : list Z) : list Z := take 32 key.
Definition toy_verify (public message signature : list Z) : bool := bool_decide (signature = public ++ Sum256 message).
Definition toy_generate (seed : list Z) : list Z := replicate 64 (nth 0 seed 1).

Lemma toy_correct key p : lenZ key = PrivateKeySize -> lenZ (toy_sign key p) = SignatureSize /\ toy_verify (toy_public key) p (toy_sign key p) = true.
Proof.
  intros Hk. unfold toy_verify, toy_public, toy_sign, PrivateKeySize, SignatureSize, lenZ in *. rewrite bool_decide_eq_true_2 by done. split; [|done].
  rewrite length_app, length_take, Sum256_length. lia.
Qed.

Definition toy_random : list (list Z) := (fun b => replicate 16 b) <$> [1; 2; 3; 4; 5; 6].
Definition toy_start : iworld := mkIworld (mkState 0 "" "" ∅ 0 []) None [] toy_random.
Definition toy_open : iworld := (openAt toy_public toy_generate 1 toy_start).2.
Definition toy_issue := IssueCredential toy_sign "agent" 5 toy_open.
Definition toy_credential : Credential := match toy_issue.1 with Ok c => c | Err _ => demo_credential end.
Definition toy_revoked : iworld := (RevokeCredential toy_verify toy_public toy_credential 6 "lost" toy_issue.2).2.

Lemma issued_verifies_witness :
  toy_issue.1 = Ok toy_credential /\ verifyCredential toy_verify (im_state toy_open) toy_credential 100 true = Ok tt.
Proof.
  assert (toy_issue = (Ok toy_credential, toy_issue.2)) as E by (vm_compute; reflexivity). split; [by rewrite E at 1|].
  apply (issued_verifies toy_sign toy_verify toy_public "agent" 5 toy_open toy_credential toy_issue.2 toy_correct); [vm_compute; reflexivity | exact E | reflexivity | vm_compute; reflexivity].
Defined.

Lemma revocation_holds_witness :
  verifyCredential toy_verify (im_state toy_issue.2) toy_credential 7 true = Ok tt /\
  verifyCredential toy_verify (im_state toy_revoked) toy_credential 7 true <> Ok tt.
Proof.
  split; [vm_compute; reflexivity|].
  assert (ident_life toy_sign toy_verify toy_public toy_generate toy_open [] []) as L0
    by (apply (life_open _ _ _ _ 1 toy_start); [reflexivity | vm_compute; reflexivity]).
  pose proof (life_op _ _ _ _ (OpIssue "agent" 5) toy_open [] [] true toy_issue.2 L0 ltac:(vm_compute; reflexivity)) as L1.
  pose proof (life_op _ _ _ _ (OpRevoke toy_credential 6 "lost") toy_issue.2 _ _ true toy_revoked L1 ltac:(vm_compute; reflexivity)) as L2.
  destruct (revocation_holds _ _ _ _ _ _ _ L2) as (_ & _ & H).
  apply (H (mkRevocation (cr_CredentialID toy_credential) "agent" 6 (cr_ExpiresAt toy_credential) "lost")); [vm_compute; left | vm_compute; reflexivity | vm_compute; discriminate | constructor].
Defined.
