(* ===== verification/DiskBudget.v ===== *)
(** * Disk budget

    Models [internal/diskbudget/manager.go]: the pressure state with its
    hysteresis ([Observe]), the admission policy ([Admit]), the emergency
    reserve ([CanWrite]) and the fixed cleanup order ([Reclaim]). Byte counts
    are [int64]; products that can overflow are written with [i64]. The
    reclaimers are the components that own the data: here they are arbitrary
    functions on a state they share. *)

From S2P Require Import Prelude.

(** ** Types *)

Inductive DegradedReason :=
| ReasonNone | ReasonFilesystemFreeLow | ReasonAgentBudgetExceeded | ReasonBoth.

#[export] Instance DegradedReason_eq_dec : EqDecision DegradedReason.
Proof. solve_decision. Defined.

Record Observation := mkObservation {
  FilesystemTotalBytes : Z;
  FilesystemFreeBytes : Z;
  AgentStateBytes : Z;
}.

Record State := mkState {
  Degraded : bool;
  Reason : DegradedReason;
  EntryFreeFloor : Z;
  ExitFreeFloor : Z;
  StateBudget : Z;
  ExitStateCeiling : Z;
}.

Record Config := mkConfig {
  StateBudgetBytes : Z;
  EntryFreeBytes : Z;
  EntryFreePercent : Z;
  ExitFreeBytes : Z;
  ExitFreePercent : Z;
  ExitStatePercent : Z;
  EmergencyReserveBytes : Z;
}.

Record Manager := mkManager { mg_config : Config; mg_state : State }.

Inductive budgetErr :=
| ErrInvalidObservation | ErrStorageDegraded | ErrDurableAdmission | ErrInvalidConfig.

Definition zero_state : State := mkState false ReasonNone 0 0 0 0.

(** ** Configuration *)

Definition GiB : Z := 2 ^ 30.
Definition MiB : Z := 2 ^ 20.

(** [DefaultConfig], with the values of [config.V1Defaults]. *)
Definition DefaultConfig : Config :=
  mkConfig (2 * GiB) GiB 5 (GiB * 6 / 5) 6 90 (64 * MiB).

Definition config_ok (config : Config) : bool :=
  negb ((StateBudgetBytes config <=? 0) || (EntryFreeBytes config <=? 0)
        || (EntryFreePercent config <=? 0)
        || (ExitFreeBytes config <=? EntryFreeBytes config)
        || (ExitFreePercent config <=? EntryFreePercent config)
        || (ExitStatePercent config <=? 0) || (ExitStatePercent config >=? 100)
        || (EmergencyReserveBytes config <=? 0)
        || (EmergencyReserveBytes config >=? StateBudgetBytes config)).

Definition New (config : Config) : res budgetErr Manager :=
  if config_ok config then Ok (mkManager config zero_state) else Err ErrInvalidConfig.

(** ** Observation and hysteresis *)

Definition validateObservation (value : Observation) : bool :=
  negb ((FilesystemTotalBytes value <=? 0) || (FilesystemFreeBytes value <? 0)
        || (FilesystemFreeBytes value >? FilesystemTotalBytes value)
        || (AgentStateBytes value <? 0)).

Definition reason (freeLow budgetExceeded : bool) : DegradedReason :=
  if (freeLow && budgetExceeded)%bool then ReasonBoth
  else if freeLow then ReasonFilesystemFreeLow
  else if budgetExceeded then ReasonAgentBudgetExceeded
  else ReasonNone.

Definition maximum (left right : Z) : Z := if left >? right then left else right.

(** Go's integer division truncates towards zero. *)
Definition percentBytes (total percent : Z) : Z := Z.quot (i64 (total * percent)) 100.

Definition Observe (observation : Observation) : M Manager budgetErr State :=
  if* negb (validateObservation observation) then ErrInvalidObservation end;
  let* m := get in
  let config := mg_config m in
  let previousReason := Reason (mg_state m) in
  let entryFloor := maximum (EntryFreeBytes config)
    (percentBytes (FilesystemTotalBytes observation) (EntryFreePercent config)) in
  let exitFloor := maximum (ExitFreeBytes config)
    (percentBytes (FilesystemTotalBytes observation) (ExitFreePercent config)) in
  let freeLow := FilesystemFreeBytes observation <? entryFloor in
  let budgetExceeded := AgentStateBytes observation >? StateBudgetBytes config in
  let exitStateCeiling := percentBytes (StateBudgetBytes config) (ExitStatePercent config) in
  let degraded :=
    if negb (Degraded (mg_state m)) then (freeLow || budgetExceeded)%bool
    else negb ((FilesystemFreeBytes observation >=? exitFloor)
               && (AgentStateBytes observation <=? exitStateCeiling)) in
  let why := reason freeLow budgetExceeded in
  let why := if (degraded && bool_decide (why = ReasonNone))%bool then previousReason else why in
  let state := mkState degraded why entryFloor exitFloor (StateBudgetBytes config) exitStateCeiling in
  modify (fun m => mkManager (mg_config m) state) ;;;
  ret state.

(** ** Admission *)

Inductive Operation :=
| OperationQuery | OperationFileRead | OperationLogs | OperationMetrics | OperationAuditSync
| OperationResultRead | OperationBackupList | OperationBackupDelete
| OperationComposeUp | OperationComposeDown | OperationComposeStart | OperationComposeStop
| OperationComposeRestart | OperationContainerStart | OperationContainerStop
| OperationContainerRestart | OperationContainerRemove
| OperationComposePull | OperationFileWrite | OperationBackupCreate | OperationBackupRestore
| OperationAutomaticSnapshot
| OperationOther (name : string).

#[export] Instance Operation_eq_dec : EqDecision Operation.
Proof. solve_decision. Defined.

Definition isRead (operation : Operation) : bool :=
  match operation with
  | OperationQuery | OperationFileRead | OperationLogs | OperationMetrics | OperationAuditSync
  | OperationResultRead | OperationBackupList => true
  | _ => false
  end.

Definition isDegradedMutationAllowed (operation : Operation) : bool :=
  match operation with
  | OperationComposeUp | OperationComposeDown | OperationComposeStart | OperationComposeStop
  | OperationComposeRestart | OperationContainerStart | OperationContainerStop
  | OperationContainerRestart | OperationContainerRemove => true
  | _ => false
  end.

Definition validOperation (operation : Operation) : bool :=
  isRead operation || bool_decide (operation = OperationBackupDelete)
  || isDegradedMutationAllowed operation || bool_decide (operation = OperationComposePull)
  || bool_decide (operation = OperationFileWrite) || bool_decide (operation = OperationBackupCreate)
  || bool_decide (operation = OperationBackupRestore)
  || bool_decide (operation = OperationAutomaticSnapshot).

(** [Admit]: the error of a refusal, [None] when the operation is allowed. *)
Definition Admit (state : State) (operation : Operation) (durableCapacity : bool)
  : option budgetErr :=
  if negb (validOperation operation) then Some ErrStorageDegraded
  else if negb (Degraded state) then None
  else if (isRead operation || bool_decide (operation = OperationBackupDelete))%bool then None
  else if isDegradedMutationAllowed operation then
    if negb durableCapacity then Some ErrDurableAdmission else None
  else Some ErrStorageDegraded.

(** ** The emergency reserve *)

Inductive WriteClass :=
| WriteAuditWAL | WriteAuditCoverage | WriteContinuity | WriteOperationMinimum
| WriteRestoreJournal | WriteAgentLifecycle | WriteOperationOutput | WriteLogs | WriteMetrics
| WriteBackup | WriteAutomaticSnapshot | WriteStaging.

Definition reserveEligible (class : WriteClass) : bool :=
  match class with
  | WriteAuditWAL | WriteAuditCoverage | WriteContinuity | WriteOperationMinimum
  | WriteRestoreJournal | WriteAgentLifecycle => true
  | _ => false
  end.

Definition CanWrite (config : Config) (freeBytes bytes : Z) (class : WriteClass) : bool :=
  if ((freeBytes <? 0) || (bytes <? 0) || (bytes >? freeBytes))%bool then false
  else if reserveEligible class then true
  else freeBytes - bytes >=? EmergencyReserveBytes config.

(** ** Reclaim *)

Inductive Tier :=
| TierAbandonedTemp | TierACKedWAL | TierExpiredOperations | TierExcessSnapshots
| TierOldSnapshots | TierUnackedWAL.

#[export] Instance Tier_eq_dec : EqDecision Tier.
Proof. solve_decision. Defined.

(** A reclaimer: asked for a number of bytes, it changes the state it owns and
    returns the bytes it freed together with an optional error. *)
Definition Reclaimer (S E : Type) := Z -> S -> (Z * option E) * S.

Record Reclaimers (S E : Type) := mkReclaimers {
  AbandonedTemp : option (Reclaimer S E);
  ACKedWAL : option (Reclaimer S E);
  ExpiredOperations : option (Reclaimer S E);
  ExcessSnapshots : option (Reclaimer S E);
  OldSnapshots : option (Reclaimer S E);
  UnackedWAL : option (Reclaimer S E);
}.
Arguments mkReclaimers {S E}.
Arguments AbandonedTemp {S E}.
Arguments ACKedWAL {S E}.
Arguments ExpiredOperations {S E}.
Arguments ExcessSnapshots {S E}.
Arguments OldSnapshots {S E}.
Arguments UnackedWAL {S E}.

Record ReclaimStep := mkStep { st_Tier : Tier; st_FreedBytes : Z }.

Record ReclaimResult := mkResult {
  rs_RequestedBytes : Z;
  rs_FreedBytes : Z;
  rs_Degraded : bool;
  rs_Steps : list ReclaimStep;
}.

Inductive reclaimErr (E : Type) :=
| ReclaimNegative (t : Tier)
| ReclaimOverflow (t : Tier)
| ReclaimFailed (t : Tier) (e : E).
Arguments ReclaimNegative {E} t.
Arguments ReclaimOverflow {E} t.
Arguments ReclaimFailed {E} t e.

Section Reclaim.
Context {S E : Type}.

(** The loop of [Reclaim] over the ordered tiers. *)
Fixpoint reclaim_loop (bytesNeeded : Z) (items : list (Tier * option (Reclaimer S E)))
    (result : ReclaimResult) (s : S) : (ReclaimResult * option (reclaimErr E)) * S :=
  match items with
  | [] => ((result, None), s)
  | (tier, reclaimer) :: items' =>
    match reclaimer with
    | None => reclaim_loop bytesNeeded items' result s
    | Some reclaim =>
      if rs_FreedBytes result >=? bytesNeeded then reclaim_loop bytesNeeded items' result s
      else
        let remaining := bytesNeeded - rs_FreedBytes result in
        let '((freed, err), s') := reclaim remaining s in
        if freed <? 0 then ((result, Some (ReclaimNegative tier)), s')
        else if freed >? max_i64 - rs_FreedBytes result
        then ((result, Some (ReclaimOverflow tier)), s')
        else
          let result' := mkResult (rs_RequestedBytes result) (rs_FreedBytes result + freed)
                           (rs_Degraded result) (rs_Steps result ++ [mkStep tier freed]) in
          match err with
          | Some e => ((result', Some (ReclaimFailed tier e)), s')
          | None => reclaim_loop bytesNeeded items' result' s'
          end
    end
  end.

Definition ordered (r : Reclaimers S E) : list (Tier * option (Reclaimer S E)) :=
  [ (TierAbandonedTemp, AbandonedTemp r); (TierACKedWAL, ACKedWAL r);
    (TierExpiredOperations, ExpiredOperations r); (TierExcessSnapshots, ExcessSnapshots r);
    (TierOldSnapshots, OldSnapshots r); (TierUnackedWAL, UnackedWAL r) ].

Definition Reclaim (bytesNeeded : Z) (reclaimers : Reclaimers S E) (s : S)
  : (ReclaimResult * option (reclaimErr E)) * S :=
  if bytesNeeded <=? 0 then ((mkResult 0 0 false [], None), s)
  else
    let '((result, err), s') :=
      reclaim_loop bytesNeeded (ordered reclaimers) (mkResult bytesNeeded 0 false []) s in
    match err with
    | Some _ => ((result, err), s')
    | None => ((mkResult (rs_RequestedBytes result) (rs_FreedBytes result)
                  (rs_FreedBytes result <? bytesNeeded) (rs_Steps result), None), s')
    end.
End Reclaim.

(** ** Hysteresis *)

(** The products of [Observe] stay within [int64]. *)
Definition no_overflow (config : Config) (o : Observation) : Prop :=
  FilesystemTotalBytes o * ExitFreePercent config <= max_i64 /\
  StateBudgetBytes config * ExitStatePercent config <= max_i64.

Definition observe_run (m : Manager) (os : list Observation) : Manager :=
  foldl (fun m o => (Observe o m).2) m os.

Lemma percent_exact total percent :
  0 <= total -> 0 <= percent -> total * percent <= max_i64 ->
  percentBytes total percent = total * percent / 100.
Proof.
  intros Ht Hp Ho. unfold percentBytes. rewrite i64_id by (unfold i64_ok, min_i64; nia).
  apply Z.quot_div_nonneg; nia.
Qed.

Lemma config_ok_inv config :
  config_ok config = true ->
  0 < StateBudgetBytes config /\ 0 < EntryFreeBytes config < ExitFreeBytes config /\
  0 < EntryFreePercent config < ExitFreePercent config /\
  0 < ExitStatePercent config < 100 /\
  0 < EmergencyReserveBytes config < StateBudgetBytes config.
Proof. unfold config_ok. intros H. bool_to_prop. lia. Qed.

(** Leaving the degraded state takes strictly more room than entering it. *)
Lemma thresholds_apart config o :
  config_ok config = true -> validateObservation o = true -> no_overflow config o ->
  maximum (EntryFreeBytes config) (percentBytes (FilesystemTotalBytes o) (EntryFreePercent config))
    <= maximum (ExitFreeBytes config) (percentBytes (FilesystemTotalBytes o) (ExitFreePercent config)) /\
  percentBytes (StateBudgetBytes config) (ExitStatePercent config) < StateBudgetBytes config.
Proof.
  intros Hc Hv [Ho1 Ho2]. apply config_ok_inv in Hc as (H1 & H2 & H3 & H4 & _).
  unfold validateObservation in Hv. bool_to_prop.
  rewrite !percent_exact by (lia || nia). split.
  - assert (FilesystemTotalBytes o * EntryFreePercent config / 100
      <= FilesystemTotalBytes o * ExitFreePercent config / 100) by (apply Z.div_le_mono; nia).
    unfold maximum. repeat case_if; bool_to_prop; lia.
  - apply Z.div_lt_upper_bound; nia.
Qed.

Definition state_ok (s : State) : Prop := Degraded s = true <-> Reason s <> ReasonNone.

Lemma reason_none freeLow budgetExceeded :
  reason freeLow budgetExceeded = ReasonNone <-> freeLow = false /\ budgetExceeded = false.
Proof. destruct freeLow, budgetExceeded; simpl; split; intros; destruct_and?; done. Qed.

Lemma Observe_ok o m :
  config_ok (mg_config m) = true -> no_overflow (mg_config m) o -> state_ok (mg_state m) ->
  state_ok (mg_state (Observe o m).2) /\ mg_config (Observe o m).2 = mg_config m.
Proof.
  intros Hc Ho Hs. unfold Observe. case_if; [done|]. bool_to_prop.
  destruct (thresholds_apart _ _ Hc ltac:(done) Ho) as [T1 T2].
  unfold bind, get, modify, ret. cbn [snd mg_state mg_config]. split; [|done].
  unfold state_ok in *. cbn [Degraded Reason].
  set (entryFloor := maximum (EntryFreeBytes _) _) in *. set (exitFloor := maximum (ExitFreeBytes _) _) in *.
  set (ceiling := percentBytes (StateBudgetBytes _) _) in *.
  destruct (Degraded (mg_state m)) eqn:Ed; cbn [negb].
  - destruct (_ && _)%bool eqn:Eexit; cbn [negb andb].
    + bool_to_prop. split; [done|]. intros H'. exfalso. apply H', reason_none. lia.
    + case_bool_decide; cbn [andb]; [split; [intros _; by apply Hs | done] | done].
  - destruct (_ || _)%bool eqn:Eenter; cbn [andb].
    + split; [intros _|done]. case_bool_decide as Hn; [|done].
      exfalso. apply reason_none in Hn as [E1 E2]. by rewrite E1, E2 in Eenter.
    + apply orb_false_iff in Eenter as [-> ->]. done.
Qed.

Lemma observe_run_ok m os :
  config_ok (mg_config m) = true -> Forall (no_overflow (mg_config m)) os -> state_ok (mg_state m) ->
  state_ok (mg_state (observe_run m os)) /\ mg_config (observe_run m os) = mg_config m.
Proof.
  intros Hc Ho. revert m Hc Ho. induction os as [|o os IH]; intros m Hc Ho Hs; [done|].
  apply Forall_cons in Ho as [Ho1 Ho2]. destruct (Observe_ok o m Hc Ho1 Hs) as [Hs' Hcfg].
  rewrite <- Hcfg in *. by apply IH.
Qed.

(** After any sequence of observations of a freshly created manager,
    storage is reported degraded exactly when a reason is reported; in the
    hysteresis band the reason that caused the pressure is kept. (The products
    with the percentages stay within [int64].) *)
Theorem degraded_has_reason config m os :
  New config = Ok m -> Forall (no_overflow config) os -> state_ok (mg_state (observe_run m os)).
Proof.
  unfold New. case_if; [|done]. intros [= <-] Ho.
  apply (observe_run_ok (mkManager config zero_state) os); done.
Qed.

Definition low_obs : Observation := mkObservation (100 * GiB) (2 * GiB) GiB.
Definition band_obs : Observation := mkObservation (100 * GiB) (11 * GiB / 2) GiB.

Lemma degraded_has_reason_witness :
  state_ok (mg_state (observe_run (mkManager DefaultConfig zero_state) [low_obs; band_obs])) /\
  Reason (mg_state (observe_run (mkManager DefaultConfig zero_state) [low_obs; band_obs]))
    = ReasonFilesystemFreeLow.
Proof.
  split; [|vm_compute; reflexivity].
  apply (degraded_has_reason DefaultConfig (mkManager DefaultConfig zero_state) [low_obs; band_obs]).
  - reflexivity.
  - repeat constructor; vm_compute; discriminate.
Defined.

(** The hysteresis does not flap: observing the same measurement again
    never changes whether storage is degraded, and a degraded manager leaves
    that state only when free space and state size are both strictly inside
    the limits whose violation enters it. *)
Theorem hysteresis_stable o m :
  config_ok (mg_config m) = true -> no_overflow (mg_config m) o ->
  let m1 := (Observe o m).2 in
  Degraded (mg_state (Observe o m1).2) = Degraded (mg_state m1) /\
  (Degraded (mg_state m) = true -> Degraded (mg_state m1) = false ->
   EntryFreeFloor (mg_state m1) <= FilesystemFreeBytes o /\
   AgentStateBytes o < StateBudgetBytes (mg_config m)).
Proof.
  intros Hc Ho m1. subst m1. unfold Observe. case_if; [unfold fail; simpl; split; congruence|].
  bool_to_prop. destruct (thresholds_apart _ _ Hc ltac:(done) Ho) as [T1 T2].
  unfold bind, get, modify, ret. cbn [snd mg_state mg_config Degraded EntryFreeFloor].
  set (entryFloor := maximum (EntryFreeBytes _) _) in *. set (exitFloor := maximum (ExitFreeBytes _) _) in *.
  set (ceiling := percentBytes (StateBudgetBytes _) _) in *.
  split.
  - destruct (Degraded (mg_state m)); cbn [negb];
      repeat match goal with |- context [if ?b then _ else _] => destruct b eqn:? end; bool_to_prop;
      lia.
  - intros -> H'. cbn [negb] in H'. bool_to_prop. lia.
Qed.

Lemma hysteresis_stable_witness :
  Degraded (mg_state (Observe band_obs (Observe band_obs
     (observe_run (mkManager DefaultConfig zero_state) [low_obs])).2).2) = true.
Proof.
  pose proof (hysteresis_stable band_obs (observe_run (mkManager DefaultConfig zero_state) [low_obs])
    eq_refl ltac:(split; vm_compute; discriminate)) as [H _].
  rewrite H. vm_compute. reflexivity.
Defined.

(** ** Reclaim *)

Section ReclaimProps.
Context {S E : Type}.
Implicit Types (items : list (Tier * option (Reclaimer S E))) (res : ReclaimResult).

(** Every step starts while bytes are still missing. *)
Definition needed_steps (need start : Z) (steps : list ReclaimStep) : Prop :=
  forall pre x post, steps = pre ++ x :: post -> start + sum_by st_FreedBytes pre < need.

Lemma needed_steps_cons need start x steps :
  start < need -> needed_steps need (start + st_FreedBytes x) steps ->
  needed_steps need start (x :: steps).
Proof.
  intros Hs H pre y post E0. destruct pre as [|z pre]; simpl in E0.
  - unfold sum_by. simpl. lia.
  - injection E0 as <- E0. specialize (H _ _ _ E0). unfold sum_by in *. simpl. lia.
Qed.

(** What a run of the loop over [items] adds to the result. *)
Record reclaim_post (need : Z) items res res' (err : option (reclaimErr E))
    (steps : list ReclaimStep) : Prop := {
  rp_steps : rs_Steps res' = rs_Steps res ++ steps;
  rp_requested : rs_RequestedBytes res' = rs_RequestedBytes res;
  rp_order : st_Tier <$> steps `sublist_of` items.*1;
  rp_freed : rs_FreedBytes res' = rs_FreedBytes res + sum_by st_FreedBytes steps;
  rp_bound : rs_FreedBytes res' <= max_i64;
  rp_nonneg : Forall (fun st => 0 <= st_FreedBytes st) steps;
  rp_needed : needed_steps need (rs_FreedBytes res) steps;
  rp_all : err = None -> rs_FreedBytes res' < need ->
           forall tier r, (tier, Some r) ∈ items -> tier ∈ st_Tier <$> steps;
}.

Lemma reclaim_post_stop need items res err :
  rs_FreedBytes res <= max_i64 -> (err = None -> items = []) ->
  reclaim_post need items res res err [].
Proof.
  intros Hb He. split; unfold sum_by; simpl; auto using app_nil_r, sublist_nil_l; try lia.
  - by intros [|].
  - intros Hn _ t r H. rewrite (He Hn) in H. by apply elem_of_nil in H.
Qed.

(** A tier that is not asked. *)
Lemma reclaim_post_skip need items res res' err steps tier r :
  (r = None \/ need <= rs_FreedBytes res) ->
  reclaim_post need items res res' err steps -> reclaim_post need ((tier, r) :: items) res res' err steps.
Proof.
  intros Hr []. split; auto; [by apply sublist_cons|].
  intros He Hlt t r' [E0|Hin]%elem_of_cons; [|by eauto]. injection E0 as _ <-.
  pose proof (sum_by_nonneg _ _ rp_nonneg0). destruct Hr; [done | lia].
Qed.

(** A tier that frees bytes. *)
Lemma reclaim_post_step need items res res' err steps tier r freed :
  rs_FreedBytes res < need -> 0 <= freed ->
  reclaim_post need items
    (mkResult (rs_RequestedBytes res) (rs_FreedBytes res + freed) (rs_Degraded res)
       (rs_Steps res ++ [mkStep tier freed])) res' err steps ->
  reclaim_post need ((tier, r) :: items) res res' err (mkStep tier freed :: steps).
Proof.
  intros Hlt Hf []. simpl in *. split; auto.
  - by rewrite rp_steps0, <- app_assoc.
  - by apply sublist_skip.
  - unfold sum_by in *. simpl. lia.
  - by apply needed_steps_cons.
  - intros He Hlt' t r' [E0|Hin]%elem_of_cons; [injection E0 as -> _; by left|].
    right. by eapply rp_all0.
Qed.

Lemma reclaim_loop_spec need items res s res' err s' :
  0 <= rs_FreedBytes res <= max_i64 ->
  reclaim_loop need items res s = ((res', err), s') ->
  exists steps, reclaim_post need items res res' err steps.
Proof.
  revert res s. induction items as [|[tier [r|]] items IH]; intros res s Hr; cbn [reclaim_loop].
  - intros [= <- <- <-]. exists []. by apply reclaim_post_stop; [lia|].
  - case_if; bool_to_prop.
    { intros H. destruct (IH _ _ Hr H) as [steps Hp]. exists steps. apply reclaim_post_skip; auto. }
    destruct (r (need - rs_FreedBytes res) s) as [[freed e] s1].
    do 2 (case_if; [intros [= <- <- <-]; exists []; by apply reclaim_post_stop; [lia|]|]).
    bool_to_prop. destruct e as [e|].
    + intros [= <- <- <-]. eexists. apply reclaim_post_step; [done | done |].
      by apply reclaim_post_stop; simpl; [lia|].
    + intros H. apply IH in H as [steps Hp]; [|simpl; lia]. eexists. by apply reclaim_post_step.
  - intros H. destruct (IH _ _ Hr H) as [steps Hp]. exists steps. apply reclaim_post_skip; auto.
Qed.

(** Reclaim follows the fixed order of irreversible loss: whatever the
    reclaimers do, the tiers used are a subsequence of abandoned temp files,
    acknowledged WAL, expired operations, excess snapshots, old snapshots,
    unacknowledged WAL; a tier is asked only while bytes are still missing;
    the total is the exact sum of the steps and never overflows; and the
    result is degraded exactly when every configured tier was asked and the
    target was still missed. *)
Theorem reclaim_order need (rs : Reclaimers S E) s res err s' :
  Reclaim need rs s = ((res, err), s') ->
  st_Tier <$> rs_Steps res `sublist_of`
    [TierAbandonedTemp; TierACKedWAL; TierExpiredOperations; TierExcessSnapshots;
     TierOldSnapshots; TierUnackedWAL] /\
  (forall pre x post, rs_Steps res = pre ++ x :: post -> sum_by st_FreedBytes pre < need) /\
  rs_FreedBytes res = sum_by st_FreedBytes (rs_Steps res) /\ 0 <= rs_FreedBytes res <= max_i64 /\
  (err = None -> rs_Degraded res = true ->
     forall tier r, (tier, Some r) ∈ ordered rs -> tier ∈ st_Tier <$> rs_Steps res) /\
  (err = None -> 0 < need -> rs_Degraded res = (rs_FreedBytes res <? need)).
Proof.
  unfold Reclaim. case_if.
  { intros [= <- <- <-]. simpl. bool_to_prop. unfold max_i64.
    split_and!; try done; [apply sublist_nil_l | by intros [|] | lia]. }
  destruct (reclaim_loop _ _ _ s) as [[res1 err1] s1] eqn:E1. bool_to_prop.
  apply reclaim_loop_spec in E1 as [steps []]; [|simpl; unfold max_i64; lia]. simpl in *.
  pose proof (sum_by_nonneg _ _ rp_nonneg0).
  intros H'. assert (rs_Steps res = steps /\ rs_FreedBytes res = rs_FreedBytes res1 /\ err = err1 /\
    (err = None -> rs_Degraded res = (rs_FreedBytes res <? need))) as (-> & -> & -> & Hdeg).
  { destruct err1; injection H' as <- <- <-; simpl; split_and!; done. }
  split_and!; auto; try lia.
  intros He Hd. rewrite (Hdeg He) in Hd. bool_to_prop. by apply rp_all0.
Qed.
End ReclaimProps.

(** A run for the witness: temp files give 10 bytes, acknowledged WAL fails
    after 3. *)
Definition demo_reclaimers : Reclaimers unit string :=
  mkReclaimers (Some (fun _ s => ((10, None), s))) (Some (fun _ s => ((3, Some "io"%string), s)))
    None None None (Some (fun n s => ((n, None), s))).

Lemma reclaim_order_witness :
  rs_FreedBytes (Reclaim 20 demo_reclaimers tt).1.1 = 13 /\
  rs_FreedBytes (Reclaim 20 demo_reclaimers tt).1.1
    = sum_by st_FreedBytes (rs_Steps (Reclaim 20 demo_reclaimers tt).1.1).
Proof.
  split; [vm_compute; reflexivity|].
  apply (reclaim_order 20 demo_reclaimers tt (Reclaim 20 demo_reclaimers tt).1.1
           (Reclaim 20 demo_reclaimers tt).1.2 (Reclaim 20 demo_reclaimers tt).2).
  vm_compute. reflexivity.
Defined.
