(* ===== verification/AgentStorage.v ===== *)
(** * Agent storage

    Models [internal/agentstorage]: the [Controller] that refreshes the disk
    budget from the filesystem and decides admissions ([controller.go]) and
    the [EvictionExecutor] that runs the cleanup tiers over the subsystems
    ([eviction.go]). What the controller and the executor call - the
    filesystem observation, the context, and the reclaimers of the WAL, the
    operation journal, the backups and the project staging - acts on a world
    [W] and is a parameter. [ReclaimerLaw] states what a subsystem promises to
    the executor; the subsystems are put in, and the promise of the log is
    discharged, in [AgentEviction]. *)

From S2P Require Import Prelude DiskBudget.

(** ** State *)

Inductive storageErr (E : Type) :=
| StorageEnv (e : E)
| StorageBudget (e : budgetErr)
| StorageAdmission (e : budgetErr)
| StorageUnknownClass
| StorageOutputDropped
| StorageProject (e : budgetErr)
| StorageProjectEnv (e : E)
| StorageInvalidCount.
Arguments StorageEnv {E} e.
Arguments StorageBudget {E} e.
Arguments StorageAdmission {E} e.
Arguments StorageUnknownClass {E}.
Arguments StorageOutputDropped {E}.
Arguments StorageProject {E} e.
Arguments StorageProjectEnv {E} e.
Arguments StorageInvalidCount {E}.

Record Controller := mkController {
  ct_manager : Manager;
  ct_budget : Config;
  ct_observation : Observation;
  ct_state : State;
}.

(** What the code reads from its surroundings. *)
Class Environment (W E : Type) := {
  env_ctx : W -> option E;
  env_observe : W -> res E Observation;
}.

Definition MinimumOperationDurableBytes : Z := 2 ^ 20 + 2 ^ 15.

Inductive PersistenceClass := PersistenceMinimal | PersistenceOutput | PersistenceOther.
Inductive Trigger := TriggerManual | TriggerAutomatic.

Section Controller.
Context {W E : Type} `{Environment W E}.

Definition ctl (A : Type) := M (Controller * W) (storageErr E) A.

Definition checkCtx : ctl unit :=
  let* s := get in
  match env_ctx (snd s) with Some e => fail (StorageEnv e) | None => ret tt end.

Definition observeWorld : ctl Observation :=
  let* s := get in
  match env_observe (snd s) with Err e => fail (StorageEnv e) | Ok o => ret o end.

(** [refreshLocked] *)
Definition refreshLocked : ctl State :=
  checkCtx ;;;
  let* observation := observeWorld in
  let* s := get in
  match Observe observation (ct_manager (fst s)) with
  | (Err e, m) =>
    modify (fun s => (mkController m (ct_budget (fst s)) (ct_observation (fst s)) (ct_state (fst s)), snd s)) ;;;
    fail (StorageBudget e)
  | (Ok state, m) =>
    modify (fun s => (mkController m (ct_budget (fst s)) observation state, snd s)) ;;;
    ret state
  end.

Definition Refresh : ctl State := refreshLocked.

Definition observed_free : ctl Z := gets (fun s => FilesystemFreeBytes (ct_observation (fst s))).
Definition manager_config : ctl Config := gets (fun s => mg_config (ct_manager (fst s))).

Definition AdmitOperation (kind : Operation) : ctl unit :=
  let* state := refreshLocked in
  let* free := observed_free in
  let* config := manager_config in
  let durable := CanWrite config free MinimumOperationDurableBytes WriteOperationMinimum in
  match Admit state kind durable with
  | Some e => fail (StorageAdmission e)
  | None => ret tt
  end.

Definition admitBytes (bytes : Z) (class : WriteClass) : ctl unit :=
  refreshLocked ;;;
  let* free := observed_free in
  let* config := manager_config in
  if CanWrite config free bytes class then ret tt
  else match class with
       | WriteOperationOutput => fail StorageOutputDropped
       | _ => fail (StorageAdmission ErrDurableAdmission)
       end.

Definition AdmitOperationPersistence (class : PersistenceClass) (estimatedBytes : Z) : ctl unit :=
  match class with
  | PersistenceOutput => admitBytes estimatedBytes WriteOperationOutput
  | PersistenceMinimal => admitBytes estimatedBytes WriteOperationMinimum
  | PersistenceOther => fail StorageUnknownClass
  end.

Definition admitMutationBytes (kind : Operation) (bytes : Z) (class : WriteClass) : ctl unit :=
  let* state := refreshLocked in
  match Admit state kind false with
  | Some e => fail (StorageAdmission e)
  | None =>
    let* free := observed_free in
    let* config := manager_config in
    if CanWrite config free bytes class then ret tt
    else fail (StorageAdmission ErrDurableAdmission)
  end.

Definition AdmitBackup (trigger : Trigger) (estimatedBytes : Z) : ctl unit :=
  match trigger with
  | TriggerManual => admitMutationBytes OperationBackupCreate estimatedBytes WriteBackup
  | TriggerAutomatic =>
    admitMutationBytes OperationAutomaticSnapshot estimatedBytes WriteAutomaticSnapshot
  end.

Definition AdmitProjectStaging (total free bytes : Z) : ctl unit :=
  let* s := get in
  match env_ctx (snd s) with
  | Some e => fail (StorageProjectEnv e)
  | None =>
    if* ((total <=? 0) || (free <? 0) || (free >? total) || (bytes <? 0))%bool
    then StorageProject ErrInvalidObservation end;
    let budget := ct_budget (fst s) in
    let entryFloor := maximum (EntryFreeBytes budget) (percentBytes total (EntryFreePercent budget)) in
    if* ((bytes >? free) || (free - bytes <? entryFloor))%bool
    then StorageProject ErrStorageDegraded end;
    ret tt
  end.

Definition AdmitRestore (total free estimatedBytes : Z) : ctl unit :=
  let* state := refreshLocked in
  match Admit state OperationBackupRestore false with
  | Some e => fail (StorageAdmission e)
  | None => AdmitProjectStaging total free estimatedBytes
  end.
End Controller.

(** ** Eviction *)

(** The reclaimers of the subsystems, acting on the world. *)
Record EvictionConfig (W E : Type) := mkEviction {
  ev_staging : Reclaimer W E;
  ev_op_temp : Reclaimer W E;
  ev_backup_temp : Reclaimer W E;
  ev_wal_temp : Reclaimer W E;
  ev_wal_acked : Reclaimer W E;
  ev_op_expired : Reclaimer W E;
  ev_backup_excess : Z -> Reclaimer W E;
  ev_backup_old : Reclaimer W E;
  ev_wal_unacked : Reclaimer W E;
  ev_keep : Z;
}.
Arguments mkEviction {W E}.
Arguments ev_staging {W E}.
Arguments ev_op_temp {W E}.
Arguments ev_backup_temp {W E}.
Arguments ev_wal_temp {W E}.
Arguments ev_wal_acked {W E}.
Arguments ev_op_expired {W E}.
Arguments ev_backup_excess {W E}.
Arguments ev_backup_old {W E}.
Arguments ev_wal_unacked {W E}.
Arguments ev_keep {W E}.

Inductive evictErr (E : Type) := EvictContext (e : E) | EvictTier (e : reclaimErr E).
Arguments EvictContext {E} e.
Arguments EvictTier {E} e.

(** The number of automatic snapshots [NewEvictionExecutor] keeps. *)
Definition eviction_keep (retention requested : Z) : option Z :=
  let keep := if requested =? 0 then retention else requested in
  if keep <? 1 then None else Some keep.

Section Eviction.
Context {W E : Type} `{Environment W E} (invalidCount : E).

(** The loop of [reclaimAbandoned] over the three temp reclaimers. *)
Fixpoint abandoned_loop (reclaims : list (Reclaimer W E)) (bytesNeeded freed : Z) (w : W)
  : (Z * option E) * W :=
  match reclaims with
  | [] => ((freed, None), w)
  | reclaim :: reclaims' =>
    if freed >=? bytesNeeded then ((freed, None), w)
    else
      let '((bytes, err), w') := reclaim (bytesNeeded - freed) w in
      if ((bytes <? 0) || (bytes >? max_i64 - freed))%bool then ((freed, Some invalidCount), w')
      else match err with
           | Some e => ((freed + bytes, Some e), w')
           | None => abandoned_loop reclaims' bytesNeeded (freed + bytes) w'
           end
  end.

(** [reclaimAbandoned]: project staging first, never credited. *)
Definition reclaimAbandoned (ev : EvictionConfig W E) : Reclaimer W E := fun bytesNeeded w =>
  let '((_, err), w1) := ev_staging ev bytesNeeded w in
  match err with
  | Some e => ((0, Some e), w1)
  | None => abandoned_loop [ev_op_temp ev; ev_backup_temp ev; ev_wal_temp ev] bytesNeeded 0 w1
  end.

(** A reclaimer that checks the context first. *)
Definition with_ctx (r : Reclaimer W E) : Reclaimer W E := fun bytes w =>
  match env_ctx w with
  | Some e => ((0, Some e), w)
  | None => r bytes w
  end.

Definition eviction_reclaimers (ev : EvictionConfig W E) : Reclaimers W E :=
  mkReclaimers (Some (reclaimAbandoned ev)) (Some (with_ctx (ev_wal_acked ev)))
    (Some (ev_op_expired ev)) (Some (ev_backup_excess ev (ev_keep ev)))
    (Some (ev_backup_old ev)) (Some (with_ctx (ev_wal_unacked ev))).

(** [EvictionExecutor.Reclaim] *)
Definition evict (ev : EvictionConfig W E) (bytesNeeded : Z) (w : W)
  : (ReclaimResult * option (evictErr E)) * W :=
  if bytesNeeded <=? 0 then ((mkResult 0 0 false [], None), w)
  else match env_ctx w with
       | Some e => ((mkResult bytesNeeded 0 true [], Some (EvictContext e)), w)
       | None =>
         let '((r, err), w') := Reclaim bytesNeeded (eviction_reclaimers ev) w in
         ((r, EvictTier <$> err), w')
       end.

(** [ReclaimForPressure]: the target is what is missing to both exit marks. *)
Record PressureReclaimResult := mkPressure {
  pr_Before : State;
  pr_Requested : Z;
  pr_Reclaim : ReclaimResult;
  pr_Error : option (evictErr E);
  pr_After : res (storageErr E) State;
}.

Definition pressure_target (st : State) (o : Observation) : Z :=
  let freeDeficit := ExitFreeFloor st - FilesystemFreeBytes o in
  let stateDeficit := AgentStateBytes o - ExitStateCeiling st in
  let bytesNeeded := maximum freeDeficit stateDeficit in
  if bytesNeeded <? 0 then 0 else bytesNeeded.

Definition ReclaimForPressure (ev : EvictionConfig W E) : ctl (W := W) (E := E) PressureReclaimResult :=
  let* beforeState := refreshLocked in
  let* beforeObservation := gets (fun s => ct_observation (fst s)) in
  if negb (Degraded beforeState)
  then ret (mkPressure beforeState 0 (mkResult 0 0 false []) None (Ok beforeState))
  else
    let bytesNeeded := pressure_target beforeState beforeObservation in
    let* r := (fun s => let '(r, w) := evict ev bytesNeeded (snd s) in (Ok r, (fst s, w))) in
    let* after := attempt refreshLocked in
    ret (mkPressure beforeState bytesNeeded (fst r) (snd r) after).
End Eviction.

(** ** What a subsystem promises to the executor *)

(** Whatever it is asked for, the reclaimer moves the world along [R]. *)
Class ReclaimerLaw {W E} (R : W -> W -> Prop) (r : Reclaimer W E) : Prop :=
  reclaimer_law : forall n w, R w (r n w).2.

Section EvictionLaw.
Context {W E : Type} `{Environment W E} (invalidCount : E) (R : W -> W -> Prop) `{!PreOrder R}.

Lemma reclaim_loop_law need items res w :
  Forall (fun it : Tier * option (Reclaimer W E) => forall r, snd it = Some r -> ReclaimerLaw R r) items ->
  R w (reclaim_loop need items res w).2.
Proof.
  intros Hl. revert res w. induction Hl as [|[tier [r|]] items Hr Hl IH]; intros res w;
    cbn [reclaim_loop]; [reflexivity | | apply IH].
  case_if; [apply IH|]. pose proof (Hr r eq_refl (need - rs_FreedBytes res) w) as Hw.
  destruct (r (need - rs_FreedBytes res) w) as [[freed err] w']. simpl in Hw.
  do 2 (case_if; [done|]). destruct err; [done|]. etransitivity; [exact Hw | apply IH].
Qed.

#[export] Instance with_ctx_law r : ReclaimerLaw R r -> ReclaimerLaw R (with_ctx r).
Proof. intros Hr n w. unfold with_ctx. destruct (env_ctx w); [simpl; reflexivity | apply Hr]. Qed.

Lemma abandoned_loop_law reclaims need freed w :
  Forall (ReclaimerLaw R) reclaims -> R w (abandoned_loop invalidCount reclaims need freed w).2.
Proof.
  intros Hl. revert freed w. induction Hl as [|r rs Hr Hl IH]; intros freed w;
    cbn [abandoned_loop]; [reflexivity|].
  case_if; [simpl; reflexivity|]. pose proof (Hr (need - freed) w) as Hw.
  destruct (r (need - freed) w) as [[bytes err] w']. simpl in Hw. case_if; [done|].
  destruct err; [done|]. etransitivity; [exact Hw | apply IH].
Qed.

(** A configuration all of whose reclaimers keep the promise. *)
Record eviction_law (ev : EvictionConfig W E) : Prop := {
  el_staging : ReclaimerLaw R (ev_staging ev);
  el_op_temp : ReclaimerLaw R (ev_op_temp ev);
  el_backup_temp : ReclaimerLaw R (ev_backup_temp ev);
  el_wal_temp : ReclaimerLaw R (ev_wal_temp ev);
  el_wal_acked : ReclaimerLaw R (ev_wal_acked ev);
  el_op_expired : ReclaimerLaw R (ev_op_expired ev);
  el_backup_excess : ReclaimerLaw R (ev_backup_excess ev (ev_keep ev));
  el_backup_old : ReclaimerLaw R (ev_backup_old ev);
  el_wal_unacked : ReclaimerLaw R (ev_wal_unacked ev);
}.

Lemma evict_law ev n w : eviction_law ev -> R w (evict invalidCount ev n w).2.
Proof.
  intros [H1 H2 H3 H4 H5 H6 H7 H8 H9]. unfold evict. case_if; [simpl; reflexivity|].
  destruct (env_ctx w); [simpl; reflexivity|].
  assert (ReclaimerLaw R (reclaimAbandoned invalidCount ev)) as Hab.
  { intros k w0. unfold reclaimAbandoned. pose proof (H1 k w0) as Hs.
    destruct (ev_staging ev k w0) as [[f err] w1]. simpl in Hs. destruct err; [done|].
    etransitivity; [exact Hs|]. apply abandoned_loop_law. by repeat constructor. }
  assert (R w (Reclaim n (eviction_reclaimers invalidCount ev) w).2) as HR.
  { unfold Reclaim. case_if; [simpl; reflexivity|].
    match goal with |- context [reclaim_loop ?a ?b ?c w] =>
      pose proof (reclaim_loop_law a b c w) as Hloop end.
    destruct (reclaim_loop _ _ _ w) as [[res err] w'] eqn:E1.
    assert (R w w') as Hw.
    { apply Hloop. clear Hloop E1. repeat apply Forall_cons_2; try apply Forall_nil_2;
        intros r [= <-]; try apply with_ctx_law; assumption. }
    by destruct err. }
  by destruct (Reclaim n _ w) as [[r err] w'].
Qed.
End EvictionLaw.

(** A reclaimer of one part of the world, its errors embedded. *)
Definition lift_reclaimer {W S E E'} (get_ : W -> S) (put : S -> W -> W) (embed : E' -> E) (r : Reclaimer S E') : Reclaimer W E :=
  fun n w => let '((freed, err), s') := r n (get_ w) in ((freed, embed <$> err), put s' w).

Definition idle {W E} : Reclaimer W E := fun _ w => ((0, None), w).

(** ** Admission *)

Lemma refreshLocked_ok {W E} `{Environment W E} s st s' :
  refreshLocked s = (Ok st, s') ->
  exists o, env_observe (snd s) = Ok o /\ Observe o (ct_manager (fst s)) = (Ok st, ct_manager (fst s')) /\
    ct_observation (fst s') = o /\ ct_state (fst s') = st /\ ct_budget (fst s') = ct_budget (fst s) /\
    snd s' = snd s.
Proof.
  unfold refreshLocked, checkCtx, bind at 1, bind at 1, get at 1. destruct (env_ctx (snd s)); [done|].
  unfold ret at 1, bind at 1, observeWorld, bind at 1, get at 1.
  destruct (env_observe (snd s)) as [o|] eqn:Eo; [|done]. unfold ret at 1, bind at 1, get at 1.
  destruct (Observe o (ct_manager (fst s))) as [[st'|] m] eqn:Em; [|done].
  intros [= <- <-]. exists o. done.
Qed.

Lemma Observe_config o m : mg_config (Observe o m).2 = mg_config m.
Proof. unfold Observe. by case_if. Qed.

Lemma CanWrite_reserve config free bytes class :
  CanWrite config free bytes class = true ->
  0 <= bytes <= free /\ (reserveEligible class = false -> EmergencyReserveBytes config <= free - bytes).
Proof.
  unfold CanWrite. case_if; [done|]. bool_to_prop.
  destruct (reserveEligible class); intros Hw; bool_to_prop; split; try lia; done.
Qed.

(** A granted admission never eats into the emergency reserve: when a
    backup is admitted the storage is not degraded and at least the reserve
    stays free after the write; optional operation output is admitted only
    with the reserve left free; and even the minimal records are admitted only
    if they fit the free space. *)
Theorem admission_keeps_reserve {W E} `{Environment W E} bytes (s s' : Controller * W) :
  let free := FilesystemFreeBytes (ct_observation (fst s')) in
  let reserve := EmergencyReserveBytes (mg_config (ct_manager (fst s))) in
  (forall trigger, AdmitBackup trigger bytes s = (Ok tt, s') ->
     Degraded (ct_state (fst s')) = false /\ 0 <= bytes /\ reserve <= free - bytes) /\
  (AdmitOperationPersistence PersistenceOutput bytes s = (Ok tt, s') ->
     0 <= bytes /\ reserve <= free - bytes) /\
  (AdmitOperationPersistence PersistenceMinimal bytes s = (Ok tt, s') -> 0 <= bytes <= free).
Proof.
  intros free reserve.
  assert (forall class, admitBytes bytes class s = (Ok tt, s') ->
    CanWrite (mg_config (ct_manager (fst s))) free bytes class = true) as Hbytes.
  { intros class. unfold admitBytes, bind at 1. destruct (refreshLocked s) as [[st|] s1] eqn:E1; [|done].
    apply refreshLocked_ok in E1 as (o & _ & Eo & Ho & _).
    pose proof (Observe_config o (ct_manager (fst s))) as Hc. rewrite Eo in Hc. simpl in Hc.
    unfold bind, observed_free, manager_config, gets. rewrite Hc.
    destruct (CanWrite _ _ _ _) eqn:Ec; [|by destruct class]. intros [= <-]. done. }
  split_and!.
  - assert (forall kind class, isRead kind = false -> isDegradedMutationAllowed kind = false ->
      kind <> OperationBackupDelete -> reserveEligible class = false ->
      admitMutationBytes kind bytes class s = (Ok tt, s') ->
      Degraded (ct_state (fst s')) = false /\ 0 <= bytes /\ reserve <= free - bytes) as Hmut.
    { intros kind class Hk1 Hk2 Hk3 Hcl. unfold admitMutationBytes, bind at 1.
      destruct (refreshLocked s) as [[st|] s1] eqn:E1; [|done].
      apply refreshLocked_ok in E1 as (o & _ & Eo & Ho & Hst & _).
      pose proof (Observe_config o (ct_manager (fst s))) as Hc. rewrite Eo in Hc. simpl in Hc.
      destruct (Admit st kind false) eqn:Ea; [done|].
      unfold bind, observed_free, manager_config, gets. rewrite Hc.
      destruct (CanWrite _ _ _ _) eqn:Ec; [|done]. intros [= <-].
      apply CanWrite_reserve in Ec as [Hb Hr]. rewrite Hst. split; [|split; [lia | by apply Hr]].
      revert Ea. unfold Admit. rewrite Hk1, Hk2, bool_decide_eq_false_2 by done.
      destruct (negb (validOperation kind)); [done|]. by destruct (Degraded st). }
    intros [|]; apply Hmut; done.
  - intros Ha. apply Hbytes, CanWrite_reserve in Ha as [? Hr]. split; [lia | by apply Hr].
  - intros Ha. by apply Hbytes, CanWrite_reserve in Ha as [? _].
Qed.

(** A world that is just its own measurement, for the witnesses: every
    reclaimer frees what it is asked for. *)
#[export] Instance obs_env : Environment Observation unit :=
  Build_Environment _ _ (fun _ => None) (fun o => Ok o).

Definition demo_controller (degraded : bool) : Controller :=
  mkController (mkManager DefaultConfig (mkState degraded (if degraded then ReasonBoth else ReasonNone) 0 0 0 0))
    DefaultConfig (mkObservation 0 0 0) zero_state.

Lemma admission_keeps_reserve_witness :
  let s := (demo_controller false, mkObservation (100 * GiB) (10 * GiB) GiB) in
  64 * MiB <= FilesystemFreeBytes (ct_observation (fst (AdmitBackup TriggerManual GiB s).2)) - GiB.
Proof.
  intros s.
  pose proof (admission_keeps_reserve GiB s (AdmitBackup TriggerManual GiB s).2) as [H _].
  apply (H TriggerManual). vm_compute. reflexivity.
Defined.

(** ** Relieving pressure *)

Section Pressure.
Context {W E : Type} `{Environment W E} (invalidCount : E).

(** The bytes an eviction reports as freed show up in the next measurement. *)
Definition honest (ev : EvictionConfig W E) : Prop := forall n w r w' o,
  evict invalidCount ev n w = ((r, None), w') -> env_observe w = Ok o ->
  validateObservation o = true -> env_ctx w' = None /\
  exists o', env_observe w' = Ok o' /\ validateObservation o' = true /\
    FilesystemTotalBytes o' = FilesystemTotalBytes o /\
    FilesystemFreeBytes o + rs_FreedBytes r <= FilesystemFreeBytes o' /\
    AgentStateBytes o' <= AgentStateBytes o - rs_FreedBytes r.

Lemma evict_reached ev n w r w' :
  evict invalidCount ev n w = ((r, None), w') -> rs_Degraded r = false -> n <= rs_FreedBytes r.
Proof.
  unfold evict. case_if; [intros [= <- <-] _; bool_to_prop; simpl; lia|].
  destruct (env_ctx w); [done|]. unfold Reclaim. case_if; [congruence|].
  destruct (reclaim_loop _ _ _ w) as [[res [err|]] w1]; simpl; [done|].
  intros [= <- <-]. simpl. intros. bool_to_prop. done.
Qed.

(** A degraded manager leaves the state when both exit marks are met. *)
Lemma Observe_exit o m st m' o' :
  Observe o m = (Ok st, m') -> Degraded st = true -> validateObservation o' = true ->
  FilesystemTotalBytes o' = FilesystemTotalBytes o ->
  ExitFreeFloor st <= FilesystemFreeBytes o' -> AgentStateBytes o' <= ExitStateCeiling st ->
  exists st', (Observe o' m').1 = Ok st' /\ Degraded st' = false.
Proof.
  unfold Observe. case_if; [done|]. unfold bind, get, modify, ret.
  intros [= <- <-] Hd Hv Ht Hf Hs. cbn [Degraded ExitFreeFloor ExitStateCeiling mg_state mg_config] in *.
  rewrite Hv. cbn [negb]. eexists. split; [done|]. cbn [Degraded mg_config mg_state]. rewrite Hd. cbn [negb]. rewrite Ht.
  apply negb_false_iff, andb_true_iff. split; lia.
Qed.

(** The eviction target is sufficient: if storage is degraded, the
    eviction run reports no error and reaches its target, and the bytes it
    frees show up in the next measurement, then the re-observation at the
    end of [ReclaimForPressure] finds the storage no longer degraded. *)
Theorem pressure_relieved ev s p s' :
  honest ev -> ReclaimForPressure invalidCount ev s = (Ok p, s') ->
  Degraded (pr_Before p) = true -> pr_Error p = None -> rs_Degraded (pr_Reclaim p) = false ->
  exists st, pr_After p = Ok st /\ Degraded st = false.
Proof.
  intros Hh. unfold ReclaimForPressure, bind at 1.
  destruct (refreshLocked s) as [[st|] s1] eqn:E1; [|done].
  apply refreshLocked_ok in E1 as (o & Eo & Em & Ho & _ & _ & Hw).
  unfold bind at 1, gets at 1. rewrite Ho. destruct (Degraded st) eqn:Ed; cbn [negb].
  2: { intros [= <- _]. simpl. congruence. }
  unfold bind at 1. destruct (evict _ ev _ (snd s1)) as [[r err] w2] eqn:Ev.
  unfold bind at 1, attempt. destruct (refreshLocked (fst s1, w2)) as [after s3] eqn:E3.
  intros [= <- <-] _ He Hdeg. simpl in *. subst err.
  pose proof (evict_reached _ _ _ _ _ Ev Hdeg) as Hn.
  assert (validateObservation o = true) as Hvo.
  { revert Em. unfold Observe. by destruct (validateObservation o). }
  rewrite <- Hw in Eo. destruct (Hh _ _ _ _ _ Ev Eo Hvo) as (Hctx & o' & Eo' & Hv & Ht & Hfree & Hstate).
  assert (ExitFreeFloor st - FilesystemFreeBytes o <= rs_FreedBytes r /\
          AgentStateBytes o - ExitStateCeiling st <= rs_FreedBytes r) as [Hd1 Hd2].
  { revert Hn. unfold pressure_target, maximum. repeat case_if; bool_to_prop; lia. }
  destruct (Observe_exit o _ st _ o' Em Ed Hv Ht ltac:(lia) ltac:(lia)) as (st' & E4 & Hd4).
  exists st'. split; [|done]. revert E3. unfold refreshLocked, checkCtx, observeWorld, bind, get. simpl.
  rewrite Hctx. unfold ret at 1. simpl. rewrite Eo'. unfold ret at 1. simpl.
  destruct (Observe o' (ct_manager (fst s1))) as [r4 m4]. simpl in E4. subst r4. by intros [= <- _].
Qed.
End Pressure.

(** In the world of the witness the acknowledged WAL gives back what it is
    asked for, as far as there is state to delete. *)
Definition give : Reclaimer Observation unit := fun n o =>
  let k := Z.max 0 (Z.min n (Z.min (AgentStateBytes o) (FilesystemTotalBytes o - FilesystemFreeBytes o))) in
  ((k, None), mkObservation (FilesystemTotalBytes o) (FilesystemFreeBytes o + k) (AgentStateBytes o - k)).

Definition give_eviction : EvictionConfig Observation unit :=
  mkEviction idle idle idle idle give idle (fun _ => idle) idle idle 20.

(** The measurement after [k] bytes were freed. *)
Definition credited (k : Z) (o o' : Observation) : Prop :=
  FilesystemTotalBytes o' = FilesystemTotalBytes o /\
  FilesystemFreeBytes o' = FilesystemFreeBytes o + k /\ AgentStateBytes o' = AgentStateBytes o - k /\
  (validateObservation o = true -> validateObservation o' = true).

Definition credits (r : Reclaimer Observation unit) : Prop :=
  forall n o, credited (r n o).1.1 o (r n o).2.

Lemma credited_trans k l a b c : credited k a b -> credited l b c -> credited (k + l) a c.
Proof. intros (?&?&?&?) (?&?&?&?). unfold credited. split_and!; auto; lia. Qed.
Lemma credited_0 o : credited 0 o o.
Proof. unfold credited. split_and!; auto; lia. Qed.

Lemma credits_loop need (items : list (Tier * option (Reclaimer Observation unit))) res w res' w' :
  Forall (fun it => forall r, snd it = Some r -> credits r) items ->
  reclaim_loop need items res w = ((res', None), w') ->
  credited (rs_FreedBytes res' - rs_FreedBytes res) w w'.
Proof.
  intros Hl. revert res w. induction Hl as [|[tier [r|]] items Hr Hl IH]; intros res w; cbn [reclaim_loop].
  - intros [= <- <-]. rewrite Z.sub_diag. apply credited_0.
  - case_if; [apply IH|]. pose proof (Hr r eq_refl (need - rs_FreedBytes res) w) as Hc.
    destruct (r _ w) as [[k e] w1]. simpl in Hc. do 2 (case_if; [done|]). destruct e; [done|].
    intros Hrun. apply IH in Hrun. simpl in Hrun.
    replace (rs_FreedBytes res' - rs_FreedBytes res)
      with (k + (rs_FreedBytes res' - (rs_FreedBytes res + k))) by lia.
    by eapply credited_trans.
  - apply IH.
Qed.

Lemma give_credits : credits give.
Proof.
  intros n o. unfold credited, give, validateObservation. simpl. split_and!; try done.
  intros Hv. bool_to_prop. rewrite negb_true_iff, !orb_false_iff. split_and!; lia.
Qed.

Lemma give_honest : honest tt give_eviction.
Proof.
  intros n w r w' o Ev [= ->] Hv. split; [done|]. exists w'. split; [done|].
  assert (credited (rs_FreedBytes r) o w') as (H1 & H2 & H3 & H4); [|split_and!; auto; lia].
  revert Ev. unfold evict. case_if; [intros [= <- <-]; apply credited_0|]. cbn [env_ctx obs_env].
  unfold Reclaim. case_if; [congruence|]. destruct (reclaim_loop _ _ _ o) as [[res [e|]] w1] eqn:El; [done|].
  intros [= <- <-]. cbn [rs_FreedBytes].
  apply credits_loop in El; [by rewrite Z.sub_0_r in El|]. clear.
  repeat apply Forall_cons_2; try apply Forall_nil_2; intros r [= <-] k o;
    try apply credited_0; [|apply give_credits].
  unfold reclaimAbandoned. simpl. repeat (case_if; simpl); apply credited_0.
Qed.

Definition full_obs : Observation := mkObservation (100 * GiB) (2 * GiB) (10 * GiB).

Lemma pressure_relieved_witness :
  match ReclaimForPressure tt give_eviction (demo_controller true, full_obs) with
  | (Ok p, _) => exists st, pr_After p = Ok st /\ Degraded st = false
  | _ => False
  end.
Proof.
  set (run := ReclaimForPressure tt give_eviction (demo_controller true, full_obs)).
  assert (run = (Ok match run.1 with Ok p => p | Err _ => mkPressure zero_state 0 (mkResult 0 0 true []) None (Err StorageUnknownClass) end, run.2)) as E
    by (vm_compute; reflexivity).
  rewrite E. apply (pressure_relieved tt give_eviction (demo_controller true, full_obs) _ run.2 give_honest E);
    vm_compute; reflexivity.
Defined.
