(* ===== verification/Arbiter.v ===== *)
(** * The traffic arbiter

    Models [internal/scheduling/arbiter.go] and the traffic classes of
    [internal/transport/class.go]. The queues are Go channels that other
    goroutines fill while the arbiter scans them, so the arbiter is a labelled
    transition system: every channel operation is one step, and enqueues
    interleave with the steps of [nextJob] in any order. *)

From S2P Require Import Prelude.

#[local] Arguments Nat.modulo : simpl never.

(** ** Traffic classes *)

Inductive Class := ClassControl | ClassDurable | ClassQuery | ClassBulk | ClassLive.

#[export] Instance Class_eq_dec : EqDecision Class.
Proof. solve_decision. Defined.

(** [transport.Class] is a [uint8]; the valid values are the five classes. *)
Definition class_of (c : Z) : option Class :=
  match c with
  | 0 => Some ClassControl | 1 => Some ClassDurable | 2 => Some ClassQuery
  | 3 => Some ClassBulk | 4 => Some ClassLive | _ => None
  end.

Definition Priority (c : Class) : Z :=
  match c with
  | ClassControl => 0 | ClassDurable => 1 | ClassQuery => 2 | ClassBulk => 3 | ClassLive => 4
  end.

Definition IsProtected (c : Class) : bool :=
  bool_decide (c = ClassControl) || bool_decide (c = ClassDurable).

Definition Valid (c : Z) : bool := bool_decide (is_Some (class_of c)).

Definition weightedCycle : list Class :=
  [ ClassControl; ClassControl; ClassControl; ClassControl;
    ClassControl; ClassControl; ClassControl; ClassControl;
    ClassDurable; ClassDurable; ClassDurable; ClassDurable;
    ClassQuery; ClassQuery; ClassBulk; ClassLive ].

(** The class at a position of the cycle. *)
Definition cycle_at (i : nat) : Class := nth i weightedCycle ClassControl.

(** The position after the first slot of a class: where [nextJob] resumes
    after a blocking receive. *)
Fixpoint first_slot (c : Class) (i : nat) (l : list Class) : nat :=
  match l with
  | [] => i
  | x :: l' => if decide (x = c) then i else first_slot c (S i) l'
  end.

Definition after_first (c : Class) : nat := (first_slot c 0 weightedCycle + 1) mod 16.

(** The distance from a position to the next slot of a class. *)
Definition slot_dist (c : Class) (i : nat) : nat :=
  match List.find (fun d => bool_decide (cycle_at ((i + d) mod 16) = c)) (seq 0 16) with
  | Some d => d
  | None => 16
  end.

(** Facts about the cycle, checked for every position and class. *)
Definition all_classes : list Class := [ClassControl; ClassDurable; ClassQuery; ClassBulk; ClassLive].

Definition cycle_check (c : Class) (i : nat) : bool :=
  bool_decide (slot_dist c i < 16)%nat &&
  bool_decide (cycle_at ((i + slot_dist c i) mod 16) = c) &&
  forallb (fun off => bool_decide (slot_dist c (((i + off) mod 16 + 1) mod 16) < slot_dist c i)%nat)
    (seq 0 (slot_dist c i)).

Lemma cycle_checked : forallb (fun c => forallb (cycle_check c) (seq 0 16)) all_classes = true.
Proof. vm_compute. reflexivity. Qed.

Lemma cycle_facts c i :
  (i < 16)%nat ->
  (slot_dist c i < 16)%nat /\ cycle_at ((i + slot_dist c i) mod 16) = c /\
  forall off, (off < slot_dist c i)%nat ->
    (slot_dist c (((i + off) mod 16 + 1) mod 16) < slot_dist c i)%nat.
Proof.
  intros Hi. pose proof cycle_checked as Hc. rewrite forallb_forall in Hc.
  specialize (Hc c ltac:(destruct c; simpl; auto 10)). rewrite forallb_forall in Hc.
  specialize (Hc i ltac:(apply in_seq; lia)). unfold cycle_check in Hc. bool_to_prop.
  split_and!; [done | done |]. intros off Hoff.
  match goal with H : forallb _ _ = true |- _ => rewrite forallb_forall in H; specialize (H off) end.
  match goal with H : In _ _ -> _ |- _ => specialize (H ltac:(apply in_seq; lia)) end.
  by bool_to_prop.
Qed.

Definition weight (c : Class) : nat :=
  match c with
  | ClassControl => 8 | ClassDurable => 4 | ClassQuery => 2 | ClassBulk => 1 | ClassLive => 1
  end.

(** The classes of [n] slots from a position on. *)
Definition slots (i n : nat) : list Class := (fun k => cycle_at ((i + k) mod 16)) <$> seq 0 n.

Definition count_class (c : Class) (l : list Class) : nat :=
  length (List.filter (fun x => bool_decide (x = c)) l).

Lemma round_counts c i : (i < 16)%nat -> count_class c (slots i 16) = weight c.
Proof.
  intros Hi. assert (forallb (fun c => forallb (fun i => bool_decide (count_class c (slots i 16) = weight c))
    (seq 0 16)) all_classes = true) as Hc by (vm_compute; reflexivity).
  rewrite forallb_forall in Hc. specialize (Hc c ltac:(destruct c; simpl; auto 10)).
  rewrite forallb_forall in Hc. specialize (Hc i ltac:(apply in_seq; lia)). by bool_to_prop.
Qed.

Lemma slots_S i n : (i < 16)%nat -> slots i (S n) = cycle_at i :: slots ((i + 1) mod 16) n.
Proof.
  intros Hi. unfold slots. simpl. rewrite Nat.add_0_r, Nat.mod_small by done. f_equal.
  rewrite <- seq_shift, <- list_fmap_compose. apply list_fmap_ext. intros _ k _. simpl. f_equal.
  rewrite Nat.Div0.add_mod_idemp_l. f_equal. lia.
Qed.

(** ** The arbiter *)

Section Arbiter.
Context {T : Type}.

(** Where the goroutine in [Run] is: at an offset of the scan of [nextJob],
    in the blocking select, or returned. *)
Inductive phase := Scanning (offset : nat) | Blocking | Done.

Record arbiter := mkArbiter {
  ab_queues : Class -> list T;
  ab_capacity : nat;
  ab_stopped : bool;
  ab_next : nat;
  ab_phase : phase;
}.

Definition queueCapacity (n : Z) : nat := if n <=? 0 then 256 else Z.to_nat n.

Definition New (n : Z) : arbiter := mkArbiter (fun _ => []) (queueCapacity n) false 0 (Scanning 0).

Definition set_queue (c : Class) (q : list T) (a : arbiter) : Class -> list T :=
  fun c' => if decide (c' = c) then q else ab_queues a c'.

(** What a step shows: a job handed to the handler, a job accepted, or
    nothing. *)
Inductive event := Emit (c : Class) (job : T) | Accept (c : Class) (job : T) | Silent.

Inductive step : arbiter -> event -> arbiter -> Prop :=
(** [Enqueue]: the send case of the select, when the channel has room. *)
| step_enqueue a c job :
    (length (ab_queues a c) < ab_capacity a)%nat ->
    step a (Accept c job)
      (mkArbiter (set_queue c (ab_queues a c ++ [job]) a) (ab_capacity a) (ab_stopped a) (ab_next a)
         (ab_phase a))
(** [Stop] *)
| step_stop a :
    step a Silent (mkArbiter (ab_queues a) (ab_capacity a) true (ab_next a) (ab_phase a))
(** [nextJob]: a slot of the scan whose queue holds a job. *)
| step_hit a off job rest :
    ab_phase a = Scanning off -> (off < 16)%nat ->
    ab_queues a (cycle_at ((ab_next a + off) mod 16)) = job :: rest ->
    step a (Emit (cycle_at ((ab_next a + off) mod 16)) job)
      (mkArbiter (set_queue (cycle_at ((ab_next a + off) mod 16)) rest a) (ab_capacity a) (ab_stopped a)
         (((ab_next a + off) mod 16 + 1) mod 16) (Scanning 0))
(** [nextJob]: an empty slot; after the last one the blocking select. *)
| step_miss a off :
    ab_phase a = Scanning off -> (off < 16)%nat ->
    ab_queues a (cycle_at ((ab_next a + off) mod 16)) = [] ->
    step a Silent
      (mkArbiter (ab_queues a) (ab_capacity a) (ab_stopped a) (ab_next a)
         (if decide (off + 1 < 16)%nat then Scanning (off + 1) else Blocking))
(** The blocking select receives from any ready queue, ... *)
| step_receive a c job rest :
    ab_phase a = Blocking -> ab_queues a c = job :: rest ->
    step a (Emit c job)
      (mkArbiter (set_queue c rest a) (ab_capacity a) (ab_stopped a) (after_first c) (Scanning 0))
(** ... or sees the stop channel closed and returns. *)
| step_done a :
    ab_phase a = Blocking -> ab_stopped a = true ->
    step a Silent (mkArbiter (ab_queues a) (ab_capacity a) (ab_stopped a) (ab_next a) Done).

Inductive steps : arbiter -> list event -> arbiter -> Prop :=
| steps_nil a : steps a [] a
| steps_cons a e a' es a'' : step a e a' -> steps a' es a'' -> steps a (e :: es) a''.

(** ** Invariant *)

Record arb_ok (a : arbiter) : Prop := {
  ao_next : (ab_next a < 16)%nat;
  ao_phase : forall off, ab_phase a = Scanning off -> (off < 16)%nat;
  ao_queues : forall c, (length (ab_queues a c) <= ab_capacity a)%nat;
}.

Lemma New_ok n : arb_ok (New n).
Proof. split; simpl; [lia | intros off [= <-]; lia | lia]. Qed.

Lemma set_queue_eq c q a : set_queue c q a c = q.
Proof. unfold set_queue. by rewrite decide_True. Qed.
Lemma set_queue_ne c c' q a : c' <> c -> set_queue c q a c' = ab_queues a c'.
Proof. intros. unfold set_queue. by rewrite decide_False. Qed.

Lemma after_first_lt c : (after_first c < 16)%nat.
Proof. unfold after_first. apply Nat.mod_upper_bound. lia. Qed.

Lemma step_ok a e a' : arb_ok a -> step a e a' -> arb_ok a'.
Proof.
  intros [Hn Hp Hq] Hs.
  assert (forall c q, (length q <= ab_capacity a)%nat -> forall c', (length (set_queue c q a c') <= ab_capacity a)%nat) as Hset.
  { intros c q Hl c'. unfold set_queue. case_decide; auto. }
  assert (forall c job rest, ab_queues a c = job :: rest -> (length rest <= ab_capacity a)%nat) as Htl.
  { intros c job rest E. specialize (Hq c). rewrite E in Hq. simpl in Hq. lia. }
  destruct Hs; split; simpl; auto using after_first_lt, Nat.mod_upper_bound; try (intros ? [= <-]; lia);
    try (intros ? [=]); try (apply Hset; eauto).
  - rewrite length_app. simpl. lia.
  - match goal with H : _ = Scanning _ |- _ => destruct (decide _) in H; [|done] end.
    match goal with H : Scanning _ = Scanning _ |- _ => injection H as <-; lia end.
Qed.

Lemma steps_ok a es a' : arb_ok a -> steps a es a' -> arb_ok a'.
Proof. intros Ha Hs. induction Hs; eauto using step_ok. Qed.

(** ** Jobs are neither lost, duplicated nor reordered *)

Definition emitted (c : Class) (es : list event) : list T :=
  omap (fun e => match e with Emit c' j => if decide (c' = c) then Some j else None | _ => None end) es.
Definition accepted (c : Class) (es : list event) : list T :=
  omap (fun e => match e with Accept c' j => if decide (c' = c) then Some j else None | _ => None end) es.

Lemma step_fifo a e a' c :
  step a e a' -> emitted c [e] ++ ab_queues a' c = ab_queues a c ++ accepted c [e].
Proof.
  intros Hs. unfold emitted, accepted. destruct Hs; simpl; rewrite ?app_nil_r; try done.
  - unfold set_queue. destruct (decide (c = c0)) as [->|]; case_decide; subst; simpl; rewrite ?app_nil_r; done.
  - unfold set_queue. destruct (decide (c = _)) as [->|]; case_decide; subst; simpl; done.
  - unfold set_queue. destruct (decide (c = c0)) as [->|]; case_decide; subst; simpl; done.
Qed.

Lemma steps_fifo a es a' c :
  steps a es a' -> emitted c es ++ ab_queues a' c = ab_queues a c ++ accepted c es.
Proof.
  intros Hs. induction Hs as [a | a e a' es a'' Hstep Hs IH]; [simpl; by rewrite app_nil_r|].
  pose proof (step_fifo _ _ _ c Hstep) as H1.
  assert (forall f : event -> option T, omap f (e :: es) = omap f [e] ++ omap f es) as Hom
    by (intros f; simpl; by destruct (f e)).
  unfold emitted, accepted in *. rewrite (Hom (fun e => match e with Emit _ _ => _ | _ => _ end)).
  rewrite (Hom (fun e => match e with Accept _ _ => _ | _ => _ end)).
  rewrite <- app_assoc, IH, app_assoc, H1, <- app_assoc. done.
Qed.

(** ** Fairness *)

Definition is_emit (e : event) : bool := match e with Emit _ _ => true | _ => false end.
Definition emissions (es : list event) : nat := length (List.filter is_emit es).

(** How many jobs of other classes may still be handed out before one of
    class [c]: the distance to its next slot while the scan has not passed
    that slot, one round otherwise. *)
Definition credit (c : Class) (a : arbiter) : nat :=
  match ab_phase a with
  | Scanning off => if decide (off <= slot_dist c (ab_next a))%nat then slot_dist c (ab_next a) else 16
  | _ => 16
  end.

Lemma credit_le c a : arb_ok a -> (credit c a <= 16)%nat.
Proof.
  intros [Hn _ _]. destruct (cycle_facts c (ab_next a) Hn) as [? _]. unfold credit.
  destruct (ab_phase a); [case_decide|..]; lia.
Qed.

Lemma credit_restart c a : arb_ok a -> ab_phase a = Scanning 0 -> (credit c a < 16)%nat.
Proof.
  intros [Hn _ _] Hp. destruct (cycle_facts c (ab_next a) Hn) as [? _]. unfold credit. rewrite Hp.
  case_decide; lia.
Qed.

(** While class [c] waits and is not served, every emission uses up credit. *)
Lemma step_credit c a e a' :
  arb_ok a -> ab_queues a c <> [] -> step a e a' -> emitted c [e] = [] ->
  (emissions [e] + credit c a' <= credit c a)%nat.
Proof.
  intros Ha Hne Hs He. pose proof (step_ok _ _ _ Ha Hs) as Ha'. pose proof (credit_le c a' Ha') as Hle'.
  destruct (cycle_facts c (ab_next a) (ao_next _ Ha)) as (Hd & Hslot & Hdec).
  destruct Hs as [a c0 job Hroom | a | a off job rest Hp Hoff Hq | a off Hp Hoff Hq | a c0 job rest Hp Hq | a Hp Hst];
    unfold emissions; cbn [List.filter is_emit length].
  - done.
  - done.
  - unfold emitted in He. simpl in He. case_decide as Hc; [done|].
    unfold credit at 2. rewrite Hp. case_decide as Hcase.
    + assert (off < slot_dist c (ab_next a))%nat as Hlt.
      { destruct (decide (off = slot_dist c (ab_next a))) as [->|]; [congruence | lia]. }
      specialize (Hdec off Hlt). unfold credit. cbn [ab_phase ab_next]. case_decide; lia.
    + match goal with |- (1 + credit c ?x <= _)%nat => pose proof (credit_restart c x Ha' eq_refl) end. lia.
  - unfold credit at 2. rewrite Hp.
    destruct (decide (off <= slot_dist c (ab_next a))%nat) as [Hcase|Hcase]; [|lia].
    assert (off < slot_dist c (ab_next a))%nat as Hlt.
    { destruct (decide (off = slot_dist c (ab_next a))) as [->|]; [congruence | lia]. }
    unfold credit. cbn [ab_phase ab_next]. rewrite decide_True by lia. rewrite decide_True by lia. lia.
  - unfold credit at 2. rewrite Hp.
    match goal with |- (1 + credit c ?x <= _)%nat => pose proof (credit_restart c x Ha' eq_refl) end. lia.
  - unfold credit at 2. rewrite Hp. done.
Qed.

Lemma step_waits c a e a' :
  step a e a' -> emitted c [e] = [] -> ab_queues a c <> [] -> ab_queues a' c <> [].
Proof.
  intros Hs He Hne Hq. pose proof (step_fifo _ _ _ c Hs) as Hf. rewrite He, Hq in Hf.
  symmetry in Hf. apply app_nil in Hf as [? _]. done.
Qed.

Lemma emitted_cons c e es : emitted c (e :: es) = [] -> emitted c [e] = [] /\ emitted c es = [].
Proof. unfold emitted. simpl. by destruct (match e with Emit _ _ => _ | _ => _ end). Qed.

(** [C40] No traffic class starves: from any reachable arbiter state, in any
    interleaving with enqueues and however long the other queues are, at
    most 16 jobs of other classes are handed out while a job of a class
    waits - also for the lowest class under continuous control traffic. *)
Theorem no_starvation n es0 a c es a' :
  steps (New n) es0 a -> ab_queues a c <> [] -> steps a es a' -> emitted c es = [] ->
  (emissions es <= 16)%nat.
Proof.
  intros H0 Hne Hs He. pose proof (steps_ok _ _ _ (New_ok n) H0) as Ha. clear H0.
  enough (emissions es + credit c a' <= credit c a)%nat by (pose proof (credit_le c a Ha); lia).
  induction Hs as [a | a e a1 es a2 Hstep Hs IH]; [done|].
  apply emitted_cons in He as [He1 He2].
  pose proof (step_credit c _ _ _ Ha Hne Hstep He1) as H1.
  specialize (IH (step_waits _ _ _ _ Hstep He1 Hne) He2 (step_ok _ _ _ Ha Hstep)).
  unfold emissions in *. cbn [List.filter] in *. destruct (is_emit e); simpl in *; lia.
Qed.

(** A run in which every queue holds a job before every step. *)
Inductive busy : arbiter -> list event -> arbiter -> Prop :=
| busy_nil a : busy a [] a
| busy_cons a e a' es a'' :
    (forall c, ab_queues a c <> []) -> step a e a' -> busy a' es a'' -> busy a (e :: es) a''.

Definition classes (es : list event) : list Class :=
  omap (fun e => match e with Emit c _ => Some c | _ => None end) es.

Lemma busy_classes a es a' :
  arb_ok a -> ab_phase a = Scanning 0 -> busy a es a' ->
  classes es = slots (ab_next a) (length (classes es)).
Proof.
  intros Ha Hp Hb. induction Hb as [a | a e a1 es a2 Hne Hstep Hb IH]; [done|].
  pose proof (step_ok _ _ _ Ha Hstep) as Ha1. pose proof (ao_next _ Ha) as Hn.
  destruct Hstep as [a c0 job Hroom | a | a off job rest Hp0 Hoff Hq | a off Hp0 Hoff Hq
                    | a c0 job rest Hp0 Hq | a Hp0 Hst]; simpl in *; try congruence.
  - by apply IH.
  - by apply IH.
  - rewrite Hp in Hp0. injection Hp0 as <-. rewrite Nat.add_0_r, Nat.mod_small in * by done.
    rewrite slots_S by done. f_equal. by apply IH.
Qed.

Lemma emitted_count c es : length (emitted c es) = count_class c (classes es).
Proof.
  unfold emitted, classes, count_class. induction es as [|[c' j|c' j|] es IH]; simpl; [done | | done | done].
  destruct (decide (c' = c)) as [->|Hne].
  - rewrite bool_decide_eq_true_2 by done. simpl. by f_equal.
  - rewrite bool_decide_eq_false_2 by done. done.
Qed.

(** Under continuous load on every class the arbiter shares the link by
    the weights 8:4:2:1:1: every 16 consecutive jobs contain exactly 8
    control, 4 durable, 2 query, 1 bulk and 1 live job. *)
Theorem weighted_share a es a' c :
  arb_ok a -> ab_phase a = Scanning 0 -> busy a es a' -> length (classes es) = 16%nat ->
  length (emitted c es) = weight c.
Proof.
  intros Ha Hp Hb Hlen. pose proof (busy_classes _ _ _ Ha Hp Hb) as Hc. rewrite Hlen in Hc.
  rewrite emitted_count, Hc. apply round_counts. apply (ao_next _ Ha).
Qed.

(** No job is lost, duplicated or reordered within its class: in every
    run the jobs of a class handed to the handler, followed by those still
    queued, are exactly the accepted jobs in order; and no queue exceeds its
    capacity. *)
Theorem class_fifo n es a c :
  steps (New n) es a ->
  emitted c es ++ ab_queues a c = accepted c es /\
  (length (ab_queues a c) <= queueCapacity n)%nat.
Proof.
  intros Hs. pose proof (steps_fifo _ _ _ c Hs) as Hf. split; [exact Hf|].
  assert (ab_capacity a = queueCapacity n) as <-.
  { clear Hf. change (queueCapacity n) with (ab_capacity (New n)).
    induction Hs as [|? ? ? ? ? Hstep Hs IH]; [done|]. rewrite IH. by destruct Hstep. }
  apply (ao_queues _ (steps_ok _ _ _ (New_ok n) Hs)).
Qed.
End Arbiter.

(** ** Witnesses *)

(** A state in which every queue holds three jobs numbered by class. *)
Definition loaded (n : nat) : arbiter (T := Z) :=
  mkArbiter (fun c => repeat (Priority c) n) 64 false 0 (Scanning 0).

Definition hit (a : arbiter (T := Z)) : arbiter :=
  mkArbiter (set_queue (cycle_at (ab_next a)) (tail (ab_queues a (cycle_at (ab_next a)))) a) (ab_capacity a)
    (ab_stopped a) ((ab_next a + 1) mod 16) (Scanning 0).

Fixpoint hits (n : nat) (a : arbiter (T := Z)) : list event * arbiter :=
  match n with
  | O => ([], a)
  | S n' =>
    let '(es, a') := hits n' (hit a) in
    (Emit (cycle_at (ab_next a)) (default 0 (head (ab_queues a (cycle_at (ab_next a))))) :: es, a')
  end.

(** Enough jobs everywhere for [n] more hits. *)
Definition stocked (n : nat) (a : arbiter (T := Z)) : Prop :=
  (ab_next a < 16)%nat /\ ab_phase a = Scanning 0 /\ forall c, (n < length (ab_queues a c))%nat.

Lemma hit_step a c j rest :
  (ab_next a < 16)%nat -> ab_phase a = Scanning 0 -> cycle_at (ab_next a) = c ->
  ab_queues a c = j :: rest -> step a (Emit c (default 0 (head (ab_queues a c)))) (hit a).
Proof.
  intros Hn Hp <- Hq. pose proof (step_hit a 0 j rest Hp ltac:(lia)) as Hs.
  rewrite Nat.add_0_r, Nat.mod_small in Hs by done. unfold hit. rewrite Hq. simpl. by apply Hs.
Qed.

Lemma hits_busy n a : stocked n a -> busy a (hits n a).1 (hits n a).2.
Proof.
  revert a. induction n as [|n IH]; intros a (Hn & Hp & Hq); [constructor|]. cbn [hits].
  assert (stocked n (hit a)) as Hst.
  { split_and!; simpl; [apply Nat.mod_upper_bound; lia | done |]. intros c. unfold set_queue.
    specialize (Hq c). case_decide; subst; [|lia]. destruct (ab_queues a _); simpl in *; lia. }
  specialize (IH _ Hst). destruct (hits n (hit a)) as [es a'] eqn:E. simpl in *.
  destruct (ab_queues a (cycle_at (ab_next a))) as [|j rest] eqn:Eq.
  { specialize (Hq (cycle_at (ab_next a))). rewrite Eq in Hq. simpl in Hq. lia. }
  apply busy_cons with (hit a); [| |done].
  - intros c E0. specialize (Hq c). rewrite E0 in Hq. simpl in Hq. lia.
  - rewrite <- Eq. by eapply hit_step.
Qed.

Lemma loaded_stocked : stocked 16 (loaded 20).
Proof. split_and!; simpl; [lia | done |]. intros []; simpl; lia. Qed.

Lemma weighted_share_witness : length (emitted ClassDurable (hits 16 (loaded 20)).1) = 4%nat.
Proof.
  apply (weighted_share (loaded 20) (hits 16 (loaded 20)).1 (hits 16 (loaded 20)).2 ClassDurable).
  - split; simpl; [lia | intros off [= <-]; lia |]. intros []; simpl; lia.
  - done.
  - apply hits_busy, loaded_stocked.
  - vm_compute. reflexivity.
Defined.

(** A live sample waits while control jobs are served. *)
Definition waiting : arbiter (T := Z) :=
  mkArbiter (set_queue ClassControl [1; 2] (mkArbiter (set_queue ClassControl [1]
    (mkArbiter (set_queue ClassLive [9] (New 8)) 8 false 0 (Scanning 0))) 8 false 0 (Scanning 0)))
    8 false 0 (Scanning 0).

Lemma waiting_steps : steps (New 8) [Accept ClassLive 9; Accept ClassControl 1; Accept ClassControl 2] waiting.
Proof.
  eapply steps_cons; [apply step_enqueue; vm_compute; lia|]. eapply steps_cons; [apply step_enqueue; vm_compute; lia|].
  eapply steps_cons; [apply step_enqueue; vm_compute; lia|]. apply steps_nil.
Qed.

Lemma waiting_run : steps waiting [Emit ClassControl 1; Emit ClassControl 2] (hit (hit waiting)).
Proof.
  eapply steps_cons; [apply (hit_step waiting ClassControl 1 [2]); done || (simpl; lia)|].
  eapply steps_cons; [|apply steps_nil].
  apply (hit_step (hit waiting) ClassControl 2 []); done || (vm_compute; lia).
Qed.

Lemma no_starvation_witness : (emissions [Emit ClassControl 1%Z; Emit ClassControl 2%Z] <= 16)%nat.
Proof.
  apply (no_starvation 8 [Accept ClassLive 9; Accept ClassControl 1; Accept ClassControl 2] waiting
           ClassLive [Emit ClassControl 1; Emit ClassControl 2] (hit (hit waiting))).
  - apply waiting_steps.
  - done.
  - apply waiting_run.
  - reflexivity.
Defined.

Lemma class_fifo_witness :
  emitted ClassControl [Accept ClassLive 9; Accept ClassControl 1; Accept ClassControl 2]
    ++ ab_queues waiting ClassControl = [1; 2].
Proof.
  apply (class_fifo 8 [Accept ClassLive 9; Accept ClassControl 1; Accept ClassControl 2] waiting ClassControl).
  apply waiting_steps.
Defined.
