(* ===== verification/Operation.v ===== *)
(** * Operations: data, record validation and the output tail

    Models [internal/operation/types.go] (types, statuses, phases, cancel
    modes, records), the record validation of [journal.go] and the pure parts
    of [operation.go] (the status graph, the bounded output tail). String enums
    are inductive types with one more constructor for any other string. *)

From Stdlib Require Import Ascii.
From S2P Require Import Prelude.

(** ** Types *)

Inductive Type_ :=
| TypeContainerStart | TypeContainerStop | TypeContainerRestart | TypeContainerRemove
| TypeComposePull | TypeComposeUp | TypeComposeDown | TypeComposeStart | TypeComposeStop
| TypeComposeRestart | TypeComposeFileWrite | TypeEnvWrite | TypeOverrideWrite
| TypeBackupCreate | TypeBackupRestore | TypeDiscoveryRescan
| TypeOther (s : string).

Inductive Status :=
| StatusRequested | StatusDispatched | StatusRunning | StatusSuccess | StatusFailed
| StatusCanceled | StatusInterrupted | StatusUnknown | StatusRejected
| StatusOther (s : string).

Inductive Phase := PhasePreparing | PhaseExecuting | PhaseCommitting | PhaseFinalizing
| PhaseOther (s : string).

Inductive CancelMode := CancelNone | CancelSafe | CancelBestEffortPartial | CancelBeforeCommit
| CancelModeOther (s : string).

Inductive CancelReason := CancelReasonNone | CancelReasonUser | CancelReasonTimeout
| CancelReasonAgentShutdown.

Inductive CancelOutcome :=
| CancelAccepted | CancelTooLate | CancelNotCancelable | CancelAlreadyTerminal | CancelNotFound.

Inductive ManagedAuditDelivery := ManagedAuditNone | ManagedAuditPending | ManagedAuditDelivered
| ManagedAuditOther (s : string).

#[export] Instance Type_eq_dec : EqDecision Type_.
Proof. solve_decision. Defined.
#[export] Instance Status_eq_dec : EqDecision Status.
Proof. solve_decision. Defined.
#[export] Instance Phase_eq_dec : EqDecision Phase.
Proof. solve_decision. Defined.
#[export] Instance CancelMode_eq_dec : EqDecision CancelMode.
Proof. solve_decision. Defined.
#[export] Instance CancelReason_eq_dec : EqDecision CancelReason.
Proof. solve_decision. Defined.
#[export] Instance ManagedAuditDelivery_eq_dec : EqDecision ManagedAuditDelivery.
Proof. solve_decision. Defined.

Definition type_valid (t : Type_) : bool := match t with TypeOther _ => false | _ => true end.

Definition Terminal (s : Status) : bool :=
  match s with
  | StatusSuccess | StatusFailed | StatusCanceled | StatusInterrupted | StatusRejected => true
  | _ => false
  end.

Definition validStatus (s : Status) : bool := match s with StatusOther _ => false | _ => true end.
Definition validPhase (p : Phase) : bool := match p with PhaseOther _ => false | _ => true end.

Definition cancelModeForType (t : Type_) : CancelMode :=
  match t with
  | TypeDiscoveryRescan | TypeComposePull | TypeBackupCreate => CancelSafe
  | TypeComposeUp | TypeComposeDown | TypeComposeStart | TypeComposeStop | TypeComposeRestart =>
    CancelBestEffortPartial
  | TypeComposeFileWrite | TypeEnvWrite | TypeOverrideWrite | TypeBackupRestore
  | TypeContainerStart | TypeContainerStop | TypeContainerRestart | TypeContainerRemove =>
    CancelBeforeCommit
  | TypeOther _ => CancelNone
  end.

Definition requiresProjectLock (t : Type_) : bool :=
  match t with TypeDiscoveryRescan => false | _ => true end.

(** [validPayloadHash]: empty, or 64 lower-case hexadecimal digits. *)
Definition is_lower_hex (a : ascii) : bool :=
  let n := nat_of_ascii a in
  ((48 <=? n)%nat && (n <=? 57)%nat) || ((97 <=? n)%nat && (n <=? 102)%nat).

Fixpoint string_forall (f : ascii -> bool) (s : string) : bool :=
  match s with EmptyString => true | String a s' => f a && string_forall f s' end.

Definition validPayloadHash (value : string) : bool :=
  str_empty value || ((String.length value =? 64)%nat && string_forall is_lower_hex value).

(** ** Specs and records *)

Record Spec := mkSpec {
  sp_OperationID : string;
  sp_ProjectKey : string;
  sp_Target : string;
  sp_Type : Type_;
  sp_PayloadHash : string;
}.

#[export] Instance Spec_eq_dec : EqDecision Spec.
Proof. solve_decision. Defined.

Record Record_ := mkRecord {
  r_OperationID : string;
  r_ProjectKey : string;
  r_Target : string;
  r_Type : Type_;
  r_PayloadHash : string;
  r_RequestedAt : time;
  r_StartedAt : time;
  r_FinishedAt : time;
  r_Status : Status;
  r_Phase : Phase;
  r_CancelMode : CancelMode;
  r_Revision : Z;
  r_CommitStartedAt : time;
  r_LastProgressAt : time;
  r_StalledWarning : bool;
  r_CancelRequestedAt : time;
  r_CancelReason : CancelReason;
  r_PartialEffectsPossible : bool;
  r_Result : string;
  r_Error : string;
  r_OutputTail : list Z;
  r_OutputTruncated : bool;
  r_ManagedAuditDelivery : ManagedAuditDelivery;
}.

(** The record of [newOperation]. *)
Definition new_record (spec : Spec) (mode : CancelMode) (now : time) : Record_ :=
  mkRecord (sp_OperationID spec) (sp_ProjectKey spec) (sp_Target spec) (sp_Type spec)
    (sp_PayloadHash spec) now time_zero time_zero StatusRequested PhasePreparing mode 1 time_zero now
    false time_zero CancelReasonNone false "" "" [] false ManagedAuditNone.

(** ** Field updates *)

Definition rec_status (st : Status) (now : time) (r : Record_) : Record_ :=
  mkRecord (r_OperationID r) (r_ProjectKey r) (r_Target r) (r_Type r) (r_PayloadHash r)
    (r_RequestedAt r) (r_StartedAt r) (r_FinishedAt r) st (r_Phase r) (r_CancelMode r)
    (u64 (r_Revision r + 1)) (r_CommitStartedAt r) now (r_StalledWarning r) (r_CancelRequestedAt r)
    (r_CancelReason r) (r_PartialEffectsPossible r) (r_Result r) (r_Error r) (r_OutputTail r)
    (r_OutputTruncated r) (r_ManagedAuditDelivery r).
Definition rec_phase (ph : Phase) (commit now : time) (r : Record_) : Record_ :=
  mkRecord (r_OperationID r) (r_ProjectKey r) (r_Target r) (r_Type r) (r_PayloadHash r)
    (r_RequestedAt r) (r_StartedAt r) (r_FinishedAt r) (r_Status r) ph (r_CancelMode r)
    (u64 (r_Revision r + 1)) commit now (r_StalledWarning r) (r_CancelRequestedAt r)
    (r_CancelReason r) (r_PartialEffectsPossible r) (r_Result r) (r_Error r) (r_OutputTail r)
    (r_OutputTruncated r) (r_ManagedAuditDelivery r).
Definition rec_outcome (started : time) (partial : bool) (result err : string) (r : Record_) : Record_ :=
  mkRecord (r_OperationID r) (r_ProjectKey r) (r_Target r) (r_Type r) (r_PayloadHash r)
    (r_RequestedAt r) started (r_FinishedAt r) (r_Status r) (r_Phase r) (r_CancelMode r)
    (r_Revision r) (r_CommitStartedAt r) (r_LastProgressAt r) (r_StalledWarning r)
    (r_CancelRequestedAt r) (r_CancelReason r) partial result err (r_OutputTail r)
    (r_OutputTruncated r) (r_ManagedAuditDelivery r).
Definition rec_cancel (reason : CancelReason) (partial : bool) (now : time) (r : Record_) : Record_ :=
  mkRecord (r_OperationID r) (r_ProjectKey r) (r_Target r) (r_Type r) (r_PayloadHash r)
    (r_RequestedAt r) (r_StartedAt r) (r_FinishedAt r) (r_Status r) (r_Phase r) (r_CancelMode r)
    (u64 (r_Revision r + 1)) (r_CommitStartedAt r) now (r_StalledWarning r) now reason partial
    (r_Result r) (r_Error r) (r_OutputTail r) (r_OutputTruncated r) (r_ManagedAuditDelivery r).
Definition rec_finish (now : time) (delivery : ManagedAuditDelivery) (r : Record_) : Record_ :=
  mkRecord (r_OperationID r) (r_ProjectKey r) (r_Target r) (r_Type r) (r_PayloadHash r)
    (r_RequestedAt r) (r_StartedAt r) now (r_Status r) (r_Phase r) (r_CancelMode r)
    (r_Revision r) (r_CommitStartedAt r) (r_LastProgressAt r) (r_StalledWarning r)
    (r_CancelRequestedAt r) (r_CancelReason r) (r_PartialEffectsPossible r) (r_Result r) (r_Error r)
    (r_OutputTail r) (r_OutputTruncated r) delivery.
Definition rec_output (tail : list Z) (truncated : bool) (r : Record_) : Record_ :=
  mkRecord (r_OperationID r) (r_ProjectKey r) (r_Target r) (r_Type r) (r_PayloadHash r)
    (r_RequestedAt r) (r_StartedAt r) (r_FinishedAt r) (r_Status r) (r_Phase r) (r_CancelMode r)
    (r_Revision r) (r_CommitStartedAt r) (r_LastProgressAt r) (r_StalledWarning r)
    (r_CancelRequestedAt r) (r_CancelReason r) (r_PartialEffectsPossible r) (r_Result r) (r_Error r)
    tail truncated (r_ManagedAuditDelivery r).
Definition rec_stalled (stalled : bool) (r : Record_) : Record_ :=
  mkRecord (r_OperationID r) (r_ProjectKey r) (r_Target r) (r_Type r) (r_PayloadHash r)
    (r_RequestedAt r) (r_StartedAt r) (r_FinishedAt r) (r_Status r) (r_Phase r) (r_CancelMode r)
    (r_Revision r) (r_CommitStartedAt r) (r_LastProgressAt r) stalled
    (r_CancelRequestedAt r) (r_CancelReason r) (r_PartialEffectsPossible r) (r_Result r) (r_Error r)
    (r_OutputTail r) (r_OutputTruncated r) (r_ManagedAuditDelivery r).

(** ** Record validation *)

Definition validateRecord (r : Record_) : bool :=
  negb (str_empty (r_OperationID r)) && type_valid (r_Type r) && negb (r_Revision r =? 0)
  && negb (is_zero (r_RequestedAt r)) && validPayloadHash (r_PayloadHash r)
  && validStatus (r_Status r) && validPhase (r_Phase r)
  && bool_decide (r_CancelMode r = cancelModeForType (r_Type r))
  && negb (is_zero (r_LastProgressAt r))
  && negb (requiresProjectLock (r_Type r) && str_empty (r_ProjectKey r))
  && Bool.eqb (Terminal (r_Status r)) (negb (is_zero (r_FinishedAt r)))
  && match r_ManagedAuditDelivery r with ManagedAuditOther _ => false | _ => true end
  && negb (negb (Terminal (r_Status r)) && negb (bool_decide (r_ManagedAuditDelivery r = ManagedAuditNone))).

(** ** The status graph *)

Definition legalStatusTransition (current next : Status) : bool :=
  match current, next with
  | StatusRequested, (StatusDispatched | StatusRejected | StatusCanceled | StatusInterrupted) => true
  | StatusDispatched, (StatusRunning | StatusUnknown | StatusRejected | StatusCanceled | StatusInterrupted) => true
  | StatusRunning, (StatusSuccess | StatusFailed | StatusCanceled | StatusInterrupted | StatusUnknown) => true
  | StatusUnknown, (StatusRunning | StatusSuccess | StatusFailed | StatusCanceled | StatusInterrupted) => true
  | _, _ => false
  end.

(** ** The output tail *)

(** [utf8.RuneStart]: the byte is not a continuation byte. *)
Definition RuneStart (b : Z) : bool := negb (Z.land b 0xC0 =? 0x80).

(** The loop of [TrimPartialLeadingRune] over at most [utf8.UTFMax] bytes. *)
Fixpoint trim_from (fuel : nat) (rest tail : list Z) : list Z :=
  match fuel, rest with
  | S fuel', b :: rest' => if RuneStart b then rest else trim_from fuel' rest' tail
  | _, _ => tail
  end.

Definition TrimPartialLeadingRune (tail : list Z) : list Z := trim_from 4 tail tail.

(** The newest [n] bytes of a slice. *)
Definition newest (n : nat) (l : list Z) : list Z := drop (length l - n) l.

(** [WriteOutput] on the tail and its truncation flag. *)
Definition write_tail (outputLimit : nat) (payload tail : list Z) (truncated : bool) : list Z * bool :=
  match payload with
  | [] => (tail, truncated)
  | _ =>
    if decide (outputLimit <= length payload)%nat then
      (TrimPartialLeadingRune (newest outputLimit payload),
       (truncated || bool_decide (0 < length tail)%nat || bool_decide (outputLimit < length payload)%nat)%bool)
    else
      let tail' := tail ++ payload in
      if decide (outputLimit < length tail')%nat then
        (TrimPartialLeadingRune (newest outputLimit tail'), true)
      else (tail', truncated)
  end.

(** *** The tail is a suffix of everything written *)

Lemma trim_from_suffix fuel rest tail :
  rest `suffix_of` tail -> trim_from fuel rest tail `suffix_of` tail.
Proof.
  revert rest. induction fuel as [|fuel IH]; intros rest Hs; simpl; [done|].
  destruct rest as [|b rest]; [done|]. case_if; [done|]. apply IH.
  etransitivity; [|exact Hs]. by apply suffix_cons_r.
Qed.

Lemma trim_from_length fuel rest tail :
  (length tail <= length rest + (4 - fuel))%nat -> (fuel <= 4)%nat ->
  (length tail <= length (trim_from fuel rest tail) + 3)%nat.
Proof.
  revert rest. induction fuel as [|fuel IH]; intros rest Hl Hf; simpl; [lia|].
  destruct rest as [|b rest]; [lia|]. case_if; [simpl in *; lia|]. apply IH; simpl in *; lia.
Qed.

Lemma trim_suffix tail : TrimPartialLeadingRune tail `suffix_of` tail.
Proof. by apply trim_from_suffix. Qed.

Lemma trim_length tail :
  (length tail <= length (TrimPartialLeadingRune tail) + 3)%nat /\
  (length (TrimPartialLeadingRune tail) <= length tail)%nat.
Proof.
  split; [apply trim_from_length; simpl; lia|]. apply suffix_length, trim_suffix.
Qed.

Lemma newest_suffix n l : newest n l `suffix_of` l.
Proof. unfold newest. exists (take (length l - n) l). by rewrite take_drop. Qed.

Lemma newest_length n l : length (newest n l) = Nat.min n (length l).
Proof. unfold newest. rewrite length_drop. lia. Qed.

(** Every window of four bytes contains the start of a rune, as in any valid
    UTF-8 text. *)
Definition rune_dense (l : list Z) : Prop :=
  forall i, (i + 4 <= length l)%nat -> exists j b, (i <= j < i + 4)%nat /\ l !! j = Some b /\ RuneStart b = true.

Definition starts_rune (l : list Z) : Prop := forall b, head l = Some b -> RuneStart b = true.

Lemma trim_from_starts fuel rest tail :
  (exists j b, (j < fuel)%nat /\ rest !! j = Some b /\ RuneStart b = true) ->
  starts_rune (trim_from fuel rest tail).
Proof.
  revert rest. induction fuel as [|fuel IH]; intros rest (j & b & Hj & Hl & Hb); [lia|]. simpl.
  destruct rest as [|x rest]; [done|]. case_if; [by intros y [= <-]|].
  apply IH. destruct j as [|j]; simpl in Hl; [congruence|]. exists j, b. split_and!; [lia | done | done].
Qed.

Lemma dense_suffix l l' : rune_dense l -> l' `suffix_of` l -> rune_dense l'.
Proof.
  intros Hd [pre ->] i Hi. destruct (Hd (length pre + i)%nat) as (j & b & Hj & Hl & Hb).
  { rewrite length_app. lia. }
  exists (j - length pre)%nat, b. split_and!; [lia.. | | done].
  rewrite lookup_app_r in Hl by lia. done.
Qed.

Lemma trim_starts l : rune_dense l -> (4 <= length l)%nat -> starts_rune (TrimPartialLeadingRune l).
Proof.
  intros Hd Hl. apply trim_from_starts. destruct (Hd 0%nat) as (j & b & Hj & Hlk & Hb); [lia|].
  exists j, b. split_and!; [lia | done | done].
Qed.

(** The tail and flag after a sequence of writes. *)
Definition write_all (limit : nat) (payloads : list (list Z)) : list Z * bool :=
  foldl (fun s payload => write_tail limit payload s.1 s.2) ([], false) payloads.

Record tail_ok (limit : nat) (written : list Z) (s : list Z * bool) : Prop := {
  tk_suffix : s.1 `suffix_of` written;
  tk_bound : (length s.1 <= limit)%nat;
  tk_full : (Nat.min limit (length written) <= length s.1 + 3)%nat;
  tk_cut : s.2 = true -> (limit <= length written)%nat;
  tk_nonempty : (0 < limit)%nat -> written <> [] -> s.1 <> [];
  tk_exact : starts_rune written -> s.2 = false -> s.1 = written;
  tk_rune : rune_dense written -> s.2 = true -> (4 <= limit)%nat -> starts_rune s.1;
}.

Lemma suffix_app_both (a b c : list Z) : a `suffix_of` b -> a ++ c `suffix_of` b ++ c.
Proof. intros [k ->]. exists k. by rewrite app_assoc. Qed.

Lemma dense_prefix l l' : rune_dense (l ++ l') -> rune_dense l.
Proof.
  intros Hd i Hi. destruct (Hd i) as (j & b & Hj & Hl & Hb); [rewrite length_app; lia|].
  exists j, b. split_and!; [lia.. | | done]. rewrite lookup_app_l in Hl by lia. done.
Qed.

Lemma starts_prefix l l' : l <> [] -> starts_rune (l ++ l') <-> starts_rune l.
Proof. by destruct l. Qed.

Lemma trim_id l : starts_rune l -> TrimPartialLeadingRune l = l.
Proof.
  intros H. destruct l as [|b l]; [done|]. unfold TrimPartialLeadingRune. cbn [trim_from].
  by rewrite (H b eq_refl).
Qed.

Lemma newest_all l : newest (length l) l = l.
Proof. unfold newest. by rewrite Nat.sub_diag. Qed.

Lemma trim_from_nonempty fuel rest tail : tail <> [] -> trim_from fuel rest tail <> [].
Proof.
  intros Ht. revert rest. induction fuel as [|fuel IH]; intros [|b rest]; simpl; try done. by case_if.
Qed.

(** Cutting a suffix [l] of everything written down to the limit. *)
Lemma cut_ok limit written l truncated :
  l `suffix_of` written -> (limit <= length l)%nat ->
  (truncated = false -> l = written /\ length l = limit) ->
  tail_ok limit written (TrimPartialLeadingRune (newest limit l), truncated).
Proof.
  intros Hs Hlen Ht. pose proof (trim_length (newest limit l)) as [H1 H2]. rewrite newest_length in *.
  pose proof (suffix_length _ _ Hs) as Hsl. split; simpl; try lia.
  - etransitivity; [apply trim_suffix|]. etransitivity; [apply newest_suffix | exact Hs].
  - intros Hl _. apply trim_from_nonempty. intros E. apply (f_equal length) in E.
    rewrite newest_length in E. simpl in E. lia.
  - intros Hst ->. destruct (Ht eq_refl) as [-> <-]. rewrite newest_all. by apply trim_id.
  - intros Hd _ Hl. apply trim_starts; [|rewrite newest_length; lia].
    eapply dense_suffix; [exact Hd|]. etransitivity; [apply newest_suffix | exact Hs].
Qed.

Lemma write_tail_ok limit written s payload :
  tail_ok limit written s -> tail_ok limit (written ++ payload) (write_tail limit payload s.1 s.2).
Proof.
  intros [Hs Hb Hf Hc Hn He Hr]. unfold write_tail. destruct payload as [|x payload'] eqn:Ep.
  { rewrite app_nil_r. by destruct s. }
  rewrite <- Ep in *. assert (0 < length payload)%nat as Hpos by (rewrite Ep; simpl; lia).
  clear Ep x payload'. destruct (decide (limit <= length payload)%nat) as [Hbig|Hsmall].
  - apply cut_ok; [by exists written | done |]. rewrite !orb_false_iff, !bool_decide_eq_false.
    intros [[Hfl Htl] Hlen]. assert (written = []) as ->; [|split; [done | lia]].
    destruct written as [|w ws]; [done|]. exfalso. apply Hn; [lia | done |].
    destruct s.1; [done | simpl in Htl; lia].
  - destruct (decide (limit < length (s.1 ++ payload))%nat) as [Hover|Hfit].
    + apply cut_ok; [by apply suffix_app_both | lia | done].
    + rewrite length_app in *. split; simpl; rewrite ?length_app; try lia.
      * by apply suffix_app_both.
      * intros Ht. specialize (Hc Ht). lia.
      * intros _ _ E. apply app_nil in E as [_ ->]. simpl in Hpos. lia.
      * intros Hst Ht. f_equal. destruct written as [|w ws].
        -- by apply suffix_nil_inv in Hs.
        -- apply He; [|done]. by apply starts_prefix in Hst.
      * intros Hd Ht Hl. specialize (Hc Ht). assert (s.1 <> []) as Hne.
        { intros E. rewrite E in Hf. simpl in Hf. lia. }
        apply starts_prefix; [done|]. apply Hr; eauto using dense_prefix.
Qed.

(** The bounded output tail: after any sequence of writes the retained
    bytes are a suffix of everything written, at most the limit, and at most
    three bytes short of the newest [limit] bytes; while the truncation flag is
    unset nothing was dropped; and for UTF-8 text a truncated tail starts at a
    rune boundary, so the record stays valid text. *)
Theorem output_tail_correct limit payloads :
  let written := mjoin payloads in
  let '(tail, truncated) := write_all limit payloads in
  tail `suffix_of` written /\ (length tail <= limit)%nat /\
  (Nat.min limit (length written) <= length tail + 3)%nat /\
  (starts_rune written -> truncated = false -> tail = written) /\
  (rune_dense written -> truncated = true -> (4 <= limit)%nat -> starts_rune tail).
Proof.
  intros written. assert (tail_ok limit written (write_all limit payloads)) as H; [|by destruct (write_all limit payloads), H].
  unfold written, write_all. clear written.
  induction payloads as [|payload payloads IH] using rev_ind.
  - split; simpl; try done; lia.
  - rewrite foldl_app. simpl. rewrite join_app. simpl. rewrite app_nil_r. by apply write_tail_ok.
Qed.
