(* ===== verification/Engine.v ===== *)
(** * Operations: the engine

    Models the stateful part of [internal/operation]: the [Operation] methods
    ([operation.go]), the project locks ([lock.go]), the engine ([engine.go]),
    the journal it persists to ([journal.go]), eviction ([eviction.go]), the
    terminal-audit outbox ([audit_outbox.go]) and shutdown ([shutdown.go]).

    The state [world] holds the engine, the journal directory, what the
    terminal auditor has received, and the outcomes of the calls still to come
    (file-system calls, admissions, deliveries, clock readings). Every
    definition named [..._locked] or acting on one mutex is one critical
    section; the Go methods are sequences of critical sections, and the
    invariants are proved per critical section, so they hold in every
    interleaving of the goroutines. A lease a goroutine holds in a local
    variable between two critical sections is kept in [e_local]. Journal files
    are keyed by operation ID (the file name is its SHA-256). *)

From S2P Require Import Prelude Operation.

(** ** State *)

Inductive opErr :=
| EInvalidSpec | ESpecMismatch | EIllegalTransition | EProjectBusy (project owner : string)
| EShuttingDown | EIO | EAdmission | EOutputDropped | EContext | EAuditor | EDuplicate
| EReclaimIncomplete | ENoOperation | EUnsupported.

#[export] Instance opErr_eq_dec : EqDecision opErr.
Proof. solve_decision. Defined.

Record Lease := mkLease { l_project : string; l_owner : string }.

#[export] Instance Lease_eq_dec : EqDecision Lease.
Proof. solve_decision. Defined.

(** [executionCancel] is represented by whether one is attached and whether it
    has been called. *)
Record Operation := mkOperation {
  o_spec : Spec;
  o_record : Record_;
  o_lease : option Lease;
  o_outputLimit : nat;
  o_notified : bool;
  o_cancelAttached : bool;
  o_cancelCalled : bool;
}.

Record Config := mkConfig {
  c_lockWait : Z;
  c_resultRetention : Z;
  c_resultMax : Z;
  c_outputTailBytes : Z;
  c_stalledAfter : Z;
  c_journal : bool;
  c_auditor : bool;
}.

Definition config_valid (c : Config) : bool :=
  negb ((c_lockWait c <? 0) || (c_resultRetention c <=? 0) || (c_resultMax c <=? 0)
        || (c_outputTailBytes c <=? 0) || (c_stalledAfter c <=? 0))
  && negb (c_auditor c && negb (c_journal c)).

Record Engine := mkEngine {
  e_config : Config;
  e_held : gmap string string;
  e_items : gmap string Operation;
  e_results : list (string * time);
  e_shuttingDown : bool;
  e_runnerCount : Z;
  e_local : gmap string Lease;
}.

Record world := mkWorld {
  w_engine : Engine;
  w_files : gmap string Record_;
  w_outputs : gmap string (list Z * bool);
  w_delivered : list Record_;
  w_confirmed : list string;
  w_outcomes : list bool;
  w_times : list time;
  w_lastTime : time;
}.

Definition opM := M world opErr.

(** ** Field updates *)

Definition upd_engine (f : Engine -> Engine) (w : world) : world :=
  mkWorld (f (w_engine w)) (w_files w) (w_outputs w) (w_delivered w) (w_confirmed w) (w_outcomes w)
    (w_times w) (w_lastTime w).
Definition upd_files (f : gmap string Record_ -> gmap string Record_) (w : world) : world :=
  mkWorld (w_engine w) (f (w_files w)) (w_outputs w) (w_delivered w) (w_confirmed w) (w_outcomes w)
    (w_times w) (w_lastTime w).
Definition upd_outputs (f : gmap string (list Z * bool) -> gmap string (list Z * bool)) (w : world) : world :=
  mkWorld (w_engine w) (w_files w) (f (w_outputs w)) (w_delivered w) (w_confirmed w) (w_outcomes w)
    (w_times w) (w_lastTime w).
Definition add_delivered (r : Record_) (w : world) : world :=
  mkWorld (w_engine w) (w_files w) (w_outputs w) (w_delivered w ++ [r]) (w_confirmed w) (w_outcomes w)
    (w_times w) (w_lastTime w).
Definition add_confirmed (id : string) (w : world) : world :=
  mkWorld (w_engine w) (w_files w) (w_outputs w) (w_delivered w) (w_confirmed w ++ [id]) (w_outcomes w)
    (w_times w) (w_lastTime w).

Definition set_items (items : gmap string Operation) (e : Engine) : Engine :=
  mkEngine (e_config e) (e_held e) items (e_results e) (e_shuttingDown e) (e_runnerCount e) (e_local e).
Definition set_results (l : list (string * time)) (e : Engine) : Engine :=
  mkEngine (e_config e) (e_held e) (e_items e) l (e_shuttingDown e) (e_runnerCount e) (e_local e).
Definition set_locks (held : gmap string string) (local : gmap string Lease) (e : Engine) : Engine :=
  mkEngine (e_config e) held (e_items e) (e_results e) (e_shuttingDown e) (e_runnerCount e) local.
Definition set_lifecycle (down : bool) (runners : Z) (e : Engine) : Engine :=
  mkEngine (e_config e) (e_held e) (e_items e) (e_results e) down runners (e_local e).

Definition with_record (r : Record_) (o : Operation) : Operation :=
  mkOperation (o_spec o) r (o_lease o) (o_outputLimit o) (o_notified o) (o_cancelAttached o) (o_cancelCalled o).
Definition with_lease (l : option Lease) (o : Operation) : Operation :=
  mkOperation (o_spec o) (o_record o) l (o_outputLimit o) (o_notified o) (o_cancelAttached o) (o_cancelCalled o).
Definition with_cancel (attached called : bool) (o : Operation) : Operation :=
  mkOperation (o_spec o) (o_record o) (o_lease o) (o_outputLimit o) (o_notified o) attached called.

(** ** Calls *)

Definition next_ok : opM bool := fun w =>
  match w_outcomes w with
  | [] => (Ok true, w)
  | b :: bs => (Ok b, mkWorld (w_engine w) (w_files w) (w_outputs w) (w_delivered w) (w_confirmed w) bs
                        (w_times w) (w_lastTime w))
  end.

(** A call that can fail with the given error. *)
Definition call (e : opErr) : opM unit :=
  let* ok := next_ok in if ok then ret tt else fail e.

(** [Clock.Now()] *)
Definition Now : opM time := fun w =>
  match w_times w with
  | [] => (Ok (w_lastTime w), w)
  | t :: ts => (Ok t, mkWorld (w_engine w) (w_files w) (w_outputs w) (w_delivered w) (w_confirmed w)
                        (w_outcomes w) ts t)
  end.

Definition config : opM Config := gets (fun w => e_config (w_engine w)).

(** The operation a method is called on. *)
Definition getOp (id : string) : opM Operation :=
  let* items := gets (fun w => e_items (w_engine w)) in
  match items !! id with Some o => ret o | None => fail ENoOperation end.

Definition putOp (id : string) (o : Operation) : opM unit :=
  modify (upd_engine (fun e => set_items (<[id := o]> (e_items e)) e)).

(** ** Journal *)

(** [writeJournalPayload]: create, write, fsync, close and rename a temporary
    file; then fsync the directory (open, fsync). *)
Definition writeJournalPayload (write : world -> world) : opM unit :=
  call EIO ;;; call EIO ;;; call EIO ;;; call EIO ;;; call EIO ;;;
  modify write ;;;
  call EIO ;;; call EIO.

(** The minimal record as it is written: without the derived warning and the
    output tail. *)
Definition minimal (r : Record_) : Record_ :=
  rec_stalled false (rec_output [] (r_OutputTruncated r) r).

(** [FileJournal.Save] *)
Definition Save (r : Record_) (includeOutput : bool) : opM unit :=
  if* negb (validateRecord r) then EInvalidSpec end;
  let* admitted := next_ok in
  if* negb admitted then (if includeOutput then EOutputDropped else EAdmission) end;
  if includeOutput
  then writeJournalPayload (upd_outputs (<[r_OperationID r := (r_OutputTail r, r_OutputTruncated r)]>))
  else writeJournalPayload (upd_files (<[r_OperationID r := minimal r]>)).

(** [FileJournal.Load]: the records in file order, each with its persisted
    output; every record is validated. *)
Definition load_record (outputs : gmap string (list Z * bool)) (r : Record_) : Record_ :=
  match outputs !! r_OperationID r with
  | Some (tail, truncated) => rec_output tail truncated r
  | None => r
  end.

Definition Load : opM (list Record_) :=
  call EIO ;;;
  let* files := gets w_files in
  let* outputs := gets w_outputs in
  let records := snd <$> map_to_list files in
  if* negb (forallb validateRecord records) then EInvalidSpec end;
  ret (load_record outputs <$> records).

(** [ReclaimOperationForDiskPressure] (also [Delete]): the output first, the
    record last; the directory is synced when something was removed. The result
    is the bytes freed (the sizes of the two files are given by [sizes]),
    whether the record was deleted, and the error. *)
Definition removeOperation (sizes : string -> Z * Z) (id : string) : opM (Z * bool * option opErr) :=
  if str_empty id then ret (0, false, Some EInvalidSpec)
  else
    let* r1 := attempt (call EIO) in
    match r1 with
    | Err e => ret (0, false, Some e)
    | Ok _ =>
      let* outputs := gets w_outputs in
      let freed := if bool_decide (is_Some (outputs !! id)) then fst (sizes id) else 0 in
      modify (upd_outputs (delete id)) ;;;
      let* r2 := attempt (call EIO) in
      match r2 with
      | Err e => ret (freed, false, Some e)
      | Ok _ =>
        let* files := gets w_files in
        let deleted := bool_decide (is_Some (files !! id)) in
        let freed := if deleted then freed + snd (sizes id) else freed in
        modify (upd_files (delete id)) ;;;
        if (deleted || bool_decide (is_Some (outputs !! id)))%bool then
          let* r3 := attempt (call EIO) in
          match r3 with
          | Err e => ret (freed, deleted, Some e)
          | Ok _ => ret (freed, deleted, None)
          end
        else ret (freed, deleted, None)
      end
    end.

Definition Delete (id : string) : opM unit :=
  let* r := removeOperation (fun _ => (0, 0)) id in
  match snd r with Some e => fail e | None => ret tt end.

(** [Engine.persist] *)
Definition persist (r : Record_) (includeOutput : bool) : opM unit :=
  let* c := config in
  if c_journal c then Save r includeOutput else ret tt.

(** ** Project locks *)

(** One round of the loop of [LockManager.Acquire], under the lock manager's
    mutex: take a free project lock (the lease is then held by the calling
    goroutine), or report who holds it. *)
Definition acquireOnce (project id : string) : opM (option string) :=
  if* (str_empty project || str_empty id)%bool then EInvalidSpec end;
  let* held := gets (fun w => e_held (w_engine w)) in
  match held !! project with
  | None =>
    modify (upd_engine (fun e =>
      set_locks (<[project := id]> (e_held e)) (<[id := mkLease project id]> (e_local e)) e)) ;;;
    ret None
  | Some owner => ret (Some owner)
  end.

(** What ends a wait in [Acquire]. *)
Inductive wait_event := WaitContext | WaitTimeout | WaitReleased.

(** [Acquire]: the events are what each blocking select observes. *)
Fixpoint Acquire (project id : string) (events : list wait_event) : opM unit :=
  let* blocked := acquireOnce project id in
  let* c := config in
  match blocked with
  | None => ret tt
  | Some owner =>
    if c_lockWait c <=? 0 then fail (EProjectBusy project owner)
    else match events with
         | WaitReleased :: events' => Acquire project id events'
         | WaitTimeout :: _ => fail (EProjectBusy project owner)
         | WaitContext :: _ | [] => fail EContext
         end
  end.

(** [Lease.Release] of a lease held by a goroutine. *)
Definition Release (id : string) : opM unit :=
  modify (upd_engine (fun e =>
    match e_local e !! id with
    | None => e
    | Some l =>
      let held := match e_held e !! l_project l with
                  | Some owner => if bool_decide (owner = l_owner l) then delete (l_project l) (e_held e)
                                  else e_held e
                  | None => e_held e
                  end in
      set_locks held (delete id (e_local e)) e
    end)).

(** [attachLease]: the lease moves from the goroutine to the operation unless the
    operation is already terminal, in which case the goroutine releases it. The
    code looks at its pointer to the operation: one that has left the index is
    terminal. *)
Definition attachLease (id : string) : opM unit :=
  let* e := gets w_engine in
  match e_items e !! id with
  | None => Release id
  | Some o =>
    if Terminal (r_Status (o_record o)) then Release id
    else
      putOp id (with_lease (e_local e !! id) o) ;;;
      modify (upd_engine (fun e => set_locks (e_held e) (delete id (e_local e)) e))
  end.

(** ** Finishing an operation *)

(** [finishLocked] on the operation: the lease it gives up and whether the
    transition is to be announced. *)
Definition finishLocked (st : Status) (now : time) (auditor : bool) (o : Operation) : Operation * bool :=
  if (negb (Terminal st) || o_notified o)%bool then (o, false)
  else
    let r := o_record o in
    (mkOperation (o_spec o)
       (rec_finish now (if auditor then ManagedAuditPending else r_ManagedAuditDelivery r) r)
       None (o_outputLimit o) true (o_cancelAttached o) (o_cancelCalled o), true).

(** The record changes of [TransitionStatus] before [finishLocked]. *)
Definition transition_record (next : Status) (result errorText : string) (now : time) (r : Record_) : Record_ :=
  rec_outcome
    (if (bool_decide (next = StatusRunning) && is_zero (r_StartedAt r))%bool then now else r_StartedAt r)
    (if bool_decide (next = StatusInterrupted) then true else r_PartialEffectsPossible r)
    result errorText (rec_status next now r).

(** The record changes of [reject]. *)
Definition reject_record (cause : string) (now : time) (r : Record_) : Record_ :=
  rec_outcome (r_StartedAt r) (r_PartialEffectsPossible r) (r_Result r) cause (rec_status StatusRejected now r).

(** Persisting a changed operation: kept when the save succeeds, undone when it
    fails. The lease a finished operation gave up is held by the goroutine
    until it releases it. *)
Definition commit_op (id : string) (before after : Operation) : opM unit :=
  putOp id after ;;;
  let* saved := attempt (persist (o_record after) false) in
  match saved with
  | Err e => putOp id before ;;; fail e
  | Ok _ =>
    match o_lease before, o_lease after with
    | Some l, None => modify (upd_engine (fun e => set_locks (e_held e) (<[id := l]> (e_local e)) e))
    | _, _ => ret tt
    end
  end.

(** [TransitionStatus], the critical section under the operation's mutex; the
    result is [finishLocked]'s announcement flag and time. *)
Definition transition_locked (id : string) (next : Status) (result errorText : string)
  : opM (bool * time) :=
  let* o := getOp id in
  let r := o_record o in
  if* negb (legalStatusTransition (r_Status r) next) then EIllegalTransition end;
  if* (bool_decide (next = StatusSuccess) && negb (bool_decide (r_Phase r = PhaseFinalizing)))%bool
  then EIllegalTransition end;
  if* (bool_decide (next = StatusCanceled) && is_zero (r_CancelRequestedAt r))%bool
  then EIllegalTransition end;
  let* now := Now in
  let* c := config in
  let r1 := transition_record next result errorText now r in
  let* finished := (if (negb (Terminal next) || o_notified o)%bool then ret time_zero else Now) in
  let '(o', notify) := finishLocked next finished (c_auditor c) (with_record r1 o) in
  commit_op id o o' ;;;
  ret (notify, finished).

Definition reject_locked (id : string) (cause : string) : opM (bool * time) :=
  let* o := getOp id in
  let r := o_record o in
  if Terminal (r_Status r) then ret (false, time_zero)
  else
    let* now := Now in
    let* c := config in
    let r1 := reject_record cause now r in
    let* finished := (if o_notified o then ret time_zero else Now) in
    let '(o', notify) := finishLocked StatusRejected finished (c_auditor c) (with_record r1 o) in
    commit_op id o o' ;;;
    ret (notify, finished).

(** ** The other operation methods *)

Definition AdvancePhase (id : string) (next : Phase) : opM unit :=
  let* o := getOp id in
  let r := o_record o in
  if* Terminal (r_Status r) then EIllegalTransition end;
  let valid :=
    (bool_decide (r_Phase r = PhasePreparing) && bool_decide (next = PhaseExecuting))
    || (if bool_decide (r_CancelMode r = CancelBeforeCommit)
        then bool_decide (r_Phase r = PhaseCommitting) && bool_decide (next = PhaseFinalizing)
        else bool_decide (r_Phase r = PhaseExecuting) && bool_decide (next = PhaseFinalizing)) in
  if* negb valid then EIllegalTransition end;
  let* now := Now in
  commit_op id o (with_record (rec_phase next (r_CommitStartedAt r) now r) o).

Definition EnterCommit (id : string) : opM unit :=
  let* o := getOp id in
  let r := o_record o in
  if* Terminal (r_Status r) then EIllegalTransition end;
  if* (negb (bool_decide (r_CancelMode r = CancelBeforeCommit))
       || negb (bool_decide (r_Phase r = PhaseExecuting)))%bool then EIllegalTransition end;
  if* negb (is_zero (r_CancelRequestedAt r)) then EIllegalTransition end;
  let* now := Now in
  commit_op id o (with_record (rec_phase PhaseCommitting now now r) o).

(** [CancelWithError] of an operation: the outcome, and the error of the save. *)
Definition op_cancel (id : string) (reason : CancelReason) : opM (CancelOutcome * option opErr) :=
  let* o := getOp id in
  let r := o_record o in
  if Terminal (r_Status r) then ret (CancelAlreadyTerminal, None)
  else if bool_decide (r_CancelMode r = CancelNone) then ret (CancelNotCancelable, None)
  else if (bool_decide (r_CancelMode r = CancelBeforeCommit)
           && (negb (is_zero (r_CommitStartedAt r)) || bool_decide (r_Phase r = PhaseCommitting)
               || bool_decide (r_Phase r = PhaseFinalizing)))%bool then ret (CancelTooLate, None)
  else if negb (is_zero (r_CancelRequestedAt r)) then ret (CancelAccepted, None)
  else
    let* now := Now in
    let r' := rec_cancel reason (bool_decide (r_CancelMode r = CancelBestEffortPartial)) now r in
    let* saved := attempt (commit_op id o (with_record r' o)) in
    match saved with
    | Err e => ret (CancelNotFound, Some e)
    | Ok _ =>
      let* o' := getOp id in
      putOp id (with_cancel (o_cancelAttached o') (o_cancelAttached o' || o_cancelCalled o')%bool o') ;;;
      ret (CancelAccepted, None)
    end.

Definition attachExecutionCancel (id : string) : opM unit :=
  let* o := getOp id in
  let r := o_record o in
  if (Terminal (r_Status r) || negb (is_zero (r_CancelRequestedAt r)))%bool
  then putOp id (with_cancel (o_cancelAttached o) true o)
  else putOp id (with_cancel true (o_cancelCalled o) o).

Definition WriteOutput (id : string) (payload : list Z) : opM unit :=
  let* o := getOp id in
  let r := o_record o in
  let '(tail, truncated) := write_tail (o_outputLimit o) payload (r_OutputTail r) (r_OutputTruncated r) in
  putOp id (with_record (rec_output tail truncated r) o).

Definition AdvanceProgress (id : string) : opM unit :=
  let* o := getOp id in
  let r := o_record o in
  if* Terminal (r_Status r) then EIllegalTransition end;
  let* now := Now in
  commit_op id o (with_record (rec_phase (r_Phase r) (r_CommitStartedAt r) now r) o).

Definition FlushOutputTail (id : string) : opM unit :=
  let* o := getOp id in
  persist (o_record o) true.

(** [Snapshot]: the record with the derived stall warning; the clock is read
    only for a committing operation. *)
Definition Snapshot (id : string) : opM Record_ :=
  let* o := getOp id in
  let r := o_record o in
  let* c := config in
  if (bool_decide (r_Status r = StatusRunning) && bool_decide (r_CancelMode r = CancelBeforeCommit)
      && bool_decide (r_Phase r = PhaseCommitting))%bool
  then
    let* now := Now in
    ret (rec_stalled (now - r_LastProgressAt r >=? c_stalledAfter c) r)
  else ret (rec_stalled false r).

(** ** The engine *)

Definition op_terminal (o : Operation) : bool := Terminal (r_Status (o_record o)).
Definition op_pending (o : Operation) : bool :=
  bool_decide (r_ManagedAuditDelivery (o_record o) = ManagedAuditPending).

(** The loop of [cleanupLocked]; every round that continues drops a result. *)
Fixpoint cleanup_loop (fuel : nat) (now : time) : opM unit :=
  match fuel with
  | O => ret tt
  | S fuel' =>
    let* e := gets w_engine in
    match e_results e with
    | [] => ret tt
    | (id, finishedAt) :: rest =>
      if (negb (Z.of_nat (length (e_results e)) >? c_resultMax (e_config e))
          && (finishedAt >? now - c_resultRetention (e_config e)))%bool then ret tt
      else
        let drop_ :=
          modify (upd_engine (fun e => set_results (tail (e_results e)) e)) ;;; cleanup_loop fuel' now in
        match e_items e !! id with
        | Some o =>
          if negb (op_terminal o) then drop_
          else if op_pending o then ret tt
          else
            let* deleted := attempt (if c_journal (e_config e) then Delete id else ret tt) in
            match deleted with
            | Err _ => ret tt
            | Ok _ => modify (upd_engine (fun e => set_items (delete id (e_items e)) e)) ;;; drop_
            end
        | None => drop_
        end
    end
  end.

Definition cleanupLocked (now : time) : opM unit :=
  let* e := gets w_engine in
  cleanup_loop (length (e_results e)) now.

(** [accept]: the result is whether the operation was created. *)
Definition accept (spec : Spec) (reserveRunner : bool) : opM bool :=
  if* (str_empty (sp_OperationID spec) || negb (type_valid (sp_Type spec))
       || negb (validPayloadHash (sp_PayloadHash spec)))%bool then EInvalidSpec end;
  if* (requiresProjectLock (sp_Type spec) && str_empty (sp_ProjectKey spec))%bool then EInvalidSpec end;
  let* now := Now in
  cleanupLocked now ;;;
  let* e := gets w_engine in
  if* e_shuttingDown e then EShuttingDown end;
  match e_items e !! sp_OperationID spec with
  | Some existing =>
    if* negb (bool_decide (o_spec existing = spec)) then ESpecMismatch end;
    ret false
  | None =>
    let r := new_record spec (cancelModeForType (sp_Type spec)) now in
    persist r false ;;;
    modify (upd_engine (fun e =>
      set_items (<[sp_OperationID spec :=
        mkOperation spec r None (Z.to_nat (c_outputTailBytes (e_config e))) false false false]> (e_items e)) e)) ;;;
    (if reserveRunner
     then modify (upd_engine (fun e => set_lifecycle (e_shuttingDown e) (e_runnerCount e + 1) e))
     else ret tt) ;;;
    ret true
  end.

(** The second critical section of [deliverTerminalAudit]: journal DELIVERED. *)
Definition mark_delivered (id : string) : opM unit :=
  let* o := getOp id in
  if op_pending o
  then commit_op id o (with_record (rec_finish (r_FinishedAt (o_record o)) ManagedAuditDelivered
                                      (o_record o)) o)
  else ret tt.

(** [DeliverTerminal] and [ConfirmTerminal] of the terminal auditor: what it has
    accepted is kept in [w_delivered] and [w_confirmed]. *)
Definition DeliverTerminal (r : Record_) : opM unit := call EAuditor ;;; modify (add_delivered r).
Definition ConfirmTerminal (id : string) : opM unit := call EAuditor ;;; modify (add_confirmed id).

(** [deliverTerminalAudit]: deliver, journal DELIVERED, confirm. *)
Definition deliverTerminalAudit (id : string) : opM unit :=
  let* c := config in
  if negb (c_auditor c) then ret tt
  else
    let* o := getOp id in
    let r := o_record o in
    match r_ManagedAuditDelivery r with
    | ManagedAuditNone => ret tt
    | ManagedAuditDelivered => ConfirmTerminal id
    | _ =>
      call EContext ;;;
      DeliverTerminal r ;;;
      mark_delivered id ;;;
      ConfirmTerminal id
    end.

(** The critical section of [onTerminal]: index the result and clean up. *)
Definition index_terminal (id : string) (finishedAt : time) : opM unit :=
  let* e := gets w_engine in
  match e_items e !! id with
  | Some _ =>
    modify (upd_engine (fun e => set_results (e_results e ++ [(id, finishedAt)]) e)) ;;;
    let* now := Now in
    cleanupLocked now
  | None => ret tt
  end.

(** [onTerminal] *)
Definition onTerminal (id : string) (finishedAt : time) : opM unit :=
  index_terminal id finishedAt ;;;
  let* _ := attempt (deliverTerminalAudit id) in
  ret tt.

(** [afterTerminal] *)
Definition afterTerminal (id : string) (notify : bool) (finishedAt : time) : opM unit :=
  if notify then Release id ;;; onTerminal id finishedAt else ret tt.

Definition TransitionStatus (id : string) (next : Status) (result errorText : string) : opM unit :=
  let* r := transition_locked id next result errorText in
  afterTerminal id (fst r) (snd r).

Definition reject (id : string) (cause : string) : opM unit :=
  let* r := reject_locked id cause in
  afterTerminal id (fst r) (snd r).

(** [Create]: accept, then take the project lock; a failed acquisition rejects
    the operation. *)
Definition Create (spec : Spec) (events : list wait_event) (cause : string) : opM bool :=
  let* created := accept spec false in
  if negb created then ret false
  else if requiresProjectLock (sp_Type spec) then
    let* acquired := attempt (Acquire (sp_ProjectKey spec) (sp_OperationID spec) events) in
    match acquired with
    | Err e => reject (sp_OperationID spec) cause ;;; fail e
    | Ok _ => attachLease (sp_OperationID spec) ;;; ret true
    end
  else ret true.

Definition runnerFinished : opM unit :=
  modify (upd_engine (fun e =>
    set_lifecycle (e_shuttingDown e) (if e_runnerCount e >? 0 then e_runnerCount e - 1 else e_runnerCount e) e)).

(** The goroutine of [StartOperation]. *)
Definition run_operation (spec : Spec) (events : list wait_event) (cause : string) (runner : opM unit) : opM unit :=
  let id := sp_OperationID spec in
  let* acquired :=
    attempt (if requiresProjectLock (sp_Type spec)
             then Acquire (sp_ProjectKey spec) id events ;;; attachLease id else ret tt) in
  let* _ := attempt (
    match acquired with
    | Err _ =>
      let* o := getOp id in
      if negb (is_zero (r_CancelRequestedAt (o_record o)))
      then TransitionStatus id StatusCanceled "" cause
      else reject id cause
    | Ok _ =>
      let* dispatched := attempt (TransitionStatus id StatusDispatched "" "") in
      match dispatched with
      | Err _ => reject id cause
      | Ok _ => runner
      end
    end) in
  runnerFinished.

(** [StartOperation] up to the start of its goroutine. *)
Definition StartOperation (spec : Spec) : opM (Record_ * bool) :=
  let* created := accept spec true in
  let* snapshot := Snapshot (sp_OperationID spec) in
  (if created then attachExecutionCancel (sp_OperationID spec) else ret tt) ;;;
  ret (snapshot, created).

Definition CancelWithError (id : string) (reason : CancelReason) : opM (CancelOutcome * option opErr) :=
  let* e := gets w_engine in
  match e_items e !! id with
  | None => ret (CancelNotFound, None)
  | Some _ => op_cancel id reason
  end.

Definition Get (id : string) : opM (option Record_) :=
  let* now := Now in
  cleanupLocked now ;;;
  let* e := gets w_engine in
  match e_items e !! id with
  | None => ret None
  | Some _ => let* r := Snapshot id in ret (Some r)
  end.

Inductive DisconnectKind := DisconnectBrowser | DisconnectTransport | DisconnectOther.

Definition HandleDisconnect (id : string) (kind : DisconnectKind) : opM bool :=
  match kind with
  | DisconnectOther => ret false
  | _ => let* r := Get id in ret (bool_decide (is_Some r))
  end.

(** ** Outbox replay *)

Definition id_less (a b : string) : bool := bool_decide (String.compare a b = Lt).

(** The operations [ReplayTerminalAudits] delivers, by ID. *)
Definition replay_ids (e : Engine) : list string :=
  sort_by id_less
    (fst <$> List.filter (fun p => op_terminal (snd p)
        && negb (bool_decide (r_ManagedAuditDelivery (o_record (snd p)) = ManagedAuditNone)))%bool
      (map_to_list (e_items e))).

Fixpoint replay_loop (ids : list string) (err : option opErr) : opM (option opErr) :=
  match ids with
  | [] => ret err
  | id :: ids' =>
    let* r := attempt (deliverTerminalAudit id) in
    replay_loop ids' (match r with Err e => Some e | Ok _ => err end)
  end.

Definition ReplayTerminalAudits : opM unit :=
  let* c := config in
  if negb (c_auditor c) then ret tt
  else
    let* e := gets w_engine in
    let* err := replay_loop (replay_ids e) None in
    match err with Some e => fail e | None => ret tt end.

(** [PendingTerminalAudits]: snapshots of the undelivered records, by ID. *)
Definition pending_ids (e : Engine) : list string :=
  sort_by id_less (fst <$> List.filter (fun p => op_pending (snd p)) (map_to_list (e_items e))).

Fixpoint snapshots (ids : list string) : opM (list Record_) :=
  match ids with
  | [] => ret []
  | id :: ids' => let* r := Snapshot id in let* rs := snapshots ids' in ret (r :: rs)
  end.

Definition PendingTerminalAudits : opM (list Record_) :=
  let* e := gets w_engine in snapshots (pending_ids e).

(** ** Restart *)

(** The record of a non-terminal operation found in the journal. *)
Definition interrupt_record (now : time) (auditor : bool) (r : Record_) : Record_ :=
  rec_finish now (if auditor then ManagedAuditPending else r_ManagedAuditDelivery r)
    (rec_outcome (r_StartedAt r) true (r_Result r) "agent restarted while operation was nonterminal"
       (rec_status StatusInterrupted now r)).

Definition clip_record (limit : nat) (r : Record_) : Record_ :=
  if decide (limit < length (r_OutputTail r))%nat
  then rec_output (TrimPartialLeadingRune (newest limit (r_OutputTail r))) true r else r.

Definition spec_of (r : Record_) : Spec :=
  mkSpec (r_OperationID r) (r_ProjectKey r) (r_Target r) (r_Type r) (r_PayloadHash r).

(** What recovery makes of a record, and whether it is written back. *)
Definition recover_record (now : time) (auditor : bool) (r : Record_) : Record_ * bool :=
  if negb (Terminal (r_Status r)) then (interrupt_record now auditor r, true)
  else if (auditor && bool_decide (r_ManagedAuditDelivery r = ManagedAuditNone))%bool
       then (rec_finish (r_FinishedAt r) ManagedAuditPending r, true)
       else (r, false).

Fixpoint recover_loop (now : time) (records : list Record_) : opM unit :=
  match records with
  | [] => ret tt
  | r0 :: records' =>
    let* e := gets w_engine in
    if* bool_decide (is_Some (e_items e !! r_OperationID r0)) then EDuplicate end;
    let limit := Z.to_nat (c_outputTailBytes (e_config e)) in
    let r1 := clip_record limit r0 in
    let '(r2, changed) := recover_record now (c_auditor (e_config e)) r1 in
    (if changed then persist r2 false else ret tt) ;;;
    modify (upd_engine (fun e =>
      set_results (e_results e ++ [(r_OperationID r0, r_FinishedAt r2)])
        (set_items (<[r_OperationID r0 :=
           mkOperation (spec_of r1) r2 None limit true false false]> (e_items e)) e))) ;;;
    recover_loop now records'
  end.

Definition recoverJournal : opM unit :=
  let* c := config in
  if negb (c_journal c) then ret tt
  else
    let* records := Load in
    let* now := Now in
    recover_loop now records ;;;
    modify (upd_engine (fun e => set_results (sort_by (fun a b => snd a <? snd b) (e_results e)) e)) ;;;
    cleanupLocked now.

(** [New] *)
Definition New (c : Config) : opM unit :=
  if* negb (config_valid c) then EInvalidSpec end;
  modify (upd_engine (fun _ => mkEngine c ∅ ∅ [] false 0 ∅)) ;;;
  recoverJournal ;;;
  ReplayTerminalAudits.

(** ** Disk-pressure eviction *)

(** The loop of [ReclaimExpiredForDiskPressure]: [kept] is the code's
    [remaining], the list argument what is still to be examined. File sizes are
    given by [sizes]. *)
Fixpoint reclaim_expired_loop (sizes : string -> Z * Z) (cutoff : time) (bytesNeeded freed : Z)
    (kept todo : list (string * time)) : opM (Z * option opErr) :=
  let finish (l : list (string * time)) (r : Z * option opErr) : opM (Z * option opErr) :=
    modify (upd_engine (set_results l)) ;;; ret r in
  match todo with
  | [] => finish kept (freed, None)
  | (id, finishedAt) :: todo' =>
    if ((freed >=? bytesNeeded) || (finishedAt >? cutoff))%bool then finish (kept ++ todo) (freed, None)
    else
      let* live := attempt (call EContext) in
      match live with
      | Err e => finish (kept ++ todo) (freed, Some e)
      | Ok _ =>
        let* e := gets w_engine in
        match e_items e !! id with
        | None => reclaim_expired_loop sizes cutoff bytesNeeded freed kept todo'
        | Some o =>
          if (negb (op_terminal o) || op_pending o)%bool
          then reclaim_expired_loop sizes cutoff bytesNeeded freed (kept ++ [(id, finishedAt)]) todo'
          else
            let* r := removeOperation sizes id in
            let '(itemBytes, deleted, err) := r in
            let freed' := freed + itemBytes in
            (if (deleted : bool)
             then modify (upd_engine (fun e => set_items (delete id (e_items e)) e)) else ret tt) ;;;
            let kept' := if (deleted : bool) then kept else kept ++ [(id, finishedAt)] in
            match err with
            | Some e => finish (kept' ++ todo') (freed', Some e)
            | None =>
              if deleted then reclaim_expired_loop sizes cutoff bytesNeeded freed' kept' todo'
              else finish (kept' ++ todo') (freed', Some EReclaimIncomplete)
            end
        end
      end
  end.

Definition ReclaimExpiredForDiskPressure (sizes : string -> Z * Z) (bytesNeeded : Z) : opM (Z * option opErr) :=
  if bytesNeeded <=? 0 then ret (0, None)
  else
    let* live := attempt (call EContext) in
    match live with
    | Err e => ret (0, Some e)
    | Ok _ =>
      let* e := gets w_engine in
      if negb (c_journal (e_config e)) then ret (0, None)
      else
        let* now := Now in
        reclaim_expired_loop sizes (now - c_resultRetention (e_config e)) bytesNeeded 0 [] (e_results e)
    end.

(** ** Shutdown *)

(** The operations [Shutdown] cancels. *)
Definition active_ids (e : Engine) : list string :=
  sort_by id_less (fst <$> List.filter (fun p => negb (op_terminal (snd p))) (map_to_list (e_items e))).

Fixpoint cancel_loop (ids : list string) (err : option opErr) : opM (option opErr) :=
  match ids with
  | [] => ret err
  | id :: ids' =>
    let* r := CancelWithError id CancelReasonAgentShutdown in
    cancel_loop ids' (match snd r with Some e => Some e | None => err end)
  end.

(** The first part of [Shutdown]: close admission and request cancellation. *)
Definition shutdown_begin : opM (option opErr) :=
  modify (upd_engine (fun e => set_lifecycle true (e_runnerCount e) e)) ;;;
  let* e := gets w_engine in
  cancel_loop (active_ids e) None.

(** The condition [waitForTerminalRunners] waits for. *)
Definition drained (e : Engine) : bool :=
  bool_decide (active_ids e = []) && (e_runnerCount e =? 0).
