(* ===== verification/EngineInv.v ===== *)
(** * Operations: invariant of the engine

    The invariant of every operation record, of the journal and of the project
    locks, and its preservation by every critical section of the engine under
    every pattern of failing calls. *)

From S2P Require Import Prelude Operation Engine.

(** ** Records *)

(** What every record satisfies, in memory and on disk. *)
Record rec_inv (id : string) (r : Record_) : Prop := {
  ri_id : r_OperationID r = id;
  ri_valid : validateRecord r = true;
  ri_rev : u64_ok (r_Revision r);
  ri_exclusive : is_zero (r_CommitStartedAt r) = false -> is_zero (r_CancelRequestedAt r) = true;
  ri_commit : r_CancelMode r = CancelBeforeCommit ->
              r_Phase r = PhaseCommitting \/ r_Phase r = PhaseFinalizing ->
              is_zero (r_CommitStartedAt r) = false;
  ri_early : r_Phase r = PhasePreparing \/ r_Phase r = PhaseExecuting ->
             is_zero (r_CommitStartedAt r) = true;
  ri_nocommit : r_CancelMode r <> CancelBeforeCommit -> is_zero (r_CommitStartedAt r) = true;
  ri_success : r_Status r = StatusSuccess -> r_Phase r = PhaseFinalizing;
  ri_canceled : r_Status r = StatusCanceled -> is_zero (r_CancelRequestedAt r) = false;
}.

(** What every operation in memory satisfies. *)
Record op_inv (auditor : bool) (id : string) (o : Operation) : Prop := {
  oi_rec : rec_inv id (o_record o);
  oi_spec : o_spec o = spec_of (o_record o);
  oi_notified : o_notified o = op_terminal o;
  oi_lease : forall l, o_lease o = Some l -> op_terminal o = false;
  oi_outbox : auditor = true -> op_terminal o = true ->
              r_ManagedAuditDelivery (o_record o) <> ManagedAuditNone;
}.

(** ** Locks *)

(** The lease an operation holds, itself or in the hands of a goroutine. *)
Definition holds (e : Engine) (id project : string) : Prop :=
  (exists o, e_items e !! id = Some o /\ o_lease o = Some (mkLease project id)) \/
  e_local e !! id = Some (mkLease project id).

Record lock_inv (e : Engine) : Prop := {
  li_held : forall p id, e_held e !! p = Some id <-> holds e id p;
  li_one : forall id o l l', e_items e !! id = Some o -> o_lease o = Some l ->
           e_local e !! id = Some l' -> False;
  li_item : forall id o l, e_items e !! id = Some o -> o_lease o = Some l -> l_owner l = id;
  li_local : forall id l, e_local e !! id = Some l -> l_owner l = id;
}.

Record inv (w : world) : Prop := {
  iv_journal : c_journal (e_config (w_engine w)) = true;
  iv_files : map_Forall rec_inv (w_files w);
  iv_items : map_Forall (op_inv (c_auditor (e_config (w_engine w)))) (e_items (w_engine w));
  iv_locks : lock_inv (w_engine w);
}.

(** ** Frames *)

(** A step that leaves the engine and the records on disk alone. *)
Definition frame (w w' : world) : Prop := w_engine w' = w_engine w /\ w_files w' = w_files w.

Definition frames {A} (m : opM A) : Prop := forall w, frame w (m w).2.

#[export] Instance frame_preorder : PreOrder frame.
Proof. split; [done|]. intros a b c [] []. split; congruence. Qed.

Lemma frames_bind {A B} (m : opM A) (f : A -> opM B) : frames m -> (forall a, frames (f a)) -> frames (bind m f).
Proof.
  intros Hm Hf w. unfold bind. specialize (Hm w). destruct (m w) as [[a|e] w']; simpl in *; [|done].
  etransitivity; [exact Hm | apply Hf].
Qed.
Lemma frames_ret {A} (a : A) : frames (ret a).
Proof. done. Qed.
Lemma frames_fail {A} e : frames (fail e : opM A).
Proof. done. Qed.
Lemma frames_gets {A} (f : world -> A) : frames (gets f).
Proof. done. Qed.
Lemma frames_attempt {A} (m : opM A) : frames m -> frames (attempt m).
Proof. intros H w. unfold attempt. specialize (H w). by destruct (m w). Qed.
Lemma frames_next : frames next_ok.
Proof. intros w. unfold next_ok. by destruct (w_outcomes w). Qed.
Lemma frames_Now : frames Now.
Proof. intros w. unfold Now. by destruct (w_times w). Qed.

Create HintDb opframe.
#[export] Hint Resolve frames_ret frames_fail frames_gets frames_attempt frames_next frames_Now : opframe.

Ltac frames :=
  repeat first
    [ progress auto with opframe
    | apply frames_bind; intros
    | match goal with |- frames (match ?x with _ => _ end) => destruct x end ].

Lemma frames_call e : frames (call e).
Proof. unfold call. frames. Qed.
Lemma frames_config : frames config.
Proof. unfold config. frames. Qed.
Lemma frames_getOp id : frames (getOp id).
Proof. unfold getOp. frames. Qed.
#[export] Hint Resolve frames_call frames_config frames_getOp : opframe.
Lemma frames_Snapshot id : frames (Snapshot id).
Proof. unfold Snapshot. frames. Qed.
#[export] Hint Resolve frames_Snapshot : opframe.

Lemma frame_inv w w' : frame w w' -> inv w -> inv w'.
Proof. intros [He Hf] []. split; rewrite ?He, ?Hf; done. Qed.

(** [keeps inv] for steps that only read. *)
Lemma frames_keeps {A} (m : opM A) : frames m -> keeps inv m.
Proof. intros H w Hi. eapply frame_inv; [apply H | done]. Qed.

(** Running a reading step. *)
Lemma run_frame {A} (m : opM A) w r w' : frames m -> m w = (r, w') -> frame w w'.
Proof. intros H E. specialize (H w). by rewrite E in H. Qed.

(** ** Saving *)

Lemma writeJournal_effect write w r w' :
  (forall w, w_engine (write w) = w_engine w) -> writeJournalPayload write w = (r, w') ->
  w_engine w' = w_engine w /\
  ((w_files w' = w_files w /\ is_ok r = false) \/
   exists w0, w_files w0 = w_files w /\ w_files w' = w_files (write w0)).
Proof.
  intros Hw. unfold writeJournalPayload, bind at 1 2 3 4 5.
  do 5 (match goal with |- context [call EIO ?x] =>
    let H := fresh "Hf" in let y := fresh "x" in
    pose proof (frames_call EIO x) as H; destruct (call EIO x) as [[[]|] y]; simpl in H;
    [|intros [= <- <-]; destruct_and?; repeat match goal with H : frame _ _ |- _ => destruct H end;
      split; [congruence | left; split; [congruence | done]]] end).
  unfold bind at 1, modify at 1. intros E.
  assert (frame (write x3) w') as [He' Hf'].
  { apply (run_frame (call EIO ;;; call EIO) _ r); [frames | done]. }
  repeat match goal with H : frame _ _ |- _ => destruct H end. rewrite Hw in He'.
  split; [congruence|]. right. exists x3. split; congruence.
Qed.

Lemma Save_effect r b w res w' :
  Save r b w = (res, w') ->
  w_engine w' = w_engine w /\
  ((w_files w' = w_files w /\ (b = false -> is_ok res = false)) \/
   (validateRecord r = true /\ b = false /\ w_files w' = <[r_OperationID r := minimal r]> (w_files w))) /\
  (is_ok res = true -> validateRecord r = true).
Proof.
  unfold Save. destruct (validateRecord r) eqn:Ev; cbn [negb]; [|intros [= <- <-]; split_and!; auto].
  unfold bind at 1. pose proof (frames_next w) as [He Hf]. destruct (next_ok w) as [[ok|] w1]; simpl in He, Hf.
  2: { intros [= <- <-]. split_and!; auto. }
  destruct ok; cbn [negb]; [|intros [= <- <-]; split_and!; auto].
  destruct b; intros E; apply writeJournal_effect in E as [He' Hf']; try done; rewrite He in He'.
  - split_and!; [done | left; split; [|done] | done].
    destruct Hf' as [[-> _] | (w0 & H0 & ->)]; [done|]. simpl. congruence.
  - split_and!; [done | | done]. destruct Hf' as [[-> ?] | (w0 & H0 & ->)]; [left; by rewrite Hf|].
    right. split_and!; [done | done |]. simpl. by rewrite H0, Hf.
Qed.

Lemma minimal_inv id r : rec_inv id r -> rec_inv id (minimal r).
Proof. by intros []. Qed.

Lemma persist_effect r b w res w' :
  c_journal (e_config (w_engine w)) = true -> persist r b w = (res, w') ->
  w_engine w' = w_engine w /\
  ((w_files w' = w_files w /\ (b = false -> is_ok res = false)) \/
   (validateRecord r = true /\ b = false /\ w_files w' = <[r_OperationID r := minimal r]> (w_files w))) /\
  (is_ok res = true -> validateRecord r = true).
Proof.
  intros Hj. unfold persist, bind at 1, config at 1, gets at 1. rewrite Hj. apply Save_effect.
Qed.

(** ** The lock invariant under each change *)

(** [holds] only looks at the leases of the operations. *)
Lemma holds_put e id o o' i p :
  e_items e !! id = Some o -> o_lease o' = o_lease o ->
  holds (set_items (<[id := o']> (e_items e)) e) i p <-> holds e i p.
Proof.
  intros Hi Hl. unfold holds. simpl. destruct (decide (i = id)) as [->|Hne].
  - rewrite lookup_insert_eq. split; intros [(x & Hx & E)|?]; auto; left.
    + injection Hx as <-. exists o. split; [done | congruence].
    + exists o'. split; [done | congruence].
  - by rewrite lookup_insert_ne.
Qed.

Lemma lock_put e id o o' :
  lock_inv e -> e_items e !! id = Some o -> o_lease o' = o_lease o ->
  lock_inv (set_items (<[id := o']> (e_items e)) e).
Proof.
  intros [H1 H2 H3 H4] Hi Hl. split; simpl; [|  | |done].
  - intros p i. rewrite holds_put by done. apply H1.
  - intros i x l l' Hx. destruct (decide (i = id)) as [->|Hne].
    + rewrite lookup_insert_eq in Hx. injection Hx as <-. rewrite Hl. by eapply H2.
    + rewrite lookup_insert_ne in Hx by done. by eapply H2.
  - intros i x l Hx. destruct (decide (i = id)) as [->|Hne].
    + rewrite lookup_insert_eq in Hx. injection Hx as <-. rewrite Hl. by eapply H3.
    + rewrite lookup_insert_ne in Hx by done. by eapply H3.
Qed.

(** An operation without a lease enters or leaves the index. *)
Lemma lock_add e id o :
  lock_inv e -> e_items e !! id = None -> o_lease o = None ->
  lock_inv (set_items (<[id := o]> (e_items e)) e).
Proof.
  intros [H1 H2 H3 H4] Hi Hl. split; simpl; [| | |done].
  - intros p i. rewrite H1. unfold holds. simpl. destruct (decide (i = id)) as [->|Hne].
    + rewrite lookup_insert_eq, Hi. split; intros [(x & Hx & E)|?]; auto; [done|].
      injection Hx as <-. congruence.
    + by rewrite lookup_insert_ne.
  - intros i x l l' Hx. destruct (decide (i = id)) as [->|Hne].
    + rewrite lookup_insert_eq in Hx. injection Hx as <-. congruence.
    + rewrite lookup_insert_ne in Hx by done. by eapply H2.
  - intros i x l Hx. destruct (decide (i = id)) as [->|Hne].
    + rewrite lookup_insert_eq in Hx. injection Hx as <-. congruence.
    + rewrite lookup_insert_ne in Hx by done. by eapply H3.
Qed.

Lemma lock_remove e id :
  lock_inv e -> (forall o, e_items e !! id = Some o -> o_lease o = None) ->
  lock_inv (set_items (delete id (e_items e)) e).
Proof.
  intros [H1 H2 H3 H4] Hi. split; simpl; [| | |done].
  - intros p i. rewrite H1. unfold holds. simpl. destruct (decide (i = id)) as [->|Hne].
    + rewrite lookup_delete_eq. split; intros [(x & Hx & E)|?]; auto; [|done].
      rewrite (Hi _ Hx) in E. done.
    + by rewrite lookup_delete_ne.
  - intros i x l l' Hx. destruct (decide (i = id)) as [->|Hne].
    + by rewrite lookup_delete_eq in Hx.
    + rewrite lookup_delete_ne in Hx by done. by eapply H2.
  - intros i x l Hx. destruct (decide (i = id)) as [->|Hne].
    + by rewrite lookup_delete_eq in Hx.
    + rewrite lookup_delete_ne in Hx by done. by eapply H3.
Qed.

(** A finished operation hands its lease to the goroutine. *)
Lemma lock_finish e id o o' l :
  lock_inv e -> e_items e !! id = Some o -> o_lease o = Some l -> o_lease o' = None ->
  lock_inv (set_locks (e_held e) (<[id := l]> (e_local e)) (set_items (<[id := o']> (e_items e)) e)).
Proof.
  intros [H1 H2 H3 H4] Hi Hl Hl'. pose proof (H3 _ _ _ Hi Hl) as Ho. split; simpl.
  - intros p i. rewrite H1. unfold holds. simpl. destruct (decide (i = id)) as [->|Hne].
    + rewrite !lookup_insert_eq, Hi. split.
      * intros [(x & [= <-] & E)|E]; [right; congruence|]. destruct (H2 _ _ _ _ Hi Hl E).
      * intros [(x & [= <-] & E)|E]; [congruence|]. left. exists o. split; [done | congruence].
    + by rewrite !lookup_insert_ne.
  - intros i x k k' Hx Hk. destruct (decide (i = id)) as [->|Hne].
    + rewrite lookup_insert_eq in Hx. injection Hx as <-. congruence.
    + rewrite !lookup_insert_ne in * by done. by eapply H2.
  - intros i x k Hx. destruct (decide (i = id)) as [->|Hne].
    + rewrite lookup_insert_eq in Hx. injection Hx as <-. congruence.
    + rewrite lookup_insert_ne in Hx by done. by eapply H3.
  - intros i k. destruct (decide (i = id)) as [->|Hne].
    + rewrite lookup_insert_eq. intros [= <-]. done.
    + rewrite lookup_insert_ne by done. apply H4.
Qed.

(** A goroutine takes a free lock. *)
Lemma lock_acquire e p id :
  lock_inv e -> e_held e !! p = None -> e_local e !! id = None ->
  (forall o, e_items e !! id = Some o -> o_lease o = None) ->
  lock_inv (set_locks (<[p := id]> (e_held e)) (<[id := mkLease p id]> (e_local e)) e).
Proof.
  intros [H1 H2 H3 H4] Hp Hloc Hit. split; simpl.
  - intros q i. unfold holds in *. simpl. destruct (decide (i = id)) as [->|Hne].
    + rewrite lookup_insert_eq. split.
      * intros Hq. right. destruct (decide (q = p)) as [->|Hqp]; [done|].
        rewrite lookup_insert_ne in Hq by done. apply H1 in Hq as [(o & Ho & El)|El]; [|congruence].
        rewrite (Hit _ Ho) in El. done.
      * intros [(o & Ho & El)|[= ->]]; [rewrite (Hit _ Ho) in El; done|]. apply lookup_insert_eq.
    + rewrite lookup_insert_ne with (i := id) by done. rewrite <- H1.
      destruct (decide (q = p)) as [->|Hqp]; [|by rewrite lookup_insert_ne].
      rewrite lookup_insert_eq, Hp. split; congruence.
  - intros i x k k' Hx Hk. destruct (decide (i = id)) as [->|Hne].
    + rewrite (Hit _ Hx) in Hk. done.
    + rewrite lookup_insert_ne by done. by eapply H2.
  - done.
  - intros i k. destruct (decide (i = id)) as [->|Hne].
    + rewrite lookup_insert_eq. intros [= <-]. done.
    + rewrite lookup_insert_ne by done. apply H4.
Qed.

(** Two holders of one project lock are the same. *)
Lemma holds_unique e i j p : lock_inv e -> holds e i p -> holds e j p -> i = j.
Proof.
  intros [H1 _ _ _] Hi Hj. apply H1 in Hi, Hj. congruence.
Qed.

Lemma lease_project_unique e id p q : lock_inv e -> holds e id p -> holds e id q -> p = q.
Proof.
  intros [H1 H2 H3 H4] [(o & Ho & Ep)|Ep] [(o' & Ho' & Eq)|Eq]; try congruence; exfalso; eauto.
Qed.

(** Releasing a lease frees exactly its project. *)
Lemma lock_release e id l :
  lock_inv e -> e_local e !! id = Some l ->
  e_held e !! l_project l = Some id /\
  lock_inv (set_locks (delete (l_project l) (e_held e)) (delete id (e_local e)) e).
Proof.
  intros Hli Hl. pose proof Hli as [H1 H2 H3 H4]. pose proof (H4 _ _ Hl) as Ho.
  assert (holds e id (l_project l)) as Hh.
  { right. rewrite Hl. destruct l; simpl in *; congruence. }
  split; [by apply H1|]. split; simpl.
  - intros q i. destruct (decide (q = l_project l)) as [->|Hq].
    + rewrite lookup_delete_eq. split; [done|]. intros Hi. exfalso.
      assert (i = id) as ->.
      { unfold holds in Hi. simpl in Hi. eapply (holds_unique e); [done | | exact Hh].
        destruct Hi as [?|Hi]; [by left|]. right. destruct (decide (i = id)) as [->|];
          [by rewrite lookup_delete_eq in Hi | by rewrite lookup_delete_ne in Hi]. }
      destruct Hi as [(o & Ho' & El)|Hi]; simpl in *; [by eapply H2 | by rewrite lookup_delete_eq in Hi].
    + rewrite lookup_delete_ne by done. rewrite H1. unfold holds. simpl.
      destruct (decide (i = id)) as [->|Hne].
      * rewrite lookup_delete_eq. split; [intros [?|E]; [by left|]|intros [?|?]; [by left | done]].
        exfalso. apply Hq. rewrite Hl in E. injection E as ->. done.
      * by rewrite lookup_delete_ne.
  - intros i x k k' Hx Hk. destruct (decide (i = id)) as [->|Hne].
    + by rewrite lookup_delete_eq.
    + rewrite lookup_delete_ne by done. by eapply H2.
  - done.
  - intros i k. destruct (decide (i = id)) as [->|Hne].
    + by rewrite lookup_delete_eq.
    + rewrite lookup_delete_ne by done. apply H4.
Qed.

(** A goroutine hands its lease to a live operation. *)
Lemma lock_attach e id o l :
  lock_inv e -> e_items e !! id = Some o -> e_local e !! id = Some l ->
  lock_inv (set_locks (e_held e) (delete id (e_local e))
              (set_items (<[id := with_lease (Some l) o]> (e_items e)) e)).
Proof.
  intros [H1 H2 H3 H4] Ho Hl. pose proof (H4 _ _ Hl) as Hown.
  assert (forall k, o_lease o = Some k -> False) as Hno by (intros; eauto). split; simpl.
  - intros p i. rewrite H1. unfold holds. simpl. destruct (decide (i = id)) as [->|Hne].
    + rewrite lookup_insert_eq, lookup_delete_eq, Ho, Hl. split.
      * intros [(x & [= <-] & E)|[= ->]]; [destruct (Hno _ E)|]. left. by eexists.
      * intros [(x & [= <-] & E)|?]; [|done]. right. simpl in E. congruence.
    + by rewrite lookup_insert_ne, lookup_delete_ne by done.
  - intros i x k k' Hx Hk. destruct (decide (i = id)) as [->|Hne].
    + by rewrite lookup_delete_eq.
    + rewrite lookup_insert_ne in Hx by done. rewrite lookup_delete_ne by done. by eapply H2.
  - intros i x k Hx. destruct (decide (i = id)) as [->|Hne].
    + rewrite lookup_insert_eq in Hx. injection Hx as <-. simpl. intros [= <-]. done.
    + rewrite lookup_insert_ne in Hx by done. by eapply H3.
  - intros i k. destruct (decide (i = id)) as [->|Hne].
    + by rewrite lookup_delete_eq.
    + rewrite lookup_delete_ne by done. apply H4.
Qed.

(** ** Committing a changed operation *)

(** The engine after a successful commit. *)
Definition committed (id : string) (before after : Operation) (e : Engine) : Engine :=
  let e' := set_items (<[id := after]> (e_items e)) e in
  match o_lease before, o_lease after with
  | Some l, None => set_locks (e_held e) (<[id := l]> (e_local e)) e'
  | _, _ => e'
  end.

Lemma commit_op_effect id before after w r w' :
  c_journal (e_config (w_engine w)) = true -> e_items (w_engine w) !! id = Some before ->
  r_OperationID (o_record after) = id ->
  commit_op id before after w = (r, w') ->
  (is_ok r = false /\ w_engine w' = w_engine w /\
   (w_files w' = w_files w \/
    (validateRecord (o_record after) = true /\ w_files w' = <[id := minimal (o_record after)]> (w_files w)))) \/
  (is_ok r = true /\ validateRecord (o_record after) = true /\
   w_engine w' = committed id before after (w_engine w) /\
   w_files w' = <[id := minimal (o_record after)]> (w_files w)).
Proof.
  intros Hj Hit Hid. unfold commit_op, bind at 1, putOp at 1, modify at 1.
  set (w1 := upd_engine _ w). unfold bind at 1, attempt at 1.
  destruct (persist (o_record after) false w1) as [res w2] eqn:E2.
  apply persist_effect in E2 as (He & Hf & Hv); [|done]. rewrite Hid in Hf. simpl in He, Hf.
  destruct res as [u|e].
  - destruct Hf as [[_ Hf] | (Hval & _ & Hf)]; [by specialize (Hf eq_refl)|].
    unfold committed. destruct (o_lease before), (o_lease after); intros [= <- <-]; right;
      (split_and!; [done | done | | exact Hf]); simpl; rewrite ?He; try done.
  - unfold bind, putOp, modify. intros [= <- <-]. left. split_and!; [done | |].
    + simpl. rewrite He. simpl. rewrite insert_insert_eq, insert_id by done. by destruct (w_engine w).
    + simpl. destruct Hf as [[Hf _] | (Hval & _ & Hf)]; auto.
Qed.

(** Leases change hands only when an operation gives its own up. *)
Definition lease_ok (before after : Operation) : Prop :=
  o_lease after = o_lease before \/ o_lease after = None.

Lemma committed_locks id before after e :
  lock_inv e -> e_items e !! id = Some before -> lease_ok before after ->
  lock_inv (committed id before after e).
Proof.
  intros Hl Hi Hok. unfold committed. destruct (o_lease before) as [l|] eqn:El; destruct (o_lease after) as [l'|] eqn:El'.
  - apply (lock_put e id before); [done | done |]. destruct Hok; congruence.
  - by apply (lock_finish e id before).
  - destruct Hok; congruence.
  - apply (lock_put e id before); [done | done | congruence].
Qed.

Lemma committed_items id before after e : e_items (committed id before after e) = <[id := after]> (e_items e).
Proof. unfold committed. by destruct (o_lease before), (o_lease after). Qed.
Lemma committed_config id before after e : e_config (committed id before after e) = e_config e.
Proof. unfold committed. by destruct (o_lease before), (o_lease after). Qed.

(** A commit keeps the invariant when the new operation satisfies it as soon
    as its record validates. *)
Lemma commit_op_inv id before after w :
  inv w -> e_items (w_engine w) !! id = Some before -> r_OperationID (o_record after) = id ->
  lease_ok before after ->
  (validateRecord (o_record after) = true ->
   op_inv (c_auditor (e_config (w_engine w))) id after) ->
  inv (commit_op id before after w).2.
Proof.
  intros Hi Hit Hid Hl Hop. destruct (commit_op id before after w) as [r w'] eqn:E. simpl.
  pose proof Hi as [Hj Hfiles Hitems Hlocks].
  apply commit_op_effect in E as [(_ & He & Hf) | (_ & Hval & He & Hf)]; try done.
  - split; rewrite ?He; try done. destruct Hf as [-> | [Hval ->]]; [done|].
    apply map_Forall_insert_2; [|done]. apply minimal_inv. by apply oi_rec in Hop.
  - split; rewrite ?He, ?committed_config, ?committed_items; auto using committed_locks.
    + rewrite Hf. apply map_Forall_insert_2; [|done]. apply minimal_inv. by apply oi_rec in Hop.
    + apply map_Forall_insert_2; auto.
Qed.

(** A change in memory only. *)
Lemma putOp_inv id before after w :
  inv w -> e_items (w_engine w) !! id = Some before -> o_lease after = o_lease before ->
  op_inv (c_auditor (e_config (w_engine w))) id after -> inv (putOp id after w).2.
Proof.
  intros [Hj Hfiles Hitems Hlocks] Hit Hl Hop. split; simpl; auto.
  - by apply map_Forall_insert_2.
  - by apply (lock_put (w_engine w) id before).
Qed.

(** Looking an operation up. *)
Lemma getOp_inv id w o w' :
  getOp id w = (Ok o, w') -> w' = w /\ e_items (w_engine w) !! id = Some o.
Proof. unfold getOp, bind, gets. destruct (_ !! id) eqn:E; [|done]. by intros [= <- <-]. Qed.

Lemma keeps_getOp {A} id (f : Operation -> opM A) :
  (forall w o, inv w -> e_items (w_engine w) !! id = Some o -> inv (f o w).2) ->
  keeps inv (bind (getOp id) f).
Proof.
  intros H w Hi. unfold bind. destruct (getOp id w) as [[o|e] w'] eqn:E.
  - apply getOp_inv in E as [-> Ho]. by apply H.
  - pose proof (run_frame _ _ _ _ (frames_getOp id) E) as Hf. by eapply frame_inv.
Qed.

Lemma keeps_after {A B} (m : opM A) (f : A -> opM B) w :
  frames m -> inv w -> (forall a w1, frame w w1 -> inv w1 -> inv (f a w1).2) -> inv (bind m f w).2.
Proof.
  intros Hm Hi H. unfold bind. specialize (Hm w). destruct (m w) as [[a|e] w1]; simpl in *.
  - apply H; [done|]. by eapply frame_inv.
  - by eapply frame_inv.
Qed.

(** Continue after a reading step, keeping what is known of the operation. *)
Lemma keeps_after_op {A B} (m : opM A) (f : A -> opM B) w id o :
  frames m -> inv w -> e_items (w_engine w) !! id = Some o ->
  (forall a w1, inv w1 -> e_items (w_engine w1) !! id = Some o -> e_config (w_engine w1) = e_config (w_engine w) ->
     inv (f a w1).2) -> inv (bind m f w).2.
Proof.
  intros Hm Hi Ho H. apply keeps_after; [done | done |]. intros a w1 [He _] Hi1. apply H; [done | |]; by rewrite He.
Qed.

(** ** What validation says *)

Lemma validate_inv r :
  validateRecord r = true ->
  is_zero (r_LastProgressAt r) = false /\ Terminal (r_Status r) = negb (is_zero (r_FinishedAt r)) /\
  r_CancelMode r = cancelModeForType (r_Type r) /\ r_Revision r <> 0 /\ r_OperationID r <> "".
Proof.
  unfold validateRecord. intros H. bool_to_prop.
  match goal with H : Bool.eqb _ _ = true |- _ => apply Bool.eqb_prop in H end.
  match goal with H : str_empty (r_OperationID r) = false |- _ => apply bool_decide_eq_false in H end.
  split_and!; done.
Qed.

(** ** Each record change keeps the record invariant *)

Lemma rec_status_inv id next now started partial result err r fin del :
  rec_inv id r ->
  (next = StatusSuccess -> r_Phase r = PhaseFinalizing) ->
  (next = StatusCanceled -> is_zero (r_CancelRequestedAt r) = false) ->
  let r' := rec_outcome started partial result err (rec_status next now r) in
  let r'' := rec_finish fin del r' in
  (validateRecord r' = true -> rec_inv id r') /\ (validateRecord r'' = true -> rec_inv id r'').
Proof. intros [] Hs Hc r' r''. split; intros Hv; split; auto; apply u64_range. Qed.

Lemma rec_phase_inv id ph commit now r :
  rec_inv id r -> (commit = r_CommitStartedAt r \/ is_zero (r_CancelRequestedAt r) = true) ->
  (r_CancelMode r = CancelBeforeCommit -> ph = PhaseCommitting \/ ph = PhaseFinalizing -> is_zero commit = false) ->
  (ph = PhasePreparing \/ ph = PhaseExecuting -> is_zero commit = true) ->
  (r_CancelMode r <> CancelBeforeCommit -> is_zero commit = true) ->
  Terminal (r_Status r) = false ->
  validateRecord (rec_phase ph commit now r) = true -> rec_inv id (rec_phase ph commit now r).
Proof.
  intros [] Hc Hph Hearly Hno Ht Hv. split; simpl; auto using u64_range.
  - destruct Hc as [->|?]; auto.
  - intros E. rewrite E in Ht. done.
Qed.

Lemma rec_cancel_inv id reason partial now r :
  rec_inv id r -> is_zero (r_CommitStartedAt r) = true ->
  validateRecord (rec_cancel reason partial now r) = true -> rec_inv id (rec_cancel reason partial now r).
Proof.
  intros [] Hc Hv. pose proof (validate_inv _ Hv) as (Hp & _). split; simpl in *; auto using u64_range. congruence.
Qed.

Lemma rec_output_inv id tail truncated r : rec_inv id r -> rec_inv id (rec_output tail truncated r).
Proof. by intros []. Qed.

(** Non-terminal changes of the record keep the operation invariant. *)
Lemma op_inv_live aud id o r' :
  op_inv aud id o -> rec_inv id r' -> spec_of r' = spec_of (o_record o) ->
  Terminal (r_Status (o_record o)) = false -> r_Status r' = r_Status (o_record o) ->
  op_inv aud id (with_record r' o).
Proof.
  intros [] Hr Hs Ht Hst. unfold op_terminal in *. split; simpl; auto; unfold op_terminal; simpl;
    rewrite ?Hst, ?Ht; try congruence.
Qed.

(** ** The methods of an operation *)

Lemma AdvancePhase_keeps id next : keeps inv (AdvancePhase id next).
Proof.
  apply keeps_getOp. intros w o Hi Ho. pose proof (iv_items _ Hi _ _ Ho) as Hop. cbv zeta.
  do 2 (case_if; [done|]).
  apply (keeps_after_op _ _ w id o); [auto with opframe | done | done |].
  intros now w1 Hi1 Ho1 Hc. apply (commit_op_inv id o); [done | done | apply (oi_rec _ _ _ Hop) | by left |].
  intros Hv. rewrite Hc. apply op_inv_live; auto. simpl in Hv. pose proof (oi_rec _ _ _ Hop) as Hr.
  assert ((r_Phase (o_record o) = PhasePreparing /\ next = PhaseExecuting) \/
    (r_CancelMode (o_record o) = CancelBeforeCommit /\ r_Phase (o_record o) = PhaseCommitting /\ next = PhaseFinalizing) \/
    (r_CancelMode (o_record o) <> CancelBeforeCommit /\ next = PhaseFinalizing)) as Hcases.
  { clear Hv. bool_to_prop. destruct (bool_decide (r_CancelMode _ = _)) eqn:Em; bool_cases; auto. }
  destruct Hr. apply rec_phase_inv; auto; [apply (oi_rec _ _ _ Hop) | |];
    destruct Hcases as [[Hp ->] | [(Hm & Hp & ->) | (Hm & ->)]]; intros; destruct_or?; try congruence; auto.
Qed.

Lemma EnterCommit_keeps id : keeps inv (EnterCommit id).
Proof.
  apply keeps_getOp. intros w o Hi Ho. pose proof (iv_items _ Hi _ _ Ho) as Hop. cbv zeta.
  do 3 (case_if; [done|]). bool_to_prop.
  apply (keeps_after_op _ _ w id o); [auto with opframe | done | done |].
  intros now w1 Hi1 Ho1 Hc. apply (commit_op_inv id o); [done | done | apply (oi_rec _ _ _ Hop) | by left |].
  intros Hv. rewrite Hc. pose proof (validate_inv _ Hv) as (Hp & _). simpl in Hp.
  apply op_inv_live; auto.
  apply rec_phase_inv; auto; try apply (oi_rec _ _ _ Hop); intros; destruct_or?; congruence.
Qed.

Lemma AdvanceProgress_keeps id : keeps inv (AdvanceProgress id).
Proof.
  apply keeps_getOp. intros w o Hi Ho. pose proof (iv_items _ Hi _ _ Ho) as Hop. cbv zeta.
  case_if; [done|]. apply (keeps_after_op _ _ w id o); [auto with opframe | done | done |].
  intros now w1 Hi1 Ho1 Hc. apply (commit_op_inv id o); [done | done | apply (oi_rec _ _ _ Hop) | by left |].
  intros Hv. rewrite Hc. apply op_inv_live; auto. destruct (oi_rec _ _ _ Hop).
  apply rec_phase_inv; auto. apply Hop.
Qed.

(** The flag of the execution context plays no role in the invariant. *)
Lemma op_inv_cancel aud id o a b : op_inv aud id o -> op_inv aud id (with_cancel a b o).
Proof. by intros []. Qed.

Lemma keeps_bind_attempt {A B} (m : opM A) (f : res opErr A -> opM B) w :
  inv (m w).2 -> (forall r w1, m w = (r, w1) -> inv w1 -> inv (f r w1).2) -> inv (bind (attempt m) f w).2.
Proof.
  intros Hm Hf. unfold bind, attempt. destruct (m w) as [r w1] eqn:E. by apply Hf.
Qed.

Lemma op_cancel_keeps id reason : keeps inv (op_cancel id reason).
Proof.
  apply keeps_getOp. intros w o Hi Ho. pose proof (iv_items _ Hi _ _ Ho) as Hop. cbv zeta.
  do 4 (case_if; [done|]). apply (keeps_after_op _ _ w id o); [auto with opframe | done | done |].
  intros now w1 Hi1 Ho1 Hc. apply keeps_bind_attempt.
  - apply (commit_op_inv id o); [done | done | apply (oi_rec _ _ _ Hop) | by left |].
    intros Hv. rewrite Hc. apply op_inv_live; auto. simpl in Hv.
    apply rec_cancel_inv; [apply (oi_rec _ _ _ Hop) | | done]. destruct (oi_rec _ _ _ Hop).
    destruct (decide (r_CancelMode (o_record o) = CancelBeforeCommit)) as [Hm|]; [|auto].
    rewrite Hm in *. rewrite bool_decide_eq_true_2 in * by done. simpl in *. bool_to_prop. done.
  - intros [u|e] w2 _ Hi2; [|done]. apply keeps_getOp; [|done]. intros w3 o3 Hi3 Ho3.
    unfold bind at 1. pose proof (putOp_inv id o3 (with_cancel (o_cancelAttached o3)
      (o_cancelAttached o3 || o_cancelCalled o3)%bool o3) w3 Hi3 Ho3 eq_refl) as H.
    apply H. apply op_inv_cancel. by apply (iv_items _ Hi3).
Qed.

Lemma attachExecutionCancel_keeps id : keeps inv (attachExecutionCancel id).
Proof.
  apply keeps_getOp. intros w o Hi Ho. cbv zeta.
  case_if; apply (putOp_inv id o); auto; apply op_inv_cancel; by apply (iv_items _ Hi).
Qed.

Lemma WriteOutput_keeps id payload : keeps inv (WriteOutput id payload).
Proof.
  apply keeps_getOp. intros w o Hi Ho. cbv zeta.
  destruct (write_tail _ _ _ _) as [tail truncated]. apply (putOp_inv id o); auto.
  pose proof (iv_items _ Hi _ _ Ho) as []. split; simpl; auto. by apply rec_output_inv.
Qed.

Lemma persist_keeps r b :
  (validateRecord r = true -> rec_inv (r_OperationID r) r) -> keeps inv (persist r b).
Proof.
  intros Hr w Hi. pose proof (iv_journal _ Hi) as Hj. destruct (persist r b w) as [res w'] eqn:E.
  apply persist_effect in E as (He & Hf & _); [|done]. simpl. destruct Hi. split; rewrite ?He; auto.
  destruct Hf as [[-> _] | (Hv & _ & ->)]; [done|]. apply map_Forall_insert_2; [|done].
  by apply minimal_inv, Hr.
Qed.

Lemma FlushOutputTail_keeps id : keeps inv (FlushOutputTail id).
Proof.
  apply keeps_getOp. intros w o Hi Ho. apply persist_keeps; [|done]. intros _.
  pose proof (oi_rec _ _ _ (iv_items _ Hi _ _ Ho)) as Hr. by rewrite (ri_id _ _ Hr).
Qed.

(** ** Status transitions *)

Lemma finish_inv aud id o st now fin started partial result err :
  op_inv aud id o -> op_terminal o = false ->
  (st = StatusSuccess -> r_Phase (o_record o) = PhaseFinalizing) ->
  (st = StatusCanceled -> is_zero (r_CancelRequestedAt (o_record o)) = false) ->
  let o1 := with_record (rec_outcome started partial result err (rec_status st now (o_record o))) o in
  let o' := (finishLocked st fin aud o1).1 in
  lease_ok o o' /\ r_OperationID (o_record o') = id /\
  (validateRecord (o_record o') = true -> op_inv aud id o').
Proof.
  intros Hop Ht Hs Hc o1 o'. pose proof Hop as [Hrec Hspec Hnot Hlease Hout].
  pose proof (rec_status_inv id st now started partial result err (o_record o) fin
    (if aud then ManagedAuditPending else r_ManagedAuditDelivery (o_record o)) Hrec Hs Hc) as [H1 H2].
  unfold o', finishLocked, o1. simpl. rewrite Hnot, Ht, orb_false_r.
  destruct (Terminal st) eqn:Est; cbn [negb fst].
  - split_and!; [by right | apply Hrec |]. intros Hv. split; simpl; auto; unfold op_terminal; simpl; try done.
    by intros -> _.
  - split_and!; [by left | apply Hrec |]. intros Hv. split; simpl; auto; unfold op_terminal in *; simpl;
      rewrite ?Est; try done; try congruence.
Qed.

Lemma legal_not_terminal st next : legalStatusTransition st next = true -> Terminal st = false.
Proof. by destruct st. Qed.

(** Committing the finished or running operation. *)
Lemma finish_commit_keeps aud id o st now fin started partial result err w :
  inv w -> e_items (w_engine w) !! id = Some o -> aud = c_auditor (e_config (w_engine w)) ->
  op_terminal o = false ->
  (st = StatusSuccess -> r_Phase (o_record o) = PhaseFinalizing) ->
  (st = StatusCanceled -> is_zero (r_CancelRequestedAt (o_record o)) = false) ->
  inv ((let '(o', notify) := finishLocked st fin aud
          (with_record (rec_outcome started partial result err (rec_status st now (o_record o))) o) in
        commit_op id o o' ;;; ret (notify, fin)) w).2.
Proof.
  intros Hi Ho -> Ht Hs Hc. pose proof (iv_items _ Hi _ _ Ho) as Hop.
  destruct (finish_inv _ id o st now fin started partial result err Hop Ht Hs Hc) as (Hl & Hid & Hinv).
  destruct (finishLocked _ _ _ _) as [o' notify]. simpl in *.
  unfold bind. pose proof (commit_op_inv id o o' w Hi Ho Hid Hl Hinv) as H.
  by destruct (commit_op id o o' w) as [[u|e] w'].
Qed.

Lemma transition_keeps id next result err : keeps inv (transition_locked id next result err).
Proof.
  apply keeps_getOp. intros w o Hi Ho. cbv zeta. do 3 (case_if; [done|]).
  apply (keeps_after_op _ _ w id o); [auto with opframe | done | done |]. intros now w1 Hi1 Ho1 Hc1.
  unfold bind at 1, config at 1, gets at 1.
  apply (keeps_after_op _ _ w1 id o); [frames | done | done |]. intros fin w3 Hi3 Ho3 Hc3.
  apply finish_commit_keeps; auto; [by rewrite Hc3 | | |].
  - unfold op_terminal. eapply legal_not_terminal. by apply negb_false_iff.
  - intros ->. rewrite bool_decide_eq_true_2 in * by done. simpl in *. by bool_to_prop.
  - intros ->. rewrite (bool_decide_eq_true_2 (StatusCanceled = StatusCanceled)) in * by done. by simpl in *.
Qed.

Lemma reject_keeps id cause : keeps inv (reject_locked id cause).
Proof.
  apply keeps_getOp. intros w o Hi Ho. cbv zeta. case_if; [done|].
  apply (keeps_after_op _ _ w id o); [auto with opframe | done | done |]. intros now w1 Hi1 Ho1 Hc1.
  unfold bind at 1, config at 1, gets at 1.
  apply (keeps_after_op _ _ w1 id o); [frames | done | done |]. intros fin w3 Hi3 Ho3 Hc3.
  apply finish_commit_keeps; auto; [by rewrite Hc3 | done | done].
Qed.

(** ** Locks *)

Lemma locks_only_keeps f :
  (forall e, lock_inv e -> lock_inv (f e)) ->
  (forall e, e_items (f e) = e_items e) -> (forall e, e_config (f e) = e_config e) ->
  keeps inv (modify (upd_engine f) : opM unit).
Proof. intros Hl Hi Hc w []. split; simpl; rewrite ?Hc, ?Hi; auto. Qed.

Lemma Release_keeps id : keeps inv (Release id).
Proof.
  apply locks_only_keeps.
  - intros e Hl. destruct (e_local e !! id) as [l|] eqn:El; [|done].
    destruct (lock_release e id l Hl El) as [Hh Hr]. pose proof (li_local _ Hl _ _ El) as Hown.
    rewrite Hh, bool_decide_eq_true_2 by done. done.
  - intros e. by destruct (e_local e !! id).
  - intros e. by destruct (e_local e !! id).
Qed.

(** A goroutine acquires only while its operation holds no lease yet. *)
Definition can_acquire (e : Engine) (id : string) : Prop :=
  e_local e !! id = None /\ forall o, e_items e !! id = Some o -> o_lease o = None.

Lemma acquireOnce_inv project id w :
  inv w -> can_acquire (w_engine w) id -> inv (acquireOnce project id w).2.
Proof.
  intros Hi [Hl Ho]. unfold acquireOnce. case_if; [done|]. unfold bind at 1, gets at 1.
  destruct (e_held (w_engine w) !! project) eqn:Eh; [done|]. destruct Hi. split; simpl; auto.
  by apply lock_acquire.
Qed.

Lemma attachLease_inv id l w :
  inv w -> e_local (w_engine w) !! id = Some l -> inv (attachLease id w).2.
Proof.
  intros Hi Hl. unfold attachLease, bind at 1, gets at 1.
  destruct (e_items (w_engine w) !! id) as [o|] eqn:Ho; [|by apply Release_keeps]. case_if; [by apply Release_keeps|].
  rewrite Hl. pose proof (iv_items _ Hi _ _ Ho) as Hop.
  destruct Hi. unfold bind, putOp, modify. split; simpl; auto.
  - apply map_Forall_insert_2; [|done]. destruct Hop. split; simpl; auto.
  - by apply lock_attach.
Qed.

(** ** The index *)

Lemma removeOperation_effect sizes id w r w' :
  removeOperation sizes id w = (r, w') ->
  w_engine w' = w_engine w /\ (w_files w' = w_files w \/ w_files w' = delete id (w_files w)) /\
  exists freed deleted err, r = Ok (freed, deleted, err) /\
    (err = None -> deleted = true -> w_files w' = delete id (w_files w)).
Proof.
  unfold removeOperation. case_if; [intros [= <- <-]; split_and!; auto; by eexists _, _, _|].
  unfold bind at 1, attempt at 1. pose proof (frames_call EIO w) as [He1 Hf1].
  destruct (call EIO w) as [[u|e] w1]; simpl in He1, Hf1.
  2: { intros [= <- <-]. split_and!; auto. by eexists _, _, _. }
  unfold bind at 1, gets at 1, bind at 1, modify at 1. set (w2 := upd_outputs _ w1).
  unfold bind at 1, attempt at 1. pose proof (frames_call EIO w2) as [He3 Hf3].
  destruct (call EIO w2) as [[u2|e] w3]; simpl in He3, Hf3.
  2: { intros [= <- <-]. split_and!; [congruence | left; congruence|]. by eexists _, _, _. }
  unfold bind at 1, gets at 1, bind at 1, modify at 1. set (w4 := upd_files _ w3).
  assert (w_engine w4 = w_engine w /\ w_files w4 = delete id (w_files w)) as [He4 Hf4].
  { split; simpl; congruence. }
  case_if; [|intros [= <- <-]; split_and!; auto; by eexists _, _, _].
  unfold bind at 1, attempt at 1. pose proof (frames_call EIO w4) as [He5 Hf5].
  destruct (call EIO w4) as [[u5|e] w5]; simpl in He5, Hf5; intros [= <- <-];
    (split_and!; [congruence | right; congruence|]); eexists _, _, _; split; try done; congruence.
Qed.

Lemma Delete_effect id w r w' :
  Delete id w = (r, w') ->
  w_engine w' = w_engine w /\ (w_files w' = w_files w \/ w_files w' = delete id (w_files w)).
Proof.
  unfold Delete, bind. destruct (removeOperation _ id w) as [x w1] eqn:E.
  apply removeOperation_effect in E as (He & Hf & freed & deleted & err & -> & _). simpl.
  destruct err; intros [= <- <-]; done.
Qed.

(** Changing files by deletion, and dropping an operation without a lease. *)
Lemma inv_files w w' :
  inv w -> w_engine w' = w_engine w -> (w_files w' = w_files w \/ exists id, w_files w' = delete id (w_files w)) ->
  inv w'.
Proof.
  intros [] He Hf. split; rewrite ?He; auto. destruct Hf as [-> | [id ->]]; [done | by apply map_Forall_delete].
Qed.

Lemma drop_item_keeps id :
  forall w, inv w -> (forall o, e_items (w_engine w) !! id = Some o -> op_terminal o = true) ->
  inv (upd_engine (fun e => set_items (delete id (e_items e)) e) w).
Proof.
  intros w Hi Ht. destruct Hi. split; simpl; auto; [by apply map_Forall_delete|].
  apply lock_remove; [done|]. intros o Ho. destruct (iv_items0 _ _ Ho).
  specialize (Ht o Ho). destruct (o_lease o) as [l|] eqn:El; [|done].
  by rewrite (oi_lease0 l eq_refl) in Ht.
Qed.

Lemma results_keeps f : keeps inv (modify (upd_engine (fun e => set_results (f e) e)) : opM unit).
Proof. by apply locks_only_keeps; [intros e []| |]. Qed.

Lemma lifecycle_keeps f :
  keeps inv (modify (upd_engine (fun e => set_lifecycle (fst (f e)) (snd (f e)) e)) : opM unit).
Proof. by apply locks_only_keeps; [intros e []| |]. Qed.

Lemma cleanup_loop_keeps fuel now : keeps inv (cleanup_loop fuel now).
Proof.
  induction fuel as [|fuel IH]; intros w Hi; cbn [cleanup_loop]; [done|].
  unfold bind at 1, gets at 1. destruct (e_results (w_engine w)) as [|[id fin] rest]; [done|].
  case_if; [done|]. cbv zeta.
  assert (forall w, inv w -> inv ((modify (upd_engine (fun e => set_results (tail (e_results e)) e)) ;;;
    cleanup_loop fuel now) w).2) as Hdrop.
  { intros w1 Hi1. apply IH. by apply (results_keeps (fun e => tail (e_results e))). }
  destruct (e_items (w_engine w) !! id) as [o|] eqn:Eo; [|by apply Hdrop].
  case_if; [by apply Hdrop|]. case_if; [done|]. rewrite (iv_journal _ Hi).
  unfold bind at 1, attempt at 1. destruct (Delete id w) as [r w1] eqn:Ed.
  apply Delete_effect in Ed as [He Hf].
  assert (inv w1) as Hi1. { apply (inv_files w); [done | done |]. destruct Hf; eauto. }
  destruct r; [|done]. unfold bind at 1, modify at 1. apply Hdrop.
  apply drop_item_keeps; [done|]. rewrite He. intros o' Ho'. bool_to_prop. congruence.
Qed.

Lemma cleanupLocked_keeps now : keeps inv (cleanupLocked now).
Proof. intros w Hi. apply cleanup_loop_keeps, Hi. Qed.

Lemma new_record_inv spec now :
  validateRecord (new_record spec (cancelModeForType (sp_Type spec)) now) = true ->
  rec_inv (sp_OperationID spec) (new_record spec (cancelModeForType (sp_Type spec)) now).
Proof. intros Hv. split; simpl; auto; try done. intros _ [?|?]; done. Qed.

Lemma accept_keeps spec b : keeps inv (accept spec b).
Proof.
  intros w Hi. unfold accept. do 2 (case_if; [done|]).
  apply keeps_after; [auto with opframe | done |]. intros now w1 _ Hi1.
  unfold bind at 1. pose proof (cleanupLocked_keeps now w1 Hi1) as Hi2.
  destruct (cleanupLocked now w1) as [[u|e] w2]; [|done]. simpl in Hi2.
  unfold bind at 1, gets at 1. case_if; [done|].
  destruct (e_items (w_engine w2) !! sp_OperationID spec) as [o|] eqn:Eo; [by case_if|]. cbv zeta.
  set (r := new_record _ _ _). unfold bind at 1.
  destruct (persist r false w2) as [res w3] eqn:E3.
  pose proof (persist_keeps r false (new_record_inv spec now) w2 Hi2) as Hi3. rewrite E3 in Hi3. simpl in Hi3.
  apply persist_effect in E3 as (He & _ & Hv); [|apply (iv_journal _ Hi2)].
  destruct res; [|done]. specialize (Hv eq_refl). unfold bind at 1, modify at 1.
  assert (inv (upd_engine (fun e => set_items (<[sp_OperationID spec := mkOperation spec r None
    (Z.to_nat (c_outputTailBytes (e_config e))) false false false]> (e_items e)) e) w3)) as Hi4.
  { destruct Hi3. split; simpl; auto.
    - apply map_Forall_insert_2; [|done]. split; simpl; auto; try done; [by apply new_record_inv | by destruct spec].
    - apply lock_add; [done | by rewrite He | done]. }
  unfold bind at 1. destruct b; [|done].
  by apply (lifecycle_keeps (fun e => (e_shuttingDown e, e_runnerCount e + 1))).
Qed.

(** ** Outbox, terminal handling, eviction, restart *)

Lemma aux_keeps f :
  (forall w, w_engine (f w) = w_engine w) -> (forall w, w_files (f w) = w_files w) ->
  keeps inv (modify f : opM unit).
Proof. intros He Hf w Hi. apply (frame_inv w); [split; simpl; auto | done]. Qed.

#[export] Hint Resolve AdvancePhase_keeps EnterCommit_keeps AdvanceProgress_keeps op_cancel_keeps
  attachExecutionCancel_keeps WriteOutput_keeps FlushOutputTail_keeps transition_keeps reject_keeps
  Release_keeps cleanupLocked_keeps accept_keeps results_keeps lifecycle_keeps : keeps.
#[export] Hint Extern 1 (keeps inv _) => (apply frames_keeps; solve [frames]) : keeps.
#[export] Hint Extern 2 (keeps inv (modify (add_delivered _))) => (by apply aux_keeps) : keeps.
#[export] Hint Extern 2 (keeps inv (modify (add_confirmed _))) => (by apply aux_keeps) : keeps.

(** Discharge [keeps inv] goals by following the program. *)
Ltac keeps_steps :=
  repeat first
    [ progress auto with keeps
    | apply keeps_bind; intros
    | apply keeps_attempt
    | match goal with |- keeps _ (match ?x with _ => _ end) => destruct x end ].

Lemma mark_delivered_inv aud id o :
  op_inv aud id o -> op_pending o = true ->
  validateRecord (rec_finish (r_FinishedAt (o_record o)) ManagedAuditDelivered (o_record o)) = true ->
  op_inv aud id (with_record (rec_finish (r_FinishedAt (o_record o)) ManagedAuditDelivered (o_record o)) o).
Proof.
  intros [Hrec Hs Hn Hl Ho] Hp Hv. split; auto; try done. destruct Hrec. split; auto.
Qed.

Lemma mark_delivered_keeps id : keeps inv (mark_delivered id).
Proof.
  apply keeps_getOp. intros w o Hi Ho. pose proof (iv_items _ Hi _ _ Ho) as Hop.
  case_if; [|done]. apply (commit_op_inv id o); [done | done | apply (oi_rec _ _ _ Hop) | by left |].
  by apply mark_delivered_inv.
Qed.
#[export] Hint Resolve mark_delivered_keeps : keeps.

Lemma DeliverTerminal_keeps r : keeps inv (DeliverTerminal r).
Proof. unfold DeliverTerminal. keeps_steps. Qed.
Lemma ConfirmTerminal_keeps id : keeps inv (ConfirmTerminal id).
Proof. unfold ConfirmTerminal. keeps_steps. Qed.
#[export] Hint Resolve DeliverTerminal_keeps ConfirmTerminal_keeps : keeps.

Lemma deliver_keeps id : keeps inv (deliverTerminalAudit id).
Proof. unfold deliverTerminalAudit. keeps_steps. Qed.
#[export] Hint Resolve deliver_keeps : keeps.

Lemma index_terminal_keeps id t : keeps inv (index_terminal id t).
Proof. unfold index_terminal. keeps_steps. Qed.
#[export] Hint Resolve index_terminal_keeps : keeps.
Lemma onTerminal_keeps id t : keeps inv (onTerminal id t).
Proof. unfold onTerminal. keeps_steps. Qed.
#[export] Hint Resolve onTerminal_keeps : keeps.

Lemma afterTerminal_keeps id b t : keeps inv (afterTerminal id b t).
Proof. unfold afterTerminal. keeps_steps. Qed.
#[export] Hint Resolve afterTerminal_keeps : keeps.

Lemma TransitionStatus_keeps id st r e : keeps inv (TransitionStatus id st r e).
Proof. unfold TransitionStatus. keeps_steps. Qed.
Lemma reject_full_keeps id cause : keeps inv (reject id cause).
Proof. unfold reject. keeps_steps. Qed.
#[export] Hint Resolve TransitionStatus_keeps reject_full_keeps : keeps.

Lemma replay_loop_keeps ids err : keeps inv (replay_loop ids err).
Proof. revert err. induction ids as [|id ids IH]; intros err; cbn [replay_loop]; keeps_steps. Qed.
#[export] Hint Resolve replay_loop_keeps : keeps.
Lemma Replay_keeps : keeps inv ReplayTerminalAudits.
Proof. unfold ReplayTerminalAudits. keeps_steps. Qed.

Lemma CancelWithError_keeps id reason : keeps inv (CancelWithError id reason).
Proof. unfold CancelWithError. keeps_steps. Qed.
#[export] Hint Resolve Replay_keeps CancelWithError_keeps : keeps.
Lemma cancel_loop_keeps ids err : keeps inv (cancel_loop ids err).
Proof. revert err. induction ids as [|id ids IH]; intros err; cbn [cancel_loop]; keeps_steps. Qed.
#[export] Hint Resolve cancel_loop_keeps : keeps.
Lemma shutdown_keeps : keeps inv shutdown_begin.
Proof.
  unfold shutdown_begin. apply keeps_bind; [|intros; keeps_steps].
  apply (lifecycle_keeps (fun e => (true, e_runnerCount e))).
Qed.
Lemma runnerFinished_keeps : keeps inv runnerFinished.
Proof.
  apply (lifecycle_keeps (fun e => (e_shuttingDown e,
    if e_runnerCount e >? 0 then e_runnerCount e - 1 else e_runnerCount e))).
Qed.
Lemma Get_keeps id : keeps inv (Get id).
Proof. unfold Get. keeps_steps. Qed.
#[export] Hint Resolve shutdown_keeps runnerFinished_keeps Get_keeps : keeps.

Lemma set_results_keeps l : keeps inv (modify (upd_engine (set_results l)) : opM unit).
Proof. apply (results_keeps (fun _ => l)). Qed.
#[export] Hint Resolve set_results_keeps : keeps.

Lemma reclaim_loop_keeps sizes cutoff need freed kept todo :
  keeps inv (reclaim_expired_loop sizes cutoff need freed kept todo).
Proof.
  revert freed kept. induction todo as [|[id fin] todo IH]; intros freed kept; cbn [reclaim_expired_loop];
    [keeps_steps|].
  case_if; [keeps_steps|]. apply keeps_bind; [keeps_steps|]. intros [u|e]; [|keeps_steps].
  intros w Hi. unfold bind at 1, gets at 1.
  destruct (e_items (w_engine w) !! id) as [o|] eqn:Eo; [|by apply IH].
  case_if; [by apply IH|]. bool_to_prop. unfold bind at 1.
  destruct (removeOperation sizes id w) as [x w1] eqn:E.
  apply removeOperation_effect in E as (He & Hf & itemBytes & deleted & err & -> & _).
  assert (inv w1) as Hi1. { apply (inv_files w); [done | done |]. destruct Hf; eauto. }
  unfold bind at 1.
  assert (inv (if deleted then upd_engine (fun e => set_items (delete id (e_items e)) e) w1 else w1)) as Hi2.
  { destruct deleted; [|done]. apply drop_item_keeps; [done|]. rewrite He. intros o' Ho'. congruence. }
  destruct deleted; cbn [modify ret]; destruct err; try (by apply set_results_keeps); by apply IH.
Qed.

Lemma ReclaimExpired_keeps sizes need : keeps inv (ReclaimExpiredForDiskPressure sizes need).
Proof.
  unfold ReclaimExpiredForDiskPressure. case_if; [keeps_steps|].
  apply keeps_bind; [keeps_steps|]. intros [u|e]; [|keeps_steps].
  apply keeps_bind; [keeps_steps|]. intros e. case_if; [keeps_steps|].
  apply keeps_bind; [keeps_steps|]. intros. apply reclaim_loop_keeps.
Qed.
#[export] Hint Resolve ReclaimExpired_keeps : keeps.

(** ** Restart *)

Lemma clip_inv limit id r : rec_inv id r -> rec_inv id (clip_record limit r).
Proof. intros H. unfold clip_record. destruct (decide _); [by apply rec_output_inv | done]. Qed.

Lemma recover_record_inv now aud id r r2 changed :
  rec_inv id r -> recover_record now aud r = (r2, changed) ->
  r_OperationID r2 = id /\ spec_of r2 = spec_of r /\ Terminal (r_Status r2) = true /\
  (aud = true -> r_ManagedAuditDelivery r2 <> ManagedAuditNone) /\
  (validateRecord r2 = true -> rec_inv id r2) /\ (changed = false -> r2 = r) /\
  (r_Status r2 = r_Status r \/ (Terminal (r_Status r) = false /\ r_Status r2 = StatusInterrupted)).
Proof.
  intros Hr. unfold recover_record. case_if.
  - intros [= <- <-]. bool_to_prop. pose proof (rec_status_inv id StatusInterrupted now (r_StartedAt r) true
      (r_Result r) "agent restarted while operation was nonterminal" r now
      (if aud then ManagedAuditPending else r_ManagedAuditDelivery r) Hr) as [_ H]; [done | done |].
    split_and!; auto; try done. + apply Hr. + by intros ->.
  - bool_to_prop. case_if; intros [= <- <-]; bool_cases; split_and!; auto; try done; try apply Hr.
    + destruct Hr. by split.
    + congruence.
Qed.

Lemma recover_loop_keeps now records :
  Forall (fun r => rec_inv (r_OperationID r) r) records ->
  forall w, inv w -> inv (recover_loop now records w).2.
Proof.
  intros Hr. induction Hr as [|r0 records Hr0 Hr IH]; intros w Hi; cbn [recover_loop]; [done|].
  unfold bind at 1, gets at 1. case_if; [done|]. bool_to_prop. cbv zeta.
  set (limit := Z.to_nat _). pose proof (clip_inv limit _ _ Hr0) as Hr1.
  set (r1 := clip_record limit r0) in *.
  destruct (recover_record now (c_auditor (e_config (w_engine w))) r1) as [r2 changed] eqn:Erec.
  apply (recover_record_inv _ _ _ _ _ _ Hr1) in Erec as (Hid & Hspec & Hterm & Haud & Hinv & Hsame & _).
  unfold bind at 1.
  assert (keeps inv (persist r2 false)) as Hpk by (apply persist_keeps; by rewrite Hid).
  assert (forall w2, inv w2 -> w_engine w2 = w_engine w -> rec_inv (r_OperationID r0) r2 ->
    inv (recover_loop now records (upd_engine (fun e => set_results (e_results e ++ [(r_OperationID r0, r_FinishedAt r2)])
        (set_items (<[r_OperationID r0 := mkOperation (spec_of r1) r2 None limit true false false]> (e_items e)) e)) w2)).2)
    as Hcont.
  { intros w2 Hi2 He2 Hv2. apply IH. destruct Hi2. rewrite He2 in *. split; simpl; rewrite ?He2; auto.
    - apply map_Forall_insert_2; [|done]. split; simpl; auto. done.
    - assert (e_items (w_engine w) !! r_OperationID r0 = None) as Hnone by (by apply eq_None_not_Some).
      destruct (lock_add (w_engine w) (r_OperationID r0)
        (mkOperation (spec_of r1) r2 None limit true false false) iv_locks0 Hnone eq_refl). by split. }
  destruct changed.
  - specialize (Hpk w Hi). destruct (persist r2 false w) as [res w2] eqn:E2. simpl in Hpk.
    apply persist_effect in E2 as (He & _ & Hv); [|apply (iv_journal _ Hi)].
    destruct res; [|done]. apply Hcont; auto.
  - apply Hcont; auto. rewrite (Hsame eq_refl). done.
Qed.

Lemma Load_records w records w' :
  inv w -> Load w = (Ok records, w') ->
  frame w w' /\ Forall (fun r => rec_inv (r_OperationID r) r) records.
Proof.
  intros Hi. unfold Load, bind at 1. pose proof (frames_call EIO w) as Hf.
  destruct (call EIO w) as [[u|e] w1]; [|done]. simpl in Hf.
  unfold bind, gets. case_if; [done|]. intros [= <- <-]. split; [done|].
  destruct Hf as [_ Hff]. rewrite Hff. apply Forall_fmap, Forall_fmap, Forall_forall. intros [id r] Hin.
  apply elem_of_map_to_list in Hin. pose proof (iv_files _ Hi _ _ Hin) as Hr. simpl.
  pose proof (ri_id _ _ Hr) as Hid. unfold load_record.
  destruct (w_outputs w1 !! r_OperationID r) as [[tail tr]|]; [|by rewrite Hid].
  apply rec_output_inv. simpl. by rewrite Hid.
Qed.

Lemma recoverJournal_keeps : keeps inv recoverJournal.
Proof.
  unfold recoverJournal. apply keeps_bind; [keeps_steps|]. intros c. case_if; [keeps_steps|].
  intros w Hi. unfold bind at 1. destruct (Load w) as [[records|e] w1] eqn:E.
  - apply Load_records in E as [Hf Hr]; [|done]. assert (inv w1) as Hi1 by (by eapply frame_inv).
    clear w Hi Hf. apply keeps_after; [frames | done |]. intros now w2 _ Hi2.
    unfold bind at 1. pose proof (recover_loop_keeps now records Hr w2 Hi2) as Hi3.
    destruct (recover_loop now records w2) as [[u|e] w3]; [|done]. simpl in Hi3.
    unfold bind at 1. apply cleanupLocked_keeps.
    by apply (results_keeps (fun e => sort_by (fun a b => snd a <? snd b) (e_results e))).
  - assert (frames Load) as HL by (unfold Load; frames).
    eapply frame_inv; [eapply run_frame; [exact HL | exact E] | done].
Qed.

(** A new engine over any directory of records the engine wrote. *)
Lemma New_inv c w :
  config_valid c = true -> c_journal c = true -> map_Forall rec_inv (w_files w) -> inv (New c w).2.
Proof.
  intros Hc Hj Hf. unfold New. rewrite Hc. cbn [negb]. unfold bind at 1, modify at 1.
  set (w1 := upd_engine _ w).
  assert (inv w1) as Hi1.
  { split; simpl; auto; [apply map_Forall_empty|]. split; simpl; try done.
    - intros p id. rewrite lookup_empty. split; [done|].
      intros [(o & Ho & _)|Hl]; simpl in *; by rewrite lookup_empty in *. }
  apply (keeps_bind inv _ _ recoverJournal_keeps (fun _ => Replay_keeps)). done.
Qed.
