(* ===== verification/EngineEvo.v ===== *)
(** * Operations: how records change

    How a record may change while its operation stays in the index ([evo]):
    identity fixed, revision never decreasing, accepted commit and cancel times
    kept, terminal results frozen; and that every function of the engine only
    changes records this way. *)

From S2P Require Import Prelude Operation Engine EngineInv.

(** ** How a record may change *)

(** Two records that differ at most in the output tail and the delivery state. *)
Definition frozen (r r' : Record_) : Prop :=
  r' = rec_output (r_OutputTail r') (r_OutputTruncated r')
         (rec_finish (r_FinishedAt r) (r_ManagedAuditDelivery r') r).

Record evo (r r' : Record_) : Prop := {
  ev_spec : spec_of r' = spec_of r;
  ev_rev : r_Revision r <= r_Revision r';
  ev_commit : is_zero (r_CommitStartedAt r) = false -> r_CommitStartedAt r' = r_CommitStartedAt r;
  ev_cancel : is_zero (r_CancelRequestedAt r) = false -> r_CancelRequestedAt r' = r_CancelRequestedAt r;
  ev_terminal : Terminal (r_Status r) = true -> frozen r r';
}.

Lemma frozen_refl r : frozen r r.
Proof. by destruct r. Qed.
Lemma frozen_status r r' : frozen r r' -> r_Status r' = r_Status r.
Proof. intros ->. done. Qed.
Lemma frozen_trans r1 r2 r3 : frozen r1 r2 -> frozen r2 r3 -> frozen r1 r3.
Proof. unfold frozen. intros H1 H2. rewrite H2 at 1. rewrite H1. done. Qed.

#[export] Instance evo_preorder : PreOrder evo.
Proof.
  split.
  - intros r. split; auto; [lia | intros; apply frozen_refl].
  - intros r1 r2 r3 [] []. split; [congruence | lia | | |].
    + intros H. rewrite ev_commit1; [by apply ev_commit0 |]. by rewrite ev_commit0.
    + intros H. rewrite ev_cancel1; [by apply ev_cancel0 |]. by rewrite ev_cancel0.
    + intros H. eapply frozen_trans; [by apply ev_terminal0|]. apply ev_terminal1.
      rewrite (frozen_status r1 r2); auto.
Qed.

(** Every operation of the later engine existed in the earlier one, and evolved
    from it. *)
Definition evolves (w w' : world) : Prop := forall id o',
  e_items (w_engine w') !! id = Some o' ->
  exists o, e_items (w_engine w) !! id = Some o /\ evo (o_record o) (o_record o').

#[export] Instance evolves_preorder : PreOrder evolves.
Proof.
  split.
  - intros w id o Ho. exists o. split; [done | reflexivity].
  - intros a b c Hab Hbc id o Ho. destruct (Hbc id o Ho) as (o1 & Ho1 & E1).
    destruct (Hab id o1 Ho1) as (o2 & Ho2 & E2). exists o2. split; [done | by etransitivity].
Qed.

Definition evolving {A} (m : opM A) : Prop := forall w, inv w -> evolves w (m w).2.

Lemma evolves_same w w' : e_items (w_engine w') = e_items (w_engine w) -> evolves w w'.
Proof. intros E id o Ho. rewrite E in Ho. exists o. split; [done | reflexivity]. Qed.

Lemma evolves_put w w' id o o' :
  e_items (w_engine w) !! id = Some o -> evo (o_record o) (o_record o') ->
  e_items (w_engine w') = <[id := o']> (e_items (w_engine w)) -> evolves w w'.
Proof.
  intros Ho He E i x Hx. rewrite E in Hx. destruct (decide (i = id)) as [->|Hne].
  - rewrite lookup_insert_eq in Hx. injection Hx as <-. by exists o.
  - rewrite lookup_insert_ne in Hx by done. exists x. split; [done | reflexivity].
Qed.

Lemma evolves_delete w w' id :
  e_items (w_engine w') = delete id (e_items (w_engine w)) -> evolves w w'.
Proof.
  intros E i x Hx. rewrite E in Hx. apply lookup_delete_Some in Hx as [_ Hx].
  exists x. split; [done | reflexivity].
Qed.

Lemma evolving_frames {A} (m : opM A) : frames m -> evolving m.
Proof. intros H w _. destruct (H w) as [He _]. apply evolves_same. by rewrite He. Qed.

Lemma evolving_bind {A B} (m : opM A) (f : A -> opM B) :
  keeps inv m -> evolving m -> (forall a, evolving (f a)) -> evolving (bind m f).
Proof.
  intros Hk Hm Hf w Hi. unfold bind. specialize (Hm w Hi). specialize (Hk w Hi).
  destruct (m w) as [[a|e] w']; simpl in *; [|done]. etransitivity; [exact Hm | by apply Hf].
Qed.
Lemma evolving_attempt {A} (m : opM A) : evolving m -> evolving (attempt m).
Proof. intros H w Hi. unfold attempt. specialize (H w Hi). by destruct (m w). Qed.

Lemma evolving_getOp {A} id (f : Operation -> opM A) :
  (forall w o, inv w -> e_items (w_engine w) !! id = Some o -> evolves w (f o w).2) ->
  evolving (bind (getOp id) f).
Proof.
  intros H w Hi. unfold bind. destruct (getOp id w) as [[o|e] w'] eqn:E.
  - apply getOp_inv in E as [-> Ho]. by apply H.
  - destruct (run_frame _ _ _ _ (frames_getOp id) E) as [He _]. apply evolves_same. simpl. by rewrite He.
Qed.

(** Continue after a reading step. *)
Lemma evolves_after {A B} (m : opM A) (f : A -> opM B) w id o :
  frames m -> inv w -> e_items (w_engine w) !! id = Some o ->
  (forall a w1, inv w1 -> e_items (w_engine w1) !! id = Some o ->
     e_config (w_engine w1) = e_config (w_engine w) -> evolves w1 (f a w1).2) -> evolves w (bind m f w).2.
Proof.
  intros Hm Hi Ho H. unfold bind. pose proof (Hm w) as Hf. destruct (m w) as [[a|e] w1]; simpl in *.
  - destruct Hf as [He Hf]. etransitivity; [apply (evolves_same w w1); by rewrite He|].
    apply H; rewrite ?He; try done. apply (frame_inv w); [by split | done].
  - destruct Hf as [He _]. apply evolves_same. by rewrite He.
Qed.

Lemma commit_evolves id before after w :
  inv w -> e_items (w_engine w) !! id = Some before -> r_OperationID (o_record after) = id ->
  (validateRecord (o_record after) = true -> evo (o_record before) (o_record after)) ->
  evolves w (commit_op id before after w).2.
Proof.
  intros Hi Ho Hid He. destruct (commit_op id before after w) as [r w'] eqn:E. simpl.
  apply commit_op_effect in E as [(_ & Ee & _) | (_ & Hv & Ee & _)]; auto; [| |apply (iv_journal _ Hi)].
  - apply evolves_same. by rewrite Ee.
  - apply (evolves_put w w' id before after); auto. by rewrite Ee, committed_items.
Qed.

(** A live record evolves into any record with the same identity, a later
    revision and the same accepted commit and cancel times. *)
Lemma evo_live id r r' :
  rec_inv id r -> Terminal (r_Status r) = false -> spec_of r' = spec_of r ->
  r_Revision r' = u64 (r_Revision r + 1) -> validateRecord r' = true ->
  (is_zero (r_CommitStartedAt r) = false -> r_CommitStartedAt r' = r_CommitStartedAt r) ->
  (is_zero (r_CancelRequestedAt r) = false -> r_CancelRequestedAt r' = r_CancelRequestedAt r) ->
  evo r r'.
Proof.
  intros Hr Ht Hs Hrev Hv Hc1 Hc2. split; auto; [|congruence].
  destruct (validate_inv _ Hv) as (_ & _ & _ & Hne & _). destruct (ri_rev _ _ Hr) as [Hlo Hhi].
  rewrite Hrev in *. destruct (decide (r_Revision r = max_u64)) as [E|E].
  - rewrite E in Hne. by vm_compute in Hne.
  - rewrite u64_id by (unfold u64_ok; lia). lia.
Qed.

(** The record changes of the methods. *)
Lemma AdvancePhase_evolving id next : evolving (AdvancePhase id next).
Proof.
  apply evolving_getOp. intros w o Hi Ho. pose proof (oi_rec _ _ _ (iv_items _ Hi _ _ Ho)) as Hr. cbv zeta.
  do 2 (case_if; [reflexivity|]). apply (evolves_after _ _ w id o); [auto with opframe | done | done |].
  intros now w1 Hi1 Ho1 _. apply commit_evolves; auto; [apply Hr|]. intros Hv. by apply (evo_live id).
Qed.

Lemma AdvanceProgress_evolving id : evolving (AdvanceProgress id).
Proof.
  apply evolving_getOp. intros w o Hi Ho. pose proof (oi_rec _ _ _ (iv_items _ Hi _ _ Ho)) as Hr. cbv zeta.
  case_if; [reflexivity|]. apply (evolves_after _ _ w id o); [auto with opframe | done | done |].
  intros now w1 Hi1 Ho1 _. apply commit_evolves; auto; [apply Hr|]. intros Hv. by apply (evo_live id).
Qed.

Lemma EnterCommit_evolving id : evolving (EnterCommit id).
Proof.
  apply evolving_getOp. intros w o Hi Ho. pose proof (oi_rec _ _ _ (iv_items _ Hi _ _ Ho)) as Hr. cbv zeta.
  do 3 (case_if; [reflexivity|]). bool_to_prop.
  apply (evolves_after _ _ w id o); [auto with opframe | done | done |].
  intros now w1 Hi1 Ho1 _. apply commit_evolves; auto; [apply Hr|]. intros Hv. apply (evo_live id); auto.
  simpl. intros Hz. rewrite (ri_early _ _ Hr) in Hz by auto. done.
Qed.

Lemma op_cancel_evolving id reason : evolving (op_cancel id reason).
Proof.
  apply evolving_getOp. intros w o Hi Ho. pose proof (oi_rec _ _ _ (iv_items _ Hi _ _ Ho)) as Hr. cbv zeta.
  do 4 (case_if; [reflexivity|]). apply (evolves_after _ _ w id o); [auto with opframe | done | done |].
  intros now w1 Hi1 Ho1 Hc. unfold bind at 1, attempt at 1.
  set (o' := with_record _ o).
  assert (evolves w1 (commit_op id o o' w1).2) as Hev.
  { apply commit_evolves; auto; [apply Hr|]. intros Hv. apply (evo_live id); auto. simpl. intros Hz.
    bool_to_prop. congruence. }
  assert (inv (commit_op id o o' w1).2) as Hi2.
  { apply (commit_op_inv id o); [done | done | apply Hr | by left |]. intros Hv.
    apply op_inv_live; auto; [by apply (iv_items _ Hi1) |]. apply rec_cancel_inv; [done | | exact Hv]. destruct Hr.
    destruct (decide (r_CancelMode (o_record o) = CancelBeforeCommit)) as [Hm|]; [|auto].
    rewrite Hm in *. rewrite bool_decide_eq_true_2 in * by done. simpl in *. by bool_to_prop. }
  destruct (commit_op id o o' w1) as [[u|e] w2]; simpl in Hev, Hi2; [|done].
  etransitivity; [exact Hev|]. apply evolving_getOp; [|done]. intros w3 o3 Hi3 Ho3.
  apply (evolves_put _ _ id o3 (with_cancel (o_cancelAttached o3) (o_cancelAttached o3 || o_cancelCalled o3)%bool o3));
    [done | reflexivity | done].
Qed.

Lemma attachExecutionCancel_evolving id : evolving (attachExecutionCancel id).
Proof.
  apply evolving_getOp. intros w o Hi Ho. cbv zeta.
  case_if; (eapply (evolves_put _ _ id o); [done | | done]; reflexivity).
Qed.

Lemma WriteOutput_evolving id payload : evolving (WriteOutput id payload).
Proof.
  apply evolving_getOp. intros w o Hi Ho. cbv zeta. destruct (write_tail _ _ _ _) as [tail truncated].
  eapply (evolves_put _ _ id o); [done | | done]. split; simpl; auto; [lia|]. intros _. by destruct (o_record o).
Qed.

Lemma persist_evolving r b : evolving (persist r b).
Proof.
  intros w Hi. destruct (persist r b w) as [res w'] eqn:E.
  apply persist_effect in E as (He & _); [|apply (iv_journal _ Hi)]. apply evolves_same. simpl. by rewrite He.
Qed.

Lemma FlushOutputTail_evolving id : evolving (FlushOutputTail id).
Proof. apply evolving_getOp. intros w o Hi Ho. by apply persist_evolving. Qed.

Lemma finish_evolves aud id o st now fin started partial result err w :
  inv w -> e_items (w_engine w) !! id = Some o -> op_terminal o = false ->
  evolves w ((let '(o', notify) := finishLocked st fin aud
          (with_record (rec_outcome started partial result err (rec_status st now (o_record o))) o) in
        commit_op id o o' ;;; ret (notify, fin)) w).2.
Proof.
  intros Hi Ho Ht. pose proof (iv_items _ Hi _ _ Ho) as Hop. pose proof (oi_rec _ _ _ Hop) as Hr.
  set (o1 := with_record _ o). destruct (finishLocked st fin aud o1) as [o' notify] eqn:Ef.
  assert (r_OperationID (o_record o') = id /\
    (validateRecord (o_record o') = true -> evo (o_record o) (o_record o'))) as [Hid Hev].
  { revert Ef. unfold finishLocked. case_if; intros [= <- <-]; simpl; (split; [apply Hr|]); intros Hv;
      by apply (evo_live id). }
  pose proof (commit_evolves id o o' w Hi Ho Hid Hev) as H. unfold bind.
  by destruct (commit_op id o o' w) as [[u|e] w'].
Qed.

Lemma transition_evolving id next result err : evolving (transition_locked id next result err).
Proof.
  apply evolving_getOp. intros w o Hi Ho. cbv zeta. do 3 (case_if; [reflexivity|]).
  apply (evolves_after _ _ w id o); [auto with opframe | done | done |]. intros now w1 Hi1 Ho1 _.
  unfold bind at 1, config at 1, gets at 1.
  apply (evolves_after _ _ w1 id o); [frames | done | done |]. intros fin w3 Hi3 Ho3 _.
  apply finish_evolves; auto. unfold op_terminal. eapply legal_not_terminal. by apply negb_false_iff.
Qed.

Lemma reject_evolving id cause : evolving (reject_locked id cause).
Proof.
  apply evolving_getOp. intros w o Hi Ho. cbv zeta. case_if; [reflexivity|].
  apply (evolves_after _ _ w id o); [auto with opframe | done | done |]. intros now w1 Hi1 Ho1 _.
  unfold bind at 1, config at 1, gets at 1.
  apply (evolves_after _ _ w1 id o); [frames | done | done |]. intros fin w3 Hi3 Ho3 _.
  by apply finish_evolves.
Qed.

Lemma mark_delivered_evolving id : evolving (mark_delivered id).
Proof.
  apply evolving_getOp. intros w o Hi Ho. pose proof (oi_rec _ _ _ (iv_items _ Hi _ _ Ho)) as Hr.
  case_if; [|reflexivity]. apply commit_evolves; auto; [apply Hr|]. intros Hv.
  split; simpl; auto; [lia|]. intros _. by destruct (o_record o).
Qed.

(** *** Engine-level steps *)

Lemma evolving_modify f :
  (forall e, e_items (f e) = e_items e) -> evolving (modify (upd_engine f) : opM unit).
Proof. intros H w _. apply evolves_same. simpl. apply H. Qed.

Lemma evolving_aux f : (forall w, w_engine (f w) = w_engine w) -> evolving (modify f : opM unit).
Proof. intros H w _. apply evolves_same. simpl. by rewrite H. Qed.

Lemma Release_evolving id : evolving (Release id).
Proof. apply evolving_modify. intros e. by destruct (e_local e !! id). Qed.

Lemma results_evolving f : evolving (modify (upd_engine (fun e => set_results (f e) e)) : opM unit).
Proof. by apply evolving_modify. Qed.

Lemma acquireOnce_evolves project id w : evolves w (acquireOnce project id w).2.
Proof.
  unfold acquireOnce. case_if; [reflexivity|]. unfold bind, gets.
  destruct (_ !! project); [reflexivity|]. by apply evolves_same.
Qed.

Lemma attachLease_evolving id : evolving (attachLease id).
Proof.
  intros w Hi. unfold attachLease, bind at 1, gets at 1.
  destruct (e_items (w_engine w) !! id) as [o|] eqn:Ho; [|by apply Release_evolving]. case_if; [by apply Release_evolving|].
  unfold bind, putOp, modify. eapply (evolves_put _ _ id o); [done | | done]. reflexivity.
Qed.

Lemma cleanup_loop_evolving fuel now : evolving (cleanup_loop fuel now).
Proof.
  induction fuel as [|fuel IH]; intros w Hi; cbn [cleanup_loop]; [reflexivity|].
  unfold bind at 1, gets at 1. destruct (e_results (w_engine w)) as [|[id fin] rest]; [reflexivity|].
  case_if; [reflexivity|]. cbv zeta.
  assert (forall w, inv w -> evolves w ((modify (upd_engine (fun e => set_results (tail (e_results e)) e)) ;;;
    cleanup_loop fuel now) w).2) as Hdrop.
  { intros w1 Hi1. unfold bind, modify. etransitivity; [|apply IH; by apply (results_keeps (fun e => tail (e_results e)))].
    by apply evolves_same. }
  destruct (e_items (w_engine w) !! id) as [o|] eqn:Eo; [|by apply Hdrop].
  case_if; [by apply Hdrop|]. case_if; [reflexivity|]. rewrite (iv_journal _ Hi).
  unfold bind at 1, attempt at 1. destruct (Delete id w) as [r w1] eqn:Ed.
  apply Delete_effect in Ed as [He Hf].
  assert (inv w1) as Hi1. { apply (inv_files w); [done | done |]. destruct Hf; eauto. }
  assert (evolves w w1) as Hev by (apply evolves_same; by rewrite He).
  destruct r; [|done]. unfold bind at 1, modify at 1. etransitivity; [exact Hev|].
  etransitivity; [|apply Hdrop; apply drop_item_keeps; [done|]; rewrite He; intros o' Ho'; bool_to_prop; congruence].
  by apply (evolves_delete _ _ id).
Qed.

Lemma cleanupLocked_evolving now : evolving (cleanupLocked now).
Proof. intros w Hi. by apply cleanup_loop_evolving. Qed.

Create HintDb evolving.
#[export] Hint Resolve evolving_attempt AdvancePhase_evolving AdvanceProgress_evolving EnterCommit_evolving
  op_cancel_evolving attachExecutionCancel_evolving WriteOutput_evolving persist_evolving
  FlushOutputTail_evolving transition_evolving reject_evolving mark_delivered_evolving Release_evolving
  results_evolving attachLease_evolving cleanupLocked_evolving : evolving.
#[export] Hint Extern 1 (evolving _) => (apply evolving_frames; solve [frames]) : evolving.
#[export] Hint Extern 2 (evolving (modify (add_delivered _))) => (by apply evolving_aux) : evolving.
#[export] Hint Extern 2 (evolving (modify (add_confirmed _))) => (by apply evolving_aux) : evolving.

(** Discharge [evolving] goals by following the program. *)
Ltac evolving_steps :=
  repeat first
    [ progress auto with evolving
    | apply evolving_bind; [solve [keeps_steps] | | intros]
    | match goal with |- evolving (match ?x with _ => _ end) => destruct x end ].

Lemma DeliverTerminal_evolving r : evolving (DeliverTerminal r).
Proof. unfold DeliverTerminal. evolving_steps. Qed.
Lemma ConfirmTerminal_evolving id : evolving (ConfirmTerminal id).
Proof. unfold ConfirmTerminal. evolving_steps. Qed.
#[export] Hint Resolve DeliverTerminal_evolving ConfirmTerminal_evolving : evolving.
Lemma deliver_evolving id : evolving (deliverTerminalAudit id).
Proof. unfold deliverTerminalAudit. evolving_steps. Qed.
#[export] Hint Resolve deliver_evolving : evolving.
Lemma index_terminal_evolving id t : evolving (index_terminal id t).
Proof. unfold index_terminal. evolving_steps. Qed.
#[export] Hint Resolve index_terminal_evolving : evolving.
Lemma onTerminal_evolving id t : evolving (onTerminal id t).
Proof. unfold onTerminal. evolving_steps. Qed.
Lemma replay_loop_evolving ids err : evolving (replay_loop ids err).
Proof. revert err. induction ids as [|id ids IH]; intros err; cbn [replay_loop]; evolving_steps. Qed.
#[export] Hint Resolve onTerminal_evolving replay_loop_evolving : evolving.
Lemma Replay_evolving : evolving ReplayTerminalAudits.
Proof. unfold ReplayTerminalAudits. evolving_steps. Qed.
Lemma CancelWithError_evolving id reason : evolving (CancelWithError id reason).
Proof. unfold CancelWithError. evolving_steps. Qed.
#[export] Hint Resolve CancelWithError_evolving : evolving.
Lemma cancel_loop_evolving ids err : evolving (cancel_loop ids err).
Proof. revert err. induction ids as [|id ids IH]; intros err; cbn [cancel_loop]; evolving_steps. Qed.
#[export] Hint Resolve cancel_loop_evolving : evolving.
Lemma shutdown_evolving : evolving shutdown_begin.
Proof.
  unfold shutdown_begin. apply evolving_bind; [|by apply evolving_modify | intros; evolving_steps].
  apply (lifecycle_keeps (fun e => (true, e_runnerCount e))).
Qed.
Lemma Get_evolving id : evolving (Get id).
Proof. unfold Get. evolving_steps. Qed.

Lemma set_results_evolving l : evolving (modify (upd_engine (set_results l)) : opM unit).
Proof. by apply evolving_modify. Qed.
#[export] Hint Resolve set_results_evolving : evolving.

Lemma reclaim_loop_evolving sizes cutoff need freed kept todo :
  evolving (reclaim_expired_loop sizes cutoff need freed kept todo).
Proof.
  revert freed kept. induction todo as [|[id fin] todo IH]; intros freed kept; cbn [reclaim_expired_loop];
    [evolving_steps|].
  case_if; [evolving_steps|]. apply evolving_bind; [keeps_steps | evolving_steps |]. intros [u|e]; [|evolving_steps].
  intros w Hi. unfold bind at 1, gets at 1.
  destruct (e_items (w_engine w) !! id) as [o|] eqn:Eo; [|by apply IH].
  case_if; [by apply IH|]. bool_to_prop. unfold bind at 1.
  destruct (removeOperation sizes id w) as [x w1] eqn:E.
  apply removeOperation_effect in E as (He & Hf & itemBytes & deleted & err & -> & _).
  assert (inv w1) as Hi1. { apply (inv_files w); [done | done |]. destruct Hf; eauto. }
  etransitivity; [apply (evolves_same w w1); by rewrite He|]. unfold bind at 1.
  set (w2 := if deleted then upd_engine (fun e => set_items (delete id (e_items e)) e) w1 else w1).
  assert (inv w2 /\ evolves w1 w2) as [Hi2 Hev].
  { unfold w2. destruct deleted; [|split; [done | reflexivity]]. split; [|by apply (evolves_delete _ _ id)].
    apply drop_item_keeps; [done|]. rewrite He. intros o' Ho'. congruence. }
  etransitivity; [exact Hev|]. unfold w2 in *.
  destruct deleted; cbn [modify ret]; destruct err; try (by apply set_results_evolving); by apply IH.
Qed.

Lemma ReclaimExpired_evolving sizes need : evolving (ReclaimExpiredForDiskPressure sizes need).
Proof.
  unfold ReclaimExpiredForDiskPressure. case_if; [evolving_steps|].
  apply evolving_bind; [keeps_steps | evolving_steps |]. intros [u|e]; [|evolving_steps].
  apply evolving_bind; [keeps_steps | evolving_steps |]. intros e. case_if; [evolving_steps|].
  apply evolving_bind; [keeps_steps | evolving_steps |]. intros. apply reclaim_loop_evolving.
Qed.
