(* ===== verification/EngineSpec.v ===== *)
(** * Operations: what the engine promises

    The engine as a transition system whose steps are its critical sections,
    and the claims about it: record validity, cancel/commit exclusion, the
    immutability of terminal results, rollback of failed saves, project-lock
    exclusion, idempotent acceptance, safe eviction, restart, the
    terminal-audit outbox and shutdown. *)

From S2P Require Import Prelude Operation Engine EngineInv EngineEvo.

(** ** Steps *)

(** One critical section of some goroutine. *)
Inductive step :=
| SAccept (spec : Spec) (reserveRunner : bool)
| SAcquire (project id : string)
| SAttach (id : string)
| STransition (id : string) (next : Status) (result errorText : string)
| SReject (id cause : string)
| SRelease (id : string)
| SIndex (id : string) (finishedAt : time)
| SDeliver (r : Record_)  (* a copy of a record read before *)
| SMark (id : string)
| SConfirm (id : string)
| SPhase (id : string) (next : Phase)
| SCommit (id : string)
| SCancel (id : string) (reason : CancelReason)
| SAttachCancel (id : string)
| SWrite (id : string) (payload : list Z)
| SProgress (id : string)
| SFlush (id : string)
| SGet (id : string)
| SReclaim (sizes : string -> Z * Z) (bytesNeeded : Z)
| SCloseAdmission
| SRunnerFinished.

Definition ignore {A} (m : opM A) : opM unit := m ;;; ret tt.

Definition close_admission : opM unit :=
  modify (upd_engine (fun e => set_lifecycle true (e_runnerCount e) e)).

Definition step_run (s : step) : opM unit :=
  match s with
  | SAccept spec b => ignore (accept spec b)
  | SAcquire project id => ignore (acquireOnce project id)
  | SAttach id => attachLease id
  | STransition id next result err => ignore (transition_locked id next result err)
  | SReject id cause => ignore (reject_locked id cause)
  | SRelease id => Release id
  | SIndex id t => index_terminal id t
  | SDeliver r => DeliverTerminal r
  | SMark id => mark_delivered id
  | SConfirm id => ConfirmTerminal id
  | SPhase id next => AdvancePhase id next
  | SCommit id => EnterCommit id
  | SCancel id reason => ignore (op_cancel id reason)
  | SAttachCancel id => attachExecutionCancel id
  | SWrite id payload => WriteOutput id payload
  | SProgress id => AdvanceProgress id
  | SFlush id => FlushOutputTail id
  | SGet id => ignore (Get id)
  | SReclaim sizes n => ignore (ReclaimExpiredForDiskPressure sizes n)
  | SCloseAdmission => close_admission
  | SRunnerFinished => runnerFinished
  end.

(** When a goroutine takes the step: an operation acquires its project lock
    once, and attaches the lease it acquired. *)
Definition step_ok (s : step) (w : world) : Prop :=
  match s with
  | SAcquire _ id => can_acquire (w_engine w) id
  | SAttach id => is_Some (e_local (w_engine w) !! id)
  | _ => True
  end.

(** Any interleaving of critical sections, under any outcomes of the calls they
    make; a new engine starts over an empty directory or over the records any
    earlier run left, with its own outcomes and clock. A [New] that failed is
    included: it has written back part of the records. *)
Inductive reachable : world -> Prop :=
| reach_new c w :
    config_valid c = true -> c_journal c = true -> w_files w = ∅ -> reachable (New c w).2
| reach_restart c w0 w :
    reachable w0 -> config_valid c = true -> c_journal c = true -> w_files w = w_files w0 ->
    reachable (New c w).2
| reach_step s w : reachable w -> step_ok s w -> reachable (step_run s w).2.

Lemma ignore_snd {A} (m : opM A) w : (ignore m w).2 = (m w).2.
Proof. unfold ignore, bind. by destruct (m w) as [[a|e] w']. Qed.

Lemma step_keeps s w : inv w -> step_ok s w -> inv (step_run s w).2.
Proof.
  intros Hi Hok. destruct s; cbn [step_run]; rewrite ?ignore_snd;
    try (match goal with |- inv (?m w).2 => cut (keeps inv m); [intros H; by apply H | by auto with keeps] end).
  - by apply acquireOnce_inv.
  - destruct Hok as [l Hl]. by apply (attachLease_inv id l).
  - by apply (lifecycle_keeps (fun e => (true, e_runnerCount e))).
Qed.

Lemma reachable_inv w : reachable w -> inv w.
Proof.
  induction 1 as [c w Hc Hj He | c w0 w _ IH Hc Hj He | s w _ IH Hok].
  - apply New_inv; [done | done |]. rewrite He. apply map_Forall_empty.
  - apply New_inv; [done | done |]. rewrite He. apply IH.
  - by apply step_keeps.
Qed.

(** ** Steps and evolution *)

(** What [accept] creates: an operation that was not indexed any more. *)
Lemma accept_effect spec b w r w' :
  inv w -> accept spec b w = (r, w') ->
  (r <> Ok true /\ evolves w w') \/
  (r = Ok true /\ exists now rec w1, rec = new_record spec (cancelModeForType (sp_Type spec)) now /\ evolves w w1 /\ inv w1 /\ e_items (w_engine w1) !! sp_OperationID spec = None /\
     e_shuttingDown (w_engine w1) = false /\
     e_items (w_engine w') = <[sp_OperationID spec := mkOperation spec rec None
       (Z.to_nat (c_outputTailBytes (e_config (w_engine w1)))) false false false]> (e_items (w_engine w1)) /\
     w_files w' = <[sp_OperationID spec := minimal rec]> (w_files w1) /\
     e_held (w_engine w') = e_held (w_engine w1) /\
     e_runnerCount (w_engine w') = e_runnerCount (w_engine w1) + (if b then 1 else 0)).
Proof.
  intros Hi. unfold accept. do 2 (case_if; [intros [= <- <-]; left; split; [done | reflexivity]|]).
  unfold bind at 1. pose proof (frames_Now w) as Hf. destruct (Now w) as [[now|e] w0]; simpl in Hf.
  2: { intros [= <- <-]. left. split; [done|]. destruct Hf as [He _]. apply evolves_same. by rewrite He. }
  assert (inv w0) as Hi0 by (by eapply frame_inv).
  assert (evolves w w0) as Hev0 by (apply evolves_same; by rewrite (proj1 Hf)).
  unfold bind at 1. pose proof (cleanupLocked_keeps now w0 Hi0) as Hi1.
  pose proof (cleanupLocked_evolving now w0 Hi0) as Hev1.
  destruct (cleanupLocked now w0) as [[u|e] w1]; simpl in Hi1, Hev1.
  2: { intros [= <- <-]. left. split; [done | by etransitivity]. }
  assert (evolves w w1) as Hev by (by etransitivity). clear Hev0 Hev1 Hi0.
  unfold bind at 1, gets at 1. case_if; [intros [= <- <-]; by left|].
  destruct (e_items (w_engine w1) !! sp_OperationID spec) as [o|] eqn:Eo.
  { case_if; intros [= <- <-]; by left. }
  cbv zeta. set (rec := new_record _ _ _). unfold bind at 1.
  destruct (persist rec false w1) as [res w2] eqn:E2.
  apply persist_effect in E2 as (He & Hfiles & Hv); [|apply (iv_journal _ Hi1)].
  destruct res as [u2|e].
  2: { intros [= <- <-]. left. split; [done|]. etransitivity; [exact Hev|]. apply evolves_same. by rewrite He. }
  destruct Hfiles as [[_ H]|(_ & _ & Hfiles)]; [by specialize (H eq_refl)|].
  unfold bind, modify. intros E. right.
  destruct b; injection E as <- <-; (split; [done|]); exists now, rec, w1; simpl; rewrite He; split_and!; auto; lia.
Qed.

(** A step changes a record only as [evo] allows, or accepts its identifier anew
    after the operation was evicted. *)
Lemma step_evolves s w :
  inv w -> step_ok s w ->
  forall id o', e_items (w_engine (step_run s w).2) !! id = Some o' ->
  (exists o, e_items (w_engine w) !! id = Some o /\ evo (o_record o) (o_record o')) \/
  (exists spec b now, s = SAccept spec b /\ id = sp_OperationID spec /\
     o_record o' = new_record spec (cancelModeForType (sp_Type spec)) now).
Proof.
  intros Hi Hok id o'. destruct s; cbn [step_run]; rewrite ?ignore_snd;
    try (match goal with |- context [e_items (w_engine (?m w).2)] =>
           cut (evolving m); [intros H Ho; left; by apply (H w Hi) | by auto with evolving] end).
  - destruct (accept spec reserveRunner w) as [r w'] eqn:E.
    apply accept_effect in E as [[_ H] | (_ & now & rec & w1 & -> & Hev & _ & _ & _ & Hit & _)]; [| |done]; simpl.
    + intros Ho. left. by apply H.
    + rewrite Hit. destruct (decide (id = sp_OperationID spec)) as [->|Hne].
      * rewrite lookup_insert_eq. intros [= <-]. right. eauto 6.
      * rewrite lookup_insert_ne by done. intros Ho. left. by apply Hev.
  - intros Ho. left. by apply (acquireOnce_evolves project id0 w).
  - intros Ho. left. by apply (Get_evolving id0 w).
  - intros Ho. left. by apply (ReclaimExpired_evolving sizes bytesNeeded w).
  - intros Ho. left. by apply (evolves_same w (close_admission w).2).
  - intros Ho. left. by apply (evolves_same w (runnerFinished w).2).
Qed.

(** ** Runs, and a concrete one *)

Fixpoint steps_run (ss : list step) (w : world) : world :=
  match ss with [] => w | s :: ss' => steps_run ss' (step_run s w).2 end.

Fixpoint steps_ok (ss : list step) (w : world) : Prop :=
  match ss with [] => True | s :: ss' => step_ok s w /\ steps_ok ss' (step_run s w).2 end.

Lemma reachable_steps ss w : reachable w -> steps_ok ss w -> reachable (steps_run ss w).
Proof.
  revert w. induction ss as [|s ss IH]; intros w Hr; simpl; [done|].
  intros [Hok Hoks]. apply IH; [by apply reach_step | done].
Qed.

Lemma reachable_app ss s w : steps_run (ss ++ [s]) w = (step_run s (steps_run ss w)).2.
Proof. revert w. induction ss as [|x ss IH]; intros w; simpl; [done | apply IH]. Qed.

(** The executable form of [step_ok]. *)
Definition step_okb (s : step) (w : world) : bool :=
  match s with
  | SAcquire _ id =>
    bool_decide (e_local (w_engine w) !! id = None) &&
    match e_items (w_engine w) !! id with Some o => bool_decide (o_lease o = None) | None => true end
  | SAttach id => bool_decide (is_Some (e_local (w_engine w) !! id))
  | _ => true
  end.

Fixpoint steps_okb (ss : list step) (w : world) : bool :=
  match ss with [] => true | s :: ss' => step_okb s w && steps_okb ss' (step_run s w).2 end.

Lemma step_okb_ok s w : step_okb s w = true -> step_ok s w.
Proof.
  destruct s; simpl; try done; intros H; bool_to_prop; [|done]. split; [done|].
  intros o Ho. rewrite Ho in *. by bool_to_prop.
Qed.

Lemma steps_okb_ok ss w : steps_okb ss w = true -> steps_ok ss w.
Proof.
  revert w. induction ss as [|s ss IH]; intros w; simpl; [done|]. intros H. bool_to_prop.
  split; [by apply step_okb_ok | by apply IH].
Qed.

(** An agent with a terminal auditor; two operations on one project. *)
Definition demo_config : Config := mkConfig 0 3600 2 16 30 true true.
Definition demo_disk : world := mkWorld (mkEngine demo_config ∅ ∅ [] false 0 ∅) ∅ ∅ [] [] [] [] 1000.
Definition demo_start : world := (New demo_config demo_disk).2.
Definition demo_spec : Spec := mkSpec "op-1" "blog" "compose.yml" TypeComposeFileWrite "".
Definition demo_spec2 : Spec := mkSpec "op-2" "blog" "" TypeComposePull "".
Definition demo_running : list step :=
  [SAccept demo_spec true; SAccept demo_spec2 false; SAcquire "blog" "op-1"; SAttach "op-1";
   STransition "op-1" StatusDispatched "" ""; STransition "op-1" StatusRunning "" "";
   SPhase "op-1" PhaseExecuting].
Definition demo_finished : list step :=
  demo_running ++ [SCommit "op-1"; SPhase "op-1" PhaseFinalizing; STransition "op-1" StatusSuccess "done" "";
                   SRelease "op-1"; SIndex "op-1" 1000].
Definition demo (ss : list step) : world := steps_run ss demo_start.

Lemma demo_reachable ss : steps_okb ss demo_start = true -> reachable (demo ss).
Proof.
  intros H. apply reachable_steps; [by apply reach_new | by apply steps_okb_ok].
Qed.

Definition demo_record (ss : list step) (id : string) : option Record_ :=
  o_record <$> e_items (w_engine (demo ss)) !! id.

Example demo_finished_status :
  r_Status <$> demo_record demo_finished "op-1" = Some StatusSuccess /\
  r_Status <$> demo_record demo_finished "op-2" = Some StatusRequested /\
  e_held (w_engine (demo demo_finished)) !! "blog" = None /\
  e_held (w_engine (demo demo_running)) !! "blog" = Some "op-1".
Proof. vm_compute. done. Qed.

(** ** Records and locks *)

(** [C19] In every reachable state every operation in memory and every record in
    the journal passes [validateRecord] under its own identifier, was never
    both committed and cancelled, is SUCCESS only after the FINALIZING phase
    and CANCELED only after an accepted cancellation; an operation in memory
    has announced its end exactly when it is terminal, has then given up its
    project lease (to the goroutine that ended it, which releases it next), and
    with an auditor its terminal record is owed to the outbox. *)
Theorem engine_invariant w :
  reachable w ->
  (forall id r, (exists o, e_items (w_engine w) !! id = Some o /\ r = o_record o) \/ w_files w !! id = Some r ->
     validateRecord r = true /\ r_OperationID r = id /\
     (is_zero (r_CommitStartedAt r) = true \/ is_zero (r_CancelRequestedAt r) = true) /\
     (r_Status r = StatusSuccess -> r_Phase r = PhaseFinalizing) /\
     (r_Status r = StatusCanceled -> is_zero (r_CancelRequestedAt r) = false) /\
     (r_CancelMode r = CancelBeforeCommit -> r_Status r = StatusSuccess ->
        is_zero (r_CommitStartedAt r) = false)) /\
  (forall id o, e_items (w_engine w) !! id = Some o ->
     o_spec o = spec_of (o_record o) /\ o_notified o = op_terminal o /\
     (op_terminal o = true -> o_lease o = None) /\
     (c_auditor (e_config (w_engine w)) = true -> op_terminal o = true ->
        r_ManagedAuditDelivery (o_record o) <> ManagedAuditNone)).
Proof.
  intros Hr%reachable_inv. split.
  - intros id r Hsrc.
    assert (rec_inv id r) as [].
    { destruct Hsrc as [(o & Ho & ->)|Hf]; [apply (iv_items _ Hr _ _ Ho) | apply (iv_files _ Hr _ _ Hf)]. }
    split_and!; auto. destruct (is_zero (r_CommitStartedAt r)); auto.
  - intros id o Ho. destruct (iv_items _ Hr _ _ Ho). split_and!; auto.
    intros Ht. destruct (o_lease o) as [l|]; [|done]. by rewrite (oi_lease l eq_refl) in Ht.
Qed.

Lemma engine_invariant_witness :
  reachable (demo demo_finished) /\
  exists o, e_items (w_engine (demo demo_finished)) !! "op-1" = Some o /\ op_terminal o = true /\ o_lease o = None.
Proof.
  assert (reachable (demo demo_finished)) as H by (by apply demo_reachable).
  split; [exact H|]. destruct (e_items (w_engine (demo demo_finished)) !! "op-1") as [o|] eqn:E; [|by vm_compute in E].
  exists o. split; [done|]. assert (op_terminal o = true) as Ht.
  { vm_compute in E. injection E as <-. done. }
  split; [done|]. by apply (proj2 (engine_invariant _ H) "op-1" o).
Defined.

(** Releasing a lease frees its project for the next operation. *)
Lemma Release_frees w id p :
  inv w -> e_local (w_engine w) !! id = Some (mkLease p id) ->
  e_held (w_engine (Release id w).2) !! p = None.
Proof.
  intros Hi Hl. destruct (lock_release _ _ _ (iv_locks _ Hi) Hl) as [Hh _]. simpl in *.
  rewrite Hl. simpl. rewrite Hh, bool_decide_eq_true_2 by done. simpl. apply lookup_delete_eq.
Qed.

(** ** Results are immutable *)

(** What a step may do to an operation that stays in the index. *)
Definition evolved_or_renewed (s : step) (id : string) (o o' : Operation) : Prop :=
  evo (o_record o) (o_record o') \/
  exists spec b now, s = SAccept spec b /\ id = sp_OperationID spec /\
    o_record o' = new_record spec (cancelModeForType (sp_Type spec)) now.

(** Whatever critical section runs, an operation keeps its specification,
    its revision never decreases, an accepted commit or cancellation keeps its
    time, and a terminal record is frozen but for its output tail and audit
    delivery state; the only other way to see the identifier again is a new
    [accept] of it, which starts a fresh record. *)
Theorem terminal_results_immutable s w id o o' :
  reachable w -> step_ok s w ->
  e_items (w_engine w) !! id = Some o ->
  e_items (w_engine (step_run s w).2) !! id = Some o' ->
  evolved_or_renewed s id o o'.
Proof.
  intros Hr%reachable_inv Hok Ho Ho'.
  destruct (step_evolves s w Hr Hok id o' Ho') as [(x & Hx & He)|Hnew]; [left; congruence | by right].
Qed.

Lemma terminal_results_immutable_witness :
  exists o o', e_items (w_engine (demo demo_finished)) !! "op-1" = Some o /\ op_terminal o = true /\
  evolved_or_renewed (SMark "op-1") "op-1" o o'.
Proof.
  assert (reachable (demo demo_finished)) as H by (by apply demo_reachable).
  destruct (e_items (w_engine (demo demo_finished)) !! "op-1") as [o|] eqn:E; [|by vm_compute in E].
  destruct (e_items (w_engine (step_run (SMark "op-1") (demo demo_finished)).2) !! "op-1") as [o'|] eqn:E';
    [|by vm_compute in E'].
  exists o, o'. split; [done|]. split; [vm_compute in E; injection E as <-; done|].
  exact (terminal_results_immutable (SMark "op-1") _ "op-1" o o' H I E E').
Defined.

(** ** Cancellation against commit *)

(** A run in which the operation is neither accepted anew nor evicted. *)
Fixpoint lives (id : string) (ss : list step) (w : world) : Prop :=
  is_Some (e_items (w_engine w) !! id) /\
  match ss with
  | [] => True
  | s :: ss' => (forall spec b, s = SAccept spec b -> sp_OperationID spec <> id) /\ lives id ss' (step_run s w).2
  end.

Lemma lives_evo id ss w o :
  reachable w -> steps_ok ss w -> lives id ss w -> e_items (w_engine w) !! id = Some o ->
  exists o', e_items (w_engine (steps_run ss w)) !! id = Some o' /\ evo (o_record o) (o_record o').
Proof.
  revert w o. induction ss as [|s ss IH]; intros w o Hr Hok Hl Ho; simpl in *.
  - exists o. split; [done | reflexivity].
  - destruct Hok as [Hok Hoks], Hl as (_ & Hns & Hl).
    assert (is_Some (e_items (w_engine (step_run s w).2) !! id)) as [o1 Ho1].
    { destruct ss; apply Hl. }
    destruct (IH _ o1 (reach_step _ _ Hr Hok) Hoks Hl Ho1) as (o2 & Ho2 & He2).
    exists o2. split; [done|]. etransitivity; [|exact He2].
    destruct (step_evolves s w (reachable_inv _ Hr) Hok id o1 Ho1) as [(x & Hx & He)|(spec & b & now & -> & E & _)].
    + congruence.
    + by destruct (Hns spec b).
Qed.

(** What [EnterCommit] and [op_cancel] say about the record they leave. *)
Lemma EnterCommit_committed id w w' :
  inv w -> EnterCommit id w = (Ok tt, w') ->
  exists o', e_items (w_engine w') !! id = Some o' /\ is_zero (r_CommitStartedAt (o_record o')) = false /\
    r_CancelMode (o_record o') = CancelBeforeCommit.
Proof.
  intros Hi. unfold EnterCommit, bind at 1. destruct (getOp id w) as [[o|e] w0] eqn:E0; [|done].
  apply getOp_inv in E0 as [-> Ho]. pose proof (oi_rec _ _ _ (iv_items _ Hi _ _ Ho)) as Hr. cbv zeta.
  do 3 (case_if; [done|]). bool_to_prop. unfold bind at 1.
  pose proof (frames_Now w) as [He Hf]. destruct (Now w) as [[now|e] w1]; [|done]. simpl in He, Hf.
  intros E. apply commit_op_effect in E as [(? & _)|(_ & Hv & Ee & _)]; try done.
  - eexists. rewrite Ee, committed_items, lookup_insert_eq. split; [done|].
    apply validate_inv in Hv as (Hp & _). done.
  - rewrite He. apply (iv_journal _ Hi).
  - by rewrite He.
  - apply Hr.
Qed.

Lemma op_cancel_outcome id reason w outcome err w' :
  inv w -> op_cancel id reason w = (Ok (outcome, err), w') ->
  exists o o', e_items (w_engine w) !! id = Some o /\ e_items (w_engine w') !! id = Some o' /\
  match outcome with
  | CancelAccepted => err = None /\ is_zero (r_CancelRequestedAt (o_record o')) = false /\
      is_zero (r_CommitStartedAt (o_record o')) = true /\
      (w' = w \/ w_files w' !! id = Some (minimal (o_record o')))
  | CancelTooLate => w' = w /\ err = None /\ r_CancelMode (o_record o) = CancelBeforeCommit /\
      is_zero (r_CommitStartedAt (o_record o)) = false
  | CancelAlreadyTerminal => w' = w /\ err = None /\ op_terminal o = true
  | CancelNotCancelable => False
  | CancelNotFound => w_engine w' = w_engine w /\ is_Some err
  end.
Proof.
  intros Hi. unfold op_cancel, bind at 1. destruct (getOp id w) as [[o|e] w0] eqn:E0; [|done].
  apply getOp_inv in E0 as [-> Ho]. pose proof (oi_rec _ _ _ (iv_items _ Hi _ _ Ho)) as Hr. cbv zeta.
  pose proof (ri_valid _ _ Hr) as Hval. pose proof (validate_inv _ Hval) as (_ & _ & Hmode & _).
  case_if; [intros [= <- <- <-]; by exists o, o|].
  case_if; [bool_to_prop; rewrite Hmode in *; intros [= <- <- <-]; exfalso|].
  { unfold validateRecord in Hval. bool_to_prop. by destruct (r_Type (o_record o)). }
  case_if.
  { intros [= <- <- <-]. exists o, o. split_and!; auto; [by bool_to_prop|].
    destruct Hr. bool_cases; auto. }
  case_if; [intros [= <- <- <-]; exists o, o; bool_to_prop; split_and!; auto|].
  { destruct (is_zero (r_CommitStartedAt (o_record o))) eqn:Ez; [done|].
    rewrite (ri_exclusive _ _ Hr Ez) in *. done. }
  unfold bind at 1. pose proof (frames_Now w) as [He Hf]. destruct (Now w) as [[now|e] w1]; [|done]. simpl in He, Hf.
  set (o1 := with_record _ o). unfold bind at 1, attempt at 1.
  destruct (commit_op id o o1 w1) as [res w2] eqn:E2.
  assert (is_zero (r_CommitStartedAt (o_record o)) = true) as Hz.
  { destruct (decide (r_CancelMode (o_record o) = CancelBeforeCommit)) as [Hm|Hm]; [|by apply (ri_nocommit _ _ Hr)].
    rewrite bool_decide_eq_true_2 in * by done. simpl in *. by bool_to_prop. }
  apply commit_op_effect in E2; [| rewrite He; apply (iv_journal _ Hi) | by rewrite He | apply Hr].
  destruct res as [u|e]; [|intros [= <- <- <-]].
  - destruct E2 as [(? & _)|(_ & Hv & Ee & Ef)]; [done|].
    unfold bind, getOp, gets, bind. rewrite Ee, committed_items, lookup_insert_eq. unfold ret, putOp, modify.
    intros [= <- <- <-]. exists o. eexists. split; [done|]. simpl.
    rewrite lookup_insert_eq. split; [done|]. simpl.
    split_and!; auto; [by apply validate_inv in Hv as (Hp & _)|]. right. by rewrite Ef, lookup_insert_eq.
  - destruct E2 as [(_ & Ee & _)|(? & _)]; [|done]. exists o, o. rewrite Ee, He. eauto.
Qed.

Lemma EnterCommit_canceled id w o :
  inv w -> e_items (w_engine w) !! id = Some o -> is_zero (r_CancelRequestedAt (o_record o)) = false ->
  EnterCommit id w = (Err EIllegalTransition, w).
Proof.
  intros Hi Ho Hz. unfold EnterCommit, bind at 1, getOp, bind, gets. rewrite Ho. unfold ret. cbv zeta.
  case_if; [done|]. case_if; [done|]. by rewrite Hz.
Qed.

(** [C20] The race between cancellation and commit has one winner: once
    [EnterCommit] has succeeded, no cancellation of the operation is ever
    accepted again, whatever runs in between (it is answered TOO_LATE or
    ALREADY_TERMINAL, without changing anything); once a cancellation has been
    accepted, no [EnterCommit] ever succeeds. *)
Theorem commit_cancel_race w id ss reason :
  reachable w ->
  (forall w1, EnterCommit id w = (Ok tt, w1) -> steps_ok ss w1 -> lives id ss w1 ->
     exists out, op_cancel id reason (steps_run ss w1) = (Ok (out, None), steps_run ss w1) /\
       (out = CancelTooLate \/ out = CancelAlreadyTerminal)) /\
  (forall w1, op_cancel id reason w = (Ok (CancelAccepted, None), w1) -> steps_ok ss w1 -> lives id ss w1 ->
     EnterCommit id (steps_run ss w1) = (Err EIllegalTransition, steps_run ss w1)).
Proof.
  intros Hr. split; intros w1 E Hok Hl.
  - assert (reachable w1) as Hr1.
    { replace w1 with (step_run (SCommit id) w).2 by (simpl; by rewrite E). by apply reach_step. }
    destruct (EnterCommit_committed id w w1 (reachable_inv _ Hr) E) as (o1 & Ho1 & Hz & Hm).
    destruct (lives_evo id ss w1 o1 Hr1 Hok Hl Ho1) as (o2 & Ho2 & He).
    pose proof (iv_items _ (reachable_inv _ (reachable_steps _ _ Hr1 Hok)) _ _ Ho2) as Hop2.
    pose proof (iv_items _ (reachable_inv _ Hr1) _ _ Ho1) as Hop1.
    assert (r_CancelMode (o_record o2) = CancelBeforeCommit) as Hm2.
    { destruct (validate_inv _ (ri_valid _ _ (oi_rec _ _ _ Hop2))) as (_ & _ & -> & _).
      destruct (validate_inv _ (ri_valid _ _ (oi_rec _ _ _ Hop1))) as (_ & _ & E1 & _).
      pose proof (f_equal sp_Type (ev_spec _ _ He)) as Et. simpl in Et. rewrite Et. congruence. }
    unfold op_cancel, bind at 1, getOp, bind, gets. rewrite Ho2. unfold ret. cbv zeta.
    rewrite (ev_commit _ _ He Hz), Hz, Hm2. cbn [negb orb].
    rewrite (bool_decide_eq_true_2 (CancelBeforeCommit = CancelBeforeCommit)) by done.
    case_if; eexists; split; auto.
  - assert (reachable w1) as Hr1.
    { replace w1 with (step_run (SCancel id reason) w).2 by (simpl; by rewrite ignore_snd, E). by apply reach_step. }
    destruct (op_cancel_outcome id reason w _ _ w1 (reachable_inv _ Hr) E) as (o & o1 & _ & Ho1 & _ & Hz & _).
    destruct (lives_evo id ss w1 o1 Hr1 Hok Hl Ho1) as (o2 & Ho2 & He).
    apply (EnterCommit_canceled id _ o2); [by apply reachable_inv, reachable_steps | done |].
    by rewrite (ev_cancel _ _ He Hz).
Qed.

Definition demo_commit : world := demo (demo_running ++ [SCommit "op-1"]).
Definition demo_finalize : list step := [SPhase "op-1" PhaseFinalizing].

Lemma commit_cancel_race_witness :
  EnterCommit "op-1" (demo demo_running) = (Ok tt, demo_commit) /\
  exists out, op_cancel "op-1" CancelReasonUser (steps_run demo_finalize demo_commit)
    = (Ok (out, None), steps_run demo_finalize demo_commit) /\
    (out = CancelTooLate \/ out = CancelAlreadyTerminal).
Proof.
  assert (reachable (demo demo_running)) as H by (by apply demo_reachable).
  assert (EnterCommit "op-1" (demo demo_running) = (Ok tt, demo_commit)) as E by (by vm_compute).
  assert (lives "op-1" demo_finalize demo_commit) as Hl.
  { split; [vm_compute; by eexists|]. split; [done|]. split; [vm_compute; by eexists | done]. }
  split; [exact E|].
  exact (proj1 (commit_cancel_race (demo demo_running) "op-1" demo_finalize CancelReasonUser H)
           demo_commit E (conj I I) Hl).
Defined.

(** Every outcome of a cancellation: ACCEPTED leaves a
    cancellation time on an operation that never started its commit, saved in
    the journal unless it had been accepted before; TOO_LATE
    is answered exactly for an operation that has started its commit, and
    ALREADY_TERMINAL for a finished one, both without any effect; a failed save
    is reported with an error and leaves the engine as it was; no operation is
    un-cancelable by type. *)
Theorem cancel_contract w id reason outcome err w' :
  reachable w -> op_cancel id reason w = (Ok (outcome, err), w') ->
  exists o o', e_items (w_engine w) !! id = Some o /\ e_items (w_engine w') !! id = Some o' /\
  match outcome with
  | CancelAccepted => err = None /\ is_zero (r_CancelRequestedAt (o_record o')) = false /\
      is_zero (r_CommitStartedAt (o_record o')) = true /\
      (w' = w \/ w_files w' !! id = Some (minimal (o_record o')))
  | CancelTooLate => w' = w /\ err = None /\ r_CancelMode (o_record o) = CancelBeforeCommit /\
      is_zero (r_CommitStartedAt (o_record o)) = false
  | CancelAlreadyTerminal => w' = w /\ err = None /\ op_terminal o = true
  | CancelNotCancelable => False
  | CancelNotFound => w_engine w' = w_engine w /\ is_Some err
  end.
Proof. intros Hr. by apply op_cancel_outcome, reachable_inv. Qed.

Lemma cancel_contract_witness :
  exists w', op_cancel "op-1" CancelReasonUser (demo demo_running) = (Ok (CancelAccepted, None), w') /\
  exists o', e_items (w_engine w') !! "op-1" = Some o' /\ is_zero (r_CommitStartedAt (o_record o')) = true.
Proof.
  assert (reachable (demo demo_running)) as H by (by apply demo_reachable).
  destruct (op_cancel "op-1" CancelReasonUser (demo demo_running)) as [r w'] eqn:E.
  assert (r = Ok (CancelAccepted, None)) as ->.
  { apply (f_equal fst) in E. vm_compute in E. by rewrite <- E. }
  exists w'. split; [done|].
  destruct (cancel_contract _ _ _ _ _ _ H E) as (o & o' & _ & Ho' & _ & _ & Hz & _). exists o'. split; [exact Ho' | exact Hz].
Defined.

(** ** Rollback and durability *)

(** The engine is unchanged, or the operation changed and its record is in the
    journal. *)
Definition saved {A} (id : string) (w : world) (p : res opErr A * world) : Prop :=
  w_engine p.2 = w_engine w \/
  (is_ok p.1 = true /\ exists o', e_items (w_engine p.2) = <[id := o']> (e_items (w_engine w)) /\
     w_files p.2 = <[id := minimal (o_record o')]> (w_files w)).

Definition saving {A} (id : string) (m : opM A) : Prop := forall w, inv w -> saved id w (m w).

Lemma saved_ignore {A} id (m : opM A) w : saved id w (m w) -> saved id w (ignore m w).
Proof. unfold ignore, bind. by destruct (m w) as [[a|e] w']. Qed.

Lemma saving_getOp {A} id (f : Operation -> opM A) :
  (forall w o, inv w -> e_items (w_engine w) !! id = Some o -> saved id w (f o w)) -> saving id (bind (getOp id) f).
Proof.
  intros H w Hi. unfold bind. destruct (getOp id w) as [[o|e] w'] eqn:E.
  - apply getOp_inv in E as [-> Ho]. by apply H.
  - left. apply (run_frame _ _ _ _ (frames_getOp id) E).
Qed.

Lemma saved_after {A B} (m : opM A) (f : A -> opM B) w id o :
  frames m -> inv w -> e_items (w_engine w) !! id = Some o ->
  (forall a w1, inv w1 -> e_items (w_engine w1) !! id = Some o -> saved id w1 (f a w1)) -> saved id w (bind m f w).
Proof.
  intros Hm Hi Ho H. unfold bind. pose proof (Hm w) as [He Hf]. destruct (m w) as [[a|e] w1]; simpl in *; [|by left].
  assert (inv w1) as Hi1 by (eapply frame_inv; [|done]; by split).
  rewrite <- He in Ho. specialize (H a w1 Hi1 Ho). unfold saved in *. by rewrite He, Hf in H.
Qed.

Lemma commit_saved {B} id before after w (k : opM B) :
  inv w -> e_items (w_engine w) !! id = Some before -> r_OperationID (o_record after) = id ->
  (forall w, is_ok (k w).1 = true /\ (k w).2 = w) ->
  saved id w ((commit_op id before after ;;; k) w).
Proof.
  intros Hi Ho Hid Hk. unfold bind. destruct (commit_op id before after w) as [r w'] eqn:E.
  apply commit_op_effect in E as [(Hr & He & _) | (Hr & Hv & He & Hf)]; auto; [| |apply (iv_journal _ Hi)];
    destruct r; try done.
  - by left.
  - right. destruct (Hk w') as [Hok ->]. rewrite He, committed_items. eauto.
Qed.

Lemma commit_saved0 id before after w :
  inv w -> e_items (w_engine w) !! id = Some before -> r_OperationID (o_record after) = id ->
  saved id w (commit_op id before after w).
Proof.
  intros Hi Ho Hid. pose proof (commit_saved id before after w (ret tt) Hi Ho Hid (fun _ => conj eq_refl eq_refl)) as H.
  unfold bind in H. by destruct (commit_op id before after w) as [[[]|e] w'].
Qed.

Lemma finish_saved aud id o st now fin started partial result err w :
  inv w -> e_items (w_engine w) !! id = Some o ->
  saved id w ((let '(o', notify) := finishLocked st fin aud
          (with_record (rec_outcome started partial result err (rec_status st now (o_record o))) o) in
        commit_op id o o' ;;; ret (notify, fin)) w).
Proof.
  intros Hi Ho. pose proof (ri_id _ _ (oi_rec _ _ _ (iv_items _ Hi _ _ Ho))) as Hid.
  destruct (finishLocked _ _ _ _) as [o' notify] eqn:E. apply commit_saved; auto.
  revert E. unfold finishLocked. case_if; intros [= <- <-]; done.
Qed.

(** The record identifier of an indexed operation. *)
Lemma item_id w id o : inv w -> e_items (w_engine w) !! id = Some o -> r_OperationID (o_record o) = id.
Proof. intros Hi Ho. apply (oi_rec _ _ _ (iv_items _ Hi _ _ Ho)). Qed.

Lemma op_cancel_saving id reason : saving id (op_cancel id reason).
Proof.
  apply saving_getOp. intros w o Hi Ho. cbv zeta. do 4 (case_if; [by left|]).
  apply (saved_after _ _ w id o); [auto with opframe | done | done |]. intros now w1 Hi1 Ho1.
  unfold bind at 1, attempt at 1. set (o1 := with_record _ o).
  destruct (commit_op id o o1 w1) as [res w2] eqn:E.
  apply commit_op_effect in E; [|apply (iv_journal _ Hi1) | done | exact (item_id w _ o Hi Ho)].
  destruct res as [u|e]; [|left; by destruct E as [(_ & ? & _)|(? & _)]].
  destruct E as [(? & _)|(_ & _ & He & Hf)]; [done|]. right.
  unfold bind, getOp, gets, bind. rewrite He, committed_items, lookup_insert_eq. unfold ret, putOp, modify. simpl.
  split; [done|]. eexists. rewrite He, committed_items, insert_insert_eq. split; [done|]. by rewrite Hf.
Qed.

(** The critical sections that change an operation's record and save it. *)
Definition saves (s : step) : option string :=
  match s with
  | STransition id _ _ _ | SReject id _ | SMark id | SPhase id _ | SCommit id | SCancel id _ | SProgress id => Some id
  | _ => None
  end.

(** [C22] A change of state is saved or undone: each critical section that
    changes an operation either leaves the engine exactly as it was, or
    succeeds, changes that operation only, and leaves exactly its new record in
    the journal; in particular after any error, of the journal, of admission or
    of the state machine, nothing in memory has changed. *)
Theorem saved_or_undone s id w :
  reachable w -> saves s = Some id -> saved id w (step_run s w).
Proof.
  intros Hr%reachable_inv. destruct s; intros [= <-]; cbn [step_run]; try apply saved_ignore.
  - revert w Hr. apply saving_getOp. intros w o Hi Ho. cbv zeta. do 3 (case_if; [by left|]).
    apply (saved_after _ _ w id0 o); [auto with opframe | done | done |]. intros now w1 Hi1 Ho1.
    unfold bind at 1, config at 1, gets at 1.
    apply (saved_after _ _ w1 id0 o); [frames | done | done |]. intros. by apply finish_saved.
  - revert w Hr. apply saving_getOp. intros w o Hi Ho. cbv zeta. case_if; [by left|].
    apply (saved_after _ _ w id0 o); [auto with opframe | done | done |]. intros now w1 Hi1 Ho1.
    unfold bind at 1, config at 1, gets at 1.
    apply (saved_after _ _ w1 id0 o); [frames | done | done |]. intros. by apply finish_saved.
  - revert w Hr. apply saving_getOp. intros w o Hi Ho. case_if; [|by left].
    apply commit_saved0; auto. exact (item_id w _ o Hi Ho).
  - revert w Hr. apply saving_getOp. intros w o Hi Ho. cbv zeta. do 2 (case_if; [by left|]).
    apply (saved_after _ _ w id0 o); [auto with opframe | done | done |]. intros. apply commit_saved0; auto.
    exact (item_id w _ o Hi Ho).
  - revert w Hr. apply saving_getOp. intros w o Hi Ho. cbv zeta. do 3 (case_if; [by left|]).
    apply (saved_after _ _ w id0 o); [auto with opframe | done | done |]. intros. apply commit_saved0; auto.
    exact (item_id w _ o Hi Ho).
  - by apply op_cancel_saving.
  - revert w Hr. apply saving_getOp. intros w o Hi Ho. cbv zeta. case_if; [by left|].
    apply (saved_after _ _ w id0 o); [auto with opframe | done | done |]. intros. apply commit_saved0; auto.
    exact (item_id w _ o Hi Ho).
Qed.

Lemma saved_or_undone_witness :
  saved "op-1" (demo demo_running) (step_run (SCommit "op-1") (demo demo_running)) /\
  r_Phase <$> w_files (step_run (SCommit "op-1") (demo demo_running)).2 !! "op-1" = Some PhaseCommitting.
Proof.
  assert (reachable (demo demo_running)) as H by (by apply demo_reachable).
  split; [exact (saved_or_undone (SCommit "op-1") "op-1" _ H eq_refl) | by vm_compute].
Defined.

(** ** Eviction *)

(** A finished operation whose audit record is not owed any more. *)
Definition evictable (w : world) (id : string) : Prop :=
  exists o, e_items (w_engine w) !! id = Some o /\ op_terminal o = true /\ op_pending o = false.

(** The parts of the engine eviction never touches. *)
Definition control (e : Engine) := (e_config e, e_held e, e_local e, e_shuttingDown e, e_runnerCount e).

(** Only evictable operations are dropped, from memory together with the
    journal; only the journal files of evictable operations are removed. *)
Record prunes (w w' : world) : Prop := {
  pr_control : control (w_engine w') = control (w_engine w);
  pr_id : forall id,
    (e_items (w_engine w') !! id = e_items (w_engine w) !! id /\
     (w_files w' !! id = w_files w !! id \/ evictable w id)) \/
    (e_items (w_engine w') !! id = None /\ evictable w id /\ w_files w' !! id = None);
}.

#[export] Instance prunes_preorder : PreOrder prunes.
Proof.
  split; [by split; auto|]. intros a b c [H1 H2] [H3 H4]. split; [congruence|]. intros id.
  assert (e_items (w_engine b) !! id = e_items (w_engine a) !! id -> evictable b id -> evictable a id) as Hev.
  { intros E (o & Ho & ?). exists o. by rewrite <- E. }
  destruct (H2 id) as [[E2 F2]|(E2 & V2 & F2)], (H4 id) as [[E4 F4]|(E4 & V4 & F4)].
  - left. split; [congruence|]. destruct F2, F4; auto. left. congruence.
  - right. auto.
  - right. split; [congruence|]. split; [done|]. destruct F4 as [|(o & Ho & _)]; congruence.
  - destruct V4 as (o & Ho & _). congruence.
Qed.

Lemma prunes_same w w' :
  control (w_engine w') = control (w_engine w) -> e_items (w_engine w') = e_items (w_engine w) ->
  w_files w' = w_files w -> prunes w w'.
Proof. intros Hc He Hf. split; [done|]. intros id. rewrite He, Hf. auto. Qed.

Lemma prunes_frame w w' : frame w w' -> prunes w w'.
Proof. intros [He Hf]. apply prunes_same; by rewrite ?He. Qed.

(** Deleting an evictable operation from the journal, then from memory. *)
Lemma prunes_files w w' id :
  evictable w id -> w_engine w' = w_engine w ->
  (w_files w' = w_files w \/ w_files w' = delete id (w_files w)) -> prunes w w'.
Proof.
  intros Hev He Hf. split; [by rewrite He|]. intros i. left. rewrite He. split; [done|].
  destruct Hf as [->| ->]; [by left|]. destruct (decide (i = id)) as [->|]; [by right|].
  left. by rewrite lookup_delete_ne.
Qed.

Lemma prunes_item w id :
  evictable w id -> w_files w !! id = None ->
  prunes w (upd_engine (fun e => set_items (delete id (e_items e)) e) w).
Proof.
  intros Hev Hf. split; [done|]. intros i. simpl. destruct (decide (i = id)) as [->|].
  - right. by rewrite lookup_delete_eq.
  - left. rewrite lookup_delete_ne by done. auto.
Qed.

Lemma removeOperation_deletes sizes id w x w' :
  removeOperation sizes id w = (Ok x, w') -> snd x = None \/ snd (fst x) = true -> w_files w' !! id = None.
Proof.
  unfold removeOperation. case_if; [intros [= <- <-]; by intros [|]|].
  unfold bind at 1, attempt at 1. destruct (call EIO w) as [[u|e] w1]; [|intros [= <- <-]; by intros [|]].
  unfold bind at 1, gets at 1, bind at 1, modify at 1. set (w2 := upd_outputs _ w1).
  unfold bind at 1, attempt at 1. destruct (call EIO w2) as [[u2|e] w3]; [|intros [= <- <-]; by intros [|]].
  unfold bind at 1, gets at 1, bind at 1, modify at 1. set (w4 := upd_files _ w3).
  assert (w_files w4 !! id = None) as Hn by apply lookup_delete_eq.
  case_if; [|by intros [= <- <-]]. unfold bind at 1, attempt at 1. pose proof (frames_call EIO w4) as [_ Hf5].
  destruct (call EIO w4) as [[u5|e] w5]; simpl in Hf5; intros [= <- <-] _; by rewrite Hf5.
Qed.

Lemma cleanup_loop_prunes fuel now w : inv w -> prunes w (cleanup_loop fuel now w).2.
Proof.
  revert w. induction fuel as [|fuel IH]; intros w Hi; cbn [cleanup_loop]; [reflexivity|].
  unfold bind at 1, gets at 1. destruct (e_results (w_engine w)) as [|[id fin] rest]; [reflexivity|].
  case_if; [reflexivity|]. cbv zeta.
  assert (forall w, inv w -> prunes w ((modify (upd_engine (fun e => set_results (tail (e_results e)) e)) ;;;
    cleanup_loop fuel now) w).2) as Hdrop.
  { intros w1 Hi1. unfold bind, modify. etransitivity; [|apply IH; by apply (results_keeps (fun e => tail (e_results e)))].
    by apply prunes_same. }
  destruct (e_items (w_engine w) !! id) as [o|] eqn:Eo; [|by apply Hdrop].
  case_if; [by apply Hdrop|]. case_if; [reflexivity|]. bool_to_prop. rewrite (iv_journal _ Hi).
  assert (evictable w id) as Hev by (by exists o).
  unfold bind at 1, attempt at 1. destruct (Delete id w) as [r w1] eqn:Ed.
  pose proof (Delete_effect _ _ _ _ Ed) as [He Hf].
  assert (inv w1) as Hi1. { apply (inv_files w); [done | done |]. destruct Hf; eauto. }
  etransitivity; [by apply (prunes_files w w1 id)|].
  destruct r; [|reflexivity]. unfold bind at 1, modify at 1.
  assert (evictable w1 id) as Hev1 by (unfold evictable; by rewrite He).
  etransitivity; [apply (prunes_item w1 id Hev1)|
    apply Hdrop, drop_item_keeps; [done|]; rewrite He; intros o' Ho'; congruence].
  revert Ed. unfold Delete, bind. destruct (removeOperation _ id w) as [[x|e] w2] eqn:E2; [|done].
  destruct (snd x) eqn:Ex; [done|]. intros [= _ <-]. eapply removeOperation_deletes; eauto.
Qed.

Lemma cleanupLocked_prunes now w : inv w -> prunes w (cleanupLocked now w).2.
Proof. apply cleanup_loop_prunes. Qed.

Lemma reclaim_loop_prunes sizes cutoff need freed kept todo w :
  inv w -> prunes w (reclaim_expired_loop sizes cutoff need freed kept todo w).2.
Proof.
  revert freed kept w. induction todo as [|[id fin] todo IH]; intros freed kept w Hi; cbn [reclaim_expired_loop];
    [by apply prunes_same|].
  case_if; [by apply prunes_same|]. unfold bind at 1, attempt at 1. pose proof (frames_call EContext w) as Hf.
  destruct (call EContext w) as [live w0]; simpl in Hf. etransitivity; [by apply prunes_frame|].
  assert (inv w0) as Hi0 by (by eapply frame_inv). destruct live as [u|e]; [|by apply prunes_same].
  unfold bind at 1, gets at 1.
  destruct (e_items (w_engine w0) !! id) as [o|] eqn:Eo; [|by apply IH].
  case_if; [by apply IH|]. bool_to_prop. unfold bind at 1.
  destruct (removeOperation sizes id w0) as [x w1] eqn:E.
  pose proof E as (He & Hfl & itemBytes & deleted & err & -> & _)%removeOperation_effect.
  assert (inv w1) as Hi1. { apply (inv_files w0); [done | done |]. destruct Hfl; eauto. }
  etransitivity; [by apply (prunes_files w0 w1 id); [exists o | |]|]. unfold bind at 1.
  set (w2 := if deleted then upd_engine (fun e => set_items (delete id (e_items e)) e) w1 else w1).
  assert (inv w2 /\ prunes w1 w2) as [Hi2 Hp].
  { unfold w2. destruct deleted; [|split; [done | reflexivity]]. split.
    - apply drop_item_keeps; [done|]. rewrite He. intros o' Ho'. congruence.
    - apply prunes_item; [exists o; by rewrite He | eapply removeOperation_deletes; eauto]. }
  etransitivity; [exact Hp|]. unfold w2 in *.
  destruct deleted; cbn [modify ret]; destruct err; try (by apply prunes_same); by apply IH.
Qed.

(** *** Steps that drop nothing *)

Definition retains (w w' : world) : Prop :=
  (forall id, is_Some (e_items (w_engine w) !! id) -> is_Some (e_items (w_engine w') !! id)) /\
  (forall id, is_Some (w_files w !! id) -> is_Some (w_files w' !! id)).

#[export] Instance retains_preorder : PreOrder retains.
Proof. split; [done|]. intros a b c [] []. split; auto. Qed.

Abbreviation retaining := (moves retains).

Lemma retaining_frames {A} (m : opM A) : frames m -> retaining m.
Proof. intros H w. destruct (H w) as [He Hf]. split; intros id; by rewrite ?He, ?Hf. Qed.
Lemma retaining_engine f :
  (forall e, e_items (f e) = e_items e) -> retaining (modify (upd_engine f) : opM unit).
Proof. intros H w. split; intros id; simpl; [by rewrite H | done]. Qed.
Lemma retaining_putOp id o : retaining (putOp id o).
Proof.
  intros w. split; simpl; [|done]. intros i Hs. rewrite lookup_insert_is_Some'. by right.
Qed.
Lemma retaining_files id r : retaining (modify (upd_files (<[id := r]>)) : opM unit).
Proof. intros w. split; simpl; [done|]. intros i Hs. rewrite lookup_insert_is_Some'. by right. Qed.
Lemma retaining_outputs f : retaining (modify (upd_outputs f) : opM unit).
Proof. done. Qed.
Lemma retaining_delivered r : retaining (modify (add_delivered r) : opM unit).
Proof. done. Qed.
Lemma retaining_confirmed id : retaining (modify (add_confirmed id) : opM unit).
Proof. done. Qed.
Lemma retaining_Release id : retaining (Release id).
Proof. apply retaining_engine. intros e. by destruct (e_local e !! id). Qed.

Create HintDb retaining.
#[export] Hint Resolve retaining_putOp retaining_files retaining_outputs retaining_delivered
  retaining_confirmed retaining_Release : retaining.
#[export] Hint Extern 1 (moves retains _) => (apply retaining_frames; solve [frames]) : retaining.
#[export] Hint Extern 2 (moves retains (modify (upd_engine _))) => (by apply retaining_engine) : retaining.

(** Discharge [moves] goals by following the program. *)
Ltac moves_steps tac :=
  repeat first
    [ progress tac
    | apply (moves_attempt _)
    | apply (moves_bind _); intros
    | match goal with |- moves _ (match ?x with _ => _ end) => destruct x end ].
Ltac retaining_steps := moves_steps ltac:(auto with retaining).

Lemma retaining_persist r b : retaining (persist r b).
Proof. unfold persist, Save, writeJournalPayload. retaining_steps. Qed.
#[export] Hint Resolve retaining_persist : retaining.
Lemma retaining_commit id o o' : retaining (commit_op id o o').
Proof. unfold commit_op. retaining_steps. Qed.
#[export] Hint Resolve retaining_commit : retaining.

(** The critical sections that can evict. *)
Definition evicts (s : step) : bool :=
  match s with SAccept _ _ | SIndex _ _ | SGet _ | SReclaim _ _ => true | _ => false end.

Lemma step_retains s w : evicts s = false -> retains w (step_run s w).2.
Proof.
  destruct s; intros Hs; try done; cbn [step_run]; rewrite ?ignore_snd;
    match goal with |- retains w (?m w).2 => cut (retaining m); [intros H; by apply H|] end;
    unfold acquireOnce, attachLease, transition_locked, reject_locked, mark_delivered, AdvancePhase, EnterCommit,
      op_cancel, attachExecutionCancel, WriteOutput, AdvanceProgress, FlushOutputTail, DeliverTerminal,
      ConfirmTerminal, close_admission, runnerFinished; retaining_steps.
Qed.

(** The evicting ones prune, and beyond that only add. *)
Lemma step_prunes s w :
  inv w -> evicts s = true -> exists w1, prunes w w1 /\ retains w1 (step_run s w).2.
Proof.
  intros Hi Hs. destruct s; try done; cbn [step_run]; rewrite ?ignore_snd.
  - unfold accept. do 2 (case_if; [exists w; split; reflexivity|]).
    unfold bind at 1. pose proof (frames_Now w) as Hf. destruct (Now w) as [[now|e] w0]; simpl in Hf;
      [|exists w0; split; [by apply prunes_frame | reflexivity]].
    assert (inv w0) as Hi0 by (by eapply frame_inv).
    exists (cleanupLocked now w0).2. split; [etransitivity; [by apply prunes_frame | by apply cleanupLocked_prunes]|].
    unfold bind at 1. destruct (cleanupLocked now w0) as [[u|e] w1]; [|reflexivity]. simpl.
    match goal with |- retains w1 (?m w1).2 => cut (retaining m); [intros H; by apply H|] end.
    apply (moves_bind retains); [retaining_steps|]. intros e. case_if; [retaining_steps|].
    destruct (e_items e !! _); [retaining_steps|]. apply (moves_bind retains); [retaining_steps|]. intros _.
    apply (moves_bind retains); [|intros; retaining_steps]. intros w2. split; simpl; [|done]. intros i Hx.
    rewrite lookup_insert_is_Some'. by right.
  - unfold index_terminal, bind at 1, gets at 1. destruct (_ !! id); [|exists w; split; reflexivity].
    unfold bind at 1, modify at 1. set (w0 := upd_engine _ w).
    assert (inv w0) as Hi0 by (by apply (results_keeps (fun e => e_results e ++ [(id, finishedAt)]))).
    unfold bind at 1. pose proof (frames_Now w0) as Hf. destruct (Now w0) as [[now|e] w1]; simpl in Hf.
    + exists (cleanupLocked now w1).2. split; [|reflexivity].
      etransitivity; [by apply (prunes_same w w0)|]. etransitivity; [by apply prunes_frame|].
      apply cleanupLocked_prunes. by eapply frame_inv.
    + exists w1. split; [|reflexivity]. etransitivity; [by apply (prunes_same w w0) | by apply prunes_frame].
  - unfold Get, bind at 1. pose proof (frames_Now w) as Hf. destruct (Now w) as [[now|e] w0]; simpl in Hf;
      [|exists w0; split; [by apply prunes_frame | reflexivity]].
    assert (inv w0) as Hi0 by (by eapply frame_inv).
    exists (cleanupLocked now w0).2. split; [etransitivity; [by apply prunes_frame | by apply cleanupLocked_prunes]|].
    unfold bind at 1. destruct (cleanupLocked now w0) as [[u|e] w1]; [|reflexivity]. simpl.
    match goal with |- retains w1 (?m w1).2 => cut (retaining m); [intros H; by apply H|] end.
    retaining_steps.
  - eexists. split; [|reflexivity]. unfold ReclaimExpiredForDiskPressure. case_if; [reflexivity|].
    unfold bind at 1, attempt at 1. pose proof (frames_call EContext w) as Hf.
    destruct (call EContext w) as [live w0]; simpl in Hf. etransitivity; [by apply prunes_frame|].
    assert (inv w0) as Hi0 by (by eapply frame_inv). destruct live as [u|e]; [|reflexivity].
    unfold bind at 1, gets at 1. case_if; [reflexivity|]. unfold bind at 1.
    pose proof (frames_Now w0) as Hf1. destruct (Now w0) as [[now|e] w1]; simpl in Hf1; [|by apply prunes_frame].
    etransitivity; [by apply prunes_frame|]. apply reclaim_loop_prunes. by eapply frame_inv.
Qed.

(** Nothing is forgotten too early: whatever critical section runs, an
    operation leaves the index only when it is terminal and its audit record is
    not pending; an operation that is running or whose audit record is still
    owed stays in memory, and its journal record stays on disk, however full
    the index or the disk is. *)
Theorem eviction_safe s w id o :
  reachable w -> step_ok s w -> e_items (w_engine w) !! id = Some o ->
  (op_terminal o = false \/ op_pending o = true) ->
  is_Some (e_items (w_engine (step_run s w).2) !! id) /\
  (is_Some (w_files w !! id) -> is_Some (w_files (step_run s w).2 !! id)).
Proof.
  intros Hr%reachable_inv Hok Ho Hkeep.
  assert (~ evictable w id) as Hne.
  { intros (x & Hx & Ht & Hp). rewrite Ho in Hx. injection Hx as <-. destruct Hkeep; congruence. }
  destruct (evicts s) eqn:Es.
  - destruct (step_prunes s w Hr Es) as (w1 & [_ Hp] & [Hr1 Hr2]).
    destruct (Hp id) as [[E [F|]]|(_ & ? & _)]; try done.
    split; [apply Hr1; rewrite E; eauto | intros Hs; apply Hr2; by rewrite F].
  - destruct (step_retains s w Es) as [H1 H2]. split; eauto.
Qed.

Definition demo_pressure : step := SReclaim (fun _ => (8, 8)) 100.

Lemma eviction_safe_witness :
  is_Some (e_items (w_engine (step_run demo_pressure (demo demo_finished)).2) !! "op-1") /\
  (is_Some (w_files (demo demo_finished) !! "op-1") ->
   is_Some (w_files (step_run demo_pressure (demo demo_finished)).2 !! "op-1")).
Proof.
  assert (reachable (demo demo_finished)) as H by (by apply demo_reachable).
  assert (exists o, e_items (w_engine (demo demo_finished)) !! "op-1" = Some o /\ op_pending o = true)
    as (o & E & Hp) by (vm_compute; eexists; split; reflexivity).
  apply (eviction_safe demo_pressure (demo demo_finished) "op-1" o H I E). right. exact Hp.
Defined.

(** ** Acceptance *)

(** The errors of a save. *)
Definition save_error (e : opErr) : Prop := e = EInvalidSpec \/ e = EAdmission \/ e = EIO.

Lemma next_ok_total w e w' : next_ok w <> (Err e, w').
Proof. unfold next_ok. by destruct (w_outcomes w). Qed.
Lemma Now_total w e w' : Now w <> (Err e, w').
Proof. unfold Now. by destruct (w_times w). Qed.

Lemma call_error e w e' w' : call e w = (Err e', w') -> e' = e.
Proof.
  unfold call, bind. destruct (next_ok w) as [[[|]|x] w1] eqn:E; unfold ret, fail; try congruence.
  by apply next_ok_total in E.
Qed.

Lemma persist_error r w e w' : persist r false w = (Err e, w') -> save_error e.
Proof.
  unfold persist, config, bind at 1, gets. case_if; [|done]. unfold Save. case_if; [by intros [= <- _]; left|].
  unfold bind at 1. destruct (next_ok w) as [[adm|x] w1] eqn:En; [|by apply next_ok_total in En].
  case_if; [by intros [= <- _]; right; left|]. unfold writeJournalPayload.
  assert (forall A (m : opM A), (forall w e w', m w = (Err e, w') -> save_error e) ->
    forall w e w', (call EIO ;;; m) w = (Err e, w') -> save_error e) as Hc.
  { intros A m Hm w2 e2 w3. unfold bind. destruct (call EIO w2) as [[u|x] w4] eqn:E; [apply Hm|].
    intros [= <- _]. apply call_error in E. right. by right. }
  apply Hc, Hc, Hc, Hc, Hc. intros w2 e2 w3. unfold bind at 1, modify at 1. apply Hc.
  intros w4 e4 w5 E. apply call_error in E. right. by right.
Qed.

Lemma cleanup_loop_ok fuel now w : is_ok (cleanup_loop fuel now w).1 = true.
Proof.
  revert w. induction fuel as [|fuel IH]; intros w; cbn [cleanup_loop]; [done|].
  unfold bind at 1, gets at 1. destruct (e_results (w_engine w)) as [|[id fin] rest]; [done|].
  case_if; [done|]. cbv zeta. destruct (_ !! id); [|apply IH]. case_if; [apply IH|]. case_if; [done|].
  destruct (c_journal _); unfold bind at 1, attempt at 1; [|apply IH].
  destruct (Delete id w) as [[u|e] w1]; [apply IH | done].
Qed.

(** [accept] first prunes, then answers by what is indexed. *)
Lemma accept_branches spec b w r w' :
  inv w -> accept spec b w = (r, w') ->
  exists w1, prunes w w1 /\ inv w1 /\
  match r with
  | Ok true => e_shuttingDown (w_engine w) = false /\ e_items (w_engine w1) !! sp_OperationID spec = None /\
      exists now, let rec := new_record spec (cancelModeForType (sp_Type spec)) now in
      e_items (w_engine w') = <[sp_OperationID spec := mkOperation spec rec None
        (Z.to_nat (c_outputTailBytes (e_config (w_engine w)))) false false false]> (e_items (w_engine w1)) /\
      w_files w' = <[sp_OperationID spec := minimal rec]> (w_files w1) /\
      e_runnerCount (w_engine w') = e_runnerCount (w_engine w) + (if b then 1 else 0)
  | Ok false => w' = w1 /\ exists o, e_items (w_engine w1) !! sp_OperationID spec = Some o /\ o_spec o = spec
  | Err ESpecMismatch =>
      w' = w1 /\ exists o, e_items (w_engine w1) !! sp_OperationID spec = Some o /\ o_spec o <> spec
  | Err EShuttingDown => w' = w1 /\ e_shuttingDown (w_engine w) = true
  | Err e => w_engine w' = w_engine w1 /\ save_error e
  end.
Proof.
  intros Hi. unfold accept.
  do 2 (case_if; [intros [= <- <-]; exists w; split_and!; [reflexivity | done | done | by left]|]).
  unfold bind at 1. pose proof (frames_Now w) as Hf. destruct (Now w) as [[now|e] w0] eqn:En; simpl in Hf;
    [|by apply Now_total in En].
  assert (inv w0) as Hi0 by (by eapply frame_inv).
  unfold bind at 1. pose proof (cleanupLocked_prunes now w0 Hi0) as Hp. pose proof (cleanupLocked_keeps now w0 Hi0) as Hi1.
  assert (is_ok (cleanupLocked now w0).1 = true) as Hok by apply cleanup_loop_ok.
  destruct (cleanupLocked now w0) as [[u|e] w1]; simpl in *; [|done]. clear Hok Hi0.
  assert (prunes w w1) as Hpr by (etransitivity; [by apply prunes_frame | done]).
  pose proof (pr_control _ _ Hpr) as Hctl. injection Hctl as Hcfg Hheld Hloc Hsd Hrc.
  unfold bind at 1, gets at 1. case_if; [intros [= <- <-]; exists w1; split_and!; auto; congruence|].
  destruct (e_items (w_engine w1) !! sp_OperationID spec) as [o|] eqn:Eo.
  { case_if; intros [= <- <-]; exists w1; split_and!; auto; exists o; bool_to_prop; auto. }
  cbv zeta. set (rec := new_record _ _ _). unfold bind at 1.
  destruct (persist rec false w1) as [res w2] eqn:E2. pose proof (persist_error rec w1) as Hperr.
  pose proof E2 as (He & Hfiles & Hv)%persist_effect; [|apply (iv_journal _ Hi1)].
  destruct res as [u2|e].
  2: { intros [= <- <-]. exists w1. destruct (Hperr _ _ E2) as [-> | [-> | ->]]; split_and!; auto; unfold save_error; auto. }
  destruct Hfiles as [[_ H]|(_ & _ & Hfiles)]; [by specialize (H eq_refl)|].
  unfold bind, modify. intros E. exists w1.
  destruct b; injection E as <- <-; (split_and!; [done | done | congruence | done |]); exists now; simpl;
    rewrite He, Hcfg, ?Hrc; split_and!; auto; lia.
Qed.

(** Acceptance is idempotent and durable. A new identifier is accepted only
    while the engine admits work, and then its REQUESTED record is in memory and
    in the journal, and one runner is reserved if asked for; an identifier that
    is still indexed is never created twice: the same specification is answered
    without effect, another one with a mismatch; after shutdown has begun
    nothing is accepted; and a failed acceptance leaves no new operation and no
    reserved runner behind. *)
Theorem accept_contract spec b w r w' :
  reachable w -> accept spec b w = (r, w') ->
  let id := sp_OperationID spec in
  (r = Ok true -> e_shuttingDown (w_engine w) = false /\
     (e_items (w_engine w) !! id = None \/ evictable w id) /\
     e_runnerCount (w_engine w') = e_runnerCount (w_engine w) + (if b then 1 else 0) /\
     exists o, e_items (w_engine w') !! id = Some o /\ o_spec o = spec /\ r_Status (o_record o) = StatusRequested /\
       w_files w' !! id = Some (minimal (o_record o))) /\
  (r <> Ok true -> e_runnerCount (w_engine w') = e_runnerCount (w_engine w) /\
     forall i, is_Some (e_items (w_engine w') !! i) -> e_items (w_engine w') !! i = e_items (w_engine w) !! i) /\
  (r = Ok false -> exists o, e_items (w_engine w) !! id = Some o /\ o_spec o = spec) /\
  (r = Err ESpecMismatch -> exists o, e_items (w_engine w) !! id = Some o /\ o_spec o <> spec) /\
  (e_shuttingDown (w_engine w) = true -> is_ok r = true -> r = Ok false).
Proof.
  intros Hr%reachable_inv E id. apply accept_branches in E as (w1 & [Hctl Hp] & Hi1 & E); [|done].
  injection Hctl as Hcfg Hheld Hloc Hsd Hrc.
  assert (forall i o, e_items (w_engine w1) !! i = Some o -> e_items (w_engine w) !! i = Some o) as Hsub.
  { intros i o Ho. destruct (Hp i) as [[<- _]|(E0 & _)]; congruence. }
  assert (forall w2, w_engine w2 = w_engine w1 -> e_runnerCount (w_engine w2) = e_runnerCount (w_engine w) /\
     forall i, is_Some (e_items (w_engine w2) !! i) -> e_items (w_engine w2) !! i = e_items (w_engine w) !! i) as Hsame.
  { intros w2 ->. split; [done|]. intros i [o Ho]. rewrite Ho. symmetry. by apply Hsub. }
  destruct r as [[]|e].
  - destruct E as (Hdown & Hnone & now & Hit & Hfiles & Hcnt). split_and!; try done; [|congruence].
    intros _. split_and!; auto.
    + fold id in Hnone. destruct (Hp id) as [[<- _]|(_ & Hev & _)]; auto.
    + eexists. rewrite Hit, Hfiles, !lookup_insert_eq. done.
  - destruct E as [-> (o & Ho & Hs)]. split_and!; try done; eauto.
  - assert (w_engine w' = w_engine w1 /\
      (e = ESpecMismatch -> exists o, e_items (w_engine w1) !! id = Some o /\ o_spec o <> spec)) as [Heq Hmis].
    { destruct e; destruct E as [E1 E2]; subst; split; auto; try done; try congruence; by destruct E1. }
    split_and!; try done; [eauto|]. intros [= ->]. destruct (Hmis eq_refl) as (o & Ho & ?). eauto.
Qed.

Lemma accept_contract_witness :
  exists r w', accept demo_spec true (demo demo_running) = (r, w') /\ r = Ok false /\
  exists o, e_items (w_engine (demo demo_running)) !! "op-1" = Some o /\ o_spec o = demo_spec.
Proof.
  assert (reachable (demo demo_running)) as H by (by apply demo_reachable).
  destruct (accept demo_spec true (demo demo_running)) as [r w'] eqn:E.
  assert (r = Ok false) as Hf by (apply (f_equal fst) in E; vm_compute in E; by rewrite <- E).
  exists r, w'. split; [done|]. split; [done|].
  destruct (accept_contract demo_spec true (demo demo_running) r w' H E) as (_ & _ & Ho & _).
  exact (Ho Hf).
Defined.
