(* ===== verification/EngineLife.v ===== *)
(** * Operations: ends, restarts, outbox and shutdown

    What happens around the end of an operation's life: the release of its
    project lock, the terminal-audit outbox, the recovery of the journal by a
    new engine, and shutdown. *)

From S2P Require Import Prelude Operation Engine EngineInv EngineEvo EngineSpec.

(** ** Steps that leave locks, admission and runners alone *)

Definition steady (w w' : world) : Prop := control (w_engine w') = control (w_engine w).

#[export] Instance steady_preorder : PreOrder steady.
Proof. split; [done|]. unfold steady. intros a b c. congruence. Qed.

Lemma steady_frames {A} (m : opM A) : frames m -> moves steady m.
Proof. intros H w. destruct (H w) as [He _]. unfold steady. by rewrite He. Qed.

Lemma steady_persist r b : moves steady (persist r b).
Proof.
  intros w. unfold persist, config, bind at 1, gets. case_if; [|done].
  destruct (Save r b w) as [res w'] eqn:E. apply Save_effect in E as [He _]. unfold steady. simpl. by rewrite He.
Qed.

Lemma steady_commit id o o' : o_lease o' = o_lease o -> moves steady (commit_op id o o').
Proof.
  intros Hl w. unfold commit_op, bind at 1, putOp, modify. set (w1 := upd_engine _ w).
  unfold bind at 1, attempt. pose proof (steady_persist (o_record o') false w1) as Hp.
  destruct (persist (o_record o') false w1) as [[u|e] w2]; simpl in *; [|exact Hp].
  rewrite Hl. by destruct (o_lease o).
Qed.

Create HintDb steady.
#[export] Hint Resolve steady_persist : steady.
#[export] Hint Extern 1 (moves steady _) => (apply steady_frames; solve [frames]) : steady.
#[export] Hint Extern 1 (moves steady (commit_op _ _ _)) => (by apply steady_commit) : steady.
#[export] Hint Extern 2 (moves steady (modify _)) => done : steady.
Ltac steady_steps := moves_steps ltac:(auto with steady).

Lemma deliver_steady id : moves steady (deliverTerminalAudit id).
Proof. unfold deliverTerminalAudit, DeliverTerminal, ConfirmTerminal, mark_delivered. steady_steps. Qed.
#[export] Hint Resolve deliver_steady : steady.

Lemma replay_loop_steady ids err : moves steady (replay_loop ids err).
Proof. revert err. induction ids as [|id ids IH]; intros err; cbn [replay_loop]; steady_steps. Qed.
#[export] Hint Resolve replay_loop_steady : steady.
Lemma Replay_steady : moves steady ReplayTerminalAudits.
Proof. unfold ReplayTerminalAudits. steady_steps. Qed.

Lemma deliver_retains id : moves retains (deliverTerminalAudit id).
Proof. unfold deliverTerminalAudit, DeliverTerminal, ConfirmTerminal, mark_delivered. retaining_steps. Qed.
#[export] Hint Resolve deliver_retains : retaining.
Lemma replay_loop_retains ids err : moves retains (replay_loop ids err).
Proof. revert err. induction ids as [|id ids IH]; intros err; cbn [replay_loop]; retaining_steps. Qed.
#[export] Hint Resolve replay_loop_retains : retaining.
Lemma Replay_retains : moves retains ReplayTerminalAudits.
Proof. unfold ReplayTerminalAudits. retaining_steps. Qed.

Lemma onTerminal_steady id t w : inv w -> steady w (onTerminal id t w).2.
Proof.
  intros Hi. unfold onTerminal, bind at 1.
  assert (steady w (index_terminal id t w).2) as Hs.
  { unfold index_terminal, bind at 1, gets at 1. destruct (_ !! id); [|done].
    unfold bind at 1, modify at 1. set (w0 := upd_engine _ w). unfold bind at 1.
    assert (inv w0) as Hi0 by (by apply (results_keeps (fun e => e_results e ++ [(id, t)]))).
    pose proof (frames_Now w0) as Hf. destruct (Now w0) as [[now|e] w1]; simpl in Hf.
    - etransitivity; [|apply cleanupLocked_prunes; by eapply frame_inv]. unfold steady. by rewrite (proj1 Hf).
    - unfold steady. simpl. by rewrite (proj1 Hf). }
  destruct (index_terminal id t w) as [[u|e] w1]; simpl in *; [|done].
  unfold bind, attempt. pose proof (deliver_steady id w1) as Hd.
  destruct (deliverTerminalAudit id w1) as [r w2]. simpl in *. by etransitivity.
Qed.

(** ** The end of an operation frees its project *)

Lemma finish_held aud id o st fin o1 o' notify w w' l :
  inv w -> e_items (w_engine w) !! id = Some o -> o_lease o = Some l -> o_lease o1 = o_lease o ->
  o_notified o1 = false -> r_OperationID (o_record o1) = id ->
  Terminal st = true -> finishLocked st fin aud o1 = (o', notify) ->
  commit_op id o o' w = (Ok tt, w') -> notify = true /\ e_local (w_engine w') !! id = Some l.
Proof.
  intros Hi Ho Hl Hl1 Hn Hid Ht. unfold finishLocked. rewrite Ht, Hn. cbn [negb orb]. intros [= <- <-] E.
  split; [done|]. apply commit_op_effect in E as [(? & _)|(_ & _ & He & _)]; auto; [done | | apply (iv_journal _ Hi)].
  rewrite He. unfold committed. rewrite Hl. simpl. apply lookup_insert_eq.
Qed.

(** A finished operation never keeps its project: whenever a transition to
    a terminal status returns without error, the project lock its operation
    held is free again, whatever happens to the auditing and the cleaning up
    that follow, so the next operation on the project can start. *)
Theorem finish_frees_project w id next result err w' o p :
  reachable w -> TransitionStatus id next result err w = (Ok tt, w') -> Terminal next = true ->
  e_items (w_engine w) !! id = Some o -> o_lease o = Some (mkLease p id) ->
  e_held (w_engine w') !! p = None.
Proof.
  intros Hr E Ht Ho Hl. pose proof (reachable_inv _ Hr) as Hi. revert E.
  unfold TransitionStatus, bind at 1. destruct (transition_locked id next result err w) as [[[notify fin]|e] w1] eqn:E1;
    [|done].
  pose proof (transition_keeps id next result err w Hi) as Hi1. rewrite E1 in Hi1. simpl in Hi1.
  assert (notify = true /\ e_local (w_engine w1) !! id = Some (mkLease p id)) as [-> Hloc].
  { revert E1. unfold transition_locked, bind at 1. destruct (getOp id w) as [[x|e] w0] eqn:E0; [|done].
    apply getOp_inv in E0 as [-> Hx]. rewrite Ho in Hx. injection Hx as <-. cbv zeta.
    do 3 (case_if; [done|]). unfold bind at 1. pose proof (frames_Now w) as Hf0.
    destruct (Now w) as [[now|e] w0]; [|done]. simpl in Hf0.
    unfold bind at 1, config at 1, gets at 1. unfold bind at 1.
    match goal with |- context [(if ?b then ret time_zero else Now) w0] =>
      assert (frame w0 ((if b then ret time_zero else Now : opM time) w0).2) as Hf1 by (destruct b; [done | apply frames_Now]);
      destruct ((if b then ret time_zero else Now : opM time) w0) as [[fin'|e] w2]; [|done] end.
    simpl in Hf1. destruct (finishLocked _ _ _ _) as [o' notify'] eqn:Ef. unfold bind at 1.
    destruct (commit_op id o o' w2) as [[[]|e] w3] eqn:E3; [|done]. intros [= <- <- <-].
    assert (frame w w2) as Hf by (by etransitivity). pose proof (proj1 Hf) as He.
    pose proof (iv_items _ Hi _ _ Ho) as Hop.
    assert (op_terminal o = false) as Hlive.
    { unfold op_terminal. eapply legal_not_terminal. by apply negb_false_iff. }
    eapply (finish_held _ id o next fin' (with_record (transition_record next result err now (o_record o)) o)
      o' notify' w2); [by eapply frame_inv | by rewrite He | exact Hl | done |
      by rewrite <- Hlive; apply Hop | apply (oi_rec _ _ _ Hop) | done | exact Ef | exact E3]. }
  pose proof (Release_frees w1 id p Hi1 Hloc) as Hfree. pose proof (Release_keeps id w1 Hi1) as Hi2.
  cbn [fst snd]. unfold afterTerminal, bind. assert (Release id w1 = (Ok tt, (Release id w1).2)) as -> by done.
  set (w2 := (Release id w1).2) in *. intros E2.
  pose proof (onTerminal_steady id fin w2 Hi2) as Hs. rewrite E2 in Hs. injection Hs as _ Hh _ _ _. simpl in Hh.
  by rewrite Hh.
Qed.

Definition demo_last : world := demo (demo_running ++ [SCommit "op-1"; SPhase "op-1" PhaseFinalizing]).

Lemma finish_frees_project_witness :
  exists w', TransitionStatus "op-1" StatusSuccess "done" "" demo_last = (Ok tt, w') /\
  e_held (w_engine demo_last) !! "blog" = Some "op-1" /\ e_held (w_engine w') !! "blog" = None.
Proof.
  assert (reachable demo_last) as H by (by apply demo_reachable).
  assert (exists o, e_items (w_engine demo_last) !! "op-1" = Some o /\ o_lease o = Some (mkLease "blog" "op-1"))
    as (o & Ho & Hl) by (vm_compute; eexists; split; reflexivity).
  destruct (TransitionStatus "op-1" StatusSuccess "done" "" demo_last) as [r w'] eqn:E.
  assert (r = Ok tt) as -> by (apply (f_equal fst) in E; vm_compute in E; by rewrite <- E).
  exists w'. split; [done|]. split; [by vm_compute|].
  exact (finish_frees_project demo_last "op-1" StatusSuccess "done" "" w' o "blog" H E eq_refl Ho Hl).
Defined.

(** A goroutine has no lease of the operation in its hands. *)
Definition hand_free (id : string) (w : world) : Prop := e_local (w_engine w) !! id = None.

(** A lease is handed to a goroutine only with the announcement of the end. *)
Lemma commit_hands id o o' w r w' i :
  commit_op id o o' w = (r, w') -> e_local (w_engine w') !! i = e_local (w_engine w) !! i \/ (i = id /\ r = Ok tt /\ o_lease o' = None /\ o_lease o <> None).
Proof.
  unfold commit_op, bind at 1, putOp at 1, modify at 1. set (w1 := upd_engine _ w). unfold bind at 1, attempt at 1.
  pose proof (steady_persist (o_record o') false w1) as Hs. destruct (persist (o_record o') false w1) as [[u|e] w2]; injection Hs as _ _ Hl _ _; simpl in Hl.
  - destruct (o_lease o) as [l|], (o_lease o') as [l'|]; unfold modify, ret; intros [= <- <-]; simpl; rewrite ?Hl; auto.
    destruct (decide (i = id)) as [->|Hne]; [by right | left]. by rewrite lookup_insert_ne.
  - unfold bind, putOp, modify, fail. intros [= <- <-]. left. simpl. by rewrite Hl.
Qed.

(** What the two critical sections that end an operation leave in the hands of the
    goroutine: nothing new unless they announce the end. *)
Definition hands_announced (id : string) (w : world) (x : res opErr (bool * time) * world) : Prop :=
  (forall i, i <> id -> e_local (w_engine x.2) !! i = e_local (w_engine w) !! i) /\
  (e_local (w_engine x.2) !! id = e_local (w_engine w) !! id \/ exists t, x.1 = Ok (true, t)).

Lemma finish_hands id o st fin aud r w w0 :
  e_local (w_engine w) = e_local (w_engine w0) ->
  hands_announced id w0 ((let '(o', notify) := finishLocked st fin aud (with_record r o) in commit_op id o o' ;;; ret (notify, fin)) w).
Proof.
  intros Hl. destruct (finishLocked st fin aud (with_record r o)) as [o' notify] eqn:Ef. unfold bind.
  destruct (commit_op id o o' w) as [x w'] eqn:Ec. pose proof (fun i => commit_hands id o o' w x w' i Ec) as H.
  unfold hands_announced. replace (snd _) with w' by (by destruct x). rewrite <- Hl. split.
  - intros i Hi. destruct (H i) as [?|[? _]]; [done | congruence].
  - destruct (H id) as [?|(_ & -> & Hn & Hs)]; [by left | right]. simpl. exists fin. f_equal. f_equal.
    revert Ef. unfold finishLocked. case_if; intros [= <- <-]; [|done]. simpl in Hn. congruence.
Qed.

Lemma hands_same id w (x : res opErr (bool * time) * world) : w_engine x.2 = w_engine w -> hands_announced id w x.
Proof. intros H. unfold hands_announced. rewrite H. auto. Qed.

Lemma finish_time_frame (b : bool) w : frame w ((if b then ret time_zero else Now : opM time) w).2.
Proof. destruct b; [done | apply frames_Now]. Qed.

Lemma transition_hands id next result err w : hands_announced id w (transition_locked id next result err w).
Proof.
  unfold transition_locked, bind at 1. destruct (getOp id w) as [[o|e] w0] eqn:E0.
  2: { apply hands_same. destruct (run_frame _ _ _ _ (frames_getOp id) E0) as [He _]. done. }
  apply getOp_inv in E0 as [-> Ho]. cbv zeta. do 3 (case_if; [by apply hands_same|]).
  unfold bind at 1. pose proof (frames_Now w) as [He1 _]. destruct (Now w) as [[now|e] w1]; [|by apply hands_same]. simpl in He1.
  unfold bind at 1, config at 1, gets at 1. unfold bind at 1.
  match goal with |- context [(if ?b then ret time_zero else Now) w1] => pose proof (finish_time_frame b w1) as [He2 _];
    destruct ((if b then ret time_zero else Now : opM time) w1) as [[fin|e] w2]; simpl in He2 end; [|apply hands_same; simpl; congruence].
  apply finish_hands. congruence.
Qed.

Lemma reject_hands id cause w : hands_announced id w (reject_locked id cause w).
Proof.
  unfold reject_locked, bind at 1. destruct (getOp id w) as [[o|e] w0] eqn:E0.
  2: { apply hands_same. destruct (run_frame _ _ _ _ (frames_getOp id) E0) as [He _]. done. }
  apply getOp_inv in E0 as [-> Ho]. cbv zeta. case_if; [by apply hands_same|].
  unfold bind at 1. pose proof (frames_Now w) as [He1 _]. destruct (Now w) as [[now|e] w1]; [|by apply hands_same]. simpl in He1.
  unfold bind at 1, config at 1, gets at 1. unfold bind at 1.
  match goal with |- context [(if ?b then ret time_zero else Now) w1] => pose proof (finish_time_frame b w1) as [He2 _];
    destruct ((if b then ret time_zero else Now : opM time) w1) as [[fin|e] w2]; simpl in He2 end; [|apply hands_same; simpl; congruence].
  apply finish_hands. congruence.
Qed.

(** Releasing empties the hand. *)
Lemma Release_hand id w : hand_free id (Release id w).2.
Proof. unfold hand_free, Release, modify. simpl. destruct (e_local (w_engine w) !! id) eqn:E; [apply lookup_delete_eq | done]. Qed.

Lemma afterTerminal_hand id t w : inv w -> hand_free id (afterTerminal id true t w).2 /\
  forall p, e_local (w_engine w) !! id = Some (mkLease p id) -> e_held (w_engine (afterTerminal id true t w).2) !! p = None.
Proof.
  intros Hi. unfold afterTerminal, bind. assert (Release id w = (Ok tt, (Release id w).2)) as -> by done.
  pose proof (onTerminal_steady id t _ (Release_keeps id w Hi)) as Hs. pose proof (Release_hand id w) as Hh. pose proof (Release_frees w id) as Hf.
  set (w1 := (Release id w).2) in *. injection Hs as _ Hheld Hl _ _. unfold hand_free in *. rewrite Hl. split; [done|].
  intros p Hp. rewrite Hheld. by apply Hf.
Qed.

Lemma afterTerminal_none id t w : afterTerminal id false t w = (Ok tt, w).
Proof. done. Qed.

(** A method that ends an operation returns with empty hands. *)
Lemma ending_hand id (m : opM (bool * time)) w :
  inv (m w).2 -> hands_announced id w (m w) -> hand_free id w -> hand_free id ((let* r := m in afterTerminal id (fst r) (snd r)) w).2.
Proof.
  intros Hi [_ Hm] Hw. unfold bind. destruct (m w) as [[[notify t]|e] w1]; simpl in *.
  - destruct notify; [by apply afterTerminal_hand|]. unfold hand_free in *. simpl. destruct Hm as [->|[t' [=]]]; done.
  - unfold hand_free in *. simpl. destruct Hm as [->|[t' [=]]]; done.
Qed.

Lemma attach_hand id p w : inv w -> e_local (w_engine w) !! id = Some (mkLease p id) ->
  hand_free id (attachLease id w).2 /\
  match e_items (w_engine w) !! id with
  | Some o => if op_terminal o then e_held (w_engine (attachLease id w).2) !! p = None
              else exists o', e_items (w_engine (attachLease id w).2) !! id = Some o' /\ o_lease o' = Some (mkLease p id)
  | None => e_held (w_engine (attachLease id w).2) !! p = None
  end.
Proof.
  intros Hi Hl. pose proof (Release_hand id w) as Hh. pose proof (Release_frees w id p Hi Hl) as Hf.
  unfold attachLease, bind at 1 3 5 7, gets. unfold op_terminal. destruct (e_items (w_engine w) !! id) as [o|] eqn:Eo; [|done].
  destruct (Terminal (r_Status (o_record o))); [done|]. unfold bind, putOp, modify. simpl. split; [apply lookup_delete_eq|].
  rewrite Hl, lookup_insert_eq. by eexists.
Qed.

(** [C21] Project locks exclude each other and do not leak. In every reachable
    state a project is locked exactly when some operation holds its lease (on
    the operation, or in the hands of the goroutine between two critical
    sections), and unless it is in a goroutine's hands the operation is indexed
    and not terminal; no two operations hold the lease of one project, an
    operation holds at most one, and a lock attempt succeeds exactly when nobody
    holds the project. Hands are emptied: from any reachable state, attaching a
    lease puts it on a live operation and otherwise frees the project, what
    follows the announcement of an end frees the project, the sections that end
    an operation take its lease only when they announce the end, and so a
    transition or rejection that starts with empty hands returns with empty
    hands, whatever call fails. *)
Theorem project_lock_exclusive w :
  reachable w ->
  (forall p id, e_held (w_engine w) !! p = Some id <-> holds (w_engine w) id p) /\
  (forall p id, e_held (w_engine w) !! p = Some id -> hand_free id w -> exists o, e_items (w_engine w) !! id = Some o /\ op_terminal o = false) /\
  (forall p i j, holds (w_engine w) i p -> holds (w_engine w) j p -> i = j) /\
  (forall i p q, holds (w_engine w) i p -> holds (w_engine w) i q -> p = q) /\
  (forall p id, p <> "" -> id <> "" ->
     (acquireOnce p id w).1 = Ok None <-> forall j, ~ holds (w_engine w) j p) /\
  (forall id p, e_local (w_engine w) !! id = Some (mkLease p id) ->
     (hand_free id (attachLease id w).2 /\
      match e_items (w_engine w) !! id with
      | Some o => if op_terminal o then e_held (w_engine (attachLease id w).2) !! p = None
                  else exists o', e_items (w_engine (attachLease id w).2) !! id = Some o' /\ o_lease o' = Some (mkLease p id)
      | None => e_held (w_engine (attachLease id w).2) !! p = None
      end) /\
     forall t, hand_free id (afterTerminal id true t w).2 /\ e_held (w_engine (afterTerminal id true t w).2) !! p = None) /\
  (forall id, (forall next result err, hands_announced id w (transition_locked id next result err w)) /\
     (forall cause, hands_announced id w (reject_locked id cause w))) /\
  (forall id, hand_free id w ->
     (forall next result err, hand_free id (TransitionStatus id next result err w).2) /\ (forall cause, hand_free id (reject id cause w).2)).
Proof.
  intros Hr%reachable_inv. pose proof (iv_locks _ Hr) as Hl. split_and!.
  - apply Hl.
  - intros p id Hp Hh. apply Hl in Hp as [(o & Ho & El)|El]; [|unfold hand_free in Hh; congruence].
    exists o. split; [done|]. by apply (oi_lease _ _ _ (iv_items _ Hr _ _ Ho) _ El).
  - intros p i j. by apply holds_unique.
  - intros i p q. by apply lease_project_unique.
  - intros p id Hp Hid. unfold acquireOnce, str_empty. rewrite !bool_decide_eq_false_2 by done. cbn [orb].
    unfold bind, gets. destruct (e_held (w_engine w) !! p) as [j|] eqn:E; simpl; (split; [|done || intros H; exfalso]).
    + done.
    + apply (H j). by apply Hl.
    + intros _ j Hj. apply Hl in Hj. congruence.
  - intros id p Hp. split; [by apply attach_hand|]. intros t. destruct (afterTerminal_hand id t w Hr) as [H1 H2]. auto.
  - intros id. split; [intros; apply transition_hands | intros; apply reject_hands].
  - intros id Hh. split.
    + intros next result err. apply ending_hand; [by apply transition_keeps | apply transition_hands | done].
    + intros cause. apply ending_hand; [by apply reject_keeps | apply reject_hands | done].
Qed.

Lemma project_lock_exclusive_witness :
  holds (w_engine (demo demo_running)) "op-1" "blog" /\
  (acquireOnce "blog" "op-2" (demo demo_running)).1 <> Ok None /\
  hand_free "op-1" (TransitionStatus "op-1" StatusSuccess "done" "" (demo demo_running)).2.
Proof.
  assert (reachable (demo demo_running)) as H by (by apply demo_reachable).
  destruct (project_lock_exclusive _ H) as (Hh & _ & _ & _ & Ha & _ & _ & Hf).
  assert (holds (w_engine (demo demo_running)) "op-1" "blog") as Hold by (apply Hh; by vm_compute).
  assert (hand_free "op-1" (demo demo_running)) as Hfree by (vm_compute; reflexivity).
  split; [exact Hold|]. split; [|exact (proj1 (Hf "op-1" Hfree) StatusSuccess "done" "")]. intros E. exact (proj1 (Ha "blog" "op-2" ltac:(done) ltac:(done)) E "op-1" Hold).
Defined.

(** ** The terminal-audit outbox *)

(** Steps that send nothing to the auditor. *)
Definition quiet (w w' : world) : Prop :=
  w_delivered w' = w_delivered w /\ w_confirmed w' = w_confirmed w.

#[export] Instance quiet_preorder : PreOrder quiet.
Proof. split; [done|]. intros a b c [] []. split; congruence. Qed.

Lemma quiet_next : moves quiet next_ok.
Proof. intros w. unfold next_ok. by destruct (w_outcomes w). Qed.
Lemma quiet_call e : moves quiet (call e).
Proof.
  intros w. unfold call, bind. pose proof (quiet_next w) as H. destruct (next_ok w) as [[[]|] w']; done.
Qed.
Create HintDb quiet.
#[export] Hint Resolve quiet_next quiet_call : quiet.
#[export] Hint Extern 2 (moves quiet (modify _)) => done : quiet.
#[export] Hint Extern 2 (moves quiet (ret _)) => done : quiet.
#[export] Hint Extern 2 (moves quiet (fail _)) => done : quiet.
#[export] Hint Extern 2 (moves quiet (gets _)) => done : quiet.
#[export] Hint Extern 2 (moves quiet (putOp _ _)) => done : quiet.
#[export] Hint Extern 2 (moves quiet config) => done : quiet.

Lemma quiet_commit id o o' : moves quiet (commit_op id o o').
Proof. unfold commit_op, persist, Save, writeJournalPayload. moves_steps ltac:(auto with quiet). Qed.

Definition delivered_record (r : Record_) : Record_ := rec_finish (r_FinishedAt r) ManagedAuditDelivered r.

(** The operation is DELIVERED in memory and in the journal. *)
Definition journaled (w : world) (id : string) (o : Operation) : Prop :=
  e_items (w_engine w) !! id = Some (with_record (delivered_record (o_record o)) o) /\
  w_files w !! id = Some (minimal (delivered_record (o_record o))).

Lemma mark_delivered_effect id o w r w' :
  inv w -> e_items (w_engine w) !! id = Some o -> op_pending o = true -> mark_delivered id w = (r, w') ->
  quiet w w' /\ ((is_ok r = false /\ w_engine w' = w_engine w) \/ (r = Ok tt /\ journaled w' id o)).
Proof.
  intros Hi Ho Hp. unfold mark_delivered, bind at 1, getOp, bind, gets. rewrite Ho. unfold ret at 1. rewrite Hp. intros E.
  split. { pose proof (quiet_commit id o (with_record (delivered_record (o_record o)) o) w) as H.
    unfold delivered_record in H. by rewrite E in H. }
  apply commit_op_effect in E as [(? & He & _)|(Hok & _ & He & Hf)]; auto;
    [|apply (iv_journal _ Hi) | apply (item_id w id o Hi Ho)].
  right. destruct r as [[]|e]; [|done]. split; [done|]. split; [|by rewrite Hf, lookup_insert_eq].
  by rewrite He, committed_items, lookup_insert_eq.
Qed.

Lemma DeliverTerminal_effect r w :
  frame w (DeliverTerminal r w).2 /\ w_confirmed (DeliverTerminal r w).2 = w_confirmed w /\
  w_delivered (DeliverTerminal r w).2 =
    w_delivered w ++ (if is_ok (DeliverTerminal r w).1 then [r] else []).
Proof.
  unfold DeliverTerminal, bind. pose proof (frames_call EAuditor w) as Hf. pose proof (quiet_call EAuditor w) as [Hd Hc].
  destruct (call EAuditor w) as [[u|e] w1]; simpl in *; [|by rewrite app_nil_r].
  split_and!; [done | done | by rewrite Hd].
Qed.

Lemma ConfirmTerminal_effect id w :
  frame w (ConfirmTerminal id w).2 /\ w_delivered (ConfirmTerminal id w).2 = w_delivered w /\
  w_confirmed (ConfirmTerminal id w).2 =
    w_confirmed w ++ (if is_ok (ConfirmTerminal id w).1 then [id] else []).
Proof.
  unfold ConfirmTerminal, bind. pose proof (frames_call EAuditor w) as Hf. pose proof (quiet_call EAuditor w) as [Hd Hc].
  destruct (call EAuditor w) as [[u|e] w1]; simpl in *; [|by rewrite app_nil_r].
  split_and!; [done | done | by rewrite Hc].
Qed.

(** [C24] The outbox protocol, for a terminal operation whose audit record is
    owed, at whatever point it fails: the record is journaled DELIVERED only
    after the auditor accepted exactly that record; the receipt is confirmed
    only after DELIVERED is in memory and in the journal; success means all
    three happened; and after a failure the operation is either still pending,
    so that the delivery is retried, or journaled with only the confirmation
    left to repeat. *)
Theorem outbox_protocol w id o r w' :
  reachable w -> c_auditor (e_config (w_engine w)) = true ->
  e_items (w_engine w) !! id = Some o -> op_pending o = true ->
  deliverTerminalAudit id w = (r, w') ->
  (w_engine w' = w_engine w \/ journaled w' id o) /\
  (w_delivered w' = w_delivered w ++ [o_record o] \/
   (w_delivered w' = w_delivered w /\ frame w w')) /\
  ((w_confirmed w' = w_confirmed w /\ is_ok r = false) \/
   (w_confirmed w' = w_confirmed w ++ [id] /\ r = Ok tt /\ journaled w' id o /\
    w_delivered w' = w_delivered w ++ [o_record o])).
Proof.
  intros Hr%reachable_inv Ha Ho Hp. unfold deliverTerminalAudit, bind at 1, config at 1, gets at 1. rewrite Ha. cbn [negb].
  unfold bind at 1, getOp, bind at 1, gets. rewrite Ho. unfold ret. cbv zeta.
  pose proof Hp as Hpend. unfold op_pending in Hpend. apply bool_decide_eq_true in Hpend. rewrite Hpend.
  unfold bind at 1. pose proof (frames_call EContext w) as Hf1. pose proof (quiet_call EContext w) as [Hd1 Hc1].
  destruct (call EContext w) as [[u|e] w1]; simpl in Hf1, Hd1, Hc1.
  2: { intros [= <- <-]. split_and!; auto. left. apply Hf1. }
  unfold bind at 1. destruct (DeliverTerminal_effect (o_record o) w1) as (Hf2 & Hc2 & Hd2).
  destruct (DeliverTerminal (o_record o) w1) as [[u2|e] w2]; simpl in Hf2, Hc2, Hd2.
  2: { rewrite app_nil_r in Hd2. intros [= <- <-]. assert (frame w w2) as Hf by (by etransitivity).
    split_and!; [left; apply Hf | right; split; [congruence | done] | left; split; [congruence | done]]. }
  assert (frame w w2) as Hf by (by etransitivity). rewrite Hd1 in Hd2.
  unfold bind at 1. destruct (mark_delivered id w2) as [r3 w3] eqn:E3.
  apply (mark_delivered_effect id o) in E3 as [[Hd3 Hc3] E3]; [| by eapply frame_inv | by rewrite (proj1 Hf) | done].
  destruct E3 as [[Hok He]|[-> Hj]].
  { destruct r3; [done|]. intros [= <- <-]. split_and!; [left; rewrite He; apply Hf | left; congruence |].
    left. split; [congruence | done]. }
  destruct (ConfirmTerminal_effect id w3) as ([He4 Hf4] & Hd4 & Hc4). intros E. rewrite E in *. simpl in *.
  assert (journaled w' id o) as Hj' by (destruct Hj; split; congruence).
  split_and!; [by right | left; congruence |].
  destruct r as [[]|e]; simpl in Hc4; [right | left; rewrite app_nil_r in Hc4]; split_and!; try done; congruence.
Qed.

Lemma outbox_protocol_witness :
  exists r w' o, deliverTerminalAudit "op-1" (demo demo_finished) = (r, w') /\ op_pending o = true /\
  (w_engine w' = w_engine (demo demo_finished) \/ journaled w' "op-1" o).
Proof.
  assert (reachable (demo demo_finished)) as H by (by apply demo_reachable).
  assert (exists o, e_items (w_engine (demo demo_finished)) !! "op-1" = Some o /\ op_pending o = true)
    as (o & Ho & Hp) by (vm_compute; eexists; split; reflexivity).
  destruct (deliverTerminalAudit "op-1" (demo demo_finished)) as [r w'] eqn:E.
  exists r, w', o. split; [done|]. split; [done|].
  assert (c_auditor (e_config (w_engine (demo demo_finished))) = true) as Ha by (by vm_compute).
  exact (proj1 (outbox_protocol (demo demo_finished) "op-1" o r w' H Ha Ho Hp E)).
Defined.

(** ** Restart *)

(** What a new engine makes of a journal record [f]. *)
Record recovered (f r : Record_) : Prop := {
  rc_spec : spec_of r = spec_of f;
  rc_terminal : Terminal (r_Status r) = true;
  rc_kept : Terminal (r_Status f) = true ->
            r_Status r = r_Status f /\ r_Result r = r_Result f /\ r_Error r = r_Error f /\
            r_FinishedAt r = r_FinishedAt f /\ r_Revision r = r_Revision f;
  rc_interrupted : Terminal (r_Status f) = false ->
            r_Status r = StatusInterrupted /\ r_PartialEffectsPossible r = true /\
            r_CommitStartedAt r = r_CommitStartedAt f /\ r_CancelRequestedAt r = r_CancelRequestedAt f;
}.

Lemma recovered_output f r0 tail truncated : recovered (rec_output tail truncated f) r0 -> recovered f r0.
Proof. by intros []. Qed.

Lemma recovered_frozen f r r' : recovered f r -> frozen r r' -> recovered f r'.
Proof. intros [] ->. split; auto. Qed.

Lemma recover_record_recovered now aud r : recovered r (recover_record now aud r).1.
Proof.
  unfold recover_record. destruct (Terminal (r_Status r)) eqn:Et; cbn [negb].
  - case_if; split; simpl; auto; congruence.
  - split; simpl; auto; congruence.
Qed.

Lemma clip_recovered limit f r : recovered (clip_record limit f) r -> recovered f r.
Proof. unfold clip_record. destruct (decide _); [apply recovered_output | done]. Qed.

Lemma recover_delivered now aud limit r :
  r_ManagedAuditDelivery (recover_record now aud (clip_record limit r)).1 = ManagedAuditDelivered ->
  r_ManagedAuditDelivery r = ManagedAuditDelivered \/ aud = false.
Proof.
  assert (r_ManagedAuditDelivery (clip_record limit r) = r_ManagedAuditDelivery r) as <-.
  { unfold clip_record. by destruct (decide _). }
  unfold recover_record. destruct aud; [|by right]. intros H. left. revert H. case_if; [done|]. by case_if.
Qed.

(** When a recovered operation ended: as journaled, or at the restart. *)
Definition finish_of (now : time) (f : Record_) : time := if Terminal (r_Status f) then r_FinishedAt f else now.

Lemma recover_finish now aud limit r : r_FinishedAt (recover_record now aud (clip_record limit r)).1 = finish_of now r.
Proof.
  unfold finish_of. assert (r_Status (clip_record limit r) = r_Status r /\ r_FinishedAt (clip_record limit r) = r_FinishedAt r) as [<- <-]
    by (unfold clip_record; by destruct (decide _)).
  unfold recover_record. destruct (Terminal _); simpl; [|done]. by case_if.
Qed.

(** What cleaning up may drop from a list of results: a result that expired, or one
    with at least the maximum of results behind it. *)
Definition droppable (c : Config) (now : time) (results : list (string * time)) (id : string) : Prop :=
  exists t newer, ((id, t) :: newer) `suffix_of` results /\ (t <= now - c_resultRetention c \/ c_resultMax c <= lenZ newer).

Lemma droppable_tail c now x results id : droppable c now results id -> droppable c now (x :: results) id.
Proof. intros (t & newer & Hs & H). exists t, newer. split; [by apply suffix_cons_r | done]. Qed.

Lemma cleanup_loop_drops fuel now w id : inv w ->
  is_Some (e_items (w_engine w) !! id) -> e_items (w_engine (cleanup_loop fuel now w).2) !! id = None ->
  droppable (e_config (w_engine w)) now (e_results (w_engine w)) id.
Proof.
  revert w. induction fuel as [|fuel IH]; intros w Hi [o Ho]; cbn [cleanup_loop]; [simpl; congruence|].
  unfold bind at 1, gets at 1. destruct (e_results (w_engine w)) as [|[i fin] rest] eqn:Er; [simpl; congruence|].
  case_if; [simpl; congruence|]. cbv zeta.
  assert (forall w1, inv w1 -> e_config (w_engine w1) = e_config (w_engine w) -> e_results (w_engine w1) = (i, fin) :: rest -> is_Some (e_items (w_engine w1) !! id) ->
    e_items (w_engine ((modify (upd_engine (fun e => set_results (tail (e_results e)) e)) ;;; cleanup_loop fuel now) w1).2) !! id = None ->
    droppable (e_config (w_engine w)) now ((i, fin) :: rest) id) as Hdrop.
  { intros w1 Hi1 Hc1 Hr1 Hs1. unfold bind, modify. set (w2 := upd_engine _ w1). intros Hn. rewrite <- Hc1. apply droppable_tail.
    assert (e_results (w_engine w2) = rest) as <- by (simpl; by rewrite Hr1). apply (IH w2); [by apply (results_keeps (fun e => tail (e_results e))) | done | done]. }
  destruct (e_items (w_engine w) !! i) as [x|] eqn:Ex; [|apply Hdrop; [done..| by eexists]].
  case_if; [apply Hdrop; [done..| by eexists]|]. case_if; [simpl; congruence|]. rewrite (iv_journal _ Hi).
  unfold bind at 1, attempt at 1. destruct (Delete i w) as [r w1] eqn:Ed. pose proof (Delete_effect _ _ _ _ Ed) as [He Hf].
  assert (inv w1) as Hi1 by (apply (inv_files w); [done | done |]; destruct Hf; eauto).
  destruct r; [|simpl; rewrite He; congruence]. unfold bind at 1, modify at 1. destruct (decide (id = i)) as [->|Hne].
  - intros _. exists fin, rest. split; [done|]. apply andb_false_iff in Heqb as [H|H]; bool_to_prop; [right | left; lia]. unfold lenZ. simpl in H. lia.
  - apply Hdrop; [apply drop_item_keeps; [done|]; rewrite He; intros o' Ho'; bool_to_prop; congruence | simpl; by rewrite He..|].
    simpl. rewrite He, lookup_delete_ne by done. by eexists.
Qed.

Lemma recover_loop_effect now records w w' :
  inv w -> recover_loop now records w = (Ok tt, w') ->
  steady w w' /\
  (forall id o, e_items (w_engine w') !! id = Some o ->
     e_items (w_engine w) !! id = Some o \/
     exists r0, r0 ∈ records /\ r_OperationID r0 = id /\
       o_record o = (recover_record now (c_auditor (e_config (w_engine w)))
         (clip_record (Z.to_nat (c_outputTailBytes (e_config (w_engine w)))) r0)).1) /\
  (forall id, is_Some (e_items (w_engine w) !! id) \/ id ∈ (r_OperationID <$> records) ->
     is_Some (e_items (w_engine w') !! id)) /\
  e_results (w_engine w') = e_results (w_engine w) ++ ((fun r => (r_OperationID r, finish_of now r)) <$> records) /\
  NoDup (r_OperationID <$> records) /\ (forall r, r ∈ records -> e_items (w_engine w) !! r_OperationID r = None).
Proof.
  intros Hi. pose proof (iv_journal _ Hi) as Hj. clear Hi. revert w Hj.
  induction records as [|r0 records IH]; intros w Hj; cbn [recover_loop].
  { intros [= <-]. split_and!; [done | auto | | by rewrite app_nil_r | by constructor | by intros r ?%elem_of_nil]. intros id [?|H]; [done | by apply elem_of_nil in H]. }
  unfold bind at 1, gets at 1. case_if; [done|]. cbv zeta. bool_to_prop.
  set (limit := Z.to_nat _). set (aud := c_auditor _).
  destruct (recover_record now aud (clip_record limit r0)) as [r2 changed] eqn:Erec. unfold bind at 1.
  match goal with |- (match ?x with _ => _ end) = _ -> _ => destruct x as [[u|e] w1] eqn:E1; [|done] end.
  assert (w_engine w1 = w_engine w) as He.
  { destruct changed; [by apply persist_effect in E1 as [He _] | by injection E1 as _ <-]. }
  unfold bind, modify. set (w2 := upd_engine _ w1). intros E.
  assert (e_config (w_engine w2) = e_config (w_engine w)) as Hcfg by (simpl; by rewrite He).
  apply IH in E as (Hs & Hsound & Hcompl & Hres & Hnd & Hnew); [|by rewrite Hcfg]. rewrite Hcfg in Hsound. fold limit aud in Hsound.
  assert (e_items (w_engine w2) = <[r_OperationID r0 := mkOperation (spec_of (clip_record limit r0)) r2 None limit
    true false false]> (e_items (w_engine w))) as Hit by (simpl; by rewrite He).
  assert (forall r, r ∈ records -> r_OperationID r <> r_OperationID r0 /\ e_items (w_engine w) !! r_OperationID r = None) as Hfresh.
  { intros r Hin. specialize (Hnew r Hin). rewrite Hit in Hnew. apply lookup_insert_None in Hnew as [? ?]. auto. }
  assert (r_FinishedAt r2 = finish_of now r0) as Hfin.
  { pose proof (recover_finish now aud limit r0) as Hfin. by rewrite Erec in Hfin. }
  split_and!.
  - etransitivity; [|exact Hs]. unfold steady, control. simpl. by rewrite He.
  - intros id o Ho. destruct (Hsound id o Ho) as [Hw2|(r & Hin & Hid & Hr)].
    + rewrite Hit in Hw2. destruct (decide (id = r_OperationID r0)) as [->|Hne].
      * rewrite lookup_insert_eq in Hw2. injection Hw2 as <-. right. exists r0. split_and!; [by left | done |].
        simpl. by rewrite Erec.
      * rewrite lookup_insert_ne in Hw2 by done. by left.
    + right. exists r. split; [by right | done].
  - intros id Hid. apply Hcompl. rewrite Hit. destruct (decide (id = r_OperationID r0)) as [->|Hne].
    + left. rewrite lookup_insert_eq. eauto.
    + rewrite lookup_insert_ne by done. destruct Hid as [?|Hid]; [by left|]. right.
      rewrite fmap_cons in Hid. apply elem_of_cons in Hid as [|]; done.
  - rewrite Hres. simpl. by rewrite He, <- app_assoc, Hfin.
  - rewrite fmap_cons. constructor; [|done]. intros (r & Hid & Hin)%list_elem_of_fmap. by destruct (Hfresh r Hin).
  - intros r [->|Hin]%elem_of_cons; [|by apply Hfresh]. apply eq_None_not_Some. done.
Qed.

Lemma Load_effect w records w' :
  inv w -> Load w = (Ok records, w') ->
  frame w w' /\
  (forall r, r ∈ records -> exists f tail truncated, w_files w !! r_OperationID r = Some f /\
     (r = f \/ r = rec_output tail truncated f)) /\
  (forall id, is_Some (w_files w !! id) -> id ∈ (r_OperationID <$> records)).
Proof.
  intros Hi. unfold Load, bind at 1. pose proof (frames_call EIO w) as Hf.
  destruct (call EIO w) as [[u|e] w1]; [|done]. simpl in Hf.
  unfold bind, gets. case_if; [done|]. intros [= <- <-]. destruct Hf as [He Hff]. split; [by split|]. rewrite Hff. split.
  - intros r (r1 & -> & Hr1)%list_elem_of_fmap. apply list_elem_of_fmap in Hr1 as ([id f] & -> & Hin).
    apply elem_of_map_to_list in Hin. pose proof (ri_id _ _ (iv_files _ Hi _ _ Hin)) as Hid. simpl.
    unfold load_record. destruct (w_outputs w1 !! r_OperationID f) as [[tail tr]|]; simpl; rewrite Hid.
    + exists f, tail, tr. auto.
    + exists f, [], false. auto.
  - intros id [f Hin]. apply list_elem_of_fmap. exists (load_record (w_outputs w1) f). split.
    + pose proof (ri_id _ _ (iv_files _ Hi _ _ Hin)) as <-. unfold load_record.
      by destruct (w_outputs w1 !! _) as [[]|].
    + apply list_elem_of_fmap. exists f. split; [done|]. apply list_elem_of_fmap. exists (id, f). split; [done|].
      by apply elem_of_map_to_list.
Qed.

(** The next reading of the clock. *)
Definition clock (w : world) : time := default (w_lastTime w) (head (w_times w)).

(** Retention may drop a journaled operation at a restart: it ended longer ago than
    the retention time, or at least the maximum of others ended no earlier. *)
Definition outlived (c : Config) (now : time) (files : gmap string Record_) (id : string) (f : Record_) : Prop :=
  finish_of now f <= now - c_resultRetention c \/
  exists newer, NoDup newer /\ (id ∉ newer) /\ c_resultMax c <= lenZ newer /\
    forall i, i ∈ newer -> exists g, files !! i = Some g /\ finish_of now f <= finish_of now g.

Lemma load_clock w records w' : Load w = (Ok records, w') -> clock w' = clock w.
Proof.
  unfold Load, bind at 1, call, bind at 1, next_ok. destruct (w_outcomes w) as [|[]]; unfold ret, fail, bind, gets; try done; (case_if; [done|]); by intros [= _ <-].
Qed.

Lemma Now_clock w now w' : Now w = (Ok now, w') -> now = clock w.
Proof. unfold Now, clock. destruct (w_times w); by intros [= <- _]. Qed.

Lemma suffix_sorted (l : list (string * time)) x newer : sorted_by (fun a b => snd a <? snd b) l -> (x :: newer) `suffix_of` l ->
  Forall (fun y => snd x <= snd y) newer.
Proof.
  intros Hs [pre ->]. unfold sorted_by in Hs. apply Sorted_StronglySorted in Hs; [|intros a b c ??; bool_to_prop; apply Z.ltb_ge; lia].
  assert (forall l, StronglySorted (fun a b : string * time => (snd b <? snd a) = false) (l ++ x :: newer) -> StronglySorted (fun a b => (snd b <? snd a) = false) (x :: newer)) as Happ.
  { induction l as [|y l IH]; simpl; [done|]. intros [H _]%StronglySorted_inv. by apply IH. }
  apply Happ in Hs. apply StronglySorted_inv in Hs as [_ H]. eapply Forall_impl; [exact H|]. intros y Hy. simpl in Hy. bool_to_prop. lia.
Qed.

(** What cleaning up the sorted results of a journal drops was outlived. *)
Lemma outlived_drop c now files records id f :
  (forall r, r ∈ records -> exists f tail truncated, files !! r_OperationID r = Some f /\ (r = f \/ r = rec_output tail truncated f)) ->
  NoDup (r_OperationID <$> records) -> files !! id = Some f ->
  droppable c now (sort_by (fun a b => snd a <? snd b) ((fun r => (r_OperationID r, finish_of now r)) <$> records)) id -> outlived c now files id f.
Proof.
  intros Hsrc Hnd Hf (t & newer & Hsuf & Hor). set (pairs := (fun r => (r_OperationID r, finish_of now r)) <$> records) in *.
  set (results := sort_by _ pairs) in *. assert (results ≡ₚ pairs) as Hperm by apply sort_by_perm.
  assert (forall i u, (i, u) ∈ results -> exists g, files !! i = Some g /\ u = finish_of now g) as Hin.
  { intros i u Hi. rewrite Hperm in Hi. apply list_elem_of_fmap in Hi as (r & [= -> ->] & Hr).
    destruct (Hsrc r Hr) as (g & tail & tr & Hg & [->| ->]); by exists g. }
  assert (forall y, y ∈ (id, t) :: newer -> y ∈ results) as Hsub.
  { destruct Hsuf as [pre ->]. intros y Hy. apply elem_of_app. by right. }
  assert (t = finish_of now f) as Ht by (destruct (Hin id t) as (g & Hg & ->); [apply Hsub; by left | congruence]).
  destruct Hor as [Hexp|Hmax]; [left; by rewrite <- Ht | right]. exists (newer.*1).
  assert (NoDup ((id, t) :: newer).*1) as Hnd'.
  { assert (NoDup results.*1) as H by (rewrite Hperm; unfold pairs; rewrite <- list_fmap_compose; exact Hnd).
    destruct Hsuf as [pre ->]. rewrite fmap_app in H. by apply NoDup_app in H as (_ & _ & ?). }
  rewrite fmap_cons in Hnd'. apply NoDup_cons in Hnd' as [Hid Hnd']. split_and!; [done | done | by unfold lenZ; rewrite length_fmap|].
  intros i ([i' u] & -> & Hi)%list_elem_of_fmap. destruct (Hin i' u) as (g & Hg & ->); [apply Hsub; by right|]. exists g. split; [done|].
  assert (sorted_by (fun a b : string * time => snd a <? snd b) results) as Hs by (apply sort_by_sorted; intros x y ?; bool_to_prop; apply Z.ltb_ge; lia).
  pose proof (suffix_sorted _ _ _ Hs Hsuf) as Hall. rewrite Forall_forall in Hall. rewrite <- Ht. by apply (Hall _ Hi).
Qed.

(** The state after a successful recovery of the journal. *)
Lemma recoverJournal_effect w w' :
  inv w -> e_items (w_engine w) = ∅ -> e_results (w_engine w) = [] -> recoverJournal w = (Ok tt, w') ->
  steady w w' /\
  (forall id o, e_items (w_engine w') !! id = Some o ->
     exists f, w_files w !! id = Some f /\ recovered f (o_record o)) /\
  (forall id f, w_files w !! id = Some f -> e_items (w_engine w') !! id = None ->
     (c_auditor (e_config (w_engine w)) = false \/ r_ManagedAuditDelivery f = ManagedAuditDelivered) /\
     outlived (e_config (w_engine w)) (clock w) (w_files w) id f).
Proof.
  intros Hi Hempty Hresults. unfold recoverJournal, bind at 1, config at 1, gets at 1. rewrite (iv_journal _ Hi). cbn [negb].
  unfold bind at 1. destruct (Load w) as [[records|e] w2] eqn:EL; [|done]. pose proof (load_clock _ _ _ EL) as Hclock.
  apply Load_effect in EL as ([He2 Hf2] & Hsrc & Hall); [|done].
  unfold bind at 1. pose proof (frames_Now w2) as [He3 Hf3]. destruct (Now w2) as [[now|e] w3] eqn:EN; [|done]. simpl in He3, Hf3.
  apply Now_clock in EN. rewrite Hclock in EN. subst now. set (now := clock w) in *.
  assert (inv w3) as Hi3 by (apply (frame_inv w); [split; congruence | done]).
  unfold bind at 1. destruct (recover_loop now records w3) as [[[]|e] w4] eqn:E4; [|done].
  assert (inv w4) as Hi4.
  { replace w4 with (recover_loop now records w3).2 by (by rewrite E4). apply recover_loop_keeps; [|done].
    apply Forall_forall. intros r Hin. destruct (Hsrc r Hin) as (f & tail & tr & Hfile & [->| ->]).
    - apply (iv_files _ Hi _ _ Hfile).
    - apply rec_output_inv, (iv_files _ Hi _ _ Hfile). }
  apply recover_loop_effect in E4 as (Hs & Hsound & Hcompl & Hres & Hnd & _); [|done].
  rewrite He3, He2 in Hsound, Hcompl. rewrite Hempty in Hsound, Hcompl.
  unfold bind at 1, modify at 1. set (w5 := upd_engine _ w4).
  assert (inv w5) as Hi5 by (by apply (results_keeps (fun e => sort_by (fun a b => snd a <? snd b) (e_results e)))).
  intros E. pose proof (cleanupLocked_prunes now w5 Hi5) as [Hc Hp]. rewrite E in Hc, Hp. simpl in Hc, Hp.
  split_and!.
  - unfold steady in *. rewrite Hc. unfold control in Hs |- *. simpl. congruence.
  - intros id o Ho. assert (e_items (w_engine w4) !! id = Some o) as Ho4.
    { destruct (Hp id) as [[E0 _]|(E0 & _)]; simpl in E0; congruence. }
    destruct (Hsound id o Ho4) as [H|(r0 & Hin & Hid & Hr)]; [by rewrite lookup_empty in H|].
    destruct (Hsrc r0 Hin) as (f & tail & tr & Hfile & Hr0). exists f. rewrite <- Hid. split; [done|]. rewrite Hr.
    assert (recovered r0 (o_record o)) as Hrec by (rewrite Hr; eapply clip_recovered, recover_record_recovered).
    rewrite Hr in Hrec. destruct Hr0 as [->| ->]; [done | by eapply recovered_output].
  - intros id f Hfile Hnone. destruct (Hcompl id) as [o Ho4]; [right; apply Hall; eauto|].
    destruct (Hp id) as [[E0 _]|(_ & (x & Hx & Ht & Hpe) & _)]; simpl in *; [congruence|].
    rewrite Ho4 in Hx. injection Hx as <-. split.
    2: { apply (outlived_drop _ now (w_files w) records id f); [done | done | done|].
      pose proof (cleanup_loop_drops (length (e_results (w_engine w5))) now w5 id Hi5 ltac:(by eexists)) as Hd.
      unfold cleanupLocked, bind at 1, gets at 1 in E. rewrite E in Hd. specialize (Hd Hnone). simpl in Hd. injection Hs as Hcfg _ _ _ _.
      by rewrite Hres, Hcfg, He3, He2, Hresults in Hd. }
    destruct (Hsound id o Ho4) as [H|(r0 & Hin & Hid & Hr)]; [by rewrite lookup_empty in H|].
    destruct (c_auditor (e_config (w_engine w))) eqn:Ea; [right | by left].
    assert (r_ManagedAuditDelivery (o_record o) = ManagedAuditDelivered) as Hd.
    { pose proof (iv_items _ Hi4 _ _ Ho4) as Hop. injection Hs as Hcfg _ _ _ _.
      pose proof (oi_outbox _ _ _ Hop) as Hne. rewrite Hcfg, He3, He2 in Hne. specialize (Hne Ea Ht).
      pose proof (ri_valid _ _ (oi_rec _ _ _ Hop)) as Hv. unfold validateRecord in Hv. bool_to_prop.
      unfold op_pending in Hpe. apply bool_decide_eq_false in Hpe. by destruct (r_ManagedAuditDelivery (o_record o)). }
    rewrite Hr in Hd. apply recover_delivered in Hd as [Hd|]; [|done].
    destruct (Hsrc r0 Hin) as (f' & tail & tr & Hfile' & Hr0). rewrite Hid in Hfile'.
    assert (f' = f) as -> by congruence. by destruct Hr0 as [-> | ->].
Qed.

(** [C23] Restart: a new engine over the journal of any earlier run, including
    one that stopped in the middle, starts with no locks, no runners and
    admission open; every operation it knows comes from a journal record with
    the same specification; a record that was terminal keeps its status, result,
    error, end and revision; one that was not becomes INTERRUPTED with partial
    effects possible, keeping whether it had been committed or cancelled; no
    operation is left running; and every journaled operation is known again unless
    retention drops it: its audit record had been delivered or there is no auditor,
    and it ended longer ago than the retention time or at least the maximum number
    of results ended no earlier (an operation the restart interrupts ends now). *)
Theorem restart_contract c w0 w w' :
  reachable w0 -> w_files w = w_files w0 -> c_journal c = true -> New c w = (Ok tt, w') ->
  control (w_engine w') = (c, ∅, ∅, false, 0) /\
  (forall id o, e_items (w_engine w') !! id = Some o ->
     exists f, w_files w0 !! id = Some f /\ recovered f (o_record o)) /\
  (forall id f, w_files w0 !! id = Some f -> e_items (w_engine w') !! id = None ->
     (c_auditor c = false \/ r_ManagedAuditDelivery f = ManagedAuditDelivered) /\ outlived c (clock w) (w_files w0) id f).
Proof.
  intros Hr Hfiles Hj. unfold New. case_if; [done|]. unfold bind at 1, modify at 1. set (w1 := upd_engine _ w).
  assert (inv w1) as Hi1.
  { split; simpl; [done | rewrite Hfiles; apply (iv_files _ (reachable_inv _ Hr)) | apply map_Forall_empty |].
    split; simpl; try done. intros p id. rewrite lookup_empty. split; [done|].
    intros [(o & Ho & _)|Hl]; simpl in *; by rewrite lookup_empty in *. }
  unfold bind. destruct (recoverJournal w1) as [[[]|e] w2] eqn:E2; [|done].
  assert (inv w2) as Hi2 by (pose proof (recoverJournal_keeps w1 Hi1) as H; by rewrite E2 in H).
  apply recoverJournal_effect in E2 as (Hs & Hsound & Hcompl); [|done..].
  change (w_files w1) with (w_files w) in *. rewrite Hfiles in *.
  intros E. pose proof (Replay_steady w2) as Hs3. pose proof (Replay_retains w2) as [Hk3 _].
  pose proof (Replay_evolving w2 Hi2) as Hev. rewrite E in Hs3, Hk3, Hev. simpl in Hs3, Hk3, Hev. split_and!.
  - unfold steady in *. rewrite Hs3, Hs. done.
  - intros id o Ho. destruct (Hev id o Ho) as (o2 & Ho2 & Hevo). destruct (Hsound id o2 Ho2) as (f & Hf & Hrec).
    exists f. split; [done|]. eapply recovered_frozen; [exact Hrec|]. apply Hevo, Hrec.
  - intros id f Hf Hnone. apply (Hcompl id f); [done|]. destruct (e_items (w_engine w2) !! id) eqn:E0; [|done].
    destruct (Hk3 id) as [x Hx]; [eauto | congruence].
Qed.

Lemma restart_contract_witness :
  exists w', New demo_config (demo demo_running) = (Ok tt, w') /\
  control (w_engine w') = (demo_config, ∅, ∅, false, 0) /\
  r_Status ∘ o_record <$> e_items (w_engine w') !! "op-1" = Some StatusInterrupted.
Proof.
  assert (reachable (demo demo_running)) as H by (by apply demo_reachable).
  assert (r_Status ∘ o_record <$> e_items (w_engine (New demo_config (demo demo_running)).2) !! "op-1"
    = Some StatusInterrupted) as Hst by (by vm_compute).
  destruct (New demo_config (demo demo_running)) as [r w'] eqn:E.
  assert (r = Ok tt) as -> by (apply (f_equal fst) in E; vm_compute in E; by rewrite <- E).
  exists w'. split; [done|].
  split; [exact (proj1 (restart_contract demo_config (demo demo_running) (demo demo_running) w' H eq_refl eq_refl E))|].
  exact Hst.
Defined.

(** ** Shutdown *)

(** Nothing more can be done to stop the operation. *)
Definition stopping (r : Record_) : Prop :=
  Terminal (r_Status r) = true \/ is_zero (r_CancelRequestedAt r) = false \/
  (r_CancelMode r = CancelBeforeCommit /\ is_zero (r_CommitStartedAt r) = false).

Lemma stopping_evo r r' :
  stopping r -> evo r r' -> r_CancelMode r' = r_CancelMode r -> stopping r'.
Proof.
  intros Hs He Hm. destruct Hs as [H|[H|[H1 H2]]].
  - left. by rewrite (frozen_status r r'); [|apply He].
  - right. left. by rewrite (ev_cancel _ _ He H).
  - right. right. rewrite Hm, (ev_commit _ _ He H2). done.
Qed.

Lemma item_mode w id o :
  inv w -> e_items (w_engine w) !! id = Some o -> r_CancelMode (o_record o) = cancelModeForType (sp_Type (spec_of (o_record o))).
Proof.
  intros Hi Ho. by destruct (validate_inv _ (ri_valid _ _ (oi_rec _ _ _ (iv_items _ Hi _ _ Ho)))) as (_ & _ & -> & _).
Qed.

Lemma stopping_later w w' id o o' :
  inv w -> inv w' -> e_items (w_engine w) !! id = Some o -> e_items (w_engine w') !! id = Some o' ->
  evo (o_record o) (o_record o') -> stopping (o_record o) -> stopping (o_record o').
Proof.
  intros Hi Hi' Ho Ho' He Hs. eapply stopping_evo; [exact Hs | exact He |].
  by rewrite (item_mode w' id o'), (item_mode w id o), (ev_spec _ _ He).
Qed.

Lemma cancel_stops id reason w r w' :
  inv w -> CancelWithError id reason w = (Ok r, w') -> snd r = None ->
  forall o', e_items (w_engine w') !! id = Some o' -> stopping (o_record o').
Proof.
  intros Hi. unfold CancelWithError, bind at 1, gets. destruct (e_items (w_engine w) !! id) as [o|] eqn:Eo.
  2: { intros [= <- <-] _ o' Ho'. congruence. }
  intros E Hn o' Ho'. destruct r as [outcome err]. simpl in Hn. subst err.
  destruct (op_cancel_outcome id reason w outcome None w' Hi E) as (x & x' & Hx & Hx' & H).
  rewrite Hx' in Ho'. injection Ho' as <-. destruct outcome.
  - destruct H as (_ & Hz & _). right. by left.
  - destruct H as (-> & _ & Hm & Hz). assert (x' = x) as -> by congruence. right. by right.
  - done.
  - destruct H as (-> & _ & Ht). assert (x' = x) as -> by congruence. by left.
  - by destruct H as [_ [? ?]].
Qed.

Lemma cancel_loop_stops ids err w w' :
  inv w -> cancel_loop ids err w = (Ok None, w') ->
  err = None /\ inv w' /\ evolves w w' /\
  forall id, id ∈ ids -> forall o', e_items (w_engine w') !! id = Some o' -> stopping (o_record o').
Proof.
  revert err w. induction ids as [|id ids IH]; intros err w Hi; cbn [cancel_loop].
  { intros [= -> <-]. split_and!; [done | done | reflexivity |]. intros id H. by apply elem_of_nil in H. }
  unfold bind. destruct (CancelWithError id CancelReasonAgentShutdown w) as [[r|e] w1] eqn:E1; [|done].
  pose proof (CancelWithError_keeps id CancelReasonAgentShutdown w Hi) as Hi1. rewrite E1 in Hi1. simpl in Hi1.
  pose proof (CancelWithError_evolving id CancelReasonAgentShutdown w Hi) as Hev1. rewrite E1 in Hev1. simpl in Hev1.
  intros E. apply IH in E as (Herr & Hi' & Hev & Hids); [|done].
  destruct (snd r) eqn:Er; [done|]. split_and!; [done | done | by etransitivity |].
  intros i [->|Hin]%elem_of_cons o' Ho'; [|by apply (Hids i)].
  destruct (Hev id o' Ho') as (o1 & Ho1 & Hevo).
  apply (stopping_later w1 w' id o1 o'); auto. by apply (cancel_stops id CancelReasonAgentShutdown w r w1).
Qed.

(** Shutdown: once its first part has run without an error, admission is
    closed, and every operation has ended, has been asked to cancel, or has
    passed the point after which it can only be left to finish; no operation is
    given a made-up result. *)
Theorem shutdown_contract w w' :
  reachable w -> shutdown_begin w = (Ok None, w') ->
  e_shuttingDown (w_engine w') = true /\
  forall id o', e_items (w_engine w') !! id = Some o' ->
    stopping (o_record o') /\
    exists o, e_items (w_engine w) !! id = Some o /\ evo (o_record o) (o_record o').
Proof.
  intros Hr%reachable_inv. unfold shutdown_begin, bind at 1, modify at 1. set (w1 := upd_engine _ w).
  assert (inv w1) as Hi1 by (by apply (lifecycle_keeps (fun e => (true, e_runnerCount e)))).
  unfold bind at 1, gets at 1. intros E.
  assert (e_shuttingDown (w_engine w') = true) as Hdown.
  { assert (forall ids err w2, e_shuttingDown (w_engine w2) = true -> forall x w3, cancel_loop ids err w2 = (x, w3) ->
      e_shuttingDown (w_engine w3) = true) as H; [|exact (H _ _ w1 eq_refl _ _ E)].
    clear. induction ids as [|id ids IH]; intros err w2 Hd x w3; cbn [cancel_loop]; [by intros [= _ <-]|].
    unfold bind. assert (steady w2 (CancelWithError id CancelReasonAgentShutdown w2).2) as Hs.
    { assert (moves steady (CancelWithError id CancelReasonAgentShutdown)) as Hm; [|apply Hm].
      unfold CancelWithError, op_cancel, putOp. steady_steps. }
    injection Hs as _ _ _ Hsd _.
    destruct (CancelWithError id CancelReasonAgentShutdown w2) as [[r|e] w4]; simpl in Hsd.
    - intros E. eapply IH; [|exact E]. congruence.
    - intros [= _ <-]. congruence. }
  apply cancel_loop_stops in E as (_ & Hi' & Hev & Hids); [|done]. split; [done|].
  intros id o' Ho'. destruct (Hev id o' Ho') as (o & Ho & Hevo). split; [|by exists o].
  destruct (op_terminal o) eqn:Et.
  - apply (stopping_later w1 w' id o o'); auto. by left.
  - apply (Hids id); [|done]. unfold active_ids. rewrite sort_by_perm. apply list_elem_of_fmap. exists (id, o).
    split; [done|]. apply list_elem_of_In, filter_In. split; [|simpl; by rewrite Et].
    by apply list_elem_of_In, elem_of_map_to_list.
Qed.

Lemma shutdown_contract_witness :
  exists w', shutdown_begin (demo demo_running) = (Ok None, w') /\ e_shuttingDown (w_engine w') = true.
Proof.
  assert (reachable (demo demo_running)) as H by (by apply demo_reachable).
  destruct (shutdown_begin (demo demo_running)) as [r w'] eqn:E.
  assert (r = Ok None) as -> by (apply (f_equal fst) in E; vm_compute in E; by rewrite <- E).
  exists w'. split; [done|]. exact (proj1 (shutdown_contract (demo demo_running) w' H E)).
Defined.
