(* ===== verification/AgentEviction.v ===== *)
(** * Eviction over the Agent's directories

    Composes [EvictionExecutor] ([internal/agentstorage/eviction.go]) with the
    subsystems it runs over: the audit log with its directory, the operation
    engine with its journal and the backups. Each reclaimer acts on the state of
    its own subsystem, in its own directory. [ReclaimAbandonedTempForDiskPressure]
    of the log ([internal/auditwal/operations.go]) is modelled here, over all the
    entries of the log's directory. The temporary files of the operation journal
    and the staging of the projects are reclaimed in directories of their own by
    functions that stay parameters. *)

From Stdlib Require Import Ascii.
From S2P Require Import Prelude Cursor WalFrame WalMeta WalNames Wal WalInv WalProps WalOpen WalSpec WalDisk GoText Paths WalOnce DiskBudget AgentStorage.
From S2P Require Backup Engine EngineSpec.

(** ** The directory of the log *)

Definition metadataFile : string := "coverage-state.json".

(** The log and its receipts, and the names of the entries that are not regular
    files. Abandoned temporary files are among the files of the log. *)
Record waldir := mkDir { wd_log : osys; wd_irregular : gset string }.

Definition dirM := M waldir walErr.

Definition on_log {A} (m : walM A) : dirM A := fun d =>
  let '(r, o') := on_wal m (wd_log d) in (r, mkDir o' (wd_irregular d)).

Definition dir_files (d : waldir) : gmap string (list Z) := d_files (s_disk (os_sys (wd_log d))).
Definition dir_meta (d : waldir) : option metadata := d_meta (s_disk (os_sys (wd_log d))).

(** [os.ReadDir] sorts by name. *)
Definition dir_names (d : waldir) : list string :=
  sort_by name_less ((fst <$> map_to_list (dir_files d)) ++ (fst <$> map_to_list (os_receipts (wd_log d)))
    ++ (match dir_meta d with Some _ => [metadataFile] | None => [] end) ++ elements (wd_irregular d)).

Definition abandoned_temp (name : string) : bool :=
  HasSuffix name ".tmp" && (HasPrefix name ".coverage-state-" || HasPrefix name ".once-").

(** The size of a regular file. The lengths of the receipts and of the metadata,
    which are kept decoded, count as zero; none of them is selected. *)
Definition entry_size (d : waldir) (name : string) : option Z :=
  match dir_files d !! name with
  | Some data => Some (lenZ data)
  | None => if bool_decide (is_Some (os_receipts (wd_log d) !! name)) || (bool_decide (name = metadataFile) && bool_decide (is_Some (dir_meta d)))
            then Some 0 else None
  end.

(** [os.Lstat]: nothing for an entry that is not a regular file. *)
Definition lstat (name : string) : dirM (option Z) :=
  on_log syscall ;;;
  let* d := get in
  if bool_decide (name ∈ wd_irregular d) then ret None
  else match entry_size d name with Some n => ret (Some n) | None => fail ErrNotExist end.

Definition without_entry (name : string) (d : waldir) : waldir :=
  let s := os_sys (wd_log d) in
  let meta := if bool_decide (name = metadataFile) then None else d_meta (s_disk s) in
  mkDir (mkOsys (mkSys (s_wal s) (mkDisk meta (delete name (d_files (s_disk s)))) (s_outcomes s)) (delete name (os_receipts (wd_log d))))
    (wd_irregular d ∖ {[name]}).

Definition remove_entry (name : string) : dirM unit := on_log syscall ;;; modify (without_entry name).

(** The loop over the entries; it returns with an error, or ends. *)
Fixpoint temp_loop (bytesNeeded freed : Z) (names : list string) : dirM (Z * option walErr) :=
  match names with
  | [] => ret (freed, None)
  | name :: names' =>
    if freed >=? bytesNeeded then ret (freed, None)
    else
      let* live := attempt (on_log ctxErr) in
      match live with
      | Err e => ret (freed, Some e)
      | Ok _ =>
        if negb (abandoned_temp name) then temp_loop bytesNeeded freed names'
        else
          let* info := attempt (lstat name) in
          match info with
          | Err e => ret (freed, Some e)
          | Ok None => ret (freed, Some ErrInvariant)
          | Ok (Some size) =>
            let* removed := attempt (remove_entry name) in
            match removed with
            | Err e => ret (freed, Some e)
            | Ok _ => temp_loop bytesNeeded (freed + size) names'
            end
          end
      end
  end.

(** [ReclaimAbandonedTempForDiskPressure] of the log *)
Definition ReclaimAbandonedTemp (bytesNeeded : Z) : dirM (Z * option walErr) :=
  let* d := get in
  if w_closed (s_wal (os_sys (wd_log d))) then ret (0, Some ErrClosed)
  else if bytesNeeded <=? 0 then ret (0, None)
  else
    let* listed := attempt (on_log syscall) in
    match listed with
    | Err e => ret (0, Some e)
    | Ok _ =>
      let* result := temp_loop bytesNeeded 0 (dir_names d) in
      let '(freed, err) := result in
      match err with
      | Some e => ret (freed, Some e)
      | None =>
        if freed >? 0 then
          let* synced := attempt (on_log syncDirectory) in
          match synced with Ok _ => ret (freed, None) | Err e => ret (freed, Some e) end
        else ret (freed, None)
      end
    end.

(** ** What is removed *)

(** Nothing but abandoned temporary files goes. *)
Record temps_only (d d' : waldir) : Prop := {
  to_wal : s_wal (os_sys (wd_log d')) = s_wal (os_sys (wd_log d));
  to_meta : dir_meta d' = dir_meta d;
  to_files : forall name, abandoned_temp name = false -> dir_files d' !! name = dir_files d !! name;
  to_receipts : forall name, abandoned_temp name = false -> os_receipts (wd_log d') !! name = os_receipts (wd_log d) !! name;
  to_outcomes : s_outcomes (os_sys (wd_log d')) `suffix_of` s_outcomes (os_sys (wd_log d));
}.

#[export] Instance temps_only_pre : PreOrder temps_only.
Proof.
  split; [by intros d | intros a b c [W1 M1 F1 R1 O1] [W2 M2 F2 R2 O2]]. split; [congruence | congruence | | | by etransitivity].
  - intros n Hn. by rewrite F2, F1.
  - intros n Hn. by rewrite R2, R1.
Qed.

Definition tempwise {A} (m : dirM A) : Prop := forall d, temps_only d (m d).2.

Lemma tempwise_bind {A B} (m : dirM A) (f : A -> dirM B) : tempwise m -> (forall a, tempwise (f a)) -> tempwise (bind m f).
Proof. intros Hm Hf d. unfold bind. specialize (Hm d). destruct (m d) as [[a|e] d1]; [|done]. etransitivity; [exact Hm | apply Hf]. Qed.
Lemma tempwise_attempt {A} (m : dirM A) : tempwise m -> tempwise (attempt m).
Proof. intros Hm d. unfold attempt. specialize (Hm d). by destruct (m d). Qed.
Lemma tempwise_ret {A} (a : A) : tempwise (ret a).
Proof. intros d. simpl. reflexivity. Qed.
Lemma tempwise_fail {A} e : tempwise (fail e : dirM A).
Proof. intros d. simpl. reflexivity. Qed.
Lemma tempwise_get : tempwise get.
Proof. intros d. simpl. reflexivity. Qed.
(** A call that is no more than a call. *)
Lemma tempwise_call {A} (m : walM A) : same_wal m -> (forall s, s_disk (m s).2 = s_disk s) -> calm m -> tempwise (on_log m).
Proof.
  intros Hw Hd Hc d. unfold on_log, on_wal. specialize (Hw (os_sys (wd_log d))). specialize (Hd (os_sys (wd_log d))). destruct (Hc (os_sys (wd_log d))) as [_ Ho].
  destruct (m (os_sys (wd_log d))) as [r s']. simpl in *. split; unfold dir_meta, dir_files; simpl; rewrite ?Hd; done.
Qed.

Create HintDb tempwise discriminated.
#[export] Hint Resolve tempwise_attempt tempwise_ret tempwise_fail tempwise_get : tempwise.
#[export] Hint Extern 2 (tempwise (bind _ _)) => (apply tempwise_bind; [|intros]) : tempwise.
#[export] Hint Extern 2 (tempwise (if ?b then _ else _)) => (destruct b) : tempwise.
#[export] Hint Extern 3 (tempwise (match ?x with _ => _ end)) => (destruct x) : tempwise.

Lemma syscall_disk s : s_disk (syscall s).2 = s_disk s.
Proof. unfold syscall, bind, next_outcome. by destruct (s_outcomes s) as [|[]]. Qed.
Lemma ctxErr_disk s : s_disk (ctxErr s).2 = s_disk s.
Proof. unfold ctxErr, bind, next_outcome. by destruct (s_outcomes s) as [|[]]. Qed.
Lemma tempwise_syscall : tempwise (on_log syscall).
Proof. apply tempwise_call; [auto with samewal | apply syscall_disk | auto with calm]. Qed.
Lemma tempwise_ctxErr : tempwise (on_log ctxErr).
Proof. apply tempwise_call; [auto with samewal | apply ctxErr_disk | auto with calm]. Qed.
Lemma tempwise_syncDirectory : tempwise (on_log syncDirectory).
Proof.
  apply tempwise_call; [auto with samewal | | auto with calm]. intros s. unfold syncDirectory, bind. pose proof (syscall_disk s) as H.
  destruct (syscall s) as [[u|e] s1]; [|done]. simpl in H. by rewrite syscall_disk.
Qed.
#[export] Hint Resolve tempwise_syscall tempwise_ctxErr tempwise_syncDirectory : tempwise.

Lemma tempwise_remove name : abandoned_temp name = true -> tempwise (remove_entry name).
Proof.
  intros Hn. unfold remove_entry. apply tempwise_bind; [auto with tempwise|]. intros _ d. unfold modify. simpl.
  assert (name <> metadataFile) as Hm by (intros ->; done).
  split; unfold dir_meta, dir_files; simpl; try done.
  - by rewrite bool_decide_eq_false_2.
  - intros n Hne. apply lookup_delete_ne. congruence.
  - intros n Hne. apply lookup_delete_ne. congruence.
Qed.

Lemma tempwise_loop need names : forall freed, tempwise (temp_loop need freed names).
Proof.
  induction names as [|name names IH]; intros freed; cbn [temp_loop]; [auto with tempwise|]. destruct (freed >=? need); [auto with tempwise|].
  apply tempwise_bind; [auto with tempwise|]. intros [u|e]; [|auto with tempwise]. destruct (abandoned_temp name) eqn:En; cbn [negb]; [|apply IH].
  apply tempwise_bind; [apply tempwise_attempt; unfold lstat; auto 10 with tempwise|]. intros [[size|]|e]; [|auto with tempwise..].
  apply tempwise_bind; [apply tempwise_attempt; by apply tempwise_remove|]. intros [u'|e]; [apply IH | auto with tempwise].
Qed.
#[export] Hint Resolve tempwise_loop : tempwise.

Lemma tempwise_reclaim need : tempwise (ReclaimAbandonedTemp need).
Proof. unfold ReclaimAbandonedTemp. auto 20 with tempwise. Qed.

(** No segment file and no receipt is a temporary file. *)
Lemma segment_not_temp name : is_segment_file name = true -> abandoned_temp name = false.
Proof.
  unfold is_segment_file, abandoned_temp, HasPrefix. intros [Hp _]%andb_true_iff. apply andb_false_iff. right.
  destruct name as [|c name]; [done|]. unfold String.prefix in *. fold String.prefix in *. destruct (ascii_dec "s" c) as [<-|]; [done|]. done.
Qed.
Lemma receipt_not_temp key : abandoned_temp (onceReceiptName key) = false.
Proof. unfold abandoned_temp, HasPrefix, onceReceiptName. apply andb_false_iff. by right. Qed.

(** The log survives the removal of temporary files. *)
Lemma temps_only_holds d d' ess : temps_only d d' -> wal_inv (s_wal (os_sys (wd_log d))) -> holds (os_sys (wd_log d)) ess -> holds (os_sys (wd_log d')) ess.
Proof.
  intros [W _ F _ [os O]] Hi [H1 H2 H3 H4 H5]. unfold dir_files in F.
  assert (forall p, is_segment_file p = true -> d_files (s_disk (os_sys (wd_log d'))) !! p = d_files (s_disk (os_sys (wd_log d))) !! p) as Hf
    by (intros p Hp; by apply F, segment_not_temp).
  split; rewrite ?W; try done.
  - pose proof (wi_segs _ Hi) as Hok. clear -H1 Hok Hf. induction H1 as [|seg es segs ess Hh _ IH]; constructor; apply Forall_cons in Hok as [Hso Hok]; [|auto].
    eapply seg_holds_files; [exact Hh|]. apply Hf. destruct (parseSegmentName_inv _ _ (so_path _ Hso)) as [_ ->]. apply segmentName_is_file.
  - intros p Hp Hin. rewrite Hf in Hin by done. destruct (H3 p Hp Hin) as [?|[S1 S2 S3 S4]]; [by left|]. right. split; rewrite ?W, ?Hf; done.
  - rewrite O in H5. by apply Forall_app in H5 as [_ ?].
Qed.

(** ** The world of the executor *)

Section World.
Context {X Y X_err Y_err : Type}.

(** The log's directory, the operation engine with its journal, the backups, the
    temporary files of the operation journal, the staging of the projects. *)
Record agent_world := mkAgent {
  aw_log : waldir;
  aw_operations : Engine.world;
  aw_backups : Backup.bworld;
  aw_journal_temp : X;
  aw_staging : Y;
}.

Inductive agentErr :=
| FromWal (e : walErr) | FromOperations (e : Engine.opErr) | FromBackups (e : Backup.bkErr)
| FromJournal (e : X_err) | FromStaging (e : Y_err) | FromExecutor.

(** A monadic operation that returns what it freed, as a reclaimer. *)
Definition reclaimer_of {S E} (m : Z -> M S E (Z * option E)) : Reclaimer S E := fun n s =>
  match m n s with (Ok r, s') => (r, s') | (Err e, s') => ((0, Some e), s') end.

Definition wal_result (m : walM (Wal.ReclaimResult * option walErr)) : dirM (Z * option walErr) :=
  let* r := on_log m in ret (rr_FreedBytes (fst r), snd r).

Definition log_part (m : Z -> dirM (Z * option walErr)) : Reclaimer agent_world agentErr :=
  lift_reclaimer aw_log (fun d w => mkAgent d (aw_operations w) (aw_backups w) (aw_journal_temp w) (aw_staging w)) FromWal (reclaimer_of m).
Definition operations_part (m : Z -> Engine.opM (Z * option Engine.opErr)) : Reclaimer agent_world agentErr :=
  lift_reclaimer aw_operations (fun e w => mkAgent (aw_log w) e (aw_backups w) (aw_journal_temp w) (aw_staging w)) FromOperations (reclaimer_of m).
Definition backups_part (m : Z -> Backup.bkM (Z * option Backup.bkErr)) : Reclaimer agent_world agentErr :=
  lift_reclaimer aw_backups (fun b w => mkAgent (aw_log w) (aw_operations w) b (aw_journal_temp w) (aw_staging w)) FromBackups (reclaimer_of m).
Definition journal_part : Reclaimer X X_err -> Reclaimer agent_world agentErr :=
  lift_reclaimer aw_journal_temp (fun x w => mkAgent (aw_log w) (aw_operations w) (aw_backups w) x (aw_staging w)) FromJournal.
Definition staging_part : Reclaimer Y Y_err -> Reclaimer agent_world agentErr :=
  lift_reclaimer aw_staging (fun y w => mkAgent (aw_log w) (aw_operations w) (aw_backups w) (aw_journal_temp w) y) FromStaging.

(** What is not modelled: the sizes of files kept decoded, and the two reclaimers. *)
Context (op_sizes : string -> Z * Z) (stored_bytes : Backup.stored -> Z) (journal_bytes : option Backup.restoreJournal -> Z).
Context (reclaim_journal_temp : Reclaimer X X_err) (reclaim_staging : Reclaimer Y Y_err).

(** [NewEvictionExecutor] with the Agent's subsystems *)
Definition agent_eviction (now : time) (keep : Z) : EvictionConfig agent_world agentErr :=
  mkEviction (staging_part reclaim_staging) (journal_part reclaim_journal_temp)
    (backups_part (Backup.ReclaimAbandonedTempForDiskPressure stored_bytes journal_bytes))
    (log_part ReclaimAbandonedTemp)
    (log_part (fun n => wal_result (ReclaimACKedForDiskPressure now n)))
    (operations_part (Engine.ReclaimExpiredForDiskPressure op_sizes))
    (fun keep => backups_part (fun n => Backup.ReclaimExcessAutomaticForDiskPressure stored_bytes n keep))
    (backups_part (Backup.ReclaimOldAutomaticForDiskPressure stored_bytes))
    (log_part (fun n => wal_result (ReclaimUnackedForDiskPressure now n))) keep.

(** ** The log through an eviction *)

Record log_kept (ess : list (list entry)) (d d' : waldir) : Prop := {
  lk_safe : safe_post (s_wal (os_sys (wd_log d))) (s_wal (os_sys (wd_log d')));
  lk_files : exists k, holds (os_sys (wd_log d')) (drop k ess);
  lk_receipts : forall key, os_receipts (wd_log d') !! onceReceiptName key = os_receipts (wd_log d) !! onceReceiptName key;
}.

Definition dir_safe (d d' : waldir) : Prop :=
  forall ess, wal_inv (s_wal (os_sys (wd_log d))) -> holds (os_sys (wd_log d)) ess -> log_kept ess d d'.

#[export] Instance dir_safe_pre : PreOrder dir_safe.
Proof.
  split.
  - intros d ess Hi Hh. split; [|exists 0%nat; by rewrite drop_0|done]. by apply (reflexivity (R := safe)).
  - intros a b c H1 H2 ess Hi Hh. destruct (H1 ess Hi Hh) as [S1 [k1 F1] R1]. destruct (H2 _ (sp_inv _ _ _ S1) F1) as [S2 [k2 F2] R2]. split.
    + assert (safe (s_wal (os_sys (wd_log a))) (s_wal (os_sys (wd_log c)))) as H; [|by apply H].
      etransitivity; [intros _; exact S1 | intros _; exact S2].
    + exists (k1 + k2)%nat. by rewrite drop_drop in F2.
    + intros key. by rewrite R2, R1.
Qed.

Definition log_safe (w w' : agent_world) : Prop := dir_safe (aw_log w) (aw_log w').
#[export] Instance log_safe_pre : PreOrder log_safe.
Proof. split; [intros w | intros a b c H1 H2]; unfold log_safe in *; [reflexivity | by etransitivity]. Qed.

(** A reclaimer of another subsystem. *)
Lemma other_law {S E'} (get_ : agent_world -> S) put embed (r : Reclaimer S E') : (forall s w, aw_log (put s w) = aw_log w) ->
  ReclaimerLaw log_safe (lift_reclaimer get_ put embed r : Reclaimer agent_world agentErr).
Proof. intros H n w. unfold log_safe, lift_reclaimer. destruct (r n (get_ w)) as [[freed err] s']. simpl. rewrite H. reflexivity. Qed.

Lemma log_part_law m : (forall n d, dir_safe d (m n d).2) -> ReclaimerLaw log_safe (log_part m).
Proof.
  intros H n w. unfold log_safe, log_part, lift_reclaimer, reclaimer_of. specialize (H n (aw_log w)).
  by destruct (m n (aw_log w)) as [[[freed err]|e] d'].
Qed.

Lemma temp_dir_safe n d : dir_safe d (ReclaimAbandonedTemp n d).2.
Proof.
  intros ess Hi Hh. pose proof (tempwise_reclaim n d) as H. split.
  - rewrite (to_wal _ _ H). by apply (reflexivity (R := safe)).
  - exists 0%nat. rewrite drop_0. by eapply temps_only_holds.
  - intros key. apply (to_receipts _ _ H), receipt_not_temp.
Qed.

Lemma wal_result_safe m d : safe_step m -> shrinks m -> dir_safe d (wal_result m d).2.
Proof.
  intros Hs Hk ess Hi Hh. unfold wal_result, bind, on_log, on_wal. specialize (Hs (os_sys (wd_log d)) Hi). destruct (Hk _ ess Hh) as [k Hk'].
  destruct (m (os_sys (wd_log d))) as [[r|e] s']; simpl in *; split; eauto.
Qed.

Lemma agent_eviction_law now keep : eviction_law log_safe (agent_eviction now keep).
Proof.
  split; simpl; try (apply other_law; done); apply log_part_law; intros n d.
  - apply temp_dir_safe.
  - apply wal_result_safe; [apply ReclaimACKed_safe; apply _|]. unfold ReclaimACKedForDiskPressure. auto 20 with shrinks.
  - apply wal_result_safe; [apply ReclaimUnacked_safe; apply _|]. unfold ReclaimUnackedForDiskPressure. auto 20 with shrinks.
Qed.

(** [C39] Disk-pressure eviction over the Agent's subsystems never loses an audit
    record silently. Take a log as any life of it leaves it - operations, failing
    calls (a failing write writing nothing), crashes and reopenings -, whatever
    else is in its directory, and any state of the operations, the backups, the
    journal's temporary files and the staging: whichever calls of the eviction run
    fail, afterwards every record the log held is still in a live segment, is
    acknowledged or is recorded as lost in the coverage; the segment files hold
    exactly the records of the live segments, a suffix of those before; the
    receipts of all keys are there; and the invariant of the log holds. The log's
    own removal of temporary files leaves every other file, the metadata and the
    log in memory as they are. *)
Theorem eviction_keeps_audit `{Environment agent_world agentErr} now keep need w es :
  log_life (os_sys (wd_log (aw_log w))) es ->
  let w' := (evict FromExecutor (agent_eviction now keep) need w).2 in
  safe_post (s_wal (os_sys (wd_log (aw_log w)))) (s_wal (os_sys (wd_log (aw_log w')))) /\
  contents (os_sys (wd_log (aw_log w'))) `suffix_of` contents (os_sys (wd_log (aw_log w))) /\
  (forall seg, seg ∈ w_segments (s_wal (os_sys (wd_log (aw_log w')))) -> is_Some (dir_files (aw_log w') !! seg_path seg)) /\
  (forall key, os_receipts (wd_log (aw_log w')) !! onceReceiptName key = os_receipts (wd_log (aw_log w)) !! onceReceiptName key) /\
  forall n, temps_only (aw_log w) (ReclaimAbandonedTemp n (aw_log w)).2.
Proof.
  intros Hl w'. destruct (log_life_intact _ _ Hl) as (ess & Hi & Hh & _).
  destruct (evict_law FromExecutor log_safe _ need w (agent_eviction_law now keep) ess Hi Hh) as [Hs [k Hk] Hr]. fold w' in Hs, Hk, Hr.
  split_and!; [done | | | done | intros n; apply tempwise_reclaim].
  - rewrite (holds_contents _ _ Hh), (holds_contents _ _ Hk). apply mjoin_drop.
  - intros seg [i Hseg]%list_elem_of_lookup_1. destruct (Forall2_lookup_l _ _ _ _ _ (ho_segs _ _ Hk) Hseg) as (x & _ & Hx).
    unfold dir_files. rewrite (sh_file _ _ _ _ Hx). eauto.
Qed.
End World.

(** ** An eviction *)

(** A log with two records, opened over an abandoned temporary file, the second
    record in a segment of its own. *)
Definition evict_log : sys :=
  ops_run [OpAppend 1 [1; 2; 3]; OpAppend 2 [4; 5]]
    (Open "agent" 1 demo_options demo_options 0 (mkSys (s_wal (demo_start [])) (mkDisk None {[ ".once-1.tmp" := [7; 7; 7; 7] ]}) [])).2.
Definition evict_world : agent_world (X := unit) (Y := unit) :=
  mkAgent (mkDir (mkOsys evict_log ∅) ∅) EngineSpec.demo_start (Backup.mkBworld (Backup.mkDisk ∅ ∅ ∅) ∅ [] []) tt tt.
Definition evict_env : Environment (agent_world (X := unit) (Y := unit)) (agentErr (X_err := unit) (Y_err := unit)) :=
  Build_Environment _ _ (fun _ => None) (fun _ => Err FromExecutor).
Definition evict_run (need : Z) :=
  evict (H := evict_env) FromExecutor (agent_eviction (fun _ => (0, 0)) (fun _ => 0) (fun _ => 0) idle idle 5 20) need evict_world.

Lemma evict_life : exists es, log_life evict_log es.
Proof.
  set (s0 := mkSys (s_wal (demo_start [])) (mkDisk None {[ ".once-1.tmp" := [7; 7; 7; 7] ]}) []).
  assert (log_life (Open "agent" 1 demo_options demo_options 0 s0).2 []) as H0.
  { eapply (life_open "agent" 1 demo_options demo_options 0 s0); [split; [apply map_Forall_singleton; repeat constructor; lia | done] | done | constructor | | vm_compute; reflexivity].
    intros p Hp. apply lookup_singleton_ne. intros <-. done. }
  eexists. exact (life_op (OpAppend 2 [4; 5]) _ _ (life_op (OpAppend 1 [1; 2; 3]) _ _ H0 I ltac:(done)) I ltac:(done)).
Qed.

(** Four bytes are found in the temporary file; for more, the first record goes and
    is recorded as lost. *)
Lemma eviction_keeps_audit_witness :
  (contents evict_log = [mkEntry (mkCursor 1 1) 1 [1; 2; 3]; mkEntry (mkCursor 1 2) 2 [4; 5]] /\
   dir_files (aw_log (evict_run 4).2) !! ".once-1.tmp" = None /\ contents (os_sys (wd_log (aw_log (evict_run 4).2))) = contents evict_log) /\
  contents (os_sys (wd_log (aw_log (evict_run 20).2))) = [mkEntry (mkCursor 1 2) 2 [4; 5]] /\
  safe_post (s_wal evict_log) (s_wal (os_sys (wd_log (aw_log (evict_run 20).2)))).
Proof.
  split; [split_and!; vm_compute; reflexivity|]. split; [vm_compute; reflexivity|]. destruct evict_life as [es Hl].
  destruct (eviction_keeps_audit (fun _ => (0, 0)) (fun _ => 0) (fun _ => 0) idle idle (H := evict_env) 5 20 20 evict_world es Hl) as [H _]. exact H.
Defined.
