(* ===== verification/AgentId.v ===== *)
(** * Agent identities

    Models [internal/agentid/agentid.go]: the canonical lower-case UUIDv4 text
    of an Agent ID, its parser and its generator. The random bytes are an
    argument of [New]. *)

From Stdlib Require Import Ascii.
From S2P Require Import Prelude.

(** ** Hexadecimal text *)

Definition hexDigit (n : Z) : ascii := ascii_of_nat (Z.to_nat (if n <? 10 then n + 48 else n + 87)).

Definition isHex (a : ascii) : bool :=
  let n := nat_of_ascii a in
  ((48 <=? n)%nat && (n <=? 57)%nat) || ((97 <=? n)%nat && (n <=? 102)%nat).

Definition hexValue (a : ascii) : Z :=
  let n := Z.of_nat (nat_of_ascii a) in if n <=? 57 then n - 48 else n - 87.

(** [hex.Encode] and [hex.Decode]. *)
Fixpoint hexEncode (raw : list Z) : list ascii :=
  match raw with
  | [] => []
  | b :: raw' => hexDigit (Z.shiftr b 4) :: hexDigit (Z.land b 15) :: hexEncode raw'
  end.

Fixpoint hexDecode (l : list ascii) : list Z :=
  match l with
  | hi :: lo :: l' => (hexValue hi * 16 + hexValue lo) :: hexDecode l'
  | _ => []
  end.

(** ** Identities *)

Definition dash : ascii := "-".

(** [format]: 8-4-4-4-12 digits. *)
Definition format (raw : list Z) : list ascii :=
  let compact := hexEncode raw in
  take 8 compact ++ [dash] ++ take 4 (drop 8 compact) ++ [dash] ++ take 4 (drop 12 compact) ++ [dash] ++
  take 4 (drop 16 compact) ++ [dash] ++ take 12 (drop 20 compact).

Definition is_dash_offset (offset : nat) : bool :=
  (offset =? 8)%nat || (offset =? 13)%nat || (offset =? 18)%nat || (offset =? 23)%nat.

(** The loop of [Parse]: the digits without the dashes, if all are digits. *)
Fixpoint compact_digits (offset : nat) (value : list ascii) : option (list ascii) :=
  match value with
  | [] => Some []
  | a :: value' =>
    if is_dash_offset offset then compact_digits (S offset) value'
    else if isHex a then (fun l => a :: l) <$> compact_digits (S offset) value'
    else None
  end.

Definition byte_at (raw : list Z) (i : nat) : Z := default 0 (raw !! i).

Definition Parse (value : list ascii) : option (list ascii) :=
  if negb ((length value =? 36)%nat && bool_decide (value !! 8%nat = Some dash)
           && bool_decide (value !! 13%nat = Some dash) && bool_decide (value !! 18%nat = Some dash)
           && bool_decide (value !! 23%nat = Some dash)) then None
  else
    match compact_digits 0 value with
    | None => None
    | Some compact =>
      let raw := hexDecode compact in
      if (negb (Z.shiftr (byte_at raw 6) 4 =? 4) || negb (Z.land (byte_at raw 8) 0xc0 =? 0x80))%bool then None
      else
        let canonical := format raw in
        if bool_decide (canonical = value) then Some canonical else None
    end.

Definition Valid (value : string) : bool := bool_decide (is_Some (Parse (String.list_ascii_of_string value))).

(** [New] on the sixteen bytes [rand.Read] returned. *)
Definition stamp_version (raw : list Z) : list Z :=
  <[8%nat := Z.lor (Z.land (byte_at raw 8) 0x3f) 0x80]>
    (<[6%nat := Z.lor (Z.land (byte_at raw 6) 0x0f) 0x40]> raw).

Definition New (raw : list Z) : string := String.string_of_list_ascii (format (stamp_version raw)).

(** ** A generated identity is valid, and only such texts are *)

Definition raw_ok (raw : list Z) : Prop := length raw = 16%nat /\ Forall (fun b => 0 <= b < 256) raw.

(** Facts about all 256 bytes, by evaluation. *)
Definition all_bytes : list Z := Z.of_nat <$> seq 0 256.

Definition byte_check (b : Z) : bool :=
  isHex (hexDigit (Z.shiftr b 4)) && isHex (hexDigit (Z.land b 15)) &&
  (hexValue (hexDigit (Z.shiftr b 4)) * 16 + hexValue (hexDigit (Z.land b 15)) =? b).

Definition version_check (b : Z) : bool :=
  let v := Z.lor (Z.land b 0x0f) 0x40 in
  let t := Z.lor (Z.land b 0x3f) 0x80 in
  (0 <=? v) && (v <? 256) && (Z.shiftr v 4 =? 4) && (0 <=? t) && (t <? 256) && (Z.land t 0xc0 =? 0x80).

Lemma all_bytes_in b : 0 <= b < 256 -> b ∈ all_bytes.
Proof.
  intros Hb. apply list_elem_of_fmap. exists (Z.to_nat b). split; [lia|]. apply elem_of_seq. lia.
Qed.

Lemma forall_bytes (f : Z -> bool) b : forallb f all_bytes = true -> 0 <= b < 256 -> f b = true.
Proof. intros H Hb. rewrite forallb_forall in H. by apply H, list_elem_of_In, all_bytes_in. Qed.

Lemma byte_facts b :
  0 <= b < 256 ->
  isHex (hexDigit (Z.shiftr b 4)) = true /\ isHex (hexDigit (Z.land b 15)) = true /\
  hexValue (hexDigit (Z.shiftr b 4)) * 16 + hexValue (hexDigit (Z.land b 15)) = b.
Proof.
  intros Hb. assert (byte_check b = true) as H by (apply forall_bytes; [by vm_compute | done]).
  unfold byte_check in H. by bool_to_prop.
Qed.

Lemma hexDecode_encode raw : Forall (fun b => 0 <= b < 256) raw -> hexDecode (hexEncode raw) = raw.
Proof.
  induction 1 as [|b raw Hb Hr IH]; [done|]. cbn [hexEncode hexDecode].
  destruct (byte_facts b Hb) as (_ & _ & ->). by rewrite IH.
Qed.

Lemma hexEncode_hex raw : Forall (fun b => 0 <= b < 256) raw -> Forall (fun a => isHex a = true) (hexEncode raw).
Proof.
  induction 1 as [|b raw Hb Hr IH]; [constructor|]. cbn [hexEncode].
  destruct (byte_facts b Hb) as (? & ? & _). by repeat constructor.
Qed.

Lemma length_hexEncode raw : length (hexEncode raw) = (2 * length raw)%nat.
Proof. induction raw as [|b raw IH]; simpl; lia. Qed.

(** The text of thirty-two digits. *)
Definition dashed (compact : list ascii) : list ascii :=
  take 8 compact ++ [dash] ++ take 4 (drop 8 compact) ++ [dash] ++ take 4 (drop 12 compact) ++ [dash] ++
  take 4 (drop 16 compact) ++ [dash] ++ take 12 (drop 20 compact).

Lemma compact_run offset l rest :
  Forall (fun a => isHex a = true) l ->
  forallb (fun i => negb (is_dash_offset i)) (seq offset (length l)) = true ->
  compact_digits offset (l ++ rest) = (fun t => l ++ t) <$> compact_digits (offset + length l) rest.
Proof.
  intros Hl. revert offset. induction Hl as [|a l Ha Hl IH]; intros offset; simpl; intros Hoff.
  - rewrite Nat.add_0_r. by destruct (compact_digits offset rest).
  - bool_to_prop. match goal with H : is_dash_offset offset = false |- _ => rewrite H end. rewrite Ha, IH by done.
    replace (offset + S (length l))%nat with (S offset + length l)%nat by lia.
    by destruct (compact_digits (S offset + length l) rest).
Qed.

Lemma compact_dash offset rest :
  is_dash_offset offset = true -> compact_digits offset (dash :: rest) = compact_digits (S offset) rest.
Proof. intros H. cbn [compact_digits]. by rewrite H. Qed.

Lemma length_part n m (l : list ascii) : (n + m <= length l)%nat -> length (take m (drop n l)) = m.
Proof. intros H. rewrite length_take, length_drop. lia. Qed.

Lemma compact_parts (compact : list ascii) :
  length compact = 32%nat ->
  take 8 compact ++ take 4 (drop 8 compact) ++ take 4 (drop 12 compact) ++ take 4 (drop 16 compact) ++
  take 12 (drop 20 compact) = compact.
Proof.
  intros Hl. do 32 (destruct compact as [|? compact]; [discriminate|]). destruct compact; [|discriminate]. reflexivity.
Qed.

Lemma compact_dashed compact :
  length compact = 32%nat -> Forall (fun a => isHex a = true) compact ->
  compact_digits 0 (dashed compact) = Some compact.
Proof.
  intros Hl Hf. unfold dashed.
  assert (forall n m, Forall (fun a => isHex a = true) (take m (drop n compact))) as Hp.
  { intros. by apply Forall_take, Forall_drop. }
  assert (length (take 8 compact) = 8%nat) as L0 by (rewrite length_take; lia).
  pose proof (length_part 8 4 compact ltac:(lia)) as L1. pose proof (length_part 12 4 compact ltac:(lia)) as L2.
  pose proof (length_part 16 4 compact ltac:(lia)) as L3. pose proof (length_part 20 12 compact ltac:(lia)) as L4.
  rewrite compact_run, L0 by (try (rewrite L0); auto; apply (Hp 0%nat)). cbn [app Nat.add]. rewrite compact_dash by done.
  rewrite compact_run, L1 by (try (rewrite L1); auto). cbn [app Nat.add]. rewrite compact_dash by done.
  rewrite compact_run, L2 by (try (rewrite L2); auto). cbn [app Nat.add]. rewrite compact_dash by done.
  rewrite compact_run, L3 by (try (rewrite L3); auto). cbn [app Nat.add]. rewrite compact_dash by done.
  rewrite <- (app_nil_r (take 12 (drop 20 compact))), compact_run, L4 by (try (rewrite L4); auto). simpl.
  f_equal. rewrite app_nil_r. by apply compact_parts.
Qed.

Lemma dashed_shape compact :
  length compact = 32%nat -> length (dashed compact) = 36%nat /\
  dashed compact !! 8%nat = Some dash /\ dashed compact !! 13%nat = Some dash /\
  dashed compact !! 18%nat = Some dash /\ dashed compact !! 23%nat = Some dash.
Proof.
  intros Hl. do 32 (destruct compact as [|? compact]; [discriminate|]). destruct compact; [|discriminate].
  split_and!; reflexivity.
Qed.

Lemma Parse_format raw :
  raw_ok raw -> Z.shiftr (byte_at raw 6) 4 = 4 -> Z.land (byte_at raw 8) 0xc0 = 0x80 ->
  Parse (format raw) = Some (format raw).
Proof.
  intros [Hl Hb] H6 H8. change (format raw) with (dashed (hexEncode raw)).
  assert (length (hexEncode raw) = 32%nat) as Hlen by (rewrite length_hexEncode; lia).
  pose proof (compact_dashed _ Hlen (hexEncode_hex _ Hb)) as Hc.
  destruct (dashed_shape _ Hlen) as (Hl36 & D1 & D2 & D3 & D4).
  unfold Parse. rewrite Hl36, D1, D2, D3, D4, Hc. rewrite !bool_decide_eq_true_2 by done. cbn [andb negb Nat.eqb].
  rewrite hexDecode_encode by done. rewrite H6, H8. simpl. 
  change (format raw) with (dashed (hexEncode raw)). by rewrite bool_decide_eq_true_2.
Qed.

Lemma compact_digits_inv offset value c :
  compact_digits offset value = Some c ->
  Forall (fun a => isHex a = true) c /\
  length c = length (List.filter (fun i => negb (is_dash_offset i)) (seq offset (length value))).
Proof.
  revert offset c. induction value as [|a value IH]; intros offset c; cbn [compact_digits length seq List.filter].
  - by intros [= <-].
  - destruct (is_dash_offset offset); cbn [negb]; [apply IH|]. destruct (isHex a) eqn:Ea; [|done].
    destruct (compact_digits (S offset) value) as [l|] eqn:E; [|done]. simpl. intros [= <-].
    apply IH in E as [Hf Hl]. split; [by constructor|]. simpl. by rewrite Hl.
Qed.

Lemma hexValue_range a : isHex a = true -> 0 <= hexValue a < 16.
Proof.
  unfold isHex, hexValue. intros H. bool_to_prop.
  destruct H as [H|H]; bool_to_prop; repeat match goal with H : (_ <=? _)%nat = true |- _ => apply Nat.leb_le in H end;
    case_if; bool_to_prop; lia.
Qed.

Lemma hexDecode_ok n c :
  length c = (2 * n)%nat -> Forall (fun a => isHex a = true) c ->
  length (hexDecode c) = n /\ Forall (fun b => 0 <= b < 256) (hexDecode c).
Proof.
  revert c. induction n as [|n IH]; intros c Hl Hf.
  - by destruct c.
  - destruct c as [|hi [|lo c]]; [simpl in Hl; lia.. |]. inversion Hf as [|? ? Hhi Hf']; subst.
    inversion Hf' as [|? ? Hlo Hf'']; subst. cbn [hexDecode length] in *.
    destruct (IH c) as [Hlen Hb]; [lia | done|]. split; [by rewrite Hlen|]. constructor; [|done].
    pose proof (hexValue_range hi Hhi). pose proof (hexValue_range lo Hlo). lia.
Qed.

Lemma Parse_inv value c :
  Parse value = Some c ->
  c = value /\ exists raw, raw_ok raw /\ Z.shiftr (byte_at raw 6) 4 = 4 /\ Z.land (byte_at raw 8) 0xc0 = 0x80 /\
    value = format raw.
Proof.
  unfold Parse. case_if; [done|]. bool_to_prop.
  match goal with H : (length value =? 36)%nat = true |- _ => apply Nat.eqb_eq in H as Hl36 end.
  destruct (compact_digits 0 value) as [compact|] eqn:Ec; [|done]. cbv zeta. case_if; [done|]. case_if; [|done].
  bool_to_prop. intros [= <-]. apply compact_digits_inv in Ec as [Hf Hl]. rewrite Hl36 in Hl.
  change (length compact = (2 * 16)%nat) in Hl. destruct (hexDecode_ok 16 compact Hl Hf). split; [done|].
  exists (hexDecode compact). split_and!; auto. by split.
Qed.

Lemma stamp_version_ok raw :
  raw_ok raw -> raw_ok (stamp_version raw) /\ Z.shiftr (byte_at (stamp_version raw) 6) 4 = 4 /\
  Z.land (byte_at (stamp_version raw) 8) 0xc0 = 0x80.
Proof.
  intros [Hl Hb].
  assert (forall i, 0 <= byte_at raw i < 256) as Hr.
  { intros i. unfold byte_at. destruct (raw !! i) as [b|] eqn:E; simpl; [|lia]. by apply (Forall_lookup_1 _ _ i b Hb). }
  assert (forall b, 0 <= b < 256 -> version_check b = true) as Hv by (intros; apply forall_bytes; [by vm_compute | done]).
  pose proof (Hv _ (Hr 6%nat)) as H6. pose proof (Hv _ (Hr 8%nat)) as H8. unfold version_check in H6, H8.
  apply andb_true_iff in H6 as [H6 _], H8 as [H8 Ht8]. bool_to_prop.
  unfold stamp_version, byte_at in *. split_and!.
  - split; [by rewrite !length_insert|]. apply Forall_insert; [apply Forall_insert; [done|]|]; unfold byte_at in *; lia.
  - rewrite list_lookup_insert_ne, list_lookup_insert_eq by lia. done.
  - rewrite list_lookup_insert_eq by (rewrite length_insert; lia). done.
Qed.

Lemma format_valid raw :
  raw_ok raw -> Z.shiftr (byte_at raw 6) 4 = 4 -> Z.land (byte_at raw 8) 0xc0 = 0x80 ->
  Valid (String.string_of_list_ascii (format raw)) = true.
Proof.
  intros Hr H6 H8. unfold Valid. rewrite String.list_ascii_of_string_of_list_ascii, Parse_format by done.
  by apply bool_decide_eq_true_2.
Qed.

Lemma New_valid raw : raw_ok raw -> Valid (New raw) = true.
Proof. intros Hr. destruct (stamp_version_ok raw Hr) as (? & ? & ?). by apply format_valid. Qed.

(** The parser of Agent IDs accepts exactly the canonical texts of
    sixteen bytes with the UUID version and variant bits, and every generated
    identity is one of them, whatever the random source returns. *)
Theorem agent_id_exact :
  (forall value, Valid value = true <->
     exists raw, raw_ok raw /\ Z.shiftr (byte_at raw 6) 4 = 4 /\ Z.land (byte_at raw 8) 0xc0 = 0x80 /\
       value = String.string_of_list_ascii (format raw)) /\
  (forall raw, raw_ok raw -> Valid (New raw) = true).
Proof.
  split; [|exact New_valid]. intros value. split; [|by intros (raw & Hr & H6 & H8 & ->); apply format_valid].
  unfold Valid. intros [c Hc]%bool_decide_eq_true. apply Parse_inv in Hc as [_ (raw & Hr & H6 & H8 & E)].
  exists raw. split_and!; auto; try done. rewrite <- E. by rewrite String.string_of_list_ascii_of_string.
Qed.
