(* ===== verification/Registration.v ===== *)
(** * Join tokens and Agent registration

    Models [internal/registration/service.go]: issuing, parsing, revoking and
    consuming one-time tokens, and registering an Agent in the transaction that
    consumes its token. The two tables are lists of rows; a statement fails when
    the next outcome says so, and a transaction that fails leaves the tables as
    they were. Times in the tables are their values: their texts have a fixed
    width and compare like them. The text of the metadata is an argument
    ([encoding/json]); credentials are those of [Identity]. *)

From Stdlib Require Import Ascii.
From S2P Require Import Prelude GoText Identity AgentId.

(** ** [encoding/base64], the raw URL alphabet *)

Definition b64_char (v : Z) : ascii :=
  ascii_of_nat (Z.to_nat (if v <? 26 then v + 65 else if v <? 52 then v + 71 else if v <? 62 then v - 4 else if v =? 62 then 45 else 95)).
Definition b64_value (c : ascii) : option Z :=
  let b := byte_of c in
  if between 65 90 b then Some (b - 65) else if between 97 122 b then Some (b - 71) else if between 48 57 b then Some (b + 4)
  else if b =? 45 then Some 62 else if b =? 95 then Some 63 else None.

Fixpoint b64_encode (bytes : list Z) : string :=
  match bytes with
  | [] => EmptyString
  | [a] => String (b64_char (a / 4)) (String (b64_char (a mod 4 * 16)) EmptyString)
  | [a; b] => String (b64_char (a / 4)) (String (b64_char (a mod 4 * 16 + b / 16)) (String (b64_char (b mod 16 * 4)) EmptyString))
  | a :: b :: c :: rest =>
    String (b64_char (a / 4)) (String (b64_char (a mod 4 * 16 + b / 16)) (String (b64_char (b mod 16 * 4 + c / 64)) (String (b64_char (c mod 64)) (b64_encode rest))))
  end.

(** Line breaks are skipped; bits that are left over are dropped. *)
Fixpoint b64_values (s : string) : option (list Z) :=
  match s with
  | EmptyString => Some []
  | String c s' =>
    if (byte_of c =? 10) || (byte_of c =? 13) then b64_values s'
    else match b64_value c, b64_values s' with Some v, Some l => Some (v :: l) | _, _ => None end
  end.
Fixpoint b64_bytes (values : list Z) : option (list Z) :=
  match values with
  | [] => Some []
  | [_] => None
  | [v; w] => Some [v * 4 + w / 16]
  | [v; w; x] => Some [v * 4 + w / 16; w mod 16 * 16 + x / 4]
  | v :: w :: x :: y :: rest =>
    match b64_bytes rest with Some l => Some (v * 4 + w / 16 :: w mod 16 * 16 + x / 4 :: x mod 4 * 64 + y :: l) | None => None end
  end.
Definition b64_decode (s : string) : option (list Z) := b64_values s ≫= b64_bytes.

(** ** Tokens *)

Definition JoinTokenSecretBytes : Z := 32.
Definition TokenIDRandomBytes : Z := 16.
Definition MaxDisplayNameBytes : Z := 128.
Definition MaxMetadataBytes : Z := 4096.
Definition MaxMetadataEntries : Z := 32.
Definition MaxMetadataKeyBytes : Z := 64.
Definition MaxMetadataValueBytes : Z := 512.

Inductive regErr :=
| ErrInvalidJoinToken | ErrInvalidRequest | ErrIdentityReuseProof | ErrAgentRetired | ErrAgentIDCollision | RegRandom | RegDatabase | RegIdentity (e : identErr).

Inductive tokenKind := JoinToken | RejoinToken.
#[export] Instance tokenKind_eq_dec : EqDecision tokenKind.
Proof. solve_decision. Defined.

Record tokenRow := mkToken {
  tk_id : string;
  tk_hash : list Z;
  tk_created : time;
  tk_expires : option time;
  tk_consumed : option time;
  tk_revoked : option time;
}.

Record agentRow := mkAgent {
  ag_id : string;
  ag_display : string;
  ag_first : time;
  ag_last : time;
  ag_metadata : string;
  ag_retired : option time;
  ag_incarnation : Z;
}.

Record regDB := mkRegDB { db_tokens : list tokenRow; db_agents : list agentRow }.

(** The service: its tables, the identity manager, the outcomes of statements and
    the random bytes to come. *)
Record rgworld := mkRgworld { rg_db : regDB; rg_ident : iworld; rg_outcomes : list bool; rg_random : list (list Z) }.

Definition regM := M rgworld regErr.

Definition stmt : regM unit := fun w =>
  match rg_outcomes w with
  | [] => (Ok tt, w)
  | b :: bs => ((if b then Ok tt else Err RegDatabase), mkRgworld (rg_db w) (rg_ident w) bs (rg_random w))
  end.
Definition read_random : regM (list Z) := fun w =>
  match rg_random w with
  | [] => (Err RegRandom, w)
  | b :: bs => (Ok b, mkRgworld (rg_db w) (rg_ident w) (rg_outcomes w) bs)
  end.
Definition upd_db (f : regDB -> regDB) : regM unit := modify (fun w => mkRgworld (f (rg_db w)) (rg_ident w) (rg_outcomes w) (rg_random w)).
Definition in_identity {A} (m : identM A) : regM A := fun w =>
  let '(r, i) := m (rg_ident w) in
  (match r with Ok a => Ok a | Err e => Err (RegIdentity e) end, mkRgworld (rg_db w) i (rg_outcomes w) (rg_random w)).

(** [BeginTx], the body, [Commit]; a failure rolls the tables back. *)
Definition transaction {A} (body : regM A) : regM A := fun w =>
  let '(r, w') := (stmt ;;; let* a := body in stmt ;;; ret a) w in
  match r with
  | Ok _ => (r, w')
  | Err _ => (r, mkRgworld (rg_db w) (rg_ident w') (rg_outcomes w') (rg_random w'))
  end.

Record IssuedToken := mkIssued { it_ID : string; it_Token : string; it_ExpiresAt : time }.

Definition token_id (kind : tokenKind) (boundAgentID randomID : string) : string :=
  match kind with
  | JoinToken => ("join_" ++ randomID)%string
  | RejoinToken => ("rejoin_" ++ b64_encode (bytes_of boundAgentID) ++ "_" ++ randomID)%string
  end.

(** The primary key and the hash are unique. *)
Definition insert_token (row : tokenRow) : regM unit :=
  stmt ;;;
  let* d := gets rg_db in
  if* bool_decide (tk_id row ∈ (tk_id <$> db_tokens d)) || bool_decide (tk_hash row ∈ (tk_hash <$> db_tokens d)) then RegDatabase end;
  upd_db (fun d => mkRegDB (db_tokens d ++ [row]) (db_agents d)).

Definition issueToken (kind : tokenKind) (boundAgentID : string) (lifetime : Z) (now : time) : regM IssuedToken :=
  if* lifetime <=? 0 then ErrInvalidRequest end;
  let expiresAt := now + lifetime in
  let* randomID := read_random in
  let tokenID := token_id kind boundAgentID (hex_encode randomID) in
  let* secret := read_random in
  insert_token (mkToken tokenID (Sum256 secret) now (Some expiresAt) None None) ;;;
  ret (mkIssued tokenID (tokenID ++ "." ++ b64_encode secret) expiresAt).

Definition IssueJoinToken (lifetime : Z) (now : time) : regM IssuedToken := issueToken JoinToken "" lifetime now.

Definition IssueRejoinToken (agentID : string) (lifetime : Z) (now : time) : regM IssuedToken :=
  if* negb (Valid agentID) then ErrInvalidRequest end;
  issueToken RejoinToken agentID lifetime now.

Definition set_revoked (now : time) (t : tokenRow) : tokenRow :=
  mkToken (tk_id t) (tk_hash t) (tk_created t) (tk_expires t) (tk_consumed t) (Some (default now (tk_revoked t))).
Definition set_consumed (now : time) (t : tokenRow) : tokenRow :=
  mkToken (tk_id t) (tk_hash t) (tk_created t) (tk_expires t) (Some now) (tk_revoked t).

(** [UPDATE ... WHERE]: the rows that satisfy the condition are changed; the number
    of rows is returned. *)
Definition update_tokens (cond : tokenRow -> bool) (f : tokenRow -> tokenRow) : regM Z :=
  stmt ;;;
  let* d := gets rg_db in
  upd_db (fun d => mkRegDB ((fun t => if cond t then f t else t) <$> db_tokens d) (db_agents d)) ;;;
  ret (lenZ (filter (fun t => cond t = true) (db_tokens d))).

Definition RevokeJoinToken (tokenID : string) (now : time) : regM unit :=
  if* str_empty tokenID then ErrInvalidJoinToken end;
  transaction (
    let* rows := update_tokens (fun t => bool_decide (tk_id t = tokenID) && bool_decide (tk_consumed t = None)) (set_revoked now) in
    if* negb (rows =? 1) then ErrInvalidJoinToken end;
    ret tt).

(** *** Parsing *)

Fixpoint count_char (c : ascii) (s : string) : Z := match s with EmptyString => 0 | String d s' => (if (c =? d)%char then 1 else 0) + count_char c s' end.
Fixpoint cut (c : ascii) (s : string) : option (string * string) :=
  match s with
  | EmptyString => None
  | String d s' => if (c =? d)%char then Some (EmptyString, s') else match cut c s' with Some (a, b) => Some (String d a, b) | None => None end
  end.
Fixpoint cut_last (c : ascii) (s : string) : option (string * string) :=
  match s with
  | EmptyString => None
  | String d s' =>
    match cut_last c s' with
    | Some (a, b) => Some (String d a, b)
    | None => if (c =? d)%char then Some (EmptyString, s') else None
    end
  end.
(** [HasPrefix] and [TrimPrefix] *)
Fixpoint strip_prefix (p s : string) : option string :=
  match p, s with
  | EmptyString, _ => Some s
  | String a p', String b s' => if (a =? b)%char then strip_prefix p' s' else None
  | _, _ => None
  end.

Definition validHex (value : string) (bytes : Z) : bool := (strlen value =? bytes * 2) && forallb is_hex (bytes_of value).

Definition parsePresentedToken (token : string) : option (string * list Z * tokenKind * string) :=
  if negb (count_char "." token =? 1) then None
  else
    match cut "." token with
    | None => None
    | Some (id, encodedSecret) =>
      match b64_decode encodedSecret with
      | None => None
      | Some secret =>
        if negb (lenZ secret =? JoinTokenSecretBytes) then None
        else
          match strip_prefix "join_" id with
          | Some randomPart => if validHex randomPart TokenIDRandomBytes then Some (id, secret, JoinToken, "") else None
          | None =>
            match strip_prefix "rejoin_" id with
            | None => None
            | Some rest =>
              match cut_last "_" rest with
              | None => None
              | Some (bound, randomPart) =>
                if str_empty bound || negb (validHex randomPart TokenIDRandomBytes) then None
                else
                  match b64_decode bound with
                  | None => None
                  | Some decoded => if Valid (string_of_bytes decoded) then Some (id, secret, RejoinToken, string_of_bytes decoded) else None
                  end
              end
            end
          end
      end
    end.

(** ** Registration *)

Record Request := mkRequest {
  rq_JoinToken : string;
  rq_AgentID : string;
  rq_DisplayName : string;
  rq_Metadata : gmap string string;
  rq_Reuse : option Credential;
}.

Record Result := mkResult { rs_AgentID : string; rs_Credential : Credential }.

Section Service.
Context (sign : list Z -> list Z -> list Z) (verify : list Z -> list Z -> list Z -> bool) (marshal : gmap string string -> string).

Definition validateRegistrationFields (displayName : string) (metadata : gmap string string) : res regErr string :=
  if str_empty displayName || negb (ValidString displayName) || (strlen displayName >? MaxDisplayNameBytes) then Err ErrInvalidRequest
  else if Z.of_nat (size metadata) >? MaxMetadataEntries then Err ErrInvalidRequest
  else if negb (forallb (fun kv => negb (str_empty kv.1) && ValidString kv.1 && ValidString kv.2 && (strlen kv.1 <=? MaxMetadataKeyBytes)
                                   && (strlen kv.2 <=? MaxMetadataValueBytes)) (map_to_list metadata)) then Err ErrInvalidRequest
  else
    let payload := marshal metadata in
    if strlen payload >? MaxMetadataBytes then Err ErrInvalidRequest else Ok payload.

(** The condition of the [UPDATE] that consumes. *)
Definition still_valid (tokenID : string) (hash : list Z) (now : time) (t : tokenRow) : bool :=
  bool_decide (tk_id t = tokenID) && bool_decide (tk_hash t = hash) && bool_decide (tk_consumed t = None) && bool_decide (tk_revoked t = None)
  && match tk_expires t with Some e => now <? e | None => false end.

Definition consumeToken (tokenID : string) (secret : list Z) (now : time) : regM unit :=
  let calculated := Sum256 secret in
  stmt ;;;
  let* d := gets rg_db in
  match List.find (fun t => bool_decide (tk_id t = tokenID)) (db_tokens d) with
  | None => fail ErrInvalidJoinToken
  | Some row =>
    if* negb (bool_decide (tk_hash row = calculated)) then ErrInvalidJoinToken end;
    match tk_expires row with
    | None => fail RegDatabase
    | Some expires =>
      if* bool_decide (is_Some (tk_consumed row)) || bool_decide (is_Some (tk_revoked row)) || (expires <=? now) then ErrInvalidJoinToken end;
      let* rows := update_tokens (still_valid tokenID calculated now) (set_consumed now) in
      if* negb (rows =? 1) then ErrInvalidJoinToken end;
      ret tt
    end
  end.

Definition find_agent (id : string) (d : regDB) : option agentRow := List.find (fun a => bool_decide (ag_id a = id)) (db_agents d).
Definition add_agent (row : agentRow) (d : regDB) : regDB := mkRegDB (db_tokens d) (db_agents d ++ [row]).

Definition restoreAgentRow (agentID displayName metadataJSON : string) (now : time) : regM unit :=
  stmt ;;;
  let* d := gets rg_db in
  match find_agent agentID d with
  | Some row =>
    if* bool_decide (is_Some (ag_retired row)) then ErrAgentRetired end;
    stmt ;;;
    upd_db (fun d => mkRegDB (db_tokens d)
      ((fun a => if bool_decide (ag_id a = agentID) then mkAgent (ag_id a) displayName (ag_first a) now metadataJSON (ag_retired a) (ag_incarnation a) else a) <$> db_agents d))
  | None =>
    stmt ;;;
    upd_db (add_agent (mkAgent agentID displayName now now metadataJSON None 0))
  end.

(** [INSERT ... ON CONFLICT DO NOTHING]: no row when the identifier exists. *)
Definition create_agent (agentID displayName metadataJSON : string) (now : time) : regM unit :=
  stmt ;;;
  let* d := gets rg_db in
  if* bool_decide (is_Some (find_agent agentID d)) then ErrAgentIDCollision end;
  upd_db (add_agent (mkAgent agentID displayName now now metadataJSON None 0)).

Definition verifyReuse (requestedAgentID : string) (credential : Credential) (now : time) : regM unit :=
  if* negb (Valid requestedAgentID) || negb (bool_decide (cr_AgentID credential = requestedAgentID)) then ErrIdentityReuseProof end;
  let* s := gets (fun w => im_state (rg_ident w)) in
  if* match verifyCredential verify s credential now true with Err ErrExpiredCredential => false | _ => true end then ErrIdentityReuseProof end;
  if* existsb (fun r => bool_decide (rv_CredentialID r = cr_CredentialID credential)) (ps_Revocations s) then ErrIdentityReuseProof end;
  ret tt.

(** The guards of [Register] before its transaction. *)
Definition reuse_allowed (request : Request) (kind : tokenKind) (boundAgentID : string) (now : time) : regM unit :=
  match rq_Reuse request with
  | None => if* negb (bool_decide (kind = JoinToken)) then ErrIdentityReuseProof end; ret tt
  | Some credential =>
    if* negb (bool_decide (kind = RejoinToken)) || negb (bool_decide (boundAgentID = rq_AgentID request)) then ErrIdentityReuseProof end;
    verifyReuse (rq_AgentID request) credential now
  end.

Definition register_body (request : Request) (metadataJSON tokenID : string) (secret : list Z) (now : time) : regM Credential :=
  consumeToken tokenID secret now ;;;
  (match rq_Reuse request with
   | None => create_agent (rq_AgentID request) (rq_DisplayName request) metadataJSON now
   | Some _ => restoreAgentRow (rq_AgentID request) (rq_DisplayName request) metadataJSON now
   end) ;;;
  in_identity (IssueCredential sign (rq_AgentID request) now).

Definition Register (request : Request) (now : time) : regM Result :=
  let* metadataJSON := of_res (validateRegistrationFields (rq_DisplayName request) (rq_Metadata request)) in
  match parsePresentedToken (rq_JoinToken request) with
  | None => fail ErrInvalidJoinToken
  | Some (tokenID, secret, kind, boundAgentID) =>
    if* negb (Valid (rq_AgentID request)) then ErrInvalidRequest end;
    reuse_allowed request kind boundAgentID now ;;;
    let* credential := transaction (register_body request metadataJSON tokenID secret now) in
    ret (mkResult (rq_AgentID request) credential)
  end.
End Service.

(** ** Tokens can be read back *)

#[local] Ltac divmod := Z.to_euclidean_division_equations; lia.

Lemma b64_char_ok v : 0 <= v < 64 ->
  b64_value (b64_char v) = Some v /\ (byte_of (b64_char v) =? 10) || (byte_of (b64_char v) =? 13) = false /\ ("." =? b64_char v)%char = false.
Proof.
  intros Hv. rewrite <- (Z2Nat.id v) by lia. assert (Z.to_nat v < 64)%nat as Hlt by lia. clear Hv. generalize dependent (Z.to_nat v). intros k Hk.
  do 64 (destruct k as [|k]; [by split_and!|]). lia.
Qed.

Lemma b64_values_char v s : 0 <= v < 64 -> b64_values (String (b64_char v) s) = match b64_values s with Some l => Some (v :: l) | None => None end.
Proof. intros Hv. destruct (b64_char_ok v Hv) as (H1 & H2 & _). cbn [b64_values]. by rewrite H2, H1. Qed.

Lemma b64_roundtrip_values : forall bytes, Forall (fun b => 0 <= b < 256) bytes -> exists vs, b64_values (b64_encode bytes) = Some vs /\ b64_bytes vs = Some bytes.
Proof.
  fix IH 1. intros [|a [|b [|c rest]]] H; [by exists []| | |].
  - apply Forall_cons in H as [Ha _]. exists [a / 4; a mod 4 * 16]. cbn [b64_encode b64_bytes]. rewrite !b64_values_char by divmod. split; [done|]. do 2 f_equal. divmod.
  - apply Forall_cons in H as [Ha H]. apply Forall_cons in H as [Hb _]. exists [a / 4; a mod 4 * 16 + b / 16; b mod 16 * 4]. cbn [b64_encode b64_bytes].
    rewrite !b64_values_char by divmod. split; [done|]. f_equal. f_equal; [divmod|]. f_equal. divmod.
  - apply Forall_cons in H as [Ha H]. apply Forall_cons in H as [Hb H]. apply Forall_cons in H as [Hc H]. destruct (IH rest H) as (vs & H1 & H2).
    exists (a / 4 :: a mod 4 * 16 + b / 16 :: b mod 16 * 4 + c / 64 :: c mod 64 :: vs). cbn [b64_encode b64_bytes]. rewrite !b64_values_char, H1, H2 by divmod.
    split; [done|]. f_equal. f_equal; [divmod|]. f_equal; [divmod|]. f_equal. divmod.
Qed.

Lemma b64_roundtrip bytes : Forall (fun b => 0 <= b < 256) bytes -> b64_decode (b64_encode bytes) = Some bytes.
Proof. intros (vs & H1 & H2)%b64_roundtrip_values. unfold b64_decode. by rewrite H1. Qed.

Lemma b64_no_dot : forall bytes, Forall (fun b => 0 <= b < 256) bytes -> count_char "." (b64_encode bytes) = 0.
Proof.
  assert (forall v s, 0 <= v < 64 -> count_char "." (String (b64_char v) s) = count_char "." s) as Hc.
  { intros v s Hv. destruct (b64_char_ok v Hv) as (_ & _ & H). cbn [count_char]. by rewrite H. }
  fix IH 1. intros [|a [|b [|c rest]]] H; [done| | |]; cbn [b64_encode].
  - apply Forall_cons in H as [Ha _]. rewrite !Hc by divmod. done.
  - apply Forall_cons in H as [Ha H]. apply Forall_cons in H as [Hb _]. rewrite !Hc by divmod. done.
  - apply Forall_cons in H as [Ha H]. apply Forall_cons in H as [Hb H]. apply Forall_cons in H as [Hc' H]. rewrite !Hc by divmod. by apply IH.
Qed.

Lemma hex_no_char c bytes : is_lower_hex (byte_of c) = false -> Forall (fun b => 0 <= b < 256) bytes -> count_char c (hex_encode bytes) = 0.
Proof.
  intros Hc. assert (forall n s, 0 <= n < 16 -> count_char c (String (hex_char n) s) = count_char c s) as Hs.
  { intros n s Hn. cbn [count_char]. destruct (c =? hex_char n)%char eqn:E; [|done]. apply Ascii.eqb_eq in E. subst. by rewrite hex_char_lower in Hc. }
  induction 1 as [|b l Hb Hl IH]; [done|]. cbn [hex_encode]. rewrite !Hs by divmod. done.
Qed.

Lemma count_char_app c s t : count_char c (s ++ t) = count_char c s + count_char c t.
Proof. induction s as [|d s IH]; [done|]. simpl. rewrite IH. apply Z.add_assoc. Qed.

Lemma count_char_nonneg c s : 0 <= count_char c s.
Proof. induction s as [|d s IH]; simpl; [lia|]. case_match; lia. Qed.

Lemma cut_at c s t : count_char c s = 0 -> cut c (s ++ String c t) = Some (s, t).
Proof.
  induction s as [|d s IH]; intros H; simpl; [by rewrite Ascii.eqb_refl|]. simpl in H. pose proof (count_char_nonneg c s).
  destruct (c =? d)%char; [lia|]. rewrite IH by lia. done.
Qed.

Lemma cut_last_none c s : count_char c s = 0 -> cut_last c s = None.
Proof.
  induction s as [|d s IH]; intros H; [done|]. cbn [count_char cut_last] in *. pose proof (count_char_nonneg c s). destruct (c =? d)%char; [lia|]. by rewrite IH by lia.
Qed.

Lemma cut_last_at c s t : count_char c t = 0 -> cut_last c (s ++ String c t) = Some (s, t).
Proof.
  intros Ht. induction s as [|d s IH]; simpl; [by rewrite cut_last_none, Ascii.eqb_refl|]. by rewrite IH.
Qed.

Lemma validHex_encode bytes : Forall (fun b => 0 <= b < 256) bytes -> validHex (hex_encode bytes) (lenZ bytes) = true.
Proof.
  intros Hb. unfold validHex, strlen, lenZ. rewrite hex_encode_length. rewrite (proj2 (Z.eqb_eq _ _)) by lia. cbn [andb].
  pose proof (hex_encode_lower bytes Hb) as H. rewrite forallb_forall in *. intros x Hx. specialize (H x Hx). unfold is_hex, is_lower_hex in *. apply orb_true_iff. by left.
Qed.

Lemma b64_not_empty a bytes : str_empty (b64_encode (a :: bytes)) = false.
Proof. by destruct bytes as [|b [|c rest]]. Qed.

Lemma strip_prefix_app p s : strip_prefix p (p ++ s) = Some s.
Proof. induction p as [|c p IH]; [done|]. simpl. by rewrite Ascii.eqb_refl. Qed.
Lemma strip_prefix_other s : strip_prefix "join_" ("rejoin_" ++ s) = None.
Proof. done. Qed.

(** Random bytes as the reader delivers them. *)
Definition bytes_ok (n : Z) (bytes : list Z) : Prop := lenZ bytes = n /\ Forall (fun b => 0 <= b < 256) bytes.

Lemma token_id_no_dot kind bound rid : Forall (fun b => 0 <= b < 256) rid -> count_char "." (token_id kind bound (hex_encode rid)) = 0.
Proof.
  intros Hr. destruct kind; unfold token_id; rewrite !count_char_app, (hex_no_char "." rid) by done; [done|].
  rewrite b64_no_dot by apply bytes_of_range. done.
Qed.

Lemma parse_token kind bound rid secret : bytes_ok 16 rid -> bytes_ok 32 secret -> (kind = RejoinToken -> Valid bound = true) ->
  parsePresentedToken (token_id kind bound (hex_encode rid) ++ "." ++ b64_encode secret) =
  Some (token_id kind bound (hex_encode rid), secret, kind, if bool_decide (kind = JoinToken) then "" else bound).
Proof.
  intros [Hrl Hr] [Hsl Hs] Hv. unfold parsePresentedToken. set (id := token_id kind bound (hex_encode rid)).
  assert (count_char "." id = 0) as Hdot by (by apply token_id_no_dot). change ("." ++ b64_encode secret)%string with (String "." (b64_encode secret)).
  rewrite count_char_app, Hdot. cbn [count_char]. rewrite b64_no_dot by done. cbn [Z.add Ascii.eqb Bool.eqb Z.eqb Pos.eqb negb].
  rewrite cut_at, b64_roundtrip by done. rewrite Hsl. cbn [Z.eqb JoinTokenSecretBytes Pos.eqb negb]. unfold id, token_id. destruct kind.
  - rewrite strip_prefix_app. change TokenIDRandomBytes with 16. rewrite <- Hrl. by rewrite validHex_encode.
  - specialize (Hv eq_refl). rewrite strip_prefix_other, strip_prefix_app. change ("_" ++ hex_encode rid)%string with (String "_" (hex_encode rid)).
    rewrite cut_last_at by (by apply hex_no_char). change TokenIDRandomBytes with 16. rewrite <- Hrl. rewrite validHex_encode by done.
    destruct bound as [|c bound]; [done|]. change (bytes_of (String c bound)) with (byte_of c :: bytes_of bound). rewrite b64_not_empty. cbn [orb negb].
    change (byte_of c :: bytes_of bound) with (bytes_of (String c bound)). rewrite b64_roundtrip by apply bytes_of_range. by rewrite string_of_bytes_of, Hv.
Qed.

(** ** Tokens are used once *)

Definition tokens (w : rgworld) : list tokenRow := db_tokens (rg_db w).
Definition agents (w : rgworld) : list agentRow := db_agents (rg_db w).

Lemma stmt_db w : rg_db (stmt w).2 = rg_db w.
Proof. unfold stmt. by destruct (rg_outcomes w). Qed.

Lemma stmt_ok w u w' : stmt w = (Ok u, w') -> rg_db w' = rg_db w /\ rg_ident w' = rg_ident w.
Proof. unfold stmt. destruct (rg_outcomes w) as [|[] bs]; by intros [= <- <-]. Qed.

Lemma read_random_db w : rg_db (read_random w).2 = rg_db w.
Proof. unfold read_random. by destruct (rg_random w). Qed.

(** A transaction that fails leaves the tables alone. *)
Lemma transaction_spec {A} (body : regM A) w r w' : transaction body w = (r, w') ->
  (is_ok r = false /\ rg_db w' = rg_db w) \/
  (exists a w1 w2, r = Ok a /\ rg_db w1 = rg_db w /\ rg_ident w1 = rg_ident w /\ body w1 = (Ok a, w2) /\ rg_db w' = rg_db w2).
Proof.
  unfold transaction, bind at 1. destruct (stmt w) as [[u|e] w1] eqn:E1; [|intros [= <- <-]; by left]. apply stmt_ok in E1 as [D1 I1].
  unfold bind at 1. destruct (body w1) as [[a|e] w2] eqn:E2; [|intros [= <- <-]; by left].
  unfold bind at 1. destruct (stmt w2) as [[u3|e] w3] eqn:E3; [|intros [= <- <-]; by left]. apply stmt_ok in E3 as [D3 _]. intros [= <- <-]. right. by exists a, w1, w2.
Qed.

Lemma update_tokens_spec cond f w n w' : update_tokens cond f w = (Ok n, w') ->
  tokens w' = ((fun t => if cond t then f t else t) <$> tokens w) /\ agents w' = agents w /\ rg_ident w' = rg_ident w /\
  n = lenZ (filter (fun t => cond t = true) (tokens w)).
Proof.
  unfold update_tokens, bind at 1. destruct (stmt w) as [[u|e] w1] eqn:E1; [|done]. apply stmt_ok in E1 as [D1 I1].
  unfold bind, gets, upd_db, modify, ret. intros [= <- <-]. unfold tokens, agents. simpl. by rewrite D1.
Qed.

Definition consumable (tokenID : string) (secret : list Z) (now : time) (t : tokenRow) : Prop :=
  tk_id t = tokenID /\ tk_hash t = Sum256 secret /\ tk_consumed t = None /\ tk_revoked t = None /\ exists e, tk_expires t = Some e /\ now < e.

Lemma consumeToken_spec tokenID secret now w w' : consumeToken tokenID secret now w = (Ok tt, w') ->
  agents w' = agents w /\ rg_ident w' = rg_ident w /\ (exists t, t ∈ tokens w /\ consumable tokenID secret now t) /\
  exists f, tokens w' = f <$> tokens w /\ forall t, f t = set_consumed now t /\ consumable tokenID secret now t \/ f t = t /\ ~ consumable tokenID secret now t.
Proof.
  unfold consumeToken, bind at 1. destruct (stmt w) as [[u|e] w1] eqn:E1; [|done]. apply stmt_ok in E1 as [D1 I1]. unfold bind at 1, gets at 1.
  destruct (List.find _ _) as [row|] eqn:Ef; [|done]. apply find_some in Ef as [Hin Hid]. apply bool_decide_eq_true in Hid.
  destruct (bool_decide (tk_hash row = _)) eqn:Eh; [|done]. apply bool_decide_eq_true in Eh. cbn [negb]. destruct (tk_expires row) as [e|] eqn:Ee; [|done].
  destruct (_ || _) eqn:Eg; [done|]. rewrite !orb_false_iff in Eg. destruct Eg as [[Hc Hr] He].
  unfold bind at 1. destruct (update_tokens _ _ w1) as [[n|e1] w2] eqn:E2; [|done]. apply update_tokens_spec in E2 as (T2 & A2 & I2 & _).
  destruct (negb _); [done|]. intros [= <-]. unfold tokens, agents in *. rewrite D1 in *. split_and!; [done | congruence | |].
  - exists row. split; [by apply list_elem_of_In|]. apply bool_decide_eq_false, eq_None_not_Some in Hc, Hr. split_and!; try done. exists e. split; [done | lia].
  - eexists. split; [exact T2|]. intros t.
    unfold still_valid. match goal with |- context [if ?b then _ else _] => destruct b eqn:Hcond end; [left | right]; (split; [done|]); unfold consumable.
    + rewrite !andb_true_iff, !bool_decide_eq_true in Hcond. destruct Hcond as [[[[? ?] ?] ?] Hx]. split_and!; try done. destruct (tk_expires t) as [x|]; [|done]. exists x. split; [done | lia].
    + intros (H1 & H2 & H3 & H4 & x & H5 & H6). rewrite H5, !bool_decide_eq_true_2 in Hcond by done. simpl in Hcond. lia.
Qed.

(** What a row of the tokens may become. *)
Definition row_evo (t t' : tokenRow) : Prop :=
  tk_id t' = tk_id t /\ tk_hash t' = tk_hash t /\ (tk_consumed t <> None -> tk_consumed t' <> None).

(** The tokens after a call: the old rows, changed in place, and new ones. *)
Definition tokens_evo (l l' : list tokenRow) : Prop :=
  (NoDup (tk_id <$> l) -> NoDup (tk_id <$> l')) /\ forall t, t ∈ l -> exists t', t' ∈ l' /\ row_evo t t'.

Lemma tokens_evo_refl l : tokens_evo l l.
Proof. split; [done|]. intros t Ht. by exists t. Qed.

Lemma tokens_evo_map f l : (forall t, row_evo t (f t)) -> tokens_evo l (f <$> l).
Proof.
  intros Hf. split.
  - rewrite <- list_fmap_compose. rewrite (list_fmap_ext (tk_id ∘ f) tk_id); [done|]. intros i x _. by destruct (Hf x).
  - intros t Ht. exists (f t). split; [by apply list_elem_of_fmap_2 | done].
Qed.

Lemma issueToken_evo kind bound lifetime now w : tokens_evo (tokens w) (tokens (issueToken kind bound lifetime now w).2).
Proof.
  assert (forall v v', rg_db v' = rg_db v -> tokens_evo (tokens v) (tokens v')) as Hsame by (intros v v' E; unfold tokens; rewrite E; apply tokens_evo_refl).
  unfold issueToken. case_if; [by apply Hsame|]. unfold bind at 1. pose proof (read_random_db w) as D1. destruct (read_random w) as [[rid|e] w1]; [|by apply Hsame]. simpl in D1.
  unfold bind at 1. pose proof (read_random_db w1) as D2. destruct (read_random w1) as [[secret|e] w2]; simpl in D2; [|apply Hsame; simpl; congruence].
  unfold bind at 1, insert_token, bind at 1. pose proof (stmt_db w2) as D3. destruct (stmt w2) as [[u|e] w3]; simpl in D3; [|apply Hsame; simpl; congruence].
  unfold bind at 1, gets at 1. destruct (_ || _) eqn:E; [apply Hsame; simpl; congruence|]. apply orb_false_iff in E as [E _]. apply bool_decide_eq_false in E.
  unfold upd_db, modify, ret. unfold tokens. simpl. rewrite D3, D2, D1 in *. split.
  - intros Hnd. rewrite fmap_app. apply NoDup_app. split_and!; [done | | apply NoDup_singleton]. intros x Hx ->%list_elem_of_singleton. done.
  - intros t Ht. exists t. split; [apply elem_of_app; by left | done].
Qed.

Lemma revoke_evo tokenID now w : tokens_evo (tokens w) (tokens (RevokeJoinToken tokenID now w).2).
Proof.
  unfold RevokeJoinToken. case_if; [apply tokens_evo_refl|]. destruct (transaction _ w) as [r w'] eqn:E. apply transaction_spec in E as [[_ E]|(a & w1 & w2 & _ & D1 & _ & E & D2)].
  - unfold tokens. simpl. rewrite E. apply tokens_evo_refl.
  - revert E. unfold bind at 1. destruct (update_tokens _ _ w1) as [[n|e] w3] eqn:E3; [|done]. apply update_tokens_spec in E3 as (T3 & _). case_if; [done|]. intros [= <- <-].
    cbn [snd]. unfold tokens in *. rewrite D2, T3, D1. apply tokens_evo_map. intros t. by case_if.
Qed.

Section Register.
Context (sign : list Z -> list Z -> list Z) (verify : list Z -> list Z -> list Z -> bool) (marshal : gmap string string -> string).

Lemma issue_agent agentID now i c i' : IssueCredential sign agentID now i = (Ok c, i') -> cr_AgentID c = agentID.
Proof.
  unfold IssueCredential. case_if; [done|]. unfold bind at 1, gets at 1, issueCredential, bind at 1. destruct (randomID i) as [[id|] i1]; [|done].
  unfold bind at 1, of_res at 1. destruct (signingPayload _); [|done]. by intros [= <- <-].
Qed.

(** The row of an Agent after its registration. *)
Definition refreshed (request : Request) (metadataJSON : string) (now : time) (a : agentRow) : agentRow :=
  if bool_decide (ag_id a = rq_AgentID request) then mkAgent (ag_id a) (rq_DisplayName request) (ag_first a) now metadataJSON (ag_retired a) (ag_incarnation a) else a.

(** What a successful registration did to the agents: a new row, or the row of an
    Agent that is not retired refreshed. *)
Definition agent_registered (request : Request) (metadataJSON : string) (now : time) (d d' : regDB) : Prop :=
  match find_agent (rq_AgentID request) d with
  | None => db_agents d' = db_agents d ++ [mkAgent (rq_AgentID request) (rq_DisplayName request) now now metadataJSON None 0]
  | Some row => is_Some (rq_Reuse request) /\ ag_retired row = None /\ db_agents d' = refreshed request metadataJSON now <$> db_agents d
  end.

Lemma register_body_spec request metadataJSON tokenID secret now w c w' : register_body sign request metadataJSON tokenID secret now w = (Ok c, w') ->
  cr_AgentID c = rq_AgentID request /\ agent_registered request metadataJSON now (rg_db w) (rg_db w') /\
  (exists t, t ∈ tokens w /\ consumable tokenID secret now t) /\
  exists f, tokens w' = f <$> tokens w /\ forall t, f t = set_consumed now t /\ consumable tokenID secret now t \/ f t = t /\ ~ consumable tokenID secret now t.
Proof.
  unfold register_body, bind at 1. destruct (consumeToken tokenID secret now w) as [[[]|e] w1] eqn:E1; [|done].
  apply consumeToken_spec in E1 as (A1 & I1 & Hrow & f & T1 & Hf). unfold bind at 1.
  set (m := match rq_Reuse request with None => _ | Some _ => _ end). destruct (m w1) as [[u|e] w2] eqn:E2; [|done].
  assert (tokens w2 = tokens w1 /\ agent_registered request metadataJSON now (rg_db w) (rg_db w2)) as [T2 Hreg].
  { unfold m in E2. clear m. unfold agent_registered, tokens, agents, find_agent in *. rewrite <- A1. destruct (rq_Reuse request) as [credential|].
    - revert E2. unfold restoreAgentRow, bind at 1. destruct (stmt w1) as [[u1|e] w3] eqn:E3; [|done]. apply stmt_ok in E3 as [D3 _]. unfold bind at 1, gets at 1.
      unfold find_agent. rewrite D3. destruct (List.find _ _) as [row|] eqn:Ef.
      + destruct (bool_decide (is_Some _)) eqn:Er; [done|]. apply bool_decide_eq_false, eq_None_not_Some in Er. unfold bind at 1. destruct (stmt w3) as [[u3|e] w4] eqn:E4; [|done].
        apply stmt_ok in E4 as [D4 _]. unfold upd_db, modify. intros [= <- <-]. simpl. by rewrite D4, D3.
      + unfold bind at 1. destruct (stmt w3) as [[u3|e] w4] eqn:E4; [|done]. apply stmt_ok in E4 as [D4 _]. unfold upd_db, modify, add_agent. intros [= <- <-]. simpl. by rewrite D4, D3.
    - revert E2. unfold create_agent, bind at 1. destruct (stmt w1) as [[u1|e] w3] eqn:E3; [|done]. apply stmt_ok in E3 as [D3 _]. unfold bind at 1, gets at 1.
      unfold find_agent. rewrite D3. destruct (bool_decide _) eqn:Eb; [done|]. apply bool_decide_eq_false, eq_None_not_Some in Eb. rewrite Eb.
      unfold upd_db, modify, add_agent. intros [= <- <-]. simpl. by rewrite D3. }
  unfold in_identity. destruct (IssueCredential sign _ now (rg_ident w2)) as [[c0|e] i] eqn:E4; [|done]. intros [= <- <-]. apply issue_agent in E4.
  unfold tokens in *. simpl. split_and!; [done | done | done|]. exists f. split; [congruence | done].
Qed.

(** ** Lives of the service *)

(** [reg_life w used]: from empty tokens, calls of the service led to [w]; [used] are
    the tokens whose registrations succeeded. Other parts of the Server may change
    the agents and the identity, and statements fail at will. *)
Inductive reg_life : rgworld -> list string -> Prop :=
| reg_start w : tokens w = [] -> reg_life w []
| reg_issue kind bound lifetime now w used : reg_life w used -> reg_life (issueToken kind bound lifetime now w).2 used
| reg_revoke tokenID now w used : reg_life w used -> reg_life (RevokeJoinToken tokenID now w).2 used
| reg_register request now w used r w' id secret kind bound : reg_life w used ->
    parsePresentedToken (rq_JoinToken request) = Some (id, secret, kind, bound) -> Register sign verify marshal request now w = (r, w') ->
    reg_life w' (if is_ok r then id :: used else used)
| reg_other w used w' : reg_life w used -> tokens w' = tokens w -> reg_life w' used.

(** What a call of [Register] that returned success has checked and done. *)
Definition registered (request : Request) (now : time) (w : rgworld) (res : Result) (w' : rgworld) : Prop :=
  exists metadataJSON id secret kind bound,
    parsePresentedToken (rq_JoinToken request) = Some (id, secret, kind, bound) /\
    rs_AgentID res = rq_AgentID request /\ cr_AgentID (rs_Credential res) = rq_AgentID request /\
    agent_registered request metadataJSON now (rg_db w) (rg_db w') /\
    (exists t, t ∈ tokens w /\ consumable id secret now t) /\
    (exists f, tokens w' = f <$> tokens w /\ forall t, f t = set_consumed now t /\ consumable id secret now t \/ f t = t /\ ~ consumable id secret now t) /\
    match rq_Reuse request with
    | None => kind = JoinToken
    | Some c => kind = RejoinToken /\ bound = rq_AgentID request /\ cr_AgentID c = rq_AgentID request /\
        verifyCredential verify (im_state (rg_ident w)) c now true = Err ErrExpiredCredential /\
        Forall (fun r => rv_CredentialID r <> cr_CredentialID c) (ps_Revocations (im_state (rg_ident w)))
    end.

Lemma reuse_allowed_spec request kind bound now w : 
  match reuse_allowed verify request kind bound now w with
  | (Err _, w') => w' = w
  | (Ok _, w') => w' = w /\
    match rq_Reuse request with
    | None => kind = JoinToken
    | Some c => kind = RejoinToken /\ bound = rq_AgentID request /\ cr_AgentID c = rq_AgentID request /\
        verifyCredential verify (im_state (rg_ident w)) c now true = Err ErrExpiredCredential /\
        Forall (fun r => rv_CredentialID r <> cr_CredentialID c) (ps_Revocations (im_state (rg_ident w)))
    end
  end.
Proof.
  unfold reuse_allowed. destruct (rq_Reuse request) as [c|].
  - destruct (_ || _) eqn:E1; [done|]. rewrite orb_false_iff, !negb_false_iff, !bool_decide_eq_true in E1. destruct E1 as [-> ->].
    unfold verifyReuse. destruct (_ || _) eqn:E2; [done|]. rewrite orb_false_iff, !negb_false_iff, !bool_decide_eq_true in E2. destruct E2 as [_ E2].
    unfold bind at 1, gets at 1. destruct (verifyCredential _ _ _ _ _) as [|[]] eqn:Ev; try done. destruct (existsb _ _) eqn:Ex; [done|].
    unfold ret. split_and!; try done. apply Forall_forall. intros r Hr Heq. apply not_true_iff_false in Ex. apply Ex, existsb_exists. exists r.
    split; [by apply list_elem_of_In | by apply bool_decide_eq_true].
  - destruct (bool_decide (kind = JoinToken)) eqn:E; [|done]. apply bool_decide_eq_true in E. done.
Qed.

Lemma register_spec request now w :
  match Register sign verify marshal request now w with
  | (Err _, w') => rg_db w' = rg_db w
  | (Ok res, w') => registered request now w res w'
  end.
Proof.
  unfold Register, bind at 1, of_res. destruct (validateRegistrationFields _ _ _) as [json|e]; [|done].
  destruct (parsePresentedToken _) as [[[[id secret] kind] bound]|] eqn:Ep; [|done]. case_if; [done|]. unfold bind at 1.
  pose proof (reuse_allowed_spec request kind bound now w) as Hr. destruct (reuse_allowed _ _ _ _ _ _) as [[u|e] w1]; [|by subst]. destruct Hr as [-> Hr].
  unfold bind at 1. destruct (transaction _ w) as [r w2] eqn:E. apply transaction_spec in E as [[He D]|(c & w3 & w4 & -> & D3 & I3 & E & D4)].
  - by destruct r.
  - apply register_body_spec in E as (Hc & Hag & Ht & Hf). unfold ret. exists json, id, secret, kind, bound. unfold tokens in *. rewrite D3, <- D4 in *. done.
Qed.

Lemma registered_evo request now w res w' : registered request now w res w' -> tokens_evo (tokens w) (tokens w') /\
  exists t id secret kind bound, parsePresentedToken (rq_JoinToken request) = Some (id, secret, kind, bound) /\
    t ∈ tokens w /\ tk_id t = id /\ tk_consumed t = None /\ set_consumed now t ∈ tokens w'.
Proof.
  intros (json & id & secret & kind & bound & Hp & _ & _ & _ & (t & Hin & Ht) & (f & Hf & Hcase) & _). split.
  - rewrite Hf. apply tokens_evo_map. intros x. destruct (Hcase x) as [[-> _]|[-> _]]; done.
  - exists t, id, secret, kind, bound. destruct Ht as (Hid & Hh & Hc & Ht). split_and!; try done. rewrite Hf. apply list_elem_of_fmap. exists t. split; [|done].
    destruct (Hcase t) as [[-> _]|[_ Hn]]; [done|]. by destruct Hn.
Qed.

(** Identifiers are unique, and a used token is a consumed row. *)
Definition tokens_inv (w : rgworld) (used : list string) : Prop :=
  NoDup (tk_id <$> tokens w) /\ forall id, id ∈ used -> exists t, t ∈ tokens w /\ tk_id t = id /\ tk_consumed t <> None.

Lemma tokens_inv_evo w w' used : tokens_evo (tokens w) (tokens w') -> tokens_inv w used -> tokens_inv w' used.
Proof.
  intros [Hnd He] [Hn Hu]. split; [auto|]. intros id Hid. destruct (Hu id Hid) as (t & Ht & Heq & Hc). destruct (He t Ht) as (t' & Ht' & E1 & E2 & E3).
  exists t'. split_and!; [done | congruence | auto].
Qed.

(** In a table with a key, a key has one row. *)
Lemma row_unique {A} (key : A -> string) l x y : NoDup (key <$> l) -> x ∈ l -> y ∈ l -> key x = key y -> x = y.
Proof.
  intros Hnd [i Hi]%list_elem_of_lookup [j Hj]%list_elem_of_lookup E. assert (i = j) as <-; [|congruence].
  eapply (NoDup_lookup _ i j (key x) Hnd); rewrite list_lookup_fmap; [by rewrite Hi | by rewrite Hj, E].
Qed.

Lemma reg_life_inv w used : reg_life w used -> tokens_inv w used /\ NoDup used.
Proof.
  induction 1 as [w Hw | kind bound lifetime now w used _ [Hi Hn] | tokenID now w used _ [Hi Hn] | request now w used r w' id secret kind bound _ [Hi Hn] Hp E | w used w' _ [Hi Hn] E].
  - split; [|constructor]. unfold tokens_inv. rewrite Hw. split; [constructor | by intros id ?%elem_of_nil].
  - split; [|done]. eapply tokens_inv_evo, Hi. apply issueToken_evo.
  - split; [|done]. eapply tokens_inv_evo, Hi. apply revoke_evo.
  - pose proof (register_spec request now w) as Hs. rewrite E in Hs. destruct r as [res|e]; simpl.
    + apply registered_evo in Hs as (He & t & id' & secret' & kind' & bound' & Hp' & Hin & Hid & Hc & Hin'). rewrite Hp in Hp'. injection Hp' as <- <- <- <-.
      pose proof (tokens_inv_evo _ _ _ He Hi) as [Hnd' Hu']. split.
      * split; [done|]. intros x [->|Hx]%elem_of_cons; [|by apply Hu']. by exists (set_consumed now t).
      * apply NoDup_cons. split; [|done]. intros Hused. destruct Hi as [Hnd Hu]. destruct (Hu _ Hused) as (t' & Ht' & Eq & Hcons).
        rewrite <- (row_unique tk_id (tokens w) t t') in Hcons; [done | done | done | done | congruence].
    + split; [|done]. unfold tokens_inv, tokens in *. by rewrite Hs.
  - split; [|done]. unfold tokens_inv in *. by rewrite E.
Qed.

End Register.

(** [C9] A token registers one Agent. Over any life of the service - tokens issued,
    revoked and presented in any order, with failing statements - no token is used
    by two successful registrations. A registration that fails leaves the tokens
    and the Agents as they were. One that succeeds was given a token that had been
    issued, with the secret whose hash is stored, and was neither consumed, revoked
    nor expired; it consumed that token and nothing else; it created the Agent
    under an identifier that no Agent had, or restored one that is not retired; and
    its credential is for that Agent. An identifier is kept only with a token bound
    to it and the Agent's own expired credential, which is not in the current ledger
    of revocations (an entry that a compaction removed after its expiry no longer
    counts: [compaction_forgets_revocation]). *)
Theorem registration_contract sign verify marshal w used : reg_life sign verify marshal w used ->
  NoDup used /\
  forall request now, match Register sign verify marshal request now w with
                      | (Err _, w') => rg_db w' = rg_db w
                      | (Ok res, w') => registered verify request now w res w' /\
                                        forall id secret kind bound, parsePresentedToken (rq_JoinToken request) = Some (id, secret, kind, bound) -> id ∉ used
                      end.
Proof.
  intros Hl. destruct (reg_life_inv _ _ _ _ _ Hl) as [[Hnd Hu] Hn]. split; [done|]. intros request now. pose proof (register_spec sign verify marshal request now w) as Hs.
  destruct (Register _ _ _ _ _ _) as [[res|e] w']; [|done]. split; [done|]. intros id secret kind bound Hp Hused.
  apply registered_evo in Hs as (_ & t & id' & secret' & kind' & bound' & Hp' & Hin & Hid & Hc & _). rewrite Hp in Hp'. injection Hp' as <- <- <- <-.
  destruct (Hu _ Hused) as (t' & Ht' & Eq & Hcons). rewrite <- (row_unique tk_id (tokens w) t t') in Hcons; [done | done | done | done | congruence].
Qed.

Lemma filter_none {A} (P : A -> bool) l : (forall x, x ∈ l -> P x = false) -> filter (fun x => P x = true) l = [].
Proof. induction l as [|x l IH]; intros H; [done|]. rewrite filter_cons_False by (rewrite H; [done | by left]). apply IH. intros y Hy. apply H. by right. Qed.

(** A fresh row is found and consumed when no statement fails. *)
Lemma consume_fresh l row secret now w e : tokens w = l ++ [row] -> tk_id row ∉ (tk_id <$> l) -> tk_hash row = Sum256 secret ->
  tk_consumed row = None -> tk_revoked row = None -> tk_expires row = Some e -> now < e -> rg_outcomes w = [] ->
  is_ok (consumeToken (tk_id row) secret now w).1 = true.
Proof.
  intros Ht Hfresh Hh Hc Hr He Hnow Ho. assert (forall x, x ∈ l -> bool_decide (tk_id x = tk_id row) = false) as Hl.
  { intros x Hx. apply bool_decide_eq_false. intros Heq. apply Hfresh. rewrite <- Heq. by apply list_elem_of_fmap_2. }
  unfold consumeToken, bind at 1, stmt at 1. rewrite Ho. unfold bind at 1, gets at 1. change (db_tokens (rg_db w)) with (tokens w). rewrite Ht.
  rewrite find_snoc, (bool_decide_eq_true_2 (tk_id row = tk_id row)) by
    (done || (destruct (List.find _ l) as [x|] eqn:E; [|done]; apply find_some in E as [Hx Hy]; rewrite Hl in Hy by (by apply list_elem_of_In); done)).
  rewrite (bool_decide_eq_true_2 (tk_hash row = _)), He, Hc, Hr by done. cbn [negb]. rewrite !bool_decide_eq_false_2 by (by intros [? ?]). cbn [orb].
  replace (e <=? now) with false by lia. unfold bind at 1, update_tokens, bind at 1, stmt at 1. rewrite Ho. unfold bind, gets, upd_db, modify, ret.
  change (db_tokens (rg_db w)) with (tokens w). rewrite Ht, filter_app, filter_none by (intros x Hx; unfold still_valid; by rewrite Hl).
  rewrite filter_cons_True; [done|]. unfold still_valid. rewrite !bool_decide_eq_true_2, He by done. simpl. lia.
Qed.

(** An issued token can be presented. The text returned to the operator
    parses back to the identifier of the row that was inserted, a secret whose
    hash that row holds, the kind of the token and the Agent it is bound to; and
    before its expiry, while the row is as it was inserted and statements do not
    fail, it is accepted and consumed. *)
Theorem issued_token_presentable kind bound lifetime now w issued w' rid secret rest :
  (kind = RejoinToken -> Valid bound = true) -> rg_random w = rid :: secret :: rest -> bytes_ok TokenIDRandomBytes rid -> bytes_ok JoinTokenSecretBytes secret ->
  issueToken kind bound lifetime now w = (Ok issued, w') ->
  parsePresentedToken (it_Token issued) = Some (it_ID issued, secret, kind, if bool_decide (kind = JoinToken) then "" else bound) /\
  tokens w' = tokens w ++ [mkToken (it_ID issued) (Sum256 secret) now (Some (now + lifetime)) None None] /\
  (forall now' w'', now' < now + lifetime -> tokens w'' = tokens w' -> rg_outcomes w'' = [] -> is_ok (consumeToken (it_ID issued) secret now' w'').1 = true).
Proof.
  intros Hv Hr Hrid Hsec. unfold issueToken. destruct (lifetime <=? 0); [done|]. unfold bind at 1, read_random at 1. rewrite Hr. unfold bind at 1, read_random at 1. cbn [rg_random].
  unfold bind at 1, insert_token, bind at 1. destruct (stmt _) as [[u|e] w3] eqn:E3; [|done]. apply stmt_ok in E3 as [D3 _]. simpl in D3.
  unfold bind at 1, gets at 1. destruct (_ || _) eqn:Ef; [done|]. apply orb_false_iff in Ef as [Ef _]. apply bool_decide_eq_false in Ef.
  unfold upd_db, modify, ret. intros [= <- <-]. cbn [it_ID it_Token it_ExpiresAt].
  unfold tokens. cbn [rg_db db_tokens]. rewrite D3 in *. split_and!; [by apply parse_token | done|]. intros now' w'' Hn Ht Ho.
  by apply (consume_fresh (tokens w) (mkToken (token_id kind bound (hex_encode rid)) (Sum256 secret) now (Some (now + lifetime)) None None) secret now' w'' (now + lifetime)).
Qed.

(** ** A demonstration *)

Definition toy_agent : string := "0f8fad5b-d9cb-4a6f-8d4e-1234567890ab".
Definition toy_marshal (m : gmap string string) : string := "{}".
Definition toy_world : rgworld := mkRgworld (mkRegDB [] []) toy_open [] [replicate 16 7; replicate 32 9; replicate 16 8; replicate 32 10].
Definition toy_issued := issueToken JoinToken "" 100 10 toy_world.
Definition toy_token : IssuedToken := match toy_issued.1 with Ok t => t | Err _ => mkIssued "" "" 0 end.
Definition toy_request : Request := mkRequest (it_Token toy_token) toy_agent "edge" ∅ None.
Definition toy_registered := Register toy_sign toy_verify toy_marshal toy_request 20 toy_issued.2.

(** The token registers an Agent once. *)
Lemma registration_contract_witness :
  is_ok toy_registered.1 = true /\ is_ok (Register toy_sign toy_verify toy_marshal toy_request 21 toy_registered.2).1 = false /\
  NoDup [it_ID toy_token].
Proof.
  split_and!; [vm_compute; reflexivity | vm_compute; reflexivity|].
  pose proof (reg_issue toy_sign toy_verify toy_marshal JoinToken "" 100 10 toy_world [] (reg_start _ _ _ toy_world eq_refl)) as L1.
  assert (reg_life toy_sign toy_verify toy_marshal toy_registered.2 [it_ID toy_token]) as L2.
  { refine (reg_register _ _ _ toy_request 20 _ _ toy_registered.1 _ (it_ID toy_token) (replicate 32 9) JoinToken "" L1 _ _); vm_compute; reflexivity. }
  apply (registration_contract _ _ _ _ _ L2).
Defined.

Lemma issued_token_presentable_witness :
  parsePresentedToken (it_Token toy_token) = Some (it_ID toy_token, replicate 32 9, JoinToken, "").
Proof.
  assert (toy_issued = (Ok toy_token, toy_issued.2)) as E by (vm_compute; reflexivity).
  apply (issued_token_presentable JoinToken "" 100 10 toy_world toy_token toy_issued.2 (replicate 16 7) (replicate 32 9) [replicate 16 8; replicate 32 10]);
    [done | reflexivity | split; [reflexivity | repeat constructor; lia] | split; [reflexivity | repeat constructor; lia] | exact E].
Defined.

(** ** A revocation that was compacted *)

(** The ledger drops the revocation of an expired credential, and an expired
    credential that is not in the ledger proves an identity: the Agent that was
    shut out gets it back with a token bound to it. *)
Definition lost_agent : iworld * Credential :=
  match IssueCredential toy_sign toy_agent 5 toy_open with
  | (Ok c, w) => ((RevokeCredential toy_verify toy_public c 6 "lost" w).2, c)
  | (_, w) => (w, demo_credential)
  end.
Definition after_expiry : time := cr_ExpiresAt lost_agent.2 + 1.
Definition reuse_lost (i : iworld) : bool := is_ok (verifyReuse toy_verify toy_agent lost_agent.2 after_expiry (mkRgworld (mkRegDB [] []) i [] [])).1.

Lemma compaction_forgets_revocation :
  reuse_lost lost_agent.1 = false /\ reuse_lost (CompactRevocations toy_public after_expiry lost_agent.1).2 = true.
Proof. split; vm_compute; reflexivity. Qed.
