(* ===== verification/Handshake.v ===== *)
(** * The session handshake

    Models [internal/producttransport/handshake.go] and [identity_verifier.go]: the
    bytes an Agent sends to open a session, how the Server reads and checks them,
    and the answer. A connection is the bytes still to be read and those written;
    each write has an outcome, an exhausted list of outcomes is success. The
    verifier of credentials is an argument, and [IdentityVerifier] is the one of
    [Identity]; deadlines are failing reads and writes. *)

From Stdlib Require Import Ascii.
From S2P Require Import Prelude GoText Identity.

(** ** Data *)

Definition CurrentProductProtocolVersion : Z := 2.
Definition PreviousProductProtocolVersion : Z := 1.
Definition supportedProductProtocolVersion (version : Z) : bool :=
  (version =? CurrentProductProtocolVersion) || (version =? PreviousProductProtocolVersion).

Record SessionInfo := mkSession {
  si_SessionID : string;
  si_AgentID : string;
  si_CredentialID : string;
  si_ServerIdentityID : string;
  si_Incarnation : Z;
  si_ProtocolVersion : Z;
  si_SourceIP : string;
}.

Record CredentialIdentity := mkCredentialIdentity { ci_AgentID : string; ci_CredentialID : string; ci_ServerIdentityID : string }.

Inductive hsErr := HsProtocol | HsIO | HsAuthentication | HsRevoked | HsRandom.

(** A write takes some bytes, or fails after some. *)
Inductive write_outcome := Written (n : nat) | WriteFailed (n : nat).

Record conn := mkConn { cn_in : list Z; cn_out : list Z; cn_writes : list write_outcome }.

Definition connM := M conn hsErr.

Definition readFull (n : Z) : connM (list Z) := fun c =>
  if lenZ (cn_in c) <? n then (Err HsIO, mkConn [] (cn_out c) (cn_writes c))
  else (Ok (take (Z.to_nat n) (cn_in c)), mkConn (drop (Z.to_nat n) (cn_in c)) (cn_out c) (cn_writes c)).

(** The loop ends: every round that goes on has written a byte, and a write
    without an outcome takes everything. *)
Fixpoint write_loop (writes : list write_outcome) (payload : list Z) (out : list Z) : res hsErr unit * list Z * list write_outcome :=
  match payload with
  | [] => (Ok tt, out, writes)
  | _ :: _ =>
    match writes with
    | [] => (Ok tt, out ++ payload, [])
    | WriteFailed n :: rest => (Err HsIO, out ++ take n payload, rest)
    | Written 0 :: rest => (Err HsIO, out, rest)
    | Written n :: rest => write_loop rest (drop n payload) (out ++ take n payload)
    end
  end.
Definition writeFull (payload : list Z) : connM unit := fun c =>
  let '(r, out, writes) := write_loop (cn_writes c) payload (cn_out c) in (r, mkConn (cn_in c) out writes).

(** [binary.BigEndian] over a slice of a buffer *)
Definition slice (from until : Z) (bytes : list Z) : list Z := take (Z.to_nat (until - from)) (drop (Z.to_nat from) bytes).
Definition read_uint (from until : Z) (bytes : list Z) : Z := be_value 0 (slice from until bytes).

Definition agentPreface : list Z := bytes_of "DPPA".
Definition serverPreface : list Z := bytes_of "DPPS".

(** ** The Agent *)

Definition request_header (version incarnation : Z) (credential : list Z) : list Z :=
  agentPreface ++ be_bytes 4 version ++ be_bytes 8 incarnation ++ be_bytes 4 (lenZ credential).

Definition agentHandshakeVersion (credential : list Z) (incarnation maxCredential offeredVersion : Z) : connM SessionInfo :=
  if* (lenZ credential =? 0) || (lenZ credential >? maxCredential) || (incarnation =? 0) then HsProtocol end;
  writeFull (request_header offeredVersion incarnation credential) ;;;
  writeFull credential ;;;
  let* response := readFull 30 in
  if* negb (bool_decide (slice 0 4 response = serverPreface)) then HsProtocol end;
  let version := read_uint 4 8 response in
  if* negb (supportedProductProtocolVersion version) || negb (version =? offeredVersion) then HsProtocol end;
  let agentLength := read_uint 24 26 response in
  let credentialIDLength := read_uint 26 28 response in
  let serverIdentityLength := read_uint 28 30 response in
  if* (agentLength =? 0) || (agentLength >? 1024) || (credentialIDLength =? 0) || (credentialIDLength >? 1024) || (serverIdentityLength =? 0)
      || (serverIdentityLength >? 1024) then HsProtocol end;
  let* identities := readFull (agentLength + credentialIDLength + serverIdentityLength) in
  ret (mkSession (hex_encode (slice 8 24 response)) (string_of_bytes (slice 0 agentLength identities))
         (string_of_bytes (slice agentLength (agentLength + credentialIDLength) identities))
         (string_of_bytes (drop (Z.to_nat (agentLength + credentialIDLength)) identities)) incarnation version "").

Definition agentHandshake (credential : list Z) (incarnation maxCredential : Z) : connM SessionInfo :=
  agentHandshakeVersion credential incarnation maxCredential CurrentProductProtocolVersion.

(** ** The Server *)

Definition response_bytes (version : Z) (sessionBytes : list Z) (identity : CredentialIdentity) : list Z :=
  serverPreface ++ be_bytes 4 version ++ sessionBytes
  ++ be_bytes 2 (strlen (ci_AgentID identity)) ++ be_bytes 2 (strlen (ci_CredentialID identity)) ++ be_bytes 2 (strlen (ci_ServerIdentityID identity))
  ++ bytes_of (ci_AgentID identity) ++ bytes_of (ci_CredentialID identity) ++ bytes_of (ci_ServerIdentityID identity).

(** The random source yields 16 bytes or fails. *)
Definition serverHandshake (verifier : list Z -> time -> res hsErr CredentialIdentity) (now : time) (maxCredential : Z) (random : option (list Z)) : connM SessionInfo :=
  let* header := readFull 20 in
  if* negb (bool_decide (slice 0 4 header = agentPreface)) then HsProtocol end;
  let version := read_uint 4 8 header in
  if* negb (supportedProductProtocolVersion version) then HsProtocol end;
  let incarnation := read_uint 8 16 header in
  let credentialLength := read_uint 16 20 header in
  if* (incarnation =? 0) || (credentialLength =? 0) || (credentialLength >? maxCredential) then HsProtocol end;
  let* credential := readFull credentialLength in
  let* identity := of_res (verifier credential now) in
  if* str_empty (ci_AgentID identity) || str_empty (ci_CredentialID identity) || str_empty (ci_ServerIdentityID identity)
      || (strlen (ci_AgentID identity) >? 1024) || (strlen (ci_CredentialID identity) >? 1024) || (strlen (ci_ServerIdentityID identity) >? 1024)
  then HsAuthentication end;
  match random with
  | None => fail HsRandom
  | Some sessionBytes =>
    writeFull (response_bytes version sessionBytes identity) ;;;
    ret (mkSession (hex_encode sessionBytes) (ci_AgentID identity) (ci_CredentialID identity) (ci_ServerIdentityID identity) incarnation version "")
  end.

(** [IdentityVerifier.VerifyCredential]; a revoked credential is an authentication
    error of its own. *)
Definition IdentityVerifier (verify : list Z -> list Z -> list Z -> bool) (decode : list Z -> option Credential) (s : persistedState)
    (payload : list Z) (now : time) : res hsErr CredentialIdentity :=
  match ParseCredential decode payload with
  | Err _ => Err HsAuthentication
  | Ok credential =>
    match verifyCredential verify s credential now true with
    | Err ErrRevokedCredential => Err HsRevoked
    | Err _ => Err HsAuthentication
    | Ok _ => Ok (mkCredentialIdentity (cr_AgentID credential) (cr_CredentialID credential) (cr_ServerIdentityID credential))
    end
  end.

(** ** Connections *)

Lemma read_spec n c r c' : readFull n c = (r, c') -> cn_out c' = cn_out c /\
  forall bytes, r = Ok bytes -> cn_in c = bytes ++ cn_in c' /\ (0 <= n -> lenZ bytes = n).
Proof.
  unfold readFull. destruct (lenZ (cn_in c) <? n) eqn:E; intros [= <- <-]; [done|]. split; [done|]. intros bytes [= <-]. cbn [cn_in]. split; [by rewrite take_drop|].
  intros Hn. unfold lenZ in *. rewrite length_take. bool_to_prop. lia.
Qed.

Lemma read_app n bytes rest out writes : lenZ bytes = n -> readFull n (mkConn (bytes ++ rest) out writes) = (Ok bytes, mkConn rest out writes).
Proof.
  intros <-. unfold readFull, lenZ. cbn [cn_in cn_out cn_writes]. rewrite length_app, (proj2 (Z.ltb_ge _ _)) by lia. by rewrite Nat2Z.id, take_app_length, drop_app_length.
Qed.

(** Writing appends a prefix of the payload, all of it on success. *)
Lemma write_loop_spec writes : forall payload out, let '(r, out', _) := write_loop writes payload out in
  exists sent lost, payload = sent ++ lost /\ out' = out ++ sent /\ (r = Ok tt -> lost = []).
Proof.
  induction writes as [|wr writes IH]; intros [|b payload] out; cbn [write_loop].
  - exists [], []. split_and!; by rewrite ?app_nil_r.
  - exists (b :: payload), []. split_and!; by rewrite ?app_nil_r.
  - exists [], []. split_and!; by rewrite ?app_nil_r.
  - destruct wr as [[|n]|n].
    + exists [], (b :: payload). split_and!; by rewrite ?app_nil_r.
    + specialize (IH (drop (S n) (b :: payload)) (out ++ take (S n) (b :: payload))). destruct (write_loop _ _ _) as [[r out'] writes'].
      destruct IH as (sent & lost & E & Ho & Hr). exists (take (S n) (b :: payload) ++ sent), lost. rewrite <- app_assoc, <- E, take_drop. split_and!; [done | by rewrite Ho, <- app_assoc | done].
    + exists (take n (b :: payload)), (drop n (b :: payload)). split_and!; by rewrite ?take_drop.
Qed.

Lemma write_spec payload c r c' : writeFull payload c = (r, c') -> cn_in c' = cn_in c /\
  exists sent lost, payload = sent ++ lost /\ cn_out c' = cn_out c ++ sent /\ (r = Ok tt -> lost = []).
Proof.
  unfold writeFull. pose proof (write_loop_spec (cn_writes c) payload (cn_out c)) as H. destruct (write_loop _ _ _) as [[r' out] writes]. by intros [= <- <-].
Qed.

Lemma write_all payload inn out : writeFull payload (mkConn inn out []) = (Ok tt, mkConn inn (out ++ payload) []).
Proof. unfold writeFull. destruct payload; [|done]. simpl. by rewrite app_nil_r. Qed.

(** ** Numbers in a buffer *)

Lemma be_value_snoc acc l : be_value acc l = acc * 2 ^ (8 * lenZ l) + be_value 0 l.
Proof.
  revert acc. induction l as [|b l IH]; intros acc; [unfold lenZ; cbn; lia|]. unfold be_value in *. cbn [foldl]. rewrite IH, (IH (0 * 256 + b)).
  unfold lenZ. cbn [length]. replace (8 * Z.of_nat (S (length l))) with (8 + 8 * Z.of_nat (length l)) by lia. rewrite Z.pow_add_r by lia. lia.
Qed.

Lemma be_value_range l : Forall (fun b => 0 <= b < 256) l -> 0 <= be_value 0 l < 2 ^ (8 * lenZ l).
Proof.
  induction 1 as [|b l Hb _ IH]; [unfold lenZ; cbn; lia|]. unfold be_value in *. cbn [foldl]. change (foldl _ (0 * 256 + b) l) with (be_value (0 * 256 + b) l).
  rewrite be_value_snoc. change (foldl _ 0 l) with (be_value 0 l) in IH. unfold lenZ in *. cbn [length].
  replace (8 * Z.of_nat (S (length l))) with (8 + 8 * Z.of_nat (length l)) by lia. rewrite Z.pow_add_r by lia. nia.
Qed.

(** A buffer of bytes is the encoding of the number in it. *)
Lemma be_bytes_value l : Forall (fun b => 0 <= b < 256) l -> be_bytes (length l) (be_value 0 l) = l.
Proof.
  induction 1 as [|b l Hb Hl IH]; [done|]. cbn [length be_bytes]. change (be_value 0 (b :: l)) with (be_value (0 * 256 + b) l). rewrite be_value_snoc.
  pose proof (be_value_range l Hl) as Hr. unfold lenZ in *. rewrite Z.shiftr_div_pow2 by lia. rewrite Z.div_add_l by lia. rewrite (Z.div_small (be_value 0 l)) by lia. f_equal.
  - rewrite Z.mod_small; lia.
  - transitivity (be_bytes (length l) (be_value 0 l)); [|done]. apply be_bytes_eq. rewrite Z.add_comm. by rewrite Z_mod_plus_full.
Qed.

Lemma be_value_small n x : 0 <= x < 2 ^ (8 * Z.of_nat n) -> be_value 0 (be_bytes n x) = x.
Proof. intros Hx. rewrite be_value_bytes. by rewrite Z.mod_small. Qed.

Lemma value_slice n from until bytes : Forall (fun b => 0 <= b < 256) bytes -> length (slice from until bytes) = n ->
  slice from until bytes = be_bytes n (read_uint from until bytes) /\ 0 <= read_uint from until bytes < 2 ^ (8 * Z.of_nat n).
Proof.
  intros Hb Hn. assert (Forall (fun b => 0 <= b < 256) (slice from until bytes)) as Hs by (by apply Forall_take, Forall_drop). unfold read_uint. split.
  - rewrite <- Hn. by rewrite be_bytes_value.
  - pose proof (be_value_range _ Hs) as H. unfold lenZ in H. by rewrite Hn in H.
Qed.

(** A header that was read is one that an Agent writes. *)
Lemma header_read header : Forall (fun b => 0 <= b < 256) header -> lenZ header = 20 -> slice 0 4 header = agentPreface ->
  header = agentPreface ++ be_bytes 4 (read_uint 4 8 header) ++ be_bytes 8 (read_uint 8 16 header) ++ be_bytes 4 (read_uint 16 20 header) /\
  0 <= read_uint 8 16 header < 2 ^ 64 /\ 0 <= read_uint 16 20 header < 2 ^ 32.
Proof.
  intros Hb Hl Hp. assert (header = slice 0 4 header ++ slice 4 8 header ++ slice 8 16 header ++ slice 16 20 header /\ length (slice 4 8 header) = 4%nat /\
    length (slice 8 16 header) = 8%nat /\ length (slice 16 20 header) = 4%nat) as (E & L1 & L2 & L3).
  { unfold lenZ in Hl. do 20 (destruct header as [|? header]; [simpl in Hl; lia|]). destruct header; [|simpl in Hl; lia]. split_and!; reflexivity. }
  destruct (value_slice 4 4 8 header Hb L1) as [E1 _], (value_slice 8 8 16 header Hb L2) as [E2 R2], (value_slice 4 16 20 header Hb L3) as [E3 R3].
  split_and!; try (change (8 * Z.of_nat 8) with 64 in *; change (8 * Z.of_nat 4) with 32 in *; lia). rewrite E at 1. by rewrite Hp, E1, E2, E3.
Qed.

(** What the Agent finds in the fixed part of the answer. *)
Lemma response_fields version sb a c i : length sb = 16%nat -> 0 <= version < 2 ^ 32 -> 0 <= a <= 1024 -> 0 <= c <= 1024 -> 0 <= i <= 1024 ->
  let r := serverPreface ++ be_bytes 4 version ++ sb ++ be_bytes 2 a ++ be_bytes 2 c ++ be_bytes 2 i in
  lenZ r = 30 /\ slice 0 4 r = serverPreface /\ read_uint 4 8 r = version /\ slice 8 24 r = sb /\ read_uint 24 26 r = a /\ read_uint 26 28 r = c /\ read_uint 28 30 r = i.
Proof.
  intros Hsb Hv Ha Hc Hi. do 16 (destruct sb as [|? sb]; [simpl in Hsb; lia|]). destruct sb; [|simpl in Hsb; lia]. simpl.
  split_and!; try reflexivity; match goal with |- read_uint ?x ?y _ = ?v => transitivity (be_value 0 (be_bytes (Z.to_nat (y - x)) v)); [reflexivity | apply be_value_small] end.
  all: match goal with |- _ <= _ < ?m => let m' := eval vm_compute in m in change m with m' end; lia.
Qed.

(** ** Both sides *)

Lemma strlen_bytes s : lenZ (bytes_of s) = strlen s.
Proof. unfold lenZ, strlen. f_equal. induction s as [|c s IH]; [done|]. simpl. by rewrite IH. Qed.

Lemma strlen_pos s : str_empty s = false -> 0 < strlen s.
Proof. destruct s; [done|]. unfold strlen. simpl. lia. Qed.

(** A Server whose writes end well has sent its whole answer. *)
Lemma server_reads verifier now maxCredential random inn writes info c' :
  Forall (fun b => 0 <= b < 256) inn -> serverHandshake verifier now maxCredential random (mkConn inn [] writes) = (Ok info, c') ->
  exists version incarnation credential identity sb,
    inn = request_header version incarnation credential ++ credential ++ cn_in c' /\ supportedProductProtocolVersion version = true /\
    0 < incarnation < 2 ^ 64 /\ 0 < lenZ credential <= maxCredential /\ verifier credential now = Ok identity /\ random = Some sb /\
    info = mkSession (hex_encode sb) (ci_AgentID identity) (ci_CredentialID identity) (ci_ServerIdentityID identity) incarnation version "" /\
    cn_out c' = response_bytes version sb identity /\
    Forall (fun s => 0 < strlen s <= 1024) [ci_AgentID identity; ci_CredentialID identity; ci_ServerIdentityID identity].
Proof.
  intros Hb. unfold serverHandshake, bind at 1. destruct (readFull 20 _) as [[header|] c1] eqn:E1; [|done]. apply read_spec in E1 as [O1 HR1].
  destruct (HR1 header eq_refl) as [I1 L1]. specialize (L1 ltac:(lia)). cbn [cn_in cn_out] in *. rewrite I1 in Hb. apply Forall_app in Hb as [Hh _].
  destruct (bool_decide _) eqn:Ep; [|done]. apply bool_decide_eq_true in Ep. cbn [negb]. destruct (supportedProductProtocolVersion _) eqn:Ev; [|done]. cbn [negb].
  destruct (_ || _) eqn:Eg; [done|]. bool_to_prop. unfold bind at 1. destruct (readFull _ c1) as [[credential|] c2] eqn:E2; [|done]. apply read_spec in E2 as [O2 HR2].
  destruct (HR2 credential eq_refl) as [I2 L2]. destruct (header_read header Hh L1 Ep) as (Eh & Ri & Rl). specialize (L2 ltac:(lia)).
  unfold bind at 1, of_res. destruct (verifier credential now) as [identity|] eqn:Evf; [|done]. destruct (_ || _) eqn:Ei; [done|]. rewrite !orb_false_iff in Ei.
  destruct Ei as [[[[[Ea Ec] Es] La] Lc] Ls]. destruct random as [sb|]; [|done]. unfold bind at 1. destruct (writeFull _ c2) as [[[]|] c3] eqn:E3; [|done].
  apply write_spec in E3 as (I3 & sent & lost & Epay & O3 & Hlost). rewrite (Hlost eq_refl), app_nil_r in Epay. unfold ret. intros [= <- <-].
  exists (read_uint 4 8 header), (read_uint 8 16 header), credential, identity, sb. split_and!; try done; try lia.
  - rewrite I1, I2, I3. unfold request_header. rewrite L2, !app_assoc. rewrite !app_assoc in Eh. by rewrite <- Eh.
  - rewrite O3, O2, O1, <- Epay. done.
  - bool_to_prop. repeat constructor; try lia; by apply strlen_pos.
Qed.

Lemma answer_read version sb identity incarnation credential maxCredential more : length sb = 16%nat -> supportedProductProtocolVersion version = true ->
  incarnation <> 0 -> 0 < lenZ credential <= maxCredential ->
  Forall (fun s => 0 < strlen s <= 1024) [ci_AgentID identity; ci_CredentialID identity; ci_ServerIdentityID identity] ->
  agentHandshakeVersion credential incarnation maxCredential version (mkConn (response_bytes version sb identity ++ more) [] []) =
  (Ok (mkSession (hex_encode sb) (ci_AgentID identity) (ci_CredentialID identity) (ci_ServerIdentityID identity) incarnation version ""),
   mkConn more (request_header version incarnation credential ++ credential) []).
Proof.
  intros Hsb Hv Hi Hc Hid. destruct identity as [a c i]. cbn [ci_AgentID ci_CredentialID ci_ServerIdentityID] in *. inversion Hid as [|? ? Ha Hid1]. inversion Hid1 as [|? ? Hcr Hid2].
  inversion Hid2 as [|? ? Hs _]. unfold agentHandshakeVersion. replace (_ || _) with false by (symmetry; rewrite !orb_false_iff; lia).
  unfold bind at 1. rewrite write_all. unfold bind at 1. rewrite write_all. cbn [app]. unfold response_bytes. cbn [ci_AgentID ci_CredentialID ci_ServerIdentityID].
  assert (0 <= version < 2 ^ 32) as Hvr by (unfold supportedProductProtocolVersion, CurrentProductProtocolVersion, PreviousProductProtocolVersion in Hv; lia).
  destruct (response_fields version sb (strlen a) (strlen c) (strlen i)) as (L & F1 & F2 & F3 & F4 & F5 & F6); [done | done | lia | lia | lia|].
  set (r := serverPreface ++ _) in L, F1, F2, F3, F4, F5, F6.
  replace ((_ ++ _) ++ more) with (r ++ (bytes_of a ++ bytes_of c ++ bytes_of i) ++ more) by (unfold r; by rewrite <- !app_assoc).
  unfold bind at 1. rewrite read_app by done. rewrite F1, F2, F3, F4, F5, F6, bool_decide_eq_true_2, Hv, Z.eqb_refl by done. cbn [negb orb].
  replace (_ || _) with false by (symmetry; rewrite !orb_false_iff; lia). unfold bind at 1.
  rewrite read_app by (rewrite <- !strlen_bytes; unfold lenZ; rewrite !length_app; lia). unfold ret. do 2 f_equal. unfold slice.
  rewrite <- !strlen_bytes. unfold lenZ. rewrite Z.sub_0_r, Nat2Z.id. replace (Z.to_nat (Z.of_nat (length (bytes_of a)) + _)) with (length (bytes_of a) + length (bytes_of c))%nat by lia.
  replace (Z.to_nat (_ + _ - _)) with (length (bytes_of c)) by lia. f_equal.
  - change (Z.to_nat 0) with O. rewrite drop_0, take_app_length. apply string_of_bytes_of.
  - rewrite drop_app_length, take_app_length. apply string_of_bytes_of.
  - rewrite <- drop_drop, !drop_app_length. apply string_of_bytes_of.
Qed.

(** [C13] A session belongs to a verified credential, and both ends agree on it.
    Whatever bytes a peer sends, when the Server's handshake succeeds they were a
    request in a supported version with an incarnation and a credential within the
    limit, which the identity manager parsed and verified at that time; the session
    is for the Agent and the Server it names, and what follows the request is left
    unread. An Agent that sent this request and gets the answer, cut into writes at
    will, returns the same session and has read nothing more. *)
Theorem handshake_contract verify decode s now maxCredential random inn writes info c' :
  Forall (fun b => 0 <= b < 256) inn ->
  serverHandshake (IdentityVerifier verify decode s) now maxCredential random (mkConn inn [] writes) = (Ok info, c') ->
  exists version incarnation payload c,
    inn = request_header version incarnation payload ++ payload ++ cn_in c' /\ supportedProductProtocolVersion version = true /\
    0 < incarnation < 2 ^ 64 /\ 0 < lenZ payload <= maxCredential /\
    ParseCredential decode payload = Ok c /\ verifyCredential verify s c now true = Ok tt /\
    (si_AgentID info, si_CredentialID info, si_ServerIdentityID info) = (cr_AgentID c, cr_CredentialID c, cr_ServerIdentityID c) /\
    (si_Incarnation info, si_ProtocolVersion info) = (incarnation, version) /\
    forall maxAgent more, lenZ payload <= maxAgent -> (forall sb, random = Some sb -> length sb = 16%nat) ->
      agentHandshakeVersion payload incarnation maxAgent version (mkConn (cn_out c' ++ more) [] []) =
      (Ok info, mkConn more (request_header version incarnation payload ++ payload) []).
Proof.
  intros Hb H. apply server_reads in H as (version & incarnation & payload & identity & sb & Hin & Hv & Hi & Hl & Hver & -> & -> & Hout & Hid); [|done].
  unfold IdentityVerifier in Hver. destruct (ParseCredential decode payload) as [c|] eqn:Ep; [|done]. destruct (verifyCredential verify s c now true) as [[]|[]] eqn:Ev; try done.
  injection Hver as <-. exists version, incarnation, payload, c. split_and!; try done; try lia. intros maxAgent more Hmax Hsb. rewrite Hout. apply answer_read; [by apply Hsb | done | lia | lia | done].
Qed.

(** ** A demonstration *)

(** A credential as its own text: the decoder knows one. *)
Definition toy_payload : list Z := [1; 2; 3].
Definition toy_decode (payload : list Z) : option Credential := if bool_decide (payload = toy_payload) then Some toy_credential else None.
Definition toy_handshake := serverHandshake (IdentityVerifier toy_verify toy_decode (im_state toy_open)) 10 64 (Some (replicate 16 5))
  (mkConn (request_header 2 7 toy_payload ++ toy_payload ++ [42]) [] [Written 3; Written 20]).
Definition toy_session : SessionInfo := match toy_handshake.1 with Ok i => i | Err _ => mkSession "" "" "" "" 0 0 "" end.

Lemma handshake_contract_witness : toy_handshake.1 = Ok toy_session /\ si_AgentID toy_session = "agent" /\
  exists version incarnation payload c, verifyCredential toy_verify (im_state toy_open) c 10 true = Ok tt /\
    (agentHandshakeVersion payload incarnation 64 version (mkConn (cn_out toy_handshake.2) [] [])).1 = Ok toy_session.
Proof.
  assert (toy_handshake = (Ok toy_session, toy_handshake.2)) as E by (vm_compute; reflexivity). split_and!; [by rewrite E at 1 | vm_compute; reflexivity|].
  destruct (handshake_contract toy_verify toy_decode (im_state toy_open) 10 64 (Some (replicate 16 5)) (request_header 2 7 toy_payload ++ toy_payload ++ [42])
    [Written 3; Written 20] toy_session toy_handshake.2) as (version & incarnation & payload & c & _ & _ & _ & Hl & _ & Hv & _ & _ & Ha);
    [apply (bool_decide_unpack _); vm_compute; exact I | exact E|].
  exists version, incarnation, payload, c. split; [done|]. rewrite <- (app_nil_r (cn_out _)). rewrite Ha; [done | lia | by intros sb [= <-]].
Defined.
