(* ===== verification/Session.v ===== *)
(** * Sessions of Agents

    Models [internal/producttransport/registry.go], the control session of
    [grpc.go] as far as it concerns the registry (accepting, heartbeats, closing,
    its state), the Agent rows of [internal/serverstore] ([store.go], [agents.go])
    and the restoring store of [internal/serverruntime/runtime.go]. The rows are
    those of [Registration]. Before every statement other processes may change the
    database; a statement fails when the next outcome says so. A session is found
    by its identifier, 16 random bytes that are taken to be fresh. *)

From S2P Require Import Prelude GoText Identity AgentId Registration Handshake.

(** ** State *)

Inductive sessErr :=
| SeInvalid | SeNoRows | SeStore | SeCorrupt | SeRegressed | SeStale (offered lastAccepted : Z) | SeNoProgress | SeRetired | SeNotFound | SeRounds.

Record registryRecord := mkRecord { rr_lastIncarnation : Z; rr_loaded : bool; rr_active : option SessionInfo }.

Inductive closeCause := CauseReplaced | CauseRejected | CauseUnavailable | CauseOther.

Record controlSession := mkControl { cs_info : SessionInfo; cs_closed : option closeCause; cs_lastHeartbeat : time }.

Record sworld := mkSworld {
  sw_db : regDB;
  sw_records : gmap string registryRecord;
  sw_sessions : gmap string controlSession;
  sw_outcomes : list bool;
  sw_others : list (regDB -> regDB);
}.

Definition sessM := M sworld sessErr.

Definition put_db (d : regDB) (w : sworld) : sworld := mkSworld d (sw_records w) (sw_sessions w) (sw_outcomes w) (sw_others w).
Definition put_record (agentID : string) (r : registryRecord) : sessM unit :=
  modify (fun w => mkSworld (sw_db w) (<[agentID := r]> (sw_records w)) (sw_sessions w) (sw_outcomes w) (sw_others w)).
Definition put_session (s : controlSession) : sessM unit :=
  modify (fun w => mkSworld (sw_db w) (sw_records w) (<[si_SessionID (cs_info s) := s]> (sw_sessions w)) (sw_outcomes w) (sw_others w)).

(** The driver's next result. *)
Definition driver : sessM unit := fun w =>
  match sw_outcomes w with
  | [] => (Ok tt, w)
  | b :: bs => ((if b then Ok tt else Err SeStore), mkSworld (sw_db w) (sw_records w) (sw_sessions w) bs (sw_others w))
  end.
(** Other processes, then the statement. *)
Definition statement : sessM unit := fun w =>
  match sw_others w with
  | [] => driver w
  | f :: fs => driver (mkSworld (f (sw_db w)) (sw_records w) (sw_sessions w) (sw_outcomes w) fs)
  end.

(** ** The Agent rows *)

Definition update_agents (cond : agentRow -> bool) (f : agentRow -> agentRow) : sessM Z :=
  let* d := gets sw_db in
  modify (put_db (mkRegDB (db_tokens d) ((fun a => if cond a then f a else a) <$> db_agents d))) ;;;
  ret (lenZ (filter (fun a => cond a = true) (db_agents d))).

Definition LoadIncarnation (agentID : string) : sessM Z :=
  if* str_empty agentID then SeInvalid end;
  statement ;;;
  let* d := gets sw_db in
  match find_agent agentID d with
  | None => fail SeNoRows
  | Some row => if* ag_incarnation row <? 0 then SeCorrupt end; ret (ag_incarnation row)
  end.

Definition set_incarnation (n : Z) (a : agentRow) : agentRow :=
  mkAgent (ag_id a) (ag_display a) (ag_first a) (ag_last a) (ag_metadata a) (ag_retired a) n.

Definition at_watermark (agentID : string) (old : Z) (a : agentRow) : bool := bool_decide (ag_id a = agentID) && (ag_incarnation a =? old).

Definition CompareAndSwapIncarnation (agentID : string) (old next : Z) : sessM bool :=
  if* str_empty agentID || (next <=? old) || (old >? max_i64) || (next >? max_i64) then SeInvalid end;
  statement ;;;
  let* rows := update_agents (at_watermark agentID old) (set_incarnation next) in
  driver ;;;
  ret (rows =? 1).

Definition RestoreAuthenticatedAgent (agentID : string) (observedAt : time) : sessM unit :=
  if* str_empty agentID || is_zero observedAt then SeInvalid end;
  statement ;;;
  let* d := gets sw_db in
  match find_agent agentID d with
  | None => modify (put_db (add_agent (mkAgent agentID agentID observedAt observedAt "{}" None 0) d)) ;;; driver
  | Some _ =>
    driver ;;;
    statement ;;;
    let* d := gets sw_db in
    match find_agent agentID d with
    | None => fail SeStore
    | Some row => if* bool_decide (is_Some (ag_retired row)) then SeRetired end; ret tt
    end
  end.

(** [restoringWatermarkStore.LoadIncarnation] *)
Definition restoring_load (agentID : string) (now : time) : sessM Z :=
  let* loaded := attempt (LoadIncarnation agentID) in
  match loaded with
  | Err SeNoRows => RestoreAuthenticatedAgent agentID now ;;; LoadIncarnation agentID
  | r => of_res r
  end.

Definition seen (at_ : time) (a : agentRow) : agentRow :=
  mkAgent (ag_id a) (ag_display a) (ag_first a) (if ag_last a <? at_ then at_ else ag_last a) (ag_metadata a) (ag_retired a) (ag_incarnation a).

Definition TouchAgentLastSeen (agentID : string) (observedAt : time) : sessM unit :=
  if* str_empty agentID || is_zero observedAt then SeInvalid end;
  statement ;;;
  let* rows := update_agents (fun a => bool_decide (ag_id a = agentID) && bool_decide (ag_retired a = None)) (seen observedAt) in
  driver ;;;
  if* negb (rows =? 1) then SeNotFound end;
  ret tt.

(** ** The registry *)

Definition SessionClosed (agentID sessionID : string) : sessM unit :=
  let* records := gets sw_records in
  match records !! agentID with
  | Some record =>
    match rr_active record with
    | Some active => if bool_decide (si_SessionID active = sessionID) then put_record agentID (mkRecord (rr_lastIncarnation record) (rr_loaded record) None) else ret tt
    | None => ret tt
    end
  | None => ret tt
  end.

Definition Current (agentID : string) (w : sworld) : option SessionInfo := sw_records w !! agentID ≫= rr_active.

(** [controlSession.Close]: once. *)
Definition Close (sessionID : string) (cause : closeCause) : sessM unit :=
  let* sessions := gets sw_sessions in
  match sessions !! sessionID with
  | Some s =>
    if bool_decide (is_Some (cs_closed s)) then ret tt
    else
      put_session (mkControl (cs_info s) (Some cause) (cs_lastHeartbeat s)) ;;;
      SessionClosed (si_AgentID (cs_info s)) (si_SessionID (cs_info s))
  | None => ret tt
  end.

Definition set_last (n : Z) (r : registryRecord) : registryRecord := mkRecord n (rr_loaded r) (rr_active r).

Section Registry.
(** Whether the registry has a durable store. *)
Context (durable : bool).

(** The loop; [fuel] bounds its rounds. *)
Fixpoint cas_loop (fuel : nat) (info : SessionInfo) (now : time) (record : registryRecord) : sessM registryRecord :=
  if negb (durable && (si_Incarnation info >? rr_lastIncarnation record)) then ret record
  else
    match fuel with
    | O => fail SeRounds
    | S fuel =>
      let previousWatermark := rr_lastIncarnation record in
      let* swapped := CompareAndSwapIncarnation (si_AgentID info) previousWatermark (si_Incarnation info) in
      if (swapped : bool) then ret (set_last (si_Incarnation info) record)
      else
        let* last := restoring_load (si_AgentID info) now in
        if* last <=? previousWatermark then SeNoProgress end;
        if si_Incarnation info <? last
        then put_record (si_AgentID info) (set_last last record) ;;; fail (SeStale (si_Incarnation info) last)
        else cas_loop fuel info now (set_last last record)
    end.

(** Under the lock; a round that goes on used up an action of another process. *)
Definition RegisterContext (info : SessionInfo) (now : time) : sessM unit :=
  if* str_empty (si_AgentID info) || str_empty (si_SessionID info) || (si_Incarnation info =? 0) then SeInvalid end;
  let* records := gets sw_records in
  let record := default (mkRecord 0 false None) (records !! si_AgentID info) in
  let* last :=
    if durable then
      let* last := restoring_load (si_AgentID info) now in
      if* rr_loaded record && (last <? rr_lastIncarnation record) then SeRegressed end;
      ret last
    else ret (rr_lastIncarnation record) in
  let record := mkRecord last true (rr_active record) in
  if si_Incarnation info <? last
  then put_record (si_AgentID info) record ;;; fail (SeStale (si_Incarnation info) last)
  else
    let* rounds := gets (fun w => length (sw_others w)) in
    let* record := cas_loop (S rounds) info now record in
    put_record (si_AgentID info) (mkRecord (si_Incarnation info) (rr_loaded record) (Some info)) ;;;
    match rr_active record with
    | Some previous => if bool_decide (si_SessionID previous = si_SessionID info) then ret tt else Close (si_SessionID previous) CauseReplaced
    | None => ret tt
    end.

(** [ServerAcceptor.Accept] after the handshake *)
Definition Accept (info : SessionInfo) (now : time) : sessM unit :=
  put_session (mkControl info None now) ;;;
  let* registered := attempt (RegisterContext info now) in
  match registered with
  | Ok _ => ret tt
  | Err e => put_session (mkControl info (Some CauseRejected) now) ;;; fail e
  end.
End Registry.

(** The end of a heartbeat: an answer at a time, or a failure. *)
Inductive heartbeat_result := Answered (at_ : time) | Unavailable | HeartbeatFailed.

Definition Heartbeat (sessionID : string) (result : heartbeat_result) : sessM unit :=
  let* sessions := gets sw_sessions in
  match sessions !! sessionID with
  | Some s =>
    if* bool_decide (is_Some (cs_closed s)) then SeInvalid end;
    match result with
    | Answered at_ => put_session (mkControl (cs_info s) (cs_closed s) at_)
    | Unavailable => Close sessionID CauseUnavailable ;;; fail SeInvalid
    | HeartbeatFailed => fail SeInvalid
    end
  | None => fail SeInvalid
  end.

Inductive State := StateActive | StateOffline | StateClosed.

Definition DefaultOfflineAfter : Z := 90 * 1000000000.
Definition session_state (offlineAfter : Z) (s : controlSession) (now : time) : State :=
  if bool_decide (is_Some (cs_closed s)) then StateClosed
  else if offlineAfter <=? sat_i64 (now - cs_lastHeartbeat s) then StateOffline
  else StateActive.

(** ** What happens to the rows *)

Definition watermark (agentID : string) (d : regDB) : option Z := ag_incarnation <$> find_agent agentID d.

(** Rows keep their place and their incarnation does not fall. *)
Definition db_le (d d' : regDB) : Prop := forall id n, watermark id d = Some n -> exists n', watermark id d' = Some n' /\ n <= n'.
Definition unique (d : regDB) : Prop := NoDup (ag_id <$> db_agents d).
(** Another process that keeps the primary key and moves incarnations forward. *)
Definition raises (f : regDB -> regDB) : Prop := forall d, unique d -> unique (f d) /\ db_le d (f d).

#[export] Instance db_le_preorder : PreOrder db_le.
Proof.
  split; [intros d id n H; by exists n|]. intros d1 d2 d3 H1 H2 id n H. destruct (H1 id n H) as (n2 & E2 & L2). destruct (H2 id n2 E2) as (n3 & E3 & L3). exists n3. split; [done | lia].
Qed.

Lemma find_fmap f id l : (forall a : agentRow, ag_id (f a) = ag_id a) ->
  List.find (fun a => bool_decide (ag_id a = id)) (f <$> l) = f <$> List.find (fun a => bool_decide (ag_id a = id)) l.
Proof. intros Hf. induction l as [|a l IH]; [done|]. simpl. rewrite Hf. destruct (bool_decide _); [done | exact IH]. Qed.

Lemma find_add id row l : List.find (fun a => bool_decide (ag_id a = id)) (l ++ [row]) =
  match List.find (fun a => bool_decide (ag_id a = id)) l with Some a => Some a | None => if bool_decide (ag_id row = id) then Some row else None end.
Proof. induction l as [|a l IH]; [done|]. simpl. destruct (bool_decide (ag_id a = id)); [done | exact IH]. Qed.

(** Changing rows in place. *)
Lemma update_rows f d : (forall a, ag_id (f a) = ag_id a /\ ag_incarnation a <= ag_incarnation (f a)) ->
  db_le d (mkRegDB (db_tokens d) (f <$> db_agents d)) /\ (unique d -> unique (mkRegDB (db_tokens d) (f <$> db_agents d))).
Proof.
  intros Hf. split.
  - intros id n H. unfold watermark, find_agent in *. cbn [db_agents]. rewrite find_fmap by (intros a; apply Hf). destruct (List.find _ _) as [a|]; [|done].
    injection H as <-. eexists. split; [done | apply Hf].
  - unfold unique. cbn [db_agents]. rewrite <- list_fmap_compose, (list_fmap_ext (ag_id ∘ f) ag_id); [done|]. intros i a _. apply Hf.
Qed.

Lemma find_agent_none id d : find_agent id d = None -> id ∉ (ag_id <$> db_agents d).
Proof.
  unfold find_agent. intros E (a & -> & Ha)%list_elem_of_fmap. apply list_elem_of_In in Ha. pose proof (find_none _ _ E a Ha) as Hn. simpl in Hn. by rewrite bool_decide_eq_true_2 in Hn.
Qed.

Lemma add_rows row d : find_agent (ag_id row) d = None -> db_le d (add_agent row d) /\ (unique d -> unique (add_agent row d)).
Proof.
  intros Hf. split.
  - intros id n H. exists n. split; [|lia]. unfold watermark, find_agent, add_agent in *. cbn [db_agents]. revert H. rewrite find_add. clear Hf. by destruct (List.find _ _).
  - unfold unique, add_agent. cbn [db_agents]. intros Hu. rewrite fmap_app. apply NoDup_app. split_and!; [done | | apply NoDup_singleton].
    intros x Hx ->%list_elem_of_singleton. by apply find_agent_none in Hf.
Qed.

(** *** Statements *)

Definition store_ok (w : sworld) : Prop := unique (sw_db w) /\ Forall raises (sw_others w).
Definition store_evo (w w' : sworld) : Prop :=
  db_le (sw_db w) (sw_db w') /\ sw_records w' = sw_records w /\ sw_sessions w' = sw_sessions w /\ (length (sw_others w') <= length (sw_others w))%nat.

#[export] Instance store_evo_preorder : PreOrder store_evo.
Proof.
  split; [intros w; by split_and!|]. intros w1 w2 w3 (A & B & C & D) (A' & B' & C' & D'). split_and!; [by etransitivity | congruence | congruence | lia].
Qed.

Abbreviation striple := (triple (E := sessErr) store_ok store_evo).

Lemma driver_triple P : (forall w w', sw_db w' = sw_db w -> sw_others w' = sw_others w -> P w -> P w') -> striple P driver (fun _ => P).
Proof.
  intros Hp w Hi HP. unfold driver. destruct (sw_outcomes w) as [|b bs]; cbn [fst snd]; [by split_and!|]. split_and!; [done | by split_and! |].
  intros u _. by apply (Hp w).
Qed.

Lemma statement_triple : striple (fun _ => True) statement (fun _ _ => True).
Proof.
  intros w [Hu Hr] _. unfold statement. destruct (sw_others w) as [|f fs] eqn:Eo; [apply (driver_triple (fun _ => True)); [done | by split; [|rewrite Eo] | done]|].
  apply Forall_cons in Hr as [Hf Hr]. destruct (Hf _ Hu) as [Hu' Hle]. set (w1 := mkSworld _ _ _ _ _).
  destruct (driver_triple (fun _ => True) ltac:(done) w1) as (H1 & H2 & _); [by split | done|]. split_and!; try done.
  transitivity w1; [|done]. split_and!; try done. unfold w1. simpl. rewrite Eo. simpl. lia.
Qed.

(** The value that was read is the one of the state. *)
Lemma striple_gets {A B} (f : sworld -> A) (k : A -> sessM B) P Q :
  (forall a, striple (fun w => P w /\ f w = a) (k a) Q) -> striple P (bind (gets f) k) Q.
Proof. intros H w Hi Hp. by apply (H (f w)). Qed.

Lemma load_triple agentID : striple (fun _ => True) (LoadIncarnation agentID) (fun n w => watermark agentID (sw_db w) = Some n).
Proof.
  unfold LoadIncarnation. apply triple_if; intros _; [triple_fails|]. triple_seq; [apply statement_triple|]. intros []. apply striple_gets. intros d.
  destruct (find_agent agentID d) as [row|] eqn:Ef; [|triple_fails]. apply triple_if; intros _; [triple_fails|]. triple_returns.
  intros w _ [_ <-]. unfold watermark. by rewrite Ef.
Qed.

Lemma restore_triple agentID now : striple (fun _ => True) (RestoreAuthenticatedAgent agentID now) (fun _ _ => True).
Proof.
  unfold RestoreAuthenticatedAgent. apply triple_if; intros _; [triple_fails|]. triple_seq; [apply statement_triple|]. intros []. apply striple_gets. intros d.
  destruct (find_agent agentID d) as [row|] eqn:Ef.
  - apply (triple_weaken _ _ _ (fun _ => True) _ (fun _ _ => True)); [|done|done]. triple_seq; [by apply driver_triple|]. intros []. triple_seq; [apply statement_triple|]. intros []. apply striple_gets. intros d'.
    destruct (find_agent agentID d'); [|triple_fails]. apply triple_if; intros _; [triple_fails | triple_returns].
  - apply (triple_bind _ _ _ _ _ (fun _ _ => True)); [|intros []; by apply (driver_triple (fun _ => True))]. intros w [Hu Hr] [_ <-].
    destruct (add_rows (mkAgent agentID agentID now now "{}" None 0) (sw_db w) Ef) as [Hle Hun]. split_and!; [split; simpl; auto | by split_and! | done].
Qed.

Lemma restoring_triple agentID now : striple (fun _ => True) (restoring_load agentID now) (fun n w => watermark agentID (sw_db w) = Some n).
Proof.
  intros w Hi _. unfold restoring_load, bind, attempt, of_res. destruct (load_triple agentID w Hi I) as (Hi1 & He1 & Hq1).
  destruct (LoadIncarnation agentID w) as [[n|e] w1]; cbn [fst snd] in *; [by split_and!|].
  destruct e; try (by split_and!). destruct (restore_triple agentID now w1 Hi1 I) as (Hi2 & He2 & _).
  destruct (RestoreAuthenticatedAgent agentID now w1) as [[[]|e] w2]; cbn [fst snd] in *; [|split_and!; [done | by etransitivity | done]].
  destruct (load_triple agentID w2 Hi2 I) as (Hi3 & He3 & Hq3). split_and!; [done | etransitivity; [exact He1|]; by etransitivity | done].
Qed.

(** A counted row of a table with a key is the one found by its key. *)
Lemma find_counted cond agentID d : unique d -> (forall a, cond a = true -> ag_id a = agentID) ->
  lenZ (filter (fun a => cond a = true) (db_agents d)) = 1 <-> exists a, find_agent agentID d = Some a /\ cond a = true.
Proof.
  intros Hu Hc. unfold find_agent, unique in *. induction (db_agents d) as [|a l IH].
  - split; [done | by intros (a & ? & _)].
  - rewrite fmap_cons in Hu. apply NoDup_cons in Hu as [Hn Hu]. specialize (IH Hu). cbn [List.find]. destruct (cond a) eqn:Ea.
    + rewrite filter_cons_True, (Hc a Ea), bool_decide_eq_true_2 by done. split; [intros _; by exists a|]. intros _. unfold lenZ. cbn [length].
      rewrite filter_none; [done|]. intros x Hx. destruct (cond x) eqn:Ex; [|done]. destruct Hn. rewrite (Hc a Ea), <- (Hc x Ex). by apply list_elem_of_fmap_2.
    + rewrite filter_cons_False by (by rewrite Ea). destruct (bool_decide (ag_id a = agentID)) eqn:Eid; [|done]. bool_to_prop. split.
      * intros H%IH. destruct H as (x & Hx & _). apply find_some in Hx as [Hx Hid]. bool_to_prop. destruct Hn. rewrite Eid, <- Hid. by apply list_elem_of_fmap_2, list_elem_of_In.
      * intros (x & [= <-] & Hx). congruence.
Qed.

Lemma at_watermark_iff agentID old d : (exists a, find_agent agentID d = Some a /\ at_watermark agentID old a = true) <-> watermark agentID d = Some old.
Proof.
  unfold watermark, at_watermark. split.
  - intros (a & -> & H). bool_to_prop. simpl. congruence.
  - destruct (find_agent agentID d) as [a|] eqn:Ef; [|done]. intros [= <-]. exists a. split; [done|]. apply find_some in Ef as [_ Hid]. rewrite Hid. simpl. by apply Z.eqb_eq.
Qed.

(** The conditional update: it swaps exactly when the watermark is the old one. *)
Lemma swap_triple agentID old next : old < next ->
  striple (fun _ => True) (update_agents (at_watermark agentID old) (set_incarnation next)) (fun rows w => rows = 1 -> watermark agentID (sw_db w) = Some next).
Proof.
  intros Hlt w [Hu Hr] _. unfold update_agents, bind, gets, modify, ret. cbn [fst snd].
  destruct (update_rows (fun a => if at_watermark agentID old a then set_incarnation next a else a) (sw_db w)) as [Hle Hun].
  { intros a. unfold at_watermark. case_if; [|by split]. bool_to_prop. split; [done|]. simpl. lia. }
  split_and!; [split; simpl; auto | by split_and! |]. intros rows [= <-] H. apply (find_counted _ agentID) in H as (a & Hf & Ha); [| done | intros a Ha; unfold at_watermark in Ha; by bool_to_prop].
  unfold watermark, find_agent in *. simpl. rewrite find_fmap by (intros x; by case_if). by rewrite Hf; simpl; rewrite Ha.
Qed.

Lemma cas_triple agentID old next : striple (fun _ => True) (CompareAndSwapIncarnation agentID old next)
  (fun swapped w => swapped = true -> watermark agentID (sw_db w) = Some next).
Proof.
  unfold CompareAndSwapIncarnation. destruct (_ || _) eqn:Eg; [triple_fails|]. bool_to_prop. triple_seq; [apply statement_triple|]. intros [].
  triple_seq; [apply swap_triple; lia|]. intros rows. triple_seq; [apply driver_triple; intros w w' E _; by rewrite E|]. intros []. triple_returns.
  intros w _ Hw Hrows%Z.eqb_eq. auto.
Qed.

(** *** Errors of the store *)

(** The store never answers for the registry. *)
Definition plain (e : sessErr) : Prop := match e with SeStale _ _ | SeRounds => False | _ => True end.
Definition plain_m {A} (m : sessM A) : Prop := forall w e, (m w).1 = Err e -> plain e.

Create HintDb plain.

Lemma plain_ret {A} (a : A) : plain_m (ret a).
Proof. by intros w e. Qed.
Lemma plain_fail {A} e : plain e -> plain_m (fail (A := A) e).
Proof. by intros He w e' [= <-]. Qed.
Lemma plain_gets {A} (f : sworld -> A) : plain_m (gets f).
Proof. by intros w e. Qed.
Lemma plain_modify f : plain_m (modify f).
Proof. by intros w e. Qed.
Lemma plain_bind {A B} (m : sessM A) (f : A -> sessM B) : plain_m m -> (forall a, plain_m (f a)) -> plain_m (bind m f).
Proof. intros Hm Hf w e. unfold bind. specialize (Hm w). destruct (m w) as [[a|e'] w']; [apply Hf | by intros [= <-]; apply Hm]. Qed.
Lemma plain_driver : plain_m driver.
Proof. intros w e. unfold driver. destruct (sw_outcomes w) as [|[] bs]; [done | done | by intros [= <-]]. Qed.
Lemma plain_statement : plain_m statement.
Proof. intros w e. unfold statement. destruct (sw_others w); apply plain_driver. Qed.
#[export] Hint Resolve plain_ret plain_fail plain_gets plain_modify plain_bind plain_driver plain_statement : plain.
#[export] Hint Extern 1 (plain _) => exact I : plain.

Ltac plain_tac := repeat (apply plain_bind; [auto with plain | intros ?]); repeat (case_match; auto with plain); auto with plain.

Lemma plain_load agentID : plain_m (LoadIncarnation agentID).
Proof. unfold LoadIncarnation. case_match; [by apply plain_fail|]. plain_tac. Qed.
Lemma plain_restore agentID now : plain_m (RestoreAuthenticatedAgent agentID now).
Proof.
  unfold RestoreAuthenticatedAgent. case_match; [by apply plain_fail|]. do 2 (apply plain_bind; [auto with plain | intros ?]). case_match; plain_tac.
Qed.
Lemma plain_restoring agentID now : plain_m (restoring_load agentID now).
Proof.
  intros w e. unfold restoring_load, attempt, bind at 1. pose proof (plain_load agentID w) as H. destruct (LoadIncarnation agentID w) as [[n|e1] w1]; [done|].
  assert (plain e1) as Hp by (by apply H). assert (forall e', (of_res (Err e1) w1).1 = Err (A := Z) e' -> plain e') as Hof by (by intros e' [= <-]).
  destruct e1; try apply Hof. apply plain_bind; [apply plain_restore | intros _; apply plain_load].
Qed.
Lemma plain_cas agentID old next : plain_m (CompareAndSwapIncarnation agentID old next).
Proof. unfold CompareAndSwapIncarnation. case_match; [by apply plain_fail|]. unfold update_agents. auto 10 with plain. Qed.

(** *** The loop *)

Lemma statement_uses w : sw_others w <> [] -> (length (sw_others (statement w).2) < length (sw_others w))%nat.
Proof. unfold statement. destruct (sw_others w) as [|f fs]; [done|]. intros _. unfold driver. simpl. destruct (sw_outcomes w); simpl; lia. Qed.

(** A swap that fails was overtaken by another process. *)
Lemma cas_overtaken agentID old next w w' : store_ok w -> watermark agentID (sw_db w) = Some old -> CompareAndSwapIncarnation agentID old next w = (Ok false, w') ->
  (length (sw_others w') < length (sw_others w))%nat.
Proof.
  intros [Hu Hr] Hw. unfold CompareAndSwapIncarnation. destruct (_ || _) eqn:Eg; [done|]. bool_to_prop. unfold bind at 1.
  pose proof (statement_uses w) as Huse. destruct (sw_others w) as [|f fs] eqn:Eo.
  - unfold statement. rewrite Eo. assert (sw_db (driver w).2 = sw_db w) as Hdb by (unfold driver; by destruct (sw_outcomes w)). destruct (driver w) as [[[]|e] w1]; [|done].
    cbn [snd] in Hdb. unfold update_agents, bind, gets, modify, ret. destruct (driver _) as [[[]|e] w2]; [|done]. intros [= Hrows <-]. exfalso. apply Z.eqb_neq in Hrows. apply Hrows.
    rewrite Hdb. apply (find_counted _ agentID); [done | intros a Ha; unfold at_watermark in Ha; by bool_to_prop|]. by apply at_watermark_iff.
  - specialize (Huse ltac:(done)). destruct (statement w) as [[[]|e] w1]; [|done]. cbn [snd] in Huse. unfold update_agents, bind, gets, modify, ret.
    assert (forall v, sw_others (driver v).2 = sw_others v) as Hdo by (intros v; unfold driver; by destruct (sw_outcomes v)).
    match goal with |- context [driver ?v] => specialize (Hdo v); destruct (driver v) as [[[]|e] w2] end; [|done]. intros [= _ <-]. cbn [snd] in Hdo. rewrite Hdo. simpl. exact Huse.
Qed.

(** How a call changes the world outside the registry's records. *)
Definition outside (w w' : sworld) : Prop := store_ok w' /\ db_le (sw_db w) (sw_db w') /\ sw_sessions w' = sw_sessions w.

Lemma outside_refl w : store_ok w -> outside w w.
Proof. intros Hi. by split_and!. Qed.
Lemma outside_trans w w1 w2 : outside w w1 -> outside w1 w2 -> outside w w2.
Proof. intros (A & B & C) (A' & B' & C'). split_and!; [done | by etransitivity | congruence]. Qed.

(** What the loop leaves: the watermark is at least the offered incarnation, or the
    offer is refused against a higher one. *)
Definition settled (info : SessionInfo) (record : registryRecord) (w w' : sworld) (r : res sessErr registryRecord) : Prop :=
  match r with
  | Ok record' => sw_records w' = sw_records w /\ rr_active record' = rr_active record /\ rr_loaded record' = rr_loaded record /\
      exists n, watermark (si_AgentID info) (sw_db w') = Some n /\ si_Incarnation info <= n
  | Err e =>
      (sw_records w' = sw_records w \/
       exists last, sw_records w' = <[si_AgentID info := set_last last record]> (sw_records w) /\ watermark (si_AgentID info) (sw_db w') = Some last) /\
      forall o l, e = SeStale o l -> o = si_Incarnation info /\ o < l /\ watermark (si_AgentID info) (sw_db w') = Some l
  end.

Lemma cas_loop_spec fuel info now : forall record w r w', store_ok w -> watermark (si_AgentID info) (sw_db w) = Some (rr_lastIncarnation record) ->
  rr_lastIncarnation record <= si_Incarnation info -> cas_loop true fuel info now record w = (r, w') ->
  outside w w' /\ settled info record w w' r /\ ((length (sw_others w) < fuel)%nat -> r <> Err SeRounds).
Proof.
  induction fuel as [|fuel IH]; intros record w r w' Hi Hw Hle; cbn [cas_loop]; cbn [andb].
  { destruct (_ >? _) eqn:Eg; cbn [negb].
    - intros [= <- <-]. split_and!; [by apply outside_refl | by split; [left|] | lia].
    - intros [= <- <-]. bool_to_prop. split_and!; [by apply outside_refl | split_and!; [done..|]; exists (rr_lastIncarnation record); split; [done | lia] | lia]. }
  destruct (_ >? _) eqn:Eg; cbn [negb].
  2:{ intros [= <- <-]. bool_to_prop. split_and!; [by apply outside_refl | split_and!; [done..|]; exists (rr_lastIncarnation record); split; [done | lia] | done]. }
  unfold bind at 1. destruct (cas_triple (si_AgentID info) (rr_lastIncarnation record) (si_Incarnation info) w Hi I) as (Hi1 & He1 & Hq1).
  pose proof (plain_cas (si_AgentID info) (rr_lastIncarnation record) (si_Incarnation info) w) as Hp1.
  destruct (CompareAndSwapIncarnation _ _ _ w) as [[[]|e] w1] eqn:Ec; cbn [fst snd] in *; destruct He1 as (D1 & R1 & S1 & L1).
  - intros [= <- <-]. split_and!; [by split_and! | | done]. split_and!; [done..|]. exists (si_Incarnation info). split; [by apply (Hq1 true) | lia].
  - apply cas_overtaken in Ec; [|done|done]. unfold bind at 1. destruct (restoring_triple (si_AgentID info) now w1 Hi1 I) as (Hi2 & (D2 & R2 & S2 & L2) & Hq2).
    pose proof (plain_restoring (si_AgentID info) now w1) as Hp2. destruct (restoring_load _ _ w1) as [[last|e] w2]; cbn [fst snd] in *.
    + specialize (Hq2 last eq_refl). assert (outside w w2) as Ho by (split_and!; [done | by etransitivity | congruence]).
      destruct (last <=? rr_lastIncarnation record); [intros [= <- <-]; split_and!; [done | split; [left; congruence | done] | done]|].
      destruct (si_Incarnation info <? last) eqn:Es.
      * unfold bind, put_record, modify, fail. intros [= <- <-]. bool_to_prop. split_and!; [done | | done]. split.
        -- right. exists last. simpl. split; [congruence | done].
        -- intros o l [= <- <-]. by split_and!.
      * intros E. bool_to_prop. apply IH in E as (Ho' & Hs & Hf); [| done | done | simpl; lia]. split_and!; [by eapply outside_trans | | intros Hl; apply Hf; lia].
        destruct r as [record'|e]; simpl in *.
        -- destruct Hs as (A & B & C & D). split_and!; [congruence | done..].
        -- destruct Hs as [[A|(l & A & B)] C]; (split; [|done]); [left; congruence | right; exists l; split; [rewrite A; f_equal; congruence | done]].
    + intros [= <- <-]. pose proof (Hp2 e eq_refl) as Hp. split_and!; [split_and!; [done | by etransitivity | congruence] | split; [left; congruence | by intros o l ->] | by intros _ [= ->]].
  - intros [= <- <-]. pose proof (Hp1 e eq_refl) as Hp. split_and!; [by split_and! | split; [by left | by intros o l ->] | by intros _ [= ->]].
Qed.

(** ** One session per Agent *)

(** [accepted]: the Agents and incarnations of the sessions accepted so far. A
    session in [ex] may be open without being the current one. *)
Record sess_inv (ex : option string) (accepted : list (string * Z)) (w : sworld) : Prop := {
  sv_unique : unique (sw_db w);
  sv_accepted : forall a n, (a, n) ∈ accepted -> exists m, watermark a (sw_db w) = Some m /\ n <= m;
  sv_active : forall a i, Current a w = Some i -> si_AgentID i = a /\ ex <> Some (si_SessionID i) /\
    exists s, sw_sessions w !! si_SessionID i = Some s /\ cs_info s = i /\ cs_closed s = None;
  sv_open : forall id s, sw_sessions w !! id = Some s -> si_SessionID (cs_info s) = id /\
    (cs_closed s = None -> ex <> Some id -> Current (si_AgentID (cs_info s)) w = Some (cs_info s));
}.

Lemma current_insert a b r w : Current a (put_record b r w).2 = if bool_decide (a = b) then rr_active r else Current a w.
Proof.
  unfold Current, put_record, modify. simpl. case_bool_decide as E; [subst; by rewrite lookup_insert_eq | by rewrite lookup_insert_ne].
Qed.

Lemma session_closed_spec a id w : let w' := (SessionClosed a id w).2 in
  sw_db w' = sw_db w /\ sw_sessions w' = sw_sessions w /\ sw_others w' = sw_others w /\
  forall b, Current b w' = if bool_decide (b = a) && bool_decide (si_SessionID <$> Current a w = Some id) then None else Current b w.
Proof.
  unfold SessionClosed, bind, gets. destruct (sw_records w !! a) as [r|] eqn:Er.
  - assert (Current a w = rr_active r) as Hc by (unfold Current; by rewrite Er). rewrite Hc. destruct (rr_active r) as [i|] eqn:Ea.
    + destruct (bool_decide (si_SessionID i = id)) eqn:Eid; bool_to_prop.
      * split_and!; try done. intros b. rewrite current_insert. rewrite (bool_decide_eq_true_2 (_ = Some id)) by (simpl; congruence). rewrite andb_true_r. by destruct (bool_decide (b = a)).
      * unfold ret. split_and!; try done. intros b. rewrite (bool_decide_eq_false_2 (_ = Some id)) by (simpl; congruence). by rewrite andb_false_r.
    + unfold ret. split_and!; try done. intros b. by rewrite andb_false_r.
  - unfold ret. split_and!; try done. intros b. replace (Current a w) with (@None SessionInfo) by (unfold Current; by rewrite Er). by rewrite andb_false_r.
Qed.

Lemma close_outcome id cause w : (Close id cause w).1 = Ok tt.
Proof.
  unfold Close, bind, gets. destruct (sw_sessions w !! id); [|done]. case_if; [done|]. unfold put_session, modify, SessionClosed, bind, gets.
  repeat (case_match; try done).
Qed.

(** Closing a session, the current one or the one that was set aside. *)
Lemma close_inv ex accepted id cause w : sess_inv ex accepted w -> ex = None \/ ex = Some id ->
  let w' := (Close id cause w).2 in
  sess_inv None accepted w' /\ sw_db w' = sw_db w /\ sw_others w' = sw_others w /\
  (ex = Some id -> forall a, Current a w' = Current a w).
Proof.
  intros [Hu Hacc Hact Hop] Hex. assert (forall w', sw_sessions w' = sw_sessions w -> sw_db w' = sw_db w -> (forall a, Current a w' = Current a w) ->
    (forall s, sw_sessions w !! id = Some s -> cs_closed s <> None) -> sess_inv None accepted w') as Hsame.
  { intros w' Hs Hd Hc Hid. split; [by rewrite Hd | by rewrite Hd | |].
    - intros a i. rewrite Hc, Hs. intros (? & _ & ?)%Hact. by split_and!.
    - intros x s. rewrite Hs, Hc. intros Hx. destruct (Hop x s Hx) as [E Hc']. split; [done|]. intros Ho _. apply Hc'; [done|]. intros ->.
      destruct Hex as [|[= <-]]; [done|]. by apply (Hid s). }
  unfold Close, bind, gets. destruct (sw_sessions w !! id) as [s|] eqn:Es; cbn zeta.
  2:{ split_and!; try done. by apply Hsame. }
  destruct (bool_decide (is_Some (cs_closed s))) eqn:Ec.
  { bool_to_prop. split_and!; try done. apply Hsame; try done. intros s' [= <-] E. rewrite E in Ec. by destruct Ec. }
  bool_to_prop. apply eq_None_not_Some in Ec. destruct (Hop id s Es) as [Hid Hcur]. specialize (Hcur Ec).
  unfold put_session, modify. set (w1 := mkSworld _ _ _ _ _). destruct (session_closed_spec (si_AgentID (cs_info s)) (si_SessionID (cs_info s)) w1) as (D & S & O & C).
  rewrite Hid in *. set (w' := (SessionClosed _ _ w1).2) in *. change (sw_sessions w1) with (<[si_SessionID (cs_info s) := mkControl (cs_info s) (Some cause) (cs_lastHeartbeat s)]> (sw_sessions w)) in S.
  rewrite Hid in S. change (Current ?a w1) with (Current a w) in C.
  assert (forall a i, Current a w' = Some i -> Current a w = Some i /\ si_SessionID i <> id) as Hact'.
  { intros a i. rewrite C. destruct (bool_decide (a = si_AgentID (cs_info s))) eqn:Ea; bool_to_prop; cbn [andb].
    - subst a. destruct (bool_decide _) eqn:Eb; [done|]. bool_to_prop. intros E. rewrite E in *. split; [done|]. intros Hi. apply Eb. simpl. congruence.
    - intros E. split; [done|]. intros Hi. destruct (Hact a i E) as (Ha & _ & s' & Hs' & Hi' & _). rewrite Hi, Es in Hs'. injection Hs' as <-. congruence. }
  split_and!; [|done|done|].
  - split; [by rewrite D | by rewrite D | |].
    + intros a i [E Hne]%Hact'. destruct (Hact a i E) as (? & _ & s' & ? & ? & ?). split_and!; [done | done|]. exists s'. rewrite S, lookup_insert_ne by done. done.
    + intros x s'. rewrite S. intros [[<- <-]|[Hne Hx]]%lookup_insert_Some; [by split|]. destruct (Hop x s' Hx) as [Hxi Hxc]. split; [done|]. intros Ho _.
      rewrite C. assert (Current (si_AgentID (cs_info s')) w = Some (cs_info s')) as Hcx by (apply Hxc; [done | destruct Hex as [->| ->]; congruence]).
      destruct (bool_decide (_ = si_AgentID (cs_info s))) eqn:Ea; cbn [andb]; [|done]. bool_to_prop. rewrite <- Ea, Hcx. simpl. rewrite bool_decide_eq_false_2 by congruence. done.
  - intros -> a. rewrite C. destruct (bool_decide (a = _)) eqn:Ea; cbn [andb]; [|done]. bool_to_prop. rewrite bool_decide_eq_false_2; [done|].
    intros Hcx. destruct (Current (si_AgentID (cs_info s)) w) as [i|] eqn:Ei; [|done]. destruct (Hact _ i Ei) as (_ & Hn & _). simpl in Hcx. congruence.
Qed.

(** The end of a registration cannot fail. *)
Lemma replace_outcome current info w r w' :
  match current with
  | Some previous => if bool_decide (si_SessionID previous = si_SessionID info) then ret tt else Close (si_SessionID previous) CauseReplaced
  | None => ret tt
  end w = (r, w') ->
  r = Ok tt /\ w' = match current with
                    | Some previous => if bool_decide (si_SessionID previous = si_SessionID info) then w else (Close (si_SessionID previous) CauseReplaced w).2
                    | None => w
                    end.
Proof.
  destruct current as [previous|]; [|by intros [= <- <-]]. destruct (bool_decide _); [by intros [= <- <-]|].
  pose proof (close_outcome (si_SessionID previous) CauseReplaced w) as Hok. intros E. rewrite E in *. cbn [fst snd] in *. by subst.
Qed.

(** The registry before it closes the session that was replaced. *)
Lemma register_steps info now w r w' : store_ok w -> RegisterContext true info now w = (r, w') ->
  exists w1, outside w w1 /\ store_ok w1 /\ r <> Err SeRounds /\
  match r with
  | Err e => w' = w1 /\ (forall a, Current a w1 = Current a w) /\
      forall o l, e = SeStale o l -> o = si_Incarnation info /\ o < l /\ watermark (si_AgentID info) (sw_db w1) = Some l
  | Ok _ => (forall a, Current a w1 = if bool_decide (a = si_AgentID info) then Some info else Current a w) /\
      (forall m, watermark (si_AgentID info) (sw_db w) = Some m -> m <= si_Incarnation info) /\
      (exists n, watermark (si_AgentID info) (sw_db w1) = Some n /\ si_Incarnation info <= n) /\
      w' = match Current (si_AgentID info) w with
           | Some previous => if bool_decide (si_SessionID previous = si_SessionID info) then w1 else (Close (si_SessionID previous) CauseReplaced w1).2
           | None => w1
           end
  end.
Proof.
  intros Hi. unfold RegisterContext. destruct (_ || _); [intros [= <- <-]; exists w; by split_and!|]. unfold bind at 1, gets at 1.
  set (record := default _ _). assert (rr_active record = Current (si_AgentID info) w) as Hact by (unfold record, Current; by destruct (sw_records w !! si_AgentID info)).
  unfold bind at 1. destruct (restoring_triple (si_AgentID info) now w Hi I) as (Hi1 & (D1 & R1 & S1 & _) & Hq1). pose proof (plain_restoring (si_AgentID info) now w) as Hp1.
  unfold bind at 1. destruct (restoring_load _ _ w) as [[last|e] w1]; cbn [fst snd] in *.
  2:{ intros [= <- <-]. specialize (Hp1 e eq_refl). exists w1. split_and!; try done; [by intros [= ->] | intros a; unfold Current; congruence | by intros o l ->]. }
  specialize (Hq1 last eq_refl). assert (outside w w1) as Ho1 by (by split_and!). assert (forall a, Current a w1 = Current a w) as Hc1 by (intros a; unfold Current; congruence).
  destruct (_ && _); [intros [= <- <-]; exists w1; by split_and!|]. unfold ret at 1. destruct (si_Incarnation info <? last) eqn:Es.
  { unfold bind, put_record, modify, fail. intros [= <- <-]. bool_to_prop. exists (put_record (si_AgentID info) (mkRecord last true (rr_active record)) w1).2.
    split_and!; [exact Ho1 | exact Hi1 | done | reflexivity | |].
    - intros a. rewrite current_insert. case_bool_decide; [subst; done | apply Hc1].
    - intros o l [= <- <-]. by split_and!. }
  bool_to_prop. unfold bind at 1, gets at 1. unfold bind at 1. destruct (cas_loop _ _ _ _ _ w1) as [r2 w2] eqn:El.
  apply cas_loop_spec in El as (Ho2 & Hset & Hfuel); [| done | done | simpl; lia]. pose proof (outside_trans _ _ _ Ho1 Ho2) as Ho. specialize (Hfuel ltac:(lia)).
  destruct r2 as [record'|e].
  - destruct Hset as (R2 & A2 & _ & n & Hn & Hle). unfold bind at 1, put_record, modify. rewrite A2. cbn [rr_active]. rewrite Hact. set (w3 := mkSworld _ _ _ _ _).
    assert (forall a, Current a w3 = if bool_decide (a = si_AgentID info) then Some info else Current a w) as Hc3.
    { intros a. change w3 with (put_record (si_AgentID info) (mkRecord (si_Incarnation info) (rr_loaded record') (Some info)) w2).2. rewrite current_insert. case_bool_decide; [done|].
      unfold Current. rewrite R2. apply Hc1. }
    intros [-> Hw']%replace_outcome. exists w3. split_and!; [exact Ho | apply Ho | done | done | | by exists n | done].
    intros m Hm. destruct (D1 _ _ Hm) as (m' & Hm' & ?). rewrite Hq1 in Hm'. injection Hm' as <-. lia.
  - destruct Hset as [Hrec Hst]. intros [= <- <-]. exists w2. split_and!; [done | apply Ho | congruence | done | | done]. intros a. destruct Hrec as [E|(l & E & _)].
    + unfold Current. rewrite E. apply Hc1.
    + unfold Current at 1. rewrite E. destruct (decide (a = si_AgentID info)) as [->|Hne]; [rewrite lookup_insert_eq; exact Hact | rewrite lookup_insert_ne by done; apply Hc1].
Qed.

(** A new session is open before it is the current one. *)
Lemma put_new_inv accepted info now w : sess_inv None accepted w -> sw_sessions w !! si_SessionID info = None ->
  sess_inv (Some (si_SessionID info)) accepted (put_session (mkControl info None now) w).2.
Proof.
  intros [Hu Hacc Hact Hop] Hn. unfold put_session, modify. cbn [snd cs_info]. split; try done.
  - intros a i Hc. destruct (Hact a i Hc) as (Ha & _ & s & Hs & Hi). split_and!; [done | intros [= E]; congruence|]. exists s. simpl. rewrite lookup_insert_ne by congruence. done.
  - intros id s. simpl. intros [[<- <-]|[Hne Hs]]%lookup_insert_Some; [by split|]. destruct (Hop id s Hs) as [E Hc]. split; [done|]. intros Ho _. by apply Hc.
Qed.

(** A session that was not registered is closed without the registry. *)
Lemma reject_inv accepted info now w : sess_inv (Some (si_SessionID info)) accepted w ->
  sess_inv None accepted (put_session (mkControl info (Some CauseRejected) now) w).2.
Proof.
  intros [Hu Hacc Hact Hop]. unfold put_session, modify. cbn [snd cs_info]. split; try done.
  - intros a i Hc. destruct (Hact a i Hc) as (Ha & Hex & s & Hs & Hi). split_and!; [done | done|]. exists s. simpl. rewrite lookup_insert_ne by congruence. done.
  - intros id s. simpl. intros [[<- <-]|[Hne Hs]]%lookup_insert_Some; [by split|]. destruct (Hop id s Hs) as [E Hc]. split; [done|]. intros Ho _. apply Hc; [done | congruence].
Qed.

(** The registered session becomes the current one; the one before is set aside. *)
Lemma enter_inv accepted info now w w1 : sess_inv (Some (si_SessionID info)) accepted w -> sw_sessions w !! si_SessionID info = Some (mkControl info None now) ->
  outside w w1 -> (forall a, Current a w1 = if bool_decide (a = si_AgentID info) then Some info else Current a w) ->
  (exists n, watermark (si_AgentID info) (sw_db w1) = Some n /\ si_Incarnation info <= n) ->
  sess_inv (si_SessionID <$> Current (si_AgentID info) w) ((si_AgentID info, si_Incarnation info) :: accepted) w1.
Proof.
  intros [Hu Hacc Hact Hop] Hnew (Hok & Hle & Hs) Hc Hwm.
  assert (forall a i, Current a w = Some i -> si_SessionID i <> si_SessionID info) as Hdiff by (intros a i H E; destruct (Hact a i H) as (_ & Hex & _); congruence).
  split; [apply Hok | | |].
  - intros a n [[= -> ->]|Hin]%elem_of_cons; [done|]. destruct (Hacc a n Hin) as (m & Hm & ?). destruct (Hle _ _ Hm) as (m' & Hm' & ?). exists m'. split; [done | lia].
  - intros a i. rewrite Hc, Hs. case_bool_decide as Ea.
    + intros [= <-]. split_and!; [done | | by exists (mkControl info None now)]. destruct (Current (si_AgentID info) w) as [p|] eqn:Ep; [|done]. intros [= E]. by apply (Hdiff _ p Ep).
    + intros H. destruct (Hact a i H) as (Ha & Hex & s & Hsi & Hi & Ho). split_and!; [done | | by exists s].
      destruct (Current (si_AgentID info) w) as [p|] eqn:Ep; [|done]. intros [= E]. destruct (Hact _ p Ep) as (Hap & _ & s' & Hsp & Hip & _).
      rewrite E, Hsi in Hsp. congruence.
  - intros id s. rewrite Hs, Hc. intros Hid. destruct (Hop id s Hid) as [E Hcur]. split; [done|]. intros Ho Hne. case_bool_decide as Ea.
    + destruct (decide (id = si_SessionID info)) as [->|Hni]; [rewrite Hnew in Hid; by injection Hid as <-|]. exfalso. apply Hne. rewrite <- Ea, Hcur by (done || congruence). simpl. by rewrite E.
    + apply Hcur; [done|]. intros [= <-]. rewrite Hnew in Hid. by injection Hid as <-.
Qed.

Lemma keep_inv ex accepted w w1 : sess_inv ex accepted w -> outside w w1 -> (forall a, Current a w1 = Current a w) -> sess_inv ex accepted w1.
Proof.
  intros [Hu Hacc Hact Hop] (Hok & Hle & Hs) Hc. split; [apply Hok | | |].
  - intros a n Hin. destruct (Hacc a n Hin) as (m & Hm & ?). destruct (Hle _ _ Hm) as (m' & Hm' & ?). exists m'. split; [done | lia].
  - intros a i. rewrite Hc, Hs. apply Hact.
  - intros id s. rewrite Hs, Hc. apply Hop.
Qed.

(** What an accepted or refused session means. *)
Definition admission (info : SessionInfo) (accepted : list (string * Z)) (w : sworld) (r : res sessErr unit) (w' : sworld) : Prop :=
  match r with
  | Ok _ => Current (si_AgentID info) w' = Some info /\ (forall a, a <> si_AgentID info -> Current a w' = Current a w) /\
      (exists n, watermark (si_AgentID info) (sw_db w') = Some n /\ si_Incarnation info <= n) /\
      forall n, (si_AgentID info, n) ∈ accepted -> n <= si_Incarnation info
  | Err e => (forall a, Current a w' = Current a w) /\ e <> SeRounds /\
      forall o l, e = SeStale o l -> o = si_Incarnation info /\ o < l /\ watermark (si_AgentID info) (sw_db w') = Some l
  end.

Lemma accept_spec accepted info now w r w' : sess_inv None accepted w -> Forall raises (sw_others w) -> sw_sessions w !! si_SessionID info = None ->
  Accept true info now w = (r, w') ->
  sess_inv None (if is_ok r then (si_AgentID info, si_Incarnation info) :: accepted else accepted) w' /\ admission info accepted w r w'.
Proof.
  intros Hinv Hraise Hn. pose proof (put_new_inv accepted info now w Hinv Hn) as Hinv0. unfold Accept, bind at 1.
  assert (sw_sessions (put_session (mkControl info None now) w).2 !! si_SessionID info = Some (mkControl info None now)) as Hnew by (simpl; by rewrite lookup_insert_eq).
  assert (store_ok (put_session (mkControl info None now) w).2) as Hok by (split; [apply Hinv | done]).
  assert (forall a, Current a (put_session (mkControl info None now) w).2 = Current a w) as Hcur by done.
  assert (sw_db (put_session (mkControl info None now) w).2 = sw_db w) as Hdb by done.
  destruct (put_session (mkControl info None now) w) as [[[]|e] w0] eqn:Ew; [|done]. cbn [snd] in *. unfold bind, attempt.
  destruct (RegisterContext true info now w0) as [r1 w1] eqn:Er. apply register_steps in Er as (w2 & Ho & Hok2 & Hr & Hcase); [|done]. destruct r1 as [u|e].
  - intros [= <- <-]. destruct Hcase as (Hc & Hwm & Hwm' & ->). pose proof (enter_inv accepted info now w0 w2 Hinv0 Hnew Ho Hc Hwm') as Hent.
    assert (forall n, (si_AgentID info, n) ∈ accepted -> n <= si_Incarnation info) as Hmono.
    { intros n Hin. destruct (sv_accepted _ _ _ Hinv _ _ Hin) as (m & Hm & ?). rewrite <- Hdb in Hm. specialize (Hwm m Hm). lia. }
    assert (forall w3, (forall a, Current a w3 = Current a w2) -> sw_db w3 = sw_db w2 -> admission info accepted w (Ok tt) w3) as Had.
    { intros w3 H3 D3. split_and!; [rewrite H3, Hc; by rewrite bool_decide_eq_true_2 | intros a Ha; rewrite H3, Hc, bool_decide_eq_false_2 by done; apply Hcur | by rewrite D3 | done]. }
    destruct (Current (si_AgentID info) w0) as [p|] eqn:Ep; [|by split; [|apply Had]]. destruct (sv_active _ _ _ Hinv0 _ _ Ep) as (_ & Hex & _).
    rewrite bool_decide_eq_false_2 by congruence. destruct (close_inv _ _ (si_SessionID p) CauseReplaced w2 Hent ltac:(by right)) as (Hi3 & D3 & _ & C3). split; [done|]. apply Had; [by apply C3 | done].
  - unfold put_session, modify, fail. intros [= <- <-]. destruct Hcase as (-> & Hc & Hst).
    pose proof (reject_inv accepted info now w2 (keep_inv _ _ _ _ Hinv0 Ho Hc)) as Hrej. split; [exact Hrej|]. split_and!; [intros a; etransitivity; [apply Hc | apply Hcur] | congruence | done].
Qed.

(** *** Other writers of the rows *)

(** A registration moves no incarnation. *)
Lemma registration_raises sign verify marshal request now ident outcomes random :
  raises (fun d => rg_db (Registration.Register sign verify marshal request now (mkRgworld d ident outcomes random)).2).
Proof.
  intros d Hu. set (w := mkRgworld d ident outcomes random). pose proof (register_spec sign verify marshal request now w) as H.
  destruct (Registration.Register _ _ _ _ _ w) as [[res|e] w']; cbn [snd]; [|rewrite H; by split].
  destruct H as (json & id & secret & kind & bound & _ & _ & _ & Hag & _). unfold agent_registered in Hag. cbn [rg_db w] in Hag.
  assert (forall l, db_agents (rg_db w') = l -> unique (mkRegDB (db_tokens d) l) /\ db_le d (mkRegDB (db_tokens d) l) -> unique (rg_db w') /\ db_le d (rg_db w')) as Hfin
    by (intros l E; unfold unique, db_le, watermark, find_agent; by rewrite E).
  destruct (find_agent (rq_AgentID request) d) as [row|] eqn:Ef.
  - destruct Hag as (_ & _ & E). apply (Hfin _ E). destruct (update_rows (refreshed request json now) d) as [H1 H2]; [|by auto].
    intros a. unfold refreshed. case_if; simpl; split; done || lia.
  - apply (Hfin _ Hag). destruct (add_rows (mkAgent (rq_AgentID request) (rq_DisplayName request) now now json None 0) d Ef) as [H1 H2]. split; [by apply H2 | exact H1].
Qed.

(** Nor does an observation. *)
Lemma touch_raises agentID at_ outcomes : raises (fun d => sw_db (TouchAgentLastSeen agentID at_ (mkSworld d ∅ ∅ outcomes [])).2).
Proof.
  intros d Hu. assert (striple (fun _ => True) (TouchAgentLastSeen agentID at_) (fun _ _ => True)) as H.
  { unfold TouchAgentLastSeen. apply triple_if; intros _; [triple_fails|]. triple_seq; [apply statement_triple|]. intros [].
    apply (triple_bind _ _ _ _ _ (fun _ _ => True)).
    - intros w [Hw Hr] _. unfold update_agents, bind, gets, modify, ret. cbn [fst snd]. 
      match goal with |- context [?f <$> db_agents (sw_db w)] => destruct (update_rows f (sw_db w)) as [H1 H2] end.
      { intros a. case_if; simpl; split; done || lia. }
      split_and!; [split; simpl; auto | by split_and! | done].
    - intros rows. apply (triple_bind _ _ _ _ _ (fun _ _ => True)); [by apply (driver_triple (fun _ => True))|]. intros []. apply triple_if; intros _; [triple_fails | by triple_returns]. }
  destruct (H (mkSworld d ∅ ∅ outcomes [])) as ([Hu' _] & (Hle & _) & _); [by split | done|]. by split.
Qed.

(** ** Lives of the Server *)

(** [sess_life w accepted]: sessions were accepted, closed and observed, the process
    was restarted, and other processes changed the rows without lowering an
    incarnation. Each call is given the actions of others and the failures that
    come during it. *)
Definition during (outcomes : list bool) (others : list (regDB -> regDB)) (w : sworld) : sworld := mkSworld (sw_db w) (sw_records w) (sw_sessions w) outcomes others.

Inductive sess_life : sworld -> list (string * Z) -> Prop :=
| sess_start d outcomes others : unique d -> sess_life (mkSworld d ∅ ∅ outcomes others) []
| sess_accept info now outcomes others w accepted r w' : sess_life w accepted -> Forall raises others -> sw_sessions w !! si_SessionID info = None ->
    Accept true info now (during outcomes others w) = (r, w') ->
    sess_life w' (if is_ok r then (si_AgentID info, si_Incarnation info) :: accepted else accepted)
| sess_close id cause w accepted : sess_life w accepted -> sess_life (Close id cause w).2 accepted
| sess_heartbeat id result w accepted : sess_life w accepted -> sess_life (Heartbeat id result w).2 accepted
| sess_restart outcomes others w accepted : sess_life w accepted -> sess_life (mkSworld (sw_db w) ∅ ∅ outcomes others) accepted
| sess_other f w accepted : sess_life w accepted -> raises f -> sess_life (put_db (f (sw_db w)) w) accepted.

Lemma heartbeat_inv accepted id result w : sess_inv None accepted w -> sess_inv None accepted (Heartbeat id result w).2.
Proof.
  intros Hinv. unfold Heartbeat, bind, gets. destruct (sw_sessions w !! id) as [s|] eqn:Es; [|done]. case_if; [done|]. bool_to_prop. apply eq_None_not_Some in Heqb.
  destruct result as [at_| |]; [| |done].
  - destruct Hinv as [Hu Hacc Hact Hop]. destruct (Hop id s Es) as [Hid Hcur]. unfold put_session, modify. cbn [snd cs_info]. rewrite Hid. split; try done.
    + intros a i Hc. destruct (Hact a i Hc) as (Ha & Hex & s' & Hs & Hi & Ho). split_and!; [done | done|]. simpl. destruct (decide (si_SessionID i = id)) as [<-|Hne].
      * rewrite Es in Hs. injection Hs as <-. rewrite lookup_insert_eq. by eexists.
      * exists s'. by rewrite lookup_insert_ne.
    + intros x s'. simpl. intros [[<- <-]|[Hne Hx]]%lookup_insert_Some; [by split | by apply Hop].
  - destruct (close_inv None accepted id CauseUnavailable w Hinv ltac:(by left)) as [Hc _]. by destruct (Close id CauseUnavailable w) as [[u|e] w'].
Qed.

Lemma sess_life_inv w accepted : sess_life w accepted -> sess_inv None accepted w.
Proof.
  assert (forall acc d o l, unique d -> (forall a n, (a, n) ∈ acc -> exists m, watermark a d = Some m /\ n <= m) -> sess_inv None acc (mkSworld d ∅ ∅ o l)) as Hempty.
  { intros acc d o l Hu Ha. split; [done | done | |]; unfold Current; simpl; [intros a i; by rewrite lookup_empty | intros id s; by rewrite lookup_empty]. }
  induction 1 as [d o l Hu | info now o l w acc r w' _ IH Hr Hn E | id cause w acc _ IH | id result w acc _ IH | o l w acc _ IH | f w acc _ IH Hf].
  - apply Hempty; [done | by intros a n ?%elem_of_nil].
  - apply (accept_spec acc info now (during o l w)) in E as [E _]; done || by destruct IH.
  - by apply (close_inv None acc id cause w IH ltac:(by left)).
  - by apply heartbeat_inv.
  - apply Hempty; apply IH.
  - destruct IH as [Hu Hacc Hact Hop]. destruct (Hf _ Hu) as [Hu' Hle]. split; try done. intros a n Hin. destruct (Hacc a n Hin) as (m & Hm & ?).
    destruct (Hle _ _ Hm) as (m' & Hm' & ?). exists m'. split; [done | lia].
Qed.

(** [C12] An Agent has one session, of its latest incarnation. Over any life of the
    Server - sessions accepted, replaced, closed late and observed, statements that
    fail, restarts, and other processes that change the rows between any two
    statements - an open session is the current one of its Agent and the current
    one is open, so that no Agent has two. An accepted session replaces the one
    before it and leaves those of other Agents; its incarnation is at least that
    of every session ever accepted for the Agent, before or after a restart, and
    is on record. A refused one leaves every session as it was, and an offer
    refused as stale is below the recorded incarnation. The loop that raises the
    incarnation against other processes ends. *)
Theorem session_contract w accepted : sess_life w accepted ->
  (forall id s, sw_sessions w !! id = Some s -> cs_closed s = None <-> Current (si_AgentID (cs_info s)) w = Some (cs_info s)) /\
  (forall info now outcomes others r w', Forall raises others -> sw_sessions w !! si_SessionID info = None ->
     Accept true info now (during outcomes others w) = (r, w') -> admission info accepted w r w').
Proof.
  intros Hinv%sess_life_inv. split.
  - intros id s Hs. destruct (sv_open _ _ _ Hinv id s Hs) as [Hid Hc]. split; [intros Ho; by apply Hc|]. intros Hcur.
    destruct (sv_active _ _ _ Hinv _ _ Hcur) as (_ & _ & s' & Hs' & _ & Ho). rewrite Hid, Hs in Hs'. by injection Hs' as <-.
  - intros info now o l r w' Hr Hn E. eapply (accept_spec accepted info now (during o l w)) in E as [_ E]; done || by destruct Hinv.
Qed.

(** ** A demonstration *)

Definition demo_row (id : string) (n : Z) : agentRow := mkAgent id id 1 1 "{}" None n.
Definition demo_session (id : string) (n : Z) : SessionInfo := mkSession id "agent" "credential" "server" n 2 "".
Definition demo_start : sworld := mkSworld (mkRegDB [] [demo_row "agent" 3]) ∅ ∅ [] [].
Definition demo_first := Accept true (demo_session "s1" 5) 100 (during [] [] demo_start).

(** Another process accepts incarnation 7 after the watermark was read. *)
Definition overtake (n : Z) (d : regDB) : regDB :=
  mkRegDB (db_tokens d) ((fun a => if ag_incarnation a <? n then set_incarnation n a else a) <$> db_agents d).
Definition demo_second := Accept true (demo_session "s2" 9) 200 (during [] [id; overtake 7] demo_first.2).

Lemma overtake_raises n : raises (overtake n).
Proof.
  intros d Hu. unfold overtake. match goal with |- context [?f <$> db_agents d] => destruct (update_rows f d) as [H1 H2] end; [|by auto].
  intros a. case_if; bool_to_prop; simpl; split; done || lia.
Qed.
Lemma id_raises : raises id.
Proof. by intros d Hu. Qed.

Lemma session_contract_witness :
  demo_first.1 = Ok tt /\ demo_second.1 = Ok tt /\ Current "agent" demo_second.2 = Some (demo_session "s2" 9) /\
  watermark "agent" (sw_db demo_second.2) = Some 9 /\ cs_closed <$> sw_sessions demo_second.2 !! "s1" = Some (Some CauseReplaced) /\
  admission (demo_session "s3" 6) [("agent", 9); ("agent", 5)] demo_second.2 (Err (SeStale 6 9)) (Accept true (demo_session "s3" 6) 300 (during [] [] demo_second.2)).2.
Proof.
  split_and!; [vm_compute; reflexivity..|].
  assert (unique (sw_db demo_start)) as Hu by (vm_compute; repeat constructor; by intros ?%elem_of_nil).
  pose proof (sess_start (sw_db demo_start) [] [] Hu) as L0.
  assert (sess_life demo_first.2 [("agent", 5)]) as L1.
  { refine (sess_accept (demo_session "s1" 5) 100 [] [] _ [] (Ok tt) demo_first.2 L0 _ _ _); [constructor | vm_compute; reflexivity | vm_compute; reflexivity]. }
  assert (sess_life demo_second.2 [("agent", 9); ("agent", 5)]) as L2.
  { refine (sess_accept (demo_session "s2" 9) 200 [] [id; overtake 7] _ [("agent", 5)] (Ok tt) demo_second.2 L1 _ _ _);
      [constructor; [apply id_raises | constructor; [apply overtake_raises | constructor]] | vm_compute; reflexivity | vm_compute; reflexivity]. }
  destruct (session_contract _ _ L2) as [_ H]. apply (H (demo_session "s3" 6) 300 [] []); [constructor | vm_compute; reflexivity | vm_compute; reflexivity].
Defined.

(** The store restores an Agent that it does not know, and asks whether an Agent is
    retired only then: a retired Agent with a credential that verifies is given a
    session. *)
Lemma retired_agent_admitted : let w := mkSworld (mkRegDB [] [mkAgent "agent" "agent" 1 1 "{}" (Some 50) 3]) ∅ ∅ [] [] in
  (Accept true (demo_session "s1" 5) 100 w).1 = Ok tt.
Proof. vm_compute. reflexivity. Qed.
