(* ===== verification/AgentState.v ===== *)
(** * Agent state: the durable identity store

    Models [internal/agentstate]: the state file with its validation
    ([types.go], [state.go]), its atomic replacement and the process lock
    ([persist.go]), and every operation of [Store]. The world holds what is on
    disk (directory, lock file, state file), the flock, the running store if
    any, and the outcomes of the calls still to come. A state file is described
    by what reading it yields; [encoded_size] is the length of its JSON text,
    which the reader bounds. Timestamps are RFC 3339 texts, represented by what
    they denote ([stamp]). *)

From S2P Require Import Prelude Cursor Operation AgentId.

(** ** Errors *)

Inductive stateErr :=
| StateInvariant | ServerIdentityMismatch | ArchiveRollback (bound presented : Z) | ArchiveInvariant
| CursorRollback | Symlink | InsecureMode | StateLocked | NotReady | StateClosed | StateIO | StateContext.

#[export] Instance stateErr_eq_dec : EqDecision stateErr.
Proof. solve_decision. Defined.

(** ** Timestamps *)

(** A timestamp text: empty, the canonical text of a time, or anything else. *)
Inductive stamp := StampEmpty | StampOf (t : time) | StampOther (s : string).

#[export] Instance stamp_eq_dec : EqDecision stamp.
Proof. solve_decision. Defined.

Definition timestamp (t : time) : stamp := StampOf t.

(** [time.Parse] of a canonical text. *)
Definition parse_stamp (s : stamp) : option time :=
  match s with StampOf t => if rfc3339_time t then Some t else None | _ => None end.

(** [parseOptionalTimestamp] *)
Definition parseOptionalTimestamp (s : stamp) : time := default time_zero (parse_stamp s).

(** ** The state *)

Record Credential := mkCredential { cr_FileReference : string; cr_Data : list Z }.

Record PendingCredentialActivation := mkPending { pa_Previous : Credential; pa_ActiveCredentialID : string }.

Record ArchiveBinding := mkBinding {
  ab_ServerIdentityID : string;
  ab_Generation : Z;
  ab_ArchiveID : string;
  ab_CoverageBeginsAt : Cursor;
  ab_AckedThrough : option Cursor;
}.

Record RetiredArchive := mkRetired {
  ra_Generation : Z;
  ra_ArchiveID : string;
  ra_AckedThrough : option Cursor;
  ra_RetiredAt : stamp;
}.

Record CleanClose := mkClean { cc_Incarnation : Z; cc_LastDurableSeq : Z; cc_ClosedAt : stamp }.

Record diskState := mkState {
  ds_Version : Z;
  ds_AgentID : string;
  ds_Credential : Credential;
  ds_PendingActivation : option PendingCredentialActivation;
  ds_BoundArchive : option ArchiveBinding;
  ds_RetiredArchives : list RetiredArchive;
  ds_CurrentIncarnation : Z;
  ds_CleanClose : option CleanClose;
  ds_LastDockerEventAt : stamp;
  ds_DockerSnapshotSHA256 : string;
}.

#[export] Instance Credential_eq_dec : EqDecision Credential.
Proof. solve_decision. Defined.

Definition stateVersion : Z := 1.
Definition maxStateFileSize : Z := 2 ^ 20.
Definition no_credential : Credential := mkCredential "" [].

(** ** Field updates *)

Definition with_credential (c : Credential) (p : option PendingCredentialActivation) (d : diskState) : diskState :=
  mkState (ds_Version d) (ds_AgentID d) c p (ds_BoundArchive d) (ds_RetiredArchives d) (ds_CurrentIncarnation d)
    (ds_CleanClose d) (ds_LastDockerEventAt d) (ds_DockerSnapshotSHA256 d).
Definition with_archive (b : option ArchiveBinding) (r : list RetiredArchive) (d : diskState) : diskState :=
  mkState (ds_Version d) (ds_AgentID d) (ds_Credential d) (ds_PendingActivation d) b r (ds_CurrentIncarnation d)
    (ds_CleanClose d) (ds_LastDockerEventAt d) (ds_DockerSnapshotSHA256 d).
Definition with_incarnation (i : Z) (c : option CleanClose) (d : diskState) : diskState :=
  mkState (ds_Version d) (ds_AgentID d) (ds_Credential d) (ds_PendingActivation d) (ds_BoundArchive d)
    (ds_RetiredArchives d) i c (ds_LastDockerEventAt d) (ds_DockerSnapshotSHA256 d).
Definition with_docker (at_ : stamp) (digest : string) (d : diskState) : diskState :=
  mkState (ds_Version d) (ds_AgentID d) (ds_Credential d) (ds_PendingActivation d) (ds_BoundArchive d)
    (ds_RetiredArchives d) (ds_CurrentIncarnation d) (ds_CleanClose d) at_ digest.
Definition with_ack (c : option Cursor) (b : ArchiveBinding) : ArchiveBinding :=
  mkBinding (ab_ServerIdentityID b) (ab_Generation b) (ab_ArchiveID b) (ab_CoverageBeginsAt b) c.

(** ** Validation *)

Definition validCursor (c : Cursor) : bool := (Incarnation c >? 0) && (Seq c >? 0).

Definition validateCredential (c : Credential) : bool :=
  negb (negb (str_empty (cr_FileReference c)) && negb (length (cr_Data c) =? 0)%nat).

Definition credentialEmpty (c : Credential) : bool :=
  str_empty (cr_FileReference c) && (length (cr_Data c) =? 0)%nat.

Definition validateBinding (b : ArchiveBinding) : bool :=
  if (str_empty (ab_ServerIdentityID b) || (ab_Generation b =? 0) || str_empty (ab_ArchiveID b))%bool then false
  else if negb (validCursor (ab_CoverageBeginsAt b)) then false
  else match ab_AckedThrough b with
       | None => true
       | Some ack => validCursor ack && negb (compareCursor ack (ab_CoverageBeginsAt b) <? 0)
       end.

(** [validSHA256]: 64 lower-case hexadecimal digits. *)
Definition validSHA256 (value : string) : bool :=
  ((String.length value =? 64)%nat && string_forall is_lower_hex value).

(** The loop over the retired archives: the last generation and the archive IDs
    seen, or [None] for an invalid list. *)
Fixpoint retired_scan (previous : Z) (seen : list string) (l : list RetiredArchive) : option (Z * list string) :=
  match l with
  | [] => Some (previous, seen)
  | r :: l' =>
    if ((ra_Generation r =? 0) || str_empty (ra_ArchiveID r) || bool_decide (ra_RetiredAt r = StampEmpty))%bool then None
    else if ra_Generation r <=? previous then None
    else if negb (match ra_AckedThrough r with Some c => validCursor c | None => true end) then None
    else if bool_decide (ra_ArchiveID r ∈ seen) then None
    else retired_scan (ra_Generation r) (ra_ArchiveID r :: seen) l'
  end.

Definition validateDiskState (d : diskState) : bool :=
  if negb (ds_Version d =? stateVersion) then false
  else if negb (Valid (ds_AgentID d)) then false
  else if negb (validateCredential (ds_Credential d)) then false
  else if negb (match ds_PendingActivation d with
                | None => true
                | Some p => validateCredential (pa_Previous p)
                            && negb (credentialEmpty (ds_Credential d) || credentialEmpty (pa_Previous p)
                                     || str_empty (pa_ActiveCredentialID p))
                end) then false
  else if negb (match ds_BoundArchive d with
                | Some b => validateBinding b
                | None => bool_decide (ds_RetiredArchives d = [])
                end) then false
  else if negb (match ds_LastDockerEventAt d with
                | StampEmpty => true
                | s => match parse_stamp s with Some t => negb (is_zero t) | None => false end
                end) then false
  else if (negb (str_empty (ds_DockerSnapshotSHA256 d)) && negb (validSHA256 (ds_DockerSnapshotSHA256 d)))%bool then false
  else
    match retired_scan 0 [] (ds_RetiredArchives d) with
    | None => false
    | Some (previousGeneration, archiveIDs) =>
      match ds_BoundArchive d with
      | None => true
      | Some b => negb (previousGeneration >=? ab_Generation b) && negb (bool_decide (ab_ArchiveID b ∈ archiveIDs))
      end
    end.

(** ** Disk, lock and store *)

Inductive dirState := DirAbsent | DirOk | DirSymlink | DirNotDirectory | DirInsecure.
Inductive lockState := LockFileOk | LockFileSymlink | LockFileInsecure.

#[export] Instance lockState_eq_dec : EqDecision lockState.
Proof. solve_decision. Defined.

(** What reading the state file yields. *)
Inductive fileState := FileAbsent | FileSymlink | FileInsecure | FileUndecodable | FileOf (d : diskState).

Record Store := mkStore { st_state : diskState; st_ready : bool; st_closed : bool; st_lockFile : bool }.

Record node := mkNode {
  n_dir : dirState;
  n_lockFile : lockState;
  n_locked : bool;
  n_file : fileState;
  n_store : option Store;
  n_outcomes : list bool;
}.

Definition stM := M node stateErr.

Definition upd_dir (d : dirState) (n : node) : node :=
  mkNode d (n_lockFile n) (n_locked n) (n_file n) (n_store n) (n_outcomes n).
Definition upd_lock (b : bool) (n : node) : node :=
  mkNode (n_dir n) (n_lockFile n) b (n_file n) (n_store n) (n_outcomes n).
Definition upd_file (f : fileState) (n : node) : node :=
  mkNode (n_dir n) (n_lockFile n) (n_locked n) f (n_store n) (n_outcomes n).
Definition upd_store (s : option Store) (n : node) : node :=
  mkNode (n_dir n) (n_lockFile n) (n_locked n) (n_file n) s (n_outcomes n).

(** A call that can fail with the given error. *)
Definition sysc (e : stateErr) : stM unit := fun n =>
  match n_outcomes n with
  | [] => (Ok tt, n)
  | b :: bs => (if b then Ok tt else Err e,
                mkNode (n_dir n) (n_lockFile n) (n_locked n) (n_file n) (n_store n) bs)
  end.

(** ** [persist.go] *)

Definition ensureSecureDir : stM unit :=
  sysc StateIO ;;;
  let* d := gets n_dir in
  match d with
  | DirAbsent => sysc StateIO ;;; modify (upd_dir DirOk) ;;; sysc StateIO
  | DirOk => ret tt
  | DirSymlink => fail Symlink
  | DirNotDirectory => fail StateIO
  | DirInsecure => fail InsecureMode
  end.

Definition acquireLock : stM unit :=
  let* l := gets n_lockFile in
  if* bool_decide (l = LockFileSymlink) then Symlink end;
  sysc StateIO ;;; sysc StateIO ;;;
  if* bool_decide (l = LockFileInsecure) then InsecureMode end;
  let* locked := gets n_locked in
  if* locked then StateLocked end;
  sysc StateIO ;;;
  modify (upd_lock true).

(** Closing the descriptor drops the flock even when unlocking failed. *)
Definition releaseLock : stM unit :=
  let* unlocked := attempt (sysc StateIO) in
  modify (upd_lock false) ;;;
  let* closed := attempt (sysc StateIO) in
  match unlocked with Err e => fail e | Ok _ => of_res closed end.

(** The check of the existing file before it is replaced. *)
Definition replaceable (f : fileState) : res stateErr unit :=
  match f with FileSymlink => Err Symlink | FileInsecure => Err InsecureMode | _ => Ok tt end.

(** [writeStateAtomic]: context, create, chmod, write, fsync, close, inspect and
    rename; then open and fsync the directory. *)
Definition writeStateAtomic (d : diskState) : stM unit :=
  sysc StateContext ;;;
  sysc StateIO ;;; sysc StateIO ;;; sysc StateIO ;;; sysc StateIO ;;; sysc StateIO ;;;
  sysc StateIO ;;;
  let* f := gets n_file in
  of_res (replaceable f) ;;;
  sysc StateIO ;;;
  modify (upd_file (FileOf d)) ;;;
  sysc StateIO ;;; sysc StateIO.

(** ** Startup *)

Record Inspection := mkInspection { in_Exists : bool; in_AgentID : string; in_CurrentIncarnation : Z }.

Record Startup := mkStartup {
  su_AgentID : string;
  su_PreviousIncarnation : Z;
  su_CurrentIncarnation : Z;
  su_PreviousUnclean : bool;
  su_KnownDurableThrough : option Cursor;
}.

Definition assessStartup (d : diskState) (walTail : option Cursor) (existed : bool) : res stateErr Startup :=
  let start (unclean : bool) :=
    Ok (mkStartup "" (ds_CurrentIncarnation d) 0 unclean walTail) in
  let assess :=
    if (negb existed || (ds_CurrentIncarnation d =? 0))%bool then start false
    else
      let expectedLastSeq :=
        match walTail with
        | Some t => if Incarnation t =? ds_CurrentIncarnation d then Seq t else 0
        | None => 0
        end in
      start (match ds_CleanClose d with
             | None => true
             | Some c => negb (cc_Incarnation c =? ds_CurrentIncarnation d)
                         || negb (cc_LastDurableSeq c =? expectedLastSeq)
             end) in
  match walTail with
  | Some t =>
    if ((Incarnation t =? 0) || (Seq t =? 0))%bool then Err StateInvariant
    else if Incarnation t >? ds_CurrentIncarnation d then Err StateInvariant
    else assess
  | None => assess
  end.

Section Store.
Context (encoded_size : diskState -> Z).

(** [readState] and [decodeState]. *)
Definition readState : stM (option diskState) :=
  sysc StateIO ;;;
  let* f := gets n_file in
  match f with
  | FileAbsent => ret None
  | FileSymlink => fail Symlink
  | FileInsecure => fail InsecureMode
  | FileUndecodable => sysc StateIO ;;; sysc StateIO ;;; fail StateInvariant
  | FileOf d =>
    sysc StateIO ;;; sysc StateIO ;;;
    if* encoded_size d >? maxStateFileSize then StateInvariant end;
    ret (Some d)
  end.

Definition Inspect : stM Inspection :=
  sysc StateIO ;;;
  let* dir := gets n_dir in
  match dir with
  | DirAbsent => ret (mkInspection false "" 0)
  | DirSymlink => fail Symlink
  | DirNotDirectory | DirInsecure => fail InsecureMode
  | DirOk =>
    let* d := readState in
    match d with
    | None => ret (mkInspection false "" 0)
    | Some d =>
      if* negb (validateDiskState d) then StateInvariant end;
      ret (mkInspection true (ds_AgentID d) (ds_CurrentIncarnation d))
    end
  end.

(** The loaded or new state; [random] is what the random source returned. *)
Definition load_or_create (walTail : option Cursor) (random : option (list Z)) : stM (diskState * bool) :=
  let* stored := readState in
  match stored with
  | Some d =>
    if* negb (validateDiskState d) then StateInvariant end;
    ret (d, true)
  | None =>
    if* bool_decide (is_Some walTail) then StateInvariant end;
    match random with
    | None => fail StateIO
    | Some raw =>
      ret (mkState stateVersion (AgentId.New raw) no_credential None None [] 0 None StampEmpty "", false)
    end
  end.

(** [openWithHooks] while it holds the lock. *)
Definition open_locked (walTail : option Cursor) (random : option (list Z)) : stM (diskState * Startup) :=
  let* loaded := load_or_create walTail random in
  let '(d, exists_) := loaded in
  let* startup := of_res (assessStartup d walTail exists_) in
  if* ds_CurrentIncarnation d =? max_u64 then StateInvariant end;
  let d' := with_incarnation (u64 (ds_CurrentIncarnation d + 1)) None d in
  writeStateAtomic d' ;;;
  ret (d', mkStartup (ds_AgentID d') (su_PreviousIncarnation startup) (ds_CurrentIncarnation d')
             (su_PreviousUnclean startup) (su_KnownDurableThrough startup)).

Definition Open (walTail : option Cursor) (random : option (list Z)) : stM Startup :=
  ensureSecureDir ;;;
  acquireLock ;;;
  let* opened := attempt (open_locked walTail random) in
  match opened with
  | Err e => let* _ := attempt releaseLock in fail e
  | Ok (d, startup) => modify (upd_store (Some (mkStore d true false true))) ;;; ret startup
  end.
End Store.

(** ** Operations of the store *)

(** The store a method is called on; a process without one has none to call. *)
Definition getStore : stM Store :=
  let* s := gets n_store in
  match s with Some s => ret s | None => fail StateClosed end.

(** The guard of every mutating method. *)
Definition openStore : stM Store :=
  let* s := getStore in
  if* st_closed s then StateClosed end;
  if* negb (st_ready s) then NotReady end;
  ret s.

Definition Ready : stM bool :=
  let* s := getStore in ret (st_ready s && negb (st_closed s)).

Record Snapshot := mkSnapshot {
  sn_AgentID : string;
  sn_Credential : Credential;
  sn_PendingActivation : option PendingCredentialActivation;
  sn_BoundArchive : option ArchiveBinding;
  sn_RetiredArchives : list RetiredArchive;
  sn_CurrentIncarnation : Z;
  sn_CleanClose : option CleanClose;
  sn_LastDockerEventAt : time;
  sn_DockerSnapshotSHA256 : string;
}.

Definition snapshotOf (d : diskState) : Snapshot :=
  mkSnapshot (ds_AgentID d) (ds_Credential d) (ds_PendingActivation d) (ds_BoundArchive d) (ds_RetiredArchives d)
    (ds_CurrentIncarnation d) (ds_CleanClose d) (parseOptionalTimestamp (ds_LastDockerEventAt d))
    (ds_DockerSnapshotSHA256 d).

Definition TakeSnapshot : stM Snapshot :=
  let* s := getStore in
  if* st_closed s then StateClosed end;
  ret (snapshotOf (st_state s)).

(** [commitLocked]: after a failed write the store is not ready any more. *)
Definition commitLocked (next : diskState) : stM unit :=
  if* negb (validateDiskState next) then StateInvariant end;
  let* written := attempt (writeStateAtomic next) in
  let* s := getStore in
  match written with
  | Err e =>
    modify (upd_store (Some (mkStore (st_state s) false (st_closed s) (st_lockFile s)))) ;;; fail e
  | Ok _ => modify (upd_store (Some (mkStore next (st_ready s) (st_closed s) (st_lockFile s))))
  end.

Definition SetCredential (c : Credential) : stM unit :=
  if* negb (validateCredential c) then StateInvariant end;
  let* s := openStore in
  commitLocked (with_credential c (ds_PendingActivation (st_state s)) (st_state s)).

Record RebindResult := mkRebind {
  rb_Changed : bool;
  rb_Previous : option RetiredArchive;
  rb_Current : ArchiveBinding;
}.

Definition applyArchiveBinding (d : diskState) (presented : ArchiveBinding) (now : time)
  : res stateErr (diskState * RebindResult) :=
  match ds_BoundArchive d with
  | None => Ok (with_archive (Some presented) (ds_RetiredArchives d) d, mkRebind true None presented)
  | Some bound =>
    if negb (bool_decide (ab_ServerIdentityID bound = ab_ServerIdentityID presented)) then Err ServerIdentityMismatch
    else if ab_Generation presented <? ab_Generation bound
    then Err (ArchiveRollback (ab_Generation bound) (ab_Generation presented))
    else if ab_Generation presented =? ab_Generation bound then
      if negb (bool_decide (ab_ArchiveID presented = ab_ArchiveID bound)) then Err ArchiveInvariant
      else Ok (d, mkRebind false None bound)
    else if bool_decide (ab_ArchiveID presented = ab_ArchiveID bound) then Err ArchiveInvariant
    else
      let retired := mkRetired (ab_Generation bound) (ab_ArchiveID bound) (ab_AckedThrough bound) (timestamp now) in
      Ok (with_archive (Some presented) (ds_RetiredArchives d ++ [retired]) d,
          mkRebind true (Some retired) presented)
  end.

Definition InstallCredentialAndBind (c : Credential) (serverIdentityID : string) (generation : Z)
    (archiveID : string) (coverageBeginsAt : Cursor) (now : time) : stM RebindResult :=
  if* negb (validateCredential c) then StateInvariant end;
  let presented := mkBinding serverIdentityID generation archiveID coverageBeginsAt None in
  if* negb (validateBinding presented) then StateInvariant end;
  let* s := openStore in
  let* applied := of_res (applyArchiveBinding (st_state s) presented now) in
  commitLocked (with_credential c None (fst applied)) ;;;
  ret (snd applied).

Definition StageCredentialRenewalAndBind (previous active : Credential) (activeCredentialID : string)
    (serverIdentityID : string) (generation : Z) (archiveID : string) (coverageBeginsAt : Cursor) (now : time)
  : stM RebindResult :=
  if* (credentialEmpty previous || credentialEmpty active || str_empty activeCredentialID)%bool then StateInvariant end;
  if* negb (validateCredential previous) then StateInvariant end;
  if* negb (validateCredential active) then StateInvariant end;
  let presented := mkBinding serverIdentityID generation archiveID coverageBeginsAt None in
  if* negb (validateBinding presented) then StateInvariant end;
  let* s := openStore in
  let* applied := of_res (applyArchiveBinding (st_state s) presented now) in
  commitLocked (with_credential active (Some (mkPending previous activeCredentialID)) (fst applied)) ;;;
  ret (snd applied).

Definition CompleteCredentialActivation (activeCredentialID : string) : stM unit :=
  if* str_empty activeCredentialID then StateInvariant end;
  let* s := openStore in
  match ds_PendingActivation (st_state s) with
  | None => ret tt
  | Some p =>
    if* negb (bool_decide (pa_ActiveCredentialID p = activeCredentialID)) then StateInvariant end;
    commitLocked (with_credential (ds_Credential (st_state s)) None (st_state s))
  end.

Definition BindArchive (serverIdentityID : string) (generation : Z) (archiveID : string)
    (coverageBeginsAt : Cursor) (now : time) : stM RebindResult :=
  let presented := mkBinding serverIdentityID generation archiveID coverageBeginsAt None in
  if* negb (validateBinding presented) then StateInvariant end;
  let* s := openStore in
  let* applied := of_res (applyArchiveBinding (st_state s) presented now) in
  if negb (rb_Changed (snd applied)) then ret (snd applied)
  else commitLocked (fst applied) ;;; ret (snd applied).

Definition AdvanceArchiveACK (archiveID : string) (cursor : Cursor) : stM unit :=
  if* negb (validCursor cursor) then StateInvariant end;
  let* s := openStore in
  match ds_BoundArchive (st_state s) with
  | None => fail StateInvariant
  | Some b =>
    if* negb (bool_decide (archiveID = ab_ArchiveID b)) then ArchiveInvariant end;
    if* compareCursor cursor (ab_CoverageBeginsAt b) <? 0 then CursorRollback end;
    let next := with_archive (Some (with_ack (Some cursor) b)) (ds_RetiredArchives (st_state s)) (st_state s) in
    match ab_AckedThrough b with
    | Some current =>
      if* compareCursor cursor current <? 0 then CursorRollback end;
      if compareCursor cursor current =? 0 then ret tt else commitLocked next
    | None => commitLocked next
    end
  end.

Definition AdvanceLastDockerEventAt (at_ : time) : stM unit :=
  if* is_zero at_ then StateInvariant end;
  let* s := openStore in
  let d := st_state s in
  let next := with_docker (timestamp at_) (ds_DockerSnapshotSHA256 d) d in
  match ds_LastDockerEventAt d with
  | StampEmpty => commitLocked next
  | current => if negb (at_ >? parseOptionalTimestamp current) then ret tt else commitLocked next
  end.

Definition SetDockerSnapshotSHA256 (digest : string) : stM unit :=
  if* negb (validSHA256 digest) then StateInvariant end;
  let* s := openStore in
  if bool_decide (ds_DockerSnapshotSHA256 (st_state s) = digest) then ret tt
  else commitLocked (with_docker (ds_LastDockerEventAt (st_state s)) digest (st_state s)).

Definition closeLocked : stM unit :=
  let* s := getStore in
  modify (upd_store (Some (mkStore (st_state s) false true false))) ;;;
  if st_lockFile s then releaseLock else ret tt.

Definition GracefulClose (lastDurableSeq : Z) (now : time) : stM unit :=
  let* s := openStore in
  let d := st_state s in
  commitLocked (with_incarnation (ds_CurrentIncarnation d)
    (Some (mkClean (ds_CurrentIncarnation d) lastDurableSeq (timestamp now))) d) ;;;
  closeLocked.

Definition Close : stM unit :=
  let* s := getStore in
  if st_closed s then ret tt else closeLocked.
