(* ===== verification/AgentStateSpec.v ===== *)
(** * Agent state: what the store promises

    The store as a transition system (every operation, opening, and a crash),
    its invariant, and the claims about it: the file is replaced atomically and
    a failed write stops the store, the durable history only moves forward,
    incarnations are never reused, and a clean close is recognised exactly. *)

From S2P Require Import Prelude Cursor Operation AgentId AgentState.

(** ** Effects of the calls *)

(** Nodes that differ at most in the outcomes still to come. *)
Definition same (n n' : node) : Prop :=
  n_dir n' = n_dir n /\ n_lockFile n' = n_lockFile n /\ n_locked n' = n_locked n /\
  n_file n' = n_file n /\ n_store n' = n_store n.

#[export] Instance same_preorder : PreOrder same.
Proof. split; [done|]. intros a b c (?&?&?&?&?) (?&?&?&?&?). repeat split; congruence. Qed.

Lemma sysc_same e n : same n (sysc e n).2.
Proof. unfold sysc. by destruct (n_outcomes n). Qed.

Lemma run_sysc {A} n0 e (k : stM A) n r n' :
  (sysc e ;;; k) n = (r, n') -> same n0 n ->
  (same n0 n' /\ is_ok r = false) \/ exists n1, same n0 n1 /\ k n1 = (r, n').
Proof.
  intros E H0. revert E. unfold bind. pose proof (sysc_same e n) as H. destruct (sysc e n) as [[u|x] n1]; simpl in H.
  - right. exists n1. split; [by etransitivity | done].
  - intros [= <- <-]. left. split; [by etransitivity | done].
Qed.

Lemma same_file n n1 d : same n n1 -> same (upd_file (FileOf d) n) (upd_file (FileOf d) n1).
Proof. intros (?&?&?&?&?). by repeat split. Qed.

(** The file is untouched, or replaced as a whole; success means replaced. *)
Lemma writeStateAtomic_effect d n r n' :
  writeStateAtomic d n = (r, n') ->
  (same n n' /\ is_ok r = false) \/ same (upd_file (FileOf d) n) n'.
Proof.
  unfold writeStateAtomic. intros E. assert (same n n) as Hs by done.
  do 7 (let m := fresh "m" in let Hm := fresh "Hm" in
        apply (run_sysc n) in E as [?|(m & Hm & E)]; [by left | clear Hs; rename Hm into Hs | exact Hs]).
  unfold bind at 1, gets at 1, bind at 1, of_res at 1 in E.
  match type of E with context [replaceable ?f] => destruct (replaceable f) as [u|e] end;
    [|injection E as <- <-; by left].
  apply (run_sysc n) in E as [?|(x & Hx & E)]; [by left | clear Hs | exact Hs].
  unfold bind at 1, modify at 1 in E. right. pose proof (same_file n x d Hx) as Hs.
  apply (run_sysc (upd_file (FileOf d) n)) in E as [[? _]|(y & Hy & E)]; [done | | exact Hs].
  etransitivity; [exact Hy|]. pose proof (sysc_same StateIO y) as H. by rewrite E in H.
Qed.

(** ** The order of durable states *)

Definition ack_le (a b : option Cursor) : Prop :=
  match a with None => True | Some x => exists y, b = Some y /\ cursor_le x y end.

Definition stamp_le (s s' : stamp) : Prop :=
  s = StampEmpty \/ exists t t', s = StampOf t /\ s' = StampOf t' /\ t <= t'.

(** How the binding [b] of a state appears in a later one: still bound with an
    acknowledgement at least as far, or retired with one. *)
Definition binding_le (b : ArchiveBinding) (d' : diskState) : Prop :=
  exists b', ds_BoundArchive d' = Some b' /\ ab_ServerIdentityID b' = ab_ServerIdentityID b /\
  ((ab_Generation b' = ab_Generation b /\ ab_ArchiveID b' = ab_ArchiveID b /\
    ab_CoverageBeginsAt b' = ab_CoverageBeginsAt b /\ ack_le (ab_AckedThrough b) (ab_AckedThrough b')) \/
   (ab_Generation b < ab_Generation b' /\
    exists r, r ∈ ds_RetiredArchives d' /\ ra_Generation r = ab_Generation b /\ ra_ArchiveID r = ab_ArchiveID b /\
      ack_le (ab_AckedThrough b) (ra_AckedThrough r))).

Record succeeds (d d' : diskState) : Prop := {
  sc_agent : ds_AgentID d' = ds_AgentID d;
  sc_incarnation : ds_CurrentIncarnation d <= ds_CurrentIncarnation d';
  sc_retired : ds_RetiredArchives d `prefix_of` ds_RetiredArchives d';
  sc_bound : forall b, ds_BoundArchive d = Some b -> binding_le b d';
  sc_event : stamp_le (ds_LastDockerEventAt d) (ds_LastDockerEventAt d');
}.

Lemma ack_le_refl a : ack_le a a.
Proof. destruct a as [x|]; [|done]. exists x. split; [done | reflexivity]. Qed.
Lemma ack_le_trans a b c : ack_le a b -> ack_le b c -> ack_le a c.
Proof.
  destruct a as [x|]; [|done]. intros (y & -> & H) (z & -> & H'). exists z. split; [done | by etransitivity].
Qed.

Lemma binding_le_refl b d : ds_BoundArchive d = Some b -> binding_le b d.
Proof. intros E. exists b. split_and!; auto. left. split_and!; auto using ack_le_refl. Qed.

Lemma binding_le_trans b d1 d2 :
  binding_le b d1 -> ds_RetiredArchives d1 `prefix_of` ds_RetiredArchives d2 ->
  (forall b', ds_BoundArchive d1 = Some b' -> binding_le b' d2) -> binding_le b d2.
Proof.
  intros (b1 & E1 & Hs1 & H1) Hp H. destruct (H b1 E1) as (b2 & E2 & Hs2 & H2). exists b2.
  split_and!; [done | congruence |].
  destruct H1 as [(Hg1 & Ha1 & Hc1 & Hk1)|(Hg1 & r & Hr & Hrg & Hra & Hrk)].
  - destruct H2 as [(Hg2 & Ha2 & Hc2 & Hk2)|(Hg2 & r & Hr & Hrg & Hra & Hrk)].
    + left. split_and!; try congruence. by eapply ack_le_trans.
    + right. split; [lia|]. exists r. split_and!; try congruence. by eapply ack_le_trans.
  - right. split; [destruct H2 as [(? & _)|(? & _)]; lia|]. exists r. split_and!; auto.
    destruct Hp as [k ->]. apply elem_of_app. by left.
Qed.

#[export] Instance stamp_le_trans : Transitive stamp_le.
Proof.
  intros a b c [->|(t & t' & -> & -> & H)] H2; [by left|]. destruct H2 as [?|(u & u' & [= <-] & -> & H')]; [done|].
  right. exists t, u'. split_and!; auto. lia.
Qed.

#[export] Instance succeeds_trans : Transitive succeeds.
Proof.
  intros a b c [] []. split; [congruence | lia | by etransitivity | | by etransitivity].
  intros x Hx. eapply binding_le_trans; eauto.
Qed.

(** A valid state has a canonical watermark. *)
Lemma valid_stamp d : validateDiskState d = true -> stamp_le (ds_LastDockerEventAt d) (ds_LastDockerEventAt d).
Proof.
  unfold validateDiskState. do 6 (case_if; [done|]). intros _. bool_to_prop.
  destruct (ds_LastDockerEventAt d) as [|t|s]; [by left | right; exists t, t; split_and!; auto; lia | done].
Qed.

Lemma succeeds_refl d : validateDiskState d = true -> succeeds d d.
Proof. intros Hv. split; auto; [lia | intros b; apply binding_le_refl | by apply valid_stamp]. Qed.

(** States that agree on what the order looks at. *)
Lemma succeeds_same d d' :
  validateDiskState d = true -> ds_AgentID d' = ds_AgentID d -> ds_CurrentIncarnation d <= ds_CurrentIncarnation d' ->
  ds_RetiredArchives d' = ds_RetiredArchives d -> ds_BoundArchive d' = ds_BoundArchive d ->
  ds_LastDockerEventAt d' = ds_LastDockerEventAt d -> succeeds d d'.
Proof.
  intros Hv Ha Hi Hr Hb Hs. split; auto; [by rewrite Hr | | by rewrite Hs; apply valid_stamp].
  intros b E. apply binding_le_refl. congruence.
Qed.

(** ** The invariant *)

Definition state_ok (d : diskState) : Prop :=
  validateDiskState d = true /\ 1 <= ds_CurrentIncarnation d <= max_u64.

Record node_ok (n : node) : Prop := {
  no_file : forall d, n_file n = FileOf d -> state_ok d;
  no_open : forall s, n_store n = Some s -> st_closed s = false ->
            n_locked n = true /\ st_lockFile s = true /\ state_ok (st_state s) /\
            exists d, n_file n = FileOf d /\ succeeds (st_state s) d /\ (st_ready s = true -> d = st_state s);
  no_closed : forall s, n_store n = Some s -> st_closed s = true -> st_ready s = false /\ st_lockFile s = false;
}.

(** The file only moves forward. *)
Definition advances (n n' : node) : Prop :=
  forall d, n_file n = FileOf d -> exists d', n_file n' = FileOf d' /\ succeeds d d'.

Definition good_at {A} (n : node) (p : res stateErr A * node) : Prop := node_ok p.2 /\ advances n p.2.
Definition good {A} (m : stM A) : Prop := forall n, node_ok n -> good_at n (m n).

Lemma advances_refl n : node_ok n -> advances n n.
Proof. intros Hn d Hd. exists d. split; [done|]. apply succeeds_refl. by apply (no_file _ Hn). Qed.

Lemma advances_trans n1 n2 n3 : advances n1 n2 -> advances n2 n3 -> advances n1 n3.
Proof.
  intros H1 H2 d Hd. destruct (H1 d Hd) as (d2 & E2 & S2). destruct (H2 d2 E2) as (d3 & E3 & S3).
  exists d3. split; [done | by etransitivity].
Qed.

Lemma same_ok n n' : same n n' -> node_ok n -> node_ok n' /\ advances n n'.
Proof.
  intros (Hd & Hlf & Hl & Hf & Hs) Hn. assert (advances n n') as Ha.
  { intros d E. destruct (advances_refl n Hn d E) as (d' & E' & S'). exists d'. by rewrite Hf. }
  split; [|done]. destruct Hn. split; rewrite ?Hf, ?Hl, ?Hs; auto.
Qed.

Lemma good_stay {A} (m : stM A) : (forall n, same n (m n).2) -> good m.
Proof. intros H n Hn. apply same_ok; auto. Qed.
Lemma good_bind {A B} (m : stM A) (f : A -> stM B) : good m -> (forall a, good (f a)) -> good (bind m f).
Proof.
  intros Hm Hf n Hn. unfold bind. destruct (Hm n Hn) as [H1 H2]. destruct (m n) as [[a|e] n1]; simpl in *; [|done].
  destruct (Hf a n1 H1) as [H3 H4]. split; [done | by eapply advances_trans].
Qed.
Lemma good_ret {A} (a : A) : good (ret a : stM A).
Proof. apply good_stay. by intros. Qed.
Lemma good_fail {A} e : good (fail e : stM A).
Proof. apply good_stay. by intros. Qed.
Lemma good_gets {A} (f : node -> A) : good (gets f : stM A).
Proof. apply good_stay. by intros. Qed.
Lemma good_of_res {A} (r : res stateErr A) : good (of_res r : stM A).
Proof. apply good_stay. by intros. Qed.
Lemma good_sysc e : good (sysc e).
Proof. apply good_stay. apply sysc_same. Qed.
Lemma good_attempt {A} (m : stM A) : good m -> good (attempt m).
Proof. intros H n Hn. specialize (H n Hn). unfold attempt. by destruct (m n). Qed.

Create HintDb good.
#[export] Hint Resolve good_ret good_fail good_gets good_of_res good_sysc : good.
Ltac good_steps :=
  repeat first
    [ progress auto with good
    | apply good_attempt
    | apply good_bind; [|intros]
    | match goal with |- good (match ?x with _ => _ end) => destruct x end ].

Lemma good_getStore : good getStore.
Proof. unfold getStore. good_steps. Qed.
#[export] Hint Resolve good_getStore : good.

(** A method that goes on only with an open, ready store. *)
Lemma good_openStore {A} (f : Store -> stM A) :
  (forall n s, node_ok n -> n_store n = Some s -> st_closed s = false -> st_ready s = true -> good_at n (f s n)) ->
  good (bind openStore f).
Proof.
  intros H n Hn. assert (good_at n (Err StateClosed : res stateErr A, n)) as Hsame.
  { by split; [|apply advances_refl]. }
  unfold openStore, getStore, bind, gets. destruct (n_store n) as [s|] eqn:Es; [|done]. unfold ret, fail.
  destruct (st_closed s) eqn:Ec; [done|]. destruct (st_ready s) eqn:Er; [|done]. simpl. by apply H.
Qed.

Lemma good_after {A B} n (m : stM A) (k : A -> stM B) :
  good_at n (m n) -> (forall a, good (k a)) -> good_at n (bind m k n).
Proof.
  intros [H1 H2] Hk. unfold bind. destruct (m n) as [[a|e] n1]; simpl in *; [|done].
  destruct (Hk a n1 H1) as [H3 H4]. split; [done | by eapply advances_trans].
Qed.

(** Committing a successor of the current state. *)
Lemma commitLocked_effect next n s r n' :
  n_store n = Some s -> commitLocked next n = (r, n') ->
  (n' = n /\ is_ok r = false /\ validateDiskState next = false) \/
  (validateDiskState next = true /\ n_locked n' = n_locked n /\
   ((is_ok r = true /\ n_file n' = FileOf next /\
     n_store n' = Some (mkStore next (st_ready s) (st_closed s) (st_lockFile s))) \/
    (is_ok r = false /\ (n_file n' = n_file n \/ n_file n' = FileOf next) /\
     n_store n' = Some (mkStore (st_state s) false (st_closed s) (st_lockFile s))))).
Proof.
  intros Hs. unfold commitLocked. destruct (validateDiskState next) eqn:Ev; cbn [negb].
  2: { intros [= <- <-]. by left. }
  unfold bind at 1, attempt at 1. destruct (writeStateAtomic next n) as [w n1] eqn:Ew.
  apply writeStateAtomic_effect in Ew.
  assert (n_locked n1 = n_locked n /\ n_store n1 = Some s /\
    ((is_ok w = false /\ n_file n1 = n_file n) \/ n_file n1 = FileOf next)) as (Hl & Hst & Hf).
  { destruct Ew as [[(_&_&?&?&?) ?]|(_&_&?&?&?)]; simpl in *; split_and!; auto; congruence. }
  unfold bind at 1, getStore, bind at 1, gets. rewrite Hst. unfold ret. intros H. right. split; [done|].
  destruct w as [u|e].
  - injection H as <- <-. simpl. split; [done|]. left. split_and!; auto. by destruct Hf as [[? _]|].
  - unfold bind, modify, fail in H. injection H as <- <-. simpl. split; [done|]. right. split_and!; auto.
    destruct Hf as [[_ ?]|?]; auto.
Qed.

Lemma commit_good next n s :
  node_ok n -> n_store n = Some s -> st_closed s = false -> st_ready s = true ->
  (validateDiskState next = true ->
   succeeds (st_state s) next /\ 1 <= ds_CurrentIncarnation next <= max_u64) ->
  good_at n (commitLocked next n).
Proof.
  intros Hn Hs Hc Hr Hnext. destruct (commitLocked next n) as [r n'] eqn:E.
  destruct (no_open _ Hn s Hs Hc) as (Hl & Hlf & Hok & d & Hfile & Hsucc & Heq). specialize (Heq Hr). subst d.
  destruct (commitLocked_effect next n s r n' Hs E) as [(-> & _)|(Hv & Hlk & E')];
    [by split; [|apply advances_refl]|]. clear E. rename E' into E.
  destruct (Hnext Hv) as [Hsn Hi]. unfold good_at. simpl.
  assert (advances n n') as Ha.
  { intros d' Hd'. assert (d' = st_state s) as -> by congruence.
    destruct E as [(_ & -> & _)|(_ & [Hf|Hf] & _)]; [eauto | rewrite Hf | eauto]. exists (st_state s).
    split; [done|]. by apply succeeds_refl, Hok. }
  split; [|done]. split.
  - intros d' Hd'. destruct E as [(_ & Hf & _)|(_ & [Hf|Hf] & _)]; rewrite Hf in Hd'.
    + injection Hd' as <-. by split.
    + by apply (no_file _ Hn).
    + injection Hd' as <-. by split.
  - intros s' Hs' Hc'. rewrite Hlk.
    destruct E as [(_ & Hf & Hst)|(_ & Hf & Hst)]; rewrite Hst in Hs'; injection Hs' as <-; simpl in *.
    + split_and!; auto; [by split|]. exists next. split_and!; auto. by apply succeeds_refl.
    + split_and!; auto. destruct Hf as [->|Hf]; [|by exists next]. exists (st_state s). split_and!; auto.
  - intros s' Hs' Hc'. destruct E as [(_ & Hf & Hst)|(_ & Hf & Hst)]; rewrite Hst in Hs'; injection Hs' as <-;
      simpl in *; congruence.
Qed.

(** ** Every operation *)

Lemma applyArchiveBinding_succeeds d presented now d' result :
  validateDiskState d = true -> applyArchiveBinding d presented now = Ok (d', result) ->
  succeeds d d' /\ ds_CurrentIncarnation d' = ds_CurrentIncarnation d /\ ds_CleanClose d' = ds_CleanClose d.
Proof.
  intros Hv. unfold applyArchiveBinding. destruct (ds_BoundArchive d) as [bound|] eqn:Eb.
  - case_if; [done|]. case_if; [done|]. case_if.
    + case_if; [done|]. intros [= <- <-]. split; [by apply succeeds_refl | done].
    + case_if; [done|]. intros [= <- <-]. bool_to_prop. split; [|done]. split; simpl; auto; [lia | | |by apply valid_stamp].
      * by eexists.
      * intros b [= <-]%(eq_trans (eq_sym Eb)). exists presented. split_and!; auto. right. split; [lia|].
        eexists. split; [apply elem_of_app; right; by apply list_elem_of_singleton|]. simpl. split_and!; auto using ack_le_refl.
  - intros [= <- <-]. split; [|done]. split; simpl; auto; [lia | congruence | by apply valid_stamp].
Qed.

(** The successor conditions for the updates the operations make. *)
Lemma ready_state n s :
  node_ok n -> n_store n = Some s -> st_closed s = false -> state_ok (st_state s).
Proof. intros Hn Hs Hc. by destruct (no_open _ Hn s Hs Hc) as (_ & _ & ? & _). Qed.

Lemma SetCredential_good c : good (SetCredential c).
Proof.
  unfold SetCredential. case_if; [good_steps|]. apply good_openStore. intros n s Hn Hs Hc Hr.
  destruct (ready_state n s Hn Hs Hc) as [Hv Hi]. apply (commit_good _ n s); auto. intros _.
  split; [by apply succeeds_same | done].
Qed.

Lemma rebind_good n s presented now (f : diskState -> diskState) (g : RebindResult -> stM RebindResult) :
  node_ok n -> n_store n = Some s -> st_closed s = false -> st_ready s = true ->
  (forall d, ds_CurrentIncarnation (f d) = ds_CurrentIncarnation d) -> (forall r, good (g r)) ->
  (forall d, ds_AgentID (f d) = ds_AgentID d /\ ds_RetiredArchives (f d) = ds_RetiredArchives d /\
     ds_BoundArchive (f d) = ds_BoundArchive d /\ ds_LastDockerEventAt (f d) = ds_LastDockerEventAt d) ->
  good_at n ((let* applied := of_res (applyArchiveBinding (st_state s) presented now) in
              commitLocked (f (fst applied)) ;;; g (snd applied)) n).
Proof.
  intros Hn Hs Hc Hr Hfi Hg Hff. destruct (ready_state n s Hn Hs Hc) as [Hv Hi].
  unfold bind at 1, of_res at 1. destruct (applyArchiveBinding (st_state s) presented now) as [[d' result]|e] eqn:E.
  2: { by split; [|apply advances_refl]. }
  apply applyArchiveBinding_succeeds in E as (Hsc & Hinc & _); [|done].
  apply good_after; [|intros; apply Hg]. simpl. apply (commit_good _ n s); auto. intros _.
  destruct (Hff d') as (H1 & H2 & H3 & H4). rewrite Hfi, Hinc. split; [|done].
  destruct Hsc. split; rewrite ?H1, ?H2, ?H4, ?Hfi; auto.
  intros b Hb. destruct (sc_bound0 b Hb) as (b' & E' & Hrest). exists b'. rewrite H3. split; [done|].
  by rewrite H2.
Qed.

Lemma Install_good c sid g aid cov now : good (InstallCredentialAndBind c sid g aid cov now).
Proof.
  unfold InstallCredentialAndBind. case_if; [good_steps|]. cbv zeta. case_if; [good_steps|]. apply good_openStore.
  intros n s Hn Hs Hc Hr. apply (rebind_good n s _ _ (with_credential c None) ret); auto with good.
Qed.

Lemma Stage_good p a aid sid g ar cov now : good (StageCredentialRenewalAndBind p a aid sid g ar cov now).
Proof.
  unfold StageCredentialRenewalAndBind. do 3 (case_if; [good_steps|]). cbv zeta. case_if; [good_steps|].
  apply good_openStore. intros n s Hn Hs Hc Hr.
  apply (rebind_good n s _ _ (with_credential a (Some (mkPending p aid))) ret); auto with good.
Qed.

Lemma Complete_good aid : good (CompleteCredentialActivation aid).
Proof.
  unfold CompleteCredentialActivation. case_if; [good_steps|]. apply good_openStore. intros n s Hn Hs Hc Hr.
  destruct (ready_state n s Hn Hs Hc) as [Hv Hi]. destruct (ds_PendingActivation (st_state s)) as [p|];
    [|by apply good_ret]. case_if; [by apply good_fail|].
  apply (commit_good _ n s); auto. intros _. split; [by apply succeeds_same | done].
Qed.

Lemma Bind_good sid g aid cov now : good (BindArchive sid g aid cov now).
Proof.
  unfold BindArchive. cbv zeta. case_if; [good_steps|]. apply good_openStore. intros n s Hn Hs Hc Hr.
  destruct (ready_state n s Hn Hs Hc) as [Hv Hi]. unfold bind at 1, of_res at 1.
  destruct (applyArchiveBinding _ _ now) as [[d' result]|e] eqn:E; [|by split; [|apply advances_refl]].
  apply applyArchiveBinding_succeeds in E as (Hsc & Hinc & _); [|done]. simpl.
  case_if; [by apply good_ret|]. apply good_after; [|good_steps]. apply (commit_good _ n s); auto.
  intros _. by rewrite Hinc.
Qed.

Lemma ACK_good aid c : good (AdvanceArchiveACK aid c).
Proof.
  unfold AdvanceArchiveACK. case_if; [good_steps|]. apply good_openStore. intros n s Hn Hs Hc Hr.
  destruct (ready_state n s Hn Hs Hc) as [Hv Hi].
  destruct (ds_BoundArchive (st_state s)) as [b|] eqn:Eb; [|by apply good_fail].
  do 2 (case_if; [by apply good_fail|]). cbv zeta. set (next := with_archive _ _ _).
  assert (ack_le (ab_AckedThrough b) (Some c) -> good_at n (commitLocked next n)) as Hcommit.
  { intros Hle. apply (commit_good _ n s); auto. intros _. split; [|done]. split; simpl; auto; [lia | |by apply valid_stamp].
    intros b0 [= <-]%(eq_trans (eq_sym Eb)). eexists. split; [done|]. simpl. split; [done|]. left. by split_and!. }
  destruct (ab_AckedThrough b) as [cur|] eqn:Ek; [|by apply Hcommit].
  case_if; [by apply good_fail|]. case_if; [by apply good_ret|]. apply Hcommit. exists c. split; [done|].
  bool_to_prop. apply compareCursor_ge. lia.
Qed.

Lemma Event_good t : good (AdvanceLastDockerEventAt t).
Proof.
  unfold AdvanceLastDockerEventAt. case_if; [good_steps|]. apply good_openStore. intros n s Hn Hs Hc Hr.
  destruct (ready_state n s Hn Hs Hc) as [Hv Hi]. cbv zeta. set (next := with_docker _ _ _).
  assert (stamp_le (ds_LastDockerEventAt (st_state s)) (StampOf t) -> good_at n (commitLocked next n)) as Hcommit.
  { intros Hle. apply (commit_good _ n s); auto. intros _. split; [|done]. split; simpl; auto; [lia|].
    intros b Hb. by apply (binding_le_refl b next). }
  pose proof (valid_stamp _ Hv) as Hst. destruct (ds_LastDockerEventAt (st_state s)) as [|u|x] eqn:Es.
  - apply Hcommit. by left.
  - case_if; [by apply good_ret|]. apply Hcommit. right. exists u, t. split_and!; auto.
    bool_to_prop. unfold parseOptionalTimestamp, parse_stamp in *.
    assert (rfc3339_time u = true) as Hu.
    { unfold validateDiskState in Hv. do 6 (case_if; [done|]). rewrite Es in *. simpl in *.
      by destruct (rfc3339_time u). }
    rewrite Hu in *. simpl in *. lia.
  - by destruct Hst as [?|(? & ? & ? & _)].
Qed.

Lemma Digest_good digest : good (SetDockerSnapshotSHA256 digest).
Proof.
  unfold SetDockerSnapshotSHA256. case_if; [good_steps|]. apply good_openStore. intros n s Hn Hs Hc Hr.
  destruct (ready_state n s Hn Hs Hc) as [Hv Hi]. case_if; [by apply good_ret|].
  apply (commit_good _ n s); auto. intros _. split; [by apply succeeds_same | done].
Qed.

Lemma releaseLock_effect n r n' :
  releaseLock n = (r, n') -> n_locked n' = false /\ n_file n' = n_file n /\ n_store n' = n_store n.
Proof.
  unfold releaseLock, bind at 1, attempt at 1. pose proof (sysc_same StateIO n) as (_&_&_&Hf1&Hs1).
  destruct (sysc StateIO n) as [r1 n1]. unfold bind at 1, modify at 1, bind, attempt. simpl in Hf1, Hs1.
  pose proof (sysc_same StateIO (upd_lock false n1)) as (_&_&Hl2&Hf2&Hs2).
  destruct (sysc StateIO (upd_lock false n1)) as [r2 n2]. simpl in *. unfold of_res, fail.
  destruct r1 as [u1|e1]; intros [= _ <-]; split_and!; congruence.
Qed.

(** Closing the open store. *)
Lemma closeLocked_effect n s :
  node_ok n -> n_store n = Some s -> st_closed s = false ->
  n_locked (closeLocked n).2 = false /\ n_file (closeLocked n).2 = n_file n /\
  n_store (closeLocked n).2 = Some (mkStore (st_state s) false true false).
Proof.
  intros Hn Hs Hc. destruct (no_open _ Hn s Hs Hc) as (_ & Hlf & _).
  unfold closeLocked, bind, getStore, bind, gets. rewrite Hs. unfold ret, modify. rewrite Hlf.
  destruct (releaseLock (upd_store (Some (mkStore (st_state s) false true false)) n)) as [r n'] eqn:E.
  by apply releaseLock_effect in E as (H1 & H2 & H3).
Qed.

Lemma closeLocked_good n s :
  node_ok n -> n_store n = Some s -> st_closed s = false -> good_at n (closeLocked n).
Proof.
  intros Hn Hs Hc. destruct (closeLocked_effect n s Hn Hs Hc) as (Hl & Hf & Hst). split.
  - split; rewrite ?Hf, ?Hst; [apply (no_file _ Hn) | |]; intros s' [= <-]; simpl; done.
  - intros d Hd. rewrite Hf. by apply advances_refl.
Qed.

Lemma Close_good : good Close.
Proof.
  intros n Hn. unfold Close, bind, getStore, bind, gets. destruct (n_store n) as [s|] eqn:Es; [|by split; [|apply advances_refl]].
  unfold ret. destruct (st_closed s) eqn:Ec; [by split; [|apply advances_refl]|]. by apply (closeLocked_good n s).
Qed.

Lemma Graceful_good seq now : good (GracefulClose seq now).
Proof.
  apply good_openStore. intros n s Hn Hs Hc Hr. destruct (ready_state n s Hn Hs Hc) as [Hv Hi]. cbv zeta.
  set (next := with_incarnation _ _ _). assert (good_at n (commitLocked next n)) as [H1 H2].
  { apply (commit_good _ n s); auto. intros _. split; [by apply succeeds_same; simpl; auto; lia | done]. }
  unfold bind. destruct (commitLocked next n) as [r n1] eqn:E. simpl in H1, H2. destruct r as [u|e]; [|by split].
  destruct (commitLocked_effect next n s _ n1 Hs E) as [(_ & ? & _)|(_ & _ & [(_ & _ & Hst)|(? & _)])]; try done.
  destruct (closeLocked_good n1 _ H1 Hst Hc) as [H3 H4]. split; [done | by eapply advances_trans].
Qed.

(** ** Opening *)

Section Open.
Context (encoded_size : diskState -> Z).

(** Where the state that is opened comes from. *)
Definition loaded_from (f : fileState) (random : option (list Z)) (d : diskState) (existed : bool) : Prop :=
  (f = FileOf d /\ existed = true /\ validateDiskState d = true /\ encoded_size d <= maxStateFileSize) \/
  (f = FileAbsent /\ existed = false /\ exists raw, random = Some raw /\
     d = mkState stateVersion (AgentId.New raw) no_credential None None [] 0 None StampEmpty "").

Lemma load_effect walTail random n r n' :
  load_or_create encoded_size walTail random n = (r, n') ->
  same n n' /\ forall d existed, r = Ok (d, existed) -> loaded_from (n_file n) random d existed.
Proof.
  unfold load_or_create, readState. intros E. unfold bind at 1 in E.
  set (k := fun _ : unit => _) in E.
  assert (same n n) as Hs0 by done. pose proof (sysc_same StateIO n) as Hs. unfold bind at 1 in E.
  destruct (sysc StateIO n) as [[u|e] n1]; simpl in Hs; [|by injection E as <- <-].
  unfold k, bind at 1, gets at 1 in E. rewrite (proj1 (proj2 (proj2 (proj2 Hs)))) in E.
  destruct (n_file n) as [| | | |d0] eqn:Ef.
  - unfold ret in E. destruct (bool_decide (is_Some walTail)); [by injection E as <- <-|].
    destruct random as [raw|]; injection E as <- <-; (split; [done|]); [|done].
    intros d existed [= <- <-]. right. split_and!; auto. by exists raw.
  - by injection E as <- <-.
  - by injection E as <- <-.
  - unfold bind at 1 in E. pose proof (sysc_same StateIO n1) as Hs1. destruct (sysc StateIO n1) as [[u1|e] n2]; simpl in Hs1;
      [|injection E as <- <-; split; [by etransitivity | done]].
    unfold bind at 1 in E. pose proof (sysc_same StateIO n2) as Hs2. destruct (sysc StateIO n2) as [[u2|e] n3]; simpl in Hs2;
      injection E as <- <-; (split; [|done]); etransitivity; [exact Hs | | exact Hs | ]; by etransitivity.
  - unfold bind at 1 in E. pose proof (sysc_same StateIO n1) as Hs1. destruct (sysc StateIO n1) as [[u1|e] n2]; simpl in Hs1;
      [|injection E as <- <-; split; [by etransitivity | done]].
    unfold bind at 1 in E. pose proof (sysc_same StateIO n2) as Hs2. destruct (sysc StateIO n2) as [[u2|e] n3]; simpl in Hs2;
      [|injection E as <- <-; split; [etransitivity; [exact Hs | by etransitivity] | done]].
    assert (same n n3) as Hs3 by (etransitivity; [exact Hs | by etransitivity]).
    destruct (encoded_size d0 >? maxStateFileSize) eqn:Esz; [by injection E as <- <-|]. unfold ret in E.
    destruct (validateDiskState d0) eqn:Ev; [|by injection E as <- <-]. injection E as <- <-. split; [done|].
    intros d existed [= <- <-]. left. bool_to_prop. split_and!; auto; lia.
Qed.

(** The state [Open] installs over [d]. *)
Definition next_state (d : diskState) : diskState := with_incarnation (u64 (ds_CurrentIncarnation d + 1)) None d.

(** The outcome of [open_locked]: nothing written, or the next incarnation of a
    loaded state. *)
Lemma open_locked_effect walTail random n r n' :
  open_locked encoded_size walTail random n = (r, n') ->
  (same n n' /\ is_ok r = false) \/
  exists d existed su, loaded_from (n_file n) random d existed /\ assessStartup d walTail existed = Ok su /\
    ds_CurrentIncarnation d <> max_u64 /\ same (upd_file (FileOf (next_state d)) n) n' /\
    forall x, r = Ok x -> x = (next_state d, mkStartup (ds_AgentID d) (su_PreviousIncarnation su)
      (ds_CurrentIncarnation (next_state d)) (su_PreviousUnclean su) (su_KnownDurableThrough su)).
Proof.
  unfold open_locked, bind at 1. destruct (load_or_create encoded_size walTail random n) as [[[d existed]|e] n1] eqn:El.
  2: { intros [= <- <-]. left. by apply load_effect in El as [? _]. }
  apply load_effect in El as [Hs Hl]. specialize (Hl d existed eq_refl).
  unfold bind at 1, of_res at 1. destruct (assessStartup d walTail existed) as [su|e] eqn:Ea;
    [|intros [= <- <-]; by left].
  destruct (ds_CurrentIncarnation d =? max_u64) eqn:Em; [intros [= <- <-]; by left|]. bool_to_prop. cbv zeta.
  fold (next_state d). unfold bind at 1. destruct (writeStateAtomic (next_state d) n1) as [w n2] eqn:Ew.
  apply writeStateAtomic_effect in Ew as [[Hs2 Hw]|Hs2].
  - destruct w; [done|]. intros [= <- <-]. left. split; [by etransitivity | done].
  - intros E. right. exists d, existed, su. split_and!; auto.
    + etransitivity; [apply same_file; exact Hs|]. destruct w; injection E as _ <-; exact Hs2.
    + intros x ->. destruct w; [|done]. injection E as <- <-. done.
Qed.

Lemma acquireLock_effect n r n' :
  acquireLock n = (r, n') ->
  (same n n' /\ is_ok r = false) \/ (n_locked n = false /\ same (upd_lock true n) n' /\ r = Ok tt).
Proof.
  unfold acquireLock, bind at 1, gets at 1. case_if; [intros [= <- <-]; by left|]. intros E.
  assert (same n n) as Hs by done.
  apply (run_sysc n) in E as [?|(x & Hx & E)]; [by left | clear Hs | exact Hs].
  apply (run_sysc n) in E as [?|(y & Hy & E)]; [by left | clear x Hx | exact Hx].
  case_if; [injection E as <- <-; by left|]. unfold bind at 1, gets at 1 in E.
  destruct (n_locked y) eqn:El; [injection E as <- <-; by left|].
  assert (n_locked n = false) as Hl by (destruct Hy as (_&_&?&_); congruence).
  apply (run_sysc n) in E as [?|(z & Hz & E)]; [by left | | exact Hy]. injection E as <- <-. right.
  split_and!; auto. destruct Hz as (?&?&?&?&?). by repeat split.
Qed.

Lemma ensureSecureDir_effect n r n' :
  ensureSecureDir n = (r, n') ->
  n_lockFile n' = n_lockFile n /\ n_locked n' = n_locked n /\ n_file n' = n_file n /\ n_store n' = n_store n.
Proof.
  unfold ensureSecureDir, bind at 1. pose proof (sysc_same StateIO n) as Hs.
  destruct (sysc StateIO n) as [[u|e] n1]; simpl in Hs; [|intros [= <- <-]; by destruct Hs as (?&?&?&?&?)].
  unfold bind at 1, gets at 1. destruct (n_dir n1); try (intros [= <- <-]; by destruct Hs as (?&?&?&?&?)).
  unfold bind at 1. pose proof (sysc_same StateIO n1) as Hs1.
  destruct (sysc StateIO n1) as [[u1|e] n2]; simpl in Hs1;
    [|intros [= <- <-]; destruct Hs as (?&?&?&?&?), Hs1 as (?&?&?&?&?); split_and!; congruence].
  unfold bind, modify. intros E. pose proof (sysc_same StateIO (upd_dir DirOk n2)) as Hs2. rewrite E in Hs2. simpl in Hs2.
  destruct Hs as (?&?&?&?&?), Hs1 as (?&?&?&?&?), Hs2 as (?&?&?&?&?). simpl in *. split_and!; congruence.
Qed.

Definition random_ok (random : option (list Z)) : Prop := forall raw, random = Some raw -> raw_ok raw.

Lemma next_state_ok f random d existed :
  loaded_from f random d existed -> random_ok random -> (forall d, f = FileOf d -> state_ok d) ->
  ds_CurrentIncarnation d <> max_u64 ->
  state_ok (next_state d) /\ ds_CurrentIncarnation (next_state d) = ds_CurrentIncarnation d + 1 /\
  (f = FileOf d -> succeeds d (next_state d)).
Proof.
  intros Hl Hr Hf Hm.
  assert (validateDiskState d = true /\ 0 <= ds_CurrentIncarnation d <= max_u64) as [Hv Hi].
  { destruct Hl as [(E & _ & Hv & _)|(_ & _ & raw & E & ->)].
    - destruct (Hf d E) as [? ?]. split; [done | lia].
    - split; [|simpl; unfold max_u64; lia]. unfold validateDiskState. simpl. by rewrite (New_valid raw (Hr raw E)). }
  assert (u64 (ds_CurrentIncarnation d + 1) = ds_CurrentIncarnation d + 1) as Hu
    by (apply u64_id; unfold u64_ok; lia).
  split_and!; [split; [done | simpl; lia] | done |]. intros _. apply succeeds_same; simpl; auto. lia.
Qed.

(** [Open] as a whole. *)
Lemma Open_effect walTail random n r n' :
  node_ok n -> random_ok random -> Open encoded_size walTail random n = (r, n') ->
  (is_ok r = false /\ node_ok n' /\ advances n n') \/
  exists d existed su, loaded_from (n_file n) random d existed /\ assessStartup d walTail existed = Ok su /\
    state_ok (next_state d) /\ ds_CurrentIncarnation (next_state d) = ds_CurrentIncarnation d + 1 /\
    advances n n' /\ node_ok n' /\
    n_file n' = FileOf (next_state d) /\ n_store n' = Some (mkStore (next_state d) true false true) /\
    r = Ok (mkStartup (ds_AgentID d) (su_PreviousIncarnation su) (ds_CurrentIncarnation (next_state d))
              (su_PreviousUnclean su) (su_KnownDurableThrough su)).
Proof.
  intros Hn Hrand. unfold Open, bind at 1. destruct (ensureSecureDir n) as [[u|e] n0] eqn:E0;
    apply ensureSecureDir_effect in E0 as (_ & Hl0 & Hf0 & Hs0).
  2: { intros [= <- <-]. left. split; [done|]. split; [|intros d Hd; rewrite Hf0; by apply advances_refl].
    destruct Hn. split; rewrite ?Hf0, ?Hl0, ?Hs0; auto. }
  unfold bind at 1. destruct (acquireLock n0) as [w n1] eqn:E1.
  apply acquireLock_effect in E1 as [[(_&_&Hl1&Hf1&Hs1) Hw]|(Hunl & (_&_&Hl1&Hf1&Hs1) & ->)].
  { destruct w; [done|]. intros [= <- <-]. left. split; [done|].
    split; [|intros d Hd; rewrite Hf1, Hf0; by apply advances_refl].
    destruct Hn. split; rewrite ?Hf1, ?Hl1, ?Hs1, ?Hf0, ?Hl0, ?Hs0; auto. }
  simpl in Hl1, Hf1, Hs1. rewrite Hl0 in Hunl. rewrite Hf0 in Hf1. rewrite Hs0 in Hs1.
  assert (forall s, n_store n = Some s -> st_closed s = true) as Hclosed.
  { intros s Hs. destruct (st_closed s) eqn:Ec; [done|]. destruct (no_open _ Hn s Hs Ec) as (? & _). congruence. }
  unfold bind at 1, attempt at 1. destruct (open_locked encoded_size walTail random n1) as [o n2] eqn:E2.
  apply open_locked_effect in E2 as [[(_&_&Hl2&Hf2&Hs2) Ho]|(d & existed & su & Hld & Has & Hm & (_&_&Hl2&Hf2&Hs2) & Hx)].
  - destruct o as [x|e]; [done|]. unfold bind, attempt. destruct (releaseLock n2) as [z n3] eqn:E3.
    apply releaseLock_effect in E3 as (_ & Hf3 & Hs3). intros [= <- <-]. left. split; [done|].
    assert (n_file n3 = n_file n) as Hf by congruence. assert (n_store n3 = n_store n) as Hs by congruence.
    split; [|intros d Hd; rewrite Hf; by apply advances_refl].
    split; rewrite ?Hf, ?Hs; [apply (no_file _ Hn) | | apply (no_closed _ Hn)].
    intros s Hst Hc. by rewrite (Hclosed s Hst) in Hc.
  - simpl in Hl2, Hf2, Hs2. rewrite Hf1 in Hld.
    destruct (next_state_ok _ _ _ _ Hld Hrand (no_file _ Hn) Hm) as (Hnok & Hinc & Hsucc).
    assert (forall m, n_file m = FileOf (next_state d) -> advances n m) as Hadv.
    { intros m Hfm d0 Hd0. exists (next_state d). split; [done|].
      destruct Hld as [(E & _)|(E & _)]; [|congruence]. assert (d0 = d) as -> by congruence. by apply Hsucc. }
    destruct o as [x|e].
    + destruct x as [dx sux]. unfold bind, modify. intros [= <- <-]. right. exists d, existed, su.
      specialize (Hx _ eq_refl). injection Hx as -> ->. simpl. split_and!; auto.
      split; simpl; rewrite ?Hf2.
      * intros d0 [= <-]. done.
      * intros s [= <-] _. simpl. rewrite Hl2, Hl1. split_and!; auto. exists (next_state d). split_and!; auto.
        apply succeeds_refl, Hnok.
      * intros s [= <-]. done.
    + unfold bind, attempt. destruct (releaseLock n2) as [z n3] eqn:E3.
      apply releaseLock_effect in E3 as (_ & Hf3 & Hs3). intros [= <- <-]. left. split; [done|].
      split; [|apply Hadv; congruence]. rewrite Hf2 in Hf3. rewrite Hs2, Hs1 in Hs3.
      split; rewrite ?Hf3, ?Hs3; [intros d0 [= <-]; done | | apply (no_closed _ Hn)].
      intros s Hst Hc. by rewrite (Hclosed s Hst) in Hc.
Qed.
End Open.

(** ** Runs *)

Inductive state_step :=
| StOpen (walTail : option Cursor) (random : option (list Z))
| StSetCredential (c : Credential)
| StInstall (c : Credential) (serverIdentityID : string) (generation : Z) (archiveID : string) (cov : Cursor) (now : time)
| StStage (previous active : Credential) (activeID serverIdentityID : string) (generation : Z) (archiveID : string)
    (cov : Cursor) (now : time)
| StComplete (activeID : string)
| StBind (serverIdentityID : string) (generation : Z) (archiveID : string) (cov : Cursor) (now : time)
| StAck (archiveID : string) (cursor : Cursor)
| StEvent (at_ : time)
| StDigest (digest : string)
| StGraceful (lastDurableSeq : Z) (now : time)
| StClose
| StCrash.

(** The process dies: its store is gone and the kernel drops its flock. *)
Definition crash : stM unit := modify (fun n => upd_lock false (upd_store None n)).

Section Runs.
Context (encoded_size : diskState -> Z).

Definition state_run (s : state_step) : stM unit :=
  match s with
  | StOpen t r => Open encoded_size t r ;;; ret tt
  | StSetCredential c => SetCredential c
  | StInstall c sid g aid cov now => InstallCredentialAndBind c sid g aid cov now ;;; ret tt
  | StStage p a id sid g aid cov now => StageCredentialRenewalAndBind p a id sid g aid cov now ;;; ret tt
  | StComplete id => CompleteCredentialActivation id
  | StBind sid g aid cov now => BindArchive sid g aid cov now ;;; ret tt
  | StAck aid c => AdvanceArchiveACK aid c
  | StEvent t => AdvanceLastDockerEventAt t
  | StDigest d => SetDockerSnapshotSHA256 d
  | StGraceful q now => GracefulClose q now
  | StClose => Close
  | StCrash => crash
  end.

Definition state_step_ok (s : state_step) : Prop :=
  match s with StOpen _ r => random_ok r | _ => True end.

Definition state_runs (ss : list state_step) (n : node) : node := foldl (fun n s => (state_run s n).2) n ss.

(** Any run from a directory without a state file. *)
Inductive state_reachable : node -> Prop :=
| sreach_new n : n_file n = FileAbsent -> n_store n = None -> state_reachable n
| sreach_step s n : state_reachable n -> state_step_ok s -> state_reachable (state_run s n).2.

Lemma Open_good t r : random_ok r -> good (Open encoded_size t r).
Proof.
  intros Hr n Hn. destruct (Open encoded_size t r n) as [x n'] eqn:E.
  by apply Open_effect in E as [(_ & ? & ?)|(? & ? & ? & _ & _ & _ & _ & ? & ? & _)].
Qed.

Lemma crash_good : good crash.
Proof.
  intros n Hn. split; [|intros d Hd; by apply (advances_refl n Hn)]. destruct Hn. split; simpl; auto; done.
Qed.

#[local] Hint Resolve SetCredential_good Install_good Stage_good Complete_good Bind_good ACK_good Event_good
  Digest_good Graceful_good Close_good crash_good : good.

Lemma state_run_good s : state_step_ok s -> good (state_run s).
Proof.
  destruct s; cbn [state_run]; intros Hok;
    first [solve [auto with good] | apply good_bind; [first [solve [auto with good] | by apply Open_good] | auto with good]].
Qed.

Lemma state_reachable_ok n : state_reachable n -> node_ok n.
Proof.
  induction 1 as [n Hf Hs|s n Hr IH Hok].
  - split; congruence.
  - by apply state_run_good.
Qed.

Lemma state_runs_good ss n :
  node_ok n -> Forall state_step_ok ss -> node_ok (state_runs ss n) /\ advances n (state_runs ss n).
Proof.
  intros Hn Hok. revert n Hn. induction Hok as [|s ss Hs Hss IH]; intros n Hn; [by split; [|apply advances_refl]|].
  destruct (state_run_good s Hs n Hn) as [H1 H2]. destruct (IH _ H1) as [H3 H4].
  split; [done | by eapply advances_trans].
Qed.

(** A mutating method of the store. *)
Definition mutates (s : state_step) : bool :=
  match s with StOpen _ _ | StClose | StCrash => false | _ => true end.

Lemma guarded_stop {A} (f : Store -> stM A) n :
  (forall s, n_store n = Some s -> st_ready s = false) -> ((let* s := openStore in f s) n).2 = n /\
  is_ok ((let* s := openStore in f s) n).1 = false.
Proof.
  intros H. unfold openStore, getStore, bind, gets. destruct (n_store n) as [s|] eqn:Es; [|done].
  unfold ret, fail. destruct (st_closed s); [done|]. by rewrite (H s eq_refl).
Qed.

(** How a change fails: without any effect, no call of the system having failed,
    or leaving the store not ready. *)
Definition halts {A} (n : node) (x : res stateErr A * node) : Prop :=
  is_ok x.1 = false -> x.2 = n \/ exists s, n_store x.2 = Some s /\ st_ready s = false.

Lemma halts_openStore {A} (f : Store -> stM A) n :
  (forall s, n_store n = Some s -> halts n (f s n)) -> halts n ((let* s := openStore in f s) n).
Proof.
  intros H. unfold openStore, getStore, bind, gets. destruct (n_store n) as [s|] eqn:Es; [|by left].
  unfold ret, fail. destruct (st_closed s); [by left|]. destruct (st_ready s); [by apply H | by left].
Qed.

Lemma halts_commit next n s : n_store n = Some s -> halts n (commitLocked next n).
Proof.
  intros Hs Hf. destruct (commitLocked next n) as [r n'] eqn:E.
  destruct (commitLocked_effect next n s r n' Hs E) as [(-> & _)|(_ & _ & [(? & _)|(_ & _ & Hst)])]; [by left | simpl in *; congruence|].
  right. by eexists.
Qed.

Lemma halts_then {A B} (m : stM A) (k : A -> stM B) n :
  halts n (m n) -> (forall a n1, m n = (Ok a, n1) -> halts n (k a n1)) -> halts n (bind m k n).
Proof. intros Hm Hk. unfold bind. destruct (m n) as [[a|e] n1] eqn:E; [by apply Hk | exact Hm]. Qed.

Lemma halts_ret {A} (a : A) n n1 : halts n (ret a n1).
Proof. by intros ?. Qed.
Lemma halts_of_res {A} (r : res stateErr A) n : halts n (of_res r n).
Proof. destruct r; [apply halts_ret | by left]. Qed.
Lemma halts_fail {A} e n : halts n (fail (A := A) e n).
Proof. by left. Qed.

Lemma halts_close n n1 s : n_store n1 = Some s -> halts n (closeLocked n1).
Proof.
  intros Hs Hf. right. unfold closeLocked, getStore, bind, gets, modify, ret in *. rewrite Hs in *. destruct (st_lockFile s).
  - destruct (releaseLock _) as [r n2] eqn:E. apply releaseLock_effect in E as (_ & _ & E). simpl in E. by eexists.
  - done.
Qed.

Lemma of_res_same {A} (r : res stateErr A) (n : node) a n1 : of_res r n = (Ok a, n1) -> n1 = n.
Proof. destruct r; [intros [= _ ->]; done | discriminate]. Qed.

Lemma change_halts x n : mutates x = true -> halts n (state_run x n).
Proof.
  intros Hx. destruct x; try done; cbn [state_run]; try (apply halts_then; [|intros; apply halts_ret]);
    unfold SetCredential, InstallCredentialAndBind, StageCredentialRenewalAndBind, CompleteCredentialActivation,
      BindArchive, AdvanceArchiveACK, AdvanceLastDockerEventAt, SetDockerSnapshotSHA256, GracefulClose; cbv zeta;
    repeat (case_if; [by apply halts_fail|]); apply halts_openStore; intros s Hs;
    repeat first [by apply (halts_commit _ _ s) | apply halts_ret | apply halts_fail
      | apply halts_then; [apply halts_of_res | intros ? ? ->%of_res_same]
      | apply halts_then; [by apply (halts_commit _ _ s) | intros ? ? E] | case_match].
  destruct (commitLocked_effect _ _ _ _ _ Hs E) as [(_ & ? & _)|(_ & _ & [(_ & _ & Hst)|(? & _)])]; try done. by eapply halts_close.
Qed.

(** [C25] The store never runs ahead of, or behind, its file: in every reachable
    state the file on disk is valid; an open store holds the process lock; while
    it is ready the file is exactly the state in memory, and otherwise that state
    or a successor of it; a change that fails was refused before any call failed,
    with no effect at all, or leaves the store not ready; and a store that is not
    ready refuses every further change without effect. *)
Theorem store_invariant n :
  state_reachable n ->
  (forall d, n_file n = FileOf d -> validateDiskState d = true) /\
  (forall s, n_store n = Some s -> st_closed s = false ->
     n_locked n = true /\ validateDiskState (st_state s) = true /\
     (st_ready s = true -> n_file n = FileOf (st_state s)) /\
     exists d, n_file n = FileOf d /\ succeeds (st_state s) d) /\
  (forall x e n', mutates x = true -> state_run x n = (Err e, n') ->
     n' = n \/ exists s, n_store n' = Some s /\ st_ready s = false) /\
  (forall s x, n_store n = Some s -> st_ready s = false -> mutates x = true ->
     (state_run x n).2 = n /\ is_ok (state_run x n).1 = false).
Proof.
  intros Hn%state_reachable_ok. split_and!.
  - intros d Hd. apply (no_file _ Hn d Hd).
  - intros s Hs Hc. destruct (no_open _ Hn s Hs Hc) as (Hl & _ & [Hv _] & d & Hf & Hsc & Hr).
    split_and!; auto; [|eauto]. intros E. by rewrite (Hr E) in Hf.
  - intros x e n' Hx E. pose proof (change_halts x n Hx) as H. rewrite E in H. by apply H.
  - intros s x Hs Hr Hx.
    assert (forall s', n_store n = Some s' -> st_ready s' = false) as Hnr by congruence.
    assert (forall A (m : stM A), (m n).2 = n /\ is_ok (m n).1 = false ->
      ((m ;;; ret tt) n).2 = n /\ is_ok ((m ;;; ret tt) n).1 = false) as Hthen.
    { intros A m [H1 H2]. unfold bind. by destruct (m n) as [[a|e] n1]. }
    destruct x; try done; cbn [state_run]; try apply Hthen;
      unfold SetCredential, InstallCredentialAndBind, StageCredentialRenewalAndBind, CompleteCredentialActivation,
        BindArchive, AdvanceArchiveACK, AdvanceLastDockerEventAt, SetDockerSnapshotSHA256, GracefulClose; cbv zeta;
      repeat (case_if; [done|]); by apply guarded_stop.
Qed.

(** [C26] The durable history only moves forward: whatever operations run, fail
    or crash, and however often the agent restarts, the state on disk keeps its
    Agent ID, its incarnation and event watermark never decrease, the list of
    retired archives only grows, and the archive binding it had is later still
    bound, to the same server and archive with an acknowledgement at least as
    far, or retired with it in favour of a higher generation. *)
Theorem durable_history n ss d :
  state_reachable n -> Forall state_step_ok ss -> n_file n = FileOf d ->
  exists d', n_file (state_runs ss n) = FileOf d' /\ succeeds d d'.
Proof.
  intros Hn%state_reachable_ok Hok Hd. destruct (state_runs_good ss n Hn Hok) as [_ Ha]. by apply Ha.
Qed.

(** [C27] Incarnations are never reused: a successful open, after whatever has
    happened since the state [d] was on disk, returns an incarnation above
    [d]'s and above that of the last WAL record, in range, with the same Agent
    ID, and the returned store is ready with exactly that incarnation on disk. *)
Theorem incarnation_fresh n ss d walTail random su n' :
  state_reachable n -> Forall state_step_ok ss -> random_ok random -> n_file n = FileOf d ->
  Open encoded_size walTail random (state_runs ss n) = (Ok su, n') ->
  ds_CurrentIncarnation d < su_CurrentIncarnation su <= max_u64 /\
  (forall t, walTail = Some t -> Incarnation t < su_CurrentIncarnation su) /\
  su_AgentID su = ds_AgentID d /\
  exists d', n_file n' = FileOf d' /\ n_store n' = Some (mkStore d' true false true) /\
    ds_CurrentIncarnation d' = su_CurrentIncarnation su /\ ds_AgentID d' = su_AgentID su.
Proof.
  intros Hn%state_reachable_ok Hok Hrand Hd E. destruct (state_runs_good ss n Hn Hok) as [Hn1 Ha].
  destruct (Ha d Hd) as (d1 & Hd1 & Hsc). set (n1 := state_runs ss n) in *.
  apply Open_effect in E as [(? & _)|(d2 & existed & s2 & Hl & Has & Hnok & Hinc & _ & _ & Hf & Hst & [= ->])]; auto; [done|].
  rewrite Hd1 in Hl. destruct Hl as [([= <-] & _)|(? & _)]; [|done]. simpl in *.
  rewrite Hinc. split_and!.
  - destruct Hsc. lia.
  - destruct Hnok as [_ Hi]. simpl in Hi. rewrite Hinc in Hi. lia.
  - intros t ->. unfold assessStartup in Has. case_if; [done|]. case_if; [done|]. bool_to_prop. lia.
  - by destruct Hsc.
  - eexists. split_and!; eauto.
Qed.

(** *** The clean-close marker *)

(** No marker in the file, nor in the open store. *)
Definition unmarked (n : node) : Prop :=
  (exists d, n_file n = FileOf d /\ ds_CleanClose d = None) /\
  (forall s, n_store n = Some s -> st_closed s = false -> ds_CleanClose (st_state s) = None).

Definition plain {A} (m : stM A) : Prop := forall n, node_ok n -> unmarked n -> unmarked (m n).2.

Lemma plain_guard {A} (b : bool) e (m : stM A) : plain m -> plain (if b then fail e else m).
Proof. intros H n Hn Hu. destruct b; [done | by apply H]. Qed.

Lemma plain_openStore {A} (f : Store -> stM A) :
  (forall n s, node_ok n -> unmarked n -> n_store n = Some s -> st_closed s = false ->
     ds_CleanClose (st_state s) = None -> unmarked (f s n).2) -> plain (bind openStore f).
Proof.
  intros H n Hn Hu. unfold openStore, getStore, bind, gets. destruct (n_store n) as [s|] eqn:Es; [|done]. unfold ret, fail.
  destruct (st_closed s) eqn:Ec; [done|]. destruct (st_ready s) eqn:Er; [|done]. simpl.
  apply H; auto. by apply (proj2 Hu).
Qed.

Lemma plain_then {A B} n (m : stM A) (b : B) : unmarked (m n).2 -> unmarked ((m ;;; ret b) n).2.
Proof. unfold bind. by destruct (m n) as [[a|e] n1]. Qed.

Lemma commit_plain next n s :
  unmarked n -> n_store n = Some s -> st_closed s = false -> ds_CleanClose next = None ->
  unmarked (commitLocked next n).2.
Proof.
  intros Hu Hs Hc Hnext. pose proof Hu as [(d & Hf & Hd) Hst]. destruct (commitLocked next n) as [r n'] eqn:E.
  destruct (commitLocked_effect next n s r n' Hs E) as [(-> & _)|(_ & _ & E')]; [done|]. simpl.
  specialize (Hst s Hs Hc). split.
  - destruct E' as [(_ & -> & _)|(_ & [-> | ->] & _)]; eauto.
  - intros s' Hs'. destruct E' as [(_ & _ & E1)|(_ & _ & E1)]; rewrite E1 in Hs'; by injection Hs' as <-.
Qed.

Lemma rebind_plain n s presented now (f : diskState -> diskState) :
  node_ok n -> unmarked n -> n_store n = Some s -> st_closed s = false ->
  (forall d, ds_CleanClose (f d) = ds_CleanClose d) ->
  unmarked ((let* applied := of_res (applyArchiveBinding (st_state s) presented now) in
             commitLocked (f (fst applied)) ;;; ret (snd applied)) n).2.
Proof.
  intros Hn Hu Hs Hc Hf. unfold bind at 1, of_res at 1.
  destruct (applyArchiveBinding (st_state s) presented now) as [[d' result]|e] eqn:E; [|done].
  apply applyArchiveBinding_succeeds in E as (_ & _ & Hcc); [|by apply (ready_state n s)].
  apply plain_then. apply (commit_plain _ n s); auto. simpl. rewrite Hf, Hcc. by apply (proj2 Hu).
Qed.

Lemma closed_plain : plain Close.
Proof.
  intros n Hn Hu. unfold Close, bind, getStore, bind, gets. destruct (n_store n) as [s|] eqn:Es; [|done]. unfold ret.
  destruct (st_closed s) eqn:Ec; [done|].
  destruct (closeLocked_effect n s Hn Es Ec) as (_ & Hf & Hst). destruct Hu as [Hu _].
  split; [by rewrite Hf|]. intros s' Hs'. rewrite Hst in Hs'. by injection Hs' as <-.
Qed.

Lemma Open_plain t r : random_ok r -> plain (Open encoded_size t r).
Proof.
  intros Hr n Hn Hu. destruct (Open encoded_size t r n) as [x n'] eqn:E. simpl. pose proof E as E0.
  revert E. unfold Open, bind at 1. destruct (ensureSecureDir n) as [[u|e] n0] eqn:Ed;
    apply ensureSecureDir_effect in Ed as (_ & Hl0 & Hf0 & Hs0);
    [|intros [= _ <-]; split; rewrite ?Hf0, ?Hs0; apply Hu].
  unfold bind at 1. destruct (acquireLock n0) as [w n1] eqn:E1.
  apply acquireLock_effect in E1 as [[(_&_&Hl1&Hf1&Hs1) Hw]|(Hunl & (_&_&Hl1&Hf1&Hs1) & ->)].
  { destruct w; [done|]. intros [= _ <-]. split; rewrite ?Hf1, ?Hs1, ?Hf0, ?Hs0; apply Hu. }
  simpl in Hf1, Hs1. unfold bind at 1, attempt at 1.
  destruct (open_locked encoded_size t r n1) as [o n2] eqn:E2.
  assert ((exists d, n_file n2 = FileOf d /\ ds_CleanClose d = None) /\ n_store n2 = n_store n /\
    forall d su, o = Ok (d, su) -> ds_CleanClose d = None) as (Hf & Hs & Ho).
  { apply open_locked_effect in E2 as [[(_&_&_&Hf2&Hs2) Ho]|(d & ex & su & _ & _ & _ & (_&_&_&Hf2&Hs2) & Hx)]; simpl in *.
    - split_and!; [rewrite Hf2, Hf1, Hf0; apply Hu | congruence | by destruct o].
    - split_and!; [by exists (next_state d) | congruence |]. intros d' su' ->. by injection (Hx _ eq_refl) as -> _. }
  destruct o as [[d su]|e].
  - unfold bind, modify. intros [= _ <-]. split; [done|]. intros s [= <-] _. simpl. by eapply Ho.
  - unfold bind, attempt. destruct (releaseLock n2) as [z n3] eqn:E3.
    apply releaseLock_effect in E3 as (_ & Hf3 & Hs3). intros [= _ <-]. split; [by rewrite Hf3|].
    rewrite Hs3, Hs. apply Hu.
Qed.

Lemma state_run_plain s :
  state_step_ok s -> match s with StGraceful _ _ => False | _ => True end -> plain (state_run s).
Proof.
  intros Hok Hg. destruct s; try done; cbn [state_run].
  - intros n Hn Hu. apply plain_then. by apply Open_plain.
  - apply plain_guard, plain_openStore. intros n s Hn Hu Hs Hc Hcc. by apply (commit_plain _ n s).
  - intros n Hn Hu. apply plain_then. revert n Hn Hu. unfold InstallCredentialAndBind. cbv zeta.
    apply plain_guard, plain_guard, plain_openStore.
    intros n s Hn Hu Hs Hcl Hcc. by apply (rebind_plain n s _ _ (with_credential c None)).
  - intros n Hn Hu. apply plain_then. revert n Hn Hu. unfold StageCredentialRenewalAndBind. cbv zeta.
    apply plain_guard, plain_guard, plain_guard, plain_guard, plain_openStore.
    intros n s Hn Hu Hs Hcl Hcc. by apply (rebind_plain n s _ _ (with_credential active (Some (mkPending previous activeID)))).
  - apply plain_guard, plain_openStore. intros n s Hn Hu Hs Hc Hcc.
    destruct (ds_PendingActivation (st_state s)); [|done]. case_if; [done|]. by apply (commit_plain _ n s).
  - intros n Hn Hu. apply plain_then. revert n Hn Hu. unfold BindArchive. cbv zeta.
    apply plain_guard, plain_openStore. intros n s Hn Hu Hs Hcl Hcc. unfold bind at 1, of_res at 1.
    destruct (applyArchiveBinding _ _ now) as [[d' result]|e] eqn:E; [|done].
    apply applyArchiveBinding_succeeds in E as (_ & _ & Hd); [|by apply (ready_state n s)]. simpl.
    case_if; [done|]. apply plain_then, (commit_plain _ n s); auto. congruence.
  - apply plain_guard, plain_openStore. intros n s Hn Hu Hs Hc Hcc.
    destruct (ds_BoundArchive (st_state s)) as [b|]; [|done]. do 2 (case_if; [done|]). cbv zeta.
    destruct (ab_AckedThrough b); [|by apply (commit_plain _ n s)]. case_if; [done|]. case_if; [done|].
    by apply (commit_plain _ n s).
  - apply plain_guard, plain_openStore. intros n s Hn Hu Hs Hc Hcc. cbv zeta.
    destruct (ds_LastDockerEventAt (st_state s)); [by apply (commit_plain _ n s)| |];
      (case_if; [done | by apply (commit_plain _ n s)]).
  - apply plain_guard, plain_openStore. intros n s Hn Hu Hs Hc Hcc. case_if; [done | by apply (commit_plain _ n s)].
  - apply closed_plain.
  - intros n Hn [Hf _]. by split.
Qed.

Lemma state_runs_plain ss n :
  node_ok n -> unmarked n -> Forall state_step_ok ss -> (forall q now, StGraceful q now ∉ ss) ->
  unmarked (state_runs ss n).
Proof.
  intros Hn Hu Hok. revert n Hn Hu. induction Hok as [|s ss Hs Hss IH]; intros n Hn Hu Hg; [done|]. apply IH.
  - by apply state_run_good.
  - apply state_run_plain; auto. destruct s; try done. destruct (Hg lastDurableSeq now). by left.
  - intros q now Hin. apply (Hg q now). by right.
Qed.

(** The sequence the last incarnation is expected to have reached. *)
Definition durable_seq (incarnation : Z) (walTail : option Cursor) : Z :=
  match walTail with Some t => if Incarnation t =? incarnation then Seq t else 0 | None => 0 end.

(** A clean close is recognised exactly. The open that follows a successful
    graceful close reports it as clean precisely when the WAL ends at the
    sequence the close was told; and the open that follows any run since an
    open without a graceful close - a plain close, a crash, failed writes,
    failed opens - reports the previous incarnation as unclean. *)
Theorem clean_close_exact n walTail random su :
  state_reachable n -> random_ok random ->
  (forall q now n1 n2, GracefulClose q now n = (Ok tt, n1) -> Open encoded_size walTail random n1 = (Ok su, n2) ->
     su_PreviousUnclean su = false <-> durable_seq (su_PreviousIncarnation su) walTail = q) /\
  (forall t0 r0 su0 n1 ss n2, random_ok r0 -> Open encoded_size t0 r0 n = (Ok su0, n1) ->
     Forall state_step_ok ss -> (forall q now, StGraceful q now ∉ ss) ->
     Open encoded_size walTail random (state_runs ss n1) = (Ok su, n2) -> su_PreviousUnclean su = true).
Proof.
  intros Hn%state_reachable_ok Hrand. split.
  - intros q now n1 n2 Eg Eo.
    pose proof (Graceful_good q now n Hn) as [Hn1 _]. rewrite Eg in Hn1. simpl in Hn1.
    assert (exists d, n_file n1 = FileOf d /\ 1 <= ds_CurrentIncarnation d /\
      exists at_, ds_CleanClose d = Some (mkClean (ds_CurrentIncarnation d) q at_)) as (d & Hf & Hi & at_ & Hcc).
    { revert Eg. unfold GracefulClose, openStore, getStore, bind at 1, bind at 1, bind at 1, gets.
      destruct (n_store n) as [s|] eqn:Es; [|done]. unfold ret. destruct (st_closed s) eqn:Ec; [done|].
      destruct (st_ready s) eqn:Er; [|done]. cbn [negb]. cbv zeta. set (next := with_incarnation _ _ _).
      unfold bind at 1. destruct (commitLocked next n) as [[[]|e] m] eqn:E; [|done].
      pose proof (ready_state n s Hn Es Ec) as [Hv Hi].
      assert (good_at n (commitLocked next n)) as [Hm _].
      { apply (commit_good _ n s); auto. intros _. split; [by apply succeeds_same; simpl; auto; lia | done]. }
      rewrite E in Hm. simpl in Hm.
      destruct (commitLocked_effect next n s _ m Es E) as [(_ & ? & _)|(_ & _ & [(_ & Hf & Hst)|(? & _)])]; try done.
      intros Ecl. pose proof (closeLocked_effect m _ Hm Hst Ec) as (_ & Hfm & _). rewrite Ecl in Hfm. simpl in Hfm.
      exists next. split; [congruence|]. simpl. split; [lia | by eexists]. }
    apply Open_effect in Eo as [(? & _)|(d2 & ex & s2 & Hl & Has & _ & _ & _ & _ & _ & _ & [= ->])]; auto; [done|].
    rewrite Hf in Hl. destruct Hl as [([= <-] & -> & _)|(? & _)]; [|done]. simpl.
    assert (su_PreviousUnclean s2 = negb (q =? durable_seq (su_PreviousIncarnation s2) walTail)) as ->.
    { unfold assessStartup in Has. rewrite Hcc in Has. replace (ds_CurrentIncarnation d =? 0) with false in Has by lia.
      cbn [negb orb cc_Incarnation cc_LastDurableSeq] in Has. rewrite Z.eqb_refl in Has.
      unfold durable_seq. destruct walTail as [t|]; [|by injection Has as <-].
      destruct (_ || _) in Has; [done|]. destruct (_ >? _) in Has; [done|]. by injection Has as <-. }
    rewrite negb_false_iff, Z.eqb_eq. split; congruence.
  - intros t0 r0 su0 n1 ss n2 Hr0 E0 Hok Hng E.
    apply Open_effect in E0 as [(? & _)|(d0 & ex0 & s0 & _ & _ & _ & _ & _ & Hn1 & Hf1 & Hst1 & _)]; auto; [done|].
    assert (unmarked n1) as Hu.
    { split; [by exists (next_state d0)|]. intros s Hs. rewrite Hst1 in Hs. by injection Hs as <-. }
    destruct (state_runs_plain ss n1 Hn1 Hu Hok Hng) as [(d & Hf & Hcc) _].
    destruct (state_runs_good ss n1 Hn1 Hok) as [Hn2 _]. pose proof (no_file _ Hn2 d Hf) as [_ Hi].
    apply Open_effect in E as [(? & _)|(d2 & ex & s2 & Hl & Has & _ & _ & _ & _ & _ & _ & [= ->])]; auto; [done|].
    rewrite Hf in Hl. destruct Hl as [([= <-] & -> & _)|(? & _)]; [|done]. simpl.
    unfold assessStartup in Has. rewrite Hcc in Has. replace (ds_CurrentIncarnation d =? 0) with false in Has by lia.
    cbn [negb orb] in Has. destruct walTail as [t|]; [|by injection Has as <-].
    destruct (_ || _) in Has; [done|]. destruct (_ >? _) in Has; [done|]. by injection Has as <-.
Qed.
End Runs.

(** *** A concrete run *)

(** A first open succeeds, with its seventeen system calls, and the commit that
    follows fails at its second. *)
Definition demo_size (_ : diskState) : Z := 100.
Definition demo_random : option (list Z) := Some (replicate 16 7).
Definition demo_credential : Credential := mkCredential "" [1; 2; 3].
Definition demo_node : node := mkNode DirAbsent LockFileOk false FileAbsent None (replicate 17 true ++ [true; false]).
Definition demo_opened : node := Eval vm_compute in (state_run demo_size (StOpen None demo_random) demo_node).2.
Definition demo_broken : node := Eval vm_compute in (state_run demo_size (StSetCredential demo_credential) demo_opened).2.
Definition demo_store : Store :=
  Eval vm_compute in default (mkStore (mkState 0 "" (mkCredential "" []) None None [] 0 None StampEmpty "") false true false)
                       (n_store demo_broken).
Definition demo_startup : Startup :=
  Eval vm_compute in match (Open demo_size None demo_random (state_runs demo_size [StCrash] demo_broken)).1 with
                     | Ok su => su | Err _ => mkStartup "" 0 0 false None end.
Definition demo_reopened : node :=
  Eval vm_compute in (Open demo_size None demo_random (state_runs demo_size [StCrash] demo_broken)).2.

Lemma demo_random_ok : random_ok demo_random.
Proof. intros raw [= <-]. split; [done|]. repeat constructor; lia. Qed.

Lemma demo_opened_reachable : state_reachable demo_size demo_opened.
Proof.
  refine (sreach_step demo_size (StOpen None demo_random) demo_node _ demo_random_ok). by apply sreach_new.
Qed.

Lemma demo_broken_reachable : state_reachable demo_size demo_broken.
Proof. exact (sreach_step demo_size (StSetCredential demo_credential) demo_opened demo_opened_reachable I). Qed.

Lemma store_invariant_witness :
  st_ready demo_store = false /\ (state_run demo_size (StDigest "00") demo_broken).2 = demo_broken.
Proof.
  split; [reflexivity|].
  refine (proj1 (proj2 (proj2 (proj2 (store_invariant demo_size demo_broken demo_broken_reachable))) demo_store (StDigest "00") _ _ _));
    reflexivity.
Defined.

Lemma durable_history_witness :
  exists d', n_file (state_runs demo_size [StCrash; StOpen None demo_random] demo_broken) = FileOf d' /\
    succeeds (st_state demo_store) d'.
Proof.
  refine (durable_history demo_size demo_broken [StCrash; StOpen None demo_random] _ demo_broken_reachable _ _).
  - constructor; [exact I | constructor; [exact demo_random_ok | constructor]].
  - reflexivity.
Defined.

Lemma incarnation_fresh_witness :
  ds_CurrentIncarnation (st_state demo_store) = 1 /\ 1 < su_CurrentIncarnation demo_startup.
Proof.
  split; [reflexivity|].
  refine (proj1 (proj1 (incarnation_fresh demo_size demo_broken [StCrash] (st_state demo_store) None demo_random
    demo_startup demo_reopened demo_broken_reachable _ demo_random_ok _ _))).
  - constructor; [exact I | constructor].
  - reflexivity.
  - vm_compute. reflexivity.
Defined.

(** A graceful close at sequence 5, the WAL ending there; and a crash. *)
Definition demo_tail : option Cursor := Some (mkCursor 1 5).
Definition demo_calm : node := mkNode DirAbsent LockFileOk false FileAbsent None [].
Definition demo_calm_opened : node := Eval vm_compute in (state_run demo_size (StOpen None demo_random) demo_calm).2.
Definition demo_closed : node := Eval vm_compute in (GracefulClose 5 0 demo_calm_opened).2.
Definition demo_clean : Startup :=
  Eval vm_compute in match (Open demo_size demo_tail demo_random demo_closed).1 with
                     | Ok su => su | Err _ => demo_startup end.
Definition demo_next : node := Eval vm_compute in (Open demo_size demo_tail demo_random demo_closed).2.

Lemma clean_close_exact_witness :
  GracefulClose 5 0 demo_calm_opened = (Ok tt, demo_closed) /\ su_PreviousUnclean demo_clean = false.
Proof.
  split; [vm_compute; reflexivity|].
  refine (proj2 (proj1 (clean_close_exact demo_size demo_calm_opened demo_tail demo_random demo_clean _ demo_random_ok)
    5 0 demo_closed demo_next _ _) _).
  - refine (sreach_step demo_size (StOpen None demo_random) demo_calm _ demo_random_ok). apply sreach_new; reflexivity.
  - vm_compute. reflexivity.
  - vm_compute. reflexivity.
  - vm_compute. reflexivity.
Defined.
