(* ===== verification/Json.v ===== *)
(** * JSON syntax

    [json.Valid] as the store uses it: the byte-driven scanner of
    [encoding/json] with its stack of open objects and arrays and its nesting
    limit. Bytes from 0x80 are accepted inside strings, as the scanner accepts
    them. *)

From Stdlib Require Import Ascii.
From S2P Require Import Prelude.

Inductive parseState := ParseObjectKey | ParseObjectValue | ParseArrayValue.

Inductive mode :=
| BeginValue | BeginValueOrEmpty | BeginStringOrEmpty | BeginString
| EndValue | EndTop
| InString | InEsc | InEscU (digits : nat)
| Neg | Zero | Digits | Dot | Frac | Exp | ExpSign | ExpDigits
| Literal (rest : list ascii).

Definition code (c : ascii) : Z := Z.of_nat (nat_of_ascii c).
Definition isSpace (c : ascii) : bool :=
  (code c =? 32) || (code c =? 9) || (code c =? 13) || (code c =? 10).
Definition isDigit (c : ascii) : bool := (48 <=? code c) && (code c <=? 57).
Definition isHexDigit (c : ascii) : bool :=
  isDigit c || (97 <=? code c) && (code c <=? 102) || (65 <=? code c) && (code c <=? 70).

Definition maxNestingDepth : nat := Z.to_nat 10000.

Definition push (p : parseState) (m : mode) (stack : list parseState) : option (mode * list parseState) :=
  if (length stack <? maxNestingDepth)%nat then Some (m, p :: stack) else None.

(** After a value is complete. *)
Definition ended (stack : list parseState) : mode := match stack with [] => EndTop | _ => EndValue end.

Definition beginValue (c : ascii) (stack : list parseState) : option (mode * list parseState) :=
  if isSpace c then Some (BeginValue, stack)
  else if (c =? "{")%char then push ParseObjectKey BeginStringOrEmpty stack
  else if (c =? "[")%char then push ParseArrayValue BeginValueOrEmpty stack
  else if code c =? 34 then Some (InString, stack)
  else if (c =? "-")%char then Some (Neg, stack)
  else if (c =? "0")%char then Some (Zero, stack)
  else if (c =? "t")%char then Some (Literal ["r"; "u"; "e"]%char, stack)
  else if (c =? "f")%char then Some (Literal ["a"; "l"; "s"; "e"]%char, stack)
  else if (c =? "n")%char then Some (Literal ["u"; "l"; "l"]%char, stack)
  else if isDigit c then Some (Digits, stack)
  else None.

Definition endValue (c : ascii) (stack : list parseState) : option (mode * list parseState) :=
  match stack with
  | [] => if isSpace c then Some (EndTop, []) else None
  | p :: rest =>
    if isSpace c then Some (EndValue, stack)
    else
      match p with
      | ParseObjectKey => if (c =? ":")%char then Some (BeginValue, ParseObjectValue :: rest) else None
      | ParseObjectValue =>
        if (c =? ",")%char then Some (BeginString, ParseObjectKey :: rest)
        else if (c =? "}")%char then Some (ended rest, rest)
        else None
      | ParseArrayValue =>
        if (c =? ",")%char then Some (BeginValue, stack)
        else if (c =? "]")%char then Some (ended rest, rest)
        else None
      end
  end.

Definition inNumber (m : mode) (c : ascii) (stack : list parseState) : option (mode * list parseState) :=
  let exponent := (c =? "e")%char || (c =? "E")%char in
  match m with
  | Neg => if (c =? "0")%char then Some (Zero, stack) else if isDigit c then Some (Digits, stack) else None
  | Zero | Digits =>
    if (match m with Digits => isDigit c | _ => false end) then Some (Digits, stack)
    else if (c =? ".")%char then Some (Dot, stack)
    else if exponent then Some (Exp, stack)
    else endValue c stack
  | Dot => if isDigit c then Some (Frac, stack) else None
  | Frac => if isDigit c then Some (Frac, stack) else if exponent then Some (Exp, stack) else endValue c stack
  | Exp =>
    if (c =? "+")%char || (c =? "-")%char then Some (ExpSign, stack)
    else if isDigit c then Some (ExpDigits, stack) else None
  | ExpSign => if isDigit c then Some (ExpDigits, stack) else None
  | _ => if isDigit c then Some (ExpDigits, stack) else endValue c stack
  end.

Definition scan_step (m : mode) (c : ascii) (stack : list parseState) : option (mode * list parseState) :=
  match m with
  | BeginValue => beginValue c stack
  | BeginValueOrEmpty =>
    if isSpace c then Some (BeginValueOrEmpty, stack)
    else if (c =? "]")%char then endValue c stack
    else beginValue c stack
  | BeginStringOrEmpty =>
    if isSpace c then Some (BeginStringOrEmpty, stack)
    else if (c =? "}")%char then
      match stack with _ :: rest => endValue c (ParseObjectValue :: rest) | [] => None end
    else if code c =? 34 then Some (InString, stack) else None
  | BeginString =>
    if isSpace c then Some (BeginString, stack) else if code c =? 34 then Some (InString, stack) else None
  | EndValue | EndTop => endValue c stack
  | InString =>
    if code c =? 34 then Some (ended stack, stack)
    else if code c =? 92 then Some (InEsc, stack)
    else if code c <? 32 then None else Some (InString, stack)
  | InEsc =>
    if (c =? "u")%char then Some (InEscU 4, stack)
    else if (c =? "b")%char || (c =? "f")%char || (c =? "n")%char || (c =? "r")%char || (c =? "t")%char
            || (c =? "/")%char || (code c =? 34) || (code c =? 92)
    then Some (InString, stack) else None
  | InEscU k =>
    if isHexDigit c then Some (match k with S (S k0) => InEscU (S k0) | _ => InString end, stack) else None
  | Literal (x :: rest) =>
    if (c =? x)%char then Some (match rest with [] => ended stack | _ => Literal rest end, stack) else None
  | Literal [] => None
  | number => inNumber number c stack
  end.

Fixpoint scan (m : mode) (stack : list parseState) (l : list ascii) : option (mode * list parseState) :=
  match l with
  | [] => Some (m, stack)
  | c :: l' => match scan_step m c stack with Some (m', stack') => scan m' stack' l' | None => None end
  end.

(** At the end of the input the scanner is fed one space. *)
Definition json_valid (text : string) : bool :=
  match scan BeginValue [] (String.list_ascii_of_string text) with
  | Some (m, stack) =>
    match scan_step m " " stack with Some (EndTop, _) => true | _ => false end
  | None => false
  end.

Definition quote : string := String (ascii_of_nat 34) "".

Example json_object : json_valid ("{" ++ quote ++ "a" ++ quote ++ ": [1, -2.5e3, true], " ++ quote ++ quote ++ " :{}} ") = true.
Proof. vm_compute. reflexivity. Qed.
Example json_scalar : json_valid " 0 " = true /\ json_valid "[]" = true /\ json_valid "null" = true.
Proof. vm_compute. auto. Qed.
Example json_refused :
  json_valid "" = false /\ json_valid "{" = false /\ json_valid "01" = false /\ json_valid "[1,]" = false /\
  json_valid "1." = false /\ json_valid "{} x" = false /\ json_valid "tru" = false.
Proof. vm_compute. auto 10. Qed.
