(* ===== verification/AuditStore.v ===== *)
(** * The Server's audit store

    Models [internal/auditstore]: the canonical audit events, the Agents'
    coverage claims, the Server's coverage ledger and the delivery cursors, with
    every transaction on them. The SQLite database is a record of tables, each
    a list of rows in rowid order (the cursor table a map from its primary key);
    a query is a filter, an ordering and a projection of a table, as its SQL
    text says. A transaction runs on the database and is undone when its body
    or its commit fails. Every statement may fail: the outcomes of the
    statements still to come are part of the state. Timestamps are stored as
    RFC 3339 texts and represented by the instant they denote; [julianday] is
    the sort key SQLite computes from such a text, [text_length] and
    [time_length] are SQLite's [length] of a text and of a timestamp. *)

From stdpp Require Import pretty.
From S2P Require Import Prelude Cursor Json.

(** ** [types.go], [errors.go] *)

Record Event := mkEvent {
  e_AgentID : string;
  e_Cursor : Cursor;
  e_OccurredAt : time;
  e_Kind : string;
  e_Actor : string;
  e_ProjectUID : string;
  e_OperationID : string;
  e_ResourceType : string;
  e_ResourceID : string;
  e_Action : string;
  e_Metadata : string;
}.

Definition PrecisionExact : string := "exact".
Definition PrecisionCoalesced : string := "coalesced".
Definition PrecisionUnknown : string := "unknown".

Record GapClaim := mkClaim {
  gc_Incarnation : Z;
  gc_FromSeq : Z;
  gc_UntilSeq : Z;
  gc_Reason : string;
  gc_Precision : string;
}.

Record CoverageSnapshot := mkSnapshot {
  cs_AgentID : string;
  cs_Revision : Z;
  cs_GeneratedAt : time;
  cs_Gaps : list GapClaim;
  cs_Unknown : list Z;
}.

Definition CoverageServerNeverHad : string := "SERVER_NEVER_HAD".
Definition CoverageNewAuditArchive : string := "NEW_AUDIT_ARCHIVE".
Definition CoverageDatabaseReinitialized : string := "SERVER_DATABASE_REINITIALIZED".

Record Range := mkRange { r_From : Cursor; r_Until : Cursor }.

#[export] Instance Range_eq_dec : EqDecision Range.
Proof. solve_decision. Defined.

Inductive storeErr :=
| StoreInvariant
| StaleClaim (presented current : Z)
| StoreCursorRollback
| ACKIneligible (proposed deliveryNext : Cursor) (unexplained : list Range)
| CoverageRevisionMismatch
| StoreSQL
| StoreTimestamp
| StoreFuel.

Record IngestResult := mkIngest { ir_Inserted : Z; ir_Duplicates : Z; ir_DeliveryNext : Cursor }.
Record ClaimResult := mkClaimResult { cl_Applied : bool; cl_CurrentRevision : Z }.
Record ACKResult := mkACKResult { ak_Advanced : bool; ak_Cursor : Cursor }.

(** ** The tables *)

Record eventRow := mkEventRow {
  ev_id : Z;
  ev_agent : string;
  ev_inc : Z;
  ev_seq : Z;
  ev_at : time;
  ev_kind : string;
  ev_actor : option string;
  ev_project : option string;
  ev_operation : option string;
  ev_rtype : string;
  ev_rid : string;
  ev_action : string;
  ev_metadata : string;
}.

Inductive ClaimType := ClaimGap | ClaimUnknown.

Record claimRow := mkClaimRow {
  cm_id : Z;
  cm_agent : string;
  cm_revision : Z;
  cm_type : ClaimType;
  cm_inc : Z;
  cm_from : option Z;
  cm_until : option Z;
  cm_reason : string;
  cm_precision : string;
  cm_reported : time;
}.

Inductive EntryType := EntryGap | EntryLowerBound | EntryRegression.
Inductive Source := SourceCoverageStart | SourceAgentGap | SourceRetention | SourceRegression.

Record coverageRow := mkCoverageRow {
  cv_id : Z;
  cv_archive : string;
  cv_agent : string;
  cv_type : EntryType;
  cv_fromInc : Z;
  cv_fromSeq : option Z;
  cv_untilInc : option Z;
  cv_untilSeq : option Z;
  cv_source : Source;
  cv_precision : string;
  cv_effective : bool;
  cv_established : time;
  cv_resolved : option time;
  cv_reason : option string;
}.

(** A cursor row; both columns of a cursor are always written together. *)
Record cursorState := mkCursorState {
  st_next : option Cursor;
  st_ack : option Cursor;
  st_revision : Z;
  st_updated : time;
}.

(** The [audit_archive_identity] setting: absent, not a valid identity, or
    naming an archive. *)
Inductive archiveSetting := SettingAbsent | SettingInvalid | SettingOf (archiveID : string).

Record database := mkDatabase {
  db_events : list eventRow;
  db_claims : list claimRow;
  db_coverage : list coverageRow;
  db_cursors : gmap (string * string) cursorState;
  db_archive : archiveSetting;
}.

#[export] Instance ClaimType_eq_dec : EqDecision ClaimType.
Proof. solve_decision. Defined.
#[export] Instance EntryType_eq_dec : EqDecision EntryType.
Proof. solve_decision. Defined.
#[export] Instance Source_eq_dec : EqDecision Source.
Proof. solve_decision. Defined.
#[export] Instance eventRow_eq_dec : EqDecision eventRow.
Proof. solve_decision. Defined.
#[export] Instance coverageRow_eq_dec : EqDecision coverageRow.
Proof. solve_decision. Defined.

Definition upd_events (f : list eventRow -> list eventRow) (d : database) : database :=
  mkDatabase (f (db_events d)) (db_claims d) (db_coverage d) (db_cursors d) (db_archive d).
Definition upd_claims (f : list claimRow -> list claimRow) (d : database) : database :=
  mkDatabase (db_events d) (f (db_claims d)) (db_coverage d) (db_cursors d) (db_archive d).
Definition upd_coverage (f : list coverageRow -> list coverageRow) (d : database) : database :=
  mkDatabase (db_events d) (db_claims d) (f (db_coverage d)) (db_cursors d) (db_archive d).
Definition upd_cursors (f : gmap (string * string) cursorState -> gmap (string * string) cursorState) (d : database)
  : database :=
  mkDatabase (db_events d) (db_claims d) (db_coverage d) (f (db_cursors d)) (db_archive d).

(** The rowid SQLite gives to a new row. *)
Definition next_id {A} (id : A -> Z) (rows : list A) : Z := foldr (fun r m => Z.max (id r) m) 0 rows + 1.

(** ** [store.go]: the store, statements and transactions *)

Record runtimeObservation := mkRuntime {
  rt_lastIngestAt : time;
  rt_firstUnackedIngestAt : time;
  rt_ingestedSinceACK : bool;
  rt_staleCoverageTotal : Z;
  rt_ackRetryTotal : Z;
  rt_blockedSince : time;
}.

Record auditStore := mkAuditStore {
  s_db : database;
  s_runtime : gmap (string * string) runtimeObservation;
  s_outcomes : list bool;
}.

Definition storeM := M auditStore storeErr.

Definition upd_db (f : database -> database) (s : auditStore) : auditStore :=
  mkAuditStore (f (s_db s)) (s_runtime s) (s_outcomes s).

(** A statement that can fail. *)
Definition sql : storeM unit := fun s =>
  match s_outcomes s with
  | [] => (Ok tt, s)
  | b :: bs => (if b then Ok tt else Err StoreSQL, mkAuditStore (s_db s) (s_runtime s) bs)
  end.

Definition query {A} (f : database -> A) : storeM A := sql ;;; gets (fun s => f (s_db s)).
Definition exec (f : database -> database) : storeM unit := sql ;;; modify (upd_db f).

(** The driver refuses [uint64] arguments with the high bit set. *)
Definition bind_args (args : list Z) : storeM unit :=
  if forallb (fun v => v <=? max_i64) args then ret tt else fail StoreSQL.

Definition rollback {A} (before : database) (e : storeErr) : storeM A := modify (upd_db (fun _ => before)) ;;; fail e.

Definition withImmediate {A} (body : storeM A) : storeM A :=
  sql ;;;
  sql ;;;
  let* before := gets s_db in
  let* r := attempt body in
  match r with
  | Err e => rollback before e
  | Ok v =>
    let* committed := attempt sql in
    match committed with
    | Err e => rollback before e
    | Ok _ => ret v
    end
  end.

Definition withRead {A} (body : storeM A) : storeM A := sql ;;; sql ;;; body.

Definition zero_runtime : runtimeObservation := mkRuntime time_zero time_zero false 0 0 time_zero.

Definition runtimeFor (archive agent : string) (s : auditStore) : runtimeObservation :=
  default zero_runtime (s_runtime s !! (archive, agent)).

Definition upd_runtime (archive agent : string) (f : runtimeObservation -> runtimeObservation) : storeM unit :=
  modify (fun s => mkAuditStore (s_db s) (<[(archive, agent) := f (runtimeFor archive agent s)]> (s_runtime s)) (s_outcomes s)).

(** The zero-time text of [formatTime] parses; years outside 0 to 9999 do not. *)
Definition parseTime (t : time) : storeM time := if rfc3339_time t then ret t else fail StoreTimestamp.

(** ** [coverage.go] *)

Definition validCursor (c : Cursor) : bool :=
  (Incarnation c >? 0) && (Seq c >? 0) && (Incarnation c <=? max_i64) && (Seq c <=? max_i64).

Definition validCoverageStartReason (reason : string) : bool :=
  bool_decide (reason = CoverageServerNeverHad) || bool_decide (reason = CoverageNewAuditArchive)
  || bool_decide (reason = CoverageDatabaseReinitialized).

(** The unresolved lower bounds of an Agent in an archive. *)
Definition is_lower_bound (archive agent : string) (r : coverageRow) : Prop :=
  cv_archive r = archive /\ cv_agent r = agent /\ cv_type r = EntryLowerBound /\ cv_source r = SourceCoverageStart /\
  cv_resolved r = None.
#[export] Instance is_lower_bound_dec archive agent r : Decision (is_lower_bound archive agent r).
Proof. unfold is_lower_bound. apply _. Defined.

Definition lower_bound (archive agent : string) (d : database) : option coverageRow :=
  head (filter (is_lower_bound archive agent) (db_coverage d)).

Definition lower_cursor (r : coverageRow) : Cursor := mkCursor (cv_fromInc r) (default 0 (cv_fromSeq r)).

Definition CoverageStart (archiveID agentID : string) : storeM (option (Cursor * string)) :=
  if* (str_empty archiveID || str_empty agentID)%bool then StoreInvariant end;
  let* row := query (lower_bound archiveID agentID) in
  match row with
  | None => ret None
  | Some r =>
    let reason := default "" (cv_reason r) in
    if* (negb (validCursor (lower_cursor r)) || negb (validCoverageStartReason reason))%bool then StoreInvariant end;
    ret (Some (lower_cursor r, reason))
  end.

Definition ensureCursorRow (archiveID agentID : string) (start : Cursor) (now : time) : storeM unit :=
  exec (upd_cursors (fun m =>
    match m !! (archiveID, agentID) with
    | Some _ => m
    | None => <[(archiveID, agentID) := mkCursorState (Some start) None 0 now]> m
    end)).

Definition insert_coverage (mk : Z -> coverageRow) : storeM unit :=
  exec (upd_coverage (fun rows => rows ++ [mk (next_id cv_id rows)])).

Definition EstablishCoverageStart (archiveID agentID : string) (start : Cursor) (reason : string) (now : time)
  : storeM unit :=
  if* (str_empty archiveID || str_empty agentID || negb (validCursor start)
       || negb (validCoverageStartReason reason))%bool then StoreInvariant end;
  withImmediate (
    let* row := query (lower_bound archiveID agentID) in
    match row with
    | Some r =>
      if bool_decide (lower_cursor r = start) && bool_decide (default "" (cv_reason r) = reason)
      then ensureCursorRow archiveID agentID start now
      else fail StoreInvariant
    | None =>
      insert_coverage (fun id => mkCoverageRow id archiveID agentID EntryLowerBound (Incarnation start)
        (Some (Seq start)) None None SourceCoverageStart PrecisionExact false now None (Some reason)) ;;;
      ensureCursorRow archiveID agentID start now
    end).

Definition loadCursorState (archiveID agentID : string) : storeM cursorState :=
  let* row := query (fun d => db_cursors d !! (archiveID, agentID)) in
  match row with
  | None => fail StoreInvariant
  | Some st => parseTime (st_updated st) ;;; ret st
  end.

(** *** [validateClaims] *)

Fixpoint unknown_scan (seen : list Z) (l : list Z) : bool :=
  match l with
  | [] => true
  | i :: l' =>
    if (i =? 0) || (i >? max_i64) then false
    else if bool_decide (i ∈ seen) then false
    else unknown_scan (i :: seen) l'
  end.

Definition gap_ok (unknown : list Z) (g : GapClaim) : bool :=
  if (gc_Incarnation g =? 0) || (gc_FromSeq g =? 0) || (gc_FromSeq g >=? gc_UntilSeq g)
     || (gc_Incarnation g >? max_i64) || (gc_UntilSeq g >? max_i64) then false
  else if negb (bool_decide (gc_Precision g = PrecisionExact)) && negb (bool_decide (gc_Precision g = PrecisionCoalesced))
  then false
  else if str_empty (gc_Reason g) then false
  else negb (bool_decide (gc_Incarnation g ∈ unknown)).

Definition gap_less (a b : GapClaim) : bool :=
  if negb (gc_Incarnation a =? gc_Incarnation b) then gc_Incarnation a <? gc_Incarnation b
  else gc_FromSeq a <? gc_FromSeq b.

Fixpoint disjoint_scan (l : list GapClaim) : bool :=
  match l with
  | previous :: (current :: _) as l' =>
    negb ((gc_Incarnation previous =? gc_Incarnation current) && (gc_FromSeq current <? gc_UntilSeq previous))
    && disjoint_scan l'
  | _ => true
  end.

Definition validateClaims (snapshot : CoverageSnapshot) : bool :=
  unknown_scan [] (cs_Unknown snapshot) && forallb (gap_ok (cs_Unknown snapshot)) (cs_Gaps snapshot)
  && disjoint_scan (sort_by gap_less (cs_Gaps snapshot)).

(** *** [snapshotEqualsRevision] *)

(** The [%d] rendering of an unsigned integer. *)
Definition decimal (z : Z) : string := pretty (Z.to_N z).

Definition claim_type_text (t : ClaimType) : string :=
  match t with ClaimGap => "GAP" | ClaimUnknown => "COVERAGE_UNKNOWN" end.
Definition null_text (o : option Z) : string :=
  decimal (default 0 o) ++ ":" ++ (match o with Some _ => "true" | None => "false" end).

Definition stored_text (r : claimRow) : string :=
  claim_type_text (cm_type r) ++ ":" ++ decimal (cm_inc r) ++ ":" ++ null_text (cm_from r) ++ ":" ++ null_text (cm_until r)
  ++ ":" ++ cm_reason r ++ ":" ++ cm_precision r.
Definition gap_text (g : GapClaim) : string :=
  "GAP:" ++ decimal (gc_Incarnation g) ++ ":" ++ decimal (gc_FromSeq g) ++ ":true:" ++ decimal (gc_UntilSeq g)
  ++ ":true:" ++ gc_Reason g ++ ":" ++ gc_Precision g.
Definition unknown_text (i : Z) : string :=
  "COVERAGE_UNKNOWN:" ++ decimal i ++ ":0:false:0:false:COVERAGE_UNKNOWN:unknown".

(** SQL order of a nullable column: NULL first. *)
Definition null_less (a b : option Z) : bool :=
  match a, b with
  | None, Some _ => true
  | Some x, Some y => x <? y
  | _, None => false
  end.

(** [ORDER BY incarnation, from_seq] *)
Definition claim_less (a b : claimRow) : bool :=
  if negb (cm_inc a =? cm_inc b) then cm_inc a <? cm_inc b else null_less (cm_from a) (cm_from b).
(** [ORDER BY claim_type, incarnation, from_seq] *)
Definition typed_claim_less (a b : claimRow) : bool :=
  if bool_decide (cm_type a = cm_type b) then claim_less a b else str_less (claim_type_text (cm_type a)) (claim_type_text (cm_type b)).

Definition claims_of (agent : string) (revision : Z) (d : database) : list claimRow :=
  filter (fun r => cm_agent r = agent /\ cm_revision r = revision) (db_claims d).

Definition snapshotEqualsRevision (snapshot : CoverageSnapshot) : storeM bool :=
  let* rows := query (fun d => sort_by typed_claim_less (claims_of (cs_AgentID snapshot) (cs_Revision snapshot) d)) in
  let stored := stored_text <$> rows in
  let expected := sort_by str_less ((gap_text <$> cs_Gaps snapshot) ++ (unknown_text <$> cs_Unknown snapshot)) in
  ret (bool_decide (stored = expected)).

(** ** [effective.go] *)

Record desiredCoverage := mkDesired {
  dc_unknown : Z;
  dc_range : option Range;
  dc_precision : string;
}.

#[export] Instance desiredCoverage_eq_dec : EqDecision desiredCoverage.
Proof. solve_decision. Defined.

Definition claim_of_row (r : claimRow) : GapClaim :=
  mkClaim (cm_inc r) (default 0 (cm_from r)) (default 0 (cm_until r)) (cm_reason r) (cm_precision r).

Definition loadLatestClaims (agentID : string) (revision : Z) : storeM (list GapClaim * list Z) :=
  let* rows := query (fun d => sort_by claim_less (claims_of agentID revision d)) in
  ret (claim_of_row <$> filter (fun r => cm_type r = ClaimGap) rows, cm_inc <$> filter (fun r => cm_type r = ClaimUnknown) rows).

(** The sequences an Agent's incarnation has in the store between two bounds. *)
Definition stored_seqs (agent : string) (inc from until : Z) (d : database) : list Z :=
  ev_seq <$> filter (fun e => ev_agent e = agent /\ ev_inc e = inc /\ from <= ev_seq e < until) (db_events d).

(** The loop of [missingRanges] over the stored sequences in order. *)
Fixpoint missing_loop (inc next until : Z) (seqs : list Z) : list Range :=
  match seqs with
  | [] => if next <? until then [mkRange (mkCursor inc next) (mkCursor inc until)] else []
  | seq :: seqs' =>
    (if seq >? next then [mkRange (mkCursor inc next) (mkCursor inc seq)] else [])
    ++ missing_loop inc (if seq >=? next then u64 (seq + 1) else next) until seqs'
  end.

Definition missingRanges (agentID : string) (claim : GapClaim) : storeM (list Range) :=
  let* seqs := query (fun d => sort_by Z.ltb
    (stored_seqs agentID (gc_Incarnation claim) (gc_FromSeq claim) (gc_UntilSeq claim) d)) in
  ret (missing_loop (gc_Incarnation claim) (gc_FromSeq claim) (gc_UntilSeq claim) seqs).

(** An unresolved effective ledger entry of an Agent in an archive. *)
Definition is_active (archive agent : string) (r : coverageRow) : Prop :=
  cv_archive r = archive /\ cv_agent r = agent /\ cv_effective r = true /\ cv_resolved r = None.
#[export] Instance is_active_dec archive agent r : Decision (is_active archive agent r).
Proof. unfold is_active. apply _. Defined.

Definition is_agent_gap (archive agent : string) (r : coverageRow) : Prop :=
  is_active archive agent r /\ cv_type r = EntryGap /\ cv_source r = SourceAgentGap.
#[export] Instance is_agent_gap_dec archive agent r : Decision (is_agent_gap archive agent r).
Proof. unfold is_agent_gap. apply _. Defined.

Definition desired_of_row (r : coverageRow) : desiredCoverage :=
  match cv_fromSeq r with
  | None => mkDesired (cv_fromInc r) None (cv_precision r)
  | Some from =>
    mkDesired 0 (Some (mkRange (mkCursor (cv_fromInc r) from)
      (mkCursor (default 0 (cv_untilInc r)) (default 0 (cv_untilSeq r))))) (cv_precision r)
  end.

Definition desired_key (e : desiredCoverage) : Cursor :=
  match dc_range e with Some r => r_From r | None => mkCursor (dc_unknown e) 0 end.

Definition desired_less (a b : desiredCoverage) : bool :=
  if negb (Incarnation (desired_key a) =? Incarnation (desired_key b))
  then Incarnation (desired_key a) <? Incarnation (desired_key b)
  else Seq (desired_key a) <? Seq (desired_key b).

Definition sortDesired (l : list desiredCoverage) : list desiredCoverage := sort_by desired_less l.

Definition loadCurrentEffective (archiveID agentID : string) : storeM (list desiredCoverage) :=
  let* rows := query (fun d => filter (is_agent_gap archiveID agentID) (db_coverage d)) in
  ret (sortDesired (desired_of_row <$> rows)).

Definition equalDesired (left right : list desiredCoverage) : bool := bool_decide (left = right).

(** The claims that take effect, with what is missing of each. *)
Fixpoint desired_gaps (agentID : string) (next : option Cursor) (claims : list GapClaim) : storeM (list desiredCoverage) :=
  match claims with
  | [] => ret []
  | gap :: claims' =>
    if (bool_decide (gc_Precision gap = PrecisionCoalesced)
        && match next with
           | None => true
           | Some n => compareCursor n (mkCursor (gc_Incarnation gap) (gc_UntilSeq gap)) <? 0
           end)%bool
    then desired_gaps agentID next claims'
    else
      let* missing := missingRanges agentID gap in
      let* rest := desired_gaps agentID next claims' in
      ret (((fun r => mkDesired 0 (Some r) (gc_Precision gap)) <$> missing) ++ rest)
  end.

Definition set_resolved (now : time) (r : coverageRow) : coverageRow :=
  mkCoverageRow (cv_id r) (cv_archive r) (cv_agent r) (cv_type r) (cv_fromInc r) (cv_fromSeq r) (cv_untilInc r)
    (cv_untilSeq r) (cv_source r) (cv_precision r) (cv_effective r) (cv_established r) (Some now) (cv_reason r).

Definition desired_row (archiveID agentID : string) (now : time) (e : desiredCoverage) (id : Z) : coverageRow :=
  match dc_range e with
  | None => mkCoverageRow id archiveID agentID EntryGap (dc_unknown e) None None None SourceAgentGap PrecisionUnknown
      true now None None
  | Some r => mkCoverageRow id archiveID agentID EntryGap (Incarnation (r_From r)) (Some (Seq (r_From r)))
      (Some (Incarnation (r_Until r))) (Some (Seq (r_Until r))) SourceAgentGap (dc_precision e) true now None None
  end.

Fixpoint insert_desired (archiveID agentID : string) (now : time) (l : list desiredCoverage) : storeM unit :=
  match l with
  | [] => ret tt
  | e :: l' => insert_coverage (desired_row archiveID agentID now e) ;;; insert_desired archiveID agentID now l'
  end.

Definition recomputeEffective (archiveID agentID : string) (now : time) : storeM unit :=
  let* state := loadCursorState archiveID agentID in
  let* latest := loadLatestClaims agentID (st_revision state) in
  let '(claims, unknown) := latest in
  let* gaps := desired_gaps agentID (st_next state) claims in
  let desired := sortDesired (gaps ++ ((fun i => mkDesired i None PrecisionUnknown) <$> unknown)) in
  let* current := loadCurrentEffective archiveID agentID in
  if equalDesired current desired then ret tt
  else
    exec (upd_coverage (fmap (fun r => if decide (is_agent_gap archiveID agentID r) then set_resolved now r else r))) ;;;
    insert_desired archiveID agentID now desired.

(** *** [EffectiveGaps] *)

Record EffectiveGap := mkEffectiveGap {
  eg_ID : Z;
  eg_Range : option Range;
  eg_Incarnation : Z;
  eg_Precision : string;
  eg_Source : Source;
  eg_EstablishedAt : time;
}.

Definition gap_of_row (r : coverageRow) : EffectiveGap :=
  mkEffectiveGap (cv_id r) (dc_range (desired_of_row r)) (cv_fromInc r) (cv_precision r) (cv_source r) (cv_established r).

Definition is_hole (archive agent : string) (r : coverageRow) : Prop :=
  is_active archive agent r /\ cv_type r <> EntryLowerBound.
#[export] Instance is_hole_dec archive agent r : Decision (is_hole archive agent r).
Proof. unfold is_hole. apply _. Defined.

Definition coverage_less (a b : coverageRow) : bool :=
  if negb (cv_fromInc a =? cv_fromInc b) then cv_fromInc a <? cv_fromInc b else null_less (cv_fromSeq a) (cv_fromSeq b).

Fixpoint scan_gaps (rows : list coverageRow) : storeM (list EffectiveGap) :=
  match rows with
  | [] => ret []
  | r :: rows' => parseTime (cv_established r) ;;; let* rest := scan_gaps rows' in ret (gap_of_row r :: rest)
  end.

Definition EffectiveGaps (archiveID agentID : string) : storeM (list EffectiveGap) :=
  let* rows := query (fun d => sort_by coverage_less (filter (is_hole archiveID agentID) (db_coverage d))) in
  scan_gaps rows.

(** ** [ApplyCoverageSnapshot] *)

Definition insert_claim (mk : Z -> claimRow) : storeM unit :=
  exec (upd_claims (fun rows => rows ++ [mk (next_id cm_id rows)])).

Definition gap_row (snapshot : CoverageSnapshot) (g : GapClaim) (id : Z) : claimRow :=
  mkClaimRow id (cs_AgentID snapshot) (cs_Revision snapshot) ClaimGap (gc_Incarnation g) (Some (gc_FromSeq g))
    (Some (gc_UntilSeq g)) (gc_Reason g) (gc_Precision g) (cs_GeneratedAt snapshot).
Definition unknown_row (snapshot : CoverageSnapshot) (i : Z) (id : Z) : claimRow :=
  mkClaimRow id (cs_AgentID snapshot) (cs_Revision snapshot) ClaimUnknown i None None "COVERAGE_UNKNOWN" PrecisionUnknown
    (cs_GeneratedAt snapshot).

Fixpoint insert_claims (l : list (Z -> claimRow)) : storeM unit :=
  match l with
  | [] => ret tt
  | mk :: l' => insert_claim mk ;;; insert_claims l'
  end.

Definition set_cursor (archiveID agentID : string) (f : cursorState -> cursorState) : storeM unit :=
  exec (upd_cursors (alter f (archiveID, agentID))).

Definition with_revision (revision : Z) (st : cursorState) : cursorState :=
  mkCursorState (st_next st) (st_ack st) revision (st_updated st).

Definition apply_snapshot (archiveID : string) (snapshot : CoverageSnapshot) (now : time) : storeM ClaimResult :=
  let* state := loadCursorState archiveID (cs_AgentID snapshot) in
  if* cs_Revision snapshot <? st_revision state then StaleClaim (cs_Revision snapshot) (st_revision state) end;
  if cs_Revision snapshot =? st_revision state then
    let* equal := snapshotEqualsRevision snapshot in
    if equal then ret (mkClaimResult false (st_revision state)) else fail StoreInvariant
  else
    insert_claims ((gap_row snapshot <$> cs_Gaps snapshot) ++ (unknown_row snapshot <$> cs_Unknown snapshot)) ;;;
    set_cursor archiveID (cs_AgentID snapshot) (with_revision (cs_Revision snapshot)) ;;;
    recomputeEffective archiveID (cs_AgentID snapshot) now ;;;
    ret (mkClaimResult true (cs_Revision snapshot)).

Definition ApplyCoverageSnapshot (archiveID : string) (snapshot : CoverageSnapshot) (now : time) : storeM ClaimResult :=
  if* (str_empty archiveID || str_empty (cs_AgentID snapshot) || (cs_Revision snapshot >? max_i64))%bool
  then StoreInvariant end;
  if* negb (validateClaims snapshot) then StoreInvariant end;
  let* result := attempt (withImmediate (apply_snapshot archiveID snapshot now)) in
  match result with
  | Err (StaleClaim p c) =>
    upd_runtime archiveID (cs_AgentID snapshot) (fun r => mkRuntime (rt_lastIngestAt r) (rt_firstUnackedIngestAt r)
      (rt_ingestedSinceACK r) (u64 (rt_staleCoverageTotal r + 1)) (rt_ackRetryTotal r) (rt_blockedSince r)) ;;;
    fail (StaleClaim p c)
  | r => of_res r
  end.

(** ** [ingest.go] *)

Definition event_metadata (e : Event) : string := if str_empty (e_Metadata e) then "{}" else e_Metadata e.

Fixpoint validate_events (agentID : string) (deliveryNext : Cursor) (previous : option Cursor) (l : list Event) : bool :=
  match l with
  | [] => true
  | e :: l' =>
    if negb (bool_decide (e_AgentID e = agentID)) || negb (validCursor (e_Cursor e)) || str_empty (e_Kind e) then false
    else if match previous with Some p => compareCursor p (e_Cursor e) >=? 0 | None => false end then false
    else if compareCursor (e_Cursor e) deliveryNext >=? 0 then false
    else if negb (json_valid (event_metadata e)) then false
    else validate_events agentID deliveryNext (Some (e_Cursor e)) l'
  end.

(** [NULLIF(?, '')] *)
Definition nullif_empty (s : string) : option string := if str_empty s then None else Some s.

Definition event_row (agentID : string) (e : Event) (id : Z) : eventRow :=
  mkEventRow id agentID (Incarnation (e_Cursor e)) (Seq (e_Cursor e)) (e_OccurredAt e) (e_Kind e) (nullif_empty (e_Actor e))
    (nullif_empty (e_ProjectUID e)) (nullif_empty (e_OperationID e)) (e_ResourceType e) (e_ResourceID e) (e_Action e)
    (event_metadata e).

Definition is_event (agent : string) (c : Cursor) (r : eventRow) : Prop :=
  ev_agent r = agent /\ ev_inc r = Incarnation c /\ ev_seq r = Seq c.
#[export] Instance is_event_dec agent c r : Decision (is_event agent c r).
Proof. unfold is_event. apply _. Defined.

Definition find_event (agent : string) (c : Cursor) (d : database) : option eventRow :=
  head (filter (is_event agent c) (db_events d)).

(** [verifyDuplicate]: the stored row, its rowid apart, is the one the event
    would have been stored as. *)
Definition verifyDuplicate (agentID : string) (e : Event) : storeM unit :=
  let* row := query (find_event agentID (e_Cursor e)) in
  match row with
  | None => fail StoreSQL
  | Some r => if bool_decide (r = event_row agentID e (ev_id r)) then ret tt else fail StoreInvariant
  end.

(** [INSERT ... ON CONFLICT(agent_id, incarnation, seq) DO NOTHING], with the
    number of rows it inserted. *)
Definition insert_event (agentID : string) (e : Event) : storeM bool :=
  sql ;;;
  let* found := gets (fun s => find_event agentID (e_Cursor e) (s_db s)) in
  match found with
  | Some _ => ret false
  | None => modify (upd_db (upd_events (fun rows => rows ++ [event_row agentID e (next_id ev_id rows)]))) ;;; ret true
  end.

Fixpoint ingest_events (agentID : string) (inserted duplicates : Z) (l : list Event) : storeM (Z * Z) :=
  match l with
  | [] => ret (inserted, duplicates)
  | e :: l' =>
    let* new := insert_event agentID e in
    if new then ingest_events agentID (inserted + 1) duplicates l'
    else verifyDuplicate agentID e ;;; ingest_events agentID inserted (duplicates + 1) l'
  end.

Definition with_next (next : Cursor) (st : cursorState) : cursorState :=
  mkCursorState (Some next) (st_ack st) (st_revision st) (st_updated st).

Definition Ingest (archiveID agentID : string) (events : list Event) (deliveryNext : Cursor) (now : time)
  : storeM IngestResult :=
  if* (str_empty archiveID || str_empty agentID || negb (validCursor deliveryNext))%bool then StoreInvariant end;
  if* negb (validate_events agentID deliveryNext None events) then StoreInvariant end;
  let* counts := withImmediate (
    let* state := loadCursorState archiveID agentID in
    if* match st_next state with Some n => compareCursor deliveryNext n <? 0 | None => false end
    then StoreCursorRollback end;
    let* counts := ingest_events agentID 0 0 events in
    set_cursor archiveID agentID (with_next deliveryNext) ;;;
    recomputeEffective archiveID agentID now ;;;
    ret counts) in
  let '(inserted, duplicates) := counts in
  (if inserted >? 0 then
     upd_runtime archiveID agentID (fun r => mkRuntime now
       (if rt_ingestedSinceACK r then rt_firstUnackedIngestAt r else now) true (rt_staleCoverageTotal r)
       (rt_ackRetryTotal r) (rt_blockedSince r))
   else ret tt) ;;;
  ret (mkIngest inserted duplicates deliveryNext).

(** ** [ack.go] *)

Definition coverageStart (archiveID agentID : string) : storeM Cursor :=
  let* row := query (lower_bound archiveID agentID) in
  match row with None => fail StoreInvariant | Some r => ret (lower_cursor r) end.

(** The incarnations with events or effective coverage between two bounds. *)
Definition known_incarnations (archive agent : string) (from until : Z) (d : database) : list Z :=
  (ev_inc <$> filter (fun e => ev_agent e = agent /\ from <= ev_inc e <= until) (db_events d)) ++
  (cv_fromInc <$> filter (fun r => is_active archive agent r /\ from <= cv_fromInc r <= until) (db_coverage d)).

Definition relevantIncarnations (archiveID agentID : string) (from until : Z) : storeM (list Z) :=
  query (known_incarnations archiveID agentID from until).

(** The last sequences known for an incarnation. *)
Definition known_ends (archive agent : string) (inc : Z) (d : database) : list Z :=
  (ev_seq <$> filter (fun e => ev_agent e = agent /\ ev_inc e = inc) (db_events d)) ++
  omap (fun r => if decide (is_active archive agent r /\ cv_fromInc r = inc)
                 then (fun until => until - 1) <$> cv_untilSeq r else None) (db_coverage d).

Definition maximum (l : list Z) : option Z :=
  match l with [] => None | x :: l' => Some (foldr Z.max x l') end.

Definition ackRangeEnd (archiveID agentID : string) (incarnation : Z) (proposed deliveryNext : Cursor) : storeM (option Z) :=
  if incarnation =? Incarnation proposed then ret (Some (u64 (Seq proposed + 1)))
  else if incarnation >=? Incarnation deliveryNext then ret None
  else
    let* ends := query (known_ends archiveID agentID incarnation) in
    ret ((fun m => u64 (m + 1)) <$> maximum ends).

(** The sweep over the covered intervals of a window, in order. *)
Fixpoint sweep (inc next until : Z) (intervals : list (Z * Z)) : list Range :=
  match intervals with
  | [] => if next <? until then [mkRange (mkCursor inc next) (mkCursor inc until)] else []
  | (f, u) :: intervals' =>
    (if f >? next then [mkRange (mkCursor inc next) (mkCursor inc f)] else [])
    ++ sweep inc (if u >? next then u else next) until intervals'
  end.

Definition interval_less (a b : Z * Z) : bool := if a.1 =? b.1 then a.2 <? b.2 else a.1 <? b.1.

Definition clamp (from until : Z) (i : Z * Z) : Z * Z :=
  (if i.1 <? from then from else i.1, if i.2 >? until then until else i.2).

(** A gap entry without sequences covers its whole incarnation. *)
Definition is_unknown_gap (archive agent : string) (inc : Z) (r : coverageRow) : Prop :=
  is_active archive agent r /\ cv_type r = EntryGap /\ cv_fromInc r = inc /\ cv_fromSeq r = None.
#[export] Instance is_unknown_gap_dec archive agent inc r : Decision (is_unknown_gap archive agent inc r).
Proof. unfold is_unknown_gap. apply _. Defined.

(** The sequences an effective entry covers of an incarnation. *)
Definition row_interval (archive agent : string) (inc : Z) (r : coverageRow) : option (Z * Z) :=
  if decide (is_hole archive agent r /\ cv_fromInc r = inc) then
    match cv_fromSeq r, cv_untilSeq r with Some f, Some u => Some (f, u) | _, _ => None end
  else None.

Definition covered_intervals (archive agent : string) (inc from until : Z) (d : database) : list (Z * Z) :=
  ((fun seq => (seq, seq + 1)) <$> stored_seqs agent inc from until d) ++
  filter (fun i => from < i.2 /\ i.1 < until) (omap (row_interval archive agent inc) (db_coverage d)).

Definition missingACKCoverage (archiveID agentID : string) (incarnation from until : Z) : storeM (list Range) :=
  let* unknown := query (fun d => filter (is_unknown_gap archiveID agentID incarnation) (db_coverage d)) in
  match unknown with
  | _ :: _ => ret []
  | [] =>
    bind_args [from; until] ;;;
    let* intervals := query (fun d => sort_by interval_less (covered_intervals archiveID agentID incarnation from until d)) in
    ret (sweep incarnation from until (clamp from until <$> intervals))
  end.

Fixpoint unexplained_loop (archiveID agentID : string) (start proposed deliveryNext : Cursor) (incarnations : list Z)
  : storeM (list Range) :=
  match incarnations with
  | [] => ret []
  | incarnation :: rest =>
    if ((incarnation <? Incarnation start) || (incarnation >? Incarnation proposed))%bool
    then unexplained_loop archiveID agentID start proposed deliveryNext rest
    else
      let from := if incarnation =? Incarnation start then Seq start else 1 in
      let* end_ := ackRangeEnd archiveID agentID incarnation proposed deliveryNext in
      match end_ with
      | None => unexplained_loop archiveID agentID start proposed deliveryNext rest
      | Some until =>
        if until <=? from then unexplained_loop archiveID agentID start proposed deliveryNext rest
        else
          let* missing := missingACKCoverage archiveID agentID incarnation from until in
          let* more := unexplained_loop archiveID agentID start proposed deliveryNext rest in
          ret (missing ++ more)
      end
  end.

(** Where the unexplained part can begin: after the acknowledgement, or at the
    coverage start. *)
Definition ack_from (start : Cursor) (currentACK : option Cursor) : Cursor :=
  match currentACK with
  | Some ack => if compareCursor ack start >=? 0 then mkCursor (Incarnation ack) (u64 (Seq ack + 1)) else start
  | None => start
  end.

Definition unexplainedACKRanges (archiveID agentID : string) (currentACK : option Cursor) (proposed deliveryNext : Cursor)
  : storeM (list Range) :=
  let* lower := coverageStart archiveID agentID in
  let start := ack_from lower currentACK in
  if compareCursor proposed start <? 0
  then ret [mkRange proposed (mkCursor (Incarnation proposed) (u64 (Seq proposed + 1)))]
  else
    let* incarnations := relevantIncarnations archiveID agentID (Incarnation start) (Incarnation proposed) in
    unexplained_loop archiveID agentID start proposed deliveryNext
      (sort_by Z.ltb (remove_dups (Incarnation start :: Incarnation proposed :: incarnations))).

Definition cursorValue (c : option Cursor) : Cursor := default (mkCursor 0 0) c.

Definition with_ack (ack : Cursor) (revision : Z) (now : time) (st : cursorState) : cursorState :=
  mkCursorState (st_next st) (Some ack) revision now.

(** The tail both checks share: delivered before [proposed], nothing
    unexplained. *)
Definition check_explained (archiveID agentID : string) (state : cursorState) (proposed : Cursor) : storeM unit :=
  match st_next state with
  | None => fail (ACKIneligible proposed (mkCursor 0 0) [])
  | Some next =>
    if* compareCursor proposed next >=? 0 then ACKIneligible proposed next [] end;
    let* unexplained := unexplainedACKRanges archiveID agentID (st_ack state) proposed next in
    if* negb (bool_decide (unexplained = [])) then ACKIneligible proposed next unexplained end;
    ret tt
  end.

Definition advance_ack (archiveID agentID : string) (proposed : Cursor) (coverageRevisionSeen : Z) (now : time)
  : storeM bool :=
  let* state := loadCursorState archiveID agentID in
  if* negb (coverageRevisionSeen =? st_revision state) then CoverageRevisionMismatch end;
  let advance :=
    check_explained archiveID agentID state proposed ;;;
    set_cursor archiveID agentID (with_ack proposed coverageRevisionSeen now) ;;;
    ret true in
  match st_ack state with
  | Some ack =>
    let comparison := compareCursor proposed ack in
    if* comparison <? 0 then StoreCursorRollback end;
    if comparison =? 0 then ret false else advance
  | None => advance
  end.

Definition CheckAndAdvanceACK (archiveID agentID : string) (proposed : Cursor) (coverageRevisionSeen : Z) (now : time)
  : storeM ACKResult :=
  if* (str_empty archiveID || str_empty agentID || negb (validCursor proposed))%bool then StoreInvariant end;
  let* result := attempt (withImmediate (advance_ack archiveID agentID proposed coverageRevisionSeen now)) in
  match result with
  | Err e =>
    (match e with
     | ACKIneligible _ _ _ | CoverageRevisionMismatch =>
       upd_runtime archiveID agentID (fun r => mkRuntime (rt_lastIngestAt r) (rt_firstUnackedIngestAt r)
         (rt_ingestedSinceACK r) (rt_staleCoverageTotal r) (u64 (rt_ackRetryTotal r + 1)) (rt_blockedSince r))
     | _ => ret tt
     end) ;;;
    fail e
  | Ok advanced =>
    (if advanced : bool then
       upd_runtime archiveID agentID (fun r => mkRuntime (rt_lastIngestAt r) time_zero false
         (rt_staleCoverageTotal r) (rt_ackRetryTotal r) time_zero)
     else ret tt) ;;;
    ret (mkACKResult advanced proposed)
  end.

(** ** [regression.go] *)

Definition RegressionDatabaseRestore : string := "DATABASE_RESTORE".
Definition RegressionUnknown : string := "UNKNOWN".

Definition validRegressionReason (reason : string) : bool :=
  bool_decide (reason = RegressionDatabaseRestore) || bool_decide (reason = RegressionUnknown)
  || bool_decide (reason = "ARCHIVE_ROLLBACK") || bool_decide (reason = "CURSOR_METADATA_LOSS").

Definition ACKEligibility (archiveID agentID : string) (proposed : Cursor) (coverageRevisionSeen : Z) : storeM unit :=
  if* (str_empty archiveID || str_empty agentID || negb (validCursor proposed))%bool then StoreInvariant end;
  withRead (
    let* state := loadCursorState archiveID agentID in
    if* negb (coverageRevisionSeen =? st_revision state) then CoverageRevisionMismatch end;
    if match st_ack state with Some ack => compareCursor proposed ack <=? 0 | None => false end then ret tt
    else check_explained archiveID agentID state proposed).

Definition insertRegressionGap (archiveID agentID : string) (value : Range) (reason : string) (now : time) : storeM unit :=
  if* negb (Incarnation (r_From value) =? Incarnation (r_Until value)) then StoreInvariant end;
  bind_args [Seq (r_From value); Seq (r_Until value)] ;;;
  insert_coverage (fun id => mkCoverageRow id archiveID agentID EntryRegression (Incarnation (r_From value))
    (Some (Seq (r_From value))) (Some (Incarnation (r_Until value))) (Some (Seq (r_Until value)))
    SourceRegression PrecisionExact true now None (Some reason)).

Fixpoint record_regressions (archiveID agentID : string) (resumedAt : Cursor) (reason : string) (now : time)
  (blocked : list Range) : storeM (list Range) :=
  match blocked with
  | [] => ret []
  | r :: blocked' =>
    if compareCursor (r_Until r) resumedAt >? 0
    then record_regressions archiveID agentID resumedAt reason now blocked'
    else
      insertRegressionGap archiveID agentID r reason now ;;;
      let* rest := record_regressions archiveID agentID resumedAt reason now blocked' in
      ret (r :: rest)
  end.

Definition RecordCursorRegression (archiveID agentID : string) (proposed resumedAt : Cursor) (reason : string) (now : time)
  : storeM (list Range) :=
  if* (str_empty archiveID || str_empty agentID || negb (validCursor proposed) || negb (validCursor resumedAt))%bool
  then StoreInvariant end;
  if* negb (validRegressionReason reason) then StoreInvariant end;
  withImmediate (
    let* state := loadCursorState archiveID agentID in
    coverageStart archiveID agentID ;;;
    match st_next state with
    | None => ret []
    | Some next =>
      if compareCursor proposed next >=? 0 then ret []
      else
        let* blocked := unexplainedACKRanges archiveID agentID (st_ack state) proposed next in
        record_regressions archiveID agentID resumedAt reason now blocked
    end).

(** ** [retention.go]: the policy *)

Definition DefaultServerAuditRetention : Z := 365 * 24 * 3600 * 1000000000.
Definition DefaultServerAuditMaxBytes : Z := 10 * 2 ^ 30.

Record ArchiveUsage_ := mkUsage {
  us_RecordCount : Z;
  us_ApproximateBytes : Z;
  us_OldestOccurredAt : time;
  us_EvaluatedAt : time;
}.

Record RetentionPlan := mkPlan {
  rp_DeleteBefore : time;
  rp_Warning : bool;
  rp_Aggressive : bool;
  rp_PressureTargetBytes : Z;
}.

Inductive RetentionLevel := RetentionNormal | RetentionWarning | RetentionAggressive.

Record RetentionResult := mkRetention {
  rr_Level : RetentionLevel;
  rr_UsageBefore : ArchiveUsage_;
  rr_UsageAfter : ArchiveUsage_;
  rr_DeletedACKedRecords : Z;
  rr_DeletedUnACKedRecords : Z;
  rr_DeletedCoveredRecords : Z;
  rr_CompactedCoverageHistoryRows : Z;
  rr_CreatedCoverageIntervals : Z;
  rr_LowWatermarkReached : bool;
}.

Record DefaultRetentionPolicy := mkPolicy {
  po_MaxAge : Z;
  po_MaxBytes : Z;
  po_WarningPercent : Z;
  po_AggressivePercent : Z;
  po_LowPercent : Z;
}.

Definition NewDefaultRetentionPolicy : DefaultRetentionPolicy :=
  mkPolicy DefaultServerAuditRetention DefaultServerAuditMaxBytes 80 95 80.

Definition percentage (value percent : Z) : Z :=
  i64 (i64 (Z.quot value 100 * percent) + Z.quot (i64 (Z.rem value 100 * percent)) 100).

Definition Plan (policy : DefaultRetentionPolicy) (usage : ArchiveUsage_) : res storeErr RetentionPlan :=
  if (po_MaxAge policy <=? 0) || (po_MaxBytes policy <=? 0) || (po_WarningPercent policy <=? 0)
     || (po_WarningPercent policy >=? po_AggressivePercent policy) || (po_AggressivePercent policy >=? 100)
     || (po_LowPercent policy <=? 0) || (po_LowPercent policy >? po_WarningPercent policy)
     || is_zero (us_EvaluatedAt usage) || (us_ApproximateBytes usage <? 0)
  then Err StoreInvariant
  else
    let aggressive := us_ApproximateBytes usage >=? percentage (po_MaxBytes policy) (po_AggressivePercent policy) in
    Ok (mkPlan (us_EvaluatedAt usage - po_MaxAge policy)
      (us_ApproximateBytes usage >=? percentage (po_MaxBytes policy) (po_WarningPercent policy)) aggressive
      (if aggressive then percentage (po_MaxBytes policy) (po_LowPercent policy) else 0)).

(** ** [retention.go]: the executor *)

Definition retentionBatchRows : nat := 512.
Definition retentionAppliedReason : string := "SERVER_RETENTION_APPLIED".
Definition quotaBeforeACKReason : string := "QUOTA_PRESSURE_BEFORE_AGENT_ACK".

Definition requireCurrentArchive (archiveID : string) : storeM unit :=
  let* setting := query db_archive in
  match setting with
  | SettingOf id => if bool_decide (id = archiveID) then ret tt else fail StoreInvariant
  | _ => fail StoreInvariant
  end.

Record retentionEvent := mkRetentionEvent {
  re_id : Z;
  re_agent : string;
  re_cursor : Cursor;
  re_at : time;
  re_bytes : Z;
}.

(** [retentionIntervals]: the events in order, adjacent ones joined. *)
Definition retention_less (a b : retentionEvent) : bool :=
  if negb (bool_decide (re_agent a = re_agent b)) then str_less (re_agent a) (re_agent b)
  else compareCursor (re_cursor a) (re_cursor b) <? 0.

(** [result] is kept with its last element first. *)
Fixpoint interval_loop (result : list (string * Range)) (l : list retentionEvent) : list (string * Range) :=
  match l with
  | [] => rev result
  | e :: l' =>
    let fresh := (re_agent e, mkRange (re_cursor e) (cursor_succ (re_cursor e))) in
    match result with
    | (agent, r) :: result' =>
      if bool_decide (agent = re_agent e) && bool_decide (r_Until r = re_cursor e)
      then interval_loop ((agent, mkRange (r_From r) (cursor_succ (r_Until r))) :: result') l'
      else interval_loop (fresh :: result) l'
    | [] => interval_loop [fresh] l'
    end
  end.

Definition retentionIntervals (events : list retentionEvent) : list (string * Range) :=
  interval_loop [] (sort_by retention_less events).

(** The retention entries an interval touches. *)
Definition is_touching (archive agent : string) (interval : Range) (reason : string) (r : coverageRow) : Prop :=
  is_active archive agent r /\ cv_type r = EntryGap /\ cv_source r = SourceRetention /\ cv_reason r = Some reason /\
  cv_precision r = PrecisionExact /\ cv_fromInc r = Incarnation (r_From interval) /\
  cv_untilInc r = Some (Incarnation (r_From interval)) /\
  Seq (r_From interval) <= default 0 (cv_untilSeq r) /\ default 0 (cv_fromSeq r) <= Seq (r_Until interval).
#[export] Instance is_touching_dec archive agent interval reason r : Decision (is_touching archive agent interval reason r).
Proof. unfold is_touching. apply _. Defined.

Definition merged_bounds (interval : Range) (rows : list coverageRow) : Z * Z :=
  (foldr (fun r m => Z.min (default 0 (cv_fromSeq r)) m) (Seq (r_From interval)) rows,
   foldr (fun r m => Z.max (default 0 (cv_untilSeq r)) m) (Seq (r_Until interval)) rows).

Definition set_ineffective (now : time) (r : coverageRow) : coverageRow :=
  mkCoverageRow (cv_id r) (cv_archive r) (cv_agent r) (cv_type r) (cv_fromInc r) (cv_fromSeq r) (cv_untilInc r)
    (cv_untilSeq r) (cv_source r) (cv_precision r) false (cv_established r) (Some now) (cv_reason r).

Fixpoint resolve_rows (now : time) (ids : list Z) : storeM unit :=
  match ids with
  | [] => ret tt
  | id :: ids' =>
    exec (upd_coverage (fmap (fun r => if cv_id r =? id then set_ineffective now r else r))) ;;; resolve_rows now ids'
  end.

Definition recordRetentionInterval (archiveID agentID : string) (interval : Range) (reason : string) (now : time)
  : storeM unit :=
  bind_args [Seq (r_From interval); Seq (r_Until interval)] ;;;
  let* rows := query (fun d => filter (is_touching archiveID agentID interval reason) (db_coverage d)) in
  let '(from, until) := merged_bounds interval rows in
  resolve_rows now (cv_id <$> rows) ;;;
  insert_coverage (fun id => mkCoverageRow id archiveID agentID EntryGap (Incarnation (r_From interval)) (Some from)
    (Some (Incarnation (r_From interval))) (Some until) SourceRetention PrecisionExact true now None (Some reason)).

Fixpoint record_intervals (archiveID : string) (reason : string) (now : time) (l : list (string * Range)) : storeM unit :=
  match l with
  | [] => ret tt
  | (agent, r) :: l' => recordRetentionInterval archiveID agent r reason now ;;; record_intervals archiveID reason now l'
  end.

Fixpoint delete_events (ids : list Z) : storeM unit :=
  match ids with
  | [] => ret tt
  | id :: ids' => exec (upd_events (filter (fun e => ev_id e <> id))) ;;; delete_events ids'
  end.

(** The cursor row joined to an event, and whether the event is acknowledged. *)
Definition is_acked (st : cursorState) (e : eventRow) : bool :=
  match st_ack st with
  | Some ack => (ev_inc e <? Incarnation ack) || (ev_inc e =? Incarnation ack) && (ev_seq e <=? Seq ack)
  | None => false
  end.

Definition retention_covers (archive : string) (e : eventRow) (r : coverageRow) : Prop :=
  is_active archive (ev_agent e) r /\ cv_type r = EntryGap /\ cv_source r = SourceRetention /\
  cv_fromInc r = ev_inc e /\ cv_untilInc r = Some (ev_inc e) /\
  default 0 (cv_fromSeq r) <= ev_seq e < default 0 (cv_untilSeq r).
#[export] Instance retention_covers_dec archive e r : Decision (retention_covers archive e r).
Proof. unfold retention_covers. apply _. Defined.

Definition is_retention_covered (archive : string) (d : database) (e : eventRow) : bool :=
  existsb (fun r => bool_decide (retention_covers archive e r)) (db_coverage d).

(** The candidates of a tier: acknowledged, already covered, or neither. *)
Definition in_tier (archive : string) (acked alreadyCovered : bool) (d : database) (e : eventRow) : bool :=
  match db_cursors d !! (archive, ev_agent e) with
  | None => false
  | Some st =>
    if alreadyCovered then is_retention_covered archive d e
    else eqb (is_acked st e) acked && negb (is_retention_covered archive d e)
  end.

(** The prefix of the candidates that are expired or needed for the target. *)
Fixpoint select_loop {A} (at_ : A -> time) (bytes : A -> Z) (plan : RetentionPlan) (pressure : bool) (remaining : Z)
  (l : list A) : list A :=
  match l with
  | [] => []
  | c :: l' =>
    let expired := negb (is_zero (rp_DeleteBefore plan)) && (at_ c <? rp_DeleteBefore plan) in
    if negb expired && (negb pressure || (remaining <=? rp_PressureTargetBytes plan)) then []
    else c :: select_loop at_ bytes plan pressure (remaining - bytes c) l'
  end.

Section Retention.
Context (julianday : time -> Z) (text_length : string -> Z) (time_length : time -> Z).

Definition event_bytes (overhead : Z) (e : eventRow) : Z :=
  text_length (ev_agent e) + text_length (ev_kind e) + time_length (ev_at e) + text_length (default "" (ev_actor e))
  + text_length (default "" (ev_project e)) + text_length (default "" (ev_operation e)) + text_length (ev_metadata e)
  + overhead.

Definition claim_bytes (r : claimRow) : Z :=
  text_length (claim_type_text (cm_type r)) + text_length (cm_reason r) + text_length (cm_precision r)
  + time_length (cm_reported r) + 48.

Definition entry_text (t : EntryType) : string :=
  match t with EntryGap => "GAP" | EntryLowerBound => "LOWER_BOUND" | EntryRegression => "REGRESSION" end.
Definition source_text (s : Source) : string :=
  match s with
  | SourceCoverageStart => "SERVER_COVERAGE_START" | SourceAgentGap => "AGENT_GAP"
  | SourceRetention => "SERVER_RETENTION" | SourceRegression => "SERVER_CURSOR_REGRESSION"
  end.

Definition coverage_bytes (r : coverageRow) : Z :=
  text_length (cv_archive r) + text_length (cv_agent r) + text_length (entry_text (cv_type r))
  + text_length (source_text (cv_source r)) + text_length (cv_precision r) + time_length (cv_established r)
  + match cv_resolved r with Some t => time_length t | None => text_length "" end
  + text_length (default "" (cv_reason r)) + 64.

(** [EXISTS (SELECT 1 FROM agent_cursors ...)] *)
Definition has_cursor (archive agent : string) (d : database) : Prop := is_Some (db_cursors d !! (archive, agent)).
#[export] Instance has_cursor_dec archive agent d : Decision (has_cursor archive agent d).
Proof. unfold has_cursor. apply _. Defined.

Definition archive_events (archive : string) (d : database) : list eventRow :=
  filter (fun e => has_cursor archive (ev_agent e) d) (db_events d).

Definition oldest_less (a b : eventRow) : bool :=
  if julianday (ev_at a) =? julianday (ev_at b) then ev_id a <? ev_id b else julianday (ev_at a) <? julianday (ev_at b).

Definition ArchiveUsage (archiveID : string) (now : time) : storeM ArchiveUsage_ :=
  if* (str_empty archiveID || is_zero now)%bool then StoreInvariant end;
  let* events := query (fun d => (lenZ (archive_events archiveID d), sum_by (event_bytes 32) (archive_events archiveID d))) in
  let* oldest := query (fun d => head (sort_by oldest_less (archive_events archiveID d))) in
  let* oldestAt := (match oldest with Some e => parseTime (ev_at e) | None => ret time_zero end) in
  let* claims := query (fun d => sum_by claim_bytes (filter (fun r => has_cursor archiveID (cm_agent r) d) (db_claims d))) in
  let* coverage := query (fun d => sum_by coverage_bytes (filter (fun r => cv_archive r = archiveID) (db_coverage d))) in
  ret (mkUsage events.1 (events.2 + (claims + coverage)) oldestAt now).

Definition candidate_less (a b : eventRow) : bool :=
  if negb (julianday (ev_at a) =? julianday (ev_at b)) then julianday (ev_at a) <? julianday (ev_at b)
  else if negb (bool_decide (ev_agent a = ev_agent b)) then str_less (ev_agent a) (ev_agent b)
  else compareCursor (mkCursor (ev_inc a) (ev_seq a)) (mkCursor (ev_inc b) (ev_seq b)) <? 0.

(** [? = 1 OR julianday(x) < julianday(?)]; the empty text has no julianday. *)
Definition in_window (cutoff : time) (pressure : bool) (t : time) : bool :=
  pressure || (negb (is_zero cutoff) && (julianday t <? julianday cutoff)).

Definition candidate_of (e : eventRow) : retentionEvent :=
  mkRetentionEvent (ev_id e) (ev_agent e) (mkCursor (ev_inc e) (ev_seq e)) (ev_at e) (event_bytes 32 e).

Fixpoint scan_candidates (rows : list eventRow) : storeM (list retentionEvent) :=
  match rows with
  | [] => ret []
  | e :: rows' => parseTime (ev_at e) ;;; let* rest := scan_candidates rows' in ret (candidate_of e :: rest)
  end.

Definition loadRetentionEvents (archiveID : string) (cutoff : time) (pressure acked alreadyCovered : bool)
  : storeM (list retentionEvent) :=
  if (is_zero cutoff && negb pressure)%bool then ret []
  else
    let* rows := query (fun d => take retentionBatchRows (sort_by candidate_less
      (filter (fun e => (in_tier archiveID acked alreadyCovered d e && in_window cutoff pressure (ev_at e))%bool = true)
         (db_events d)))) in
    scan_candidates rows.

(** The body of one deletion transaction: how many events it deleted and how
    many intervals it recorded. *)
Definition retention_batch (archiveID : string) (plan : RetentionPlan) (now : time) (acked alreadyCovered : bool)
  (reason : string) (pressure : bool) (usage : Z) : storeM (Z * Z) :=
  requireCurrentArchive archiveID ;;;
  let* candidates := loadRetentionEvents archiveID (rp_DeleteBefore plan) pressure acked alreadyCovered in
  let selected := select_loop re_at re_bytes plan pressure usage candidates in
  match selected with
  | [] => ret (0, 0)
  | _ =>
    let intervals := retentionIntervals selected in
    (if str_empty reason then ret tt else record_intervals archiveID reason now intervals) ;;;
    delete_events (re_id <$> selected) ;;;
    ret (lenZ selected, if str_empty reason then 0 else lenZ intervals)
  end.

Definition count_deleted (acked alreadyCovered : bool) (selected intervals : Z) (r : RetentionResult) : RetentionResult :=
  mkRetention (rr_Level r) (rr_UsageBefore r) (rr_UsageAfter r)
    (rr_DeletedACKedRecords r + (if negb alreadyCovered && acked then selected else 0))
    (rr_DeletedUnACKedRecords r + (if negb alreadyCovered && negb acked then selected else 0))
    (rr_DeletedCoveredRecords r + (if alreadyCovered then selected else 0))
    (rr_CompactedCoverageHistoryRows r) (rr_CreatedCoverageIntervals r + intervals) (rr_LowWatermarkReached r).

Fixpoint deleteEventTier (fuel : nat) (archiveID : string) (plan : RetentionPlan) (now : time) (acked alreadyCovered : bool)
  (reason : string) (result : RetentionResult) : storeM RetentionResult :=
  match fuel with
  | O => fail StoreFuel
  | S fuel' =>
    let* usage := ArchiveUsage archiveID now in
    let pressure := rp_Aggressive plan && (us_ApproximateBytes usage >? rp_PressureTargetBytes plan) in
    if (negb pressure && is_zero (rp_DeleteBefore plan))%bool then ret result
    else
      let* counts := withImmediate
        (retention_batch archiveID plan now acked alreadyCovered reason pressure (us_ApproximateBytes usage)) in
      let '(selected, intervals) := counts in
      if selected =? 0 then ret result
      else deleteEventTier fuel' archiveID plan now acked alreadyCovered reason
             (count_deleted acked alreadyCovered selected intervals result)
  end.

(** *** [compactCoverageHistory] *)

Inductive HistoryTable := HistoryClaims | HistoryCoverage.

Record retentionHistory := mkHistory { rh_id : Z; rh_at : time; rh_bytes : Z }.

(** [MAX(coverage_revision)] over an Agent's claims. *)
Definition newest_revision (agent : string) (d : database) : Z :=
  default 0 (maximum (cm_revision <$> filter (fun r => cm_agent r = agent) (db_claims d))).

Definition claim_compactable (archive : string) (d : database) (r : claimRow) : bool :=
  match db_cursors d !! (archive, cm_agent r) with
  | Some st =>
    match st_ack st with
    | Some ack =>
      (cm_revision r <? newest_revision (cm_agent r) d)
      && match cm_type r with
         | ClaimGap => (cm_inc r <? Incarnation ack)
             || (cm_inc r =? Incarnation ack) && (default 0 (cm_until r) <=? Seq ack + 1)
         | ClaimUnknown => cm_inc r <? Incarnation ack
         end
    | None => false
    end
  | None => false
  end.

Definition coverage_compactable (archive : string) (d : database) (r : coverageRow) : bool :=
  match db_cursors d !! (cv_archive r, cv_agent r), cv_resolved r, cv_untilInc r with
  | Some st, Some _, Some untilInc =>
    match st_ack st with
    | Some ack =>
      bool_decide (cv_archive r = archive) && bool_decide (cv_type r = EntryGap)
      && ((untilInc <? Incarnation ack) || (untilInc =? Incarnation ack) && (default 0 (cv_untilSeq r) <=? Seq ack + 1))
    | None => false
    end
  | _, _, _ => false
  end.

Definition history_less (a b : retentionHistory) : bool :=
  if julianday (rh_at a) =? julianday (rh_at b) then rh_id a <? rh_id b else julianday (rh_at a) <? julianday (rh_at b).

Definition history_rows (table : HistoryTable) (archive : string) (cutoff : time) (pressure : bool) (d : database)
  : list retentionHistory :=
  take retentionBatchRows (sort_by history_less (filter (fun h => in_window cutoff pressure (rh_at h) = true)
    (match table with
     | HistoryClaims => (fun r => mkHistory (cm_id r) (cm_reported r) (claim_bytes r)) <$>
         filter (fun r => claim_compactable archive d r = true) (db_claims d)
     | HistoryCoverage => (fun r => mkHistory (cv_id r) (default time_zero (cv_resolved r)) (coverage_bytes r)) <$>
         filter (fun r => coverage_compactable archive d r = true) (db_coverage d)
     end))).

Fixpoint scan_history (rows : list retentionHistory) : storeM (list retentionHistory) :=
  match rows with
  | [] => ret []
  | h :: rows' => parseTime (rh_at h) ;;; let* rest := scan_history rows' in ret (h :: rest)
  end.

Definition loadCoverageHistory (table : HistoryTable) (archiveID : string) (cutoff : time) (pressure : bool)
  : storeM (list retentionHistory) :=
  let* rows := query (history_rows table archiveID cutoff pressure) in scan_history rows.

Fixpoint delete_history (table : HistoryTable) (ids : list Z) : storeM unit :=
  match ids with
  | [] => ret tt
  | id :: ids' =>
    exec (match table with
          | HistoryClaims => upd_claims (filter (fun r => cm_id r <> id))
          | HistoryCoverage => upd_coverage (filter (fun r => cv_id r <> id))
          end) ;;;
    delete_history table ids'
  end.

Definition compact_batch (table : HistoryTable) (archiveID : string) (plan : RetentionPlan) (pressure : bool) (usage : Z)
  : storeM Z :=
  requireCurrentArchive archiveID ;;;
  let* candidates := loadCoverageHistory table archiveID (rp_DeleteBefore plan) pressure in
  let selected := select_loop rh_at rh_bytes plan pressure usage candidates in
  delete_history table (rh_id <$> selected) ;;;
  ret (lenZ selected).

Definition count_compacted (n : Z) (r : RetentionResult) : RetentionResult :=
  mkRetention (rr_Level r) (rr_UsageBefore r) (rr_UsageAfter r) (rr_DeletedACKedRecords r) (rr_DeletedUnACKedRecords r)
    (rr_DeletedCoveredRecords r) (rr_CompactedCoverageHistoryRows r + n) (rr_CreatedCoverageIntervals r)
    (rr_LowWatermarkReached r).

Fixpoint compact_table (fuel : nat) (table : HistoryTable) (archiveID : string) (plan : RetentionPlan) (now : time)
  (result : RetentionResult) : storeM RetentionResult :=
  match fuel with
  | O => fail StoreFuel
  | S fuel' =>
    let* usage := ArchiveUsage archiveID now in
    let pressure := rp_Aggressive plan && (us_ApproximateBytes usage >? rp_PressureTargetBytes plan) in
    if (negb pressure && is_zero (rp_DeleteBefore plan))%bool then ret result
    else
      let* deleted := withImmediate (compact_batch table archiveID plan pressure (us_ApproximateBytes usage)) in
      if deleted =? 0 then ret result
      else compact_table fuel' table archiveID plan now (count_compacted deleted result)
  end.

Definition compactCoverageHistory (archiveID : string) (plan : RetentionPlan) (now : time) (result : RetentionResult)
  : storeM RetentionResult :=
  let* n1 := gets (fun s => length (db_claims (s_db s))) in
  let* result1 := compact_table (S n1) HistoryClaims archiveID plan now result in
  let* n2 := gets (fun s => length (db_coverage (s_db s))) in
  compact_table (S n2) HistoryCoverage archiveID plan now result1.

(** A tier of [deleteEventTier] with as many rounds as there are events. *)
Definition run_tier (archiveID : string) (plan : RetentionPlan) (now : time) (acked alreadyCovered : bool) (reason : string)
  (result : RetentionResult) : storeM RetentionResult :=
  let* n := gets (fun s => length (db_events (s_db s))) in
  deleteEventTier (S n) archiveID plan now acked alreadyCovered reason result.

Definition plan_invalid (plan : RetentionPlan) (now : time) (before : ArchiveUsage_) : bool :=
  (rp_PressureTargetBytes plan <? 0)
  || (negb (is_zero (rp_DeleteBefore plan)) && (rp_DeleteBefore plan >? now))
  || (negb (rp_Aggressive plan) && negb (rp_PressureTargetBytes plan =? 0))
  || (rp_Aggressive plan && (negb (rp_Warning plan) || (rp_PressureTargetBytes plan >=? us_ApproximateBytes before))).

Definition EnforceRetention (archiveID : string) (policy : option (ArchiveUsage_ -> res storeErr RetentionPlan)) (now : time)
  : storeM RetentionResult :=
  if* (str_empty archiveID || is_zero now)%bool then StoreInvariant end;
  requireCurrentArchive archiveID ;;;
  let* before := ArchiveUsage archiveID now in
  let* plan := of_res (default (Plan NewDefaultRetentionPolicy) policy before) in
  if* plan_invalid plan now before then StoreInvariant end;
  let level := if rp_Aggressive plan then RetentionAggressive
               else if rp_Warning plan then RetentionWarning else RetentionNormal in
  let result := mkRetention level before (mkUsage 0 0 time_zero time_zero) 0 0 0 0 0 false in
  let* result := run_tier archiveID plan now true false retentionAppliedReason result in
  let* result := compactCoverageHistory archiveID plan now result in
  let* result := run_tier archiveID plan now false true "" result in
  let* result := run_tier archiveID plan now false false quotaBeforeACKReason result in
  let* after := ArchiveUsage archiveID now in
  ret (mkRetention (rr_Level result) (rr_UsageBefore result) after (rr_DeletedACKedRecords result)
    (rr_DeletedUnACKedRecords result) (rr_DeletedCoveredRecords result) (rr_CompactedCoverageHistoryRows result)
    (rr_CreatedCoverageIntervals result)
    (negb (rp_Aggressive plan) || (us_ApproximateBytes after <=? rp_PressureTargetBytes plan))).

(** ** [observation.go] *)

Definition ackBlockedThreshold : Z := 5 * 60 * 1000000000.

Record Observation := mkObservation {
  ob_ACKWatermarkStalled : Z;
  ob_ACKCursor : option Cursor;
  ob_CoverageRevisionSeen : Z;
  ob_CoverageRevisionCurrent : Z;
  ob_StaleCoverageTotal : Z;
  ob_ACKRetryTotal : Z;
  ob_ACKBlockedWhileIngesting : bool;
  ob_ACKBlockedWhileIngestingFor : Z;
  ob_IngestedUnackedRecords : Z;
  ob_IngestedUnackedBytes : Z;
  ob_EffectiveGapRecords : Z;
  ob_AgentGapClaimsTotal : Z;
}.

Definition unacked_events (agent : string) (st : cursorState) (d : database) : list eventRow :=
  filter (fun e => ev_agent e = agent /\ is_acked st e = false) (db_events d).

Definition gap_records (archive agent : string) (d : database) : Z :=
  sum_by (fun r => match cv_fromSeq r, cv_untilSeq r with Some f, Some u => u - f | _, _ => 0 end)
    (filter (is_hole archive agent) (db_coverage d)).

Definition Observe (archiveID agentID : string) (agentOnline : bool) (coverageRevisionCurrent : Z) (now : time)
  : storeM Observation :=
  if* (str_empty archiveID || str_empty agentID)%bool then StoreInvariant end;
  let* read := withImmediate (
    let* state := loadCursorState archiveID agentID in
    let* unacked := query (unacked_events agentID state) in
    let* gaps := query (gap_records archiveID agentID) in
    let* claims := query (fun d => lenZ (filter (fun r => cm_agent r = agentID /\ cm_type r = ClaimGap) (db_claims d))) in
    ret (state, unacked, gaps, claims)) in
  let '(state, unacked, gaps, claims) := read in
  let* runtime := gets (runtimeFor archiveID agentID) in
  let activelyStalled := agentOnline && rt_ingestedSinceACK runtime && (lenZ unacked >? 0) in
  let stalledSince := if rt_firstUnackedIngestAt runtime >? st_updated state
                      then rt_firstUnackedIngestAt runtime else st_updated state in
  let stalled := if activelyStalled && (now >? stalledSince) then now - stalledSince else 0 in
  let blocked := activelyStalled && (stalled >=? ackBlockedThreshold) in
  let blockedSince := if blocked then
                        (if is_zero (rt_blockedSince runtime) then stalledSince + ackBlockedThreshold else rt_blockedSince runtime)
                      else time_zero in
  upd_runtime archiveID agentID (fun r => mkRuntime (rt_lastIngestAt r) (rt_firstUnackedIngestAt r) (rt_ingestedSinceACK r)
    (rt_staleCoverageTotal r) (rt_ackRetryTotal r) blockedSince) ;;;
  ret (mkObservation stalled (st_ack state) (st_revision state) coverageRevisionCurrent (rt_staleCoverageTotal runtime)
    (rt_ackRetryTotal runtime) blocked (if blocked && (now >? blockedSince) then now - blockedSince else 0)
    (lenZ unacked) (sum_by (event_bytes 16) unacked) gaps claims).
End Retention.
