(* ===== verification/AuditStoreSpec.v ===== *)
(** * The audit store: what an acknowledgement rests on

    The queries behind an acknowledgement, characterised by the set of cursors
    they speak about: a cursor is [explained] when the store holds its event or
    an effective ledger entry covers it, and the ranges the check reports are
    exactly the unexplained cursors up to the proposed one. *)

From S2P Require Import Prelude Cursor AuditStore.

(** ** Programs on the store *)

Lemma bind_ok {S E A B} (m : M S E A) (f : A -> M S E B) s b s' :
  bind m f s = (Ok b, s') -> exists a s1, m s = (Ok a, s1) /\ f a s1 = (Ok b, s').
Proof. unfold bind. destruct (m s) as [[a|e] s1]; [|done]. eauto. Qed.

(** Run the first step of a successful program. *)
Ltac step_ok H a s' E := apply bind_ok in H as (a & s' & E & H).

(** The database and the counters are the same. *)
Definition same_store (s s' : auditStore) : Prop := s_db s' = s_db s /\ s_runtime s' = s_runtime s.

#[export] Instance same_store_pre : PreOrder same_store.
Proof. split; [by intros s | intros s1 s2 s3 [? ?] [? ?]; split; congruence]. Qed.

(** The errors of a statement or of its result, none of which is a refusal. *)
Definition plain_err (e : storeErr) : Prop := e = StoreInvariant \/ e = StoreSQL \/ e = StoreTimestamp.

(** [reads m P]: [m] only reads, and what it returns is related to the database by [P]. *)
Definition reads {A} (m : storeM A) (P : database -> A -> Prop) : Prop :=
  forall s, same_store s (m s).2 /\ match (m s).1 with Ok v => P (s_db s) v | Err e => plain_err e end.

Section Reads.
Context {A B : Type}.
Implicit Types (m : storeM A) (P : database -> A -> Prop).

Lemma reads_ok m P s v s' : reads m P -> m s = (Ok v, s') -> same_store s s' /\ P (s_db s) v.
Proof. intros H E. specialize (H s). rewrite E in H. done. Qed.

Lemma reads_err m P s e s' : reads m P -> m s = (Err e, s') -> same_store s s' /\ plain_err e.
Proof. intros H E. specialize (H s). rewrite E in H. done. Qed.

Lemma reads_ret (v : A) : reads (ret v) (fun _ x => x = v).
Proof. by intros s. Qed.

Lemma reads_fail e : plain_err e -> reads (A := A) (fail e) (fun _ _ => False).
Proof. by intros He s. Qed.

Lemma reads_bind m (f : A -> storeM B) P (Q : A -> database -> B -> Prop) :
  reads m P -> (forall a, reads (f a) (Q a)) -> reads (bind m f) (fun d b => exists a, P d a /\ Q a d b).
Proof.
  intros Hm Hf s. unfold bind. specialize (Hm s). destruct (m s) as [[a|e] s1]; [|done]. destruct Hm as [[E1 E2] HP].
  specialize (Hf a s1). destruct (f a s1) as [r s2]; simpl in *. destruct Hf as [[E3 E4] HQ]. split; [split; congruence|].
  destruct r; [|done]. exists a. by rewrite E1 in HQ.
Qed.

Lemma reads_weaken m P (Q : database -> A -> Prop) : reads m P -> (forall d v, P d v -> Q d v) -> reads m Q.
Proof. intros H HPQ s. destruct (H s) as [? Hr]. split; [done|]. destruct (m s).1; auto. Qed.

Lemma reads_if (b : bool) m1 m2 P : reads m1 P -> reads m2 P -> reads (if b then m1 else m2) P.
Proof. by destruct b. Qed.
End Reads.

Lemma reads_sql : reads sql (fun _ _ => True).
Proof.
  intros s. unfold sql. destruct (s_outcomes s) as [|b bs]; [done|]. destruct b; simpl; repeat split; auto.
  right. by left.
Qed.

Lemma reads_query {A} (f : database -> A) : reads (query f) (fun d v => v = f d).
Proof.
  intros s. unfold query, bind. pose proof (reads_sql s) as [H1 H2]. destruct (sql s) as [[u|e] s1]; simpl in *; [|done].
  split; [done|]. by destruct H1 as [-> _].
Qed.

Lemma reads_bind_args args : reads (bind_args args) (fun _ _ => Forall (fun v => v <= max_i64) args).
Proof.
  intros s. unfold bind_args. destruct (forallb _ _) eqn:E; simpl; (split; [done|]); [|by right; left].
  rewrite forallb_forall in E. apply Forall_forall. intros v Hv. apply Z.leb_le, E. by apply list_elem_of_In.
Qed.

Lemma reads_parseTime t : reads (parseTime t) (fun _ _ => True).
Proof. intros s. unfold parseTime. destruct (rfc3339_time t); simpl; (split; [done|]); auto. by right; right. Qed.

Create HintDb reads.
#[export] Hint Resolve reads_ret reads_sql reads_query reads_bind_args reads_parseTime : reads.

Lemma exec_ok f s v s' : exec f s = (Ok v, s') -> s_db s' = f (s_db s) /\ s_runtime s' = s_runtime s.
Proof.
  unfold exec. intros H. step_ok H u s1 E. apply (reads_ok _ _ _ _ _ reads_sql) in E as [[E1 E2] _].
  injection H as _ <-. unfold upd_db. simpl. by rewrite E1.
Qed.

(** A transaction that returns has run its body; one that fails changed nothing. *)
Lemma withImmediate_ok {A} (body : storeM A) s v s' :
  withImmediate body s = (Ok v, s') ->
  exists s1 s2, same_store s s1 /\ body s1 = (Ok v, s2) /\ same_store s2 s'.
Proof.
  unfold withImmediate. intros H. step_ok H u1 s1 E1. step_ok H u2 s2 E2. step_ok H d s3 E3. injection E3 as <- <-.
  step_ok H r s4 E4. unfold attempt in E4. destruct (body s2) as [r' s4'] eqn:Eb. injection E4 as -> ->.
  apply (reads_ok _ _ _ _ _ reads_sql) in E1 as [E1 _]. apply (reads_ok _ _ _ _ _ reads_sql) in E2 as [E2 _].
  destruct r as [x|e]; [|done]. step_ok H c s5 E5. unfold attempt in E5. destruct (sql s4) as [rc s5'] eqn:Ec.
  injection E5 as -> ->. destruct c as [u|e]; [|done]. injection H as -> <-.
  apply (reads_ok _ _ _ _ _ reads_sql) in Ec as [Ec _]. exists s2, s4. split_and!; auto. by etransitivity.
Qed.

Lemma withImmediate_err {A} (body : storeM A) s e s' :
  withImmediate body s = (Err e, s') -> s_db s' = s_db s.
Proof.
  unfold withImmediate, bind. pose proof (reads_sql s) as [[H1 _] _]. destruct (sql s) as [[u|e1] s1]; simpl in *.
  2: by intros [= _ <-].
  pose proof (reads_sql s1) as [[H2 _] _]. destruct (sql s1) as [[u2|e2] s2]; simpl in *.
  2: { intros [= _ <-]. congruence. }
  unfold attempt, rollback, bind, gets, modify, fail, ret. destruct (body s2) as [[v|eb] s3]; simpl.
  - destruct (sql s3) as [[u3|e3] s4]; simpl; [done|]. intros [= _ <-]. simpl. congruence.
  - intros [= _ <-]. simpl. congruence.
Qed.

Lemma loadCursorState_reads A g :
  reads (loadCursorState A g) (fun d st => db_cursors d !! (A, g) = Some st).
Proof.
  unfold loadCursorState. eapply reads_weaken.
  - eapply reads_bind; [apply reads_query|]. intros row.
    instantiate (1 := fun row d st => row = Some st). destruct row as [st|].
    + eapply reads_weaken; [eapply reads_bind; [apply reads_parseTime | intros; apply reads_ret]|]. by intros d v (? & _ & ->).
    + eapply reads_weaken; [apply reads_fail; by left | done].
  - intros d st (row & -> & ?). done.
Qed.

Lemma lower_bound_reads A g : reads (coverageStart A g) (fun d c => lower_cursor <$> lower_bound A g d = Some c).
Proof.
  unfold coverageStart. eapply reads_weaken.
  - eapply reads_bind; [apply reads_query|]. intros row.
    instantiate (1 := fun row d c => lower_cursor <$> row = Some c). destruct row as [r|].
    + eapply reads_weaken; [apply reads_ret|]. by intros d v ->.
    + eapply reads_weaken; [apply reads_fail; by left | done].
  - intros d c (row & -> & ?). done.
Qed.

(** ** Sweeping intervals *)

Definition in_range (r : Range) (c : Cursor) : Prop :=
  Incarnation (r_From r) = Incarnation c /\ Incarnation (r_Until r) = Incarnation c /\
  Seq (r_From r) <= Seq c < Seq (r_Until r).
Definition in_ranges (rs : list Range) (c : Cursor) : Prop := exists r, r ∈ rs /\ in_range r c.

Lemma in_ranges_nil c : in_ranges [] c <-> False.
Proof. split; [intros (r & Hr & _); by apply not_elem_of_nil in Hr | intros []]. Qed.
Lemma in_ranges_app l1 l2 c : in_ranges (l1 ++ l2) c <-> in_ranges l1 c \/ in_ranges l2 c.
Proof. unfold in_ranges. setoid_rewrite elem_of_app. firstorder. Qed.
Lemma in_ranges_one r c : in_ranges [r] c <-> in_range r c.
Proof. unfold in_ranges. setoid_rewrite list_elem_of_singleton. split; [by intros (? & -> & ?) | eauto]. Qed.

Lemma in_ranges_guard (b : bool) r c : in_ranges (if b then [r] else []) c <-> b = true /\ in_range r c.
Proof. destruct b; [rewrite in_ranges_one | rewrite in_ranges_nil]; split; [done | by intros [_ ?] | intros [] | by intros [? _]]. Qed.

Definition starts_sorted : list (Z * Z) -> Prop := StronglySorted (fun a b => a.1 <= b.1).

Lemma sweep_spec inc next until ivs c :
  starts_sorted ivs -> Forall (fun i => i.1 <= i.2 <= until) ivs ->
  in_ranges (sweep inc next until ivs) c <->
  Incarnation c = inc /\ next <= Seq c < until /\ forall i, i ∈ ivs -> ~ (i.1 <= Seq c < i.2).
Proof.
  intros Hs. revert next. induction Hs as [|[f u] ivs Hs IH Hf]; intros next Hok; simpl.
  - rewrite in_ranges_guard. unfold in_range. simpl. rewrite Z.ltb_lt. split.
    + intros (? & <- & _ & ?). split_and!; auto; try lia. intros i Hi. by apply not_elem_of_nil in Hi.
    + intros (<- & ? & _). split; [lia | done].
  - apply Forall_cons in Hok as [Hfu Hok]. simpl in Hfu. rewrite in_ranges_app, in_ranges_guard, IH by done.
    unfold in_range. simpl. rewrite Z.gtb_lt. rewrite Forall_forall in Hf. split.
    + intros [(? & <- & _ & ?)|(<- & Hn & Hi)].
      * split_and!; auto; try lia. intros i [->|Hi]%elem_of_cons; simpl; [lia|]. specialize (Hf i Hi). simpl in Hf. lia.
      * split_and!; auto; try (case_if; bool_to_prop; lia).
        intros i [->|Hin]%elem_of_cons; [|by apply Hi]. simpl. case_if; bool_to_prop; lia.
    + intros (<- & Hn & Hi). pose proof (Hi (f, u) ltac:(by left)) as Hfst. simpl in Hfst.
      destruct (decide (Seq c < f)).
      * left. split_and!; auto; lia.
      * right. split_and!; auto; [case_if; bool_to_prop; lia | lia |]. intros i Hin. apply Hi. by right.
Qed.

(** A missing range ends where the window ends or an interval begins. *)
Lemma sweep_maximal inc next until ivs r :
  starts_sorted ivs -> Forall (fun i => i.1 < i.2) ivs -> r ∈ sweep inc next until ivs ->
  r_Until r = mkCursor inc until \/ exists i, i ∈ ivs /\ r_Until r = mkCursor inc i.1.
Proof.
  intros Hs Hok. revert next. induction Hs as [|[f u] ivs Hs IH Hf]; intros next; simpl.
  - destruct (next <? until); [|by intros ?%not_elem_of_nil]. intros ->%list_elem_of_singleton. by left.
  - apply Forall_cons in Hok as [_ Hok]. rewrite elem_of_app. intros [Hr|Hr].
    + destruct (f >? next); [|by apply not_elem_of_nil in Hr]. apply list_elem_of_singleton in Hr as ->. right.
      exists (f, u). split; [by left | done].
    + apply IH in Hr as [?|(i & Hi & ?)]; auto. right. exists i. split; [by right | done].
Qed.

Lemma sweep_inc inc next until ivs r :
  r ∈ sweep inc next until ivs -> Incarnation (r_From r) = inc /\ Incarnation (r_Until r) = inc.
Proof.
  revert next. induction ivs as [|[f u] ivs IH]; intros next; simpl.
  - destruct (next <? until); [|by intros ?%not_elem_of_nil]. by intros ->%list_elem_of_singleton.
  - rewrite elem_of_app. intros [Hr|Hr]; [|by apply IH in Hr].
    destruct (f >? next); [|by apply not_elem_of_nil in Hr]. by apply list_elem_of_singleton in Hr as ->.
Qed.

Lemma sweep_bounds inc next until ivs r :
  Forall (fun i => i.1 <= i.2 <= until) ivs -> r ∈ sweep inc next until ivs ->
  next <= Seq (r_From r) /\ Seq (r_From r) < Seq (r_Until r) /\ Seq (r_Until r) <= until.
Proof.
  intros H. revert next. induction H as [|[f u] ivs Hi _ IH]; intros next; simpl in *.
  - destruct (next <? until) eqn:E; [|by intros ?%not_elem_of_nil]. bool_to_prop. intros ->%list_elem_of_singleton. simpl. lia.
  - rewrite elem_of_app. intros [Hr|Hr].
    + destruct (f >? next) eqn:E; [|by apply not_elem_of_nil in Hr]. bool_to_prop.
      apply list_elem_of_singleton in Hr as ->. simpl. lia.
    + apply IH in Hr. case_if; bool_to_prop; lia.
Qed.

(** It begins where the window begins or an interval ends. *)
Lemma sweep_left inc next until ivs r :
  r ∈ sweep inc next until ivs -> Seq (r_From r) = next \/ exists i, i ∈ ivs /\ i.2 = Seq (r_From r).
Proof.
  revert next. induction ivs as [|[f u] ivs IH]; intros next; simpl.
  - destruct (next <? until); [|by intros ?%not_elem_of_nil]. intros ->%list_elem_of_singleton. by left.
  - rewrite elem_of_app. intros [Hr|Hr].
    + destruct (f >? next); [|by apply not_elem_of_nil in Hr]. apply list_elem_of_singleton in Hr as ->. by left.
    + apply IH in Hr as [->|(i & Hi & ?)]; [|right; exists i; split; [by right | done]].
      destruct (u >? next); [|by left]. right. exists (f, u). split; [by left | done].
Qed.

(** ** Explained cursors *)

Definition stored (g : string) (d : database) (c : Cursor) : Prop := exists e, e ∈ db_events d /\ is_event g c e.

(** The cursors a ledger entry speaks about. *)
Definition covers (r : coverageRow) (c : Cursor) : Prop :=
  cv_fromInc r = Incarnation c /\
  match cv_fromSeq r, cv_untilSeq r with
  | Some f, Some u => f <= Seq c < u
  | None, _ => cv_type r = EntryGap
  | Some _, None => False
  end.

Definition covered (A g : string) (d : database) (c : Cursor) : Prop :=
  exists r, r ∈ db_coverage d /\ is_hole A g r /\ covers r c.

Definition explained (A g : string) (d : database) (c : Cursor) : Prop := stored g d c \/ covered A g d c.

(** An effective entry is a gap over a whole incarnation or a nonempty range of
    one incarnation. *)
Definition row_ok (r : coverageRow) : Prop :=
  cv_effective r = true ->
  (cv_type r = EntryGap /\ cv_fromSeq r = None /\ cv_untilInc r = None /\ cv_untilSeq r = None) \/
  (cv_type r <> EntryLowerBound /\ cv_untilInc r = Some (cv_fromInc r) /\
   exists f u, cv_fromSeq r = Some f /\ cv_untilSeq r = Some u /\ 0 <= f < u /\ u <= max_i64).
Definition rows_ok (d : database) : Prop := Forall row_ok (db_coverage d).
Definition events_ok (d : database) : Prop :=
  Forall (fun e => 1 <= ev_inc e <= max_i64 /\ 1 <= ev_seq e <= max_i64) (db_events d).

Definition not_less_trans {A} (less : A -> A -> bool) : Prop :=
  Transitive (fun x y => less y x = false).

Lemma sort_by_strong {A} (less : A -> A -> bool) l :
  (forall x y, less x y = true -> less y x = false) -> not_less_trans less ->
  StronglySorted (fun x y => less y x = false) (sort_by less l).
Proof. intros Ha Ht. apply Sorted_StronglySorted; [exact Ht | by apply sort_by_sorted]. Qed.

Lemma StronglySorted_weaken {A} (R R' : A -> A -> Prop) l :
  (forall x y, R x y -> R' x y) -> StronglySorted R l -> StronglySorted R' l.
Proof. intros H. induction 1; constructor; auto. eapply Forall_impl; eauto. Qed.

Lemma StronglySorted_fmap {A B} (f : A -> B) (R : A -> A -> Prop) (R' : B -> B -> Prop) l :
  (forall x y, R x y -> R' (f x) (f y)) -> StronglySorted R l -> StronglySorted R' (f <$> l).
Proof. intros H. induction 1; simpl; constructor; auto. apply Forall_fmap. eapply Forall_impl; eauto. Qed.

Lemma intervals_sorted from until l : from < until -> starts_sorted (clamp from until <$> sort_by interval_less l).
Proof.
  intros Hlt. eapply StronglySorted_fmap; [|apply sort_by_strong].
  - intros [a b] [a' b']. unfold interval_less, clamp. simpl. repeat case_if; bool_to_prop; lia.
  - intros [a b] [a' b']. unfold interval_less. simpl. repeat case_if; bool_to_prop; lia.
  - intros [a b] [a' b'] [a'' b'']. unfold interval_less. simpl. repeat case_if; bool_to_prop; lia.
Qed.

Lemma elem_of_stored_seqs g inc from until d seq :
  seq ∈ stored_seqs g inc from until d <-> stored g d (mkCursor inc seq) /\ from <= seq < until.
Proof.
  unfold stored_seqs, stored, is_event. rewrite list_elem_of_fmap. setoid_rewrite list_elem_of_filter. simpl. split.
  - intros (e & -> & (? & ? & ?) & ?). split; [exists e; auto | lia].
  - intros [(e & ? & ? & ? & ?) ?]. exists e. subst. auto.
Qed.

Lemma elem_of_row_intervals A g inc d i :
  i ∈ omap (row_interval A g inc) (db_coverage d) <->
  exists r, r ∈ db_coverage d /\ is_hole A g r /\ cv_fromInc r = inc /\ cv_fromSeq r = Some i.1 /\ cv_untilSeq r = Some i.2.
Proof.
  rewrite list_elem_of_omap. unfold row_interval. split.
  - intros (r & Hr & E). case_decide as Hd; [|done]. destruct Hd. destruct (cv_fromSeq r) eqn:Ef, (cv_untilSeq r) eqn:Eu; try done.
    injection E as <-. exists r. by split_and!.
  - intros (r & Hr & Hh & Hi & Hf & Hu). exists r. split; [done|]. rewrite decide_True by done. rewrite Hf, Hu.
    by destruct i.
Qed.

Lemma covered_intervals_ok A g inc from until d :
  rows_ok d -> from < until ->
  Forall (fun i => i.1 < i.2 /\ i.2 <= until) (clamp from until <$> covered_intervals A g inc from until d).
Proof.
  intros Hok Hlt. apply Forall_fmap, Forall_forall. unfold covered_intervals. intros i [Hi|Hi]%elem_of_app.
  - apply list_elem_of_fmap in Hi as (seq & -> & Hi). apply elem_of_stored_seqs in Hi as [_ ?].
    unfold compose, clamp. simpl. repeat case_if; bool_to_prop; lia.
  - apply list_elem_of_filter in Hi as [? Hi]. apply elem_of_row_intervals in Hi as (r & Hr & Hh & _ & Hf & Hu).
    unfold rows_ok in Hok. rewrite Forall_forall in Hok. destruct Hh as [(_ & _ & He & _) _].
    destruct (Hok r Hr He) as [(_ & ? & _)|(_ & _ & f & u & Hf' & Hu' & ? & ?)]; [congruence|].
    rewrite Hf in Hf'. rewrite Hu in Hu'. injection Hf' as <-. injection Hu' as <-.
    unfold compose, clamp. simpl. repeat case_if; bool_to_prop; lia.
Qed.

Lemma covered_intervals_spec A g inc from until d seq :
  from <= seq < until ->
  (exists i, i ∈ clamp from until <$> covered_intervals A g inc from until d /\ i.1 <= seq < i.2) <->
  stored g d (mkCursor inc seq) \/
  exists r, r ∈ db_coverage d /\ is_hole A g r /\ cv_fromInc r = inc /\
    exists f u, cv_fromSeq r = Some f /\ cv_untilSeq r = Some u /\ f <= seq < u.
Proof.
  intros Hseq. setoid_rewrite list_elem_of_fmap. unfold covered_intervals. setoid_rewrite elem_of_app.
  setoid_rewrite list_elem_of_fmap. setoid_rewrite elem_of_stored_seqs. setoid_rewrite list_elem_of_filter.
  setoid_rewrite elem_of_row_intervals. unfold clamp. split.
  - intros (i & (j & -> & [(q & -> & Hs & ?)|(? & r & Hr & Hh & Hi & Hf & Hu)]) & Hin); simpl in Hin.
    + left. replace seq with q; [done|]. repeat case_if; bool_to_prop; lia.
    + right. exists r. split_and!; auto. exists j.1, j.2. split_and!; auto; repeat case_if; bool_to_prop; lia.
  - intros [Hs|(r & Hr & Hh & Hi & f & u & Hf & Hu & ?)].
    + eexists. split; [eexists; split; [reflexivity|]; left; eexists; split; [reflexivity|]; split; [exact Hs | lia]|].
      simpl. repeat case_if; bool_to_prop; lia.
    + eexists. split; [exists (f, u); split; [reflexivity|]; right; split; [simpl; lia|]; exists r; auto|].
      simpl. repeat case_if; bool_to_prop; lia.
Qed.

(** [missingACKCoverage] reports exactly the unexplained cursors of its window. *)
Definition missing_exact (A g : string) (inc from until : Z) (d : database) (rs : list Range) : Prop :=
  (forall c, in_ranges rs c <-> Incarnation c = inc /\ from <= Seq c < until /\ ~ explained A g d c) /\
  (forall r, r ∈ rs -> Incarnation (r_From r) = inc /\ Incarnation (r_Until r) = inc /\
     from <= Seq (r_From r) < Seq (r_Until r) /\
     (Seq (r_From r) = from \/ explained A g d (mkCursor inc (Seq (r_From r) - 1))) /\
     (r_Until r = mkCursor inc until \/ explained A g d (r_Until r))).

Lemma missing_sweep A g inc from until d :
  rows_ok d -> from < until -> (forall r, r ∈ db_coverage d -> ~ is_unknown_gap A g inc r) ->
  missing_exact A g inc from until d
    (sweep inc from until (clamp from until <$> sort_by interval_less (covered_intervals A g inc from until d))).
Proof.
  intros Hok Hlt Hunk.
  assert (forall seq, from <= seq < until ->
    (exists i, i ∈ clamp from until <$> sort_by interval_less (covered_intervals A g inc from until d) /\ i.1 <= seq < i.2)
    <-> explained A g d (mkCursor inc seq)) as Hex.
  { intros seq Hseq.
    assert (forall i, i ∈ clamp from until <$> sort_by interval_less (covered_intervals A g inc from until d) <->
      i ∈ clamp from until <$> covered_intervals A g inc from until d) as Hp
      by (intros i; by rewrite (sort_by_perm interval_less)).
    setoid_rewrite Hp. rewrite covered_intervals_spec by done. unfold explained, covered, covers.
    split; (intros [?|(r & Hr & Hh & H)]; [by left | right; exists r; split; [done|]; split; [done|]]).
    - destruct H as (-> & f & u & -> & -> & ?). done.
    - destruct H as [Hi H]. simpl in *. split; [done|].
      destruct (cv_fromSeq r) eqn:Ef, (cv_untilSeq r) eqn:Eu; try done; [eauto 10|..];
        (exfalso; apply (Hunk r Hr); destruct Hh; by split_and!). }
  pose proof (covered_intervals_ok A g inc from until d Hok Hlt) as Hivs.
  rewrite <- (sort_by_perm interval_less (covered_intervals _ _ _ _ _ _)) in Hivs.
  split.
  - intros c. rewrite sweep_spec.
    2: by apply intervals_sorted.
    2: eapply Forall_impl; [exact Hivs|]; intros i; simpl; lia.
    split; intros (<- & Hseq & H); split_and!; auto; try lia.
    + intros Hc. destruct (Hex (Seq c) Hseq) as [_ Hx]. destruct Hx as (i & Hi & ?); [by destruct c|]. by apply (H i).
    + intros i Hi Hin. apply H. destruct (Hex (Seq c) Hseq) as [Hx _]. destruct c. apply Hx. eauto.
  - intros r Hr. destruct (sweep_inc _ _ _ _ _ Hr) as [-> ->]. split; [done|]. split; [done|]. split.
    { apply sweep_bounds in Hr; [lia|]. eapply Forall_impl; [exact Hivs|]. simpl. lia. }
    split.
    { destruct (sweep_left _ _ _ _ _ Hr) as [?|(i & Hi & E)]; [by left|]. right. rewrite <- E.
      pose proof (proj1 (Forall_forall _ _) Hivs i Hi) as Hb. simpl in Hb.
      assert (from <= i.1) as Hfi by (apply list_elem_of_fmap in Hi as (j & -> & _); unfold clamp; simpl; case_if; bool_to_prop; lia).
      apply Hex; [lia|]. exists i. split; [done | lia]. }
    apply sweep_maximal in Hr as [?|(i & Hi & E)]; [by left|..].
    + rewrite Forall_forall in Hivs. specialize (Hivs i Hi). right. rewrite E.
      assert (from <= i.1) as Hfi. { apply list_elem_of_fmap in Hi as (j & -> & _). unfold clamp. simpl. case_if; bool_to_prop; lia. }
      apply Hex; [lia|]. exists i. split; [done | lia].
    + by apply intervals_sorted.
    + eapply Forall_impl; [exact Hivs|]. simpl. lia.
Qed.

Lemma missingACKCoverage_reads A g inc from until :
  reads (missingACKCoverage A g inc from until)
    (fun d rs => rows_ok d -> from < until -> missing_exact A g inc from until d rs).
Proof.
  unfold missingACKCoverage. eapply reads_weaken.
  - eapply reads_bind; [apply reads_query|]. intros unknown.
    instantiate (1 := fun unknown d rs =>
      match unknown with
      | [] => rs = sweep inc from until (clamp from until <$> sort_by interval_less (covered_intervals A g inc from until d))
      | _ => rs = []
      end).
    destruct unknown as [|r rs].
    + eapply reads_weaken; [eapply reads_bind; [apply reads_bind_args | intros; eapply reads_bind; [apply reads_query|]]|].
      * intros ivs. apply reads_ret.
      * by intros d v (_ & _ & ivs & -> & ->).
    + eapply reads_weaken; [apply reads_ret|]. by intros d v ->.
  - intros d rs (unknown & -> & H) Hok Hlt. destruct (filter _ _) as [|r rows] eqn:E.
    + subst rs. apply missing_sweep; auto. intros r Hr Hu. assert (r ∈ filter (is_unknown_gap A g inc) (db_coverage d)) as Hin
        by by apply list_elem_of_filter. rewrite E in Hin. by apply not_elem_of_nil in Hin.
    + subst rs. assert (r ∈ filter (is_unknown_gap A g inc) (db_coverage d)) as Hin by (rewrite E; by left).
      apply list_elem_of_filter in Hin as [(Hact & Ht & Hi & Hf) Hr]. split; [|by intros r0 Hr0; apply not_elem_of_nil in Hr0].
      intros c. rewrite in_ranges_nil. split; [done|]. intros (<- & _ & Hne). apply Hne. right. exists r. split; [done|].
      split; [split; [done | by rewrite Ht] |]. split; [done|]. by rewrite Hf.
Qed.

(** ** The end of an incarnation *)

Definition ack_end (A g : string) (d : database) (inc : Z) (proposed next : Cursor) : option Z :=
  if inc =? Incarnation proposed then Some (u64 (Seq proposed + 1))
  else if inc >=? Incarnation next then None
  else (fun m => u64 (m + 1)) <$> maximum (known_ends A g inc d).

Lemma ackRangeEnd_reads A g inc proposed next :
  reads (ackRangeEnd A g inc proposed next) (fun d v => v = ack_end A g d inc proposed next).
Proof.
  unfold ackRangeEnd, ack_end. destruct (inc =? Incarnation proposed); [apply reads_ret|].
  destruct (inc >=? Incarnation next); [apply reads_ret|]. eapply reads_weaken.
  - eapply reads_bind; [apply reads_query | intros; apply reads_ret].
  - by intros d v (ends & -> & ->).
Qed.

Lemma maximum_spec l m : maximum l = Some m -> m ∈ l /\ forall x, x ∈ l -> x <= m.
Proof.
  destruct l as [|y l]; simpl; [done|]. intros [= <-]. induction l as [|z l IH]; simpl.
  - split; [by left|]. by intros x ->%list_elem_of_singleton.
  - destruct IH as [Hin Hle]. split.
    + apply Z.max_case; [by right; left|]. apply elem_of_cons in Hin as [->|?]; [by left | by right; right].
    + intros x [->|[->|Hx]%elem_of_cons]%elem_of_cons; [| lia |].
      * specialize (Hle y ltac:(by left)). lia.
      * specialize (Hle x ltac:(by right)). lia.
Qed.

Lemma maximum_none l : maximum l = None <-> l = [].
Proof. by destruct l. Qed.

(** A cursor that the store knows its incarnation to have reached. *)
Definition reached (A g : string) (d : database) (c : Cursor) : Prop :=
  exists k, k ∈ known_ends A g (Incarnation c) d /\ Seq c <= k.

Lemma known_ends_ok A g d inc k : rows_ok d -> events_ok d -> k ∈ known_ends A g inc d -> 0 <= k <= max_i64.
Proof.
  intros Hr He. unfold known_ends. rewrite elem_of_app, list_elem_of_fmap, list_elem_of_omap. intros [Hk|Hk].
  - destruct Hk as (e & -> & Hin). apply list_elem_of_filter in Hin as [_ Hin]. unfold events_ok in He.
    rewrite Forall_forall in He. specialize (He e Hin). simpl in He. lia.
  - destruct Hk as (r & Hin & E). case_decide as Hd; [|done]. destruct Hd as [(_ & _ & Heff & _) _].
    unfold rows_ok in Hr. rewrite Forall_forall in Hr.
    destruct (Hr r Hin Heff) as [(_ & _ & _ & Hu)|(_ & _ & f & u & _ & Hu & ?)]; rewrite Hu in E; [done|].
    injection E as <-. lia.
Qed.

Definition valid_proposed (c : Cursor) : Prop := 1 <= Seq c <= max_i64.

Lemma ack_end_spec A g d inc proposed next seq :
  rows_ok d -> events_ok d -> valid_proposed proposed -> Incarnation proposed <= Incarnation next ->
  inc <= Incarnation proposed ->
  (exists e, ack_end A g d inc proposed next = Some e /\ seq < e) <->
  (inc = Incarnation proposed /\ seq <= Seq proposed) \/ (inc < Incarnation proposed /\ reached A g d (mkCursor inc seq)).
Proof.
  intros Hr He Hp Hn Hi. unfold ack_end, reached, valid_proposed, max_i64 in *. simpl. split.
  - intros (e & E & Hlt). destruct (inc =? Incarnation proposed) eqn:Ei; bool_to_prop.
    + injection E as <-. rewrite u64_id in Hlt by (unfold u64_ok, max_u64; lia). left. lia.
    + right. split; [lia|]. destruct (inc >=? Incarnation next); [done|].
      destruct (maximum _) as [m|] eqn:Em; [|done]. simpl in E. injection E as <-.
      apply maximum_spec in Em as [Hm _]. exists m. split; [done|]. apply known_ends_ok in Hm; auto.
      unfold max_i64 in Hm. rewrite u64_id in Hlt by (unfold u64_ok, max_u64; lia). lia.
  - intros [[-> Hle]|[Hlt (k & Hk & Hle)]].
    + rewrite Z.eqb_refl. eexists. split; [done|]. rewrite u64_id by (unfold u64_ok, max_u64; lia). lia.
    + destruct (inc =? Incarnation proposed) eqn:Ei; bool_to_prop; [lia|].
      destruct (inc >=? Incarnation next) eqn:En; bool_to_prop; [lia|].
      destruct (maximum _) as [m|] eqn:Em.
      2: { apply maximum_none in Em. rewrite Em in Hk. by apply not_elem_of_nil in Hk. }
      eexists. split; [done|]. apply maximum_spec in Em as [Hm Hmax]. specialize (Hmax k Hk).
      apply known_ends_ok in Hm; auto. unfold max_i64 in Hm. rewrite u64_id by (unfold u64_ok, max_u64; lia). lia.
Qed.

Lemma reached_known A g d c from until :
  reached A g d c -> from <= Incarnation c <= until -> Incarnation c ∈ known_incarnations A g from until d.
Proof.
  intros (k & Hk & _) Hb. unfold known_ends in Hk. unfold known_incarnations.
  rewrite elem_of_app, list_elem_of_fmap, list_elem_of_omap in Hk. rewrite elem_of_app, !list_elem_of_fmap.
  destruct Hk as [(e & _ & Hin)|(r & Hin & E)].
  - left. apply list_elem_of_filter in Hin as [[Hg Hi] Hin]. exists e. split; [done|]. apply list_elem_of_filter.
    split; [split; [done | lia] | done].
  - right. case_decide as Hd; [|done]. destruct Hd as [Ha Hi]. exists r. split; [done|]. apply list_elem_of_filter.
    split; [split; [done | lia] | done].
Qed.

(** ** The unexplained cursors *)

Definition seq_from (start : Cursor) (inc : Z) : Z := if inc =? Incarnation start then Seq start else 1.

(** The cursors between the start and the end known for their incarnation. *)
Definition ack_window (A g : string) (d : database) (start proposed next : Cursor) (c : Cursor) : Prop :=
  Incarnation start <= Incarnation c <= Incarnation proposed /\ seq_from start (Incarnation c) <= Seq c /\
  exists e, ack_end A g d (Incarnation c) proposed next = Some e /\ Seq c < e.

(** The ranges are the unexplained cursors of the window over [incs], each
    range maximal. *)
Definition ranges_exact (A g : string) (d : database) (start proposed next : Cursor) (incs : list Z) (rs : list Range) : Prop :=
  (forall c, in_ranges rs c <->
     Incarnation c ∈ incs /\ ack_window A g d start proposed next c /\ ~ explained A g d c) /\
  (forall r, r ∈ rs -> Incarnation (r_From r) = Incarnation (r_Until r) /\
     seq_from start (Incarnation (r_Until r)) <= Seq (r_From r) < Seq (r_Until r) /\
     (Seq (r_From r) = seq_from start (Incarnation (r_Until r)) \/
      explained A g d (mkCursor (Incarnation (r_Until r)) (Seq (r_From r) - 1))) /\
     (ack_end A g d (Incarnation (r_Until r)) proposed next = Some (Seq (r_Until r)) \/ explained A g d (r_Until r))).

Lemma ranges_exact_skip A g d start proposed next inc incs rs :
  ranges_exact A g d start proposed next incs rs ->
  (forall c, Incarnation c = inc -> ~ ack_window A g d start proposed next c) ->
  ranges_exact A g d start proposed next (inc :: incs) rs.
Proof.
  intros [H1 H2] Hno. split; [|done]. intros c. rewrite H1, elem_of_cons. split; [tauto|].
  intros ([Hi|?] & Hw & ?); [by destruct (Hno c) | done].
Qed.

Lemma ranges_exact_cons A g d start proposed next inc until incs missing rs :
  Incarnation start <= inc <= Incarnation proposed -> ack_end A g d inc proposed next = Some until ->
  missing_exact A g inc (seq_from start inc) until d missing -> ranges_exact A g d start proposed next incs rs ->
  ranges_exact A g d start proposed next (inc :: incs) (missing ++ rs).
Proof.
  intros Hi He [M1 M2] [H1 H2]. split.
  - intros c. rewrite in_ranges_app, M1, H1, elem_of_cons. unfold ack_window. split.
    + intros [(<- & ? & ?)|?]; [|tauto]. split; [by left|]. split; [|done]. split; [done|]. split; [lia|]. exists until. split; [done | lia].
    + intros (Hin & (? & ? & e & Ee & ?) & ?). destruct (decide (Incarnation c = inc)) as [<-|Hne].
      * left. rewrite He in Ee. injection Ee as <-. split; [done|]. split; [lia | done].
      * right. destruct Hin as [?|?]; [done|]. split; [done|]. split; [|done]. split; [lia|]. eauto.
  - intros r [Hr|Hr]%elem_of_app; [|by apply H2]. destruct (M2 r Hr) as (E1 & E2 & Eb & El & E3). rewrite E1, E2. split; [done|].
    split; [done|]. split; [done|]. destruct E3 as [->|?]; [left; by rewrite He | by right].
Qed.

Lemma unexplained_loop_reads A g start proposed next incs :
  reads (unexplained_loop A g start proposed next incs)
    (fun d rs => rows_ok d -> ranges_exact A g d start proposed next incs rs).
Proof.
  induction incs as [|inc incs IH]; cbn [unexplained_loop].
  { eapply reads_weaken; [apply reads_ret|]. intros d v -> _. split; [|by intros r Hr; apply not_elem_of_nil in Hr].
    intros c. rewrite in_ranges_nil. split; [done|]. intros [Hn _]; by apply not_elem_of_nil in Hn. }
  destruct ((inc <? Incarnation start) || (inc >? Incarnation proposed)) eqn:Eb.
  { eapply reads_weaken; [exact IH|]. intros d v Hv Hok. apply ranges_exact_skip; auto.
    intros c <- (? & _). apply orb_true_iff in Eb as [?|?]; bool_to_prop; lia. }
  apply orb_false_iff in Eb as [? ?]. bool_to_prop. cbv zeta. fold (seq_from start inc).
  eapply reads_weaken.
  - eapply reads_bind; [apply ackRangeEnd_reads|]. intros e.
    instantiate (1 := fun e d rs => rows_ok d -> e = ack_end A g d inc proposed next ->
      ranges_exact A g d start proposed next (inc :: incs) rs).
    destruct e as [until|].
    + destruct (until <=? seq_from start inc) eqn:Eu; bool_to_prop.
      * eapply reads_weaken; [exact IH|]. intros d v Hv Hok Ee. apply ranges_exact_skip; auto.
        intros c <- (_ & ? & e & Ee' & ?). rewrite <- Ee in Ee'. injection Ee' as <-. lia.
      * eapply reads_weaken; [eapply reads_bind; [apply missingACKCoverage_reads|]; intros; eapply reads_bind; [exact IH|]|].
        -- intros. apply reads_ret.
        -- intros d v (missing & Hm & rs & Hrs & ->) Hok Ee. apply (ranges_exact_cons _ _ _ _ _ _ _ until); auto; lia.
    + eapply reads_weaken; [exact IH|]. intros d v Hv Hok Ee. apply ranges_exact_skip; auto.
      intros c <- (_ & _ & e & Ee' & _). congruence.
  - intros d rs (e & -> & H') Hok. by apply H'.
Qed.

(** What the check of an acknowledgement finds unexplained. *)
Definition unexplained_exact (A g : string) (d : database) (ack : option Cursor) (proposed next : Cursor) (rs : list Range)
  : Prop :=
  exists lower, lower_cursor <$> lower_bound A g d = Some lower /\
  let start := ack_from lower ack in
  (cursor_lt proposed start /\ rs = [mkRange proposed (mkCursor (Incarnation proposed) (u64 (Seq proposed + 1)))]) \/
  (cursor_le start proposed /\
   exists incs, Incarnation start ∈ incs /\ Incarnation proposed ∈ incs /\
     (forall c, reached A g d c -> Incarnation start <= Incarnation c <= Incarnation proposed -> Incarnation c ∈ incs) /\
     ranges_exact A g d start proposed next incs rs).

Lemma unexplainedACKRanges_reads A g ack proposed next :
  reads (unexplainedACKRanges A g ack proposed next) (fun d rs => rows_ok d -> unexplained_exact A g d ack proposed next rs).
Proof.
  unfold unexplainedACKRanges. eapply reads_weaken.
  - eapply reads_bind; [apply lower_bound_reads|]. intros lower.
    instantiate (1 := fun lower d rs => rows_ok d -> lower_cursor <$> lower_bound A g d = Some lower ->
      unexplained_exact A g d ack proposed next rs).
    cbv zeta. destruct (compareCursor proposed (ack_from lower ack) <? 0) eqn:Ec; bool_to_prop; cursor_cases.
    + eapply reads_weaken; [apply reads_ret|]. intros d v -> _ Hl. exists lower. split; [done|]. by left.
    + eapply reads_weaken; [eapply reads_bind; [apply reads_query | intros; apply unexplained_loop_reads]|].
      intros d rs (incs & -> & H) Hok Hl. exists lower. split; [done|]. cbv zeta. right. split; [done|].
      eexists. split_and!; [..|by apply H].
      * rewrite (sort_by_perm Z.ltb), elem_of_remove_dups. by left.
      * rewrite (sort_by_perm Z.ltb), elem_of_remove_dups. by right; left.
      * intros c Hc Hb. rewrite (sort_by_perm Z.ltb), elem_of_remove_dups. right. right. by apply reached_known.
  - intros d rs (lower & Hl & H) Hok. by apply H.
Qed.

(** The cursors an acknowledgement of [proposed] answers for: from the start,
    through [proposed], as far as an earlier incarnation is known to reach. *)
Definition answered (A g : string) (d : database) (start proposed c : Cursor) : Prop :=
  cursor_le start c /\ 1 <= Seq c /\ cursor_le c proposed /\ (Incarnation c = Incarnation proposed \/ reached A g d c).

Lemma ack_window_answered A g d start proposed next c :
  rows_ok d -> events_ok d -> valid_proposed proposed -> cursor_le proposed next -> 1 <= Seq start ->
  ack_window A g d start proposed next c <-> answered A g d start proposed c.
Proof.
  intros Hr He Hp Hn Hs. unfold ack_window, answered, seq_from.
  assert (Incarnation proposed <= Incarnation next) as Hn' by (unfold cursor_le in Hn; lia). destruct c as [i q]. simpl. split.
  - intros (Hi & Hf & Hend). apply ack_end_spec in Hend; auto; [|lia]. unfold cursor_le. simpl.
    destruct (i =? Incarnation start) eqn:Ei; bool_to_prop; destruct Hend as [[-> ?]|[? ?]];
      (split_and!; [try lia | try lia | try lia | auto]).
  - intros (Hle & Hq & Hle' & Hx). unfold cursor_le in Hle, Hle'. simpl in *. split_and!; [lia | lia | |].
    + destruct (i =? Incarnation start) eqn:Ei; bool_to_prop; lia.
    + apply ack_end_spec; auto; [lia|]. destruct Hx as [->|Hx]; [left; lia|].
      destruct (decide (i = Incarnation proposed)) as [->|]; [left; lia | right; split; [lia | done]].
Qed.

(** ** The acknowledgement check *)

Record db_ok (d : database) : Prop := {
  dok_rows : rows_ok d;
  dok_events : events_ok d;
  dok_lower : forall r, r ∈ db_coverage d -> cv_type r = EntryLowerBound -> 1 <= Seq (lower_cursor r);
  dok_acks : forall k st ack, db_cursors d !! k = Some st -> st_ack st = Some ack -> 0 <= Seq ack <= max_i64;
}.

Lemma lower_bound_elem A g d r : lower_bound A g d = Some r -> r ∈ db_coverage d /\ is_lower_bound A g r.
Proof.
  unfold lower_bound. intros E. assert (r ∈ filter (is_lower_bound A g) (db_coverage d)) as Hin.
  { destruct (filter _ _); [done|]. injection E as ->. by left. }
  by apply list_elem_of_filter in Hin as [? ?].
Qed.

Lemma start_positive A g d lower st :
  db_ok d -> lower_cursor <$> lower_bound A g d = Some lower -> db_cursors d !! (A, g) = Some st ->
  1 <= Seq (ack_from lower (st_ack st)).
Proof.
  intros Hd Hl Hst. destruct (lower_bound A g d) as [r|] eqn:E; [|done]. injection Hl as <-.
  apply lower_bound_elem in E as [Hr (_ & _ & Ht & _)]. pose proof (dok_lower _ Hd r Hr Ht).
  unfold ack_from. destruct (st_ack st) as [ack|] eqn:Ea; [|done]. pose proof (dok_acks _ Hd _ _ _ Hst Ea) as Ha.
  case_if; [|done]. simpl. unfold max_i64 in Ha. rewrite u64_id by (unfold u64_ok, max_u64; lia). lia.
Qed.

(** What the reported ranges say: exactly the unexplained cursors the
    acknowledgement would answer for. *)
Lemma unexplained_answered A g d st proposed next rs :
  db_ok d -> db_cursors d !! (A, g) = Some st -> valid_proposed proposed -> cursor_lt proposed next ->
  unexplained_exact A g d (st_ack st) proposed next rs ->
  exists lower, lower_cursor <$> lower_bound A g d = Some lower /\
    let start := ack_from lower (st_ack st) in
    (cursor_le start proposed -> forall c, in_ranges rs c <-> answered A g d start proposed c /\ ~ explained A g d c) /\
    (cursor_lt proposed start -> rs <> []).
Proof.
  intros Hd Hst Hp Hn (lower & Hl & H). exists lower. split; [done|]. cbv zeta in *. split.
  - intros Hle. destruct H as [[Hlt _]|(_ & incs & Hs & Hpi & Hreach & [Hex _])]; [cursor_solve|].
    intros c. rewrite Hex, (ack_window_answered A g d _ proposed next); try apply Hd; auto.
    2: by apply cursor_lt_le.
    2: by eapply start_positive.
    split; [tauto|]. intros [Ha He]. split_and!; auto. destruct Ha as (Hle1 & _ & Hle2 & [->|Hr]); [done|].
    apply Hreach; [done|]. unfold cursor_le in Hle1, Hle2. lia.
  - intros Hlt. destruct H as [[_ ->]|(Hle & _)]; [done | cursor_solve].
Qed.

Lemma check_explained_run A g st proposed s r s' :
  rows_ok (s_db s) -> check_explained A g st proposed s = (r, s') ->
  same_store s s' /\
  match r with
  | Ok _ => exists next, st_next st = Some next /\ cursor_lt proposed next /\
      unexplained_exact A g (s_db s) (st_ack st) proposed next []
  | Err (ACKIneligible p n rs) =>
      p = proposed /\
      ((rs = [] /\ forall next, st_next st = Some next -> cursor_le next proposed) \/
       (rs <> [] /\ st_next st = Some n /\ cursor_lt proposed n /\
        unexplained_exact A g (s_db s) (st_ack st) proposed n rs))
  | Err e => plain_err e
  end.
Proof.
  intros Hok. unfold check_explained. destruct (st_next st) as [next|].
  2: { intros [= <- <-]. split; [done|]. split; [done|]. left. split; [done|]. by intros next [=]. }
  destruct (compareCursor proposed next >=? 0) eqn:Ec; bool_to_prop; cursor_cases.
  { intros [= <- <-]. split; [done|]. split; [done|]. left. split; [done|]. by intros n [= <-]. }
  unfold bind. destruct (unexplainedACKRanges A g (st_ack st) proposed next s) as [[rs|e] s1] eqn:E.
  - apply (reads_ok _ _ _ _ _ (unexplainedACKRanges_reads A g (st_ack st) proposed next)) in E as [Hs Hx]. specialize (Hx Hok).
    destruct (bool_decide (rs = [])) eqn:Eb; bool_to_prop; simpl; intros [= <- <-]; (split; [done|]).
    + subst rs. exists next. split_and!; auto.
    + split; [done|]. right. split_and!; auto.
  - apply (reads_err _ _ _ _ _ (unexplainedACKRanges_reads A g (st_ack st) proposed next)) in E as [Hs He].
    intros [= <- <-]. split; [done|]. destruct He as [-> | [-> | ->]]; [by left | by right; left | by right; right].
Qed.

#[export] Instance covers_dec r c : Decision (covers r c).
Proof. unfold covers. destruct (cv_fromSeq r), (cv_untilSeq r); apply _. Defined.

#[export] Instance explained_dec A g d c : Decision (explained A g d c).
Proof.
  destruct (decide (Exists (is_event g c) (db_events d) \/
    Exists (fun r => is_hole A g r /\ covers r c) (db_coverage d))) as [H|H];
    rewrite !Exists_exists in H; [by left | by right].
Defined.

Lemma withImmediate_cause {A} (body : storeM A) s e s' :
  withImmediate body s = (Err e, s') -> e = StoreSQL \/ exists s1, same_store s s1 /\ (body s1).1 = Err e.
Proof.
  assert (forall s0 e0 s1, sql s0 = (Err e0, s1) -> e0 = StoreSQL) as Hsql.
  { unfold sql. intros s0 e0 s1. destruct (s_outcomes s0) as [|[] ?]; [done..|]. by intros [= <- _]. }
  unfold withImmediate, bind. pose proof (reads_sql s) as [H1 _]. destruct (sql s) as [[u|e1] s1] eqn:E1; simpl in *.
  2: { intros [= <- _]. left. by eapply Hsql. }
  pose proof (reads_sql s1) as [H2 _]. destruct (sql s1) as [[u2|e2] s2] eqn:E2; simpl in *.
  2: { intros [= <- _]. left. by eapply Hsql. }
  unfold attempt, rollback, bind, gets, modify, fail, ret. destruct (body s2) as [[v|eb] s3] eqn:Eb; simpl.
  - destruct (sql s3) as [[u3|e3] s4] eqn:E3; simpl; [done|]. intros [= <- _]. left. by eapply Hsql.
  - intros [= <- _]. right. exists s2. rewrite Eb. split; [by etransitivity | done].
Qed.

(** What a run of the acknowledgement transaction means. *)
Definition advance_spec (A g : string) (proposed : Cursor) (rev : Z) (now : time) (d : database) (r : res storeErr bool)
  (d' : database) : Prop :=
  match r with
  | Ok advanced => exists st, db_cursors d !! (A, g) = Some st /\ rev = st_revision st /\
      if advanced then
        (forall a, st_ack st = Some a -> cursor_lt a proposed) /\
        d' = upd_cursors (alter (with_ack proposed rev now) (A, g)) d /\
        exists next, st_next st = Some next /\ cursor_lt proposed next /\
          unexplained_exact A g d (st_ack st) proposed next []
      else st_ack st = Some proposed /\ d' = d
  | Err (ACKIneligible p n rs) => exists st, db_cursors d !! (A, g) = Some st /\ p = proposed /\
      (rs <> [] -> st_next st = Some n /\ cursor_lt proposed n /\ unexplained_exact A g d (st_ack st) proposed n rs)
  | Err _ => True
  end.

Lemma advance_spec_plain A g proposed rev now d e d' : plain_err e -> advance_spec A g proposed rev now d (Err e) d'.
Proof. by intros [-> | [-> | ->]]. Qed.

Lemma advance_ack_run A g proposed rev now s r s' :
  rows_ok (s_db s) -> advance_ack A g proposed rev now s = (r, s') -> advance_spec A g proposed rev now (s_db s) r (s_db s').
Proof.
  intros Hok. unfold advance_ack. unfold bind at 1. destruct (loadCursorState A g s) as [[st|e] s1] eqn:E.
  2: { apply (reads_err _ _ _ _ _ (loadCursorState_reads A g)) in E as [_ He]. intros [= <- <-]. by apply advance_spec_plain. }
  apply (reads_ok _ _ _ _ _ (loadCursorState_reads A g)) in E as [[Hs _] Hst].
  destruct (rev =? st_revision st) eqn:Er; simpl; [|by intros [= <- <-]]. bool_to_prop. cbv zeta.
  set (advance := bind _ _).
  assert (forall r s', advance s1 = (r, s') -> (forall a, st_ack st = Some a -> cursor_lt a proposed) ->
    advance_spec A g proposed rev now (s_db s) r (s_db s')) as Hadv.
  { intros r0 s0. unfold advance, bind at 1. destruct (check_explained A g st proposed s1) as [c s2] eqn:Ec.
    apply check_explained_run in Ec as [[Hs2 _] Hc]; [|by rewrite Hs]. rewrite Hs in Hc. destruct c as [u|e].
    - unfold bind. destruct (set_cursor A g (with_ack proposed rev now) s2) as [[u'|e] s3] eqn:Ex.
      + apply exec_ok in Ex as [Ex _]. intros [= <- <-] Hlt. exists st. split_and!; auto.
        rewrite Ex. congruence.
      + unfold set_cursor, exec, bind in Ex. pose proof (reads_sql s2) as [_ He]. destruct (sql s2) as [[?|e'] ?]; [done|].
        injection Ex as -> _. simpl in He. intros [= <- <-] _. by apply advance_spec_plain.
    - intros [= <- <-] _. destruct e; try done. destruct Hc as [-> Hc]. exists st. split_and!; auto.
      destruct Hc as [[-> _]|(_ & ? & ? & ?)]; [done | auto]. }
  destruct (st_ack st) as [ack|] eqn:Ea; [|intros H; by apply (Hadv _ _ H)].
  destruct (compareCursor proposed ack <? 0) eqn:E1; [by intros [= <- <-]|].
  destruct (compareCursor proposed ack =? 0) eqn:E2; bool_to_prop.
  - apply compareCursor_eq in E2 as ->. intros [= <- <-]. exists st. auto.
  - intros H. apply (Hadv _ _ H). intros a [= <-]. apply compareCursor_gt. lia.
Qed.

Lemma validCursor_proposed c : validCursor c = true -> valid_proposed c.
Proof. unfold validCursor, valid_proposed. intros. bool_to_prop. lia. Qed.

Lemma upd_runtime_db A g f s : s_db (upd_runtime A g f s).2 = s_db s.
Proof. done. Qed.

(** Nothing unexplained. *)
Lemma unexplained_none A g d st proposed next :
  db_ok d -> db_cursors d !! (A, g) = Some st -> valid_proposed proposed -> cursor_lt proposed next ->
  unexplained_exact A g d (st_ack st) proposed next [] ->
  exists lower, lower_cursor <$> lower_bound A g d = Some lower /\
    forall c, answered A g d (ack_from lower (st_ack st)) proposed c -> explained A g d c.
Proof.
  intros Hd Hst Hp Hlt Hx. destruct (unexplained_answered A g d st proposed next [] Hd Hst Hp Hlt Hx) as (lower & Hl & Hex & Hne).
  exists lower. split; [done|]. intros c Hc. destruct (decide (explained A g d c)) as [|Hnot]; [done|].
  cbv zeta in *. destruct Hc as (Hle1 & Hc1 & Hle2 & Hc2).
  specialize (Hex (transitivity Hle1 Hle2)). destruct (proj1 (in_ranges_nil c)). by apply Hex.
Qed.

(** A successful check. *)
Lemma ack_advanced A g proposed rev now s res s' :
  db_ok (s_db s) -> CheckAndAdvanceACK A g proposed rev now s = (Ok res, s') ->
  ak_Cursor res = proposed /\
  exists st, db_cursors (s_db s) !! (A, g) = Some st /\ rev = st_revision st /\
  if ak_Advanced res then
    (forall a, st_ack st = Some a -> cursor_lt a proposed) /\
    s_db s' = upd_cursors (alter (with_ack proposed rev now) (A, g)) (s_db s) /\
    exists lower, lower_cursor <$> lower_bound A g (s_db s) = Some lower /\
      forall c, answered A g (s_db s) (ack_from lower (st_ack st)) proposed c -> explained A g (s_db s) c
  else st_ack st = Some proposed /\ s_db s' = s_db s.
Proof.
  intros Hd. unfold CheckAndAdvanceACK. destruct (_ || _) eqn:Eg; [done|]. bool_to_prop.
  match goal with H : validCursor _ = true |- _ => apply validCursor_proposed in H as Hp end.
  unfold bind at 1, attempt. destruct (withImmediate _ s) as [[advanced|e] s1] eqn:E.
  2: { unfold bind. by destruct e. }
  apply withImmediate_ok in E as (s2 & s3 & [E2 _] & E & [E3 _]). apply advance_ack_run in E; [|rewrite E2; apply Hd].
  rewrite E2 in E. destruct E as (st & Hst & Hrev & E). intros Hrun.
  assert (res = mkACKResult advanced proposed /\ s_db s' = s_db s1) as [-> Es].
  { unfold bind in Hrun. destruct advanced; simpl in Hrun; by injection Hrun as <- <-. }
  split; [done|]. exists st. split_and!; auto. simpl. destruct advanced; rewrite Es, E3; [|done].
  destruct E as (Hlt & -> & next & Hn & Hlt' & Hx). split_and!; auto. by eapply unexplained_none.
Qed.

(** A failed one. *)
Lemma ack_refused A g proposed rev now s e s' :
  db_ok (s_db s) -> CheckAndAdvanceACK A g proposed rev now s = (Err e, s') ->
  s_db s' = s_db s /\
  match e with
  | ACKIneligible p n (r1 :: rs) =>
    exists st lower, db_cursors (s_db s) !! (A, g) = Some st /\ lower_cursor <$> lower_bound A g (s_db s) = Some lower /\
      (cursor_le (ack_from lower (st_ack st)) proposed -> forall c, in_ranges (r1 :: rs) c <->
         answered A g (s_db s) (ack_from lower (st_ack st)) proposed c /\ ~ explained A g (s_db s) c)
  | _ => True
  end.
Proof.
  intros Hd. unfold CheckAndAdvanceACK. destruct (_ || _) eqn:Eg; [by intros [= <- <-]|]. bool_to_prop.
  match goal with H : validCursor _ = true |- _ => apply validCursor_proposed in H as Hp end.
  unfold bind at 1, attempt. destruct (withImmediate _ s) as [[advanced|e1] s1] eqn:E.
  { unfold bind. by destruct advanced. }
  intros Hrun. assert (s_db s' = s_db s1 /\ e1 = e) as [Hs ->].
  { unfold bind in Hrun. destruct e1; simpl in Hrun; by injection Hrun as <- <-. }
  pose proof (withImmediate_err _ _ _ _ E) as Hs1. split; [congruence|].
  destruct e as [| | |p n [|r1 rs]| | | |]; try done.
  apply withImmediate_cause in E as [?|(s2 & [Hs2 _] & E)]; [done|].
  destruct (advance_ack A g proposed rev now s2) as [r' s3] eqn:Ea. simpl in E. subst r'.
  apply advance_ack_run in Ea; [|rewrite Hs2; apply Hd]. rewrite Hs2 in Ea.
  destruct Ea as (st & Hst & -> & Hx). destruct Hx as (Hn & Hlt & Hx); [done|].
  destruct (unexplained_answered A g (s_db s) st proposed n (r1 :: rs) Hd Hst Hp Hlt Hx) as (lower & Hl & Hex & _).
  exists st, lower. auto.
Qed.

(** [C28] An acknowledgement rests on evidence. When [CheckAndAdvanceACK]
    advances the watermark, every cursor from the end of the previous one (or
    the archive's coverage start) through the proposed cursor, as far as each
    earlier incarnation is known to reach, is a stored event or covered by an
    effective ledger entry, and only the cursor row changes; when it does not
    advance the watermark already stood there; and when it fails nothing
    changes, and the ranges a refusal reports are exactly the unexplained
    cursors it would have answered for. *)
Theorem server_ack_sound A g proposed rev now s r s' :
  db_ok (s_db s) -> CheckAndAdvanceACK A g proposed rev now s = (r, s') ->
  match r with
  | Ok res => ak_Cursor res = proposed /\
      exists st, db_cursors (s_db s) !! (A, g) = Some st /\ rev = st_revision st /\
      if ak_Advanced res then
        (forall a, st_ack st = Some a -> cursor_lt a proposed) /\
        s_db s' = upd_cursors (alter (with_ack proposed rev now) (A, g)) (s_db s) /\
        exists lower, lower_cursor <$> lower_bound A g (s_db s) = Some lower /\
          forall c, answered A g (s_db s) (ack_from lower (st_ack st)) proposed c -> explained A g (s_db s) c
      else st_ack st = Some proposed /\ s_db s' = s_db s
  | Err e => s_db s' = s_db s /\
      match e with
      | ACKIneligible p n (r1 :: rs) =>
        exists st lower, db_cursors (s_db s) !! (A, g) = Some st /\ lower_cursor <$> lower_bound A g (s_db s) = Some lower /\
          (cursor_le (ack_from lower (st_ack st)) proposed -> forall c, in_ranges (r1 :: rs) c <->
             answered A g (s_db s) (ack_from lower (st_ack st)) proposed c /\ ~ explained A g (s_db s) c)
      | _ => True
      end
  end.
Proof. intros Hd E. destruct r; [by eapply ack_advanced | by eapply ack_refused]. Qed.
