(* ===== verification/AuditStoreInv.v ===== *)
(** * The audit store: its invariant

    The invariant of the store for the archive a Server serves, and that every
    transaction - coverage start, coverage snapshot, ingest, acknowledgement,
    cursor regression, retention, compaction, with any statement failing -
    keeps it, and keeps every explained cursor explained. *)

From S2P Require Import Prelude Cursor AuditStore AuditStoreSpec.

(** ** Rowids *)

Lemma next_id_lt {A} (id : A -> Z) rows r : r ∈ rows -> id r < next_id id rows.
Proof.
  unfold next_id. induction rows as [|x rows IH]; [by intros ?%not_elem_of_nil|]. simpl.
  intros [->|Hr]%elem_of_cons; [lia|]. specialize (IH Hr). lia.
Qed.

Lemma next_id_fresh {A} (id : A -> Z) rows : NoDup (id <$> rows) -> forall r, id r = next_id id rows ->
  NoDup (id <$> (rows ++ [r])).
Proof.
  intros Hnd r Hr. rewrite fmap_app. apply NoDup_app. split; [done|]. split; [|apply NoDup_singleton].
  intros x Hx Hin. apply list_elem_of_singleton in Hin as ->. apply list_elem_of_fmap in Hx as (r' & E & Hr').
  apply (next_id_lt id) in Hr'. rewrite Hr in E. lia.
Qed.

Lemma id_inj {A} (id : A -> Z) rows r1 r2 : NoDup (id <$> rows) -> r1 ∈ rows -> r2 ∈ rows -> id r1 = id r2 -> r1 = r2.
Proof.
  intros Hnd H1 H2 E. apply list_elem_of_lookup in H1 as [i Hi]. apply list_elem_of_lookup in H2 as [j Hj].
  assert (i = j) as ->.
  { eapply NoDup_lookup; [exact Hnd | rewrite list_lookup_fmap, Hi; reflexivity|].
    rewrite list_lookup_fmap, Hj. simpl. by rewrite E. }
  congruence.
Qed.

Lemma NoDup_fmap_filter {A} (id : A -> Z) (P : A -> Prop) `{!forall x, Decision (P x)} rows :
  NoDup (id <$> rows) -> NoDup (id <$> filter P rows).
Proof.
  induction rows as [|r rows IH]; [done|]. rewrite fmap_cons. intros [Hr Hnd]%NoDup_cons. rewrite filter_cons.
  case_decide; [|by apply IH]. rewrite fmap_cons. apply NoDup_cons. split; [|by apply IH]. intros Hin. apply Hr.
  apply list_elem_of_fmap in Hin as (x & E & Hx). apply list_elem_of_filter in Hx as [_ Hx]. apply list_elem_of_fmap. eauto.
Qed.

Lemma NoDup_fmap_same {A B} (id : A -> B) (f : A -> A) rows :
  (forall r, id (f r) = id r) -> NoDup (id <$> rows) -> NoDup (id <$> (f <$> rows)).
Proof. intros H Hnd. rewrite <- list_fmap_compose. erewrite list_fmap_ext; [exact Hnd|]. intros i x _. apply H. Qed.

(** ** Claims *)

(** A claim that is in effect at a delivery cursor. *)
Definition in_effect (next : option Cursor) (inc until : Z) (precision : string) : Prop :=
  precision = PrecisionCoalesced -> exists n, next = Some n /\ cursor_le (mkCursor inc until) n.

Definition claim_covers (next : option Cursor) (r : claimRow) (c : Cursor) : Prop :=
  cm_inc r = Incarnation c /\
  match cm_type r with
  | ClaimUnknown => True
  | ClaimGap => default 0 (cm_from r) <= Seq c < default 0 (cm_until r) /\
      in_effect next (cm_inc r) (default 0 (cm_until r)) (cm_precision r)
  end.

Definition claimed (A g : string) (d : database) (c : Cursor) : Prop :=
  exists st r, db_cursors d !! (A, g) = Some st /\ r ∈ claims_of g (st_revision st) d /\ claim_covers (st_next st) r c.

Definition claim_ok (r : claimRow) : Prop :=
  match cm_type r with
  | ClaimGap => exists f u, cm_from r = Some f /\ cm_until r = Some u /\ 1 <= f < u /\ u <= max_i64
  | ClaimUnknown => True
  end.
Definition claims_ok (d : database) : Prop := Forall claim_ok (db_claims d).

(** ** What an Agent's claims leave missing *)

Lemma missing_loop_sweep inc next until seqs :
  Forall (fun q => 0 <= q <= max_i64) seqs ->
  missing_loop inc next until seqs = sweep inc next until ((fun q => (q, q + 1)) <$> seqs).
Proof.
  intros H. revert next. induction H as [|q seqs Hq _ IH]; intros next; simpl; [done|]. rewrite IH. do 2 f_equal.
  unfold max_i64 in Hq. rewrite u64_id by (unfold u64_ok, max_u64; lia). repeat case_if; bool_to_prop; lia.
Qed.

Definition gap_has (gap : GapClaim) (c : Cursor) : Prop :=
  gc_Incarnation gap = Incarnation c /\ gc_FromSeq gap <= Seq c < gc_UntilSeq gap.

Lemma missingRanges_reads g gap :
  reads (missingRanges g gap) (fun d rs => events_ok d ->
    (forall c, in_ranges rs c <-> gap_has gap c /\ ~ stored g d c) /\
    (forall r, r ∈ rs -> Incarnation (r_From r) = gc_Incarnation gap /\ Incarnation (r_Until r) = gc_Incarnation gap /\
       gc_FromSeq gap <= Seq (r_From r) /\ Seq (r_From r) < Seq (r_Until r) /\ Seq (r_Until r) <= gc_UntilSeq gap)).
Proof.
  unfold missingRanges. eapply reads_weaken; [eapply reads_bind; [apply reads_query | intros; apply reads_ret]|].
  intros d rs (seqs & -> & ->) Hok. set (inc := gc_Incarnation gap). set (from := gc_FromSeq gap). set (until := gc_UntilSeq gap).
  assert (forall q, q ∈ sort_by Z.ltb (stored_seqs g inc from until d) <-> stored g d (mkCursor inc q) /\ from <= q < until) as Hq.
  { intros q. by rewrite (sort_by_perm Z.ltb), elem_of_stored_seqs. }
  assert (Forall (fun i : Z * Z => i.1 <= i.2 <= until)
    ((fun q => (q, q + 1)) <$> sort_by Z.ltb (stored_seqs g inc from until d))) as Hivs.
  { apply Forall_fmap, Forall_forall. intros q Hin. apply Hq in Hin as [_ ?]. simpl. lia. }
  rewrite missing_loop_sweep.
  2: { apply Forall_forall. intros q Hin. apply Hq in Hin as [(e & He & _ & _ & E) _]. simpl in E. subst q.
       unfold events_ok in Hok. rewrite Forall_forall in Hok. specialize (Hok e He). simpl in Hok. lia. }
  split.
  - intros c. rewrite sweep_spec; [|clear Hivs|done].
    2: { eapply StronglySorted_fmap; [|apply sort_by_strong];
         [|intros x y; rewrite Z.ltb_lt, Z.ltb_ge; lia | intros x y z; rewrite !Z.ltb_ge; lia].
         intros x y Hxy. simpl in *. bool_to_prop. lia. }
    unfold gap_has. split.
    + intros (Hi & Hs & Hn). split; [by split|]. intros Hst. apply (Hn (Seq c, Seq c + 1)); [|simpl; lia].
      apply list_elem_of_fmap. exists (Seq c). split; [done|]. apply Hq. rewrite <- Hi. split; [by destruct c | lia].
    + intros [[Hi Hs] Hn]. split_and!; auto; try lia. intros i Hin [? ?]. apply list_elem_of_fmap in Hin as (q & -> & Hin).
      simpl in *. apply Hq in Hin as [Hst _]. apply Hn. replace c with (mkCursor inc q); [done|].
      destruct c. simpl in *. f_equal; [exact Hi | lia].
  - intros r Hr. destruct (sweep_inc _ _ _ _ _ Hr) as [-> ->]. apply sweep_bounds in Hr; [|done]. split_and!; auto; lia.
Qed.

(** ** The recomputation of the Agent's effective gaps *)

Definition dcovers (e : desiredCoverage) (c : Cursor) : Prop :=
  match dc_range e with
  | Some r => Incarnation (r_From r) = Incarnation c /\ Seq (r_From r) <= Seq c < Seq (r_Until r)
  | None => dc_unknown e = Incarnation c
  end.

Definition desired_ok (e : desiredCoverage) : Prop :=
  match dc_range e with
  | Some r => Incarnation (r_From r) = Incarnation (r_Until r) /\ 0 <= Seq (r_From r) < Seq (r_Until r) /\
      Seq (r_Until r) <= max_i64
  | None => True
  end.

Definition claim_range_ok (gap : GapClaim) : Prop := 1 <= gc_FromSeq gap < gc_UntilSeq gap /\ gc_UntilSeq gap <= max_i64.

Lemma desired_gaps_reads g next claims :
  reads (desired_gaps g next claims) (fun d l => events_ok d -> Forall claim_range_ok claims ->
    (forall c, (exists e, e ∈ l /\ dcovers e c) <-> exists gap, gap ∈ claims /\
       in_effect next (gc_Incarnation gap) (gc_UntilSeq gap) (gc_Precision gap) /\ gap_has gap c /\ ~ stored g d c) /\
    Forall desired_ok l).
Proof.
  induction claims as [|gap claims IH]; cbn [desired_gaps].
  { eapply reads_weaken; [apply reads_ret|]. intros d l -> _ _. split; [|constructor]. intros c.
    split; intros (x & Hx & _); by apply not_elem_of_nil in Hx. }
  set (skip := bool_decide (gc_Precision gap = PrecisionCoalesced) && _).
  assert (skip = false <-> in_effect next (gc_Incarnation gap) (gc_UntilSeq gap) (gc_Precision gap)) as Hskip.
  { unfold skip, in_effect. case_bool_decide; simpl; [|tauto]. destruct next as [n|]; split; [..|done|].
    - rewrite Z.ltb_ge. intros Hc _. exists n. split; [done|]. by apply compareCursor_ge, Z.le_ge.
    - intros Hx. destruct (Hx H) as (n' & [= <-] & Hle). by apply Z.ltb_ge, Z.ge_le, compareCursor_ge.
    - intros Hx. by destruct (Hx H) as (n & ? & _). }
  destruct skip.
  { eapply reads_weaken; [exact IH|]. intros d l Hl He Hok. apply Forall_cons in Hok as [_ Hok]. destruct (Hl He Hok) as [H1 H2].
    split; [|done]. intros c. rewrite H1. setoid_rewrite elem_of_cons. split.
    - intros (x & Hx & ?). eauto.
    - intros (x & [->|Hx] & Heff & Hx'); [|eauto]. by apply Hskip in Heff. }
  eapply reads_weaken.
  { eapply reads_bind; [apply missingRanges_reads|]. intros missing. eapply reads_bind; [exact IH|]. intros; apply reads_ret. }
  intros d l (missing & Hm & rest & Hrest & ->) He Hok. apply Forall_cons in Hok as [Hg Hok].
  destruct (Hm He) as [M1 M2]. destruct (Hrest He Hok) as [R1 R2]. split.
  - intros c. setoid_rewrite elem_of_app. setoid_rewrite elem_of_cons. split.
    + intros (e & [Hin|Hin] & Hc).
      * apply list_elem_of_fmap in Hin as (r & -> & Hr). exists gap. split; [by left|]. split; [by apply Hskip|]. apply M1.
        exists r. split; [done|]. destruct (M2 r Hr) as (E1 & E2 & _). unfold dcovers in Hc. simpl in Hc.
        unfold in_range. destruct Hc as [Hi ?]. split_and!; auto; lia.
      * destruct (proj1 (R1 c)) as (x & Hx & ?); [eauto|]. exists x. split; [by right | done].
    + intros (x & [->|Hx] & Heff & Hg' & Hs).
      * destruct (proj2 (M1 c) (conj Hg' Hs)) as (r & Hr & Hin). exists (mkDesired 0 (Some r) (gc_Precision gap)).
        split; [left; apply list_elem_of_fmap; eauto|]. unfold dcovers, in_range in *. simpl. tauto.
      * destruct (proj2 (R1 c)) as (e & He' & ?); [eauto|]. exists e. split; [by right | done].
  - apply Forall_app. split; [|done]. apply Forall_fmap, Forall_forall. intros r Hr. destruct (M2 r Hr) as (E1 & E2 & ? & ? & ?).
    destruct Hg as [? ?]. unfold compose, desired_ok. simpl. split; [congruence | lia].
Qed.

Lemma covers_desired r c :
  row_ok r -> cv_effective r = true -> cv_type r = EntryGap -> covers r c <-> dcovers (desired_of_row r) c.
Proof.
  intros Hr He Ht. unfold covers, dcovers, desired_of_row.
  destruct (Hr He) as [(_ & -> & _)|(_ & -> & f & u & -> & -> & _)]; simpl; [tauto | done].
Qed.

Lemma desired_row_gap A g now e id : is_agent_gap A g (desired_row A g now e id).
Proof. unfold desired_row. by destruct (dc_range e). Qed.

Lemma desired_row_ok A g now e id : desired_ok e -> row_ok (desired_row A g now e id).
Proof.
  unfold desired_ok, desired_row, row_ok. destruct (dc_range e) as [r|]; simpl; intros H _; [right | by left].
  destruct H as (-> & ? & ?). split; [done|]. split; [done|]. eexists _, _. split_and!; eauto; lia.
Qed.

Lemma desired_row_covers A g now e id c : covers (desired_row A g now e id) c <-> dcovers e c.
Proof. unfold covers, dcovers, desired_row. destruct (dc_range e); simpl; [done | tauto]. Qed.

Lemma desired_row_id A g now e id : cv_id (desired_row A g now e id) = id.
Proof. unfold desired_row. by destruct (dc_range e). Qed.

Lemma insert_desired_ok A g now l s s' :
  insert_desired A g now l s = (Ok tt, s') ->
  exists news, s_db s' = upd_coverage (fun rows => rows ++ news) (s_db s) /\
    Forall2 (fun e r => exists id, r = desired_row A g now e id) l news /\
    (NoDup (cv_id <$> db_coverage (s_db s)) -> NoDup (cv_id <$> db_coverage (s_db s'))).
Proof.
  revert s. induction l as [|e l IH]; intros s; simpl.
  - intros [= <-]. exists []. split; [|split; [constructor | done]]. destruct (s_db s). unfold upd_coverage. simpl.
    by rewrite app_nil_r.
  - intros H. step_ok H u s1 E. apply exec_ok in E as [E _]. apply IH in H as (news & Hd & Hf & Hnd).
    eexists (_ :: news). split; [|split].
    + rewrite Hd, E. unfold upd_coverage. simpl. rewrite <- app_assoc. reflexivity.
    + constructor; [by eexists | done].
    + intros H. apply Hnd. rewrite E. simpl. apply next_id_fresh; [done|]. apply desired_row_id.
Qed.

(** The cursors the desired entries cover, in terms of the claim rows. *)
Definition wanted (A g : string) (d : database) (c : Cursor) : Prop :=
  exists st row, db_cursors d !! (A, g) = Some st /\ row ∈ claims_of g (st_revision st) d /\
    claim_covers (st_next st) row c /\ (cm_type row = ClaimUnknown \/ ~ stored g d c).

Record recomputed (A g : string) (d d' : database) : Prop := {
  rc_events : db_events d' = db_events d;
  rc_claims : db_claims d' = db_claims d;
  rc_cursors : db_cursors d' = db_cursors d;
  rc_kept : forall r, r ∈ db_coverage d -> ~ is_agent_gap A g r -> r ∈ db_coverage d';
  rc_new : forall r, r ∈ db_coverage d' ->
    r ∈ db_coverage d \/ (is_agent_gap A g r /\ row_ok r) \/
    (exists r0 now, r0 ∈ db_coverage d /\ is_agent_gap A g r0 /\ r = set_resolved now r0);
  rc_gaps : forall c, (exists r, r ∈ db_coverage d' /\ is_agent_gap A g r /\ covers r c) <-> wanted A g d c;
  rc_ids : NoDup (cv_id <$> db_coverage d) -> NoDup (cv_id <$> db_coverage d');
}.

Lemma claim_rows_wanted A g d st rows gaps :
  claims_ok d -> events_ok d -> db_cursors d !! (A, g) = Some st ->
  rows = sort_by claim_less (claims_of g (st_revision st) d) ->
  (events_ok d -> Forall claim_range_ok (claim_of_row <$> filter (fun r => cm_type r = ClaimGap) rows) ->
    (forall c, (exists e, e ∈ gaps /\ dcovers e c) <->
       exists gap, gap ∈ claim_of_row <$> filter (fun r => cm_type r = ClaimGap) rows /\
       in_effect (st_next st) (gc_Incarnation gap) (gc_UntilSeq gap) (gc_Precision gap) /\ gap_has gap c /\ ~ stored g d c) /\
    Forall desired_ok gaps) ->
  let desired := gaps ++ ((fun i => mkDesired i None PrecisionUnknown) <$>
    (cm_inc <$> filter (fun r => cm_type r = ClaimUnknown) rows)) in
  Forall desired_ok desired /\ forall c, (exists e, e ∈ desired /\ dcovers e c) <-> wanted A g d c.
Proof.
  intros Hc He Hst Erows Hgaps. cbv zeta.
  assert (forall r, r ∈ rows <-> r ∈ claims_of g (st_revision st) d) as Hrows
    by (intros r; subst; by rewrite (sort_by_perm claim_less)).
  destruct Hgaps as [G1 G2]; [done|..].
  { apply Forall_fmap, Forall_forall. intros r Hr. apply list_elem_of_filter in Hr as [Ht Hr]. apply Hrows in Hr.
    unfold claims_of in Hr. apply list_elem_of_filter in Hr as [_ Hr]. unfold claims_ok in Hc. rewrite Forall_forall in Hc.
    specialize (Hc r Hr). unfold claim_ok in Hc. rewrite Ht in Hc. destruct Hc as (f & u & Ef & Eu & ?).
    unfold compose, claim_range_ok. simpl. rewrite Ef, Eu. simpl. lia. }
  split.
  - apply Forall_app. split; [done|]. apply Forall_fmap, Forall_forall. by intros i _.
  - intros c. setoid_rewrite elem_of_app. unfold wanted. split.
    + intros (e & [Hin|Hin] & Hcov).
      * destruct (proj1 (G1 c)) as (gap & Hg & Heff & Hhas & Hs); [eauto|].
        apply list_elem_of_fmap in Hg as (row & -> & Hrow). apply list_elem_of_filter in Hrow as [Ht Hrow].
        exists st, row. split; [done|]. split; [by apply Hrows|]. split; [|by right]. unfold claim_covers. rewrite Ht.
        destruct Hhas as [? ?]. by split.
      * apply list_elem_of_fmap in Hin as (i & -> & Hin). apply list_elem_of_fmap in Hin as (row & -> & Hrow).
        apply list_elem_of_filter in Hrow as [Ht Hrow]. exists st, row. split; [done|]. split; [by apply Hrows|].
        split; [|by left]. unfold claim_covers. rewrite Ht. by split.
    + intros (st' & row & Hst' & Hrow & [Hi Hcov] & Hs). rewrite Hst in Hst'. injection Hst' as <-. apply Hrows in Hrow.
      destruct (cm_type row) eqn:Ht.
      * destruct Hs as [?|Hs]; [done|]. destruct Hcov as [Hr Heff].
        destruct (proj2 (G1 c)) as (e & Hin & ?); [|exists e; auto].
        exists (claim_of_row row). split; [apply list_elem_of_fmap; exists row; split; [done|]; by apply list_elem_of_filter|].
        by split_and!.
      * exists (mkDesired (cm_inc row) None PrecisionUnknown). split; [right|done]. apply list_elem_of_fmap. exists (cm_inc row).
        split; [done|]. apply list_elem_of_fmap. exists row. split; [done|]. by apply list_elem_of_filter.
Qed.

Lemma resolve_gaps_elem A g now (rows : list coverageRow) r :
  r ∈ (fun r => if decide (is_agent_gap A g r) then set_resolved now r else r) <$> rows <->
  (r ∈ rows /\ ~ is_agent_gap A g r) \/ exists r0, r0 ∈ rows /\ is_agent_gap A g r0 /\ r = set_resolved now r0.
Proof.
  rewrite list_elem_of_fmap. split.
  - intros (r0 & -> & Hr). case_decide; [right; eauto | by left].
  - intros [[Hr Hn]|(r0 & Hr & Hg & ->)]; [exists r | exists r0]; by case_decide.
Qed.

Lemma recompute_ok A g now s u s' :
  rows_ok (s_db s) -> events_ok (s_db s) -> claims_ok (s_db s) ->
  recomputeEffective A g now s = (Ok u, s') -> recomputed A g (s_db s) (s_db s').
Proof.
  intros Hrow Hev Hcl. unfold recomputeEffective. intros H. step_ok H st s1 E1.
  apply (reads_ok _ _ _ _ _ (loadCursorState_reads A g)) in E1 as [[D1 _] Hst].
  step_ok H latest s2 E2. unfold loadLatestClaims in E2. step_ok E2 rows s2' E2'. injection E2 as <- <-.
  apply (reads_ok _ _ _ _ _ (reads_query _)) in E2' as [[D2 _] Erows]. rewrite D1 in Erows, D2.
  step_ok H gaps s3 E3. apply (reads_ok _ _ _ _ _ (desired_gaps_reads _ _ _)) in E3 as [[D3 _] Hgaps]. rewrite D2 in Hgaps, D3.
  destruct (claim_rows_wanted A g (s_db s) st rows gaps Hcl Hev Hst Erows Hgaps) as [Hdok Hwant].
  set (desired := gaps ++ _) in *. clearbody desired. step_ok H current s4 E4. unfold loadCurrentEffective in E4.
  step_ok E4 crows s4' E4'. injection E4 as <- <-. apply (reads_ok _ _ _ _ _ (reads_query _)) in E4' as [[D4 _] Ecur].
  rewrite D3 in Ecur, D4.
  assert (forall e, e ∈ sortDesired desired <-> e ∈ desired) as Hsd
    by (intros e; unfold sortDesired; by rewrite (sort_by_perm desired_less)).
  destruct (equalDesired _ _) eqn:Eq.
  - injection H as _ <-. rewrite D4. apply bool_decide_eq_true in Eq. split; auto. intros c. rewrite <- (Hwant c).
    assert (forall e, e ∈ desired <-> e ∈ desired_of_row <$> crows) as Hmem.
    { intros e. rewrite <- Hsd, <- Eq. unfold sortDesired. by rewrite (sort_by_perm desired_less). }
    setoid_rewrite Hmem. setoid_rewrite list_elem_of_fmap. subst crows. setoid_rewrite list_elem_of_filter.
    unfold rows_ok in Hrow. rewrite Forall_forall in Hrow. split.
    + intros (r & Hr & Hg & Hc). exists (desired_of_row r). split; [eauto|]. destruct Hg as [(_ & _ & He & _) [Ht _]].
      by apply covers_desired; auto.
    + intros (e & (r & -> & Hg & Hr) & Hc). exists r. split_and!; auto; try apply Hg.
      destruct Hg as [(_ & _ & He & _) [Ht _]]. by apply covers_desired; auto.
  - step_ok H v s5 E5. apply exec_ok in E5 as [D5 _]. destruct u. apply insert_desired_ok in H as (news & D6 & Hnews & Hnd).
    rewrite D4 in D5. rewrite D5 in D6, Hnd. simpl in D6, Hnd. rewrite D6 in *. simpl in *.
    assert (forall r, r ∈ news <-> exists e id, e ∈ desired /\ r = desired_row A g now e id /\ r ∈ news) as Hn.
    { intros r. split; [|by intros (? & ? & _ & _ & ?)]. intros Hr. destruct (list_elem_of_lookup_1 _ _ Hr) as [i Hi].
      destruct (Forall2_lookup_r _ _ _ _ _ Hnews Hi) as (e & He & id & ->). exists e, id. split_and!; auto.
      apply Hsd. by eapply list_elem_of_lookup_2. }
    split; simpl; auto.
    + intros r Hr Hg. apply elem_of_app. left. apply resolve_gaps_elem. by left.
    + intros r [Hr|Hr]%elem_of_app.
      * apply resolve_gaps_elem in Hr as [[? _]|(r0 & ? & ? & ->)]; [by left | right; right; eauto].
      * apply Hn in Hr as (e & id & He & -> & _). right. left. split; [apply desired_row_gap|]. apply desired_row_ok.
        rewrite Forall_forall in Hdok. by apply Hdok.
    + intros c. rewrite <- (Hwant c). setoid_rewrite elem_of_app. split.
      * intros (r & [Hr|Hr] & Hg & Hc).
        -- apply resolve_gaps_elem in Hr as [[_ ?]|(r0 & _ & _ & ->)]; [done|]. by destruct Hg as [(_ & _ & _ & ?) _].
        -- apply Hn in Hr as (e & id & He & -> & _). exists e. split; [done|]. by apply desired_row_covers in Hc.
      * intros (e & He & Hc). apply Hsd in He. destruct (list_elem_of_lookup_1 _ _ He) as [i Hi].
        destruct (Forall2_lookup_l _ _ _ _ _ Hnews Hi) as (r & Hr & id & ->). eexists. split; [right; by eapply list_elem_of_lookup_2|].
        split; [apply desired_row_gap | by apply desired_row_covers].
    + intros Hids. apply Hnd. apply NoDup_fmap_same; [|done]. intros r. by case_decide.
Qed.

(** ** The invariant *)

Record store_inv (A : string) (d : database) : Prop := {
  si_db : db_ok d;
  si_claims : claims_ok d;
  si_event_ids : NoDup (ev_id <$> db_events d);
  si_claim_ids : NoDup (cm_id <$> db_claims d);
  si_coverage_ids : NoDup (cv_id <$> db_coverage d);
  si_revisions : forall r, r ∈ db_claims d ->
    exists st, db_cursors d !! (A, cm_agent r) = Some st /\ cm_revision r <= st_revision st;
  si_gaps : forall g r c, r ∈ db_coverage d -> is_agent_gap A g r -> covers r c -> claimed A g d c;
}.

(** Every cursor that was explained still is. *)
Definition keeps_explained (A : string) (d d' : database) : Prop := forall g c, explained A g d c -> explained A g d' c.

#[export] Instance keeps_explained_pre A : PreOrder (keeps_explained A).
Proof. split; [by intros d g c | intros d1 d2 d3 H1 H2 g c Hc; by apply H2, H1]. Qed.

(** A step of a transaction: the invariant and the explained cursors. *)
Definition good_tx (A : string) (d d' : database) : Prop := store_inv A d -> store_inv A d' /\ keeps_explained A d d'.

Lemma good_tx_refl A d : good_tx A d d.
Proof. by intros H. Qed.
Lemma good_tx_trans A d1 d2 d3 : good_tx A d1 d2 -> good_tx A d2 d3 -> good_tx A d1 d3.
Proof. intros H1 H2 Hi. destruct (H1 Hi) as [Hi2 ?]. destruct (H2 Hi2) as [? ?]. split; [done | by etransitivity]. Qed.

Lemma is_agent_gap_hole A g r : is_agent_gap A g r -> is_hole A g r.
Proof. intros [? [Ht _]]. split; [done | by rewrite Ht]. Qed.

Lemma stored_same d d' g c : db_events d' = db_events d -> stored g d' c <-> stored g d c.
Proof. unfold stored. by intros ->. Qed.

Lemma is_agent_gap_inj A g A' g' r : is_agent_gap A g r -> is_active A' g' r -> A' = A /\ g' = g.
Proof. intros [(? & ? & _) _] (? & ? & _). split; congruence. Qed.

(** What must hold before the gaps of an Agent are recomputed: the invariant, but
    for the claims behind that Agent's effective gaps. *)
Record pre_inv (A g : string) (d : database) : Prop := {
  pi_db : db_ok d;
  pi_claims : claims_ok d;
  pi_event_ids : NoDup (ev_id <$> db_events d);
  pi_claim_ids : NoDup (cm_id <$> db_claims d);
  pi_coverage_ids : NoDup (cv_id <$> db_coverage d);
  pi_revisions : forall r, r ∈ db_claims d ->
    exists st, db_cursors d !! (A, cm_agent r) = Some st /\ cm_revision r <= st_revision st;
  pi_gaps : forall g' r c, g' <> g -> r ∈ db_coverage d -> is_agent_gap A g' r -> covers r c -> claimed A g' d c;
}.

Lemma pre_inv_of A g d : store_inv A d -> pre_inv A g d.
Proof. intros [? ? ? ? ? ? Hgap]. split; auto. intros g' r c _. apply Hgap. Qed.

(** The recomputation restores the invariant. *)
Lemma recompute_inv A g d d' : pre_inv A g d -> recomputed A g d d' -> store_inv A d'.
Proof.
  intros [Hd Hc Hei Hci Hvi Hrev Hgap] [Re Rc Rk Rkept Rnew Rgaps Rids]. split.
  - destruct Hd as [Hr He Hl Ha]. split.
    + unfold rows_ok in *. rewrite Forall_forall in *. intros r Hin.
      destruct (Rnew r Hin) as [?|[[_ ?]|(r0 & now & Hr0 & _ & ->)]]; auto. apply (Hr r0 Hr0).
    + unfold events_ok. by rewrite Re.
    + intros r Hin Ht. destruct (Rnew r Hin) as [?|[[[_ [? _]] _]|(r0 & now & Hr0 & [_ [Ht' _]] & ->)]]; auto; simpl in *; congruence.
    + by rewrite Rk.
  - unfold claims_ok. by rewrite Rc.
  - by rewrite Re.
  - by rewrite Rc.
  - by apply Rids.
  - rewrite Rc, Rk. done.
  - intros g' r c Hr Hg Hcov. unfold claimed, claims_of. rewrite Rc, Rk. destruct (decide (g' = g)) as [->|Hne].
    + destruct (proj1 (Rgaps c)) as (st & row & Hst & Hrow & Hcc & _); [eauto|]. exists st, row. auto.
    + destruct (Rnew r Hr) as [Hin|[[Hg' _]|(r0 & now & _ & _ & ->)]].
      * apply (Hgap g' r c Hne Hin Hg Hcov).
      * destruct (is_agent_gap_inj A g A g' r Hg' (proj1 Hg)) as [_ ?]. done.
      * by destruct Hg as [(_ & _ & _ & ?) _].
Qed.

(** Where everything the Agent's effective gaps cover is still claimed, nothing
    explained is lost. *)
Lemma recompute_keeps A g d d' :
  (forall r c, r ∈ db_coverage d -> is_agent_gap A g r -> covers r c -> claimed A g d c) ->
  recomputed A g d d' -> keeps_explained A d d'.
Proof.
  intros Hgap [Re Rc Rk Rkept Rnew Rgaps Rids] g' c [Hs|(r & Hr & Hh & Hcov)]; [left; by apply (stored_same _ _ _ _ Re)|].
  destruct (decide (is_agent_gap A g r)) as [Hg|Hg]; [|right; exists r; split_and!; auto].
  destruct (is_agent_gap_inj A g A g' r Hg (proj1 Hh)) as [_ ->].
  destruct (Hgap r c Hr Hg Hcov) as (st & row & Hst & Hrow & Hcc).
  destruct (decide (Exists (is_event g c) (db_events d))) as [Hst'|Hst'].
  - left. apply (stored_same _ _ _ _ Re). unfold stored. by apply Exists_exists.
  - right. destruct (proj2 (Rgaps c)) as (r' & Hr' & Hg' & Hc').
    { exists st, row. split_and!; auto. right. intros Hs. apply Hst'. by apply Exists_exists. }
    exists r'. split_and!; auto. by apply is_agent_gap_hole.
Qed.

(** ** Elementary changes *)

(** Cursor rows may move on: present rows keep their revision or better. *)
Definition cursors_move (A : string) (m m' : gmap (string * string) cursorState) : Prop :=
  forall g st, m !! (A, g) = Some st -> exists st', m' !! (A, g) = Some st' /\ st_revision st' = st_revision st /\
    forall n, st_next st = Some n -> exists n', st_next st' = Some n' /\ cursor_le n n'.

Lemma in_effect_mono next next' inc until p :
  (forall n, next = Some n -> exists n', next' = Some n' /\ cursor_le n n') ->
  in_effect next inc until p -> in_effect next' inc until p.
Proof.
  intros Hn H E. destruct (H E) as (n & Hnx & Hle). destruct (Hn n Hnx) as (n' & ? & ?). exists n'. split; [done|].
  by etransitivity.
Qed.

Lemma claimed_move A g c d d' :
  db_claims d' = db_claims d -> cursors_move A (db_cursors d) (db_cursors d') -> claimed A g d c -> claimed A g d' c.
Proof.
  intros Hc Hm (st & r & Hst & Hr & Hi & Hcov). destruct (Hm g st Hst) as (st' & Hst' & Hrev & Hn). exists st', r.
  split; [done|]. unfold claims_of in *. rewrite Hc, Hrev. split; [done|]. split; [done|].
  destruct (cm_type r); [|done]. destruct Hcov as [? He]. split; [done|]. by eapply in_effect_mono.
Qed.

Lemma cursors_good A d f :
  cursors_move A (db_cursors d) (f (db_cursors d)) ->
  (forall k st ack, f (db_cursors d) !! k = Some st -> st_ack st = Some ack -> 0 <= Seq ack <= max_i64) ->
  good_tx A d (upd_cursors f d).
Proof.
  intros Hm Ha [[Hr He Hl _] Hc Hei Hci Hvi Hrev Hgap]. split; [|by intros g c].
  split; simpl; auto; [by split| |].
  - intros r Hin. destruct (Hrev r Hin) as (st & Hst & ?). destruct (Hm _ _ Hst) as (st' & ? & E & _). exists st'. by rewrite E.
  - intros g r c Hin Hg Hcov. apply (claimed_move A g c d); auto. by apply (Hgap g r c).
Qed.

Lemma add_row_good A d r :
  cv_id r = next_id cv_id (db_coverage d) -> row_ok r -> (cv_type r = EntryLowerBound -> 1 <= Seq (lower_cursor r)) ->
  cv_source r <> SourceAgentGap -> good_tx A d (upd_coverage (fun rows => rows ++ [r]) d).
Proof.
  intros Hid Hok Hlow Hsrc [[Hr He Hl Ha] Hc Hei Hci Hvi Hrev Hgap]. split.
  - split; simpl; auto.
    + split; simpl; auto.
      * unfold rows_ok. simpl. apply Forall_app. split; [done|]. by constructor.
      * intros r' [Hin|Hin]%elem_of_app; [by apply Hl|]. by apply list_elem_of_singleton in Hin as ->.
    + by apply next_id_fresh.
    + intros g r' c [Hin|Hin]%elem_of_app Hg Hcov; [by apply (Hgap g r' c)|]. apply list_elem_of_singleton in Hin as ->.
      by destruct Hg as [_ [_ ?]].
  - intros g c [?|(r' & Hin & Hh & Hcov)]; [by left|]. right. exists r'. split_and!; auto. simpl. apply elem_of_app. by left.
Qed.

Lemma insert_coverage_good A mk s u s' :
  insert_coverage mk s = (Ok u, s') ->
  (forall id, cv_id (mk id) = id /\ row_ok (mk id) /\ (cv_type (mk id) = EntryLowerBound -> 1 <= Seq (lower_cursor (mk id))) /\
     cv_source (mk id) <> SourceAgentGap) ->
  good_tx A (s_db s) (s_db s').
Proof.
  intros E Hmk. apply exec_ok in E as [-> _]. destruct (Hmk (next_id cv_id (db_coverage (s_db s)))) as (? & ? & ? & ?).
  by apply (add_row_good A (s_db s) (mk (next_id cv_id (db_coverage (s_db s))))).
Qed.

(** ** [EstablishCoverageStart], [CheckAndAdvanceACK], [RecordCursorRegression] *)

Lemma good_tx_immediate A {B} (body : storeM B) s :
  (forall s1 v s2, body s1 = (Ok v, s2) -> good_tx A (s_db s1) (s_db s2)) ->
  good_tx A (s_db s) (s_db (withImmediate body s).2).
Proof.
  intros H. destruct (withImmediate body s) as [[v|e] s'] eqn:E.
  - apply withImmediate_ok in E as (s1 & s2 & [E1 _] & E & [E2 _]). simpl. rewrite E2, <- E1. by eapply H.
  - apply withImmediate_err in E. simpl. rewrite E. apply good_tx_refl.
Qed.

Lemma ensureCursorRow_good A g start now s u s' :
  ensureCursorRow A g start now s = (Ok u, s') -> good_tx A (s_db s) (s_db s').
Proof.
  intros E. apply exec_ok in E as [-> _]. intros Hi. pose proof (dok_acks _ (si_db _ _ Hi)) as Ha.
  revert Hi. apply cursors_good.
  - intros g' st Hst. destruct (db_cursors (s_db s) !! (A, g)) as [st0|] eqn:E.
    + exists st. split_and!; auto. intros n Hn. exists n. by split.
    + rewrite lookup_insert_ne; [|intros [= ->]; congruence]. exists st. split_and!; auto. intros n Hn. exists n. by split.
  - intros k st ack. destruct (db_cursors (s_db s) !! (A, g)) as [st0|] eqn:E; [apply Ha|].
    destruct (decide (k = (A, g))) as [->|]; [rewrite lookup_insert_eq; by intros [= <-]|].
    rewrite lookup_insert_ne by done. apply Ha.
Qed.

Lemma lower_row_ok A g start reason now id :
  validCursor start = true ->
  let r := mkCoverageRow id A g EntryLowerBound (Incarnation start) (Some (Seq start)) None None SourceCoverageStart
    PrecisionExact false now None (Some reason) in
  cv_id r = id /\ row_ok r /\ (cv_type r = EntryLowerBound -> 1 <= Seq (lower_cursor r)) /\ cv_source r <> SourceAgentGap.
Proof. intros Hv%validCursor_proposed. unfold valid_proposed in Hv. split_and!; try done. intros _. simpl. lia. Qed.

Lemma Establish_good A g start reason now s :
  good_tx A (s_db s) (s_db (EstablishCoverageStart A g start reason now s).2).
Proof.
  unfold EstablishCoverageStart. destruct (_ || _) eqn:Eb; [apply good_tx_refl|]. bool_to_prop. apply good_tx_immediate.
  intros s1 v s2 E. step_ok E row s3 E3. apply (reads_ok _ _ _ _ _ (reads_query _)) in E3 as [[E3 _] _]. rewrite <- E3.
  destruct row as [r|].
  - case_if; [|done]. by eapply ensureCursorRow_good.
  - step_ok E u s4 E4. eapply good_tx_trans; [|by eapply ensureCursorRow_good].
    eapply insert_coverage_good; [exact E4|]. intros id. by apply lower_row_ok.
Qed.

Lemma alter_move A g f m :
  (forall st, m !! (A, g) = Some st -> st_revision (f st) = st_revision st /\
     forall n, st_next st = Some n -> exists n', st_next (f st) = Some n' /\ cursor_le n n') ->
  cursors_move A m (alter f (A, g) m).
Proof.
  intros Hf g' st Hst. destruct (decide (g' = g)) as [->|Hne].
  - rewrite lookup_alter_eq, Hst. exists (f st). split; [done|]. by apply Hf.
  - rewrite lookup_alter_ne by congruence. exists st. split_and!; auto. intros n Hn. exists n. by split.
Qed.

Lemma advance_good A g proposed rev now s r s' :
  validCursor proposed = true -> advance_ack A g proposed rev now s = (Ok r, s') -> good_tx A (s_db s) (s_db s').
Proof.
  intros Hv E Hi. apply advance_ack_run in E; [|apply Hi]. destruct E as (st & Hst & Hrev & E).
  destruct r; [|destruct E as [_ ->]; by apply good_tx_refl]. destruct E as (_ & -> & _). revert Hi.
  pose proof (validCursor_proposed _ Hv) as Hp. unfold valid_proposed in Hp. intros Hi.
  pose proof (dok_acks _ (si_db _ _ Hi)) as Ha. revert Hi. apply cursors_good.
  - apply alter_move. intros st' Hst'. rewrite Hst in Hst'. injection Hst' as <-. split; [by simpl|]. intros n Hn. exists n.
    by split.
  - intros k st' ack. destruct (decide (k = (A, g))) as [->|].
    + rewrite lookup_alter_eq, Hst. intros [= <-] [= <-]. lia.
    + rewrite lookup_alter_ne by done. apply Ha.
Qed.

Lemma upd_runtime_good A g f s : good_tx A (s_db s) (s_db (upd_runtime A g f s).2).
Proof. apply good_tx_refl. Qed.

Lemma Ack_good A g proposed rev now s : good_tx A (s_db s) (s_db (CheckAndAdvanceACK A g proposed rev now s).2).
Proof.
  unfold CheckAndAdvanceACK. destruct (_ || _) eqn:Eb; [apply good_tx_refl|]. bool_to_prop.
  assert (good_tx A (s_db s) (s_db (withImmediate (advance_ack A g proposed rev now) s).2)) as H'.
  { apply good_tx_immediate. intros s1 v s2 E. by eapply advance_good. }
  unfold bind at 1, attempt. destruct (withImmediate _ s) as [[advanced|e] s1]; simpl in H'.
  - by destruct advanced.
  - by destruct e.
Qed.

(** *** Regression *)

Lemma unexplained_ranges_ok A g d st proposed next rs :
  db_ok d -> db_cursors d !! (A, g) = Some st -> valid_proposed proposed ->
  unexplained_exact A g d (st_ack st) proposed next rs ->
  Forall (fun r => Incarnation (r_From r) = Incarnation (r_Until r) /\ 0 <= Seq (r_From r) < Seq (r_Until r)) rs.
Proof.
  intros Hd Hst Hp (lower & Hl & H). pose proof (start_positive A g d lower st Hd Hl Hst) as Hs. cbv zeta in H.
  unfold valid_proposed, max_i64 in Hp. destruct H as [[_ ->]|(_ & incs & _ & _ & _ & [_ H])].
  - constructor; [|constructor]. simpl. rewrite u64_id by (unfold u64_ok, max_u64; lia). split; [done | lia].
  - apply Forall_forall. intros r Hr. destruct (H r Hr) as (E & Hb & _). split; [done|]. unfold seq_from in Hb.
    destruct (_ =? _) in Hb; lia.
Qed.

Lemma regression_row_ok A g r reason now id :
  Incarnation (r_From r) = Incarnation (r_Until r) -> 0 <= Seq (r_From r) < Seq (r_Until r) -> Seq (r_Until r) <= max_i64 ->
  row_ok (mkCoverageRow id A g EntryRegression (Incarnation (r_From r)) (Some (Seq (r_From r)))
    (Some (Incarnation (r_Until r))) (Some (Seq (r_Until r))) SourceRegression PrecisionExact true now None (Some reason)).
Proof. intros -> H1 H2 _. right. simpl. split; [done|]. split; [done|]. eexists _, _. split_and!; eauto; lia. Qed.

Lemma insertRegressionGap_good A g r reason now s u s' :
  0 <= Seq (r_From r) < Seq (r_Until r) -> insertRegressionGap A g r reason now s = (Ok u, s') ->
  good_tx A (s_db s) (s_db s').
Proof.
  intros Hr. unfold insertRegressionGap. case_if; [done|]. bool_to_prop. intros E. step_ok E v s1 E1.
  apply (reads_ok _ _ _ _ _ (reads_bind_args _)) in E1 as [[<- _] Hb].
  apply Forall_cons in Hb as [_ Hb]. apply Forall_cons in Hb as [Hb _].
  eapply insert_coverage_good; [exact E|]. intros id. split; [done|]. split; [by apply regression_row_ok | done].
Qed.

Lemma record_regressions_good A g resumedAt reason now rs s l s' :
  Forall (fun r => Incarnation (r_From r) = Incarnation (r_Until r) /\ 0 <= Seq (r_From r) < Seq (r_Until r)) rs ->
  record_regressions A g resumedAt reason now rs s = (Ok l, s') -> good_tx A (s_db s) (s_db s').
Proof.
  intros Hrs. revert s l. induction Hrs as [|r rs [Hi Hb] _ IH]; intros s l; cbn [record_regressions].
  - intros [= _ <-]. apply good_tx_refl.
  - case_if; [apply IH|]. intros E. step_ok E u s1 E1. step_ok E l' s2 E2. injection E as _ <-.
    eapply good_tx_trans; [by eapply insertRegressionGap_good | by eapply IH].
Qed.

Lemma Regression_good A g proposed resumedAt reason now s :
  good_tx A (s_db s) (s_db (RecordCursorRegression A g proposed resumedAt reason now s).2).
Proof.
  unfold RecordCursorRegression. destruct (_ || _) eqn:Eb; [apply good_tx_refl|]. bool_to_prop.
  destruct (negb (validRegressionReason reason)); [apply good_tx_refl|]. apply good_tx_immediate.
  intros s1 v s2 E. step_ok E st s3 E3. apply (reads_ok _ _ _ _ _ (loadCursorState_reads A g)) in E3 as [[D3 _] Hst].
  step_ok E lower s4 E4. apply (reads_ok _ _ _ _ _ (lower_bound_reads A g)) in E4 as [[D4 _] _]. rewrite D3 in D4.
  assert (same_store s1 s4 \/ True) as _ by by right.
  destruct (st_next st) as [next|]; [|injection E as _ <-; rewrite D4; apply good_tx_refl].
  case_if; [injection E as _ <-; rewrite D4; apply good_tx_refl|]. step_ok E rs s5 E5.
  apply (reads_ok _ _ _ _ _ (unexplainedACKRanges_reads _ _ _ _ _)) in E5 as [[D5 _] Hx]. rewrite D4 in D5, Hx.
  intros Hi. specialize (Hx (dok_rows _ (si_db _ _ Hi))). rewrite <- D5 in *.
  eapply record_regressions_good; [|exact E|done]. rewrite D5 in *.
  eapply unexplained_ranges_ok; eauto; [apply Hi | by apply validCursor_proposed].
Qed.

(** *** Ingest *)

Lemma insert_event_ok g e s b s' :
  insert_event g e s = (Ok b, s') ->
  (b = false /\ s_db s' = s_db s /\ is_Some (find_event g (e_Cursor e) (s_db s))) \/
  (b = true /\ find_event g (e_Cursor e) (s_db s) = None /\
   s_db s' = upd_events (fun rows => rows ++ [event_row g e (next_id ev_id rows)]) (s_db s)).
Proof.
  unfold insert_event. intros H. step_ok H u s1 E1. apply (reads_ok _ _ _ _ _ reads_sql) in E1 as [[D1 _] _].
  step_ok H found s2 E2. injection E2 as <- <-. rewrite D1 in H. destruct (find_event g (e_Cursor e) (s_db s)) eqn:Ef.
  - injection H as <- <-. left. eauto.
  - step_ok H v s3 E3. injection E3 as _ <-. injection H as <- <-. right. simpl. by rewrite D1.
Qed.

Lemma verifyDuplicate_reads g e :
  reads (verifyDuplicate g e) (fun d _ => exists r, find_event g (e_Cursor e) d = Some r /\ r = event_row g e (ev_id r)).
Proof.
  unfold verifyDuplicate. eapply reads_weaken.
  - eapply reads_bind; [apply reads_query|]. intros row.
    instantiate (1 := fun row d _ => exists r, row = Some r /\ r = event_row g e (ev_id r)). destruct row as [r|].
    + destruct (bool_decide _) eqn:Eb; bool_to_prop; [|eapply reads_weaken; [apply reads_fail; by left | done]].
      eapply reads_weaken; [apply reads_ret|]. intros d [] _. eauto.
    + eapply reads_weaken; [apply reads_fail; by right; left | done].
  - intros d v (row & -> & r & ? & ?). eauto.
Qed.

Lemma find_event_elem g c d r : find_event g c d = Some r -> r ∈ db_events d /\ is_event g c r.
Proof.
  unfold find_event. intros E. assert (r ∈ filter (is_event g c) (db_events d)) as Hin.
  { destruct (filter _ _); [done|]. injection E as ->. by left. }
  by apply list_elem_of_filter in Hin as [? ?].
Qed.

(** What a batch of events does: rows are only added, every event of the batch
    is there as its row, and nothing else changes. *)
Lemma ingest_events_ok g l i dup s v s' :
  ingest_events g i dup l s = (Ok v, s') ->
  exists news, s_db s' = upd_events (fun rows => rows ++ news) (s_db s) /\
    Forall (fun r => exists e, e ∈ l /\ r = event_row g e (ev_id r)) news /\
    (forall e, e ∈ l -> exists r, r ∈ db_events (s_db s') /\ r = event_row g e (ev_id r)) /\
    (NoDup (ev_id <$> db_events (s_db s)) -> NoDup (ev_id <$> db_events (s_db s'))) /\
    v.1 = i + lenZ news.
Proof.
  revert i dup s. induction l as [|e l IH]; intros i dup s; cbn [ingest_events].
  - intros [= <- <-]. exists []. split; [destruct (s_db s); unfold upd_events; simpl; by rewrite app_nil_r|].
    split; [constructor|]. split; [by intros e ?%not_elem_of_nil|]. split; [done|]. unfold lenZ. simpl. lia.
  - intros H. step_ok H b s1 E1. apply insert_event_ok in E1 as [(-> & D1 & Hf)|(-> & Hf & D1)].
    + step_ok H u s2 E2. apply (reads_ok _ _ _ _ _ (verifyDuplicate_reads g e)) in E2 as [[D2 _] (r & Hr & Er)].
      rewrite D1 in D2, Hr. apply IH in H as (news & D & Hn & Hall & Hnd & Hv). rewrite D2 in *. exists news.
      split; [done|]. split; [eapply Forall_impl; [exact Hn|]; intros x (e' & ? & ?); exists e'; split; [by right | done]|].
      split; [|done]. intros e' [->|He']%elem_of_cons; [|by apply Hall]. exists r. split; [|done]. rewrite D. simpl.
      apply elem_of_app. left. by apply find_event_elem in Hr as [? _].
    + apply IH in H as (news & D & Hn & Hall & Hnd & Hv). rewrite D1 in *. simpl in *.
      set (r := event_row g e (next_id ev_id (db_events (s_db s)))) in *. exists (r :: news). split_and!.
      * rewrite D. unfold upd_events. simpl. by rewrite <- app_assoc.
      * constructor; [exists e; split; [by left | done]|]. eapply Forall_impl; [exact Hn|].
        intros x (e' & ? & ?); exists e'; split; [by right | done].
      * intros e' [->|He']%elem_of_cons; [|by apply Hall]. exists r. split; [|done]. rewrite D. simpl.
        rewrite <- app_assoc. apply elem_of_app. right. by left.
      * intros H. apply Hnd. by apply next_id_fresh.
      * rewrite Hv. unfold lenZ. simpl. lia.
Qed.

Lemma validate_events_ok g next prev l e :
  validate_events g next prev l = true -> e ∈ l -> validCursor (e_Cursor e) = true /\ cursor_lt (e_Cursor e) next.
Proof.
  revert prev. induction l as [|x l IH]; intros prev; [by intros _ ?%not_elem_of_nil|]. cbn [validate_events].
  destruct (_ || _ || _) eqn:E1; [done|]. destruct (match prev with Some _ => _ | None => _ end); [done|].
  destruct (compareCursor (e_Cursor x) next >=? 0) eqn:E2; [done|]. destruct (Json.json_valid _); [|done]. intros H.
  intros [->|He]%elem_of_cons; [|by apply (IH _ H)]. bool_to_prop. split; [done|]. by apply compareCursor_lt.
Qed.

Lemma add_events_db A d news :
  store_inv A d -> NoDup (ev_id <$> (db_events d ++ news)) ->
  Forall (fun e => 1 <= ev_inc e <= max_i64 /\ 1 <= ev_seq e <= max_i64) news ->
  good_tx A d (upd_events (fun rows => rows ++ news) d).
Proof.
  intros _ Hnd Hok [[Hr He Hl Ha] Hc Hei Hci Hvi Hrev Hgap]. split.
  - split; simpl; auto. split; simpl; auto. unfold events_ok. simpl. apply Forall_app. by split.
  - intros g c [(e & Hin & Hx)|?]; [|by right]. left. exists e. split; [|done]. simpl. apply elem_of_app. by left.
Qed.

Lemma with_next_good A g next d :
  (forall st, db_cursors d !! (A, g) = Some st -> forall n, st_next st = Some n -> cursor_le n next) ->
  good_tx A d (upd_cursors (alter (with_next next) (A, g)) d).
Proof.
  intros Hn Hi. pose proof (dok_acks _ (si_db _ _ Hi)) as Ha. revert Hi. apply cursors_good.
  - apply alter_move. intros st Hst. split; [done|]. intros n En. exists next. split; [done|]. by eapply Hn.
  - intros k st ack. destruct (decide (k = (A, g))) as [->|].
    + rewrite lookup_alter_eq. destruct (db_cursors d !! (A, g)) as [st0|] eqn:E; [|done]. intros [= <-]. simpl. by apply (Ha _ _ _ E).
    + rewrite lookup_alter_ne by done. apply Ha.
Qed.

Lemma recompute_step_good A g now s u s' :
  recomputeEffective A g now s = (Ok u, s') -> good_tx A (s_db s) (s_db s').
Proof.
  intros E Hi. apply recompute_ok in E; try apply Hi. split; [by apply (recompute_inv A g _ _ (pre_inv_of A g _ Hi))|].
  apply (recompute_keeps A g); [apply Hi | done].
Qed.

Lemma event_rows_ok g next l news :
  validate_events g next None l = true -> Forall (fun r => exists e, e ∈ l /\ r = event_row g e (ev_id r)) news ->
  Forall (fun e => 1 <= ev_inc e <= max_i64 /\ 1 <= ev_seq e <= max_i64) news.
Proof.
  intros Hv Hn. eapply Forall_impl; [exact Hn|]. intros r (e & He & ->).
  destruct (validate_events_ok _ _ _ _ _ Hv He) as [Hc _]. unfold validCursor in Hc. bool_to_prop. simpl. lia.
Qed.

(** The transaction of [Ingest] after its rollback check. *)
Lemma ingest_body_good A g l next now counts s s1 s2 s' u v :
  validate_events g next None l = true ->
  (forall st, db_cursors (s_db s) !! (A, g) = Some st -> forall n, st_next st = Some n -> cursor_le n next) ->
  ingest_events g 0 0 l s = (Ok counts, s1) -> set_cursor A g (with_next next) s1 = (Ok v, s2) ->
  recomputeEffective A g now s2 = (Ok u, s') -> good_tx A (s_db s) (s_db s').
Proof.
  intros Hv Hn E1 E2 E3 Hi. apply ingest_events_ok in E1 as (news & D1 & Hnews & _ & Hnd & _).
  assert (good_tx A (s_db s) (s_db s1)) as G1.
  { rewrite D1. apply add_events_db; auto; [|by eapply event_rows_ok]. specialize (Hnd (si_event_ids _ _ Hi)).
    by rewrite D1 in Hnd. }
  apply exec_ok in E2 as [D2 _]. revert Hi. eapply good_tx_trans; [exact G1|].
  eapply good_tx_trans; [|by eapply recompute_step_good]. rewrite D2. apply with_next_good. rewrite D1. done.
Qed.

Lemma Ingest_good A g l next now s : good_tx A (s_db s) (s_db (Ingest A g l next now s).2).
Proof.
  unfold Ingest. destruct (_ || _ || _); [apply good_tx_refl|].
  destruct (validate_events g next None l) eqn:Ev; [|apply good_tx_refl]. cbn [negb].
  match goal with |- context [withImmediate ?b] => set (body := b) end.
  assert (good_tx A (s_db s) (s_db (withImmediate body s).2)) as H'.
  { apply good_tx_immediate. subst body. intros s1 v s2 E. step_ok E st s3 E3.
    apply (reads_ok _ _ _ _ _ (loadCursorState_reads A g)) in E3 as [[D3 _] Hst].
    destruct (match st_next st with Some _ => _ | None => _ end) eqn:Ec; [done|].
    step_ok E counts s4 E4. step_ok E u s5 E5. step_ok E w s6 E6. injection E as _ <-. rewrite <- D3.
    eapply ingest_body_good; eauto. rewrite D3. intros st' Hst' n Hn. rewrite Hst in Hst'. injection Hst' as <-.
    rewrite Hn in Ec. bool_to_prop. by apply compareCursor_ge, Z.le_ge. }
  unfold bind at 1. destruct (withImmediate body s) as [[[i dup]|e] s1]; simpl in H'; [|done].
  by destruct (i >? 0).
Qed.

(** *** Coverage snapshots *)

(** The cursors a snapshot claims, whatever has been delivered. *)
Definition snapshot_claims (snapshot : CoverageSnapshot) (c : Cursor) : Prop :=
  Incarnation c ∈ cs_Unknown snapshot \/
  exists gap, gap ∈ cs_Gaps snapshot /\ gap_has gap c /\ gc_Precision gap = PrecisionExact.

(** A later snapshot still claims what took effect of the earlier ones. *)
Definition snapshot_grows (A : string) (d : database) (snapshot : CoverageSnapshot) : Prop :=
  forall r c, r ∈ db_coverage d -> is_agent_gap A (cs_AgentID snapshot) r -> covers r c -> snapshot_claims snapshot c.

Lemma insert_claims_ok mks s u s' :
  insert_claims mks s = (Ok u, s') ->
  exists news, s_db s' = upd_claims (fun rows => rows ++ news) (s_db s) /\
    Forall2 (fun mk r => exists id, r = mk id) mks news /\
    ((forall mk id, mk ∈ mks -> cm_id (mk id) = id) ->
     NoDup (cm_id <$> db_claims (s_db s)) -> NoDup (cm_id <$> db_claims (s_db s'))).
Proof.
  revert s. induction mks as [|mk mks IH]; intros s; simpl.
  - intros [= _ <-]. exists []. split; [|split; [apply Forall2_nil_2 | done]]. destruct (s_db s). unfold upd_claims. simpl. by rewrite app_nil_r.
  - intros H. step_ok H v s1 E. apply exec_ok in E as [E _]. apply IH in H as (news & D & Hf & Hnd). eexists (_ :: news).
    split_and!.
    + rewrite D, E. unfold upd_claims. simpl. rewrite <- app_assoc. reflexivity.
    + constructor; [by eexists | done].
    + intros Hid H. apply Hnd; [intros; apply Hid; by right|]. rewrite E. simpl. apply next_id_fresh; [done|].
      apply Hid. by left.
Qed.

Definition claim_makers (snapshot : CoverageSnapshot) : list (Z -> claimRow) :=
  (gap_row snapshot <$> cs_Gaps snapshot) ++ (unknown_row snapshot <$> cs_Unknown snapshot).

Lemma claim_makers_elem snapshot mk :
  mk ∈ claim_makers snapshot ->
  (exists gap, gap ∈ cs_Gaps snapshot /\ mk = gap_row snapshot gap) \/
  (exists i, i ∈ cs_Unknown snapshot /\ mk = unknown_row snapshot i).
Proof.
  unfold claim_makers. intros [H|H]%elem_of_app; apply list_elem_of_fmap in H as (x & -> & Hx); [left | right]; eauto.
Qed.

Lemma gap_ok_range snapshot gap :
  validateClaims snapshot = true -> gap ∈ cs_Gaps snapshot ->
  gc_FromSeq gap <> 0 /\ gc_FromSeq gap < gc_UntilSeq gap /\ gc_UntilSeq gap <= max_i64.
Proof.
  unfold validateClaims. intros H Hg. apply andb_true_iff in H as [H _]. apply andb_true_iff in H as [_ H].
  rewrite forallb_forall in H. specialize (H gap ltac:(by apply list_elem_of_In)). unfold gap_ok in H.
  destruct (_ || _ || _ || _ || _) eqn:E in H; [done|]. bool_to_prop. lia.
Qed.

(** Sequences are unsigned. *)
Definition snapshot_wf (snapshot : CoverageSnapshot) : Prop :=
  Forall (fun g => 0 <= gc_FromSeq g /\ 0 <= gc_UntilSeq g) (cs_Gaps snapshot).

Lemma gap_row_ok snapshot gap id :
  snapshot_wf snapshot -> validateClaims snapshot = true -> gap ∈ cs_Gaps snapshot -> claim_ok (gap_row snapshot gap id).
Proof.
  intros Hw Hv Hg. unfold snapshot_wf in Hw. rewrite Forall_forall in Hw. destruct (Hw gap Hg) as [? _].
  destruct (gap_ok_range snapshot gap Hv Hg) as (? & ? & ?). eexists _, _. split_and!; simpl; eauto; lia.
Qed.

Lemma snapshot_row_covers snapshot mks news c next :
  mks = claim_makers snapshot -> Forall2 (fun mk r => exists id, r = mk id) mks news -> snapshot_claims snapshot c ->
  exists r, r ∈ news /\ cm_agent r = cs_AgentID snapshot /\ cm_revision r = cs_Revision snapshot /\ claim_covers next r c.
Proof.
  intros -> Hf Hc.
  assert (forall mk, mk ∈ claim_makers snapshot -> exists r id, r ∈ news /\ r = mk id) as Hmk.
  { intros mk Hin. apply list_elem_of_lookup in Hin as [i Hi]. destruct (Forall2_lookup_l _ _ _ _ _ Hf Hi) as (r & Hr & id & ->).
    eexists _, id. split; [by eapply list_elem_of_lookup_2 | done]. }
  unfold claim_makers in Hmk. destruct Hc as [Hu|(gap & Hg & [Hi Hs] & Hp)].
  - destruct (Hmk (unknown_row snapshot (Incarnation c))) as (r & id & Hr & ->).
    { apply elem_of_app. right. apply list_elem_of_fmap. eauto. }
    eexists. split; [exact Hr|]. done.
  - destruct (Hmk (gap_row snapshot gap)) as (r & id & Hr & ->).
    { apply elem_of_app. left. apply list_elem_of_fmap. eauto. }
    eexists. split; [exact Hr|]. split; [done|]. split; [done|]. split; [done|]. simpl. split; [done|]. rewrite Hp. done.
Qed.

(** The rows a snapshot adds. *)
Lemma snapshot_rows_ok snapshot news :
  snapshot_wf snapshot -> validateClaims snapshot = true ->
  Forall2 (fun mk r => exists id, r = mk id) (claim_makers snapshot) news ->
  forall r, r ∈ news -> cm_agent r = cs_AgentID snapshot /\ cm_revision r = cs_Revision snapshot /\ claim_ok r.
Proof.
  intros Hw Hv Hf r Hr. apply list_elem_of_lookup in Hr as [i Hi']. destruct (Forall2_lookup_r _ _ _ _ _ Hf Hi') as (mk & Hmk & id & ->).
  apply list_elem_of_lookup_2, claim_makers_elem in Hmk as [(gap & Hgap & ->)|(x & _ & ->)]; split_and!; try done.
  by apply gap_row_ok.
Qed.

(** The database with a snapshot's claims and its revision recorded. *)
Definition with_claims (A : string) (snapshot : CoverageSnapshot) (news : list claimRow) (d : database) : database :=
  upd_cursors (alter (with_revision (cs_Revision snapshot)) (A, cs_AgentID snapshot)) (upd_claims (fun rows => rows ++ news) d).

Lemma with_claims_pre A snapshot news d st :
  snapshot_wf snapshot -> validateClaims snapshot = true ->
  Forall2 (fun mk r => exists id, r = mk id) (claim_makers snapshot) news ->
  NoDup (cm_id <$> (db_claims d ++ news)) -> db_cursors d !! (A, cs_AgentID snapshot) = Some st ->
  st_revision st <= cs_Revision snapshot -> store_inv A d -> pre_inv A (cs_AgentID snapshot) (with_claims A snapshot news d).
Proof.
  intros Hw Hv Hf Hnd Hst Hle Hi. pose proof (snapshot_rows_ok snapshot news Hw Hv Hf) as Hnews.
  destruct Hi as [[Hr He Hl Ha] Hc Hei Hci Hvi Hrev Hgap]. set (g := cs_AgentID snapshot) in *.
  assert (forall g', g' <> g -> alter (with_revision (cs_Revision snapshot)) (A, g) (db_cursors d) !! (A, g') = db_cursors d !! (A, g'))
    as Hother by (intros g' Hne; by rewrite lookup_alter_ne by congruence).
  unfold with_claims. fold g. split; simpl; auto.
  - split; simpl; auto. intros k st' ack. destruct (decide (k = (A, g))) as [->|].
    + rewrite lookup_alter_eq, Hst. intros [= <-]. simpl. by apply (Ha _ _ _ Hst).
    + rewrite lookup_alter_ne by done. apply Ha.
  - unfold claims_ok. simpl. apply Forall_app. split; [done|]. apply Forall_forall. intros r Hr'. by apply Hnews.
  - intros r [Hr'|Hr']%elem_of_app.
    + destruct (Hrev r Hr') as (st' & Hr1 & Hr2). destruct (decide (cm_agent r = g)) as [Eg|Hne].
      * rewrite Eg in *. rewrite Hst in Hr1. injection Hr1 as <-. rewrite lookup_alter_eq, Hst. eexists. split; [done|]. simpl. lia.
      * exists st'. by rewrite Hother.
    + destruct (Hnews r Hr') as (-> & -> & _). fold g. rewrite lookup_alter_eq, Hst. eexists. split; [done|]. done.
  - intros g' r c Hne Hr' Hg Hcov. destruct (Hgap g' r c Hr' Hg Hcov) as (st' & x & Hs & Hx & Hcc). exists st', x. simpl.
    rewrite Hother by done. split; [done|]. split; [|done]. unfold claims_of in *. simpl. rewrite filter_app. apply elem_of_app. by left.
Qed.

Lemma with_claims_claimed A snapshot news d st c :
  Forall2 (fun mk r => exists id, r = mk id) (claim_makers snapshot) news ->
  db_cursors d !! (A, cs_AgentID snapshot) = Some st -> snapshot_claims snapshot c ->
  claimed A (cs_AgentID snapshot) (with_claims A snapshot news d) c.
Proof.
  intros Hf Hst Hc. destruct (snapshot_row_covers snapshot _ news c (st_next st) eq_refl Hf Hc) as (x & Hx & Ea & Er & Hcc).
  exists (with_revision (cs_Revision snapshot) st), x. simpl. rewrite lookup_alter_eq, Hst. split; [done|]. split; [|done].
  unfold claims_of. simpl. apply list_elem_of_filter. split; [done|]. apply elem_of_app. by right.
Qed.

(** A snapshot is refused, is the one already known, or is recorded and the gaps
    recomputed. *)
Lemma apply_snapshot_run A snapshot now s v s' :
  snapshot_wf snapshot -> validateClaims snapshot = true -> store_inv A (s_db s) ->
  apply_snapshot A snapshot now s = (Ok v, s') ->
  s_db s' = s_db s \/
  exists news st, Forall2 (fun mk r => exists id, r = mk id) (claim_makers snapshot) news /\
    db_cursors (s_db s) !! (A, cs_AgentID snapshot) = Some st /\
    pre_inv A (cs_AgentID snapshot) (with_claims A snapshot news (s_db s)) /\
    recomputed A (cs_AgentID snapshot) (with_claims A snapshot news (s_db s)) (s_db s').
Proof.
  intros Hw Hv Hi. unfold apply_snapshot. intros E. step_ok E st s1 E1.
  apply (reads_ok _ _ _ _ _ (loadCursorState_reads _ _)) in E1 as [[D1 _] Hst].
  destruct (cs_Revision snapshot <? st_revision st) eqn:Elt; [done|].
  destruct (cs_Revision snapshot =? st_revision st) eqn:Eeq; bool_to_prop.
  { step_ok E equal s2 E2. unfold snapshotEqualsRevision in E2. step_ok E2 rows s3 E3. injection E2 as _ <-.
    apply (reads_ok _ _ _ _ _ (reads_query _)) in E3 as [[D3 _] _]. destruct equal; [|done]. injection E as _ <-. left. congruence. }
  fold (claim_makers snapshot) in E. step_ok E u s2 E2. apply insert_claims_ok in E2 as (news & D2 & Hf & Hnd). rewrite D1 in D2, Hnd.
  step_ok E u3 s3 E3. apply exec_ok in E3 as [D3 _]. rewrite D2 in D3. step_ok E u4 s4 E4. injection E as _ <-.
  fold (with_claims A snapshot news (s_db s)) in D3. right. exists news, st.
  assert (pre_inv A (cs_AgentID snapshot) (with_claims A snapshot news (s_db s))) as Hpre.
  { eapply with_claims_pre; eauto. rewrite D2 in Hnd. apply Hnd; [|apply Hi].
    intros mk id [(gap & _ & ->)|(x & _ & ->)]%claim_makers_elem; done. }
  split_and!; auto. rewrite <- D3. apply recompute_ok in E4; [done|..]; rewrite D3; apply Hpre.
Qed.

Lemma apply_snapshot_inv A snapshot now s v s' :
  snapshot_wf snapshot -> validateClaims snapshot = true -> apply_snapshot A snapshot now s = (Ok v, s') ->
  store_inv A (s_db s) -> store_inv A (s_db s').
Proof.
  intros Hw Hv E Hi. apply apply_snapshot_run in E as [->|(news & st & Hf & Hst & Hpre & R)]; auto. by eapply recompute_inv.
Qed.

Lemma apply_snapshot_good A snapshot now s v s' :
  snapshot_wf snapshot -> validateClaims snapshot = true -> snapshot_grows A (s_db s) snapshot ->
  apply_snapshot A snapshot now s = (Ok v, s') -> good_tx A (s_db s) (s_db s').
Proof.
  intros Hw Hv Hgrow E Hi. split; [by eapply apply_snapshot_inv|].
  apply apply_snapshot_run in E as [->|(news & st & Hf & Hst & Hpre & R)]; auto; [done|].
  transitivity (with_claims A snapshot news (s_db s)); [by intros g c|]. eapply recompute_keeps; [|exact R].
  intros r c Hr Hg Hcov. eapply with_claims_claimed; eauto.
Qed.

Lemma Snapshot_good A snapshot now s :
  snapshot_wf snapshot -> snapshot_grows A (s_db s) snapshot ->
  good_tx A (s_db s) (s_db (ApplyCoverageSnapshot A snapshot now s).2).
Proof.
  intros Hw Hg. unfold ApplyCoverageSnapshot. destruct (_ || _ || _); [apply good_tx_refl|].
  destruct (validateClaims snapshot) eqn:Hv; [|apply good_tx_refl]. cbn [negb].
  assert (good_tx A (s_db s) (s_db (withImmediate (apply_snapshot A snapshot now) s).2)) as H'.
  { destruct (withImmediate _ s) as [[v|e] s'] eqn:E; simpl.
    - apply withImmediate_ok in E as (s1 & s2 & [E1 _] & E & [E2 _]). rewrite E2, <- E1. eapply apply_snapshot_good; eauto.
      by rewrite E1.
    - apply withImmediate_err in E. rewrite E. apply good_tx_refl. }
  unfold bind at 1, attempt. destruct (withImmediate _ s) as [[v|e] s1]; simpl in H'; [done|]. by destruct e.
Qed.

(** Without the assumption on the Agent the invariant is kept all the same. *)
Lemma Snapshot_inv A snapshot now s :
  snapshot_wf snapshot -> store_inv A (s_db s) -> store_inv A (s_db (ApplyCoverageSnapshot A snapshot now s).2).
Proof.
  intros Hw Hi. unfold ApplyCoverageSnapshot. destruct (_ || _ || _); [done|].
  destruct (validateClaims snapshot) eqn:Hv; [|done]. cbn [negb].
  assert (store_inv A (s_db (withImmediate (apply_snapshot A snapshot now) s).2)) as H'.
  { destruct (withImmediate _ s) as [[v|e] s'] eqn:E; simpl.
    - apply withImmediate_ok in E as (s1 & s2 & [E1 _] & E & [E2 _]). rewrite E2. eapply apply_snapshot_inv; eauto. by rewrite E1.
    - apply withImmediate_err in E. by rewrite E. }
  unfold bind at 1, attempt. destruct (withImmediate _ s) as [[v|e] s1]; simpl in H'; [done|]. by destruct e.
Qed.
