(* ===== verification/AuditRetention.v ===== *)
(** * The audit store: retention

    Retention deletes events only after the ledger accounts for them, and
    compaction deletes only history that nothing effective rests on. With the
    other transactions this gives the store's main guarantee over any run:
    the invariant holds, and a cursor that was ever explained stays explained. *)

From S2P Require Import Prelude Cursor AuditStore AuditStoreSpec AuditStoreInv.

Definition keeps_covered (A : string) (d d' : database) : Prop := forall g c, covered A g d c -> covered A g d' c.

#[export] Instance keeps_covered_pre A : PreOrder (keeps_covered A).
Proof. split; [by intros d g c | intros d1 d2 d3 H1 H2 g c Hc; by apply H2, H1]. Qed.

(** ** Recording an interval *)

Lemma resolve_rows_ok now ids s u s' :
  resolve_rows now ids s = (Ok u, s') ->
  s_db s' = upd_coverage (fmap (fun r => if bool_decide (cv_id r ∈ ids) then set_ineffective now r else r)) (s_db s).
Proof.
  revert s. induction ids as [|id ids IH]; intros s; simpl.
  - intros [= _ <-]. destruct (s_db s). unfold upd_coverage. simpl. f_equal. rewrite <- (list_fmap_id db_coverage) at 1.
    apply list_fmap_ext. intros i r _. done.
  - intros H. step_ok H v s1 E. apply exec_ok in E as [D _]. apply IH in H. rewrite H, D. unfold upd_coverage. simpl. f_equal.
    rewrite <- list_fmap_compose. apply list_fmap_ext. intros i r _. unfold compose.
    destruct (cv_id r =? id) eqn:Ei; bool_to_prop.
    + rewrite (bool_decide_eq_true_2 (cv_id r ∈ id :: ids)) by (rewrite Ei; by left). simpl. by case_bool_decide.
    + rewrite (bool_decide_ext (cv_id r ∈ id :: ids) (cv_id r ∈ ids)); [done|]. rewrite elem_of_cons. tauto.
Qed.

Lemma merged_bounds_spec interval rows from until :
  merged_bounds interval rows = (from, until) ->
  from <= Seq (r_From interval) /\ Seq (r_Until interval) <= until /\
  (forall r, r ∈ rows -> from <= default 0 (cv_fromSeq r) /\ default 0 (cv_untilSeq r) <= until) /\
  (forall k, k <= Seq (r_From interval) -> (forall r, r ∈ rows -> k <= default 0 (cv_fromSeq r)) -> k <= from) /\
  (forall k, Seq (r_Until interval) <= k -> (forall r, r ∈ rows -> default 0 (cv_untilSeq r) <= k) -> until <= k).
Proof.
  unfold merged_bounds. intros [= <- <-]. induction rows as [|r rows IH]; simpl.
  - split_and!; try lia. intros r Hr. by apply not_elem_of_nil in Hr.
  - destruct IH as (H1 & H2 & H3 & H4 & H5). split_and!; [lia | lia | | |].
    + intros r' [->|Hr]%elem_of_cons; [lia|]. specialize (H3 r' Hr). lia.
    + intros k Hk Hr. apply Z.min_glb; [apply Hr; by left|]. apply H4; [done|]. intros r' Hr'. apply Hr. by right.
    + intros k Hk Hr. apply Z.max_lub; [apply Hr; by left|]. apply H5; [done|]. intros r' Hr'. apply Hr. by right.
Qed.

Definition interval_ok (r : Range) : Prop :=
  Incarnation (r_From r) = Incarnation (r_Until r) /\ 0 <= Seq (r_From r) < Seq (r_Until r).

Definition retention_row (A g : string) (interval : Range) (from until : Z) (reason : string) (now : time) (id : Z) : coverageRow :=
  mkCoverageRow id A g EntryGap (Incarnation (r_From interval)) (Some from) (Some (Incarnation (r_From interval))) (Some until)
    SourceRetention PrecisionExact true now None (Some reason).

(** The ledger after an interval was recorded. *)
Lemma record_interval_effect A g interval reason now s u s' :
  recordRetentionInterval A g interval reason now s = (Ok u, s') ->
  exists from until, merged_bounds interval (filter (is_touching A g interval reason) (db_coverage (s_db s))) = (from, until) /\
    Seq (r_Until interval) <= max_i64 /\
    (NoDup (cv_id <$> db_coverage (s_db s)) ->
     s_db s' = upd_coverage (fun rows =>
       let rows' := (fun r => if bool_decide (is_touching A g interval reason r) then set_ineffective now r else r) <$> rows in
       rows' ++ [retention_row A g interval from until reason now (next_id cv_id rows')]) (s_db s)).
Proof.
  unfold recordRetentionInterval. intros H. step_ok H v s1 E1.
  apply (reads_ok _ _ _ _ _ (reads_bind_args _)) in E1 as [[D1 _] Hb].
  apply Forall_cons in Hb as [_ Hb]. apply Forall_cons in Hb as [Hb _].
  step_ok H rows s2 E2. apply (reads_ok _ _ _ _ _ (reads_query _)) in E2 as [[D2 _] Erows]. rewrite D1 in D2, Erows.
  destruct (merged_bounds interval rows) as [from until] eqn:Em. exists from, until. split; [by rewrite <- Erows|]. split; [done|].
  intros Hnd. step_ok H w s3 E3. apply resolve_rows_ok in E3. apply exec_ok in H as [D4 _].
  rewrite D4, E3, D2. unfold upd_coverage. simpl.
  assert ((fun r => if bool_decide (cv_id r ∈ cv_id <$> rows) then set_ineffective now r else r) <$> db_coverage (s_db s) =
    (fun r => if bool_decide (is_touching A g interval reason r) then set_ineffective now r else r) <$> db_coverage (s_db s)) as E.
  { apply list_fmap_ext. intros i r Hr. apply list_elem_of_lookup_2 in Hr.
    rewrite (bool_decide_ext (cv_id r ∈ cv_id <$> rows) (is_touching A g interval reason r)); [done|].
    rewrite Erows, list_elem_of_fmap. split.
    - intros (r' & Eid & Hr'). apply list_elem_of_filter in Hr' as [Ht Hr']. by rewrite (id_inj cv_id _ r r' Hnd Hr Hr' Eid).
    - intros Ht. exists r. split; [done|]. by apply list_elem_of_filter. }
  by rewrite E.
Qed.

Lemma touching_covers A g interval reason r c from until :
  is_touching A g interval reason r -> row_ok r -> covers r c ->
  from <= default 0 (cv_fromSeq r) /\ default 0 (cv_untilSeq r) <= until ->
  Incarnation (r_From interval) = Incarnation c /\ from <= Seq c < until.
Proof.
  intros (Ha & Ht & _ & _ & _ & Hi & Hui & _) Hok [Hc1 Hc2] Hb. destruct Ha as (_ & _ & He & _).
  destruct (Hok He) as [(_ & _ & Hn & _)|(_ & _ & f & u & Ef & Eu & _)]; [congruence|].
  rewrite Ef, Eu in *. simpl in *. split; [congruence | lia].
Qed.

Lemma record_interval_good A g interval reason now s u s' :
  interval_ok interval -> recordRetentionInterval A g interval reason now s = (Ok u, s') -> store_inv A (s_db s) ->
  store_inv A (s_db s') /\ db_events (s_db s') = db_events (s_db s) /\ keeps_covered A (s_db s) (s_db s') /\
  (forall c, in_range interval c -> covered A g (s_db s') c).
Proof.
  intros [Hinc Hpos] E Hi. apply record_interval_effect in E as (from & until & Em & Hmax & D). specialize (D (si_coverage_ids _ _ Hi)).
  set (rows := db_coverage (s_db s)) in *.
  destruct (merged_bounds_spec _ _ _ _ Em) as (Hfrom & Huntil & Hrows & Hlow & Hhigh).
  assert (forall r, r ∈ rows -> is_touching A g interval reason r ->
    from <= default 0 (cv_fromSeq r) /\ default 0 (cv_untilSeq r) <= until) as Hin.
  { intros r Hr Ht. apply Hrows. by apply list_elem_of_filter. }
  pose proof (dok_rows _ (si_db _ _ Hi)) as Hok. unfold rows_ok in Hok. rewrite Forall_forall in Hok.
  assert (0 <= from /\ until <= max_i64) as [Hf0 Hu0].
  { split; [apply Hlow; [lia|] | apply Hhigh; [done|]]; intros r Hr; apply list_elem_of_filter in Hr as [Ht Hr];
      destruct (Hok r Hr (proj1 (proj2 (proj2 (proj1 Ht))))) as [(_ & Hn & _ & Hn')|(_ & _ & f & v & Ef & Ev & ? & ?)];
      rewrite ?Hn, ?Hn', ?Ef, ?Ev; simpl; unfold max_i64 in *; lia. }
  set (rows' := (fun r => if bool_decide (is_touching A g interval reason r) then set_ineffective now r else r) <$> rows) in *.
  set (new := retention_row A g interval from until reason now (next_id cv_id rows')) in *. simpl in D.
  assert (forall r, r ∈ rows' <-> exists r0, r0 ∈ rows /\
    r = (if bool_decide (is_touching A g interval reason r0) then set_ineffective now r0 else r0)) as Hrows'.
  { intros r. unfold rows'. rewrite list_elem_of_fmap. split; intros (r0 & ? & ?); exists r0; auto. }
  assert (is_hole A g new) as Hnew by done.
  assert (forall c, Incarnation (r_From interval) = Incarnation c -> from <= Seq c < until -> covered A g (s_db s') c) as Hcov.
  { intros c Hc1 Hc2. exists new. rewrite D. simpl. split; [apply elem_of_app; right; by left|]. by split. }
  destruct Hi as [[Hr He Hl Ha] Hc Hei Hci Hvi Hrev Hgap]. split; [|split; [by rewrite D | split]].
  - rewrite D. split; simpl; auto; [split; simpl; auto| |].
    + unfold rows_ok. simpl. apply Forall_app. split; [|constructor; [|constructor]].
      * apply Forall_forall. intros r (r0 & Hr0 & ->)%Hrows'. case_bool_decide; [done | by apply Hok].
      * intros _. right. split; [done|]. split; [done|]. exists from, until. split_and!; auto; lia.
    + intros r [Hr'|Hr']%elem_of_app Ht; [|by apply list_elem_of_singleton in Hr' as ->].
      apply Hrows' in Hr' as (r0 & Hr0 & ->). case_bool_decide as Hd; [|by apply Hl]. simpl in Ht. destruct Hd as (_ & Hd & _). congruence.
    + apply next_id_fresh; [|done]. apply NoDup_fmap_same; [|done]. intros r. by case_bool_decide.
    + intros g' r c [Hr'|Hr']%elem_of_app Hg Hcv; [|apply list_elem_of_singleton in Hr' as ->; by destruct Hg as [_ [_ ?]]].
      apply Hrows' in Hr' as (r0 & Hr0 & ->). case_bool_decide as Hd; [by destruct Hg as [(_ & _ & ? & _) _]|]. by apply (Hgap g' r0 c).
  - intros g' c (r & Hr' & Hh & Hcv). destruct (decide (is_touching A g interval reason r)) as [Ht|Ht].
    + assert (g' = g) as -> by (destruct Ht as [(_ & ? & _) _], Hh as [(_ & ? & _) _]; congruence).
      destruct (touching_covers A g interval reason r c from until Ht (Hok r Hr') Hcv (Hin r Hr' Ht)). by apply Hcov.
    + exists r. rewrite D. simpl. split; [apply elem_of_app; left; apply Hrows'; exists r; by rewrite bool_decide_eq_false_2|]. by split.
  - intros c (Hc1 & _ & Hc2). apply Hcov; [done | lia].
Qed.

Lemma record_intervals_good A reason now l s u s' :
  Forall (fun x => interval_ok x.2) l -> record_intervals A reason now l s = (Ok u, s') -> store_inv A (s_db s) ->
  store_inv A (s_db s') /\ db_events (s_db s') = db_events (s_db s) /\ keeps_covered A (s_db s) (s_db s') /\
  (forall g r c, (g, r) ∈ l -> in_range r c -> covered A g (s_db s') c).
Proof.
  intros Hl. revert s. induction Hl as [|[g r] l Hr _ IH]; intros s; simpl.
  - intros [= _ <-] Hi. split_and!; auto; [done|]. by intros g r c ?%not_elem_of_nil.
  - intros H Hi. step_ok H v s1 E. destruct (record_interval_good A g r reason now s v s1 Hr E Hi) as (Hi1 & E1 & K1 & C1).
    destruct (IH s1 H Hi1) as (Hi2 & E2 & K2 & C2). split_and!; [done | congruence | by etransitivity |].
    intros g' r' c [[= -> ->]|Hin]%elem_of_cons Hc; [|by eapply C2]. by apply K2, C1.
Qed.

(** ** Joining events into intervals *)

Definition event_range_ok (e : retentionEvent) : Prop := 0 <= Seq (re_cursor e) <= max_i64.

Definition joined (l : list (string * Range)) (g : string) (c : Cursor) : Prop := exists r, (g, r) ∈ l /\ in_range r c.

Lemma joined_cons x l g c : joined (x :: l) g c <-> (x.1 = g /\ in_range x.2 c) \/ joined l g c.
Proof.
  unfold joined. setoid_rewrite elem_of_cons. split.
  - intros (r & [<-|Hr] & Hc); [left | right]; eauto.
  - intros [[<- Hc]|(r & Hr & Hc)]; [exists x.2; destruct x; auto | eauto].
Qed.

Lemma joined_rev l g c : joined (rev l) g c <-> joined l g c.
Proof.
  assert (forall x, x ∈ rev l <-> x ∈ l) as H by (intros x; by rewrite !list_elem_of_In, <- in_rev).
  unfold joined. by setoid_rewrite H.
Qed.

Lemma succ_range c : 0 <= Seq c <= max_i64 -> cursor_succ c = mkCursor (Incarnation c) (Seq c + 1).
Proof. unfold cursor_succ, max_i64. intros. by rewrite u64_id by (unfold u64_ok, max_u64; lia). Qed.

(** The intervals hold exactly the events' cursors, and are well-formed. *)
Lemma interval_loop_spec result l :
  Forall event_range_ok l -> Forall (fun x => interval_ok x.2) result ->
  Forall (fun x => interval_ok x.2) (interval_loop result l) /\
  forall g c, joined (interval_loop result l) g c <->
    joined result g c \/ exists e, e ∈ l /\ re_agent e = g /\ re_cursor e = c.
Proof.
  intros Hl. revert result. induction Hl as [|e l He _ IH]; intros result Hres; cbn [interval_loop].
  - split; [by apply Forall_rev|]. intros g c. rewrite joined_rev. split; [by left|]. intros [?|(e & Hn & _)]; [done|].
    by apply not_elem_of_nil in Hn.
  - set (fresh := (re_agent e, mkRange (re_cursor e) (cursor_succ (re_cursor e)))).
    assert (interval_ok fresh.2) as Hfresh 
      by (unfold fresh, interval_ok; cbn [snd r_From r_Until]; rewrite succ_range by done; simpl; unfold event_range_ok in He; lia).
    assert (forall g c, fresh.1 = g /\ in_range fresh.2 c <-> re_agent e = g /\ re_cursor e = c) as Hfc.
    { intros g c. unfold fresh, in_range. cbn [fst snd r_From r_Until]. rewrite succ_range by done. simpl. destruct (re_cursor e), c. simpl. split.
      - intros (? & ? & _ & ?). split; [done|]. f_equal; [done | lia].
      - intros [? [= <- <-]]. split; [done|]. lia. }
    assert (Forall (fun x => interval_ok x.2) (interval_loop (fresh :: result) l) /\
      forall g c, joined (interval_loop (fresh :: result) l) g c <->
        joined result g c \/ exists x, x ∈ e :: l /\ re_agent x = g /\ re_cursor x = c) as Hdefault.
    { destruct (IH (fresh :: result)) as [H1 H2]; [by constructor|]. split; [done|]. intros g c.
      rewrite H2, joined_cons, Hfc. setoid_rewrite elem_of_cons. split.
      - intros [[[? ?]|?]|(x & ? & ?)]; [right; exists e; auto | by left | right; exists x; auto].
      - intros [?|(x & [->|?] & ?)]; [auto | auto | right; eauto]. }
    destruct result as [|[a r] result]; [done|]. destruct (_ && _) eqn:Ej; [|done]. bool_to_prop. subst a. clear Hdefault.
    apply Forall_cons in Hres as [Hr Hres]. simpl in Hr.
    match goal with H : r_Until r = re_cursor e |- _ => rename H into Eu end. rewrite Eu.
    unfold event_range_ok in He.
    destruct (IH ((re_agent e, mkRange (r_From r) (cursor_succ (re_cursor e))) :: result)) as [H1 H2].
    { constructor; [|done]. simpl. destruct Hr as [Hr1 Hr2]. rewrite Eu in *. unfold interval_ok. cbn [snd r_From r_Until].
      rewrite succ_range by done. simpl. split; [done | lia]. }
    split; [done|]. intros g c. rewrite H2, !joined_cons. simpl. setoid_rewrite elem_of_cons.
    assert (in_range (mkRange (r_From r) (cursor_succ (re_cursor e))) c <-> in_range r c \/ re_cursor e = c) as Hext.
    { destruct Hr as [Hr1 Hr2]. unfold in_range. cbn [r_From r_Until]. rewrite succ_range by done. rewrite Eu in *. simpl in *.
      destruct (re_cursor e), c. simpl in *. split.
      - intros (? & ? & ?). destruct (decide (Seq0 = Seq)); [right; f_equal; congruence | left; lia].
      - intros [?|[= <- <-]]; lia. }
    rewrite Hext. split.
    + intros [[[? [?|?]]|?]|(x & ? & ?)]; [auto | right; exists e; auto | auto | right; exists x; auto].
    + intros [[[? ?]|?]|(x & [->|?] & ? & ?)]; [auto | auto | auto | right; eauto].
Qed.

Lemma retentionIntervals_spec l :
  Forall event_range_ok l ->
  Forall (fun x => interval_ok x.2) (retentionIntervals l) /\
  forall g c, joined (retentionIntervals l) g c <-> exists e, e ∈ l /\ re_agent e = g /\ re_cursor e = c.
Proof.
  intros Hl. unfold retentionIntervals.
  destruct (interval_loop_spec [] (sort_by retention_less l)) as [H1 H2]; [by rewrite (sort_by_perm retention_less) | constructor |].
  split; [done|]. intros g c. rewrite H2. unfold joined at 1. setoid_rewrite (sort_by_perm retention_less). split; [|by right].
  intros [(r & Hr & _)|?]; [by apply not_elem_of_nil in Hr | done].
Qed.

(** ** Deleting events *)

Lemma filter_all {B} (P : B -> Prop) `{!forall x, Decision (P x)} (l : list B) : (forall x, x ∈ l -> P x) -> filter P l = l.
Proof.
  induction l as [|x l IH]; intros Hl; [done|]. rewrite filter_cons_True by (apply Hl; by left). f_equal. apply IH.
  intros y Hy. apply Hl. by right.
Qed.

Lemma delete_events_ok ids s u s' :
  delete_events ids s = (Ok u, s') -> s_db s' = upd_events (filter (fun e => ev_id e ∉ ids)) (s_db s).
Proof.
  revert s. induction ids as [|id ids IH]; intros s; simpl.
  - intros [= _ <-]. destruct (s_db s). unfold upd_events. simpl. f_equal. symmetry. apply filter_all.
    intros e _. apply not_elem_of_nil.
  - intros H. step_ok H v s1 E. apply exec_ok in E as [D _]. apply IH in H. rewrite H, D. unfold upd_events. simpl. f_equal.
    rewrite list_filter_filter. apply list_filter_iff. intros e. rewrite not_elem_of_cons. tauto.
Qed.

Lemma delete_good A d (ids : list Z) :
  (forall e, e ∈ db_events d -> ev_id e ∈ ids -> covered A (ev_agent e) d (mkCursor (ev_inc e) (ev_seq e))) ->
  good_tx A d (upd_events (filter (fun e => ev_id e ∉ ids)) d).
Proof.
  intros Hdel [[Hr He Hl Ha] Hc Hei Hci Hvi Hrev Hgap]. split.
  - split; simpl; auto; [split; simpl; auto|by apply NoDup_fmap_filter].
    unfold events_ok in *. simpl. rewrite Forall_forall in *. intros e [_ Hin]%list_elem_of_filter. by apply He.
  - intros g c [(e & Hin & Hx)|?]; [|by right]. destruct (decide (ev_id e ∈ ids)) as [Hid|Hid].
    + right. specialize (Hdel e Hin Hid). destruct Hx as (<- & Hi & Hq). rewrite Hi, Hq in Hdel. by destruct c.
    + left. exists e. split; [|done]. simpl. by apply list_elem_of_filter.
Qed.

Lemma select_loop_elem {B} (at_ : B -> time) bytes plan pressure remaining l x :
  x ∈ select_loop at_ bytes plan pressure remaining l -> x ∈ l.
Proof.
  revert remaining. induction l as [|y l IH]; intros remaining; simpl; [done|].
  case_if; [by intros ?%not_elem_of_nil|]. intros [->|Hx]%elem_of_cons; [by left | right; by eapply IH].
Qed.

Lemma delete_history_ok table ids s u s' :
  delete_history table ids s = (Ok u, s') ->
  s_db s' = match table with
            | HistoryClaims => upd_claims (filter (fun r => cm_id r ∉ ids)) (s_db s)
            | HistoryCoverage => upd_coverage (filter (fun r => cv_id r ∉ ids)) (s_db s)
            end.
Proof.
  revert s. induction ids as [|id ids IH]; intros s; simpl.
  - intros [= _ <-]. destruct (s_db s); destruct table; unfold upd_claims, upd_coverage; simpl; f_equal; symmetry; apply filter_all;
      intros r _; apply not_elem_of_nil.
  - intros H. step_ok H v s1 E. apply exec_ok in E as [D _]. apply IH in H. rewrite H, D.
    destruct table; unfold upd_claims, upd_coverage; simpl; f_equal; rewrite list_filter_filter; apply list_filter_iff;
      intros r; rewrite not_elem_of_cons; tauto.
Qed.

(** The tiers in the order [EnforceRetention] runs them. *)
Inductive tier := TierACKed | TierCovered | TierUnACKed.
#[export] Instance tier_eq_dec : EqDecision tier.
Proof. solve_decision. Defined.
Definition tier_acked (t : tier) : bool := match t with TierACKed => true | _ => false end.
Definition tier_covered (t : tier) : bool := match t with TierCovered => true | _ => false end.
Definition tier_reason (t : tier) : string :=
  match t with TierACKed => retentionAppliedReason | TierCovered => "" | TierUnACKed => quotaBeforeACKReason end.

Section Retention.
Context (julianday : time -> Z) (text_length : string -> Z) (time_length : time -> Z).
Abbreviation candidate := (candidate_of text_length time_length).
Abbreviation batch := (retention_batch julianday text_length time_length).
Abbreviation compact := (compact_batch julianday text_length time_length).

Lemma scan_candidates_reads rows : reads (scan_candidates text_length time_length rows) (fun _ l => l = candidate <$> rows).
Proof.
  induction rows as [|e rows IH]; simpl; [apply reads_ret|].
  eapply reads_weaken; [eapply reads_bind; [apply reads_parseTime | intros; eapply reads_bind; [exact IH | intros; apply reads_ret]]|].
  by intros d v (_ & _ & l & -> & ->).
Qed.

Lemma loadRetentionEvents_reads A cutoff pressure acked alreadyCovered :
  reads (loadRetentionEvents julianday text_length time_length A cutoff pressure acked alreadyCovered)
    (fun d l => forall x, x ∈ l -> exists e, e ∈ db_events d /\ x = candidate e /\ in_tier A acked alreadyCovered d e = true).
Proof.
  unfold loadRetentionEvents. destruct (_ && _).
  { eapply reads_weaken; [apply reads_ret|]. intros d v -> x Hx. by apply not_elem_of_nil in Hx. }
  eapply reads_weaken; [eapply reads_bind; [apply reads_query | intros; apply scan_candidates_reads]|].
  intros d l (rows & -> & ->) x Hx. apply list_elem_of_fmap in Hx as (e & -> & He).
  apply subseteq_take, list_elem_of_In in He.
  rewrite <- list_elem_of_In, (sort_by_perm (candidate_less julianday)), list_elem_of_filter in He.
  destruct He as [Hc He]. exists e. bool_to_prop. auto.
Qed.

Lemma requireCurrentArchive_reads A : reads (requireCurrentArchive A) (fun d _ => db_archive d = SettingOf A).
Proof.
  unfold requireCurrentArchive. eapply reads_weaken.
  - eapply reads_bind; [apply reads_query|]. intros setting.
    instantiate (1 := fun setting d _ => setting = SettingOf A).
    destruct setting as [| |id]; [eapply reads_weaken; [apply reads_fail; by left | done]..|].
    destruct (bool_decide (id = A)) eqn:E; bool_to_prop; [subst; eapply reads_weaken; [apply reads_ret | done]|].
    eapply reads_weaken; [apply reads_fail; by left | done].
  - by intros d v (x & -> & ?).
Qed.

Lemma retention_covered A d e :
  rows_ok d -> is_retention_covered A d e = true -> covered A (ev_agent e) d (mkCursor (ev_inc e) (ev_seq e)).
Proof.
  intros Hok H. unfold is_retention_covered in H. apply existsb_exists in H as (r & Hr & Hc). apply list_elem_of_In in Hr.
  bool_to_prop. destruct Hc as (Ha & Ht & _ & Hi & Hu & Hs). exists r. split; [done|]. split; [split; [done | by rewrite Ht]|].
  split; [done|]. simpl. unfold rows_ok in Hok. rewrite Forall_forall in Hok.
  destruct (Hok r Hr (proj1 (proj2 (proj2 Ha)))) as [(_ & _ & Hn & _)|(_ & _ & f & u & Ef & Eu & _)]; [congruence|].
  rewrite Ef, Eu in *. done.
Qed.

(** A round that returned: nothing was selected, or the selected events were
    deleted after their intervals were recorded. *)
Lemma batch_run A plan now t pressure usage s v s' :
  batch A plan now (tier_acked t) (tier_covered t) (tier_reason t) pressure usage s = (Ok v, s') ->
  s_db s' = s_db s \/
  exists sel s2 s3,
    (forall x, x ∈ sel -> exists e, e ∈ db_events (s_db s) /\ x = candidate e /\
       in_tier A (tier_acked t) (tier_covered t) (s_db s) e = true) /\
    s_db s2 = s_db s /\
    ((t = TierCovered /\ s_db s3 = s_db s2) \/
     exists w, record_intervals A (tier_reason t) now (retentionIntervals sel) s2 = (Ok w, s3)) /\
    s_db s' = upd_events (filter (fun e => ev_id e ∉ re_id <$> sel)) (s_db s3).
Proof.
  unfold retention_batch. intros E. step_ok E u s1 E1. apply (reads_ok _ _ _ _ _ (requireCurrentArchive_reads A)) in E1 as [[D1 _] _].
  step_ok E cands s2 E2. apply (reads_ok _ _ _ _ _ (loadRetentionEvents_reads _ _ _ _ _)) in E2 as [[D2 _] Hc].
  rewrite D1 in D2, Hc. cbv zeta in E. set (sel := select_loop re_at re_bytes plan pressure usage cands) in *.
  assert (forall x, x ∈ sel -> exists e, e ∈ db_events (s_db s) /\ x = candidate e /\
    in_tier A (tier_acked t) (tier_covered t) (s_db s) e = true) as Hsel by (intros x Hx; by eapply Hc, select_loop_elem).
  clearbody sel. destruct sel as [|x0 sel0] eqn:Es; [injection E as _ <-; left; congruence|]. rewrite <- Es in *. clear x0 sel0 Es.
  step_ok E w s3 E3. step_ok E w' s4 E4. injection E as _ <-. apply delete_events_ok in E4.
  right. exists sel, s2, s3. split_and!; auto. destruct t; [right; eauto | left | right; eauto]. split; [done|]. by injection E3 as _ <-.
Qed.

Lemma selected_range A acked covered d sel :
  store_inv A d ->
  (forall x, x ∈ sel -> exists e, e ∈ db_events d /\ x = candidate e /\ in_tier A acked covered d e = true) -> Forall event_range_ok sel.
Proof.
  intros Hi Hsel. apply Forall_forall. intros x Hx. destruct (Hsel x Hx) as (e & He & -> & _). unfold event_range_ok. simpl.
  pose proof (dok_events _ (si_db _ _ Hi)) as Hev. unfold events_ok in Hev. rewrite Forall_forall in Hev.
  specialize (Hev e He). simpl in Hev. lia.
Qed.

Lemma batch_good A plan now t pressure usage s v s' :
  batch A plan now (tier_acked t) (tier_covered t) (tier_reason t) pressure usage s = (Ok v, s') ->
  good_tx A (s_db s) (s_db s').
Proof.
  intros E Hi. apply batch_run in E as [->|(sel & s2 & s3 & Hsel & D2 & Hrec & ->)]; [by split|]. rewrite <- D2 in Hi |- *.
  rewrite <- D2 in Hsel.
  assert (store_inv A (s_db s3) /\ db_events (s_db s3) = db_events (s_db s2) /\ keeps_covered A (s_db s2) (s_db s3) /\
    (t <> TierCovered -> forall x, x ∈ sel -> covered A (re_agent x) (s_db s3) (re_cursor x))) as (Hi3 & Ev3 & K3 & C3).
  { destruct (retentionIntervals_spec sel (selected_range _ _ _ _ _ Hi Hsel)) as [Hiv Hjoin].
    destruct Hrec as [[-> ->]|[w Hrec]]; [by split_and!|].
    destruct (record_intervals_good A _ now _ s2 w s3 Hiv Hrec Hi) as (? & ? & ? & Hcv). split_and!; auto.
    intros _ x Hx. destruct (proj2 (Hjoin (re_agent x) (re_cursor x))) as (r & Hr & Hin); [eauto|]. by eapply Hcv. }
  assert (keeps_explained A (s_db s2) (s_db s3)) as KE.
  { intros g c [Hs|Hs]; [left; by apply (stored_same _ _ _ _ Ev3) | right; by apply K3]. }
  destruct (delete_good A (s_db s3) (re_id <$> sel)) as [Hi4 K4]; [|done|split; [done | by etransitivity]].
  intros e He Hid. apply list_elem_of_fmap in Hid as (x & Ex & Hx). destruct (Hsel x Hx) as (e0 & He0 & -> & Htier).
  rewrite Ev3 in He. simpl in Ex.
  assert (e = e0) as -> by (eapply (id_inj ev_id); [|exact He|exact He0|done]; apply Hi).
  destruct (decide (t = TierCovered)) as [->|Hne]; [|by apply (C3 Hne _ Hx)].
  apply K3. unfold in_tier in Htier. destruct (db_cursors (s_db s2) !! _); [|done]. simpl in Htier.
  apply retention_covered; [apply Hi | done].
Qed.

(** ** Compaction *)

Lemma scan_history_reads rows : reads (scan_history rows) (fun _ l => l = rows).
Proof.
  induction rows as [|h rows IH]; simpl; [apply reads_ret|].
  eapply reads_weaken; [eapply reads_bind; [apply reads_parseTime | intros; eapply reads_bind; [exact IH | intros; apply reads_ret]]|].
  by intros d v (_ & _ & l & -> & ->).
Qed.

Lemma loadCoverageHistory_reads table A cutoff pressure :
  reads (loadCoverageHistory julianday text_length time_length table A cutoff pressure)
    (fun d l => forall h, h ∈ l ->
       match table with
       | HistoryClaims => exists r, r ∈ db_claims d /\ rh_id h = cm_id r /\ claim_compactable A d r = true
       | HistoryCoverage => exists r, r ∈ db_coverage d /\ rh_id h = cv_id r /\ coverage_compactable A d r = true
       end).
Proof.
  unfold loadCoverageHistory.
  eapply reads_weaken; [eapply reads_bind; [apply reads_query | intros; apply scan_history_reads]|].
  intros d l (rows & -> & ->) h Hh. unfold history_rows in Hh. apply subseteq_take, list_elem_of_In in Hh.
  rewrite <- list_elem_of_In, (sort_by_perm (history_less julianday)), list_elem_of_filter in Hh. destruct Hh as [_ Hh].
  destruct table; apply list_elem_of_fmap in Hh as (r & -> & Hr); apply list_elem_of_filter in Hr as [? ?]; exists r; auto.
Qed.

Lemma newest_revision_le g d rev : (forall r, r ∈ db_claims d -> cm_agent r = g -> cm_revision r <= rev) ->
  (exists r, r ∈ db_claims d /\ cm_agent r = g) -> newest_revision g d <= rev.
Proof.
  intros H (r0 & Hr0 & Hg0). unfold newest_revision. destruct (maximum _) as [m|] eqn:E.
  2: { apply maximum_none, fmap_nil_inv in E. assert (r0 ∈ filter (fun r => cm_agent r = g) (db_claims d)) as Hin
         by by apply list_elem_of_filter. rewrite E in Hin. by apply not_elem_of_nil in Hin. }
  simpl.
  apply maximum_spec in E as [Hm _]. apply list_elem_of_fmap in Hm as (r & -> & Hr). apply list_elem_of_filter in Hr as [? ?]. auto.
Qed.

(** Claims older than an Agent's newest are never the ones in effect. *)
Lemma delete_claims_good A d (ids : list Z) :
  (forall id, id ∈ ids -> exists r, r ∈ db_claims d /\ id = cm_id r /\ claim_compactable A d r = true) ->
  good_tx A d (upd_claims (filter (fun r => cm_id r ∉ ids)) d).
Proof.
  intros Hids Hi. pose proof Hi as [[Hr He Hl Ha] Hc Hei Hci Hvi Hrev Hgap]. split; [|by intros g c]. split; simpl; auto.
  - by split.
  - unfold claims_ok in *. simpl. rewrite Forall_forall in *. intros r [_ Hr']%list_elem_of_filter. auto.
  - by apply NoDup_fmap_filter.
  - intros r [_ Hr']%list_elem_of_filter. auto.
  - intros g r c Hr' Hg Hcov. destruct (Hgap g r c Hr' Hg Hcov) as (st & x & Hst & Hx & Hcc). exists st, x. split; [done|]. split; [|done].
    unfold claims_of in *. apply list_elem_of_filter in Hx as [[Hag Hrv] Hx]. apply list_elem_of_filter. split; [done|].
    simpl. apply list_elem_of_filter. split; [|done]. intros (y & Hy & Ey & Hcomp)%Hids.
    assert (y = x) as -> by (eapply (id_inj cm_id); eauto).
    unfold claim_compactable in Hcomp. rewrite Hag, Hst in Hcomp. destruct (st_ack st); [|done]. bool_to_prop.
    assert (newest_revision g d <= st_revision st) as Hle; [|lia]. apply newest_revision_le; [|by exists x].
    intros z Hz Hzg. destruct (Hrev z Hz) as (st' & Hst' & ?). rewrite Hzg in Hst'. rewrite Hst in Hst'. injection Hst' as <-. lia.
Qed.

Lemma delete_coverage_good A d (ids : list Z) :
  (forall id, id ∈ ids -> exists r, r ∈ db_coverage d /\ id = cv_id r /\ coverage_compactable A d r = true) ->
  good_tx A d (upd_coverage (filter (fun r => cv_id r ∉ ids)) d).
Proof.
  intros Hids Hi. pose proof Hi as [[Hr He Hl Ha] Hc Hei Hci Hvi Hrev Hgap].
  assert (forall r, r ∈ filter (fun r => cv_id r ∉ ids) (db_coverage d) -> r ∈ db_coverage d) as Hsub
    by (intros r [_ ?]%list_elem_of_filter; done).
  split.
  - split; simpl; auto.
    + split; simpl; auto; [|intros r Hr'; by apply Hl, Hsub]. unfold rows_ok in *. simpl. rewrite Forall_forall in *. auto.
    + by apply NoDup_fmap_filter.
    + intros g r c Hr' Hg Hcov. by apply (Hgap g r c (Hsub r Hr')).
  - intros g c [?|(r & Hr' & Hh & Hcov)]; [by left|]. right. exists r. split; [|done]. simpl. apply list_elem_of_filter. split; [|done].
    intros (y & Hy & Ey & Hcomp)%Hids. assert (y = r) as -> by (eapply (id_inj cv_id); eauto).
    unfold coverage_compactable in Hcomp. destruct Hh as [(_ & _ & _ & Hres) _]. rewrite Hres in Hcomp.
    by destruct (db_cursors d !! _).
Qed.

Lemma compact_good A table plan pressure usage s v s' :
  compact table A plan pressure usage s = (Ok v, s') -> good_tx A (s_db s) (s_db s').
Proof.
  unfold compact_batch. intros E. step_ok E u s1 E1.
  apply (reads_ok _ _ _ _ _ (requireCurrentArchive_reads A)) in E1 as [[D1 _] _].
  step_ok E cands s2 E2. apply (reads_ok _ _ _ _ _ (loadCoverageHistory_reads _ _ _ _)) in E2 as [[D2 _] Hc]. rewrite D1 in D2, Hc.
  cbv zeta in E. set (sel := select_loop rh_at rh_bytes plan pressure usage cands) in *.
  assert (forall id, id ∈ rh_id <$> sel -> exists h, h ∈ cands /\ id = rh_id h) as Hsel.
  { intros id Hid. apply list_elem_of_fmap in Hid as (h & -> & Hh). exists h. split; [by eapply select_loop_elem | done]. }
  step_ok E w s3 E3. injection E as _ <-. apply delete_history_ok in E3. rewrite D2 in E3.
  destruct table; rewrite E3; [apply delete_claims_good | apply delete_coverage_good];
    (intros id (h & Hh & ->)%Hsel; destruct (Hc h Hh) as (r & ? & -> & ?); eauto).
Qed.

(** ** Runs of the store *)

Inductive audit_step :=
| AuEstablish (g : string) (start : Cursor) (reason : string) (now : time)
| AuSnapshot (snapshot : CoverageSnapshot) (now : time)
| AuIngest (g : string) (events : list Event) (next : Cursor) (now : time)
| AuAck (g : string) (proposed : Cursor) (rev : Z) (now : time)
| AuRegress (g : string) (proposed resumedAt : Cursor) (reason : string) (now : time)
| AuRetain (t : tier) (plan : RetentionPlan) (pressure : bool) (usage : Z) (now : time)
| AuCompact (table : HistoryTable) (plan : RetentionPlan) (pressure : bool) (usage : Z).

Definition audit_run (A : string) (x : audit_step) : storeM unit :=
  match x with
  | AuEstablish g start reason now => EstablishCoverageStart A g start reason now
  | AuSnapshot snapshot now => ApplyCoverageSnapshot A snapshot now ;;; ret tt
  | AuIngest g events next now => Ingest A g events next now ;;; ret tt
  | AuAck g proposed rev now => CheckAndAdvanceACK A g proposed rev now ;;; ret tt
  | AuRegress g proposed resumedAt reason now => RecordCursorRegression A g proposed resumedAt reason now ;;; ret tt
  | AuRetain t plan pressure usage now =>
    withImmediate (batch A plan now (tier_acked t) (tier_covered t) (tier_reason t) pressure usage) ;;; ret tt
  | AuCompact table plan pressure usage => withImmediate (compact table A plan pressure usage) ;;; ret tt
  end.

(** Agents report unsigned sequences, and a later report still claims what took
    effect of the earlier ones. *)
Definition audit_step_ok (A : string) (d : database) (x : audit_step) : Prop :=
  match x with AuSnapshot snapshot _ => snapshot_wf snapshot /\ snapshot_grows A d snapshot | _ => True end.

Inductive audit_runs (A : string) (s : auditStore) : auditStore -> Prop :=
| audit_runs_refl : audit_runs A s s
| audit_runs_step s1 x : audit_runs A s s1 -> audit_step_ok A (s_db s1) x -> audit_runs A s (audit_run A x s1).2.

(** A database whose tables are empty. *)
Definition audit_fresh (s : auditStore) : Prop :=
  db_events (s_db s) = [] /\ db_claims (s_db s) = [] /\ db_coverage (s_db s) = [] /\ db_cursors (s_db s) = ∅.

Lemma audit_fresh_inv A s : audit_fresh s -> store_inv A (s_db s).
Proof.
  intros (He & Hc & Hv & Hk). split; unfold claims_ok; rewrite ?He, ?Hc, ?Hv; try constructor.
  - unfold rows_ok. rewrite Hv. constructor.
  - unfold events_ok. rewrite He. constructor.
  - rewrite Hv. by intros r ?%not_elem_of_nil.
  - intros k st ack. by rewrite Hk, lookup_empty.
  - by intros r ?%not_elem_of_nil.
  - by intros g r c ?%not_elem_of_nil.
Qed.

Lemma then_db {B C} (m : storeM B) (v : C) s : s_db ((m ;;; ret v) s).2 = s_db (m s).2.
Proof. unfold bind. by destruct (m s) as [[b|e] s']. Qed.

Lemma audit_run_good A x s : audit_step_ok A (s_db s) x -> good_tx A (s_db s) (s_db (audit_run A x s).2).
Proof.
  intros Hok. destruct x; cbn [audit_run]; rewrite ?then_db.
  - apply Establish_good.
  - destruct Hok. by apply Snapshot_good.
  - apply Ingest_good.
  - apply Ack_good.
  - apply Regression_good.
  - apply good_tx_immediate. intros s1 v s2. apply batch_good.
  - apply good_tx_immediate. intros s1 v s2. apply compact_good.
Qed.

Lemma audit_runs_good A s s' : audit_runs A s s' -> good_tx A (s_db s) (s_db s').
Proof.
  induction 1 as [|s1 x H IH Hok]; [apply good_tx_refl|]. eapply good_tx_trans; [exact IH | by apply audit_run_good].
Qed.

(** [C29] The Server never forgets what it answered for. From an empty database,
    through any transactions with any statements failing, suppose the Server
    advances an Agent's acknowledgement; then after any further transactions -
    ingest, snapshots, retention, compaction, regressions, failed ones included -
    every cursor that acknowledgement answered for is still a stored event or
    covered by an effective ledger entry. Of the Agent's coverage snapshots it is
    supposed that their numbers are unsigned 64-bit integers and that a snapshot
    still claims what took effect of the earlier ones, as an Agent's log does, which
    never forgets a recorded loss; the order in which they arrive and which of them
    are applied is free. *)
Theorem acked_forever A s0 s g proposed rev now s1 s' :
  audit_fresh s0 -> audit_runs A s0 s -> CheckAndAdvanceACK A g proposed rev now s = (Ok (mkACKResult true proposed), s1) ->
  audit_runs A s1 s' ->
  exists st lower, db_cursors (s_db s) !! (A, g) = Some st /\ lower_cursor <$> lower_bound A g (s_db s) = Some lower /\
    forall c, answered A g (s_db s) (ack_from lower (st_ack st)) proposed c -> explained A g (s_db s') c.
Proof.
  intros Hf H1 E H2. destruct (audit_runs_good A s0 s H1 (audit_fresh_inv A s0 Hf)) as [Hi _].
  pose proof (Ack_good A g proposed rev now s Hi) as [Hi1 K1]. rewrite E in Hi1, K1. simpl in Hi1, K1.
  destruct (audit_runs_good A s1 s' H2 Hi1) as [_ K2].
  apply ack_advanced in E as (_ & st & Hst & _ & _ & _ & lower & Hl & Hex); [|apply Hi].
  exists st, lower. split_and!; auto.
Qed.
End Retention.
