(* ===== verification/AuditHeld.v ===== *)
(** * The audit store: what the Server keeps on its own

    A cursor is [held] when the Server stores its event or accounts for it by a
    ledger entry of its own - retention or regression -, whatever the Agent's
    claims say. No transaction, and no Agent, makes the Server let go of a held
    cursor. *)

From S2P Require Import Prelude Cursor AuditStore AuditStoreSpec AuditStoreInv AuditRetention.

Definition own_entry (A g : string) (d : database) (c : Cursor) : Prop :=
  exists r, r ∈ db_coverage d /\ is_hole A g r /\ cv_source r <> SourceAgentGap /\ covers r c.

Definition held (A g : string) (d : database) (c : Cursor) : Prop := stored g d c \/ own_entry A g d c.

Definition keeps_held (A : string) (d d' : database) : Prop := forall g c, held A g d c -> held A g d' c.

#[export] Instance keeps_held_pre A : PreOrder (keeps_held A).
Proof. split; [by intros d g c | intros d1 d2 d3 H1 H2 g c Hc; by apply H2, H1]. Qed.

(** ** Transactions that only add *)

(** Events and the Server's own entries stay as they are. *)
Definition adds (s s' : auditStore) : Prop :=
  (forall e, e ∈ db_events (s_db s) -> e ∈ db_events (s_db s')) /\
  (forall r, r ∈ db_coverage (s_db s) -> cv_source r <> SourceAgentGap -> r ∈ db_coverage (s_db s')).

#[export] Instance adds_pre : PreOrder adds.
Proof. split; [by intros s | intros s1 s2 s3 [E1 R1] [E2 R2]; split; auto]. Qed.

Lemma adds_held A s s' : adds s s' -> keeps_held A (s_db s) (s_db s').
Proof.
  intros [HE HR] g c [(e & He & Hx)|(r & Hr & Hh & Hs & Hc)]; [left; exists e; auto | right; exists r; auto].
Qed.

Create HintDb adds discriminated.

Lemma adds_same s s' : s_db s' = s_db s -> adds s s'.
Proof. intros E. unfold adds. by rewrite E. Qed.

Lemma adds_reads {B} (m : storeM B) P : reads m P -> moves adds m.
Proof. intros H s. destruct (H s) as [[E _] _]. by apply adds_same. Qed.

Lemma adds_exec f : (forall d, (forall e, e ∈ db_events d -> e ∈ db_events (f d)) /\
    (forall r, r ∈ db_coverage d -> cv_source r <> SourceAgentGap -> r ∈ db_coverage (f d))) -> moves adds (exec f).
Proof.
  intros Hf s. destruct (exec f s) as [[u|e] s'] eqn:E; simpl.
  - apply exec_ok in E as [E _]. unfold adds. rewrite E. apply Hf.
  - apply adds_same. unfold exec, bind in E. pose proof (reads_sql s) as [[H _] _]. destruct (sql s) as [[v|e'] s1]; [done|].
    by injection E as _ <-.
Qed.

Lemma adds_immediate {B} (m : storeM B) : moves adds m -> moves adds (withImmediate m).
Proof.
  intros Hm s. destruct (withImmediate m s) as [[v|e] s'] eqn:E; simpl.
  - apply withImmediate_ok in E as (s1 & s2 & [D1 _] & E & [D2 _]). specialize (Hm s1). rewrite E in Hm. simpl in Hm.
    unfold adds in *. by rewrite D2, <- D1.
  - apply withImmediate_err in E. by apply adds_same.
Qed.

Lemma adds_cursors f : moves adds (exec (upd_cursors f)).
Proof. by apply adds_exec. Qed.
Lemma adds_claims f : moves adds (exec (upd_claims f)).
Proof. by apply adds_exec. Qed.
Lemma adds_insert_coverage mk : moves adds (insert_coverage mk).
Proof. apply adds_exec. intros d. split; [done|]. intros r Hr _. simpl. apply elem_of_app. by left. Qed.

Lemma adds_ret {B} (v : B) : moves adds (ret v : storeM B).
Proof. intros s. simpl. reflexivity. Qed.
Lemma adds_fail {B} e : moves adds (fail e : storeM B).
Proof. intros s. simpl. reflexivity. Qed.
Lemma adds_runtime A g f : moves adds (upd_runtime A g f).
Proof. intros s. by apply adds_same. Qed.
Lemma adds_bind {B C} (m : storeM B) (f : B -> storeM C) : moves adds m -> (forall b, moves adds (f b)) -> moves adds (bind m f).
Proof. apply moves_bind. apply _. Qed.
Lemma adds_if {B} (b : bool) (m1 m2 : storeM B) : moves adds m1 -> moves adds m2 -> moves adds (if b then m1 else m2).
Proof. by destruct b. Qed.

#[export] Hint Resolve adds_ret adds_fail adds_runtime adds_if adds_bind adds_immediate adds_cursors adds_claims adds_insert_coverage : adds.
#[export] Hint Extern 1 (moves adds (query _)) => (eapply adds_reads, reads_query) : adds.
#[export] Hint Extern 1 (moves adds (loadCursorState _ _)) => (eapply adds_reads, loadCursorState_reads) : adds.

Lemma adds_Establish A g start reason now : moves adds (EstablishCoverageStart A g start reason now).
Proof.
  apply adds_if; [apply adds_fail|]. apply adds_immediate. apply adds_bind; [eapply adds_reads, reads_query|].
  unfold ensureCursorRow. intros [r|]; auto with adds.
Qed.

Lemma adds_recompute A g now : moves adds (recomputeEffective A g now).
Proof.
  apply adds_bind; [eapply adds_reads, loadCursorState_reads|]. intros st.
  apply adds_bind; [unfold loadLatestClaims; auto with adds|]. intros [claims unknown].
  apply adds_bind; [eapply adds_reads, desired_gaps_reads|]. intros gaps.
  apply adds_bind; [unfold loadCurrentEffective; auto with adds|]. intros current. apply adds_if; [apply adds_ret|].
  apply adds_bind.
  - apply adds_exec. intros d. split; [done|]. intros r Hr Hs. simpl. apply list_elem_of_fmap. exists r. split; [|done].
    rewrite decide_False; [done|]. by intros [_ [_ ?]].
  - intros _. induction (sortDesired _) as [|e l IH]; simpl; auto with adds.
Qed.

Lemma adds_insert_event g e : moves adds (insert_event g e).
Proof.
  apply adds_bind; [eapply adds_reads, reads_sql|]. intros _ s. unfold bind, gets. simpl.
  destruct (find_event _ _ _); simpl; [reflexivity|]. split; simpl; [|done]. intros x Hx. apply elem_of_app. by left.
Qed.

Lemma adds_Ingest A g l next now : moves adds (Ingest A g l next now).
Proof.
  unfold Ingest. apply adds_if; [apply adds_fail|]. apply adds_if; [apply adds_fail|]. apply adds_bind.
  - apply adds_immediate. apply adds_bind; [auto with adds|]. intros st. apply adds_if; [apply adds_fail|].
    apply adds_bind; [|intros counts; unfold set_cursor; eauto using adds_recompute with adds].
    generalize 0 at 1. generalize 0. induction l as [|e l IH]; intros dup i; cbn [ingest_events]; [apply adds_ret|].
    apply adds_bind; [apply adds_insert_event|]. intros []; [done|]. apply adds_bind; [eapply adds_reads, verifyDuplicate_reads|]. done.
  - intros [i dup]. auto with adds.
Qed.

Lemma adds_Snapshot A snapshot now : moves adds (ApplyCoverageSnapshot A snapshot now).
Proof.
  unfold ApplyCoverageSnapshot. apply adds_if; [apply adds_fail|]. apply adds_if; [apply adds_fail|]. apply adds_bind.
  - apply moves_attempt, adds_immediate. apply adds_bind; [auto with adds|]. intros st. apply adds_if; [apply adds_fail|].
    apply adds_if; [unfold snapshotEqualsRevision; auto with adds|]. apply adds_bind.
    + induction (_ ++ _) as [|mk l IH]; simpl; [apply adds_ret|]. unfold insert_claim. auto with adds.
    + intros _. unfold set_cursor. auto using adds_recompute with adds.
  - intros [v|[]]; auto with adds; intros s; reflexivity.
Qed.

Lemma adds_Ack A g proposed rev now : moves adds (CheckAndAdvanceACK A g proposed rev now).
Proof.
  unfold CheckAndAdvanceACK. apply adds_if; [apply adds_fail|]. apply adds_bind.
  - apply moves_attempt, adds_immediate. apply adds_bind; [auto with adds|]. intros st. apply adds_if; [apply adds_fail|].
    assert (moves adds (check_explained A g st proposed ;;; set_cursor A g (with_ack proposed rev now) ;;; ret true)) as H.
    { apply adds_bind; [|intros _; unfold set_cursor; auto with adds]. unfold check_explained.
      destruct (st_next st); [|apply adds_fail]. apply adds_if; [apply adds_fail|]. apply adds_bind; [|auto with adds].
      eapply adds_reads, unexplainedACKRanges_reads. }
    destruct (st_ack st); auto with adds.
  - intros [[]|[]]; auto with adds.
Qed.

Lemma adds_Regression A g proposed resumedAt reason now : moves adds (RecordCursorRegression A g proposed resumedAt reason now).
Proof.
  unfold RecordCursorRegression. apply adds_if; [apply adds_fail|]. apply adds_if; [apply adds_fail|].
  apply adds_immediate. apply adds_bind; [auto with adds|]. intros st. apply adds_bind; [eapply adds_reads, lower_bound_reads|].
  intros lower. destruct (st_next st) as [next|]; [|apply adds_ret]. apply adds_if; [apply adds_ret|].
  apply adds_bind; [eapply adds_reads, unexplainedACKRanges_reads|].
  intros rs. induction rs as [|r rs IH]; cbn [record_regressions]; [apply adds_ret|]. apply adds_if; [done|].
  apply adds_bind; [|auto with adds]. unfold insertRegressionGap. apply adds_if; [apply adds_fail|].
  apply adds_bind; [eapply adds_reads, reads_bind_args | auto with adds].
Qed.

(** ** Retention and compaction *)

Definition keeps_own (A : string) (d d' : database) : Prop := forall g c, own_entry A g d c -> own_entry A g d' c.

#[export] Instance keeps_own_pre A : PreOrder (keeps_own A).
Proof. split; [by intros d g c | intros d1 d2 d3 H1 H2 g c Hc; by apply H2, H1]. Qed.

Lemma record_interval_own A g interval reason now s u s' :
  interval_ok interval -> recordRetentionInterval A g interval reason now s = (Ok u, s') -> store_inv A (s_db s) ->
  keeps_own A (s_db s) (s_db s') /\ forall c, in_range interval c -> own_entry A g (s_db s') c.
Proof.
  intros [Hinc Hpos] E Hi. apply record_interval_effect in E as (from & until & Em & _ & D). specialize (D (si_coverage_ids _ _ Hi)).
  destruct (merged_bounds_spec _ _ _ _ Em) as (Hfrom & Huntil & Hrows & _).
  set (f := fun r => if bool_decide (is_touching A g interval reason r) then set_ineffective now r else r) in D.
  set (new := retention_row A g interval from until reason now (next_id cv_id (f <$> db_coverage (s_db s)))).
  assert (db_coverage (s_db s') = (f <$> db_coverage (s_db s)) ++ [new]) as D' by (rewrite D; done). clear D.
  assert (forall c, Incarnation (r_From interval) = Incarnation c -> from <= Seq c < until -> own_entry A g (s_db s') c) as Hnew.
  { intros c Hc1 Hc2. exists new. rewrite D'. split; [apply elem_of_app; right; by left|]. by split_and!. }
  split; [|intros c (Hc1 & _ & Hc2); apply Hnew; [done | lia]].
  intros g' c (r & Hr & Hh & Hs & Hcv). destruct (decide (is_touching A g interval reason r)) as [Ht|Ht].
  - assert (g' = g) as -> by (destruct Ht as [(_ & ? & _) _], Hh as [(_ & ? & _) _]; congruence).
    pose proof (dok_rows _ (si_db _ _ Hi)) as Hok. unfold rows_ok in Hok. rewrite Forall_forall in Hok.
    destruct (touching_covers A g interval reason r c from until Ht (Hok r Hr) Hcv) as [? ?]; [|by apply Hnew].
    apply Hrows. by apply list_elem_of_filter.
  - exists r. rewrite D'. split; [|by split_and!]. apply elem_of_app. left. apply list_elem_of_fmap. exists r. split; [|done].
    unfold f. by rewrite bool_decide_eq_false_2.
Qed.

Lemma record_intervals_own A reason now l s u s' :
  Forall (fun x => interval_ok x.2) l -> record_intervals A reason now l s = (Ok u, s') -> store_inv A (s_db s) ->
  keeps_own A (s_db s) (s_db s') /\ forall g r c, (g, r) ∈ l -> in_range r c -> own_entry A g (s_db s') c.
Proof.
  intros Hl. revert s. induction Hl as [|[g r] l Hr Hl IH]; intros s; simpl.
  - intros [= _ <-] Hi. split; [done|]. by intros g r c ?%not_elem_of_nil.
  - intros H Hi. step_ok H v s1 E. destruct (record_interval_own A g r reason now s v s1 Hr E Hi) as [K1 C1].
    destruct (record_interval_good A g r reason now s v s1 Hr E Hi) as (Hi1 & _). destruct (IH s1 H Hi1) as [K2 C2].
    split; [by etransitivity|]. intros g' r' c [[= -> ->]|Hin]%elem_of_cons Hc; [by apply K2, C1 | by eapply C2].
Qed.

Lemma retention_own A d e :
  rows_ok d -> is_retention_covered A d e = true -> own_entry A (ev_agent e) d (mkCursor (ev_inc e) (ev_seq e)).
Proof.
  intros Hok H. unfold is_retention_covered in H. apply existsb_exists in H as (r & Hr & Hc). apply list_elem_of_In in Hr.
  bool_to_prop. destruct Hc as (Ha & Ht & Hsrc & Hi & Hu & Hs). exists r. split; [done|]. split; [split; [done | by rewrite Ht]|].
  split; [by rewrite Hsrc|]. split; [done|]. simpl. unfold rows_ok in Hok. rewrite Forall_forall in Hok.
  destruct (Hok r Hr (proj1 (proj2 (proj2 Ha)))) as [(_ & _ & Hn & _)|(_ & _ & f & u & Ef & Eu & _)]; [congruence|].
  rewrite Ef, Eu in *. done.
Qed.

Section Retention.
Context (julianday : time -> Z) (text_length : string -> Z) (time_length : time -> Z).
Abbreviation batch := (retention_batch julianday text_length time_length).
Abbreviation compact := (compact_batch julianday text_length time_length).

Lemma batch_held A plan now t pressure usage s v s' :
  batch A plan now (tier_acked t) (tier_covered t) (tier_reason t) pressure usage s = (Ok v, s') ->
  store_inv A (s_db s) -> keeps_held A (s_db s) (s_db s').
Proof.
  intros E Hi. apply batch_run in E as [->|(sel & s2 & s3 & Hsel & D2 & Hrec & ->)]; [done|]. rewrite <- D2 in Hi |- *.
  rewrite <- D2 in Hsel.
  assert (db_events (s_db s3) = db_events (s_db s2) /\ keeps_own A (s_db s2) (s_db s3) /\
    (t <> TierCovered -> forall x, x ∈ sel -> own_entry A (re_agent x) (s_db s3) (re_cursor x))) as (Ev3 & K3 & C3).
  { destruct (retentionIntervals_spec sel (selected_range _ _ _ _ _ _ _ Hi Hsel)) as [Hiv Hjoin].
    destruct Hrec as [[-> ->]|[w Hrec]]; [by split_and!|].
    destruct (record_intervals_good A _ now _ s2 w s3 Hiv Hrec Hi) as (_ & ? & _).
    destruct (record_intervals_own A _ now _ s2 w s3 Hiv Hrec Hi) as [? Hcv]. split_and!; auto.
    intros _ x Hx. destruct (proj2 (Hjoin (re_agent x) (re_cursor x))) as (r & Hr & Hin); [eauto|]. by eapply Hcv. }
  intros g c [(e & He & Hev)|Ho]; [|right; by apply K3]. destruct (decide (ev_id e ∈ re_id <$> sel)) as [Hid|Hid].
  2: { left. exists e. split; [|done]. simpl. apply list_elem_of_filter. by rewrite Ev3. }
  right. apply list_elem_of_fmap in Hid as (x & Ex & Hx). destruct (Hsel x Hx) as (e0 & He0 & -> & Htier). simpl in Ex.
  assert (e = e0) as -> by (eapply (id_inj ev_id); [|exact He|exact He0|done]; apply Hi).
  assert (own_entry A (ev_agent e0) (s_db s3) (mkCursor (ev_inc e0) (ev_seq e0))) as Hown.
  { destruct (decide (t = TierCovered)) as [->|Hne]; [|by apply (C3 Hne _ Hx)].
    apply K3. unfold in_tier in Htier. destruct (db_cursors (s_db s2) !! _); [|done]. simpl in Htier.
    apply retention_own; [apply Hi | done]. }
  destruct Hev as (<- & Hinc & Hseq). rewrite Hinc, Hseq in Hown. by destruct c.
Qed.

Lemma compact_held A table plan pressure usage s v s' :
  compact table A plan pressure usage s = (Ok v, s') -> store_inv A (s_db s) -> keeps_held A (s_db s) (s_db s').
Proof.
  intros E Hi. unfold compact_batch in E. step_ok E u s1 E1. apply (reads_ok _ _ _ _ _ (requireCurrentArchive_reads A)) in E1 as [[D1 _] _].
  step_ok E cands s2 E2. apply (reads_ok _ _ _ _ _ (loadCoverageHistory_reads _ _ _ _ _ _ _)) in E2 as [[D2 _] Hc]. rewrite D1 in D2, Hc.
  cbv zeta in E. step_ok E w s3 E3. injection E as _ <-. apply delete_history_ok in E3. rewrite D2 in E3.
  destruct table; rewrite E3; [by intros g c|]. intros g c [?|(r & Hr & Hh & Hs & Hcv)]; [by left|]. right. exists r.
  split; [|done]. simpl. apply list_elem_of_filter. split; [|done]. intros Hid. apply list_elem_of_fmap in Hid as (h & Eid & Hh').
  apply select_loop_elem, Hc in Hh' as (r' & Hr' & Eid' & Hcomp).
  assert (r' = r) as -> by (eapply (id_inj cv_id); [apply Hi | done | done | congruence]).
  unfold coverage_compactable in Hcomp. destruct Hh as [(_ & _ & _ & Hres) _]. rewrite Hres in Hcomp. by destruct (db_cursors _ !! _).
Qed.

Lemma immediate_held A {B} (m : storeM B) s :
  (forall s v s', m s = (Ok v, s') -> store_inv A (s_db s) -> keeps_held A (s_db s) (s_db s')) ->
  store_inv A (s_db s) -> keeps_held A (s_db s) (s_db (withImmediate m s).2).
Proof.
  intros Hm Hi. destruct (withImmediate m s) as [[v|e] s'] eqn:E; simpl.
  - apply withImmediate_ok in E as (s1 & s2 & [D1 _] & E & [D2 _]). rewrite D2, <- D1 in *. by eapply Hm.
  - apply withImmediate_err in E. by rewrite E.
Qed.

(** Every transaction of the store keeps what is held, whatever it is asked. *)
Lemma audit_run_held A x s :
  store_inv A (s_db s) -> keeps_held A (s_db s) (s_db (audit_run julianday text_length time_length A x s).2).
Proof.
  intros Hi. destruct x; cbn [audit_run]; rewrite ?then_db.
  - apply adds_held, adds_Establish.
  - apply adds_held, adds_Snapshot.
  - apply adds_held, adds_Ingest.
  - apply adds_held, adds_Ack.
  - apply adds_held, adds_Regression.
  - apply immediate_held; [intros ? ? ?; apply batch_held | done].
  - apply immediate_held; [intros ? ? ?; apply compact_held | done].
Qed.

(** Agents report unsigned sequences. *)
Definition audit_step_wf (x : audit_step) : Prop := match x with AuSnapshot snapshot _ => snapshot_wf snapshot | _ => True end.

Lemma audit_run_inv A x s :
  audit_step_wf x -> store_inv A (s_db s) -> store_inv A (s_db (audit_run julianday text_length time_length A x s).2).
Proof.
  intros Hw Hi. assert ((exists snapshot now, x = AuSnapshot snapshot now) \/ forall d, audit_step_ok A d x) as [(snapshot & now & ->)|Hn]
    by (destruct x; eauto; by right).
  - cbn [audit_run]. rewrite then_db. by apply Snapshot_inv.
  - by apply audit_run_good.
Qed.
End Retention.
