(* ===== verification/AuditEnforce.v ===== *)
(** * The audit store: the retention executor

    [EnforceRetention] as a whole: its rounds end, and every round keeps the
    store's invariant and everything the ledger explains. *)

From S2P Require Import Prelude Cursor AuditStore AuditStoreSpec AuditStoreInv AuditRetention.

(** ** Runs that do not exhaust their rounds *)

Definition no_fuel {A} (m : storeM A) : Prop := forall s, (m s).1 <> Err StoreFuel.

Create HintDb no_fuel discriminated.

Section NoFuel.
Context {A B : Type}.

Lemma nf_ret (v : A) : no_fuel (ret v).
Proof. done. Qed.
Lemma nf_bind (m : storeM A) (f : A -> storeM B) : no_fuel m -> (forall a, no_fuel (f a)) -> no_fuel (bind m f).
Proof.
  intros Hm Hf s. specialize (Hm s). unfold bind. destruct (m s) as [[a|e] s1]; [apply Hf|]. simpl in *. congruence.
Qed.
Lemma nf_reads (m : storeM A) P : reads m P -> no_fuel m.
Proof.
  intros H s E. destruct (m s) as [r s'] eqn:Em. simpl in E. subst r.
  apply (reads_err _ _ _ _ _ H) in Em as [_ Em]. by destruct Em as [?|[?|?]].
Qed.
Lemma nf_immediate (m : storeM A) : no_fuel m -> no_fuel (withImmediate m).
Proof.
  intros Hm s E. destruct (withImmediate m s) as [r s'] eqn:Em. simpl in E. subst r.
  apply withImmediate_cause in Em as [?|(s1 & _ & Em)]; [done | by apply (Hm s1)].
Qed.
End NoFuel.

Lemma nf_exec f : no_fuel (exec f).
Proof. apply nf_bind; [eapply nf_reads, reads_sql | done]. Qed.

#[export] Hint Resolve nf_ret nf_bind nf_immediate nf_exec : no_fuel.

Lemma nf_resolve_rows now ids : no_fuel (resolve_rows now ids).
Proof. induction ids; simpl; auto with no_fuel. Qed.

Lemma nf_record_interval A g r reason now : no_fuel (recordRetentionInterval A g r reason now).
Proof.
  apply nf_bind; [eapply nf_reads, reads_bind_args|]. intros _. apply nf_bind; [eapply nf_reads, reads_query|]. intros rows.
  destruct (merged_bounds r rows). apply nf_bind; [apply nf_resolve_rows|]. intros _. apply nf_exec.
Qed.

Lemma nf_record_intervals A reason now l : no_fuel (record_intervals A reason now l).
Proof. induction l as [|[g r] l IH]; simpl; auto using nf_record_interval with no_fuel. Qed.

Lemma nf_delete_events ids : no_fuel (delete_events ids).
Proof. induction ids; simpl; auto with no_fuel. Qed.

Lemma nf_delete_history table ids : no_fuel (delete_history table ids).
Proof. induction ids; simpl; auto with no_fuel. Qed.

(** A run of [m]: it keeps the invariant and the explained cursors, and ends
    for another reason than its rounds. *)
Definition sound (A : string) {B} (m : storeM B) : Prop := no_fuel m /\ forall s, good_tx A (s_db s) (s_db (m s).2).

Create HintDb sound discriminated.

Lemma sound_ret A {B} (v : B) : sound A (ret v).
Proof. split; [done | intros s; apply good_tx_refl]. Qed.
Lemma sound_gets A {B} (f : auditStore -> B) : sound A (gets f).
Proof. split; [done | intros s; apply good_tx_refl]. Qed.
Lemma sound_reads A {B} (m : storeM B) P : reads m P -> sound A m.
Proof.
  intros H. split; [by eapply nf_reads|]. intros s. destruct (H s) as [[D _] _]. rewrite D. apply good_tx_refl.
Qed.
Lemma sound_bind A {B C} (m : storeM B) (f : B -> storeM C) : sound A m -> (forall b, sound A (f b)) -> sound A (bind m f).
Proof.
  intros [N1 G1] H. split; [apply nf_bind; [done | intros b; apply H]|]. intros s. unfold bind. specialize (G1 s).
  destruct (m s) as [[b|e] s1]; [|done]. eapply good_tx_trans; [exact G1 | apply H].
Qed.
Lemma sound_if A {B} (b : bool) (m1 m2 : storeM B) : sound A m1 -> sound A m2 -> sound A (if b then m1 else m2).
Proof. by destruct b. Qed.
Lemma sound_immediate A {B} (m : storeM B) :
  no_fuel m -> (forall s v s', m s = (Ok v, s') -> good_tx A (s_db s) (s_db s')) -> sound A (withImmediate m).
Proof. intros N H. split; [by apply nf_immediate | intros s; by apply good_tx_immediate]. Qed.

#[export] Hint Resolve sound_ret sound_gets sound_bind sound_if : sound.

Section Enforce.
Context (julianday : time -> Z) (text_length : string -> Z) (time_length : time -> Z).
Abbreviation usage_of := (ArchiveUsage julianday text_length time_length).
Abbreviation batch := (retention_batch julianday text_length time_length).
Abbreviation compact := (compact_batch julianday text_length time_length).
Abbreviation tier_loop := (deleteEventTier julianday text_length time_length).
Abbreviation compact_loop := (compact_table julianday text_length time_length).

Lemma reads_then {B C} (m : storeM B) (f : B -> storeM C) P :
  reads m P -> (forall b, reads (f b) (fun _ _ => True)) -> reads (bind m f) (fun _ _ => True).
Proof. intros Hm Hf. eapply reads_weaken; [eapply reads_bind; [exact Hm | exact Hf]|]. done. Qed.

Lemma reads_any {B} (m : storeM B) P : reads m P -> reads m (fun _ _ => True).
Proof. intros H. by eapply reads_weaken. Qed.

Lemma usage_reads A now : reads (usage_of A now) (fun _ _ => True).
Proof.
  unfold ArchiveUsage. apply reads_if; [eapply reads_any; apply reads_fail; by left|].
  eapply reads_then; [apply reads_query | intros events]. eapply reads_then; [apply reads_query | intros oldest].
  eapply reads_then with (P := fun _ _ => True); [destruct oldest; eauto using reads_any, reads_parseTime, reads_ret | intros at_].
  eapply reads_then; [apply reads_query | intros claims]. eapply reads_then; [apply reads_query | intros coverage].
  eapply reads_any, reads_ret.
Qed.

(** ** One round of a tier *)

Lemma nf_batch A plan now acked covered reason pressure usage : no_fuel (batch A plan now acked covered reason pressure usage).
Proof.
  apply nf_bind; [eapply nf_reads, requireCurrentArchive_reads | intros _].
  apply nf_bind; [eapply nf_reads, loadRetentionEvents_reads | intros cands]. destruct (select_loop _ _ _ _ _ _); [apply nf_ret|].
  apply nf_bind; [destruct (str_empty reason); [apply nf_ret | apply nf_record_intervals] | intros _].
  apply nf_bind; [apply nf_delete_events | intros _; apply nf_ret].
Qed.

Lemma nf_compact table A plan pressure usage : no_fuel (compact table A plan pressure usage).
Proof.
  apply nf_bind; [eapply nf_reads, requireCurrentArchive_reads | intros _].
  apply nf_bind; [eapply nf_reads, loadCoverageHistory_reads | intros cands].
  apply nf_bind; [apply nf_delete_history | intros _; apply nf_ret].
Qed.

Lemma filter_shrinks {B} (id : B -> Z) (ids : list Z) rows r :
  r ∈ rows -> id r ∈ ids -> (length (filter (fun x => id x ∉ ids) rows) < length rows)%nat.
Proof.
  intros Hr Hid. induction rows as [|x rows IH]; [by apply not_elem_of_nil in Hr|].
  pose proof (length_filter (fun x => id x ∉ ids) rows) as Hle. rewrite filter_cons. apply elem_of_cons in Hr as [->|Hr].
  - rewrite decide_False by (intros H; by apply H). simpl. lia.
  - specialize (IH Hr). destruct (decide _); simpl; lia.
Qed.

Lemma record_intervals_events A reason now l s u s' :
  record_intervals A reason now l s = (Ok u, s') -> db_events (s_db s') = db_events (s_db s).
Proof.
  revert s. induction l as [|[g r] l IH]; intros s; simpl; [by intros [= _ <-]|]. intros H. step_ok H v s1 E.
  rewrite (IH _ H). clear IH H. unfold recordRetentionInterval in E. step_ok E v1 s2 E2.
  apply (reads_ok _ _ _ _ _ (reads_bind_args _)) in E2 as [[D2 _] _]. step_ok E rows s3 E3.
  apply (reads_ok _ _ _ _ _ (reads_query _)) in E3 as [[D3 _] _]. destruct (merged_bounds r rows). step_ok E v2 s4 E4.
  apply resolve_rows_ok in E4. apply exec_ok in E as [D5 _]. rewrite D5, E4. simpl. congruence.
Qed.

(** A round that selected something deleted it. *)
Lemma batch_shrinks A plan now acked covered reason pressure usage s n k s' :
  batch A plan now acked covered reason pressure usage s = (Ok (n, k), s') ->
  n = 0 \/ (length (db_events (s_db s')) < length (db_events (s_db s)))%nat.
Proof.
  unfold retention_batch. intros E. step_ok E u s1 E1. apply (reads_ok _ _ _ _ _ (requireCurrentArchive_reads A)) in E1 as [[D1 _] _].
  step_ok E cands s2 E2. apply (reads_ok _ _ _ _ _ (loadRetentionEvents_reads _ _ _ _ _ _ _ _)) in E2 as [[D2 _] Hc].
  rewrite D1 in D2, Hc. cbv zeta in E. destruct (select_loop re_at re_bytes plan pressure usage cands) as [|x sel] eqn:Es.
  { injection E as <- _ _. by left. }
  right. step_ok E w s3 E3. step_ok E w' s4 E4. injection E as _ _ <-. apply delete_events_ok in E4. rewrite E4. cbn [upd_events db_events].
  assert (db_events (s_db s3) = db_events (s_db s)) as ->.
  { destruct (str_empty reason); [by injection E3 as _ <-; rewrite D2 | rewrite (record_intervals_events _ _ _ _ _ _ _ E3); by rewrite D2]. }
  destruct (Hc x) as (e & He & -> & _); [eapply select_loop_elem; rewrite Es; by left|].
  apply (filter_shrinks ev_id _ _ e He). by left.
Qed.

Definition table_size (table : HistoryTable) (d : database) : nat :=
  match table with HistoryClaims => length (db_claims d) | HistoryCoverage => length (db_coverage d) end.

Lemma compact_shrinks table A plan pressure usage s n s' :
  compact table A plan pressure usage s = (Ok n, s') -> n = 0 \/ (table_size table (s_db s') < table_size table (s_db s))%nat.
Proof.
  unfold compact_batch. intros E. step_ok E u s1 E1. apply (reads_ok _ _ _ _ _ (requireCurrentArchive_reads A)) in E1 as [[D1 _] _].
  step_ok E cands s2 E2. apply (reads_ok _ _ _ _ _ (loadCoverageHistory_reads _ _ _ _ _ _ _)) in E2 as [[D2 _] Hc].
  rewrite D1 in D2, Hc. cbv zeta in E. step_ok E w s3 E3. injection E as <- <-. apply delete_history_ok in E3. rewrite D2 in E3.
  destruct (select_loop rh_at rh_bytes plan pressure usage cands) as [|h sel] eqn:Es; [by left|]. right.
  assert (h ∈ cands) as Hh by (eapply (select_loop_elem rh_at rh_bytes plan pressure usage); rewrite Es; by left).
  specialize (Hc h Hh).
  destruct table; destruct Hc as (r & Hr & Eid & _); rewrite E3; simpl; (eapply filter_shrinks; [exact Hr | rewrite <- Eid; by left]).
Qed.

(** ** The loops *)

(** A round, shared by the tiers and the compaction: it measures the usage and
    may stop, runs a transaction, stops when that selected nothing, and goes on
    otherwise - with a smaller table. *)
Definition ends (A : string) {B} (m : storeM B) (s : auditStore) : Prop :=
  (m s).1 <> Err StoreFuel /\ good_tx A (s_db s) (s_db (m s).2).

Lemma round_ends A now {B C} (size : database -> nat) (m : ArchiveUsage_ -> storeM B) (n : B -> Z) (stop : ArchiveUsage_ -> bool)
    (result : C) (next f : B -> storeM C) s :
  (forall u, sound A (withImmediate (m u))) ->
  (forall u s v s', m u s = (Ok v, s') -> n v = 0 \/ (size (s_db s') < size (s_db s))%nat) ->
  (forall v, f v = if n v =? 0 then ret result else next v) ->
  (forall v s', (size (s_db s') < size (s_db s))%nat -> ends A (next v) s') ->
  ends A (let* u := usage_of A now in if stop u then ret result else let* v := withImmediate (m u) in f v) s.
Proof.
  intros Hm Hn Hf Hnext. unfold ends, bind. pose proof (nf_reads _ _ (usage_reads A now) s) as Nu.
  destruct (usage_reads A now s) as [[D1 _] _].
  destruct (usage_of A now s) as [[u|e] s1]; simpl in *; [|split; [congruence | rewrite D1; apply good_tx_refl]].
  destruct (stop u); [simpl; rewrite D1; split; [done | apply good_tx_refl]|]. destruct (Hm u) as [N G]. specialize (N s1). specialize (G s1).
  rewrite D1 in G. destruct (withImmediate (m u) s1) as [[v|e] s2] eqn:Em; simpl in *; [|split; [congruence | done]].
  rewrite Hf. destruct (n v =? 0) eqn:En; [by split|]. bool_to_prop.
  apply withImmediate_ok in Em as (s3 & s4 & [D3 _] & Em & [D4 _]). apply Hn in Em as [?|Hlt]; [done|].
  rewrite <- D4, D3, D1 in Hlt. destruct (Hnext v s2 Hlt) as [N2 G2]. split; [done | by eapply good_tx_trans].
Qed.

Lemma tier_loop_ends fuel A plan now t result s :
  (length (db_events (s_db s)) < fuel)%nat ->
  ends A (tier_loop fuel A plan now (tier_acked t) (tier_covered t) (tier_reason t) result) s.
Proof.
  revert result s. induction fuel as [|fuel IH]; intros result s Hlen; [lia|]. cbn [deleteEventTier].
  eapply (round_ends A now (fun d => length (db_events d)) _ fst _ _
    (fun v => tier_loop fuel A plan now (tier_acked t) (tier_covered t) (tier_reason t)
                (count_deleted (tier_acked t) (tier_covered t) v.1 v.2 result))).
  - intros u. apply sound_immediate; [apply nf_batch | intros ? ? ?; apply batch_good].
  - intros u s0 [n k] s0'. apply batch_shrinks.
  - by intros [n k].
  - intros v s' Hlt. apply IH. lia.
Qed.

Lemma compact_loop_ends fuel table A plan now result s :
  (table_size table (s_db s) < fuel)%nat -> ends A (compact_loop fuel table A plan now result) s.
Proof.
  revert result s. induction fuel as [|fuel IH]; intros result s Hlen; [lia|]. cbn [compact_table].
  eapply (round_ends A now (table_size table) _ id _ _ (fun n => compact_loop fuel table A plan now (count_compacted n result))).
  - intros u. apply sound_immediate; [apply nf_compact | intros ? ? ?; apply compact_good].
  - intros u s0 n s0'. apply compact_shrinks.
  - done.
  - intros v s' Hlt. apply IH. lia.
Qed.

Lemma run_tier_sound A plan now t result :
  sound A (run_tier julianday text_length time_length A plan now (tier_acked t) (tier_covered t) (tier_reason t) result).
Proof. split; intros s; apply tier_loop_ends; lia. Qed.

Lemma compact_table_sound table A plan now result :
  sound A (let* n := gets (fun s => table_size table (s_db s)) in compact_loop (S n) table A plan now result).
Proof. split; intros s; apply compact_loop_ends; lia. Qed.

Lemma compact_history_sound A plan now result : sound A (compactCoverageHistory julianday text_length time_length A plan now result).
Proof.
  destruct (sound_bind A _ (fun result1 => let* n := gets (fun s => table_size HistoryCoverage (s_db s)) in
    compact_loop (S n) HistoryCoverage A plan now result1) (compact_table_sound HistoryClaims A plan now result)
    (compact_table_sound HistoryCoverage A plan now)) as [N G].
  split; intros s; [exact (N s) | exact (G s)].
Qed.

Lemma enforce_sound A policy now :
  (forall p u, policy = Some p -> p u <> Err StoreFuel) ->
  sound A (EnforceRetention julianday text_length time_length A policy now).
Proof.
  intros Hp. unfold EnforceRetention. apply sound_if; [eapply sound_reads, reads_fail; by left|].
  apply sound_bind; [eapply sound_reads, requireCurrentArchive_reads | intros _].
  apply sound_bind; [eapply sound_reads, usage_reads | intros before].
  apply sound_bind.
  { split; [|intros s; apply good_tx_refl]. intros s. simpl. destruct policy as [p|]; simpl; [by apply Hp|].
    unfold Plan. by case_if. }
  intros plan. apply sound_if; [eapply sound_reads, reads_fail; by left|].
  apply sound_bind; [apply (run_tier_sound A plan now TierACKed) | intros r1].
  apply sound_bind; [apply compact_history_sound | intros r2].
  apply sound_bind; [apply (run_tier_sound A plan now TierCovered) | intros r3].
  apply sound_bind; [apply (run_tier_sound A plan now TierUnACKed) | intros r4].
  apply sound_bind; [eapply sound_reads, usage_reads | intros after]. apply sound_ret.
Qed.

(** [C31] Retention ends and loses nothing silently. With any policy, any
    statements failing and any number of events, [EnforceRetention] returns
    within as many rounds per loop as the table it deletes from has rows; it
    keeps the store's invariant, and every cursor that was a stored event or
    covered by an effective ledger entry before is one of the two after it, also
    when it stops half way with an error. *)
Theorem retention_total A policy now s :
  store_inv A (s_db s) -> (forall p u, policy = Some p -> p u <> Err StoreFuel) ->
  let '(r, s') := EnforceRetention julianday text_length time_length A policy now s in
  r <> Err StoreFuel /\ store_inv A (s_db s') /\ keeps_explained A (s_db s) (s_db s').
Proof.
  intros Hi Hp. destruct (enforce_sound A policy now Hp) as [N G]. specialize (N s). specialize (G s Hi).
  by destruct (EnforceRetention _ _ _ _ _ _ s) as [r s'].
Qed.
End Enforce.
