(* ===== verification/AuditStoreProps.v ===== *)
(** * The audit store: contracts of its operations

    Ingest, cursor regression and the agreement of the two acknowledgement
    checks. *)

From S2P Require Import Prelude Cursor AuditStore AuditStoreSpec AuditStoreInv.

(** ** Cursor regression *)

Definition regression_row (A g reason : string) (now : time) (r : Range) (id : Z) : coverageRow :=
  mkCoverageRow id A g EntryRegression (Incarnation (r_From r)) (Some (Seq (r_From r)))
    (Some (Incarnation (r_Until r))) (Some (Seq (r_Until r))) SourceRegression PrecisionExact true now None (Some reason).

(** The recorded ranges, and the rows they became. *)
Lemma record_regressions_ok A g resumedAt reason now rs s recorded s' :
  record_regressions A g resumedAt reason now rs s = (Ok recorded, s') ->
  recorded = filter (fun r => cursor_le (r_Until r) resumedAt) rs /\
  Forall (fun r => Incarnation (r_From r) = Incarnation (r_Until r)) recorded /\
  exists news, s_db s' = upd_coverage (fun rows => rows ++ news) (s_db s) /\
    Forall2 (fun r row => exists id, row = regression_row A g reason now r id) recorded news.
Proof.
  revert s recorded. induction rs as [|r rs IH]; intros s recorded; cbn [record_regressions].
  - intros [= <- <-]. split; [done|]. split; [constructor|]. exists []. split; [|constructor].
    destruct (s_db s). unfold upd_coverage. simpl. by rewrite app_nil_r.
  - destruct (compareCursor (r_Until r) resumedAt >? 0) eqn:Ec; bool_to_prop; cursor_cases.
    + intros H. rewrite filter_cons_False; [by apply IH|]. cursor_solve.
    + intros H. step_ok H u s1 E1. step_ok H rest s2 E2. injection H as <- <-.
      unfold insertRegressionGap in E1. destruct (negb _) eqn:Ei in E1; [done|]. bool_to_prop. step_ok E1 v s3 E3.
      apply (reads_ok _ _ _ _ _ (reads_bind_args _)) in E3 as [[D3 _] _]. apply exec_ok in E1 as [D1 _]. rewrite D3 in D1.
      apply IH in E2 as (-> & Hf & news & D2 & Hn). rewrite filter_cons_True by done. split; [done|]. split; [by constructor|].
      eexists (_ :: news). split; [|constructor; [|exact Hn]].
      * rewrite D2, D1. unfold upd_coverage. simpl. rewrite <- app_assoc. reflexivity.
      * by eexists.
Qed.

Lemma add_regressions_explained A g d recorded news reason now :
  Forall (fun r => Incarnation (r_From r) = Incarnation (r_Until r)) recorded ->
  Forall2 (fun r row => exists id, row = regression_row A g reason now r id) recorded news ->
  forall c, explained A g (upd_coverage (fun rows => rows ++ news) d) c <-> explained A g d c \/ in_ranges recorded c.
Proof.
  intros Hi Hf c. rewrite Forall_forall in Hi. unfold explained, covered, in_ranges. simpl. setoid_rewrite elem_of_app. split.
  - intros [?|(row & [Hr|Hr] & Hh & Hc)]; [auto | left; right; eauto|]. right.
    apply list_elem_of_lookup in Hr as [i Hr]. destruct (Forall2_lookup_r _ _ _ _ _ Hf Hr) as (r & Hri & id & ->).
    apply list_elem_of_lookup_2 in Hri. exists r. split; [done|]. destruct Hc as [Hc1 Hc2]. simpl in *.
    unfold in_range. rewrite <- (Hi r Hri). auto.
  - intros [[?|(row & ? & ?)]|(r & Hr & Hin)]; [auto | right; eauto|]. right. apply list_elem_of_lookup in Hr as [i Hri].
    destruct (Forall2_lookup_l _ _ _ _ _ Hf Hri) as (row & Hrow & id & ->). eexists. split; [right; by eapply list_elem_of_lookup_2|].
    destruct Hin as (? & ? & ?). by split.
Qed.

Lemma add_regressions_lower A g d recorded news A' g' reason now :
  Forall2 (fun r row => exists id, row = regression_row A' g' reason now r id) recorded news ->
  lower_bound A g (upd_coverage (fun rows => rows ++ news) d) = lower_bound A g d.
Proof.
  intros Hf. unfold lower_bound. simpl. rewrite filter_app.
  assert (filter (is_lower_bound A g) news = []) as ->; [|by rewrite app_nil_r].
  induction Hf as [|r row recorded news (id & ->) _ IH]; [done|]. rewrite filter_cons_False; [done|]. by intros (_ & _ & ? & _).
Qed.

Lemma add_regressions_reached A g d recorded news reason now c :
  Forall (fun r => Incarnation (r_From r) = Incarnation (r_Until r)) recorded ->
  Forall2 (fun r row => exists id, row = regression_row A g reason now r id) recorded news ->
  reached A g (upd_coverage (fun rows => rows ++ news) d) c ->
  reached A g d c \/ exists r, r ∈ recorded /\ Incarnation (r_Until r) = Incarnation c /\ Seq c < Seq (r_Until r).
Proof.
  intros Hi Hf (k & Hk & Hle). unfold known_ends in Hk. simpl in Hk. rewrite omap_app, !elem_of_app in Hk.
  destruct Hk as [Hk|[Hk|Hk]]; [left; exists k; split; [|done]; unfold known_ends; rewrite elem_of_app; auto..|].
  right. apply list_elem_of_omap in Hk as (row & Hrow & E). apply list_elem_of_lookup in Hrow as [i Hrow].
  destruct (Forall2_lookup_r _ _ _ _ _ Hf Hrow) as (r & Hri & id & ->). apply list_elem_of_lookup_2 in Hri.
  case_decide as Hd; [|done]. destruct Hd as [_ Hinc]. simpl in E, Hinc. injection E as <-.
  rewrite Forall_forall in Hi. exists r. rewrite <- (Hi r Hri). split_and!; auto. lia.
Qed.

(** The regression transaction. *)
Lemma Regression_run A g proposed resumedAt reason now s recorded s' :
  store_inv A (s_db s) -> RecordCursorRegression A g proposed resumedAt reason now s = (Ok recorded, s') ->
  valid_proposed proposed /\
  exists st, db_cursors (s_db s) !! (A, g) = Some st /\
  ((recorded = [] /\ s_db s' = s_db s /\ forall next, st_next st = Some next -> ~ cursor_lt proposed next) \/
   exists next rs news, st_next st = Some next /\ cursor_lt proposed next /\
     unexplained_exact A g (s_db s) (st_ack st) proposed next rs /\
     recorded = filter (fun r => cursor_le (r_Until r) resumedAt) rs /\
     Forall (fun r => Incarnation (r_From r) = Incarnation (r_Until r)) recorded /\
     s_db s' = upd_coverage (fun rows => rows ++ news) (s_db s) /\
     Forall2 (fun r row => exists id, row = regression_row A g reason now r id) recorded news).
Proof.
  intros Hi. unfold RecordCursorRegression. destruct (_ || _) eqn:Eb; [done|]. bool_to_prop.
  destruct (negb (validRegressionReason reason)); [done|]. intros E.
  split; [by apply validCursor_proposed|]. apply withImmediate_ok in E as (s1 & s2 & [D1 _] & E & [D2 _]).
  step_ok E st s3 E3. apply (reads_ok _ _ _ _ _ (loadCursorState_reads A g)) in E3 as [[D3 _] Hst].
  rewrite D1 in D3, Hst. exists st. split; [done|]. step_ok E lower s4 E4.
  apply (reads_ok _ _ _ _ _ (lower_bound_reads A g)) in E4 as [[D4 _] _]. rewrite D3 in D4.
  destruct (st_next st) as [next|]; [|injection E as <- <-; left; split_and!; [done | congruence | done]].
  destruct (compareCursor proposed next >=? 0) eqn:Ec; bool_to_prop; cursor_cases.
  { injection E as <- <-. left. split_and!; [done | congruence|]. by intros ? [= <-] ?%cursor_lt_not_le. }
  step_ok E rs s5 E5.
  apply (reads_ok _ _ _ _ _ (unexplainedACKRanges_reads _ _ _ _ _)) in E5 as [[D5 _] Hx]. rewrite D4 in D5, Hx.
  apply record_regressions_ok in E as (-> & Hf & news & D & Hn). right. exists next, rs, news.
  split_and!; auto; [apply Hx; apply Hi | congruence].
Qed.

Section Regression.
Context (A g : string) (d : database) (st : cursorState) (proposed resumedAt next : Cursor) (rs recorded : list Range)
  (news : list coverageRow) (reason : string) (now : time).
Hypothesis Hi : store_inv A d.
Hypothesis Hst : db_cursors d !! (A, g) = Some st.
Hypothesis Hp : valid_proposed proposed.
Hypothesis Hlt : cursor_lt proposed next.
Hypothesis Hresume : cursor_le resumedAt proposed.
Hypothesis Hx : unexplained_exact A g d (st_ack st) proposed next rs.
Hypothesis Hrec : recorded = filter (fun r => cursor_le (r_Until r) resumedAt) rs.
Hypothesis Hinc : Forall (fun r => Incarnation (r_From r) = Incarnation (r_Until r)) recorded.
Hypothesis Hf : Forall2 (fun r row => exists id, row = regression_row A g reason now r id) recorded news.
Let d' := upd_coverage (fun rows => rows ++ news) d.

Lemma recorded_elem r : r ∈ recorded <-> cursor_le (r_Until r) resumedAt /\ r ∈ rs.
Proof. by rewrite Hrec, list_elem_of_filter. Qed.

Lemma past_resumed : ~ cursor_le (mkCursor (Incarnation proposed) (Seq proposed + 1)) resumedAt.
Proof. clear -Hresume. unfold cursor_le in *. simpl. lia. Qed.

(** A range of the check whose acknowledgement would begin after [proposed] is not recorded. *)
Lemma recorded_start lower :
  lower_cursor <$> lower_bound A g d = Some lower -> recorded = [] \/ cursor_le (ack_from lower (st_ack st)) proposed.
Proof.
  intros Hl. destruct Hx as (lower' & Hl' & H). rewrite Hl in Hl'. injection Hl' as <-. cbv zeta in H.
  destruct H as [[Hlt' ->]|[? _]]; [|by right]. left. rewrite Hrec.
  rewrite filter_cons_False; [done|]. simpl. unfold valid_proposed, max_i64 in Hp. rewrite u64_id by (unfold u64_ok, max_u64; lia).
  apply past_resumed.
Qed.

Lemma ranges_nonempty r : unexplained_exact A g d (st_ack st) proposed next rs -> r ∈ rs ->
  Incarnation (r_From r) = Incarnation (r_Until r) /\ Seq (r_From r) < Seq (r_Until r).
Proof.
  intros H Hr. pose proof (unexplained_ranges_ok A g d st proposed next rs (si_db _ _ Hi) Hst Hp H) as Hok.
  rewrite Forall_forall in Hok. specialize (Hok r Hr). simpl in Hok. lia.
Qed.

Lemma answered_same lower c :
  lower_cursor <$> lower_bound A g d = Some lower -> cursor_le (ack_from lower (st_ack st)) proposed ->
  answered A g d' (ack_from lower (st_ack st)) proposed c <-> answered A g d (ack_from lower (st_ack st)) proposed c.
Proof.
  intros Hl Hle. unfold answered. split; intros (H1 & H2 & H3 & H4); split_and!; auto; destruct H4 as [?|Hr]; auto.
  - apply (add_regressions_reached A g d recorded news reason now) in Hr as [?|(r & Hr & Ei & Hs)]; auto.
    apply recorded_elem in Hr as [_ Hr]. destruct (ranges_nonempty r Hx Hr) as [Ef Es].
    destruct (unexplained_answered A g d st proposed next rs (si_db _ _ Hi) Hst Hp Hlt Hx) as (lower' & Hl' & Hex & _).
    rewrite Hl in Hl'. injection Hl' as <-. specialize (Hex Hle).
    destruct (proj1 (Hex (mkCursor (Incarnation (r_Until r)) (Seq (r_Until r) - 1)))) as [(_ & _ & _ & Hc) _].
    { exists r. split; [done|]. unfold in_range. simpl. split_and!; auto; lia. }
    simpl in Hc. rewrite Ei in Hc. destruct Hc as [?|(k & Hk & Hkle)]; [by left|]. right. exists k. simpl in *. split; [done | lia].
  - right. destruct Hr as (k & Hk & ?). exists k. split; [|done]. unfold known_ends, d'. simpl. rewrite omap_app. unfold known_ends in Hk.
    rewrite !elem_of_app in *. tauto.
Qed.

Lemma second_empty rs' : unexplained_exact A g d' (st_ack st) proposed next rs' ->
  store_inv A d' -> filter (fun r => cursor_le (r_Until r) resumedAt) rs' = [].
Proof.
  intros Hx' Hi'. destruct (filter _ rs') as [|r' l] eqn:E; [done|]. exfalso.
  assert (r' ∈ filter (fun r => cursor_le (r_Until r) resumedAt) rs') as Hr' by (rewrite E; by left).
  apply list_elem_of_filter in Hr' as [Hle' Hr']. clear E l.
  destruct (unexplained_answered A g d st proposed next rs (si_db _ _ Hi) Hst Hp Hlt Hx) as (lower & Hl & Hex & _).
  destruct (unexplained_answered A g d' st proposed next rs' (si_db _ _ Hi') Hst Hp Hlt Hx') as (lower' & Hl' & Hex' & _).
  assert (lower' = lower) as ->.
  { unfold d' in Hl'. rewrite (add_regressions_lower A g d recorded news A g reason now Hf) in Hl'. congruence. }
  cbv zeta in *. set (start := ack_from lower (st_ack st)) in *.
  pose proof Hx' as (lower2 & Hl2 & H2). rewrite Hl' in Hl2. injection Hl2 as <-. cbv zeta in H2. fold start in H2.
  destruct H2 as [[Hlts ->]|(Hs & incs & _ & _ & _ & [_ Hmax])].
  { apply list_elem_of_singleton in Hr' as ->. simpl in Hle'. unfold valid_proposed, max_i64 in Hp.
    rewrite u64_id in Hle' by (unfold u64_ok, max_u64; lia). by apply past_resumed. }
  specialize (Hex Hs). specialize (Hex' Hs). destruct (Hmax r' Hr') as (Ei & [Hb1 Hb2] & _ & Hright).
  set (inc := Incarnation (r_Until r')) in *. set (x := mkCursor inc (Seq (r_Until r') - 1)).
  assert (answered A g d start proposed x /\ ~ explained A g d' x) as [Hax Hnx].
  { destruct (proj1 (Hex' x)) as [Ha Hn]; [exists r'; split; [done|]; unfold in_range, x; simpl; split_and!; auto; lia|].
    split; [|done]. by apply (answered_same lower). }
  assert (forall c, explained A g d' c <-> explained A g d c \/ in_ranges recorded c) as Hexp
    by (apply (add_regressions_explained A g d recorded news reason now Hinc Hf)).
  destruct (proj2 (Hex x)) as (r0 & Hr0 & Hin0); [split; [done|]; intros ?; apply Hnx, Hexp; by left|].
  destruct (decide (cursor_le (r_Until r0) resumedAt)) as [Hle0|Hgt0].
  { apply Hnx, Hexp. right. exists r0. split; [by apply recorded_elem | done]. }
  destruct Hin0 as (Hf0 & Hu0 & Hs0). simpl in Hf0, Hu0, Hs0.
  (* the end of the reported range lies inside [r0] *)
  assert (Seq (r_Until r') < Seq (r_Until r0)) as Hlt0.
  { apply cursor_nle_lt in Hgt0. unfold cursor_lt, cursor_le in *. fold inc in Hle'. lia. }
  set (y := mkCursor inc (Seq (r_Until r'))).
  assert (r_Until r' = y) as Ey by (unfold y, inc; by destruct (r_Until r')).
  destruct (proj1 (Hex y)) as [Hay Hny]; [exists r0; split; [done|]; unfold in_range, y; simpl; split_and!; auto; lia|].
  destruct Hright as [He|He].
  - assert (ack_window A g d' start proposed next y) as (_ & _ & e & Ee & ?).
    { apply ack_window_answered; try apply Hi'; auto; [by apply cursor_lt_le | | by apply (answered_same lower)].
      eapply start_positive; [apply Hi' | exact Hl' | exact Hst]. }
    simpl in *. rewrite He in Ee. injection Ee as <-. lia.
  - rewrite Ey in He. apply Hexp in He as [?|(r1 & Hr1 & Hin1)]; [done|]. apply recorded_elem in Hr1 as Hr1'.
    destruct Hr1' as [Hle1 Hr1']. destruct Hin1 as (Hf1 & Hu1 & Hs1). simpl in Hf1, Hu1, Hs1.
    destruct (decide (Seq (r_From r1) <= Seq x)) as [Hbelow|Hat]; unfold x in *; simpl in *.
    + apply Hnx, Hexp. right. exists r1. split; [done|]. unfold in_range. simpl. split_and!; auto; lia.
    + destruct Hx as (lower3 & Hl3 & H3). rewrite Hl in Hl3. injection Hl3 as <-. cbv zeta in H3. fold start in H3.
      destruct H3 as [[Habs _]|(_ & incs3 & _ & _ & _ & [_ Hm3])]; [by destruct (cursor_lt_not_le _ _ Habs)|].
      destruct (Hm3 r1 Hr1') as (_ & [Hb3 _] & [Hl3'|Hl3'] & _).
      * destruct Hax as (Hle_x & Hx1 & _ & _). unfold seq_from in Hl3'. rewrite Hu1 in Hl3'. unfold cursor_le in Hle_x. simpl in *.
        destruct (inc =? Incarnation start) eqn:Es; bool_to_prop; lia.
      * apply Hnx, Hexp. left. rewrite Hu1 in Hl3'. replace (Seq (r_Until r') - 1) with (Seq (r_From r1) - 1) by lia. done.
Qed.
End Regression.

(** A call that recorded [recorded]: what it changed, and that a second one
    finds nothing left. *)
Definition recorded_exactly (A g : string) (resumedAt : Cursor) (d d' : database) (recorded : list Range) : Prop :=
  Forall (fun r => cursor_le (r_Until r) resumedAt) recorded /\
  (forall c, in_ranges recorded c -> ~ explained A g d c) /\
  (forall c, explained A g d' c <-> explained A g d c \/ in_ranges recorded c) /\
  db_events d' = db_events d /\ db_claims d' = db_claims d /\ db_cursors d' = db_cursors d.

Lemma recorded_nothing A g resumedAt d : recorded_exactly A g resumedAt d d [].
Proof. split_and!; auto; [by intros c ?%in_ranges_nil | intros c; rewrite in_ranges_nil; tauto]. Qed.

Lemma Regression_exact A g proposed resumedAt reason now s recorded s' :
  store_inv A (s_db s) -> cursor_le resumedAt proposed ->
  RecordCursorRegression A g proposed resumedAt reason now s = (Ok recorded, s') ->
  recorded_exactly A g resumedAt (s_db s) (s_db s') recorded.
Proof.
  intros Hi Hle E. apply Regression_run in E as (Hp & st & Hst & H); [|done].
  destruct H as [(-> & -> & _)|(next & rs & news & Hn & Hlt & Hx & Hrec & Hinc & -> & Hf)]; [apply recorded_nothing|].
  assert (forall c, in_ranges recorded c -> ~ explained A g (s_db s) c) as Hnew.
  { destruct (unexplained_answered A g (s_db s) st proposed next rs (si_db _ _ Hi) Hst Hp Hlt Hx) as (lower & Hl & Hex & _).
    destruct (recorded_start A g (s_db s) st proposed resumedAt next rs recorded Hp Hle Hx Hrec lower Hl) as [->|Hs].
    - by intros c ?%in_ranges_nil.
    - intros c (r & Hr & Hin). apply (Hex Hs c). exists r. split; [|done]. rewrite Hrec in Hr. by apply list_elem_of_filter in Hr as [_ ?]. }
  split_and!; auto; [|by eapply add_regressions_explained].
  rewrite Hrec, Forall_forall. by intros r [? _]%list_elem_of_filter.
Qed.

Lemma Regression_again A g proposed resumedAt reason now s recorded s' now' s2 recorded' s2' :
  store_inv A (s_db s) -> cursor_le resumedAt proposed ->
  RecordCursorRegression A g proposed resumedAt reason now s = (Ok recorded, s') -> s_db s2 = s_db s' ->
  RecordCursorRegression A g proposed resumedAt reason now' s2 = (Ok recorded', s2') -> recorded' = [] /\ s_db s2' = s_db s'.
Proof.
  intros Hi Hle E D E2. pose proof (Regression_good A g proposed resumedAt reason now s Hi) as [Hi' _]. rewrite E in Hi'. simpl in Hi'.
  rewrite <- D in Hi'. apply Regression_run in E2 as (_ & st2 & Hst2 & H2); [|done].
  destruct H2 as [(-> & -> & _)|(next2 & rs2 & news2 & Hn2 & Hlt2 & Hx2 & Hrec2 & _ & -> & Hf2)]; [done|].
  apply Regression_run in E as (Hp & st & Hst & H); [|done].
  assert (st2 = st /\ (recorded' = [] -> upd_coverage (fun rows => rows ++ news2) (s_db s2) = s_db s')) as [-> Hnil].
  { split; [|intros ->; inversion Hf2; subst; rewrite <- D; destruct (s_db s2); unfold upd_coverage; simpl; by rewrite app_nil_r].
    rewrite D in Hst2. destruct H as [(_ & Hd & _)|(? & ? & ? & _ & _ & _ & _ & _ & Hd & _)]; rewrite Hd in Hst2; simpl in Hst2; congruence. }
  enough (recorded' = []) as -> by (split; auto).
  destruct H as [(_ & _ & Hno)|(next & rs & news & Hn & Hlt & Hx & Hrec & Hinc & Hd & Hf)].
  - by destruct (Hno next2 Hn2).
  - rewrite Hrec2. rewrite Hn in Hn2. injection Hn2 as <-. rewrite D, Hd in Hx2, Hi'.
    by eapply (second_empty A g (s_db s) st proposed resumedAt next rs recorded news reason now).
Qed.

(** Recording a cursor regression is exact and idempotent. When the Agent
    resumed no later than the proposed cursor, the ranges that
    [RecordCursorRegression] records end at or before the resume point and
    contain only cursors the Server could not explain; afterwards exactly those
    are explained in addition, the stored events, the Agent's claims and the
    cursor rows are as they were, and the store invariant holds. A second call
    with the same arguments records nothing and changes nothing. *)
Theorem regression_contract A g proposed resumedAt reason now s recorded s' :
  store_inv A (s_db s) -> cursor_le resumedAt proposed ->
  RecordCursorRegression A g proposed resumedAt reason now s = (Ok recorded, s') ->
  recorded_exactly A g resumedAt (s_db s) (s_db s') recorded /\ store_inv A (s_db s') /\
  forall now' s2 recorded' s2', s_db s2 = s_db s' ->
    RecordCursorRegression A g proposed resumedAt reason now' s2 = (Ok recorded', s2') -> recorded' = [] /\ s_db s2' = s_db s'.
Proof.
  intros Hi Hle E. split; [by eapply Regression_exact|]. split; [|by intros; eapply Regression_again].
  pose proof (Regression_good A g proposed resumedAt reason now s Hi) as [Hi' _]. by rewrite E in Hi'.
Qed.

(** ** Eligibility *)

(** What may be acknowledged: delivered, and everything it answers for
    explained; or acknowledged before. *)
Definition eligible (A g : string) (d : database) (proposed : Cursor) : Prop :=
  exists st, db_cursors d !! (A, g) = Some st /\
    ((exists ack, st_ack st = Some ack /\ cursor_le proposed ack) \/
     exists lower, lower_cursor <$> lower_bound A g d = Some lower /\
       forall c, answered A g d (ack_from lower (st_ack st)) proposed c -> explained A g d c).

Lemma ACKEligibility_reads A g proposed rev s r s' :
  store_inv A (s_db s) -> ACKEligibility A g proposed rev s = (r, s') ->
  s_db s' = s_db s /\ (is_ok r = true -> eligible A g (s_db s) proposed).
Proof.
  intros Hi. unfold ACKEligibility. destruct (_ || _) eqn:Eg; [by intros [= <- <-]|]. bool_to_prop.
  match goal with H : validCursor _ = true |- _ => apply validCursor_proposed in H as Hp end.
  unfold withRead, bind at 1. pose proof (reads_sql s) as [[D1 _] _]. destruct (sql s) as [[u1|e] s1]; simpl in D1; [|by intros [= <- <-]].
  unfold bind at 1. pose proof (reads_sql s1) as [[D2 _] _]. destruct (sql s1) as [[u2|e] s2]; simpl in D2; [|intros [= <- <-]; by split; [congruence|]].
  rewrite D1 in D2. unfold bind at 1. destruct (loadCursorState A g s2) as [[st|e] s3] eqn:El.
  2: { apply (reads_err _ _ _ _ _ (loadCursorState_reads A g)) in El as [[D3 _] _]. intros [= <- <-]. by split; [congruence|]. }
  apply (reads_ok _ _ _ _ _ (loadCursorState_reads A g)) in El as [[D3 _] Hst]. rewrite D2 in Hst, D3.
  case_if; [by intros [= <- <-]|]. destruct (match st_ack st with Some _ => _ | None => _ end) eqn:Ea.
  - intros [= <- <-]. split; [done|]. intros _. exists st. split; [done|]. left. destruct (st_ack st) as [ack|]; [|done].
    bool_to_prop. cursor_cases. eauto.
  - intros E. apply check_explained_run in E as [[D4 _] E]; [|rewrite D3; apply Hi]. rewrite D3 in D4, E. split; [done|].
    destruct r as [u|e]; [|done]. intros _. exists st. split; [done|]. right. destruct E as (next & _ & Hlt & Hx).
    eapply unexplained_none; eauto. apply Hi.
Qed.

(** ** Ingest *)

Lemma ingest_counts g l i dup s v s' : ingest_events g i dup l s = (Ok v, s') -> v.1 + v.2 = i + dup + lenZ l.
Proof.
  revert i dup s. induction l as [|e l IH]; intros i dup s; cbn [ingest_events].
  - intros [= <- _]. unfold lenZ. simpl. lia.
  - intros H. unfold lenZ in *. simpl. step_ok H b s1 E1. destruct b; [|step_ok H u s2 E2]; apply IH in H; lia.
Qed.

(** The effective Agent gaps are the claims in effect, less what is stored. *)
Definition gaps_current (A g : string) (d : database) : Prop :=
  forall c, (exists r, r ∈ db_coverage d /\ is_agent_gap A g r /\ covers r c) <-> wanted A g d c.

Lemma recomputed_current A g d d' : recomputed A g d d' -> gaps_current A g d'.
Proof.
  intros R c. rewrite (rc_gaps _ _ _ _ R c). unfold wanted, claims_of, stored.
  by rewrite (rc_events _ _ _ _ R), (rc_claims _ _ _ _ R), (rc_cursors _ _ _ _ R).
Qed.

Definition ingested (A g : string) (l : list Event) (next : Cursor) (d d' : database) (res : IngestResult) : Prop :=
  exists st news, db_cursors d !! (A, g) = Some st /\ (forall n, st_next st = Some n -> cursor_le n next) /\
    db_events d' = db_events d ++ news /\ Forall (fun r => exists e, e ∈ l /\ r = event_row g e (ev_id r)) news /\
    (forall e, e ∈ l -> exists r, r ∈ db_events d' /\ r = event_row g e (ev_id r)) /\
    ir_Inserted res = lenZ news /\ ir_Inserted res + ir_Duplicates res = lenZ l /\ ir_DeliveryNext res = next /\
    db_cursors d' = alter (with_next next) (A, g) (db_cursors d) /\ db_claims d' = db_claims d /\ gaps_current A g d'.

Lemma ingest_body A g l next now st counts s s1 s2 s3 u v :
  store_inv A (s_db s) -> validate_events g next None l = true -> db_cursors (s_db s) !! (A, g) = Some st ->
  (forall n, st_next st = Some n -> cursor_le n next) ->
  ingest_events g 0 0 l s = (Ok counts, s1) -> set_cursor A g (with_next next) s1 = (Ok v, s2) ->
  recomputeEffective A g now s2 = (Ok u, s3) ->
  ingested A g l next (s_db s) (s_db s3) (mkIngest counts.1 counts.2 next).
Proof.
  intros Hi Hv Hst Hn E1 E2 E3. pose proof (ingest_counts _ _ _ _ _ _ _ E1) as Hcount.
  apply ingest_events_ok in E1 as (news & D1 & Hnews & Hall & Hnd & Hc). apply exec_ok in E2 as [D2 _].
  assert (recomputed A g (s_db s2) (s_db s3)) as R.
  { apply recompute_ok in E3; [done|..]; rewrite D2, D1; try apply Hi. apply Forall_app.
    split; [apply Hi | by eapply event_rows_ok]. }
  assert (db_events (s_db s3) = db_events (s_db s) ++ news) as Ev by (rewrite (rc_events _ _ _ _ R), D2, D1; done).
  exists st, news. split_and!; auto; try (simpl; lia); [| | |by eapply recomputed_current].
  - intros e He. destruct (Hall e He) as (r & Hr & ?). exists r. split; [|done]. rewrite Ev. by rewrite D1 in Hr.
  - by rewrite (rc_cursors _ _ _ _ R), D2, D1.
  - by rewrite (rc_claims _ _ _ _ R), D2, D1.
Qed.

Lemma Ingest_err A g l next now s e s' : Ingest A g l next now s = (Err e, s') -> s_db s' = s_db s.
Proof.
  unfold Ingest. case_if; [by intros [= _ <-]|]. case_if; [by intros [= _ <-]|]. unfold bind at 1.
  destruct (withImmediate _ s) as [[[i dup]|e'] s1] eqn:E.
  - unfold bind at 1. destruct (i >? 0); [destruct (upd_runtime _ _ _ s1) as [[u|] ?] eqn:Er|]; done.
  - intros [= _ <-]. by apply withImmediate_err in E.
Qed.

Lemma Ingest_ingested A g l next now s res s' :
  store_inv A (s_db s) -> Ingest A g l next now s = (Ok res, s') -> ingested A g l next (s_db s) (s_db s') res.
Proof.
  intros Hi.
  unfold Ingest. destruct (_ || _ || _); [done|]. destruct (validate_events g next None l) eqn:Ev; [|done]. cbn [negb]. intros E.
  step_ok E counts s1 E1. apply withImmediate_ok in E1 as (s2 & s3 & [D2 _] & E1 & [D3 _]).
  step_ok E1 st s4 E4. apply (reads_ok _ _ _ _ _ (loadCursorState_reads A g)) in E4 as [[D4 _] Hst].
  destruct (match st_next st with Some _ => _ | None => _ end) eqn:Ec; [done|].
  step_ok E1 counts' s5 E5. step_ok E1 u s6 E6. step_ok E1 w s7 E7. injection E1 as <- <-.
  assert (res = mkIngest counts'.1 counts'.2 next /\ s_db s' = s_db s1) as [-> ->].
  { destruct counts' as [i dup]. destruct (i >? 0); [step_ok E v s8 E8; injection E8 as _ <-|]; by injection E as <- <-. }
  rewrite D3. rewrite D2 in D4, Hst. rewrite <- D4 in Hi, Hst |- *. eapply ingest_body; eauto.
  intros n Hn. rewrite Hn in Ec. bool_to_prop. by apply compareCursor_ge, Z.le_ge.
Qed.

(** [C32] A batch is ingested as a whole or not at all. When [Ingest] returns,
    every event of the batch is stored as exactly its row, the table only grew -
    by rows of the batch, as many as the result says, the rest being identical
    duplicates -, the delivery cursor moved forward to the batch's, and the
    Agent's effective gaps are its claims in effect less what is now stored.
    When it fails - an invalid or conflicting event, a cursor that moves back, a
    statement that fails - the database is as it was. *)
Theorem ingest_contract A g l next now s r s' :
  store_inv A (s_db s) -> Ingest A g l next now s = (r, s') ->
  match r with
  | Ok res => ingested A g l next (s_db s) (s_db s') res /\ store_inv A (s_db s')
  | Err _ => s_db s' = s_db s
  end.
Proof.
  intros Hi E. destruct r as [res|e]; [|by eapply Ingest_err].
  pose proof (Ingest_good A g l next now s Hi) as [Hi' _]. rewrite E in Hi'. split; [by eapply Ingest_ingested | done].
Qed.

(** ** The two acknowledgement checks *)

(** With no statement failing, a query leaves the whole store as it is. *)
Definition calm {B} (m : storeM B) : Prop := forall s, s_outcomes s = [] -> (m s).2 = s.

Create HintDb calm discriminated.

Lemma calm_ret {B} (v : B) : calm (ret v).
Proof. done. Qed.
Lemma calm_fail {B} e : calm (B := B) (fail e).
Proof. done. Qed.
Lemma calm_query {B} (f : database -> B) : calm (query f).
Proof. intros s H. unfold query, sql, bind. by rewrite H. Qed.
Lemma calm_bind {B C} (m : storeM B) (f : B -> storeM C) : calm m -> (forall b, calm (f b)) -> calm (bind m f).
Proof.
  intros Hm Hf s H. specialize (Hm s H). unfold bind. destruct (m s) as [[b|e] s1]; simpl in Hm; subst; [by apply Hf | done].
Qed.
Lemma calm_if {B} (b : bool) (m1 m2 : storeM B) : calm m1 -> calm m2 -> calm (if b then m1 else m2).
Proof. by destruct b. Qed.
Lemma calm_bind_args args : calm (bind_args args).
Proof. by apply calm_if. Qed.
Lemma calm_parseTime t : calm (parseTime t).
Proof. by apply calm_if. Qed.

#[export] Hint Resolve calm_ret calm_fail calm_query calm_bind calm_if calm_bind_args calm_parseTime : calm.

Lemma calm_load A g : calm (loadCursorState A g).
Proof. apply calm_bind; [apply calm_query|]. intros [st|]; auto with calm. Qed.

Lemma calm_missing A g inc from until : calm (missingACKCoverage A g inc from until).
Proof. apply calm_bind; [apply calm_query|]. intros [|? ?]; auto with calm. Qed.

Lemma calm_end A g inc proposed next : calm (ackRangeEnd A g inc proposed next).
Proof. unfold ackRangeEnd. auto with calm. Qed.

Lemma calm_loop A g start proposed next incs : calm (unexplained_loop A g start proposed next incs).
Proof.
  induction incs as [|inc incs IH]; simpl; [apply calm_ret|]. apply calm_if; [done|]. apply calm_bind; [apply calm_end|].
  intros [until|]; [|done]. apply calm_if; [done|]. apply calm_bind; [apply calm_missing|]. auto with calm.
Qed.

Lemma calm_check A g st proposed : calm (check_explained A g st proposed).
Proof.
  unfold check_explained. destruct (st_next st) as [next|]; [|apply calm_fail]. apply calm_if; [apply calm_fail|].
  apply calm_bind; [|auto with calm]. unfold unexplainedACKRanges. apply calm_bind; [|intros lower].
  - apply calm_bind; [apply calm_query|]. intros [r|]; auto with calm.
  - apply calm_if; [apply calm_ret|]. apply calm_bind; [apply calm_query | intros incs; apply calm_loop].
Qed.

Lemma calm_sql s : s_outcomes s = [] -> sql s = (Ok tt, s).
Proof. unfold sql. by intros ->. Qed.

Lemma calm_run {B} (m : storeM B) s : calm m -> s_outcomes s = [] -> m s = ((m s).1, s).
Proof. intros H Hs. rewrite <- (H s Hs) at 3. by destruct (m s). Qed.

Lemma calm_immediate {B} (m : storeM B) s :
  s_outcomes s = [] -> s_outcomes (m s).2 = [] -> (withImmediate m s).1 = (m s).1.
Proof.
  intros Hs Hm. unfold withImmediate, attempt, rollback, bind, gets, modify, fail, ret. rewrite !(calm_sql s Hs).
  destruct (m s) as [[v|e] s1]; [|done]. simpl in Hm. by rewrite (calm_sql s1 Hm).
Qed.

Lemma bind_run {S E B C} (m : M S E B) (f : B -> M S E C) s b s' : m s = (Ok b, s') -> bind m f s = f b s'.
Proof. unfold bind. by intros ->. Qed.

(** The commit's transaction, from the cursor row on. *)
Lemma advance_calm A g proposed rev now st s :
  s_outcomes s = [] -> loadCursorState A g s = (Ok st, s) ->
  s_outcomes (advance_ack A g proposed rev now s).2 = [] /\
  (advance_ack A g proposed rev now s).1 =
    if negb (rev =? st_revision st) then Err CoverageRevisionMismatch
    else if match st_ack st with Some ack => compareCursor proposed ack <? 0 | None => false end then Err StoreCursorRollback
    else if match st_ack st with Some ack => compareCursor proposed ack =? 0 | None => false end then Ok false
    else match (check_explained A g st proposed s).1 with Ok _ => Ok true | Err e => Err e end.
Proof.
  intros Hs El. unfold advance_ack. rewrite !(bind_run _ _ _ _ _ El). destruct (negb _); [done|].
  set (advance := bind (check_explained _ _ _ _) _).
  assert (s_outcomes (advance s).2 = [] /\
    (advance s).1 = match (check_explained A g st proposed s).1 with Ok _ => Ok true | Err e => Err e end) as Hadv.
  { subst advance. unfold bind, set_cursor, exec, bind. rewrite (calm_run _ s (calm_check A g st proposed) Hs).
    destruct (check_explained A g st proposed s).1; [|done]. by rewrite (calm_sql s Hs). }
  destruct (st_ack st) as [ack|]; [|done]. cbv zeta. destruct (_ <? 0); [done|]. by destruct (_ =? 0).
Qed.

Lemma commit_result A g proposed rev now s :
  (str_empty A || str_empty g || negb (validCursor proposed))%bool = false ->
  (CheckAndAdvanceACK A g proposed rev now s).1 =
    match (withImmediate (advance_ack A g proposed rev now) s).1 with Ok b => Ok (mkACKResult b proposed) | Err e => Err e end.
Proof.
  intros Hg. unfold CheckAndAdvanceACK, bind, attempt. rewrite Hg. destruct (withImmediate _ s) as [[[]|e] s1]; [done..|].
  by destruct e.
Qed.

(** The offer and the commit decide alike. With no statement failing,
    [ACKEligibility] changes nothing, and [CheckAndAdvanceACK] on the same store
    refuses what it refuses, with the same error; what it accepts, the commit
    accepts and advances to - unless the acknowledgement already stands at or
    past the proposed cursor, and then it has nothing to do or refuses to move
    back. *)
Theorem offer_matches_commit A g proposed rev now s :
  s_outcomes s = [] ->
  let '(offer, s1) := ACKEligibility A g proposed rev s in
  let '(commit, s2) := CheckAndAdvanceACK A g proposed rev now s in
  s1 = s /\
  match offer with
  | Err e => commit = Err e
  | Ok _ => commit = Ok (mkACKResult true proposed) \/
      exists st ack, db_cursors (s_db s) !! (A, g) = Some st /\ st_ack st = Some ack /\
        ((proposed = ack /\ commit = Ok (mkACKResult false proposed)) \/
         (cursor_lt proposed ack /\ commit = Err StoreCursorRollback))
  end.
Proof.
  intros Hs. destruct (CheckAndAdvanceACK A g proposed rev now s) as [commit s2] eqn:Ec.
  assert (commit = (CheckAndAdvanceACK A g proposed rev now s).1) as Hc by (by rewrite Ec). clear Ec.
  unfold ACKEligibility. destruct (_ || _) eqn:Eg; [split; [done|]; rewrite Hc; unfold CheckAndAdvanceACK; by rewrite Eg|].
  rewrite (commit_result _ _ _ _ _ _ Eg) in Hc. unfold withRead, bind. rewrite !(calm_sql s Hs).
  pose proof (calm_run _ s (calm_load A g) Hs) as El. destruct (loadCursorState A g s) as [[st|e] s3] eqn:El'; simpl in El; injection El as ->.
  2: { split; [done|]. assert (advance_ack A g proposed rev now s = (Err e, s)) as Ha by (unfold advance_ack, bind; by rewrite El').
       by rewrite Hc, calm_immediate; rewrite ?Ha. }
  destruct (advance_calm A g proposed rev now st s Hs El') as [Ho Ha]. rewrite (calm_immediate _ s Hs Ho), Ha in Hc. clear Ho Ha.
  apply (reads_ok _ _ _ _ _ (loadCursorState_reads A g)) in El' as [_ Hst].
  destruct (negb (rev =? st_revision st)); [done|]. 
  assert (match st_ack st with Some ack => compareCursor proposed ack <? 0 | None => false end = false ->
    match st_ack st with Some ack => compareCursor proposed ack =? 0 | None => false end = false ->
    let '(offer, s1) := check_explained A g st proposed s in
    s1 = s /\ match offer with Ok _ => commit = Ok (mkACKResult true proposed) | Err e => commit = Err e end) as Hcheck.
  { intros E1 E2. rewrite E1, E2 in Hc. rewrite (calm_run _ s (calm_check A g st proposed) Hs).
    destruct (check_explained A g st proposed s).1; done. }
  destruct (st_ack st) as [ack|] eqn:Ea.
  2: { specialize (Hcheck eq_refl eq_refl). destruct (check_explained A g st proposed s) as [[u|e] s4]; [|done].
       destruct Hcheck. auto. }
  destruct (compareCursor proposed ack <=? 0) eqn:E0; bool_to_prop.
  - split; [done|]. right. exists st, ack. split_and!; auto. destruct (compareCursor proposed ack <? 0) eqn:E1; bool_to_prop; cursor_cases.
    + right. by split.
    + left. assert (proposed = ack) as -> by by apply (anti_symm cursor_le).
      by rewrite (proj2 (compareCursor_eq ack ack) eq_refl) in Hc.
  - assert ((compareCursor proposed ack <? 0) = false /\ (compareCursor proposed ack =? 0) = false) as [E1 E2] by lia.
    specialize (Hcheck E1 E2).
    destruct (check_explained A g st proposed s) as [[u|e] s4]; destruct Hcheck as [-> ?]; auto.
Qed.
