(* ===== verification/AuditWitness.v ===== *)
(** * The audit store at work

    One archive and one Agent: coverage from cursor (1,1), a claimed gap at
    (1,3), the events (1,1), (1,2) and (1,5), an acknowledgement through (1,3),
    and cursor (1,4) missing. The store's theorems applied to this run. *)

From S2P Require Import Prelude Cursor AuditStore AuditStoreSpec AuditStoreInv AuditRetention AuditEnforce AuditStoreProps.

Definition demo_text (s : string) : Z := Z.of_nat (String.length s).
Definition demo_stamp (t : time) : Z := 30.
Abbreviation demo_do := (audit_run id demo_text demo_stamp "A").

Definition demo_empty : auditStore := mkAuditStore (mkDatabase [] [] [] ∅ (SettingOf "A")) ∅ [].
Definition demo_event (seq : Z) : Event := mkEvent "g" (mkCursor 1 seq) seq "container.start" "" "" "" "container" "c1" "start" "{}".
Definition demo_snapshot : CoverageSnapshot := mkSnapshot "g" 1 7 [mkClaim 1 3 4 "RETENTION" "exact"] [].
Definition demo_establish : audit_step := AuEstablish "g" (mkCursor 1 1) CoverageServerNeverHad 7.
Definition demo_claim : audit_step := AuSnapshot demo_snapshot 7.
Definition demo_batch : list Event := [demo_event 1; demo_event 2; demo_event 5].
Definition demo_plan : RetentionPlan := mkPlan 100 true true 0.

Definition demo_started : auditStore := Eval vm_compute in (demo_do demo_establish demo_empty).2.
Definition demo_claimed : auditStore := Eval vm_compute in (demo_do demo_claim demo_started).2.
Definition demo_filled : auditStore := Eval vm_compute in (demo_do (AuIngest "g" demo_batch (mkCursor 1 6) 8) demo_claimed).2.
Definition demo_acked : auditStore := Eval vm_compute in (demo_do (AuAck "g" (mkCursor 1 3) 1 9) demo_filled).2.
Definition demo_pruned : auditStore := Eval vm_compute in (demo_do (AuRetain TierACKed demo_plan true 1000 10) demo_acked).2.
Definition demo_regressed : auditStore :=
  Eval vm_compute in (demo_do (AuRegress "g" (mkCursor 1 5) (mkCursor 1 5) RegressionDatabaseRestore 10) demo_acked).2.

Lemma demo_snapshot_ok d : db_coverage d = db_coverage (s_db demo_started) -> audit_step_ok "A" d demo_claim.
Proof.
  intros E. split; [repeat constructor; simpl; lia|]. intros r c Hr Hg _. rewrite E in Hr. exfalso.
  apply list_elem_of_singleton in Hr as ->. by destruct Hg as [_ [? _]].
Qed.

Lemma demo_filled_runs : audit_runs id demo_text demo_stamp "A" demo_empty demo_filled.
Proof.
  refine (audit_runs_step _ _ _ _ _ demo_claimed (AuIngest "g" demo_batch (mkCursor 1 6) 8) _ I).
  refine (audit_runs_step _ _ _ _ _ demo_started demo_claim _ (demo_snapshot_ok _ eq_refl)).
  refine (audit_runs_step _ _ _ _ _ demo_empty demo_establish _ I). apply audit_runs_refl.
Qed.

Lemma demo_acked_runs : audit_runs id demo_text demo_stamp "A" demo_empty demo_acked.
Proof. exact (audit_runs_step _ _ _ _ _ demo_filled (AuAck "g" (mkCursor 1 3) 1 9) demo_filled_runs I). Qed.

Lemma demo_inv s : audit_runs id demo_text demo_stamp "A" demo_empty s -> store_inv "A" (s_db s).
Proof. intros H. apply (audit_runs_good _ _ _ _ _ _ H). by apply audit_fresh_inv. Qed.

Lemma server_ack_sound_witness :
  CheckAndAdvanceACK "A" "g" (mkCursor 1 3) 1 9 demo_filled = (Ok (mkACKResult true (mkCursor 1 3)), demo_acked) /\
  s_db demo_acked = upd_cursors (alter (with_ack (mkCursor 1 3) 1 9) ("A", "g")) (s_db demo_filled).
Proof.
  assert (CheckAndAdvanceACK "A" "g" (mkCursor 1 3) 1 9 demo_filled = (Ok (mkACKResult true (mkCursor 1 3)), demo_acked)) as E
    by (vm_compute; reflexivity).
  split; [exact E|]. destruct (server_ack_sound "A" "g" (mkCursor 1 3) 1 9 demo_filled _ _ (si_db _ _ (demo_inv _ demo_filled_runs)) E)
    as (_ & st & _ & _ & _ & H & _). exact H.
Defined.

(** The acknowledged event (1,1) was pruned, and the ledger explains it. *)
Lemma acked_forever_witness :
  (ev_seq <$> db_events (s_db demo_pruned)) = [5] /\ explained "A" "g" (s_db demo_pruned) (mkCursor 1 1).
Proof.
  split; [vm_compute; reflexivity|].
  destruct (acked_forever id demo_text demo_stamp "A" demo_empty demo_filled "g" (mkCursor 1 3) 1 9 demo_acked demo_pruned)
    as (st & lower & Hst & Hl & H).
  - split_and!; reflexivity.
  - exact demo_filled_runs.
  - vm_compute. reflexivity.
  - refine (audit_runs_step _ _ _ _ _ demo_acked (AuRetain TierACKed demo_plan true 1000 10) _ I). apply audit_runs_refl.
  - apply H. assert (Some st = Some (mkCursorState (Some (mkCursor 1 6)) None 1 7)) as [= ->] by (rewrite <- Hst; vm_compute; reflexivity).
    assert (Some lower = Some (mkCursor 1 1)) as [= ->] by (rewrite <- Hl; vm_compute; reflexivity).
    unfold answered, cursor_le. simpl. lia.
Defined.

Lemma regression_contract_witness :
  recorded_exactly "A" "g" (mkCursor 1 5) (s_db demo_acked) (s_db demo_regressed) [mkRange (mkCursor 1 4) (mkCursor 1 5)].
Proof.
  refine (proj1 (regression_contract "A" "g" (mkCursor 1 5) (mkCursor 1 5) RegressionDatabaseRestore 10 demo_acked
    [mkRange (mkCursor 1 4) (mkCursor 1 5)] demo_regressed (demo_inv _ demo_acked_runs) _ _)).
  - right. split; reflexivity.
  - vm_compute. reflexivity.
Defined.

Lemma ingest_contract_witness :
  ingested "A" "g" demo_batch (mkCursor 1 6) (s_db demo_filled) (s_db demo_filled) (mkIngest 0 3 (mkCursor 1 6)).
Proof.
  refine (proj1 (ingest_contract "A" "g" demo_batch (mkCursor 1 6) 8 demo_filled (Ok (mkIngest 0 3 (mkCursor 1 6))) demo_filled
    (demo_inv _ demo_filled_runs) _)).
  vm_compute. reflexivity.
Defined.

Lemma offer_matches_commit_witness :
  (CheckAndAdvanceACK "A" "g" (mkCursor 1 5) 1 9 demo_filled).1 =
  Err (ACKIneligible (mkCursor 1 5) (mkCursor 1 6) [mkRange (mkCursor 1 4) (mkCursor 1 5)]).
Proof.
  pose proof (offer_matches_commit "A" "g" (mkCursor 1 5) 1 9 demo_filled eq_refl) as H.
  assert (ACKEligibility "A" "g" (mkCursor 1 5) 1 demo_filled =
    (Err (ACKIneligible (mkCursor 1 5) (mkCursor 1 6) [mkRange (mkCursor 1 4) (mkCursor 1 5)]), demo_filled)) as E
    by (vm_compute; reflexivity).
  rewrite E in H. destruct (CheckAndAdvanceACK _ _ _ _ _ _) as [commit s2]. exact (proj2 H).
Defined.

(** Enforcing a plan under pressure keeps the acknowledged cursors explained. *)
Definition demo_policy (u : ArchiveUsage_) : res storeErr RetentionPlan := Ok (mkPlan (us_EvaluatedAt u) true true 0).
Definition demo_enforced : auditStore :=
  Eval vm_compute in (EnforceRetention id demo_text demo_stamp "A" (Some demo_policy) 10 demo_acked).2.

Lemma retention_total_witness :
  db_events (s_db demo_enforced) = [] /\ keeps_explained "A" (s_db demo_acked) (s_db demo_enforced).
Proof.
  split; [vm_compute; reflexivity|].
  pose proof (retention_total id demo_text demo_stamp "A" (Some demo_policy) 10 demo_acked (demo_inv _ demo_acked_runs)) as H.
  assert ((EnforceRetention id demo_text demo_stamp "A" (Some demo_policy) 10 demo_acked).2 = demo_enforced) as E
    by (vm_compute; reflexivity).
  destruct (EnforceRetention id demo_text demo_stamp "A" (Some demo_policy) 10 demo_acked) as [r s'].
  simpl in E. subst s'. apply H. intros p u [= <-]. discriminate.
Defined.

(** ** Resending a snapshot

    The Agent resends its snapshot when it reconnects. With a gap at single-digit
    and one at double-digit sequences the stored rows, in numeric order, do not
    match the claims, in the order of their texts, and the Server refuses. *)
Definition two_gaps : CoverageSnapshot :=
  mkSnapshot "g" 1 7 [mkClaim 1 5 7 "RETENTION" "exact"; mkClaim 1 10 12 "RETENTION" "exact"] [].

Theorem resend_refused :
  let '(first, s1) := ApplyCoverageSnapshot "A" two_gaps 8 demo_started in
  first = Ok (mkClaimResult true 1) /\ (ApplyCoverageSnapshot "A" two_gaps 9 s1).1 = Err StoreInvariant.
Proof. vm_compute. split; reflexivity. Qed.

(** A proposed cursor below the coverage start: the recorded range is reported
    as blocked again, and a second call records it again. *)
Definition demo_late : auditStore :=
  Eval vm_compute in (demo_do (AuIngest "g" [] (mkCursor 1 8) 8) (demo_do (AuEstablish "g" (mkCursor 1 6) CoverageServerNeverHad 7) demo_empty).2).2.

Theorem regression_repeats :
  let call := RecordCursorRegression "A" "g" (mkCursor 1 3) (mkCursor 1 7) RegressionUnknown 9 in
  let '(first, s1) := call demo_late in
  first = Ok [mkRange (mkCursor 1 3) (mkCursor 1 4)] /\ (call s1).1 = Ok [mkRange (mkCursor 1 3) (mkCursor 1 4)].
Proof. vm_compute. split; reflexivity. Qed.
