(* ===== verification/AuditSync.v ===== *)
(** * Audit synchronisation

    Models [internal/auditsync] with the stream messages of
    [internal/producttransport/types.go]: the Server's [Run] ([server.go]) over
    the audit store and the Agent's [SyncAudit] ([agent.go]) over its WAL. Both
    block only where they receive, so each is a state machine: the state it has
    at its receive and one handler per message, the code in between run as
    written. The stream's calls may fail with the message delivered or not, and
    between any two calls into the store or the WAL other goroutines may run any
    of their operations. Record decoding ([decoder.go], modelled in
    [ManagedAudit]), the clock and the archive binder are arguments. *)

From S2P Require Import Prelude Cursor WalFrame WalMeta Wal WalProps AuditStore AuditRetention.

(** ** [producttransport/types.go]: the messages *)

Definition CurrentProductProtocolVersion : Z := 2.

Record SessionInfo := mkInfo { in_AgentID : string; in_ProtocolVersion : Z }.

Record AuditRecord := mkAuditRecord {
  ar_Incarnation : Z;
  ar_Sequence : Z;
  ar_AppendedAt : time;
  ar_Payload : list Z;
}.

Record AuditArchiveDescriptor := mkDescriptor {
  dc_ServerIdentityID : string;
  dc_Generation : Z;
  dc_AuditArchiveID : string;
}.

Record AuditAck := mkAck {
  aa_AuditArchiveID : string;
  aa_Incarnation : Z;
  aa_Sequence : Z;
  aa_CoverageRevisionSeen : Z;
  aa_Archive : option AuditArchiveDescriptor;
}.

Definition IsArchiveAnnouncement (a : AuditAck) : bool :=
  bool_decide (is_Some (aa_Archive a)) && (aa_Incarnation a =? 0) && (aa_Sequence a =? 0).

Record AuditGap := mkAuditGap {
  tg_Incarnation : Z;
  tg_FromSequence : Z;
  tg_UntilSequence : Z;
  tg_Reason : string;
  tg_Precision : string;
  tg_LastLossRevision : Z;
}.

Record AuditCoverageSnapshot := mkTransportCoverage {
  tc_Revision : Z;
  tc_GeneratedAt : time;
  tc_Gaps : list AuditGap;
  tc_CoverageUnknownIncarnations : list Z;
}.

Record AuditBounds := mkTransportBounds {
  tb_WALFloor : option Cursor;
  tb_WALCeiling : option Cursor;
  tb_NextCursor : Cursor;
  tb_ServerACKedThrough : option Cursor;
  tb_AcknowledgedArchiveID : string;
  tb_CoverageRevision : Z;
}.

Record AuditCursorBehindFloor := mkBehindFloor {
  bf_Requested : Cursor;
  bf_Bounds : AuditBounds;
  bf_Coverage : AuditCoverageSnapshot;
}.

Record AuditAckResult := mkAckResult {
  ak_Proposed : Cursor;
  ak_Accepted : bool;
  ak_StaleCoverage : option AuditCoverageSnapshot;
  ak_Error : string;
}.

Record AuditUpstream := mkUpstream {
  up_Record : option AuditRecord;
  up_Coverage : option AuditCoverageSnapshot;
  up_CursorBehindFloor : option AuditCursorBehindFloor;
  up_AckResult : option AuditAckResult;
}.

Definition send_record (r : AuditRecord) : AuditUpstream := mkUpstream (Some r) None None None.
Definition send_coverage (c : AuditCoverageSnapshot) : AuditUpstream := mkUpstream None (Some c) None None.
Definition send_behind (b : AuditCursorBehindFloor) : AuditUpstream := mkUpstream None None (Some b) None.
Definition send_result (r : AuditAckResult) : AuditUpstream := mkUpstream None None None (Some r).

Inductive syncErr :=
| SyncConfig
| SyncStore (e : storeErr)
| SyncWAL (e : walErr)
| SyncStream
| SyncContext
| SyncIdentity
| SyncProtocol
| SyncDecode
| SyncExhausted
| SyncArchive
| SyncRejected (e : string).

(** A call of the stream: whether the message reaches the peer, and whether the
    call reports success. *)
Definition delivery : Type := bool * bool.

Section Sync.
Context (julianday : time -> Z) (text_length : string -> Z) (time_length : time -> Z).

(** ** [server.go] *)

Record ServerConfig := mkServerConfig {
  sc_Store : bool;
  sc_ArchiveID : string;
  sc_CoverageStartReason : string;
  sc_Decoder : option (SessionInfo -> AuditRecord -> option Event);
  sc_ServerIdentityID : string;
  sc_ArchiveGeneration : Z;
}.

Definition NewServer (config : ServerConfig) : res syncErr ServerConfig :=
  if negb (sc_Store config) || str_empty (sc_ArchiveID config) || bool_decide (sc_Decoder config = None)
  then Err SyncConfig
  else if str_empty (sc_ServerIdentityID config) || (sc_ArchiveGeneration config =? 0) then Err SyncConfig
  else
    let reason := if str_empty (sc_CoverageStartReason config) then CoverageServerNeverHad else sc_CoverageStartReason config in
    if negb (validCoverageStartReason reason) then Err SyncConfig
    else Ok (mkServerConfig (sc_Store config) (sc_ArchiveID config) reason (sc_Decoder config)
      (sc_ServerIdentityID config) (sc_ArchiveGeneration config)).

(** The Server while a handler runs: its store, what it sent, and what is to
    come - the outcomes of the stream's calls, the transactions of others before
    each of its own, the readings of the clock. *)
Record srv := mkSrv {
  sv_store : auditStore;
  sv_down : list AuditAck;
  sv_sends : list delivery;
  sv_others : list (list audit_step);
  sv_clock : list time;
}.

Definition srvM := M srv syncErr.

Definition others_run (archive : string) (l : list audit_step) (st : auditStore) : auditStore :=
  foldl (fun st x => (audit_run julianday text_length time_length archive x st).2) st l.

Definition inStore (archive : string) {A} (m : storeM A) : srvM A := fun s =>
  let st := others_run archive (default [] (head (sv_others s))) (sv_store s) in
  let '(r, st') := m st in
  (match r with Ok v => Ok v | Err e => Err (SyncStore e) end,
   mkSrv st' (sv_down s) (sv_sends s) (tail (sv_others s)) (sv_clock s)).

Definition server_now : srvM time := fun s =>
  (Ok (default time_zero (head (sv_clock s))), mkSrv (sv_store s) (sv_down s) (sv_sends s) (sv_others s) (tail (sv_clock s))).

Definition SendAck (ack : AuditAck) : srvM unit := fun s =>
  let '(delivered, ok) := default (true, true) (head (sv_sends s)) in
  (if ok then Ok tt else Err SyncStream,
   mkSrv (sv_store s) (if delivered : bool then sv_down s ++ [ack] else sv_down s) (tail (sv_sends s)) (sv_others s) (sv_clock s)).

Definition OpenAuditSync : srvM unit := fun s =>
  (if (default (true, true) (head (sv_sends s))).2 then Ok tt else Err SyncStream,
   mkSrv (sv_store s) (sv_down s) (tail (sv_sends s)) (sv_others s) (sv_clock s)).

(** The variables of [Run], and in [ingestAndACK] the cursor whose result is
    awaited. *)
Record ServerState := mkServerState {
  ss_established : bool;
  ss_pending : option AuditCoverageSnapshot;
  ss_revision : Z;
  ss_resumedAt : option Cursor;
  ss_proposed : option Cursor;
}.

Definition compareTransportCursor (left right : Cursor) : Z :=
  if (Incarnation left <? Incarnation right) || ((Incarnation left =? Incarnation right) && (Seq left <? Seq right)) then -1
  else if bool_decide (left = right) then 0
  else 1.

Definition lower_candidate (result : option Cursor) (candidate : Cursor) : option Cursor :=
  match result with
  | None => Some candidate
  | Some r => if compareTransportCursor candidate r <? 0 then Some candidate else Some r
  end.

Definition coverageMinimum (coverage : AuditCoverageSnapshot) : option Cursor :=
  foldl lower_candidate
    (foldl lower_candidate None ((fun gap => mkCursor (tg_Incarnation gap) (tg_FromSequence gap)) <$> tc_Gaps coverage))
    ((fun incarnation => mkCursor incarnation 1) <$> tc_CoverageUnknownIncarnations coverage).

Definition min_cursor (start : Cursor) (candidate : option Cursor) : Cursor :=
  match candidate with
  | Some c => if compareTransportCursor c start <? 0 then c else start
  | None => start
  end.

Section Server.
Context (config : ServerConfig) (decode : SessionInfo -> AuditRecord -> option Event) (info : SessionInfo).
Abbreviation archive := (sc_ArchiveID config).
Abbreviation agent := (in_AgentID info).

Definition establish (start : Cursor) : srvM unit :=
  let* now := server_now in inStore archive (EstablishCoverageStart archive agent start (sc_CoverageStartReason config) now).

Definition store_snapshot (coverage : AuditCoverageSnapshot) : CoverageSnapshot :=
  mkSnapshot agent (tc_Revision coverage) (tc_GeneratedAt coverage)
    ((fun gap => mkClaim (tg_Incarnation gap) (tg_FromSequence gap) (tg_UntilSequence gap) (tg_Reason gap) (tg_Precision gap))
       <$> tc_Gaps coverage)
    (tc_CoverageUnknownIncarnations coverage).

Definition applyCoverage (coverage : AuditCoverageSnapshot) : srvM Z :=
  let* now := server_now in
  let* result := inStore archive (ApplyCoverageSnapshot archive (store_snapshot coverage) now) in
  ret (cl_CurrentRevision result).

Definition settleACKEligibility (proposed : Cursor) (revision : Z) (resumedAt : option Cursor) : srvM unit :=
  let* blocked := attempt (inStore archive (ACKEligibility archive agent proposed revision)) in
  match blocked with
  | Ok _ => ret tt
  | Err (SyncStore (ACKIneligible p n rs)) =>
    match resumedAt with
    | None => fail (SyncStore (ACKIneligible p n rs))
    | Some resumed =>
      let* now := server_now in
      let* recorded := inStore archive (RecordCursorRegression archive agent proposed resumed RegressionUnknown now) in
      match recorded with
      | [] => fail (SyncStore (ACKIneligible p n rs))
      | _ => inStore archive (ACKEligibility archive agent proposed revision)
      end
    end
  | Err e => fail e
  end.

Definition offer (proposed : Cursor) (revision : Z) : srvM unit :=
  SendAck (mkAck archive (Incarnation proposed) (Seq proposed) revision None).

(** [ingestAndACK] up to its first [Recv]. *)
Definition ingestAndOffer (record : AuditRecord) (revision : Z) (resumedAt : option Cursor) : srvM Cursor :=
  match decode info record with
  | None => fail SyncDecode
  | Some event =>
    let proposed := mkCursor (ar_Incarnation record) (ar_Sequence record) in
    if* (negb (bool_decide (e_AgentID event = agent)) || negb (bool_decide (e_Cursor event = proposed)))%bool then SyncIdentity end;
    if* ar_Sequence record =? max_u64 then SyncExhausted end;
    let next := mkCursor (ar_Incarnation record) (ar_Sequence record + 1) in
    let* now := server_now in
    inStore archive (Ingest archive agent [event] next now) ;;;
    settleACKEligibility proposed revision resumedAt ;;;
    offer proposed revision ;;;
    ret proposed
  end.

(** One round of the loop of [ingestAndACK], from its [Recv]. *)
Definition ackResponse (st : ServerState) (proposed : Cursor) (response : AuditUpstream) : srvM ServerState :=
  match up_AckResult response with
  | None => fail SyncProtocol
  | Some r =>
    if* negb (bool_decide (ak_Proposed r = proposed)) then SyncProtocol end;
    if ak_Accepted r then
      let* now := server_now in
      inStore archive (CheckAndAdvanceACK archive agent proposed (ss_revision st) now) ;;;
      ret (mkServerState (ss_established st) (ss_pending st) (ss_revision st) (ss_resumedAt st) None)
    else
      match ak_StaleCoverage r with
      | Some coverage =>
        if* negb (bool_decide (ak_Error r = "STALE_COVERAGE")) then SyncRejected (ak_Error r) end;
        let* revision := applyCoverage coverage in
        offer proposed revision ;;;
        ret (mkServerState (ss_established st) (ss_pending st) revision (ss_resumedAt st) (Some proposed))
      | None => fail (SyncRejected (ak_Error r))
      end
  end.

Definition onCoverage (st : ServerState) (coverage : AuditCoverageSnapshot) : srvM ServerState :=
  let* established :=
    (if ss_established st then ret true
     else match coverageMinimum coverage with
          | Some start => establish start ;;; ret true
          | None => ret false
          end) in
  if established : bool then
    let* revision := applyCoverage coverage in
    ret (mkServerState true None revision (ss_resumedAt st) None)
  else ret (mkServerState false (Some coverage) (ss_revision st) (ss_resumedAt st) None).

Definition onBehindFloor (st : ServerState) (behind : AuditCursorBehindFloor) : srvM ServerState :=
  let start := min_cursor (min_cursor (bf_Requested behind) (tb_WALFloor (bf_Bounds behind)))
                 (coverageMinimum (bf_Coverage behind)) in
  (if ss_established st then ret tt else establish start) ;;;
  let* revision := applyCoverage (bf_Coverage behind) in
  ret (mkServerState true None revision (ss_resumedAt st) None).

Definition onRecord (st : ServerState) (record : AuditRecord) : srvM ServerState :=
  let first := mkCursor (ar_Incarnation record) (ar_Sequence record) in
  let resumedAt := Some (default first (ss_resumedAt st)) in
  (if ss_established st then ret tt
   else establish (min_cursor first (ss_pending st ≫= coverageMinimum))) ;;;
  let* revision := (match ss_pending st with
                    | Some pending => applyCoverage pending
                    | None => ret (ss_revision st)
                    end) in
  let* proposed := ingestAndOffer record revision resumedAt in
  ret (mkServerState true None revision resumedAt (Some proposed)).

(** A message received by [Run], or inside it by [ingestAndACK]. *)
Definition serverReceive (st : ServerState) (message : AuditUpstream) : srvM ServerState :=
  match ss_proposed st with
  | Some proposed => ackResponse st proposed message
  | None =>
    match up_Coverage message, up_CursorBehindFloor message, up_Record message with
    | Some coverage, _, _ => onCoverage st coverage
    | None, Some behind, _ => onBehindFloor st behind
    | None, None, Some record => onRecord st record
    | None, None, None => fail SyncProtocol
    end
  end.

(** [Run] up to its first [Recv]. *)
Definition serverStart : srvM ServerState :=
  if* str_empty agent then SyncIdentity end;
  let* start := inStore archive (CoverageStart archive agent) in
  OpenAuditSync ;;;
  (if in_ProtocolVersion info >=? CurrentProductProtocolVersion
   then SendAck (mkAck archive 0 0 0 (Some (mkDescriptor (sc_ServerIdentityID config) (sc_ArchiveGeneration config) archive)))
   else ret tt) ;;;
  ret (mkServerState (bool_decide (is_Some start)) None 0 None None).

Fixpoint serve (st : ServerState) (messages : list AuditUpstream) : srvM unit :=
  match messages with
  | [] => fail SyncStream
  | message :: rest => let* st' := serverReceive st message in serve st' rest
  end.

Definition Run (messages : list AuditUpstream) : srvM unit := let* st := serverStart in serve st messages.
End Server.
End Sync.

(** ** [agent.go] *)

Definition DefaultReadLimit : Z := 64.
Definition DefaultPollInterval : Z := 250 * 1000000.

Record AgentConfig := mkAgentConfig {
  ac_WAL : bool;
  ac_ArchiveID : string;
  ac_ReadLimit : Z;
  ac_PollInterval : Z;
  ac_Binder : option (AuditArchiveDescriptor -> option string);
}.

Definition NewAgent (config : AgentConfig) : res syncErr AgentConfig :=
  if negb (ac_WAL config) || str_empty (ac_ArchiveID config) then Err SyncConfig
  else
    let limit := if ac_ReadLimit config =? 0 then DefaultReadLimit else ac_ReadLimit config in
    let interval := if ac_PollInterval config =? 0 then DefaultPollInterval else ac_PollInterval config in
    if (limit <? 1) || (interval <=? 0) then Err SyncConfig
    else Ok (mkAgentConfig (ac_WAL config) (ac_ArchiveID config) limit interval (ac_Binder config)).

(** The Agent while a handler runs. *)
Record agt := mkAgt {
  at_wal : sys;
  at_up : list AuditUpstream;
  at_sends : list delivery;
  at_others : list (list wal_op);
  at_clock : list time;
}.

Definition agtM := M agt syncErr.

Definition inWAL {A} (m : walM A) : agtM A := fun s =>
  let '(r, w) := m (ops_run (default [] (head (at_others s))) (at_wal s)) in
  (match r with Ok v => Ok v | Err e => Err (SyncWAL e) end,
   mkAgt w (at_up s) (at_sends s) (tail (at_others s)) (at_clock s)).

Definition agent_now : agtM time := fun s =>
  (Ok (default time_zero (head (at_clock s))), mkAgt (at_wal s) (at_up s) (at_sends s) (at_others s) (tail (at_clock s))).

Definition Send (message : AuditUpstream) : agtM unit := fun s =>
  let '(delivered, ok) := default (true, true) (head (at_sends s)) in
  (if ok then Ok tt else Err SyncStream,
   mkAgt (at_wal s) (if delivered : bool then at_up s ++ [message] else at_up s) (tail (at_sends s)) (at_others s) (at_clock s)).

(** [wait]: the timer fires, or the context ends. *)
Definition wait : agtM unit := fun s =>
  (if (default (true, true) (head (at_sends s))).2 then Ok tt else Err SyncContext,
   mkAgt (at_wal s) (at_up s) (tail (at_sends s)) (at_others s) (at_clock s)).

Definition reason_text (r : GapReason) : string :=
  match r with GapRetention => "RETENTION" | GapDiskPressure => "DISK_PRESSURE" | GapReasonOther s => s end.
Definition precision_text (p : Precision) : string :=
  match p with WalMeta.PrecisionExact => "exact" | WalMeta.PrecisionCoalesced => "coalesced" | PrecisionOther s => s end.

Definition coverageToTransport (snapshot : Wal.CoverageSnapshot) : AuditCoverageSnapshot :=
  mkTransportCoverage (Wal.cs_Revision snapshot) (Wal.cs_GeneratedAt snapshot)
    ((fun gap => mkAuditGap (g_Incarnation gap) (g_FromSeq gap) (g_UntilSeq gap) (reason_text (g_Reason gap))
        (precision_text (g_Precision gap)) (g_LastLossRevision gap)) <$> Wal.cs_Gaps snapshot)
    (cs_UnknownIncarnations snapshot).

Definition boundsToTransport (value : Bounds) : AuditBounds :=
  mkTransportBounds (b_WALFloor value) (b_WALCeiling value) (b_NextCursor value) (b_ServerACKedThrough value)
    (b_AcknowledgedArchiveID value) (b_CoverageRevision value).

Definition behindFloorToTransport (requested : Cursor) (bounds : Bounds) (coverage : Wal.CoverageSnapshot) : AuditCursorBehindFloor :=
  mkBehindFloor requested (boundsToTransport bounds) (coverageToTransport coverage).

(** Where [SyncAudit] is: before the announcement, at the head of its loop, in
    the loop over the records read, or in [finishACK] for a record. *)
Inductive agentPhase :=
| AgAnnounce
| AgLoop (start : Cursor)
| AgBatch (start : Cursor) (records : list walRecord)
| AgAwait (proposed : Cursor) (rest : list walRecord).

Record AgentState := mkAgentState {
  as_archive : string;
  as_lastRevision : Z;
  as_phase : agentPhase;
}.

Section Agent.
Context (config : AgentConfig) (info : SessionInfo).

Definition startCursor (archiveID : string) : agtM Cursor :=
  let* bounds := inWAL Bounds_ in
  if* (negb (str_empty (b_AcknowledgedArchiveID bounds)) && negb (bool_decide (b_AcknowledgedArchiveID bounds = archiveID)))%bool
  then SyncArchive end;
  match b_ServerACKedThrough bounds with
  | Some ack =>
    if* Seq ack =? max_u64 then SyncExhausted end;
    ret (mkCursor (Incarnation ack) (Seq ack + 1))
  | None =>
    match b_WALFloor bounds with
    | Some floor => ret floor
    | None => ret (b_NextCursor bounds)
    end
  end.

(** [SyncAudit] from the first use of the WAL to the head of the loop. *)
Definition agentBegin (archiveID : string) : agtM AgentState :=
  let* now := agent_now in
  let* coverage := inWAL (GetAuditCoverage now) in
  if* negb (bool_decide (Wal.cs_AgentID coverage = in_AgentID info)) then SyncIdentity end;
  Send (send_coverage (coverageToTransport coverage)) ;;;
  let* start := startCursor archiveID in
  ret (mkAgentState archiveID (Wal.cs_Revision coverage) (AgLoop start)).

Definition agentStart : agtM AgentState :=
  if in_ProtocolVersion info >=? CurrentProductProtocolVersion
  then ret (mkAgentState (ac_ArchiveID config) 0 AgAnnounce)
  else agentBegin (ac_ArchiveID config).

Definition announced (ack : AuditAck) : agtM AgentState :=
  if* negb (IsArchiveAnnouncement ack) then SyncProtocol end;
  match ac_Binder config, aa_Archive ack with
  | Some bind, Some descriptor =>
    match bind descriptor with
    | None => fail SyncArchive
    | Some bound =>
      if* str_empty bound then SyncArchive end;
      agentBegin bound
    end
  | _, _ => agentBegin (ac_ArchiveID config)
  end.

(** A round of the loop of [SyncAudit], up to the loop over the records. *)
Definition loopRound (archiveID : string) (lastRevision : Z) (start : Cursor) : agtM AgentState :=
  let* now := agent_now in
  let* coverage := inWAL (GetAuditCoverage now) in
  let* lastRevision :=
    (if negb (Wal.cs_Revision coverage =? lastRevision)
     then Send (send_coverage (coverageToTransport coverage)) ;;; ret (Wal.cs_Revision coverage)
     else ret lastRevision) in
  let* now' := agent_now in
  let* result := inWAL (ReadAuditFrom now' start (ac_ReadLimit config)) in
  match result with
  | ReadBehindFloor requested bounds behindCoverage =>
    Send (send_behind (behindFloorToTransport requested bounds behindCoverage)) ;;;
    ret (mkAgentState archiveID (Wal.cs_Revision behindCoverage)
      (AgLoop (default (b_NextCursor bounds) (b_WALFloor bounds))))
  | ReadRecords [] => wait ;;; ret (mkAgentState archiveID lastRevision (AgLoop start))
  | ReadRecords records => ret (mkAgentState archiveID lastRevision (AgBatch start records))
  end.

Definition transport_record (r : walRecord) : AuditRecord :=
  mkAuditRecord (Incarnation (r_Cursor r)) (Seq (r_Cursor r)) (r_AppendedAt r) (r_Payload r).

(** The steps of [SyncAudit] that wait for nothing. *)
Definition agentProceed (st : AgentState) : agtM AgentState :=
  match as_phase st with
  | AgLoop start => loopRound (as_archive st) (as_lastRevision st) start
  | AgBatch start [] => ret (mkAgentState (as_archive st) (as_lastRevision st) (AgLoop start))
  | AgBatch start (r :: rest) =>
    Send (send_record (transport_record r)) ;;;
    ret (mkAgentState (as_archive st) (as_lastRevision st) (AgAwait (r_Cursor r) rest))
  | _ => ret st
  end.

(** A round of [finishACK], and the rest of the loop over the records once the
    acknowledgement is accepted. *)
Definition finishACK (st : AgentState) (proposed : Cursor) (rest : list walRecord) (ack : AuditAck) : agtM AgentState :=
  if* (negb (bool_decide (aa_AuditArchiveID ack = as_archive st)) || negb (aa_Incarnation ack =? Incarnation proposed)
       || negb (aa_Sequence ack =? Seq proposed))%bool then SyncProtocol end;
  let* result := attempt (inWAL (AckAudit (as_archive st) proposed (aa_CoverageRevisionSeen ack))) in
  match result with
  | Ok _ =>
    Send (send_result (mkAckResult proposed true None "")) ;;;
    if* Seq proposed =? max_u64 then SyncExhausted end;
    ret (mkAgentState (as_archive st) (as_lastRevision st) (AgBatch (mkCursor (Incarnation proposed) (Seq proposed + 1)) rest))
  | Err (SyncWAL (ErrStaleCoverage seen current acked blocking unknown)) =>
    let* now := agent_now in
    let* coverage := gets (fun s => coverageLocked now (s_wal (at_wal s))) in
    Send (send_result (mkAckResult proposed false (Some (coverageToTransport coverage)) "STALE_COVERAGE")) ;;;
    ret (mkAgentState (as_archive st) (Wal.cs_Revision coverage) (AgAwait proposed rest))
  | Err e => fail e
  end.

(** An acknowledgement received by [SyncAudit]. *)
Definition agentReceive (st : AgentState) (ack : AuditAck) : agtM AgentState :=
  match as_phase st with
  | AgAnnounce => announced ack
  | AgAwait proposed rest => finishACK st proposed rest ack
  | _ => ret st
  end.
End Agent.
