(* ===== verification/AuditWire.v ===== *)
(** * The wire form of the audit stream

    Models the conversions of [internal/producttransport/grpc.go] between the
    messages of the audit stream and those of the generated package [pb]: which
    messages a sender refuses, which a receiver refuses, and what a time becomes.
    A pointer of the wire is an option; its bytes are left to the protobuf
    library. *)

From S2P Require Import Prelude Cursor WalFrame WalMeta Wal WalInv WalProps WalOpen WalSpec WalRead AuditStore AuditRetention AuditSync.

(** ** Messages of the wire *)

Record pbCursor := mkPbCursor { pc_Incarnation : Z; pc_Sequence : Z }.
Record pbRecord := mkPbRecord { pr_Cursor : option pbCursor; pr_AppendedAtUnixNano : Z; pr_Payload : list Z }.
Record pbGap := mkPbGap {
  pg_Incarnation : Z; pg_FromSequence : Z; pg_UntilSequence : Z; pg_Reason : string; pg_Precision : string; pg_LastLossRevision : Z }.
Record pbCoverage := mkPbCoverage { pv_Revision : Z; pv_GeneratedAtUnixNano : Z; pv_Gaps : list (option pbGap); pv_Unknown : list Z }.
Record pbBounds := mkPbBounds {
  pb_WalFloor : option pbCursor; pb_WalCeiling : option pbCursor; pb_NextCursor : option pbCursor; pb_ServerAckedThrough : option pbCursor;
  pb_AcknowledgedArchiveId : string; pb_CoverageRevision : Z }.
Record pbBehindFloor := mkPbBehind { pf_Requested : option pbCursor; pf_Bounds : option pbBounds; pf_Coverage : option pbCoverage }.
Record pbAckResult := mkPbAckResult { px_Proposed : option pbCursor; px_Accepted : bool; px_StaleCoverage : option pbCoverage; px_Error : string }.
Record pbDescriptor := mkPbDescriptor { pd_ServerIdentityId : string; pd_Generation : Z; pd_AuditArchiveId : string }.
Record pbAck := mkPbAck { pa_AuditArchiveId : string; pa_Cursor : option pbCursor; pa_CoverageRevisionSeen : Z; pa_Archive : option pbDescriptor }.
(** The message of [AuditUpstream], when there is one. *)
Inductive pbUpstream :=
| PbRecord (r : option pbRecord) | PbCoverage (c : option pbCoverage) | PbBehindFloor (b : option pbBehindFloor) | PbAckResult (r : option pbAckResult) | PbNothing.

(** Every failure is [ErrProtocol]. *)
Definition wire (A : Type) := option A.

(** ** Times and cursors *)

(** [UnixNano] wraps. *)
Definition unixNanoOrZero (value : time) : Z := if is_zero value then 0 else i64 value.
Definition timeFromUnixNano (value : Z) : time := if value =? 0 then time_zero else value.

Definition validAuditCursor (c : Cursor) : bool := negb (Incarnation c =? 0) && negb (Seq c =? 0).
Definition validAuditCursorWire (c : option pbCursor) : bool :=
  match c with Some c => negb (pc_Incarnation c =? 0) && negb (pc_Sequence c =? 0) | None => false end.
Definition auditCursorToWire (c : Cursor) : option pbCursor := Some (mkPbCursor (Incarnation c) (Seq c)).
(** The getters of a nil message return zeros. *)
Definition auditCursorFromWire (c : option pbCursor) : Cursor := match c with Some c => mkCursor (pc_Incarnation c) (pc_Sequence c) | None => mkCursor 0 0 end.
Definition optionalAuditCursorToWire (c : option Cursor) : option pbCursor := match c with Some c => auditCursorToWire c | None => None end.
Definition optionalAuditCursorFromWire (c : option pbCursor) : option Cursor := match c with Some _ => Some (auditCursorFromWire c) | None => None end.

Definition auditBoundsToWire (b : AuditBounds) : pbBounds :=
  mkPbBounds (optionalAuditCursorToWire (tb_WALFloor b)) (optionalAuditCursorToWire (tb_WALCeiling b)) (auditCursorToWire (tb_NextCursor b))
    (optionalAuditCursorToWire (tb_ServerACKedThrough b)) (tb_AcknowledgedArchiveID b) (tb_CoverageRevision b).
Definition auditBoundsFromWire (b : pbBounds) : AuditBounds :=
  mkTransportBounds (optionalAuditCursorFromWire (pb_WalFloor b)) (optionalAuditCursorFromWire (pb_WalCeiling b)) (auditCursorFromWire (pb_NextCursor b))
    (optionalAuditCursorFromWire (pb_ServerAckedThrough b)) (pb_AcknowledgedArchiveId b) (pb_CoverageRevision b).

(** ** Coverage *)

Definition gap_sendable (g : AuditGap) : bool :=
  negb ((tg_Incarnation g =? 0) || (tg_FromSequence g =? 0) || (tg_UntilSequence g <=? tg_FromSequence g) || str_empty (tg_Reason g) || str_empty (tg_Precision g)).
Definition gap_to_wire (g : AuditGap) : option pbGap :=
  Some (mkPbGap (tg_Incarnation g) (tg_FromSequence g) (tg_UntilSequence g) (tg_Reason g) (tg_Precision g) (tg_LastLossRevision g)).
Definition gap_from_wire (g : pbGap) : AuditGap :=
  mkAuditGap (pg_Incarnation g) (pg_FromSequence g) (pg_UntilSequence g) (pg_Reason g) (pg_Precision g) (pg_LastLossRevision g).

Definition auditCoverageToWire (c : AuditCoverageSnapshot) : wire pbCoverage :=
  if negb (forallb gap_sendable (tc_Gaps c)) then None
  else if existsb (fun i => i =? 0) (tc_CoverageUnknownIncarnations c) then None
  else Some (mkPbCoverage (tc_Revision c) (unixNanoOrZero (tc_GeneratedAt c)) (gap_to_wire <$> tc_Gaps c) (tc_CoverageUnknownIncarnations c)).

Definition auditCoverageFromWire (w : option pbCoverage) : wire AuditCoverageSnapshot :=
  match w with
  | None => None
  | Some w =>
    if negb (forallb (fun g => match g with Some g => gap_sendable (gap_from_wire g) | None => false end) (pv_Gaps w)) then None
    else if existsb (fun i => i =? 0) (pv_Unknown w) then None
    else Some (mkTransportCoverage (pv_Revision w) (timeFromUnixNano (pv_GeneratedAtUnixNano w)) (gap_from_wire <$> omap id (pv_Gaps w)) (pv_Unknown w))
  end.

(** ** Messages of the Agent *)

Definition auditBehindFloorToWire (b : AuditCursorBehindFloor) : wire pbBehindFloor :=
  if negb (validAuditCursor (bf_Requested b)) || negb (validAuditCursor (tb_NextCursor (bf_Bounds b))) then None
  else match auditCoverageToWire (bf_Coverage b) with
       | None => None
       | Some coverage => Some (mkPbBehind (auditCursorToWire (bf_Requested b)) (Some (auditBoundsToWire (bf_Bounds b))) (Some coverage))
       end.

Definition auditBehindFloorFromWire (w : option pbBehindFloor) : wire AuditCursorBehindFloor :=
  match w with
  | None => None
  | Some w =>
    match pf_Bounds w with
    | None => None
    | Some bounds =>
      if negb (validAuditCursorWire (pf_Requested w)) || negb (validAuditCursorWire (pb_NextCursor bounds)) then None
      else match auditCoverageFromWire (pf_Coverage w) with
           | None => None
           | Some coverage => Some (mkBehindFloor (auditCursorFromWire (pf_Requested w)) (auditBoundsFromWire bounds) coverage)
           end
    end
  end.

(** An answer is accepted without coverage and error, or refused with both. *)
Definition answer_shape {A} (accepted : bool) (stale : option A) (error : string) : bool :=
  if accepted then bool_decide (stale = None) && str_empty error else negb (bool_decide (stale = None)) && negb (str_empty error).

Definition auditAckResultToWire (r : AuditAckResult) : wire pbAckResult :=
  if negb (validAuditCursor (ak_Proposed r)) || negb (answer_shape (ak_Accepted r) (ak_StaleCoverage r) (ak_Error r)) then None
  else
    match ak_StaleCoverage r with
    | None => Some (mkPbAckResult (auditCursorToWire (ak_Proposed r)) (ak_Accepted r) None (ak_Error r))
    | Some coverage =>
      match auditCoverageToWire coverage with
      | None => None
      | Some w => Some (mkPbAckResult (auditCursorToWire (ak_Proposed r)) (ak_Accepted r) (Some w) (ak_Error r))
      end
    end.

Definition auditAckResultFromWire (w : option pbAckResult) : wire AuditAckResult :=
  match w with
  | None => None
  | Some w =>
    if negb (validAuditCursorWire (px_Proposed w)) || negb (answer_shape (px_Accepted w) (px_StaleCoverage w) (px_Error w)) then None
    else
      match px_StaleCoverage w with
      | None => Some (mkAckResult (auditCursorFromWire (px_Proposed w)) (px_Accepted w) None (px_Error w))
      | Some c =>
        match auditCoverageFromWire (Some c) with
        | None => None
        | Some coverage => Some (mkAckResult (auditCursorFromWire (px_Proposed w)) (px_Accepted w) (Some coverage) (px_Error w))
        end
      end
  end.

Definition count_some {A} (o : option A) : Z := match o with Some _ => 1 | None => 0 end.

Definition auditUpstreamToWire (m : AuditUpstream) (maxMessageBytes : Z) : wire pbUpstream :=
  if negb (count_some (up_Record m) + count_some (up_Coverage m) + count_some (up_CursorBehindFloor m) + count_some (up_AckResult m) =? 1) then None
  else
    match up_Record m, up_Coverage m, up_CursorBehindFloor m, up_AckResult m with
    | Some r, _, _, _ =>
      if (ar_Incarnation r =? 0) || (ar_Sequence r =? 0) || (lenZ (ar_Payload r) >? maxMessageBytes) then None
      else Some (PbRecord (Some (mkPbRecord (auditCursorToWire (mkCursor (ar_Incarnation r) (ar_Sequence r))) (unixNanoOrZero (ar_AppendedAt r)) (ar_Payload r))))
    | None, Some c, _, _ => match auditCoverageToWire c with Some w => Some (PbCoverage (Some w)) | None => None end
    | None, None, Some b, _ => match auditBehindFloorToWire b with Some w => Some (PbBehindFloor (Some w)) | None => None end
    | None, None, None, Some r => match auditAckResultToWire r with Some w => Some (PbAckResult (Some w)) | None => None end
    | None, None, None, None => None
    end.

Definition auditUpstreamFromWire (m : option pbUpstream) : wire AuditUpstream :=
  match m with
  | None | Some PbNothing => None
  | Some (PbRecord r) =>
    match r with
    | Some r =>
      if negb (validAuditCursorWire (pr_Cursor r)) then None
      else
        let cursor := auditCursorFromWire (pr_Cursor r) in
        Some (send_record (mkAuditRecord (Incarnation cursor) (Seq cursor) (timeFromUnixNano (pr_AppendedAtUnixNano r)) (pr_Payload r)))
    | None => None
    end
  | Some (PbCoverage c) => send_coverage <$> auditCoverageFromWire c
  | Some (PbBehindFloor b) => send_behind <$> auditBehindFloorFromWire b
  | Some (PbAckResult r) => send_result <$> auditAckResultFromWire r
  end.

(** ** Messages of the Server *)

Definition auditAckToWire (a : AuditAck) : wire pbAck :=
  match (if IsArchiveAnnouncement a then aa_Archive a else None) with
  | Some archive =>
    if str_empty (dc_ServerIdentityID archive) || (dc_Generation archive =? 0) || str_empty (dc_AuditArchiveID archive) then None
    else Some (mkPbAck (dc_AuditArchiveID archive) None 0 (Some (mkPbDescriptor (dc_ServerIdentityID archive) (dc_Generation archive) (dc_AuditArchiveID archive))))
  | None =>
    if str_empty (aa_AuditArchiveID a) || (aa_Incarnation a =? 0) || (aa_Sequence a =? 0) then None
    else Some (mkPbAck (aa_AuditArchiveID a) (auditCursorToWire (mkCursor (aa_Incarnation a) (aa_Sequence a))) (aa_CoverageRevisionSeen a) None)
  end.

Definition auditAckFromWire (w : option pbAck) : wire AuditAck :=
  match w with
  | None => None
  | Some w =>
    if str_empty (pa_AuditArchiveId w) then None
    else
      match pa_Archive w, pa_Cursor w with
      | Some d, None =>
        if str_empty (pd_ServerIdentityId d) || (pd_Generation d =? 0) || str_empty (pd_AuditArchiveId d) then None
        else Some (mkAck (pa_AuditArchiveId w) 0 0 0 (Some (mkDescriptor (pd_ServerIdentityId d) (pd_Generation d) (pd_AuditArchiveId d))))
      | _, cursor =>
        if negb (validAuditCursorWire cursor) then None
        else let c := auditCursorFromWire cursor in Some (mkAck (pa_AuditArchiveId w) (Incarnation c) (Seq c) (pa_CoverageRevisionSeen w) None)
      end
  end.

(** ** What arrives *)

(** A time that survives: the zero time, or one within the range of [UnixNano]
    other than the epoch. *)
Definition wire_time (t : time) : Prop := t = time_zero \/ (i64_ok t /\ t <> 0).

Lemma time_roundtrip t : wire_time t -> timeFromUnixNano (unixNanoOrZero t) = t.
Proof.
  unfold timeFromUnixNano, unixNanoOrZero, is_zero. intros [-> |[Hi Hn]]; [done|]. destruct (t =? time_zero) eqn:Ez; bool_to_prop; [by rewrite Ez|].
  assert (i64 t = t) as E by (unfold i64, i64_ok, min_i64, max_i64 in *; rewrite Z.mod_small; lia). rewrite E. by replace (t =? 0) with false by lia.
Qed.

Lemma cursor_roundtrip c : auditCursorFromWire (auditCursorToWire c) = c.
Proof. by destruct c. Qed.
Lemma cursor_valid_wire c : validAuditCursorWire (auditCursorToWire c) = validAuditCursor c.
Proof. done. Qed.
Lemma optional_roundtrip c : optionalAuditCursorFromWire (optionalAuditCursorToWire c) = c.
Proof. by destruct c as [[]|]. Qed.
Lemma bounds_roundtrip b : auditBoundsFromWire (auditBoundsToWire b) = b.
Proof. destruct b as [f c [] a s r]. unfold auditBoundsFromWire, auditBoundsToWire. simpl. by rewrite !optional_roundtrip. Qed.

Lemma gaps_roundtrip (gaps : list AuditGap) : gap_from_wire <$> omap id (gap_to_wire <$> gaps) = gaps.
Proof. induction gaps as [|[] gaps IH]; [done|]. simpl. f_equal. exact IH. Qed.
Lemma gaps_valid_wire (gaps : list AuditGap) :
  forallb (fun g => match g with Some g => gap_sendable (gap_from_wire g) | None => false end) (gap_to_wire <$> gaps) = forallb gap_sendable gaps.
Proof. induction gaps as [|g gaps IH]; [done|]. simpl. destruct g. simpl. by f_equal. Qed.

Lemma coverage_roundtrip c w : wire_time (tc_GeneratedAt c) -> auditCoverageToWire c = Some w -> auditCoverageFromWire (Some w) = Some c.
Proof.
  intros Ht. unfold auditCoverageToWire, auditCoverageFromWire. destruct (forallb _ _) eqn:Eg; [|done]. destruct (existsb _ _) eqn:Eu; [done|]. intros [= <-].
  cbn [pv_Gaps pv_Unknown pv_Revision pv_GeneratedAtUnixNano]. rewrite gaps_valid_wire, Eg, Eu, gaps_roundtrip, time_roundtrip by done. by destruct c.
Qed.

Lemma behind_roundtrip b w : wire_time (tc_GeneratedAt (bf_Coverage b)) -> auditBehindFloorToWire b = Some w -> auditBehindFloorFromWire (Some w) = Some b.
Proof.
  intros Ht. unfold auditBehindFloorToWire, auditBehindFloorFromWire. destruct (_ || _) eqn:Ev; [done|]. destruct (auditCoverageToWire _) as [c|] eqn:Ec; [|done]. intros [= <-].
  cbn [pf_Requested pf_Bounds pf_Coverage auditBoundsToWire pb_NextCursor]. rewrite !cursor_valid_wire, Ev, (coverage_roundtrip _ _ Ht Ec), bounds_roundtrip, cursor_roundtrip. by destruct b.
Qed.

Definition answer_time (r : AuditAckResult) : Prop := forall c, ak_StaleCoverage r = Some c -> wire_time (tc_GeneratedAt c).

Lemma answer_roundtrip r w : answer_time r -> auditAckResultToWire r = Some w -> auditAckResultFromWire (Some w) = Some r.
Proof.
  intros Ht. unfold auditAckResultToWire, auditAckResultFromWire. destruct (_ || _) eqn:Ev; [done|]. destruct r as [p a [c|] e]; cbn [ak_StaleCoverage ak_Proposed ak_Accepted ak_Error] in *.
  - destruct (auditCoverageToWire c) as [x|] eqn:Ec; [|done]. intros [= <-]. cbn [px_Proposed px_Accepted px_StaleCoverage px_Error]. rewrite cursor_valid_wire, cursor_roundtrip.
    rewrite (coverage_roundtrip c x (Ht c eq_refl) Ec). change (answer_shape a (Some x) e) with (answer_shape a (Some c) e). by rewrite Ev.
  - intros [= <-]. cbn [px_Proposed px_Accepted px_StaleCoverage px_Error]. rewrite cursor_valid_wire, cursor_roundtrip. change (answer_shape a (@None pbCoverage) e) with (answer_shape a (@None AuditCoverageSnapshot) e). by rewrite Ev.
Qed.

Definition upstream_times (m : AuditUpstream) : Prop :=
  (forall r, up_Record m = Some r -> wire_time (ar_AppendedAt r)) /\ (forall c, up_Coverage m = Some c -> wire_time (tc_GeneratedAt c)) /\
  (forall b, up_CursorBehindFloor m = Some b -> wire_time (tc_GeneratedAt (bf_Coverage b))) /\ (forall r, up_AckResult m = Some r -> answer_time r).

Lemma upstream_roundtrip m maxMessageBytes w : upstream_times m -> auditUpstreamToWire m maxMessageBytes = Some w -> auditUpstreamFromWire (Some w) = Some m.
Proof.
  intros (Tr & Tc & Tb & Ta). unfold auditUpstreamToWire. destruct m as [r c b a]. cbn [up_Record up_Coverage up_CursorBehindFloor up_AckResult] in *.
  destruct r as [r|], c as [c|], b as [b|], a as [a|]; try done; cbn [count_some Z.add Z.eqb Pos.eqb negb Pos.add].
  - destruct (_ || _) eqn:E; [done|]. intros [= <-]. bool_to_prop. cbn [auditUpstreamFromWire pr_Cursor pr_AppendedAtUnixNano pr_Payload]. rewrite cursor_valid_wire. unfold validAuditCursor.
    cbn [Incarnation Seq]. rewrite !(proj2 (Z.eqb_neq _ _)) by done. cbn [negb andb]. rewrite time_roundtrip by auto. by destruct r.
  - destruct (auditCoverageToWire c) as [x|] eqn:Ec; [|done]. intros [= <-]. unfold auditUpstreamFromWire. by rewrite (coverage_roundtrip c x (Tc c eq_refl) Ec).
  - destruct (auditBehindFloorToWire b) as [x|] eqn:Ec; [|done]. intros [= <-]. unfold auditUpstreamFromWire. by rewrite (behind_roundtrip b x (Tb b eq_refl) Ec).
  - destruct (auditAckResultToWire a) as [x|] eqn:Ec; [|done]. intros [= <-]. unfold auditUpstreamFromWire. by rewrite (answer_roundtrip a x (Ta a eq_refl) Ec).
Qed.

(** An acknowledgement names no archive; an announcement nothing but its archive. *)
Definition plain_ack (a : AuditAck) : Prop :=
  match aa_Archive a with
  | None => True
  | Some d => aa_AuditArchiveID a = dc_AuditArchiveID d /\ (aa_Incarnation a, aa_Sequence a, aa_CoverageRevisionSeen a) = (0, 0, 0)
  end.

Lemma ack_roundtrip a w : plain_ack a -> auditAckToWire a = Some w -> auditAckFromWire (Some w) = Some a.
Proof.
  destruct a as [id inc seq rev [d|]]; unfold plain_ack, auditAckToWire, IsArchiveAnnouncement; cbn [aa_Archive aa_AuditArchiveID aa_Incarnation aa_Sequence aa_CoverageRevisionSeen].
  - intros [-> [= -> -> ->]]. rewrite bool_decide_eq_true_2 by done. cbn [Z.eqb andb]. destruct (_ || _) eqn:E; [done|]. intros [= <-]. unfold auditAckFromWire.
    cbn [pa_AuditArchiveId pa_Archive pa_Cursor pd_ServerIdentityId pd_Generation pd_AuditArchiveId]. rewrite E. apply orb_false_iff in E as [_ E]. rewrite E. by destruct d.
  - intros _. rewrite bool_decide_eq_false_2 by (by intros [? ?]). cbn [andb]. destruct (_ || _) eqn:E; [done|]. intros [= <-]. unfold auditAckFromWire.
    rewrite !orb_false_iff in E. destruct E as [[E1 E2] E3]. cbn [pa_AuditArchiveId pa_Archive pa_Cursor pa_CoverageRevisionSeen]. rewrite E1, cursor_valid_wire, cursor_roundtrip.
    unfold validAuditCursor. cbn [Incarnation Seq]. by rewrite E2, E3.
Qed.

(** *** What a receiver takes *)

Lemma coverage_sound w c : auditCoverageFromWire (Some w) = Some c -> exists w', auditCoverageToWire c = Some w'.
Proof.
  unfold auditCoverageFromWire, auditCoverageToWire. destruct (forallb _ _) eqn:Eg; [|done]. destruct (existsb _ _) eqn:Eu; [done|]. intros [= <-].
  cbn [tc_Gaps tc_CoverageUnknownIncarnations]. rewrite Eu. replace (forallb gap_sendable _) with true; [by eexists|]. symmetry. clear Eu.
  induction (pv_Gaps w) as [|[g|] gaps IH]; [done | | done]. cbn [forallb] in Eg. apply andb_true_iff in Eg as [Eg1 Eg]. change (omap id (Some g :: gaps)) with (g :: omap id gaps).
  rewrite fmap_cons. cbn [forallb]. rewrite Eg1. by apply IH.
Qed.

Lemma cursor_from_valid c : validAuditCursor (auditCursorFromWire c) = validAuditCursorWire c.
Proof. by destruct c as [[]|]. Qed.

Lemma behind_sound w b : auditBehindFloorFromWire (Some w) = Some b -> exists w', auditBehindFloorToWire b = Some w'.
Proof.
  unfold auditBehindFloorFromWire, auditBehindFloorToWire. destruct (pf_Bounds w) as [bounds|]; [|done]. destruct (_ || _) eqn:Ev; [done|].
  destruct (pf_Coverage w) as [wc|]; [|done]. destruct (auditCoverageFromWire (Some wc)) as [c|] eqn:Ec; [|done]. intros [= <-]. cbn [bf_Requested bf_Bounds bf_Coverage auditBoundsFromWire tb_NextCursor].
  rewrite !cursor_from_valid, Ev. destruct (coverage_sound wc c Ec) as [w' ->]. by eexists.
Qed.

Lemma answer_sound w r : auditAckResultFromWire (Some w) = Some r -> exists w', auditAckResultToWire r = Some w'.
Proof.
  unfold auditAckResultFromWire, auditAckResultToWire. destruct (_ || _) eqn:Ev; [done|]. destruct w as [p a [wc|] e]; cbn [px_StaleCoverage px_Proposed px_Accepted px_Error] in *.
  - destruct (auditCoverageFromWire (Some wc)) as [c|] eqn:Ec; [|done]. intros [= <-]. cbn [ak_Proposed ak_Accepted ak_StaleCoverage ak_Error]. rewrite cursor_from_valid.
    change (answer_shape a (Some c) e) with (answer_shape a (Some wc) e). rewrite Ev. destruct (coverage_sound wc c Ec) as [w' ->]. by eexists.
  - intros [= <-]. cbn [ak_Proposed ak_Accepted ak_StaleCoverage ak_Error]. rewrite cursor_from_valid.
    change (answer_shape a (@None AuditCoverageSnapshot) e) with (answer_shape a (@None pbCoverage) e). rewrite Ev. by eexists.
Qed.

(** A message that was received would have been sent, if its record is not too
    long. *)
Lemma upstream_sound w m maxMessageBytes : auditUpstreamFromWire (Some w) = Some m -> (forall r, up_Record m = Some r -> lenZ (ar_Payload r) <= maxMessageBytes) ->
  exists w', auditUpstreamToWire m maxMessageBytes = Some w'.
Proof.
  destruct w as [[r|]|[c|]|[b|]|[a|]|]; try done; unfold auditUpstreamFromWire.
  - destruct (validAuditCursorWire (pr_Cursor r)) eqn:Ev; [|done]. intros [= <-] Hlen. specialize (Hlen _ eq_refl). cbn [ar_Payload] in Hlen. unfold auditUpstreamToWire, send_record.
    cbn [up_Record up_Coverage up_CursorBehindFloor up_AckResult count_some Z.add Z.eqb Pos.eqb negb ar_Incarnation ar_Sequence ar_Payload]. rewrite <- cursor_from_valid in Ev.
    unfold validAuditCursor in Ev. apply andb_true_iff in Ev as [E1 E2]. rewrite negb_true_iff in E1, E2. rewrite E1, E2.
    rewrite Z.gtb_ltb, (proj2 (Z.ltb_ge _ _)) by lia. by eexists.
  - destruct (auditCoverageFromWire (Some c)) as [x|] eqn:E; [|done]. intros [= <-] _. destruct (coverage_sound c x E) as [w' Ew]. eexists. unfold auditUpstreamToWire. simpl. by rewrite Ew.
  - destruct (auditBehindFloorFromWire (Some b)) as [x|] eqn:E; [|done]. intros [= <-] _. destruct (behind_sound b x E) as [w' Ew]. eexists. unfold auditUpstreamToWire. simpl. by rewrite Ew.
  - destruct (auditAckResultFromWire (Some a)) as [x|] eqn:E; [|done]. intros [= <-] _. destruct (answer_sound a x E) as [w' Ew]. eexists. unfold auditUpstreamToWire. simpl. by rewrite Ew.
Qed.

(** ** Claims *)

(** What is sent on the audit stream arrives as it was. A message that the
    sender accepts is read by the receiver as the same message, in both
    directions, provided that its times are zero or within the range of 64-bit
    nanoseconds and not the epoch, and that an acknowledgement names no archive.
    The receiver takes nothing that a sender would refuse, but for the length of a
    record. *)
Theorem wire_roundtrip maxMessageBytes :
  (forall m w, upstream_times m -> auditUpstreamToWire m maxMessageBytes = Some w -> auditUpstreamFromWire (Some w) = Some m) /\
  (forall a w, plain_ack a -> auditAckToWire a = Some w -> auditAckFromWire (Some w) = Some a) /\
  (forall w m, auditUpstreamFromWire (Some w) = Some m -> (forall r, up_Record m = Some r -> lenZ (ar_Payload r) <= maxMessageBytes) ->
     exists w', auditUpstreamToWire m maxMessageBytes = Some w').
Proof. split_and!; [intros m w; apply upstream_roundtrip | apply ack_roundtrip | intros w m; apply upstream_sound]. Qed.

Definition arrives (maxMessageBytes : Z) (m : AuditUpstream) : Prop :=
  exists w, auditUpstreamToWire m maxMessageBytes = Some w /\ auditUpstreamFromWire (Some w) = Some m.

(** A valid log's coverage can be sent. *)
Lemma gaps_sendable current revision unknown gaps : forall previous, gaps_ok current revision unknown previous gaps = true ->
  forallb gap_sendable ((fun gap => mkAuditGap (g_Incarnation gap) (g_FromSeq gap) (g_UntilSeq gap) (reason_text (g_Reason gap))
        (precision_text (g_Precision gap)) (g_LastLossRevision gap)) <$> gaps) = true.
Proof.
  induction gaps as [|g gaps IH]; intros previous; [done|]. cbn [gaps_ok]. destruct (_ || _) eqn:E; [done|]. do 3 (case_if; [done|]). intros Hok. rewrite fmap_cons. cbn [forallb].
  apply andb_true_iff. split; [|by eapply IH]. rewrite !orb_false_iff in E. destruct E as [[[[[[[E1 _] E3] E4] E5] E6] _] _].
  unfold gap_sendable. cbn [tg_Incarnation tg_FromSequence tg_UntilSequence tg_Reason tg_Precision]. rewrite E1, E3, E4. by destruct (g_Reason g), (g_Precision g).
Qed.

Lemma unknown_sendable current unknown : forall previous, unknown_entries_ok current previous unknown = true -> existsb (fun i => i =? 0) unknown = false.
Proof.
  induction unknown as [|i unknown IH]; intros previous; [done|]. cbn [unknown_entries_ok existsb]. intros [H1 H2]%andb_true_iff. rewrite negb_true_iff, !orb_false_iff in H1.
  destruct H1 as [[-> _] _]. simpl. by eapply IH.
Qed.

Lemma coverage_sendable now w : wal_inv w -> wire_time now -> exists x, auditCoverageToWire (coverageToTransport (coverageLocked now w)) = Some x /\
  auditCoverageFromWire (Some x) = Some (coverageToTransport (coverageLocked now w)).
Proof.
  intros Hi Ht. destruct (wi_meta _ Hi) as (_ & _ & _ & _ & _ & _ & _ & _ & _ & Hc). unfold coverage_ok in Hc. rewrite !andb_true_iff in Hc. destruct Hc as [[[_ _] Hu] Hg].
  assert (exists x, auditCoverageToWire (coverageToTransport (coverageLocked now w)) = Some x) as [x Hx].
  { unfold auditCoverageToWire, coverageToTransport. cbn [tc_Gaps tc_CoverageUnknownIncarnations Wal.cs_Gaps coverageLocked cs_UnknownIncarnations].
    rewrite (gaps_sendable _ _ _ _ _ Hg), (unknown_sendable _ _ _ Hu). by eexists. }
  exists x. split; [done|]. by apply coverage_roundtrip.
Qed.

Lemma cursor_ok_valid c : cursor_ok c -> validAuditCursor c = true.
Proof. intros [? ?]. unfold validAuditCursor. rewrite !(proj2 (Z.eqb_neq _ _)) by lia. done. Qed.

(** What [AckAudit] has checked of a proposal when it answers for it. *)
Lemma ack_valid archive proposed revision s r s' : AckAudit archive proposed revision s = (r, s') ->
  r = Ok tt \/ (exists seen current acked blocking unknown, r = Err (ErrStaleCoverage seen current acked blocking unknown)) -> validAuditCursor proposed = true.
Proof.
  unfold AckAudit, bind at 1, gets at 1. destruct (w_closed _); [intros [= <- _]; by intros [|(? & ? & ? & ? & ? & ?)]|].
  destruct (_ || _) eqn:E; [intros [= <- _]; by intros [|(? & ? & ? & ? & ? & ?)]|]. intros _ _. bool_to_prop. unfold validAuditCursor. rewrite !(proj2 (Z.eqb_neq _ _)) by done. done.
Qed.


(** ** Demonstrations *)

Definition toy_message : AuditUpstream := send_record (mkAuditRecord 3 7 1000 [1; 2; 3]).

Lemma wire_roundtrip_witness : exists w, auditUpstreamToWire toy_message 64 = Some w /\ auditUpstreamFromWire (Some w) = Some toy_message.
Proof.
  destruct (auditUpstreamToWire toy_message 64) as [w|] eqn:E; [|vm_compute in E; discriminate E]. exists w. split; [reflexivity|].
  apply (wire_roundtrip 64); [|exact E]. split_and!; [intros r [= <-]; right; split; [vm_compute; split; discriminate | discriminate] | done | done | done].
Defined.

