(* ===== verification/OperationWire.v ===== *)
(** * Operation control over the session

    Models the control calls of [internal/producttransport/grpc.go]: the Server's
    [GetOperation], [CancelOperation] and [ListActiveOperations], the Agent's
    handlers of them, and the conversions of an operation's record. A call goes
    through the Server's checks, the Agent's service, the Agent's handler, which is
    an argument, and the Server's checks of the answer; it fails when the transport
    does. The size of an encoded answer is an argument. *)

From S2P Require Import Prelude GoText AuditWire.

(** ** Data *)

Definition MaxOperationIDBytes : Z := 256.
Definition MaxCancelReasonBytes : Z := 32.
Definition MaxActiveOperationCount : Z := 500.
Definition MaxOperationOutputTailBytes : Z := 64 * 1024.

Record OperationResponse := mkResponse {
  or_Status : string;
  or_Phase : string;
  or_Revision : Z;
  or_PartialEffectsPossible : bool;
  or_Error : string;
  or_OutputTail : list Z;
  or_OutputTruncated : bool;
  or_CancelMode : string;
  or_CanCancel : bool;
  or_CancelabilityReason : string;
  or_RequestedAt : time;
  or_StartedAt : time;
  or_FinishedAt : time;
}.

Record ActiveOperation := mkActive { av_OperationID : string; av_Type : string; av_ProjectKey : string; av_Target : string; av_Operation : OperationResponse }.

Inductive rpcErr := RpcInvalidArgument | RpcUnimplemented | RpcUnavailable | RpcProtocol | RpcInternal | RpcExhausted | RpcHandler | RpcTransport.

(** Times travel as nanoseconds. *)
Record pbResponse := mkPbResponse { po_fields : OperationResponse; po_Requested : Z; po_Started : Z; po_Finished : Z }.
Record pbActive := mkPbActive { pt_OperationId : string; pt_Type : string; pt_ProjectKey : string; pt_Target : string; pt_Operation : option pbResponse }.

Definition timeToUnixNano (value : time) : Z := if is_zero value then 0 else i64 value.
Definition unixNanoToTime (value : Z) : time := if value <=? 0 then time_zero else value.

Definition with_times (requested started finished : time) (r : OperationResponse) : OperationResponse :=
  mkResponse (or_Status r) (or_Phase r) (or_Revision r) (or_PartialEffectsPossible r) (or_Error r) (or_OutputTail r) (or_OutputTruncated r) (or_CancelMode r)
    (or_CanCancel r) (or_CancelabilityReason r) requested started finished.
Definition operationResponseToWire (r : OperationResponse) : pbResponse :=
  mkPbResponse (with_times time_zero time_zero time_zero r) (timeToUnixNano (or_RequestedAt r)) (timeToUnixNano (or_StartedAt r)) (timeToUnixNano (or_FinishedAt r)).
Definition operationResponseFromWire (w : pbResponse) : OperationResponse :=
  with_times (unixNanoToTime (po_Requested w)) (unixNanoToTime (po_Started w)) (unixNanoToTime (po_Finished w)) (po_fields w).

Definition valid_control_id (id : string) : bool := negb (str_empty id || (strlen id >? MaxOperationIDBytes) || negb (ValidString id)).
Definition validateOperationControlID (operationID : string) : res rpcErr unit := if valid_control_id operationID then Ok tt else Err RpcInvalidArgument.
Definition validateCancelReason (reason : string) : res rpcErr unit :=
  if str_empty reason || (strlen reason >? MaxCancelReasonBytes) || negb (ValidString reason) then Err RpcInvalidArgument
  else if bool_decide (reason ∈ ["USER"; "TIMEOUT"; "AGENT_SHUTDOWN"]) then Ok tt
  else Err RpcInvalidArgument.
Definition validCancelOutcome (outcome : string) : bool := bool_decide (outcome ∈ ["ACCEPTED"; "TOO_LATE"; "NOT_CANCELABLE"; "ALREADY_TERMINAL"; "NOT_FOUND"]).

(** ** The Agent's service *)

(** What the Agent's product handler can do; a missing one is not implemented. Any
    other error of a handler reaches the Server as one without a code. *)
Record handlers := mkHandlers {
  hd_get : option (string -> res rpcErr (option OperationResponse));
  hd_cancel : option (string -> string -> res rpcErr (string * OperationResponse));
  hd_list : option (res rpcErr (list ActiveOperation));
}.

Section Service.
Context (h : handlers) (proto_size : list pbActive -> Z) (maxMessageBytes : Z).

(** The answer to a lookup: found, and the record. *)
Definition getOperation (operationID : string) : res rpcErr (bool * option pbResponse) :=
  match validateOperationControlID operationID with
  | Err e => Err e
  | Ok _ =>
    match hd_get h with
    | None => Err RpcUnimplemented
    | Some handler =>
      match handler operationID with
      | Err _ => Err RpcHandler
      | Ok None => Ok (false, None)
      | Ok (Some response) => Ok (true, Some (operationResponseToWire response))
      end
    end
  end.

Definition cancelOperation (operationID reason : string) : res rpcErr (string * option pbResponse) :=
  match validateOperationControlID operationID, validateCancelReason reason with
  | Err e, _ => Err e
  | _, Err e => Err e
  | Ok _, Ok _ =>
    match hd_cancel h with
    | None => Err RpcUnimplemented
    | Some handler =>
      match handler operationID reason with
      | Err _ => Err RpcHandler
      | Ok (outcome, operation) =>
        if negb (validCancelOutcome outcome) then Err RpcInternal
        else Ok (outcome, if bool_decide (outcome = "NOT_FOUND") then None else Some (operationResponseToWire operation))
      end
    end
  end.

(** The loop over the active operations; [previous] is the identifier before. *)
Fixpoint active_to_wire (previous : option string) (l : list ActiveOperation) : res rpcErr (list pbActive) :=
  match l with
  | [] => Ok []
  | active :: rest =>
    if negb (valid_control_id (av_OperationID active)) then Err RpcInternal
    else if match previous with Some p => negb (str_less p (av_OperationID active)) | None => false end then Err RpcInternal
    else if lenZ (or_OutputTail (av_Operation active)) >? MaxOperationOutputTailBytes then Err RpcExhausted
    else
      match active_to_wire (Some (av_OperationID active)) rest with
      | Err e => Err e
      | Ok w => Ok (mkPbActive (av_OperationID active) (av_Type active) (av_ProjectKey active) (av_Target active) (Some (operationResponseToWire (av_Operation active))) :: w)
      end
  end.

Definition listActiveOperations : res rpcErr (list pbActive) :=
  match hd_list h with
  | None => Err RpcUnimplemented
  | Some (Err RpcUnavailable) => Err RpcUnimplemented
  | Some (Err _) => Err RpcHandler
  | Some (Ok operations) =>
    if lenZ operations >? MaxActiveOperationCount then Err RpcExhausted
    else
      match active_to_wire None operations with
      | Err e => Err e
      | Ok w => if proto_size w >? maxMessageBytes then Err RpcExhausted else Ok w
      end
  end.

(** ** The Server's calls *)

(** An answer reaches the Server, or the call fails. *)
Definition Invoke {A} (delivered : bool) (answer : res rpcErr A) : res rpcErr A :=
  if delivered then match answer with Err RpcUnimplemented => Err RpcUnavailable | r => r end else Err RpcTransport.

Definition GetOperation (delivered : bool) (operationID : string) : res rpcErr (option OperationResponse) :=
  match validateOperationControlID operationID with
  | Err e => Err e
  | Ok _ =>
    match Invoke delivered (getOperation operationID) with
    | Err e => Err e
    | Ok (false, None) => Ok None
    | Ok (true, Some w) => Ok (Some (operationResponseFromWire w))
    | Ok _ => Err RpcProtocol
    end
  end.

Definition CancelOperation (delivered : bool) (operationID reason : string) : res rpcErr (string * option OperationResponse) :=
  match validateOperationControlID operationID, validateCancelReason reason with
  | Err e, _ => Err e
  | _, Err e => Err e
  | Ok _, Ok _ =>
    match Invoke delivered (cancelOperation operationID reason) with
    | Err e => Err e
    | Ok (outcome, operation) =>
      if negb (validCancelOutcome outcome) then Err RpcProtocol
      else if bool_decide (outcome = "NOT_FOUND")
      then match operation with Some _ => Err RpcProtocol | None => Ok (outcome, None) end
      else match operation with Some w => Ok (outcome, Some (operationResponseFromWire w)) | None => Err RpcProtocol end
    end
  end.

Fixpoint active_from_wire (previous : option string) (l : list pbActive) : res rpcErr (list ActiveOperation) :=
  match l with
  | [] => Ok []
  | active :: rest =>
    match pt_Operation active with
    | None => Err RpcProtocol
    | Some operation =>
      if negb (valid_control_id (pt_OperationId active)) then Err RpcProtocol
      else if match previous with Some p => negb (str_less p (pt_OperationId active)) | None => false end then Err RpcProtocol
      else if lenZ (or_OutputTail (po_fields operation)) >? MaxOperationOutputTailBytes then Err RpcProtocol
      else
        match active_from_wire (Some (pt_OperationId active)) rest with
        | Err e => Err e
        | Ok r => Ok (mkActive (pt_OperationId active) (pt_Type active) (pt_ProjectKey active) (pt_Target active) (operationResponseFromWire operation) :: r)
        end
    end
  end.
Definition activeOperationsFromWire (w : list pbActive) : res rpcErr (list ActiveOperation) :=
  if lenZ w >? MaxActiveOperationCount then Err RpcProtocol else active_from_wire None w.

Definition ListActiveOperations (delivered : bool) : res rpcErr (list ActiveOperation) :=
  match Invoke delivered listActiveOperations with
  | Err e => Err e
  | Ok w => activeOperationsFromWire w
  end.
End Service.

(** ** What the Server learns *)

(** A time that survives: the zero time, or one after the epoch. *)
Definition op_time (t : time) : Prop := t = time_zero \/ 0 < t <= max_i64.
Definition op_times (r : OperationResponse) : Prop := op_time (or_RequestedAt r) /\ op_time (or_StartedAt r) /\ op_time (or_FinishedAt r).

Lemma op_time_roundtrip t : op_time t -> unixNanoToTime (timeToUnixNano t) = t.
Proof.
  unfold op_time, unixNanoToTime, timeToUnixNano, is_zero, max_i64. intros [-> |Ht]; [done|]. destruct (t =? time_zero) eqn:Ez; bool_to_prop; [by rewrite Ez|].
  assert (i64 t = t) as -> by (unfold i64; rewrite Z.mod_small; lia). by replace (t <=? 0) with false by lia.
Qed.

Lemma response_roundtrip r : op_times r -> operationResponseFromWire (operationResponseToWire r) = r.
Proof. intros (H1 & H2 & H3). unfold operationResponseFromWire, operationResponseToWire. cbn [po_fields po_Requested po_Started po_Finished]. rewrite !op_time_roundtrip by done. by destruct r. Qed.

(** A list that may be sent: valid identifiers, each above the one before, and
    outputs within the limit. *)
Definition active_fine (a : ActiveOperation) : Prop :=
  valid_control_id (av_OperationID a) = true /\ lenZ (or_OutputTail (av_Operation a)) <= MaxOperationOutputTailBytes.
Definition ordered (l : list ActiveOperation) : Prop := Sorted (fun a b => str_less a b = true) (av_OperationID <$> l).
Definition after (previous : option string) (l : list ActiveOperation) : Prop :=
  match previous, l with Some p, a :: _ => str_less p (av_OperationID a) = true | _, _ => True end.

Lemma ordered_cons a l : ordered (a :: l) <-> ordered l /\ after (Some (av_OperationID a)) l.
Proof.
  unfold ordered, after. rewrite fmap_cons. split.
  - intros H. inversion H as [|? ? Hs Hd]; subst. split; [done|]. destruct l as [|b l]; [done|]. by inversion Hd.
  - intros [Hs Hd]. constructor; [done|]. destruct l as [|b l]; constructor. done.
Qed.

Lemma active_sent l : forall previous, Forall active_fine l -> ordered l -> after previous l -> Forall (fun a => op_times (av_Operation a)) l ->
  exists w, active_to_wire previous l = Ok w /\ active_from_wire previous w = Ok l /\ length w = length l.
Proof.
  induction l as [|a l IH]; intros previous Hf Ho Ha Ht; [by exists []|]. apply Forall_cons in Hf as [[Hid Hlen] Hf], Ht as [Hta Ht]. apply ordered_cons in Ho as [Ho Hafter].
  destruct (IH (Some (av_OperationID a)) Hf Ho Hafter Ht) as (w & Hw & Hr & Hl). cbn [active_to_wire]. rewrite Hid, Hw. cbn [negb].
  assert (match previous with Some p => negb (str_less p (av_OperationID a)) | None => false end = false) as Hp by (destruct previous; [simpl in Ha; by rewrite Ha | done]).
  rewrite Hp. replace (_ >? _) with false by lia. eexists. split_and!; [done | | simpl; by rewrite Hl]. cbn [active_from_wire pt_Operation pt_OperationId pt_Type pt_ProjectKey pt_Target].
  rewrite Hid, Hp. cbn [negb]. change (or_OutputTail (po_fields (operationResponseToWire (av_Operation a)))) with (or_OutputTail (av_Operation a)). replace (_ >? _) with false by lia.
  rewrite Hr, response_roundtrip by done. by destruct a.
Qed.

Lemma active_received w : forall previous l, active_from_wire previous w = Ok l -> Forall active_fine l /\ ordered l /\ after previous l /\ length l = length w.
Proof.
  induction w as [|x w IH]; intros previous l; cbn [active_from_wire]; [intros [= <-]; split_and!; [constructor | constructor | by destruct previous | done]|].
  destruct (pt_Operation x) as [o|]; [|done]. destruct (valid_control_id _) eqn:Hid; [|done]. destruct (match previous with Some _ => _ | None => _ end) eqn:Hp; [done|].
  cbn [negb]. destruct (_ >? _) eqn:Hlen; [done|]. destruct (active_from_wire _ w) as [r|] eqn:Er; [|done]. intros [= <-]. apply IH in Er as (Hf & Ho & Ha & Hl).
  split_and!; [constructor; [split; [done | simpl; lia] | done] | by apply ordered_cons | | simpl; by rewrite Hl]. destruct previous; [|done]. simpl. by apply negb_false_iff in Hp.
Qed.

(** The Server sees the Agent's operations as the Agent has them. What a call
    delivers is the handler's answer: the record of an operation or its absence,
    the outcome of a cancellation with the record, which is missing exactly when
    the operation is not found, and the active operations, all of them and in
    order, when the handler kept the limits. Whatever an Agent sends as its active
    operations, what the Server accepts is in strictly increasing order of valid
    identifiers, within the number and the output limits; nothing is cut off. *)
Theorem operation_control h proto_size maxMessageBytes :
  (forall get id r, hd_get h = Some get -> valid_control_id id = true -> get id = Ok r -> (forall o, r = Some o -> op_times o) -> GetOperation h true id = Ok r) /\
  (forall cancel id reason outcome o, hd_cancel h = Some cancel -> validateCancelReason reason = Ok tt -> valid_control_id id = true ->
     cancel id reason = Ok (outcome, o) -> validCancelOutcome outcome = true -> op_times o ->
     CancelOperation h true id reason = Ok (outcome, if bool_decide (outcome = "NOT_FOUND") then None else Some o)) /\
  (forall l w, hd_list h = Some (Ok l) -> active_to_wire None l = Ok w -> proto_size w <= maxMessageBytes -> lenZ l <= MaxActiveOperationCount ->
     Forall active_fine l -> ordered l -> Forall (fun a => op_times (av_Operation a)) l -> ListActiveOperations h proto_size maxMessageBytes true = Ok l) /\
  (forall w l, activeOperationsFromWire w = Ok l -> Forall active_fine l /\ ordered l /\ length l = length w /\ lenZ l <= MaxActiveOperationCount).
Proof.
  split_and!.
  - intros get id r Hg Hid Hr Ht. unfold GetOperation, getOperation, validateOperationControlID. rewrite Hid, Hg, Hr. destruct r as [o|]; [|done]. simpl. by rewrite response_roundtrip by auto.
  - intros cancel id reason outcome o Hc Hre Hid Hr Hv Ht. unfold CancelOperation, cancelOperation, validateOperationControlID. rewrite Hid, Hre, Hc, Hr, Hv. simpl. rewrite Hv. simpl.
    destruct (bool_decide _); [done|]. by rewrite response_roundtrip.
  - intros l w Hl Hw Hsize Hcount Hf Ho Ht. destruct (active_sent l None Hf Ho I Ht) as (w' & Hw' & Hr & Hlen). rewrite Hw in Hw'. injection Hw' as <-.
    unfold ListActiveOperations, listActiveOperations. rewrite Hl, Hw. replace (lenZ l >? _) with false by lia. replace (proto_size w >? _) with false by lia. simpl.
    unfold activeOperationsFromWire, lenZ in *. rewrite Hlen. by replace (_ >? _) with false by lia.
  - intros w l. unfold activeOperationsFromWire. destruct (_ >? _) eqn:E; [done|]. intros (Hf & Ho & _ & Hl)%active_received. split_and!; [done..|]. unfold lenZ in *. rewrite Hl. lia.
Qed.

(** ** A demonstration *)

Definition toy_response : OperationResponse := mkResponse "RUNNING" "PULL" 3 false "" [65; 66] false "GRACEFUL" true "" 100 200 time_zero.
Definition toy_handlers : handlers :=
  mkHandlers (Some (fun id => if bool_decide (id = "op-1") then Ok (Some toy_response) else Ok None)) (Some (fun _ _ => Ok ("ACCEPTED", toy_response)))
    (Some (Ok [mkActive "op-1" "UP" "shop" "web" toy_response; mkActive "op-2" "DOWN" "blog" "db" toy_response])).

Lemma operation_control_witness :
  GetOperation toy_handlers true "op-1" = Ok (Some toy_response) /\
  CancelOperation toy_handlers true "op-1" "USER" = Ok ("ACCEPTED", Some toy_response) /\
  is_ok (CancelOperation toy_handlers true "op-1" "BORED") = false /\
  is_ok (ListActiveOperations toy_handlers (fun _ => 100) 1000 true) = true.
Proof.
  assert (op_times toy_response) as Ht by (split_and!; [by right | by right | by left]).
  destruct (operation_control toy_handlers (fun _ => 100) 1000) as (H1 & H2 & _). split_and!; [| | vm_compute; reflexivity | vm_compute; reflexivity].
  - eapply H1; [reflexivity | vm_compute; reflexivity | reflexivity | by intros o [= <-]].
  - eapply (H2 _ "op-1" "USER" "ACCEPTED"); [reflexivity | vm_compute; reflexivity | vm_compute; reflexivity | reflexivity | vm_compute; reflexivity | done].
Defined.
