(* ===== verification/AuditSyncSpec.v ===== *)
(** * Audit synchronisation: the Server

    Whatever the Agent sends, however the stream fails and whatever other
    transactions run in between, the Server keeps the invariant of its store and
    offers an acknowledgement only for a record it holds. *)

From S2P Require Import Prelude Cursor WalFrame WalMeta Wal WalProps AuditStore AuditStoreSpec AuditStoreInv AuditRetention AuditHeld.
From S2P Require Import AuditStoreProps AuditSync.

Definition ack_cursor (a : AuditAck) : Cursor := mkCursor (aa_Incarnation a) (aa_Sequence a).

(** Sequences are unsigned. *)
Definition coverage_wf (c : AuditCoverageSnapshot) : Prop :=
  Forall (fun g => 0 <= tg_FromSequence g /\ 0 <= tg_UntilSequence g) (tc_Gaps c).

Definition message_wf (m : AuditUpstream) : Prop :=
  (forall c, up_Coverage m = Some c -> coverage_wf c) /\
  (forall b, up_CursorBehindFloor m = Some b -> coverage_wf (bf_Coverage b)) /\
  (forall r c, up_AckResult m = Some r -> ak_StaleCoverage r = Some c -> coverage_wf c).

Lemma store_snapshot_wf info c : coverage_wf c -> snapshot_wf (store_snapshot info c).
Proof. intros H. unfold snapshot_wf. simpl. by apply Forall_fmap. Qed.

Section ServerSpec.
Context (julianday : time -> Z) (text_length : string -> Z) (time_length : time -> Z).
Context (config : ServerConfig) (decode : SessionInfo -> AuditRecord -> option Event) (info : SessionInfo).
Abbreviation A := (sc_ArchiveID config).
Abbreviation g := (in_AgentID info).
Abbreviation others := (others_run julianday text_length time_length A).
Abbreviation inStore := (inStore julianday text_length time_length A).

Definition srv_db (s : srv) : database := s_db (sv_store s).

Definition srv_inv (s : srv) : Prop := store_inv A (srv_db s) /\ Forall (Forall audit_step_wf) (sv_others s).

(** What any part of a session does to the store, and what it sends. *)
Record served (s s' : srv) : Prop := {
  sd_held : keeps_held A (srv_db s) (srv_db s');
  sd_offers : forall ack, ack ∈ sv_down s' ->
    ack ∈ sv_down s \/ IsArchiveAnnouncement ack = true \/ held A g (srv_db s') (ack_cursor ack);
}.

#[export] Instance served_pre : PreOrder served.
Proof.
  split; [intros s; split; [by intros ? ? ? | auto]|]. intros s1 s2 s3 [H1 O1] [H2 O2]. split; [by etransitivity|].
  intros ack [H|?]%O2; [|auto]. destruct (O1 ack H) as [?|[?|?]]; auto.
Qed.

Abbreviation triple := (triple srv_inv served).

Definition holds (c : Cursor) (s : srv) : Prop := held A g (srv_db s) c.

Lemma holds_stable c : stable srv_inv served (holds c).
Proof. intros s s' _ [H _] Hc. by apply H. Qed.

(** ** The calls into the store and the stream *)

Lemma others_ok l st :
  Forall audit_step_wf l -> store_inv A (s_db st) -> store_inv A (s_db (others l st)) /\ keeps_held A (s_db st) (s_db (others l st)).
Proof.
  intros Hl. revert st. induction Hl as [|x l Hx Hl IH]; intros st Hi; [done|]. simpl.
  destruct (IH _ (audit_run_inv julianday text_length time_length A x st Hx Hi)) as [H1 H2]. split; [done|].
  etransitivity; [|exact H2]. by apply audit_run_held.
Qed.

Lemma triple_inStore {X} (m : storeM X) (Q : X -> database -> Prop) :
  (forall s, store_inv A (s_db s) -> store_inv A (s_db (m s).2) /\ keeps_held A (s_db s) (s_db (m s).2) /\
     forall a, (m s).1 = Ok a -> Q a (s_db (m s).2)) ->
  triple (fun _ => True) (inStore m) (fun a s => Q a (srv_db s)).
Proof.
  intros Hm s [Hi Ho] _. unfold AuditSync.inStore.
  assert (Forall audit_step_wf (default [] (head (sv_others s)))) as Hh by (destruct (sv_others s); [constructor | by apply Forall_cons in Ho as [? _]]).
  assert (Forall (Forall audit_step_wf) (tail (sv_others s))) as Ht by (destruct (sv_others s); [constructor | by apply Forall_cons in Ho as [_ ?]]).
  destruct (others_ok _ _ Hh Hi) as [Hi1 K1]. destruct (Hm _ Hi1) as (Hi2 & K2 & Hq). destruct (m _) as [r st'] eqn:E. simpl in *.
  split; [by split|]. split; [split; simpl; [by etransitivity | auto]|]. intros a. destruct r; [|done]. intros [= <-]. by apply Hq.
Qed.

Lemma triple_now P : stable srv_inv served P -> triple P server_now (fun _ => P).
Proof. intros Hp s Hi Hs. simpl. split; [done|]. assert (served s (server_now s).2) as Hr by (split; [by intros ? ? ? | auto]). split; [done|]. intros a _. by eapply Hp. Qed.

(** A transaction that keeps the invariant and what is held. *)
Definition store_ok {X} (m : storeM X) : Prop :=
  forall s, store_inv A (s_db s) -> store_inv A (s_db (m s).2) /\ keeps_held A (s_db s) (s_db (m s).2).

Lemma good_adds {X} (m : storeM X) : (forall s, good_tx A (s_db s) (s_db (m s).2)) -> moves adds m -> store_ok m.
Proof. intros Hg Ha s Hi. destruct (Hg s Hi) as [? _]. split; [done|]. by apply adds_held. Qed.

Lemma triple_store {X} (m : storeM X) P :
  store_ok m -> stable srv_inv served P -> triple P (inStore m) (fun _ => P).
Proof.
  intros Hm Hp. eapply triple_weaken;
    [eapply (triple_frame_true _ _ _ P (fun _ _ => True)); [done|] | done | by intros ? ? [_ ?]].
  apply (triple_inStore m (fun _ _ => True)). intros s Hi. destruct (Hm s Hi). by split_and!.
Qed.

Lemma ok_Establish start reason now : store_ok (EstablishCoverageStart A g start reason now).
Proof. apply good_adds; [intros s; apply Establish_good | apply adds_Establish]. Qed.
Lemma ok_Snapshot snapshot now : snapshot_wf snapshot -> store_ok (ApplyCoverageSnapshot A snapshot now).
Proof. intros Hw s Hi. split; [by apply Snapshot_inv | apply adds_held, adds_Snapshot]. Qed.
Lemma ok_Ingest l next now : store_ok (Ingest A g l next now).
Proof. apply good_adds; [intros s; apply Ingest_good | apply adds_Ingest]. Qed.
Lemma ok_Ack proposed rev now : store_ok (CheckAndAdvanceACK A g proposed rev now).
Proof. apply good_adds; [intros s; apply Ack_good | apply adds_Ack]. Qed.
Lemma ok_Regression proposed resumedAt reason now : store_ok (RecordCursorRegression A g proposed resumedAt reason now).
Proof. apply good_adds; [intros s; apply Regression_good | apply adds_Regression]. Qed.

Lemma ok_same {X} (m : storeM X) : (forall s, s_db (m s).2 = s_db s) -> store_ok m.
Proof. intros H s Hi. by rewrite H. Qed.

Lemma ok_Eligibility proposed rev : store_ok (ACKEligibility A g proposed rev).
Proof.
  intros s Hi. destruct (ACKEligibility A g proposed rev s) as [r s'] eqn:E.
  apply ACKEligibility_reads in E as [E _]; [|done]. simpl. by rewrite E.
Qed.

Lemma ok_CoverageStart : store_ok (CoverageStart A g).
Proof.
  apply ok_same. intros s. unfold CoverageStart. case_if; [done|]. unfold bind at 1.
  pose proof (reads_query (lower_bound A g) s) as [[E _] _]. destruct (query _ s) as [[[r|]|e] s1]; simpl in E; [|done..].
  by case_if.
Qed.

#[local] Hint Resolve ok_Establish ok_Ingest ok_Ack ok_Regression ok_Eligibility ok_CoverageStart holds_stable : core.

(** The decoded event is stored. *)
Lemma triple_Ingest e next now :
  triple (fun _ => True) (inStore (Ingest A g [e] next now)) (fun _ => holds (e_Cursor e)).
Proof.
  apply (triple_inStore _ (fun _ d => held A g d (e_Cursor e))). intros s Hi. destruct (ok_Ingest [e] next now s Hi) as [Hi' Hk].
  split_and!; [done..|]. intros a Ea. destruct (Ingest A g [e] next now s) as [r s'] eqn:E. simpl in *. subst r.
  apply Ingest_ingested in E as (st & news & _ & _ & _ & _ & Hall & _); [|done]. destruct (Hall e) as (r & Hr & Er); [by left|].
  left. exists r. split; [done|]. by rewrite Er.
Qed.

(** ** The parts of a session *)

Abbreviation establish := (establish julianday text_length time_length config info).
Abbreviation applyCoverage := (applyCoverage julianday text_length time_length config info).
Abbreviation settle := (settleACKEligibility julianday text_length time_length config info).
Abbreviation ingestAndOffer := (ingestAndOffer julianday text_length time_length config decode info).

Lemma triple_establish start P : stable srv_inv served P -> triple P (establish start) (fun _ => P).
Proof. intros Hp. triple_seq; [by apply triple_now|]. intros now. by apply triple_store. Qed.

Lemma triple_applyCoverage c P : coverage_wf c -> stable srv_inv served P -> triple P (applyCoverage c) (fun _ => P).
Proof.
  intros Hw Hp. triple_seq; [by apply triple_now|]. intros now.
  triple_seq; [apply triple_store; [|done]|intros r; triple_returns]. by apply ok_Snapshot, store_snapshot_wf.
Qed.

Lemma triple_eligible proposed rev P :
  stable srv_inv served P ->
  triple P (inStore (ACKEligibility A g proposed rev)) (fun _ s => eligible A g (srv_db s) proposed /\ P s).
Proof.
  intros Hp. apply triple_frame_true; [done|]. apply (triple_inStore _ (fun _ d => eligible A g d proposed)). intros s Hi.
  destruct (ok_Eligibility proposed rev s Hi) as [Hi' Hk]. split_and!; [done..|].
  destruct (ACKEligibility A g proposed rev s) as [r s'] eqn:E. apply ACKEligibility_reads in E as [E He]; [|done].
  simpl. intros a ->. rewrite E. by apply He.
Qed.

Lemma triple_settle proposed rev resumedAt P :
  stable srv_inv served P ->
  triple P (settle proposed rev resumedAt) (fun _ s => eligible A g (srv_db s) proposed /\ P s).
Proof.
  intros Hp. triple_seq; [eapply triple_attempt; [by apply triple_eligible | exact Hp | done]|].
  intros [u|e]; simpl.
  - triple_returns. intros s _ [_ H]. by destruct (H u eq_refl).
  - destruct e as [|e| | | | | | | | |]; try triple_fails. destruct e as [| | |p n rs| | | |]; try triple_fails.
    destruct resumedAt as [resumed|]; [|triple_fails].
    eapply triple_weaken; [|intros s [Hs _]; exact Hs | intros ? ? H; exact H].
    triple_seq; [by apply triple_now|]. intros now. triple_seq; [by apply triple_store|].
    intros [|r l]; [triple_fails | by apply triple_eligible].
Qed.

Lemma triple_offer proposed rev : triple (holds proposed) (offer config proposed rev) (fun _ => holds proposed).
Proof.
  intros s Hi Hh. unfold offer, SendAck. destruct (default (true, true) _) as [delivered ok]. simpl.
  split; [done|]. split; [|by intros a _]. split; [by intros ? ? ?|]. simpl. intros ack Hack.
  destruct delivered; [|auto]. apply elem_of_app in Hack as [? | ->%list_elem_of_singleton]; [auto|]. right. right.
  unfold holds in Hh. by destruct proposed.
Qed.

Lemma triple_ingestAndOffer record rev resumedAt :
  triple (fun _ => True) (ingestAndOffer record rev resumedAt) (fun p s => holds p s).
Proof.
  unfold AuditSync.ingestAndOffer. destruct (decode info record) as [event|]; [|triple_fails].
  apply triple_if; intros E1; [triple_fails|]. apply triple_if; intros E2; [triple_fails|]. bool_to_prop.
  triple_seq; [by apply triple_now|]. intros now. triple_seq; [apply triple_Ingest|]. intros result.
  match goal with H : e_Cursor _ = _ |- _ => rewrite H end.
  triple_seq; [by apply triple_settle|]. intros ?.
  triple_seq; [eapply triple_weaken; [apply triple_offer | by intros s [_ H'] | intros ? ? H'; exact H']|]. intros ?. triple_returns.
Qed.

(** ** The handlers *)

(** The state between two messages. *)
Definition state_ok (st : ServerState) (s : srv) : Prop :=
  (forall c, ss_pending st = Some c -> coverage_wf c) /\ forall p, ss_proposed st = Some p -> holds p s.

Lemma state_stable st : stable srv_inv served (state_ok st).
Proof. intros s s' Hi Hr [H1 H2]. split; [done|]. intros p Hp. by eapply holds_stable, H2. Qed.

Lemma true_stable : stable srv_inv served (fun _ => True).
Proof. done. Qed.
#[local] Hint Resolve state_stable true_stable : core.

Abbreviation onCoverage := (onCoverage julianday text_length time_length config info).
Abbreviation onBehindFloor := (onBehindFloor julianday text_length time_length config info).
Abbreviation onRecord := (onRecord julianday text_length time_length config decode info).
Abbreviation ackResponse := (ackResponse julianday text_length time_length config info).
Abbreviation serverReceive := (serverReceive julianday text_length time_length config decode info).
Abbreviation serverStart := (serverStart julianday text_length time_length config info).
Abbreviation serve := (serve julianday text_length time_length config decode info).
Abbreviation Run := (Run julianday text_length time_length config decode info).

Lemma triple_onCoverage st c : coverage_wf c -> triple (fun _ => True) (onCoverage st c) state_ok.
Proof.
  intros Hc. triple_seq; [instantiate (1 := fun _ _ => True)|].
  - apply triple_if; intros ?; [triple_returns|]. destruct (coverageMinimum c); [|triple_returns].
    triple_seq; [by apply triple_establish | intros ?; triple_returns].
  - intros established. apply triple_if; intros _.
    + triple_seq; [by apply triple_applyCoverage|]. intros rev. triple_returns.
    + triple_returns. intros s _ _. split; [by intros c' [= <-] | done].
Qed.

Lemma triple_onBehindFloor st b : coverage_wf (bf_Coverage b) -> triple (fun _ => True) (onBehindFloor st b) state_ok.
Proof.
  intros Hc. triple_seq; [instantiate (1 := fun _ _ => True); apply triple_if; intros ?; [triple_returns | by apply triple_establish]|].
  intros ?. triple_seq; [by apply triple_applyCoverage|]. intros rev. triple_returns.
Qed.

Lemma triple_onRecord st r : (forall c, ss_pending st = Some c -> coverage_wf c) -> triple (fun _ => True) (onRecord st r) state_ok.
Proof.
  intros Hc. triple_seq; [instantiate (1 := fun _ _ => True); apply triple_if; intros ?; [triple_returns | by apply triple_establish]|].
  intros ?. triple_seq; [instantiate (1 := fun _ _ => True); destruct (ss_pending st); [by apply triple_applyCoverage; auto | triple_returns]|].
  intros rev. triple_seq; [apply triple_ingestAndOffer|]. intros p. triple_returns. intros s _ Hp. split; [done|]. by intros p' [= <-].
Qed.

Lemma triple_ackResponse st p m : message_wf m -> ss_proposed st = Some p -> triple (state_ok st) (ackResponse st p m) state_ok.
Proof.
  intros (_ & _ & Hm) Hp. unfold AuditSync.ackResponse. destruct (up_AckResult m) as [r|]; [|triple_fails].
  apply triple_if; intros ?; [triple_fails|]. apply triple_if; intros _.
  - triple_seq; [by apply triple_now|]. intros now. triple_seq; [by apply triple_store|]. intros ?. triple_returns.
    intros s _ [? ?]. by split.
  - destruct (ak_StaleCoverage r) as [c|] eqn:Ec; [|triple_fails]. apply triple_if; intros ?; [triple_fails|].
    eapply triple_weaken; [| intros s Hs; exact Hs | intros ? ? Hs; exact Hs].
    triple_seq; [apply triple_applyCoverage; [by eapply Hm | by apply state_stable]|]. intros rev.
    assert (forall s, state_ok st s -> holds p s) as Hh by (intros s [_ Hx]; by apply Hx).
    triple_seq; [eapply triple_weaken; [eapply triple_frame; [by apply (state_stable st) | apply triple_offer] | intros s Hs; split; [by apply Hh | exact Hs] | intros ? ? Hs; exact Hs]|].
    intros ?. triple_returns. intros s _ [Hs [? _]]. split; [done|]. by intros p' [= <-].
Qed.

Lemma triple_serverReceive st m : message_wf m -> triple (state_ok st) (serverReceive st m) state_ok.
Proof.
  intros Hm. unfold AuditSync.serverReceive. destruct (ss_proposed st) as [p|] eqn:Ep; [by apply triple_ackResponse|].
  intros s Hi [Hc _]. destruct Hm as (H1 & H2 & _). destruct (up_Coverage m) as [c|]; [by apply triple_onCoverage; auto|].
  destruct (up_CursorBehindFloor m) as [b|]; [by apply triple_onBehindFloor; auto|].
  destruct (up_Record m) as [r|]; [by apply triple_onRecord | by apply (triple_fail _ _ _ (fun _ => True))].
Qed.

Lemma triple_serverStart : triple (fun _ => True) serverStart state_ok.
Proof.
  unfold AuditSync.serverStart. apply triple_if; intros _; [triple_fails|].
  triple_seq; [by apply triple_store|]. intros start. triple_seq; [instantiate (1 := fun _ _ => True)|].
  { intros s Hi _. unfold OpenAuditSync. simpl. split; [done|]. split; [|done]. split; [by intros ? ? ? | auto]. }
  intros ?. triple_seq; [instantiate (1 := fun _ _ => True)|].
  { apply triple_if; intros _; [|triple_returns]. intros s Hi _. unfold SendAck.
    destruct (default (true, true) _) as [delivered ok]. simpl. split; [done|]. split; [|done]. split; [by intros ? ? ?|]. simpl.
    intros ack Hack. destruct delivered; [|auto]. apply elem_of_app in Hack as [? | ->%list_elem_of_singleton]; auto. }
  intros ?. triple_returns.
Qed.

Lemma triple_serve st ms : Forall message_wf ms -> triple (state_ok st) (serve st ms) (fun _ _ => True).
Proof.
  intros Hm. revert st. induction Hm as [|m ms Hm Hms IH]; intros st; cbn [AuditSync.serve]; [triple_fails|].
  triple_seq; [by apply triple_serverReceive | done].
Qed.


(** ** What the Server promises to any Agent *)

(** [C30] The Server offers only what it holds. For any Agent, whatever messages it
    sends and in whatever order, with any statement of the store and any call of
    the stream failing - delivered or not -, and with any other transactions
    running between the Server's own: a session keeps the invariant of the store,
    loses nothing the Server holds, and every acknowledgement it sends, other
    than the announcement of the archive, is for a cursor that is still held
    when the session ends - a stored event of that Agent, or a cursor covered by
    a ledger entry of the Server's own. *)
Theorem server_offers_held messages s :
  Forall message_wf messages -> srv_inv s ->
  let s' := (Run messages s).2 in
  store_inv A (srv_db s') /\ keeps_held A (srv_db s) (srv_db s') /\
  forall ack, ack ∈ sv_down s' -> ack ∈ sv_down s \/ IsArchiveAnnouncement ack = true \/ held A g (srv_db s') (ack_cursor ack).
Proof.
  intros Hm Hi. assert (triple (fun _ => True) (Run messages) (fun _ _ => True)) as H.
  { triple_seq; [apply triple_serverStart | intros st; by apply triple_serve]. }
  destruct (H s Hi I) as ([? _] & [? ?] & _). by split_and!.
Qed.

(** A part that sends nothing. *)
Definition silent {X} (m : srvM X) : Prop := moves (fun s s' => sv_down s' = sv_down s) m.

#[local] Instance same_down_pre : PreOrder (fun s s' : srv => sv_down s' = sv_down s).
Proof. split; [by intros s | intros s1 s2 s3 H1 H2; congruence]. Qed.

Lemma silent_bind {X Y} (m : srvM X) (f : X -> srvM Y) : silent m -> (forall x, silent (f x)) -> silent (bind m f).
Proof. apply moves_bind, _. Qed.
Lemma silent_store {X} (m : storeM X) : silent (inStore m).
Proof. intros s. unfold AuditSync.inStore. by destruct (m _). Qed.
Lemma silent_now : silent server_now.
Proof. done. Qed.
Lemma silent_ret {X} (x : X) : silent (ret x).
Proof. done. Qed.
Lemma silent_fail {X} e : silent (fail e : srvM X).
Proof. done. Qed.
#[local] Hint Resolve silent_store silent_now silent_ret silent_fail : core.

Lemma silent_settle proposed rev resumedAt : silent (settle proposed rev resumedAt).
Proof.
  apply silent_bind; [apply moves_attempt, silent_store|]. intros [u|e]; [done|]. destruct e as [|e| | | | | | | | |]; auto.
  destruct e; auto. destruct resumedAt; auto. apply silent_bind; [done|]. intros now. apply silent_bind; [done|]. intros []; auto.
Qed.

(** The acknowledgement for a record, at the moment it is first offered. *)
Definition settled_offer (record : AuditRecord) (rev : Z) (s : srv) (ack : AuditAck) : Prop :=
  let proposed := mkCursor (ar_Incarnation record) (ar_Sequence record) in
  ack_cursor ack = proposed /\ aa_AuditArchiveID ack = A /\ aa_CoverageRevisionSeen ack = rev /\
  held A g (srv_db s) proposed /\ eligible A g (srv_db s) proposed.

Lemma offer_sends proposed rev s r s' ack :
  offer config proposed rev s = (r, s') -> ack ∈ sv_down s' ->
  sv_store s' = sv_store s /\ (ack ∈ sv_down s \/ ack = mkAck A (Incarnation proposed) (Seq proposed) rev None).
Proof.
  unfold offer, SendAck. destruct (default (true, true) _) as [delivered ok]. intros [= _ <-]. simpl. intros Hack.
  destruct delivered; [|auto]. apply elem_of_app in Hack as [? | ->%list_elem_of_singleton]; auto.
Qed.

(** What [ingestAndACK] does before it offers. *)
Definition prepare (event : Event) (next : Cursor) (rev : Z) (resumedAt : option Cursor) : srvM unit :=
  let* now := server_now in inStore (Ingest A g [event] next now) ;;; settle (e_Cursor event) rev resumedAt.

Lemma triple_prepare event next rev resumedAt :
  triple (fun _ => True) (prepare event next rev resumedAt)
    (fun _ s => eligible A g (srv_db s) (e_Cursor event) /\ holds (e_Cursor event) s).
Proof.
  triple_seq; [by apply triple_now|]. intros now. triple_seq; [apply triple_Ingest|]. intros ?. by apply triple_settle.
Qed.

Lemma silent_prepare event next rev resumedAt : silent (prepare event next rev resumedAt).
Proof. repeat (apply silent_bind; [done|]; intros ?). apply silent_settle. Qed.

(** Eligibility is settled before the acknowledgement is offered. Whatever
    comes of the offer, an acknowledgement [ingestAndACK] sends before it waits
    for the Agent is for the record's own cursor and the coverage revision it was
    given; at that moment the record is held, and everything the acknowledgement
    answers for - back to the previous one, or to the archive's coverage start -
    is a stored event or covered by an effective ledger entry, or it was
    acknowledged before. When the store cannot establish that, nothing is
    sent. *)
Theorem first_offer_settled record rev resumedAt s r s' ack :
  srv_inv s -> ingestAndOffer record rev resumedAt s = (r, s') -> ack ∈ sv_down s' ->
  ack ∈ sv_down s \/ settled_offer record rev s' ack.
Proof.
  intros Hi. unfold AuditSync.ingestAndOffer. destruct (decode info record) as [event|]; [|intros [= _ <-]; auto].
  case_if; [intros [= _ <-]; auto|]. case_if; [intros [= _ <-]; auto|]. bool_to_prop.
  match goal with H : e_Cursor _ = _ |- _ => rename H into Ec end.
  intros E. assert ((prepare event (mkCursor (ar_Incarnation record) (ar_Sequence record + 1)) rev resumedAt ;;;
    offer config (e_Cursor event) rev ;;; ret (e_Cursor event)) s = (r, s')) as E'.
  { rewrite Ec, <- E. unfold prepare, bind. rewrite Ec. destruct (server_now s) as [[now|e] s1]; [|done].
    by destruct (inStore _ s1) as [[v|e] s2]. }
  clear E. revert E'. unfold bind at 1. destruct (triple_prepare event (mkCursor (ar_Incarnation record) (ar_Sequence record + 1)) rev resumedAt s Hi I) as (_ & _ & Hq).
  pose proof (silent_prepare event (mkCursor (ar_Incarnation record) (ar_Sequence record + 1)) rev resumedAt s) as Hs.
  destruct (prepare _ _ _ _ s) as [[u|e] s1]; simpl in Hq, Hs; [|intros [= _ <-]; rewrite Hs; auto]. destruct (Hq u eq_refl) as [He Hh].
  unfold bind. destruct (offer config (e_Cursor event) rev s1) as [v s2] eqn:Eo. intros E Hack.
  assert (s2 = s') as -> by (by destruct v; injection E as _ <-). destruct (offer_sends _ _ _ _ _ _ Eo Hack) as [Es [Hd|Hd]]; [left; by rewrite <- Hs|].
  right. unfold settled_offer, srv_db. rewrite Es. rewrite Ec in *. rewrite Hd. by split_and!.
Qed.
End ServerSpec.
