(* ===== verification/AuditEnd.v ===== *)
(** * Audit records end to end

    The Agent's log, its half of the synchronisation, the stream, the Server's
    half and its store as one system. No record is lost silently between them:
    wherever the stream breaks and whatever runs concurrently, a record the log
    once held is still in it, recorded as lost by the Agent, or held by the
    Server - and once the Agent stops keeping it, one of the last two. *)

From S2P Require Import Prelude Cursor WalFrame WalMeta WalNames Wal WalInv WalProps WalRead.
From S2P Require Import AuditStore AuditStoreSpec AuditStoreInv AuditRetention AuditHeld AuditStoreProps AuditSync AuditSyncSpec.

(** ** The Agent, for one cursor

    [H] is what the Server holds of the cursor while the Agent runs. *)
Section AgentSpec.
Context (config : AgentConfig) (info : SessionInfo) (c : Cursor) (H : Prop).

(** Recorded as lost, or held by the Server. *)
Definition settled (w : WAL) : Prop := lost (w_meta w) c \/ H.

(** In the log or accounted for, or not assigned yet. *)
Definition tracked (w : WAL) : Prop := kept w c \/ cursor_le (next_cursor (w_meta w)) c.

Record wal_side (w : WAL) : Prop := {
  ws_inv : wal_inv w;
  ws_tracked : tracked w;
  ws_acked : opt_ge c (m_ServerACK (w_meta w)) -> settled w;
}.

Abbreviation agt_wal s := (s_wal (at_wal s)).

Definition agt_inv (s : agt) : Prop :=
  wal_side (agt_wal s) /\ Forall (Forall (fun op => is_local op = true)) (at_others s) /\ Forall message_wf (at_up s).

Definition agt_le (s s' : agt) : Prop := settled (agt_wal s) -> settled (agt_wal s').

#[export] Instance agt_le_pre : PreOrder agt_le.
Proof. split; [by intros s Hs | intros s1 s2 s3 H1 H2 Hs; by apply H2, H1]. Qed.

Abbreviation triple := (triple agt_inv agt_le).

(** A position [start] the Agent has reached: what is before it is settled. *)
Definition passed (start : Cursor) (s : agt) : Prop := cursor_lt c start -> settled (agt_wal s).
Definition through (p : Cursor) (s : agt) : Prop := cursor_le c p -> settled (agt_wal s).

Lemma passed_stable start : stable agt_inv agt_le (passed start).
Proof. intros s s' _ Hle Hp Hc. by apply Hle, Hp. Qed.
Lemma through_stable p : stable agt_inv agt_le (through p).
Proof. intros s s' _ Hle Hp Hc. by apply Hle, Hp. Qed.

(** The records still to be sent, after those of [before]. *)
Definition batch_ok (before : list Cursor) (rs : list walRecord) (s : agt) : Prop :=
  cursor_sorted (cursors rs) /\
  forall r, r ∈ cursors rs -> cursor_ok r /\
    (cursor_lt c r -> settled (agt_wal s) \/ c ∈ before \/ c ∈ cursors rs).

Definition phase_ok (ph : agentPhase) (s : agt) : Prop :=
  match ph with
  | AgAnnounce => True
  | AgLoop start => passed start s
  | AgBatch start rs => passed start s /\ batch_ok [] rs s
  | AgAwait p rest => cursor_ok p /\ passed p s /\ batch_ok [p] rest s
  end.

Lemma batch_stable before rs : stable agt_inv agt_le (batch_ok before rs).
Proof.
  intros s s' _ Hle [Hs Hb]. split; [done|]. intros r Hr. destruct (Hb r Hr) as [Hok Hb']. split; [done|].
  intros [?|?]%Hb'; [left; by apply Hle | by right].
Qed.

Lemma phase_stable ph : stable agt_inv agt_le (phase_ok ph).
Proof.
  intros s s' Hi Hle. destruct ph; simpl; [done | by apply passed_stable| |]; intros Hp; destruct_and?; split_and?; auto;
    by first [eapply passed_stable; eauto | eapply batch_stable; eauto].
Qed.

(** ** The log's operations under the Agent *)

Lemma safe_side w w' : wal_side w -> safe_by eq w w' -> wal_side w' /\ (settled w -> settled w').
Proof.
  intros [Hi Ht Ha] Hs. destruct (Hs Hi) as [Hi' Hk Hack Hl Hn Hnew].
  assert (settled w -> settled w') as Hset by (intros [?|?]; [left; auto | by right]). split; [|done]. split; [done| |].
  - destruct Ht as [?|Ht]; [left; auto|]. destruct (decide (cursor_le (next_cursor (w_meta w')) c)) as [?|Hlt]; [by right|].
    left. apply Hnew; [done | by apply cursor_nle_lt].
  - rewrite <- Hack. auto.
Qed.

Lemma others_side s : agt_inv s -> let w := ops_run (default [] (head (at_others s))) (at_wal s) in
  wal_side (s_wal w) /\ (settled (agt_wal s) -> settled (s_wal w)) /\
  Forall (Forall (fun op => is_local op = true)) (tail (at_others s)).
Proof.
  intros (Hw & Ho & _). cbv zeta. destruct (at_others s) as [|ops rest]; simpl; [by split_and!|]. apply Forall_cons in Ho as [Hops Hrest].
  destruct (safe_side (agt_wal s) (s_wal (ops_run ops (at_wal s))) Hw (local_ops_safe eq ops (at_wal s) Hops)). by split_and!.
Qed.

(** A call of the log that only reads. *)
Lemma triple_read {X} (m : walM X) (Q : X -> WAL -> Prop) P :
  same_wal m -> (forall s a, wal_side (s_wal s) -> (m s).1 = Ok a -> Q a (s_wal s)) -> stable agt_inv agt_le P ->
  triple P (inWAL m) (fun a s => Q a (agt_wal s) /\ P s).
Proof.
  intros Hm Hq Hp s Hi Hs. destruct (others_side s Hi) as (Hw & Hle & Ho). unfold inWAL.
  set (w := ops_run _ _) in *. specialize (Hm w). specialize (Hq w). destruct (m w) as [r w'] eqn:E. simpl in *. rewrite <- Hm in *.
  assert (agt_le s (mkAgt w' (at_up s) (at_sends s) (tail (at_others s)) (at_clock s))) as Hr by (intros ?; by apply Hle).
  split; [split_and!; [done | done | apply Hi]|]. split; [done|]. intros a. destruct r as [v|e]; [|done]. intros [= <-].
  split; [by apply Hq | by eapply Hp].
Qed.

Lemma triple_agent_now P : stable agt_inv agt_le P -> triple P agent_now (fun _ => P).
Proof. intros Hp s Hi Hs. simpl. split; [done|]. split; [by intros ?|]. intros a _. by apply (Hp s); [|intros ?|]. Qed.

Lemma triple_wait P : stable agt_inv agt_le P -> triple P wait (fun _ => P).
Proof. intros Hp s Hi Hs. simpl. split; [done|]. split; [by intros ?|]. intros a _. by apply (Hp s); [|intros ?|]. Qed.

Lemma triple_Send m P : message_wf m -> stable agt_inv agt_le P -> triple P (Send m) (fun _ => P).
Proof.
  intros Hm Hp s (Hw & Ho & Hu) Hs. unfold Send. destruct (default (true, true) _) as [delivered ok]. simpl.
  split; [split_and!; [done | done|]; destruct delivered; [apply Forall_app; split; [done | by constructor] | done]|].
  split; [by intros ?|]. intros a _. by apply (Hp s); [|intros ?|].
Qed.

(** Acknowledging what the Server answers for. *)
Lemma triple_Ack archive p seen P :
  cursor_ok p -> stable agt_inv agt_le P ->
  triple (fun s => through p s /\ P s) (inWAL (AckAudit archive p seen)) (fun _ s => through p s /\ P s).
Proof.
  intros Hok Hp s Hi [Ht Hs]. destruct (others_side s Hi) as (Hw & Hle & Ho). unfold inWAL.
  set (w := ops_run _ _) in *. destruct (AckAudit archive p seen w) as [r w'] eqn:E. simpl.
  assert (wal_side (s_wal w') /\ (settled (agt_wal s) -> settled (s_wal w'))) as [Hw' Hle'].
  { apply AckAudit_effect in E as (w1 & Hq & Ho' & _). 
    destruct (safe_side (s_wal w) w1 Hw (quiet_safe eq _ _ Hq)) as [Hw1 Hs1].
    destruct Ho' as [[-> _]|[[_ Hq']|(_ & Hlt & Hv & Hq')]]; [by split; [|auto] | |].
    - destruct (safe_side w1 (s_wal w') Hw1 (quiet_safe eq _ _ Hq')). auto.
    - set (w2 := WalProps.with_ack _ _ w1) in *. assert (settled w1 -> settled w2) as H12 by (intros [?|?]; [by left | by right]).
      assert (safe_post (w1) w2) as Hpost.
      { apply with_ack_safe; [intros x [= <-]; destruct Hok; lia | | done | apply Hw1].
        intros a Ha. exists p. split; [done|]. by apply cursor_lt_le, Hlt. }
      assert (wal_side w2) as Hw2.
      { destruct Hpost as [Hi2 Hk2 _ _ _ _]. split; [done | | ].
        - destruct (ws_tracked _ Hw1) as [Hk|?]; [left; auto | by right].
        - intros (a & [= <-] & Hca). apply H12, Hs1, Hle, Ht, Hca. }
      destruct (safe_side w2 (s_wal w') Hw2 (quiet_safe eq _ _ Hq')). auto. }
  assert (agt_le s (mkAgt w' (at_up s) (at_sends s) (tail (at_others s)) (at_clock s))) as Hr by done.
  split; [split_and!; [done | done | apply Hi]|]. split; [done|]. intros a _.
  split; [by eapply through_stable | by eapply Hp].
Qed.

(** ** What the Agent reads of its log *)

(** What the log no longer has, and is before the next cursor, is settled. *)
Lemma side_settled w : wal_side w -> ~ live w c -> cursor_lt c (next_cursor (w_meta w)) -> settled w.
Proof.
  intros [Hi Ht Ha] Hn Hlt. destruct Ht as [Hk|Hge]; [|by apply cursor_lt_not_le in Hlt].
  destruct (kept_live _ _ Hk) as [?|[?|?]]; [done | by left | auto].
Qed.

(** Before the floor, or the next cursor of an empty log. *)
Lemma floor_settled w bound :
  wal_side w -> w_closed w = false -> bound = default (b_NextCursor (boundsLocked w)) (b_WALFloor (boundsLocked w)) ->
  cursor_lt c bound -> settled w.
Proof.
  intros Hw Hc -> Hlt. destruct (b_WALFloor (boundsLocked w)) as [floor|] eqn:Ef; simpl default in Hlt.
  - apply side_settled; [done | |].
    + intros (f & Ef' & Hle)%live_floor; [|apply Hw]. rewrite Ef in Ef'. injection Ef' as <-. by apply cursor_lt_not_le in Hlt.
    + eapply cursor_lt_le_trans; [exact Hlt|]. apply floor_le_next; [apply Hw | done..].
  - apply side_settled; [done | | exact Hlt]. intros (f & Ef' & _)%live_floor; [|apply Hw]. congruence.
Qed.

Lemma Bounds_spec s b : (Bounds_ s).1 = Ok b -> w_closed (s_wal s) = false /\ b = boundsLocked (s_wal s).
Proof. unfold Bounds_, bind, gets. destruct (w_closed (s_wal s)); [done|]. by intros [= <-]. Qed.

Lemma coverage_read_wf now w : wal_inv w -> coverage_wf (coverageToTransport (coverageLocked now w)).
Proof.
  intros Hi. unfold coverage_wf. simpl. apply Forall_fmap. simpl.
  destruct (wi_u64 _ Hi) as (_ & _ & _ & _ & _ & _ & Hg). destruct (wi_meta _ Hi) as (_ & _ & _ & _ & _ & _ & _ & _ & _ & Hc).
  unfold coverage_ok in Hc. apply andb_true_iff in Hc as [_ Hc]. apply gaps_ok_iff in Hc as (Hv & _ & _); [|done].
  eapply Forall_impl; [exact Hv|]. intros g (_ & ? & ? & _). simpl. lia.
Qed.

Lemma triple_coverage now P :
  stable agt_inv agt_le P ->
  triple P (inWAL (GetAuditCoverage now)) (fun v s => coverage_wf (coverageToTransport v) /\ P s).
Proof.
  intros Hp. apply (triple_read _ (fun v _ => coverage_wf (coverageToTransport v))); [| |done].
  - intros s. unfold GetAuditCoverage, bind, gets. by case_if.
  - intros s a Hw. unfold GetAuditCoverage, bind, gets. case_if; [done|]. intros [= <-]. apply coverage_read_wf, Hw.
Qed.

Lemma triple_startCursor archive P :
  stable agt_inv agt_le P -> triple P (startCursor archive) (fun start s => passed start s /\ P s).
Proof.
  intros Hp. triple_seq.
  { apply (triple_read _ (fun b w => b = boundsLocked w /\ w_closed w = false)); [| |exact Hp].
    - intros s. unfold Bounds_, bind, gets. by case_if.
    - intros s a Hw [? ?]%Bounds_spec. by split. }
  intros b. apply triple_if; intros _; [triple_fails|]. destruct (b_ServerACKedThrough b) as [ack|] eqn:Ea.
  - apply triple_if; intros _; [triple_fails|]. triple_returns. intros s [Hw _] [[-> _] Hs]. split; [|done]. intros Hlt.
    apply (ws_acked _ Hw). exists ack. split; [done|]. unfold cursor_lt, cursor_le in *. simpl in Hlt. lia.
  - assert (forall s, agt_inv s -> (b = boundsLocked (agt_wal s) /\ w_closed (agt_wal s) = false) /\ P s ->
      passed (default (b_NextCursor b) (b_WALFloor b)) s /\ P s) as Hf.
    { intros s [Hw _] [[-> Hc] Hs]. split; [|done]. intros Hlt. by eapply floor_settled. }
    destruct (b_WALFloor b); triple_returns.
Qed.

Abbreviation agentBegin := (agentBegin info).
Abbreviation loopRound := (loopRound config).

(** The state between two steps of the Agent. *)
Definition agent_ok (st : AgentState) (s : agt) : Prop := phase_ok (as_phase st) s.

Lemma agt_true_stable : stable agt_inv agt_le (fun _ => True).
Proof. done. Qed.
#[local] Hint Resolve agt_true_stable passed_stable batch_stable phase_stable through_stable : core.

Lemma coverage_message v : coverage_wf (coverageToTransport v) -> message_wf (send_coverage (coverageToTransport v)).
Proof. intros Hv. split_and!; [by intros x [= <-] | done..]. Qed.

Lemma triple_sendCoverage v P :
  coverage_wf (coverageToTransport v) -> stable agt_inv agt_le P -> triple P (Send (send_coverage (coverageToTransport v))) (fun _ => P).
Proof. intros Hv Hp. by apply triple_Send; [apply coverage_message|]. Qed.

Lemma triple_agentBegin archive : triple (fun _ => True) (agentBegin archive) agent_ok.
Proof.
  triple_seq; [by apply triple_agent_now|]. intros now. triple_seq; [by apply triple_coverage|]. intros v.
  apply triple_pure. intros Hv. apply triple_if; intros _; [triple_fails|].
  triple_seq; [by apply triple_sendCoverage|]. intros ?. triple_seq; [by apply triple_startCursor|]. intros start. triple_returns.
  by intros s _ [? _].
Qed.

Lemma triple_agentStart : triple (fun _ => True) (agentStart config info) agent_ok.
Proof. apply triple_if; intros _; [triple_returns | apply triple_agentBegin]. Qed.

Lemma triple_announced ack : triple (fun _ => True) (announced config info ack) agent_ok.
Proof.
  apply triple_if; intros _; [triple_fails|]. destruct (ac_Binder config) as [bind|]; [|apply triple_agentBegin].
  destruct (aa_Archive ack) as [descriptor|]; [|apply triple_agentBegin].
  destruct (bind descriptor) as [bound|]; [|triple_fails]. apply triple_if; intros _; [triple_fails | apply triple_agentBegin].
Qed.

(** What [ReadAuditFrom] tells of the cursor. *)
Definition read_ok (start : Cursor) (r : readResult) (w : WAL) : Prop :=
  match r with
  | ReadRecords rs => cursor_sorted (cursors rs) /\ forall x, x ∈ cursors rs -> cursor_ok x /\
      (cursor_lt c x -> settled w \/ cursor_lt c start \/ c ∈ cursors rs)
  | ReadBehindFloor _ b v => coverage_wf (coverageToTransport v) /\
      (cursor_lt c (default (b_NextCursor b) (b_WALFloor b)) -> settled w)
  end.

Lemma read_cursor now start limit s r :
  wal_side (s_wal s) -> (ReadAuditFrom now start limit s).1 = Ok r -> read_ok start r (s_wal s).
Proof.
  intros Hw E. destruct (ReadAuditFrom now start limit s) as [r' s'] eqn:Er. simpl in E. subst r'.
  assert (w_closed (s_wal s) = false) as Hc.
  { unfold ReadAuditFrom, bind at 1, gets at 1 in Er. by destruct (w_closed (s_wal s)). }
  apply ReadAuditFrom_spec in Er; [|apply Hw]. destruct r as [rs|req b v]; simpl.
  - destruct Er as (Hs & Hin & Hall). split; [done|]. intros x Hx. destruct (Hin x Hx) as [_ Hok]. split; [done|]. intros Hlt.
    destruct (decide (cursor_le start c)) as [Hst|Hst]; [|right; left; by apply cursor_nle_lt].
    assert (live (s_wal s) c \/ cursor_le (next_cursor (w_meta (s_wal s))) c -> c ∈ cursors rs) as Hin'.
    { intros [?|Hr]%Hall; [done | |done]. specialize (Hr x Hx). destruct (cursor_lt_not_le _ _ Hr). by apply cursor_lt_le. }
    destruct (ws_tracked _ Hw) as [Hk|?]; [|by right; right; apply Hin'; right].
    destruct (kept_live _ _ Hk) as [?|[?|?]]; [right; right; apply Hin'; by left | left; by left | left; by apply (ws_acked _ Hw)].
  - destruct Er as (_ & -> & -> & _). split; [apply coverage_read_wf, Hw|]. intros Hlt. by eapply floor_settled.
Qed.

Lemma triple_loopRound archive rev start : triple (passed start) (loopRound archive rev start) agent_ok.
Proof.
  triple_seq; [by apply triple_agent_now|]. intros now. triple_seq; [by apply triple_coverage|]. intros v. apply triple_pure. intros Hv.
  triple_seq; [instantiate (1 := fun _ => passed start)|].
  { apply triple_if; intros _; [|triple_returns]. triple_seq; [by apply triple_sendCoverage|]. intros ?. triple_returns. }
  intros rev'. triple_seq; [by apply triple_agent_now|]. intros now'.
  triple_seq; [apply (triple_read _ (read_ok start)); [apply ReadAuditFrom_same | intros s a; apply read_cursor | done]|].
  intros [rs|req b cov]; simpl.
  - destruct rs as [|r rs].
    + eapply triple_weaken; [|by intros s [_ Hs]; exact Hs | intros ? ? Hs; exact Hs]. triple_seq; [by apply triple_wait|]. intros ?. triple_returns.
    + triple_returns. intros s _ [[Hs Hb] Hp]. split; [done|]. split; [done|]. intros x Hx. destruct (Hb x Hx) as [Hok Hb'].
      split; [done|]. intros [?|[?|?]]%Hb'; [by left | left; by apply Hp | by right; right].
  - eapply triple_weaken; [|intros s [[Hc Hl] _]; exact (conj Hc Hl) | intros ? ? Hs; exact Hs]. apply triple_pure. intros Hc.
    triple_seq; [apply triple_Send; [|apply (passed_stable (default (b_NextCursor b) (b_WALFloor b)))]|intros ?; triple_returns].
    split_and!; [done | by intros x [= <-] | done].
Qed.

(** Sending a record. *)
Lemma batch_next r rest s : batch_ok [] (r :: rest) s ->
  cursor_ok (r_Cursor r) /\ passed (r_Cursor r) s /\ batch_ok [r_Cursor r] rest s.
Proof.
  intros [Hs Hb]. apply StronglySorted_inv in Hs as [Hs Hle]. rewrite Forall_forall in Hle.
  destruct (Hb (r_Cursor r)) as [Hok Hr]; [by left|]. split_and!; [done | | split; [done|]].
  - intros Hlt. destruct (Hr Hlt) as [?|[?%not_elem_of_nil|[->|Hin]%elem_of_cons]]; [done | done | |].
    + by destruct (irreflexivity cursor_lt _ Hlt).
    + by apply cursor_lt_not_le in Hlt; destruct Hlt; apply Hle.
  - intros x Hx. destruct (Hb x) as [? Hx']; [by right|]. split; [done|].
    intros [?|[?%not_elem_of_nil|[->|Hin]%elem_of_cons]]%Hx'; [by left | done | right; left; by left | by right; right].
Qed.

Lemma triple_agentProceed st : triple (agent_ok st) (agentProceed config st) agent_ok.
Proof.
  destruct st as [archive rev ph]. unfold agentProceed, agent_ok. simpl. destruct ph as [|start|start [|r rest]|p rest]; simpl;
    [triple_returns | apply triple_loopRound | triple_returns; by intros s _ [? _] | | triple_returns].
  eapply triple_weaken; [|intros s [_ Hb]; exact (batch_next _ _ _ Hb) | intros ? ? Hs; exact Hs].
  triple_seq; [apply triple_Send; [done | apply (phase_stable (AgAwait (r_Cursor r) rest))]|]. intros ?. triple_returns.
Qed.

(** The record awaited is acknowledged. *)
Lemma batch_after p rest s : cursor_ok p -> through p s -> batch_ok [p] rest s ->
  passed (mkCursor (Incarnation p) (Seq p + 1)) s /\ batch_ok [] rest s.
Proof.
  intros Hok Ht [Hs Hb]. split.
  - intros Hlt. apply Ht. unfold cursor_lt, cursor_le in *. simpl in Hlt. lia.
  - split; [done|]. intros x Hx. destruct (Hb x Hx) as [? Hb']. split; [done|].
    intros [?|[E%list_elem_of_singleton|?]]%Hb'; [by left | left; apply Ht; by rewrite E | by right; right].
Qed.

(** The acknowledgement received is for the cursor awaited, and the Server
    answers for it. *)
Lemma triple_finishACK st p rest ack :
  (ack_cursor ack = c -> cursor_ok c -> H) ->
  triple (phase_ok (AgAwait p rest)) (finishACK st p rest ack) agent_ok.
Proof.
  intros Hack. unfold finishACK. apply triple_if; intros E; [triple_fails|]. bool_to_prop.
  apply triple_pure. intros Hok.
  assert (forall s, passed p s -> through p s) as Ht.
  { intros s Hp Hle. destruct (decide (c = p)) as [Ec|Hne].
    - right. apply Hack; [|by rewrite Ec]. unfold ack_cursor. rewrite Ec. destruct p; simpl in *. by f_equal.
    - apply Hp. by apply cursor_le_ne_lt. }
  eapply triple_weaken; [|intros s [Hp Hb]; exact (conj (Ht s Hp) Hb) | intros ? ? Hs; exact Hs].
  assert (stable agt_inv agt_le (fun s => through p s /\ batch_ok [p] rest s)) as Hst
    by (intros s s' Hi Hle [? ?]; split; [by eapply through_stable | by eapply batch_stable]).
  triple_seq; [eapply triple_attempt; [by apply triple_Ack | exact Hst | done]|]. intros r.
  eapply triple_weaken; [|intros s [Hs _]; exact Hs | intros ? ? Hs; exact Hs]. destruct r as [u|e].
  - triple_seq; [apply triple_Send; [by split_and!; [..|intros x y [= <-]] | exact Hst]|]. intros ?. apply triple_if; intros _; [triple_fails|]. triple_returns.
    intros s _ [Ht1 Hb1]. by apply batch_after.
  - destruct e as [| |e| | | | | | | |]; try triple_fails. destruct e; try triple_fails.
    triple_seq; [by apply triple_agent_now|]. intros now.
    triple_seq; [instantiate (1 := fun v s => coverage_wf (coverageToTransport v) /\ (through p s /\ batch_ok [p] rest s))|].
    { intros s Hi Hs. simpl. split; [done|]. split; [by intros ?|]. intros a [= <-]. split; [apply coverage_read_wf, Hi | done]. }
    intros v. apply triple_pure. intros Hv. triple_seq; [apply triple_Send; [|exact Hst]|].
    { split_and!; [done..|]. by intros x y [= <-] [= <-]. }
    intros ?. triple_returns. intros s _ [Ht1 Hb1]. split_and!; [done | | done]. intros Hlt. apply Ht1. by apply cursor_lt_le.
Qed.

Lemma triple_agentReceive st ack :
  (ack_cursor ack = c -> cursor_ok c -> H) -> triple (agent_ok st) (agentReceive config info st ack) agent_ok.
Proof.
  intros Hack. unfold agentReceive, agent_ok. destruct (as_phase st) as [|start|start rs|p rest] eqn:Ep;
    [apply triple_announced | triple_returns; by rewrite Ep.. | by apply triple_finishACK].
Qed.
End AgentSpec.

(** What the Agent has reached depends on what is settled only. *)
Lemma agent_ok_mono c (H H' : Prop) st s s' :
  (settled c H (s_wal (at_wal s)) -> settled c H' (s_wal (at_wal s'))) -> agent_ok c H st s -> agent_ok c H' st s'.
Proof.
  intros Hset. assert (forall before rs, batch_ok c H before rs s -> batch_ok c H' before rs s') as Hb.
  { intros before rs [Hs Hb]. split; [done|]. intros r Hr. destruct (Hb r Hr) as [Hok Hb']. split; [done|].
    intros [?|?]%Hb'; [left; by apply Hset | by right]. }
  assert (forall start, passed c H start s -> passed c H' start s') as Hp by (intros start Hp Hlt; by apply Hset, Hp).
  unfold agent_ok. destruct (as_phase st); simpl; [done | by apply Hp | |]; intros Hx; destruct_and?; split_and?; auto.
Qed.

Lemma side_mono c (H H' : Prop) w : (H -> H') -> wal_side c H w -> wal_side c H' w.
Proof. intros Hh [Hi Ht Ha]. split; [done..|]. intros [?|?]%Ha; [by left | right; auto]. Qed.

(** ** The system *)

Record system := mkSystem {
  y_wal : sys;
  y_store : auditStore;
  y_agent : option AgentState;
  y_server : option ServerState;
  y_up : list AuditUpstream;
  y_down : list AuditAck;
}.

(** What befalls one side while it runs: the outcomes of its calls on the
    stream, what other goroutines do between its steps, its clock. *)
Record agent_env := mkAgentEnv { ae_sends : list delivery; ae_others : list (list wal_op); ae_clock : list time }.
Record server_env := mkServerEnv { se_sends : list delivery; se_others : list (list audit_step); se_clock : list time }.

Inductive event :=
| EvWAL (op : wal_op)
| EvFiles (d : disk) (outcomes : list outcome)
| EvStore (x : audit_step)
| EvStatements (outcomes : list bool)
| EvConnect
| EvAgentStart (env : agent_env)
| EvServerStart (env : server_env)
| EvAgent (env : agent_env)
| EvServer (env : server_env).

Section System.
Context (julianday : time -> Z) (text_length : string -> Z) (time_length : time -> Z).
Context (aconfig : AgentConfig) (sconfig : ServerConfig) (decode : SessionInfo -> AuditRecord -> option Event) (info : SessionInfo).
Abbreviation A := (sc_ArchiveID sconfig).
Abbreviation g := (in_AgentID info).

Definition agent_runs (m : agtM AgentState) (env : agent_env) (down : list AuditAck) (y : system) : system :=
  let '(r, s) := m (mkAgt (y_wal y) (y_up y) (ae_sends env) (ae_others env) (ae_clock env)) in
  mkSystem (at_wal s) (y_store y) (match r with Ok st => Some st | Err _ => None end) (y_server y) (at_up s) down.

Definition server_runs (m : srvM ServerState) (env : server_env) (up : list AuditUpstream) (y : system) : system :=
  let '(r, s) := m (mkSrv (y_store y) (y_down y) (se_sends env) (se_others env) (se_clock env)) in
  mkSystem (y_wal y) (sv_store s) (y_agent y) (match r with Ok st => Some st | Err _ => None end) up (sv_down s).

Definition awaits (st : AgentState) : bool := match as_phase st with AgAnnounce | AgAwait _ _ => true | _ => false end.

(** One event. A side that waits for a message that is not there does not
    move; a side whose handler fails has ended its session. *)
Definition system_step (e : event) (y : system) : system :=
  match e with
  | EvWAL op => mkSystem (op_run op (y_wal y)) (y_store y) (y_agent y) (y_server y) (y_up y) (y_down y)
  | EvFiles d outcomes => mkSystem (mkSys (s_wal (y_wal y)) d outcomes) (y_store y) (y_agent y) (y_server y) (y_up y) (y_down y)
  | EvStore x =>
    mkSystem (y_wal y) (audit_run julianday text_length time_length A x (y_store y)).2 (y_agent y) (y_server y) (y_up y) (y_down y)
  | EvStatements outcomes =>
    mkSystem (y_wal y) (mkAuditStore (s_db (y_store y)) (s_runtime (y_store y)) outcomes) (y_agent y) (y_server y) (y_up y) (y_down y)
  | EvConnect => mkSystem (y_wal y) (y_store y) None None [] []
  | EvAgentStart env =>
    match y_agent y with None => agent_runs (agentStart aconfig info) env (y_down y) y | Some _ => y end
  | EvServerStart env =>
    match y_server y with
    | None => server_runs (serverStart julianday text_length time_length sconfig info) env (y_up y) y
    | Some _ => y
    end
  | EvAgent env =>
    match y_agent y with
    | None => y
    | Some st =>
      if awaits st then
        match y_down y with
        | [] => y
        | ack :: rest => agent_runs (agentReceive aconfig info st ack) env rest y
        end
      else agent_runs (agentProceed aconfig st) env (y_down y) y
    end
  | EvServer env =>
    match y_server y, y_up y with
    | Some st, message :: rest =>
      server_runs (serverReceive julianday text_length time_length sconfig decode info st message) env rest y
    | _, _ => y
    end
  end.

Definition system_run (es : list event) (y : system) : system := foldl (fun y e => system_step e y) y es.

(** The log is acknowledged and rebound only by the session; other Agents and
    sessions may drive the store in any way. *)
Definition event_ok (e : event) : Prop :=
  match e with
  | EvWAL op => is_local op = true
  | EvStore x => audit_step_wf x
  | EvAgentStart env | EvAgent env => Forall (Forall (fun op => is_local op = true)) (ae_others env)
  | EvServerStart env | EvServer env => Forall (Forall audit_step_wf) (se_others env)
  | _ => True
  end.

Definition y_held (y : system) (c : Cursor) : Prop := held A g (s_db (y_store y)) c.
Definition y_lost (y : system) (c : Cursor) : Prop := lost (w_meta (s_wal (y_wal y))) c.

Definition agt_of (y : system) : agt := mkAgt (y_wal y) (y_up y) [] [] [].
Definition srv_of (y : system) : srv := mkSrv (y_store y) (y_down y) [] [] [].

Record system_inv (c : Cursor) (y : system) : Prop := {
  yi_store : store_inv A (s_db (y_store y));
  yi_wal : wal_side c (y_held y c) (s_wal (y_wal y));
  yi_up : Forall message_wf (y_up y);
  yi_down : forall ack, ack ∈ y_down y -> IsArchiveAnnouncement ack = true \/ y_held y (ack_cursor ack);
  yi_agent : forall st, y_agent y = Some st -> agent_ok c (y_held y c) st (agt_of y);
  yi_server : forall st, y_server y = Some st -> state_ok sconfig info st (srv_of y);
}.

(** A step of the log alone. *)
Lemma wal_step_inv c w y :
  wal_side c (y_held y c) (s_wal w) ->
  (settled c (y_held y c) (s_wal (y_wal y)) -> settled c (y_held y c) (s_wal w)) -> system_inv c y ->
  system_inv c (mkSystem w (y_store y) (y_agent y) (y_server y) (y_up y) (y_down y)).
Proof.
  intros Hw Hset [H1 H2 H3 H4 H5 H6]. split; try done. intros st Hst. eapply agent_ok_mono; [|by apply (H5 st)]. done.
Qed.

(** A step of the store alone. *)
Lemma store_step_inv c st' y :
  store_inv A (s_db st') -> keeps_held A (s_db (y_store y)) (s_db st') -> system_inv c y ->
  system_inv c (mkSystem (y_wal y) st' (y_agent y) (y_server y) (y_up y) (y_down y)).
Proof.
  intros Hi Hk [H1 H2 H3 H4 H5 H6]. assert (forall x, y_held y x -> held A g (s_db st') x) as Hh by (intros x; apply Hk).
  split; simpl; try done.
  - eapply side_mono; [|exact H2]. apply Hh.
  - intros ack [?|?]%H4; [by left | right; by apply Hh].
  - intros st Hst. eapply agent_ok_mono; [|by apply (H5 st)]. intros [?|?]; [by left | right; by apply Hh].
  - intros st Hst. destruct (H6 st Hst) as [? Hp]. split; [done|]. intros p Ep. by apply Hh, Hp.
Qed.

Lemma agent_runs_inv c m P env down y :
  triple (agt_inv c (y_held y c)) (agt_le c (y_held y c)) P m (agent_ok c (y_held y c)) ->
  P (mkAgt (y_wal y) (y_up y) (ae_sends env) (ae_others env) (ae_clock env)) ->
  Forall (Forall (fun op => is_local op = true)) (ae_others env) -> (forall ack, ack ∈ down -> ack ∈ y_down y) ->
  system_inv c y -> system_inv c (agent_runs m env down y).
Proof.
  intros Hm HP He Hd [H1 H2 H3 H4 H5 H6]. unfold agent_runs. set (s := mkAgt _ _ _ _ _) in *.
  destruct (Hm s) as ((Hw & _ & Hu) & Hle & Hq); [by split_and! | done|]. destruct (m s) as [r s'] eqn:E. simpl in *.
  split; simpl; try done; [by intros ack Hack%Hd; apply H4|].
  intros st. destruct r as [a|e]; [|done]. intros [= <-]. eapply agent_ok_mono; [|by apply (Hq a)]. done.
Qed.

Lemma server_runs_inv c m (P : srv -> Prop) env up y :
  triple (srv_inv sconfig) (served sconfig info) P m (state_ok sconfig info) ->
  P (mkSrv (y_store y) (y_down y) (se_sends env) (se_others env) (se_clock env)) ->
  Forall (Forall audit_step_wf) (se_others env) -> Forall message_wf up ->
  system_inv c y -> system_inv c (server_runs m env up y).
Proof.
  intros Hm HP He Hup [H1 H2 H3 H4 H5 H6]. unfold server_runs. set (s := mkSrv _ _ _ _ _) in *.
  destruct (Hm s) as ((Hi & _) & [Hk Hoff] & Hq); [by split | done|]. destruct (m s) as [r s'] eqn:E. simpl in *.
  assert (forall x, y_held y x -> held A g (s_db (sv_store s')) x) as Hh by (intros x; apply Hk).
  split; simpl; try done.
  - eapply side_mono; [|exact H2]. apply Hh.
  - intros ack [Hin|?]%Hoff; [|done]. destruct (H4 ack Hin) as [?|?]; [by left | right; by apply Hh].
  - intros st Hst. eapply agent_ok_mono; [|by apply (H5 st)]. intros [?|?]; [by left | right; by apply Hh].
  - intros st. destruct r as [a|e]; [|done]. intros [= <-]. by apply (Hq a).
Qed.

Lemma system_step_inv c e y : event_ok e -> system_inv c y -> system_inv c (system_step e y).
Proof.
  intros He Hi. pose proof Hi as [H1 H2 H3 H4 H5 H6]. destruct e as [op|d os|x|os| |env|env|env|env]; simpl in He |- *.
  - destruct (safe_side _ _ _ _ H2 (local_op_safe eq op (y_wal y) He)). by apply wal_step_inv.
  - by apply wal_step_inv.
  - apply store_step_inv; [by apply audit_run_inv | by apply audit_run_held | done].
  - by apply store_step_inv.
  - split; simpl; try done; by intros ack ?%not_elem_of_nil.
  - destruct (y_agent y); [done|]. by eapply agent_runs_inv; [apply triple_agentStart|..].
  - destruct (y_server y); [done|]. by eapply server_runs_inv; [apply triple_serverStart|..].
  - destruct (y_agent y) as [st|] eqn:Ea; [|done]. specialize (H5 st eq_refl). destruct (awaits st).
    + destruct (y_down y) as [|ack rest] eqn:Ed; [done|]. eapply agent_runs_inv; [apply triple_agentReceive| | done | | done].
      * intros Ec Hok. destruct (H4 ack) as [Hann|Hh]; [by left | | by rewrite <- Ec].
        unfold IsArchiveAnnouncement in Hann. bool_to_prop. rewrite <- Ec in Hok. destruct Hok. simpl in *. lia.
      * eapply agent_ok_mono; [|exact H5]. done.
      * intros a Ha. rewrite Ed. by right.
    + eapply agent_runs_inv; [apply (triple_agentProceed _ _ _ st) | | done..]. eapply agent_ok_mono; [|exact H5]. done.
  - destruct (y_server y) as [st|] eqn:Es; [|done]. destruct (y_up y) as [|message rest] eqn:Eu; [done|].
    apply Forall_cons in H3 as [Hm Hr]. eapply server_runs_inv; [by apply triple_serverReceive | | done..].
    destruct (H6 st eq_refl) as [Hp Hh]. by split.
Qed.

Lemma system_run_inv c es y : Forall event_ok es -> system_inv c y -> system_inv c (system_run es y).
Proof. intros He. revert y. induction He as [|e es He Hes IH]; intros y Hi; [done|]. apply IH. by apply system_step_inv. Qed.

(** [C1] No audit record is lost silently between an Agent's log and the archive.
    Start with no session open, and take any cursor the log has or will assign,
    not acknowledged without being settled. Then run anything: the Agent
    appending, syncing, pruning under retention or disk pressure, file-system and
    SQL failures, sessions breaking and starting again, each side's calls of the
    stream failing with the message delivered or not, other sessions, retention
    and compaction on the Server - any interleaving. Once the cursor is assigned
    it is, at every moment, in a live segment of the log, recorded by the Agent
    as lost (a gap, or an incarnation of unknown coverage), or held by the Server
    (stored, or covered by a ledger entry of its own); and whatever the log has
    been acknowledged through is one of the last two, so dropping acknowledged
    segments loses nothing. Rebinding the log to another archive is left out:
    what is held is held by one archive. *)
Theorem audit_end_to_end c es y :
  wal_inv (s_wal (y_wal y)) -> store_inv A (s_db (y_store y)) ->
  y_agent y = None -> y_server y = None -> y_up y = [] -> y_down y = [] ->
  (kept (s_wal (y_wal y)) c \/ cursor_le (next_cursor (w_meta (s_wal (y_wal y)))) c) ->
  (opt_ge c (m_ServerACK (w_meta (s_wal (y_wal y)))) -> y_lost y c \/ y_held y c) ->
  Forall event_ok es ->
  let y' := system_run es y in
  (cursor_lt c (next_cursor (w_meta (s_wal (y_wal y')))) -> live (s_wal (y_wal y')) c \/ y_lost y' c \/ y_held y' c) /\
  (opt_ge c (m_ServerACK (w_meta (s_wal (y_wal y')))) -> y_lost y' c \/ y_held y' c).
Proof.
  intros Hw Hs Ea Es Eu Ed Ht Hack He y'. assert (system_inv c y) as Hi.
  { split; [done | by split | by rewrite Eu | by rewrite Ed; intros ack ?%not_elem_of_nil | by rewrite Ea | by rewrite Es]. }
  destruct (system_run_inv c es y He Hi) as [_ [_ Ht' Ha'] _ _ _ _]. fold y' in Ht', Ha'. split; [|exact Ha'].
  intros Hlt. destruct Ht' as [Hk|Hge]; [|by apply cursor_lt_not_le in Hlt].
  destruct (kept_live _ _ Hk) as [?|[?|?]]; [by left | by right; left | right; by apply Ha'].
Qed.
End System.
