(* ===== verification/AuditEndDemo.v ===== *)
(** * A session from end to end

    An Agent with three records in its log and a Server with an empty archive:
    the session that moves the records over, message by message, and what a
    session can still do wrong. *)

From S2P Require Import Prelude Cursor WalFrame WalMeta Wal WalInv WalProps WalOpen WalSpec WalRead.
From S2P Require Import AuditStore AuditStoreSpec AuditStoreInv AuditRetention AuditHeld AuditStoreProps AuditWitness AuditSync AuditSyncSpec AuditEnd.

Definition link_info : SessionInfo := mkInfo "agent" 2.
Definition link_decode (info : SessionInfo) (r : AuditRecord) : option Event :=
  Some (mkEvent (in_AgentID info) (mkCursor (ar_Incarnation r) (ar_Sequence r)) (ar_AppendedAt r)
    "container.start" "" "" "" "container" "c1" "start" "{}").
Definition link_server : ServerConfig := mkServerConfig true "A" CoverageServerNeverHad (Some link_decode) "server" 1.
Definition link_agent : AgentConfig := mkAgentConfig true "A" 64 250000000 None.
Definition calm_agent : agent_env := mkAgentEnv [] [] [].
Definition calm_server : server_env := mkServerEnv [] [] [7; 7; 7; 7; 7].

Abbreviation link_run := (system_run id demo_text demo_stamp link_agent link_server link_decode link_info).

Definition link_start : system := mkSystem demo_log demo_empty None None [] [].

(** One record: sent, ingested and offered, acknowledged, advanced. *)
Definition one_record : list event := [EvAgent calm_agent; EvServer calm_server; EvAgent calm_agent; EvServer calm_server].

Definition link_open : list event :=
  [EvServerStart calm_server; EvAgentStart calm_agent; EvAgent calm_agent; EvServer calm_server; EvAgent calm_agent].

Definition whole_session : list event := link_open ++ one_record ++ one_record ++ one_record.


(** The session ends with every record stored, the log acknowledged through the
    last of them and its segments dropped, and both sides waiting for more. *)
Example session_delivers :
  let y := link_run whole_session link_start in
  (ev_seq <$> db_events (s_db (y_store y))) = [1; 2; 3] /\ w_segments (s_wal (y_wal y)) = [] /\
  m_ServerACK (w_meta (s_wal (y_wal y))) = Some (mkCursor 1 3) /\
  (st_ack <$> db_cursors (s_db (y_store y)) !! ("A", "agent")) = Some (Some (mkCursor 1 3)) /\
  y_up y = [] /\ y_down y = [] /\ is_Some (y_agent y) /\ is_Some (y_server y).
Proof. vm_compute. split_and!; eauto. Qed.

(** The Agent's answer is lost and the link breaks after the log acknowledged
    the first record and dropped it; a record was appended meanwhile. *)
Definition broken_session : list event :=
  link_open ++ [EvAgent calm_agent; EvServer calm_server; EvAgent (mkAgentEnv [(false, false)] [[OpAppend 9 [5]]] []); EvConnect].

Lemma audit_end_to_end_witness :
  let y := link_run broken_session link_start in
  b_WALFloor (boundsLocked (s_wal (y_wal y))) = Some (mkCursor 1 2) /\
  (y_lost y (mkCursor 1 1) \/ y_held link_server link_info y (mkCursor 1 1)).
Proof.
  cbv zeta. split; [vm_compute; reflexivity|].
  apply (audit_end_to_end id demo_text demo_stamp link_agent link_server link_decode link_info (mkCursor 1 1) broken_session link_start).
  - apply log_reachable_inv, demo_log_reachable.
  - by apply audit_fresh_inv.
  - reflexivity.
  - reflexivity.
  - reflexivity.
  - reflexivity.
  - left. right. eexists. split; [vm_compute; left; reflexivity|]. vm_compute. split; [reflexivity|]. split; [reflexivity|]. split; discriminate.
  - intros (a & Ha & _). vm_compute in Ha. discriminate Ha.
  - repeat constructor.
  - exists (mkCursor 1 1). split; [vm_compute; reflexivity|]. right. split; [reflexivity | simpl; lia].
Defined.

(** ** The Server alone *)

Abbreviation link_serve := (Run id demo_text demo_stamp link_server link_decode link_info).

Definition server_fresh : srv := mkSrv demo_empty [] [] [] [7; 7; 7; 7; 7; 7; 7].

Lemma server_fresh_inv : srv_inv link_server server_fresh.
Proof. split; [by apply audit_fresh_inv | constructor]. Qed.

(** An Agent that lost its first two records, sends the third, and answers the
    acknowledgement with a later coverage that no longer claims the loss. *)
Definition stale_messages : list AuditUpstream :=
  [send_coverage (mkTransportCoverage 1 5 [mkAuditGap 1 1 3 "RETENTION" "exact" 1] []);
   send_record (mkAuditRecord 1 3 6 [1]);
   send_result (mkAckResult (mkCursor 1 3) false (Some (mkTransportCoverage 2 8 [] [])) "STALE_COVERAGE")].

Lemma stale_messages_wf : Forall message_wf stale_messages.
Proof.
  repeat constructor; simpl; try done.
  - intros c [= <-]. repeat constructor; simpl; lia.
  - intros r c [= <-] [= <-]. constructor.
Qed.

Lemma server_offers_held_witness :
  let s' := (link_serve stale_messages server_fresh).2 in
  length (sv_down s') = 3%nat /\ held "A" "agent" (srv_db s') (mkCursor 1 3).
Proof.
  cbv zeta. split; [vm_compute; reflexivity|].
  destruct (server_offers_held id demo_text demo_stamp link_server link_decode link_info stale_messages server_fresh
    stale_messages_wf server_fresh_inv) as (_ & _ & H).
  destruct (H (mkAck "A" 1 3 1 None)) as [Hin|[Hann|Hh]].
  - vm_compute. right. left.
  - by apply not_elem_of_nil in Hin.
  - discriminate Hann.
  - exact Hh.
Defined.

(** An acknowledgement the Server will not honour is sent: after a stale
    coverage the offer is repeated without settling its eligibility again, and
    the commit would refuse it. *)
Theorem reoffer_unsettled :
  let s' := (link_serve stale_messages server_fresh).2 in
  last (sv_down s') = Some (mkAck "A" 1 3 2 None) /\
  (CheckAndAdvanceACK "A" "agent" (mkCursor 1 3) 2 9 (sv_store s')).1 =
    Err (ACKIneligible (mkCursor 1 3) (mkCursor 1 4) [mkRange (mkCursor 1 1) (mkCursor 1 3)]).
Proof. vm_compute. by split. Qed.

Definition settled_record : AuditRecord := mkAuditRecord 1 1 6 [1].
Definition settled_start : srv :=
  (establish id demo_text demo_stamp link_server link_info (mkCursor 1 1) server_fresh).2.

Lemma first_offer_settled_witness :
  let s' := (ingestAndOffer id demo_text demo_stamp link_server link_decode link_info settled_record 0 None settled_start).2 in
  eligible "A" "agent" (srv_db s') (mkCursor 1 1).
Proof.
  cbv zeta. destruct (ingestAndOffer id demo_text demo_stamp link_server link_decode link_info settled_record 0 None settled_start)
    as [r s'] eqn:E.
  destruct (first_offer_settled id demo_text demo_stamp link_server link_decode link_info settled_record 0 None settled_start r s'
    (mkAck "A" 1 1 0 None)) as [Hin|(_ & _ & _ & _ & H)].
  - destruct (triple_establish id demo_text demo_stamp link_server link_info (mkCursor 1 1) (fun _ => True) ltac:(done) server_fresh
      server_fresh_inv I) as (Hi & _). exact Hi.
  - exact E.
  - assert (sv_down s' = [mkAck "A" 1 1 0 None]) as ->; [|by left].
    transitivity (sv_down (ingestAndOffer id demo_text demo_stamp link_server link_decode link_info settled_record 0 None settled_start).2);
      [by rewrite E | vm_compute; reflexivity].
  - vm_compute in Hin. by apply not_elem_of_nil in Hin.
  - exact H.
Defined.
