(* ===== verification/AuditGen.v ===== *)
(** * The observed-event generator

    Models [internal/auditgen/generator.go]: managed records, and the generator
    that turns whitelisted Docker events into a bounded stream of audit events -
    repeated events are coalesced for a window, at most so many events leave per
    second, and what exceeds either bound is counted in an event-storm summary.
    The clock's readings are arguments. *)

From Stdlib Require Import Ascii.
From S2P Require Import Prelude.

(** ** [net.ParseIP]: whether a text is an IPv4 or IPv6 address *)
Module IP.

Definition code (c : ascii) : Z := Z.of_nat (nat_of_ascii c).
Definition digit (c : ascii) : option Z := if (48 <=? code c) && (code c <=? 57) then Some (code c - 48) else None.
Definition hex (c : ascii) : option Z :=
  match digit c with
  | Some d => Some d
  | None =>
    if (97 <=? code c) && (code c <=? 102) then Some (code c - 87)
    else if (65 <=? code c) && (code c <=? 70) then Some (code c - 55)
    else None
  end.

(** The octets of an IPv4 address: [pos] dots so far, the current octet's value
    and number of digits. *)
Fixpoint v4_fields (s : list ascii) (pos val digits : Z) : bool :=
  match s with
  | [] => (pos =? 3) && (0 <? digits)
  | c :: s' =>
    match digit c with
    | Some d =>
      if (digits =? 1) && (val =? 0) then false
      else let val' := val * 10 + d in if val' >? 255 then false else v4_fields s' pos val' (digits + 1)
    | None =>
      if (c =? ".")%char then
        if digits =? 0 then false else if pos =? 3 then false else v4_fields s' (pos + 1) 0 0
      else false
    end
  end.

Definition parseIPv4 (s : list ascii) : bool := v4_fields s 0 0 0.

(** The leading hexadecimal digits of a group, unless there are too many. *)
Fixpoint v6_group (s : list ascii) (off : Z) : option (Z * list ascii) :=
  match s with
  | c :: s' =>
    match hex c with
    | Some _ => if off >? 3 then None else v6_group s' (off + 1)
    | None => Some (off, s)
    end
  | [] => Some (off, [])
  end.

(** The groups of an IPv6 address: [i] bytes so far, whether an ellipsis was
    seen. The result is the bytes and the ellipsis at the end. *)
Fixpoint v6_loop (fuel : nat) (s : list ascii) (i : Z) (ellipsis : bool) : option (Z * bool * list ascii) :=
  match fuel with
  | O => Some (i, ellipsis, s)
  | S fuel' =>
    if i >=? 16 then Some (i, ellipsis, s) else
    match v6_group s 0 with
    | None => None
    | Some (off, rest) =>
      if off =? 0 then None
      else if bool_decide (head rest = Some "."%char) then
        if negb ellipsis && negb (i =? 12) then None
        else if i + 4 >? 16 then None
        else if parseIPv4 s then Some (i + 4, ellipsis, []) else None
      else
        match rest with
        | [] => Some (i + 2, ellipsis, [])
        | c :: s1 =>
          if negb (c =? ":")%char then None
          else
            match s1 with
            | [] => None
            | c2 :: s2 =>
              if (c2 =? ":")%char then
                if ellipsis then None
                else match s2 with [] => Some (i + 2, true, []) | _ => v6_loop fuel' s2 (i + 2) true end
              else v6_loop fuel' s1 (i + 2) ellipsis
            end
        end
    end
  end.

Definition parseIPv6 (s : list ascii) : bool :=
  let '(ellipsis, s') :=
    match s with
    | c1 :: c2 :: rest => if (c1 =? ":")%char && (c2 =? ":")%char then (true, rest) else (false, s)
    | _ => (false, s)
    end in
  if ellipsis && bool_decide (s' = []) then true
  else
    match v6_loop 9 s' 0 ellipsis with
    | Some (i, e, []) => if i <? 16 then e else negb e
    | _ => false
    end.

(** The first of [.], [:] and [%] decides the family; a zone is refused. *)
Fixpoint family (s : list ascii) : option bool :=
  match s with
  | [] => None
  | c :: s' =>
    if (c =? ".")%char then Some true
    else if (c =? ":")%char then Some false
    else if (c =? "%")%char then None
    else family s'
  end.

Definition ParseIP (text : string) : bool :=
  let s := String.list_ascii_of_string text in
  match family s with
  | Some true => parseIPv4 s
  | Some false => negb (existsb (fun c => (c =? "%")%char) s) && parseIPv6 s
  | None => false
  end.

Example ip_accepts :
  forallb ParseIP ["127.0.0.1"; "::1"; "::"; "fe80::1"; "1:2:3:4:5:6:7:8"; "::ffff:1.2.3.4"; "2001:DB8::"; "1:2:3:4:5:6:1.2.3.4"] = true.
Proof. vm_compute. reflexivity. Qed.
Example ip_refuses :
  existsb ParseIP [""; "1.2.3"; "1.2.3.4.5"; "01.2.3.4"; "256.1.1.1"; "1..2.3"; ".1.2.3"; "1.2.3."; ":1"; "1:"; "1::2::3"; "12345::";
    "1:2:3:4:5:6:7"; "1:2:3:4:5:6:7:8:9"; "fe80::1%eth0"; "::1.2.3"; "1:2:3:4:5:6:7::8"; "1.2.3.4:80"; "x"] = false.
Proof. vm_compute. reflexivity. Qed.
End IP.

(** ** Signals and events *)

Inductive Kind := KindManaged | KindObserved | KindEventStorm | KindOther (text : string).
#[export] Instance Kind_eq_dec : EqDecision Kind.
Proof. solve_decision. Defined.

Definition Attributes : Type := option (gmap string string).

Record Signal := mkSignal {
  sg_ResourceType : string;
  sg_ResourceID : string;
  sg_Action : string;
  sg_OccurredAt : time;
  sg_Attributes : Attributes;
}.

Record Event := mkGenEvent {
  ge_Kind : Kind;
  ge_ResourceType : string;
  ge_ResourceID : string;
  ge_Action : string;
  ge_Actor : string;
  ge_FirstAt : time;
  ge_LastAt : time;
  ge_Count : Z;
  ge_Attributes : Attributes;
}.

Record Config := mkGenConfig {
  gc_Clock : bool;
  gc_CoalescingWindow : Z;
  gc_MaxEventsPerSecond : Z;
  gc_MaxPending : Z;
}.

Definition second : Z := 1000000000.

(** The defaults of [internal/config]: a window of five seconds, 20 events per
    second. *)
Definition DefaultConfig : Config :=
  let window := 5 * second in
  let rate := 20 in
  let maxPending := rate * (window / second) in
  mkGenConfig true window rate (if maxPending <? rate then rate else maxPending).

(** [ErrInvalidAudit] is the only error. *)
Inductive genErr := ErrInvalidAudit.

Record Generator := mkGenerator {
  gn_config : Config;
  gn_pending : gmap string Event;
  gn_bucket : time;
  gn_emitted : Z;
  gn_storm : option Event;
}.

Definition New (config : Config) : res genErr Generator :=
  if negb (gc_Clock config) || (gc_CoalescingWindow config <=? 0) || (gc_MaxEventsPerSecond config <=? 0) || (gc_MaxPending config <=? 0)
  then Err ErrInvalidAudit
  else Ok (mkGenerator config ∅ time_zero 0 None).

(** [strings.HasPrefix], [strings.TrimPrefix] and [strings.ContainsAny]. *)
Definition has_prefix (p s : string) : bool := String.prefix p s.
Definition trim_prefix (p s : string) : string :=
  if has_prefix p s then String.substring (String.length p) (String.length s - String.length p) s else s.
Definition contains_any (bytes : list nat) (s : string) : bool :=
  existsb (fun c => existsb (Nat.eqb (nat_of_ascii c)) bytes) (String.list_ascii_of_string s).

Definition normalizedAction (action : string) : string :=
  if has_prefix "health_status:" action then "health_status" else action.

Definition whitelisted (resourceType action : string) : bool :=
  let action := normalizedAction action in
  let one_of := existsb (String.eqb action) in
  if (resourceType =? "container")%string
  then one_of ["create"; "start"; "die"; "stop"; "kill"; "destroy"; "health_status"; "rename"]
  else if (resourceType =? "image")%string then one_of ["pull"; "delete"; "tag"]
  else if ((resourceType =? "volume") || (resourceType =? "network"))%string then one_of ["create"; "destroy"]
  else false.

Definition validateSignal (signal : Signal) : bool :=
  negb (str_empty (sg_ResourceType signal) || str_empty (sg_ResourceID signal) || str_empty (sg_Action signal)
        || contains_any [0%nat] (sg_ResourceType signal) || contains_any [0%nat] (sg_ResourceID signal)
        || contains_any [0%nat] (sg_Action signal)).

Definition validateActor (actor : string) : bool :=
  if str_empty actor then true
  else if has_prefix "ui:" actor then IP.ParseIP (trim_prefix "ui:" actor)
  else if has_prefix "webhook:" actor then
    let provider := trim_prefix "webhook:" actor in
    negb (str_empty provider) && (Z.of_nat (String.length provider) <=? 128) && negb (contains_any [0; 13; 10]%nat provider)
  else false.

(** [Managed]: one record per completed operation. *)
Definition Managed (signal : Signal) (actor : string) : res genErr Event :=
  if negb (validateSignal signal) then Err ErrInvalidAudit
  else if negb (validateActor actor) then Err ErrInvalidAudit
  else
    let at_ := sg_OccurredAt signal in
    if is_zero at_ then Err ErrInvalidAudit
    else Ok (mkGenEvent KindManaged (sg_ResourceType signal) (sg_ResourceID signal) (sg_Action signal) actor at_ at_ 1 (sg_Attributes signal)).

(** ** The generator *)

(** [Truncate(time.Second)]: the zero time is a whole second. *)
Definition truncate (t : time) : time := t - t mod second.

Definition rotateBucket (now : time) (g : Generator) : Generator :=
  let bucket := truncate now in
  if is_zero (gn_bucket g) then mkGenerator (gn_config g) (gn_pending g) bucket (gn_emitted g) (gn_storm g)
  else if gn_bucket g <? bucket then mkGenerator (gn_config g) (gn_pending g) bucket 0 (gn_storm g)
  else g.

Definition addStorm (at_ : time) (count : Z) (g : Generator) : Generator :=
  let storm := default (mkGenEvent KindEventStorm "docker" "" "event_storm" "" at_ at_ 0 None) (gn_storm g) in
  mkGenerator (gn_config g) (gn_pending g) (gn_bucket g) (gn_emitted g)
    (Some (mkGenEvent (ge_Kind storm) (ge_ResourceType storm) (ge_ResourceID storm) (ge_Action storm) (ge_Actor storm)
       (ge_FirstAt storm) at_ (u64 (ge_Count storm + count)) (ge_Attributes storm))).

Definition takeFinishedStorm (now : time) (g : Generator) : list Event * Generator :=
  match gn_storm g with
  | Some storm =>
    if truncate (ge_LastAt storm) <? truncate now
    then ([storm], mkGenerator (gn_config g) (gn_pending g) (gn_bucket g) (gn_emitted g) None)
    else ([], g)
  | None => ([], g)
  end.

(** A key leaves the pending events: emitted, or counted in the storm. *)
Definition release (key : string) (acc : list Event * Generator) : list Event * Generator :=
  let '(result, g) := acc in
  match gn_pending g !! key with
  | None => acc
  | Some event =>
    let g := mkGenerator (gn_config g) (delete key (gn_pending g)) (gn_bucket g) (gn_emitted g) (gn_storm g) in
    if gn_emitted g <? gc_MaxEventsPerSecond (gn_config g)
    then (result ++ [event], mkGenerator (gn_config g) (gn_pending g) (gn_bucket g) (gn_emitted g + 1) (gn_storm g))
    else (result, addStorm (ge_LastAt event) (ge_Count event) g)
  end.

Definition release_all (keys : list string) (g : Generator) : list Event * Generator :=
  foldl (fun acc key => release key acc) ([], g) keys.

(** The pending keys that satisfy a condition, in order. *)
Definition keys_where (due : Event -> bool) (g : Generator) : list string :=
  sort_by str_less ((filter (fun kv => due kv.2 = true) (map_to_list (gn_pending g))).*1).

Definition Flush (now : time) (g : Generator) : list Event * Generator :=
  let g := rotateBucket now g in
  let due event := ge_FirstAt event + gc_CoalescingWindow (gn_config g) <=? now in
  let '(result, g) := release_all (keys_where due g) g in
  let '(storm, g) := takeFinishedStorm now g in
  (result ++ storm, g).

Definition Drain (now : time) (g : Generator) : list Event * Generator :=
  let g := rotateBucket now g in
  let '(result, g) := release_all (keys_where (fun _ => true) g) g in
  match gn_storm g with
  | Some storm => (result ++ [storm], mkGenerator (gn_config g) (gn_pending g) (gn_bucket g) (gn_emitted g) None)
  | None => (result, g)
  end.

Definition nul : string := String zero EmptyString.

Definition signal_key (signal : Signal) : string :=
  (sg_ResourceType signal ++ nul ++ sg_ResourceID signal ++ nul ++ normalizedAction (sg_Action signal))%string.

(** [Observe]; [clock] is what [generator.now()] reads. *)
Definition Observe (signal : Signal) (clock : time) (g : Generator) : res genErr (list Event) * Generator :=
  if negb (whitelisted (sg_ResourceType signal) (sg_Action signal)) then
    let '(emitted, g) := Flush clock g in (Ok emitted, g)
  else if negb (validateSignal signal) then (Err ErrInvalidAudit, g)
  else
    let now := if is_zero (sg_OccurredAt signal) then clock else sg_OccurredAt signal in
    let '(emitted, g) := Flush now g in
    let key := signal_key signal in
    match gn_pending g !! key with
    | Some current =>
      let event := mkGenEvent (ge_Kind current) (ge_ResourceType current) (ge_ResourceID current) (ge_Action current)
        (ge_Actor current) (ge_FirstAt current) now (u64 (ge_Count current + 1)) (ge_Attributes current) in
      (Ok emitted, mkGenerator (gn_config g) (<[key := event]> (gn_pending g)) (gn_bucket g) (gn_emitted g) (gn_storm g))
    | None =>
      if Z.of_nat (size (gn_pending g)) >=? gc_MaxPending (gn_config g) then (Ok emitted, addStorm now 1 g)
      else
        let event := mkGenEvent KindObserved (sg_ResourceType signal) (sg_ResourceID signal) (normalizedAction (sg_Action signal))
          "" now now 1 (sg_Attributes signal) in
        (Ok emitted, mkGenerator (gn_config g) (<[key := event]> (gn_pending g)) (gn_bucket g) (gn_emitted g) (gn_storm g))
    end.

Definition Pending (g : Generator) : Z := Z.of_nat (size (gn_pending g)).

(** ** Runs *)

Inductive gen_call :=
| CallObserve (signal : Signal) (clock : time)
| CallFlush (now : time)
| CallDrain (now : time).

Definition gen_step (call : gen_call) (g : Generator) : list Event * Generator :=
  match call with
  | CallObserve signal clock =>
    let '(r, g') := Observe signal clock g in (match r with Ok events => events | Err _ => [] end, g')
  | CallFlush now => Flush now g
  | CallDrain now => Drain now g
  end.

(** The time a call acts at: the clock's, or the event's own; none when the
    signal is refused. *)
Definition call_time (call : gen_call) : option time :=
  match call with
  | CallObserve signal clock =>
    if negb (whitelisted (sg_ResourceType signal) (sg_Action signal)) then Some clock
    else if negb (validateSignal signal) then None
    else Some (if is_zero (sg_OccurredAt signal) then clock else sg_OccurredAt signal)
  | CallFlush now | CallDrain now => Some now
  end.

(** Each call's events, with the time of the call. *)
Fixpoint gen_run (calls : list gen_call) (g : Generator) : list (option time * list Event) * Generator :=
  match calls with
  | [] => ([], g)
  | call :: calls' =>
    let '(events, g1) := gen_step call g in
    let '(trace, g2) := gen_run calls' g1 in
    ((call_time call, events) :: trace, g2)
  end.

(** The signals a run accepted. *)
Definition accepts (call : gen_call) : bool :=
  match call with
  | CallObserve signal _ => whitelisted (sg_ResourceType signal) (sg_Action signal) && validateSignal signal
  | _ => false
  end.
Definition accepted (calls : list gen_call) : Z := sum_by (fun call => if accepts call then 1 else 0) calls.

Definition counts (events : list Event) : Z := sum_by ge_Count events.
Definition trace_events (trace : list (option time * list Event)) : list Event := mjoin (trace.*2).
Definition is_observed (e : Event) : bool := bool_decide (ge_Kind e = KindObserved).
Definition observed (events : list Event) : Z := lenZ (filter (fun e => is_observed e = true) events).

(** What a generator still owes. *)
Definition owed (g : Generator) : Z := map_sum ge_Count (gn_pending g) + default 0 (ge_Count <$> gn_storm g).

Record gen_inv (g : Generator) : Prop := {
  gi_config : 0 < gc_MaxEventsPerSecond (gn_config g) /\ 0 < gc_MaxPending (gn_config g);
  gi_pending : forall k e, gn_pending g !! k = Some e -> ge_Kind e = KindObserved /\ 1 <= ge_Count e;
  gi_storm : forall e, gn_storm g = Some e -> ge_Kind e = KindEventStorm /\ 1 <= ge_Count e;
  gi_size : Pending g <= gc_MaxPending (gn_config g);
  gi_emitted : 0 <= gn_emitted g <= gc_MaxEventsPerSecond (gn_config g);
  gi_owed : owed g <= max_u64;
  gi_bucket : time_zero <= gn_bucket g;
}.

Lemma pending_nonneg g : gen_inv g -> 0 <= map_sum ge_Count (gn_pending g).
Proof. intros Hi. apply map_sum_nonneg. intros k v Hk. destruct (gi_pending _ Hi k v Hk). lia. Qed.

Lemma storm_nonneg g : gen_inv g -> 0 <= default 0 (ge_Count <$> gn_storm g).
Proof. intros Hi. destruct (gn_storm g) as [e|] eqn:E; simpl; [|lia]. destruct (gi_storm _ Hi e E). lia. Qed.

(** What a part of a call does: [n] more signals are owed, the events it emits
    are no longer owed, at most as many observed ones as the counter says. *)
Record gen_move (n : Z) (g : Generator) (events : list Event) (g' : Generator) : Prop := {
  gm_inv : gen_inv g';
  gm_config : gn_config g' = gn_config g;
  gm_bucket : gn_bucket g' = gn_bucket g;
  gm_counts : counts events + owed g' = owed g + n;
  gm_emitted : gn_emitted g' = gn_emitted g + observed events;
  gm_kinds : Forall (fun e => (ge_Kind e = KindObserved \/ ge_Kind e = KindEventStorm) /\ 1 <= ge_Count e) events;
}.

Lemma counts_app l1 l2 : counts (l1 ++ l2) = counts l1 + counts l2.
Proof. apply sum_by_app. Qed.
Lemma observed_app l1 l2 : observed (l1 ++ l2) = observed l1 + observed l2.
Proof. unfold observed, lenZ. rewrite filter_app, length_app. lia. Qed.

Lemma gen_move_refl g : gen_inv g -> gen_move 0 g [] g.
Proof. intros Hi. split; auto; unfold counts, observed, lenZ; simpl; try lia; constructor. Qed.

Lemma gen_move_trans n1 n2 g1 l1 g2 l2 g3 :
  gen_move n1 g1 l1 g2 -> gen_move n2 g2 l2 g3 -> gen_move (n1 + n2) g1 (l1 ++ l2) g3.
Proof.
  intros [] []. split; auto; try congruence; rewrite ?counts_app, ?observed_app; try lia. by apply Forall_app.
Qed.

(** A storm takes [count] signals on. *)
Lemma addStorm_move at_ count g :
  gen_inv g -> 1 <= count -> owed g + count <= max_u64 -> gen_move count g [] (addStorm at_ count g).
Proof.
  intros Hi Hc Ho. pose proof (pending_nonneg g Hi). pose proof (storm_nonneg g Hi). unfold owed in Ho.
  assert (u64 (default 0 (ge_Count <$> gn_storm g) + count) = default 0 (ge_Count <$> gn_storm g) + count) as Hu
    by (apply u64_id; unfold u64_ok; lia).
  assert (ge_Count (default (mkGenEvent KindEventStorm "docker" "" "event_storm" "" at_ at_ 0 None) (gn_storm g)) =
    default 0 (ge_Count <$> gn_storm g)) as Hd by (by destruct (gn_storm g)).
  destruct Hi as [H1 H2 H3 H4 H5 H6 H7]. unfold addStorm. split; simpl; try done.
  - split; simpl; auto.
    + intros e [= <-]. simpl. rewrite Hd, Hu. split; [|lia]. destruct (gn_storm g) as [x|] eqn:E; [|done]. by apply (H3 x).
    + unfold owed. simpl. rewrite Hd, Hu. lia.
  - unfold counts, owed. simpl. rewrite Hd, Hu. lia.
  - unfold observed, lenZ. simpl. lia.
Qed.

(** A pending key is forgotten. *)
Lemma delete_inv g key e : gen_inv g -> gn_pending g !! key = Some e ->
  let g' := mkGenerator (gn_config g) (delete key (gn_pending g)) (gn_bucket g) (gn_emitted g) (gn_storm g) in
  gen_inv g' /\ owed g = owed g' + ge_Count e.
Proof.
  intros Hi He g'. pose proof (map_sum_delete ge_Count _ _ _ He) as Hs. destruct (gi_pending _ Hi _ _ He) as [_ Hc].
  assert (owed g = owed g' + ge_Count e) as Ho by (unfold owed; simpl; lia). split; [|done].
  pose proof Hi as [H1 H2 H3 H4 H5 H6 H7]. split; simpl; auto; [| |lia].
  - intros k x Hx. apply lookup_delete_Some in Hx as [_ Hx]. by eapply H2.
  - unfold Pending in *. simpl. assert (size (delete key (gn_pending g)) <= size (gn_pending g))%nat; [|lia].
    rewrite map_size_delete_Some by (by eexists). lia.
Qed.

Lemma release_move key result g : gen_inv g ->
  exists l g', release key (result, g) = (result ++ l, g') /\ gen_move 0 g l g' /\ gn_pending g' = delete key (gn_pending g).
Proof.
  intros Hi. unfold release. destruct (gn_pending g !! key) as [e|] eqn:Ek.
  2: { exists [], g. rewrite app_nil_r. split_and!; [done | by apply gen_move_refl | by rewrite delete_id]. }
  destruct (delete_inv g key e Hi Ek) as [Hi1 Ho]. destruct (gi_pending _ Hi _ _ Ek) as [Hk Hc].
  set (g1 := mkGenerator _ _ _ _ _) in *. destruct (gn_emitted g1 <? _) eqn:Em; bool_to_prop.
  - eexists [e], _. split; [done|]. split; [|done]. pose proof Hi1 as [H1 H2 H3 H4 H5 H6 H7].
    split; simpl; auto; [split; simpl; auto; simpl in *; lia | | ].
    + unfold owed in *. simpl in *. lia.
    + unfold observed, lenZ, is_observed. rewrite filter_cons_True by (by rewrite bool_decide_eq_true_2). done.
  - exists [], (addStorm (ge_LastAt e) (ge_Count e) g1). rewrite app_nil_r. split; [done|]. split; [|done].
    destruct (addStorm_move (ge_LastAt e) (ge_Count e) g1 Hi1 Hc) as [A1 A2 A3 A4 A5 A6]; [pose proof (gi_owed _ Hi); lia|].
    split; auto. lia.
Qed.

Lemma release_keeps_none k keys acc :
  gn_pending acc.2 !! k = None -> gn_pending (foldl (fun acc key => release key acc) acc keys).2 !! k = None.
Proof.
  revert acc. induction keys as [|y keys IH]; intros [r g] Hg; [done|]. apply IH. unfold release. simpl in Hg.
  destruct (gn_pending g !! y) as [ev|]; [|done]. case_if; simpl; rewrite lookup_delete_None; by right.
Qed.

Lemma release_fold keys result g : gen_inv g ->
  exists l g', foldl (fun acc key => release key acc) (result, g) keys = (result ++ l, g') /\ gen_move 0 g l g' /\
    forall k, k ∈ keys -> gn_pending g' !! k = None.
Proof.
  revert result g. induction keys as [|k keys IH]; intros result g Hi; cbn [foldl].
  - exists [], g. rewrite app_nil_r. split_and!; [done | by apply gen_move_refl | by intros k ?%not_elem_of_nil].
  - destruct (release_move k result g Hi) as (l1 & g1 & -> & M1 & P1).
    destruct (IH (result ++ l1) g1 (gm_inv _ _ _ _ M1)) as (l2 & g2 & E & M2 & P2). exists (l1 ++ l2), g2.
    rewrite E, <- app_assoc. split; [done|]. split; [apply (gen_move_trans 0 0 _ _ _ _ _ M1 M2)|].
    intros x [->|Hx]%elem_of_cons; [|by apply P2]. destruct (decide (k ∈ keys)) as [?|Hn]; [by apply P2|].
    pose proof (release_keeps_none k keys (result ++ l1, g1)) as Hkeep.
    rewrite E in Hkeep. apply Hkeep. simpl. rewrite P1. apply lookup_delete_eq.
Qed.

Lemma release_all_move keys g : gen_inv g -> gen_move 0 g (release_all keys g).1 (release_all keys g).2 /\
  forall k, k ∈ keys -> gn_pending (release_all keys g).2 !! k = None.
Proof.
  intros Hi. unfold release_all. destruct (release_fold keys [] g Hi) as (l & g' & -> & M & P). simpl. by split.
Qed.

(** The storm summary is emitted. *)
Lemma drop_storm_move g e : gen_inv g -> gn_storm g = Some e ->
  gen_move 0 g [e] (mkGenerator (gn_config g) (gn_pending g) (gn_bucket g) (gn_emitted g) None).
Proof.
  intros Hi Es. destruct (gi_storm _ Hi e Es) as [Hk Hc]. pose proof Hi as [H1 H2 H3 H4 H5 H6 H7].
  assert (owed g = map_sum ge_Count (gn_pending g) + ge_Count e) as Ho by (unfold owed; by rewrite Es).
  split; simpl; auto.
  - split; simpl; auto; [done|]. unfold owed. simpl. lia.
  - unfold owed at 1. simpl. lia.
  - unfold observed, lenZ, is_observed. rewrite filter_cons_False by (by rewrite bool_decide_eq_false_2; rewrite ?Hk). simpl. lia.
Qed.

Lemma takeStorm_move now g : gen_inv g ->
  gen_move 0 g (takeFinishedStorm now g).1 (takeFinishedStorm now g).2.
Proof.
  intros Hi. unfold takeFinishedStorm. destruct (gn_storm g) as [e|] eqn:Es; [|by apply gen_move_refl].
  case_if; [|by apply gen_move_refl]. by apply drop_storm_move.
Qed.

(** ** Each call *)

(** Times are not before year one. *)
Definition call_ok (call : gen_call) : Prop :=
  match call with
  | CallObserve signal clock => time_zero <= sg_OccurredAt signal /\ time_zero <= clock
  | CallFlush now | CallDrain now => time_zero <= now
  end.

Lemma call_time_ok call t : call_ok call -> call_time call = Some t -> time_zero <= t.
Proof. destruct call; simpl; [|congruence..]. intros [??]. repeat case_if; congruence. Qed.

(** The second the generator is in only moves forward, and the counter covers
    what was emitted in it. *)
Record gen_call_spec (at_ : option time) (n : Z) (g : Generator) (events : list Event) (g' : Generator) : Prop := {
  gs_inv : gen_inv g';
  gs_config : gn_config g' = gn_config g;
  gs_counts : counts events + owed g' = owed g + n;
  gs_rate : (gn_bucket g' = gn_bucket g /\ gn_emitted g + observed events <= gn_emitted g') \/
            (gn_bucket g < gn_bucket g' /\ observed events <= gn_emitted g');
  gs_kinds : Forall (fun e => (ge_Kind e = KindObserved \/ ge_Kind e = KindEventStorm) /\ 1 <= ge_Count e) events;
  gs_bucket : gn_bucket g' = default (gn_bucket g) ((fun t => Z.max (gn_bucket g) (second * (t / second))) <$> at_);
  gs_quiet : at_ = None -> events = [];
}.

Lemma observed_nonneg l : 0 <= observed l.
Proof. unfold observed, lenZ. lia. Qed.

Lemma truncate_zero now : time_zero <= now -> time_zero <= truncate now.
Proof.
  intros Hn. unfold truncate. assert (time_zero = (time_zero / second) * second) as Hz by reflexivity.
  pose proof (Z.div_mod now second ltac:(done)). assert (time_zero / second <= now / second) by (by apply Z.div_le_mono).
  unfold second in *. lia.
Qed.

Lemma truncate_second t : truncate t = second * (t / second).
Proof. unfold truncate. pose proof (Z.div_mod t second ltac:(done)). lia. Qed.

Lemma rotate_spec now g : gen_inv g -> time_zero <= now ->
  let g1 := rotateBucket now g in
  gen_inv g1 /\ gn_config g1 = gn_config g /\ gn_pending g1 = gn_pending g /\ gn_storm g1 = gn_storm g /\
  gn_bucket g1 = Z.max (gn_bucket g) (second * (now / second)) /\
  ((gn_bucket g1 = gn_bucket g /\ gn_emitted g1 = gn_emitted g) \/ gn_bucket g < gn_bucket g1).
Proof.
  intros Hi Hn. pose proof (truncate_zero now Hn). rewrite <- truncate_second. pose proof Hi as [H1 H2 H3 H4 H5 H6 H7]. unfold rotateBucket.
  destruct (is_zero (gn_bucket g)) eqn:Ez; [|case_if]; bool_to_prop; simpl.
  - unfold is_zero in Ez. bool_to_prop. split_and!; [by split | done..| lia |]. simpl.
    destruct (decide (truncate now = gn_bucket g)); [left; lia | right; lia].
  - split_and!; [split; simpl; auto; lia | done..| lia |]. simpl. right. lia.
  - split_and!; auto. lia.
Qed.

Lemma after_rotate n now g l g' : gen_inv g -> time_zero <= now -> gen_move n (rotateBucket now g) l g' -> gen_call_spec (Some now) n g l g'.
Proof.
  intros Hi Hn [M1 M2 M3 M4 M5 M6]. destruct (rotate_spec now g Hi Hn) as (Hi1 & Hc & Hp & Hs & Hm & Hb).
  assert (owed (rotateBucket now g) = owed g) as Ho by (unfold owed; by rewrite Hp, Hs).
  split; auto; [congruence | lia | | by rewrite M3 | done]. rewrite M3, M5. pose proof (observed_nonneg l). destruct (gi_emitted _ Hi1).
  destruct Hb as [[-> ->]|?]; [left; lia | right; lia].
Qed.

Lemma Flush_move now g : gen_inv g -> time_zero <= now ->
  gen_move 0 (rotateBucket now g) (Flush now g).1 (Flush now g).2.
Proof.
  intros Hi Hn. destruct (rotate_spec now g Hi Hn) as (Hi1 & _). unfold Flush. set (g1 := rotateBucket now g) in *. cbv zeta.
  set (keys := keys_where _ _). destruct (release_all_move keys g1 Hi1) as [M1 _]. destruct (release_all keys g1) as [l1 g2]. simpl in M1.
  pose proof (takeStorm_move now g2 (gm_inv _ _ _ _ M1)) as M2. destruct (takeFinishedStorm now g2) as [l2 g3]. simpl in *.
  apply (gen_move_trans 0 0 _ _ _ _ _ M1 M2).
Qed.

Lemma keys_where_all g k : is_Some (gn_pending g !! k) -> k ∈ keys_where (fun _ => true) g.
Proof.
  intros [e He]. unfold keys_where. rewrite (sort_by_perm str_less). apply list_elem_of_fmap. exists (k, e). split; [done|].
  apply list_elem_of_filter. split; [done|]. by apply elem_of_map_to_list.
Qed.

(** Draining leaves nothing behind. *)
Lemma Drain_move now g : gen_inv g -> time_zero <= now ->
  gen_move 0 (rotateBucket now g) (Drain now g).1 (Drain now g).2 /\ gn_pending (Drain now g).2 = ∅ /\ gn_storm (Drain now g).2 = None.
Proof.
  intros Hi Hn. destruct (rotate_spec now g Hi Hn) as (Hi1 & _). unfold Drain. set (g1 := rotateBucket now g) in *. cbv zeta.
  set (keys := keys_where _ _). destruct (release_all_move keys g1 Hi1) as [M1 P1]. destruct (release_all keys g1) as [l1 g2] eqn:Er. simpl in M1, P1.
  assert (gn_pending g2 = ∅) as Hp.
  { apply map_empty. intros k. destruct (gn_pending g1 !! k) as [e|] eqn:Ek; [apply P1, keys_where_all; eauto|].
    pose proof (release_keeps_none k keys ([], g1) Ek) as Hkeep. unfold release_all in Er. by rewrite Er in Hkeep. }
  destruct (gn_storm g2) as [e|] eqn:Es; simpl; [|by split_and!]. split_and!; [|done..].
  apply (gen_move_trans 0 0 _ _ _ _ _ M1). by apply drop_storm_move; [apply M1|].
Qed.

(** A pending event is added or counted up. *)
Lemma insert_move g key e :
  gen_inv g -> ge_Kind e = KindObserved -> owed g + 1 <= max_u64 ->
  (gn_pending g !! key = None -> ge_Count e = 1 /\ Pending g < gc_MaxPending (gn_config g)) ->
  (forall x, gn_pending g !! key = Some x -> ge_Count e = u64 (ge_Count x + 1)) ->
  gen_move 1 g [] (mkGenerator (gn_config g) (<[key := e]> (gn_pending g)) (gn_bucket g) (gn_emitted g) (gn_storm g)).
Proof.
  intros Hi Hk Ho Hnew Hold. pose proof (storm_nonneg g Hi). pose proof Hi as [H1 H2 H3 H4 H5 H6 H7].
  assert (map_sum ge_Count (<[key := e]> (gn_pending g)) = map_sum ge_Count (gn_pending g) + 1 /\ 1 <= ge_Count e /\
    Pending (mkGenerator (gn_config g) (<[key := e]> (gn_pending g)) (gn_bucket g) (gn_emitted g) (gn_storm g)) <= gc_MaxPending (gn_config g))
    as (Hs & Hc & Hz).
  { unfold Pending in *. simpl. destruct (gn_pending g !! key) as [x|] eqn:Ek.
    - destruct (H2 _ _ Ek) as [_ Hx]. pose proof (map_sum_delete ge_Count _ _ _ Ek) as Hd.
      destruct (delete_inv g key x Hi Ek) as [Hi' _]. pose proof (pending_nonneg _ Hi') as Hd'. simpl in Hd'.
      assert (u64 (ge_Count x + 1) = ge_Count x + 1) as Hu by (apply u64_id; unfold u64_ok, owed in *; lia).
      rewrite (map_sum_replace ge_Count _ _ _ _ Ek), (Hold x eq_refl), Hu. rewrite map_size_insert_Some by (by eexists). lia.
    - destruct (Hnew eq_refl) as [Hone Hlt]. rewrite map_sum_insert by done. rewrite map_size_insert_None by done. lia. }
  assert (owed (mkGenerator (gn_config g) (<[key := e]> (gn_pending g)) (gn_bucket g) (gn_emitted g) (gn_storm g)) = owed g + 1) as Ho'
    by (unfold owed; simpl; lia).
  split; auto; [split; auto; [|lia] | change (observed []) with 0; simpl; lia]. simpl.
  intros k x. rewrite lookup_insert_Some. intros [[_ <-]|[_ Hx]]; [done | by eapply H2].
Qed.

Lemma gen_step_spec call g :
  gen_inv g -> call_ok call -> owed g + (if accepts call then 1 else 0) <= max_u64 ->
  gen_call_spec (call_time call) (if accepts call then 1 else 0) g (gen_step call g).1 (gen_step call g).2.
Proof.
  intros Hi Ht Ho. destruct call as [signal clock|now|now]; simpl in *.
  - destruct Ht as [Ht1 Ht2]. unfold Observe. destruct (whitelisted _ _); simpl in *.
    2: { pose proof (after_rotate 0 clock g _ _ Hi Ht2 (Flush_move clock g Hi Ht2)) as M. by destruct (Flush clock g). }
    destruct (validateSignal signal); simpl in *.
    2: { split; simpl; auto; unfold counts, observed, lenZ; simpl; lia. }
    set (now := if is_zero _ then _ else _). assert (time_zero <= now) as Hn by (unfold now; by case_if).
    pose proof (Flush_move now g Hi Hn) as M. destruct (Flush now g) as [l g1]. simpl in M.
    assert (forall g2, gen_move 1 g1 [] g2 -> gen_call_spec (Some now) 1 g l g2) as Hend.
    { intros g2 M2. apply (after_rotate 1 now); [done..|]. rewrite <- (app_nil_r l). apply (gen_move_trans 0 1 _ _ _ _ _ M M2). }
    assert (counts l + owed g1 = owed g) as Hc.
    { pose proof (after_rotate 0 now g l g1 Hi Hn M) as [_ _ Hc _ _ _ _]. lia. }
    assert (0 <= counts l) as Hl by (apply sum_by_nonneg; eapply Forall_impl; [apply M|]; simpl; lia).
    destruct (gn_pending g1 !! signal_key signal) as [current|] eqn:Ek; simpl.
    + apply Hend, insert_move; simpl; [apply M | by apply (gi_pending _ (gm_inv _ _ _ _ M) _ _ Ek) | lia | by rewrite Ek | ].
      intros x Hx. rewrite Ek in Hx. by injection Hx as ->.
    + case_if; simpl; bool_to_prop; apply Hend; [apply addStorm_move; [apply M | lia | lia]|].
      apply insert_move; simpl; [apply M | done | lia | | by rewrite Ek]. intros _. unfold Pending. split; [done | lia].
  - apply (after_rotate 0 now); [done..|]. by apply Flush_move.
  - apply (after_rotate 0 now); [done..|]. by apply Drain_move.
Qed.

(** ** The whole run *)

(** The observed events of the calls in second [b], and those of the calls while
    [b] was the latest second reached, from second [latest] on. What a call
    without a time emits counts for every second. *)
Definition rate_at (b : Z) (trace : list (option time * list Event)) : Z :=
  sum_by (fun x => if default true ((fun t => t / second =? b) <$> x.1) then observed x.2 else 0) trace.

Fixpoint rate_latest (latest b : Z) (trace : list (option time * list Event)) : Z :=
  match trace with
  | [] => 0
  | (at_, events) :: trace' =>
    let latest' := default latest ((fun t => Z.max latest (t / second)) <$> at_) in
    (if default true ((fun _ => latest' =? b) <$> at_) then observed events else 0) + rate_latest latest' b trace'
  end.

Lemma trace_events_cons x trace : trace_events (x :: trace) = x.2 ++ trace_events trace.
Proof. done. Qed.

Lemma gen_run_spec calls g :
  gen_inv g -> Forall call_ok calls -> owed g + lenZ calls <= max_u64 ->
  let '(trace, g') := gen_run calls g in
  gen_inv g' /\ gn_config g' = gn_config g /\
  counts (trace_events trace) + owed g' = owed g + accepted calls /\
  Forall (fun e => (ge_Kind e = KindObserved \/ ge_Kind e = KindEventStorm) /\ 1 <= ge_Count e) (trace_events trace) /\
  trace.*1 = call_time <$> calls /\
  (forall b latest, gn_bucket g = second * latest -> (b < latest -> rate_latest latest b trace = 0) /\
     (b = latest -> gn_emitted g + rate_latest latest b trace <= gc_MaxEventsPerSecond (gn_config g)) /\
     (latest < b -> rate_latest latest b trace <= gc_MaxEventsPerSecond (gn_config g))).
Proof.
  revert g. induction calls as [|call calls IH]; intros g Hi Ht Ho; cbn [gen_run].
  { destruct Hi as [? ? ? ? ? ?]. unfold trace_events, counts, accepted, lenZ. simpl. split_and!; try done; try lia. }
  apply Forall_cons in Ht as [Ht Hts]. assert (lenZ (call :: calls) = lenZ calls + 1) as Hlen by (unfold lenZ; simpl; lia).
  pose proof (gen_step_spec call g Hi Ht) as Hs. destruct (gen_step call g) as [l g1]. simpl in Hs.
  assert (0 <= lenZ calls) as Hnn by (unfold lenZ; lia).
  destruct Hs as [S1 S2 S3 S4 S5 S6 S7]; [case_if; lia|].
  assert (0 <= counts l) as Hl by (apply sum_by_nonneg; eapply Forall_impl; [apply S5|]; simpl; lia).
  specialize (IH g1 S1 Hts ltac:(destruct (accepts call); lia)). destruct (gen_run calls g1) as [trace g2].
  destruct IH as (I1 & I2 & I3 & I4 & I6 & I5). rewrite trace_events_cons, counts_app. cbn [snd].
  assert (accepted (call :: calls) = (if accepts call then 1 else 0) + accepted calls) as -> by done. split_and!; try done; try congruence.
  - destruct (accepts call); lia.
  - by apply Forall_app.
  - rewrite !fmap_cons. by rewrite I6.
  - rewrite S2 in I5. pose proof (gi_emitted _ S1) as He. rewrite S2 in He. pose proof (gi_emitted _ Hi) as He0. intros b latest Hb. cbn [rate_latest].
    set (latest' := default latest _). assert (gn_bucket g1 = second * latest') as Hb'.
    { rewrite S6, Hb. unfold latest', second. destruct (call_time call); simpl; lia. }
    destruct (I5 b latest' Hb') as (J1 & J2 & J3). pose proof (observed_nonneg l). destruct (call_time call) as [t|] eqn:Et; simpl in *.
    + unfold second in *. destruct (latest' =? b) eqn:Eb; bool_to_prop; split_and!; intros; destruct S4 as [[? ?]|[? ?]]; lia.
    + rewrite (S7 eq_refl) in *. change (observed []) with 0 in *. subst latest'. split_and!; intros; destruct S4 as [[? ?]|[? ?]]; lia.
Qed.

Lemma omap_id_fmap {A B} (f : A -> option B) (l : list A) : omap id (f <$> l) = omap f l.
Proof. induction l as [|x l IH]; [done|]. simpl. destruct (f x); simpl; [f_equal|]; exact IH. Qed.

(** While the times of the calls do not go back, the latest second is the call's. *)
Lemma rate_ordered trace : forall latest b, StronglySorted Z.le (omap id (trace.*1)) -> Forall (fun t => latest <= t / second) (omap id (trace.*1)) ->
  rate_latest latest b trace = rate_at b trace.
Proof.
  unfold rate_at. induction trace as [|[[t|] events] trace IH]; intros latest b Hs Hl; [done| |]; simpl in *.
  - apply StronglySorted_inv in Hs as [Hs Ht]. apply Forall_cons in Hl as [Hl _]. rewrite Z.max_r by done. f_equal. apply IH; [done|].
    eapply Forall_impl; [exact Ht|]. intros t' Hle. by apply Z.div_le_mono.
  - f_equal. by apply IH.
Qed.

Lemma New_generator_inv config g : New config = Ok g -> gen_inv g /\ owed g = 0 /\ gn_emitted g = 0 /\ gn_config g = config /\ gn_bucket g = time_zero.
Proof.
  unfold New. case_if; [done|]. bool_to_prop. intros [= <-].
  assert (owed (mkGenerator config ∅ time_zero 0 None) = 0) as Ho by (unfold owed; simpl; by rewrite map_sum_empty).
  split_and!; try done. split; simpl; try done; unfold Pending; simpl; rewrite ?map_size_empty; lia.
Qed.

(** [C33] Every observed event is accounted for, within the bounds. From a new
    generator, through any calls with times after year one, in any order and
    with the clock going backwards too: the signals it accepted are exactly the
    sum of the counts of the events it emitted, of those still pending and of
    the storm summary, so coalescing, the rate limit and the bound on pending
    events lose and invent nothing; while the times of the calls have reached a
    second and no later one, at most the limit of observed events leaves, and when
    the times do not go back the calls of any one second emit at most the limit;
    the pending events stay within their bound; and only observed events and storm
    summaries with a positive count leave it. After a drain nothing is owed:
    everything accepted has been emitted. *)
Theorem generator_accounts config g0 calls :
  New config = Ok g0 -> Forall call_ok calls -> lenZ calls <= max_u64 ->
  let '(trace, g) := gen_run calls g0 in
  counts (trace_events trace) + owed g = accepted calls /\
  (forall b, rate_latest (time_zero / second) b trace <= gc_MaxEventsPerSecond config) /\
  (StronglySorted Z.le (omap call_time calls) -> forall b, rate_at b trace <= gc_MaxEventsPerSecond config) /\
  Pending g <= gc_MaxPending config /\
  Forall (fun e => (ge_Kind e = KindObserved \/ ge_Kind e = KindEventStorm) /\ 1 <= ge_Count e) (trace_events trace) /\
  forall now, time_zero <= now -> owed (Drain now g).2 = 0.
Proof.
  intros Hn Ht Hl. destruct (New_generator_inv config g0 Hn) as (Hi & Ho & He & Hc & Hb0).
  pose proof (gen_run_spec calls g0 Hi Ht ltac:(lia)) as Hrun. destruct (gen_run calls g0) as [trace g].
  destruct Hrun as (R1 & R2 & R3 & R4 & R9 & R5). rewrite Hc in *.
  assert (forall b, rate_latest (time_zero / second) b trace <= gc_MaxEventsPerSecond config) as Hrate.
  { intros b. destruct (R5 b (time_zero / second)) as (R6 & R7 & R8); [by rewrite Hb0|]. destruct (gi_emitted _ Hi) as [H1 H2]. rewrite Hc in H2.
    destruct (Z.lt_trichotomy b (time_zero / second)) as [?|[?|?]]; [rewrite R6 by done; lia | specialize (R7 ltac:(done)); lia | auto]. }
  assert (omap id (trace.*1) = omap call_time calls) as Ho' by (rewrite R9; apply omap_id_fmap).
  split_and!; [lia | done | | | done|].
  - intros Hs b. rewrite <- (rate_ordered trace (time_zero / second)); rewrite ?Ho'; [done..|].
    clear -Ht. induction Ht as [|c l Hc _ IH]; simpl; [done|]. destruct (call_time c) as [t|] eqn:Ec; simpl; [|done]. constructor; [|done].
    apply Z.div_le_mono; [done|]. by apply (call_time_ok c).
  - rewrite <- R2. apply R1.
  - intros now Hnow. destruct (Drain_move now g R1 Hnow) as (_ & Hp & Hs). unfold owed. rewrite Hp, Hs, map_sum_empty. done.
Qed.

Definition demo_signal (id : string) (at_ : time) : Signal := mkSignal "container" id "start" at_ None.
Definition demo_calls : list gen_call :=
  [CallObserve (demo_signal "a" 1) 1; CallObserve (demo_signal "a" 2) 2; CallObserve (demo_signal "b" 3) 3;
   CallObserve (demo_signal "c" 4) 4; CallFlush (5 * second); CallDrain (6 * second)].

Lemma generator_accounts_witness :
  exists g0, New (mkGenConfig true 10 1 2) = Ok g0 /\
    (map (fun x => (x.1, counts x.2)) (gen_run demo_calls g0).1) = [(Some 1, 0); (Some 2, 0); (Some 3, 0); (Some 4, 0); (Some (5 * second), 4); (Some (6 * second), 0)] /\
    let '(trace, g) := gen_run demo_calls g0 in counts (trace_events trace) + owed g = accepted demo_calls /\ rate_at 5 trace <= 1.
Proof.
  destruct (New (mkGenConfig true 10 1 2)) as [g0|] eqn:E; [|discriminate E]. exists g0. split; [done|].
  pose proof (generator_accounts (mkGenConfig true 10 1 2) g0 demo_calls E) as H.
  split; [injection E as <-; vm_compute; reflexivity|].
  destruct (gen_run demo_calls g0) as [trace g].
  destruct H as (H1 & _ & H2 & _); [repeat constructor; vm_compute; discriminate | vm_compute; discriminate|].
  split; [exact H1|]. apply H2. vm_compute. repeat constructor; discriminate.
Defined.
