(* ===== verification/LogRelay.v ===== *)
(** * The log relay

    Models [internal/logrelay/logrelay.go]: a bounded buffer between a log source
    and one viewer. A token bucket, the size of the buffer and the number of
    chunks bound what is kept; what is dropped is counted and reported with the
    next event. The producer and the viewer run concurrently; a run is a sequence
    of their critical sections. The token bucket computes in [float64], here the
    IEEE binary64 operations of [SpecFloat]. [time.Parse] is an argument. *)

From Stdlib Require Import SpecFloat.
From S2P Require Import Prelude.

(** ** [float64] *)
Module F64.
Definition of_int (z : Z) : spec_float := binary_normalize 53 1024 z 0 false.
Definition add : spec_float -> spec_float -> spec_float := SFadd 53 1024.
Definition sub : spec_float -> spec_float -> spec_float := SFsub 53 1024.
Definition mul : spec_float -> spec_float -> spec_float := SFmul 53 1024.
Definition div : spec_float -> spec_float -> spec_float := SFdiv 53 1024.
Definition gt (a b : spec_float) : bool := SFltb b a.
End F64.

(** [Time.Sub] saturates. *)
Definition duration_sub (a b : time) : Z := Z.max min_i64 (Z.min max_i64 (a - b)).

(** [Duration.Seconds] *)
Definition seconds (d : Z) : spec_float :=
  F64.add (F64.of_int (Z.quot d 1000000000)) (F64.div (F64.of_int (Z.rem d 1000000000)) (F64.of_int 1000000000)).

(** ** Requests and configuration *)

Definition DefaultBytesPerSecond : Z := 1048576.
Definition DefaultMaxBufferedBytes : Z := 1048576.
Definition DefaultMaxBufferedChunks : Z := 256.

Record Request := mkRequest {
  rq_ContainerID : string;
  rq_ProjectUID : string;
  rq_Services : list string;
  rq_Follow : bool;
  rq_TailLines : Z;
  rq_ShowStdout : bool;
  rq_ShowStderr : bool;
  rq_Timestamps : bool;
  rq_Since : string;
  rq_Until : string;
}.

Inductive StreamKind := Stdout | Stderr.

Record Chunk := mkChunk {
  ck_Data : list Z;
  ck_Stream : StreamKind;
  ck_DroppedBytes : Z;
  ck_DroppedLines : Z;
  ck_LineCount : Z;
  ck_Timestamp : time;
}.

Record Config := mkRelayConfig {
  rc_Source : bool;
  rc_BytesPerSecond : Z;
  rc_MaxBufferedBytes : Z;
  rc_MaxBufferedChunks : Z;
}.

Inductive relayErr := RelayConfig | RelayRequest | RelayContext (reason : string).

Definition or_default (d v : Z) : Z := if v =? 0 then d else v.

Definition New (config : Config) : res relayErr Config :=
  if negb (rc_Source config) then Err RelayConfig
  else
    let rate := or_default DefaultBytesPerSecond (rc_BytesPerSecond config) in
    let bytes := or_default DefaultMaxBufferedBytes (rc_MaxBufferedBytes config) in
    let chunks := or_default DefaultMaxBufferedChunks (rc_MaxBufferedChunks config) in
    if (rate <=? 0) || (bytes <=? 0) || (chunks <=? 0) then Err RelayConfig
    else Ok (mkRelayConfig true rate bytes chunks).

(** ** The token bucket *)

Record byteLimiter := mkLimiter { lm_rate : spec_float; lm_tokens : spec_float; lm_last : time }.

Definition newByteLimiter (rate : Z) (now : time) : byteLimiter := mkLimiter (F64.of_int rate) (F64.of_int rate) now.

Definition Allow (bytes : Z) (now : time) (l : byteLimiter) : bool * byteLimiter :=
  let l :=
    if lm_last l <? now then
      let tokens := F64.add (lm_tokens l) (F64.mul (seconds (duration_sub now (lm_last l))) (lm_rate l)) in
      mkLimiter (lm_rate l) (if F64.gt tokens (lm_rate l) then lm_rate l else tokens) now
    else l in
  if F64.gt (F64.of_int bytes) (lm_tokens l) then (false, l)
  else (true, mkLimiter (lm_rate l) (F64.sub (lm_tokens l) (F64.of_int bytes)) (lm_last l)).

(** ** The stream *)

Record queuedChunk := mkQueued { qc_chunk : Chunk; qc_lines : Z }.

Record Event := mkLogEvent {
  le_Data : list Z;
  le_Stream : option StreamKind;
  le_LineCount : Z;
  le_Timestamp : time;
  le_DroppedBytes : Z;
  le_DroppedLines : Z;
  le_Terminal : bool;
  le_Error : string;
}.

(** [sm_ctx] is what the stream's context reports, [sm_wake] the token of the
    wake channel, [sm_done] whether the done channel is closed. *)
Record Stream := mkStream {
  sm_ctx : option string;
  sm_wake : bool;
  sm_done : bool;
  sm_queue : list queuedChunk;
  sm_bufferedBytes : Z;
  sm_maxBytes : Z;
  sm_maxChunks : Z;
  sm_droppedBytes : Z;
  sm_droppedLines : Z;
  sm_sourceDone : bool;
  sm_sourceErr : option string;
  sm_terminalReported : bool;
  sm_limiter : byteLimiter;
}.

Definition validateLogWindow (parse : string -> option time) (sinceValue untilValue : string) : bool :=
  let field v :=
    if str_empty v then Some time_zero
    else if Z.of_nat (String.length v) >? 64 then None
    else parse v in
  match field sinceValue, field untilValue with
  | Some since, Some until => negb (negb (is_zero since) && negb (is_zero until) && (until <? since))
  | _, _ => false
  end.

(** [Open]: the request as the source gets it, and the stream. *)
Definition Open (parse : string -> option time) (config : Config) (ctx : option string) (request : Request) (now : time)
  : res relayErr (Request * Stream) :=
  let target_ok :=
    if negb (str_empty (rq_ProjectUID request))
    then negb ((lenZ (rq_Services request) >? 256)
               || (negb (str_empty (rq_ContainerID request)) && negb (bool_decide (rq_Services request = []))))
    else negb (str_empty (rq_ContainerID request) || negb (bool_decide (rq_Services request = []))) in
  if negb target_ok then Err RelayRequest
  else if negb (validateLogWindow parse (rq_Since request) (rq_Until request)) then Err RelayRequest
  else
    match ctx with
    | Some reason => Err (RelayContext reason)
    | None =>
      let both := negb (rq_ShowStdout request) && negb (rq_ShowStderr request) in
      Ok (mkRequest (rq_ContainerID request) (rq_ProjectUID request) (rq_Services request) (rq_Follow request) (rq_TailLines request)
            (both || rq_ShowStdout request) (both || rq_ShowStderr request) (rq_Timestamps request) (rq_Since request) (rq_Until request),
          mkStream None false false [] 0 (rc_MaxBufferedBytes config) (rc_MaxBufferedChunks config) 0 0 false None false
            (newByteLimiter (rc_BytesPerSecond config) now))
    end.

Definition set_wake (w : bool) (s : Stream) : Stream :=
  mkStream (sm_ctx s) w (sm_done s) (sm_queue s) (sm_bufferedBytes s) (sm_maxBytes s) (sm_maxChunks s) (sm_droppedBytes s)
    (sm_droppedLines s) (sm_sourceDone s) (sm_sourceErr s) (sm_terminalReported s) (sm_limiter s).
Definition signal (s : Stream) : Stream := set_wake true s.

Definition addReportedDrop (bytes lines : Z) (s : Stream) : Stream :=
  mkStream (sm_ctx s) (sm_wake s) (sm_done s) (sm_queue s) (sm_bufferedBytes s) (sm_maxBytes s) (sm_maxChunks s)
    (u64 (sm_droppedBytes s + bytes)) (u64 (sm_droppedLines s + lines)) (sm_sourceDone s) (sm_sourceErr s) (sm_terminalReported s)
    (sm_limiter s).

Definition set_queue (q : list queuedChunk) (buffered : Z) (s : Stream) : Stream :=
  mkStream (sm_ctx s) (sm_wake s) (sm_done s) q buffered (sm_maxBytes s) (sm_maxChunks s) (sm_droppedBytes s)
    (sm_droppedLines s) (sm_sourceDone s) (sm_sourceErr s) (sm_terminalReported s) (sm_limiter s).

Definition set_limiter (l : byteLimiter) (s : Stream) : Stream :=
  mkStream (sm_ctx s) (sm_wake s) (sm_done s) (sm_queue s) (sm_bufferedBytes s) (sm_maxBytes s) (sm_maxChunks s) (sm_droppedBytes s)
    (sm_droppedLines s) (sm_sourceDone s) (sm_sourceErr s) (sm_terminalReported s) l.

Definition chunk_len (q : queuedChunk) : Z := lenZ (ck_Data (qc_chunk q)).

(** [dropOldest] *)
Definition dropOldest (s : Stream) : Stream :=
  match sm_queue s with
  | [] => s
  | oldest :: rest =>
    addReportedDrop (chunk_len oldest) (qc_lines oldest) (set_queue rest (sm_bufferedBytes s - chunk_len oldest) s)
  end.

(** The loop that makes room, one turn per queued chunk. *)
Fixpoint make_room (fuel : nat) (incoming : Z) (s : Stream) : Stream :=
  match fuel with
  | O => s
  | S fuel' =>
    if (0 <? lenZ (sm_queue s)) && ((sm_bufferedBytes s + incoming >? sm_maxBytes s) || (lenZ (sm_queue s) >=? sm_maxChunks s))
    then make_room fuel' incoming (dropOldest s)
    else s
  end.

Definition countLines (data : list Z) : Z := lenZ (filter (fun b => b = 10) data).

Definition chunk_lines (chunk : Chunk) : Z :=
  if ck_LineCount chunk =? 0 then countLines (ck_Data chunk) else ck_LineCount chunk.

(** [enqueue]: the section that takes over drops reported by the source, and the
    section that buffers the data. *)
Definition enqueue_report (chunk : Chunk) (s : Stream) : Stream :=
  if (ck_DroppedBytes chunk >? 0) || (ck_DroppedLines chunk >? 0)
  then signal (addReportedDrop (ck_DroppedBytes chunk) (ck_DroppedLines chunk) s)
  else s.

Definition enqueue_data (chunk : Chunk) (now : time) (s : Stream) : Stream :=
  if bool_decide (ck_Data chunk = []) then s
  else
    let lines := chunk_lines chunk in
    let len := lenZ (ck_Data chunk) in
    let '(allowed, limiter) := Allow len now (sm_limiter s) in
    let s := set_limiter limiter s in
    if negb allowed then signal (addReportedDrop len lines s)
    else if len >? sm_maxBytes s then signal (addReportedDrop len lines s)
    else
      let s := make_room (length (sm_queue s)) len s in
      signal (set_queue (sm_queue s ++ [mkQueued chunk lines]) (sm_bufferedBytes s + len) s).

(** A call of [enqueue] nothing interrupts: refused when the context has ended,
    or both sections. *)
Definition enqueue (chunk : Chunk) (now : time) (s : Stream) : res relayErr unit * Stream :=
  match sm_ctx s with
  | Some reason => (Err (RelayContext reason), s)
  | None => (Ok tt, enqueue_data chunk now (enqueue_report chunk s))
  end.

(** What the source's call returned. *)
Inductive sourceResult := SourceOk | SourceCanceled | SourceFailed (text : string).

(** The end of [run]. *)
Definition run_end (r : sourceResult) (s : Stream) : Stream :=
  let err := match r with SourceFailed text => Some text | _ => sm_ctx s end in
  mkStream (sm_ctx s) true true (sm_queue s) (sm_bufferedBytes s) (sm_maxBytes s) (sm_maxChunks s) (sm_droppedBytes s)
    (sm_droppedLines s) true err (sm_terminalReported s) (sm_limiter s).

(** One turn of the loop of [Next]: an event, the end, or nothing yet. *)
Inductive nextResult := NextEvent (e : Event) | NextEOF | NextWait.

Definition take_drops (s : Stream) : Stream :=
  mkStream (sm_ctx s) (sm_wake s) (sm_done s) (sm_queue s) (sm_bufferedBytes s) (sm_maxBytes s) (sm_maxChunks s) 0 0
    (sm_sourceDone s) (sm_sourceErr s) (sm_terminalReported s) (sm_limiter s).

Definition next_turn (s : Stream) : nextResult * Stream :=
  match sm_queue s with
  | item :: rest =>
    let chunk := qc_chunk item in
    (NextEvent (mkLogEvent (ck_Data chunk) (Some (ck_Stream chunk)) (qc_lines item) (ck_Timestamp chunk) (sm_droppedBytes s)
       (sm_droppedLines s) false ""),
     take_drops (set_queue rest (sm_bufferedBytes s - chunk_len item) s))
  | [] =>
    if sm_sourceDone s && negb (sm_terminalReported s) then
      (NextEvent (mkLogEvent [] None 0 time_zero (sm_droppedBytes s) (sm_droppedLines s) true (default "" (sm_sourceErr s))),
       let s := take_drops s in
       mkStream (sm_ctx s) (sm_wake s) (sm_done s) (sm_queue s) (sm_bufferedBytes s) (sm_maxBytes s) (sm_maxChunks s) (sm_droppedBytes s)
         (sm_droppedLines s) (sm_sourceDone s) (sm_sourceErr s) true (sm_limiter s))
    else if sm_sourceDone s then (NextEOF, s)
    else (NextWait, s)
  end.

(** The wake token is taken by a viewer that waits. *)
Definition wait_wake (s : Stream) : Stream := set_wake false s.

(** [Close], or the viewer's context ending: the stream's context reports it. *)
Definition cancel (reason : string) (s : Stream) : Stream :=
  match sm_ctx s with
  | Some _ => s
  | None =>
    mkStream (Some reason) (sm_wake s) (sm_done s) (sm_queue s) (sm_bufferedBytes s) (sm_maxBytes s) (sm_maxChunks s)
      (sm_droppedBytes s) (sm_droppedLines s) (sm_sourceDone s) (sm_sourceErr s) (sm_terminalReported s) (sm_limiter s)
  end.

Definition Buffered (s : Stream) : Z * Z := (sm_bufferedBytes s, lenZ (sm_queue s)).

Definition Validate (e : Event) : bool := negb (le_Terminal e && negb (bool_decide (le_Data e = []))).

(** ** Runs

    The steps are the critical sections. [StReport] and [StData] are those of an
    [enqueue] that passed its context check; the context may end between the
    check and a section, so a section may also follow a [StCancel]. *)

Inductive relay_step :=
| StReport (chunk : Chunk)
| StData (chunk : Chunk) (now : time)
| StEnd (r : sourceResult)
| StCancel (reason : string)
| StNext
| StWait.

Definition step_run (x : relay_step) (acc : list Event * Stream) : list Event * Stream :=
  let '(events, s) := acc in
  match x with
  | StReport chunk => (events, enqueue_report chunk s)
  | StData chunk now => (events, enqueue_data chunk now s)
  | StEnd r => (events, run_end r s)
  | StCancel reason => (events, cancel reason s)
  | StNext => let '(r, s') := next_turn s in (match r with NextEvent e => events ++ [e] | _ => events end, s')
  | StWait => (events, wait_wake s)
  end.

Definition relay_run (steps : list relay_step) (s : Stream) : list Event * Stream :=
  foldl (fun acc x => step_run x acc) ([], s) steps.

(** A call of [enqueue] is refused without effect, or is its two sections. *)
Lemma enqueue_sections chunk now s :
  enqueue chunk now s =
    match sm_ctx s with
    | Some reason => (Err (RelayContext reason), s)
    | None => (Ok tt, (relay_run [StReport chunk; StData chunk now] s).2)
    end.
Proof. unfold enqueue. by destruct (sm_ctx s). Qed.

(** The source's counts are unsigned, and it emits nothing once it returned. *)
Definition chunk_ok (chunk : Chunk) : Prop := 0 <= ck_DroppedBytes chunk /\ 0 <= ck_DroppedLines chunk /\ 0 <= ck_LineCount chunk.
Definition step_ok (x : relay_step) : Prop := match x with StReport c | StData c _ => chunk_ok c | _ => True end.
Definition is_source (x : relay_step) : bool := match x with StReport _ | StData _ _ | StEnd _ => true | _ => false end.
Definition is_end (x : relay_step) : bool := match x with StEnd _ => true | _ => false end.
Definition source_stops (steps : list relay_step) : Prop :=
  forall pre x post, steps = pre ++ x :: post -> is_source x = true -> existsb is_end pre = false.

(** What the source offered. *)
Definition step_bytes (x : relay_step) : Z :=
  match x with StReport c => ck_DroppedBytes c | StData c _ => lenZ (ck_Data c) | _ => 0 end.
Definition step_lines (x : relay_step) : Z :=
  match x with
  | StReport c => ck_DroppedLines c
  | StData c _ => if bool_decide (ck_Data c = []) then 0 else chunk_lines c
  | _ => 0
  end.
Definition offered_bytes : list relay_step -> Z := sum_by step_bytes.
Definition offered_lines : list relay_step -> Z := sum_by step_lines.
Definition offered_data (steps : list relay_step) : list (list Z) :=
  omap (fun x => match x with StData c _ => Some (ck_Data c) | _ => None end) steps.

(** What the viewer got. *)
Definition delivered_bytes : list Event -> Z := sum_by (fun e => lenZ (le_Data e) + le_DroppedBytes e).
Definition delivered_lines : list Event -> Z := sum_by (fun e => le_LineCount e + le_DroppedLines e).
Definition delivered_data (events : list Event) : list (list Z) := le_Data <$> filter (fun e => le_Terminal e = false) events.

(** What the stream still holds. *)
Definition held_bytes (s : Stream) : Z := sum_by chunk_len (sm_queue s) + sm_droppedBytes s.
Definition held_lines (s : Stream) : Z := sum_by qc_lines (sm_queue s) + sm_droppedLines s.
Definition queued_data (s : Stream) : list (list Z) := (fun q => ck_Data (qc_chunk q)) <$> sm_queue s.

Definition queue_ok (s : Stream) : Prop :=
  Forall (fun q => 0 < chunk_len q /\ 0 <= qc_lines q) (sm_queue s) /\
  sm_bufferedBytes s = sum_by chunk_len (sm_queue s) /\ sm_bufferedBytes s <= sm_maxBytes s /\ lenZ (sm_queue s) <= sm_maxChunks s /\
  0 <= sm_droppedBytes s /\ 0 <= sm_droppedLines s.

Lemma queue_bytes_nonneg s : queue_ok s -> 0 <= sum_by chunk_len (sm_queue s) /\ 0 <= sum_by qc_lines (sm_queue s).
Proof. intros (Hq & _). split; apply sum_by_nonneg; eapply Forall_impl; [exact Hq | simpl; lia | exact Hq | simpl; lia]. Qed.

(** The fields no section of the producer touches. *)
Definition same_frame (s s' : Stream) : Prop :=
  sm_maxBytes s' = sm_maxBytes s /\ sm_maxChunks s' = sm_maxChunks s /\ sm_sourceDone s' = sm_sourceDone s /\
  sm_terminalReported s' = sm_terminalReported s.

(** A producer's section: [b] bytes and [l] lines more are held, and the queue
    lost a prefix and gained [new] at its end. *)
Definition produced (b l : Z) (new : list (list Z)) (s s' : Stream) : Prop :=
  queue_ok s' /\ held_bytes s' = held_bytes s + b /\ held_lines s' = held_lines s + l /\
  (exists kept, kept `sublist_of` queued_data s /\ queued_data s' = kept ++ new) /\ same_frame s s'.

Lemma addDrop_produced b l s :
  queue_ok s -> 0 <= b -> 0 <= l -> held_bytes s + b <= max_u64 -> held_lines s + l <= max_u64 ->
  produced b l [] s (addReportedDrop b l s).
Proof.
  intros Hq Hb Hl H1 H2. pose proof (queue_bytes_nonneg s Hq). destruct Hq as (Q1 & Q2 & Q3 & Q4 & Q5 & Q6).
  unfold held_bytes, held_lines in *. assert (u64 (sm_droppedBytes s + b) = sm_droppedBytes s + b) as E1 by (apply u64_id; unfold u64_ok; lia).
  assert (u64 (sm_droppedLines s + l) = sm_droppedLines s + l) as E2 by (apply u64_id; unfold u64_ok; lia).
  unfold produced, queue_ok, held_bytes, held_lines, queued_data. simpl. rewrite E1, E2. split_and!; auto; try lia; [|done].
  eexists. split; [reflexivity|]. by rewrite app_nil_r.
Qed.

Lemma produced_trans b1 l1 b2 l2 new s1 s2 s3 :
  produced b1 l1 [] s1 s2 -> produced b2 l2 new s2 s3 -> produced (b1 + b2) (l1 + l2) new s1 s3.
Proof.
  intros (A1 & A2 & A3 & (k1 & A4 & A5) & A6) (B1 & B2 & B3 & (k2 & B4 & B5) & B6). rewrite app_nil_r in A5.
  split_and!; auto; try lia.
  - exists k2. split; [|done]. etransitivity; [exact B4|]. by rewrite A5.
  - destruct A6 as (? & ? & ? & ?), B6 as (? & ? & ? & ?). split_and!; congruence.
Qed.

Lemma produced_refl s : queue_ok s -> produced 0 0 [] s s.
Proof. intros Hq. split_and!; auto; try lia; [|by split_and!]. eexists. split; [reflexivity|]. by rewrite app_nil_r. Qed.

(** The oldest chunk becomes a drop. *)
Lemma dropOldest_produced s : queue_ok s -> held_bytes s <= max_u64 -> held_lines s <= max_u64 -> produced 0 0 [] s (dropOldest s).
Proof.
  intros Hq H1 H2. unfold dropOldest. destruct (sm_queue s) as [|q rest] eqn:Eq; [by apply produced_refl|].
  pose proof (queue_bytes_nonneg s Hq) as [Hnb Hnl]. pose proof Hq as (Q1 & Q2 & Q3 & Q4 & Q5 & Q6). rewrite Eq in *.
  apply Forall_cons in Q1 as [[Hq1 Hq2] Q1]. set (s1 := set_queue rest (sm_bufferedBytes s - chunk_len q) s).
  assert (0 <= sum_by chunk_len rest /\ 0 <= sum_by qc_lines rest) as [Hr1 Hr2]
    by (split; apply sum_by_nonneg; eapply Forall_impl; [exact Q1 | simpl; lia | exact Q1 | simpl; lia]).
  unfold held_bytes, held_lines in *. rewrite Eq in *. simpl in Q2, H1, H2, Hnb, Hnl. unfold lenZ in Q4. simpl in Q4.
  fold (sum_by chunk_len rest) in *. fold (sum_by qc_lines rest) in *.
  assert (queue_ok s1) as Hq1' by (unfold queue_ok, lenZ; simpl; split_and!; auto; lia).
  destruct (addDrop_produced (chunk_len q) (qc_lines q) s1 Hq1') as (P1 & P2 & P3 & (k & P4 & P5) & P6);
    [lia | lia | unfold held_bytes; simpl; lia | unfold held_lines; simpl; lia|].
  unfold produced. unfold held_bytes, held_lines in P2, P3 |- *. rewrite Eq. simpl in P2, P3. simpl.
  fold (sum_by chunk_len rest). fold (sum_by qc_lines rest).
  split_and!; [done | simpl; lia | simpl; lia | | done]. exists k. split; [|done].
  etransitivity; [exact P4|]. unfold queued_data. rewrite Eq. simpl. by apply sublist_cons.
Qed.

Lemma make_room_produced fuel incoming s : queue_ok s -> held_bytes s <= max_u64 -> held_lines s <= max_u64 ->
  produced 0 0 [] s (make_room fuel incoming s).
Proof.
  revert s. induction fuel as [|fuel IH]; intros s Hq H1 H2; cbn [make_room]; [by apply produced_refl|].
  case_if; [|by apply produced_refl]. pose proof (dropOldest_produced s Hq H1 H2) as P.
  apply (produced_trans 0 0 0 0 [] _ _ _ P). destruct P as (P1 & P2 & P3 & _). apply IH; [done | lia | lia].
Qed.

(** Enough turns leave room for the chunk. *)
Lemma relay_room_fits fuel incoming s : (length (sm_queue s) <= fuel)%nat ->
  incoming <= sm_maxBytes s -> 0 < sm_maxChunks s ->
  let s' := make_room fuel incoming s in
  queue_ok s' -> sm_bufferedBytes s' + incoming <= sm_maxBytes s' /\ lenZ (sm_queue s') < sm_maxChunks s'.
Proof.
  revert s. induction fuel as [|fuel IH]; intros s Hf Hi Hc; cbn [make_room].
  - intros (_ & Hb & _). destruct (sm_queue s) as [|q l] eqn:E; [|simpl in Hf; lia]. simpl in Hb. unfold lenZ. simpl. lia.
  - destruct (_ && _) eqn:Eb.
    + bool_to_prop. unfold dropOldest. destruct (sm_queue s) as [|q l] eqn:Eq; [unfold lenZ in *; simpl in *; lia|].
      apply IH; simpl; auto. simpl in Hf. lia.
    + intros (_ & Hb & _). destruct (sm_queue s) as [|q l] eqn:E; [simpl in Hb; unfold lenZ; simpl; lia|].
      bool_cases; try lia. unfold lenZ in *. simpl in *. lia.
Qed.

(** ** Each section *)

Lemma lenZ_pos {A} (l : list A) : l <> [] -> 0 < lenZ l.
Proof. destruct l; [done|]. unfold lenZ. simpl. lia. Qed.

Lemma chunk_lines_nonneg c : chunk_ok c -> 0 <= chunk_lines c.
Proof. intros (_ & _ & ?). unfold chunk_lines. case_if; [unfold countLines, lenZ; lia | done]. Qed.

Lemma produced_signal b l new s s' : produced b l new s s' -> produced b l new s (signal s').
Proof. done. Qed.
Lemma produced_limiter b l new s m s' : produced b l new (set_limiter m s) s' -> produced b l new s s'.
Proof. done. Qed.

Lemma report_produced c s : queue_ok s -> chunk_ok c ->
  held_bytes s + ck_DroppedBytes c <= max_u64 -> held_lines s + ck_DroppedLines c <= max_u64 ->
  produced (ck_DroppedBytes c) (ck_DroppedLines c) [] s (enqueue_report c s).
Proof.
  intros Hq (Hb & Hl & _) H1 H2. unfold enqueue_report. destruct (_ || _) eqn:E.
  - apply produced_signal. by apply addDrop_produced.
  - bool_to_prop. replace (ck_DroppedBytes c) with 0 by lia. replace (ck_DroppedLines c) with 0 by lia. by apply produced_refl.
Qed.

(** The chunk is queued, or dropped as a whole. *)
Lemma data_produced c now s : queue_ok s -> chunk_ok c -> 0 < sm_maxChunks s ->
  held_bytes s + step_bytes (StData c now) <= max_u64 -> held_lines s + step_lines (StData c now) <= max_u64 ->
  exists new, (new = [] \/ new = [ck_Data c]) /\
    produced (step_bytes (StData c now)) (step_lines (StData c now)) new s (enqueue_data c now s).
Proof.
  intros Hq Hc Hm H1 H2. unfold enqueue_data. simpl step_bytes in *. simpl step_lines in *. destruct (bool_decide (ck_Data c = [])) eqn:Ed; bool_to_prop.
  { exists []. split; [by left|]. rewrite Ed. change (lenZ (@nil Z)) with 0. by apply produced_refl. }
  pose proof (lenZ_pos _ Ed) as Hlen. pose proof (chunk_lines_nonneg c Hc) as Hlines.
  destruct (Allow _ now (sm_limiter s)) as [allowed m]. set (s0 := set_limiter m s).
  assert (produced (lenZ (ck_Data c)) (chunk_lines c) [] s (signal (addReportedDrop (lenZ (ck_Data c)) (chunk_lines c) s0))) as Hdrop.
  { apply produced_signal, (produced_limiter _ _ _ _ m), addDrop_produced; try done; lia. }
  destruct allowed; cbn [negb]; [|exists []; auto]. case_if; [exists []; auto|]. bool_to_prop. exists [ck_Data c]. split; [by right|].
  pose proof (make_room_produced (length (sm_queue s0)) (lenZ (ck_Data c)) s0 Hq ltac:(unfold s0; change (held_bytes (set_limiter m s)) with (held_bytes s); lia) ltac:(change (held_lines s0) with (held_lines s); lia)) as P.
  pose proof (relay_room_fits (length (sm_queue s0)) (lenZ (ck_Data c)) s0 ltac:(lia) ltac:(lia) Hm) as F. cbv zeta in F.
  set (s1 := make_room _ _ _) in *. destruct P as (P1 & P2 & P3 & (k & P4 & P5) & P6). specialize (F P1) as [F1 F2].
  change (held_bytes s0) with (held_bytes s) in P2. change (held_lines s0) with (held_lines s) in P3.
  rewrite app_nil_r in P5. destruct P1 as (Q1 & Q2 & Q3 & Q4 & Q5 & Q6). apply produced_signal.
  assert (chunk_len (mkQueued c (chunk_lines c)) = lenZ (ck_Data c)) as Ecl by done.
  unfold produced, queue_ok, held_bytes, held_lines, queued_data in *. simpl. rewrite !sum_by_app, !sum_by_one. simpl qc_lines. rewrite Ecl.
  assert (lenZ (sm_queue s1 ++ [mkQueued c (chunk_lines c)]) = lenZ (sm_queue s1) + 1) as El by (unfold lenZ; rewrite length_app; simpl; lia).
  rewrite El. split_and!; auto; try lia.
  - apply Forall_app. split; [done|]. constructor; [|done]. simpl. rewrite Ecl. lia.
  - exists k. split; [done|]. rewrite fmap_app, P5. done.
Qed.

(** What a turn of [Next] does. *)
Lemma next_spec s r s' : queue_ok s -> next_turn s = (r, s') ->
  queue_ok s' /\ sm_maxBytes s' = sm_maxBytes s /\ sm_maxChunks s' = sm_maxChunks s /\ sm_sourceDone s' = sm_sourceDone s /\
  match r with
  | NextEvent e =>
    lenZ (le_Data e) + le_DroppedBytes e + held_bytes s' = held_bytes s /\
    le_LineCount e + le_DroppedLines e + held_lines s' = held_lines s /\
    0 <= le_DroppedBytes e /\ 0 <= le_LineCount e + le_DroppedLines e /\
    if le_Terminal e
    then sm_sourceDone s = true /\ sm_terminalReported s = false /\ sm_terminalReported s' = true /\ le_Data e = [] /\
         queued_data s = [] /\ queued_data s' = [] /\ held_bytes s' = 0 /\ held_lines s' = 0
    else queued_data s = le_Data e :: queued_data s' /\ le_Data e <> [] /\ sm_terminalReported s' = sm_terminalReported s
  | _ => s' = s
  end.
Proof.
  intros Hq. pose proof Hq as (Q1 & Q2 & Q3 & Q4 & Q5 & Q6). unfold next_turn. destruct (sm_queue s) as [|q rest] eqn:Eq.
  - case_if; [|case_if; by intros [= <- <-]]. bool_to_prop. intros [= <- <-].
    unfold queue_ok, held_bytes, held_lines, queued_data. simpl. rewrite Eq. simpl. split_and!; auto; try done; unfold lenZ in *; simpl in *; lia.
  - intros [= <- <-]. apply Forall_cons in Q1 as [[Hl1 Hl2] Q1]. unfold queue_ok, held_bytes, held_lines, queued_data. simpl. rewrite Eq. simpl.
    simpl in Q2. fold (sum_by chunk_len rest) in *. fold (sum_by qc_lines rest) in *. unfold lenZ in Q4. simpl in Q4. unfold chunk_len in *.
    split_and!; auto; try (unfold lenZ in *; lia). intros E. rewrite E in Hl1. unfold lenZ in Hl1. simpl in Hl1. lia.
Qed.

(** ** The whole run *)

Definition terminals (events : list Event) : list Event := filter (fun e => le_Terminal e = true) events.

Record relay_inv (steps : list relay_step) (s0 : Stream) (events : list Event) (s : Stream) : Prop := {
  ri_queue : queue_ok s;
  ri_limits : sm_maxBytes s = sm_maxBytes s0 /\ sm_maxChunks s = sm_maxChunks s0;
  ri_bytes : delivered_bytes events + held_bytes s = offered_bytes steps;
  ri_lines : delivered_lines events + held_lines s = offered_lines steps;
  ri_nonneg : 0 <= delivered_bytes events /\ 0 <= delivered_lines events;
  ri_order : (delivered_data events ++ queued_data s) `sublist_of` offered_data steps;
  ri_ended : sm_sourceDone s = existsb is_end steps;
  ri_before : sm_terminalReported s = false -> terminals events = [];
  ri_after : sm_terminalReported s = true ->
    sm_sourceDone s = true /\ held_bytes s = 0 /\ held_lines s = 0 /\ queued_data s = [] /\
    exists pre e, events = pre ++ [e] /\ le_Terminal e = true /\ le_Data e = [] /\ terminals pre = [];
}.

Lemma step_bytes_nonneg x : step_ok x -> 0 <= step_bytes x.
Proof. destruct x; simpl; try lia; [intros (? & _); done | intros _; unfold lenZ; lia]. Qed.
Lemma step_lines_nonneg x : step_ok x -> 0 <= step_lines x.
Proof. destruct x; simpl; try lia; [by intros (_ & ? & _) | intros Hc; case_if; [lia | by apply chunk_lines_nonneg]]. Qed.

Lemma sum_by_snoc {A} (f : A -> Z) l x : sum_by f (l ++ [x]) = sum_by f l + f x.
Proof. by rewrite sum_by_app, sum_by_one. Qed.

(** A section of the source, while it has not returned. *)
Lemma produced_inv steps s0 events s x new s' :
  relay_inv steps s0 events s -> is_end x = false -> sm_sourceDone s = false ->
  produced (step_bytes x) (step_lines x) new s s' ->
  new `sublist_of` offered_data [x] -> relay_inv (steps ++ [x]) s0 events s'.
Proof.
  intros [I1 I2 I3 I4 I9 I5 I6 I7 I8] He Hd (P1 & P2 & P3 & (k & P4 & P5) & (F1 & F2 & F3 & F4)) Hnew. split; auto.
  - rewrite F1, F2. done.
  - unfold offered_bytes. rewrite sum_by_snoc. unfold offered_bytes in I3. lia.
  - unfold offered_lines. rewrite sum_by_snoc. unfold offered_lines in I4. lia.
  - rewrite P5, app_assoc. unfold offered_data. rewrite omap_app. apply sublist_app; [|done].
    etransitivity; [|exact I5]. by apply sublist_app.
  - rewrite F3, existsb_app, I6. simpl. by rewrite He, !orb_false_r.
  - rewrite F4. done.
  - rewrite F4. intros Ht. destruct (I8 Ht) as (Hx & _). congruence.
Qed.

(** A step that offers nothing and touches neither the queue nor the counters. *)
Lemma idle_inv steps s0 events s x s' :
  relay_inv steps s0 events s -> step_bytes x = 0 -> step_lines x = 0 -> offered_data [x] = [] ->
  sm_queue s' = sm_queue s -> sm_bufferedBytes s' = sm_bufferedBytes s -> sm_droppedBytes s' = sm_droppedBytes s ->
  sm_droppedLines s' = sm_droppedLines s -> sm_maxBytes s' = sm_maxBytes s -> sm_maxChunks s' = sm_maxChunks s ->
  sm_terminalReported s' = sm_terminalReported s -> sm_sourceDone s' = sm_sourceDone s || is_end x ->
  relay_inv (steps ++ [x]) s0 events s'.
Proof.
  intros [I1 I2 I3 I4 I9 I5 I6 I7 I8] Eb El Eo E1 E2 E3 E4 E5 E6 E7 E8.
  assert (held_bytes s' = held_bytes s /\ held_lines s' = held_lines s /\ queued_data s' = queued_data s) as (H1 & H2 & H3)
    by (unfold held_bytes, held_lines, queued_data; by rewrite E1, E3, E4).
  split.
  - unfold queue_ok in *. by rewrite E1, E2, E3, E4, E5, E6.
  - by rewrite E5, E6.
  - unfold offered_bytes. rewrite sum_by_snoc, H1, Eb. unfold offered_bytes in I3. lia.
  - unfold offered_lines. rewrite sum_by_snoc, H2, El. unfold offered_lines in I4. lia.
  - done.
  - unfold offered_data in *. rewrite omap_app, Eo, app_nil_r, H3. done.
  - rewrite E8, existsb_app, I6. simpl. by rewrite orb_false_r.
  - by rewrite E7.
  - rewrite E7, H1, H2, H3, E8. intros Ht. destruct (I8 Ht) as (-> & ?). done.
Qed.

Lemma delivered_data_snoc events e :
  delivered_data (events ++ [e]) = delivered_data events ++ (if le_Terminal e then [] else [le_Data e]).
Proof.
  unfold delivered_data. rewrite filter_app, fmap_app. f_equal.
  destruct (le_Terminal e) eqn:E; [rewrite filter_cons_False by congruence | rewrite filter_cons_True by done]; done.
Qed.

Lemma terminals_snoc events e : terminals (events ++ [e]) = terminals events ++ (if le_Terminal e then [e] else []).
Proof.
  unfold terminals. rewrite filter_app. f_equal.
  destruct (le_Terminal e) eqn:E; [rewrite filter_cons_True by done | rewrite filter_cons_False by congruence]; done.
Qed.

Lemma next_inv steps s0 events s r s' :
  relay_inv steps s0 events s -> next_turn s = (r, s') ->
  relay_inv (steps ++ [StNext]) s0 (match r with NextEvent e => events ++ [e] | _ => events end) s'.
Proof.
  intros Hi E. pose proof Hi as [I1 I2 I3 I4 I9 I5 I6 I7 I8]. apply next_spec in E as (N1 & N2 & N3 & N4 & N5); [|done].
  destruct r as [e| |]; [|subst s'; eapply idle_inv; eauto; by rewrite orb_false_r..].
  destruct N5 as (Nb & Nl & Np1 & Np2 & N5). split; auto.
  - by rewrite N2, N3.
  - unfold delivered_bytes, offered_bytes in *. rewrite !sum_by_snoc. simpl step_bytes. lia.
  - unfold delivered_lines, offered_lines in *. rewrite !sum_by_snoc. simpl step_lines. lia.
  - unfold delivered_bytes, delivered_lines, lenZ in *. rewrite !sum_by_snoc. lia.
  - unfold offered_data in *. rewrite omap_app, app_nil_r, delivered_data_snoc. destruct (le_Terminal e).
    + destruct N5 as (_ & _ & _ & _ & Hq & Hq' & _). rewrite Hq, app_nil_r in I5. by rewrite Hq', !app_nil_r.
    + destruct N5 as (Hq & _). rewrite Hq in I5. by rewrite <- app_assoc.
  - rewrite N4, existsb_app, I6. simpl. by rewrite orb_false_r.
  - intros Ht. rewrite terminals_snoc. destruct (le_Terminal e); [destruct N5 as (_ & _ & ? & _); congruence|].
    destruct N5 as (_ & _ & Hs). rewrite I7 by congruence. done.
  - intros Ht. rewrite N4. destruct (le_Terminal e) eqn:Ee.
    + destruct N5 as (Hd & Hr & _ & Hdata & Hq & Hq' & Hb & Hl). split_and!; auto. exists events, e. split_and!; auto.
    + destruct N5 as (Hq & _ & Hs). rewrite Hs in Ht. destruct (I8 Ht) as (_ & _ & _ & Hq' & _). rewrite Hq in Hq'. done.
Qed.

Lemma source_stops_snoc steps x : source_stops (steps ++ [x]) -> source_stops steps /\ (is_source x = true -> existsb is_end steps = false).
Proof.
  intros H. split.
  - intros pre y post -> Hy. apply (H pre y (post ++ [x])); [|done]. by rewrite <- app_assoc.
  - intros Hx. by apply (H steps x []).
Qed.

Lemma relay_run_inv steps s0 :
  queue_ok s0 -> held_bytes s0 = 0 -> held_lines s0 = 0 -> sm_queue s0 = [] -> sm_sourceDone s0 = false -> sm_terminalReported s0 = false ->
  0 < sm_maxChunks s0 -> Forall step_ok steps -> source_stops steps ->
  offered_bytes steps <= max_u64 -> offered_lines steps <= max_u64 ->
  relay_inv steps s0 (relay_run steps s0).1 (relay_run steps s0).2.
Proof.
  intros Hq Hb Hl Hqe Hd Hr Hm. induction steps as [|x steps IH] using rev_ind; intros Hok Hst Hob Hol.
  { split; simpl; auto; [unfold delivered_bytes, delivered_lines; simpl; lia | unfold queued_data; by rewrite Hqe | by intros ?; congruence]. }
  apply Forall_app in Hok as [Hok [Hx _]%Forall_cons]. apply source_stops_snoc in Hst as [Hst Hsrc].
  unfold offered_bytes, offered_lines in Hob, Hol. rewrite sum_by_snoc in Hob, Hol.
  pose proof (step_bytes_nonneg x Hx). pose proof (step_lines_nonneg x Hx).
  specialize (IH Hok Hst ltac:(unfold offered_bytes; lia) ltac:(unfold offered_lines; lia)).
  unfold relay_run in *. rewrite foldl_app. cbn [foldl]. destruct (foldl _ ([], s0) steps) as [events s]. simpl in IH.
  pose proof IH as [I1 [_ I2] I3 I4 [Hdb Hdl] _ I6 _ _]. fold (offered_bytes steps) in Hob. fold (offered_lines steps) in Hol.
  destruct x as [c|c now|r|reason| |]; simpl step_run.
  - rewrite Hsrc in I6 by done. simpl. eapply produced_inv; [done | done | done | apply report_produced; [done | done | |] | done]; simpl in *; lia.
  - rewrite Hsrc in I6 by done. destruct (data_produced c now s I1 Hx) as (new & Hn & P); [by rewrite I2 | lia | lia|].
    eapply produced_inv; [done | done | done | exact P|]. destruct Hn as [-> | ->]; simpl; [apply sublist_nil_l | done].
  - eapply idle_inv; eauto. simpl. by rewrite orb_true_r.
  - unfold cancel. destruct (sm_ctx s); simpl; eapply idle_inv; eauto; simpl; by rewrite orb_false_r.
  - destruct (next_turn s) as [r s'] eqn:E. simpl. by eapply next_inv.
  - eapply idle_inv; eauto. simpl. by rewrite orb_false_r.
Qed.

(** [C34] The relay loses nothing without saying so. For any stream opened by a
    configured relay, any chunks, any clock, and any interleaving of the source's
    sections with the viewer's: the bytes and lines the source offered are
    exactly those the viewer received, those reported to it as dropped, and
    those the stream still holds; the data the viewer received is a subsequence
    of what was offered, chunk by chunk and in order; the buffer stays within its
    two bounds; and the terminal event comes at most once, as the last event and
    with everything accounted for. *)
Theorem relay_accounts parse raw config ctx request now request' s0 steps :
  New raw = Ok config -> Open parse config ctx request now = Ok (request', s0) ->
  Forall step_ok steps -> source_stops steps -> offered_bytes steps <= max_u64 -> offered_lines steps <= max_u64 ->
  let '(events, s) := relay_run steps s0 in
  delivered_bytes events + held_bytes s = offered_bytes steps /\
  delivered_lines events + held_lines s = offered_lines steps /\
  delivered_data events `sublist_of` offered_data steps /\
  (Buffered s).1 <= rc_MaxBufferedBytes config /\ (Buffered s).2 <= rc_MaxBufferedChunks config /\
  (forall e, e ∈ events -> Validate e = true) /\
  (terminals events = [] \/
   exists pre e, events = pre ++ [e] /\ terminals pre = [] /\ delivered_bytes events = offered_bytes steps /\
     delivered_lines events = offered_lines steps).
Proof.
  intros Hn Ho Hok Hst Hb Hl.
  assert (0 < rc_MaxBufferedBytes config /\ 0 < rc_MaxBufferedChunks config) as [Hc1 Hc2].
  { unfold New in Hn. case_if; [done|]. cbv zeta in Hn. case_if; [done|]. bool_to_prop. injection Hn as <-. simpl. lia. }
  assert (sm_maxBytes s0 = rc_MaxBufferedBytes config /\ sm_maxChunks s0 = rc_MaxBufferedChunks config /\ sm_queue s0 = [] /\
    sm_bufferedBytes s0 = 0 /\ sm_droppedBytes s0 = 0 /\ sm_droppedLines s0 = 0 /\ sm_sourceDone s0 = false /\
    sm_terminalReported s0 = false) as (E1 & E2 & E3 & E4 & E5 & E6 & E7 & E8).
  { unfold Open in Ho. cbv zeta in Ho. case_if; [done|]. case_if; [done|]. destruct ctx; [done|]. by injection Ho as _ <-. }
  assert (relay_inv steps s0 (relay_run steps s0).1 (relay_run steps s0).2) as Hi.
  { apply relay_run_inv; auto; [|unfold held_bytes; rewrite E3, E5; done | unfold held_lines; rewrite E3, E6; done | lia].
    unfold queue_ok. rewrite E3, E4, E5, E6. unfold lenZ. simpl. split_and!; auto; lia. }
  destruct (relay_run steps s0) as [events s]. destruct Hi as [I1 [I2 I2'] I3 I4 _ I5 I6 I7 I8]. simpl in *.
  assert (terminals events = [] \/ exists pre e, events = pre ++ [e] /\ terminals pre = [] /\ le_Data e = [] /\
    held_bytes s = 0 /\ held_lines s = 0) as Hterm.
  { destruct (sm_terminalReported s); [right | left; auto]. destruct (I8 eq_refl) as (_ & ? & ? & _ & pre & e & ? & ? & ? & ?).
    exists pre, e. split_and!; auto. }
  assert (forall l, terminals l = [] -> forall e, e ∈ l -> Validate e = true) as Hval.
  { intros l Ht e He. unfold Validate. destruct (le_Terminal e) eqn:Ee; [|done]. exfalso. apply (not_elem_of_nil e).
    rewrite <- Ht. by apply list_elem_of_filter. }
  destruct I1 as (_ & _ & Q3 & Q4 & _). split_and!; [done | done | | by rewrite <- E1, <- I2 | by rewrite <- E2, <- I2' | |].
  - etransitivity; [|exact I5]. by apply sublist_inserts_r.
  - destruct Hterm as [Ht|(pre & e & -> & Ht & Hd & _)]; [by apply Hval|].
    intros x [Hx|Hx%list_elem_of_singleton]%elem_of_app; [by apply (Hval pre)|]. subst x. unfold Validate. rewrite Hd. by destruct (le_Terminal e).
  - destruct Hterm as [Ht|(pre & e & -> & Ht & Hd & Hh1 & Hh2)]; [by left|]. right. exists pre, e. split_and!; auto; lia.
Qed.

Definition demo_chunk (data : list Z) : Chunk := mkChunk data Stdout 0 0 1 5.
Definition demo_raw : Config := mkRelayConfig true 100 8 2.
Definition demo_request : Request := mkRequest "c1" "" [] true 0 false false false "" "".
Definition demo_steps : list relay_step :=
  [StData (demo_chunk [1; 2; 3]) 5; StData (demo_chunk [4; 5; 6]) 6; StNext; StData (demo_chunk [7; 8; 9]) 7;
   StData (demo_chunk [10; 11; 12]) 8; StReport (mkChunk [] Stdout 4 1 0 9); StEnd SourceOk; StNext; StNext; StNext; StNext].

Lemma relay_accounts_witness :
  exists config request' s0, New demo_raw = Ok config /\ Open (fun _ => None) config None demo_request 5 = Ok (request', s0) /\
    (map (fun e => (le_Data e, le_DroppedBytes e, le_Terminal e)) (relay_run demo_steps s0).1) =
      [([1; 2; 3], 0, false); ([7; 8; 9], 7, false); ([10; 11; 12], 0, false); ([], 0, true)] /\
    delivered_bytes (relay_run demo_steps s0).1 + held_bytes (relay_run demo_steps s0).2 = offered_bytes demo_steps.
Proof.
  destruct (New demo_raw) as [config|] eqn:En; [|discriminate En]. exists config.
  destruct (Open (fun _ => None) config None demo_request 5) as [[request' s0]|] eqn:Eo.
  2: { injection En as <-. discriminate Eo. }
  exists request', s0. split; [done|]. split; [done|].
  pose proof (relay_accounts (fun _ => None) demo_raw config None demo_request 5 request' s0 demo_steps En Eo) as H.
  split; [injection En as <-; injection Eo as _ <-; vm_compute; reflexivity|].
  destruct (relay_run demo_steps s0) as [events s]. apply H.
  - repeat constructor; vm_compute; discriminate.
  - intros pre x post E Hx. do 7 (destruct pre as [|? pre]; [by injection E as <-|]; injection E as <- E).
    do 4 (destruct pre as [|? pre]; [injection E as <-; discriminate Hx|]; injection E as <- E). by destruct pre.
  - vm_compute. discriminate.
  - vm_compute. discriminate.
Defined.
