(* ===== verification/AuditEvents.v ===== *)
(** * Audit payloads

    Models [internal/auditevents/codec.go]: the envelope of an audit event, its
    validation, its encoding as a versioned JSON object and the strict decoder. The
    objects are JSON trees; printing and parsing JSON text and RFC 3339 times
    ([encoding/json], [time]) are arguments. *)

From Stdlib Require Import Ascii.
From stdpp Require Import pretty.
From S2P Require Import Prelude Cursor WalFrame Wal WalInv WalProps WalDisk GoText WalOnce AuditGen Operation.

(** ** Envelopes *)

Definition PayloadVersion : Z := 1.
Definition MaxPayloadBytes : Z := 32768.
Definition KindContinuityUncertain : Kind := KindOther "AUDIT_CONTINUITY_UNCERTAIN".
Definition ContinuityReasonUncleanShutdown : string := "UNCLEAN_SHUTDOWN".

(** [CodecAudit]: an error of the generator's package, passed on. *)
Inductive codecErr := ErrInvalidPayload | CodecAudit (e : genErr).

Record Envelope := mkEnvelope {
  nv_Event : Event;
  nv_ProjectUID : string;
  nv_OperationID : string;
  nv_PreviousIncarnation : Z;
  nv_KnownDurableThrough : option Z;
  nv_Reason : string;
}.

Definition validText (value : string) (maximum : Z) (emptyAllowed : bool) : bool :=
  (emptyAllowed || negb (str_empty value)) && (strlen value <=? maximum) && ValidString value && negb (contains_byte [0] value).

Definition hasContinuityFields (v : Envelope) : bool :=
  negb (nv_PreviousIncarnation v =? 0) || bool_decide (is_Some (nv_KnownDurableThrough v)) || negb (str_empty (nv_Reason v)).

Definition attribute_list (a : Attributes) : list (string * string) := match a with None => [] | Some m => map_to_list m end.

(** What each kind of event requires. *)
Definition kind_valid (v : Envelope) : bool :=
  let event := nv_Event v in
  let empty_ids := str_empty (nv_ProjectUID v) && str_empty (nv_OperationID v) in
  match ge_Kind event with
  | KindManaged =>
    validText (ge_ResourceID event) 512 false && (ge_Count event =? 1) && (ge_FirstAt event =? ge_LastAt event) &&
    negb (str_empty (nv_OperationID v)) && negb (hasContinuityFields v) &&
    is_ok (Managed (mkSignal (ge_ResourceType event) (ge_ResourceID event) (ge_Action event) (ge_FirstAt event) (ge_Attributes event)) (ge_Actor event))
  | KindObserved => str_empty (ge_Actor event) && validText (ge_ResourceID event) 512 false && empty_ids && negb (hasContinuityFields v)
  | KindEventStorm =>
    bool_decide (ge_ResourceType event = "docker") && str_empty (ge_ResourceID event) && bool_decide (ge_Action event = "event_storm") &&
    str_empty (ge_Actor event) && empty_ids && negb (hasContinuityFields v)
  | KindOther text =>
    bool_decide (KindOther text = KindContinuityUncertain) &&
    bool_decide (ge_ResourceType event = "audit") && str_empty (ge_ResourceID event) && bool_decide (ge_Action event = "continuity_uncertain") &&
    str_empty (ge_Actor event) && (ge_Count event =? 1) && (ge_FirstAt event =? ge_LastAt event) &&
    bool_decide (attribute_list (ge_Attributes event) = []) && empty_ids && negb (nv_PreviousIncarnation v =? 0) &&
    bool_decide (nv_Reason v = ContinuityReasonUncleanShutdown)
  end.

Definition validateEnvelope (v : Envelope) : bool :=
  let event := nv_Event v in
  validText (ge_ResourceType event) 64 false && validText (ge_Action event) 128 false && validText (ge_Actor event) 160 true &&
  negb (is_zero (ge_FirstAt event)) && negb (is_zero (ge_LastAt event)) && negb (ge_LastAt event <? ge_FirstAt event) &&
  negb (ge_Count event =? 0) && validText (nv_ProjectUID v) 256 true && validText (nv_OperationID v) 256 true &&
  kind_valid v &&
  (lenZ (attribute_list (ge_Attributes event)) <=? 32) &&
  forallb (fun kv => validText kv.1 128 false && validText kv.2 1024 true) (attribute_list (ge_Attributes event)).

(** ** The JSON object *)

Inductive jvalue :=
| JNull
| JBool (b : bool)
| JNum (literal : string)
| JStr (text : string)
| JArr (elements : list jvalue)
| JObj (members : list (string * jvalue)).

Record payload := mkPayload {
  pl_Version : Z;
  pl_Kind : string;
  pl_ResourceType : string;
  pl_ResourceID : string;
  pl_Action : string;
  pl_Actor : string;
  pl_ProjectUID : string;
  pl_OperationID : string;
  pl_FirstAt : time;
  pl_LastAt : time;
  pl_Count : Z;
  pl_Attributes : gmap string string;
  pl_PreviousIncarnation : Z;
  pl_KnownDurableThrough : option Z;
  pl_Reason : string;
}.

Definition kind_text (k : Kind) : string :=
  match k with KindManaged => "MANAGED" | KindObserved => "OBSERVED" | KindEventStorm => "EVENT_STORM" | KindOther text => text end.

Definition kind_of (text : string) : Kind :=
  if bool_decide (text = "MANAGED") then KindManaged
  else if bool_decide (text = "OBSERVED") then KindObserved
  else if bool_decide (text = "EVENT_STORM") then KindEventStorm
  else KindOther text.

(** [cloneAttributes]: an empty map becomes nil. *)
Definition cloneAttributes (a : Attributes) : Attributes :=
  match a with Some m => if bool_decide (m = ∅) then None else Some m | None => None end.

(** [rejectDuplicateKeys] on the value: no object in it, at any depth, names a key
    twice. *)
Fixpoint no_duplicates (v : jvalue) : bool :=
  match v with
  | JArr l => forallb no_duplicates l
  | JObj members => bool_decide (NoDup (members.*1)) && forallb (fun kv => no_duplicates kv.2) members
  | _ => true
  end.

Definition decimal (n : Z) : string := pretty n.

Section Codec.
Context (print : jvalue -> list Z) (parse : list Z -> option jvalue).
Context (format_time : time -> string) (parse_time : string -> option time).

(** [json.Marshal] of the payload: the fields in order, without the empty ones
    marked [omitempty]; a map with its keys sorted. *)
Definition text_field (name value : string) : list (string * jvalue) := if str_empty value then [] else [(name, JStr value)].

Definition payload_tree (p : payload) : jvalue :=
  JObj ([("version", JNum (decimal (pl_Version p))); ("kind", JStr (pl_Kind p)); ("resource_type", JStr (pl_ResourceType p))]
    ++ text_field "resource_id" (pl_ResourceID p)
    ++ [("action", JStr (pl_Action p))]
    ++ text_field "actor" (pl_Actor p) ++ text_field "project_uid" (pl_ProjectUID p) ++ text_field "operation_id" (pl_OperationID p)
    ++ [("first_at", JStr (format_time (pl_FirstAt p))); ("last_at", JStr (format_time (pl_LastAt p))); ("count", JNum (decimal (pl_Count p)))]
    ++ (if bool_decide (pl_Attributes p = ∅) then []
        else [("attributes", JObj (prod_map id JStr <$> sort_by (fun a b => str_less a.1 b.1) (map_to_list (pl_Attributes p))))])
    ++ (if pl_PreviousIncarnation p =? 0 then [] else [("previous_incarnation", JNum (decimal (pl_PreviousIncarnation p)))])
    ++ match pl_KnownDurableThrough p with None => [] | Some n => [("known_durable_through", JNum (decimal n))] end
    ++ text_field "reason" (pl_Reason p)).

(** [json.Marshal] refuses a time whose year has not four digits. *)
Definition EncodeEnvelope (v : Envelope) : res codecErr (list Z) :=
  if negb (validateEnvelope v) then Err ErrInvalidPayload
  else
    let event := nv_Event v in
    if negb (rfc3339_time (ge_FirstAt event) && rfc3339_time (ge_LastAt event)) then Err ErrInvalidPayload
    else
      let encoded := print (payload_tree (mkPayload PayloadVersion (kind_text (ge_Kind event)) (ge_ResourceType event) (ge_ResourceID event)
        (ge_Action event) (ge_Actor event) (nv_ProjectUID v) (nv_OperationID v) (ge_FirstAt event) (ge_LastAt event) (ge_Count event)
        (default ∅ (cloneAttributes (ge_Attributes event))) (nv_PreviousIncarnation v) (nv_KnownDurableThrough v) (nv_Reason v))) in
      if lenZ encoded >? MaxPayloadBytes then Err ErrInvalidPayload else Ok encoded.

Definition Encode (event : Event) : res codecErr (list Z) := EncodeEnvelope (mkEnvelope event "" "" 0 None "").

Definition EncodeManaged (signal : Signal) (actor projectUID operationID : string) : res codecErr (list Z) :=
  match Managed signal actor with
  | Err e => Err (CodecAudit e)
  | Ok event => EncodeEnvelope (mkEnvelope event projectUID operationID 0 None "")
  end.

Definition EncodeContinuityUncertain (previousIncarnation : Z) (knownDurableThrough : option Z) (at_ : time) : res codecErr (list Z) :=
  EncodeEnvelope (mkEnvelope (mkGenEvent KindContinuityUncertain "audit" "" "continuity_uncertain" "" at_ at_ 1 None) "" ""
    previousIncarnation knownDurableThrough ContinuityReasonUncleanShutdown).

(** *** The decoder *)

(** [strconv.ParseUint] and [ParseInt] on the literal of a JSON number. *)
Fixpoint digits_value (acc : Z) (bytes : list Z) : option Z :=
  match bytes with
  | [] => Some acc
  | b :: rest => if between 48 57 b then digits_value (acc * 10 + (b - 48)) rest else None
  end.

Definition parse_uint (literal : string) : option Z :=
  match bytes_of literal with
  | [] => None
  | bytes => match digits_value 0 bytes with Some n => if n <=? max_u64 then Some n else None | None => None end
  end.

Definition parse_int (literal : string) : option Z :=
  match bytes_of literal with
  | 45 :: (_ :: _) as rest => match digits_value 0 rest with Some n => if - n >=? min_i64 then Some (- n) else None | None => None end
  | (_ :: _) as bytes => match digits_value 0 bytes with Some n => if n <=? max_i64 then Some n else None | None => None end
  | [] => None
  end.

(** Field names match exactly or under case folding, which maps the long s and the
    Kelvin sign to letters too. *)
Fixpoint fold_name (bytes : list Z) : list Z :=
  match bytes with
  | 0xC5 :: 0xBF :: rest => 115 :: fold_name rest
  | 0xE2 :: 0x84 :: 0xAA :: rest => 107 :: fold_name rest
  | b :: rest => (if between 65 90 b then b + 32 else b) :: fold_name rest
  | [] => []
  end.

Inductive field :=
| FVersion | FKind | FResourceType | FResourceID | FAction | FActor | FProjectUID | FOperationID | FFirstAt | FLastAt | FCount | FAttributes
| FPreviousIncarnation | FKnownDurableThrough | FReason.

Definition field_names : list (string * field) :=
  [("version", FVersion); ("kind", FKind); ("resource_type", FResourceType); ("resource_id", FResourceID); ("action", FAction); ("actor", FActor);
   ("project_uid", FProjectUID); ("operation_id", FOperationID); ("first_at", FFirstAt); ("last_at", FLastAt); ("count", FCount);
   ("attributes", FAttributes); ("previous_incarnation", FPreviousIncarnation); ("known_durable_through", FKnownDurableThrough); ("reason", FReason)].

Definition find_field (name : string) : option field :=
  snd <$> List.find (fun nf => bool_decide (fold_name (bytes_of (fst nf)) = fold_name (bytes_of name))) field_names.

Definition into_text (old : string) (v : jvalue) : option string :=
  match v with JStr s => Some s | JNull => Some old | _ => None end.
Definition into_uint (old : Z) (v : jvalue) : option Z :=
  match v with JNum n => parse_uint n | JNull => Some old | _ => None end.
Definition into_time (old : time) (v : jvalue) : option time :=
  match v with JStr s => parse_time s | JNull => Some old | _ => None end.

Fixpoint into_map (m : gmap string string) (members : list (string * jvalue)) : option (gmap string string) :=
  match members with
  | [] => Some m
  | (k, JStr s) :: rest => into_map (<[k := s]> m) rest
  | (k, JNull) :: rest => into_map (<[k := EmptyString]> m) rest
  | _ => None
  end.

Definition set_field (f : field) (p : payload) (v : jvalue) : option payload :=
  let '(mkPayload ver kind rt rid act actor uid op first lst count attrs prev known reason) := p in
  match f with
  | FVersion => (match v with JNum n => parse_int n | JNull => Some ver | _ => None end) ≫= fun x => Some (mkPayload x kind rt rid act actor uid op first lst count attrs prev known reason)
  | FKind => into_text kind v ≫= fun x => Some (mkPayload ver x rt rid act actor uid op first lst count attrs prev known reason)
  | FResourceType => into_text rt v ≫= fun x => Some (mkPayload ver kind x rid act actor uid op first lst count attrs prev known reason)
  | FResourceID => into_text rid v ≫= fun x => Some (mkPayload ver kind rt x act actor uid op first lst count attrs prev known reason)
  | FAction => into_text act v ≫= fun x => Some (mkPayload ver kind rt rid x actor uid op first lst count attrs prev known reason)
  | FActor => into_text actor v ≫= fun x => Some (mkPayload ver kind rt rid act x uid op first lst count attrs prev known reason)
  | FProjectUID => into_text uid v ≫= fun x => Some (mkPayload ver kind rt rid act actor x op first lst count attrs prev known reason)
  | FOperationID => into_text op v ≫= fun x => Some (mkPayload ver kind rt rid act actor uid x first lst count attrs prev known reason)
  | FFirstAt => into_time first v ≫= fun x => Some (mkPayload ver kind rt rid act actor uid op x lst count attrs prev known reason)
  | FLastAt => into_time lst v ≫= fun x => Some (mkPayload ver kind rt rid act actor uid op first x count attrs prev known reason)
  | FCount => into_uint count v ≫= fun x => Some (mkPayload ver kind rt rid act actor uid op first lst x attrs prev known reason)
  | FAttributes => (match v with JObj members => into_map attrs members | JNull => Some ∅ | _ => None end) ≫= fun x =>
      Some (mkPayload ver kind rt rid act actor uid op first lst count x prev known reason)
  | FPreviousIncarnation => into_uint prev v ≫= fun x => Some (mkPayload ver kind rt rid act actor uid op first lst count attrs x known reason)
  | FKnownDurableThrough => (match v with JNum n => Some <$> parse_uint n | JNull => Some None | _ => None end) ≫= fun x =>
      Some (mkPayload ver kind rt rid act actor uid op first lst count attrs prev x reason)
  | FReason => into_text reason v ≫= fun x => Some (mkPayload ver kind rt rid act actor uid op first lst count attrs prev known x)
  end.

Definition zero_payload : payload := mkPayload 0 "" "" "" "" "" "" "" time_zero time_zero 0 ∅ 0 None "".

Fixpoint set_fields (p : payload) (members : list (string * jvalue)) : option payload :=
  match members with
  | [] => Some p
  | (name, v) :: rest => match find_field name with Some f => set_field f p v ≫= fun p' => set_fields p' rest | None => None end
  end.

Definition payload_of (v : jvalue) : option payload :=
  match v with JObj members => set_fields zero_payload members | JNull => Some zero_payload | _ => None end.

Definition Decode (encoded : list Z) : res codecErr Envelope :=
  if (lenZ encoded =? 0) || (lenZ encoded >? MaxPayloadBytes) then Err ErrInvalidPayload
  else match parse encoded with
  | None => Err ErrInvalidPayload
  | Some v =>
    if negb (no_duplicates v) then Err ErrInvalidPayload
    else match payload_of v with
    | None => Err ErrInvalidPayload
    | Some p =>
      if negb (pl_Version p =? PayloadVersion) then Err ErrInvalidPayload
      else
        let v := mkEnvelope (mkGenEvent (kind_of (pl_Kind p)) (pl_ResourceType p) (pl_ResourceID p) (pl_Action p) (pl_Actor p) (pl_FirstAt p)
          (pl_LastAt p) (pl_Count p) (cloneAttributes (Some (pl_Attributes p)))) (pl_ProjectUID p) (pl_OperationID p) (pl_PreviousIncarnation p)
          (pl_KnownDurableThrough p) (pl_Reason p) in
        if validateEnvelope v then Ok v else Err ErrInvalidPayload
    end
  end.
End Codec.

(** ** The encoding can be read back *)

(** Values as the encoder writes them: texts are valid UTF-8, numbers are decimal. *)
Fixpoint jvalue_ok (v : jvalue) : bool :=
  match v with
  | JNum literal => bool_decide (is_Some (parse_uint literal))
  | JStr text => ValidString text
  | JArr l => forallb jvalue_ok l
  | JObj members => forallb (fun kv => ValidString kv.1 && jvalue_ok kv.2) members
  | _ => true
  end.

Lemma bytes_of_cons c s : bytes_of (String c s) = byte_of c :: bytes_of s.
Proof. done. Qed.

Lemma pretty_digit x : (x < 10)%N -> byte_of (pretty_N_char x) = 48 + Z.of_N x.
Proof.
  rewrite <- (N2Nat.id x). generalize (N.to_nat x). intros n Hn. assert (n < 10)%nat as Hlt by lia. clear Hn.
  do 10 (destruct n as [|n]; [done|]). lia.
Qed.

(** The digits of a number prefixed to a text. *)
Lemma digits_pretty x s : exists k, 0 <= k /\ forall acc,
  digits_value acc (bytes_of (pretty_N_go x s)) = digits_value (acc * 10 ^ k + Z.of_N x) (bytes_of s).
Proof.
  revert s. induction (N.lt_wf_0 x) as [x _ IH]. intros s. destruct (decide (x = 0)%N) as [->|Hx].
  { exists 0. split; [done|]. intros acc. rewrite pretty_N_go_0. f_equal. lia. }
  rewrite pretty_N_go_step by lia. destruct (IH (x `div` 10)%N ltac:(apply N.div_lt; lia) (String (pretty_N_char (x `mod` 10)) s)) as (k & Hk & IHk).
  exists (k + 1). split; [lia|]. intros acc. rewrite IHk, bytes_of_cons. cbn [digits_value].
  pose proof (N.mod_upper_bound x 10 ltac:(lia)) as Hm. pose proof (N.div_mod x 10 ltac:(lia)) as Hd. rewrite pretty_digit by done.
  set (m := (x `mod` 10)%N) in *. set (d := (x `div` 10)%N) in *. clearbody m d. unfold between.
  replace (48 <=? 48 + Z.of_N m) with true by lia. replace (48 + Z.of_N m <=? 57) with true by lia. simpl. f_equal. rewrite Z.pow_add_r by lia. lia.
Qed.

Lemma parse_decimal n : u64_ok n -> parse_uint (decimal n) = Some n.
Proof.
  intros [H0 Hm]. unfold parse_uint, decimal. destruct n as [|p|p]; [reflexivity| |lia].
  change (pretty (Z.pos p)) with (pretty_N_go (N.pos p) EmptyString).
  destruct (digits_pretty (N.pos p) EmptyString) as (k & Hk & Hd). specialize (Hd 0). simpl Z.of_N in Hd. rewrite Z.mul_0_l, Z.add_0_l in Hd.
  destruct (bytes_of (pretty_N_go (N.pos p) EmptyString)) as [|b l] eqn:E.
  - simpl in Hd. discriminate Hd.
  - rewrite Hd. simpl. by replace (Z.pos p <=? max_u64) with true by lia.
Qed.

Lemma into_map_list l m : NoDup (l.*1) -> into_map m (prod_map id JStr <$> l) = Some (list_to_map l ∪ m).
Proof.
  revert m. induction l as [|[k s] l IH]; intros m Hnd; simpl; [by rewrite (left_id_L ∅ _)|].
  apply NoDup_cons in Hnd as [Hk Hnd]. rewrite IH by done. f_equal. rewrite <- insert_union_l. symmetry. apply insert_union_r.
  by apply not_elem_of_list_to_map.
Qed.

Definition sorted_members (m : gmap string string) : list (string * string) := sort_by (fun a b => str_less a.1 b.1) (map_to_list m).

Lemma sorted_members_nodup m : NoDup ((sorted_members m).*1).
Proof. unfold sorted_members. rewrite sort_by_perm. apply NoDup_fst_map_to_list. Qed.

Lemma into_map_members m : into_map ∅ (prod_map id JStr <$> sorted_members m) = Some m.
Proof.
  rewrite into_map_list by apply sorted_members_nodup. rewrite (right_id_L ∅ _). f_equal. rewrite <- (list_to_map_to_list m) at 2.
  apply list_to_map_proper; [apply sorted_members_nodup | apply sort_by_perm].
Qed.

Section RoundTrip.
Context (print : jvalue -> list Z) (parse : list Z -> option jvalue).
Context (format_time : time -> string) (parse_time : string -> option time).
Hypothesis parse_print : forall v, jvalue_ok v = true -> parse (print v) = Some v.
Hypothesis print_nonempty : forall v, print v <> [].
Hypothesis parse_format : forall t, rfc3339_time t = true -> parse_time (format_time t) = Some t /\ ValidString (format_time t) = true.

Lemma set_fields_app p l1 l2 : set_fields parse_time p (l1 ++ l2) = set_fields parse_time p l1 ≫= fun p' => set_fields parse_time p' l2.
Proof.
  revert p. induction l1 as [|[name v] l1 IH]; intros p; simpl; [done|]. destruct (find_field name) as [f|]; [|done].
  destruct (set_field parse_time f p v); simpl; [apply IH | done].
Qed.

Lemma set_member name f v p p' rest : find_field name = Some f -> set_field parse_time f p v = Some p' ->
  set_fields parse_time p ((name, v) :: rest) = set_fields parse_time p' rest.
Proof. intros Hf Hs. simpl. by rewrite Hf, Hs. Qed.

(** A member that is left out when the field has its zero value. *)
Lemma set_optional (b : bool) name f v p p' rest : find_field name = Some f -> set_field parse_time f p v = Some p' -> (b = true -> p' = p) ->
  set_fields parse_time p ((if b then [] else [(name, v)]) ++ rest) = set_fields parse_time p' rest.
Proof. intros Hf Hs Hb. destruct b; [simpl; by rewrite Hb | by apply (set_member name f v p p')]. Qed.

#[local] Arguments set_fields : simpl never.
#[local] Arguments find_field : simpl never.

(** Payloads whose numbers are [uint64] and whose times can be written. *)
Record payload_ok (p : payload) : Prop := {
  po_version : pl_Version p = PayloadVersion;
  po_count : u64_ok (pl_Count p);
  po_prev : u64_ok (pl_PreviousIncarnation p);
  po_known : forall n, pl_KnownDurableThrough p = Some n -> u64_ok n;
  po_first : rfc3339_time (pl_FirstAt p) = true;
  po_last : rfc3339_time (pl_LastAt p) = true;
}.

#[local] Ltac member := erewrite set_member; [|reflexivity|simpl; reflexivity].
#[local] Ltac optional := erewrite set_optional; [|reflexivity|simpl; reflexivity|intros H%bool_decide_eq_true; by rewrite H].

Lemma payload_of_tree p : payload_ok p -> payload_of parse_time (payload_tree format_time p) = Some p.
Proof.
  intros [Hv Hc Hp Hk Hf Hl]. destruct p as [ver kind rt rid act actor uid op first lst count attrs prev known reason]. simpl in *. subst ver.
  apply parse_format in Hf as [Hf _]. apply parse_format in Hl as [Hl _]. apply parse_decimal in Hc, Hp.
  assert (forall n, known = Some n -> parse_uint (decimal n) = Some n) as Hk' by (intros n Hn; by apply parse_decimal, Hk).
  unfold payload_of, payload_tree, zero_payload, text_field. cbn [pl_Version pl_Kind pl_ResourceType pl_ResourceID pl_Action pl_Actor pl_ProjectUID
    pl_OperationID pl_FirstAt pl_LastAt pl_Count pl_Attributes pl_PreviousIncarnation pl_KnownDurableThrough pl_Reason].
  cbn [app]. do 3 member. optional. cbn [app]. member. do 3 optional. cbn [app].
  do 3 (erewrite set_member; [|reflexivity|simpl; rewrite ?Hf, ?Hl, ?Hc; simpl; reflexivity]).
  erewrite set_optional; [|reflexivity|simpl; fold (sorted_members attrs); rewrite into_map_members; simpl; reflexivity|intros H%bool_decide_eq_true; by rewrite H].
  erewrite set_optional; [|reflexivity|simpl; rewrite Hp; simpl; reflexivity|intros H%Z.eqb_eq; by rewrite H].
  assert (forall p l, pl_KnownDurableThrough p = None -> set_fields parse_time p (match known with None => [] | Some n => [("known_durable_through", JNum (decimal n))] end ++ l) =
    set_fields parse_time (mkPayload (pl_Version p) (pl_Kind p) (pl_ResourceType p) (pl_ResourceID p) (pl_Action p) (pl_Actor p) (pl_ProjectUID p)
      (pl_OperationID p) (pl_FirstAt p) (pl_LastAt p) (pl_Count p) (pl_Attributes p) (pl_PreviousIncarnation p) known (pl_Reason p)) l) as Hknown.
  { intros p l Hn. destruct known as [n|]; [|destruct p; simpl in *; by subst]. cbn [app]. destruct p. by erewrite set_member; [|reflexivity|simpl; rewrite (Hk' n eq_refl); simpl; reflexivity]. }
  rewrite Hknown by reflexivity. rewrite <- (app_nil_r (if str_empty reason then _ else _)). optional. reflexivity.
Qed.

(** The texts of a payload are valid UTF-8. *)
Record texts_ok (p : payload) : Prop := {
  to_texts : Forall (fun s => ValidString s = true)
    [pl_Kind p; pl_ResourceType p; pl_ResourceID p; pl_Action p; pl_Actor p; pl_ProjectUID p; pl_OperationID p; pl_Reason p];
  to_attributes : forall k s, pl_Attributes p !! k = Some s -> ValidString k = true /\ ValidString s = true;
}.

Lemma elem_sorted_members m k s : (k, s) ∈ sorted_members m <-> m !! k = Some s.
Proof. unfold sorted_members. rewrite sort_by_perm. apply elem_of_map_to_list. Qed.

Lemma tree_ok p : payload_ok p -> texts_ok p -> jvalue_ok (payload_tree format_time p) = true.
Proof.
  intros [Hv Hc Hp Hk Hf Hl] [Ht Ha]. repeat (apply Forall_cons in Ht as [? Ht]).
  apply parse_format in Hf as [_ Hf]. apply parse_format in Hl as [_ Hl].
  set (ok := fun kv : string * jvalue => ValidString kv.1 && jvalue_ok kv.2 = true).
  assert (forall k v, ValidString k = true -> jvalue_ok v = true -> ok (k, v)) as Hok by (intros k v Hk1 Hv1; unfold ok; simpl; by rewrite Hk1, Hv1).
  assert (forall (b : bool) l, Forall ok l -> Forall ok (if b then [] else l)) as Hopt by (by intros []).
  assert (forall n, u64_ok n -> jvalue_ok (JNum (decimal n)) = true) as Hnum by (intros n Hn; cbn [jvalue_ok]; by rewrite (parse_decimal n Hn)).
  unfold payload_tree, text_field. cbn [jvalue_ok]. apply forallb_forall. intros kv Hin%list_elem_of_In. revert kv Hin. apply Forall_forall.
  rewrite Hv.
  repeat (apply Forall_app; split); try apply Hopt; repeat (apply Forall_cons; split); try apply Forall_nil; try (apply Hok; [reflexivity|]); try done; auto.
  - apply forallb_forall. intros [k v] Hin%list_elem_of_In. apply list_elem_of_fmap in Hin as ([k' s] & [= -> ->] & Hin).
    apply elem_sorted_members, Ha in Hin as [H8 H9]. simpl. by rewrite H8, H9.
  - destruct (pl_KnownDurableThrough p) as [n|]; [|constructor]. apply Forall_cons. split; [|constructor]. apply Hok; [reflexivity | auto].
Qed.

Lemma tree_no_duplicates p : no_duplicates (payload_tree format_time p) = true.
Proof.
  unfold payload_tree. cbn [no_duplicates]. apply andb_true_iff. split.
  - apply bool_decide_eq_true. eapply (sublist_NoDup _ (fst <$> field_names)); [by apply (bool_decide_unpack _); vm_compute|].
    change (fst <$> field_names) with (["version"; "kind"; "resource_type"] ++ ["resource_id"] ++ ["action"] ++ ["actor"] ++ ["project_uid"] ++ ["operation_id"]
      ++ ["first_at"; "last_at"; "count"] ++ ["attributes"] ++ ["previous_incarnation"] ++ ["known_durable_through"] ++ ["reason"]).
    assert (forall (b : bool) (name : string) (v : jvalue), ((if b then [] else [(name, v)]).*1) `sublist_of` [name]) as Hopt
      by (intros [] name v; simpl; [apply sublist_nil_l | done]).
    unfold text_field. rewrite !fmap_app. repeat apply sublist_app; try apply Hopt; try done. by destruct (pl_KnownDurableThrough p); [|apply sublist_nil_l].
  - unfold text_field. rewrite !forallb_app, !andb_true_iff. split_and!; try (by case_if); try done; [|by destruct (pl_KnownDurableThrough p)].
    case_if; [done|]. cbn [forallb no_duplicates snd]. rewrite andb_true_r. apply andb_true_iff. split.
    + apply bool_decide_eq_true. rewrite <- list_fmap_compose. exact (sorted_members_nodup (pl_Attributes p)).
    + apply forallb_forall. intros [k v] Hin%list_elem_of_In. by apply list_elem_of_fmap in Hin as ([k' s] & [= -> ->] & _).
Qed.

(** What is read back: an empty set of attributes as none. *)
Definition normalized (v : Envelope) : Envelope :=
  let e := nv_Event v in
  mkEnvelope (mkGenEvent (ge_Kind e) (ge_ResourceType e) (ge_ResourceID e) (ge_Action e) (ge_Actor e) (ge_FirstAt e) (ge_LastAt e) (ge_Count e)
    (cloneAttributes (ge_Attributes e))) (nv_ProjectUID v) (nv_OperationID v) (nv_PreviousIncarnation v) (nv_KnownDurableThrough v) (nv_Reason v).

Lemma clone_clone a : cloneAttributes (Some (default ∅ (cloneAttributes a))) = cloneAttributes a.
Proof. destruct a as [m|]; simpl; repeat (case_bool_decide; simpl in * ); congruence. Qed.

Lemma attribute_list_clone a : attribute_list (cloneAttributes a) = attribute_list a.
Proof. destruct a as [m|]; simpl; [|done]. case_bool_decide as H; [|done]. subst. simpl. by rewrite map_to_list_empty. Qed.

Lemma validate_normalized v : validateEnvelope (normalized v) = validateEnvelope v.
Proof.
  unfold validateEnvelope, kind_valid, normalized, hasContinuityFields. destruct v as [[kind rt rid act actor first lst count attrs] uid op prev known reason].
  cbn -[attribute_list cloneAttributes Managed]. rewrite !attribute_list_clone.
  assert (is_ok (Managed (mkSignal rt rid act first (cloneAttributes attrs)) actor) = is_ok (Managed (mkSignal rt rid act first attrs) actor)) as ->; [|done].
  unfold Managed, validateSignal. simpl. by repeat case_if.
Qed.

Lemma validText_utf8 s n b : validText s n b = true -> ValidString s = true.
Proof. unfold validText. intros H. by bool_to_prop. Qed.

(** The texts of a valid envelope are UTF-8, and its kind survives as text. *)
Lemma valid_texts v : validateEnvelope v = true -> kind_of (kind_text (ge_Kind (nv_Event v))) = ge_Kind (nv_Event v) /\
  Forall (fun s => ValidString s = true) [kind_text (ge_Kind (nv_Event v)); ge_ResourceType (nv_Event v); ge_ResourceID (nv_Event v); ge_Action (nv_Event v);
    ge_Actor (nv_Event v); nv_ProjectUID v; nv_OperationID v; nv_Reason v] /\
  forall k s, default ∅ (cloneAttributes (ge_Attributes (nv_Event v))) !! k = Some s -> ValidString k = true /\ ValidString s = true.
Proof.
  unfold validateEnvelope. destruct v as [[kind rt rid act actor first lst count attrs] uid op prev known reason]. simpl. intros H. bool_to_prop.
  repeat match goal with H : validText _ _ _ = true |- _ => apply validText_utf8 in H end.
  match goal with H : kind_valid _ = true |- _ => rename H into Hk end. match goal with H : forallb _ _ = true |- _ => rename H into Hattr end.
  assert (ValidString "" = true) as He by reflexivity.
  assert (kind_of (kind_text kind) = kind /\ ValidString (kind_text kind) = true /\ ValidString rid = true /\ ValidString reason = true) as (Hkd & Hkt & Hrid & Hreason).
  { unfold kind_valid, hasContinuityFields in Hk. simpl in Hk. destruct kind as [| | |text]; bool_to_prop; unfold str_empty in *; bool_to_prop; subst;
      repeat match goal with H : validText _ _ _ = true |- _ => apply validText_utf8 in H end; try by split_and!.
    match goal with H : KindOther text = _ |- _ => injection H as -> end. by split_and!. }
  split_and!; [done | by repeat constructor|]. intros k s Hks. destruct attrs as [m|]; simpl in *; [|by rewrite lookup_empty in Hks].
  case_bool_decide; simpl in Hks; [by rewrite lookup_empty in Hks|]. rewrite forallb_forall in Hattr.
  apply elem_of_map_to_list, list_elem_of_In in Hks. specialize (Hattr _ Hks). simpl in Hattr. bool_to_prop. split; by eapply validText_utf8.
Qed.

Lemma decode_encoded v b :
  u64_ok (ge_Count (nv_Event v)) -> u64_ok (nv_PreviousIncarnation v) -> (forall n, nv_KnownDurableThrough v = Some n -> u64_ok n) ->
  EncodeEnvelope print format_time v = Ok b -> Decode parse parse_time b = Ok (normalized v).
Proof.
  intros Hc Hp Hk. unfold EncodeEnvelope. case_if; [done|]. case_if; [done|]. cbv zeta. set (p := mkPayload _ _ _ _ _ _ _ _ _ _ _ _ _ _ _).
  case_if; [done|]. intros [= <-]. bool_to_prop. match goal with H : validateEnvelope v = true |- _ => rename H into Hv end.
  destruct (valid_texts v Hv) as (Hkind & Htexts & Hattrs).
  assert (payload_ok p) as Hpok by (by split). assert (texts_ok p) as Htok by (by split).
  unfold Decode. pose proof (print_nonempty (payload_tree format_time p)) as Hne.
  replace (lenZ (print (payload_tree format_time p)) =? 0) with false.
  2: { symmetry. apply Z.eqb_neq. unfold lenZ. destruct (print _); [done | simpl; lia]. }
  replace (lenZ (print (payload_tree format_time p)) >? MaxPayloadBytes) with false by (symmetry; rewrite Z.gtb_ltb; by apply Z.ltb_ge). cbn [orb].
  rewrite parse_print by (by apply tree_ok). rewrite tree_no_duplicates, payload_of_tree by done. cbn [negb]. unfold p.
  cbn [pl_Version pl_Kind pl_ResourceType pl_ResourceID pl_Action pl_Actor pl_ProjectUID pl_OperationID pl_FirstAt pl_LastAt pl_Count pl_Attributes
    pl_PreviousIncarnation pl_KnownDurableThrough pl_Reason]. rewrite Hkind, clone_clone. cbn [Z.eqb PayloadVersion negb].
  fold (normalized v). by rewrite validate_normalized, Hv.
Qed.
End RoundTrip.


(** [C35] What is encoded is read back. Whenever an envelope with [uint64] counts is
    encoded, the payload is not empty and at most [MaxPayloadBytes] long, and the
    decoder returns the same envelope, an empty attribute map as nil; and the
    decoder returns only envelopes that [validateEnvelope] accepts. JSON text and
    RFC 3339 times that were written are read back as they were: that is
    [encoding/json]'s and [time]'s part. *)
Theorem codec_roundtrip (print : jvalue -> list Z) (parse : list Z -> option jvalue) (format_time : time -> string) (parse_time : string -> option time)
  (parse_print : forall v, jvalue_ok v = true -> parse (print v) = Some v) (print_nonempty : forall v, print v <> [])
  (parse_format : forall t, rfc3339_time t = true -> parse_time (format_time t) = Some t /\ ValidString (format_time t) = true) v b :
  u64_ok (ge_Count (nv_Event v)) -> u64_ok (nv_PreviousIncarnation v) -> (forall n, nv_KnownDurableThrough v = Some n -> u64_ok n) ->
  EncodeEnvelope print format_time v = Ok b ->
  0 < lenZ b <= MaxPayloadBytes /\ Decode parse parse_time b = Ok (normalized v) /\
  (forall b' v', Decode parse parse_time b' = Ok v' -> validateEnvelope v' = true).
Proof.
  intros Hc Hp Hk E. split; [|split; [by eapply decode_encoded|]].
  - revert E. unfold EncodeEnvelope. case_if; [done|]. case_if; [done|]. cbv zeta. destruct (_ >? _) eqn:Hlen; [done|]. intros [= <-].
    rewrite Z.gtb_ltb in Hlen. apply Z.ltb_ge in Hlen. split; [|done]. match goal with |- context [print ?t] => pose proof (print_nonempty t) as Hne end.
    unfold lenZ. destruct (print _); [done | simpl; lia].
  - intros b' v'. unfold Decode. case_if; [done|]. destruct (parse b') as [t|]; [|done]. case_if; [done|]. destruct (payload_of parse_time t) as [p|]; [|done].
    case_if; [done|]. cbv zeta. destruct (validateEnvelope _) eqn:Hv; [|done]. by intros [= <-].
Qed.

(** *** A concrete encoding *)

(** Trees and times written as the number of a tree and as a text of digits. *)
Fixpoint tree_of (v : jvalue) : gen_tree (bool + string) :=
  match v with
  | JNull => GenNode 0 []
  | JBool b => GenNode 1 [GenLeaf (inl b)]
  | JNum s => GenNode 2 [GenLeaf (inr s)]
  | JStr s => GenNode 3 [GenLeaf (inr s)]
  | JArr l => GenNode 4 (tree_of <$> l)
  | JObj l => GenNode 5 ((fun kv => GenNode 6 [GenLeaf (inr kv.1); tree_of kv.2]) <$> l)
  end.

Fixpoint of_tree (t : gen_tree (bool + string)) : jvalue :=
  match t with
  | GenNode 1 [GenLeaf (inl b)] => JBool b
  | GenNode 2 [GenLeaf (inr s)] => JNum s
  | GenNode 3 [GenLeaf (inr s)] => JStr s
  | GenNode 4 l => JArr (of_tree <$> l)
  | GenNode 5 l => JObj ((fun m => match m with GenNode 6 [GenLeaf (inr k); t'] => (k, of_tree t') | _ => (EmptyString, JNull) end) <$> l)
  | _ => JNull
  end.

Fixpoint of_tree_of (v : jvalue) : of_tree (tree_of v) = v.
Proof.
  destruct v as [| | | |l|l]; [done..| |].
  - cbn [tree_of of_tree]. f_equal. induction l as [|x l IH]; [done|]. rewrite !fmap_cons, IH. cbn [fst snd]. by rewrite of_tree_of.
  - cbn [tree_of of_tree]. f_equal. induction l as [|[k x] l IH]; [done|]. rewrite !fmap_cons, IH. cbn [fst snd]. by rewrite of_tree_of.
Qed.

(** The number in base 256. *)
Fixpoint base256 (fuel : nat) (n : Z) : list Z :=
  match fuel with
  | O => []
  | S fuel' => if n =? 0 then [] else n mod 256 :: base256 fuel' (n / 256)
  end.
Fixpoint of_base256 (bytes : list Z) : Z := match bytes with [] => 0 | b :: rest => b + 256 * of_base256 rest end.

Lemma of_base256_base256 fuel : forall n, 0 <= n < 2 ^ Z.of_nat fuel -> of_base256 (base256 fuel n) = n.
Proof.
  induction fuel as [|fuel IH]; intros n Hn; [simpl in *; lia|]. cbn [base256]. destruct (n =? 0) eqn:E; [simpl; lia|]. cbn [of_base256].
  pose proof (Z.div_mod n 256 ltac:(lia)) as Hd. pose proof (Z.mod_pos_bound n 256 ltac:(lia)) as Hm.
  rewrite IH; [lia|]. rewrite Nat2Z.inj_succ, Z.pow_succ_r in Hn by lia. lia.
Qed.

Definition number_print (v : jvalue) : list Z := let n := encode (tree_of v) in base256 (Pos.size_nat n) (Zpos n).
Definition number_parse (b : list Z) : option jvalue := of_tree <$> decode (Z.to_pos (of_base256 b)).

Lemma pos_size_bound p : Zpos p < 2 ^ Z.of_nat (Pos.size_nat p).
Proof. induction p as [p IH|p IH|]; [| |done]; cbn [Pos.size_nat]; rewrite Nat2Z.inj_succ, Z.pow_succ_r by lia; lia. Qed.

Lemma number_parse_print v : jvalue_ok v = true -> number_parse (number_print v) = Some v.
Proof.
  intros _. unfold number_parse, number_print. cbv zeta. rewrite of_base256_base256 by (split; [done | apply pos_size_bound]).
  simpl Z.to_pos. rewrite decode_encode. simpl. by rewrite of_tree_of.
Qed.

Lemma number_print_nonempty v : number_print v <> [].
Proof. unfold number_print. cbv zeta. by destruct (encode (tree_of v)). Qed.

Fixpoint bits_text (p : positive) : string :=
  match p with xH => "" | xO p' => String "0" (bits_text p') | xI p' => String "1" (bits_text p') end.
Fixpoint text_bits (s : string) : positive :=
  match s with EmptyString => xH | String c s' => if (c =? "0")%char then xO (text_bits s') else xI (text_bits s') end.
Definition bits_format (t : time) : string := bits_text (encode t).
Definition bits_parse (s : string) : option time := decode (text_bits s).

Lemma text_bits_text p : text_bits (bits_text p) = p.
Proof. by induction p as [p IH|p IH|]; simpl; rewrite ?IH. Qed.
Lemma bits_text_valid p : ValidString (bits_text p) = true.
Proof. by induction p. Qed.
Lemma bits_parse_format t : rfc3339_time t = true -> bits_parse (bits_format t) = Some t /\ ValidString (bits_format t) = true.
Proof. intros _. unfold bits_parse, bits_format. rewrite text_bits_text, decode_encode. split; [done | apply bits_text_valid]. Qed.

Definition demo_envelope : Envelope :=
  mkEnvelope (mkGenEvent KindManaged "container" "web" "container.start" "" 1 1 1 (Some {["status" := "success"; "phase" := "FINALIZING"]})) "" "op-1" 0 None "".

Lemma codec_roundtrip_witness :
  exists b, EncodeEnvelope number_print bits_format demo_envelope = Ok b /\ Decode number_parse bits_parse b = Ok demo_envelope.
Proof.
  destruct (EncodeEnvelope number_print bits_format demo_envelope) as [b|e] eqn:E; [|exfalso; vm_compute in E; discriminate E].
  exists b. split; [reflexivity|]. change (Ok demo_envelope) with (Ok (E := codecErr) (normalized demo_envelope)) || replace (normalized demo_envelope) with demo_envelope by reflexivity.
  apply (codec_roundtrip number_print number_parse bits_format bits_parse number_parse_print number_print_nonempty bits_parse_format demo_envelope b);
    [split; discriminate | split; discriminate | discriminate | exact E].
Defined.
