(* ===== verification/ManagedAudit.v ===== *)
(** * Delivery of audit records

    Models [internal/auditevents/appender.go], [internal/managedaudit/delivery.go]
    and [internal/auditsync/decoder.go]: the appender that writes encoded events
    to the agent's log, the delivery of a terminal operation as one managed
    record, and the server's decoder of a log record. The printer and parser of
    JSON text and of RFC 3339 times are arguments, as in the codec. *)

From Stdlib Require Import Ascii.
From stdpp Require Import pretty.
From S2P Require Import Prelude Cursor WalFrame WalNames Wal WalInv WalProps WalOpen WalSpec WalDisk AuditStore AuditSync GoText WalOnce WalProgress AuditGen Operation EngineEvo AuditEvents.

(** ** The appender *)

(** What is behind [Appender.wal]: nothing, a log that only appends, or the
    [auditwal] log. *)
Inductive walHandle := NilWAL | AppendOnlyWAL | IdempotentWAL.

Record Appender := mkAppender { ap_wal : walHandle }.

Inductive appErr := ErrAppenderUnavailable | AppAudit (e : codecErr) | AppWal (e : walErr).

Definition NewAppender (wal : walHandle) : res appErr Appender :=
  match wal with NilWAL => Err ErrAppenderUnavailable | _ => Ok (mkAppender wal) end.

Definition appM := M osys appErr.

(** A call of the log; the record that accompanies an error is dropped. *)
Definition in_log {A} (m : onceM A) : appM A := fun o =>
  let '(r, o') := m o in (match r with Ok a => Ok a | Err e => Err (AppWal e) end, o').

Definition log_append (now : time) (payload : list Z) : onceM walRecord :=
  let* appended := on_wal (Append now payload) in
  match snd appended with Some e => fail e | None => ret (fst appended) end.

Definition encoded (r : res codecErr (list Z)) : appM (list Z) := of_res (match r with Ok b => Ok b | Err e => Err (AppAudit e) end).

Definition unavailable (appender : option Appender) : bool :=
  match appender with None => true | Some a => match ap_wal a with NilWAL => true | _ => false end end.
Definition idempotent (appender : option Appender) : bool :=
  match appender with Some (mkAppender IdempotentWAL) => true | _ => false end.

Definition managedOnceKey (operationID : string) : string := ("managed-operation:" ++ operationID)%string.

Section Appending.
Context (print : jvalue -> list Z) (format_time : time -> string).

Definition AppendEnvelope (appender : option Appender) (now : time) (envelope : Envelope) : appM walRecord :=
  if* unavailable appender then ErrAppenderUnavailable end;
  let* payload := encoded (EncodeEnvelope print format_time envelope) in
  in_log (log_append now payload).

Definition Append_ (appender : option Appender) (now : time) (event : AuditGen.Event) : appM walRecord :=
  AppendEnvelope appender now (mkEnvelope event "" "" 0 None "").

Definition AppendManaged (appender : option Appender) (now : time) (signal : Signal) (actor projectUID operationID : string) : appM walRecord :=
  match Managed signal actor with
  | Err e => fail (AppAudit (CodecAudit e))
  | Ok event => AppendEnvelope appender now (mkEnvelope event projectUID operationID 0 None "")
  end.

Definition AppendManagedOnce (appender : option Appender) (now : time) (signal : Signal) (actor projectUID operationID : string) : appM walRecord :=
  if* unavailable appender then ErrAppenderUnavailable end;
  if* negb (idempotent appender) then ErrAppenderUnavailable end;
  let* payload := encoded (EncodeManaged print format_time signal actor projectUID operationID) in
  in_log (AppendOnce now (managedOnceKey operationID) payload).

Definition ConfirmManaged (appender : option Appender) (operationID : string) : appM unit :=
  if* unavailable appender then ErrAppenderUnavailable end;
  if* negb (idempotent appender) then ErrAppenderUnavailable end;
  in_log (ForgetOnce (managedOnceKey operationID)).

Definition AppendContinuityUncertain (appender : option Appender) (now : time) (previousIncarnation : Z) (knownDurableThrough : option Z) (at_ : time) : appM walRecord :=
  if* unavailable appender then ErrAppenderUnavailable end;
  let* payload := encoded (EncodeContinuityUncertain print format_time previousIncarnation knownDurableThrough at_) in
  in_log (log_append now payload).
End Appending.

(** ** Terminal operations *)

Definition type_text (t : Type_) : string :=
  match t with
  | TypeContainerStart => "container.start" | TypeContainerStop => "container.stop" | TypeContainerRestart => "container.restart"
  | TypeContainerRemove => "container.remove" | TypeComposePull => "compose.pull" | TypeComposeUp => "compose.up"
  | TypeComposeDown => "compose.down" | TypeComposeStart => "compose.start" | TypeComposeStop => "compose.stop"
  | TypeComposeRestart => "compose.restart" | TypeComposeFileWrite => "compose.file.write" | TypeEnvWrite => "env.write"
  | TypeOverrideWrite => "override.write" | TypeBackupCreate => "backup.create" | TypeBackupRestore => "backup.restore"
  | TypeDiscoveryRescan => "discovery.rescan" | TypeOther s => s
  end.

Definition status_text (s : Status) : string :=
  match s with
  | StatusRequested => "requested" | StatusDispatched => "dispatched" | StatusRunning => "running" | StatusSuccess => "success"
  | StatusFailed => "failed" | StatusCanceled => "canceled" | StatusInterrupted => "interrupted" | StatusUnknown => "unknown"
  | StatusRejected => "rejected" | StatusOther s => s
  end.

Definition phase_text (p : Phase) : string :=
  match p with
  | PhasePreparing => "PREPARING" | PhaseExecuting => "EXECUTING" | PhaseCommitting => "COMMITTING" | PhaseFinalizing => "FINALIZING"
  | PhaseOther s => s
  end.

Definition cancel_reason_text (c : CancelReason) : string :=
  match c with CancelReasonNone => "" | CancelReasonUser => "USER" | CancelReasonTimeout => "TIMEOUT" | CancelReasonAgentShutdown => "AGENT_SHUTDOWN" end.

Definition bool_text (b : bool) : string := if b then "true" else "false".

Definition signalFor (record : Record_) : Signal * string :=
  let '(resourceType, resourceID, projectUID) :=
    match r_Type record with
    | TypeContainerStart | TypeContainerStop | TypeContainerRestart | TypeContainerRemove => ("container", r_Target record, "")
    | TypeDiscoveryRescan => ("agent", "discovery", "")
    | _ => ("project", r_ProjectKey record, r_ProjectKey record)
    end in
  let '(resourceType, resourceID) := if str_empty resourceID then ("operation", r_OperationID record) else (resourceType, resourceID) in
  let attributes : gmap string string :=
    <["status" := status_text (r_Status record)]> (<["phase" := phase_text (r_Phase record)]>
      (<["revision" := decimal (r_Revision record)]> {["partial_effects_possible" := bool_text (r_PartialEffectsPossible record)]})) in
  let attributes :=
    if str_empty (cancel_reason_text (r_CancelReason record)) then attributes
    else <["cancel_reason" := cancel_reason_text (r_CancelReason record)]> attributes in
  (mkSignal resourceType resourceID (type_text (r_Type record)) (r_FinishedAt record) (Some attributes), projectUID).

Section Delivering.
Context (print : jvalue -> list Z) (format_time : time -> string).

Definition DeliverTerminal (appender : Appender) (now : time) (record : Record_) : appM unit :=
  let '(signal, projectUID) := signalFor record in
  AppendManagedOnce print format_time (Some appender) now signal "" projectUID (r_OperationID record) ;;;
  ret tt.

Definition ConfirmTerminal (appender : Appender) (operationID : string) : appM unit := ConfirmManaged (Some appender) operationID.

(** The payload a terminal record is delivered as. *)
Definition terminal_payload (record : Record_) : res codecErr (list Z) :=
  EncodeManaged print format_time (fst (signalFor record)) "" (snd (signalFor record)) (r_OperationID record).
End Delivering.

(** ** The server's decoder *)

(** [CanonicalEventDecoder.Decode] *)
Definition canonical_decode (parse : list Z -> option jvalue) (parse_time : string -> option time) (info : SessionInfo) (record : AuditRecord) : option AuditStore.Event :=
  match Decode parse parse_time (ar_Payload record) with
  | Err _ => None
  | Ok envelope =>
    let event := nv_Event envelope in
    Some (mkEvent (in_AgentID info) (mkCursor (ar_Incarnation record) (ar_Sequence record)) (ge_FirstAt event) (kind_text (ge_Kind event)) (ge_Actor event)
      (nv_ProjectUID envelope) (nv_OperationID envelope) (ge_ResourceType event) (ge_ResourceID event) (ge_Action event) (string_of_bytes (ar_Payload record)))
  end.

(** ** One record per operation *)

(** A terminal record may still change its output tail and its delivery state:
    neither is part of the audit record. *)
Lemma frozen_signal r r' : frozen r r' -> signalFor r' = signalFor r /\ r_OperationID r' = r_OperationID r.
Proof. intros ->. done. Qed.

Lemma AppendManagedOnce_run print format_time now signal actor uid id o :
  AppendManagedOnce print format_time (Some (mkAppender IdempotentWAL)) now signal actor uid id o =
  match EncodeManaged print format_time signal actor uid id with
  | Ok p => in_log (AppendOnce now (managedOnceKey id) p) o
  | Err e => (Err (AppAudit e), o)
  end.
Proof. unfold AppendManagedOnce. simpl. unfold bind, encoded, of_res. by destruct (EncodeManaged _ _ _ _ _ _). Qed.

Lemma DeliverTerminal_run print format_time now r r' p o : frozen r r' -> terminal_payload print format_time r = Ok p ->
  DeliverTerminal print format_time (mkAppender IdempotentWAL) now r' o =
  let '(res, o') := AppendOnce now (managedOnceKey (r_OperationID r)) p o in (match res with Ok _ => Ok tt | Err e => Err (AppWal e) end, o').
Proof.
  intros [Hs Hid]%frozen_signal Hp. unfold terminal_payload in Hp. unfold DeliverTerminal. rewrite Hs, Hid. destruct (signalFor r) as [signal uid].
  cbn [fst snd] in Hp. unfold bind. rewrite AppendManagedOnce_run, Hp. unfold in_log. by destruct (AppendOnce _ _ _ o) as [[]].
Qed.

Lemma EncodeManaged_ok print format_time signal uid id p : EncodeManaged print format_time signal "" uid id = Ok p ->
  exists event, Managed signal "" = Ok event /\ EncodeEnvelope print format_time (mkEnvelope event uid id 0 None "") = Ok p /\
    event = mkGenEvent KindManaged (sg_ResourceType signal) (sg_ResourceID signal) (sg_Action signal) "" (sg_OccurredAt signal) (sg_OccurredAt signal) 1 (sg_Attributes signal).
Proof.
  unfold EncodeManaged. destruct (Managed signal "") as [event|] eqn:E; [|done]. intros H. exists event. split_and!; [done | done|].
  revert E. unfold Managed. case_if; [done|]. case_if; [done|]. cbv zeta. case_if; [done|]. by intros [= <-].
Qed.

Lemma signal_attributes r : exists m, sg_Attributes (fst (signalFor r)) = Some m /\ m !! "status" = Some (status_text (r_Status r)) /\
  m !! "phase" = Some (phase_text (r_Phase r)) /\ m !! "revision" = Some (decimal (r_Revision r)).
Proof.
  unfold signalFor. destruct (match r_Type r with TypeContainerStart | TypeContainerStop => _ | _ => _ end) as [[rt rid] uid]. destruct (if str_empty rid then _ else _) as [rt' rid'].
  eexists. split; [reflexivity|]. by destruct (r_CancelReason r); simpl; simplify_map_eq.
Qed.

Lemma signal_action r : sg_Action (fst (signalFor r)) = type_text (r_Type r) /\ sg_OccurredAt (fst (signalFor r)) = r_FinishedAt r.
Proof.
  unfold signalFor. destruct (match r_Type r with TypeContainerStart | TypeContainerStop => _ | _ => _ end) as [[rt rid] uid]. by destruct (if str_empty rid then _ else _) as [rt' rid'].
Qed.

(** [C4] The log holds at most one audit record of a terminal operation, and it
    says what happened. Take a terminal record that can be encoded, and any life of
    the log - failing writes writing nothing, reopenings with a size limit not
    smaller - in which its key is used for deliveries of this operation only and is
    not confirmed: whatever output tail and delivery state the record has when a
    delivery is attempted, the attempt is a step of such a life with the same
    payload; it appends only when the log holds no copy, and nothing after a
    delivery succeeded, so that failed attempts, crashes and repetitions never give
    the log a second copy. (A copy that the Server acknowledged and the log deleted
    before any attempt reported success is appended again.) The server decodes the
    payload to an event with the agent and the cursor of the log record, of kind
    MANAGED, with the operation's identifier, type and finishing time. *)
Theorem terminal_delivered_once (print : jvalue -> list Z) (parse : list Z -> option jvalue) (format_time : time -> string) (parse_time : string -> option time)
  (parse_print : forall v, jvalue_ok v = true -> parse (print v) = Some v) (print_nonempty : forall v, print v <> [])
  (parse_format : forall t, rfc3339_time t = true -> parse_time (format_time t) = Some t /\ ValidString (format_time t) = true) r p o es rs :
  terminal_payload print format_time r = Ok p -> once_life (managedOnceKey (r_OperationID r)) p o es rs ->
  (forall now r' result o', frozen r r' -> i64_ok now -> DeliverTerminal print format_time (mkAppender IdempotentWAL) now r' o = (result, o') ->
     (exists rs', once_life (managedOnceKey (r_OperationID r)) p o' (es ++ once_new now p o o') (rs ++ rs') /\ (result = Ok tt <-> rs' <> [])) /\
     (copies p (contents (os_sys o')) <= 1)%nat /\
     (once_new now p o o' = [] \/ (copies p (contents (os_sys o)) = 0%nat /\ rs = []))) /\
  (exists v, Decode parse parse_time p = Ok v /\ exists m, ge_Attributes (nv_Event v) = Some m /\ m !! "status" = Some (status_text (r_Status r))) /\
  (forall info c at_, exists e, canonical_decode parse parse_time info (mkAuditRecord (Incarnation c) (Seq c) at_ p) = Some e /\
     e_AgentID e = in_AgentID info /\ e_Cursor e = c /\ e_Kind e = "MANAGED" /\ e_OperationID e = r_OperationID r /\ e_Action e = type_text (r_Type r) /\
     e_OccurredAt e = r_FinishedAt r).
Proof.
  intros Hp Hl. split.
  { intros now r' result o' Hf Ht. rewrite (DeliverTerminal_run _ _ _ _ _ _ _ Hf Hp). destruct (AppendOnce _ _ p o) as [res o1] eqn:E. intros [= <- <-].
    pose proof (once_call _ _ now o es rs res o1 Hl Ht E) as Hl'. split_and!.
    - exists (match res with Ok rec => [rec] | Err _ => [] end). split; [done|]. by destruct res.
    - destruct (once_life_inv _ _ _ _ _ Hl') as [_ (ess & Hh & _ & Hc & _) _ _]. by rewrite (holds_contents _ _ Hh).
    - destruct rs as [|x rs]; [|left; by eapply once_settled]. destruct (once_absent _ _ _ _ _ _ _ _ (once_life_inv _ _ _ _ _ Hl) Ht E); auto. }
  unfold terminal_payload in Hp. apply EncodeManaged_ok in Hp as (event & _ & Hp & ->).
  apply (decode_encoded print parse format_time parse_time) in Hp; try done.   destruct (signal_attributes r) as (m & Hm & Hst & _). destruct (signal_action r) as [Ha Ho]. split.
  - eexists. split; [exact Hp|]. unfold normalized. simpl. rewrite Hm. simpl. exists m. rewrite bool_decide_eq_false_2; [done|]. intros ->. done.
  - intros info c at_. unfold canonical_decode. cbn [ar_Payload ar_Incarnation ar_Sequence]. rewrite Hp. eexists. split; [reflexivity|]. unfold normalized. destruct c. simpl. by rewrite Ha, Ho.
Qed.

(** ** Which terminal records can be encoded *)

Lemma contains_nul s : contains_any [0%nat] s = contains_byte [0] s.
Proof.
  unfold contains_any, contains_byte. induction s as [|c s IH]; [done|]. rewrite bytes_of_cons. simpl String.list_ascii_of_string. simpl existsb at 1 3. f_equal; [|exact IH].
  rewrite !orb_false_r. unfold byte_of. destruct (nat_of_ascii c); done.
Qed.

Lemma digits_text acc bytes n : digits_value acc bytes = Some n -> utf8_scan None bytes = true /\ existsb (fun b => existsb (Z.eqb b) [0]) bytes = false.
Proof.
  set (f := fun b => existsb (Z.eqb b) [0]). assert (forall b l, existsb f (b :: l) = (b =? 0) || false || existsb f l) as Hf by done. clearbody f.
  revert acc. induction bytes as [|b bytes IH]; intros acc; [done|]. cbn [digits_value]. unfold between. destruct (_ && _) eqn:Hb; [|done]. intros H.
  apply IH in H as [H1 H2]. bool_to_prop. rewrite Hf, H2. cbn [utf8_scan]. unfold utf8_follow.
  replace (b <=? 127) with true by lia. replace (b <? 128) with true by lia. split; [done|]. by replace (b =? 0) with false by lia.
Qed.

Lemma pretty_length k : forall x s, (x < 10 ^ N.of_nat k)%N -> (String.length (pretty_N_go x s) <= k + String.length s)%nat.
Proof.
  induction k as [|k IH]; intros x s Hx. { assert (x = 0)%N as -> by lia. by rewrite pretty_N_go_0. }
  destruct (decide (x = 0)%N) as [->|Hn]; [rewrite pretty_N_go_0; lia|]. rewrite pretty_N_go_step by lia. etransitivity; [apply IH|simpl; lia].
  rewrite Nat2N.inj_succ, N.pow_succ_r' in Hx. apply N.Div0.div_lt_upper_bound. lia.
Qed.

Lemma decimal_length n : u64_ok n -> strlen (decimal n) <= 20.
Proof.
  intros [H0 Hn]. unfold strlen, decimal. destruct n as [|p|p]; [simpl; lia| |lia].
  change (pretty (Z.pos p)) with (pretty_N_go (N.pos p) EmptyString). pose proof (pretty_length 20 (N.pos p) EmptyString) as Hl.
  unfold max_u64 in Hn. specialize (Hl ltac:(lia)). simpl String.length in Hl at 2. lia.
Qed.

Lemma decimal_text n : u64_ok n -> validText (decimal n) 1024 true = true.
Proof.
  intros Hn. generalize (parse_decimal n Hn). unfold parse_uint, validText, ValidString, valid_utf8, contains_byte.
  destruct (bytes_of (decimal n)) as [|b l] eqn:Eb; [done|]. destruct (digits_value 0 (b :: l)) eqn:Ed; [|done]. intros _. apply digits_text in Ed as [-> ->].
  simpl. rewrite !andb_true_r. apply Z.leb_le. etransitivity; [by apply decimal_length | lia].
Qed.

(** Identifiers within the limits of the envelope. *)
Definition identifiers_ok (r : Record_) : bool :=
  validText (r_OperationID r) 256 false && validText (r_ProjectKey r) 256 true && validText (r_Target r) 512 true.

Definition terminal_envelope (r : Record_) : Envelope :=
  let signal := fst (signalFor r) in
  mkEnvelope (mkGenEvent KindManaged (sg_ResourceType signal) (sg_ResourceID signal) (sg_Action signal) "" (sg_OccurredAt signal) (sg_OccurredAt signal) 1 (sg_Attributes signal))
    (snd (signalFor r)) (r_OperationID r) 0 None "".

Lemma validText_wider s n m b : n <= m -> validText s n b = true -> validText s m true = true /\ (str_empty s = false -> validText s m false = true).
Proof. unfold validText. intros Hnm H. bool_to_prop. split; [|intros He; rewrite He]; simpl; rewrite !andb_true_iff, negb_true_iff; split_and!; try done; lia. Qed.

Lemma validText_plain s n : validText s n false = true -> str_empty s = false /\ contains_any [0%nat] s = false.
Proof. rewrite contains_nul. unfold validText. simpl. by destruct (str_empty s), (strlen s <=? n), (ValidString s), (contains_byte [0] s). Qed.

(** The resource named by a record: a valid text, and not empty. *)
Lemma signal_resource r : identifiers_ok r = true -> type_valid (r_Type r) = true ->
  validText (sg_ResourceType (fst (signalFor r))) 64 false = true /\ validText (sg_ResourceID (fst (signalFor r))) 512 false = true /\
  validText (type_text (r_Type r)) 128 false = true /\ validText (snd (signalFor r)) 256 true = true.
Proof.
  unfold identifiers_ok. intros H Ht. bool_to_prop. rename H into Hid. rename H0 into Htarget. rename H1 into Hkey.
  assert (validText (r_OperationID r) 512 false = true) as Hid'.
  { eapply validText_wider; [|exact Hid|]; [lia|]. unfold validText in Hid. by destruct (str_empty (r_OperationID r)). }
  assert (forall rt rid uid, validText rt 64 false = true -> validText rid 512 true = true -> validText uid 256 true = true ->
    let '(rt', rid') := if str_empty rid then ("operation", r_OperationID r) else (rt, rid) in
    validText rt' 64 false = true /\ validText rid' 512 false = true /\ validText uid 256 true = true) as Hpick.
  { intros rt rid uid H1 H2 H3. destruct (str_empty rid) eqn:E; [by split_and!|]. split_and!; [done | | done]. by apply (validText_wider _ 512 512 true (Z.le_refl _) H2). }
  pose proof (proj1 (validText_wider _ 256 512 _ ltac:(lia) Hkey)) as Hkey'. unfold signalFor.
  pose proof (Hpick "container" (r_Target r) "" eq_refl Htarget eq_refl) as Hc. pose proof (Hpick "project" (r_ProjectKey r) (r_ProjectKey r) eq_refl Hkey' Hkey) as Hj.
  destruct (r_Type r); try done; destruct (str_empty (r_Target r)), (str_empty (r_ProjectKey r)); by (destruct Hc as (? & ? & ?), Hj as (? & ? & ?); split_and!).
Qed.

(** The attributes are few and short. *)
Definition short_attribute (k v : string) : bool :=
  validText k 128 false && validText v 1024 true && (strlen k <=? 24) && (strlen v <=? 24).

Lemma signal_attributes_valid r : validStatus (r_Status r) = true -> validPhase (r_Phase r) = true -> u64_ok (r_Revision r) ->
  exists m, sg_Attributes (fst (signalFor r)) = Some m /\ m <> ∅ /\ (size m <= 5)%nat /\ map_Forall (fun k v => short_attribute k v = true) m.
Proof.
  intros Hs Hp Hr. unfold signalFor. destruct (match r_Type r with TypeContainerStart | TypeContainerStop => _ | _ => _ end) as [[rt rid] uid].
  destruct (if str_empty rid then _ else _) as [rt' rid']. eexists. split; [reflexivity|]. split_and!.
  - by destruct (str_empty _); apply insert_non_empty.
  - assert (forall (m : gmap string string) k v n, (size m <= n)%nat -> (size (<[k := v]> m) <= S n)%nat) as Hi by (intros; rewrite map_size_insert; case_match; simpl; lia).
    assert (forall n (a : string), (size ({["partial_effects_possible" := a]} : gmap string string) <= S n)%nat) as H1 by (intros; rewrite map_size_singleton; lia).
    destruct (str_empty _); [do 3 apply Hi; apply (H1 1%nat) | do 4 apply Hi; apply (H1 0%nat)].
  - assert (short_attribute "revision" (decimal (r_Revision r)) = true) as Hrev.
    { unfold short_attribute. rewrite decimal_text by done. simpl. apply Z.leb_le. etransitivity; [by apply decimal_length | lia]. }
    assert (short_attribute "status" (status_text (r_Status r)) = true) as Hst by (by destruct (r_Status r)).
    assert (short_attribute "phase" (phase_text (r_Phase r)) = true) as Hph by (by destruct (r_Phase r)).
    assert (short_attribute "cancel_reason" (cancel_reason_text (r_CancelReason r)) = true) as Hcr by (by destruct (r_CancelReason r)).
    assert (short_attribute "partial_effects_possible" (bool_text (r_PartialEffectsPossible r)) = true) as Hpe by (by destruct (r_PartialEffectsPossible r)).
    destruct (str_empty _); repeat (apply map_Forall_insert_2; [assumption|]); apply map_Forall_empty.
Qed.

(** A valid terminal record with identifiers within the limits has an envelope
    that passes validation. *)
Lemma terminal_envelope_valid r : validateRecord r = true -> Terminal (r_Status r) = true -> u64_ok (r_Revision r) -> identifiers_ok r = true ->
  validateEnvelope (terminal_envelope r) = true /\ Managed (fst (signalFor r)) "" = Ok (nv_Event (terminal_envelope r)).
Proof.
  intros Hv Ht Hr Hid. unfold validateRecord in Hv. rewrite Ht in Hv. bool_to_prop.
  destruct (signal_resource r Hid) as (Hrt & Hrid & Hact & Huid); [done|]. destruct (signal_attributes_valid r) as (m & Hm & _ & Hsize & Hshort); [done..|]. destruct (signal_action r) as [Ha Ho].
  assert (validText (r_OperationID r) 256 true = true /\ str_empty (r_OperationID r) = false) as [Hop Hne].
  { unfold identifiers_ok in Hid. bool_to_prop. split; [|done]. by apply (validText_wider _ 256 256 false (Z.le_refl _)). }
  assert (is_zero (r_FinishedAt r) = false) as Hz by (by destruct (is_zero (r_FinishedAt r))).
  destruct (validText_plain _ _ Hrt) as [E1 C1]. destruct (validText_plain _ _ Hrid) as [E2 C2]. destruct (validText_plain _ _ Hact) as [E3 C3].
  assert (Managed (fst (signalFor r)) "" = Ok (nv_Event (terminal_envelope r))) as HM.
  { unfold Managed, validateSignal. rewrite Ha, Ho, E1, E2, E3, C1, C2, C3, Hz. unfold terminal_envelope. simpl. by rewrite Ha, Ho. }
  split; [|done]. unfold validateEnvelope, terminal_envelope, kind_valid, hasContinuityFields.
  cbn [nv_Event nv_ProjectUID nv_OperationID nv_PreviousIncarnation nv_KnownDurableThrough nv_Reason ge_Kind ge_ResourceType ge_ResourceID ge_Action ge_Actor ge_FirstAt ge_LastAt ge_Count ge_Attributes].
  rewrite Ha, Ho, Hrt, Hact, Hz, Huid, Hop, Hrid, Hne.
  assert (is_ok (Managed (mkSignal (sg_ResourceType (fst (signalFor r))) (sg_ResourceID (fst (signalFor r))) (type_text (r_Type r)) (r_FinishedAt r)
    (sg_Attributes (fst (signalFor r)))) "") = true) as ->.
  { unfold Managed, validateSignal. simpl. by rewrite E1, E2, E3, C1, C2, C3, Hz. }
  rewrite Hm. simpl. rewrite (proj2 (Z.leb_le _ 32)) by (unfold lenZ; rewrite length_map_to_list; lia). rewrite Z.ltb_irrefl, Z.eqb_refl. simpl.
  apply forallb_forall. intros [k v] Hin%list_elem_of_In%elem_of_map_to_list. apply Hshort in Hin. unfold short_attribute in Hin. simpl. by apply andb_true_iff in Hin as [[? _]%andb_true_iff _].
Qed.


(** *** The length of JSON text *)

(** An escaped byte takes at most six bytes; objects and lists add delimiters. *)
Fixpoint json_bound (v : jvalue) : Z :=
  match v with
  | JNull => 4
  | JBool _ => 5
  | JNum literal => strlen literal
  | JStr text => 6 * strlen text + 2
  | JArr l => 2 + foldr (fun x n => json_bound x + 1 + n) 0 l
  | JObj members => 2 + foldr (fun kv n => 6 * strlen kv.1 + 4 + json_bound kv.2 + n) 0 members
  end.

Definition members_bound (members : list (string * jvalue)) : Z := foldr (fun kv n => 6 * strlen kv.1 + 4 + json_bound kv.2 + n) 0 members.

Lemma members_bound_app l1 l2 : members_bound (l1 ++ l2) = members_bound l1 + members_bound l2.
Proof. induction l1 as [|kv l1 IH]; [done|]. simpl. unfold members_bound in *. lia. Qed.

Lemma json_bound_nonneg v : 0 <= json_bound v.
Proof.
  revert v. fix IH 1. intros [| | | |l|l]; cbn [json_bound]; try (unfold strlen; lia).
  - induction l as [|x l IHl]; simpl; [lia|]. specialize (IH x). lia.
  - induction l as [|[k x] l IHl]; simpl; [lia|]. specialize (IH x). unfold strlen in *. lia.
Qed.

Lemma text_field_bound name value n : strlen value <= n -> members_bound (text_field name value) <= 6 * strlen name + 4 + 6 * n + 2.
Proof.
  intros Hv. unfold text_field. assert (0 <= strlen name /\ 0 <= strlen value) as [? ?] by (unfold strlen; lia). case_if; simpl; lia.
Qed.

Lemma attributes_bound l : Forall (fun kv => short_attribute kv.1 kv.2 = true) l -> members_bound (prod_map id JStr <$> l) <= 294 * lenZ l.
Proof.
  induction 1 as [|[k v] l H Hl IH]; [done|]. rewrite fmap_cons. unfold lenZ in *. cbn [fst snd] in H. unfold short_attribute in H. bool_to_prop. rewrite length_cons, Nat2Z.inj_succ.
  change (members_bound (prod_map id JStr (k, v) :: (prod_map id JStr <$> l))) with (6 * strlen k + 4 + (6 * strlen v + 2) + members_bound (prod_map id JStr <$> l)). lia.
Qed.

(** The payload of a terminal record. *)
Definition terminal_tree (format_time : time -> string) (r : Record_) : jvalue :=
  let e := nv_Event (terminal_envelope r) in
  payload_tree format_time (mkPayload PayloadVersion "MANAGED" (ge_ResourceType e) (ge_ResourceID e) (ge_Action e) "" (nv_ProjectUID (terminal_envelope r)) (r_OperationID r)
    (ge_FirstAt e) (ge_LastAt e) 1 (default ∅ (cloneAttributes (ge_Attributes e))) 0 None "").

Lemma validText_length s n b : validText s n b = true -> strlen s <= n.
Proof. unfold validText. intros H. by bool_to_prop. Qed.

(** The lengths of literal texts, evaluated. *)
#[local] Ltac literal_lengths :=
  repeat match goal with
  | |- context [strlen ?s] => let n := eval vm_compute in (strlen s) in lazymatch n with Zpos _ => change (strlen s) with n end
  | H : context [strlen ?s] |- _ => let n := eval vm_compute in (strlen s) in lazymatch n with Zpos _ => change (strlen s) with n in H end
  end.

Lemma terminal_tree_bound format_time r : validateRecord r = true -> u64_ok (r_Revision r) -> identifiers_ok r = true ->
  strlen (format_time (r_FinishedAt r)) <= 100 -> json_bound (terminal_tree format_time r) <= MaxPayloadBytes.
Proof.
  intros Hv Hr Hid Ht. unfold validateRecord in Hv. bool_to_prop. destruct (signal_resource r Hid) as (Hrt & Hrid & Hact & Huid); [done|].
  destruct (signal_attributes_valid r) as (m & Hm & Hne & Hsize & Hshort); [done..|]. destruct (signal_action r) as [Ha Ho].
  unfold identifiers_ok in Hid. bool_to_prop. match goal with H : validText (r_OperationID r) _ _ = true |- _ => rename H into Hop end.
  apply validText_length in Hrt, Hrid, Hact, Huid, Hop.
  unfold terminal_tree, terminal_envelope, payload_tree. cbn [nv_Event nv_ProjectUID ge_ResourceType ge_ResourceID ge_Action ge_FirstAt ge_LastAt ge_Attributes pl_Version pl_Kind
    pl_ResourceType pl_ResourceID pl_Action pl_Actor pl_ProjectUID pl_OperationID pl_FirstAt pl_LastAt pl_Count pl_Attributes pl_PreviousIncarnation pl_KnownDurableThrough pl_Reason].
  rewrite Ha, Ho, Hm. assert (cloneAttributes (Some m) = Some m) as -> by (simpl; by rewrite bool_decide_eq_false_2).
  change (default ∅ (Some m)) with m. rewrite bool_decide_eq_false_2 by done.
  fold (sorted_members m). assert (members_bound (prod_map id JStr <$> sorted_members m) <= 1470) as Hattr.
  { etransitivity; [apply attributes_bound|].
    - apply Forall_forall. intros [k v] Hin%elem_sorted_members. by apply Hshort.
    - unfold lenZ, sorted_members. rewrite sort_by_perm, length_map_to_list. lia. }
  match goal with |- json_bound (JObj ?l) <= _ => change (2 + members_bound l <= MaxPayloadBytes) end. rewrite !members_bound_app.
  pose proof (text_field_bound "resource_id" _ _ Hrid). pose proof (text_field_bound "project_uid" _ _ Huid). pose proof (text_field_bound "operation_id" _ _ Hop).
  assert (forall n v, members_bound [(n, v)] = 6 * strlen n + 4 + json_bound v) as Hone by (intros; unfold members_bound; simpl; lia).
  rewrite Hone. change (json_bound (JObj (prod_map id JStr <$> sorted_members m))) with (2 + members_bound (prod_map id JStr <$> sorted_members m)).
  unfold members_bound in *. cbn [foldr fst snd json_bound text_field str_empty] in *. literal_lengths. unfold MaxPayloadBytes. simpl foldr. lia.
Qed.

(** *** The key of an operation *)

Definition one_line (s : string) : bool := negb (contains_byte [13; 10] s).

Lemma contains_three s : contains_byte [0; 13; 10] s = contains_byte [0] s || contains_byte [13; 10] s.
Proof.
  unfold contains_byte. assert (forall (f g h : Z -> bool) l, (forall b, f b = g b || h b) -> existsb f l = existsb g l || existsb h l) as H.
  { intros f g h l Hf. induction l as [|b l IH]; [done|]. simpl. rewrite IH, Hf. by destruct (g b), (h b), (existsb g l). }
  apply H. intros b. simpl. by rewrite !orb_false_r.
Qed.

(** The key is valid when the identifier is, and has no line break. *)
Lemma managed_key_valid id : validText id 256 false = true -> validOnceKey (managedOnceKey id) = one_line id.
Proof.
  intros H. pose proof (validText_length _ _ _ H) as Hl. unfold validText in H. bool_to_prop. unfold validOnceKey, onceKeyMaxBytes.
  assert (strlen (managedOnceKey id) = 18 + strlen id) as -> by (unfold strlen, managedOnceKey; rewrite str_length_app; simpl String.length; lia).
  replace (18 + strlen id <=? 512) with true by lia.
  assert (ValidString (managedOnceKey id) = ValidString id) as -> by (unfold ValidString, managedOnceKey; done).
  assert (contains_byte [0; 13; 10] (managedOnceKey id) = contains_byte [0; 13; 10] id) as -> by done.
  rewrite contains_three. unfold one_line. repeat match goal with H : _ = true |- _ => rewrite H | H : _ = false |- _ => rewrite H end. done.
Qed.

(** [C36] A terminal operation with identifiers within the limits is deliverable. For
    a valid terminal record whose operation, project and target identifiers are
    valid texts of at most 256, 256 and 512 bytes - the target may be empty: the
    record then names the operation - and whose finishing time RFC 3339 can
    express, encoding succeeds within the bound of a payload. If the operation
    identifier has no line break, delivering succeeds in every life of the log and
    its key, also after failed attempts, at a time in 64-bit nanoseconds at which
    the log is open, the calls work, it has a cursor and room left, retention
    deletes nothing and no stray file is in the way of a new segment. An identifier with
    a line break, which the other checks accept, is never delivered: the key is
    refused. JSON text escapes a byte with at most six, and a time takes at most
    100: that is [encoding/json]'s and [time]'s part. *)
Theorem terminal_deliverable (print : jvalue -> list Z) (format_time : time -> string)
  (print_bound : forall v, lenZ (print v) <= json_bound v) (format_bound : forall t, rfc3339_time t = true -> strlen (format_time t) <= 100) r :
  validateRecord r = true -> Terminal (r_Status r) = true -> u64_ok (r_Revision r) -> identifiers_ok r = true -> rfc3339_time (r_FinishedAt r) = true ->
  exists p, terminal_payload print format_time r = Ok p /\ lenZ p <= MaxPayloadBytes /\
    (one_line (r_OperationID r) = true -> forall now o es rs, once_life (managedOnceKey (r_OperationID r)) p o es rs -> i64_ok now ->
       log_accepts now (32 + lenZ p) (os_sys o) -> exists o', DeliverTerminal print format_time (mkAppender IdempotentWAL) now r o = (Ok tt, o')) /\
    (one_line (r_OperationID r) = false -> forall now o,
       DeliverTerminal print format_time (mkAppender IdempotentWAL) now r o = (Err (AppWal ErrInvariant), o)).
Proof.
  intros Hv Ht Hr Hid Htime. destruct (terminal_envelope_valid r Hv Ht Hr Hid) as [He HM]. destruct (signal_action r) as [_ Ho].
  assert (lenZ (print (terminal_tree format_time r)) <= MaxPayloadBytes) as Hlen.
  { etransitivity; [apply print_bound|]. apply terminal_tree_bound; auto. }
  assert (terminal_payload print format_time r = Ok (print (terminal_tree format_time r))) as Hp.
  { unfold terminal_payload, EncodeManaged. rewrite HM. unfold EncodeEnvelope. change (mkEnvelope _ _ _ _ _ _) with (terminal_envelope r). rewrite He.
    cbn [negb]. cbv zeta. change (ge_FirstAt (nv_Event (terminal_envelope r))) with (sg_OccurredAt (fst (signalFor r))).
    change (ge_LastAt (nv_Event (terminal_envelope r))) with (sg_OccurredAt (fst (signalFor r))). rewrite Ho at 1 2. rewrite Htime. cbn [negb andb].
    match goal with |- context [print ?t] => change t with (terminal_tree format_time r) end.
    by replace (_ >? _) with false by (symmetry; rewrite Z.gtb_ltb; by apply Z.ltb_ge). }
  assert (validOnceKey (managedOnceKey (r_OperationID r)) = one_line (r_OperationID r)) as Hkey.
  { apply managed_key_valid. unfold identifiers_ok in Hid. by bool_to_prop. }
  eexists. split_and!; [exact Hp | exact Hlen | |].
  - intros Hone now o es rs Hl Hnow Hacc. rewrite (DeliverTerminal_run _ _ _ _ _ _ _ (frozen_refl r) Hp).
    destruct (AppendOnce_runs _ _ now o es rs Hl) as (rec & o' & E); [congruence | done | unfold MaxPayloadBytes in Hlen; lia | done|].
    rewrite E. by eexists.
  - intros Hone now o. rewrite (DeliverTerminal_run _ _ _ _ _ _ _ (frozen_refl r) Hp). unfold AppendOnce. by rewrite Hkey, Hone.
Qed.

(** ** A printer, and a delivery that is repeated *)

Definition escape (b : Z) : list Z :=
  if (b =? 34) || (b =? 92) then [92; b]
  else if (b <? 32) || (b =? 60) || (b =? 62) || (b =? 38) then [92; 117; 48; 48] ++ [byte_of (hex_char (b / 16)); byte_of (hex_char (b mod 16))]
  else [b].
Definition quoted (s : string) : list Z := [34] ++ mjoin (escape <$> bytes_of s) ++ [34].

(** Members and elements separated by commas. *)
Fixpoint commas (l : list (list Z)) : list Z := match l with [] => [] | [x] => x | x :: l' => x ++ [44] ++ commas l' end.

Fixpoint json_print (v : jvalue) : list Z :=
  match v with
  | JNull => bytes_of "null"
  | JBool b => bytes_of (bool_text b)
  | JNum literal => bytes_of literal
  | JStr text => quoted text
  | JArr l => [91] ++ commas (json_print <$> l) ++ [93]
  | JObj members => [123] ++ commas ((fun kv => quoted kv.1 ++ [58] ++ json_print kv.2) <$> members) ++ [125]
  end.

Lemma bytes_of_length s : lenZ (bytes_of s) = strlen s.
Proof. unfold lenZ, strlen. f_equal. induction s; simpl; congruence. Qed.

Lemma quoted_bound s : lenZ (quoted s) <= 6 * strlen s + 2.
Proof.
  rewrite <- bytes_of_length. assert (forall l, (length (mjoin (escape <$> l)) <= 6 * length l)%nat) as H.
  { induction l as [|b l IH]; [simpl; lia|]. rewrite fmap_cons. change (mjoin (escape b :: (escape <$> l))) with (escape b ++ mjoin (escape <$> l)).
    rewrite length_app, length_cons. assert (length (escape b) <= 6)%nat by (unfold escape; repeat case_if; simpl; lia). lia. }
  unfold quoted, lenZ. rewrite !length_app. specialize (H (bytes_of s)). simpl length in *. lia.
Qed.

Lemma commas_bound {A} (f : A -> list Z) (g : A -> Z) l : (forall x, x ∈ l -> lenZ (f x) + 1 <= g x) -> lenZ (commas (f <$> l)) <= foldr (fun x n => g x + n) 0 l.
Proof.
  induction l as [|x l IH]; intros H; [done|]. rewrite fmap_cons. pose proof (H x ltac:(by left)) as Hx. specialize (IH (fun y Hy => H y ltac:(by right))).
  simpl. destruct (f <$> l) as [|y l'] eqn:E; [apply fmap_nil_inv in E as ->; simpl; lia|]. unfold lenZ in *. rewrite !length_app. simpl length in *. lia.
Qed.

Lemma json_print_bound : forall v, lenZ (json_print v) <= json_bound v.
Proof.
  fix IH 1. intros [|b|literal|text|l|members]; cbn [json_print json_bound].
  - done.
  - by destruct b.
  - by rewrite bytes_of_length.
  - apply quoted_bound.
  - unfold lenZ. rewrite !length_app. cbn [length].
    assert (lenZ (commas (json_print <$> l)) <= foldr (fun x n => json_bound x + 1 + n) 0 l) as H; [|unfold lenZ in H; lia].
    apply (commas_bound json_print (fun x => json_bound x + 1)). induction l as [|x l IHl]; [by intros y ?%not_elem_of_nil|].
    intros y [->|Hy]%elem_of_cons; [specialize (IH x); lia | by apply IHl].
  - unfold lenZ. rewrite !length_app. cbn [length].
    assert (lenZ (commas ((fun kv => quoted kv.1 ++ [58] ++ json_print kv.2) <$> members)) <= foldr (fun kv n => 6 * strlen kv.1 + 4 + json_bound kv.2 + n) 0 members) as H;
      [|unfold lenZ in H; lia].
    apply (commas_bound (fun kv => quoted kv.1 ++ [58] ++ json_print kv.2) (fun kv => 6 * strlen kv.1 + 4 + json_bound kv.2)).
    induction members as [|[k x] members IHl]; [by intros y ?%not_elem_of_nil|].
    intros y [->|Hy]%elem_of_cons; [|by apply IHl]. specialize (IH x). pose proof (quoted_bound k). cbn [fst snd]. unfold lenZ in *. rewrite !length_app. cbn [length]. lia.
Qed.

(** Times as decimal numbers. *)
Lemma decimal_time_bound t : rfc3339_time t = true -> strlen (decimal t) <= 100.
Proof.
  unfold rfc3339_time. intros H. bool_to_prop. unfold strlen, decimal. destruct t as [|p|p]; [simpl; lia| |].
  - change (pretty (Z.pos p)) with (pretty_N_go (N.pos p) EmptyString). pose proof (pretty_length 21 (N.pos p) EmptyString ltac:(lia)). simpl String.length in *. lia.
  - change (pretty (Z.neg p)) with (String "-" (pretty_N_go (N.pos p) EmptyString)). pose proof (pretty_length 21 (N.pos p) EmptyString ltac:(lia)). simpl String.length in *. lia.
Qed.

Definition demo_hash : string := hex_encode (Sum256 []).
Definition demo_terminal (target : string) : Record_ :=
  mkRecord "op-1" "app" target TypeContainerStart demo_hash 1 2 3 StatusSuccess PhaseFinalizing (cancelModeForType TypeContainerStart) 4 time_zero 3 false
    time_zero CancelReasonNone false "" "" [] false ManagedAuditPending.

Definition large_options : Options := mkOptions 100000 1000 1 1.

Lemma terminal_deliverable_witness : exists p, terminal_payload json_print decimal (demo_terminal "web") = Ok p /\ lenZ p <= MaxPayloadBytes /\
  let start := mkOsys (Open "agent" 1 large_options large_options 0 (demo_start [])).2 ∅ in
  exists o', DeliverTerminal json_print decimal (mkAppender IdempotentWAL) 5 (demo_terminal "web") start = (Ok tt, o').
Proof.
  destruct (terminal_deliverable json_print decimal json_print_bound decimal_time_bound (demo_terminal "web")) as (p & Hp & Hlen & Hd & _);
    [vm_compute; reflexivity | reflexivity | split; discriminate | vm_compute; reflexivity..|].
  exists p. split; [exact Hp|]. split; [exact Hlen|]. cbv zeta.
  eapply (Hd eq_refl 5 _ [] []); [| split; discriminate|].
  - eapply (once_open _ _ "agent" 1 large_options large_options 0 (demo_start []));
      [split; [apply map_Forall_empty | done] | split; discriminate | constructor | intros path _; apply lookup_empty | apply lookup_empty | vm_compute; reflexivity].
  - split; [vm_compute; reflexivity | vm_compute; reflexivity | vm_compute; reflexivity | vm_compute; discriminate | | | intros _; vm_compute; reflexivity].
    + change (0 + (32 + lenZ p) <= 100000). unfold MaxPayloadBytes in Hlen. lia.
    + exists 0. unfold enforceRetentionLocked. vm_compute. reflexivity.
Defined.

(** A target that is not UTF-8 keeps a valid terminal record from ever being
    delivered, although its operation identifier would do. *)
Lemma undeliverable_target : let r := demo_terminal (String (ascii_of_nat 255) "") in
  validateRecord r = true /\ Terminal (r_Status r) = true /\ forall now o,
  DeliverTerminal json_print decimal (mkAppender IdempotentWAL) now r o = (Err (AppAudit ErrInvalidPayload), o).
Proof.
  split; [vm_compute; reflexivity|]. split; [reflexivity|]. intros now o. unfold DeliverTerminal, bind. destruct (signalFor _) as [signal uid] eqn:E.
  rewrite AppendManagedOnce_run. replace signal with (fst (signalFor (demo_terminal (String (ascii_of_nat 255) "")))) by (by rewrite E).
  replace uid with (snd (signalFor (demo_terminal (String (ascii_of_nat 255) "")))) by (by rewrite E).
  replace (EncodeManaged _ _ _ _ _ _) with (Err ErrInvalidPayload : res codecErr (list Z)) by (vm_compute; reflexivity). done.
Qed.

Lemma terminal_delivered_once_witness : exists p, terminal_payload number_print bits_format (demo_terminal "web") = Ok p /\
  let start := mkOsys (Open "agent" 1 demo_options demo_options 0 (demo_start [])).2 ∅ in
  once_life (managedOnceKey "op-1") p start [] [] /\
  forall o', (DeliverTerminal number_print bits_format (mkAppender IdempotentWAL) 5 (demo_terminal "web") start).2 = o' -> (copies p (contents (os_sys o')) <= 1)%nat.
Proof.
  destruct (terminal_payload number_print bits_format (demo_terminal "web")) as [p|e] eqn:Hp; [|exfalso; vm_compute in Hp; discriminate Hp].
  exists p. split; [reflexivity|]. cbv zeta.
  assert (once_life (managedOnceKey "op-1") p (mkOsys (Open "agent" 1 demo_options demo_options 0 (demo_start [])).2 ∅) [] []) as Hl.
  { eapply (once_open (managedOnceKey "op-1") p "agent" 1 demo_options demo_options 0 (demo_start []));
      [split; [apply map_Forall_empty | done] | split; discriminate | constructor | intros path _; apply lookup_empty | apply lookup_empty | vm_compute; reflexivity]. }
  split; [exact Hl|]. intros o' Ho.
  destruct (terminal_delivered_once number_print number_parse bits_format bits_parse number_parse_print number_print_nonempty bits_parse_format (demo_terminal "web") p _ [] [] Hp Hl) as [Hd _].
  destruct (DeliverTerminal _ _ _ _ _ _) as [res o1] eqn:E. simpl in Ho. subst o1. destruct (Hd 5 (demo_terminal "web") res o') as (_ & Hc & _); [apply frozen_refl | split; discriminate | exact E | exact Hc].
Defined.
