(* ===== verification/AuditRunner.v ===== *)
(** * The runner of the Docker event stream

    Models [internal/auditevents/runner.go]: the loop that feeds Docker events to
    the audit generator, appends what the generator emits to the log, and stores
    the watermark from which events are replayed after a restart. The loop reads
    one channel at a time: its inputs are the values the channels and the context
    yield. The clock's readings and the outcomes of the callbacks are part of the
    state; an exhausted list reads as the start of the epoch and as success. *)

From Stdlib Require Import Ascii.
From stdpp Require Import pretty sorting.
From S2P Require Import Prelude Cursor WalFrame Wal WalInv WalProps WalOpen WalSpec WalDisk GoText WalOnce AuditGen AuditEvents ManagedAudit.

(** ** Docker events *)

Record DockerEvent := mkDockerEvent {
  de_ResourceType : string;
  de_ResourceID : string;
  de_Action : string;
  de_OccurredAt : time;
  de_Attributes : gmap string string;
}.

(** The fields of [dockeradapter.Container] the runner reads. *)
Record Container := mkContainer {
  ct_Names : list string;
  ct_Image : string;
  ct_State : string;
  ct_Status : string;
  ct_Health : string;
  ct_ExitCode : Z;
}.

Definition meaningfulTransition (action : string) : bool :=
  ((action =? "die") || (action =? "health_status"))%string || has_prefix "health_status:" action.

Definition retainedDockerAttributes : list string :=
  ["name"; "image"; "exitCode"; "signal"; "com.docker.compose.project"; "com.docker.compose.service"; "com.docker.compose.project.working_dir";
   "com.docker.compose.project.config_files"].

(** The longest valid prefix that drops whole bytes from the end; the empty text is
    valid, so the loop ends. *)
Fixpoint trim_invalid (fuel : nat) (value : string) : string :=
  match fuel with
  | O => value
  | S fuel' => if ValidString value then value else trim_invalid fuel' (String.substring 0 (String.length value - 1) value)
  end.

Definition truncateUTF8 (value : string) (maximum : Z) : string :=
  if strlen value <=? maximum then value else trim_invalid (Z.to_nat maximum) (String.substring 0 (Z.to_nat maximum) value).

Definition selectedAttributes (input : gmap string string) : Attributes :=
  let output := (fun value => truncateUTF8 value 1024) <$> filter (fun kv => kv.1 ∈ retainedDockerAttributes) input in
  if bool_decide (output = ∅) then None else Some output.

Definition set_unless_empty (key value : string) (m : gmap string string) : gmap string string :=
  if str_empty value then m else <[key := truncateUTF8 value 1024]> m.

(** The map is ranged over in any order; the keys differ. *)
Definition mergeInspectAttributes (attributes : Attributes) (current : Container) : Attributes :=
  let m := default ∅ attributes in
  let m := set_unless_empty "inspect_health" (ct_Health current) (set_unless_empty "inspect_image" (ct_Image current)
             (set_unless_empty "inspect_status" (ct_Status current) (set_unless_empty "inspect_state" (ct_State current) m))) in
  let m := match ct_Names current with [] => m | name :: _ => set_unless_empty "inspect_name" name m end in
  let m := if ((ct_State current =? "exited") || (ct_State current =? "dead"))%string then <["inspect_exit_code" := decimal (ct_ExitCode current)]> m else m in
  Some m.

(** ** State *)

Record RunnerConfig := mkRunnerConfig {
  rc_Inspector : bool;
  rc_Checkpoint : bool;
}.

Record Runner := mkRunner {
  rn_config : RunnerConfig;
  rn_lastAt : time;
  rn_running : bool;
  rn_checkpointCandidate : time;
  rn_checkpointedAt : time;
  rn_lastCheckpointCall : time;
}.

(** [NewRunner]: the source, the generator and the appender must be given. *)
Definition NewRunner (source generator appender : bool) (config : RunnerConfig) : option Runner :=
  if negb source || negb generator || negb appender then None else Some (mkRunner config time_zero false time_zero time_zero time_zero).

(** The runner with what it calls: the generator and the log; the events appended
    and the checkpoints stored so far; the readings and outcomes to come. *)
Record rworld := mkRworld {
  rw_runner : Runner;
  rw_gen : Generator;
  rw_log : osys;
  rw_appended : list Event;
  rw_checkpoints : list time;
  rw_clock : list time;
  rw_outcomes : list bool;
}.

Inductive runErr := ErrStreamClosed | ErrAlreadyRunning | RunSubscribe | RunStream | RunGenerate (e : genErr) | RunAppend (e : appErr) | RunCheckpoint.

Definition runM := M rworld runErr.

Definition upd_runner (f : Runner -> Runner) (w : rworld) : rworld :=
  mkRworld (f (rw_runner w)) (rw_gen w) (rw_log w) (rw_appended w) (rw_checkpoints w) (rw_clock w) (rw_outcomes w).

Definition Now : runM time := fun w =>
  match rw_clock w with
  | [] => (Ok 0, w)
  | t :: ts => (Ok t, mkRworld (rw_runner w) (rw_gen w) (rw_log w) (rw_appended w) (rw_checkpoints w) ts (rw_outcomes w))
  end.

Definition outcome_ : runM bool := fun w =>
  match rw_outcomes w with
  | [] => (Ok true, w)
  | b :: bs => (Ok b, mkRworld (rw_runner w) (rw_gen w) (rw_log w) (rw_appended w) (rw_checkpoints w) (rw_clock w) bs)
  end.

Definition generate (call : Generator -> list Event * Generator) : runM (list Event) := fun w =>
  let '(events, g) := call (rw_gen w) in
  (Ok events, mkRworld (rw_runner w) g (rw_log w) (rw_appended w) (rw_checkpoints w) (rw_clock w) (rw_outcomes w)).

Definition set_lastAt (at_ : time) (r : Runner) : Runner :=
  mkRunner (rn_config r) at_ (rn_running r) (rn_checkpointCandidate r) (rn_checkpointedAt r) (rn_lastCheckpointCall r).
Definition set_running (b : bool) (r : Runner) : Runner :=
  mkRunner (rn_config r) (rn_lastAt r) b (rn_checkpointCandidate r) (rn_checkpointedAt r) (rn_lastCheckpointCall r).
Definition set_checkpoint (candidate done_ call : time) (r : Runner) : Runner :=
  mkRunner (rn_config r) (rn_lastAt r) (rn_running r) candidate done_ call.

(** ** Operations *)

Definition recordLastAt (at_ : time) : runM unit :=
  modify (upd_runner (fun r => if rn_lastAt r <? at_ then set_lastAt at_ r else r)).

Definition LastEventAt : runM time := gets (fun w => rn_lastAt (rw_runner w)).

(** The [Checkpoint] callback; the checkpoints it stored are kept. *)
Definition store_checkpoint (candidate : time) : runM unit :=
  let* ok := outcome_ in
  if* negb ok then RunCheckpoint end;
  modify (fun w => mkRworld (rw_runner w) (rw_gen w) (rw_log w) (rw_appended w) (rw_checkpoints w ++ [candidate]) (rw_clock w) (rw_outcomes w)).

Definition checkpoint (watermark : time) (force : bool) : runM unit :=
  let* r := gets rw_runner in
  if negb (rc_Checkpoint (rn_config r)) then ret tt
  else
    let candidate := if rn_checkpointCandidate r <? watermark then watermark else rn_checkpointCandidate r in
    modify (upd_runner (fun r => set_checkpoint candidate (rn_checkpointedAt r) (rn_lastCheckpointCall r) r)) ;;;
    if candidate <=? rn_checkpointedAt r then ret tt
    else
      let* now := Now in
      if negb force && negb (is_zero (rn_lastCheckpointCall r)) && (now - rn_lastCheckpointCall r <? second) then ret tt
      else
        modify (upd_runner (fun r => set_checkpoint (rn_checkpointCandidate r) (rn_checkpointedAt r) now r)) ;;;
        store_checkpoint candidate ;;;
        modify (upd_runner (fun r => set_checkpoint (rn_checkpointCandidate r) candidate (rn_lastCheckpointCall r) r)).

Section Running.
Context (print : jvalue -> list Z) (format_time : time -> string) (appender : Appender).

Definition append_event (event : Event) : runM unit :=
  let* now := Now in
  fun w =>
    let '(r, log) := Append_ print format_time (Some appender) now event (rw_log w) in
    match r with
    | Ok _ => (Ok tt, mkRworld (rw_runner w) (rw_gen w) log (rw_appended w ++ [event]) (rw_checkpoints w) (rw_clock w) (rw_outcomes w))
    | Err e => (Err (RunAppend e), mkRworld (rw_runner w) (rw_gen w) log (rw_appended w) (rw_checkpoints w) (rw_clock w) (rw_outcomes w))
    end.

Fixpoint append_from (watermark : time) (events : list Event) : runM time :=
  match events with
  | [] => ret watermark
  | event :: rest =>
    append_event event ;;;
    append_from (if watermark <? ge_LastAt event then ge_LastAt event else watermark) rest
  end.

Definition appendAll (events : list Event) : runM time := append_from time_zero events.

(** [inspected] is what the inspector returns, if it succeeds. *)
Definition observe (event : DockerEvent) (inspected : option Container) : runM unit :=
  let* at_ := (if is_zero (de_OccurredAt event) then Now else ret (de_OccurredAt event)) in
  recordLastAt at_ ;;;
  let* r := gets rw_runner in
  let attributes := selectedAttributes (de_Attributes event) in
  let attributes :=
    if rc_Inspector (rn_config r) && (de_ResourceType event =? "container")%string && meaningfulTransition (de_Action event)
    then match inspected with Some current => mergeInspectAttributes attributes current | None => attributes end
    else attributes in
  let* clock := Now in
  let* w := get in
  match Observe (mkSignal (de_ResourceType event) (de_ResourceID event) (de_Action event) at_ attributes) clock (rw_gen w) with
  | (Err e, _) => fail (RunGenerate e)
  | (Ok emitted, g) =>
    let* _ := generate (fun _ => ([], g)) in
    let* watermark := appendAll emitted in
    checkpoint watermark false
  end.

Definition drain (final : bool) : runM unit :=
  let* now := Now in
  let* events := generate (Drain now) in
  let* watermark := appendAll events in
  let* last := LastEventAt in
  checkpoint (if final then (if watermark <? last then last else watermark) else watermark) final.

Definition flush_tick (at_ : time) : runM unit :=
  let* events := generate (Flush at_) in
  let* watermark := appendAll events in
  checkpoint watermark false.

(** ** The loop *)

(** What the channels and the context yield: [None] for a closed channel; a stream
    error is nil or [io.EOF], or another one. *)
Inductive input :=
| InDone
| InTick (at_ : option time)
| InEvent (event : option (DockerEvent * option Container))
| InError (err : option bool).

(** The error [Run] returns ([None] for nil), or [None] while it waits. A channel
    that was closed yields nothing any more. *)
Fixpoint run_loop (eventsIn errorsIn : bool) (inputs : list input) : runM (option (option runErr)) :=
  if negb eventsIn && negb errorsIn then drain true ;;; ret (Some (Some ErrStreamClosed))
  else
    match inputs with
    | [] => ret None
    | InDone :: _ => drain true ;;; ret (Some None)
    | InTick None :: rest => run_loop eventsIn errorsIn rest
    | InTick (Some at_) :: rest => flush_tick at_ ;;; run_loop eventsIn errorsIn rest
    | InEvent event :: rest =>
      if eventsIn then
        match event with
        | None => run_loop false errorsIn rest
        | Some (event, inspected) => observe event inspected ;;; run_loop eventsIn errorsIn rest
        end
      else run_loop eventsIn errorsIn rest
    | InError err :: rest =>
      if errorsIn then
        match err with
        | None => run_loop eventsIn false rest
        | Some closed => drain true ;;; ret (Some (Some (if closed then ErrStreamClosed else RunStream)))
        end
      else run_loop eventsIn errorsIn rest
    end.

(** [Run]: the error it returns, or [None] while it waits for further inputs. *)
Definition Run (subscribed : bool) (inputs : list input) : runM (option (option runErr)) :=
  let* r := gets rw_runner in
  if* rn_running r then ErrAlreadyRunning end;
  modify (upd_runner (set_running true)) ;;;
  if negb subscribed then modify (upd_runner (set_running false)) ;;; fail RunSubscribe
  else
    let* result := attempt (run_loop true true inputs) in
    match result with
    | Ok None => ret None
    | r => modify (upd_runner (set_running false)) ;;; of_res r
    end.
End Running.

(** ** What the generator holds is not newer than the last event *)

Record gen_le (T : time) (g : Generator) : Prop := {
  gl_pending : forall k e, gn_pending g !! k = Some e -> ge_LastAt e <= T;
  gl_storm : forall e, gn_storm g = Some e -> ge_LastAt e <= T;
}.

Abbreviation not_after T := (Forall (fun e => ge_LastAt e <= T)).

Lemma gen_le_mono T T' g : T <= T' -> gen_le T g -> gen_le T' g.
Proof. intros HT [H1 H2]. split; [intros k e He; specialize (H1 k e He); lia | intros e He; specialize (H2 e He); lia]. Qed.

Lemma rotate_le T now g : gen_le T g -> gen_le T (rotateBucket now g).
Proof. intros [H1 H2]. unfold rotateBucket. by repeat case_if. Qed.

Lemma addStorm_le T at_ count g : gen_le T g -> at_ <= T -> gen_le T (addStorm at_ count g).
Proof. intros [H1 H2] Ha. split; simpl; [done|]. by intros e [= <-]. Qed.

Lemma release_le T key l g : gen_le T g -> not_after T l -> not_after T (release key (l, g)).1 /\ gen_le T (release key (l, g)).2.
Proof.
  intros [H1 H2] Hl. unfold release. destruct (gn_pending g !! key) as [e|] eqn:E; [|done]. cbv zeta. pose proof (H1 _ _ E) as He.
  assert (forall k x, delete key (gn_pending g) !! k = Some x -> ge_LastAt x <= T) as Hd by (intros k x [_ Hx]%lookup_delete_Some; eauto).
  case_if; simpl; split; [apply Forall_app; split; [done | by constructor] | by split | done|]. apply addStorm_le; [by split | done].
Qed.

Lemma release_all_le T keys g : gen_le T g -> not_after T (release_all keys g).1 /\ gen_le T (release_all keys g).2.
Proof.
  unfold release_all. assert (forall l, not_after T l -> gen_le T g -> let r := foldl (fun acc key => release key acc) (l, g) keys in not_after T r.1 /\ gen_le T r.2) as H.
  { revert g. induction keys as [|key keys IH]; intros g l Hl Hg; [done|]. cbn [foldl]. destruct (release_le T key l g Hg Hl) as [Hl' Hg'].
    destruct (release key (l, g)) as [l' g']. by apply IH. }
  intros Hg. by apply H.
Qed.

Lemma Flush_le T now g : gen_le T g -> not_after T (Flush now g).1 /\ gen_le T (Flush now g).2.
Proof.
  intros Hg%(rotate_le T now). unfold Flush. set (g1 := rotateBucket now g) in *. cbv zeta. set (keys := keys_where _ _).
  destruct (release_all_le T keys g1 Hg) as [Hl Hg2]. destruct (release_all keys g1) as [l g2]. simpl in Hl, Hg2.
  unfold takeFinishedStorm. destruct (gn_storm g2) as [e|] eqn:E; [case_if|]; simpl; rewrite ?app_nil_r; auto.
  split; [apply Forall_app; split; [done|]; constructor; [by eapply gl_storm | done] | split; [apply Hg2 | done]].
Qed.

Lemma Drain_le T now g : gen_le T g -> not_after T (Drain now g).1 /\ gen_le T (Drain now g).2.
Proof.
  intros Hg%(rotate_le T now). unfold Drain. set (g1 := rotateBucket now g) in *. cbv zeta. set (keys := keys_where _ _).
  destruct (release_all_le T keys g1 Hg) as [Hl Hg2]. destruct (release_all keys g1) as [l g2]. simpl in Hl, Hg2.
  destruct (gn_storm g2) as [e|] eqn:E; simpl; auto.
  split; [apply Forall_app; split; [done|]; constructor; [by eapply gl_storm | done] | split; [apply Hg2 | done]].
Qed.

Lemma Observe_le T signal clock g l g' : gen_le T g -> is_zero (sg_OccurredAt signal) = false -> sg_OccurredAt signal <= T ->
  Observe signal clock g = (Ok l, g') -> not_after T l /\ gen_le T g'.
Proof.
  intros Hg Hz Ht. unfold Observe. case_if; [destruct (Flush_le T clock g Hg); destruct (Flush clock g); by intros [= <- <-]|]. case_if; [done|].
  rewrite Hz. destruct (Flush_le T (sg_OccurredAt signal) g Hg) as [Hl Hg1]. destruct (Flush _ g) as [l1 g1]. simpl in Hl, Hg1. cbv zeta.
  assert (forall e, ge_LastAt e <= T -> gen_le T (mkGenerator (gn_config g1) (<[signal_key signal := e]> (gn_pending g1)) (gn_bucket g1) (gn_emitted g1) (gn_storm g1))) as Hins.
  { intros e He. split; simpl; [|apply Hg1]. intros k x [[_ <-]|[_ Hx]]%lookup_insert_Some; [done | by eapply gl_pending]. }
  destruct (gn_pending g1 !! signal_key signal); [|case_if]; intros [= <- <-]; split; try done; [by apply Hins | by apply addStorm_le | by apply Hins].
Qed.

(** ** Triples *)

Definition hoare {A} (P : rworld -> Prop) (m : runM A) (Q : A -> rworld -> Prop) (E : runErr -> rworld -> Prop) : Prop :=
  forall w, P w -> match m w with (Ok a, w') => Q a w' | (Err e, w') => E e w' end.

Lemma hoare_ret {A} (a : A) P Q E : (forall w, P w -> Q a w) -> hoare P (ret a) Q E.
Proof. intros H w Hw. by apply H. Qed.
Lemma hoare_fail {A} e P Q E : (forall w, P w -> E e w) -> hoare (A := A) P (fail e) Q E.
Proof. intros H w Hw. by apply H. Qed.
Lemma hoare_bind {A B} P (m : runM A) R (f : A -> runM B) Q E : hoare P m R E -> (forall a, hoare (R a) (f a) Q E) -> hoare P (bind m f) Q E.
Proof. intros Hm Hf w Hw. specialize (Hm w Hw). unfold bind. destruct (m w) as [[a|e] w']; [by apply Hf | done]. Qed.
Lemma hoare_pre {A} P P' (m : runM A) Q E : (forall w, P w -> P' w) -> hoare P' m Q E -> hoare P m Q E.
Proof. intros HP Hm w Hw. by apply Hm, HP. Qed.
Lemma hoare_post {A} P (m : runM A) Q Q' E E' : (forall a w, Q a w -> Q' a w) -> (forall e w, E e w -> E' e w) -> hoare P m Q E -> hoare P m Q' E'.
Proof. intros HQ HE Hm w Hw. specialize (Hm w Hw). destruct (m w) as [[a|e] w']; auto. Qed.
Lemma hoare_fact {A} (F : Prop) P (m : runM A) Q E : (F -> hoare P m Q E) -> hoare (fun w => F /\ P w) m Q E.
Proof. intros H w [HF Hw]. by apply H. Qed.

(** ** Invariants of the runner *)

(** Checkpoints increase and are not newer than the last event. *)
Record checkpoints_ok (T : time) (w : rworld) : Prop := {
  ck_last : rn_lastAt (rw_runner w) = T;
  ck_sorted : StronglySorted Z.lt (rw_checkpoints w);
  ck_done : Forall (fun c => c <= rn_checkpointedAt (rw_runner w)) (rw_checkpoints w);
  ck_order : time_zero <= rn_checkpointedAt (rw_runner w) <= rn_checkpointCandidate (rw_runner w) /\ rn_checkpointCandidate (rw_runner w) <= T;
  ck_clock : Forall (fun t => time_zero < t) (rw_clock w);
}.

(** After [n] accepted events, while [events] are still to be appended. *)
Record accounts (n : Z) (T : time) (events : list Event) (w : rworld) : Prop := {
  ac_gen : gen_inv (rw_gen w);
  ac_le : gen_le T (rw_gen w);
  ac_appended : 0 <= counts (rw_appended w);
  ac_count : counts (rw_appended w) + counts events + owed (rw_gen w) = n;
  ac_events : Forall (fun e => 1 <= ge_Count e /\ ge_LastAt e <= T) events;
  ac_checkpoints : checkpoints_ok T w;
}.

(** When a call failed after [n] accepted events: only a failing append leaves
    events out, some of those its call emitted. *)
Definition append_failed (e : runErr) : bool := match e with RunAppend _ => true | _ => false end.

Record broken (n : Z) (e : runErr) (w : rworld) : Prop := {
  bk_owed : 0 <= owed (rw_gen w);
  bk_bound : counts (rw_appended w) + owed (rw_gen w) <= n;
  bk_exact : append_failed e = false -> counts (rw_appended w) + owed (rw_gen w) = n;
  bk_checkpoints : exists T, checkpoints_ok T w;
}.

Lemma accounts_broken n T events e w : accounts n T events w -> append_failed e = true \/ events = [] -> broken n e w.
Proof.
  intros [Hg _ Hn Hc He Hk] Hor. pose proof (pending_nonneg _ Hg). pose proof (storm_nonneg _ Hg).
  assert (0 <= counts events) by (apply sum_by_nonneg; eapply Forall_impl; [exact He|]; simpl; lia).
  split; [unfold owed; lia | lia | | by exists T]. intros Hf. destruct Hor as [Hor| ->]; [congruence|]. change (counts []) with 0 in Hc. lia.
Qed.

Lemma accounts_owed n T events w : accounts n T events w -> owed (rw_gen w) <= n.
Proof.
  intros [Hg _ Hn Hc He Hk]. assert (0 <= counts events) by (apply sum_by_nonneg; eapply Forall_impl; [exact He|]; simpl; lia). lia.
Qed.

Lemma Now_accounts n T events E : hoare (accounts n T events) Now (fun t w => time_zero < t /\ accounts n T events w) E.
Proof.
  intros w [Hg Hl Hn Hc He [K1 K2 K3 K4 K5]]. unfold Now. destruct (rw_clock w) as [|t ts] eqn:Ec.
  - split; [done|]. split; try done. split; try done. by rewrite Ec.
  - apply Forall_cons in K5 as [Ht Hts]. split; [done|]. by split.
Qed.

Lemma Now_runner n T events w : accounts n T events w -> exists t w', Now w = (Ok t, w') /\ accounts n T events w' /\ rw_runner w' = rw_runner w.
Proof.
  intros Hw. pose proof (Now_accounts n T events (fun _ _ => False) w Hw) as H. unfold Now in *. destruct (rw_clock w); destruct H as [_ H]; eexists _, _; by split_and!.
Qed.

Lemma checkpoints_stored n T events w candidate :
  accounts n T events w -> rn_checkpointedAt (rw_runner w) < candidate <= rn_checkpointCandidate (rw_runner w) -> rn_checkpointCandidate (rw_runner w) = candidate ->
  accounts n T events (upd_runner (fun r => set_checkpoint (rn_checkpointCandidate r) candidate (rn_lastCheckpointCall r) r)
    (mkRworld (rw_runner w) (rw_gen w) (rw_log w) (rw_appended w) (rw_checkpoints w ++ [candidate]) (rw_clock w) (rw_outcomes w))).
Proof.
  intros [Hg Hl Hn Hc He [K1 K2 K3 K4 K5]] Hlt Hcand. split; try done. split; simpl; try done; [| |lia].
  - apply StronglySorted_app_2; [|done|repeat constructor]. intros x y Hx ->%list_elem_of_singleton. rewrite Forall_forall in K3. specialize (K3 x Hx). simpl in *. lia.
  - apply Forall_app. split; [|by constructor]. eapply Forall_impl; [exact K3|]. simpl. lia.
Qed.

(** The last checkpoint covers every event seen, when checkpoints are stored. *)
Definition caught_up (w : rworld) : Prop := rc_Checkpoint (rn_config (rw_runner w)) = true -> rn_checkpointedAt (rw_runner w) = rn_lastAt (rw_runner w).

Lemma checkpoint_accounts n T watermark force : watermark <= T ->
  hoare (accounts n T []) (checkpoint watermark force) (fun _ w => accounts n T [] w /\ (force = true -> watermark = T -> caught_up w)) (broken n).
Proof.
  intros Hw w Hacc. pose proof Hacc as [Hg Hl Hn Hc He [K1 K2 K3 K4 K5]]. unfold checkpoint, bind at 1, gets at 1.
  destruct (rc_Checkpoint (rn_config (rw_runner w))) eqn:Ecfg; cbn [negb].
  2: { split; [done|]. intros _ _ H. congruence. }
  set (candidate := if rn_checkpointCandidate (rw_runner w) <? watermark then watermark else rn_checkpointCandidate (rw_runner w)). unfold bind at 1, modify at 1.
  set (w1 := upd_runner _ w). assert (accounts n T [] w1) as H1.
  { split; try done. split; simpl; try done. unfold candidate. case_if; bool_to_prop; lia. }
  assert (rn_checkpointCandidate (rw_runner w) <= candidate /\ watermark <= candidate /\ candidate <= T) as (C1 & C2 & C3) by (unfold candidate; case_if; bool_to_prop; lia).
  destruct (candidate <=? rn_checkpointedAt (rw_runner w)) eqn:Ele; bool_to_prop.
  { split; [done|]. intros _ -> _. simpl. lia. }
  unfold bind at 1. destruct (Now_runner n T [] w1 H1) as (t & w2 & -> & H2 & R2).
  case_if; [split; [done|]|].
  { intros ->. match goal with H : _ = true |- _ => simpl in H; done end. }
  unfold bind at 1, modify at 1. set (w3 := upd_runner _ w2). assert (accounts n T [] w3) as H3.
  { destruct H2 as [A1 A2 A3 A4 A5 [B1 B2 B3 B4 B5]]. split; try done. }
  unfold bind at 1, store_checkpoint, bind at 1, outcome_.
  assert (rn_checkpointedAt (rw_runner w3) < candidate <= rn_checkpointCandidate (rw_runner w3) /\ rn_checkpointCandidate (rw_runner w3) = candidate) as [C4 C5].
  { unfold w3. simpl. rewrite R2. simpl. lia. }
  destruct (rw_outcomes w3) as [|[] bs] eqn:Eo; cbn [negb]; unfold modify, fail.
  - split; [by apply checkpoints_stored|]. intros _ -> _. simpl. rewrite (ck_last _ _ (ac_checkpoints _ _ _ _ H2)). lia.
  - split; [exact (checkpoints_stored n T [] (mkRworld (rw_runner w3) (rw_gen w3) (rw_log w3) (rw_appended w3) (rw_checkpoints w3) (rw_clock w3) bs) candidate
      ltac:(destruct H3 as [A1 A2 A3 A4 A5 [B1 B2 B3 B4 B5]]; by split) C4 C5)|].
    intros _ -> _. simpl. rewrite (ck_last _ _ (ac_checkpoints _ _ _ _ H2)). lia.
  - eapply accounts_broken; [|by right]. destruct H3 as [A1 A2 A3 A4 A5 [B1 B2 B3 B4 B5]]. by split.
Qed.

Section Contract.
Context (print : jvalue -> list Z) (format_time : time -> string) (appender : Appender).

Lemma append_event_accounts n T event events :
  hoare (accounts n T (event :: events)) (append_event print format_time appender event) (fun _ w => accounts n T events w) (broken n).
Proof.
  apply (hoare_bind _ _ (fun _ w => accounts n T (event :: events) w)).
  { eapply hoare_post; [| |apply (Now_accounts _ _ _ (broken n))]; [by intros t w [_ H] | done]. }
  intros now w Hw. destruct (Append_ _ _ _ _ _ _) as [[rec|e] log].
  - destruct Hw as [Hg Hl Hn Hc He [K1 K2 K3 K4 K5]]. apply Forall_cons in He as [[He1 _] He]. split; try done; simpl;
      rewrite counts_app; unfold counts in *; simpl in *; lia.
  - destruct (accounts_broken _ _ _ (RunAppend e) _ Hw (or_introl eq_refl)) as [Hb Hb' _ (T' & [K1 K2 K3 K4 K5])]. split; [done | done | done|]. exists T'. by split.
Qed.

Lemma append_from_accounts n T events watermark : watermark <= T ->
  hoare (accounts n T events) (append_from print format_time appender watermark events) (fun m w => m <= T /\ accounts n T [] w) (broken n).
Proof.
  revert watermark. induction events as [|event events IH]; intros watermark Hm; cbn [append_from]; [by apply hoare_ret|].
  intros w Hw. assert (ge_LastAt event <= T) as He by (destruct Hw as [_ _ _ _ He _]; apply Forall_cons in He; tauto). revert w Hw.
  apply (hoare_bind _ _ (fun _ w => accounts n T events w)); [apply append_event_accounts|]. intros _. apply IH. by case_if.
Qed.


(** Appending and checkpointing leave the generator alone. *)
Lemma append_from_gen events : forall watermark w, rw_gen (append_from print format_time appender watermark events w).2 = rw_gen w.
Proof.
  induction events as [|event events IH]; intros watermark w; [done|]. cbn [append_from]. unfold bind at 1, append_event, bind at 1.
  assert (exists t w', Now w = (Ok t, w') /\ rw_gen w' = rw_gen w) as (t & w' & -> & <-) by (unfold Now; destruct (rw_clock w); by eexists _, _).
  destruct (Append_ _ _ _ _ _ _) as [[rec|e] log]; [|done]. by rewrite IH.
Qed.

Lemma checkpoint_gen watermark force w : rw_gen (checkpoint watermark force w).2 = rw_gen w.
Proof.
  unfold checkpoint, bind at 1, gets at 1. case_if; [done|]. unfold bind at 1, modify at 1. case_if; [done|]. unfold bind at 1.
  match goal with |- context [Now ?x] => assert (exists t w', Now x = (Ok t, w') /\ rw_gen w' = rw_gen w) as (t & w' & -> & <-) by (unfold Now; by destruct (rw_clock x); eexists _, _) end.
  case_if; [done|]. unfold bind, modify, store_checkpoint, bind, outcome_. simpl. by destruct (rw_outcomes w') as [|[]].
Qed.

(** A call of the generator: what it emits is to be appended. *)
Lemma generator_call n T call w : accounts n T [] w -> call_ok call -> n + (if accepts call then 1 else 0) <= max_u64 ->
  not_after T (gen_step call (rw_gen w)).1 -> gen_le T (gen_step call (rw_gen w)).2 ->
  accounts (n + (if accepts call then 1 else 0)) T (gen_step call (rw_gen w)).1
    (mkRworld (rw_runner w) (gen_step call (rw_gen w)).2 (rw_log w) (rw_appended w) (rw_checkpoints w) (rw_clock w) (rw_outcomes w)).
Proof.
  intros Hw Hcall Hn Hl Hle. pose proof (accounts_owed _ _ _ _ Hw) as Ho. destruct Hw as [Hg _ Ha Hc _ [K1 K2 K3 K4 K5]]. change (counts []) with 0 in Hc.
  destruct (gen_step_spec call (rw_gen w) Hg Hcall ltac:(lia)) as [S1 S2 S3 S4 S5 _ _]. split; simpl; try done; [lia|].
  rewrite Forall_forall in *. intros e He. specialize (S5 e He). specialize (Hl e He). simpl in *. lia.
Qed.

Lemma flush_tick_accounts n T at_ : time_zero <= at_ -> n <= max_u64 ->
  hoare (accounts n T []) (flush_tick print format_time appender at_) (fun _ w => accounts n T [] w) (broken n).
Proof.
  intros Ht Hn. apply (hoare_bind _ _ (fun events w => accounts n T events w)).
  { intros w Hw. destruct (Flush_le T at_ (rw_gen w) (ac_le _ _ _ _ Hw)) as [H1 H2].
    pose proof (generator_call n T (CallFlush at_) w Hw Ht ltac:(simpl; lia) H1 H2) as H. simpl in H. rewrite Z.add_0_r in H. unfold generate. by destruct (Flush at_ (rw_gen w)). }
  intros events. apply (hoare_bind _ _ (fun m w => m <= T /\ accounts n T [] w)).
  { intros w Hw. apply append_from_accounts; [|done]. destruct (ck_order _ _ (ac_checkpoints _ _ _ _ Hw)). lia. }
  intros m. apply hoare_fact. intros Hm. eapply hoare_post; [| |by apply checkpoint_accounts]; [by intros [] w [H _] | done].
Qed.

(** Draining leaves nothing owed, and a final checkpoint covers every event. *)
Lemma drain_accounts n T : n <= max_u64 ->
  hoare (accounts n T []) (drain print format_time appender true)
    (fun _ w => accounts n T [] w /\ counts (rw_appended w) = n /\ caught_up w) (broken n).
Proof.
  intros Hn. set (dry := fun w => gn_pending (rw_gen w) = ∅ /\ gn_storm (rw_gen w) = None).
  apply (hoare_bind _ _ (fun t w => time_zero < t /\ accounts n T [] w)); [apply Now_accounts|]. intros now. apply hoare_fact. intros Ht.
  apply (hoare_bind _ _ (fun events w => accounts n T events w /\ dry w)).
  { intros w Hw. destruct (Drain_le T now (rw_gen w) (ac_le _ _ _ _ Hw)) as [H1 H2]. destruct (Drain_move now (rw_gen w) (ac_gen _ _ _ _ Hw) ltac:(lia)) as (_ & Hp & Hs).
    pose proof (generator_call n T (CallDrain now) w Hw ltac:(simpl; lia) ltac:(simpl; lia) H1 H2) as H. simpl in H. rewrite Z.add_0_r in H. unfold generate.
    by destruct (Drain now (rw_gen w)). }
  intros events. apply (hoare_bind _ _ (fun m w => m <= T /\ (accounts n T [] w /\ dry w))).
  { intros w [Hw Hd]. pose proof (append_from_accounts n T events time_zero) as H.
    specialize (H ltac:(destruct (ck_order _ _ (ac_checkpoints _ _ _ _ Hw)); lia) w Hw). pose proof (append_from_gen events time_zero w) as Hgen.
    unfold appendAll. destruct (append_from _ _ _ _ _ w) as [[m|e] w']; [|done]. simpl in Hgen. destruct H as [? ?]. unfold dry. by rewrite Hgen. }
  intros m. apply hoare_fact. intros Hm. apply (hoare_bind _ _ (fun last w => last = T /\ (accounts n T [] w /\ dry w))).
  { intros w [Hw Hd]. split; [apply Hw | done]. }
  intros last. apply hoare_fact. intros ->. cbn [negb]. intros w [Hw Hd].
  assert ((if m <? T then T else m) = T) as HT by (case_if; bool_to_prop; lia). rewrite HT.
  pose proof (checkpoint_accounts n T T true ltac:(lia) w Hw) as H. pose proof (checkpoint_gen T true w) as Hgen.
  destruct (checkpoint T true w) as [[u|e] w']; [|done]. destruct H as [H Hc]. simpl in Hgen. split_and!; [done | | by apply Hc].
  destruct H as [_ _ _ Hcount _ _]. change (counts []) with 0 in Hcount. unfold owed in Hcount. rewrite Hgen in Hcount. destruct Hd as [Hp Hs]. rewrite Hp, Hs in Hcount. simpl in Hcount.
  rewrite map_sum_empty in Hcount. lia.
Qed.

(** Whether the generator accepts an event. *)
Definition event_accepted (event : DockerEvent) : bool :=
  accepts (CallObserve (mkSignal (de_ResourceType event) (de_ResourceID event) (de_Action event) time_zero None) time_zero).

Lemma recordLastAt_accounts n T at_ E : hoare (accounts n T []) (recordLastAt at_) (fun _ w => exists T', T <= T' /\ at_ <= T' /\ accounts n T' [] w) E.
Proof.
  intros w [Hg Hl Hn Hc He [K1 K2 K3 K4 K5]]. unfold recordLastAt, modify.
  destruct (T <? at_) eqn:Eq; bool_to_prop; [exists at_ | exists T]; (split_and!; [lia | lia|]).
  - split; try done; [by apply (gen_le_mono T); [lia|]|]. split; simpl; rewrite ?K1, ?(proj2 (Z.ltb_lt _ _) Eq); simpl; try done. lia.
  - split; try done. split; simpl; rewrite ?K1, ?(proj2 (Z.ltb_ge _ _) Eq); simpl; done.
Qed.

Lemma observe_accounts n T event inspected : time_zero <= de_OccurredAt event -> n + 1 <= max_u64 ->
  let k := if event_accepted event then 1 else 0 in
  hoare (accounts n T []) (observe print format_time appender event inspected) (fun _ w => exists T', accounts (n + k) T' [] w) (broken (n + k)).
Proof.
  intros Ht Hn k. assert (0 <= k <= 1) as Hk by (unfold k; case_if; lia).
  apply (hoare_bind _ _ (fun at_ w => time_zero < at_ /\ accounts n T [] w)).
  { destruct (is_zero (de_OccurredAt event)) eqn:Ez; [apply Now_accounts|].
    apply hoare_ret. intros w Hw. split; [|done]. unfold is_zero in Ez. bool_to_prop. lia. }
  intros at_. apply hoare_fact. intros Hat.
  apply (hoare_bind _ _ (fun _ w => exists T', T <= T' /\ at_ <= T' /\ accounts n T' [] w)); [apply recordLastAt_accounts|].
  intros _ w (T' & HT & Ha & Hw). revert w Hw. apply (hoare_bind _ _ (fun _ w => accounts n T' [] w)); [by intros w Hw|]. intros r.
  cbv zeta. apply (hoare_bind _ _ (fun clock w => time_zero < clock /\ accounts n T' [] w)).
  { apply Now_accounts. }
  intros clock. apply hoare_fact. intros Hclock. intros w Hw. unfold bind at 1, get at 1. set (signal := mkSignal _ _ _ _ _).
  destruct (Observe signal clock (rw_gen w)) as [[emitted|e] g] eqn:E.
  2: { assert (k = 0) as ->; [|rewrite Z.add_0_r; eapply accounts_broken; [done | by right]]. unfold k. change (event_accepted event) with (accepts (CallObserve signal clock)).
       revert E. unfold Observe. simpl. destruct (whitelisted _ _); simpl; [|by destruct (Flush _ _)]. destruct (validateSignal signal); [|done].
       simpl. destruct (Flush _ _) as [l g1]. by destruct (gn_pending g1 !! _); [|case_if]. }
  assert (is_zero at_ = false) as Hz by (unfold is_zero; apply Z.eqb_neq; lia).
  destruct (Observe_le T' signal clock (rw_gen w) emitted g (ac_le _ _ _ _ Hw) Hz Ha E) as [Hl Hg].
  pose proof (generator_call n T' (CallObserve signal clock) w Hw ltac:(simpl; lia)) as Hcall. cbn [gen_step] in Hcall. rewrite E in Hcall. cbn [fst snd] in Hcall.
  change (accepts (CallObserve signal clock)) with (event_accepted event) in Hcall. fold k in Hcall. specialize (Hcall ltac:(lia) Hl Hg).
  unfold bind at 1, generate at 1. set (w1 := mkRworld _ _ _ _ _ _ _) in *.
  assert (time_zero <= T') as HT' by lia.
  refine (hoare_bind _ _ (fun m w => m <= T' /\ accounts (n + k) T' [] w) _ _ _ (append_from_accounts (n + k) T' emitted time_zero HT') _ w1 Hcall).
  intros m. apply hoare_fact. intros Hm. eapply hoare_post; [| |by apply checkpoint_accounts]; [|done]. intros [] w' [H _]. by exists T'.
Qed.

(** ** The loop *)

Definition input_ok (i : input) : Prop :=
  match i with
  | InTick (Some at_) => time_zero <= at_
  | InEvent (Some (event, _)) => time_zero <= de_OccurredAt event
  | _ => True
  end.

(** The events a loop that does not fail accepts. *)
Fixpoint loop_accepted (eventsIn errorsIn : bool) (inputs : list input) : Z :=
  if negb eventsIn && negb errorsIn then 0
  else
    match inputs with
    | [] => 0
    | InDone :: _ => 0
    | InTick _ :: rest => loop_accepted eventsIn errorsIn rest
    | InEvent event :: rest =>
      if eventsIn then
        match event with
        | None => loop_accepted false errorsIn rest
        | Some (event, _) => (if event_accepted event then 1 else 0) + loop_accepted eventsIn errorsIn rest
        end
      else loop_accepted eventsIn errorsIn rest
    | InError err :: rest =>
      if errorsIn then match err with None => loop_accepted eventsIn false rest | Some _ => 0 end
      else loop_accepted eventsIn errorsIn rest
    end.

Lemma loop_accepted_nonneg inputs : forall eventsIn errorsIn, 0 <= loop_accepted eventsIn errorsIn inputs.
Proof.
  induction inputs as [|[|at_|[[event inspected]|]|[closed|]] inputs IH]; intros [] []; simpl; repeat case_if; try lia; auto;
    match goal with |- context [loop_accepted ?a ?b inputs] => specialize (IH a b); lia end.
Qed.

Definition settled (n : Z) (r : option (option runErr)) (w : rworld) : Prop :=
  (exists T, accounts n T [] w) /\ (r <> None -> counts (rw_appended w) = n /\ caught_up w).

Lemma drain_settled n (r : option runErr) : n <= max_u64 ->
  hoare (fun w => exists T, accounts n T [] w) (drain print format_time appender true ;;; ret (Some r)) (settled n) (broken n).
Proof.
  intros Hn w [T Hw]. revert w Hw. eapply hoare_bind; [by apply drain_accounts|]. intros u. apply hoare_ret. intros w (Hw & Hc & Hu). split; [by exists T | done].
Qed.

(** Where a loop failed: after a prefix of the inputs. *)
Definition broken_in (n : Z) (eventsIn errorsIn : bool) (inputs : list input) (e : runErr) (w : rworld) : Prop :=
  exists pre, pre `prefix_of` inputs /\ broken (n + loop_accepted eventsIn errorsIn pre) e w.

Lemma loop_accepted_nil eventsIn errorsIn : loop_accepted eventsIn errorsIn [] = 0.
Proof. by destruct eventsIn, errorsIn. Qed.

Lemma broken_here n eventsIn errorsIn inputs e w : broken n e w -> broken_in n eventsIn errorsIn inputs e w.
Proof. intros H. exists []. split; [apply prefix_nil|]. by rewrite loop_accepted_nil, Z.add_0_r. Qed.

Lemma broken_later n eventsIn errorsIn n' eventsIn' errorsIn' i inputs e w :
  (forall pre, n' + loop_accepted eventsIn' errorsIn' pre = n + loop_accepted eventsIn errorsIn (i :: pre)) ->
  broken_in n' eventsIn' errorsIn' inputs e w -> broken_in n eventsIn errorsIn (i :: inputs) e w.
Proof. intros Hn (pre & Hp & H). exists (i :: pre). split; [by apply prefix_cons|]. by rewrite <- Hn. Qed.

Abbreviation loop_spec n eventsIn errorsIn inputs := (hoare (fun w => exists T, accounts n T [] w) (run_loop print format_time appender eventsIn errorsIn inputs)
    (settled (n + loop_accepted eventsIn errorsIn inputs)) (broken_in n eventsIn errorsIn inputs)).

(** One input is consumed and the loop goes on. *)
Lemma loop_spec_cons n eventsIn errorsIn n' eventsIn' errorsIn' i inputs :
  (forall pre, n' + loop_accepted eventsIn' errorsIn' pre = n + loop_accepted eventsIn errorsIn (i :: pre)) ->
  loop_spec n' eventsIn' errorsIn' inputs ->
  hoare (fun w => exists T, accounts n' T [] w) (run_loop print format_time appender eventsIn' errorsIn' inputs)
    (settled (n + loop_accepted eventsIn errorsIn (i :: inputs))) (broken_in n eventsIn errorsIn (i :: inputs)).
Proof. intros Hn H. rewrite <- Hn. eapply hoare_post; [done | | exact H]. intros e w. by apply broken_later. Qed.

Lemma loop_drains n eventsIn errorsIn inputs (r : option runErr) : n <= max_u64 -> loop_accepted eventsIn errorsIn inputs = 0 ->
  hoare (fun w => exists T, accounts n T [] w) (drain print format_time appender true ;;; ret (Some r))
    (settled (n + loop_accepted eventsIn errorsIn inputs)) (broken_in n eventsIn errorsIn inputs).
Proof. intros Hn ->. rewrite Z.add_0_r. eapply hoare_post; [done | | by apply drain_settled]. intros e w. apply broken_here. Qed.

Lemma run_loop_accounts inputs : forall n eventsIn errorsIn, Forall input_ok inputs -> n + lenZ inputs <= max_u64 -> loop_spec n eventsIn errorsIn inputs.
Proof.
  induction inputs as [|i inputs IH]; intros n eventsIn errorsIn Hok Hn.
  { assert (n <= max_u64) as Hn' by (unfold lenZ in Hn; simpl in Hn; lia).
    destruct eventsIn, errorsIn; simpl; [| | |by apply (loop_drains n false false [])]; rewrite Z.add_0_r; apply hoare_ret; by split. }
  assert (lenZ (i :: inputs) = lenZ inputs + 1 /\ 0 <= lenZ inputs) as [Hlen Hpos] by (unfold lenZ; simpl; lia).
  apply Forall_cons in Hok as [Hi Hok]. cbn [run_loop]. destruct (negb eventsIn && negb errorsIn) eqn:Eopen.
  { apply loop_drains; [lia|]. simpl. by rewrite Eopen. }
  assert (forall pre, loop_accepted eventsIn errorsIn (i :: pre) = match i with
    | InDone => 0 | InTick _ => loop_accepted eventsIn errorsIn pre
    | InEvent None => loop_accepted false errorsIn pre
    | InEvent (Some (event, _)) => (if eventsIn then if event_accepted event then 1 else 0 else 0) + loop_accepted eventsIn errorsIn pre
    | InError None => loop_accepted eventsIn false pre
    | InError (Some _) => if errorsIn then 0 else loop_accepted eventsIn errorsIn pre end) as Hacc.
  { intros pre. cbn [loop_accepted]. rewrite Eopen. destruct i as [|at_|[[event inspected]|]|[closed|]]; try done; by destruct eventsIn, errorsIn. }
  destruct i as [|[at_|]|[[event inspected]|]|[closed|]].
  - apply loop_drains; [lia | by rewrite Hacc].
  - intros w [T Hw]. revert w Hw. apply (hoare_bind _ _ (fun _ w => accounts n T [] w)).
    + eapply hoare_post; [| | apply flush_tick_accounts; [done | lia]]; [done|]. intros e w. apply broken_here.
    + intros _. eapply hoare_pre; [|eapply (loop_spec_cons n _ _ n); [|apply IH; [done | lia]]]; [by intros w Hw; exists T|]. intros pre. by rewrite Hacc.
  - eapply (loop_spec_cons n _ _ n); [|apply IH; [done | lia]]. intros pre. by rewrite Hacc.
  - destruct eventsIn; [|eapply (loop_spec_cons n _ _ n); [|apply IH; [done | lia]]; intros pre; by rewrite Hacc].
    intros w [T Hw]. revert w Hw. pose proof (observe_accounts n T event inspected Hi ltac:(lia)) as Ho. cbv zeta in Ho. set (k := if event_accepted event then 1 else 0) in *.
    assert (0 <= k <= 1) by (unfold k; case_if; lia). apply (hoare_bind _ _ (fun _ w => exists T', accounts (n + k) T' [] w)).
    + eapply hoare_post; [| | exact Ho]; [done|]. intros e w Hb. exists [InEvent (Some (event, inspected))]. split; [by apply prefix_cons, prefix_nil|].
      by rewrite Hacc, loop_accepted_nil, Z.add_0_r.
    + intros _. eapply (loop_spec_cons n _ _ (n + k)); [|apply IH; [done | lia]]. intros pre. rewrite Hacc. fold k. lia.
  - assert ((if eventsIn then run_loop print format_time appender false errorsIn inputs else run_loop print format_time appender eventsIn errorsIn inputs) =
      run_loop print format_time appender false errorsIn inputs) as -> by (by destruct eventsIn).
    eapply (loop_spec_cons n _ _ n); [|apply IH; [done | lia]]. intros pre. by rewrite Hacc.
  - destruct errorsIn; [apply loop_drains; [lia | by rewrite Hacc] | eapply (loop_spec_cons n _ _ n); [|apply IH; [done | lia]]; intros pre; by rewrite Hacc].
  - assert ((if errorsIn then run_loop print format_time appender eventsIn false inputs else run_loop print format_time appender eventsIn errorsIn inputs) =
      run_loop print format_time appender eventsIn false inputs) as -> by (by destruct errorsIn).
    eapply (loop_spec_cons n _ _ n); [|apply IH; [done | lia]]. intros pre. by rewrite Hacc.
Qed.
End Contract.

(** Only [Run] itself changes whether the runner runs. *)
Definition steady {A} (m : runM A) : Prop := forall w, rn_running (rw_runner (m w).2) = rn_running (rw_runner w).

Create HintDb steady.
Lemma steady_ret {A} (a : A) : steady (ret a).
Proof. done. Qed.
Lemma steady_fail {A} e : steady (fail (A := A) e).
Proof. done. Qed.
Lemma steady_gets {A} (f : rworld -> A) : steady (gets f).
Proof. done. Qed.
Lemma steady_get : steady get.
Proof. done. Qed.
Lemma steady_bind {A B} (m : runM A) (f : A -> runM B) : steady m -> (forall a, steady (f a)) -> steady (bind m f).
Proof. intros Hm Hf w. unfold bind. specialize (Hm w). destruct (m w) as [[a|e] w']; [by rewrite Hf | done]. Qed.
Lemma steady_upd f : (forall r, rn_running (f r) = rn_running r) -> steady (modify (upd_runner f)).
Proof. intros Hf w. apply Hf. Qed.
Lemma steady_Now : steady Now.
Proof. intros w. unfold Now. by destruct (rw_clock w). Qed.
Lemma steady_generate call : steady (generate call).
Proof. intros w. unfold generate. by destruct (call (rw_gen w)). Qed.
Lemma steady_store candidate : steady (store_checkpoint candidate).
Proof. intros w. unfold store_checkpoint, bind, outcome_. by destruct (rw_outcomes w) as [|[]]. Qed.
#[export] Hint Resolve steady_ret steady_fail steady_gets steady_get steady_bind steady_Now steady_generate steady_store : steady.

Lemma steady_checkpoint watermark force : steady (checkpoint watermark force).
Proof.
  apply steady_bind; [auto with steady|]. intros r. case_if; [auto with steady|]. apply steady_bind; [by apply steady_upd|]. intros _.
  case_if; [auto with steady|]. apply steady_bind; [auto with steady|]. intros now. case_if; [auto with steady|].
  apply steady_bind; [by apply steady_upd|]. intros _. apply steady_bind; [auto with steady|]. intros _. by apply steady_upd.
Qed.

Lemma steady_append print format_time appender events : forall watermark, steady (append_from print format_time appender watermark events).
Proof.
  induction events as [|event events IH]; intros watermark; cbn [append_from]; [auto with steady|]. apply steady_bind; [|intros _; apply IH].
  apply steady_bind; [auto with steady|]. intros now w. by destruct (Append_ _ _ _ _ _ _) as [[]].
Qed.
#[export] Hint Resolve steady_checkpoint steady_append : steady.

Lemma run_loop_running print format_time appender inputs : forall eventsIn errorsIn, steady (run_loop print format_time appender eventsIn errorsIn inputs).
Proof.
  assert (steady (drain print format_time appender true)) as Hd by (unfold drain, appendAll, LastEventAt; auto 10 with steady).
  assert (forall event inspected, steady (observe print format_time appender event inspected)) as Ho.
  { intros event inspected. unfold observe. apply steady_bind; [case_if; auto with steady|]. intros at_.
    apply steady_bind; [apply steady_upd; intros r; by case_if|]. intros _. apply steady_bind; [auto with steady|]. intros r. cbv zeta.
    apply steady_bind; [auto with steady|]. intros clock. apply steady_bind; [auto with steady|]. intros w. destruct (Observe _ _ _) as [[emitted|e] g]; [|auto with steady].
    unfold appendAll. auto 10 with steady. }
  assert (forall at_, steady (flush_tick print format_time appender at_)) as Hf by (intros at_; unfold flush_tick, appendAll; auto 10 with steady).
  induction inputs as [|[|[at_|]|[[event inspected]|]|[closed|]] inputs IH]; intros [] []; cbn [run_loop negb andb]; auto with steady.
Qed.


(** ** A run *)

Definition runner_config : RunnerConfig := mkRunnerConfig false true.
Definition runner_log : osys := mkOsys (Open "agent" 1 (mkOptions 10000 10000 1 1) (mkOptions 10000 10000 1 1) 0 (demo_start [])).2 ∅.
Definition demo_event (id : string) (at_ : time) : DockerEvent := mkDockerEvent "container" id "start" at_ ∅.
Definition event_input (id : string) (at_ : time) : input := InEvent (Some (demo_event id at_, None)).

(** Two containers start; the first one again within its window; a tick. *)
Definition demo_inputs : list input :=
  [event_input "a" (100 * second); event_input "b" (101 * second); event_input "a" (104 * second); InTick (Some (105 * second))].

Definition demo_world : rworld :=
  mkRworld (mkRunner runner_config time_zero false time_zero time_zero time_zero)
    (mkGenerator DefaultConfig ∅ time_zero 0 None) runner_log [] [] (replicate 40 (105 * second)) [].

Definition demo_run (inputs : list input) := Run json_print decimal (mkAppender IdempotentWAL) true inputs demo_world.


(** The checkpoint of a tick passes an event that is not in the log: the second
    container's start at 101 seconds is still pending when 104 seconds is stored,
    and a restart replays events from there. *)
Lemma checkpoint_passes_pending :
  let w := (demo_run demo_inputs).2 in
  rw_checkpoints w = [104 * second] /\ ge_ResourceID <$> rw_appended w = ["a"] /\
  exists e, gn_pending (rw_gen w) !! signal_key (mkSignal "container" "b" "start" 0 None) = Some e /\ ge_LastAt e = 101 * second.
Proof.
  cbv zeta. split; [vm_compute; reflexivity|]. split; [vm_compute; reflexivity|]. eexists. split; vm_compute; reflexivity.
Qed.

(** An event that arrives with an earlier time than the one it is coalesced with
    makes a record that cannot be encoded: the run fails, and neither is recorded. *)
Lemma late_event_lost :
  let '(r, w) := demo_run [event_input "a" (100 * second); event_input "a" (99 * second); InTick (Some (105 * second))] in
  r = Err (RunAppend (AppAudit ErrInvalidPayload)) /\ rw_appended w = [] /\ owed (rw_gen w) = 0.
Proof. vm_compute. split; [reflexivity|]. split; reflexivity. Qed.
